(* ===== verification/_CoqProject ===== *)
-Q . S2P
Prelude.v
Regions.v
Physmap.v
PhysmapFacts.v
PhysmapThms.v
PhysmapAlloc.v
PhysmapSplit.v
PhysmapFree.v
PhysmapCases.v
BootPaging.v
PageWalk.v
BootPagingThms.v
BootPagingMap.v
BootPagingRange.v
BootIovec.v
ElfLoad.v
PhysPages.v
BootPagingCases.v
BootMalloc.v
BootMallocThms.v
BootMallocSafe.v
BootMallocRealloc.v
Pipe.v
HashTable.v
OrderedSet.v
ContigAlloc.v
ContigAllocThms.v
AvlTree.v
AvlRep.v
AvlFocus.v
AvlSearch.v
AvlInsert.v
AvlSwap.v
AvlDelete.v
AvlErase.v
AvlOps.v
BumpAlloc.v
FastSet.v
ContigTrees.v
AvlCases.v
PhysAlloc.v
PhysAllocSafe.v
Spinlock.v
TicketThms.v
McsThms.v
LockCases.v
WaitChain.v
ThreadMutex.v
Condvar.v
ThreadRwlock.v
ThreadCases.v
RadixTree.v
Utf.v
BitSearch.v
KernelHeap.v
KernelHeapRep.v
KernelHeapArena.v
KernelHeapSafe.v
PageHeap.v
KernelHeapCases.v
DescAlloc.v
BinarySearch.v
Uleb.v
BootString.v
TimeOfDay.v
Vector.v
Pool.v
Printk.v
Fat32Name.v
Fat32.v
Fat32Thms.v
Fat32Dir.v
Fat32Create.v
Fat32Atomic.v
Fat32Found.v
Fat32Mount.v
Fat32Cases.v
Partitions.v
Tmpfs.v
BootFat32.v
