(* ===== verification/Prelude.v ===== *)
(** * dgos: a verification library for the boot loader and kernel core

    dgos is an operating system for x86-64 written in C++.  Its boot loader
    (src/boot) reads the firmware's memory map, loads a kernel image with
    physical pages taken from that map, builds page tables and jumps to the
    kernel (src/kernel), handing the map over.  The kernel and the programs
    (src/user) run on a set of allocators, containers and codecs of the
    system's own.  This library models those that carry state or arithmetic
    of their own and proves what makes them correct.

    ** Parts, and where they are modelled

    The boot loader:

    - Physical memory map, boot/physmap.cc and boot/include/physmem_data.h:
      [Physmap].  [physmap] is the file's static state (the array of ranges
      and the three index counters), with one [PM] computation per function.
      [PhysmapFacts] has the abstract view [type_at] (which kind of memory an
      address is) and the invariant [physmap_wf]; [PhysmapThms],
      [PhysmapAlloc], [PhysmapFree] and [PhysmapSplit] relate validation,
      insertion, alloc_high, alloc_phys, free_phys and physmap_split_large to
      that view; [PhysmapCases] has concrete runs.
    - Page tables, boot/paging.cc and paging.h: [BootPaging], entries in
      memory by address.  [PageWalk] is the reference, the walk of the
      processor; [BootPagingThms], [BootPagingMap] and [BootPagingRange]
      show what paging_map_physical and paging_map_range do to it;
      [BootIovec] has the physical pieces of a virtual range.
    - Kernel image, boot/elf64.cc: [ElfLoad] (segments, the initial ram
      disk, header checks, relocation), on the page tables;
      [BootPagingCases] has concrete runs of all of these.
    - Boot heap, boot/malloc.cc: [BootMalloc], headers in memory by address.
      [BootMallocThms] reads them as a list of blocks ([tiled], [heap_wf]),
      [BootMallocSafe] states the allocator's contract for any sequence of
      calls, [BootMallocRealloc] that of realloc_aligned, and
      concrete heaps.
    - Boot string functions, boot/string.cc: [BootString].
    - Files, boot/fs/fat32.cc and boot/fs.cc: [BootFat32], the FAT32 reader
      with its buffers, handles and plans of transfers, its theorems and
      concrete volumes.

    The kernel:

    - Physical pages, kernel/arch/x86_64/cpu/phys_alloc.cc and .h:
      [PhysAlloc], the chain of free pages and the reference counts in one
      array; [PhysAllocSafe].
    - Linear address allocator, kernel/lib/contig_alloc.cc and .h:
      [ContigAlloc] over the interface [OrderedSet]; [ContigAllocThms].
    - The balanced tree behind it, kernel/lib/basic_set.h: [AvlTree], nodes
      with parent pointers in memory.  [AvlRep] and [AvlFocus] relate memory
      to trees, [AvlSearch], [AvlInsert], [AvlSwap], [AvlDelete], [AvlErase]
      and [AvlOps] have one operation each, [AvlCases] concrete trees; its
      nodes come from the bump allocator of kernel/lib/cc/memory.h,
      [BumpAlloc]; [FastSet] makes both an [OrderedSet], and [ContigTrees]
      runs the linear allocator on it.
    - Locks, kernel/lib/spinlock.cc and .h: [Spinlock], four kinds of lock as
      steps of any number of threads, with the theorems on the first two;
      [TicketThms], [McsThms], [LockCases].
    - Blocking synchronization, kernel/lib/threadsync.cc and .h: [WaitChain]
      (the rings of waiting threads), [ThreadMutex], [Condvar] and
      [ThreadRwlock], [ThreadCases].
    - Pipes, kernel/lib/pipe.cc and pipe.h: [Pipe] cuts enqueue and dequeue
      at their waits, and interleaves any number of callers.
    - Hash table, kernel/lib/hash_table.h and hash.h: [HashTable].
    - Shadow tree of the address sanitizer, kernel/lib/radix_tree.cc and .h:
      [RadixTree].
    - Descriptor numbers, kernel/lib/desc_alloc.cc and .h: [DescAlloc], over
      the bit searches of kernel/lib/bitsearch.h: [BitSearch].
    - Binary search, kernel/lib/bsearch.cc: [BinarySearch].
    - DWARF number encodings, kernel/lib/uleb.cc and uleb.h: [Uleb].
    - Time of day, kernel/lib/time.cc and time.h: [TimeOfDay].
    - Kernel heap, kernel/lib/heap.cc: [KernelHeap], arenas of blocks chained
      by size; [KernelHeapRep] and [KernelHeapArena] relate memory to lists
      of blocks, [KernelHeapSafe] has the contract, [KernelHeapCases] runs;
      the page heap of the same file is [PageHeap].
    - Vectors, kernel/lib/cc/vector.h: [Vector], a buffer of slots that are
      raw or hold an object, with its contract as a list.
    - Object pools, kernel/lib/pool.cc and pool.h: [Pool].
    - Formatted output, kernel/lib/printk.cc: [Printk], the formatter over any
      callback, and vsnprintf.
    - FAT32, kernel/fs/fat32/fat32.cc and fat32_decl.h: [Fat32Name] (directory
      entries as 32 bytes, names and their pieces, dates), [Fat32] (the
      allocation table, reading and writing files, looking up paths),
      [Fat32Create] (the transaction that adds entries to a directory) and
      [Fat32Mount] (mounting and the calls on open files).  [Fat32Thms] has
      the theorems on files, [Fat32Dir] on searching, [Fat32Atomic] on the
      transaction, [Fat32Found] on creating a file and finding it, and
      [Fat32Cases] concrete volumes.
    - Partitions and mounts, kernel/lib/dev_storage.cc, kernel/fs/mbr, gpt and
      iso9660_part.cc: [Partitions].
    - The ram disk, kernel/fs/tmpfs.cc: [Tmpfs].

    Programs: Unicode conversions, user/libutf/utf.cc: [Utf].

    [Regions] has what the allocators share on disjoint ranges, and bytes of
    memory by address.

    ** How components meet

    Where one component calls another, the caller is verified against an
    interface and the callee discharges it.

    - The memory map grows its array with the boot heap's realloc: [BootHeap]
      (in [Physmap]) is what it asks of it.
    - The page tables take their pages from the memory map: [PageSource] and
      [PageSourceLaws]; [PhysPages] discharges them with alloc_high.  Pages
      for data come from a page factory, [PageFactoryLaws], as the class
      page_factory_t of the source has it.
    - The loader is verified against the theorems on the page tables and the
      pieces; the read it calls is a parameter, and [BootFat32] has the one of
      FAT32 volumes, with the disk as parameter.
    - Mounting asks of a partition scheme only what [finds] says; the three
      schemes discharge it.  The ram disk is put in the same list of mounts.
    - The linear address allocator keeps its free ranges in two ordered sets:
      [OrderedSet] and [OrderedSetLaws] state what it relies on.  Sorted
      lists are one instance, [FastSet] (the AVL tree over the bump
      allocator, [NodeAlloc] and [ChunkAlloc]) the one the source uses.
    - FAT32 takes the conversions of [Utf] for its names, [TimeOfDay] for its
      dates and [BitSearch] for its sizes; the theorems on creating a file
      rest on those on names and on searching, and [Fat32Mount] shows that a
      mounted volume has the geometry they ask for.
    - The mutex, the condition variable and the blocking reader/writer lock
      share [WaitChain]; [Spinlock] has the steps they use.

    ** What the theorems show

    - Memory map: on every map of the invariant alloc_phys returns a block
      that was free and is now allocated and changes nothing else, or says
      there is none; free_phys gives back exactly the block, in the shapes
      for which the code does; insertion keeps the order; validation accepts
      exactly the valid maps; splitting changes no address's class.
    - Page tables: the processor's translation after the mapping functions is
      the one asked for, and unchanged elsewhere, whatever page sizes are
      used; every page mapped by paging_map_range is one of its own.
    - Loading: every byte of a kernel segment and of the ram disk is at the
      physical address its virtual address is translated to.
    - Boot heap: allocations are aligned, inside the heap and disjoint,
      release and reallocation change only their block, and the self-check
      accepts every heap that a sequence of mallocs and frees leads to.
    - Physical pages: no page is both free and held and none is lost; batches
      release each page once; the outcomes of allocating many.
    - Tree: insertion and removal are those of a finite set and keep order,
      balance, parent pointers and count; searches are logarithmic.
    - Linear allocator: allocation is best fit, release joins neighbours, and
      each changes exactly the addresses it is asked to, on lists and trees.
    - Locks: exclusion and, for ticket and queue locks, mutexes and condition
      variables, first-come order under every interleaving; no assertion
      fails.
    - Pipe: FIFO order under every interleaving; no assertion fails and no
      page outside the pool is touched.
    - Hash table: lookup, insert and del are those of a finite map.
    - Shadow tree: an array of bytes by address, with pages from a pool.
    - Kernel heap: what clients hold is mapped, aligned and disjoint after any
      sequence of calls; blocks of the page heap end at a guard page.
    - Vectors: every operation is one on lists, loses no object and touches
      none that is not there.  Pools: an item is held once.
    - Formatted output: vsnprintf stores the beginning of the text and a null
      inside the limit; integers are printed with their digits and width.
    - FAT32: reads and writes are those of the bytes of the file whichever
      clusters they are in; searching finds exactly the files of the name;
      creating a file leaves the directory as it was or with the whole file
      when the device fails at any point, and the file is found again; names
      survive being cut into pieces; a mounted volume is laid out as its
      parameter block says.
    - Boot FAT32: a read gives the bytes of the clusters of the file, however
      they are scattered and joined; searching a directory is the search of
      its entries.
    - Ram disk: an archive is served as it was packed, and mounting ends on
      any memory.  Partitions: what the tables of the drives have is mounted.
    - The rest: round trips of UTF-8 and DWARF numbers, bounds of the
      conversions that fill buffers, exactness of searches, copies and bit
      operations, and days since 1970.

    Runs on which the code departs from what it means to do (a wrong mask, a
    missing case, a deadlock) are lemmas in the same files or in the files of
    cases, evaluated on concrete states.

    ** Reading the model

    Integers are [Z], wrapped to their width with [u8] to [u64] where C++
    wraps.  Stateful code is a computation in [M], a function from the state
    to an [outcome]; [Fault] is what has no return (a kernel assertion, a
    panic), no meaning (an access outside an array, a null pointer) or no
    fuel.  The boot loader's assert prints and carries on, so there a failed
    assertion is counted in the state instead.  uintptr_t has 64 bits, as in
    the kernel and the EFI boot loader; take_pages, which only the EFI loader
    gives an effect, does nothing to the map.  Payload bytes of the boot heap
    are not modelled; what the loader stores is a list of writes.  Concurrent
    code is a step relation of any number of threads; shared accesses of the
    spinlocks are one step each and sequentially consistent, and stretches
    under a lock are one step where nothing else can see inside.

    Loops whose recursion is not structural take fuel, and the operations
    pass a bound read off the state: the number of ranges of the map, of
    headers of the heap plus two, of pages of the pipe plus three, of bytes
    of mapped memory plus one, of pages a fill touches, of items searched,
    the height bound of a tree, the length of a chain, the four levels of
    the page tables.  The theorems say that the operations return, so these
    bounds are enough; where the source does not end, the theorem says so for
    every amount of fuel.  paging_iovec and the walks of [BootFat32] take
    their fuel as an argument, since tables may be rings; the theorems ask
    for one round per page and two more, and for one more than clusters and
    entries.

    ** Not modelled

    Device drivers, interrupt and CPU setup, firmware calls, consoles and the
    network code, which are hardware, block I/O or glue; the .bits.h headers,
    which are generated; the scheduler and context switches; the kernel's
    page tables (mmu.cc), whose state is the processor's and which are
    interleaved with fault handling and device memory; the other file systems
    and the boot loader's reader of compact discs.  The priority queue is used by no
    code, and the red-black tree of kernel/lib/rbtree.h is not what the
    allocators use.  Of the modelled files the debug dumps, the copy of the
    map handed to the kernel, and the FAT32 calls that answer ENOSYS are left
    out; the paging of its mapping is memory that is there.
    physmap_split_large is modelled although its only call is commented
    out. *)

From stdpp Require Export base tactics list numbers option sorting.
From Stdlib Require Export ZArith Lia.

#[local] Open Scope Z_scope.

(** ** Machine integers

    An unsigned w-bit C value is a [Z] in [0, 2^w); every C expression that
    may wrap is wrapped explicitly with one of these. *)

Definition u8 (z : Z) : Z := z mod 2 ^ 8.
Definition u16 (z : Z) : Z := z mod 2 ^ 16.
Definition u32 (z : Z) : Z := z mod 2 ^ 32.
Definition u64 (z : Z) : Z := z mod 2 ^ 64.

(** Two's-complement reinterpretation of a w-bit pattern as signed. *)
Definition swrap (w z : Z) : Z := (z + 2 ^ (w - 1)) mod 2 ^ w - 2 ^ (w - 1).
Definition s8 (z : Z) : Z := swrap 8 z.
Definition s32 (z : Z) : Z := swrap 32 z.
Definition s64 (z : Z) : Z := swrap 64 z.

Lemma u8_small z : 0 ≤ z < 2 ^ 8 → u8 z = z.
Proof. apply Z.mod_small. Qed.
Lemma u16_small z : 0 ≤ z < 2 ^ 16 → u16 z = z.
Proof. apply Z.mod_small. Qed.
Lemma u32_small z : 0 ≤ z < 2 ^ 32 → u32 z = z.
Proof. apply Z.mod_small. Qed.
Lemma u64_small z : 0 ≤ z < 2 ^ 64 → u64 z = z.
Proof. apply Z.mod_small. Qed.
Lemma u64_range z : 0 ≤ u64 z < 2 ^ 64.
Proof. apply Z.mod_pos_bound. lia. Qed.
Lemma u32_range z : 0 ≤ u32 z < 2 ^ 32.
Proof. apply Z.mod_pos_bound. lia. Qed.

Lemma s32_small z : - 2 ^ 31 ≤ z < 2 ^ 31 → s32 z = z.
Proof. intros Hz. unfold s32, swrap. change (32 - 1) with 31. rewrite Z.mod_small by lia. lia. Qed.
Lemma s64_small z : - 2 ^ 63 ≤ z < 2 ^ 63 → s64 z = z.
Proof. intros Hz. unfold s64, swrap. change (64 - 1) with 63. rewrite Z.mod_small by lia. lia. Qed.

(** [unwrap] removes the wrap-arounds that [lia] can show are not taken. *)
Ltac unwrap :=
  repeat match goal with
  | |- context [u64 ?z] => rewrite (u64_small z) by lia
  | |- context [u32 ?z] => rewrite (u32_small z) by lia
  | |- context [u16 ?z] => rewrite (u16_small z) by lia
  | |- context [u8 ?z] => rewrite (u8_small z) by lia
  end.
Ltac unwrap_in H :=
  repeat match type of H with
  | context [u64 ?z] => rewrite (u64_small z) in H by lia
  | context [u32 ?z] => rewrite (u32_small z) in H by lia
  | context [u16 ?z] => rewrite (u16_small z) in H by lia
  | context [u8 ?z] => rewrite (u8_small z) in H by lia
  end.

(** [x & -(1 << k)] on 64-bit values rounds down to a multiple of [2^k]. *)
Lemma land_neg_pow2 (k x : Z) :
  0 ≤ k → 0 ≤ x < 2 ^ 64 → Z.land x (u64 (- 2 ^ k)) = 2 ^ k * (x / 2 ^ k).
Proof.
  intros Hk Hx. unfold u64.
  replace (- 2 ^ k) with (Z.lnot (Z.ones k)); last first.
  { rewrite Z.ones_equiv. unfold Z.lnot. lia. }
  rewrite <- (Z.land_ones _ 64), (Z.land_comm _ (Z.ones 64)), Z.land_assoc by lia.
  rewrite (Z.land_ones x 64), Z.mod_small by lia.
  rewrite <- Z.ldiff_land, Z.ldiff_ones_r by lia.
  rewrite Z.shiftl_mul_pow2, Z.shiftr_div_pow2 by lia. lia.
Qed.

(** [x & ((1 << k) - 1)] is the remainder. *)
Lemma land_low_mask (k x : Z) : 0 ≤ k → Z.land x (2 ^ k - 1) = x mod 2 ^ k.
Proof.
  intros Hk. rewrite <- (Z.land_ones x k) by lia. by rewrite Z.ones_equiv, <- Z.sub_1_r.
Qed.

(** [x | y] where [y] fits below the bits of [x] is their sum. *)
Lemma lor_disjoint (k x y : Z) :
  0 ≤ k → 0 ≤ y < 2 ^ k → Z.lor (x * 2 ^ k) y = x * 2 ^ k + y.
Proof.
  intros Hk Hy. rewrite <- Z.add_lor_land.
  replace (Z.land (x * 2 ^ k) y) with 0; [by rewrite Z.add_0_r|].
  apply Z.bits_inj'. intros i Hi. rewrite Z.bits_0, Z.land_spec.
  destruct (Z.ltb_spec i k).
  - by rewrite Z.mul_pow2_bits_low.
  - rewrite <- (Z.mod_small y (2 ^ k)), Z.mod_pow2_bits_high by lia. by rewrite andb_false_r.
Qed.

(** A property of every value below a bound, checked one by one *)
Lemma forall_below (n : Z) (P : Z → Prop) : Forall P (seqZ 0 n) → ∀ z, 0 ≤ z < n → P z.
Proof. intros HP z Hz. apply (proj1 (Forall_forall _ _) HP). apply elem_of_seqZ. lia. Qed.

(** ** Outcomes, and computations over a state

    [Done] is a normal return.  [Fault] is what the code does not return
    from (a panic, a kernel assertion, which halts the CPU) or has no
    meaning for (an access outside an array), and the fuel of a bounded
    loop running out. *)

Inductive fault :=
  | AssertFailed    (* kernel/lib/assert.cc: halts *)
  | Panicked        (* panic(): does not return *)
  | OutOfRange      (* access outside an array: undefined in C++ *)
  | OutOfFuel.      (* the model's loop bound was too small *)

Inductive outcome (A : Type) :=
  | Done (a : A)
  | Fault (f : fault).
Arguments Done {A} a.
Arguments Fault {A} f.

#[export] Instance fault_eq_dec : EqDecision fault.
Proof. solve_decision. Defined.
#[export] Instance outcome_eq_dec {A} `{EqDecision A} : EqDecision (outcome A).
Proof. solve_decision. Defined.

Definition M (S A : Type) : Type := S → outcome (A * S).

#[export] Instance M_ret {S} : MRet (M S) := λ A a s, Done (a, s).
#[export] Instance M_bind {S} : MBind (M S) := λ A B f m s,
  match m s with
  | Done (a, s') => f a s'
  | Fault e => Fault e
  end.

Definition throw {S A} (f : fault) : M S A := λ _, Fault f.
Definition gets {S A} (f : S → A) : M S A := λ s, Done (f s, s).
Definition modify {S} (f : S → S) : M S unit := λ s, Done (tt, f s).

Lemma bind_done {S A B} (m : M S A) (f : A → M S B) s a s' :
  m s = Done (a, s') → (m ≫= f) s = f a s'.
Proof. unfold mbind, M_bind. by intros ->. Qed.

Lemma bind_fault {S A B} (m : M S A) (f : A → M S B) s e : m s = Fault e → (m ≫= f) s = Fault e.
Proof. unfold mbind, M_bind. by intros ->. Qed.
Lemma bind_assoc {S A B C} (m : M S A) (f : A → M S B) (g : B → M S C) s :
  ((m ≫= f) ≫= g) s = (m ≫= (λ a, f a ≫= g)) s.
Proof. unfold mbind, M_bind. by destruct (m s) as [[a s']|]. Qed.

(** Continue after a two-step prefix whose run is known. *)
Lemma seq_done {S A B C} (m : M S A) (f : A → M S B) (g : B → M S C) s b s' :
  (m ≫= f) s = Done (b, s') → (m ≫= (λ a, f a ≫= g)) s = g b s'.
Proof. rewrite <- bind_assoc. apply bind_done. Qed.

(** The run of a bind whose first step is known: these drive every symbolic
    run of an operation. *)
Lemma bind_gets {S A B} (f : S → A) (k : A → M S B) s : (gets f ≫= k) s = k (f s) s.
Proof. done. Qed.
Lemma bind_modify {S B} (f : S → S) (k : unit → M S B) s : (modify f ≫= k) s = k tt (f s).
Proof. done. Qed.
Lemma bind_mret {S A B} (a : A) (k : A → M S B) s : (mret a ≫= k) s = k a s.
Proof. done. Qed.

(** [run] rewrites the steps that only read, write or return. *)
Create Rewrite HintDb run.
#[export] Hint Rewrite @bind_gets @bind_modify @bind_mret : run.
Ltac run := autorewrite with run.

(** Ranges of machine integers *)
Create HintDb machine.
Create Rewrite HintDb machine.
#[export] Hint Resolve u32_range u64_range : machine.

(** ** Lists *)

Lemma Forall_filter {A} (P Q : A → Prop) `{!∀ x, Decision (P x)} (l : list A) :
  Forall Q l → Forall Q (filter P l).
Proof. induction 1; [done|]. rewrite filter_cons. case_decide; auto. Qed.

Lemma length_snoc {A} (l : list A) x : length (l ++ [x]) = S (length l).
Proof. rewrite length_app. simpl. lia. Qed.
