(* ===== verification/Regions.v ===== *)
(** * Regions of memory

    A region is a start and a length.  What the allocators promise is that
    the regions they hand out have no byte in common; [pairwise] says so of a
    list of them, in any order.  [bytes_at] are bytes of memory by address. *)

From stdpp Require Import base tactics list numbers sets.
From S2P Require Import Prelude.

#[local] Open Scope Z_scope.

Abbreviation region := (Z * Z)%type.

(** Two regions have no byte in common *)
Definition apart (x y : region) : Prop := x.1 + x.2 ≤ y.1 ∨ y.1 + y.2 ≤ x.1.

#[export] Instance apart_sym : Symmetric apart.
Proof. intros x y [?|?]; [by right|by left]. Qed.

Fixpoint pairwise {A} (R : A → A → Prop) (l : list A) : Prop :=
  match l with [] => True | x :: l => Forall (R x) l ∧ pairwise R l end.

Lemma pairwise_perm {A} (R : A → A → Prop) `{!Symmetric R} l l' :
  l ≡ₚ l' → pairwise R l → pairwise R l'.
Proof.
  induction 1 as [|x l l' Hp IH|x y l|l1 l2 l3 _ IH1 _ IH2]; simpl; [done| | |auto].
  - intros [HF Hl]. split; [by rewrite <- Hp|auto].
  - intros (HF1 & HF2 & Hl). inversion HF1; subst. split; [constructor; [by symmetry|done]|done].
Qed.

#[export] Instance pairwise_proper {A} (R : A → A → Prop) `{!Symmetric R} :
  Proper ((≡ₚ) ==> iff) (pairwise R).
Proof. intros l l' Hl. split; apply pairwise_perm; [done|done|done|by symmetry]. Qed.

Lemma pairwise_map {A B} (R : A → A → Prop) (S : B → B → Prop) (f : B → A) P l :
  Forall P l → (∀ x y, P x → P y → R (f x) (f y) → S x y) →
  pairwise R (map f l) → pairwise S l.
Proof.
  intros HP HRS. induction HP as [|x l Hx HP IH]; simpl; [done|].
  intros [HF Hl]. split; [|auto]. rewrite Forall_map in HF.
  apply (Forall_impl _ _ _ (proj2 (Forall_and _ _) (conj HF HP))). naive_solver.
Qed.

Lemma pairwise_app {A} (R : A → A → Prop) l l' :
  pairwise R (l ++ l') ↔ pairwise R l ∧ pairwise R l' ∧ ∀ x y, x ∈ l → y ∈ l' → R x y.
Proof.
  induction l as [|z l IH]; simpl; [set_solver|].
  rewrite Forall_app, IH, !Forall_forall. set_solver.
Qed.

(** Two members that are not related are the same one *)
Lemma pairwise_same {A} (R : A → A → Prop) `{!Symmetric R} l x y :
  pairwise R l → x ∈ l → y ∈ l → ¬ R x y → x = y.
Proof.
  induction l as [|z l IH]; simpl; [set_solver|]. intros [HF Hl] Hx Hy Hxy.
  rewrite Forall_forall in HF. apply elem_of_cons in Hx as [->|Hx], Hy as [->|Hy]; [done| | |auto].
  - destruct Hxy. auto.
  - destruct Hxy. symmetry. auto.
Qed.

(** The same for what the members are seen through *)
Lemma pairwise_fmap_same {A B} (R : B → B → Prop) `{!Symmetric R} (f : A → B) l x y :
  pairwise R (f <$> l) → x ∈ l → y ∈ l → ¬ R (f x) (f y) → x = y.
Proof.
  intros Hl Hx Hy Hxy. assert (Symmetric (λ a b, R (f a) (f b))) as Hs by (intros a b; apply symmetry).
  apply (@pairwise_same _ _ Hs l x y); [|done..].
  apply (pairwise_map R _ f (λ _, True) l); [|auto|done]. apply Forall_forall. auto.
Qed.

(** ** Bytes of memory by address *)

Definition bytes_at (mem : Z → Z) (a : Z) (n : nat) : list Z := (λ i, mem (a + Z.of_nat i)) <$> seq 0 n.

Lemma length_bytes_at mem a n : length (bytes_at mem a n) = n.
Proof. unfold bytes_at. by rewrite length_fmap, length_seq. Qed.
Lemma lookup_bytes_at mem a n i : (i < n)%nat → bytes_at mem a n !! i = Some (mem (a + Z.of_nat i)).
Proof. intros Hi. unfold bytes_at. by rewrite list_lookup_fmap, lookup_seq_lt. Qed.
Lemma bytes_at_plus mem a n m : bytes_at mem a (n + m) = bytes_at mem a n ++ bytes_at mem (a + Z.of_nat n) m.
Proof.
  unfold bytes_at. rewrite seq_app, fmap_app. f_equal. simpl. replace n with (n + 0)%nat at 1 by lia.
  rewrite <- (fmap_add_seq n 0 m), <- list_fmap_compose.
  apply list_fmap_ext. intros i x _. simpl. f_equal. lia.
Qed.
Lemma sub_bytes_at mem a n i m : (i + m ≤ n)%nat → take m (drop i (bytes_at mem a n)) = bytes_at mem (a + Z.of_nat i) m.
Proof.
  intros Hm. replace n with (i + (m + (n - i - m)))%nat by lia. rewrite bytes_at_plus, drop_app_length' by (by rewrite length_bytes_at).
  rewrite bytes_at_plus, take_app_length' by (by rewrite length_bytes_at). done.
Qed.

(** The bytes from [a] on are [l]. *)
Definition in_mem (mem : Z → Z) (a : Z) (l : list Z) : Prop := ∀ i b, l !! i = Some b → mem (a + Z.of_nat i) = b.

Lemma in_mem_app mem a l k : in_mem mem a (l ++ k) ↔ in_mem mem a l ∧ in_mem mem (a + Z.of_nat (length l)) k.
Proof.
  split.
  - intros H. split; intros i b Hi.
    + apply H. by apply lookup_app_l_Some.
    + rewrite <- (H (length l + i)%nat b); [f_equal; lia|]. by rewrite lookup_app_r, Nat.add_sub' by lia.
  - intros [Hl Hk] i b [Hi|[Hle Hi]]%lookup_app_Some; [by apply Hl|]. rewrite <- (Hk _ _ Hi). f_equal. lia.
Qed.

Lemma bytes_at_in_mem mem a l : in_mem mem a l → bytes_at mem a (length l) = l.
Proof.
  intros H. apply list_eq_same_length with (length l); [done|by unfold bytes_at; rewrite length_fmap, length_seq|].
  intros i x y Hi Hx Hy. unfold bytes_at in Hx. rewrite list_lookup_fmap, lookup_seq_lt in Hx by done. simplify_eq/=. by rewrite (H _ _ Hy).
Qed.

Lemma bytes_at_part mem a l i n : in_mem mem a l → (i + n ≤ length l)%nat → bytes_at mem (a + Z.of_nat i) n = take n (drop i l).
Proof.
  intros H Hn. assert (length (take n (drop i l)) = n) as Hlen by (rewrite length_take, length_drop; lia).
  rewrite <- Hlen at 1. apply bytes_at_in_mem. intros j b [Hj _]%lookup_take_Some. rewrite lookup_drop in Hj.
  rewrite <- (H _ _ Hj). f_equal. lia.
Qed.
