(* ===== verification/Physmap.v ===== *)
(** * boot/physmap.cc: the boot loader's physical memory map

    The map is an array of ranges sorted by base address.  [physmap] is the
    file's static state; the operations are computations of type [PM], one
    per function of the source.  The boot loader's [assert] prints a message
    and carries on (boot/assert.cc), so a failed assertion is counted in the
    state and execution continues. *)

From stdpp Require Import base tactics list numbers option.
From S2P Require Import Prelude.

#[local] Open Scope Z_scope.

Definition PAGE_SIZE : Z := 4096.
Definition PAGE_MASK : Z := 4095.

Definition PHYSMEM_TYPE_NORMAL : Z := 1.
Definition PHYSMEM_TYPE_UNUSABLE : Z := 2.
Definition PHYSMEM_TYPE_RECLAIMABLE : Z := 3.
Definition PHYSMEM_TYPE_NVS : Z := 4.
Definition PHYSMEM_TYPE_BAD : Z := 5.
Definition PHYSMEM_TYPE_ALLOCATED : Z := 6.
Definition PHYSMEM_TYPE_BOOTLOADER : Z := 7.
Definition PHYSMEM_TYPE_NORMAL_2M : Z := 8.
Definition PHYSMEM_TYPE_NORMAL_1G : Z := 9.

(** struct physmem_range_t (boot/include/physmem_data.h) *)
Record physmem_range_t := Range {
  rbase : Z;    (* uint64_t base *)
  rsize : Z;    (* uint64_t size *)
  rtype : Z;    (* uint32_t type *)
  rvalid : Z    (* uint32_t valid *)
}.

#[export] Instance physmem_range_eq_dec : EqDecision physmem_range_t.
Proof. solve_decision. Defined.

Definition rend (r : physmem_range_t) : Z := u64 (rbase r + rsize r).
Definition with_base (b : Z) (r : physmem_range_t) := Range b (rsize r) (rtype r) (rvalid r).
Definition with_size (n : Z) (r : physmem_range_t) := Range (rbase r) n (rtype r) (rvalid r).
Definition with_type (t : Z) (r : physmem_range_t) := Range (rbase r) (rsize r) t (rvalid r).

Definition is_normal (r : physmem_range_t) : bool :=
  (rtype r =? PHYSMEM_TYPE_NORMAL) || (rtype r =? PHYSMEM_TYPE_NORMAL_1G) ||
  (rtype r =? PHYSMEM_TYPE_NORMAL_2M).

(** struct phys_alloc_t (boot/paging.h) *)
Record phys_alloc_t := PhysAlloc { pbase : Z; psize : Z }.
Definition pend (p : phys_alloc_t) : Z := u64 (pbase p + psize p).

(** The static variables of physmap.cc.  The array [physalloc_ranges] is
    [live ++ stale]: its first [physalloc_count] slots are [live], the slots
    between the count and [physalloc_capacity] are [stale] and keep whatever
    was last written there, because some functions read past the count. *)
Record physmap := Physmap {
  live : list physmem_range_t;
  stale : list physmem_range_t;
  physalloc_20bit_st : Z;    (* uint32_t *)
  physalloc_64bit_st : Z;    (* uint32_t *)
  physalloc_20bit_1st : Z;   (* uint32_t *)
  physmap_top : Z;           (* uint64_t *)
  failed_asserts : nat       (* messages printed by __assert_failed *)
}.

Definition physalloc_count (s : physmap) : nat := length (live s).
Definition physalloc_capacity (s : physmap) : nat := (length (live s) + length (stale s))%nat.

Definition set_slots (l st : list physmem_range_t) (s : physmap) : physmap :=
  Physmap l st (physalloc_20bit_st s) (physalloc_64bit_st s)
    (physalloc_20bit_1st s) (physmap_top s) (failed_asserts s).
Definition set_counters (a b c : Z) (s : physmap) : physmap :=
  Physmap (live s) (stale s) a b c (physmap_top s) (failed_asserts s).
Definition set_1st (c : Z) (s : physmap) : physmap :=
  set_counters (physalloc_20bit_st s) (physalloc_64bit_st s) c s.
Definition set_top (t : Z) (s : physmap) : physmap :=
  Physmap (live s) (stale s) (physalloc_20bit_st s) (physalloc_64bit_st s)
    (physalloc_20bit_1st s) t (failed_asserts s).

Abbreviation PM := (M physmap).

(** assert(b): count the message, continue *)
Definition boot_assert (b : bool) : PM unit :=
  modify (λ s, if b then s else
    Physmap (live s) (stale s) (physalloc_20bit_st s) (physalloc_64bit_st s)
      (physalloc_20bit_1st s) (physmap_top s) (S (failed_asserts s))).

(** physalloc_ranges[i], as a value and as an assignment *)
Definition rd (i : nat) : PM physmem_range_t :=
  λ s, match (live s ++ stale s) !! i with
       | Some r => Done (r, s)
       | None => Fault OutOfRange
       end.
Definition wr (i : nat) (r : physmem_range_t) : PM unit :=
  λ s, if decide (i < physalloc_count s)%nat then
         Done (tt, set_slots (<[i := r]> (live s)) (stale s) s)
       else if decide (i < physalloc_capacity s)%nat then
         Done (tt, set_slots (live s) (<[(i - physalloc_count s)%nat := r]> (stale s)) s)
       else Fault OutOfRange.

(** range.set_end / range.set_start, through the array *)
Definition set_end (i : nat) (e : Z) : PM unit :=
  r ← rd i;
  boot_assert (rbase r <=? e);;
  wr i (with_size (u64 (e - rbase r)) r).
Definition set_start (i : nat) (st : Z) : PM unit :=
  r ← rd i;
  boot_assert (st <? rend r);;
  wr i (with_base st (with_size (u64 (rsize r + (rbase r - st))) r)).

(** What the map asks of the heap (boot/malloc.cc): whether [realloc] of that
    many bytes succeeds, and what the new slots happen to contain. *)
Class BootHeap := {
  realloc_ok : Z → bool;
  fresh_slots : nat → list physmem_range_t;
  fresh_slots_length : ∀ n, length (fresh_slots n) = n
}.

Section ops.
Context `{BootHeap}.

Definition sizeof_range : Z := 24.

Definition physmap_realloc (capacity_hint : Z) : PM unit :=
  let cap := if capacity_hint <? 32 then 32 else capacity_hint in
  λ s,
    if realloc_ok (sizeof_range * cap) then
      let n := Z.to_nat cap in
      if decide (physalloc_count s ≤ n)%nat then
        Done (tt, set_slots (live s)
                    (take (n - physalloc_count s)
                       (stale s ++ fresh_slots (n - physalloc_capacity s))) s)
      else Fault OutOfRange
    else Fault Panicked.

Definition physmap_grow : PM unit :=
  cap ← gets physalloc_capacity;
  physmap_realloc (u32 (Z.of_nat cap * 2)).

Definition b2z (b : bool) : Z := if b then 1 else 0.

Definition physmap_delete (index : nat) : PM unit :=
  n ← gets physalloc_count;
  boot_assert (bool_decide (index < n)%nat);;
  if decide (index < n)%nat then
    modify (λ s,
      let i := Z.of_nat index in
      let hit := b2z (i <? physalloc_20bit_st s) in
      set_slots (delete index (live s))
        (match last (live s) with Some r => r :: stale s | None => stale s end)
        (set_counters (u32 (physalloc_20bit_st s - hit))
           (u32 (physalloc_64bit_st s - b2z (i <? physalloc_64bit_st s)))
           (u32 (physalloc_20bit_1st s - hit)) s))
  else throw OutOfRange.

Definition physmap_insert_at (index : nat) (entry : physmem_range_t) : PM unit :=
  n ← gets physalloc_count;
  boot_assert (bool_decide (index ≤ n)%nat);;
  if decide (index ≤ n)%nat then
    cap ← gets physalloc_capacity;
    (if bool_decide (cap ≤ n + 1)%nat then physmap_grow else mret tt);;
    modify (λ s,
      let low := b2z (rbase entry <? 0x100000) in
      set_slots (take index (live s) ++ entry :: drop index (live s)) (tail (stale s))
        (set_counters (u32 (physalloc_20bit_st s + low))
           (u32 (physalloc_64bit_st s + b2z (rbase entry <? 0x100000000)))
           (u32 (physalloc_20bit_1st s + low)) s))
  else throw OutOfRange.

(** The binary search of physmap_find_insertion_point. *)
Fixpoint find_loop (fuel : nat) (b : Z) (st en : nat) : PM nat :=
  match fuel with
  | O => throw OutOfFuel
  | S fuel =>
      if decide (st < en)%nat then
        let mid := ((en - st) / 2 + st)%nat in
        candidate ← rd mid;
        if rbase candidate <? b then find_loop fuel b (mid + 1)%nat en
        else find_loop fuel b st mid
      else mret st
  end.

Definition physmap_find_insertion_point (b : Z) : PM nat :=
  n ← gets physalloc_count;
  if decide (n = 0)%nat then mret n
  else
    r ← rd (n - 1)%nat;
    if rend r <=? b then mret n
    else find_loop (S n) b 0 n.

Definition physmap_check_freespace : PM Z :=
  gets (λ s, foldl (λ total r,
    u64 (total + Z.land (rsize r) (if is_normal r then 2 ^ 64 - 1 else 0))) 0 (live s)).

(** The reasons physmap_validate gives *)
Inductive validate_error :=
  | NotSorted | SameBase | BlockOverlap | Uncoalesced
  | Bad20bitSt | Bad64bitSt | MisalignedBase | MisalignedSize.

#[export] Instance validate_error_eq_dec : EqDecision validate_error.
Proof. solve_decision. Defined.

Definition page_floor (x : Z) : Z := Z.land x (u64 (- PAGE_SIZE)).

Definition validate_entry (s : physmap) (i : nat) (r : physmem_range_t) : option validate_error :=
  if (Z.of_nat i <? physalloc_20bit_st s) && (0x100000 <=? rbase r) then Some Bad20bitSt
  else if (Z.of_nat i <? physalloc_64bit_st s) && (0x100000000 <=? rbase r) then Some Bad64bitSt
  else if is_normal r && negb (page_floor (rbase r) =? rbase r) then Some MisalignedBase
  else if is_normal r && negb (page_floor (rsize r) =? rsize r) then Some MisalignedSize
  else None.

Fixpoint validate_loop (fuel : nat) (fix_ : bool) (i : nat) : PM (option validate_error) :=
  match fuel with
  | O => throw OutOfFuel
  | S fuel =>
      n ← gets physalloc_count;
      if decide (i < n)%nat then
        range ← rd i;
        let rest :=
          s ← gets id;
          match validate_entry s i range with
          | Some e => mret (Some e)
          | None => validate_loop fuel fix_ (i + 1)%nat
          end in
        if decide (0 < i)%nat then
          prev ← rd (i - 1)%nat;
          if rbase range <? rbase prev then mret (Some NotSorted)
          else if rbase prev =? rbase range then mret (Some SameBase)
          else if rbase range <? rend prev then mret (Some BlockOverlap)
          else if (rtype prev =? rtype range) && (rend prev =? rbase range) then
            if negb fix_ then mret (Some Uncoalesced)
            else
              wr (i - 1)%nat (with_size (u64 (rend range - rbase prev)) prev);;
              physmap_delete i;;
              validate_loop fuel fix_ i
          else rest
        else rest
      else mret None
  end.

Definition physmap_validate (fix_ : bool) : PM (option validate_error) :=
  n ← gets physalloc_count;
  validate_loop (S n) fix_ 0.

Definition physmap_insert (entry : physmem_range_t) (validate : bool) : PM nat :=
  index ← physmap_find_insertion_point (rbase entry);
  physmap_insert_at index entry;;
  (if validate then physmap_validate true;; mret tt else mret tt);;
  mret index.

Definition physmap_replace (index : nat) (entry : physmem_range_t) : PM nat :=
  physmap_delete index;;
  physmap_insert entry true.

(** phys_alloc_t alloc_high(): one page off the top of the highest free
    range.  [i] is the loop counter, counting down from the count. *)
Fixpoint alloc_high_loop (i : nat) : PM phys_alloc_t :=
  match i with
  | O => throw Panicked
  | S i' =>
      range ← rd i';
      if negb (rtype range =? PHYSMEM_TYPE_NORMAL) then alloc_high_loop i'
      else
        let taken_en := rend range in
        let taken_st := u64 (taken_en - PAGE_SIZE) in
        n ← gets physalloc_count;
        grow_next ← (if decide (i < n)%nat then
                       next ← rd i;
                       mret ((rbase next =? rend range) &&
                             (rtype next =? PHYSMEM_TYPE_ALLOCATED))
                     else mret false);
        (if (grow_next : bool) then
           set_end i' taken_st;;
           set_start i taken_st
         else
           set_end i' taken_st;;
           physmap_insert_at i (Range taken_st PAGE_SIZE PHYSMEM_TYPE_ALLOCATED 1));;
        mret (PhysAlloc taken_st PAGE_SIZE)
  end.

Definition alloc_high : PM phys_alloc_t :=
  n ← gets physalloc_count;
  alloc_high_loop n.

(** free_phys.  The four shapes a freed block can have against the allocated
    range found at [st]. *)
Inductive free_shape := FreeExact | FreeEnd | FreeBegin | FreeMiddle | FreeUnknown.

Definition free_classify (n st : nat) (block : physmem_range_t) (freed : phys_alloc_t) : free_shape :=
  let here := bool_decide (st < n)%nat && (rtype block =? PHYSMEM_TYPE_ALLOCATED) in
  if here && (rbase block =? pbase freed) && (rsize block =? psize freed) then FreeExact
  else if here && (rend block =? pend freed) then FreeEnd
  else if here && (rbase block =? pbase freed) then FreeBegin
  else if here && (rbase block <? pbase freed) &&
          (pend freed <? u64 (rbase block + rsize block)) then FreeMiddle
  else FreeUnknown.

(** The binary search of free_phys. *)
Fixpoint free_search (fuel : nat) (b : Z) (st en : nat) : PM nat :=
  match fuel with
  | O => throw OutOfFuel
  | S fuel =>
      if decide (st < en)%nat then
        let md := (st + (en - st) / 2)%nat in
        block ← rd md;
        if rbase block <? b then free_search fuel b (md + 1)%nat en
        else free_search fuel b st md
      else mret st
  end.

(** The tail of free_phys: put the freed range back, coalescing it with the
    free neighbours of index [st]. *)
Definition free_merge (st : nat) (freed : phys_alloc_t) : PM unit :=
  n ← gets physalloc_count;
  prev_ok ← (if decide (0 < st)%nat then
               p ← rd (st - 1)%nat; mret (rbase p <? pbase freed)
             else mret true);
  boot_assert prev_ok;;
  prev_en ← (if decide (0 < st ∧ st < n)%nat then
               p ← rd (st - 1)%nat; mret (rend p)
             else mret 0);
  next_st ← (if decide (st < n)%nat then r ← rd st; mret (rbase r)
             else mret (2 ^ 64 - 1));
  boot_assert (prev_en <=? pbase freed);;
  boot_assert (pend freed <=? next_st);;
  adjacent_to_prev ← (if decide (0 < st ∧ st < n)%nat then
                        p ← rd (st - 1)%nat;
                        mret ((rtype p =? PHYSMEM_TYPE_NORMAL) && (prev_en =? pbase freed))
                      else mret false);
  adjacent_to_next ← (if decide (st < n)%nat then
                        r ← rd st;
                        mret ((pend freed =? next_st) && (rtype r =? PHYSMEM_TYPE_NORMAL))
                      else mret false);
  match (adjacent_to_prev : bool), (adjacent_to_next : bool) with
  | true, false =>
      p ← rd (st - 1)%nat;
      wr (st - 1)%nat (with_size (u64 (rsize p + psize freed)) p)
  | false, true =>
      r ← rd st;
      wr st (with_base (u64 (rbase r - psize freed))
               (with_size (u64 (rsize r + psize freed)) r))
  | true, true =>
      p ← rd (st - 1)%nat;
      wr (st - 1)%nat (with_size (u64 (rsize p + psize freed)) p);;
      physmap_delete st
  | false, false =>
      physmap_insert_at st (Range (pbase freed) (psize freed) PHYSMEM_TYPE_NORMAL 1)
  end.

Definition free_phys (freed0 : phys_alloc_t) : PM unit :=
  space_before ← physmap_check_freespace;
  boot_assert (page_floor (pbase freed0) =? pbase freed0);;
  let freed := PhysAlloc (pbase freed0) (page_floor (u64 (psize freed0 + (PAGE_SIZE - 1)))) in
  boot_assert ((0x100000 <=? pbase freed) && (pend freed <=? 0x100000000));;
  st0 ← gets physalloc_20bit_1st;
  en0 ← gets physalloc_64bit_st;
  st1 ← free_search (S (Z.to_nat en0)) (pbase freed) (Z.to_nat st0) (Z.to_nat en0);
  st ← (if decide (0 < st1)%nat then
          r ← rd st1;
          mret (if pbase freed <? rbase r then (st1 - 1)%nat else st1)
        else mret st1);
  n ← gets physalloc_count;
  block ← (if decide (st < n)%nat then rd st else mret (Range 0 0 0 0));
  match free_classify n st block freed with
  | FreeMiddle =>
      wr st (with_size (u64 (pbase freed - rbase block)) block);;
      physmap_insert_at (st + 1)%nat (Range (pbase freed) (psize freed) PHYSMEM_TYPE_NORMAL 1);;
      physmap_insert_at (st + 2)%nat
        (Range (pend freed) (u64 (rend block - pend freed)) PHYSMEM_TYPE_ALLOCATED 1)
  | shape =>
      match shape with
      | FreeExact => physmap_delete st
      | FreeEnd => wr st (with_size (u64 (pbase freed - rbase block)) block)
      | FreeBegin => wr st (with_base (u64 (rbase block + psize freed))
                              (with_size (u64 (rsize block - psize freed)) block))
      | _ => boot_assert false
      end;;
      free_merge st freed;;
      physmap_validate false;;
      space_after ← physmap_check_freespace;
      boot_assert (u64 (space_after - space_before) =? psize freed)
  end.

(** Coalesce the ranges after [prev] = range [i-1] into it (the inner loop of
    alloc_phys). *)
Fixpoint coalesce_after (fuel : nat) (i : nat) : PM unit :=
  match fuel with
  | O => throw OutOfFuel
  | S fuel =>
      n ← gets physalloc_count;
      if decide (i < n)%nat then
        prev ← rd (i - 1)%nat;
        r ← rd i;
        if (rtype prev =? rtype r) && (rend prev =? rbase r) then
          wr (i - 1)%nat (with_size (u64 (rsize prev + rsize r)) prev);;
          physmap_delete i;;
          coalesce_after fuel i
        else mret tt
      else mret tt
  end.

(** How far the base of a free range must move to have the same offset in a
    16KB block as the linear address it will be mapped at. *)
Definition realign_of (size for_addr b : Z) : Z :=
  Z.land (if for_addr =? 0 then 0 else Z.land (u64 (for_addr - b)) 0x3000)
         (if 0x4000 <=? size then 2 ^ 32 - 1 else 0).

(** The search loop of alloc_phys: the index it stopped at, the result and
    the unwanted head of the range.  [size] accumulates, as in the source. *)
Fixpoint alloc_loop (fuel : nat) (i : nat) (size for_addr : Z) (insist : bool)
    (result unwanted : phys_alloc_t) : PM (nat * phys_alloc_t * phys_alloc_t) :=
  match fuel with
  | O => throw OutOfFuel
  | S fuel =>
      lim ← gets physalloc_64bit_st;
      if negb (Z.of_nat i <? lim) then mret (i, result, unwanted)
      else
        entry1 ← rd i;
        if negb (rtype entry1 =? PHYSMEM_TYPE_NORMAL) then
          alloc_loop fuel (i + 1)%nat size for_addr insist result unwanted
        else
          let realign := realign_of size for_addr (rbase entry1) in
          if rsize entry1 <=? realign then
            alloc_loop fuel (i + 1)%nat size for_addr insist result unwanted
          else
            let size := u64 (size + realign) in
            let result := PhysAlloc (u64 (rbase entry1 + realign)) (psize result) in
            let unwanted := PhysAlloc (rbase entry1) realign in
            prev_adj ← (if decide (0 < i)%nat then
                          prev ← rd (i - 1)%nat;
                          mret ((rtype prev =? PHYSMEM_TYPE_ALLOCATED) &&
                                (rend prev =? rbase entry1))
                        else mret false);
            if (prev_adj : bool) then
              prev ← rd (i - 1)%nat;
              if size <? rsize entry1 then
                wr (i - 1)%nat (with_size (u64 (rsize prev + size)) prev);;
                wr i (with_base (u64 (rbase entry1 + size))
                        (with_size (u64 (rsize entry1 - size)) entry1));;
                mret (i, PhysAlloc (pbase result) (u64 (size - realign)), unwanted)
              else if insist then
                alloc_loop fuel (i + 1)%nat size for_addr insist result unwanted
              else
                wr (i - 1)%nat (with_size (u64 (rsize prev + rsize entry1)) prev);;
                physmap_delete i;;
                n ← gets physalloc_count;
                coalesce_after (S n) i;;
                mret (i, PhysAlloc (pbase result) (u64 (rsize entry1 - realign)), unwanted)
            else
              r ← (if size <? rsize entry1 then
                     wr i (with_size size (with_type PHYSMEM_TYPE_ALLOCATED entry1));;
                     physmap_insert_at (i + 1)%nat
                       (Range (u64 (rbase entry1 + size)) (u64 (rsize entry1 - size))
                          PHYSMEM_TYPE_NORMAL 1);;
                     mret (PhysAlloc (pbase result) (u64 (size - realign)))
                   else
                     wr i (with_type PHYSMEM_TYPE_ALLOCATED entry1);;
                     mret (PhysAlloc (pbase result) (u64 (rsize entry1 - realign))));
              modify (set_1st (u32 (Z.of_nat i + 1)));;
              mret (i, r, unwanted)
  end.

(** take_pages, the platform's hook that reserves pages with the firmware,
    does nothing on BIOS (boot/x86_bios/physmem_bios.cc). *)
Definition alloc_phys (size for_addr : Z) (insist : bool) : PM phys_alloc_t :=
  if size <=? PAGE_SIZE then alloc_high
  else
    space_before ← physmap_check_freespace;
    let size := page_floor (u64 (size + PAGE_MASK)) in
    modify (λ s, if physalloc_20bit_1st s =? 0 then set_1st (physalloc_20bit_st s) s else s);;
    i0 ← gets physalloc_20bit_1st;
    lim ← gets physalloc_64bit_st;
    '(i, result, unwanted) ←
      alloc_loop (S (Z.to_nat lim)) (Z.to_nat i0) size for_addr insist
        (PhysAlloc 0 0) (PhysAlloc 0 0);
    boot_assert (Z.land (pbase result) 0xFFF =? 0);;
    boot_assert (0x100000 <=? pbase result);;
    boot_assert (pbase result <? 0x100000000);;
    physmap_validate false;;
    (if negb (psize unwanted =? 0) then free_phys unwanted else mret tt);;
    space_after ← physmap_check_freespace;
    boot_assert (u64 (space_before - space_after) =? psize result);;
    mret result.

(** physmap_take_range: delete the entries that end within the taken range *)
Fixpoint bulldoze (fuel : nat) (index : nat) (e : Z) : PM unit :=
  match fuel with
  | O => throw OutOfFuel
  | S fuel =>
      n ← gets physalloc_count;
      if decide (index < n)%nat then
        r ← rd index;
        if rend r <=? e then physmap_delete index;; bulldoze fuel index e
        else mret tt
      else mret tt
  end.

Definition physmap_take_range (b size type : Z) : PM nat :=
  let e := u64 (b + size) in
  index ← physmap_find_insertion_point b;
  n ← gets physalloc_count;
  bulldoze (S n) index e;;
  r ← rd index;
  (if rbase r <? e then set_start index e else mret tt);;
  if decide (0 < index)%nat then
    prev ← rd (index - 1)%nat;
    let prev_end := rend prev in
    let clipped := u64 (b - rbase prev) in
    wr (index - 1)%nat (with_size clipped prev);;
    index' ← (if clipped =? 0 then physmap_delete (index - 1)%nat;; mret (index - 1)%nat
              else mret index);
    (if prev_end <? e then mret tt
     else
       (* prev is read again through the reference after the deletion *)
       prev' ← rd (index - 1)%nat;
       let sz := u64 (e - prev_end) in
       if negb (sz =? 0) then physmap_insert_at index' (Range e sz (rtype prev') 1)
       else mret tt);;
    physmap_insert_at index' (Range b size type 1);;
    mret index'
  else
    physmap_insert_at index (Range b size type 1);;
    mret index.

Definition physmap_top_addr : PM Z := gets physmap_top.

Definition oneGB : Z := 2 ^ 30.
Definition twoMB : Z := 2 ^ 21.
Definition round_up (n align : Z) : Z := Z.land (u64 (n + (align - 1))) (u64 (- align)).
Definition round_dn (n align : Z) : Z := Z.land n (u64 (- align)).

(** physmap_align_normal; [i] is the loop counter *)
Fixpoint align_normal_loop (fuel : nat) (i : nat) : PM unit :=
  match fuel with
  | O => throw OutOfFuel
  | S fuel =>
      n ← gets physalloc_count;
      if decide (i < n)%nat then
        range ← rd i;
        if negb (rtype range =? PHYSMEM_TYPE_NORMAL) then align_normal_loop fuel (i + 1)%nat
        else
          let st := page_floor (u64 (rbase range + (PAGE_SIZE - 1))) in
          let en := page_floor (rend range) in
          if negb (rbase range =? st) || negb (rend range =? en) then
            if st <? en then
              wr i (with_base st (with_size (u64 (en - st)) range));;
              align_normal_loop fuel (i + 1)%nat
            else
              physmap_delete i;;
              align_normal_loop fuel i
          else align_normal_loop fuel (i + 1)%nat
      else mret tt
  end.

Definition physmap_align_normal : PM unit :=
  n ← gets physalloc_count;
  align_normal_loop (S n) 0.

(** The pieces a free range is cut into by physmap_split_large, with the type
    each piece gets; a piece of less than a page is not inserted. *)
Definition split_pieces (A F : Z) : list physmem_range_t :=
  let B := round_up A twoMB in
  let E := round_dn F twoMB in
  let C := round_up B oneGB in
  let D := round_dn E oneGB in
  let gap (hi lo : Z) := if lo <? hi then u64 (hi - lo) else 0 in
  let r := gap B A in
  let s := if C <? D then gap C B else gap E B in
  let t := if C <? D then gap D C else 0 in
  let u := if C <? D then gap E D else 0 in
  let v := gap F E in
  filter (λ p, Z.shiftr (rsize p) 12 ≠ 0)
    [Range A r PHYSMEM_TYPE_NORMAL 1; Range B s PHYSMEM_TYPE_NORMAL_2M 1;
     Range C t PHYSMEM_TYPE_NORMAL_1G 1; Range D u PHYSMEM_TYPE_NORMAL_2M 1;
     Range E v PHYSMEM_TYPE_NORMAL 1].

Fixpoint insert_pieces (i : nat) (ps : list physmem_range_t) : PM nat :=
  match ps with
  | [] => mret i
  | p :: ps => physmap_insert_at i p;; insert_pieces (i + 1)%nat ps
  end.

Fixpoint split_large_loop (fuel : nat) (i : nat) : PM unit :=
  match fuel with
  | O => throw OutOfFuel
  | S fuel =>
      n ← gets physalloc_count;
      if decide (i < n)%nat then
        range ← rd i;
        if negb (rtype range =? PHYSMEM_TYPE_NORMAL) then split_large_loop fuel (i + 1)%nat
        else
          let A := rbase range in
          let F := rend range in
          if round_dn F twoMB <=? round_up A twoMB then split_large_loop fuel (i + 1)%nat
          else
            physmap_delete i;;
            i' ← insert_pieces i (split_pieces A F);
            split_large_loop fuel i'
      else mret tt
  end.

Definition physmap_split_large : PM unit :=
  n ← gets physalloc_count;
  split_large_loop (S n) 0.

(** physmap_init.  First pass: coalesce adjacent ranges of the same type.
    [count] is read once, before the loop, as in the source. *)
Fixpoint init_coalesce (fuel : nat) (count i : nat) : PM unit :=
  match fuel with
  | O => throw OutOfFuel
  | S fuel =>
      if decide (i < count)%nat then
        prev ← rd (i - 1)%nat;
        curr ← rd i;
        if negb (rtype prev =? rtype curr) then init_coalesce fuel count (i + 1)%nat
        else if rend prev =? rbase curr then
          wr (i - 1)%nat (with_size (u64 (rsize prev + rsize curr)) prev);;
          physmap_delete i;;
          init_coalesce fuel count i
        else init_coalesce fuel count (i + 1)%nat
      else mret tt
  end.

(** Second pass: shrink free ranges to whole pages. *)
Definition init_align_entry (i : nat) : PM unit :=
  r ← rd i;
  if negb (rtype r =? PHYSMEM_TYPE_NORMAL) then mret tt
  else
    let en := u64 (rbase r + rsize r) in
    let st := page_floor (u64 (rbase r + PAGE_MASK)) in
    let en := page_floor en in
    if st <? en then wr i (with_base st (with_size (u64 (en - st)) r))
    else wr i (with_type PHYSMEM_TYPE_UNUSABLE r).

(** Third pass: the top of free memory. *)
Definition init_top_entry (i : nat) : PM unit :=
  r ← rd i;
  if negb (rtype r =? PHYSMEM_TYPE_NORMAL) then mret tt
  else modify (λ s, if physmap_top s <? rend r then set_top (rend r) s else s).

Definition init_top_valid (i : nat) : PM unit :=
  r ← rd i;
  if rvalid r =? 0 then mret tt
  else modify (λ s, if physmap_top s <? rend r then set_top (rend r) s else s).

Fixpoint for_range (i n : nat) (f : nat → PM unit) : PM unit :=
  match n with
  | O => mret tt
  | S n => f i;; for_range (i + 1)%nat n f
  end.

(** Round a free range's base up, and its size down, to whole pages. *)
Definition init_trim (i : nat) : PM unit :=
  r ← rd i;
  (if negb (Z.land (rbase r) PAGE_MASK =? 0) then
     let new_base := page_floor (u64 (rbase r + PAGE_SIZE)) in
     let adj := s64 (new_base - rbase r) in
     boot_assert (adj <=? s64 (rsize r));;
     wr i (with_base (u64 (rbase r + adj)) (with_size (u64 (rsize r - adj)) r))
   else mret tt);;
  r ← rd i;
  wr i (with_size (page_floor (rsize r)) r).

(** One step of the fix-up loop at index [i]; true if it changed the map. *)
Definition init_fix_step (i : nat) : PM bool :=
  prev ← rd (i - 1)%nat;
  curr ← rd i;
  let prev_end := rend prev in
  let curr_end := rend curr in
  let prev_normal := rtype prev =? PHYSMEM_TYPE_NORMAL in
  let curr_normal := rtype curr =? PHYSMEM_TYPE_NORMAL in
  if (rbase prev <=? rbase curr) && (curr_end <=? prev_end) then
    (if curr_normal then physmap_delete i
     else
       let e1 := Range (rbase prev) (u64 (rbase curr - rbase prev)) (rtype prev) 1 in
       let e2 := Range curr_end (u64 (prev_end - curr_end)) (rtype prev) 1 in
       boot_assert (rbase prev <=? rbase curr);;
       boot_assert (curr_end <=? prev_end);;
       physmap_delete i;;
       physmap_delete (i - 1)%nat;;
       (if negb (rsize e1 =? 0) then physmap_insert e1 true;; mret tt else mret tt);;
       (if negb (rsize e2 =? 0) then physmap_insert e2 true;; mret tt else mret tt));;
    mret true
  else if (rbase curr <? prev_end) && negb prev_normal && curr_normal then
    physmap_replace i (Range prev_end (u64 (curr_end - prev_end)) (rtype curr) 1);;
    mret true
  else if (rbase curr <? prev_end) && prev_normal && negb curr_normal then
    physmap_replace (i - 1)%nat
      (Range (rbase prev) (u64 (rbase curr - rbase prev)) (rtype prev) 1);;
    mret true
  else
    (if prev_normal then init_trim (i - 1)%nat else mret tt);;
    (if curr_normal then init_trim i else mret tt);;
    prev' ← rd (i - 1)%nat;
    curr' ← rd i;
    if rsize prev' =? 0 then physmap_delete (i - 1)%nat;; mret true
    else if rsize curr' =? 0 then physmap_delete i;; mret true
    else if prev_normal && curr_normal && (prev_end =? rbase curr') then
      physmap_delete i;;
      physmap_replace (i - 1)%nat
        (Range (rbase prev') (u64 (curr_end - rbase prev')) (rtype prev') 1);;
      mret true
    else mret false.

Fixpoint init_fix_pass (n i : nat) : PM bool :=
  match n with
  | O => mret false
  | S n =>
      did ← init_fix_step i;
      if (did : bool) then mret true else init_fix_pass n (i + 1)%nat
  end.

Fixpoint init_fixup (fuel : nat) : PM unit :=
  match fuel with
  | O => throw OutOfFuel
  | S fuel =>
      count ← gets physalloc_count;
      for_range 1 (count - 1)%nat init_top_valid;;
      did ← init_fix_pass (count - 1)%nat 1;
      if (did : bool) then init_fixup fuel else mret tt
  end.

(** [get_ram_regions] is the platform's enumeration of memory (BIOS or EFI):
    it fills the map through physmap_insert and says whether it succeeded. *)
Definition physmap_init (get_ram_regions : PM bool) (fuel : nat) : PM bool :=
  ok ← get_ram_regions;
  if negb (ok : bool) then mret false
  else
    count ← gets physalloc_count;
    init_coalesce (2 * count + 1)%nat count 1;;
    for_range 0 count init_align_entry;;
    modify (set_top 0);;
    for_range 0 count init_top_entry;;
    init_fixup fuel;;
    mret true.

End ops.
