(* ===== verification/PhysmapFacts.v ===== *)
(** * Facts about the physical memory map

    The abstract view of the map is [type_at]: which kind of memory, if any,
    an address belongs to.  [map_ok] is the well-formedness of the array and
    [physmap_wf] adds the index counters.  The lemmas here describe each
    operation at an index by splitting the array there. *)

From stdpp Require Import base tactics list numbers option.
From S2P Require Import Prelude Physmap.

#[local] Open Scope Z_scope.

(** ** The abstract view *)

Definition contains (r : physmem_range_t) (a : Z) : bool :=
  (rbase r <=? a) && (a <? rbase r + rsize r).

Fixpoint type_at (l : list physmem_range_t) (a : Z) : option Z :=
  match l with
  | [] => None
  | r :: l => if contains r a then Some (rtype r) else type_at l a
  end.

(** Sorted, non-empty, disjoint ranges at or above [lo] that end below 2^64 *)
Fixpoint map_ok (lo : Z) (l : list physmem_range_t) : Prop :=
  match l with
  | [] => True
  | r :: l => lo ≤ rbase r ∧ 0 < rsize r ∧ rbase r + rsize r < 2 ^ 64 ∧
              map_ok (rbase r + rsize r) l
  end.

(** Where the ranges of a [map_ok] list end *)
Fixpoint end_of (lo : Z) (l : list physmem_range_t) : Z :=
  match l with
  | [] => lo
  | r :: l => end_of (rbase r + rsize r) l
  end.

Definition count_below (k : Z) (l : list physmem_range_t) : nat :=
  length (filter (λ r, rbase r < k) l).
Arguments count_below : simpl never.

(** [N] bounds the capacity of the array and the search hint: inserting may
    double it, which must not overflow 32 bits. *)
Record physmap_wf (N : Z) (s : physmap) : Prop := {
  wf_map : map_ok 0 (live s);
  wf_20 : physalloc_20bit_st s = Z.of_nat (count_below 0x100000 (live s));
  wf_64 : physalloc_64bit_st s = Z.of_nat (count_below 0x100000000 (live s));
  wf_1st : physalloc_20bit_st s ≤ physalloc_20bit_1st s ≤ N;
  wf_cap : Z.of_nat (physalloc_capacity s) ≤ N;
  wf_budget : 16 ≤ N < 2 ^ 31
}.

(** No message was printed and the top of memory did not move. *)
Definition quiet (s s' : physmap) : Prop :=
  failed_asserts s' = failed_asserts s ∧ physmap_top s' = physmap_top s.

#[export] Instance quiet_preorder : PreOrder quiet.
Proof.
  split; [done|]. intros s1 s2 s3 [H1 H2] [H3 H4]. split; congruence.
Qed.

Lemma map_ok_mono lo lo' l : lo' ≤ lo → map_ok lo l → map_ok lo' l.
Proof. destruct l; simpl; [done|]. intuition lia. Qed.

Lemma map_ok_app lo l1 l2 : map_ok lo (l1 ++ l2) ↔ map_ok lo l1 ∧ map_ok (end_of lo l1) l2.
Proof. revert lo. induction l1 as [|r l1 IH]; intros lo; simpl; [tauto|]. rewrite IH. tauto. Qed.

Lemma map_ok_end lo l : map_ok lo l → lo ≤ end_of lo l.
Proof.
  revert lo. induction l as [|r l IH]; intros lo; simpl; [lia|].
  intros (?&?&?&?%IH). lia.
Qed.

Lemma end_of_app lo l1 l2 : end_of lo (l1 ++ l2) = end_of (end_of lo l1) l2.
Proof. revert lo. induction l1 as [|r l1 IH]; intros lo; simpl; auto. Qed.

Lemma map_ok_elem lo l r :
  map_ok lo l → r ∈ l →
  lo ≤ rbase r ∧ 0 < rsize r ∧ rbase r + rsize r < 2 ^ 64 ∧ rbase r + rsize r ≤ end_of lo l.
Proof.
  revert lo. induction l as [|r' l IH]; intros lo; simpl.
  { by intros _ ?%elem_of_nil. }
  intros (?&?&?&Hl) [->|Hr]%elem_of_cons.
  - pose proof (map_ok_end _ _ Hl). repeat split; lia.
  - destruct (IH _ Hl Hr) as (?&?&?&?). repeat split; lia.
Qed.

Lemma rend_ok r : 0 ≤ rbase r → 0 < rsize r → rbase r + rsize r < 2 ^ 64 →
  rend r = rbase r + rsize r.
Proof. intros. unfold rend. by unwrap. Qed.

Lemma rend_elem lo l r : 0 ≤ lo → map_ok lo l → r ∈ l → rend r = rbase r + rsize r.
Proof. intros Hlo Hl Hr. destruct (map_ok_elem _ _ _ Hl Hr) as (?&?&?&?). apply rend_ok; lia. Qed.

Lemma type_at_app l1 l2 a :
  type_at (l1 ++ l2) a = match type_at l1 a with Some t => Some t | None => type_at l2 a end.
Proof. induction l1 as [|r l1 IH]; simpl; [done|]. by destruct (contains r a). Qed.

Lemma type_at_below lo l a : map_ok lo l → a < lo → type_at l a = None.
Proof.
  revert lo. induction l as [|r l IH]; intros lo; simpl; [done|].
  intros (?&?&?&Hl) Ha. unfold contains.
  rewrite (proj2 (Z.leb_gt _ _)) by lia. simpl. apply (IH _ Hl). lia.
Qed.

Lemma type_at_above lo l a : map_ok lo l → end_of lo l ≤ a → type_at l a = None.
Proof.
  revert lo. induction l as [|r l IH]; intros lo; simpl; [done|].
  intros (?&?&?&Hl) Ha. pose proof (map_ok_end _ _ Hl). unfold contains.
  rewrite (proj2 (Z.ltb_ge a _)) by lia. rewrite andb_false_r. by apply (IH _ Hl).
Qed.

Lemma count_below_app k l1 l2 : count_below k (l1 ++ l2) = (count_below k l1 + count_below k l2)%nat.
Proof. unfold count_below. by rewrite filter_app, length_app. Qed.

Lemma count_below_cons k r l :
  count_below k (r :: l) = (Nat.b2n (bool_decide (rbase r < k)%Z) + count_below k l)%nat.
Proof. unfold count_below. rewrite filter_cons. by case_bool_decide; case_decide. Qed.

(** In a sorted map, [count_below] is the index of the first range at or
    above [k]. *)
Lemma count_below_ge lo k l : map_ok lo l → k ≤ lo → count_below k l = 0%nat.
Proof.
  revert lo. induction l as [|r l IH]; intros lo; simpl; [done|].
  intros (?&?&?&Hl) Hk. rewrite count_below_cons. case_bool_decide; [lia|].
  simpl. apply (IH _ Hl). lia.
Qed.

Lemma count_below_split lo k l1 r l2 :
  map_ok lo (l1 ++ r :: l2) → (length l1 < count_below k (l1 ++ r :: l2))%nat ↔ rbase r < k.
Proof.
  revert lo. induction l1 as [|r1 l1 IH]; intros lo; simpl.
  - intros (?&?&?&Hl). rewrite count_below_cons. case_bool_decide as Hd; simpl.
    + split; [done|lia].
    + rewrite (count_below_ge _ k _ Hl) by lia; split; lia.
  - intros (?&?&?&Hl). rewrite count_below_cons. case_bool_decide as Hd; simpl.
    + rewrite <- (IH _ Hl). lia.
    + rewrite (count_below_ge _ k _ Hl) by lia.
      assert (rbase r1 ≤ rbase r); [|lia].
      destruct (map_ok_elem _ _ r Hl) as (?&?&?&?); [rewrite elem_of_app, elem_of_cons; auto|lia].
Qed.

Lemma b2z_range b : 0 ≤ b2z b ≤ 1.
Proof. by destruct b. Qed.

Lemma count_below_mid k l1 r l2 :
  Z.of_nat (count_below k (l1 ++ r :: l2)) =
  Z.of_nat (count_below k (l1 ++ l2)) + b2z (rbase r <? k).
Proof.
  rewrite !count_below_app, count_below_cons.
  destruct (Z.ltb_spec (rbase r) k); [rewrite bool_decide_eq_true_2 by done|
    rewrite bool_decide_eq_false_2 by lia]; simpl; lia.
Qed.

Lemma count_below_index lo k l1 r l2 :
  map_ok lo (l1 ++ r :: l2) →
  (Z.of_nat (length l1) <? Z.of_nat (count_below k (l1 ++ r :: l2))) = (rbase r <? k).
Proof.
  intros Hm. pose proof (count_below_split lo k l1 r l2 Hm) as Hi.
  destruct (Z.ltb_spec (rbase r) k); [apply Z.ltb_lt|apply Z.ltb_ge]; lia.
Qed.

Lemma count_below_le k l : (count_below k l ≤ length l)%nat.
Proof. apply length_filter. Qed.

(** ** The primitive accesses, with the array split at the index *)

Section facts.
Context `{BootHeap}.

Lemma rd_mid s l1 r l2 : live s = l1 ++ r :: l2 → rd (length l1) s = Done (r, s).
Proof.
  intros Hs. unfold rd. rewrite Hs, <- app_assoc. simpl.
  by rewrite list_lookup_middle.
Qed.

Lemma wr_mid s l1 r r' l2 :
  live s = l1 ++ r :: l2 → wr (length l1) r' s = Done (tt, set_slots (l1 ++ r' :: l2) (stale s) s).
Proof.
  intros Hs. unfold wr, physalloc_count. rewrite Hs.
  rewrite decide_True by (rewrite length_app; simpl; lia).
  do 2 f_equal. f_equal. rewrite <- (Nat.add_0_r (length l1)), insert_app_r. done.
Qed.

Lemma boot_assert_true s : boot_assert true s = Done (tt, s).
Proof. done. Qed.

Lemma delete_mid_eq s l1 r l2 :
  live s = l1 ++ r :: l2 →
  ∃ st', physmap_delete (length l1) s =
    Done (tt, Physmap (l1 ++ l2) st'
      (u32 (physalloc_20bit_st s - b2z (Z.of_nat (length l1) <? physalloc_20bit_st s)))
      (u32 (physalloc_64bit_st s - b2z (Z.of_nat (length l1) <? physalloc_64bit_st s)))
      (u32 (physalloc_20bit_1st s - b2z (Z.of_nat (length l1) <? physalloc_20bit_st s)))
      (physmap_top s) (failed_asserts s)) ∧ length st' = S (length (stale s)).
Proof.
  intros Hs. unfold physmap_delete, mbind, M_bind, gets.
  assert (length l1 < physalloc_count s)%nat as Hlt.
  { unfold physalloc_count. rewrite Hs, length_app. simpl. lia. }
  rewrite bool_decide_eq_true_2 by done. cbn. rewrite decide_True by done.
  unfold modify, set_slots, set_counters. cbn.
  rewrite Hs. rewrite delete_middle.
  destruct (last (l1 ++ r :: l2)) as [x|] eqn:E.
  - eexists. split; [done|]. done.
  - apply last_None in E. by destruct l1.
Qed.

Definition grow_ok : Prop := ∀ n, realloc_ok n = true.

Lemma insert_mid_eq s l1 l2 e :
  grow_ok → Z.of_nat (physalloc_capacity s) < 2 ^ 31 → live s = l1 ++ l2 →
  ∃ st', physmap_insert_at (length l1) e s =
    Done (tt, Physmap (l1 ++ e :: l2) st'
      (u32 (physalloc_20bit_st s + b2z (rbase e <? 0x100000)))
      (u32 (physalloc_64bit_st s + b2z (rbase e <? 0x100000000)))
      (u32 (physalloc_20bit_1st s + b2z (rbase e <? 0x100000)))
      (physmap_top s) (failed_asserts s)) ∧
    (length l1 + length l2 + 1 + length st' ≤ Nat.max 32 (2 * physalloc_capacity s))%nat ∧
    (length l1 + length l2 + 1 + length st' ≤
       Nat.max (physalloc_capacity s) (Nat.max 32 (2 * (physalloc_count s + 1))))%nat.
Proof.
  intros Hg Hcap Hs. unfold physmap_insert_at, mbind, M_bind, gets.
  assert (length l1 ≤ physalloc_count s)%nat as Hle.
  { unfold physalloc_count. rewrite Hs, length_app. lia. }
  rewrite bool_decide_eq_true_2 by done. cbn. rewrite decide_True by done.
  assert (∃ st1, (if bool_decide (physalloc_capacity s ≤ physalloc_count s + 1)%nat
            then physmap_grow else mret tt) s = Done (tt, set_slots (live s) st1 s) ∧
            st1 ≠ [] ∧ (physalloc_count s + length st1 ≤ Nat.max 32 (2 * physalloc_capacity s))%nat ∧
            (physalloc_count s + length st1 ≤
               Nat.max (physalloc_capacity s) (Nat.max 32 (2 * (physalloc_count s + 1))))%nat)
    as (st1 & -> & Hne & Hlen & Hlen').
  { case_bool_decide as Hb.
    - unfold physmap_grow, mbind, M_bind, gets, physmap_realloc. rewrite Hg.
      unfold u32. rewrite Z.mod_small by lia.
      set (cap := if Z.of_nat (physalloc_capacity s) * 2 <? 32 then 32
                  else Z.of_nat (physalloc_capacity s) * 2).
      assert (physalloc_count s ≤ physalloc_capacity s)%nat.
      { unfold physalloc_capacity, physalloc_count. lia. }
      assert (Z.to_nat cap = Nat.max 32 (2 * physalloc_capacity s)) as Hc.
      { unfold cap. destruct (Z.ltb_spec (Z.of_nat (physalloc_capacity s) * 2) 32); lia. }
      rewrite decide_True by lia. eexists. split; [done|].
      assert (length (stale s ++ fresh_slots (Z.to_nat cap - physalloc_capacity s)) =
              (Z.to_nat cap - physalloc_count s)%nat) as Hl.
      { rewrite length_app, fresh_slots_length. unfold physalloc_capacity, physalloc_count in *. lia. }
      rewrite take_ge by lia. split; [|lia].
      intros E. rewrite E in Hl. simpl in Hl. lia.
    - exists (stale s). split; [by destruct s|].
      unfold physalloc_capacity, physalloc_count in *. split; [|lia].
      intros E. rewrite E in Hb. simpl in Hb. lia. }
  unfold modify, set_slots, set_counters. cbn.
  rewrite Hs, take_app_length, drop_app_length.
  eexists. split; [done|].
  unfold physalloc_count in Hlen, Hlen' |- *. rewrite Hs, length_app in Hlen, Hlen' |- *.
  destruct st1; [done|]. simpl in *. lia.
Qed.

Lemma rd_live s i r : live s !! i = Some r → rd i s = Done (r, s).
Proof. intros Hr. unfold rd. by rewrite (lookup_app_l_Some _ _ _ _ Hr). Qed.

Lemma map_ok_lookup_lt lo l i j x y :
  map_ok lo l → l !! i = Some x → l !! j = Some y → (i < j)%nat →
  rbase x + rsize x ≤ rbase y.
Proof.
  revert lo i j. induction l as [|r l IH]; intros lo i j; simpl; [done|].
  intros (?&?&?&Hl) Hi Hj Hij. destruct j as [|j]; [lia|]. destruct i as [|i]; simpl in *.
  - simplify_eq. destruct (map_ok_elem _ _ y Hl) as (?&?&?&?); [|lia].
    by eapply list_elem_of_lookup_2.
  - apply (IH _ i j Hl); auto with lia.
Qed.

Lemma map_ok_base_mono lo l i j x y :
  map_ok lo l → l !! i = Some x → l !! j = Some y → (i ≤ j)%nat → rbase x ≤ rbase y.
Proof.
  intros Hl Hi Hj Hij. destruct (decide (i = j)) as [->|].
  - rewrite Hi in Hj. by simplify_eq.
  - pose proof (map_ok_lookup_lt _ _ _ _ _ _ Hl Hi Hj ltac:(lia)).
    destruct (map_ok_elem _ _ x Hl) as (?&?&?&?); [by eapply list_elem_of_lookup_2|lia].
Qed.

Lemma count_below_partition k b l :
  (k ≤ length l)%nat →
  (∀ j r, (j < k)%nat → l !! j = Some r → rbase r < b) →
  (∀ j r, (k ≤ j)%nat → l !! j = Some r → b ≤ rbase r) →
  count_below b l = k.
Proof.
  revert k. induction l as [|r l IH]; intros k Hk Hlo Hhi; simpl in *.
  { unfold count_below. simpl. lia. }
  rewrite count_below_cons. destruct k as [|k].
  - rewrite bool_decide_eq_false_2; last first.
    { specialize (Hhi 0%nat r). simpl in Hhi. specialize (Hhi ltac:(lia) eq_refl). lia. }
    simpl. apply IH; [lia|lia|]. intros j r' _ Hj. apply (Hhi (S j)); [lia|done].
  - rewrite bool_decide_eq_true_2 by (apply (Hlo 0%nat); [lia|done]).
    simpl. f_equal. apply IH; [lia| |].
    + intros j r' Hj. apply (Hlo (S j)). lia.
    + intros j r' Hj. apply (Hhi (S j)). lia.
Qed.

Lemma find_loop_spec fuel s b st en :
  map_ok 0 (live s) → (st ≤ en ≤ length (live s))%nat → (en - st < fuel)%nat →
  (∀ j r, (j < st)%nat → live s !! j = Some r → rbase r < b) →
  (∀ j r, (en ≤ j)%nat → live s !! j = Some r → b ≤ rbase r) →
  find_loop fuel b st en s = Done (count_below b (live s), s).
Proof.
  intros Hok. revert st en. induction fuel as [|fuel IH]; intros st en Hle Hf Hlo Hhi; [lia|].
  cbn [find_loop]. case_decide as Hlt.
  - set (mid := ((en - st) / 2 + st)%nat).
    assert (st ≤ mid < en)%nat as Hmid.
    { unfold mid. pose proof (Nat.div_lt (en - st) 2 ltac:(lia) ltac:(lia)). lia. }
    clearbody mid. destruct (lookup_lt_is_Some_2 (live s) mid ltac:(lia)) as [c Hc].
    rewrite (bind_done _ _ _ _ _ (rd_live _ _ _ Hc)).
    destruct (Z.ltb_spec (rbase c) b) as [Hb|Hb]; apply IH; try lia; auto.
    + intros j r Hj Hr.
      pose proof (map_ok_base_mono _ _ _ _ _ _ Hok Hr Hc ltac:(lia)). lia.
    + intros j r Hj Hr.
      pose proof (map_ok_base_mono _ _ _ _ _ _ Hok Hc Hr ltac:(lia)). lia.
  - assert (st = en) as -> by lia. unfold mret, M_ret.
    by rewrite (count_below_partition en b (live s)) by (auto; lia).
Qed.

Lemma find_insertion_point_spec s b :
  map_ok 0 (live s) →
  physmap_find_insertion_point b s = Done (count_below b (live s), s).
Proof.
  intros Hok. unfold physmap_find_insertion_point.
  rewrite (bind_done _ _ s _ s eq_refl). unfold physalloc_count.
  case_decide as Hn.
  { apply nil_length_inv in Hn. unfold mret, M_ret. by rewrite Hn. }
  destruct (lookup_lt_is_Some_2 (live s) (length (live s) - 1)%nat ltac:(lia)) as [r Hr].
  rewrite (bind_done _ _ _ _ _ (rd_live _ _ _ Hr)).
  rewrite (rend_elem 0 (live s)) by (try done; by eapply list_elem_of_lookup_2).
  destruct (Z.leb_spec (rbase r + rsize r) b) as [Hb|Hb].
  - unfold mret, M_ret. rewrite (count_below_partition (length (live s)) b (live s)); auto.
    + intros j r' Hj Hr'.
      destruct (map_ok_elem _ _ r Hok) as (?&?&?&?); [by eapply list_elem_of_lookup_2|].
      pose proof (map_ok_base_mono _ _ _ _ _ _ Hok Hr' Hr ltac:(lia)). lia.
    + intros j r' Hj ?%lookup_lt_Some. lia.
  - apply find_loop_spec; [done|lia|lia| |].
    + intros j r' ?; lia.
    + intros j r' Hj ?%lookup_lt_Some. lia.
Qed.


(** ** The invariant through the primitive operations *)

Lemma count_below_capacity k s : (count_below k (live s) ≤ physalloc_capacity s)%nat.
Proof. pose proof (count_below_le k (live s)). unfold physalloc_capacity. lia. Qed.

Lemma delete_mid N s l1 r l2 :
  physmap_wf N s → live s = l1 ++ r :: l2 →
  ∃ s', physmap_delete (length l1) s = Done (tt, s') ∧ physmap_wf N s' ∧
        live s' = l1 ++ l2 ∧ quiet s s' ∧
        physalloc_capacity s' = physalloc_capacity s ∧
        physalloc_20bit_1st s' = physalloc_20bit_1st s - b2z (rbase r <? 0x100000).
Proof.
  intros Hwf Hs. destruct (delete_mid_eq s l1 r l2 Hs) as (st' & -> & Hst).
  eexists. split; [done|]. destruct Hwf as [Hm H20 H64 H1st Hcap HN].
  pose proof (count_below_capacity 0x100000 s). pose proof (count_below_capacity 0x100000000 s).
  apply Nat2Z.inj_le in H0, H1.
  rewrite Hs in Hm, H20, H64, H0, H1. rewrite H20, H64, !(count_below_index 0) by done.
  rewrite count_below_mid in H20, H64, H0, H1 |- *. rewrite (count_below_mid 0x100000000).
  pose proof (b2z_range (rbase r <? 0x100000)). pose proof (b2z_range (rbase r <? 0x100000000)).
  assert (physalloc_capacity (Physmap (l1 ++ l2) st' 0 0 0 0 0) = physalloc_capacity s) as Hc.
  { unfold physalloc_capacity. rewrite Hs. simpl. rewrite !length_app. simpl. lia. }
  split; [|split; [done|split; [done|split; [exact Hc|]]]].
  - constructor; cbn; unwrap; try lia.
    + apply map_ok_app in Hm as [Hm1 (?&?&?&Hm2)]. apply map_ok_app. split; [done|].
      eapply map_ok_mono; [|done]. lia.
    + rewrite <- Hc in Hcap. exact Hcap.
  - cbn. unwrap. lia.
Qed.

(** The budget only doubles if the array was full: with room for twice the
    new count ([Z.of_nat (physalloc_count s) * 2 + 2 ≤ N]) it stays. *)
Lemma insert_mid_budget N N' s l1 l2 e :
  grow_ok → physmap_wf N s → live s = l1 ++ l2 → map_ok 0 (l1 ++ e :: l2) →
  N ≤ N' < 2 ^ 31 → 32 ≤ N' → physalloc_20bit_1st s + 1 ≤ N' →
  2 * N ≤ N' ∨ Z.of_nat (physalloc_count s) * 2 + 2 ≤ N' →
  ∃ s', physmap_insert_at (length l1) e s = Done (tt, s') ∧ physmap_wf N' s' ∧
        live s' = l1 ++ e :: l2 ∧ quiet s s' ∧
        physalloc_20bit_1st s' = physalloc_20bit_1st s + b2z (rbase e <? 0x100000).
Proof.
  intros Hg [Hm H20 H64 H1st Hcap HN] Hs Hm' HN' H32 Hfst Hroom.
  destruct (insert_mid_eq s l1 l2 e Hg ltac:(lia) Hs) as (st' & -> & Hst & Hst').
  eexists. split; [done|].
  pose proof (count_below_capacity 0x100000 s) as C1.
  pose proof (count_below_capacity 0x100000000 s) as C2.
  apply Nat2Z.inj_le in C1, C2. rewrite Hs in C1, C2, H20, H64.
  pose proof (b2z_range (rbase e <? 0x100000)). pose proof (b2z_range (rbase e <? 0x100000000)).
  rewrite H20, H64.
  split; [|split; [done|split; [done|cbn; unwrap; lia]]].
  constructor; cbn; rewrite ?count_below_mid; unwrap; try lia; try done.
  rewrite length_app. simpl. destruct Hroom; lia.
Qed.

Lemma insert_mid N s l1 l2 e :
  grow_ok → physmap_wf N s → N < 2 ^ 30 → live s = l1 ++ l2 → map_ok 0 (l1 ++ e :: l2) →
  ∃ s', physmap_insert_at (length l1) e s = Done (tt, s') ∧ physmap_wf (2 * N) s' ∧
        live s' = l1 ++ e :: l2 ∧ quiet s s' ∧
        physalloc_20bit_1st s' = physalloc_20bit_1st s + b2z (rbase e <? 0x100000).
Proof.
  intros Hg Hwf HN Hs Hm'. pose proof (wf_1st _ _ Hwf). pose proof (wf_budget _ _ Hwf).
  by apply (insert_mid_budget N); auto with lia.
Qed.

(** Overwriting a range in place, on the same side of 1MB and of 4GB *)
Lemma write_wf N s l1 r r' l2 :
  physmap_wf N s → live s = l1 ++ r :: l2 → map_ok 0 (l1 ++ r' :: l2) →
  (rbase r' <? 0x100000) = (rbase r <? 0x100000) →
  (rbase r' <? 0x100000000) = (rbase r <? 0x100000000) →
  physmap_wf N (set_slots (l1 ++ r' :: l2) (stale s) s).
Proof.
  intros [Hm H20 H64 H1st Hcap HN] Hs Hm' E1 E2. rewrite Hs in H20, H64.
  constructor; cbn; try done.
  - by rewrite H20, !count_below_mid, E1.
  - by rewrite H64, !count_below_mid, E2.
  - unfold physalloc_capacity in Hcap. rewrite Hs, length_app in Hcap.
    rewrite length_app. simpl in *. lia.
Qed.

Lemma physmap_wf_weaken N N' s : physmap_wf N s → N ≤ N' < 2 ^ 31 → physmap_wf N' s.
Proof. intros [] ?. constructor; auto with lia. Qed.

(** ** Sorted maps, split at a range *)

Lemma map_ok_mid lo l1 r l2 :
  map_ok lo (l1 ++ r :: l2) ↔
  map_ok lo l1 ∧ end_of lo l1 ≤ rbase r ∧ 0 < rsize r ∧ rbase r + rsize r < 2 ^ 64 ∧
  map_ok (rbase r + rsize r) l2.
Proof. by rewrite map_ok_app. Qed.

Lemma map_ok_drop_mid lo l1 r l2 : map_ok lo (l1 ++ r :: l2) → map_ok lo (l1 ++ l2).
Proof.
  intros (?&?&?&?&Hl2)%map_ok_mid. apply map_ok_app. split; [done|].
  eapply map_ok_mono; [|done]. lia.
Qed.

(** The range at the split decides its own addresses; the rest of the map
    decides the others. *)
Lemma type_at_mid lo l1 r l2 a :
  map_ok lo (l1 ++ r :: l2) →
  type_at (l1 ++ r :: l2) a =
    if contains r a then Some (rtype r) else type_at (l1 ++ l2) a.
Proof.
  intros (Hl1&?&?&?&Hl2)%map_ok_mid. rewrite !type_at_app. simpl.
  destruct (contains r a) eqn:E; [|done].
  unfold contains in E. apply andb_prop in E as [?%Z.leb_le ?%Z.ltb_lt].
  by rewrite (type_at_above lo l1) by (done || lia).
Qed.

Lemma type_at_outside lo l1 r l2 a :
  map_ok lo (l1 ++ r :: l2) → contains r a = true → type_at (l1 ++ l2) a = None.
Proof.
  intros (Hl1&?&?&?&Hl2)%map_ok_mid E.
  unfold contains in E. apply andb_prop in E as [?%Z.leb_le ?%Z.ltb_lt].
  rewrite type_at_app, (type_at_above lo l1), (type_at_below (rbase r + rsize r) l2) by (done || lia).
  done.
Qed.

Definition disjoint_from (l : list physmem_range_t) (e : physmem_range_t) : Prop :=
  Forall (λ r, rbase e + rsize e ≤ rbase r ∨ rbase r + rsize r ≤ rbase e) l.

Lemma end_of_le lo l x :
  lo ≤ x → Forall (λ r, rbase r + rsize r ≤ x) l → end_of lo l ≤ x.
Proof. intros Hlo Hl. revert lo Hlo. induction Hl as [|r l ? ? IH]; intros lo ?; simpl; auto. Qed.

Lemma map_ok_raise lo lo' l :
  map_ok lo l → Forall (λ r, lo' ≤ rbase r) l → map_ok lo' l.
Proof. destruct l; simpl; [done|]. intros ? []%Forall_cons. intuition. Qed.

Lemma count_below_take lo b l :
  map_ok lo l →
  Forall (λ r, rbase r < b) (take (count_below b l) l) ∧
  Forall (λ r, b ≤ rbase r) (drop (count_below b l) l).
Proof.
  revert lo. induction l as [|r l IH]; intros lo; simpl; [done|].
  intros (?&?&?&Hl). rewrite count_below_cons. case_bool_decide as Hb; simpl.
  - destruct (IH _ Hl) as [? ?]. by split; [constructor|].
  - rewrite (count_below_ge _ b _ Hl) by lia. simpl. split; [done|]. constructor; [lia|].
    apply Forall_forall. intros r' Hr'. destruct (map_ok_elem _ _ _ Hl Hr') as (?&?&?&?). lia.
Qed.

(** A disjoint entry put at its insertion point keeps the map sorted. *)
Lemma map_ok_insert l e :
  map_ok 0 l → 0 ≤ rbase e → 0 < rsize e → rbase e + rsize e < 2 ^ 64 → disjoint_from l e →
  map_ok 0 (take (count_below (rbase e) l) l ++ e :: drop (count_below (rbase e) l) l).
Proof.
  intros Hl Hb Hsz Hend Hd. destruct (count_below_take 0 (rbase e) l Hl) as [Hlo Hhi].
  unfold disjoint_from in Hd.
  rewrite <- (take_drop (count_below (rbase e) l) l) in Hl, Hd.
  apply Forall_app in Hd as [Hd1 Hd2]. pose proof Hl as [Hl1 Hl2]%map_ok_app.
  apply map_ok_mid. split_and!; try done.
  - apply end_of_le; [done|].
    rewrite Forall_forall in Hd1, Hlo |- *. intros r Hr.
    specialize (Hd1 r Hr). specialize (Hlo r Hr). simpl in *. lia.
  - eapply map_ok_raise; [done|]. apply Forall_forall. intros r Hr.
    destruct (map_ok_elem _ _ r Hl2 Hr) as (?&?&?&?).
    rewrite Forall_forall in Hd2, Hhi. specialize (Hd2 r Hr). specialize (Hhi r Hr). simpl in *. lia.
Qed.

(** ** Free space *)

Fixpoint free_total (l : list physmem_range_t) : Z :=
  match l with
  | [] => 0
  | r :: l => (if is_normal r then rsize r else 0) + free_total l
  end.

Lemma free_total_app l1 l2 : free_total (l1 ++ l2) = free_total l1 + free_total l2.
Proof. induction l1 as [|r l1 IH]; simpl; lia. Qed.

Lemma free_total_bounds lo l : map_ok lo l → 0 ≤ free_total l ≤ end_of lo l - lo.
Proof.
  revert lo. induction l as [|r l IH]; intros lo; simpl; [lia|].
  intros (?&?&?&?%IH). destruct (is_normal r); lia.
Qed.

Lemma end_of_bound lo l : map_ok lo l → end_of lo l < Z.max (lo + 1) (2 ^ 64).
Proof.
  revert lo. induction l as [|r l IH]; intros lo; simpl; [lia|].
  intros (?&?&?&Hl). specialize (IH _ Hl). lia.
Qed.

Lemma check_freespace_fold l acc lo :
  0 ≤ acc → 0 ≤ lo → acc + free_total l < 2 ^ 64 → map_ok lo l →
  foldl (λ total r, u64 (total + Z.land (rsize r) (if is_normal r then 2 ^ 64 - 1 else 0))) acc l =
  acc + free_total l.
Proof.
  revert acc lo. induction l as [|r l IH]; intros acc lo Hacc Hlo0 Hlt; simpl; [lia|].
  intros (?&?&?&Hl). simpl in Hlt. pose proof (free_total_bounds _ _ Hl).
  assert (Z.land (rsize r) (if is_normal r then 2 ^ 64 - 1 else 0) =
          if is_normal r then rsize r else 0) as ->.
  { destruct (is_normal r); [|by rewrite Z.land_0_r].
    rewrite (land_low_mask 64) by lia. rewrite Z.mod_small; lia. }
  rewrite u64_small by (destruct (is_normal r); lia).
  rewrite (IH _ (rbase r + rsize r)); try done; destruct (is_normal r); lia.
Qed.

Lemma check_freespace_spec s :
  map_ok 0 (live s) → physmap_check_freespace s = Done (free_total (live s), s).
Proof.
  intros Hm. unfold physmap_check_freespace, gets.
  pose proof (free_total_bounds _ _ Hm). pose proof (end_of_bound _ _ Hm).
  rewrite (check_freespace_fold _ _ 0) by (done || lia). done.
Qed.

(** ** Carving an allocation out of the map

    Addresses [b, b + n) become allocated, nothing else changes, and the
    free space goes down by [n]. *)
Definition carved (b n : Z) (l l' : list physmem_range_t) : Prop :=
  (∀ a, type_at l' a =
        if (b <=? a) && (a <? b + n) then Some PHYSMEM_TYPE_ALLOCATED else type_at l a) ∧
  free_total l' = free_total l - n.

End facts.

(** Decide the range membership tests of the goal by linear arithmetic. *)
Ltac solve_contains :=
  unfold contains in *; cbn [rbase rsize rtype with_base with_size with_type] in *;
  repeat match goal with
  | |- context [?x <=? ?y] => destruct (Z.leb_spec x y)
  | |- context [?x <? ?y] => destruct (Z.ltb_spec x y)
  end; simpl; try done; try lia.

(** Compare the free space of two maps that differ at a split point. *)
Ltac solve_free_total :=
  rewrite ?free_total_app; cbn [free_total]; unfold is_normal;
  cbn [rbase rsize rtype with_base with_size with_type];
  repeat match goal with
  | H : rtype ?r = _ |- context [rtype ?r] => rewrite H
  end; cbn; lia.
