(* ===== verification/PhysmapThms.v ===== *)
(** * Correctness of the physical memory map operations

    Each theorem relates an operation of boot/physmap.cc to the abstract view
    [type_at] of the map and shows that it keeps [physmap_wf] and fails no
    assertion. *)

From stdpp Require Import base tactics list numbers option.
From S2P Require Import Prelude Physmap PhysmapFacts.

#[local] Open Scope Z_scope.

Section thms.
Context `{BootHeap}.

(** Physmap_insert of a range that overlaps nothing puts it at its place
    in address order, returns that place, keeps the invariant and gives its
    addresses, and no others, its type. *)
Theorem physmap_insert_correct N s e :
  grow_ok → physmap_wf N s → N < 2 ^ 30 →
  0 ≤ rbase e → 0 < rsize e → rbase e + rsize e < 2 ^ 64 → disjoint_from (live s) e →
  ∃ s', physmap_insert e false s = Done (count_below (rbase e) (live s), s') ∧
        physmap_wf (2 * N) s' ∧ quiet s s' ∧
        ∀ a, type_at (live s') a =
             if contains e a then Some (rtype e) else type_at (live s) a.
Proof.
  intros Hg Hwf HN Hb Hsz Hend Hd. unfold physmap_insert.
  pose proof (wf_map _ _ Hwf) as Hm.
  rewrite (bind_done _ _ _ _ _ (find_insertion_point_spec s (rbase e) Hm)).
  set (k := count_below (rbase e) (live s)).
  pose proof (map_ok_insert _ _ Hm Hb Hsz Hend Hd) as Hm'. fold k in Hm'.
  assert (length (take k (live s)) = k) as Hk.
  { rewrite length_take. pose proof (count_below_le (rbase e) (live s)). lia. }
  destruct (insert_mid N s (take k (live s)) (drop k (live s)) e) as (s' & Hs' & Hwf' & Hl & Hq & _);
    [done|done|lia|by rewrite take_drop|done|].
  rewrite Hk in Hs'. rewrite (bind_done _ _ _ _ _ Hs').
  exists s'. split; [done|]. split; [done|]. split; [done|].
  intros a. rewrite Hl, (type_at_mid 0) by done. by rewrite take_drop.
Qed.

(** *** physmap_validate *)

(** The fields fit their C types. *)
Definition range_u64 (r : physmem_range_t) : Prop :=
  0 ≤ rbase r < 2 ^ 64 ∧ 0 ≤ rsize r < 2 ^ 64.

Definition entry_ok (s : physmap) (i : nat) (r : physmem_range_t) : Prop :=
  (Z.of_nat i < physalloc_20bit_st s → rbase r < 0x100000) ∧
  (Z.of_nat i < physalloc_64bit_st s → rbase r < 0x100000000) ∧
  (is_normal r = true → rbase r mod PAGE_SIZE = 0 ∧ rsize r mod PAGE_SIZE = 0).

Definition pair_ok (p r : physmem_range_t) : Prop :=
  rbase p < rbase r ∧ rend p ≤ rbase r ∧ ¬ (rtype p = rtype r ∧ rend p = rbase r).

(** What physmap_validate checks: neighbours are sorted, disjoint and
    coalesced, the counters are right and free ranges are page aligned. *)
Definition valid_from (s : physmap) (i : nat) : Prop :=
  ∀ j r, (i ≤ j)%nat → live s !! j = Some r →
         entry_ok s j r ∧ ∀ p, (0 < j)%nat → live s !! (j - 1)%nat = Some p → pair_ok p r.

Lemma page_floor_eq x : 0 ≤ x < 2 ^ 64 → page_floor x = x - x mod 4096.
Proof.
  intros Hx. unfold page_floor, PAGE_SIZE. rewrite (land_neg_pow2 12) by lia.
  change (2 ^ 12) with 4096. pose proof (Z.div_mod x 4096). lia.
Qed.

Lemma validate_entry_None s i r :
  range_u64 r → validate_entry s i r = None ↔ entry_ok s i r.
Proof.
  intros [Hb Hz]. unfold validate_entry, entry_ok, PAGE_SIZE. rewrite !page_floor_eq by done.
  pose proof (Z.mod_pos_bound (rbase r) 4096 ltac:(lia)).
  pose proof (Z.mod_pos_bound (rsize r) 4096 ltac:(lia)).
  destruct (is_normal r); simpl;
    repeat match goal with
    | |- context [?x <=? ?y] => destruct (Z.leb_spec x y)
    | |- context [?x <? ?y] => destruct (Z.ltb_spec x y)
    | |- context [?x =? ?y] => destruct (Z.eqb_spec x y)
    end; simpl; (split; [try done; intros _|]); intuition (lia || congruence).
Qed.

Lemma valid_from_step s i r :
  live s !! i = Some r →
  valid_from s i ↔ (entry_ok s i r ∧
    ∀ p, (0 < i)%nat → live s !! (i - 1)%nat = Some p → pair_ok p r) ∧ valid_from s (i + 1)%nat.
Proof.
  intros Hr. split.
  - intros Hv. split; [apply Hv; [lia|done]|]. intros j x Hj. apply Hv. lia.
  - intros [Hi Hv] j x Hj Hx. destruct (decide (j = i)) as [->|]; [by simplify_eq|].
    apply Hv; [lia|done].
Qed.

Lemma validate_loop_false fuel s i :
  Forall range_u64 (live s) → (length (live s) - i < fuel)%nat →
  ∃ res, validate_loop fuel false i s = Done (res, s) ∧ (res = None ↔ valid_from s i).
Proof.
  intros Hu. revert i. induction fuel as [|fuel IH]; intros i Hf; [lia|].
  cbn [validate_loop]. rewrite (bind_done _ _ s _ s eq_refl). unfold physalloc_count.
  case_decide as Hlt; last first.
  { exists None. split; [done|]. split; [|done]. intros _ j r Hj ?%lookup_lt_Some. lia. }
  destruct (lookup_lt_is_Some_2 (live s) i Hlt) as [r Hr].
  rewrite (bind_done _ _ _ _ _ (rd_live _ _ _ Hr)).
  pose proof (Forall_lookup_1 _ _ _ _ Hu Hr) as Hru.
  destruct (IH (i + 1)%nat ltac:(lia)) as (res & Hres & Hiff).
  setoid_rewrite (valid_from_step s i r Hr). setoid_rewrite <- (validate_entry_None s i r Hru).
  assert (∃ res', (s0 ← gets id; match validate_entry s0 i r with
            | Some e => mret (Some e) | None => validate_loop fuel false (i + 1) end) s =
            Done (res', s) ∧ (res' = None ↔ validate_entry s i r = None ∧ valid_from s (i + 1)))
    as (res' & Hrest & Hiff').
  { rewrite (bind_done _ _ s _ s eq_refl). unfold id.
    destruct (validate_entry s i r); [|rewrite Hres; exists res; naive_solver].
    eexists. split; [done|]. naive_solver. }
  case_decide as Hi; last first.
  { rewrite Hrest. exists res'. split; [done|]. rewrite Hiff'. naive_solver lia. }
  destruct (lookup_lt_is_Some_2 (live s) (i - 1)%nat ltac:(lia)) as [p Hp].
  rewrite (bind_done _ _ _ _ _ (rd_live _ _ _ Hp)).
  assert ((∀ p0, (0 < i)%nat → live s !! (i - 1)%nat = Some p0 → pair_ok p0 r) ↔ pair_ok p r) as Hpair
    by naive_solver.
  setoid_rewrite Hpair. unfold pair_ok.
  destruct (Z.ltb_spec (rbase r) (rbase p)); [eexists; split; [done|]; split; [done|lia]|].
  destruct (Z.eqb_spec (rbase p) (rbase r)); [eexists; split; [done|]; split; [done|lia]|].
  destruct (Z.ltb_spec (rbase r) (rend p)); [eexists; split; [done|]; split; [done|lia]|].
  destruct ((rtype p =? rtype r) && (rend p =? rbase r)) eqn:E.
  { apply andb_prop in E as [?%Z.eqb_eq ?%Z.eqb_eq].
    eexists. split; [done|]. split; [done|]. intros [[_ (_&_&[])] _]. done. }
  rewrite Hrest. exists res'. split; [done|]. rewrite Hiff'.
  apply andb_false_iff in E. rewrite !Z.eqb_neq in E. intuition lia.
Qed.

Lemma map_ok_range_u64 lo l : 0 ≤ lo → map_ok lo l → Forall range_u64 l.
Proof.
  intros Hlo Hl. apply Forall_forall. intros r Hr.
  destruct (map_ok_elem _ _ _ Hl Hr) as (?&?&?&_). unfold range_u64. lia.
Qed.

(** On a map of the invariant, physmap_validate returns and changes nothing. *)
Lemma validate_runs s :
  map_ok 0 (live s) → ∃ v, physmap_validate false s = Done (v, s).
Proof.
  intros Hm. unfold physmap_validate. rewrite (bind_done _ _ s _ s eq_refl).
  destruct (validate_loop_false (S (physalloc_count s)) s 0) as (v & -> & _); [|unfold physalloc_count; lia|eauto].
  by eapply (map_ok_range_u64 0).
Qed.

(** C3: Physmap_validate without fixing returns, changes nothing, and reports
    no error exactly when the map is valid from its first range on. *)
Theorem physmap_validate_iff s :
  Forall range_u64 (live s) →
  ∃ res, physmap_validate false s = Done (res, s) ∧ (res = None ↔ valid_from s 0).
Proof.
  intros Hu. unfold physmap_validate. rewrite (bind_done _ _ s _ s eq_refl).
  apply validate_loop_false; [done|]. unfold physalloc_count. lia.
Qed.

(** *** alloc_high *)

Lemma alloc_high_skip s l x m :
  live s = l ++ x :: m → rtype x ≠ PHYSMEM_TYPE_NORMAL →
  alloc_high_loop (S (length l)) s = alloc_high_loop (length l) s.
Proof.
  intros Hs Hx. cbn [alloc_high_loop]. rewrite (bind_done _ _ _ _ _ (rd_mid _ _ _ _ Hs)).
  by rewrite (proj2 (Z.eqb_neq _ _) Hx).
Qed.

Lemma alloc_high_skip_all s l1 l2 m :
  live s = l1 ++ l2 ++ m → Forall (λ r, rtype r ≠ PHYSMEM_TYPE_NORMAL) l2 →
  alloc_high_loop (length (l1 ++ l2)) s = alloc_high_loop (length l1) s.
Proof.
  revert m. induction l2 as [|x l2 IH] using rev_ind; intros m Hs Hl2.
  { by rewrite app_nil_r. }
  apply Forall_app in Hl2 as [Hl2 [Hx _]%Forall_cons].
  replace (length (l1 ++ l2 ++ [x])) with (S (length (l1 ++ l2)))
    by (rewrite !length_app; simpl; lia).
  rewrite (alloc_high_skip s (l1 ++ l2) x m); [|by rewrite Hs, <- !app_assoc|exact Hx].
  apply (IH (x :: m)); [|done]. by rewrite Hs, <- app_assoc.
Qed.

(** The end of a range does not fall on the 1MB or 4GB boundaries the index
    counters are split at. *)
Definition off_boundary (e : Z) : Prop :=
  (e - PAGE_SIZE <? 0x100000) = (e <? 0x100000) ∧
  (e - PAGE_SIZE <? 0x100000000) = (e <? 0x100000000).

Lemma set_end_mid s l1 r l2 e :
  live s = l1 ++ r :: l2 → rbase r ≤ e < 2 ^ 64 → 0 ≤ rbase r →
  set_end (length l1) e s = Done (tt, set_slots (l1 ++ with_size (e - rbase r) r :: l2) (stale s) s).
Proof.
  intros Hs Hr ?. unfold set_end. rewrite (bind_done _ _ _ _ _ (rd_mid _ _ _ _ Hs)).
  rewrite (proj2 (Z.leb_le _ _)) by lia. rewrite (bind_done _ _ _ _ _ (boot_assert_true s)).
  rewrite (wr_mid _ _ _ _ _ Hs). by unwrap.
Qed.

Lemma set_start_mid s l1 r l2 st :
  live s = l1 ++ r :: l2 → 0 ≤ st → 0 ≤ rbase r → st < rbase r + rsize r < 2 ^ 64 →
  set_start (length l1) st s =
  Done (tt, set_slots (l1 ++ Range st (rsize r + (rbase r - st)) (rtype r) (rvalid r) :: l2) (stale s) s).
Proof.
  intros Hs ? ? ?. unfold set_start. rewrite (bind_done _ _ _ _ _ (rd_mid _ _ _ _ Hs)).
  unfold rend. unwrap.
  rewrite (proj2 (Z.ltb_lt _ _)) by lia. rewrite (bind_done _ _ _ _ _ (boot_assert_true s)).
  by rewrite (wr_mid _ _ _ _ _ Hs).
Qed.

(** The last free range [r] of the map gives up its top page [p]. *)
Section high.
Context (N : Z) (s : physmap) (l1 l2 : list physmem_range_t) (r : physmem_range_t).
Context (Hg : grow_ok) (Hwf : physmap_wf N s) (HN : N < 2 ^ 30)
  (Hs : live s = l1 ++ r :: l2) (Ht : rtype r = PHYSMEM_TYPE_NORMAL)
  (Hsz : PAGE_SIZE < rsize r) (Hob : off_boundary (rbase r + rsize r)).

Let p := rbase r + rsize r - PAGE_SIZE.
Let r' := with_size (p - rbase r) r.
Let s1 := set_slots (l1 ++ r' :: l2) (stale s) s.

Local Lemma high_bounds :
  map_ok 0 (l1 ++ r :: l2) ∧ map_ok 0 (l1 ++ r' :: l2) ∧ 0 ≤ rbase r ∧
  rbase r + rsize r < 2 ^ 64.
Proof.
  pose proof (wf_map _ _ Hwf) as Hm. rewrite Hs in Hm.
  pose proof Hm as (Hl1&?&?&?&Hl2)%map_ok_mid. pose proof (map_ok_end _ _ Hl1).
  unfold PAGE_SIZE in *. split_and!; try done; try lia.
  apply map_ok_mid. unfold r', p, PAGE_SIZE. simpl. split_and!; try done; try lia.
  eapply map_ok_mono; [|done]. lia.
Qed.

Local Lemma high_shrink : set_end (length l1) p s = Done (tt, s1) ∧ physmap_wf N s1.
Proof.
  destruct high_bounds as (?&?&?&?). unfold PAGE_SIZE in *. split.
  - apply set_end_mid; [done|unfold p, PAGE_SIZE; lia|lia].
  - by eapply write_wf.
Qed.

Lemma high_fresh :
  ∃ s', (set_end (length l1) p;;
         physmap_insert_at (S (length l1)) (Range p PAGE_SIZE PHYSMEM_TYPE_ALLOCATED 1)) s =
          Done (tt, s') ∧ physmap_wf (2 * N) s' ∧ quiet s s' ∧
        carved p PAGE_SIZE (live s) (live s') ∧
        live s' = l1 ++ r' :: Range p PAGE_SIZE PHYSMEM_TYPE_ALLOCATED 1 :: l2.
Proof.
  destruct high_shrink as [Hse Hwf1]. destruct high_bounds as (Hm&Hm1&?&?).
  rewrite (bind_done _ _ _ _ _ Hse). unfold PAGE_SIZE in *.
  set (e := Range p 4096 PHYSMEM_TYPE_ALLOCATED 1).
  assert (map_ok 0 ((l1 ++ [r']) ++ e :: l2)) as Hm2.
  { rewrite <- app_assoc. apply map_ok_mid. pose proof Hm1 as (?&?&?&?&?)%map_ok_mid.
    pose proof Hm as (?&?&?&?&?)%map_ok_mid.
    split_and!; try done. simpl. unfold r', p, PAGE_SIZE in *. simpl in *. split_and!; try lia.
    eapply map_ok_mono; [|done]. lia. }
  destruct (insert_mid N s1 (l1 ++ [r']) l2 e) as (s' & Hs' & Hwf' & Hl' & Hq' & _);
    [done|done|lia|by rewrite <- app_assoc|done|].
  rewrite length_app, Nat.add_comm in Hs'. exists s'. split_and!; [exact Hs'|done|exact Hq'| |by rewrite Hl', <- app_assoc].
  split.
  - intros a. rewrite Hl', (type_at_mid 0), <- app_assoc by done. simpl app.
    rewrite (type_at_mid 0 l1 r') by done. rewrite Hs, (type_at_mid 0 l1 r) by done.
    unfold e, r', p, PAGE_SIZE. solve_contains.
  - rewrite Hl', Hs. unfold e, r', p, PAGE_SIZE. solve_free_total.
Qed.

Lemma high_merge nx l3 :
  l2 = nx :: l3 → rbase nx = rbase r + rsize r → rtype nx = PHYSMEM_TYPE_ALLOCATED →
  ∃ s', (set_end (length l1) p;; set_start (S (length l1)) p) s = Done (tt, s') ∧
        physmap_wf N s' ∧ quiet s s' ∧ carved p PAGE_SIZE (live s) (live s') ∧
        live s' = l1 ++ r' :: Range p (rsize nx + (rbase nx - p)) (rtype nx) (rvalid nx) :: l3.
Proof.
  intros El2 Hnb Hnt. destruct high_shrink as [Hse Hwf1]. destruct high_bounds as (Hm&Hm1&?&?).
  rewrite (bind_done _ _ _ _ _ Hse). destruct Hob as [Ob1 Ob2]. unfold PAGE_SIZE in *.
  pose proof Hm as (?&?&?&?&Hl2)%map_ok_mid. pose proof Hm1 as (?&?&?&?&_)%map_ok_mid.
  rewrite El2 in Hl2. destruct Hl2 as (?&?&?&Hl3).
  assert (live s1 = (l1 ++ [r']) ++ nx :: l3) as Hs1 by (unfold s1; rewrite <- app_assoc, El2; done).
  assert (length (l1 ++ [r']) = S (length l1)) as Hlen by (rewrite length_app; simpl; lia).
  set (nx' := Range p (rsize nx + (rbase nx - p)) (rtype nx) (rvalid nx)).
  assert (map_ok 0 ((l1 ++ [r']) ++ nx' :: l3)) as Hm2.
  { rewrite <- app_assoc. apply map_ok_mid. simpl. unfold r', p, PAGE_SIZE in *. simpl in *.
    split_and!; try done; try lia. eapply map_ok_mono; [|done]. lia. }
  assert (0 ≤ p < rbase nx) as Hp by (unfold p, PAGE_SIZE; lia).
  pose proof (set_start_mid s1 _ nx l3 p Hs1 ltac:(lia) ltac:(lia) ltac:(lia)) as Hss.
  rewrite Hlen in Hss. rewrite Hss. eexists. split; [done|]. split; [|split; [done|]].
  { eapply (write_wf N s1 _ nx nx' l3); try done; simpl; unfold p, PAGE_SIZE; by rewrite Hnb. }
  assert (map_ok 0 (l1 ++ r' :: nx' :: l3)) as Hm3 by (rewrite <- app_assoc in Hm2; done).
  rewrite Hs, El2 in *. cbn. rewrite <- app_assoc. simpl app. split; [|done]. split.
  - intros a. rewrite (type_at_mid 0 l1 r'), (type_at_mid 0 l1 r) by done.
    rewrite (type_at_mid 0 l1 nx'), (type_at_mid 0 l1 nx) by (by eapply map_ok_drop_mid).
    unfold nx', r', p, PAGE_SIZE. rewrite Hnt. solve_contains.
  - unfold nx', r', p, PAGE_SIZE. solve_free_total.
Qed.

(** The range behind is an allocated one that the page is joined to. *)
Definition joins_next (e : Z) (l2 : list physmem_range_t) : bool :=
  match l2 with nx :: _ => (rbase nx =? e) && (rtype nx =? PHYSMEM_TYPE_ALLOCATED) | [] => false end.

Lemma alloc_high_take :
  let joined := joins_next (rbase r + rsize r) l2 in
  ∃ s' nx', alloc_high_loop (S (length l1)) s = Done (PhysAlloc p PAGE_SIZE, s') ∧
        physmap_wf (if joined then N else 2 * N) s' ∧ quiet s s' ∧ carved p PAGE_SIZE (live s) (live s') ∧
        live s' = l1 ++ r' :: nx' :: (if joined then tail l2 else l2) ∧
        rbase nx' = p ∧ rtype nx' = PHYSMEM_TYPE_ALLOCATED.
Proof.
  destruct high_bounds as (_&_&?&?). destruct high_fresh as (sf & Hf & Hwff & Hqf & Hcf & Hlf).
  pose proof high_merge as Hmerge.
  cbn [alloc_high_loop]. rewrite (bind_done _ _ _ _ _ (rd_mid _ _ _ _ Hs)).
  rewrite Ht. cbn [negb Z.eqb PHYSMEM_TYPE_NORMAL Pos.eqb].
  unfold PAGE_SIZE in *. rewrite rend_ok by lia. unwrap. fold PAGE_SIZE. fold p.
  rewrite (bind_done _ _ s _ s eq_refl). destruct l2 as [|nx l3]; cbn [joins_next tail].
  - rewrite decide_False by (unfold physalloc_count; rewrite Hs, length_app; simpl; lia).
    rewrite (bind_done _ _ s _ s eq_refl), (bind_done _ _ _ _ _ Hf). eexists sf, _. split_and!; done.
  - rewrite decide_True by (unfold physalloc_count; rewrite Hs, length_app; simpl; lia).
    assert (live s = (l1 ++ [r]) ++ nx :: l3) as Hs2 by (by rewrite <- app_assoc).
    pose proof (rd_mid _ _ _ _ Hs2) as Hrd. rewrite length_app, Nat.add_comm in Hrd.
    rewrite bind_assoc, (bind_done _ _ _ _ _ Hrd), (bind_done _ _ s _ s eq_refl).
    destruct ((rbase nx =? rbase r + rsize r) && (rtype nx =? PHYSMEM_TYPE_ALLOCATED)) eqn:E;
      [|rewrite (bind_done _ _ _ _ _ Hf); eexists sf, _; split_and!; done].
    apply andb_prop in E as [Hnb%Z.eqb_eq Hnt%Z.eqb_eq].
    destruct (Hmerge nx l3 eq_refl Hnb Hnt) as (sm & Hsm & Hwfm & Hqm & Hcm & Hlm).
    rewrite (bind_done _ _ _ _ _ Hsm). eexists sm, _. split_and!; done.
Qed.
End high.

(** Alloc_high takes the top page of the highest free range [r]; the range of
    the page follows what is left of [r]. *)
Lemma alloc_high_shape N s l1 r l2 :
  let joined := joins_next (rbase r + rsize r) l2 in
  grow_ok → physmap_wf N s → N < 2 ^ 30 → live s = l1 ++ r :: l2 →
  rtype r = PHYSMEM_TYPE_NORMAL → Forall (λ x, rtype x ≠ PHYSMEM_TYPE_NORMAL) l2 →
  PAGE_SIZE < rsize r → off_boundary (rbase r + rsize r) →
  ∃ s' nx', alloc_high s = Done (PhysAlloc (rbase r + rsize r - PAGE_SIZE) PAGE_SIZE, s') ∧
        physmap_wf (if joined then N else 2 * N) s' ∧ quiet s s' ∧
        carved (rbase r + rsize r - PAGE_SIZE) PAGE_SIZE (live s) (live s') ∧
        live s' = l1 ++ with_size (rsize r - PAGE_SIZE) r :: nx' :: (if joined then tail l2 else l2) ∧
        rbase nx' = rbase r + rsize r - PAGE_SIZE ∧ rtype nx' = PHYSMEM_TYPE_ALLOCATED.
Proof.
  intros joined Hg Hwf HN Hs Ht Hl2 Hsz Hob. unfold alloc_high.
  rewrite (bind_done _ _ s _ s eq_refl). unfold physalloc_count.
  replace (length (live s)) with (length ((l1 ++ [r]) ++ l2)) by (by rewrite Hs, <- app_assoc).
  rewrite (alloc_high_skip_all s (l1 ++ [r]) l2 []) by (done || by rewrite app_nil_r, <- app_assoc).
  rewrite length_app, Nat.add_comm.
  replace (rsize r - PAGE_SIZE) with (rbase r + rsize r - PAGE_SIZE - rbase r) by ring. by eapply alloc_high_take.
Qed.

Theorem alloc_high_correct N s l1 r l2 :
  grow_ok → physmap_wf N s → N < 2 ^ 30 → live s = l1 ++ r :: l2 →
  rtype r = PHYSMEM_TYPE_NORMAL → Forall (λ x, rtype x ≠ PHYSMEM_TYPE_NORMAL) l2 →
  PAGE_SIZE < rsize r → off_boundary (rbase r + rsize r) →
  ∃ s', alloc_high s = Done (PhysAlloc (rbase r + rsize r - PAGE_SIZE) PAGE_SIZE, s') ∧
        physmap_wf (2 * N) s' ∧ quiet s s' ∧
        carved (rbase r + rsize r - PAGE_SIZE) PAGE_SIZE (live s) (live s').
Proof.
  intros Hg Hwf HN Hs Ht Hl2 Hsz Hob.
  destruct (alloc_high_shape N s l1 r l2) as (s' & nx' & E & Hwf' & Hq & Hc & _); try done.
  exists s'. split_and!; try done. eapply physmap_wf_weaken; [exact Hwf'|]; pose proof (wf_budget _ _ Hwf);
    destruct (joins_next _ _); lia.
Qed.

End thms.
