(* ===== verification/PhysmapAlloc.v ===== *)
(** * alloc_phys: taking free memory between 1MB and 4GB

    The ways alloc_phys records an allocation (growing the allocated range
    before it, or retyping the free range) each carve the same addresses out
    of the abstract map. *)

From stdpp Require Import base tactics list numbers option.
From S2P Require Import Prelude Physmap PhysmapFacts PhysmapThms.

#[local] Open Scope Z_scope.

(** A free range that starts below 4GB ends at or below 4GB. *)
Definition no_straddle (l : list physmem_range_t) : Prop :=
  Forall (λ r, rtype r = PHYSMEM_TYPE_NORMAL → rbase r < 0x100000000 →
               rbase r + rsize r ≤ 0x100000000) l.

Definition aligned_normal (l : list physmem_range_t) : Prop :=
  Forall (λ r, rtype r = PHYSMEM_TYPE_NORMAL →
               rbase r mod PAGE_SIZE = 0 ∧ rsize r mod PAGE_SIZE = 0) l.

Section alloc.
Context `{BootHeap}.

(** Extending a range over its adjacent successor and deleting the
    successor, as every coalescing step does. *)
Lemma absorb_next N s l1 pv r l2 :
  physmap_wf N s → live s = l1 ++ pv :: r :: l2 → rbase pv + rsize pv = rbase r →
  ∃ s', (wr (length l1) (with_size (u64 (rsize pv + rsize r)) pv);;
         physmap_delete (S (length l1))) s = Done (tt, s') ∧
        physmap_wf N s' ∧ quiet s s' ∧
        live s' = l1 ++ with_size (rsize pv + rsize r) pv :: l2.
Proof.
  intros [Hm H20 H64 H1st Hcap HN] Hs Hadj. rewrite (bind_done _ _ _ _ _ (wr_mid _ _ _ _ _ Hs)).
  rewrite Hs in Hm. pose proof Hm as (Hl1&?&?&?&(?&?&?&Hl2))%map_ok_mid.
  pose proof (map_ok_end _ _ Hl1). unwrap.
  set (pv' := with_size (rsize pv + rsize r) pv).
  set (s1 := set_slots (l1 ++ pv' :: r :: l2) (stale s) s).
  destruct (delete_mid_eq s1 (l1 ++ [pv']) r l2) as (st' & Hd & Hst).
  { unfold s1. simpl. by rewrite <- app_assoc. }
  rewrite length_snoc in Hd. rewrite Hd. eexists. split; [done|].
  pose proof (count_below_capacity 0x100000 s) as C1.
  pose proof (count_below_capacity 0x100000000 s) as C2. apply Nat2Z.inj_le in C1, C2.
  assert (∀ k, (Z.of_nat (S (length l1)) <? Z.of_nat (count_below k (live s))) = (rbase r <? k)) as Hi.
  { intros k. pose proof (count_below_index 0 k (l1 ++ [pv]) r l2) as Hx.
    rewrite length_snoc, <- app_assoc in Hx. rewrite Hs. by apply Hx. }
  assert (∀ k, Z.of_nat (count_below k (live s)) =
               Z.of_nat (count_below k (l1 ++ pv' :: l2)) + b2z (rbase r <? k)) as Hc.
  { intros k. rewrite Hs. rewrite !(count_below_mid k l1). simpl.
    pose proof (count_below_mid k l1 r l2). simpl in *. lia. }
  pose proof (b2z_range (rbase r <? 0x100000)). pose proof (b2z_range (rbase r <? 0x100000000)).
  split; [|split; [done|cbn; by rewrite <- app_assoc]].
  unfold s1. cbn [physalloc_20bit_st physalloc_64bit_st physalloc_20bit_1st set_slots].
  rewrite H20, H64, !Hi. rewrite !Hc in *.
  constructor; cbn; rewrite <- ?app_assoc; cbn [app]; unwrap; try lia.
  - apply map_ok_mid. unfold pv'. simpl. split_and!; try done; try lia.
    eapply map_ok_mono; [|done]. lia.
  - unfold physalloc_capacity in Hcap. rewrite Hs in Hcap. rewrite !length_app in *. simpl in *. lia.
Qed.

Lemma coalesce_after_spec fuel N s l1 pv l2 :
  physmap_wf N s → live s = l1 ++ pv :: l2 → (length l2 < fuel)%nat →
  ∃ s', coalesce_after fuel (S (length l1)) s = Done (tt, s') ∧ physmap_wf N s' ∧ quiet s s' ∧
        (∀ a, type_at (live s') a = type_at (live s) a) ∧
        free_total (live s') = free_total (live s).
Proof.
  revert s pv l2. induction fuel as [|fuel IH]; intros s pv l2 Hwf Hs Hf; [lia|].
  cbn [coalesce_after]. rewrite (bind_done _ _ s _ s eq_refl). unfold physalloc_count.
  destruct l2 as [|r l2].
  { rewrite decide_False by (rewrite Hs, length_app; simpl; lia). by exists s. }
  rewrite decide_True by (rewrite Hs, length_app; simpl; lia). simpl.
  rewrite Nat.sub_0_r, (bind_done _ _ _ _ _ (rd_mid _ _ _ _ Hs)).
  assert (live s = (l1 ++ [pv]) ++ r :: l2) as Hs2 by (by rewrite <- app_assoc).
  pose proof (rd_mid _ _ _ _ Hs2) as Hrd. rewrite length_snoc in Hrd.
  rewrite (bind_done _ _ _ _ _ Hrd).
  destruct ((rtype pv =? rtype r) && (rend pv =? rbase r)) eqn:E; [|by exists s].
  apply andb_prop in E as [Et%Z.eqb_eq Ee%Z.eqb_eq].
  pose proof (wf_map _ _ Hwf) as Hm. rewrite Hs in Hm.
  rewrite (rend_elem 0 _ _ ltac:(lia) Hm) in Ee by (rewrite elem_of_app, elem_of_cons; auto).
  destruct (absorb_next N s l1 pv r l2 Hwf Hs Ee) as (s1 & H1 & Hwf1 & Hq1 & Hl1).
  rewrite <- bind_assoc, (bind_done _ _ _ _ _ H1).
  destruct (IH s1 _ l2 Hwf1 Hl1 ltac:(simpl in Hf; lia)) as (s' & H' & Hwf' & Hq' & Hty & Hfr).
  exists s'. split_and!; [done|done|by etrans| |].
  - intros a. rewrite Hty, Hl1, Hs. pose proof (wf_map _ _ Hwf1) as Hm1. rewrite Hl1 in Hm1.
    rewrite (type_at_mid 0 l1 pv), (type_at_mid 0 l1 r) by (done || by eapply map_ok_drop_mid).
    rewrite (type_at_mid 0 l1 (with_size _ _)) by done. rewrite <- Et.
    pose proof Hm as (?&?&?&?&(?&?&?&?))%map_ok_mid. solve_contains.
  - rewrite Hfr, Hl1, Hs, !free_total_app. cbn [free_total]. unfold is_normal. rewrite <- Et.
    cbn [rtype rsize with_size]. destruct (_ || _); lia.
Qed.

(** Case 1 of alloc_phys: the range before the free range is allocated and
    adjacent, and the free range is larger than the request. *)
Lemma take_into_prev N s l1 pv r l2 n :
  physmap_wf N s → live s = l1 ++ pv :: r :: l2 →
  rtype pv = PHYSMEM_TYPE_ALLOCATED → rbase pv + rsize pv = rbase r →
  rtype r = PHYSMEM_TYPE_NORMAL → 0 < n < rsize r → 0x100000 ≤ rbase r →
  (rbase r + n <? 0x100000000) = (rbase r <? 0x100000000) →
  ∃ s', (wr (length l1) (with_size (u64 (rsize pv + n)) pv);;
         wr (S (length l1)) (with_base (u64 (rbase r + n)) (with_size (u64 (rsize r - n)) r))) s =
          Done (tt, s') ∧
        physmap_wf N s' ∧ quiet s s' ∧ carved (rbase r) n (live s) (live s').
Proof.
  intros [Hm H20 H64 H1st Hcap HN] Hs Hpt Hadj Ht Hn Hlo Hside.
  rewrite (bind_done _ _ _ _ _ (wr_mid _ _ _ _ _ Hs)).
  rewrite Hs in Hm. pose proof Hm as (Hl1&?&?&?&(?&?&?&Hl2))%map_ok_mid.
  pose proof (map_ok_end _ _ Hl1). unwrap.
  set (pv' := with_size (rsize pv + n) pv). set (r' := with_base _ _).
  set (s1 := set_slots (l1 ++ pv' :: r :: l2) (stale s) s).
  assert (live s1 = (l1 ++ [pv']) ++ r :: l2) as Hs1 by (unfold s1; simpl; by rewrite <- app_assoc).
  pose proof (wr_mid _ _ _ r' _ Hs1) as Hw. rewrite length_snoc in Hw. rewrite Hw.
  eexists. split; [done|].
  assert (map_ok 0 (l1 ++ pv' :: r' :: l2)) as Hm'.
  { apply map_ok_mid. unfold pv', r'. simpl. split_and!; try done; try lia.
    eapply map_ok_mono; [|done]. lia. }
  assert (∀ k, (rbase r' <? k) = (rbase r <? k) →
    count_below k (l1 ++ pv' :: r' :: l2) = count_below k (l1 ++ pv :: r :: l2)) as Hc.
  { intros k E. apply Nat2Z.inj. rewrite !(count_below_mid k l1).
    pose proof (count_below_mid k l1 r l2). pose proof (count_below_mid k l1 r' l2).
    simpl in *. rewrite E in *. lia. }
  split; [|split; [done|]].
  - constructor; cbn; rewrite <- ?app_assoc; cbn [app]; try done.
    + rewrite H20, Hs, Hc; [done|]. simpl.
      destruct (Z.ltb_spec (rbase r + n) 0x100000), (Z.ltb_spec (rbase r) 0x100000); try done; lia.
    + rewrite H64, Hs, Hc; done.
    + unfold physalloc_capacity in Hcap. rewrite Hs in Hcap. rewrite !length_app in *. simpl in *. lia.
  - cbn. rewrite <- app_assoc. cbn [app]. rewrite Hs. split.
    + intros a. rewrite (type_at_mid 0 l1 pv'), (type_at_mid 0 l1 pv) by done.
      rewrite (type_at_mid 0 l1 r'), (type_at_mid 0 l1 r) by (by eapply map_ok_drop_mid).
      unfold pv', r'. cbn [rtype with_base with_size]. rewrite Hpt, Ht. solve_contains.
    + unfold pv', r'. solve_free_total.
Qed.

(** Case 2: as case 1, but the whole free range is consumed. *)
Lemma consume_into_prev N s l1 pv r l2 :
  physmap_wf N s → live s = l1 ++ pv :: r :: l2 →
  rtype pv = PHYSMEM_TYPE_ALLOCATED → rbase pv + rsize pv = rbase r →
  rtype r = PHYSMEM_TYPE_NORMAL →
  ∃ s', (wr (length l1) (with_size (u64 (rsize pv + rsize r)) pv);;
         physmap_delete (S (length l1));;
         n ← gets physalloc_count; coalesce_after (S n) (S (length l1))) s = Done (tt, s') ∧
        physmap_wf N s' ∧ quiet s s' ∧ carved (rbase r) (rsize r) (live s) (live s').
Proof.
  intros Hwf Hs Hpt Hadj Ht.
  destruct (absorb_next N s l1 pv r l2 Hwf Hs Hadj) as (s1 & H1 & Hwf1 & Hq1 & Hl1).
  rewrite <- bind_assoc, (bind_done _ _ _ _ _ H1), (bind_done _ _ s1 _ s1 eq_refl).
  destruct (coalesce_after_spec (S (physalloc_count s1)) N s1 l1 _ l2 Hwf1 Hl1)
    as (s' & H' & Hwf' & Hq' & Hty & Hfr).
  { unfold physalloc_count. rewrite Hl1, length_app. simpl. lia. }
  exists s'. split_and!; [done|done|by etrans|].
  pose proof (wf_map _ _ Hwf) as Hm. pose proof (wf_map _ _ Hwf1) as Hm1. rewrite Hs in Hm.
  rewrite Hl1 in Hm1. split.
  - intros a. rewrite Hty, Hl1, Hs.
    rewrite (type_at_mid 0 l1 pv), (type_at_mid 0 l1 r) by (done || by eapply map_ok_drop_mid).
    rewrite (type_at_mid 0 l1 (with_size _ _)) by done. cbn [rtype with_size]. rewrite Hpt.
    pose proof Hm as (?&?&?&?&(?&?&?&?))%map_ok_mid. solve_contains.
  - rewrite Hfr, Hl1, Hs. solve_free_total.
Qed.

(** Case 3: no allocated neighbour; the head of the free range is retyped
    and the rest becomes a new free range. *)
Lemma take_head N s l1 r l2 n :
  grow_ok → N < 2 ^ 30 → physmap_wf N s → live s = l1 ++ r :: l2 →
  rtype r = PHYSMEM_TYPE_NORMAL → 0 < n < rsize r →
  ∃ s', (wr (length l1) (with_size n (with_type PHYSMEM_TYPE_ALLOCATED r));;
         physmap_insert_at (S (length l1))
           (Range (u64 (rbase r + n)) (u64 (rsize r - n)) PHYSMEM_TYPE_NORMAL 1)) s =
          Done (tt, s') ∧
        physmap_wf (2 * N) s' ∧ quiet s s' ∧ carved (rbase r) n (live s) (live s') ∧
        (length (live s) ≤ length (live s'))%nat ∧
        physalloc_20bit_st s ≤ physalloc_20bit_st s' ≤ physalloc_20bit_st s + b2z (rbase r + n <? 0x100000).
Proof.
  intros Hg HN Hwf Hs Ht Hn. rewrite (bind_done _ _ _ _ _ (wr_mid _ _ _ _ _ Hs)).
  pose proof (wf_map _ _ Hwf) as Hm. rewrite Hs in Hm.
  pose proof Hm as (Hl1&?&?&?&Hl2)%map_ok_mid. pose proof (map_ok_end _ _ Hl1). unwrap.
  set (r' := with_size n (with_type PHYSMEM_TYPE_ALLOCATED r)).
  set (e := Range (rbase r + n) (rsize r - n) PHYSMEM_TYPE_NORMAL 1).
  set (s1 := set_slots (l1 ++ r' :: l2) (stale s) s).
  assert (map_ok 0 (l1 ++ r' :: e :: l2)) as Hm2.
  { apply map_ok_mid. unfold r', e. simpl. split_and!; try done; try lia.
    eapply map_ok_mono; [|done]. lia. }
  assert (map_ok 0 (l1 ++ r' :: l2)) as Hm1.
  { pose proof (map_ok_drop_mid 0 (l1 ++ [r']) e l2) as Hx. rewrite <- !app_assoc in Hx. by apply Hx. }
  assert (physmap_wf N s1) as Hwf1 by (by eapply write_wf).
  destruct (insert_mid N s1 (l1 ++ [r']) l2 e) as (s' & Hs' & Hwf' & Hl' & Hq' & _);
    [done|done|lia|by rewrite <- app_assoc|by rewrite <- app_assoc|].
  rewrite length_snoc in Hs'. exists s'. rewrite <- app_assoc in Hl'. cbn [app] in Hl'.
  split_and!; [exact Hs'|done|exact Hq'| |rewrite Hs, Hl', !length_app; simpl; lia|..].
  - rewrite Hl', Hs. split.
    + intros a. rewrite (type_at_mid 0 l1 r), (type_at_mid 0 l1 r') by done.
      rewrite (type_at_mid 0 l1 e) by (by eapply map_ok_drop_mid).
      unfold r', e. cbn [rtype with_size with_type]. rewrite Ht. solve_contains.
    + unfold r', e. solve_free_total.
  - rewrite (wf_20 _ _ Hwf'), (wf_20 _ _ Hwf), Hl', Hs, !(count_below_mid _ l1).
    pose proof (count_below_mid 0x100000 l1 e l2). pose proof (b2z_range (rbase e <? 0x100000)).
    simpl in *. lia.
  - rewrite (wf_20 _ _ Hwf'), (wf_20 _ _ Hwf), Hl', Hs, !(count_below_mid _ l1).
    pose proof (count_below_mid 0x100000 l1 e l2). simpl in *. lia.
Qed.

(** Case 4: the whole free range is retyped. *)
Lemma take_whole N s l1 r l2 :
  physmap_wf N s → live s = l1 ++ r :: l2 → rtype r = PHYSMEM_TYPE_NORMAL →
  ∃ s', wr (length l1) (with_type PHYSMEM_TYPE_ALLOCATED r) s = Done (tt, s') ∧
        physmap_wf N s' ∧ quiet s s' ∧ carved (rbase r) (rsize r) (live s) (live s') ∧
        length (live s') = length (live s) ∧ physalloc_20bit_st s' = physalloc_20bit_st s.
Proof.
  intros Hwf Hs Ht. rewrite (wr_mid _ _ _ _ _ Hs). eexists. split; [done|].
  pose proof (wf_map _ _ Hwf) as Hm. rewrite Hs in Hm.
  set (r' := with_type PHYSMEM_TYPE_ALLOCATED r).
  assert (map_ok 0 (l1 ++ r' :: l2)) as Hm1 by (by apply map_ok_mid in Hm; apply map_ok_mid).
  split_and!; [by eapply write_wf|done| |cbn; rewrite Hs, !length_app; simpl; lia|done].
  cbn. rewrite Hs. split.
  - intros a. rewrite (type_at_mid 0 l1 r), (type_at_mid 0 l1 r') by done.
    unfold r'. rewrite Ht. solve_contains.
  - unfold r'. solve_free_total.
Qed.

Lemma set_1st_wf N s c :
  physmap_wf N s → physalloc_20bit_st s ≤ c ≤ N → physmap_wf N (set_1st c s).
Proof. intros [] ?. by constructor. Qed.

Lemma realign_of_0 n b : realign_of n 0 b = 0.
Proof. done. Qed.

(** What the search loop leaves behind: nothing changed, or an allocation of
    at most [n] bytes at the base of a free range between 1MB and 4GB. *)
Definition alloc_done (N n : Z) (s : physmap) (res : phys_alloc_t) (s' : physmap) : Prop :=
  physmap_wf (2 * N) s' ∧ quiet s s' ∧
  ∃ r, r ∈ live s ∧ rtype r = PHYSMEM_TYPE_NORMAL ∧ 0x100000 ≤ rbase r < 0x100000000 ∧
       res = PhysAlloc (rbase r) (Z.min n (rsize r)) ∧
       carved (pbase res) (psize res) (live s) (live s').

(** The loop body at a free range [r], at index [length l1]. *)
Lemma alloc_at_entry N s l1 r l2 n :
  grow_ok → N < 2 ^ 30 → physmap_wf N s → live s = l1 ++ r :: l2 →
  rtype r = PHYSMEM_TYPE_NORMAL → 0x100000 ≤ rbase r < 0x100000000 → 0 < n < 2 ^ 64 →
  ∃ s', (res ← (if n <? rsize r then
                  wr (length l1) (with_size n (with_type PHYSMEM_TYPE_ALLOCATED r));;
                  physmap_insert_at (length l1 + 1)%nat
                    (Range (u64 (rbase r + n)) (u64 (rsize r - n)) PHYSMEM_TYPE_NORMAL 1);;
                  mret (PhysAlloc (rbase r) (u64 (n - 0)))
                else
                  wr (length l1) (with_type PHYSMEM_TYPE_ALLOCATED r);;
                  mret (PhysAlloc (rbase r) (u64 (rsize r - 0))));
         modify (set_1st (u32 (Z.of_nat (length l1) + 1)));;
         mret (length l1, res, PhysAlloc (rbase r) 0)) s =
         Done ((length l1, PhysAlloc (rbase r) (Z.min n (rsize r)), PhysAlloc (rbase r) 0), s') ∧
        alloc_done N n s (PhysAlloc (rbase r) (Z.min n (rsize r))) s'.
Proof.
  intros Hg HN Hwf Hs Ht Hb Hn. rewrite Nat.add_1_r.
  pose proof (wf_map _ _ Hwf) as Hm. rewrite Hs in Hm.
  pose proof Hm as (Hl1&?&?&?&Hl2)%map_ok_mid. pose proof (wf_cap _ _ Hwf) as Hcap.
  unfold physalloc_capacity in Hcap. rewrite Hs, length_app in Hcap. simpl in Hcap.
  pose proof (count_below_index 0 0x100000 l1 r l2 Hm) as Hi. rewrite <- Hs, <- (wf_20 _ _ Hwf) in Hi.
  rewrite (proj2 (Z.ltb_ge (rbase r) 0x100000)) in Hi by lia. apply Z.ltb_ge in Hi.
  pose proof (wf_budget _ _ Hwf). rewrite !Z.sub_0_r.
  assert (r ∈ live s) as Hin by (rewrite Hs, elem_of_app, elem_of_cons; auto).
  destruct (Z.ltb_spec n (rsize r)).
  - destruct (take_head N s l1 r l2 n) as (s' & Hs' & Hwf' & Hq & Hc & _ & H20); [done..|lia|].
    rewrite (proj2 (Z.ltb_ge (rbase r + n) 0x100000)) in H20 by lia. simpl in H20.
    erewrite bind_done by (erewrite seq_done by exact Hs'; reflexivity).
    rewrite Z.min_l by lia. unwrap. eexists. split; [done|]. split_and!; [|done|].
    + apply set_1st_wf; [done|]. lia.
    + exists r. by rewrite Z.min_l by lia.
  - destruct (take_whole N s l1 r l2) as (s' & Hs' & Hwf' & Hq & Hc & _ & H20); [done..|].
    erewrite bind_done by (erewrite bind_done by exact Hs'; reflexivity).
    rewrite Z.min_r by lia. unwrap. eexists. split; [done|]. split_and!; [|done|].
    + eapply physmap_wf_weaken; [apply set_1st_wf; [done|lia]|lia].
    + exists r. by rewrite Z.min_r by lia.
Qed.

(** The loop body when the range before [r] is allocated and adjacent. *)
Lemma alloc_at_prev N s l1 pv r l2 n :
  N < 2 ^ 30 → physmap_wf N s → live s = l1 ++ pv :: r :: l2 →
  rtype pv = PHYSMEM_TYPE_ALLOCATED → rbase pv + rsize pv = rbase r →
  rtype r = PHYSMEM_TYPE_NORMAL → 0x100000 ≤ rbase r < 0x100000000 → no_straddle (live s) →
  0 < n < 2 ^ 64 →
  ∃ s', (if n <? rsize r then
           wr (length l1) (with_size (u64 (rsize pv + n)) pv);;
           wr (S (length l1)) (with_base (u64 (rbase r + n)) (with_size (u64 (rsize r - n)) r));;
           mret (S (length l1), PhysAlloc (rbase r) (u64 (n - 0)), PhysAlloc (rbase r) 0)
         else
           wr (length l1) (with_size (u64 (rsize pv + rsize r)) pv);;
           physmap_delete (S (length l1));;
           k ← gets physalloc_count;
           coalesce_after (S k) (S (length l1));;
           mret (S (length l1), PhysAlloc (rbase r) (u64 (rsize r - 0)), PhysAlloc (rbase r) 0)) s =
         Done ((S (length l1), PhysAlloc (rbase r) (Z.min n (rsize r)), PhysAlloc (rbase r) 0), s') ∧
        alloc_done N n s (PhysAlloc (rbase r) (Z.min n (rsize r))) s'.
Proof.
  intros HN' Hwf Hs Hpt Hadj Ht Hb Hns Hn. rewrite !Z.sub_0_r.
  assert (r ∈ live s) as Hin by (rewrite Hs, elem_of_app, !elem_of_cons; auto).
  pose proof (wf_map _ _ Hwf) as Hm. destruct (map_ok_elem _ _ _ Hm Hin) as (?&?&?&_).
  pose proof (wf_budget _ _ Hwf) as HN. pose proof (proj1 (Forall_forall _ _) Hns r Hin Ht).
  destruct (Z.ltb_spec n (rsize r)).
  - destruct (take_into_prev N s l1 pv r l2 n) as (s' & Hs' & Hwf' & Hq & Hc); [done..|lia|lia| |].
    { destruct (Z.ltb_spec (rbase r + n) 0x100000000), (Z.ltb_spec (rbase r) 0x100000000); lia. }
    erewrite seq_done by exact Hs'. rewrite Z.min_l by lia. unwrap. exists s'. split; [done|].
    split_and!; [eapply physmap_wf_weaken; [done|lia]|done|]. exists r. by rewrite Z.min_l by lia.
  - destruct (consume_into_prev N s l1 pv r l2) as (s' & Hs' & Hwf' & Hq & Hc); [done..|].
    unfold mbind, M_bind in Hs' |- *. destruct (wr _ _ s) as [[? s1]|]; [|done].
    destruct (physmap_delete _ s1) as [[? s2]|]; [|done]. unfold gets in *.
    destruct (coalesce_after _ _ s2) as [[? s3]|]; [|done]. simplify_eq.
    rewrite Z.min_r by lia. unwrap. exists s'. split; [done|].
    split_and!; [eapply physmap_wf_weaken; [done|lia]|done|]. exists r. by rewrite Z.min_r by lia.
Qed.

(** The search of alloc_phys without realignment. *)
Lemma alloc_loop_spec fuel N s i n insist res0 unw0 :
  grow_ok → N < 2 ^ 30 → physmap_wf N s → no_straddle (live s) → 0 < n < 2 ^ 64 →
  physalloc_20bit_st s ≤ Z.of_nat i → (Z.to_nat (physalloc_64bit_st s) - i < fuel)%nat →
  psize res0 = 0 → psize unw0 = 0 →
  ∃ i' res unw s', alloc_loop fuel i n 0 insist res0 unw0 s = Done ((i', res, unw), s') ∧
    psize unw = 0 ∧
    (alloc_done N n s res s' ∨
     psize res = 0 ∧ s' = s ∧
     (insist = false → res = res0 ∧
        ∀ j r, (i ≤ j)%nat → Z.of_nat j < physalloc_64bit_st s → live s !! j = Some r →
               rtype r ≠ PHYSMEM_TYPE_NORMAL)).
Proof.
  intros Hg HN Hwf Hns Hn. pose proof (wf_map _ _ Hwf) as Hm. revert i res0 unw0.
  induction fuel as [|fuel IH]; intros i res0 unw0 Hi Hf Hres Hunw; [lia|].
  cbn [alloc_loop]. rewrite (bind_done _ _ s _ s eq_refl).
  destruct (Z.ltb_spec (Z.of_nat i) (physalloc_64bit_st s)) as [Hlt|Hge]; simpl; last first.
  { exists i, res0, unw0, s. split_and!; [done|done|]. right. split_and!; [done|done|].
    intros _. split; [done|]. lia. }
  pose proof (count_below_le 0x100000000 (live s)) as Hcl. pose proof Hlt as Hlt'.
  rewrite (wf_64 _ _ Hwf) in Hlt'.
  destruct (lookup_lt_is_Some_2 (live s) i ltac:(lia)) as [r Hr].
  rewrite (bind_done _ _ _ _ _ (rd_live _ _ _ Hr)).
  assert (∀ n' rs uw, psize rs = 0 → psize uw = 0 → n' = n →
            (insist = false → rtype r ≠ PHYSMEM_TYPE_NORMAL ∧ rs = res0) →
    ∃ i' res unw s', alloc_loop fuel (i + 1) n' 0 insist rs uw s = Done ((i', res, unw), s') ∧
    psize unw = 0 ∧
    (alloc_done N n s res s' ∨
     psize res = 0 ∧ s' = s ∧
     (insist = false → res = res0 ∧
        ∀ j r, (i ≤ j)%nat → Z.of_nat j < physalloc_64bit_st s → live s !! j = Some r →
               rtype r ≠ PHYSMEM_TYPE_NORMAL))) as Hnext.
  { intros n' rs uw Hrs Huw -> Hnt. destruct (IH (i + 1)%nat rs uw ltac:(lia) ltac:(lia) Hrs Huw)
      as (i' & res & unw & s' & HE & Hu & [Hd|(Hz & -> & Hall)]); eexists _, _, _, _; split_and!; eauto.
    right. split_and!; [done|done|]. intros Hins. destruct (Hall Hins) as [-> Hj].
    destruct (Hnt Hins) as [Hr0 ->]. split; [done|]. intros j x Hij Hj64 Hx.
    destruct (decide (j = i)) as [->|]; [by simplify_eq|]. apply (Hj j x); [lia|done|done]. }
  destruct (Z.eqb_spec (rtype r) PHYSMEM_TYPE_NORMAL) as [Ht|Ht]; simpl; [|by apply Hnext].
  set (l1 := take i (live s)). set (l2 := drop (S i) (live s)).
  assert (live s = l1 ++ r :: l2) as Hs by (symmetry; by apply take_drop_middle).
  assert (length l1 = i) as Hl1 by (apply length_take_le; apply lookup_lt_Some in Hr; lia).
  assert (r ∈ live s) as Hin by (by eapply list_elem_of_lookup_2).
  destruct (map_ok_elem _ _ _ Hm Hin) as (?&?&?&_).
  assert (0x100000 ≤ rbase r < 0x100000000) as Hb.
  { rewrite Hs in Hm. pose proof (count_below_index 0 0x100000 l1 r l2 Hm) as E1.
    pose proof (count_below_index 0 0x100000000 l1 r l2 Hm) as E2.
    rewrite <- Hs, Hl1 in E1, E2. rewrite <- (wf_20 _ _ Hwf) in E1.
    rewrite (proj2 (Z.ltb_ge _ _) Hi) in E1. rewrite (proj2 (Z.ltb_lt _ _) Hlt') in E2.
    symmetry in E1, E2. apply Z.ltb_ge in E1. apply Z.ltb_lt in E2. lia. }
  rewrite realign_of_0, !Z.add_0_r, (u64_small n), (u64_small (rbase r)) by lia.
  rewrite (proj2 (Z.leb_gt _ _)) by lia.
  case_decide as Hi0; last first.
  { rewrite (bind_done _ _ s _ s eq_refl). cbn iota.
    destruct (alloc_at_entry N s l1 r l2 n) as (s' & Hs' & Hd); [done..|]. rewrite Hl1 in Hs'.
    eexists _, _, _, s'. split; [exact Hs'|]. split; [done|by left]. }
  destruct (lookup_lt_is_Some_2 (live s) (i - 1)%nat ltac:(apply lookup_lt_Some in Hr; lia)) as [pv Hpv].
  rewrite bind_assoc, (bind_done _ _ _ _ _ (rd_live _ _ _ Hpv)), (bind_done _ _ s _ s eq_refl).
  assert (rend pv = rbase pv + rsize pv) as ->.
  { eapply rend_elem; [|done|by eapply list_elem_of_lookup_2]. lia. }
  destruct ((rtype pv =? PHYSMEM_TYPE_ALLOCATED) && (rbase pv + rsize pv =? rbase r)) eqn:E; last first.
  { destruct (alloc_at_entry N s l1 r l2 n) as (s' & Hs' & Hd); [done..|]. rewrite Hl1 in Hs'.
    eexists _, _, _, s'. split; [exact Hs'|]. split; [done|by left]. }
  apply andb_prop in E as [Hpt%Z.eqb_eq Hadj%Z.eqb_eq].
  rewrite (bind_done _ _ _ _ _ (rd_live _ _ _ Hpv)).
  assert (live s = take (i - 1) (live s) ++ pv :: r :: l2) as Hs2.
  { rewrite <- (take_drop_middle _ _ _ Hpv) at 1. f_equal. f_equal.
    replace (S (i - 1)) with i by lia. unfold l2. by apply drop_S. }
  assert (length (take (i - 1) (live s)) = (i - 1)%nat) as Hl1'.
  { apply length_take_le. apply lookup_lt_Some in Hr. lia. }
  destruct (alloc_at_prev N s _ pv r l2 n HN Hwf Hs2) as (s' & Hs' & Hd); [done..|].
  rewrite Hl1' in Hs'. replace (S (i - 1)) with i in Hs' by lia.
  destruct (Z.ltb_spec n (rsize r)) as [Hnr|Hnr]; [|destruct insist; [by apply Hnext|]];
    (eexists _, _, _, s'; split; [exact Hs'|]; split; [done|by left]).
Qed.

Lemma boot_assert_live b s : ∃ s', boot_assert b s = Done (tt, s') ∧ live s' = live s.
Proof. destruct b; by eexists. Qed.

(** The tail of alloc_phys after the search, with nothing to give back. *)
Lemma alloc_phys_tail s res unw space :
  map_ok 0 (live s) → psize unw = 0 →
  ∃ s', (boot_assert (Z.land (pbase res) 0xFFF =? 0);;
         boot_assert (0x100000 <=? pbase res);;
         boot_assert (pbase res <? 0x100000000);;
         physmap_validate false;;
         (if negb (psize unw =? 0) then free_phys unw else mret tt);;
         space_after ← physmap_check_freespace;
         boot_assert (u64 (space - space_after) =? psize res);;
         mret res) s = Done (res, s') ∧ live s' = live s ∧
        ((0x100000 ≤ pbase res < 0x100000000 ∧ pbase res mod 4096 = 0 ∧
          space = free_total (live s) + psize res ∧ 0 ≤ psize res < 2 ^ 64) → s' = s).
Proof.
  intros Hm Hu. rewrite Hu. cbn [negb Z.eqb].
  destruct (boot_assert_live (Z.land (pbase res) 0xFFF =? 0) s) as (s1 & E1 & L1).
  destruct (boot_assert_live (0x100000 <=? pbase res) s1) as (s2 & E2 & L2).
  destruct (boot_assert_live (pbase res <? 0x100000000) s2) as (s3 & E3 & L3).
  rewrite (bind_done _ _ _ _ _ E1), (bind_done _ _ _ _ _ E2), (bind_done _ _ _ _ _ E3).
  assert (live s3 = live s) as L by congruence.
  destruct (validate_runs s3) as [v Hv]; [by rewrite L|].
  rewrite (bind_done _ _ _ _ _ Hv), (bind_done _ _ s3 _ s3 eq_refl).
  erewrite bind_done by (apply check_freespace_spec; by rewrite L). rewrite L.
  destruct (boot_assert_live (u64 (space - free_total (live s)) =? psize res) s3) as (s4 & E4 & L4).
  rewrite (bind_done _ _ _ _ _ E4). exists s4. split; [done|]. split; [congruence|].
  intros (Hb & Hal & Hsp & Hsz).
  rewrite (land_low_mask 12) in E1 by lia. change (2 ^ 12) with 4096 in E1.
  rewrite Hal in E1. injection E1 as <-.
  rewrite (proj2 (Z.leb_le _ _)) in E2 by lia. injection E2 as <-.
  rewrite (proj2 (Z.ltb_lt _ _)) in E3 by lia. injection E3 as <-.
  rewrite Hsp, Z.add_simpl_l, u64_small, Z.eqb_refl in E4 by lia. by injection E4 as <-.
Qed.

(** The request rounded up to whole pages, as alloc_phys rounds it *)
Definition page_ceil (n : Z) : Z := (n + 4095) / 4096 * 4096.

Lemma page_ceil_eq n : 0 ≤ n < 2 ^ 63 → page_floor (u64 (n + PAGE_MASK)) = page_ceil n.
Proof.
  intros Hn. unfold PAGE_MASK, page_ceil. unwrap. rewrite page_floor_eq by lia.
  pose proof (Z.div_mod (n + 4095) 4096). lia.
Qed.


End alloc.
