(* ===== verification/PhysmapSplit.v ===== *)
(** * physmap_split_large: cutting free memory into large pages

    Every free range is cut at 2MB and 1GB boundaries.  The addresses that
    are free stay the same, the new ranges are aligned to the page size their
    type names, and no range of small pages is left that contains a whole
    2MB page. *)

From stdpp Require Import base tactics list numbers option.
From S2P Require Import Prelude Physmap PhysmapFacts PhysmapThms PhysmapAlloc.

#[local] Open Scope Z_scope.

(** The kind of memory at an address, not telling free memory of different
    page sizes apart *)
Definition type_class (t : Z) : Z :=
  if (t =? PHYSMEM_TYPE_NORMAL_1G) || (t =? PHYSMEM_TYPE_NORMAL_2M) then PHYSMEM_TYPE_NORMAL else t.

Definition class_at (l : list physmem_range_t) (a : Z) : option Z := type_class <$> type_at l a.

Definition piece_ok (p : physmem_range_t) : Prop :=
  (rtype p = PHYSMEM_TYPE_NORMAL_2M → rbase p mod twoMB = 0 ∧ rsize p mod twoMB = 0) ∧
  (rtype p = PHYSMEM_TYPE_NORMAL_1G → rbase p mod oneGB = 0 ∧ rsize p mod oneGB = 0).

(** No whole aligned 2MB page inside a range of small pages *)
Definition no_large (r : physmem_range_t) : Prop :=
  rtype r = PHYSMEM_TYPE_NORMAL → round_dn (rbase r + rsize r) twoMB ≤ round_up (rbase r) twoMB.

Lemma round_up_spec k n :
  0 ≤ k ≤ 30 → 0 ≤ n < 2 ^ 63 →
  n ≤ round_up n (2 ^ k) < n + 2 ^ k ∧ round_up n (2 ^ k) mod 2 ^ k = 0.
Proof.
  intros Hk Hn. unfold round_up. pose proof (Z.pow_le_mono_r 2 k 30 ltac:(lia) ltac:(lia)).
  pose proof (Z.pow_pos_nonneg 2 k ltac:(lia) ltac:(lia)).
  rewrite u64_small, land_neg_pow2 by lia. rewrite Z.mul_comm, Z.mod_mul by lia.
  pose proof (Z.div_mod (n + (2 ^ k - 1)) (2 ^ k) ltac:(lia)).
  pose proof (Z.mod_pos_bound (n + (2 ^ k - 1)) (2 ^ k) ltac:(lia)). lia.
Qed.

Lemma round_dn_spec k n :
  0 ≤ k → 0 ≤ n < 2 ^ 64 →
  n - 2 ^ k < round_dn n (2 ^ k) ≤ n ∧ 0 ≤ round_dn n (2 ^ k) ∧ round_dn n (2 ^ k) mod 2 ^ k = 0.
Proof.
  intros Hk Hn. unfold round_dn. pose proof (Z.pow_pos_nonneg 2 k ltac:(lia) ltac:(lia)).
  rewrite land_neg_pow2 by lia. rewrite Z.mul_comm, Z.mod_mul by lia.
  pose proof (Z.div_mod n (2 ^ k) ltac:(lia)). pose proof (Z.mod_pos_bound n (2 ^ k) ltac:(lia)).
  pose proof (Z.div_pos n (2 ^ k)). lia.
Qed.

Lemma round_up_fix k n m :
  0 ≤ k ≤ 30 → 0 ≤ n < 2 ^ 63 → n mod 2 ^ k = 0 → m = 2 ^ k → round_up n m = n.
Proof.
  intros Hk Hn Hm ->. destruct (round_up_spec k n Hk Hn) as [Hr Hmr].
  pose proof (Z.pow_pos_nonneg 2 k ltac:(lia) ltac:(lia)).
  apply Z.mod_divide in Hm as [x Hx], Hmr as [y Hy]; [|lia..]. rewrite Hy, Hx in *.
  assert (x = y); [nia|by subst].
Qed.

Lemma round_dn_fix k n m :
  0 ≤ k → 0 ≤ n < 2 ^ 64 → n mod 2 ^ k = 0 → m = 2 ^ k → round_dn n m = n.
Proof.
  intros Hk Hn Hm ->. destruct (round_dn_spec k n Hk Hn) as (Hr & _ & Hmr).
  pose proof (Z.pow_pos_nonneg 2 k ltac:(lia) ltac:(lia)).
  apply Z.mod_divide in Hm as [x Hx], Hmr as [y Hy]; [|lia..]. rewrite Hy, Hx in *.
  assert (x = y); [nia|by subst].
Qed.

Lemma mod_pow2_weaken j k n : 0 ≤ j ≤ k → n mod 2 ^ k = 0 → n mod 2 ^ j = 0.
Proof.
  intros Hjk [x ->]%Z.mod_divide; [|apply Z.pow_nonzero; lia].
  replace k with ((k - j) + j) by lia. rewrite Z.pow_add_r by lia.
  rewrite Z.mul_assoc. apply Z.mod_mul, Z.pow_nonzero; lia.
Qed.

Lemma mod_sub_0 a b m : m ≠ 0 → a mod m = 0 → b mod m = 0 → (a - b) mod m = 0.
Proof. intros Hm Ha Hb. by rewrite Zminus_mod, Ha, Hb. Qed.

(** Ranges laid end to end from [lo]; an empty one may be anywhere. *)
Fixpoint contig (lo : Z) (l : list physmem_range_t) : Prop :=
  match l with
  | [] => True
  | r :: l => (rsize r = 0 ∨ rbase r = lo) ∧ 0 ≤ rsize r ∧ rsize r mod 4096 = 0 ∧
              contig (lo + rsize r) l
  end.

Fixpoint total (l : list physmem_range_t) : Z :=
  match l with [] => 0 | r :: l => rsize r + total l end.

Lemma contig_total lo l : contig lo l → 0 ≤ total l.
Proof. revert lo. induction l as [|r l IH]; intros lo; simpl; [lia|]. intros (?&?&?&?%IH). lia. Qed.

Abbreviation has_page := (λ p : physmem_range_t, Z.shiftr (rsize p) 12 ≠ 0).

Lemma has_page_iff r : 0 ≤ rsize r → rsize r mod 4096 = 0 → Z.shiftr (rsize r) 12 ≠ 0 ↔ 0 < rsize r.
Proof.
  intros Hz Hmod. rewrite Z.shiftr_div_pow2 by lia. change (2 ^ 12) with 4096.
  pose proof (Z.div_mod (rsize r) 4096 ltac:(lia)). lia.
Qed.

Lemma contig_filter lo l :
  contig lo l → lo + total l < 2 ^ 64 →
  map_ok lo (filter has_page l) ∧ end_of lo (filter has_page l) = lo + total l.
Proof.
  revert lo. induction l as [|r l IH]; intros lo; simpl; [lia|].
  intros (Hb & Hz & Hmod & Hl) Ht. pose proof (contig_total _ _ Hl).
  rewrite filter_cons. destruct (IH _ Hl ltac:(lia)) as [IH1 IH2].
  pose proof (has_page_iff r Hz Hmod) as Hp. case_decide as Hd; [apply Hp in Hd|assert (¬ 0 < rsize r) by (intros ?%Hp; done)].
  - destruct Hb as [?|Hb]; [lia|]. simpl. rewrite Hb, IH2. split; [|lia]. by split_and!; try lia.
  - assert (rsize r = 0) as E by lia. rewrite E, Z.add_0_r in *. split; [done|lia].
Qed.

(** Inside pieces that cover [lo, end) and are all free, every address of the
    interval is free. *)
Lemma class_at_contig lo l a :
  contig lo l → Forall (λ p, type_class (rtype p) = PHYSMEM_TYPE_NORMAL) l →
  class_at (filter has_page l) a =
    if (lo <=? a) && (a <? lo + total l) then Some PHYSMEM_TYPE_NORMAL else None.
Proof.
  revert lo. induction l as [|r l IH]; intros lo; simpl.
  { intros _ _. by destruct (Z.leb_spec lo a), (Z.ltb_spec a (lo + 0)); try done; lia. }
  intros (Hb & Hz & Hmod & Hl) [Hr Hall]%Forall_cons. pose proof (contig_total _ _ Hl).
  specialize (IH _ Hl Hall). rewrite filter_cons.
  pose proof (has_page_iff r Hz Hmod) as Hp. case_decide as Hd; [apply Hp in Hd|assert (¬ 0 < rsize r) by (intros ?%Hp; done)].
  - destruct Hb as [?|<-]; [lia|]. unfold class_at in *. cbn [type_at].
    destruct (contains r a) eqn:E; unfold contains in E.
    + simpl. rewrite Hr. apply andb_prop in E as [?%Z.leb_le ?%Z.ltb_lt].
      destruct (Z.leb_spec (rbase r) a), (Z.ltb_spec a (rbase r + (rsize r + total l))); done || lia.
    + rewrite IH. apply andb_false_iff in E. rewrite Z.leb_gt, Z.ltb_ge in E.
      solve_contains.
  - assert (rsize r = 0) as E by lia. rewrite IH, E, Z.add_0_r, Z.add_0_l. done.
Qed.

(** The cut points of a range [A, F): in order and aligned. *)
Record cuts (A B C D E F : Z) : Prop := {
  cut_order : A ≤ B < E ∧ E ≤ F ∧ B ≤ C < 2 ^ 63 ∧ 0 ≤ D ≤ E;
  cut_near : B - A < twoMB ∧ F - E < twoMB;
  cut_2M : B mod twoMB = 0 ∧ E mod twoMB = 0 ∧ C mod twoMB = 0 ∧ D mod twoMB = 0;
  cut_1G : C mod oneGB = 0 ∧ D mod oneGB = 0;
  cut_page : Forall (λ x, x mod 4096 = 0) [A; B; C; D; E; F]
}.

Lemma split_cuts A F :
  0 ≤ A < F → F < 2 ^ 62 → A mod 4096 = 0 → F mod 4096 = 0 →
  round_up A twoMB < round_dn F twoMB →
  cuts A (round_up A twoMB) (round_up (round_up A twoMB) oneGB)
    (round_dn (round_dn F twoMB) oneGB) (round_dn F twoMB) F.
Proof.
  intros HA HF HmA HmF. unfold twoMB, oneGB.
  destruct (round_up_spec 21 A) as [HB HmB]; [lia..|].
  destruct (round_dn_spec 21 F) as (HE & HE0 & HmE); [lia..|].
  set (B := round_up A (2 ^ 21)) in *. set (E := round_dn F (2 ^ 21)) in *. intros HBE.
  destruct (round_up_spec 30 B) as [HC HmC]; [lia..|].
  destruct (round_dn_spec 30 E) as (HD & HD0 & HmD); [lia..|].
  set (C := round_up B (2 ^ 30)) in *. set (D := round_dn E (2 ^ 30)) in *.
  pose proof (mod_pow2_weaken 21 30 C ltac:(lia) HmC) as HC2.
  pose proof (mod_pow2_weaken 21 30 D ltac:(lia) HmD) as HD2.
  constructor; unfold twoMB, oneGB; [lia|lia|done|done|]. change 4096 with (2 ^ 12) in *.
  repeat (constructor; [try done; by apply (mod_pow2_weaken 12 21)|]). done.
Qed.

(** The pieces, before the empty ones are dropped *)
Definition raw_pieces (A B C D E F : Z) : list physmem_range_t :=
  if C <? D then
    [Range A (B - A) PHYSMEM_TYPE_NORMAL 1; Range B (C - B) PHYSMEM_TYPE_NORMAL_2M 1;
     Range C (D - C) PHYSMEM_TYPE_NORMAL_1G 1; Range D (E - D) PHYSMEM_TYPE_NORMAL_2M 1;
     Range E (F - E) PHYSMEM_TYPE_NORMAL 1]
  else
    [Range A (B - A) PHYSMEM_TYPE_NORMAL 1; Range B (E - B) PHYSMEM_TYPE_NORMAL_2M 1;
     Range C 0 PHYSMEM_TYPE_NORMAL_1G 1; Range D 0 PHYSMEM_TYPE_NORMAL_2M 1;
     Range E (F - E) PHYSMEM_TYPE_NORMAL 1].

Lemma gap_eq hi lo : 0 ≤ lo ≤ hi → hi < 2 ^ 64 → (if lo <? hi then u64 (hi - lo) else 0) = hi - lo.
Proof. intros ? ?. destruct (Z.ltb_spec lo hi); [by unwrap|lia]. Qed.

Lemma split_pieces_raw A F B C D E :
  cuts A B C D E F → 0 ≤ A → F < 2 ^ 62 →
  B = round_up A twoMB → E = round_dn F twoMB → C = round_up B oneGB → D = round_dn E oneGB →
  split_pieces A F = filter has_page (raw_pieces A B C D E F).
Proof.
  intros [Ho _ _ _ _] HA HF HB HE HC HD. unfold split_pieces. rewrite <- HB, <- HE, <- HC, <- HD.
  unfold raw_pieces. cbn zeta beta. destruct (Z.ltb_spec C D); rewrite !gap_eq by lia; by unwrap.
Qed.

Lemma raw_pieces_ok A B C D E F :
  cuts A B C D E F → 0 ≤ A → F < 2 ^ 62 →
  contig A (raw_pieces A B C D E F) ∧ total (raw_pieces A B C D E F) = F - A ∧
  Forall (λ p, type_class (rtype p) = PHYSMEM_TYPE_NORMAL) (raw_pieces A B C D E F) ∧
  Forall piece_ok (raw_pieces A B C D E F).
Proof.
  intros [Ho _ (?&?&?&?) (?&?) Hp] HA HF. repeat apply Forall_cons in Hp as [? Hp].
  assert (∀ x y, x mod 4096 = 0 → y mod 4096 = 0 → (x - y) mod 4096 = 0) as Hsub.
  { intros x y. by apply mod_sub_0. }
  unfold raw_pieces. destruct (Z.ltb_spec C D); simpl.
  all: split_and!; try lia; try (by apply Hsub); try done.
  all: repeat (apply Forall_cons_2; [|]); try apply Forall_nil_2; try done.
  all: split; simpl; intros Ht; try discriminate Ht; split; try done; by apply mod_sub_0.
Qed.

Lemma split_pieces_spec A F :
  0 ≤ A < F → F < 2 ^ 62 → A mod 4096 = 0 → F mod 4096 = 0 →
  round_up A twoMB < round_dn F twoMB →
  map_ok A (split_pieces A F) ∧ end_of A (split_pieces A F) = F ∧
  Forall piece_ok (split_pieces A F) ∧ Forall no_large (split_pieces A F) ∧
  (length (split_pieces A F) ≤ 5)%nat ∧
  ∀ a, class_at (split_pieces A F) a =
       if (A <=? a) && (a <? F) then Some PHYSMEM_TYPE_NORMAL else None.
Proof.
  intros HA HF HmA HmF HBE. pose proof (split_cuts A F HA HF HmA HmF HBE) as Hc.
  rewrite (split_pieces_raw A F _ _ _ _ Hc) by (done || lia).
  remember (round_up A twoMB) as B eqn:EB. remember (round_dn F twoMB) as E eqn:EE.
  remember (round_up B oneGB) as C. remember (round_dn E oneGB) as D.
  destruct (raw_pieces_ok A B C D E F Hc) as (Hcon & Htot & Hcl & Hpo); [lia|lia|].
  destruct (contig_filter _ _ Hcon ltac:(lia)) as [Hm He].
  split_and!; [done|lia|by apply Forall_filter| | |].
  - apply Forall_filter. destruct Hc as [Ho _ (?&?&?&?) _ _].
    assert (no_large (Range A (B - A) PHYSMEM_TYPE_NORMAL 1)) as Hfirst.
    { intros _. cbn [rbase rsize]. rewrite <- EB. replace (A + (B - A)) with B by lia.
      rewrite (round_dn_fix 21); try done; lia. }
    assert (no_large (Range E (F - E) PHYSMEM_TYPE_NORMAL 1)) as Hlast.
    { intros _. cbn [rbase rsize]. replace (E + (F - E)) with F by lia. rewrite <- EE.
      rewrite (round_up_fix 21); try done; lia. }
    unfold raw_pieces. destruct (C <? D); repeat (constructor; [done|]); done.
  - etrans; [apply length_filter|]. unfold raw_pieces. by destruct (C <? D).
  - intros a. rewrite (class_at_contig A) by done. rewrite Htot.
    by replace (A + (F - A)) with F by lia.
Qed.

Section split.
Context `{BootHeap}.

Lemma map_ok_drop_app lo l1 l2 l3 : map_ok lo (l1 ++ l2 ++ l3) → map_ok lo (l1 ++ l3).
Proof.
  intros [Hl1 [Hl2 Hl3]%map_ok_app]%map_ok_app. apply map_ok_app. split; [done|].
  eapply map_ok_mono; [|done]. by apply map_ok_end.
Qed.

Lemma insert_pieces_spec N s l1 ps l2 :
  grow_ok → physmap_wf N s → live s = l1 ++ l2 → map_ok 0 (l1 ++ ps ++ l2) → 32 ≤ N →
  physalloc_20bit_1st s + Z.of_nat (length ps) ≤ N →
  (Z.of_nat (physalloc_count s) + Z.of_nat (length ps)) * 2 ≤ N →
  ∃ s', insert_pieces (length l1) ps s = Done ((length l1 + length ps)%nat, s') ∧
        physmap_wf N s' ∧ live s' = l1 ++ ps ++ l2 ∧ quiet s s' ∧
        physalloc_20bit_1st s' ≤ physalloc_20bit_1st s + Z.of_nat (length ps).
Proof.
  intros Hg Hwf Hs Hm H32. revert s l1 Hwf Hs Hm.
  induction ps as [|p ps IH]; intros s l1 Hwf Hs Hm Hf Hc; simpl in *.
  { rewrite Nat.add_0_r. exists s. by split_and!; try lia. }
  pose proof (wf_budget _ _ Hwf).
  destruct (insert_mid_budget N N s l1 l2 p) as (s1 & E1 & Hwf1 & Hl1 & Hq1 & Hf1);
    [done|done|done| |lia|lia|lia|lia|].
  { pose proof (map_ok_drop_app 0 (l1 ++ [p]) ps l2) as Hx. rewrite <- !app_assoc in Hx. by apply Hx. }
  rewrite (bind_done _ _ _ _ _ E1). pose proof (b2z_range (rbase p <? 0x100000)).
  destruct (IH s1 (l1 ++ [p])) as (s2 & E2 & Hwf2 & Hl2 & Hq2 & Hf2).
  { done. } { by rewrite <- app_assoc. } { by rewrite <- app_assoc. } { lia. }
  { unfold physalloc_count in *. rewrite Hl1, Hs, !length_app in *. simpl. lia. }
  rewrite length_snoc, <- Nat.add_1_r in E2. rewrite E2.
  exists s2. split_and!; [do 2 f_equal; lia|done|by rewrite Hl2, <- app_assoc|by etrans|lia].
Qed.

Definition splittable (r : physmem_range_t) : Prop :=
  rtype r = PHYSMEM_TYPE_NORMAL →
  rbase r mod 4096 = 0 ∧ rsize r mod 4096 = 0 ∧ rbase r + rsize r < 2 ^ 62.

Lemma class_at_app l1 l2 a :
  class_at (l1 ++ l2) a = match class_at l1 a with Some t => Some t | None => class_at l2 a end.
Proof. unfold class_at. rewrite type_at_app. by destruct (type_at l1 a). Qed.

(** Putting the pieces where the range was keeps the map sorted and keeps
    every address's class. *)
Lemma replace_by_pieces l1 r l2 :
  map_ok 0 (l1 ++ r :: l2) → rtype r = PHYSMEM_TYPE_NORMAL → splittable r →
  round_up (rbase r) twoMB < round_dn (rbase r + rsize r) twoMB →
  let ps := split_pieces (rbase r) (rbase r + rsize r) in
  map_ok 0 (l1 ++ ps ++ l2) ∧ ∀ a, class_at (l1 ++ ps ++ l2) a = class_at (l1 ++ r :: l2) a.
Proof.
  intros (Hl1&Hlo&Hz&Hend&Hl2)%map_ok_mid Ht Hsp Hlt. destruct (Hsp Ht) as (HmA & HmS & HF).
  pose proof (map_ok_end _ _ Hl1).
  destruct (split_pieces_spec (rbase r) (rbase r + rsize r)) as (Hpm & Hpe & _ & _ & _ & Hcl);
    [lia|lia|done| |done|].
  { by rewrite Z.add_mod, HmA, HmS. }
  cbn zeta. split.
  - apply map_ok_app. split; [done|]. apply map_ok_app. split.
    + eapply map_ok_mono; [|done]. lia.
    + eapply map_ok_mono; [|done]. clear Hcl.
      destruct (split_pieces (rbase r) (rbase r + rsize r)) as [|p ps]; simpl in *; lia.
  - intros a. rewrite !class_at_app, Hcl. destruct (class_at l1 a); [done|].
    unfold class_at. cbn [type_at]. unfold contains.
    destruct ((rbase r <=? a) && (a <? rbase r + rsize r)); simpl; by rewrite ?Ht.
Qed.

Lemma split_large_loop_spec fuel N s l1 l2 :
  grow_ok → physmap_wf N s → live s = l1 ++ l2 → Forall splittable l2 → Forall no_large l1 →
  (length l2 < fuel)%nat → 32 ≤ N →
  physalloc_20bit_1st s + 5 * Z.of_nat (length l2) ≤ N →
  (Z.of_nat (length l1) + 5 * Z.of_nat (length l2)) * 2 ≤ N →
  ∃ s', split_large_loop fuel (length l1) s = Done (tt, s') ∧ physmap_wf N s' ∧ quiet s s' ∧
        Forall no_large (live s') ∧ (∀ r, r ∈ live s' → r ∈ live s ∨ piece_ok r) ∧
        ∀ a, class_at (live s') a = class_at (live s) a.
Proof.
  intros Hg Hwf. revert s l1 l2 Hwf.
  induction fuel as [|fuel IH]; intros s l1 l2 Hwf Hs Hsp Hnl Hfu H32 Hf Hc; [lia|].
  cbn [split_large_loop]. rewrite (bind_done _ _ s _ s eq_refl). unfold physalloc_count.
  destruct l2 as [|r l2].
  { rewrite decide_False by (rewrite Hs, app_nil_r; lia). exists s.
    split_and!; [done|done|done|by rewrite Hs, app_nil_r|by left|done]. }
  rewrite decide_True by (rewrite Hs, length_app; simpl; lia). simpl in Hfu, Hf, Hc.
  apply Forall_cons in Hsp as [Hr Hsp].
  rewrite (bind_done _ _ _ _ _ (rd_mid _ _ _ _ Hs)).
  assert (no_large r → ∃ s', split_large_loop fuel (length l1 + 1) s = Done (tt, s') ∧
    physmap_wf N s' ∧ quiet s s' ∧ Forall no_large (live s') ∧
    (∀ r, r ∈ live s' → r ∈ live s ∨ piece_ok r) ∧
    ∀ a, class_at (live s') a = class_at (live s) a) as Hskip.
  { intros Hn. rewrite Nat.add_1_r, <- (length_snoc l1 r).
    apply IH with (l2 := l2); try done; try lia; rewrite ?length_snoc; try lia.
    - by rewrite <- app_assoc.
    - by apply Forall_app; split; [|constructor]. }
  destruct (Z.eqb_spec (rtype r) PHYSMEM_TYPE_NORMAL) as [Ht|Ht]; simpl; [|by apply Hskip; intros ?].
  pose proof (wf_map _ _ Hwf) as Hm. rewrite Hs in Hm.
  rewrite (rend_elem 0 _ _ ltac:(lia) Hm) by (rewrite elem_of_app, elem_of_cons; auto).
  destruct (Z.leb_spec (round_dn (rbase r + rsize r) twoMB) (round_up (rbase r) twoMB)) as [Hle|Hgt];
    [by apply Hskip; intros ?|].
  destruct (replace_by_pieces l1 r l2 Hm Ht Hr Hgt) as [Hmp Hcl].
  set (ps := split_pieces (rbase r) (rbase r + rsize r)) in *.
  destruct (Hr Ht) as (HmA & HmS & HF). pose proof Hm as (Hml1&?&?&?&_)%map_ok_mid.
  pose proof (map_ok_end _ _ Hml1).
  destruct (split_pieces_spec (rbase r) (rbase r + rsize r)) as (_ & _ & Hpo & Hpn & Hlen & _);
    [lia|lia|done|by rewrite Z.add_mod, HmA, HmS|done|]. fold ps in Hpo, Hpn, Hlen.
  destruct (delete_mid N s l1 r l2 Hwf Hs) as (s1 & E1 & Hwf1 & Hl1 & Hq1 & _ & Hf1).
  rewrite (bind_done _ _ _ _ _ E1). pose proof (b2z_range (rbase r <? 0x100000)).
  destruct (insert_pieces_spec N s1 l1 ps l2) as (s2 & E2 & Hwf2 & Hl2 & Hq2 & Hf2);
    [done|done|done|done|lia|lia| |].
  { unfold physalloc_count. rewrite Hl1, length_app. lia. }
  rewrite (bind_done _ _ _ _ _ E2), <- length_app.
  destruct (IH s2 (l1 ++ ps) l2) as (s' & E' & Hwf' & Hq' & Hn' & Hp' & Hc'); try done; try lia.
  { by rewrite Hl2, app_assoc. } { by apply Forall_app. } { rewrite length_app. lia. }
  exists s'. split_and!; [done|done|by etrans; [|etrans]|done| |].
  - intros x [Hx|]%Hp'; [|by right]. rewrite Hl2, !elem_of_app in Hx. rewrite Hs, elem_of_app, elem_of_cons.
    rewrite Forall_forall in Hpo. destruct Hx as [?|[?|?]]; auto.
  - intros a. by rewrite Hc', Hl2, Hcl, Hs.
Qed.


End split.
