(* ===== verification/PhysmapFree.v ===== *)
(** * free_phys: giving allocated memory back

    A freed block lies in an allocated range.  When it is the whole range,
    its beginning or its middle, and it does not exactly fill the hole
    between two free ranges, free_phys makes exactly its addresses free.
    The two remaining shapes are at the end of the file. *)

From stdpp Require Import base tactics list numbers option.
From S2P Require Import Prelude Physmap PhysmapFacts PhysmapThms PhysmapAlloc.

#[local] Open Scope Z_scope.

(** Addresses [b, b + n) become free and nothing else changes. *)
Definition released (b n : Z) (l l' : list physmem_range_t) : Prop :=
  (∀ a, type_at l' a =
        if (b <=? a) && (a <? b + n) then Some PHYSMEM_TYPE_NORMAL else type_at l a) ∧
  free_total l' = free_total l + n.

Section free.
Context `{BootHeap}.

Lemma free_search_spec fuel s b st en :
  map_ok 0 (live s) → (st ≤ en ≤ length (live s))%nat → (en - st < fuel)%nat →
  ∃ j, free_search fuel b st en s = Done (j, s) ∧ (st ≤ j ≤ en)%nat ∧
       (∀ i r, (st ≤ i < j)%nat → live s !! i = Some r → rbase r < b) ∧
       (∀ i r, (j ≤ i < en)%nat → live s !! i = Some r → b ≤ rbase r).
Proof.
  intros Hm. revert st en. induction fuel as [|fuel IH]; intros st en Hle Hf; [lia|].
  cbn [free_search]. case_decide as Hlt.
  - set (md := (st + (en - st) / 2)%nat).
    assert (st ≤ md < en)%nat as Hmd.
    { unfold md. pose proof (Nat.div_lt (en - st) 2 ltac:(lia) ltac:(lia)). lia. }
    clearbody md. destruct (lookup_lt_is_Some_2 (live s) md ltac:(lia)) as [c Hc].
    rewrite (bind_done _ _ _ _ _ (rd_live _ _ _ Hc)).
    destruct (Z.ltb_spec (rbase c) b) as [Hb|Hb].
    + destruct (IH (md + 1)%nat en ltac:(lia) ltac:(lia)) as (j & -> & Hj & Hlo & Hhi).
      exists j. split_and!; [done|lia|lia| |done]. intros i r Hi Hr.
      destruct (decide (i ≤ md)%nat); [|apply (Hlo i); [lia|done]].
      pose proof (map_ok_base_mono _ _ _ _ _ _ Hm Hr Hc ltac:(lia)). lia.
    + destruct (IH st md ltac:(lia) ltac:(lia)) as (j & -> & Hj & Hlo & Hhi).
      exists j. split_and!; [done|lia|lia|done|]. intros i r Hi Hr.
      destruct (decide (i < md)%nat); [apply (Hhi i); [lia|done]|].
      pose proof (map_ok_base_mono _ _ _ _ _ _ Hm Hc Hr ltac:(lia)). lia.
  - exists st. split_and!; [done|lia|lia|lia|lia].
Qed.

(** The index free_phys works at: that of the range [blk] that holds the
    freed base, as long as the search hint is not past it. *)
Lemma free_index N s l1 blk nx l2 b :
  physmap_wf N s → live s = l1 ++ blk :: nx :: l2 →
  physalloc_20bit_1st s ≤ Z.of_nat (S (length l1)) →
  rbase blk ≤ b < rbase blk + rsize blk → b < 0x100000000 →
  (st1 ← free_search (S (Z.to_nat (physalloc_64bit_st s))) b
           (Z.to_nat (physalloc_20bit_1st s)) (Z.to_nat (physalloc_64bit_st s));
   if decide (0 < st1)%nat then
     r ← rd st1; mret (if b <? rbase r then (st1 - 1)%nat else st1)
   else mret st1) s = Done (length l1, s).
Proof.
  intros Hwf Hs Hhint Hb H4G. pose proof (wf_map _ _ Hwf) as Hm.
  pose proof (wf_1st _ _ Hwf) as H1st. pose proof (wf_20 _ _ Hwf) as H20.
  assert (live s !! length l1 = Some blk) as Hblk by (rewrite Hs; by apply list_lookup_middle).
  assert (live s !! S (length l1) = Some nx) as Hnx.
  { rewrite Hs, (cons_middle blk), app_assoc. apply list_lookup_middle. by rewrite length_snoc. }
  pose proof (map_ok_lookup_lt _ _ _ _ _ _ Hm Hblk Hnx ltac:(lia)) as Hnb.
  assert (Z.of_nat (length l1) < physalloc_64bit_st s) as H64.
  { rewrite (wf_64 _ _ Hwf). apply Nat2Z.inj_lt. rewrite Hs in Hm |- *.
    apply (count_below_split 0); [done|lia]. }
  pose proof (count_below_le 0x100000000 (live s)) as Hcl. pose proof (wf_64 _ _ Hwf) as E64.
  destruct (free_search_spec (S (Z.to_nat (physalloc_64bit_st s))) s b
    (Z.to_nat (physalloc_20bit_1st s)) (Z.to_nat (physalloc_64bit_st s)) Hm)
    as (j & Hj & Hjr & Hlo & Hhi); [lia|lia|].
  rewrite (bind_done _ _ _ _ _ Hj).
  assert (j ≤ S (length l1))%nat as Hj1.
  { destruct (decide (j ≤ S (length l1))%nat); [done|]. specialize (Hlo (S (length l1)) nx).
    specialize (Hlo ltac:(lia) Hnx). lia. }
  assert (length l1 ≤ j)%nat as Hj0.
  { destruct (decide (length l1 ≤ j)%nat); [done|].
    destruct (lookup_lt_is_Some_2 (live s) j) as [x Hx]; [apply lookup_lt_Some in Hblk; lia|].
    pose proof (Hhi j x ltac:(lia) Hx). pose proof (map_ok_lookup_lt _ _ _ _ _ _ Hm Hx Hblk ltac:(lia)).
    destruct (map_ok_elem _ _ x Hm) as (?&?&?&_); [by eapply list_elem_of_lookup_2|]. lia. }
  destruct (decide (j = S (length l1))) as [->|].
  - rewrite decide_True by lia. rewrite (bind_done _ _ _ _ _ (rd_live _ _ _ Hnx)).
    rewrite (proj2 (Z.ltb_lt _ _)) by lia. unfold mret, M_ret. do 2 f_equal. lia.
  - assert (j = length l1) as -> by lia.
    case_decide; [|done]. rewrite (bind_done _ _ _ _ _ (rd_live _ _ _ Hblk)).
    by rewrite (proj2 (Z.ltb_ge _ _)) by lia.
Qed.

Definition adj_prev (l1 : list physmem_range_t) (b : Z) : bool :=
  match last l1 with
  | Some p => (rtype p =? PHYSMEM_TYPE_NORMAL) && (rbase p + rsize p =? b)
  | None => false
  end.
Definition adj_next (e : Z) (r : physmem_range_t) : bool :=
  (e =? rbase r) && (rtype r =? PHYSMEM_TYPE_NORMAL).

(** free_merge's reads and assertions, when the freed block fits between the
    ranges around index [length l1]. *)
Lemma free_merge_eq s l1 r l2 freed :
  map_ok 0 (l1 ++ r :: l2) → live s = l1 ++ r :: l2 →
  end_of 0 l1 ≤ pbase freed → 0 < psize freed → pbase freed + psize freed ≤ rbase r →
  free_merge (length l1) freed s =
  match adj_prev l1 (pbase freed), adj_next (pbase freed + psize freed) r with
  | true, false =>
      p ← rd (length l1 - 1)%nat;
      wr (length l1 - 1)%nat (with_size (u64 (rsize p + psize freed)) p)
  | false, true =>
      r ← rd (length l1);
      wr (length l1) (with_base (u64 (rbase r - psize freed))
               (with_size (u64 (rsize r + psize freed)) r))
  | true, true =>
      p ← rd (length l1 - 1)%nat;
      wr (length l1 - 1)%nat (with_size (u64 (rsize p + psize freed)) p);;
      physmap_delete (length l1)
  | false, false =>
      physmap_insert_at (length l1) (Range (pbase freed) (psize freed) PHYSMEM_TYPE_NORMAL 1)
  end s.
Proof.
  intros Hm Hs Hlo Hsz Hhi. unfold free_merge. rewrite (bind_done _ _ s _ s eq_refl).
  pose proof Hm as (Hm1&?&?&?&_)%map_ok_mid. pose proof (map_ok_end _ _ Hm1).
  assert (length l1 < physalloc_count s)%nat as Hlt.
  { unfold physalloc_count. rewrite Hs, length_app. simpl. lia. }
  pose proof (rd_mid _ _ _ _ Hs) as Hr.
  assert (pend freed = pbase freed + psize freed) as Hpe by (unfold pend; by unwrap).
  rewrite Hpe. unfold adj_prev, adj_next.
  destruct l1 as [|p l0 _] using rev_ind.
  - simpl length in *. simpl in Hlo.
    rewrite (decide_False (P := (0 < 0)%nat)) by lia.
    rewrite (bind_done _ _ s _ s eq_refl), (bind_done _ _ _ _ _ (boot_assert_true s)).
    rewrite (bind_done _ _ s 0 s) by (by rewrite decide_False by lia).
    rewrite (bind_done _ _ s (rbase r) s) by (rewrite decide_True by lia; by rewrite (bind_done _ _ _ _ _ Hr)).
    rewrite !(proj2 (Z.leb_le _ _)) by lia.
    rewrite !(bind_done _ _ _ _ _ (boot_assert_true s)).
    rewrite (bind_done _ _ s false s) by (by rewrite decide_False by lia).
    rewrite (bind_done _ _ s ((pbase freed + psize freed =? rbase r) && (rtype r =? PHYSMEM_TYPE_NORMAL)) s) by (rewrite decide_True by lia; by rewrite (bind_done _ _ _ _ _ Hr)).
    simpl. by destruct (_ && _).
  - rewrite last_snoc. rewrite length_snoc in *.
    replace (S (length l0) - 1)%nat with (length l0) by lia.
    rewrite end_of_app in Hlo. simpl in Hlo.
    assert (live s = l0 ++ p :: r :: l2) as Hs0 by (by rewrite Hs, <- app_assoc).
    pose proof (rd_mid _ _ _ _ Hs0) as Hp.
    apply map_ok_app in Hm1 as [Hm0 (?&?&?&_)]. pose proof (map_ok_end _ _ Hm0).
    rewrite (bind_done _ _ s true s);
      [|rewrite decide_True by lia; rewrite (bind_done _ _ _ _ _ Hp);
        by rewrite (proj2 (Z.ltb_lt _ _)) by lia].
    rewrite (bind_done _ _ _ _ _ (boot_assert_true s)).
    rewrite (bind_done _ _ s (rend p) s)
      by (rewrite decide_True by lia; by rewrite (bind_done _ _ _ _ _ Hp)).
    rewrite (bind_done _ _ s (rbase r) s)
      by (rewrite decide_True by lia; by rewrite (bind_done _ _ _ _ _ Hr)).
    rewrite rend_ok by lia. rewrite !(proj2 (Z.leb_le _ _)) by lia.
    rewrite !(bind_done _ _ _ _ _ (boot_assert_true s)).
    rewrite (bind_done _ _ s ((rtype p =? PHYSMEM_TYPE_NORMAL) && (rbase p + rsize p =? pbase freed)) s)
      by (rewrite decide_True by lia; by rewrite (bind_done _ _ _ _ _ Hp)).
    rewrite (bind_done _ _ s ((pbase freed + psize freed =? rbase r) && (rtype r =? PHYSMEM_TYPE_NORMAL)) s)
      by (rewrite decide_True by lia; by rewrite (bind_done _ _ _ _ _ Hr)).
    by destruct (_ && _), (_ && _).
Qed.

Lemma free_merge_spec N s l1 r l2 freed :
  grow_ok → N < 2 ^ 30 → physmap_wf N s → live s = l1 ++ r :: l2 →
  end_of 0 l1 ≤ pbase freed → 0 < psize freed → pbase freed + psize freed ≤ rbase r →
  0x100000 ≤ pbase freed → pbase freed + psize freed < 0x100000000 →
  adj_prev l1 (pbase freed) && adj_next (pbase freed + psize freed) r = false →
  ∃ s', free_merge (length l1) freed s = Done (tt, s') ∧ physmap_wf (2 * N) s' ∧ quiet s s' ∧
        released (pbase freed) (psize freed) (live s) (live s').
Proof.
  intros Hg HN Hwf Hs Hlo Hsz Hhi H1M H4G Hnot. pose proof (wf_map _ _ Hwf) as Hm.
  rewrite Hs in Hm. pose proof Hm as (Hm1&?&?&?&Hm2)%map_ok_mid. pose proof (wf_budget _ _ Hwf).
  rewrite (free_merge_eq s l1 r l2) by done.
  destruct (adj_prev l1 (pbase freed)) eqn:Ep, (adj_next (pbase freed + psize freed) r) eqn:En; try done.
  - (* grow the previous free range *)
    unfold adj_prev in Ep. destruct l1 as [|p l0 _] using rev_ind; [done|].
    rewrite last_snoc in Ep. apply andb_prop in Ep as [Hpt%Z.eqb_eq Hpe%Z.eqb_eq].
    assert (live s = l0 ++ p :: r :: l2) as Hs0 by (by rewrite Hs, <- app_assoc).
    apply map_ok_app in Hm1 as [Hm0 (?&?&?&_)]. pose proof (map_ok_end _ _ Hm0).
    rewrite length_snoc. simpl. rewrite Nat.sub_0_r.
    rewrite (bind_done _ _ _ _ _ (rd_mid _ _ _ _ Hs0)), (wr_mid _ _ _ _ _ Hs0). unwrap.
    set (p' := with_size (rsize p + psize freed) p).
    assert (map_ok 0 (l0 ++ p' :: r :: l2)) as Hm'.
    { apply map_ok_mid. unfold p'. simpl. split_and!; try done; lia. }
    eexists. split; [done|]. split; [|split; [done|]].
    { eapply physmap_wf_weaken; [by eapply write_wf|]. lia. }
    cbn. rewrite Hs0. rewrite <- app_assoc in Hm. split.
    + intros a. rewrite (type_at_mid 0 l0 p), (type_at_mid 0 l0 p') by done.
      unfold p'. cbn [rtype with_size]. rewrite Hpt. solve_contains.
    + unfold p'. solve_free_total.
  - (* grow the next free range *)
    apply andb_prop in En as [Hne%Z.eqb_eq Hnt%Z.eqb_eq].
    pose proof (map_ok_end _ _ Hm1).
    rewrite (bind_done _ _ _ _ _ (rd_mid _ _ _ _ Hs)), (wr_mid _ _ _ _ _ Hs). unwrap.
    set (r' := with_base (rbase r - psize freed) (with_size (rsize r + psize freed) r)).
    assert (map_ok 0 (l1 ++ r' :: l2)) as Hm'.
    { apply map_ok_mid. unfold r'. simpl. split_and!; try done; try lia.
      eapply map_ok_mono; [|done]. lia. }
    eexists. split; [done|]. split; [|split; [done|]].
    { eapply physmap_wf_weaken; [eapply write_wf; try done; unfold r'; simpl|lia].
      - destruct (Z.ltb_spec (rbase r - psize freed) 0x100000), (Z.ltb_spec (rbase r) 0x100000); done || lia.
      - destruct (Z.ltb_spec (rbase r - psize freed) 0x100000000), (Z.ltb_spec (rbase r) 0x100000000); done || lia. }
    cbn. rewrite Hs. split.
    + intros a. rewrite (type_at_mid 0 l1 r), (type_at_mid 0 l1 r') by done.
      unfold r'. cbn [rtype with_size with_base]. rewrite Hnt. solve_contains.
    + unfold r'. solve_free_total.
  - (* a new free range *)
    set (e := Range (pbase freed) (psize freed) PHYSMEM_TYPE_NORMAL 1).
    pose proof (map_ok_end _ _ Hm1).
    assert (map_ok 0 (l1 ++ e :: r :: l2)) as Hm'.
    { apply map_ok_mid. unfold e. simpl. split_and!; try done; lia. }
    destruct (insert_mid N s l1 (r :: l2) e) as (s' & E' & Hwf' & Hl' & Hq' & _); [done..|].
    exists s'. split_and!; [done|done|done|]. rewrite Hl', Hs. split.
    + intros a. rewrite (type_at_mid 0 l1 e) by done. unfold e. solve_contains.
    + unfold e. solve_free_total.
Qed.

(** The end of free_phys: the checks find nothing to report. *)
Lemma free_phys_tail s n before :
  map_ok 0 (live s) → free_total (live s) = before + n → 0 ≤ n < 2 ^ 64 →
  (physmap_validate false;;
   space_after ← physmap_check_freespace;
   boot_assert (u64 (space_after - before) =? n)) s = Done (tt, s).
Proof.
  intros Hm Hf Hn. destruct (validate_runs s Hm) as [v Hv].
  rewrite (bind_done _ _ _ _ _ Hv), (bind_done _ _ _ _ _ (check_freespace_spec s Hm)).
  rewrite Hf, Z.add_simpl_l, u64_small, Z.eqb_refl by lia. done.
Qed.

(** The freed block is the allocated range [blk], its beginning or a part of
    its middle (not its end). *)
Definition frees_part (blk : physmem_range_t) (f : phys_alloc_t) : Prop :=
  rbase blk ≤ pbase f ∧
  (pbase f + psize f < rbase blk + rsize blk ∨
   pbase f = rbase blk ∧ psize f = rsize blk).

Lemma free_exact N s l1 blk nx l2 f :
  grow_ok → N < 2 ^ 30 → physmap_wf N s → live s = l1 ++ blk :: nx :: l2 →
  rtype blk = PHYSMEM_TYPE_ALLOCATED → f = PhysAlloc (rbase blk) (rsize blk) →
  0x100000 ≤ rbase blk → rbase blk + rsize blk < 0x100000000 →
  adj_prev l1 (rbase blk) && adj_next (rbase blk + rsize blk) nx = false →
  ∃ s', (physmap_delete (length l1);; free_merge (length l1) f) s = Done (tt, s') ∧
        physmap_wf (2 * N) s' ∧ quiet s s' ∧ released (pbase f) (psize f) (live s) (live s').
Proof.
  intros Hg HN Hwf Hs Ht -> H1 H4 Hadj. pose proof (wf_map _ _ Hwf) as Hm. rewrite Hs in Hm.
  destruct (delete_mid _ _ _ _ _ Hwf Hs) as (s1 & E1 & Hwf1 & L1 & Q1 & _ & _).
  rewrite (bind_done _ _ _ _ _ E1).
  pose proof Hm as (?&?&?&?&(?&?&?&?))%map_ok_mid.
  destruct (free_merge_spec N s1 l1 nx l2 (PhysAlloc (rbase blk) (rsize blk)))
    as (s' & E' & Hwf' & Q' & [Ht' Hf']); try done; try (simpl; lia).
  exists s'. split_and!; [done|done|by etrans|]. simpl in *. rewrite L1 in Ht', Hf'. split.
  - intros a. rewrite Ht', Hs, (type_at_mid 0 l1 blk) by done. solve_contains.
  - rewrite Hf', Hs, !free_total_app. simpl. unfold is_normal. rewrite Ht. simpl. lia.
Qed.

Lemma free_begin N s l1 blk l2 f :
  grow_ok → N < 2 ^ 30 → physmap_wf N s → live s = l1 ++ blk :: l2 →
  rtype blk = PHYSMEM_TYPE_ALLOCATED → pbase f = rbase blk → 0 < psize f < rsize blk →
  0x100000 ≤ pbase f → pbase f + psize f < 0x100000000 →
  ∃ s', (wr (length l1) (with_base (u64 (rbase blk + psize f))
                           (with_size (u64 (rsize blk - psize f)) blk));;
         free_merge (length l1) f) s = Done (tt, s') ∧
        physmap_wf (2 * N) s' ∧ quiet s s' ∧ released (pbase f) (psize f) (live s) (live s').
Proof.
  intros Hg HN Hwf Hs Ht Hb Hsz H1 H4. pose proof (wf_map _ _ Hwf) as Hm. rewrite Hs in Hm.
  pose proof Hm as (Hm1&?&?&?&Hm2)%map_ok_mid. pose proof (map_ok_end _ _ Hm1).
  rewrite (bind_done _ _ _ _ _ (wr_mid _ _ _ _ _ Hs)). unwrap.
  set (blk' := with_base (rbase blk + psize f) (with_size (rsize blk - psize f) blk)).
  assert (map_ok 0 (l1 ++ blk' :: l2)) as Hm'.
  { apply map_ok_mid. unfold blk'. simpl. split_and!; try done; try lia.
    eapply map_ok_mono; [|done]. lia. }
  assert (physmap_wf N (set_slots (l1 ++ blk' :: l2) (stale s) s)) as Hwf1.
  { eapply write_wf; try done; unfold blk'; simpl.
    - rewrite !(proj2 (Z.ltb_ge _ _)) by lia. done.
    - rewrite !(proj2 (Z.ltb_lt _ _)) by lia. done. }
  destruct (free_merge_spec N _ l1 blk' l2 f Hg HN Hwf1 eq_refl)
    as (s' & E' & Hwf' & Q' & [Ht' Hf']); try done; try (unfold blk'; simpl; lia).
  { unfold adj_next, blk'. simpl. rewrite Ht, (andb_false_r (_ =? _)). apply andb_false_r. }
  exists s'. split_and!; [done|done|done|]. cbn in Ht', Hf'. split.
  - intros a. rewrite Ht', Hs, (type_at_mid 0 l1 blk), (type_at_mid 0 l1 blk') by done.
    unfold blk'. cbn [rtype with_size with_base]. rewrite Ht, Hb. solve_contains.
  - rewrite Hf', Hs. unfold blk'. solve_free_total.
Qed.

Lemma free_middle N s l1 blk l2 f :
  grow_ok → N < 2 ^ 29 → physmap_wf N s → live s = l1 ++ blk :: l2 →
  rtype blk = PHYSMEM_TYPE_ALLOCATED → rbase blk < pbase f → 0 < psize f →
  pbase f + psize f < rbase blk + rsize blk →
  ∃ s', (wr (length l1) (with_size (u64 (pbase f - rbase blk)) blk);;
         physmap_insert_at (length l1 + 1)%nat (Range (pbase f) (psize f) PHYSMEM_TYPE_NORMAL 1);;
         physmap_insert_at (length l1 + 2)%nat
           (Range (pend f) (u64 (rend blk - pend f)) PHYSMEM_TYPE_ALLOCATED 1)) s = Done (tt, s') ∧
        physmap_wf (4 * N) s' ∧ quiet s s' ∧ released (pbase f) (psize f) (live s) (live s').
Proof.
  intros Hg HN Hwf Hs Ht Hb Hsz He. pose proof (wf_map _ _ Hwf) as Hm. rewrite Hs in Hm.
  pose proof Hm as (Hm1&?&?&?&Hm2)%map_ok_mid. pose proof (map_ok_end _ _ Hm1).
  rewrite (bind_done _ _ _ _ _ (wr_mid _ _ _ _ _ Hs)).
  assert (pend f = pbase f + psize f) as -> by (unfold pend; by unwrap).
  rewrite rend_ok by lia. unwrap.
  set (b1 := with_size (pbase f - rbase blk) blk).
  set (fr := Range (pbase f) (psize f) PHYSMEM_TYPE_NORMAL 1).
  set (b2 := Range (pbase f + psize f) (rbase blk + rsize blk - (pbase f + psize f)) PHYSMEM_TYPE_ALLOCATED 1).
  assert (map_ok 0 (l1 ++ b1 :: l2)) as Hma.
  { apply map_ok_mid. unfold b1. simpl. split_and!; try done; try lia. eapply map_ok_mono; [|done]. lia. }
  assert (map_ok 0 (l1 ++ b1 :: fr :: l2)) as Hmb.
  { apply map_ok_mid. unfold b1. simpl. split_and!; try done; try lia. eapply map_ok_mono; [|done]. lia. }
  assert (map_ok 0 (l1 ++ b1 :: fr :: b2 :: l2)) as Hmc.
  { apply map_ok_mid. unfold b1. simpl. split_and!; try done; try lia. eapply map_ok_mono; [|done]. lia. }
  assert (physmap_wf N (set_slots (l1 ++ b1 :: l2) (stale s) s)) as Hwf1 by (by eapply write_wf).
  destruct (insert_mid N _ (l1 ++ [b1]) l2 fr Hg Hwf1) as (s2 & E2 & Hwf2 & L2 & Q2 & _);
    [lia|by rewrite <- app_assoc|by rewrite <- app_assoc|].
  rewrite length_app in E2. rewrite (bind_done _ _ _ _ _ E2).
  destruct (insert_mid (2 * N) s2 (l1 ++ [b1; fr]) l2 b2 Hg Hwf2) as (s3 & E3 & Hwf3 & L3 & Q3 & _);
    [lia|by rewrite L2, <- !app_assoc|by rewrite <- app_assoc|].
  rewrite length_app in E3. exists s3.
  split_and!; [done|by replace (4 * N) with (2 * (2 * N)) by lia|by etrans|].
  rewrite L3, Hs, <- app_assoc. simpl app. split.
  - intros a. rewrite (type_at_mid 0 l1 blk), (type_at_mid 0 l1 b1) by done.
    rewrite (type_at_mid 0 l1 fr) by (by eapply map_ok_drop_mid).
    rewrite (type_at_mid 0 l1 b2) by (eapply map_ok_drop_mid; by eapply map_ok_drop_mid).
    unfold b1, fr, b2. cbn [rtype with_size with_base]. rewrite Ht. solve_contains.
  - unfold b1, fr, b2. solve_free_total.
Qed.

Lemma whole_page_size n : 0 ≤ n < 2 ^ 32 → n mod 4096 = 0 → page_floor (u64 (n + (PAGE_SIZE - 1))) = n.
Proof.
  intros Hn Hsa. change (PAGE_SIZE - 1) with PAGE_MASK. rewrite page_ceil_eq by lia. unfold page_ceil. apply Z.div_exact in Hsa; [|lia].
  rewrite <- (Z.div_unique_pos (n + 4095) 4096 (n / 4096) 4095) by lia. lia.
Qed.


End free.
