(* ===== verification/PhysmapCases.v ===== *)
(** * Concrete runs of the memory map

    A small machine's map, on which the theorems about boot/physmap.cc are
    instantiated, and the runs on which the code does not do what its
    comments and assertions say. *)

From stdpp Require Import base tactics list numbers option.
From S2P Require Import Prelude Physmap PhysmapFacts PhysmapThms PhysmapAlloc PhysmapSplit PhysmapFree.

#[local] Open Scope Z_scope.

(** A heap that never runs out, and whose new slots are zero *)
Definition zero_range : physmem_range_t := Range 0 0 0 0.
#[local] Instance demo_heap : BootHeap :=
  {| realloc_ok := λ _, true;
     fresh_slots := λ n, replicate n zero_range;
     fresh_slots_length := λ n, length_replicate n zero_range |}.

Definition low_ram := Range 0x1000 0x9e000 PHYSMEM_TYPE_NORMAL 1.
Definition rom := Range 0xf0000 0x10000 PHYSMEM_TYPE_UNUSABLE 1.
Definition kernel_image := Range 0x100000 0x300000 PHYSMEM_TYPE_ALLOCATED 1.
Definition ram := Range 0x400000 0x7c00000 PHYSMEM_TYPE_NORMAL 1.
Definition flash := Range 0xfffc0000 0x40000 PHYSMEM_TYPE_UNUSABLE 1.

Definition demo : physmap :=
  Physmap [low_ram; rom; kernel_image; ram; flash] [] 2 5 2 0x8000000 0.

Definition demo_grow : grow_ok := λ _, eq_refl.

Lemma demo_wf : physmap_wf 64 demo.
Proof. constructor; vm_compute; intuition discriminate. Qed.

(** A fact about every range of a concrete map *)
Ltac each_range :=
  repeat (apply Forall_cons; split); try apply Forall_nil; try done.

Lemma physmap_insert_witness :
  ∃ s', physmap_insert (Range 0xa0000 0x20000 PHYSMEM_TYPE_BAD 1) false demo = Done (1%nat, s') ∧
        type_at (live s') 0xb0000 = Some PHYSMEM_TYPE_BAD.
Proof.
  destruct (physmap_insert_correct 64 demo (Range 0xa0000 0x20000 PHYSMEM_TYPE_BAD 1)
              demo_grow demo_wf) as (s' & E & _ & _ & Ht); try done.
  - each_range; vm_compute; intuition discriminate.
  - exists s'. split; [exact E|]. rewrite Ht. reflexivity.
Defined.

Lemma physmap_validate_witness :
  ∃ res, physmap_validate false demo = Done (res, demo) ∧ (res = None ↔ valid_from demo 0).
Proof.
  apply (physmap_validate_iff demo). each_range; vm_compute; intuition discriminate.
Defined.

Lemma alloc_high_witness :
  ∃ s', alloc_high demo = Done (PhysAlloc 0x7fff000 0x1000, s') ∧ physmap_wf 128 s' ∧
        type_at (live s') 0x7fff000 = Some PHYSMEM_TYPE_ALLOCATED.
Proof.
  destruct (alloc_high_correct 64 demo [low_ram; rom; kernel_image] ram [flash]
              demo_grow demo_wf) as (s' & E & Hwf & _ & [Ht _]); try done; [each_range|].
  exists s'. split; [exact E|]. split; [exact Hwf|]. by rewrite Ht.
Defined.




(** ** Where the code departs from its comments and assertions *)

(** What a run leaves: the result of physmap_validate, the free space, and
    the number of assertions printed *)
Definition aftermath {A} (m : PM A) (s : physmap) :
    option (option validate_error * Z * nat) :=
  match (m;; v ← physmap_validate false; f ← physmap_check_freespace; mret (v, f)) s with
  | Done ((v, f), s') => Some (v, f, failed_asserts s')
  | Fault _ => None
  end.

Definition demo_free : Z := 0x7c9e000.

(** Taking the end off an allocated range: the freed range is put before the
    range it was the end of, so the map is no longer sorted. *)
Lemma free_phys_end_unsorted :
  aftermath (mret tt) demo = Some (None, demo_free, 0%nat) ∧
  aftermath (free_phys (PhysAlloc 0x300000 0x100000)) demo =
    Some (Some NotSorted, demo_free + 0x100000, 1%nat).
Proof. split; vm_compute; reflexivity. Qed.

(** Filling the hole between two free ranges: the second one, here all the
    memory from 4MB up, is dropped from the map. *)
Lemma free_phys_hole_loses_memory :
  aftermath (free_phys (PhysAlloc 0x180000 0x80000)) demo =
    Some (None, demo_free + 0x80000, 0%nat) ∧
  aftermath (free_phys (PhysAlloc 0x180000 0x80000);; free_phys (PhysAlloc 0x200000 0x200000)) demo =
    Some (None, demo_free + 0x80000 + 0x200000 - rsize ram, 1%nat).
Proof. split; vm_compute; reflexivity. Qed.

(** physmap_take_range from the middle of a free range: the size of the rest
    is computed with its operands swapped and wraps around. *)
Lemma take_range_rest_wraps :
  match physmap_take_range 0x500000 0x1000 PHYSMEM_TYPE_BOOTLOADER demo with
  | Done (_, s) => live s !! 5%nat
  | Fault _ => None
  end = Some (Range 0x501000 (2 ^ 64 - (0x8000000 - 0x501000)) PHYSMEM_TYPE_NORMAL 1).
Proof. vm_compute. reflexivity. Qed.

(** A free range of exactly one page, the highest of the map *)
Definition one_page : physmap :=
  Physmap [Range 0x100000 0x1000 PHYSMEM_TYPE_ALLOCATED 1;
           Range 0x101000 0x1000 PHYSMEM_TYPE_NORMAL 1] (replicate 8 zero_range) 0 2 0 0x102000 0.

(** alloc_high leaves an empty range behind when it takes the last page of a
    range, and the next call hands out the page below it, which is not free. *)
Lemma alloc_high_takes_allocated_page :
  match (alloc_high;; alloc_high) one_page with
  | Done (p, _) => Some p
  | Fault _ => None
  end = Some (PhysAlloc 0x100000 0x1000) ∧
  type_at (live one_page) 0x100000 = Some PHYSMEM_TYPE_ALLOCATED.
Proof. split; vm_compute; reflexivity. Qed.

(** With [insist], a request that no range can hold is still granted in part
    when the range before is not allocated. *)
Lemma alloc_phys_insist_ignored :
  match alloc_phys 0x10000 0 true
    (Physmap [Range 0x100000 0x2000 PHYSMEM_TYPE_NORMAL 1] (replicate 8 zero_range) 0 1 0 0x102000 0) with
  | Done (p, _) => Some p
  | Fault _ => None
  end = Some (PhysAlloc 0x100000 0x2000).
Proof. vm_compute. reflexivity. Qed.
