(* ===== verification/BootPaging.v ===== *)
(** * boot/paging.cc and paging.h: the page tables the kernel starts on

    The boot loader builds four-level page tables in physical memory.  Its
    own addresses are physical ones, so a pte_t * is the address of an 8-byte
    entry.  [paging] is the state the file works on: the entries by address,
    the root, and the state of whoever hands out pages, [PageSource], which
    is the physical memory map of [Physmap].  As everywhere in the boot
    loader a failed assert prints and carries on; [messages] counts them. *)

From stdpp Require Import base tactics list numbers option.
From S2P Require Import Prelude Physmap.

#[local] Open Scope Z_scope.

(** Bits of an entry (paging.h); the address field has 28 bits. *)
Definition PTE_PRESENT : Z := 2 ^ 0.
Definition PTE_WRITABLE : Z := 2 ^ 1.
Definition PTE_USER : Z := 2 ^ 2.
Definition PTE_PAGESIZE : Z := 2 ^ 7.
Definition PTE_PAT_BIT : Z := 12.
Definition PTE_NX : Z := 2 ^ 63.
Definition PTE_EX_PHYSICAL : Z := 2 ^ 9.
Definition PTE_ADDR : Z := Z.shiftl (2 ^ 28 - 1) 12.

(** What paging.cc asks of the physical memory map: one page from the top of
    memory, for tables. *)
Class PageSource (S : Type) := alloc_table_page : M S phys_alloc_t.

#[export] Instance physmap_source `{BootHeap} : PageSource physmap := alloc_high.

(** page_factory_t::alloc, and the one implementation, alloc_page_factory_t
    (boot/physmem.h) *)
Definition page_factory_t (S : Type) : Type := Z → Z → M S phys_alloc_t.
Definition alloc_page_factory `{BootHeap} : page_factory_t physmap :=
  λ size for_addr, alloc_phys size for_addr false.

Record paging (S : Type) := Paging {
  words : Z → Z;          (* the entry at an address *)
  root_page_dir : Z;
  source : S;
  messages : nat          (* messages printed by __assert_failed *)
}.
Arguments Paging {S} _ _ _ _.
Arguments words {S} _ _.
Arguments root_page_dir {S} _.
Arguments source {S} _.
Arguments messages {S} _.

Section ops.
Context {S : Type} `{PageSource S}.
Abbreviation PG := (M (paging S)).

Definition set_words (w : Z → Z) (s : paging S) : paging S :=
  Paging w (root_page_dir s) (source s) (messages s).
Definition set_root (r : Z) (s : paging S) : paging S :=
  Paging (words s) r (source s) (messages s).

Definition pg_assert (b : bool) : PG unit :=
  modify (λ s, if b then s else
    Paging (words s) (root_page_dir s) (source s) (Datatypes.S (messages s))).

Definition on_source {A} (c : M S A) : PG A := λ s,
  match c (source s) with
  | Done (a, x) => Done (a, Paging (words s) (root_page_dir s) x (messages s))
  | Fault f => Fault f
  end.

(** *pte and *pte = v; a null pointer has no entry behind it *)
Definition load (p : Z) : PG Z := gets (λ s, words s p).
Definition store (p v : Z) : PG unit :=
  modify (λ s, set_words (λ a, if a =? p then v else words s a) s).
Definition load_ptr (p : option Z) : PG Z :=
  match p with Some p => load p | None => throw OutOfRange end.
Definition store_ptr (p : option Z) (v : Z) : PG unit :=
  match p with Some p => store p v | None => throw OutOfRange end.
Definition next_pte (p : option Z) : option Z := (λ a, a + 8) <$> p.

(** memset(page, 0, 512 * sizeof(pte_t)) *)
Definition clear_page_table (page : Z) : PG unit :=
  modify (λ s, set_words (λ a, if (page <=? a) && (a <? page + 4096) then 0 else words s a) s).

Definition allocate_page_table : PG Z :=
  alloc ← on_source alloc_table_page;
  pg_assert ((psize alloc =? PAGE_SIZE) && (Z.land (pbase alloc) PAGE_MASK =? 0));;
  pg_assert (negb (pbase alloc =? 0));;
  clear_page_table (pbase alloc);;
  mret (pbase alloc).

(** Entry of a table page for the tables below it *)
Definition table_entry (page linear_addr : Z) : Z :=
  Z.lor page (Z.lor (Z.lor PTE_PRESENT PTE_WRITABLE)
                    (if s64 linear_addr <? 0 then 0 else PTE_USER)).

(** The loop of paging_find_pte goes down at most four levels; [shift] is 39,
    30, 21 and 12. *)
Fixpoint find_pte_loop (fuel : nat) (linear_addr log2_pagesize : Z) (create : bool)
    (shift ref : Z) : PG (option Z) :=
  match fuel with
  | O => throw OutOfFuel
  | Datatypes.S fuel =>
      let slot := Z.land (Z.shiftr linear_addr shift) 0x1FF in
      if shift =? log2_pagesize then mret (Some (ref + 8 * slot))
      else
        pte ← load (ref + 8 * slot);
        let next_segment := Z.land pte PTE_ADDR in
        if next_segment =? 0 then
          if create then
            page ← allocate_page_table;
            store (ref + 8 * slot) (table_entry page linear_addr);;
            find_pte_loop fuel linear_addr log2_pagesize create (u8 (shift - 9)) page
          else mret None
        else find_pte_loop fuel linear_addr log2_pagesize create (u8 (shift - 9)) next_segment
  end.

Definition paging_find_pte (linear_addr log2_pagesize : Z) (create : bool) : PG (option Z) :=
  root ← gets root_page_dir;
  find_pte_loop 4 linear_addr log2_pagesize create 39 root.

(** x & -(1 << k), on 64 bits *)
Definition low_bits (value log2n : Z) : Z := Z.land value (2 ^ log2n - 1).
Definition round_up (value log2n : Z) : Z :=
  Z.land (u64 (value + (2 ^ log2n - 1))) (u64 (- 2 ^ log2n)).
Definition round_dn (value log2n : Z) : Z := Z.land value (u64 (- 2 ^ log2n)).
Definition is_multiple (value log2n : Z) : bool := Z.land value (u64 (- 2 ^ log2n)) =? value.

(** The test that asks for another paging_find_pte: none yet, or the address
    is at the start of a table *)
Definition new_table (pte : option Z) (addr span : Z) : bool :=
  match pte with None => true | Some _ => is_multiple addr span end.

(** paging_alias_range, as written: the addresses do not move with [offset]. *)
Fixpoint alias_loop (fuel : nat) (alias_addr linear_addr size alias_flags offset : Z) : PG unit :=
  match fuel with
  | O => throw OutOfFuel
  | Datatypes.S fuel =>
      if offset <? size then
        original ← paging_find_pte linear_addr 12 false;
        alias_ref ← paging_find_pte alias_addr 12 false;
        match original with
        | Some o =>
            pte ← load o;
            store_ptr alias_ref (Z.lor (Z.land pte PTE_ADDR) alias_flags)
        | None =>
            store_ptr alias_ref (Z.land alias_flags (u64 (Z.lnot (Z.lor PTE_PRESENT PTE_ADDR))))
        end;;
        alias_loop fuel alias_addr linear_addr size alias_flags (u64 (offset + PAGE_SIZE))
      else mret tt
  end.
Definition paging_alias_range (alias_addr linear_addr size alias_flags : Z) : PG unit :=
  alias_loop (Datatypes.S (Z.to_nat (size / PAGE_SIZE + 1))) alias_addr linear_addr size alias_flags 0.

(** First scan of paging_map_range: make the tables, count the bytes that are
    not mapped yet.  [pages] is what is left of the loop from [addr]. *)
Fixpoint scan_loop (pages : nat) (addr needed : Z) (pte : option Z) : PG Z :=
  match pages with
  | O => mret needed
  | Datatypes.S pages =>
      pte ← (if new_table pte addr 21 then paging_find_pte addr 12 true else mret pte);
      match pte with
      | None => throw Panicked
      | Some p =>
          e ← load p;
          let needed := if Z.land e PTE_PRESENT =? 0 then u64 (needed + PAGE_SIZE) else needed in
          scan_loop pages (addr + PAGE_SIZE) needed (next_pte pte)
      end
  end.

(** Second scan: give a page to every entry that has none. *)
Fixpoint assign_loop (allocator : page_factory_t S) (pte_flags : Z)
    (pages : nat) (addr needed : Z) (allocation : phys_alloc_t) (pte : option Z) : PG phys_alloc_t :=
  match pages with
  | O => mret allocation
  | Datatypes.S pages =>
      pte ← (if new_table pte addr 21 then paging_find_pte addr 12 false else mret pte);
      match pte with
      | None => throw Panicked
      | Some p =>
          e ← load p;
          if negb (Z.land e PTE_PRESENT =? 0) then
            assign_loop allocator pte_flags pages (addr + PAGE_SIZE) needed allocation (next_pte pte)
          else
            '(needed, allocation) ←
              (if psize allocation =? 0 then
                 got ← on_source (allocator needed addr);
                 pg_assert (psize got <=? needed);;
                 mret (u64 (needed - psize got), got)
               else mret (needed, allocation));
            store p (Z.lor (Z.lor (pbase allocation) pte_flags) PTE_PRESENT);;
            assign_loop allocator pte_flags pages (addr + PAGE_SIZE) needed
              (PhysAlloc (u64 (pbase allocation + PAGE_SIZE)) (u64 (psize allocation - PAGE_SIZE)))
              (next_pte pte)
      end
  end.

(** for (addr = linear_base; addr < end; addr += PAGE_SIZE), with
    end = linear_base + length not past 2^64, is [length / PAGE_SIZE] rounds;
    when the sum wraps there is none. *)
Definition paging_map_range (allocator : page_factory_t S) (linear_base length pte_flags : Z) : PG unit :=
  pg_assert (Z.land linear_base PAGE_MASK =? 0);;
  let misalignment := Z.land linear_base PAGE_MASK in
  let linear_base := u64 (linear_base - misalignment) in
  let length := round_dn (u64 (u64 (length + misalignment) + PAGE_MASK)) 12 in
  let end_ := u64 (linear_base + length) in
  let pages := Z.to_nat ((end_ - linear_base) / PAGE_SIZE) in
  needed ← scan_loop pages linear_base 0 None;
  allocation ← assign_loop allocator pte_flags pages linear_base needed (PhysAlloc 0 0) None;
  pg_assert (psize allocation =? 0).

(** The largest of 1GB, 2MB and 4KB to which the addresses and the length are
    aligned, and the flags for it: the PAT bit moves to bit 12 of a large
    page's entry and bit 7 says that it is one. *)
Fixpoint infer_size (tries : nat) (log2_pagesize phys_addr linear_base length pte_flags : Z) : Z * Z :=
  match tries with
  | O => (log2_pagesize, pte_flags)
  | Datatypes.S tries =>
      if is_multiple phys_addr log2_pagesize && is_multiple linear_base log2_pagesize &&
         is_multiple length log2_pagesize
      then (log2_pagesize,
            Z.lor (Z.lor pte_flags (if Z.land pte_flags PTE_PAGESIZE =? 0 then 0 else 2 ^ PTE_PAT_BIT))
                  PTE_PAGESIZE)
      else infer_size tries (log2_pagesize - 9) phys_addr linear_base length pte_flags
  end.

Fixpoint physical_loop (log2_pagesize pte_flags : Z) (pages : nat) (vaddr phys_addr : Z)
    (pte : option Z) : PG unit :=
  match pages with
  | O => mret tt
  | Datatypes.S pages =>
      pte ← (if new_table pte vaddr (log2_pagesize + 9)
             then paging_find_pte vaddr log2_pagesize true else mret pte);
      store_ptr pte (Z.lor phys_addr pte_flags);;
      physical_loop log2_pagesize pte_flags pages (vaddr + 2 ^ log2_pagesize)
        (u64 (phys_addr + 2 ^ log2_pagesize)) (next_pte pte)
  end.

Definition paging_map_physical_impl (phys_addr linear_base length pte_flags : Z) : PG unit :=
  let linear_base := Z.land linear_base 0xFFFFFFFFFFFF in
  pg_assert (Z.land pte_flags PTE_ADDR =? 0);;
  let '(log2_pagesize, pte_flags) := infer_size 2 30 phys_addr linear_base length pte_flags in
  pg_assert (low_bits phys_addr log2_pagesize =? low_bits linear_base log2_pagesize);;
  let misalignment := low_bits linear_base log2_pagesize in
  let linear_base := u64 (linear_base - misalignment) in
  let phys_addr := u64 (phys_addr - misalignment) in
  let length := round_up (u64 (length + misalignment)) log2_pagesize in
  let end_ := u64 (linear_base + length) in
  physical_loop log2_pagesize pte_flags
    (Z.to_nat ((end_ - linear_base) / 2 ^ log2_pagesize)) linear_base phys_addr None.

(** The boundaries A to F of paging_map_physical: runs of 4KB, 2MB, 1GB, 2MB
    and 4KB pages *)
Definition map_boundaries (phys_addr linear_base length : Z) : list Z :=
  let can_use_1G := low_bits phys_addr 30 =? low_bits linear_base 30 in
  let can_use_2M := low_bits phys_addr 21 =? low_bits linear_base 21 in
  let phys_end := u64 (phys_addr + length) in
  let A := round_dn phys_addr 12 in
  let F := round_up phys_end 12 in
  let X := round_up A 21 in
  let Y := round_dn F 21 in
  let '(B, E) := if (X <? Y) && can_use_2M then (X, Y) else (F, F) in
  let X := round_up X 30 in
  let Y := round_dn Y 30 in
  let '(C, D) := if (X <? Y) && can_use_1G then (X, Y) else (E, E) in
  [A; B; C; D; E; F].

(** if (n > 0) paging_map_physical_impl(start, start + phys_to_virt, n, flags),
    for each run *)
Fixpoint map_runs (bounds : list Z) (phys_to_virt pte_flags : Z) : PG unit :=
  match bounds with
  | st :: (en :: _) as rest =>
      (if 0 <? s64 (en - st)
       then paging_map_physical_impl st (u64 (st + phys_to_virt)) (u64 (en - st)) pte_flags
       else mret tt);;
      map_runs rest phys_to_virt pte_flags
  | _ => mret tt
  end.

Definition paging_map_physical (phys_addr linear_base length pte_flags : Z) : PG unit :=
  if negb (low_bits phys_addr 12 =? low_bits linear_base 12) then pg_assert false
  else map_runs (map_boundaries phys_addr linear_base length)
         (u64 (linear_base - phys_addr)) pte_flags.

(** paging_init; the root page is what malloc_aligned returned. *)
Definition paging_init (root : Z) : PG unit :=
  modify (set_root root);;
  clear_page_table root;;
  paging_map_physical 0 0 0x30000 (Z.lor (Z.lor PTE_PRESENT PTE_WRITABLE) PTE_EX_PHYSICAL).

Fixpoint modify_loop (fuel : nat) (addr size clear set offset : Z) : PG unit :=
  match fuel with
  | O => throw OutOfFuel
  | Datatypes.S fuel =>
      if offset <? size then
        original ← paging_find_pte (u64 (addr + offset)) 12 false;
        match original with
        | Some p =>
            pte ← load p;
            store p (Z.lor (Z.land pte (u64 (Z.lnot clear))) set)
        | None => mret tt
        end;;
        modify_loop fuel addr size clear set (u64 (offset + PAGE_SIZE))
      else mret tt
  end.
Definition paging_modify_flags (addr size clear set : Z) : PG unit :=
  modify_loop (Datatypes.S (Z.to_nat (size / PAGE_SIZE + 1))) addr size clear set 0.

(** paging_physaddr_of: -1U is 32 bits wide and is not sign-extended. *)
Definition paging_physaddr_of (linear_addr : Z) : PG Z :=
  let misalignment := Z.land linear_addr PAGE_MASK in
  p ← paging_find_pte (u64 (linear_addr - misalignment)) 12 false;
  match p with
  | None => mret (2 ^ 32 - 1)
  | Some p =>
      e ← load p;
      mret (if Z.land e PTE_PRESENT =? 0 then 2 ^ 32 - 1
            else u64 (Z.land e PTE_ADDR + misalignment))
  end.
End ops.
