(* ===== verification/PageWalk.v ===== *)
(** * What the processor makes of page tables

    The reference the boot loader's tables are measured against: the walk of
    the x86-64 processor from the root through the four levels, [leaf_at],
    with the tables it passes through, [table_at], and the physical address
    it ends at, [phys_of].  Depth 0 is the root (512GB an entry), depth 3 the
    tables of 4KB pages.  [tables_ok] says that the tables form a tree: the
    lemmas say what one store to an entry does to every walk. *)

From stdpp Require Import base tactics list numbers option.
From S2P Require Import Prelude Physmap BootPaging.

#[local] Open Scope Z_scope.

(** log2 of what one entry at depth [d] covers *)
Definition shift_of (d : nat) : Z := 39 - 9 * Z.of_nat d.
Definition slot_of (va : Z) (d : nat) : Z := (va / 2 ^ shift_of d) mod 512.

Definition present (e : Z) : bool := Z.testbit e 0.
Definition large (e : Z) : bool := Z.testbit e 7.
Definition addr_of (e : Z) : Z := Z.land e PTE_ADDR.

(** The page table an entry above the last level refers to *)
Definition next_table (e : Z) : option Z :=
  if present e && negb (large e) then Some (addr_of e) else None.

Section walk.
Context (w : Z → Z) (root : Z).

Fixpoint table_at (va : Z) (d : nat) : option Z :=
  match d with
  | O => Some root
  | S d => t ← table_at va d; next_table (w (t + 8 * slot_of va d))
  end.

(** The entry at depth [d] that the walk for [va] reads *)
Definition entry_at (va : Z) (d : nat) : option Z :=
  t ← table_at va d; Some (w (t + 8 * slot_of va d)).

(** The walk itself, [n] levels above the last, to the entry of the page *)
Fixpoint walk_from (n d : nat) (t va : Z) : option (nat * Z) :=
  let e := w (t + 8 * slot_of va d) in
  if present e then
    match n with
    | O => Some (d, e)
    | S n =>
        if large e then (if (d =? 0)%nat then None else Some (d, e))
        else walk_from n (S d) (addr_of e) va
    end
  else None.
Definition leaf_at (va : Z) : option (nat * Z) := walk_from 3 0 root va.
End walk.

(** An entry that maps a page: any at the last level, else a large one *)
Definition is_leaf (d : nat) (e : Z) : bool :=
  present e && ((d =? 3)%nat || (negb (d =? 0)%nat && large e)).

(** The physical address of [va] under entry [e] at depth [d] *)
Definition phys_of (d : nat) (e va : Z) : Z :=
  addr_of e / 2 ^ shift_of d * 2 ^ shift_of d + va mod 2 ^ shift_of d.
Definition translate (w : Z → Z) (root va : Z) : option Z :=
  '(d, e) ← leaf_at w root va; Some (phys_of d e va).

(** Addresses whose walks read the same entries above depth [d] *)
Definition same_path (d : nat) (va va' : Z) : Prop := ∀ i, (i < d)%nat → slot_of va i = slot_of va' i.

(** No large page in the way of the walk to depth [D] *)
Definition open_to (w : Z → Z) (root va : Z) (D : nat) : Prop :=
  ∀ d e, leaf_at w root va = Some (d, e) → (D ≤ d)%nat.

(** The tables form a tree of distinct pages below 2^40, which satisfy [P];
    an entry above the last level that is not present has no address, so that
    the boot loader's walk, which looks at the address only, stops at it; and
    no entry of the root is a large page, which the processor does not have. *)
Record tables_ok (w : Z → Z) (root : Z) (P : Z → Prop) : Prop := {
  t_page : ∀ va d t, (d ≤ 3)%nat → table_at w root va d = Some t →
    t mod 4096 = 0 ∧ 0 < t < 2 ^ 40 ∧ P t;
  t_inj : ∀ va va' d d' t, (d ≤ 3)%nat → (d' ≤ 3)%nat →
    table_at w root va d = Some t → table_at w root va' d' = Some t → d = d' ∧ same_path d va va';
  t_entry : ∀ va d e, (d < 3)%nat → entry_at w root va d = Some e →
    present e = false → addr_of e = 0;
  t_top : ∀ va e, entry_at w root va 0 = Some e → large e = false
}.

Lemma slot_range va d : 0 ≤ slot_of va d < 512.
Proof. apply Z.mod_pos_bound. lia. Qed.

#[export] Instance same_path_equiv d : Equivalence (same_path d).
Proof.
  split; [by intros x i Hi|by intros x y Hp i Hi; rewrite Hp|].
  intros x y z Hp Hq i Hi. by rewrite Hp, Hq.
Qed.

Lemma same_path_S d va va' : same_path (S d) va va' ↔ same_path d va va' ∧ slot_of va d = slot_of va' d.
Proof.
  split.
  - intros Hp. split; [intros i Hi; apply Hp; lia|apply Hp; lia].
  - intros [Hp He] i Hi. destruct (decide (i = d)) as [->|]; [done|apply Hp; lia].
Qed.

Lemma same_path_le d d' va va' : (d ≤ d')%nat → same_path d' va va' → same_path d va va'.
Proof. intros Hd Hp i Hi. apply Hp. lia. Qed.

#[export] Instance same_path_dec d va va' : Decision (same_path d va va').
Proof.
  induction d as [|d IH]; [left; intros i; lia|].
  destruct IH as [IH|IH]; [destruct (decide (slot_of va d = slot_of va' d))|].
  - left. by apply same_path_S.
  - right. rewrite same_path_S. naive_solver.
  - right. rewrite same_path_S. naive_solver.
Defined.

Section walks.
Context (w : Z → Z) (root : Z).

Lemma table_at_path d va va' : same_path d va va' → table_at w root va d = table_at w root va' d.
Proof.
  induction d as [|d IH]; [done|]. intros [Hp He]%same_path_S. cbn [table_at]. by rewrite IH, He.
Qed.

Lemma entry_at_path d va va' : same_path (S d) va va' → entry_at w root va d = entry_at w root va' d.
Proof. intros [Hp He]%same_path_S. unfold entry_at. by rewrite (table_at_path d va va'), He. Qed.

Lemma table_at_S va d : table_at w root va (S d) = entry_at w root va d ≫= next_table.
Proof. unfold entry_at. cbn. by destruct (table_at w root va d). Qed.

Lemma table_at_le va d d' : (d ≤ d')%nat → is_Some (table_at w root va d') → is_Some (table_at w root va d).
Proof.
  induction 1 as [|d' _ IH]; [done|]. intros Hs. apply IH. cbn in Hs.
  destruct (table_at w root va d'); [done|by destruct Hs].
Qed.

(** Below an entry that is not a table's there is nothing. *)
Lemma entry_blocks va d d' e :
  (d < d')%nat → entry_at w root va d = Some e → next_table e = None → entry_at w root va d' = None.
Proof.
  intros Hd He Hn. destruct (table_at w root va d') as [t|] eqn:Et; [|by unfold entry_at; rewrite Et].
  destruct (table_at_le va (S d) d') as [t' Ht']; [lia|by rewrite Et|].
  rewrite table_at_S, He in Ht'. cbn in Ht'. congruence.
Qed.

Lemma walk_from_spec n d t va :
  table_at w root va d = Some t → (n + d = 3)%nat → ∀ d' e,
  walk_from w n d t va = Some (d', e) ↔
    (d ≤ d' ≤ 3)%nat ∧ entry_at w root va d' = Some e ∧ is_leaf d' e = true.
Proof.
  revert d t. induction n as [|n IH]; intros d t Ht Hn d' e.
  all: set (e0 := w (t + 8 * slot_of va d)).
  all: assert (entry_at w root va d = Some e0) as He0 by (unfold entry_at; by rewrite Ht).
  all: assert (∀ x, (d ≤ d' ≤ 3)%nat → (next_table e0 = None ∨ d = 3%nat) → entry_at w root va d' = Some x → d' = d ∧ x = e0) as Honly
    by (intros x Hd Hx Hs; destruct (decide (d' = d)) as [->|]; [split; congruence|destruct Hx; [|lia];
        by rewrite (entry_blocks va d d' e0) in Hs by (done || lia)]).
  - cbn [walk_from]. fold e0. assert (d = 3%nat) as -> by lia. unfold is_leaf. split.
    + destruct (present e0) eqn:Ep; [|done]. intros [= <- <-]. split; [lia|]. by rewrite He0, Ep.
    + intros (Hd & He & Hl). destruct (Honly e Hd (or_intror eq_refl) He) as [-> ->]. by destruct (present e0).
  - cbn [walk_from]. fold e0. destruct (present e0) eqn:Ep; [destruct (large e0) eqn:El|].
    + assert (next_table e0 = None) as Hnt by (unfold next_table; by rewrite Ep, El).
      destruct (Nat.eqb_spec d 0) as [->|Hd0]; (split; [|intros (Hd & He & Hl); destruct (Honly e) as [-> ->]; auto]).
      * done.
      * unfold is_leaf in Hl. by rewrite Ep in Hl.
      * intros [= <- <-]. split; [lia|]. split; [done|]. unfold is_leaf. rewrite Ep, El.
        destruct (Nat.eqb_spec d 0); [done|]. by rewrite orb_true_r.
    + assert (next_table e0 = Some (addr_of e0)) as Hnt by (unfold next_table; by rewrite Ep, El).
      rewrite (IH (S d) (addr_of e0)) by (rewrite ?table_at_S, ?He0; done || lia).
      split; intros (Hd & He & Hl); (split; [|done]); [lia|].
      destruct (decide (d' = d)) as [->|]; [|lia]. exfalso. assert (e = e0) as -> by congruence.
      unfold is_leaf in Hl. rewrite El, andb_false_r, orb_false_r in Hl. destruct (Nat.eqb_spec d 3); [lia|].
      by rewrite andb_false_r in Hl.
    + split; [done|]. intros (Hd & He & Hl).
      destruct (Honly e) as [-> ->]; [done|left; unfold next_table; by rewrite Ep|done|].
      unfold is_leaf in Hl. by rewrite Ep in Hl.
Qed.

(** The walk ends at the one entry on its way that maps a page. *)
Lemma leaf_at_spec va d e :
  leaf_at w root va = Some (d, e) ↔ (d ≤ 3)%nat ∧ entry_at w root va d = Some e ∧ is_leaf d e = true.
Proof. unfold leaf_at. rewrite walk_from_spec by done. intuition lia. Qed.
End walks.

Lemma tables_ok_weaken w root (P Q : Z → Prop) : (∀ t, P t → Q t) → tables_ok w root P → tables_ok w root Q.
Proof. intros HPQ [Hp Hi He Hr]. split; [|done..]. intros va d t Hd Ht. destruct (Hp va d t Hd Ht). naive_solver. Qed.

(** Two slots of two pages are the same entry only if page and slot are. *)
Lemma slot_addr_inj t t' i j :
  t mod 4096 = 0 → t' mod 4096 = 0 → 0 ≤ i < 512 → 0 ≤ j < 512 → t + 8 * i = t' + 8 * j → t = t' ∧ i = j.
Proof. intros Ht Ht' Hi Hj Heq. pose proof (Z.div_mod t 4096). pose proof (Z.div_mod t' 4096). lia. Qed.

(** ** One store

    [w'] differs from [w], as far as the tables go, in one entry: that of
    [va0] at depth [d0]. *)
Section store.
Context (w w' : Z → Z) (root : Z) (P : Z → Prop) (va0 : Z) (d0 : nat) (t0 : Z).
Hypothesis Hok : tables_ok w root P.
Hypothesis Hd0 : (d0 ≤ 3)%nat.
Hypothesis Ht0 : table_at w root va0 d0 = Some t0.
Hypothesis Hw' : ∀ va d t i, (d ≤ 3)%nat → table_at w root va d = Some t → 0 ≤ i < 512 →
  t ≠ t0 ∨ i ≠ slot_of va0 d0 → w' (t + 8 * i) = w (t + 8 * i).

Let e0 := w' (t0 + 8 * slot_of va0 d0).

Local Lemma word_frame va d t :
  (d ≤ 3)%nat → table_at w root va d = Some t → (d ≠ d0 ∨ ¬ same_path (S d0) va va0) →
  w' (t + 8 * slot_of va d) = w (t + 8 * slot_of va d).
Proof.
  intros Hd Ht Hne. apply (Hw' va d); try done; [apply slot_range|].
  destruct (decide (t = t0)) as [->|]; [right|by left]. intros Hs.
  destruct (t_inj _ _ _ Hok va va0 d d0 t0) as [-> Hp]; try done.
  destruct Hne as [|Hne]; [done|]. apply Hne. by apply same_path_S.
Qed.

Lemma table_frame va d :
  (d ≤ 3)%nat → (d ≤ d0)%nat ∨ ¬ same_path (S d0) va va0 → table_at w' root va d = table_at w root va d.
Proof.
  induction d as [|d IH]; [done|]. intros Hd Hne. cbn [table_at].
  rewrite IH by first [lia|destruct Hne; [left; lia|by right]].
  destruct (table_at w root va d) as [t|] eqn:Et; [|done]. cbn.
  rewrite word_frame; [done|lia|done|]. destruct Hne; [left; lia|by right].
Qed.

Lemma entry_frame va d :
  (d ≤ 3)%nat → (d < d0)%nat ∨ ¬ same_path (S d0) va va0 → entry_at w' root va d = entry_at w root va d.
Proof.
  intros Hd Hne. unfold entry_at. rewrite table_frame by first [done|destruct Hne; [left; lia|by right]].
  destruct (table_at w root va d) as [t|] eqn:Et; [|done]. cbn.
  rewrite word_frame; [done|lia|done|]. destruct Hne; [left; lia|by right].
Qed.

Lemma entry_here va : same_path (S d0) va va0 → entry_at w' root va d0 = Some e0.
Proof.
  intros Hp. rewrite (entry_at_path w' root d0 va va0 Hp). unfold entry_at.
  rewrite table_frame by auto. by rewrite Ht0.
Qed.

Lemma leaf_frame va : ¬ same_path (S d0) va va0 → leaf_at w' root va = leaf_at w root va.
Proof.
  intros Hne. apply option_eq. intros [d e]. rewrite !leaf_at_spec.
  split; intros (Hd & He & Hl); (split; [done|]); rewrite entry_frame in * by auto; done.
Qed.

(** A page is mapped: walks that pass the entry end there, the others are as
    before. *)
Lemma store_leaf :
  is_leaf d0 e0 = true →
  (∀ va, leaf_at w' root va = if decide (same_path (S d0) va va0) then Some (d0, e0) else leaf_at w root va)
  ∧ tables_ok w' root P.
Proof.
  intros Hl. assert (∀ va d, (d0 < d)%nat → (d ≤ 3)%nat → same_path (S d0) va va0 → entry_at w' root va d = None) as Hbelow.
  { intros va d Hd Hd3 Hp. eapply entry_blocks; [exact Hd|by apply entry_here|].
    unfold next_table, is_leaf in *. destruct (present e0); [|done].
    destruct (Nat.eqb_spec d0 3); [lia|]. by destruct (large e0); [|rewrite andb_false_r in Hl]. }
  assert (∀ va d t, (d ≤ 3)%nat → table_at w' root va d = Some t → table_at w root va d = Some t) as Hold.
  { intros va d t Hd Ht. destruct (decide (d ≤ d0)%nat); [by rewrite table_frame in Ht by auto|].
    destruct (decide (same_path (S d0) va va0)) as [Hp|]; [|by rewrite table_frame in Ht by auto].
    specialize (Hbelow va d ltac:(lia) Hd Hp). unfold entry_at in Hbelow. by rewrite Ht in Hbelow. }
  split.
  - intros va. case_decide as Hp; [|by apply leaf_frame]. apply leaf_at_spec. split; [done|]. split; [by apply entry_here|done].
  - destruct Hok as [Hpg Hin Hen Htop]. split; [eauto|eauto 10| |].
    { intros va d e Hd He Hpr.
    destruct (decide (d < d0)%nat); [rewrite entry_frame in He by (lia || auto); eauto|].
    destruct (decide (same_path (S d0) va va0)) as [Hp|]; [|rewrite entry_frame in He by (lia || auto); eauto].
    destruct (decide (d = d0)) as [->|]; [|by rewrite Hbelow in He by (done || lia)].
    rewrite entry_here in He by done. injection He as <-. unfold is_leaf in Hl. by rewrite Hpr in Hl. }
    intros va e He. destruct (decide (d0 = 0%nat)) as [E|].
    { unfold is_leaf in Hl. rewrite E in Hl. by rewrite andb_false_r in Hl. }
    rewrite entry_frame in He by lia. eauto.
Qed.

(** A table is added: every walk ends as before. *)
Lemma store_table (Q : Z → Prop) page :
  (d0 < 3)%nat → present (w (t0 + 8 * slot_of va0 d0)) = false →
  next_table e0 = Some page → page mod 4096 = 0 → 0 < page < 2 ^ 40 →
  (∀ t, P t → Q t) → Q page → ¬ P page → (∀ i, 0 ≤ i < 512 → w' (page + 8 * i) = 0) →
  (∀ va, leaf_at w' root va = leaf_at w root va) ∧ tables_ok w' root Q
  ∧ table_at w' root va0 (S d0) = Some page
  ∧ (∀ va d t, (d ≤ 3)%nat → table_at w root va d = Some t → table_at w' root va d = Some t).
Proof.
  intros Hd3 Hnp Hnt Hal Hrg HPQ HQ Hfresh Hz.
  assert (∀ va, same_path (S d0) va va0 → table_at w' root va (S d0) = Some page) as Hnew.
  { intros va Hp. by rewrite table_at_S, entry_here. }
  assert (∀ va, same_path (S d0) va va0 → entry_at w' root va (S d0) = Some 0) as Hzero.
  { intros va Hp. unfold entry_at. rewrite Hnew by done. cbn -[Z.mul]. by rewrite Hz by apply slot_range. }
  assert (∀ va d, (S d0 < d)%nat → same_path (S d0) va va0 → entry_at w' root va d = None) as Hbelow'.
  { intros va d Hd Hp. eapply (entry_blocks _ _ va (S d0)); eauto. }
  assert (∀ va, same_path (S d0) va va0 → entry_at w root va d0 = Some (w (t0 + 8 * slot_of va0 d0))) as Hold0.
  { intros va Hp. rewrite (entry_at_path w root d0 va va0 Hp). unfold entry_at. by rewrite Ht0. }
  assert (∀ va d, (d0 < d)%nat → same_path (S d0) va va0 → entry_at w root va d = None) as Hbelow.
  { intros va d Hd Hp. eapply entry_blocks; [exact Hd|by apply Hold0|]. unfold next_table. by rewrite Hnp. }
  assert (∀ va d t, (d ≤ 3)%nat → table_at w' root va d = Some t →
    table_at w root va d = Some t ∨ t = page ∧ d = S d0 ∧ same_path (S d0) va va0) as Hcases.
  { intros va d t Hd Ht. destruct (decide (d ≤ d0)%nat); [left; by rewrite table_frame in Ht by auto|].
    destruct (decide (same_path (S d0) va va0)) as [Hp|]; [right|left; by rewrite table_frame in Ht by auto].
    destruct (decide (d = S d0)) as [->|]; [rewrite Hnew in Ht by done; naive_solver|].
    specialize (Hbelow' va d ltac:(lia) Hp). unfold entry_at in Hbelow'. by rewrite Ht in Hbelow'. }
  assert (∀ va d, (d ≤ 3)%nat → table_at w root va d ≠ Some page) as Hnot.
  { intros va d Hd Ht. destruct (t_page _ _ _ Hok va d page Hd Ht) as (_ & _ & ?). done. }
  split_and!.
  - intros va. destruct (decide (same_path (S d0) va va0)) as [Hp|]; [|by apply leaf_frame].
    apply option_eq. intros [d e]. rewrite !leaf_at_spec. split; intros (Hd & He & Hl).
    + destruct (decide (d < d0)%nat); [rewrite entry_frame in He by auto; done|]. exfalso.
      destruct (decide (d = d0)) as [->|]; [rewrite entry_here in He by done; injection He as <-|].
      { unfold next_table, is_leaf in *. destruct (Nat.eqb_spec d0 3); [lia|].
        destruct (present e0), (large e0); try done. by rewrite andb_false_r in Hl. }
      destruct (decide (d = S d0)) as [->|]; [|by rewrite Hbelow' in He by (done || lia)].
      rewrite Hzero in He by done. by injection He as <-.
    + destruct (decide (d < d0)%nat); [by rewrite entry_frame by auto|]. exfalso.
      destruct (decide (d = d0)) as [->|]; [|by rewrite Hbelow in He by (done || lia)].
      rewrite Hold0 in He by done. injection He as <-. unfold is_leaf in Hl. by rewrite Hnp in Hl.
  - destruct Hok as [Hpg Hin Hen Htop]. split.
    + intros va d t Hd Ht. destruct (Hcases va d t Hd Ht) as [Ho|(-> & _)]; [|done].
      destruct (Hpg va d t Hd Ho) as (?&?&?). auto.
    + intros va va' d d' t Hd Hd' Ht Ht'.
      destruct (Hcases va d t Hd Ht) as [Ho|(E1 & -> & Hp)], (Hcases va' d' _ Hd' Ht') as [Ho'|(E2 & -> & Hp')].
      * eauto.
      * rewrite E2 in Ho. by apply Hnot in Ho.
      * rewrite E1 in Ho'. by apply Hnot in Ho'.
      * split; [done|]. etrans; [exact Hp|done].
    + intros va d e Hd He Hpr. destruct (decide (d < d0)%nat); [rewrite entry_frame in He by (lia || auto); eauto|].
      destruct (decide (same_path (S d0) va va0)) as [Hp|]; [|rewrite entry_frame in He by (lia || auto); eauto].
      destruct (decide (d = d0)) as [->|].
      { rewrite entry_here in He by done. injection He as <-. unfold next_table in Hnt. by rewrite Hpr in Hnt. }
      destruct (decide (d = S d0)) as [->|]; [|by rewrite Hbelow' in He by (done || lia)].
      rewrite Hzero in He by done. by injection He as <-.
    + intros va e He. destruct (decide (same_path (S d0) va va0)) as [Hp|].
      * destruct (decide (d0 = 0%nat)) as [E|]; [|rewrite entry_frame in He by lia; eauto].
        rewrite <- E, entry_here in He by done. injection He as <-. unfold next_table in Hnt.
        by destruct (present e0), (large e0).
      * rewrite entry_frame in He by (lia || auto). eauto.
  - by apply Hnew.
  - intros va d t Hd Ht. destruct (decide (d ≤ d0)%nat); [by rewrite table_frame by auto|].
    destruct (decide (same_path (S d0) va va0)) as [Hp|]; [|by rewrite table_frame by auto].
    specialize (Hbelow va d ltac:(lia) Hp). unfold entry_at in Hbelow. by rewrite Ht in Hbelow.
Qed.
End store.

(** What [open_to] says of the entries on the way *)
Lemma open_entry w root P va D d e :
  tables_ok w root P → open_to w root va D → (d < D ≤ 3)%nat → entry_at w root va d = Some e →
  present e = true → large e = false.
Proof.
  intros Hok Hop Hd He Hp. destruct (large e) eqn:El; [|done]. exfalso.
  destruct (decide (d = 0%nat)) as [->|Hd0]; [by rewrite (t_top _ _ _ Hok _ _ He) in El|].
  assert (leaf_at w root va = Some (d, e)) as Hl.
  { apply leaf_at_spec. split; [lia|]. split; [done|]. unfold is_leaf. rewrite Hp, El.
    destruct (Nat.eqb_spec d 0); [done|]. by rewrite orb_true_r. }
  specialize (Hop d e Hl). lia.
Qed.

(** ** Entries as numbers *)

Lemma addr_of_eq e : addr_of e = (e / 2 ^ 12) mod 2 ^ 28 * 2 ^ 12.
Proof.
  unfold addr_of, PTE_ADDR. rewrite <- (Z.shiftr_div_pow2 e 12), <- (Z.land_ones _ 28), <- (Z.shiftl_mul_pow2 _ 12) by lia.
  rewrite Z.shiftl_land. change (2 ^ 28 - 1) with (Z.ones 28).
  apply Z.bits_inj'. intros i Hi. rewrite !Z.land_spec. destruct (Z.ltb_spec i 12).
  - rewrite !(Z.shiftl_spec_low (Z.ones 28)) by lia. by rewrite !andb_false_r.
  - by rewrite (Z.shiftl_spec_high (Z.shiftr e 12)), Z.shiftr_spec, Z.sub_add by lia.
Qed.

(** An address with [f] in its low 12 bits *)
Lemma addr_of_lor p f : p mod 2 ^ 12 = 0 → 0 ≤ p < 2 ^ 40 → addr_of (Z.lor p f) = Z.lor p (addr_of f).
Proof.
  intros Hp Hr. unfold addr_of. rewrite Z.land_lor_distr_l. f_equal. change (Z.land p PTE_ADDR) with (addr_of p).
  rewrite addr_of_eq. pose proof (Z.div_mod p (2 ^ 12)). rewrite Z.mod_small; [lia|].
  split; [apply Z.div_pos; lia|apply Z.div_lt_upper_bound; lia].
Qed.

Lemma aligned_bit p k i : 0 ≤ i < k → p mod 2 ^ k = 0 → Z.testbit p i = false.
Proof.
  intros Hi Hp. pose proof (Z.div_mod p (2 ^ k)) as Hd. rewrite Hp, Z.add_0_r, Z.mul_comm in Hd by lia.
  rewrite Hd by lia. apply Z.mul_pow2_bits_low. lia.
Qed.

Lemma next_table_entry p va : p mod 4096 = 0 → 0 ≤ p < 2 ^ 40 → next_table (table_entry p va) = Some p.
Proof.
  intros Hp Hr. unfold next_table, present, large, table_entry. rewrite !Z.lor_spec.
  rewrite !(aligned_bit p 12) by (lia || done). rewrite addr_of_lor by done.
  destruct (s64 va <? 0); vm_compute (Z.testbit _ _); cbn; by rewrite Z.lor_0_r.
Qed.

Lemma slot_eq va d : (d ≤ 3)%nat → Z.land (Z.shiftr va (shift_of d)) 0x1FF = slot_of va d.
Proof.
  intros Hd. unfold slot_of. change 0x1FF with (2 ^ 9 - 1). rewrite land_low_mask, Z.shiftr_div_pow2 by (unfold shift_of; lia).
  done.
Qed.

(** ** Paths as numbers of pages *)

Definition c48 (va : Z) : Z := va mod 2 ^ 48.

Lemma c48_mod x : c48 x mod 4096 = x mod 4096.
Proof.
  unfold c48. change (2 ^ 48) with (4096 * 2 ^ 36). rewrite Z.rem_mul_r by lia.
  by rewrite (Z.mul_comm 4096), Z.mod_add, Z.mod_mod by lia.
Qed.

Lemma shift_range d : (d ≤ 3)%nat → 12 ≤ shift_of d ≤ 39.
Proof. unfold shift_of. lia. Qed.

Lemma slot_c48 va d : (d ≤ 3)%nat → slot_of (c48 va) d = slot_of va d.
Proof.
  intros Hd. unfold slot_of, c48. pose proof (shift_range d Hd).
  replace (2 ^ 48) with (2 ^ shift_of d * (512 * 2 ^ (9 * Z.of_nat d)))
    by (change 512 with (2 ^ 9); rewrite <- !Z.pow_add_r by lia; f_equal; unfold shift_of; lia).
  rewrite Z.rem_mul_r, (Z.mul_comm (2 ^ shift_of d)), Z.div_add by lia.
  rewrite (Z.div_small (va mod _)) by (apply Z.mod_pos_bound; lia).
  rewrite Z.rem_mul_r by lia. rewrite Z.add_0_l, (Z.mul_comm 512), Z.mod_add by lia. by apply Z.mod_mod.
Qed.

Lemma same_path_div d va va' :
  (d ≤ 3)%nat → va / 2 ^ (shift_of d + 9) = va' / 2 ^ (shift_of d + 9) → same_path d va va'.
Proof.
  intros Hd He i Hi. unfold slot_of. pose proof (shift_range d Hd).
  assert (∀ x, x / 2 ^ shift_of i = x / 2 ^ (shift_of d + 9) / 2 ^ (9 * (Z.of_nat d - Z.of_nat i - 1))) as Hx.
  { intros x. rewrite Z.div_div by lia. rewrite <- Z.pow_add_r by lia. do 2 f_equal. unfold shift_of. lia. }
  by rewrite !Hx, He.
Qed.

(** Addresses below 2^48 have the same walk down to depth [d] exactly when
    they are in the same page of that depth. *)
Lemma same_path_page d va va' :
  (d ≤ 3)%nat → same_path (S d) va va' ↔ c48 va / 2 ^ shift_of d = c48 va' / 2 ^ shift_of d.
Proof.
  intros Hd. assert (∀ x, 0 ≤ c48 x < 2 ^ 48) as Hc by (intros; apply Z.mod_pos_bound; lia). split.
  - intros Hp. induction d as [|d IH].
    + specialize (Hp 0%nat ltac:(lia)). rewrite <- (slot_c48 va), <- (slot_c48 va') in Hp by lia.
      unfold slot_of in Hp. change (shift_of 0) with 39 in *.
      rewrite !Z.mod_small in Hp; [done|..]; (split; [apply Z.div_pos|apply Z.div_lt_upper_bound]); specialize (Hc va); specialize (Hc va') || idtac; try lia.
      all: pose proof (Z.mod_pos_bound va' (2 ^ 48)); pose proof (Z.mod_pos_bound va (2 ^ 48)); unfold c48; lia.
    + apply same_path_S in Hp as [Hp Hs]. specialize (IH ltac:(lia) Hp).
      rewrite <- (slot_c48 va), <- (slot_c48 va') in Hs by lia. unfold slot_of in Hs.
      assert (∀ x, x / 2 ^ shift_of d = x / 2 ^ shift_of (S d) / 512) as Hx.
      { intros x. pose proof (shift_range (S d) Hd). change 512 with (2 ^ 9). rewrite Z.div_div by lia.
        rewrite <- Z.pow_add_r by lia. do 2 f_equal. unfold shift_of. lia. }
      rewrite !Hx in IH. pose proof (Z.div_mod (c48 va / 2 ^ shift_of (S d)) 512).
      pose proof (Z.div_mod (c48 va' / 2 ^ shift_of (S d)) 512). lia.
  - intros He i Hi. rewrite <- (slot_c48 va), <- (slot_c48 va') by lia. destruct (decide (i = d)) as [->|].
    + unfold slot_of. by rewrite He.
    + apply (same_path_div d); [done| |lia]. pose proof (shift_range d Hd).
      rewrite !Z.pow_add_r, <- !Z.div_div by lia. by rewrite He.
Qed.
