(* ===== verification/BootPagingThms.v ===== *)
(** * The boot loader's page tables are the mapping asked for

    [PageSourceLaws] is what paging.cc relies on in the physical memory map.
    From it: paging_find_pte ends at the entry the processor's walk reads,
    making tables on the way without changing any translation;
    paging_map_physical maps exactly the range; paging_map_range gives every
    page of a range memory of its own. *)

From stdpp Require Import base tactics list numbers option.
From S2P Require Import Prelude Physmap BootPaging PageWalk.

#[local] Open Scope Z_scope.

(** [in_use s p]: the page at [p] is not free; [can_give n s]: there are [n]
    more pages for tables. *)
Class PageSourceLaws (S : Type) `{PageSource S} := {
  in_use : S → Z → Prop;
  can_give : nat → S → Prop;
  can_give_less : ∀ n m s, (n ≤ m)%nat → can_give m s → can_give n s;
  give_page : ∀ n s, can_give (Datatypes.S n) s → ∃ p s',
    alloc_table_page s = Done (PhysAlloc p PAGE_SIZE, s') ∧ p mod 4096 = 0 ∧ 0 < p < 2 ^ 40
    ∧ ¬ in_use s p ∧ in_use s' p ∧ (∀ q, in_use s q → in_use s' q) ∧ can_give n s'
}.

Section thms.
Context {S : Type} `{PageSourceLaws S}.
Implicit Types s : paging S.

Definition paging_ok (s : paging S) : Prop := tables_ok (words s) (root_page_dir s) (in_use (source s)).
Definition leaf (s : paging S) : Z → option (nat * Z) := leaf_at (words s) (root_page_dir s).
Definition table (s : paging S) : Z → nat → option Z := table_at (words s) (root_page_dir s).
Definition opened (s : paging S) (va : Z) (D : nat) : Prop := open_to (words s) (root_page_dir s) va D.

(** Nothing that a caller sees has changed but for more tables. *)
Record grown (s s' : paging S) : Prop := {
  g_root : root_page_dir s' = root_page_dir s;
  g_msgs : messages s' = messages s;
  g_leaf : ∀ va, leaf s' va = leaf s va;
  g_use : ∀ q, in_use (source s) q → in_use (source s') q;
  g_table : ∀ va d t, (d ≤ 3)%nat → table s va d = Some t → table s' va d = Some t
}.

#[export] Instance grown_preorder : PreOrder grown.
Proof.
  split; [by split|]. intros x y z [A1 A2 A3 A4 A5] [B1 B2 B3 B4 B5].
  split; [congruence|congruence|intros; congruence|eauto|eauto].
Qed.

Lemma grown_opened s s' va D : grown s s' → opened s va D → opened s' va D.
Proof. intros Hg Hop d e Hl. apply (Hop d e). change (leaf s va = Some (d, e)). by rewrite <- (g_leaf _ _ Hg). Qed.

(** allocate_page_table, and the store of its entry *)
Lemma add_table_spec n s va d t :
  paging_ok s → can_give (Datatypes.S n) (source s) → (d < 3)%nat → table s va d = Some t →
  present (words s (t + 8 * slot_of va d)) = false →
  ∃ page s', (page ← allocate_page_table; store (t + 8 * slot_of va d) (table_entry page va);; mret page) s
               = Done (page, s')
    ∧ paging_ok s' ∧ can_give n (source s') ∧ grown s s' ∧ table s' va (Datatypes.S d) = Some page.
Proof.
  intros Hok Hg Hd Ht Hnp. destruct (give_page n (source s) Hg) as (p & x & Ha & Hal & Hr & Hfr & Huse & Hmono & Hg').
  unfold allocate_page_table. rewrite !bind_assoc. erewrite bind_done; [|unfold on_source; by rewrite Ha].
  cbn [psize pbase]. rewrite Z.eqb_refl. unfold PAGE_MASK.
  change (Z.land p 4095) with (Z.land p (2 ^ 12 - 1)). rewrite land_low_mask by lia. change (2 ^ 12) with 4096. rewrite Hal.
  destruct (Z.eqb_spec p 0); [lia|]. eexists p, _. split; [reflexivity|]. cbn [words root_page_dir source messages set_words].
  set (w' := λ a, _). destruct (t_page _ _ _ Hok va d t ltac:(lia) Ht) as (Hta & Htr & Htu).
  assert (∀ a, ¬ (p ≤ a < p + 4096) → a ≠ t + 8 * slot_of va d → w' a = words s a) as Hw.
  { intros a Ha1 Ha2. unfold w'. cbn. destruct (Z.eqb_spec a (t + 8 * slot_of va d)); [done|].
    destruct (Z.leb_spec p a), (Z.ltb_spec a (p + 4096)); try done. lia. }
  assert (∀ t', t' mod 4096 = 0 → t' ≠ p → ∀ i, 0 ≤ i < 512 → ¬ (p ≤ t' + 8 * i < p + 4096)) as Hoff.
  { intros t' Ht' Hne i Hi. pose proof (Z.div_mod p 4096). pose proof (Z.div_mod t' 4096). lia. }
  destruct (store_table (words s) w' (root_page_dir s) (in_use (source s)) va d t Hok ltac:(lia) Ht) with (in_use x) p
    as (Hl & Hok' & Hnew & Hkeep).
  - intros va' d' t' i Hd' Ht' Hi Hne. destruct (t_page _ _ _ Hok va' d' t' Hd' Ht') as (Ha' & _ & Hu').
    apply Hw; [apply Hoff; [done|congruence|done]|].
    intros (E1 & E2)%slot_addr_inj; try done; [|apply slot_range]. destruct Hne; done.
  - done.
  - done.
  - unfold w'. rewrite Z.eqb_refl. apply next_table_entry; [done|lia].
  - done.
  - done.
  - done.
  - done.
  - done.
  - intros i Hi. unfold w'. cbn. destruct (Z.eqb_spec (p + 8 * i) (t + 8 * slot_of va d)) as [E|].
    + apply slot_addr_inj in E as [E _]; try done; [|apply slot_range]. congruence.
    + destruct (Z.leb_spec p (p + 8 * i)), (Z.ltb_spec (p + 8 * i) (p + 4096)); try done; lia.
  - split_and!; try done.
Qed.

Lemma find_eq_last s va fuel create D ref :
  (D ≤ 3)%nat →
  find_pte_loop (Datatypes.S fuel) va (shift_of D) create (shift_of D) ref s = Done (Some (ref + 8 * slot_of va D), s).
Proof. intros HD. cbn [find_pte_loop]. by rewrite Z.eqb_refl, slot_eq. Qed.

Lemma shift_step d : (d < 3)%nat → u8 (shift_of d - 9) = shift_of (Datatypes.S d).
Proof. intros Hd. unfold u8, shift_of. rewrite Z.mod_small by lia. lia. Qed.

(** paging_find_pte with create *)
Lemma find_create_loop k n s va d ref fuel :
  (d + k ≤ 3)%nat → (k < fuel)%nat → paging_ok s → can_give (k + n) (source s) →
  opened s va (d + k) → table s va d = Some ref →
  ∃ t s', find_pte_loop fuel va (shift_of (d + k)) true (shift_of d) ref s = Done (Some (t + 8 * slot_of va (d + k)), s')
    ∧ paging_ok s' ∧ can_give n (source s') ∧ grown s s' ∧ table s' va (d + k) = Some t.
Proof.
  revert s d ref fuel. induction k as [|k IH]; intros s d ref fuel Hdk Hf Hok Hg Hop Ht.
  all: destruct fuel as [|fuel]; [lia|].
  { rewrite Nat.add_0_r in *. exists ref, s. rewrite find_eq_last by lia. split_and!; done || reflexivity. }
  cbn [find_pte_loop]. rewrite slot_eq by lia. destruct (Z.eqb_spec (shift_of d) (shift_of (d + Datatypes.S k))) as [E|_];
    [unfold shift_of in E; lia|]. unfold load. run. set (e := words s (ref + 8 * slot_of va d)).
  rewrite <- Nat.add_succ_comm in *. rewrite shift_step by lia. change (Z.land e PTE_ADDR) with (addr_of e).
  assert (entry_at (words s) (root_page_dir s) va d = Some e) as He.
  { unfold entry_at. change (table_at _ _ va d) with (table s va d). by rewrite Ht. }
  destruct (present e) eqn:Ep.
  - assert (table s va (Datatypes.S d) = Some (addr_of e)) as Hnt.
    { unfold table. rewrite table_at_S, He. cbn. unfold next_table. rewrite Ep.
      by rewrite (open_entry _ _ _ va (Datatypes.S d + k) d e Hok Hop ltac:(lia) He Ep). }
    destruct (t_page _ _ _ Hok va (Datatypes.S d) (addr_of e)) as (_ & Hr & _); [lia|done|].
    destruct (Z.eqb_spec (addr_of e) 0); [lia|]. 
    destruct (IH s (Datatypes.S d) (addr_of e) fuel) as (t & s' & HH); try done; try lia; [|eauto].
    eapply can_give_less; [|done]. lia.
  - rewrite (t_entry _ _ _ Hok va d e) by (done || lia). rewrite Z.eqb_refl.
    cbn [Nat.add] in Hg.
    destruct (add_table_spec (k + n) s va d ref) as (page & s1 & E1 & Hok1 & Hg1 & Hgr & Ht1); try done; [lia|].
    destruct (IH s1 (Datatypes.S d) page fuel) as (t & s' & E2 & ? & ? & ? & ?); try done; try lia.
    { by eapply grown_opened. }
    exists t, s'. split; [|split_and!; try done; by etrans].
    rewrite <- E2. unfold mbind, M_bind in E1 |- *. destruct (allocate_page_table s) as [[pg s0]|]; [|done].
    cbn in E1 |- *. by injection E1 as -> <-.
Qed.

Lemma find_create D n s va :
  (D ≤ 3)%nat → paging_ok s → can_give (3 + n) (source s) → opened s va D →
  ∃ t s', paging_find_pte va (shift_of D) true s = Done (Some (t + 8 * slot_of va D), s')
    ∧ paging_ok s' ∧ can_give n (source s') ∧ grown s s' ∧ table s' va D = Some t.
Proof.
  intros HD Hok Hg Hop. unfold paging_find_pte. run.
  destruct (find_create_loop D n s va 0 (root_page_dir s) 4) as (t & s' & HH); try done; try lia; [|eauto].
  eapply can_give_less; [|done]. lia.
Qed.

(** paging_find_pte without create finds what the processor's walk finds. *)
Lemma find_lookup_loop k s va d ref fuel :
  (d + k ≤ 3)%nat → (k < fuel)%nat → paging_ok s → opened s va (d + k) → table s va d = Some ref →
  find_pte_loop fuel va (shift_of (d + k)) false (shift_of d) ref s =
    Done ((λ t, t + 8 * slot_of va (d + k)) <$> table s va (d + k), s).
Proof.
  revert d ref fuel. induction k as [|k IH]; intros d ref fuel Hdk Hf Hok Hop Ht.
  all: destruct fuel as [|fuel]; [lia|].
  { rewrite Nat.add_0_r in *. rewrite find_eq_last by lia. by rewrite Ht. }
  cbn [find_pte_loop]. rewrite slot_eq by lia. destruct (Z.eqb_spec (shift_of d) (shift_of (d + Datatypes.S k))) as [E|_];
    [unfold shift_of in E; lia|]. unfold load. run. set (e := words s (ref + 8 * slot_of va d)).
  rewrite <- Nat.add_succ_comm in *. rewrite shift_step by lia. change (Z.land e PTE_ADDR) with (addr_of e).
  assert (entry_at (words s) (root_page_dir s) va d = Some e) as He.
  { unfold entry_at. change (table_at _ _ va d) with (table s va d). by rewrite Ht. }
  destruct (present e) eqn:Ep.
  - assert (table s va (Datatypes.S d) = Some (addr_of e)) as Hnt.
    { unfold table. rewrite table_at_S, He. cbn. unfold next_table. rewrite Ep.
      by rewrite (open_entry _ _ _ va (Datatypes.S d + k) d e Hok Hop ltac:(lia) He Ep). }
    destruct (t_page _ _ _ Hok va (Datatypes.S d) (addr_of e)) as (_ & Hr & _); [lia|done|].
    destruct (Z.eqb_spec (addr_of e) 0); [lia|]. apply IH; done || lia.
  - rewrite (t_entry _ _ _ Hok va d e) by (done || lia). rewrite Z.eqb_refl.
    destruct (table s va (Datatypes.S d + k)) as [t|] eqn:Et; [|done]. exfalso.
    destruct (table_at_le (words s) (root_page_dir s) va (Datatypes.S d) (Datatypes.S d + k)) as [t' Ht']; [lia|by exists t|].
    rewrite table_at_S, He in Ht'. cbn in Ht'. unfold next_table in Ht'. by rewrite Ep in Ht'.
Qed.

Lemma find_lookup D s va :
  (D ≤ 3)%nat → paging_ok s → opened s va D →
  paging_find_pte va (shift_of D) false s = Done ((λ t, t + 8 * slot_of va D) <$> table s va D, s).
Proof. intros HD Hok Hop. unfold paging_find_pte. run. apply (find_lookup_loop D s va 0); done || lia. Qed.

(** ** Mapping one page *)

Lemma map_one s va D t e :
  (D ≤ 3)%nat → paging_ok s → table s va D = Some t → is_leaf D e = true →
  ∃ s', store (t + 8 * slot_of va D) e s = Done (tt, s') ∧ paging_ok s'
    ∧ source s' = source s ∧ root_page_dir s' = root_page_dir s ∧ messages s' = messages s
    ∧ (∀ va', leaf s' va' = if decide (c48 va' / 2 ^ shift_of D = c48 va / 2 ^ shift_of D) then Some (D, e) else leaf s va')
    ∧ (∀ va' d, (d ≤ D)%nat → table s' va' d = table s va' d).
Proof.
  intros HD Hok Ht Hl. eexists. split; [reflexivity|].
  set (w' := λ a, if a =? t + 8 * slot_of va D then e else words s a).
  assert (w' (t + 8 * slot_of va D) = e) as He by (unfold w'; by rewrite Z.eqb_refl).
  destruct (t_page _ _ _ Hok va D t HD Ht) as (Hta & _ & _).
  assert (∀ va' d t' i, (d ≤ 3)%nat → table s va' d = Some t' → 0 ≤ i < 512 →
    t' ≠ t ∨ i ≠ slot_of va D → w' (t' + 8 * i) = words s (t' + 8 * i)) as Hw.
  { intros va' d t' i Hd Ht' Hi Hne. destruct (t_page _ _ _ Hok va' d t' Hd Ht') as (Ha' & _ & _).
    unfold w'. destruct (Z.eqb_spec (t' + 8 * i) (t + 8 * slot_of va D)) as [E|]; [|done].
    apply slot_addr_inj in E as [-> ->]; try done; [by destruct Hne|apply slot_range]. }
  destruct (store_leaf (words s) w' (root_page_dir s) (in_use (source s)) va D t Hok HD Ht Hw) as [Hlf Hok'].
  { by rewrite He. }
  split_and!; try done.
  - intros va'. unfold leaf at 1. change (words _) with w'. cbn [root_page_dir set_words]. rewrite Hlf, He.
    destruct (decide (same_path _ _ _)) as [Hp|Hp]; rewrite same_path_page in Hp by done; by case_decide.
  - intros va' d Hd. apply (table_frame (words s) w' (root_page_dir s) (in_use (source s)) va D t Hok HD Ht Hw); [lia|by left].
Qed.

(** The pointer that the loops keep from the entry before *)
Definition ptr_ok (s : paging S) (va : Z) (D : nat) (pte : option Z) : Prop :=
  ∀ p, pte = Some p → is_multiple va (shift_of D + 9) = false →
  ∃ t, table s va D = Some t ∧ p = t + 8 * slot_of va D.

Lemma is_multiple_eq va k : 0 ≤ va < 2 ^ 64 → 0 ≤ k → is_multiple va k = (va mod 2 ^ k =? 0).
Proof.
  intros Hva Hk. unfold is_multiple. rewrite land_neg_pow2 by done. pose proof (Z.div_mod va (2 ^ k)).
  pose proof (Z.mod_pos_bound va (2 ^ k)). destruct (Z.eqb_spec (va mod 2 ^ k) 0); [apply Z.eqb_eq|apply Z.eqb_neq]; lia.
Qed.

Lemma ptr_next s va D t :
  (D ≤ 3)%nat → 0 ≤ va → va + 2 ^ shift_of D < 2 ^ 64 → va mod 2 ^ shift_of D = 0 → table s va D = Some t →
  ptr_ok s (va + 2 ^ shift_of D) D (next_pte (Some (t + 8 * slot_of va D))).
Proof.
  intros HD Hva Hlt Hm Ht p [= <-] Hn. pose proof (shift_range D HD) as Hs.
  assert (0 < 2 ^ shift_of D) as Hpos by (apply Z.pow_pos_nonneg; lia).
  rewrite is_multiple_eq in Hn by lia. apply Z.eqb_neq in Hn.
  rewrite Z.pow_add_r in Hn by lia. change (2 ^ 9) with 512 in Hn.
  pose proof (Z.div_mod va (2 ^ shift_of D) ltac:(lia)) as Hdm. rewrite Hm, Z.add_0_r in Hdm.
  set (q := va / 2 ^ shift_of D) in *.
  assert ((va + 2 ^ shift_of D) / 2 ^ shift_of D = q + 1) as Hq by (rewrite <- (Z.mul_1_l (2 ^ shift_of D)) at 1; by rewrite Z.div_add by lia).
  assert ((q + 1) mod 512 ≠ 0) as Hq512.
  { intros E. apply Hn. rewrite Hdm. replace (2 ^ shift_of D * q + 2 ^ shift_of D) with (2 ^ shift_of D * (q + 1)) by ring.
    rewrite Z.mul_mod_distr_l by lia. lia. }
  assert (q / 512 = (q + 1) / 512 ∧ (q + 1) mod 512 = q mod 512 + 1) as [Hq1 Hq2].
  { pose proof (Z.div_mod q 512). pose proof (Z.div_mod (q + 1) 512). pose proof (Z.mod_pos_bound q 512).
    pose proof (Z.mod_pos_bound (q + 1) 512). lia. }
  exists t. split.
  - rewrite <- Ht. unfold table. symmetry. apply table_at_path, same_path_div; [done|].
    rewrite !Z.pow_add_r, <- !Z.div_div by lia. fold q. by rewrite Hq.
  - unfold slot_of. fold q. rewrite Hq, Hq2. lia.
Qed.

(** How many pages the tables of a loop may take: three each time the loop
    looks an entry up *)
Fixpoint tables_needed (D : nat) (pages : nat) (va : Z) (first : bool) : nat :=
  match pages with
  | O => 0
  | Datatypes.S pages =>
      ((if first || is_multiple va (shift_of D + 9) then 3 else 0) + tables_needed D pages (va + 2 ^ shift_of D) false)%nat
  end.

Definition is_none (p : option Z) : bool := match p with None => true | Some _ => false end.

Lemma get_pte D n s va pte :
  (D ≤ 3)%nat → paging_ok s → opened s va D → ptr_ok s va D pte →
  can_give ((if is_none pte || is_multiple va (shift_of D + 9) then 3 else 0) + n) (source s) →
  ∃ t s', (if new_table pte va (shift_of D + 9) then paging_find_pte va (shift_of D) true else mret pte) s
            = Done (Some (t + 8 * slot_of va D), s')
    ∧ paging_ok s' ∧ can_give n (source s') ∧ grown s s' ∧ table s' va D = Some t.
Proof.
  intros HD Hok Hop Hp Hg. assert (new_table pte va (shift_of D + 9) = is_none pte || is_multiple va (shift_of D + 9)) as -> by (by destruct pte).
  destruct (is_none pte || is_multiple va (shift_of D + 9)) eqn:E; [by apply find_create|].
  apply orb_false_elim in E as [En Em]. destruct pte as [p|]; [|done].
  destruct (Hp p eq_refl Em) as (t & Ht & ->). exists t, s. split_and!; done || reflexivity.
Qed.

Lemma quot_shift lo x q : 0 < q → (x - (lo + q)) / q = (x - lo) / q - 1.
Proof. intros Hq. replace (x - (lo + q)) with (x - lo + (-1) * q) by ring. rewrite Z.div_add by lia. lia. Qed.

(** [s'] is [s] with the pages of depth [D] from [lo] to [hi] mapped to
    consecutive pages from [phys]. *)
Definition mapped (D : nat) (flags lo hi phys : Z) (s s' : paging S) : Prop :=
  root_page_dir s' = root_page_dir s ∧ messages s' = messages s ∧
  ∀ va, leaf s' va = if (lo <=? c48 va) && (c48 va <? hi)
    then Some (D, Z.lor (phys + (c48 va - lo) / 2 ^ shift_of D * 2 ^ shift_of D) flags) else leaf s va.

Lemma physical_loop_spec D flags pages va phys pte n s :
  (D ≤ 3)%nat → 0 ≤ va → va mod 2 ^ shift_of D = 0 → va + Z.of_nat pages * 2 ^ shift_of D ≤ 2 ^ 48 →
  phys mod 2 ^ shift_of D = 0 → 0 ≤ phys → phys + Z.of_nat pages * 2 ^ shift_of D ≤ 2 ^ 40 →
  (∀ p, is_leaf D (Z.lor p flags) = true) →
  paging_ok s → ptr_ok s va D pte → can_give (tables_needed D pages va (is_none pte) + n) (source s) →
  (∀ x, va ≤ c48 x < va + Z.of_nat pages * 2 ^ shift_of D → opened s x D) →
  ∃ s', physical_loop (shift_of D) flags pages va phys pte s = Done (tt, s')
    ∧ paging_ok s' ∧ can_give n (source s') ∧ mapped D flags va (va + Z.of_nat pages * 2 ^ shift_of D) phys s s'.
Proof.
  intros HD. pose proof (shift_range D HD) as Hsh. assert (0 < 2 ^ shift_of D) as Hpos by (apply Z.pow_pos_nonneg; lia).
  assert (2 ^ 48 < 2 ^ 64) by lia. assert (2 ^ 40 < 2 ^ 64) by lia.
  revert va phys pte s. induction pages as [|pages IH]; intros va phys pte s Hva Hm Hhi Hpm Hp0 Hphi Hlf Hok Hptr Hg Hop.
  { exists s. do 3 (split; [done|]). split; [done|]. split; [done|]. intros x. destruct (Z.leb_spec va (c48 x)), (Z.ltb_spec (c48 x) (va + Z.of_nat 0 * 2 ^ shift_of D)); try done. lia. }
  set (q := 2 ^ shift_of D) in *. rewrite Nat2Z.inj_succ, Z.mul_succ_l in *.
  assert (c48 va = va) as Hc by (apply Z.mod_small; lia).
  cbn [physical_loop]. cbn [tables_needed] in Hg. rewrite <- Nat.add_assoc in Hg.
  destruct (get_pte D (tables_needed D pages (va + q) false + n) s va pte HD Hok) as (t & s1 & E1 & Hok1 & Hg1 & Hgr & Ht1); [apply Hop; lia|done|exact Hg|].
  rewrite (bind_done _ _ _ _ _ E1). cbn [store_ptr].
  destruct (map_one s1 va D t (Z.lor phys flags) HD Hok1 Ht1 (Hlf phys)) as (s2 & E2 & Hok2 & Hsrc & Hr2 & Hm2 & Hl2 & Ht2).
  rewrite (bind_done _ _ _ _ _ E2). fold q in Hl2. rewrite Hc in Hl2.
  assert (∀ x, c48 x / q = va / q ↔ va ≤ c48 x < va + q) as Hpage.
  { intros x. pose proof (Z.div_mod (c48 x) q ltac:(lia)). pose proof (Z.div_mod va q ltac:(lia)).
    pose proof (Z.mod_pos_bound (c48 x) q ltac:(lia)). split; intros; nia. }
  destruct (IH (va + q) (u64 (phys + q)) (next_pte (Some (t + 8 * slot_of va D))) s2) as (s' & E3 & Hok3 & Hg3 & Hr3 & Hm3 & Hl3).
  - lia.
  - rewrite <- (Z.mul_1_l q) at 1. by rewrite Z.mod_add by lia.
  - lia.
  - unwrap. rewrite <- (Z.mul_1_l q) at 1. by rewrite Z.mod_add by lia.
  - unwrap. lia.
  - unwrap. lia.
  - done.
  - done.
  - apply ptr_next; try done; [unfold q in *; lia|]. by rewrite Ht2.
  - by rewrite Hsrc.
  - intros x Hx. intros d e. change (leaf s2 x = Some (d, e) → (D ≤ d)%nat). rewrite Hl2, decide_False by (rewrite Hpage; lia).
    rewrite (g_leaf _ _ Hgr). apply Hop. lia.
  - exists s'. split; [exact E3|]. split; [done|]. split; [done|]. split; [|split].
    + rewrite Hr3, Hr2. apply Hgr.
    + rewrite Hm3, Hm2. apply Hgr.
    + intros x. rewrite Hl3, Hl2, (g_leaf _ _ Hgr). fold q. unwrap.
      destruct (Z.leb_spec (va + q) (c48 x)), (Z.ltb_spec (c48 x) (va + q + Z.of_nat pages * q)); cbn [andb].
      1: rewrite (proj2 (Z.leb_le va _)), (proj2 (Z.ltb_lt (c48 x) _)) by lia; cbn [andb]; do 3 f_equal; rewrite quot_shift by lia; lia.
      all: case_decide as Hd; rewrite Hpage in Hd.
      all: destruct (Z.leb_spec va (c48 x)), (Z.ltb_spec (c48 x) (va + (Z.of_nat pages * q + q))); cbn [andb]; try done; try nia.
      all: rewrite Z.div_small by lia; by rewrite Z.mul_0_l, Z.add_0_r.
Qed.
End thms.

(** ** What is in an entry *)

(** The bits of an entry that are neither address nor page size *)
Definition flags_of (e : Z) : Z := Z.land e (2 ^ 64 - 1 - PTE_ADDR - PTE_PAGESIZE).

Lemma addr_of_aligned p : p mod 2 ^ 12 = 0 → 0 ≤ p < 2 ^ 40 → addr_of p = p.
Proof. intros Hp Hr. pose proof (addr_of_lor p 0 Hp Hr) as E. rewrite Z.lor_0_r in E. by rewrite E, Z.lor_0_r. Qed.

Lemma flags_of_aligned p f : p mod 2 ^ 12 = 0 → 0 ≤ p < 2 ^ 40 → flags_of (Z.lor p f) = flags_of f.
Proof.
  intros Hp Hr. unfold flags_of. rewrite Z.land_lor_distr_l. rewrite <- (addr_of_aligned p Hp Hr) at 1.
  unfold addr_of. rewrite <- Z.land_assoc. change (Z.land PTE_ADDR _) with 0. by rewrite Z.land_0_r.
Qed.

Lemma mod_mod_pow2 x j k : 0 ≤ j ≤ k → x mod 2 ^ k = 0 → x mod 2 ^ j = 0.
Proof.
  intros Hj Hx. pose proof (Z.div_mod x (2 ^ k)) as Hd. rewrite Hx, Z.add_0_r in Hd by lia. rewrite Hd by lia.
  replace k with (k - j + j) at 1 by lia. rewrite Z.pow_add_r by lia.
  replace (2 ^ (k - j) * 2 ^ j * (x / 2 ^ k)) with (2 ^ (k - j) * (x / 2 ^ k) * 2 ^ j) by ring. by apply Z.mod_mul; lia.
Qed.

(** The flags that go into entries at depth [D]: as given, with the page size
    bit and the moved PAT bit for a large page *)
Definition flags_at (D : nat) (flags fl : Z) : Prop :=
  fl = flags ∧ D = 3%nat ∨
  fl = Z.lor (Z.lor flags (if Z.land flags PTE_PAGESIZE =? 0 then 0 else 2 ^ PTE_PAT_BIT)) PTE_PAGESIZE ∧ (1 ≤ D ≤ 2)%nat.

Lemma leaf_flags D flags fl p : flags_at D flags fl → present flags = true → is_leaf D (Z.lor p fl) = true.
Proof.
  intros Hf Hp. unfold is_leaf, present, large in *. rewrite !Z.lor_spec. destruct Hf as [[-> ->]|[-> HD]].
  - by rewrite Hp, orb_true_r.
  - rewrite !Z.lor_spec, Hp. change (Z.testbit PTE_PAGESIZE 7) with true. cbn [orb]. rewrite !orb_true_r. cbn [orb andb].
    by destruct D as [|[|[|]]]; try lia.
Qed.

Lemma leaf_phys D flags fl pp va :
  (1 ≤ D ≤ 3)%nat → flags_at D flags fl → addr_of flags = 0 → pp mod 2 ^ shift_of D = 0 → 0 ≤ pp < 2 ^ 40 →
  phys_of D (Z.lor pp fl) va = pp + va mod 2 ^ shift_of D ∧ flags_of (Z.lor pp fl) = flags_of flags.
Proof.
  intros HD Hf Ha Hpp Hr. pose proof (shift_range D ltac:(lia)) as Hsh.
  assert (0 < 2 ^ shift_of D) as Hpos by (apply Z.pow_pos_nonneg; lia).
  assert (pp mod 2 ^ 12 = 0) as H12 by (eapply (mod_mod_pow2 _ _ (shift_of D)); [lia|done]).
  assert (∃ x, addr_of (Z.lor pp fl) = pp + x ∧ 0 ≤ x < 2 ^ shift_of D) as (x & Hx & Hxr).
  { rewrite addr_of_lor by done. destruct Hf as [[-> ->]|[-> HD2]].
    - exists 0. rewrite Ha, Z.lor_0_r. lia.
    - unfold addr_of in *. rewrite !Z.land_lor_distr_l, Ha, Z.lor_0_l. change (Z.land PTE_PAGESIZE PTE_ADDR) with 0. rewrite Z.lor_0_r.
      pose proof (Z.div_mod pp (2 ^ shift_of D) ltac:(lia)) as Hd. rewrite Hpp, Z.add_0_r, Z.mul_comm in Hd.
      assert (2 ^ 13 ≤ 2 ^ shift_of D) by (apply Z.pow_le_mono_r; [lia|unfold shift_of; lia]).
      exists (Z.land (if Z.land flags PTE_PAGESIZE =? 0 then 0 else 2 ^ PTE_PAT_BIT) PTE_ADDR).
      assert (0 ≤ Z.land (if Z.land flags PTE_PAGESIZE =? 0 then 0 else 2 ^ PTE_PAT_BIT) PTE_ADDR < 2 ^ 13)
        by (destruct (Z.land flags PTE_PAGESIZE =? 0); vm_compute; intuition congruence).
      split; [|lia]. rewrite Hd. apply lor_disjoint; lia. }
  split.
  - unfold phys_of. rewrite Hx. f_equal. pose proof (Z.div_mod pp (2 ^ shift_of D) ltac:(lia)) as Hd. rewrite Hpp, Z.add_0_r in Hd.
    rewrite Hd at 1. rewrite (Z.mul_comm (2 ^ shift_of D)), Z.div_add_l, (Z.div_small x) by lia. lia.
  - rewrite flags_of_aligned by done. destruct Hf as [[-> _]|[-> _]]; [done|]. unfold flags_of. rewrite !Z.land_lor_distr_l.
    change (Z.land PTE_PAGESIZE _) with 0. rewrite Z.lor_0_r.
    destruct (Z.land flags PTE_PAGESIZE =? 0); [by rewrite Z.land_0_l, Z.lor_0_r|].
    change (Z.land (2 ^ PTE_PAT_BIT) _) with 0. by rewrite Z.lor_0_r.
Qed.

Lemma infer_size_spec phys lin len flags :
  0 ≤ phys < 2 ^ 64 → 0 ≤ lin < 2 ^ 64 → 0 ≤ len < 2 ^ 64 →
  phys mod 4096 = 0 → lin mod 4096 = 0 → len mod 4096 = 0 →
  ∃ D fl, infer_size 2 30 phys lin len flags = (shift_of D, fl) ∧ (1 ≤ D ≤ 3)%nat ∧ flags_at D flags fl
    ∧ phys mod 2 ^ shift_of D = 0 ∧ lin mod 2 ^ shift_of D = 0 ∧ len mod 2 ^ shift_of D = 0.
Proof.
  intros Hp Hl Hn Hp' Hl' Hn'. cbn [infer_size].
  rewrite (is_multiple_eq phys 30), (is_multiple_eq lin 30), (is_multiple_eq len 30) by lia.
  rewrite (is_multiple_eq phys (30 - 9)), (is_multiple_eq lin (30 - 9)), (is_multiple_eq len (30 - 9)) by lia.
  destruct ((phys mod 2 ^ 30 =? 0) && (lin mod 2 ^ 30 =? 0) && (len mod 2 ^ 30 =? 0)) eqn:E1.
  { apply andb_prop in E1 as [[?%Z.eqb_eq ?%Z.eqb_eq]%andb_prop ?%Z.eqb_eq].
    eexists 1%nat, _. split; [reflexivity|]. split; [lia|]. split; [right; split; [done|lia]|done]. }
  destruct ((phys mod 2 ^ (30 - 9) =? 0) && (lin mod 2 ^ (30 - 9) =? 0) && (len mod 2 ^ (30 - 9) =? 0)) eqn:E2.
  { apply andb_prop in E2 as [[?%Z.eqb_eq ?%Z.eqb_eq]%andb_prop ?%Z.eqb_eq].
    eexists 2%nat, _. split; [reflexivity|]. split; [lia|]. split; [right; split; [done|lia]|done]. }
  eexists 3%nat, _. split; [reflexivity|]. split; [lia|]. split; [by left|done].
Qed.
