(* ===== verification/BootPagingMap.v ===== *)
(** * paging_map_physical maps what it is asked to

    Built on the loop of [BootPagingThms]: the choice of page sizes, the five
    runs of paging_map_physical, and the theorem that together they map
    exactly the pages of the range, whichever page sizes are used. *)

From stdpp Require Import base tactics list numbers option.
From S2P Require Import Prelude Physmap BootPaging PageWalk BootPagingThms.

#[local] Open Scope Z_scope.

(** Pages that the tables of paging_map_physical_impl may take *)
Definition impl_cost (phys lin len : Z) : nat :=
  let sh := fst (infer_size 2 30 phys (c48 lin) len 0) in
  tables_needed (Z.to_nat ((39 - sh) / 9)) (Z.to_nat (len / 2 ^ sh)) (c48 lin) true.

Fixpoint runs_cost (bounds : list Z) (phys_to_virt : Z) : nat :=
  match bounds with
  | st :: (en :: _) as rest =>
      ((if (st <? en)%Z then impl_cost st (u64 (st + phys_to_virt)) (en - st) else 0) + runs_cost rest phys_to_virt)%nat
  | _ => 0
  end.

Lemma infer_fst n k phys lin len f f' : fst (infer_size n k phys lin len f) = fst (infer_size n k phys lin len f').
Proof. revert k. induction n as [|n IH]; intros k; [done|]. cbn. by destruct (_ && _). Qed.

Lemma c48_eq z : Z.land z 0xFFFFFFFFFFFF = c48 z.
Proof. change 0xFFFFFFFFFFFF with (2 ^ 48 - 1). by rewrite land_low_mask. Qed.

Lemma round_dn_eq x k : 0 ≤ k → 0 ≤ x < 2 ^ 64 → round_dn x k = 2 ^ k * (x / 2 ^ k).
Proof. apply land_neg_pow2. Qed.

Lemma round_up_eq x k :
  0 ≤ k → 0 ≤ x → x + 2 ^ k ≤ 2 ^ 64 → round_up x k = 2 ^ k * ((x + (2 ^ k - 1)) / 2 ^ k).
Proof.
  intros Hk Hx Hlt. assert (0 < 2 ^ k) by (apply Z.pow_pos_nonneg; lia). unfold round_up. rewrite u64_small by lia.
  apply land_neg_pow2; lia.
Qed.

(** Rounding to a multiple of [2^k] *)
Lemma round_dn_bounds x k : 0 ≤ k → 0 ≤ x < 2 ^ 64 → round_dn x k mod 2 ^ k = 0 ∧ 0 ≤ round_dn x k ∧ x - 2 ^ k < round_dn x k ≤ x.
Proof.
  intros Hk Hx. assert (0 < 2 ^ k) by (apply Z.pow_pos_nonneg; lia). rewrite round_dn_eq by done.
  rewrite Z.mul_comm, Z.mod_mul by lia. pose proof (Z.div_mod x (2 ^ k)). pose proof (Z.mod_pos_bound x (2 ^ k)).
  pose proof (Z.div_pos x (2 ^ k)). nia.
Qed.

Lemma round_up_bounds x k :
  0 ≤ k → 0 ≤ x → x + 2 ^ k ≤ 2 ^ 64 → round_up x k mod 2 ^ k = 0 ∧ x ≤ round_up x k < x + 2 ^ k.
Proof.
  intros Hk Hx Hlt. assert (0 < 2 ^ k) by (apply Z.pow_pos_nonneg; lia). rewrite round_up_eq by done.
  rewrite Z.mul_comm, Z.mod_mul by lia. pose proof (Z.div_mod (x + (2 ^ k - 1)) (2 ^ k)).
  pose proof (Z.mod_pos_bound (x + (2 ^ k - 1)) (2 ^ k)). lia.
Qed.

(** Rounding up does not pass a multiple. *)
Lemma multiple_step x y k : 0 ≤ k → x mod 2 ^ k = 0 → y mod 2 ^ k = 0 → x < y + 2 ^ k → x ≤ y.
Proof.
  intros Hk Hx Hy Hlt. assert (0 < 2 ^ k) by (apply Z.pow_pos_nonneg; lia). 
  pose proof (Z.div_mod x (2 ^ k) ltac:(lia)) as Ex. pose proof (Z.div_mod y (2 ^ k) ltac:(lia)) as Ey.
  rewrite Hx, Z.add_0_r in Ex. rewrite Hy, Z.add_0_r in Ey. rewrite Ex, Ey in *.
  assert (x / 2 ^ k < y / 2 ^ k + 1) by (apply (Z.mul_lt_mono_pos_l (2 ^ k)); lia). apply Z.mul_le_mono_nonneg_l; lia.
Qed.

Section thms.
Context {S : Type} `{PageSourceLaws S}.
Implicit Types s : paging S.

(** In [s'] every address from [lo] to [hi] is translated to that far from
    [phys], with [flags]; everything else is translated as in [s]. *)
Definition maps_to (flags lo hi phys : Z) (s s' : paging S) : Prop :=
  root_page_dir s' = root_page_dir s ∧ messages s' = messages s ∧
  ∀ va, if (lo <=? c48 va) && (c48 va <? hi)
    then ∃ d e, leaf s' va = Some (d, e) ∧ phys_of d e va = phys + (c48 va - lo) ∧ flags_of e = flags_of flags
    else leaf s' va = leaf s va.

Lemma maps_to_nothing flags lo phys s : maps_to flags lo lo phys s s.
Proof. split; [done|]. split; [done|]. intros va. destruct (Z.leb_spec lo (c48 va)), (Z.ltb_spec (c48 va) lo); try done. lia. Qed.

Lemma maps_to_trans flags lo mid hi phys s1 s2 s3 :
  lo ≤ mid ≤ hi → maps_to flags lo mid phys s1 s2 → maps_to flags mid hi (phys + (mid - lo)) s2 s3 →
  maps_to flags lo hi phys s1 s3.
Proof.
  intros Hlh (R1 & M1 & L1) (R2 & M2 & L2). split; [congruence|]. split; [congruence|].
  intros va. specialize (L1 va). specialize (L2 va).
  destruct (Z.leb_spec lo (c48 va)), (Z.ltb_spec (c48 va) mid), (Z.leb_spec mid (c48 va)), (Z.ltb_spec (c48 va) hi);
    cbn [andb] in *; try lia; try congruence.
  - destruct L1 as (d & e & El & Ep & Ef). exists d, e. split_and!; [congruence|done..].
  - destruct L2 as (d & e & El & Ep & Ef). exists d, e. split_and!; [congruence|lia|done].
Qed.

Lemma maps_to_opened flags lo hi phys s s' va D :
  maps_to flags lo hi phys s s' → ¬ (lo ≤ c48 va < hi) → opened s va D → opened s' va D.
Proof.
  intros (_ & _ & L) Hn Hop d e He. change (leaf s' va = Some (d, e)) in He. apply (Hop d e). change (leaf s va = Some (d, e)).
  specialize (L va). destruct (Z.leb_spec lo (c48 va)), (Z.ltb_spec (c48 va) hi); cbn [andb] in L; try lia; congruence.
Qed.

Lemma mapped_maps_to D flags fl lo hi phys s s' :
  (1 ≤ D ≤ 3)%nat → flags_at D flags fl → addr_of flags = 0 → lo mod 2 ^ shift_of D = 0 → phys mod 2 ^ shift_of D = 0 →
  0 ≤ phys → phys + (hi - lo) ≤ 2 ^ 40 → mapped D fl lo hi phys s s' → maps_to flags lo hi phys s s'.
Proof.
  intros HD Hf Ha Hlo Hph Hp0 Hphi (R & Mm & L). split; [done|]. split; [done|]. intros va. specialize (L va).
  pose proof (shift_range D ltac:(lia)) as Hsh. assert (0 < 2 ^ shift_of D) as Hpos by (apply Z.pow_pos_nonneg; lia).
  destruct (Z.leb_spec lo (c48 va)), (Z.ltb_spec (c48 va) hi); cbn [andb] in *; try done.
  eexists D, _. split; [exact L|]. set (q := 2 ^ shift_of D) in *.
  pose proof (Z.div_mod (c48 va - lo) q ltac:(lia)) as Hdm. pose proof (Z.mod_pos_bound (c48 va - lo) q ltac:(lia)) as Hmb.
  assert (0 ≤ (c48 va - lo) / q) by (apply Z.div_pos; lia).
  destruct (leaf_phys D flags fl (phys + (c48 va - lo) / q * q) va) as [Ep Ef]; try done; [|nia|].
  { fold q. by rewrite Z.mod_add by lia. }
  split; [|exact Ef]. rewrite Ep. fold q.
  assert (va mod q = (c48 va - lo) mod q) as ->; [|lia].
  rewrite <- Zminus_mod_idemp_r, Hlo, Z.sub_0_r. unfold c48, q.
  replace (2 ^ 48) with (2 ^ shift_of D * 2 ^ (48 - shift_of D)) by (rewrite <- Z.pow_add_r by lia; f_equal; lia).
  rewrite Z.rem_mul_r by lia. rewrite (Z.mul_comm (2 ^ shift_of D) (_ mod _)), Z.mod_add by lia. by rewrite Z.mod_mod by lia.
Qed.

Lemma map_physical_impl_spec phys lin len flags n s :
  paging_ok s → 0 ≤ phys → phys + len ≤ 2 ^ 40 → 0 ≤ len → c48 lin + len ≤ 2 ^ 48 →
  phys mod 4096 = 0 → c48 lin mod 4096 = 0 → len mod 4096 = 0 →
  addr_of flags = 0 → present flags = true →
  can_give (impl_cost phys lin len + n) (source s) →
  (∀ x, c48 lin ≤ c48 x < c48 lin + len → opened s x 3) →
  ∃ s', paging_map_physical_impl phys lin len flags s = Done (tt, s')
    ∧ paging_ok s' ∧ can_give n (source s') ∧ maps_to flags (c48 lin) (c48 lin + len) phys s s'.
Proof.
  intros Hok Hp0 Hphi Hlen Hhi Hpa Hla Hna Hfa Hfp Hg Hop.
  assert (0 ≤ c48 lin < 2 ^ 48) as Hc by (apply Z.mod_pos_bound; lia).
  destruct (infer_size_spec phys (c48 lin) len flags) as (D & fl & Ei & HD & Hfl & Hpm & Hlm & Hnm); try done; try lia.
  pose proof (shift_range D ltac:(lia)) as Hsh. assert (0 < 2 ^ shift_of D) as Hpos by (apply Z.pow_pos_nonneg; lia).
  unfold impl_cost in Hg. rewrite (infer_fst 2 30 _ _ _ 0 flags), Ei in Hg. cbn [fst] in Hg.
  replace (Z.to_nat ((39 - shift_of D) / 9)) with D in Hg
    by (unfold shift_of; replace (39 - (39 - 9 * Z.of_nat D)) with (Z.of_nat D * 9) by ring; rewrite Z.div_mul by lia; lia).
  unfold paging_map_physical_impl. rewrite c48_eq. change (Z.land flags PTE_ADDR) with (addr_of flags). rewrite Hfa.
  unfold pg_assert. run. rewrite Ei. run. unfold low_bits. rewrite !land_low_mask, Hpm, Hlm by lia. cbn [Z.eqb]. run.
  rewrite !Z.sub_0_r, !Z.add_0_r. rewrite !(u64_small (c48 lin)), (u64_small phys), (u64_small len) by lia.
  assert (round_up len (shift_of D) = len) as ->.
  { assert (2 ^ shift_of D ≤ 2 ^ 39) by (apply Z.pow_le_mono_r; lia).
    destruct (round_up_bounds len (shift_of D)) as [Hr1 Hr2]; [lia|lia|lia|].
    pose proof (multiple_step (round_up len (shift_of D)) len (shift_of D)). lia. }
  rewrite u64_small by lia. replace (c48 lin + len - c48 lin) with len by ring.
  assert (Z.of_nat (Z.to_nat (len / 2 ^ shift_of D)) * 2 ^ shift_of D = len) as Hpages.
  { rewrite Z2Nat.id by (apply Z.div_pos; lia). pose proof (Z.div_mod len (2 ^ shift_of D) ltac:(lia)). lia. }
  destruct (physical_loop_spec D fl (Z.to_nat (len / 2 ^ shift_of D)) (c48 lin) phys None n s) as (s' & E & Hok' & Hg' & Hm);
    rewrite ?Hpages; try done; try lia.
  - intros p. by eapply leaf_flags.
  - intros x Hx d e He. specialize (Hop x Hx d e He). lia.
  - exists s'. split_and!; try done. eapply mapped_maps_to; try done; [lia|]. by rewrite Hpages in Hm.
Qed.

(** Boundaries of runs: ascending multiples of the page size, up to [last] *)
Fixpoint ascending (st : Z) (l : list Z) (last : Z) : Prop :=
  match l with
  | [] => st = last
  | en :: l => st ≤ en ∧ en mod 4096 = 0 ∧ ascending en l last
  end.

Lemma ascending_le st l last : ascending st l last → st ≤ last.
Proof. revert st. induction l as [|en l IH]; intros st; cbn; [lia|]. intros (? & _ & ?%IH). lia. Qed.

(** The virtual address of the physical address [b] *)
Lemma virt_of phys lin b :
  0 ≤ c48 lin + (b - phys) < 2 ^ 48 → c48 (u64 (b + u64 (lin - phys))) = c48 lin + (b - phys).
Proof.
  intros Hr. unfold c48, u64. rewrite Zplus_mod_idemp_r.
  replace (2 ^ 64) with (2 ^ 48 * 2 ^ 16) by lia. rewrite Z.rem_mul_r by lia.
  rewrite Z.mul_comm, Z.mod_add, Z.mod_mod by lia.
  replace (b + (lin - phys)) with (lin + (b - phys)) by ring. rewrite <- Zplus_mod_idemp_l.
  by rewrite Z.mod_small by done.
Qed.

Lemma map_runs_spec phys lin flags n l st last s :
  let V b := c48 lin + (b - phys) in
  paging_ok s → ascending st l last → st mod 4096 = 0 → 0 ≤ st → last ≤ 2 ^ 40 → 0 ≤ V st → V last ≤ 2 ^ 48 →
  V st mod 4096 = 0 → addr_of flags = 0 → present flags = true →
  can_give (runs_cost (st :: l) (u64 (lin - phys)) + n) (source s) →
  (∀ x, V st ≤ c48 x < V last → opened s x 3) →
  ∃ s', map_runs (st :: l) (u64 (lin - phys)) flags s = Done (tt, s')
    ∧ paging_ok s' ∧ can_give n (source s') ∧ maps_to flags (V st) (V last) st s s'.
Proof.
  intros V. revert st s. induction l as [|en l IH]; intros st s Hok Hasc Hst Hst0 Hlast HV0 HVl HVa Hfa Hfp Hg Hop.
  { cbn in Hasc. subst. exists s. split_and!; try done. apply maps_to_nothing. }
  destruct Hasc as (Hle & Hen & Hasc). pose proof (ascending_le _ _ _ Hasc) as Hel.
  cbn [runs_cost] in Hg. rewrite <- Nat.add_assoc in Hg. set (rest := (runs_cost (en :: l) (u64 (lin - phys)) + n)%nat) in *.
  cbn [map_runs]. rewrite s64_small by lia. rewrite (u64_small (en - st)) by lia.
  assert (V en mod 4096 = 0) as HVe.
  { replace (V en) with (V st + (en - st)) by (unfold V; ring). rewrite Z.add_mod, HVa, Zminus_mod, Hst, Hen by lia. done. }
  assert (∃ s1, (if 0 <? en - st then paging_map_physical_impl st (u64 (st + u64 (lin - phys))) (en - st) flags else mret tt) s
            = Done (tt, s1) ∧ paging_ok s1 ∧ can_give rest (source s1) ∧ maps_to flags (V st) (V en) st s s1) as (s1 & E1 & Hok1 & Hg1 & Hm1).
  { destruct (Z.ltb_spec 0 (en - st)), (Z.ltb_spec st en); try lia.
    - assert (c48 (u64 (st + u64 (lin - phys))) = V st) as Ev by (apply virt_of; unfold V in *; lia).
      destruct (map_physical_impl_spec st (u64 (st + u64 (lin - phys))) (en - st) flags rest s) as (s1 & E1 & ? & ? & Hm);
        rewrite ?Ev; try done; try (unfold V in *; lia).
      + rewrite Zminus_mod, Hst, Hen by lia. done.
      + intros x Hx. apply Hop. unfold V in *. lia.
      + exists s1. split_and!; try done. rewrite Ev in Hm. by replace (V en) with (V st + (en - st)) by (unfold V; ring).
    - assert (en = st) as -> by lia. exists s. split_and!; try done. apply maps_to_nothing. }
  rewrite (bind_done _ _ _ _ _ E1).
  destruct (IH en s1) as (s' & E2 & Hok2 & Hg2 & Hm2); try done; try (unfold V in *; lia).
  { intros x Hx. eapply maps_to_opened; [exact Hm1|lia|]. apply Hop. unfold V in *. lia. }
  exists s'. split_and!; try done. eapply maps_to_trans; [|exact Hm1|]; [unfold V in *; lia|].
  by replace (st + (V en - V st)) with en by (unfold V; ring).
Qed.

(** The boundaries of paging_map_physical are ascending multiples of 4096. *)
Lemma map_boundaries_spec phys lin len :
  0 ≤ phys → 0 ≤ len → phys + len ≤ 2 ^ 40 →
  ∃ l, map_boundaries phys lin len = round_dn phys 12 :: l ∧ ascending (round_dn phys 12) l (round_up (phys + len) 12).
Proof.
  intros Hp Hl Hhi. unfold map_boundaries. rewrite (u64_small (phys + len)) by lia.
  set (A := round_dn phys 12). set (F := round_up (phys + len) 12).
  destruct (round_dn_bounds phys 12) as (HAm & HA0 & HA); [lia..|]. fold A in HAm, HA0, HA. change (2 ^ 12) with 4096 in *.
  destruct (round_up_bounds (phys + len) 12) as (HFm & HF); [lia..|]. fold F in HFm, HF. change (2 ^ 12) with 4096 in *.
  destruct (round_up_bounds A 21) as (HXm & HX); [lia..|]. destruct (round_dn_bounds F 21) as (HYm & HY0 & HY); [lia..|].
  set (X := round_up A 21) in *. set (Y := round_dn F 21) in *.
  destruct (round_up_bounds X 30) as (HXm' & HX'); [lia..|]. destruct (round_dn_bounds Y 30) as (HYm' & HY0' & HY'); [lia..|].
  set (X' := round_up X 30) in *. set (Y' := round_dn Y 30) in *.
  assert (∀ z, z mod 2 ^ 21 = 0 → z mod 4096 = 0) as H21 by (intros z; apply (mod_mod_pow2 z 12 21); lia).
  assert (∀ z, z mod 2 ^ 30 = 0 → z mod 4096 = 0) as H30 by (intros z; apply (mod_mod_pow2 z 12 30); lia).
  assert (∀ z, low_bits z 21 = low_bits z 30 mod 2 ^ 21) as Hlow.
  { intros z. unfold low_bits. rewrite !land_low_mask by lia. change (2 ^ 30) with (2 ^ 21 * 2 ^ 9).
    rewrite Z.rem_mul_r by lia. rewrite (Z.mul_comm (2 ^ 21)), Z.mod_add, Z.mod_mod by lia. done. }
  assert (low_bits phys 30 = low_bits lin 30 → low_bits phys 21 = low_bits lin 21) as Hlow' by (intros E; by rewrite !Hlow, E).
  assert (A ≤ F) as HAF by lia.
  destruct (Z.ltb_spec X Y), (Z.ltb_spec X' Y'), (Z.eqb_spec (low_bits phys 21) (low_bits lin 21)),
    (Z.eqb_spec (low_bits phys 30) (low_bits lin 30)); cbn [andb]; try tauto; try lia.
  all: eexists; split; [reflexivity|]; cbn [ascending]; split_and!; try done; try lia; auto.
Qed.

End thms.
