(* ===== verification/BootPagingRange.v ===== *)
(** * paging_map_range gives every page of a range memory of its own

    The two scans of paging_map_range: the first makes the tables and counts
    the pages that have no memory, the second asks the page factory for that
    much, in as many pieces as it takes, and hands the pages out. *)

From stdpp Require Import base tactics list numbers option.
From S2P Require Import Prelude Physmap BootPaging PageWalk BootPagingThms BootPagingMap.

#[local] Open Scope Z_scope.

(** What paging_map_range relies on in a page factory.  [stock n x]: it can
    come up with [n] pages, in pieces; the pages for tables are other ones. *)
Class PageFactoryLaws (S : Type) `{PageSourceLaws S} (allocator : page_factory_t S) := {
  stock : nat → S → Prop;
  stock_table : ∀ n x p x', stock n x → alloc_table_page x = Done (p, x') → stock n x';
  stock_alloc : ∀ n later addr x, stock (Datatypes.S n + later) x → ∃ base k x',
    allocator (4096 * Z.of_nat (Datatypes.S n)) addr x = Done (PhysAlloc base (4096 * Z.of_nat k), x')
    ∧ (0 < k ≤ Datatypes.S n)%nat ∧ base mod 4096 = 0 ∧ 0 < base ∧ base + 4096 * Z.of_nat k ≤ 2 ^ 40
    ∧ (∀ i, 0 ≤ i < Z.of_nat k → ¬ in_use x (base + 4096 * i) ∧ in_use x' (base + 4096 * i))
    ∧ (∀ q, in_use x q → in_use x' q) ∧ stock (Datatypes.S n - k + later) x';
  alloc_keeps : ∀ n size addr x p x', can_give n x → allocator size addr x = Done (p, x') → can_give n x'
}.

Section thms.
Context {S : Type} `{!PageSource S}.
Implicit Types s : paging S.

(** How many of [n] pages from [va] have no memory *)
Fixpoint missing (l : Z → option (nat * Z)) (va : Z) (n : nat) : nat :=
  match n with
  | O => 0
  | Datatypes.S n => ((match l va with None => 1 | Some _ => 0 end) + missing l (va + 4096) n)%nat
  end.

Lemma missing_le l va n : (missing l va n ≤ n)%nat.
Proof. revert va. induction n as [|n IH]; intros va; cbn; [lia|]. specialize (IH (va + 4096)). destruct (l va); lia. Qed.

Lemma missing_ext l l' va n :
  (∀ i, 0 ≤ i < Z.of_nat n → l (va + 4096 * i) = None ↔ l' (va + 4096 * i) = None) → missing l va n = missing l' va n.
Proof.
  revert va. induction n as [|n IH]; intros va Hl; [done|]. cbn. pose proof (Hl 0 ltac:(lia)) as H0.
  rewrite Z.mul_0_r, Z.add_0_r in H0. rewrite (IH (va + 4096)).
  - destruct (l va), (l' va); naive_solver.
  - intros i Hi. specialize (Hl (i + 1) ltac:(lia)). by replace (va + 4096 + 4096 * i) with (va + 4096 * (i + 1)) by ring.
Qed.

(** With a table at the last level, the walk ends at its entry. *)
Lemma leaf_last s va t :
  table s va 3 = Some t →
  leaf s va = if present (words s (t + 8 * slot_of va 3)) then Some (3%nat, words s (t + 8 * slot_of va 3)) else None.
Proof.
  intros Ht. set (e := words s (t + 8 * slot_of va 3)).
  assert (entry_at (words s) (root_page_dir s) va 3 = Some e) as He.
  { unfold entry_at. change (table_at _ _ va 3) with (table s va 3). by rewrite Ht. }
  assert (∀ d e', leaf s va = Some (d, e') → d = 3%nat ∧ e' = e ∧ present e = true) as Honly.
  { intros d e' (Hd & He' & Hl)%leaf_at_spec. destruct (decide (d = 3%nat)) as [->|].
    - rewrite He in He'. injection He' as <-. unfold is_leaf in Hl. by destruct (present e).
    - exfalso. rewrite (entry_blocks _ _ va d 3 e') in He; [done|lia|done|]. unfold is_leaf, next_table in *.
      destruct (Nat.eqb_spec d 3); [lia|]. destruct (present e'), (large e'); try done. by rewrite andb_false_r in Hl. }
  destruct (present e) eqn:Ep.
  - apply leaf_at_spec. split; [lia|]. split; [done|]. unfold is_leaf. by rewrite Ep.
  - destruct (leaf s va) as [[d e']|]; [|done]. by destruct (Honly d e' eq_refl) as (_ & _ & ?).
Qed.

Lemma land_present e : (Z.land e PTE_PRESENT =? 0) = negb (present e).
Proof.
  unfold PTE_PRESENT, present. change (2 ^ 0) with (Z.ones 1). rewrite Z.land_ones by lia.
  rewrite <- Z.bit0_mod. by destruct (Z.testbit e 0).
Qed.

Section scan.
Context `{!PageSourceLaws S}.

Lemma scan_loop_spec pages va needed pte n s :
  0 ≤ va → va + Z.of_nat pages * 4096 < 2 ^ 64 → va mod 4096 = 0 →
  0 ≤ needed → needed + 4096 * Z.of_nat pages < 2 ^ 64 →
  paging_ok s → ptr_ok s va 3 pte → can_give (tables_needed 3 pages va (is_none pte) + n) (source s) →
  (∀ i, 0 ≤ i < Z.of_nat pages → opened s (va + 4096 * i) 3) →
  ∃ s', scan_loop pages va needed pte s = Done (needed + 4096 * Z.of_nat (missing (leaf s) va pages), s')
    ∧ paging_ok s' ∧ can_give n (source s') ∧ grown s s'
    ∧ (∀ i, 0 ≤ i < Z.of_nat pages → is_Some (table s' (va + 4096 * i) 3)).
Proof.
  revert va needed pte s. induction pages as [|pages IH]; intros va needed pte s Hva Hhi Hal Hn0 Hn1 Hok Hptr Hg Hop.
  { exists s. cbn. rewrite Z.add_0_r. split_and!; try done. intros i Hi. lia. }
  rewrite Nat2Z.inj_succ, Z.mul_succ_l in *. cbn [scan_loop]. cbn [tables_needed] in Hg. rewrite <- Nat.add_assoc in Hg.
  change 21 with (shift_of 3 + 9). change 12 with (shift_of 3). change (2 ^ shift_of 3) with 4096 in Hg.
  assert (opened s va 3) as Hop0 by (replace va with (va + 4096 * 0) by ring; apply Hop; lia).
  destruct (get_pte 3 (tables_needed 3 pages (va + 4096) false + n) s va pte) as (t & s1 & E1 & Hok1 & Hg1 & Hgr & Ht1); try done.
  rewrite (bind_done _ _ _ _ _ E1). unfold load. run. rewrite land_present. unfold PAGE_SIZE.
  set (needed' := if negb (present (words s1 (t + 8 * slot_of va 3))) then u64 (needed + 4096) else needed).
  assert (needed' = needed + 4096 * (if leaf s va then 0 else 1)) as En.
  { unfold needed'. rewrite <- (g_leaf _ _ Hgr), (leaf_last _ _ _ Ht1). destruct (present _); cbn [negb]; [lia|]. unwrap. lia. }
  destruct (IH (va + 4096) needed' (next_pte (Some (t + 8 * slot_of va 3))) s1) as (s' & E2 & Hok2 & Hg2 & Hgr2 & Htab); try done.
  - lia.
  - lia.
  - rewrite <- (Z.mul_1_l 4096) at 1. by rewrite Z.mod_add by lia.
  - rewrite En. destruct (leaf s va); lia.
  - rewrite En. destruct (leaf s va); lia.
  - change 4096 with (2 ^ shift_of 3). apply ptr_next; try done. change (2 ^ shift_of 3) with 4096. lia.
  - intros i Hi. eapply grown_opened; [done|]. replace (va + 4096 + 4096 * i) with (va + 4096 * (i + 1)) by ring. apply Hop. lia.
  - exists s'. split_and!; try done; [|by etrans|].
    + rewrite E2, En. do 2 f_equal. rewrite (missing_ext (leaf s1) (leaf s)) by (intros; by rewrite (g_leaf _ _ Hgr)).
      cbn [missing]. destruct (leaf s va); lia.
    + intros i Hi. destruct (decide (i = 0)) as [->|].
      * rewrite Z.mul_0_r, Z.add_0_r. rewrite (g_table _ _ Hgr2 va 3%nat t ltac:(lia) Ht1). eauto.
      * replace (va + 4096 * i) with (va + 4096 + 4096 * (i - 1)) by ring. apply Htab. lia.
Qed.
End scan.

Lemma leaf_same_page s x y : c48 x / 4096 = c48 y / 4096 → leaf s x = leaf s y.
Proof.
  intros Hxy. assert (same_path 4 x y) as Hp by (by apply (same_path_page 3)).
  apply option_eq. intros [d e]. unfold leaf. rewrite !leaf_at_spec.
  split; intros (Hd & He & Hl); (split; [done|]); (split; [|done]); rewrite <- He;
    apply entry_at_path; (eapply same_path_le; [|done || by symmetry]); lia.
Qed.

Lemma c48_shift va i : 0 ≤ i → c48 va + i < 2 ^ 48 → c48 (va + i) = c48 va + i.
Proof.
  intros Hi Hlt. unfold c48 in *. rewrite <- Zplus_mod_idemp_l. apply Z.mod_small.
  pose proof (Z.mod_pos_bound va (2 ^ 48)). lia.
Qed.

Section assign.
Context `{!PageSourceLaws S} (allocator : page_factory_t S) `{!PageFactoryLaws S allocator}.
Context (flags : Z).
(** What is to be left for others: table pages and pages *)
Context (tables_later later : nat).

Lemma get_pte_lookup s va t pte :
  paging_ok s → table s va 3 = Some t → ptr_ok s va 3 pte →
  (if new_table pte va 21 then paging_find_pte va 12 false else mret pte) s = Done (Some (t + 8 * slot_of va 3), s).
Proof.
  intros Hok Ht Hptr. assert (opened s va 3) as Hop.
  { intros d e He. change (leaf s va = Some (d, e)) in He. rewrite (leaf_last s va t Ht) in He. by destruct (present _); [injection He as <- <-|]. }
  pose proof (find_lookup 3 s va ltac:(lia) Hok Hop) as Hf. rewrite Ht in Hf. change (shift_of 3) with 12 in *.
  destruct pte as [p|]; [|exact Hf]. cbn [new_table]. destruct (is_multiple va 21) eqn:Em; [exact Hf|].
  destruct (Hptr p eq_refl Em) as (t' & Ht' & ->). rewrite Ht in Ht'. by injection Ht' as <-.
Qed.

(** [k] pages from [base], in use, at hand *)
Definition at_hand (base : Z) (k : nat) (s : paging S) : Prop :=
  base mod 4096 = 0 ∧ 0 < base ∧ base + 4096 * Z.of_nat k ≤ 2 ^ 40 ∧
  ∀ i, 0 ≤ i < Z.of_nat k → in_use (source s) (base + 4096 * i).
Definition hand_page (base : Z) (k : nat) (q : Z) : Prop := ∃ i, 0 ≤ i < Z.of_nat k ∧ q = base + 4096 * i.

(** The allocation when the pages at hand have run out *)
Lemma refill m k base addr s :
  paging_ok s → (k ≤ Datatypes.S m)%nat → (k ≠ 0%nat → at_hand base k s) → stock (Datatypes.S m - k + later) (source s) →
  can_give tables_later (source s) → 4096 * Z.of_nat (Datatypes.S m) < 2 ^ 64 →
  ∃ base' k' s',
    (if psize (PhysAlloc base (4096 * Z.of_nat k)) =? 0 then
       got ← on_source (allocator (4096 * Z.of_nat (Datatypes.S m - k)) addr);
       pg_assert (psize got <=? 4096 * Z.of_nat (Datatypes.S m - k));;
       mret (u64 (4096 * Z.of_nat (Datatypes.S m - k) - psize got), got)
     else mret (4096 * Z.of_nat (Datatypes.S m - k), PhysAlloc base (4096 * Z.of_nat k))) s
      = Done ((4096 * Z.of_nat (Datatypes.S m - k'), PhysAlloc base' (4096 * Z.of_nat k')), s')
    ∧ (0 < k' ≤ Datatypes.S m)%nat ∧ at_hand base' k' s' ∧ stock (Datatypes.S m - k' + later) (source s') ∧ can_give tables_later (source s') ∧ paging_ok s'
    ∧ words s' = words s ∧ root_page_dir s' = root_page_dir s ∧ messages s' = messages s
    ∧ (∀ q, in_use (source s) q → in_use (source s') q)
    ∧ (∀ q, hand_page base' k' q → hand_page base k q ∨ ¬ in_use (source s) q).
Proof.
  intros Hok Hk Hh Hst Hcg Hlt. cbn [psize]. destruct (Z.eqb_spec (4096 * Z.of_nat k) 0) as [E|].
  - assert (k = 0%nat) as -> by lia. rewrite Nat.sub_0_r in *.
    destruct (stock_alloc m later addr (source s) Hst) as (b & k' & x & Ea & Hk' & Hal & Hb0 & Hb1 & Hnew & Hmono & Hst').
    exists b, k', (Paging (words s) (root_page_dir s) x (messages s)). split_and!; try done; try lia.
    + erewrite bind_done; [|unfold on_source; by rewrite Ea]. cbn [psize]. unfold pg_assert. run.
      rewrite (proj2 (Z.leb_le _ _)) by lia. rewrite u64_small by lia. by replace (4096 * Z.of_nat (Datatypes.S m) - 4096 * Z.of_nat k') with (4096 * Z.of_nat (Datatypes.S m - k')) by lia.
    + split_and!; try done. intros i Hi. by apply Hnew.
    + by eapply alloc_keeps.
    + unfold paging_ok. eapply tables_ok_weaken; [|exact Hok]. exact Hmono.
    + intros q (i & Hi & ->). right. by apply Hnew.
  - exists base, k, s. split_and!; try done; try lia; [|auto]. apply Hh. lia.
Qed.

(** Pages given out for the [pages] pages from [va] *)
Definition in_range (va : Z) (pages : nat) (x : Z) : Prop := c48 va ≤ c48 x < c48 va + 4096 * Z.of_nat pages.
#[local] Instance in_range_dec va pages x : Decision (in_range va pages x).
Proof. unfold in_range. apply _. Defined.

Definition filled (va : Z) (pages : nat) (pg : Z → Z) (s s' : paging S) : Prop :=
  root_page_dir s' = root_page_dir s ∧ messages s' = messages s ∧
  (∀ q, in_use (source s) q → in_use (source s') q) ∧
  ∀ x, leaf s' x =
    if decide (in_range va pages x ∧ leaf s x = None)
    then Some (3%nat, Z.lor (Z.lor (pg (c48 x / 4096)) flags) PTE_PRESENT) else leaf s x.

(** Each page given out is one of its own. *)
Definition own_pages (va : Z) (pages : nat) (pg : Z → Z) (fresh : Z → Prop) (s s' : paging S) : Prop :=
  (∀ x, in_range va pages x → leaf s x = None →
     let q := pg (c48 x / 4096) in q mod 4096 = 0 ∧ 0 < q < 2 ^ 40 ∧ fresh q ∧ in_use (source s') q) ∧
  (∀ x y, in_range va pages x → leaf s x = None → in_range va pages y → leaf s y = None →
     pg (c48 x / 4096) = pg (c48 y / 4096) → c48 x / 4096 = c48 y / 4096).

Lemma in_range_S va pages x :
  va mod 4096 = 0 → c48 va + 4096 * Z.of_nat (Datatypes.S pages) ≤ 2 ^ 48 →
  (in_range va (Datatypes.S pages) x ↔ c48 x / 4096 = c48 va / 4096 ∨ in_range (va + 4096) pages x)
  ∧ (c48 x / 4096 = c48 va / 4096 → ¬ in_range (va + 4096) pages x).
Proof.
  intros Hal Hhi. unfold in_range. assert (c48 va mod 4096 = 0) as Hc.
  { by rewrite c48_mod. }
  assert (c48 x / 4096 = c48 va / 4096 ↔ c48 va ≤ c48 x < c48 va + 4096) as ->.
  { pose proof (Z.div_mod (c48 x) 4096). pose proof (Z.div_mod (c48 va) 4096). pose proof (Z.mod_pos_bound (c48 x) 4096). lia. }
  destruct pages as [|pages]; [lia|]. rewrite c48_shift by lia. lia.
Qed.

Lemma c48_next va pages :
  (0 < pages)%nat → c48 va + 4096 * Z.of_nat (Datatypes.S pages) ≤ 2 ^ 48 → c48 (va + 4096) + 4096 * Z.of_nat pages ≤ 2 ^ 48.
Proof. intros Hp Hhi. rewrite c48_shift by lia. lia. Qed.

(** The page at [va] has memory already. *)
Lemma filled_skip va pages pg fresh s s' :
  va mod 4096 = 0 → c48 va + 4096 * Z.of_nat (Datatypes.S pages) ≤ 2 ^ 48 → leaf s va ≠ None →
  filled (va + 4096) pages pg s s' → own_pages (va + 4096) pages pg fresh s s' →
  filled va (Datatypes.S pages) pg s s' ∧ own_pages va (Datatypes.S pages) pg fresh s s'.
Proof.
  intros Hal Hhi Hl (R & M & U & L) [O1 O2].
  assert (∀ x, in_range va (Datatypes.S pages) x ∧ leaf s x = None ↔ in_range (va + 4096) pages x ∧ leaf s x = None) as Hr.
  { intros x. destruct (in_range_S va pages x Hal Hhi) as [-> _]. split; [|tauto]. intros [[Hx|] Hn]; [|done].
    by rewrite (leaf_same_page s x va Hx) in Hn. }
  split.
  - split_and!; try done. intros x. rewrite L. apply decide_ext. by rewrite Hr.
  - split; [intros x Hx Hn; apply O1; [by apply Hr|done]|]. intros x y Hx Hnx Hy Hny. apply O2; try done; by apply Hr.
Qed.

(** The page at [va] gets [base]; the rest gets others. *)
Lemma filled_cons va pages pg base fresh fresh2 s s2 s' :
  va mod 4096 = 0 → c48 va + 4096 * Z.of_nat (Datatypes.S pages) ≤ 2 ^ 48 → leaf s va = None →
  root_page_dir s2 = root_page_dir s → messages s2 = messages s → (∀ q, in_use (source s) q → in_use (source s2) q) →
  (∀ x, leaf s2 x = if decide (c48 x / 4096 = c48 va / 4096) then Some (3%nat, Z.lor (Z.lor base flags) PTE_PRESENT) else leaf s x) →
  base mod 4096 = 0 → 0 < base < 2 ^ 40 → fresh base → in_use (source s2) base → ¬ fresh2 base → (∀ q, fresh2 q → fresh q) →
  filled (va + 4096) pages pg s2 s' → own_pages (va + 4096) pages pg fresh2 s2 s' →
  ∃ pg', filled va (Datatypes.S pages) pg' s s' ∧ own_pages va (Datatypes.S pages) pg' fresh s s'.
Proof.
  intros Hal Hhi Hl R1 M1 U1 L1 Hb Hbr Hfb Hub Hnf Hff (R & M & U & L) [O1 O2].
  set (here := c48 va / 4096) in *. exists (λ i, if decide (i = here) then base else pg i).
  assert (∀ x, in_range va (Datatypes.S pages) x → leaf s x = None →
    c48 x / 4096 = here ∨ c48 x / 4096 ≠ here ∧ in_range (va + 4096) pages x ∧ leaf s2 x = None) as Hcase.
  { intros x Hx Hn. destruct (in_range_S va pages x Hal Hhi) as [Hr _]. apply Hr in Hx.
    destruct (decide (c48 x / 4096 = here)) as [|Hne]; [by left|right]. destruct Hx as [|Hx]; [done|]. by rewrite L1, decide_False. }
  split.
  - split; [congruence|]. split; [congruence|]. split; [auto|]. intros x. rewrite L, L1.
    destruct (in_range_S va pages x Hal Hhi) as [Hr Hnr]. fold here in Hr, Hnr.
    destruct (decide (c48 x / 4096 = here)) as [Hx|Hx].
    + rewrite decide_False by (intros [? _]; by apply Hnr). rewrite decide_True; [done|]. rewrite Hr. split; [by left|].
      by rewrite (leaf_same_page s x va Hx).
    + apply decide_ext. rewrite Hr. tauto.
  - split.
    + intros x Hx Hn. cbv zeta. destruct (Hcase x Hx Hn) as [E|(E & Hx' & Hn')].
      * rewrite decide_True by done. split_and!; try done; try lia. auto.
      * rewrite decide_False by done. destruct (O1 x Hx' Hn') as (?&?&?&?). auto.
    + intros x y Hx Hn Hy Hn'. destruct (Hcase x Hx Hn) as [E|(E & Hx' & Hxn)], (Hcase y Hy Hn') as [F|(F & Hy' & Hyn)].
      * congruence.
      * rewrite decide_True, decide_False by done. intros Eq. destruct (O1 y Hy' Hyn) as (_ & _ & Hf & _). by rewrite <- Eq in Hf.
      * rewrite decide_False, decide_True by done. intros Eq. destruct (O1 x Hx' Hxn) as (_ & _ & Hf & _). by rewrite Eq in Hf.
      * rewrite !decide_False by done. auto.
Qed.

Lemma hand_page_tail base k q : hand_page (base + 4096) (k - 1) q → hand_page base k q.
Proof. intros (i & Hi & ->). exists (i + 1). split; [lia|ring]. Qed.

Lemma at_hand_tail base k s s2 :
  at_hand base k s → source s2 = source s → (k - 1 ≠ 0)%nat → at_hand (base + 4096) (k - 1) s2.
Proof.
  intros (Ha & Hb0 & Hhi & Hu) Hs Hk. split; [by rewrite <- (Z.mul_1_l 4096) at 1; rewrite Z.mod_add by lia|].
  split; [lia|]. split; [lia|]. intros i Hi. rewrite Hs. replace (base + 4096 + 4096 * i) with (base + 4096 * (i + 1)) by ring. apply Hu. lia.
Qed.

Lemma assign_loop_spec pages va base k pte s :
  let m := missing (leaf s) va pages in
  0 ≤ va → va + Z.of_nat pages * 4096 < 2 ^ 64 → (pages ≠ 0%nat → c48 va + 4096 * Z.of_nat pages ≤ 2 ^ 48) → va mod 4096 = 0 →
  paging_ok s → ptr_ok s va 3 pte → (k ≤ m)%nat → (k ≠ 0%nat → at_hand base k s) → stock (m - k + later) (source s) → can_give tables_later (source s) →
  (∀ i, 0 ≤ i < Z.of_nat pages → is_Some (table s (va + 4096 * i) 3)) →
  ∃ alloc s' pg,
    assign_loop allocator flags pages va (4096 * Z.of_nat (m - k)) (PhysAlloc base (4096 * Z.of_nat k)) pte s = Done (alloc, s')
    ∧ psize alloc = 0 ∧ paging_ok s' ∧ stock later (source s') ∧ can_give tables_later (source s') ∧ filled va pages pg s s'
    ∧ own_pages va pages pg (λ q, hand_page base k q ∨ ¬ in_use (source s) q) s s'.
Proof.
  intros m Hva Hhi. revert va base k pte s m Hva Hhi. induction pages as [|pages IH]; intros va base k pte s m Hva Hhi Hc Hal Hok Hptr Hk Hh Hst Hcg Htab.
  { cbn in m, Hk. assert (k = 0%nat) as -> by lia. eexists _, s, (λ _, 0). split; [reflexivity|]. do 4 (split; [done|]).
    assert (∀ x, ¬ in_range va 0 x) as Hno by (unfold in_range; intros x; lia).
    split; [split_and!; try done; intros x; by rewrite decide_False by (intros [? _]; by eapply Hno)|].
    split; [intros x Hx; by apply Hno in Hx|intros x y Hx; by apply Hno in Hx]. }
  specialize (Hc ltac:(lia)). rewrite Nat2Z.inj_succ, Z.mul_succ_l in Hhi.
  assert (∀ i, 0 ≤ i < Z.of_nat pages → is_Some (table s (va + 4096 + 4096 * i) 3)) as Htab'.
  { intros i Hi. replace (va + 4096 + 4096 * i) with (va + 4096 * (i + 1)) by ring. apply Htab. lia. }
  assert ((va + 4096) mod 4096 = 0) as Hal' by (rewrite <- (Z.mul_1_l 4096) at 1; by rewrite Z.mod_add by lia).
  assert (pages ≠ 0%nat → c48 (va + 4096) + 4096 * Z.of_nat pages ≤ 2 ^ 48) as Hc' by (intros; apply c48_next; lia).
  destruct (Htab 0) as [t Ht]; [lia|]. rewrite Z.mul_0_r, Z.add_0_r in Ht. cbn [assign_loop].
  rewrite (bind_done _ _ _ _ _ (get_pte_lookup s va t pte Hok Ht Hptr)). unfold load. run. rewrite land_present, negb_involutive.
  pose proof (leaf_last s va t Ht) as Hleaf. destruct (present (words s (t + 8 * slot_of va 3))).
  - assert (m = missing (leaf s) (va + 4096) pages) as Em by (unfold m; cbn [missing]; by rewrite Hleaf). rewrite Em in *.
    destruct (IH (va + 4096) base k (next_pte (Some (t + 8 * slot_of va 3))) s) as (al & s' & pg & E & Hz & Hok' & Hst' & Hcg' & Hf & Ho); try done; try lia.
    { change 4096 with (2 ^ shift_of 3). apply ptr_next; try done. change (2 ^ shift_of 3) with 4096. lia. }
    exists al, s', pg. split; [exact E|]. do 4 (split; [done|]). apply filled_skip; try done. by rewrite Hleaf.
  - assert (m = Datatypes.S (missing (leaf s) (va + 4096) pages)) as Em by (unfold m; cbn [missing]; by rewrite Hleaf). rewrite Em in *.
    pose proof (missing_le (leaf s) (va + 4096) pages) as Hml. set (m' := missing (leaf s) (va + 4096) pages) in *.
    destruct (refill m' k base va s) as (b & k' & s1 & E1 & Hk' & Hh1 & Hst1 & Hcg1 & Hok1 & Hw1 & Hr1 & Hm1 & Hu1 & Hnew); try done; [lia|].
    rewrite (bind_done _ _ _ _ _ E1). cbn [pbase psize].
    assert (table s1 va 3 = Some t) as Ht1 by (unfold table; by rewrite Hw1, Hr1).
    destruct (map_one s1 va 3 t (Z.lor (Z.lor b flags) PTE_PRESENT)) as (s2 & E2 & Hok2 & Hs2 & Hr2 & Hm2 & Hl2 & Ht2); try done.
    { unfold is_leaf, present. rewrite !Z.lor_spec. change (Z.testbit PTE_PRESENT 0) with true. by rewrite !orb_true_r. }
    rewrite (bind_done _ _ _ _ _ E2). change (2 ^ shift_of 3) with 4096 in Hl2.
    assert (∀ x, leaf s1 x = leaf s x) as Hl1 by (intros; unfold leaf; by rewrite Hw1, Hr1).
    destruct Hh1 as (Hb1 & Hb2 & Hb3 & Hb4). unfold PAGE_SIZE. rewrite !u64_small by lia.
    replace (4096 * Z.of_nat k' - 4096) with (4096 * Z.of_nat (k' - 1)) by lia.
    replace (Datatypes.S m' - k')%nat with (m' - (k' - 1))%nat by lia.
    assert (missing (leaf s2) (va + 4096) pages = m') as Em2.
    { apply missing_ext. intros i Hi. rewrite Hl2, Hl1, decide_False; [done|].
      replace (va + 4096 + 4096 * i) with (va + 4096 * (i + 1)) by ring. rewrite c48_shift by lia.
      pose proof (Z.div_mod (c48 va) 4096). rewrite Z.mul_comm, Z.div_add by lia. lia. }
    destruct (IH (va + 4096) (b + 4096) (k' - 1)%nat (next_pte (Some (t + 8 * slot_of va 3))) s2) as (al & s' & pg & E & Hz & Hok' & Hst' & Hcg' & Hf & Ho);
      rewrite ?Em2; try done; try lia.
    + change 4096 with (2 ^ shift_of 3). apply ptr_next; try done; [|by rewrite Ht2]. change (2 ^ shift_of 3) with 4096. lia.
    + intros Hk1. apply (at_hand_tail b k' s1); [by split_and!|done|done].
    + rewrite Hs2. by replace (m' - (k' - 1))%nat with (Datatypes.S m' - k')%nat by lia.
    + by rewrite Hs2.
    + intros i Hi. rewrite Ht2 by lia. unfold table. rewrite Hw1, Hr1. by apply Htab'.
    + rewrite Em2 in E. destruct (filled_cons va pages pg b (λ q, hand_page base k q ∨ ¬ in_use (source s) q)
        (λ q, hand_page (b + 4096) (k' - 1) q ∨ ¬ in_use (source s2) q) s s2 s') as (pg' & Hf' & Ho'); try done.
      * congruence.
      * congruence.
      * intros q. rewrite Hs2. auto.
      * intros x. rewrite Hl2. by rewrite Hl1.
      * lia.
      * apply Hnew. exists 0. split; [lia|ring].
      * rewrite Hs2. replace b with (b + 4096 * 0) by ring. apply Hb4. lia.
      * intros [(i & Hi & E0)|Hn]; [lia|]. apply Hn. rewrite Hs2. replace b with (b + 4096 * 0) by ring. apply Hb4. lia.
      * intros q [Hq|Hq]; [by apply Hnew, hand_page_tail|]. right. intros Hq'. apply Hq. rewrite Hs2. auto.
      * exists al, s', pg'. by do 5 (split; [done|]).
Qed.

(** The scan for tables leaves the stock alone. *)
Definition stocked_laws (n : nat) : PageSourceLaws S.
Proof.
  refine {| in_use := in_use; can_give := λ m x, can_give m x ∧ stock n x |}.
  - intros a b x Hab [Hg Hst]. split; [by eapply can_give_less|done].
  - intros m x [Hg Hst]. destruct (give_page m x Hg) as (p & x' & E & Ha & Hr & Hf & Hu & Hk & Hg').
    exists p, x'. split_and!; try done; try lia. by eapply stock_table.
Defined.

Lemma map_range_spec lin len s :
  let pages := Z.to_nat ((len + 4095) / 4096) in
  paging_ok s → lin mod 4096 = 0 → 0 ≤ lin → 0 ≤ len →
  lin + 4096 * Z.of_nat pages < 2 ^ 64 → c48 lin + 4096 * Z.of_nat pages ≤ 2 ^ 48 →
  can_give (tables_needed 3 pages lin true + tables_later) (source s) → stock (missing (leaf s) lin pages + later) (source s) →
  (∀ x, in_range lin pages x → opened s x 3) →
  ∃ s' pg, paging_map_range allocator lin len flags s = Done (tt, s') ∧ paging_ok s'
    ∧ stock later (source s') ∧ can_give tables_later (source s')
    ∧ filled lin pages pg s s' ∧ own_pages lin pages pg (λ q, ¬ in_use (source s) q) s s'.
Proof.
  intros pages Hok Hal Hl0 Hn0 Hhi Hc Hg Hst Hop.
  assert (Z.of_nat pages = (len + 4095) / 4096) as Hp by (unfold pages; rewrite Z2Nat.id by (apply Z.div_pos; lia); done).
  pose proof (Z.div_mod (len + 4095) 4096) as Hdm. pose proof (Z.mod_pos_bound (len + 4095) 4096) as Hmb.
  unfold paging_map_range. unfold PAGE_MASK, PAGE_SIZE. change 4095 with (2 ^ 12 - 1). rewrite land_low_mask by lia.
  change (2 ^ 12) with 4096. rewrite Hal, Z.eqb_refl, Z.sub_0_r, Z.add_0_r. unfold pg_assert. run.
  rewrite (u64_small lin), (u64_small len), (u64_small (len + (4096 - 1))) by lia.
  rewrite round_dn_eq by lia. change (2 ^ 12) with 4096. change (4096 - 1) with 4095. rewrite <- Hp, u64_small by lia.
  replace (lin + 4096 * Z.of_nat pages - lin) with (Z.of_nat pages * 4096) by ring. rewrite Z.div_mul, Nat2Z.id by lia.
  destruct (scan_loop_spec (PageSourceLaws0 := stocked_laws (missing (leaf s) lin pages + later)) pages lin 0 None tables_later s) as (s1 & E1 & Hok1 & [Hcg1 Hst1] & Hgr & Htab);
    try done; try lia.
  { intros i Hi. apply Hop. unfold in_range. rewrite c48_shift by lia. lia. }
  rewrite (bind_done _ _ _ _ _ E1), Z.add_0_l. assert (∀ x, leaf s1 x = leaf s x) as Hl1 by apply Hgr.
  assert (missing (leaf s1) lin pages = missing (leaf s) lin pages) as Em by (apply missing_ext; intros; by rewrite Hl1).
  destruct (assign_loop_spec pages lin 0 0 None s1) as (al & s' & pg & E2 & Hz & Hok2 & Hst2 & Hcg2 & (R & M & U & L) & [O1 O2]); try done; try lia.
  { by rewrite Em, Nat.sub_0_r. }
  rewrite Em, Nat.sub_0_r in E2. change (4096 * Z.of_nat 0) with 0 in E2. rewrite (bind_done _ _ _ _ _ E2), Hz.
  assert (filled lin pages pg s s') as Hfill.
  { split; [rewrite R; apply Hgr|]. split; [rewrite M; apply Hgr|]. split; [intros q Hq; apply U; by apply (g_use (H0 := stocked_laws (missing (leaf s) lin pages + later)) _ _ Hgr)|].
    intros x. rewrite L. by rewrite Hl1. }
  assert (own_pages lin pages pg (λ q, ¬ in_use (source s) q) s s') as Hown.
  { split; [intros x Hx Hn|intros x y Hx Hn Hy Hn'; rewrite <- Hl1 in Hn; rewrite <- Hl1 in Hn'; auto].
    rewrite <- Hl1 in Hn. destruct (O1 x Hx Hn) as (? & ? & [(i & Hi & _)|Hf] & ?); [lia|]. split_and!; try done; try lia.
    intros Hq. apply Hf. by apply (g_use (H0 := stocked_laws (missing (leaf s) lin pages + later)) _ _ Hgr). }
  by exists s', pg.
Qed.

(** The address and the flags of an entry of paging_map_range *)
Lemma range_entry q x :
  addr_of flags = 0 → q mod 4096 = 0 → 0 < q < 2 ^ 40 →
  phys_of 3 (Z.lor (Z.lor q flags) PTE_PRESENT) x = q + x mod 4096
  ∧ flags_of (Z.lor (Z.lor q flags) PTE_PRESENT) = flags_of (Z.lor flags PTE_PRESENT).
Proof.
  intros Hfa Hq1 Hq2. rewrite <- Z.lor_assoc.
  apply (leaf_phys 3 (Z.lor flags PTE_PRESENT)); try done; [lia|by left| |lia].
  unfold addr_of in *. by rewrite Z.land_lor_distr_l, Hfa.
Qed.

(** The range is translated through pages of its own after paging_map_range. *)
Lemma filled_translate lin pages pg fresh s s' x :
  addr_of flags = 0 → filled lin pages pg s s' → own_pages lin pages pg fresh s s' →
  in_range lin pages x → leaf s x = None →
  translate (words s') (root_page_dir s') x = Some (pg (c48 x / 4096) + x mod 4096).
Proof.
  intros Hfa (_ & _ & _ & L) [O1 _] Hx Hn. destruct (O1 x Hx Hn) as (Hq1 & Hq2 & _). unfold translate.
  change (leaf_at _ _ x) with (leaf s' x). rewrite L, decide_True by done. cbn. f_equal. by apply range_entry.
Qed.

(** No two addresses of it share memory. *)
Lemma filled_inj lin pages pg fresh s s' x y a :
  addr_of flags = 0 → filled lin pages pg s s' → own_pages lin pages pg fresh s s' →
  in_range lin pages x → leaf s x = None → in_range lin pages y → leaf s y = None →
  translate (words s') (root_page_dir s') x = Some a → translate (words s') (root_page_dir s') y = Some a → c48 x = c48 y.
Proof.
  intros Hfa Hf Ho Hx Hn Hy Hn' Ex Ey. pose proof (λ z, filled_translate lin pages pg fresh s s' z Hfa Hf Ho) as Ht.
  destruct Ho as [O1 O2]. rewrite Ht in Ex, Ey by done. rewrite <- Ey in Ex. injection Ex as Eq.
  destruct (O1 x Hx Hn) as (Hqx & _). destruct (O1 y Hy Hn') as (Hqy & _).
  assert (pg (c48 x / 4096) = pg (c48 y / 4096) ∧ x mod 4096 = y mod 4096) as [E1 E2].
  { pose proof (Z.div_mod (pg (c48 x / 4096)) 4096). pose proof (Z.div_mod (pg (c48 y / 4096)) 4096).
    pose proof (Z.mod_pos_bound x 4096). pose proof (Z.mod_pos_bound y 4096). lia. }
  pose proof (O2 x y Hx Hn Hy Hn' E1). pose proof (c48_mod x). pose proof (c48_mod y).
  pose proof (Z.div_mod (c48 x) 4096). pose proof (Z.div_mod (c48 y) 4096). lia.
Qed.

End assign.
End thms.
