(* ===== verification/BootIovec.v ===== *)
(** * boot/paging.cc: physical pieces of a virtual range

    paging_iovec turns a virtual range into a list of physical pieces for the
    disk; paging_iovec_read reads a file into them; and
    paging_access_virtual_memory copies page by page.  The theorem: byte for
    byte the pieces are where the processor translates the range to. *)

From stdpp Require Import base tactics list numbers option.
From S2P Require Import Prelude Physmap BootPaging PageWalk BootPagingThms BootPagingMap BootPagingRange.

#[local] Open Scope Z_scope.

(** struct iovec_t *)
Record iovec_t := Iovec { iov_base : Z; iov_size : Z }.
Definition iov_end (v : iovec_t) : Z := u64 (iov_base v + iov_size v).
Definition iov_grow (n : Z) (v : iovec_t) : iovec_t := Iovec (iov_base v) (u64 (iov_size v + n)).

(** What the loop does with a chunk: join it to the last piece, in part or
    whole, or add a piece.  With the new pieces goes the value [chunk] has
    afterwards, which the partial case changes. *)
Definition add_chunk (max_chunk paddr chunk : Z) (vec : list iovec_t) : list iovec_t * Z :=
  match last vec with
  | None => (vec ++ [Iovec paddr chunk], chunk)
  | Some prev =>
      if iov_end prev =? paddr then
        let max_coalesce := u64 (max_chunk - iov_size prev) in
        if chunk <=? max_coalesce then (removelast vec ++ [iov_grow chunk prev], chunk)
        else if 0 <? max_coalesce then
          (removelast vec ++ [iov_grow max_coalesce prev; Iovec (u64 (paddr + max_coalesce)) (u64 (chunk - max_coalesce))],
           u64 (max_chunk - chunk))
        else (vec ++ [Iovec paddr chunk], chunk)
      else (vec ++ [Iovec paddr chunk], chunk)
  end.

Section ops.
Context {S : Type} `{PageSource S}.
Abbreviation PG := (M (paging S)).
(** Whether malloc or realloc of that many bytes succeeds *)
Context (heap_grants : Z → bool).

(** Room for one more entry in the array *)
Definition iovec_room (count capacity : Z) : PG Z :=
  if capacity <? count + 1 then
    if heap_grants (16 * (2 * capacity)) then mret (2 * capacity) else throw Panicked
  else mret capacity.

Fixpoint iovec_loop (fuel : nat) (vaddr size max_chunk misalignment offset capacity : Z)
    (pte : option Z) (vec : list iovec_t) : PG (list iovec_t) :=
  match fuel with
  | O => throw OutOfFuel
  | Datatypes.S fuel =>
      if offset <? size then
        pte ← (if new_table pte vaddr 21 then paging_find_pte vaddr 12 false else mret pte);
        match pte with
        | None => throw Panicked
        | Some p =>
            capacity ← iovec_room (Z.of_nat (length vec)) capacity;
            e ← load p;
            let paddr := u64 (Z.land e PTE_ADDR + misalignment) in
            let chunk := u64 (PAGE_SIZE - misalignment) in
            let chunk := if max_chunk <? chunk then max_chunk else chunk in
            let chunk := if size <? u64 (offset + chunk) then u64 (size - offset) else chunk in
            let '(vec, chunk) := add_chunk max_chunk paddr chunk vec in
            iovec_loop fuel (u64 (vaddr + chunk)) size max_chunk 0 (u64 (offset + chunk)) capacity (next_pte pte) vec
        end
      else
        pg_assert (offset =? size);;
        mret vec
  end.

Definition paging_iovec (fuel : nat) (vaddr size max_chunk : Z) : PG (list iovec_t) :=
  if heap_grants (16 * 16)
  then iovec_loop fuel vaddr size max_chunk (Z.land vaddr PAGE_MASK) 0 16 None []
  else throw Panicked.

(** A read of [iov_size] bytes of the file, from [from], to physical memory *)
Record pread_t := Pread { pr_to : iovec_t; pr_from : Z }.

(** boot_pread: how many bytes of a read arrive *)
Context (boot_pread : pread_t → Z).

Fixpoint read_pieces (vec : list iovec_t) (file_offset offset : Z) : PG (list pread_t * Z) :=
  match vec with
  | [] => mret ([], offset)
  | v :: vec =>
      let r := Pread v (u64 (file_offset + offset)) in
      if negb (boot_pread r =? iov_size v) then throw Panicked
      else
        '(rs, offset) ← read_pieces vec file_offset (u64 (offset + iov_size v));
        mret (r :: rs, offset)
  end.

Fixpoint iovec_read_loop (rounds fuel : nat) (file_offset vaddr size max_chunk offset : Z) : PG (list pread_t * Z) :=
  match rounds with
  | O => throw OutOfFuel
  | Datatypes.S rounds =>
      if offset <? size then
        vec ← paging_iovec fuel (u64 (vaddr + offset)) (u64 (size - offset)) max_chunk;
        '(rs, offset) ← read_pieces vec file_offset offset;
        '(rs', offset) ← iovec_read_loop rounds fuel file_offset vaddr size max_chunk offset;
        mret (rs ++ rs', offset)
      else mret ([], offset)
  end.
Definition paging_iovec_read (fuel : nat) (file_offset vaddr size max_chunk : Z) : PG (list pread_t * Z) :=
  iovec_read_loop fuel fuel file_offset vaddr size max_chunk 0.

(** paging_access_virtual_memory: the copies it makes, and whether it got to
    the end.  Each copy is a physical address, an offset in [data] and a
    length. *)
Fixpoint access_loop (fuel : nat) (vaddr data data_sz : Z) : PG (bool * list (Z * Z * Z)) :=
  match fuel with
  | O => throw OutOfFuel
  | Datatypes.S fuel =>
      if data_sz =? 0 then mret (true, [])
      else
        spot_physaddr ← paging_physaddr_of vaddr;
        if spot_physaddr =? u64 (-1) then mret (false, [])
        else
          let spot_pageend := Z.land (u64 (spot_physaddr + PAGE_SIZE)) (u64 (- PAGE_SIZE)) in
          let spot_space := u64 (spot_pageend - spot_physaddr) in
          let spot_space := if spot_space <=? data_sz then spot_space else data_sz in
          '(ok, rest) ← access_loop fuel (u64 (vaddr + spot_space)) (data + spot_space) (u64 (data_sz - spot_space));
          mret (ok, (spot_physaddr, data, spot_space) :: rest)
  end.
Definition paging_access_virtual_memory (fuel : nat) (vaddr data_sz : Z) : PG (bool * list (Z * Z * Z)) :=
  access_loop fuel vaddr 0 data_sz.
End ops.

(** ** The pieces as a sequence of bytes *)

Fixpoint total (vec : list iovec_t) : Z :=
  match vec with [] => 0 | v :: vec => iov_size v + total vec end.
(** The physical address of byte [k] *)
Fixpoint byte_at (vec : list iovec_t) (k : Z) : option Z :=
  match vec with
  | [] => None
  | v :: vec => if k <? iov_size v then Some (iov_base v + k) else byte_at vec (k - iov_size v)
  end.
Definition piece_ok (v : iovec_t) : Prop := 0 ≤ iov_base v ∧ 0 < iov_size v ∧ iov_base v + iov_size v < 2 ^ 64.

Lemma total_pieces_app a b : total (a ++ b) = total a + total b.
Proof. induction a as [|v a IH]; cbn; lia. Qed.

Lemma total_nonneg a : Forall piece_ok a → 0 ≤ total a.
Proof. induction 1 as [|v a (_ & ? & _) _ IH]; cbn; lia. Qed.

Lemma byte_at_app a b k :
  Forall piece_ok a → 0 ≤ k → byte_at (a ++ b) k = if k <? total a then byte_at a k else byte_at b (k - total a).
Proof.
  intros Ha. revert k. induction Ha as [|v a Hv Ha IH]; intros k Hk.
  { cbn. destruct (Z.ltb_spec k 0); [lia|]. by rewrite Z.sub_0_r. }
  cbn. destruct Hv as (_ & Hs & _). pose proof (total_nonneg a Ha). destruct (Z.ltb_spec k (iov_size v)).
  - destruct (Z.ltb_spec k (iov_size v + total a)); [done|lia].
  - rewrite IH by lia. destruct (Z.ltb_spec (k - iov_size v) (total a)), (Z.ltb_spec k (iov_size v + total a)); try lia; [done|].
    f_equal. ring.
Qed.

(** While all pieces together stay within one maximal chunk, a chunk is added
    whole. *)
Lemma add_chunk_spec max_chunk paddr chunk vec :
  Forall piece_ok vec → total vec + chunk ≤ max_chunk < 2 ^ 64 → 0 < chunk → 0 ≤ paddr → paddr + chunk < 2 ^ 64 →
  ∃ vec', add_chunk max_chunk paddr chunk vec = (vec', chunk) ∧ Forall piece_ok vec' ∧ total vec' = total vec + chunk
    ∧ ∀ k, 0 ≤ k → byte_at vec' k =
        if k <? total vec then byte_at vec k else if k <? total vec + chunk then Some (paddr + (k - total vec)) else None.
Proof.
  intros Hv Ht Hc Hp0 Hp1.
  assert (∃ vec', vec ++ [Iovec paddr chunk] = vec' ∧ Forall piece_ok vec' ∧ total vec' = total vec + chunk
    ∧ ∀ k, 0 ≤ k → byte_at vec' k =
        if k <? total vec then byte_at vec k else if k <? total vec + chunk then Some (paddr + (k - total vec)) else None) as (new & <- & Hnew).
  { eexists. split; [reflexivity|]. split; [apply Forall_app; split; [done|]; by constructor|].
    split; [rewrite total_pieces_app; cbn; lia|]. intros k Hk. rewrite byte_at_app by done. cbn.
    destruct (Z.ltb_spec k (total vec)), (Z.ltb_spec (k - total vec) chunk), (Z.ltb_spec k (total vec + chunk)); try lia; done. }
  unfold add_chunk. destruct vec as [|prev rest _] using rev_ind; [eexists; split; [reflexivity|exact Hnew]|].
  rewrite last_snoc, removelast_last. apply Forall_app in Hv as [Hr Hprev]. apply Forall_cons in Hprev as [(Hb & Hs & Hbs) _].
  pose proof (total_nonneg rest Hr). assert (total (rest ++ [prev]) = total rest + (iov_size prev + 0)) as Et by (by rewrite total_pieces_app).
  rewrite Et in *.
  unfold iov_end. rewrite u64_small by lia. destruct (Z.eqb_spec (iov_base prev + iov_size prev) paddr) as [Eq|]; [|eexists; split; [reflexivity|exact Hnew]].
  rewrite u64_small by lia. rewrite (proj2 (Z.leb_le _ _)) by lia. eexists. split; [reflexivity|]. unfold iov_grow. rewrite u64_small by lia.
  split; [apply Forall_app; split; [done|]; constructor; [|done]; split; cbn; lia|]. split; [rewrite total_pieces_app; cbn; lia|].
  intros k Hk. rewrite !byte_at_app by done. cbn [byte_at iov_size iov_base].
  destruct (Z.ltb_spec k (total rest)), (Z.ltb_spec k (total rest + (iov_size prev + 0))), (Z.ltb_spec (k - total rest) (iov_size prev)),
    (Z.ltb_spec (k - total rest) (iov_size prev + chunk)), (Z.ltb_spec k (total rest + (iov_size prev + 0) + chunk)); try lia; try done.
  f_equal. lia.
Qed.

Section thms.
Context {S : Type} `{!PageSource S, !PageSourceLaws S}.
Context (heap_grants : Z → bool) (Hheap : ∀ n, heap_grants n = true).
Implicit Types s : paging S.

(** [size] bytes from [vaddr] are mapped by small pages. *)
Definition mapped_small (s : paging S) (vaddr size : Z) : Prop :=
  ∀ k, 0 ≤ k < size → ∃ e, leaf s (vaddr + k) = Some (3%nat, e).

(** The physical address of a mapped byte *)
Definition phys_at (s : paging S) (va : Z) : option Z := translate (words s) (root_page_dir s) va.

Lemma leaf_entry s va e :
  leaf s va = Some (3%nat, e) →
  ∃ t, table s va 3 = Some t ∧ words s (t + 8 * slot_of va 3) = e ∧ phys_at s va = Some (addr_of e + va mod 4096).
Proof.
  intros Hl. pose proof Hl as (_ & He & _)%leaf_at_spec. unfold entry_at in He.
  change (table_at _ _ va 3) with (table s va 3) in He. destruct (table s va 3) as [t|] eqn:Et; [|done].
  exists t. split; [done|]. split; [by injection He|]. unfold phys_at, translate. change (leaf_at _ _ va) with (leaf s va).
  rewrite Hl. cbn. f_equal. unfold phys_of. change (2 ^ shift_of 3) with 4096. f_equal. rewrite addr_of_eq. change (2 ^ 12) with 4096. by rewrite Z.div_mul.
Qed.

Lemma addr_of_range e : 0 ≤ addr_of e < 2 ^ 40 ∧ addr_of e mod 4096 = 0.
Proof. rewrite addr_of_eq. change (2 ^ 12) with 4096. rewrite Z.mod_mul by lia. pose proof (Z.mod_pos_bound (e / 4096) (2 ^ 28)). lia. Qed.

(** The entry of the next page, from anywhere in a page *)
Lemma ptr_next_page s va t :
  0 ≤ va → va + 4096 < 2 ^ 64 → table s va 3 = Some t → ptr_ok s (va - va mod 4096 + 4096) 3 (next_pte (Some (t + 8 * slot_of va 3))).
Proof.
  intros H0 Hhi Ht. pose proof (Z.mod_pos_bound va 4096 ltac:(lia)). pose proof (Z.div_mod va 4096 ltac:(lia)) as Hdm.
  set (b := va - va mod 4096).
  assert (b mod 4096 = 0) as Hb by (unfold b; replace (va - va mod 4096) with (va / 4096 * 4096) by lia; apply Z.mod_mul; lia).
  assert (va / 4096 = b / 4096) as Hq.
  { unfold b. replace (va - va mod 4096) with (va / 4096 * 4096) by lia. by rewrite Z.div_mul. }
  assert (slot_of va 3 = slot_of b 3) as -> by (unfold slot_of; change (2 ^ shift_of 3) with 4096; by rewrite Hq).
  assert (table s b 3 = Some t) as Htb.
  { rewrite <- Ht. unfold table. apply table_at_path, same_path_div; [lia|]. rewrite !Z.pow_add_r, <- !Z.div_div by (unfold shift_of; lia).
    change (2 ^ shift_of 3) with 4096. by rewrite Hq. }
  change 4096 with (2 ^ shift_of 3). apply ptr_next; try done; change (2 ^ shift_of 3) with 4096; unfold b in *; lia.
Qed.

(** A page: from [va] to its end, or for as long as the range lasts *)
Lemma phys_at_page s va e k :
  leaf s va = Some (3%nat, e) → 0 ≤ k → va mod 4096 + k < 4096 → 0 ≤ va → c48 va + k < 2 ^ 48 →
  phys_at s (va + k) = Some (addr_of e + va mod 4096 + k).
Proof.
  intros Hl Hk Hlt H0 Hc. assert ((va + k) mod 4096 = va mod 4096 + k) as Hm.
  { pose proof (Z.div_mod va 4096 ltac:(lia)). symmetry. apply (Z.mod_unique _ _ (va / 4096)); [left; pose proof (Z.mod_pos_bound va 4096); lia|lia]. }
  assert (leaf s (va + k) = Some (3%nat, e)) as Hl'.
  { rewrite <- Hl. apply leaf_same_page. rewrite c48_shift by done. pose proof (c48_mod va). pose proof (Z.div_mod (c48 va) 4096 ltac:(lia)).
    symmetry. apply (Z.div_unique _ _ _ (va mod 4096 + k)); [left; pose proof (Z.mod_pos_bound va 4096); lia|lia]. }
  destruct (leaf_entry s _ e Hl') as (t & _ & _ & ->). f_equal. lia.
Qed.

Lemma iovec_loop_spec s vaddr size max_chunk fuel offset capacity pte vec :
  paging_ok s → 0 ≤ vaddr → vaddr + size + 4096 < 2 ^ 64 → c48 vaddr + size ≤ 2 ^ 48 → mapped_small s vaddr size →
  size ≤ max_chunk < 2 ^ 64 → 0 ≤ offset ≤ size →
  Forall piece_ok vec → total vec = offset → (∀ k, 0 ≤ k < offset → byte_at vec k = phys_at s (vaddr + k)) →
  (pte = None ∨ offset = size ∨ ptr_ok s (vaddr + offset) 3 pte) →
  size - offset + (vaddr + offset) mod 4096 ≤ 4096 * Z.of_nat fuel →
  ∃ vec', iovec_loop heap_grants (Datatypes.S fuel) (vaddr + offset) size max_chunk ((vaddr + offset) mod 4096) offset capacity pte vec s
            = Done (vec', s)
    ∧ Forall piece_ok vec' ∧ total vec' = size ∧ (∀ k, 0 ≤ k < size → byte_at vec' k = phys_at s (vaddr + k)).
Proof.
  intros Hok Hv0 Hv1 Hc Hmap Hmax. revert offset capacity pte vec. induction fuel as [|fuel IH]; intros offset capacity pte vec Hof Hvec Htot Hby Hptr Hf.
  2: set (rest := Datatypes.S fuel).
  all: cbn [iovec_loop]; pose proof (Z.mod_pos_bound (vaddr + offset) 4096 ltac:(lia)) as Hmis.
  all: destruct (Z.ltb_spec offset size) as [Hlt|Hge]; [|assert (offset = size) as -> by lia; unfold pg_assert; rewrite Z.eqb_refl; eexists; split_and!; done].
  { lia. }
  set (va := vaddr + offset) in *. set (mis := va mod 4096) in *.
  assert (va = vaddr + offset) as Eva by done. assert (va mod 4096 = mis) as Emis by done.
  destruct (Hmap offset ltac:(lia)) as [e He]. fold va in He. destruct (leaf_entry s va e He) as (t & Ht & Hw & _).
  assert (ptr_ok s va 3 pte) as Hptr' by (destruct Hptr as [->|[|]]; [intros p Hp; done|lia|done]).
  rewrite (bind_done _ _ _ _ _ (get_pte_lookup s va t pte Hok Ht Hptr')).
  assert (∃ cap', iovec_room heap_grants (Z.of_nat (length vec)) capacity s = Done (cap', s)) as (cap' & Ecap).
  { unfold iovec_room. destruct (_ <? _); rewrite ?Hheap; by eexists. }
  rewrite (bind_done _ _ _ _ _ Ecap). unfold load. run. rewrite Hw. change (Z.land e PTE_ADDR) with (addr_of e).
  destruct (addr_of_range e) as [Har Ham]. unfold PAGE_SIZE. rewrite (u64_small (4096 - mis)), (u64_small (addr_of e + mis)) by lia.
  set (chunk := if size <? u64 (offset + (if max_chunk <? 4096 - mis then max_chunk else 4096 - mis)) then u64 (size - offset)
    else if max_chunk <? 4096 - mis then max_chunk else 4096 - mis).
  assert (0 < chunk ≤ 4096 - mis ∧ chunk ≤ size - offset ∧ (chunk = 4096 - mis ∨ chunk = size - offset)) as (Hch1 & Hch2 & Hch3).
  { unfold chunk. destruct (Z.ltb_spec max_chunk (4096 - mis)); rewrite !u64_small by lia;
      match goal with |- context [size <? ?z] => destruct (Z.ltb_spec size z) end; lia. }
  destruct (add_chunk_spec max_chunk (addr_of e + mis) chunk vec) as (vec' & Eadd & Hvec' & Htot' & Hby'); [done|lia|lia|lia|lia|].
  rewrite Eadd, !u64_small by lia.
  assert (c48 vaddr + offset = c48 va) as Hcv by (unfold va; rewrite c48_shift by lia; done).
  assert (∀ k, 0 ≤ k < offset + chunk → byte_at vec' k = phys_at s (vaddr + k)) as Hby2.
  { intros k Hk. rewrite Hby' by lia. rewrite Htot. destruct (Z.ltb_spec k offset); [apply Hby; lia|].
    rewrite (proj2 (Z.ltb_lt _ _)) by lia. replace (vaddr + k) with (va + (k - offset)) by (unfold va; ring).
    rewrite (phys_at_page s va e) by (done || lia). f_equal. }
  destruct (decide (chunk = 4096 - mis)) as [Hfull|Hpart].
  - assert ((vaddr + (offset + chunk)) mod 4096 = 0) as Hal.
    { replace (vaddr + (offset + chunk)) with (va + (4096 - mis)) by (unfold va; lia). unfold mis.
      pose proof (Z.div_mod va 4096 ltac:(lia)). replace (va + (4096 - va mod 4096)) with ((va / 4096 + 1) * 4096) by lia. apply Z.mod_mul. lia. }
    destruct (IH (offset + chunk) cap' (next_pte (Some (t + 8 * slot_of va 3))) vec') as (res & Eres & Hres); try done; try lia.
    { right. right. replace (vaddr + (offset + chunk)) with (va - mis + 4096) by lia. apply ptr_next_page; [lia|lia|done]. }
    rewrite Hal in Eres. exists res. split; [|done]. by replace (va + chunk) with (vaddr + (offset + chunk)) by lia.
  - assert (chunk = size - offset) as Hend by lia. unfold rest. cbn [iovec_loop]. rewrite (proj2 (Z.ltb_ge _ _)) by lia.
    unfold pg_assert. rewrite (proj2 (Z.eqb_eq _ _)) by lia. exists vec'. split; [done|]. split; [done|]. split; [lia|].
    intros k Hk. apply Hby2. lia.
Qed.

(** Paging_iovec of a mapped range not longer than a maximal chunk: byte for
    byte the pieces are the physical addresses of the range, in order. *)
Lemma paging_iovec_spec s vaddr size max_chunk fuel :
  paging_ok s → 0 ≤ vaddr → vaddr + size + 4096 < 2 ^ 64 → c48 vaddr + size ≤ 2 ^ 48 → mapped_small s vaddr size →
  0 ≤ size ≤ max_chunk → max_chunk < 2 ^ 64 → size / 4096 + 2 ≤ Z.of_nat fuel →
  ∃ vec, paging_iovec heap_grants (Datatypes.S fuel) vaddr size max_chunk s = Done (vec, s)
    ∧ Forall piece_ok vec ∧ total vec = size ∧ (∀ k, 0 ≤ k < size → byte_at vec k = phys_at s (vaddr + k)).
Proof.
  intros Hok Hv0 Hv1 Hc Hmap Hs Hm Hf. unfold paging_iovec. rewrite Hheap. unfold PAGE_MASK.
  change 4095 with (2 ^ 12 - 1). rewrite land_low_mask by lia. change (2 ^ 12) with 4096.
  destruct (iovec_loop_spec s vaddr size max_chunk fuel 0 16 None []) as (vec & E & Hvec); try done; try lia.
  - by left.
  - rewrite Z.add_0_r. pose proof (Z.mod_pos_bound vaddr 4096). pose proof (Z.div_mod size 4096). pose proof (Z.mod_pos_bound size 4096). lia.
  - rewrite Z.add_0_r in E. eauto.
Qed.
End thms.
