(* ===== verification/ElfLoad.v ===== *)
(** * boot/elf64.cc: loading the kernel image

    A segment is mapped with paging_map_range, the part that is in the file
    is read into the physical pieces of its range, and the rest is cleared.
    The stores to memory are a list of [write]s; [content] is the byte they
    leave at a physical address.  The theorems say that every byte of a
    segment is, at the address the processor translates it to, what the file
    has or zero. *)

From stdpp Require Import base tactics list numbers option.
From S2P Require Import Prelude Physmap BootPaging PageWalk BootPagingThms BootPagingMap BootPagingRange BootIovec.

#[local] Open Scope Z_scope.

(** struct Elf64_Phdr, the fields the loader reads *)
Record Elf64_Phdr := Phdr { p_flags : Z; p_offset : Z; p_vaddr : Z; p_filesz : Z; p_memsz : Z }.
Definition PF_R : Z := 4.
Definition PF_W : Z := 2.
Definition PF_X : Z := 1.
Definition PTE_GLOBAL : Z := 2 ^ 8.

(** arch_set_page_flags (boot/x86/arch_paging.cc) *)
Definition arch_set_page_flags (has_pge nx_available : bool) (vaddr : Z) (is_r is_w is_x : bool) : Z :=
  let flags := if has_pge && (s64 vaddr <? 0) then PTE_GLOBAL else 0 in
  let flags := Z.lor flags (if is_r then PTE_PRESENT else 0) in
  let flags := Z.lor flags (if nx_available && negb is_x then PTE_NX else 0) in
  if is_w then Z.lor flags PTE_WRITABLE else flags.

(** What is stored where: bytes of the file, or zeros *)
Inductive write := FromFile (r : pread_t) | Zeros (v : iovec_t).
Inductive byte_src := FileByte (ofs : Z) | ZeroByte.

Definition in_piece (v : iovec_t) (a : Z) : bool := (iov_base v <=? a) && (a <? iov_base v + iov_size v).
Definition byte_of (w : write) (a : Z) : option byte_src :=
  match w with
  | FromFile r => if in_piece (pr_to r) a then Some (FileByte (pr_from r + (a - iov_base (pr_to r)))) else None
  | Zeros v => if in_piece v a then Some ZeroByte else None
  end.
(** The byte at [a] after the writes, if they touch it; later ones win. *)
Fixpoint content (ws : list write) (a : Z) : option byte_src :=
  match ws with
  | [] => None
  | w :: ws => match content ws a with Some b => Some b | None => byte_of w a end
  end.

Section ops.
Context {S : Type} `{PageSource S}.
Abbreviation PG := (M (paging S)).
Context (heap_grants : Z → bool) (boot_pread : pread_t → Z) (allocator : page_factory_t S) (fuel : nat).

(** The loop over the pieces of the part that is in the file *)
Fixpoint read_chunk (vec : list iovec_t) (p_offset offset : Z) : PG (list write * Z) :=
  match vec with
  | [] => mret ([], offset)
  | v :: vec =>
      pg_assert (iov_base v <? 0x100000000);;
      let r := Pread v (u64 (p_offset + offset)) in
      if negb (boot_pread r =? iov_size v) then throw Panicked
      else
        '(ws, offset) ← read_chunk vec p_offset (u64 (offset + iov_size v));
        mret (FromFile r :: ws, offset)
  end.

(** The loop that clears the rest *)
Fixpoint clear_chunk (vec : list iovec_t) : PG (list write) :=
  match vec with
  | [] => mret []
  | v :: vec =>
      pg_assert (iov_base v <? 0x100000000);;
      ws ← clear_chunk vec;
      mret (Zeros v :: ws)
  end.

Definition load_kernel_chunk (blk : Elf64_Phdr) (page_flags : Z) : PG (list write) :=
  paging_map_range allocator (p_vaddr blk) (p_memsz blk) page_flags;;
  vec ← paging_iovec heap_grants fuel (p_vaddr blk) (p_filesz blk) (2 ^ 30);
  '(ws, offset) ← read_chunk vec (p_offset blk) 0;
  pg_assert (offset =? p_filesz blk);;
  if p_filesz blk <? p_memsz blk then
    vec ← paging_iovec heap_grants fuel (u64 (p_vaddr blk + p_filesz blk)) (u64 (p_memsz blk - p_filesz blk)) (2 ^ 30);
    zs ← clear_chunk vec;
    mret (ws ++ zs)
  else mret ws.

(** The loop of elf64_load over the program headers *)
Fixpoint load_segments (has_pge nx_available : bool) (base_adj : Z) (phdrs : list Elf64_Phdr) : PG (list write) :=
  match phdrs with
  | [] => mret []
  | blk :: phdrs =>
      let blk := Phdr (p_flags blk) (p_offset blk) (u64 (p_vaddr blk + base_adj)) (p_filesz blk) (p_memsz blk) in
      ws ← (if negb (Z.land (p_flags blk) (Z.lor PF_R (Z.lor PF_W PF_X)) =? 0) && negb (p_memsz blk =? 0)
            then load_kernel_chunk blk
                   (arch_set_page_flags has_pge nx_available (p_vaddr blk)
                      (Z.testbit (p_flags blk) 2) (Z.testbit (p_flags blk) 1) (Z.testbit (p_flags blk) 0))
            else mret []);
      rest ← load_segments has_pge nx_available base_adj phdrs;
      mret (ws ++ rest)
  end.
End ops.

(** ** Writes and bytes *)

Lemma content_some ws a b : content ws a = Some b → ∃ w, w ∈ ws ∧ byte_of w a = Some b.
Proof.
  induction ws as [|w ws IH]; [done|]. cbn. destruct (content ws a) as [b0|].
  - intros [= ->]. destruct (IH eq_refl) as (w0 & ? & ?). exists w0. split; [by right|done].
  - intros Hb. exists w. split; [by left|done].
Qed.

Lemma content_spec ws a b :
  (∃ w, w ∈ ws ∧ byte_of w a = Some b) → (∀ w b', w ∈ ws → byte_of w a = Some b' → b' = b) → content ws a = Some b.
Proof.
  intros (w & Hw & Hb) Hall. destruct (content ws a) as [b'|] eqn:E.
  - apply content_some in E as (w' & Hw' & Hb'). f_equal. by apply (Hall w').
  - exfalso. clear Hall. induction ws as [|w' ws IH]; [by apply elem_of_nil in Hw|]. cbn in E.
    destruct (content ws a); [done|]. apply elem_of_cons in Hw as [->|Hw]; [congruence|auto].
Qed.

Lemma content_app ws ws' a : content (ws ++ ws') a = match content ws' a with Some b => Some b | None => content ws a end.
Proof. induction ws as [|w ws IH]; cbn; [by destruct (content ws' a)|]. rewrite IH. by destruct (content ws' a). Qed.

(** The reads of the pieces of [vec], from [ofs] in the file on *)
Fixpoint reads_of (vec : list iovec_t) (ofs : Z) : list write :=
  match vec with [] => [] | v :: vec => FromFile (Pread v ofs) :: reads_of vec (ofs + iov_size v) end.

(** A piece of [vec] has [a] exactly when it is the place of a byte. *)
Lemma reads_cover vec ofs w a b :
  Forall piece_ok vec → w ∈ reads_of vec ofs → byte_of w a = Some b →
  ∃ k, 0 ≤ k < total vec ∧ byte_at vec k = Some a ∧ b = FileByte (ofs + k).
Proof.
  intros Hv. revert ofs. induction Hv as [|v vec (Hb & Hs & He) Hv IH]; intros ofs; cbn; [by intros ?%elem_of_nil|].
  pose proof (total_nonneg vec Hv). intros [->|Hw]%elem_of_cons Hby.
  - cbn in Hby. unfold in_piece in Hby. destruct (Z.leb_spec (iov_base v) a), (Z.ltb_spec a (iov_base v + iov_size v)); try done.
    injection Hby as <-. exists (a - iov_base v). split; [lia|]. rewrite (proj2 (Z.ltb_lt _ _)) by lia. split; f_equal; lia.
  - destruct (IH _ Hw Hby) as (k & Hk & Hbk & ->). exists (iov_size v + k). split; [lia|].
    rewrite (proj2 (Z.ltb_ge _ _)) by lia. replace (iov_size v + k - iov_size v) with k by ring. split; [done|]. f_equal. lia.
Qed.

Lemma reads_reach vec ofs k a :
  Forall piece_ok vec → 0 ≤ k → byte_at vec k = Some a → ∃ w, w ∈ reads_of vec ofs ∧ byte_of w a = Some (FileByte (ofs + k)).
Proof.
  intros Hv. revert ofs k. induction Hv as [|v vec (Hb & Hs & He) Hv IH]; intros ofs k Hk; cbn; [done|].
  destruct (Z.ltb_spec k (iov_size v)).
  - intros [= <-]. eexists. split; [by left|]. cbn. unfold in_piece. rewrite (proj2 (Z.leb_le _ _)), (proj2 (Z.ltb_lt _ _)) by lia.
    cbn. do 2 f_equal. lia.
  - intros Hby. destruct (IH (ofs + iov_size v) (k - iov_size v)) as (w & Hw & Hbw); [lia|done|]. exists w. split; [by right|].
    rewrite Hbw. do 2 f_equal. lia.
Qed.

(** Zeros go where the bytes of the pieces are. *)
Lemma zeros_cover vec w a b :
  Forall piece_ok vec → w ∈ (Zeros <$> vec) → byte_of w a = Some b →
  b = ZeroByte ∧ ∃ k, 0 ≤ k < total vec ∧ byte_at vec k = Some a.
Proof.
  intros Hv. induction Hv as [|v vec (Hb & Hs & He) Hv IH]; cbn; [by intros ?%elem_of_nil|].
  pose proof (total_nonneg vec Hv). intros [->|Hw]%elem_of_cons Hby.
  - cbn in Hby. unfold in_piece in Hby. destruct (Z.leb_spec (iov_base v) a), (Z.ltb_spec a (iov_base v + iov_size v)); try done.
    injection Hby as <-. split; [done|]. exists (a - iov_base v). split; [lia|]. rewrite (proj2 (Z.ltb_lt _ _)) by lia. f_equal. lia.
  - destruct (IH Hw Hby) as (-> & k & Hk & Hbk). split; [done|]. exists (iov_size v + k). split; [lia|].
    rewrite (proj2 (Z.ltb_ge _ _)) by lia. by replace (iov_size v + k - iov_size v) with k by ring.
Qed.

Lemma zeros_reach vec k a :
  Forall piece_ok vec → 0 ≤ k → byte_at vec k = Some a → ∃ w, w ∈ (Zeros <$> vec) ∧ byte_of w a = Some ZeroByte.
Proof.
  intros Hv. revert k. induction Hv as [|v vec (Hb & Hs & He) Hv IH]; intros k Hk; cbn; [done|].
  destruct (Z.ltb_spec k (iov_size v)).
  - intros [= <-]. eexists. split; [by left|]. cbn. unfold in_piece. by rewrite (proj2 (Z.leb_le _ _)), (proj2 (Z.ltb_lt _ _)) by lia.
  - intros Hby. destruct (IH (k - iov_size v)) as (w & Hw & Hbw); [lia|done|]. exists w. split; [by right|done].
Qed.

Section thms.
Context {S : Type} `{!PageSource S, !PageSourceLaws S} (allocator : page_factory_t S) `{!PageFactoryLaws S allocator}.
Context (heap_grants : Z → bool) (Hheap : ∀ n, heap_grants n = true).
Context (boot_pread : pread_t → Z) (Hread : ∀ r, boot_pread r = iov_size (pr_to r)).
Implicit Types s : paging S.

(** The tables and the page source are the same. *)
Definition same_tables (s s' : paging S) : Prop :=
  words s' = words s ∧ root_page_dir s' = root_page_dir s ∧ source s' = source s.

#[local] Instance same_tables_preorder : PreOrder same_tables.
Proof. split; [by intros x; split_and!|]. intros x y z (A1 & A2 & A3) (B1 & B2 & B3). split_and!; congruence. Qed.

Lemma pg_assert_same b s : ∃ s', pg_assert b s = Done (tt, s') ∧ same_tables s s'.
Proof. unfold pg_assert, modify. destruct b; eexists; by split. Qed.

Lemma read_chunk_spec vec ofs off s :
  Forall piece_ok vec → 0 ≤ ofs → 0 ≤ off → ofs + off + total vec < 2 ^ 64 →
  ∃ s', read_chunk boot_pread vec ofs off s = Done ((reads_of vec (ofs + off), off + total vec), s') ∧ same_tables s s'.
Proof.
  intros Hv Ho. revert off s. induction Hv as [|v vec (Hb & Hs & He) Hv IH]; intros off s Hoff Hlt.
  { exists s. cbn. by rewrite Z.add_0_r. }
  cbn [read_chunk reads_of total] in *. pose proof (total_nonneg vec Hv).
  destruct (pg_assert_same (iov_base v <? 0x100000000) s) as (s1 & E1 & Hsame1). rewrite (bind_done _ _ _ _ _ E1).
  rewrite Hread. cbn [pr_to]. rewrite Z.eqb_refl. cbn [negb]. rewrite !u64_small by lia.
  destruct (IH (off + iov_size v) s1) as (s2 & E2 & Hsame2); [lia|lia|]. rewrite (bind_done _ _ _ _ _ E2). exists s2.
  split; [|by etrans]. by rewrite (Z.add_assoc ofs), (Z.add_assoc off).
Qed.

Lemma clear_chunk_spec vec s : ∃ s', clear_chunk vec s = Done (Zeros <$> vec, s') ∧ same_tables s s'.
Proof.
  revert s. induction vec as [|v vec IH]; intros s; [by exists s|]. cbn [clear_chunk].
  destruct (pg_assert_same (iov_base v <? 0x100000000) s) as (s1 & E1 & Hsame1). rewrite (bind_done _ _ _ _ _ E1).
  destruct (IH s1) as (s2 & E2 & Hsame2). rewrite (bind_done _ _ _ _ _ E2). exists s2. split; [done|by etrans].
Qed.

(** What the two passes over a mapped range of [memsz] bytes store *)
Lemma chunk_content s vaddr filesz memsz ofs vec vec2 :
  (∀ j k a, 0 ≤ j < memsz → 0 ≤ k < memsz → phys_at s (vaddr + j) = Some a → phys_at s (vaddr + k) = Some a → j = k) →
  0 ≤ filesz ≤ memsz →
  Forall piece_ok vec → total vec = filesz → (∀ k, 0 ≤ k < filesz → byte_at vec k = phys_at s (vaddr + k)) →
  Forall piece_ok vec2 → total vec2 = memsz - filesz → (∀ k, 0 ≤ k < memsz - filesz → byte_at vec2 k = phys_at s (vaddr + filesz + k)) →
  let ws := reads_of vec ofs ++ (Zeros <$> vec2) in
  (∀ k a, 0 ≤ k < memsz → phys_at s (vaddr + k) = Some a →
     content ws a = Some (if k <? filesz then FileByte (ofs + k) else ZeroByte))
  ∧ (∀ a, content ws a ≠ None → ∃ k, 0 ≤ k < memsz ∧ phys_at s (vaddr + k) = Some a).
Proof.
  intros Hinj Hsz Hv1 Ht1 Hb1 Hv2 Ht2 Hb2 ws.
  assert (∀ w a b, w ∈ ws → byte_of w a = Some b →
    ∃ k, 0 ≤ k < memsz ∧ phys_at s (vaddr + k) = Some a ∧ b = if k <? filesz then FileByte (ofs + k) else ZeroByte) as Hcov.
  { intros w a b [Hw|Hw]%elem_of_app Hb.
    - destruct (reads_cover vec ofs w a b Hv1 Hw Hb) as (k & Hk & Hka & ->). exists k. rewrite <- Hb1 by lia.
      rewrite (proj2 (Z.ltb_lt _ _)) by lia. split_and!; done || lia.
    - destruct (zeros_cover vec2 w a b Hv2 Hw Hb) as (-> & k & Hk & Hka). exists (filesz + k). rewrite Z.add_assoc, <- Hb2 by lia.
      rewrite (proj2 (Z.ltb_ge _ _)) by lia. split_and!; done || lia. }
  split.
  - intros k a Hk Ha. apply content_spec.
    + destruct (Z.ltb_spec k filesz).
      * destruct (reads_reach vec ofs k a) as (w & Hw & Hb); [done|lia|by rewrite Hb1 by lia|]. exists w. split; [|done]. apply elem_of_app. by left.
      * destruct (zeros_reach vec2 (k - filesz) a) as (w & Hw & Hb); [done|lia| |exists w; split; [|done]; apply elem_of_app; by right].
        rewrite Hb2 by lia. rewrite <- Ha. f_equal. lia.
    + intros w b Hw Hb. destruct (Hcov w a b Hw Hb) as (j & Hj & Hja & ->). by rewrite (Hinj j k a).
  - intros a Hc. destruct (content ws a) as [b|] eqn:E; [|done]. apply content_some in E as (w & Hw & Hb).
    destruct (Hcov w a b Hw Hb) as (k & ? & ? & _). eauto.
Qed.

Lemma missing_all (l : Z → option (nat * Z)) va n : (∀ i, 0 ≤ i < Z.of_nat n → l (va + 4096 * i) = None) → missing l va n = n.
Proof.
  revert va. induction n as [|n IH]; intros va Hl; [done|]. cbn. pose proof (Hl 0 ltac:(lia)) as H0.
  rewrite Z.mul_0_r, Z.add_0_r in H0. rewrite H0, IH; [done|]. intros i Hi.
  replace (va + 4096 + 4096 * i) with (va + 4096 * (i + 1)) by ring. apply Hl. lia.
Qed.

Lemma same_phys s s' va : same_tables s s' → phys_at s' va = phys_at s va.
Proof. intros (E1 & E2 & _). unfold phys_at. by rewrite E1, E2. Qed.
Lemma same_leaf s s' va : same_tables s s' → leaf s' va = leaf s va.
Proof. intros (E1 & E2 & _). unfold leaf. by rewrite E1, E2. Qed.
Lemma same_ok s s' : same_tables s s' → paging_ok s → paging_ok s'.
Proof. intros (E1 & E2 & E3). unfold paging_ok. by rewrite E1, E2, E3. Qed.

Definition seg_pages (blk : Elf64_Phdr) : nat := Z.to_nat ((p_memsz blk + 4095) / 4096).

(** A segment the loader's calls are made for: page-aligned, not more than
    1GB, in one half of the address space *)
Record seg_fits (blk : Elf64_Phdr) : Prop := {
  sf_align : p_vaddr blk mod 4096 = 0;
  sf_sizes : 0 ≤ p_filesz blk ≤ p_memsz blk ∧ p_memsz blk ≤ 2 ^ 30;
  sf_vaddr : 0 ≤ p_vaddr blk ∧ p_vaddr blk + p_memsz blk + 8192 < 2 ^ 64;
  sf_half : c48 (p_vaddr blk) + 4096 * Z.of_nat (seg_pages blk) ≤ 2 ^ 48;
  sf_offset : 0 ≤ p_offset blk ∧ p_offset blk + p_filesz blk < 2 ^ 64
}.

Lemma seg_pages_eq blk :
  seg_fits blk → p_memsz blk ≤ 4096 * Z.of_nat (seg_pages blk) < p_memsz blk + 4096.
Proof.
  intros [_ Hs _ _ _]. unfold seg_pages. rewrite Z2Nat.id by (apply Z.div_pos; lia).
  pose proof (Z.div_mod (p_memsz blk + 4095) 4096). pose proof (Z.mod_pos_bound (p_memsz blk + 4095) 4096). lia.
Qed.

Lemma seg_in_range blk k : seg_fits blk → 0 ≤ k < p_memsz blk →
  c48 (p_vaddr blk + k) = c48 (p_vaddr blk) + k ∧ in_range (p_vaddr blk) (seg_pages blk) (p_vaddr blk + k).
Proof.
  intros Hf Hk. pose proof (seg_pages_eq blk Hf). destruct Hf as [_ _ _ Hh _].
  assert (c48 (p_vaddr blk + k) = c48 (p_vaddr blk) + k) as E by (apply c48_shift; lia). split; [done|]. unfold in_range. lia.
Qed.

Definition seg_byte (blk : Elf64_Phdr) (k : Z) : byte_src :=
  if k <? p_filesz blk then FileByte (p_offset blk + k) else ZeroByte.

(** The page of an address *)
Definition page_of (a : Z) : Z := a - a mod 4096.

(** [s'] and the writes [ws] have the segment in memory of its own. *)
Record seg_loaded (blk : Elf64_Phdr) (flags : Z) (ws : list write) (s s' : paging S) : Prop := {
  sl_ok : paging_ok s';
  sl_root : root_page_dir s' = root_page_dir s;
  sl_use : ∀ q, in_use (source s) q → in_use (source s') q;
  sl_leaf : ∀ x, ¬ in_range (p_vaddr blk) (seg_pages blk) x → leaf s' x = leaf s x;
  sl_bytes : ∀ k, 0 ≤ k < p_memsz blk → ∃ a, phys_at s' (p_vaddr blk + k) = Some a
    ∧ in_use (source s') (page_of a) ∧ content ws a = Some (seg_byte blk k);
  sl_flags : ∀ k, 0 ≤ k < p_memsz blk → ∃ e, leaf s' (p_vaddr blk + k) = Some (3%nat, e)
    ∧ flags_of e = flags_of (Z.lor flags PTE_PRESENT);
  sl_fresh : ∀ a, content ws a ≠ None → ¬ in_use (source s) (page_of a)
}.

Lemma page_of_sum q x : q mod 4096 = 0 → page_of (q + x mod 4096) = q.
Proof.
  intros Hq. unfold page_of. pose proof (Z.mod_pos_bound x 4096). pose proof (Z.div_mod q 4096).
  rewrite <- (Z.mod_unique (q + x mod 4096) 4096 (q / 4096) (x mod 4096)); lia.
Qed.

(** The part that is not in the file is cleared. *)
Lemma clear_rest s va filesz memsz fuel ws :
  paging_ok s → 0 ≤ va → va + memsz + 8192 < 2 ^ 64 → c48 va + memsz ≤ 2 ^ 48 → mapped_small s va memsz →
  0 ≤ filesz ≤ memsz → memsz ≤ 2 ^ 30 → memsz / 4096 + 2 ≤ Z.of_nat fuel →
  ∃ vec2 s', (if filesz <? memsz then
      vec ← paging_iovec heap_grants (Datatypes.S fuel) (u64 (va + filesz)) (u64 (memsz - filesz)) (2 ^ 30);
      zs ← clear_chunk vec; mret (ws ++ zs) else mret ws) s = Done (ws ++ (Zeros <$> vec2), s')
    ∧ same_tables s s' ∧ Forall piece_ok vec2 ∧ total vec2 = memsz - filesz
    ∧ (∀ k, 0 ≤ k < memsz - filesz → byte_at vec2 k = phys_at s (va + filesz + k)).
Proof.
  intros Hok Hva Hhi Hc Hmap Hsz Hlim Hfuel. destruct (Z.ltb_spec filesz memsz).
  - rewrite !u64_small by lia.
    destruct (paging_iovec_spec heap_grants Hheap s (va + filesz) (memsz - filesz) (2 ^ 30) fuel) as (vec & E & Hv & Ht & Hb); try done; try lia.
    + rewrite c48_shift by lia. lia.
    + intros k Hk. rewrite <- Z.add_assoc. apply Hmap. lia.
    + pose proof (Z.div_le_mono (memsz - filesz) memsz 4096). lia.
    + rewrite (bind_done _ _ _ _ _ E). destruct (clear_chunk_spec vec s) as (s' & E' & Hs'). rewrite (bind_done _ _ _ _ _ E').
      exists vec, s'. by split_and!.
  - exists [], s. rewrite app_nil_r. split_and!; try done; [cbn; lia|intros k Hk; lia].
Qed.

Lemma load_chunk_spec blk flags tables_later later fuel s :
  seg_fits blk → paging_ok s → addr_of flags = 0 → p_memsz blk / 4096 + 2 ≤ Z.of_nat fuel →
  can_give (tables_needed 3 (seg_pages blk) (p_vaddr blk) true + tables_later) (source s) →
  stock (seg_pages blk + later) (source s) → (∀ x, in_range (p_vaddr blk) (seg_pages blk) x → leaf s x = None) →
  ∃ ws s', load_kernel_chunk heap_grants boot_pread allocator (Datatypes.S fuel) blk flags s = Done (ws, s')
    ∧ stock later (source s') ∧ can_give tables_later (source s') ∧ seg_loaded blk flags ws s s'.
Proof.
  intros Hfit Hok Hfa Hfuel Hcg Hst Hnone. pose proof (seg_pages_eq blk Hfit) as Hpg. pose proof Hfit as [Hal Hsz Hva Hhalf Hofs].
  set (va := p_vaddr blk) in *. set (n := seg_pages blk) in *.
  assert (missing (leaf s) va n = n) as Em.
  { apply missing_all. intros i Hi. apply Hnone. unfold in_range. rewrite c48_shift by lia. lia. }
  destruct (map_range_spec allocator flags tables_later later va (p_memsz blk) s) as (s1 & pg & E1 & Hok1 & Hst1 & Hcg1 & Hf & Ho);
    try done; try lia; change (Z.to_nat ((p_memsz blk + 4095) / 4096)) with n; rewrite ?Em; try done; try lia.
  { intros x Hx d e He. change (leaf s x = Some (d, e)) in He. by rewrite Hnone in He. }
  change (Z.to_nat ((p_memsz blk + 4095) / 4096)) with n in Hf, Ho.
  pose proof (λ x Hx, filled_translate flags va n pg _ s s1 x Hfa Hf Ho Hx (Hnone x Hx)) as Htr.
  assert (∀ k, 0 ≤ k < p_memsz blk → phys_at s1 (va + k) = Some (pg (c48 (va + k) / 4096) + (va + k) mod 4096)) as Hphys.
  { intros k Hk. apply Htr. by apply seg_in_range. }
  assert (∀ j k a, 0 ≤ j < p_memsz blk → 0 ≤ k < p_memsz blk → phys_at s1 (va + j) = Some a → phys_at s1 (va + k) = Some a → j = k) as Hinj.
  { intros j k a Hj Hk Ej Ek. destruct (seg_in_range blk j Hfit Hj) as [Cj Rj]. destruct (seg_in_range blk k Hfit Hk) as [Ck Rk].
    fold va in Cj, Rj, Ck, Rk. pose proof (filled_inj flags va n pg _ s s1 _ _ a Hfa Hf Ho Rj (Hnone _ Rj) Rk (Hnone _ Rk) Ej Ek). lia. }
  assert (mapped_small s1 va (p_memsz blk)) as Hmap.
  { intros k Hk. destruct (seg_in_range blk k Hfit Hk) as [_ Rk]. destruct Hf as (_ & _ & _ & L). eexists. rewrite L.
    by rewrite decide_True by (split; [exact Rk|by apply Hnone]). }
  unfold load_kernel_chunk. fold va. rewrite (bind_done _ _ _ _ _ E1).
  destruct (paging_iovec_spec heap_grants Hheap s1 va (p_filesz blk) (2 ^ 30) fuel) as (vec & E2 & Hv1 & Ht1 & Hb1); try done; try lia.
  { intros k Hk. apply Hmap. lia. }
  { pose proof (Z.div_le_mono (p_filesz blk) (p_memsz blk) 4096). lia. }
  rewrite (bind_done _ _ _ _ _ E2).
  destruct (read_chunk_spec vec (p_offset blk) 0 s1) as (s2 & E3 & Hs2); [done|lia|lia|lia|].
  rewrite (bind_done _ _ _ _ _ E3), Z.add_0_r, Z.add_0_l, Ht1. cbv beta iota.
  destruct (pg_assert_same (p_filesz blk =? p_filesz blk) s2) as (s3 & E4 & Hs3). rewrite (bind_done _ _ _ _ _ E4).
  assert (same_tables s1 s3) as Hs13 by (by etrans).
  destruct (clear_rest s3 va (p_filesz blk) (p_memsz blk) fuel (reads_of vec (p_offset blk))) as (vec2 & s4 & E5 & Hs4 & Hv2 & Ht2 & Hb2);
    try done; try lia; [by eapply same_ok|intros k Hk; rewrite (same_leaf s1 s3) by done; by apply Hmap|].
  assert (same_tables s1 s4) as Hs14 by (by etrans). exists (reads_of vec (p_offset blk) ++ (Zeros <$> vec2)), s4. split; [exact E5|].
  pose proof Hs14 as (_ & Hr4 & Hx4). rewrite Hx4. split; [done|]. split; [done|].
  destruct (chunk_content s1 va (p_filesz blk) (p_memsz blk) (p_offset blk) vec vec2) as [Hcont Hfr]; try done; try lia.
  { intros k Hk. rewrite Hb2 by done. by apply same_phys. }
  destruct Hf as (Hr1 & _ & Hu1 & L). destruct Ho as [O1 _]. split.
  - by eapply same_ok.
  - congruence.
  - by rewrite Hx4.
  - intros x Hx. rewrite (same_leaf s1 s4) by done. rewrite L, decide_False; [done|tauto].
  - intros k Hk. destruct (seg_in_range blk k Hfit Hk) as [_ Rk]. destruct (O1 _ Rk (Hnone _ Rk)) as (Hq & _ & _ & Hu).
    eexists. rewrite (same_phys s1 s4) by done. fold va. split; [by apply Hphys|]. rewrite Hx4, page_of_sum by done. split; [done|].
    unfold seg_byte. by apply Hcont, Hphys.
  - intros k Hk. destruct (seg_in_range blk k Hfit Hk) as [_ Rk]. destruct (O1 _ Rk (Hnone _ Rk)) as (Hq & Hq' & _).
    eexists. rewrite (same_leaf s1 s4), L by done. rewrite decide_True by (split; [exact Rk|by apply Hnone]). split; [done|].
    by apply (range_entry flags _ 0).
  - intros a Ha. destruct (Hfr a Ha) as (k & Hk & Hka). rewrite Hphys in Hka by done. injection Hka as <-.
    destruct (seg_in_range blk k Hfit Hk) as [_ Rk]. destruct (O1 _ Rk (Hnone _ Rk)) as (Hq & _ & Hn & _). by rewrite page_of_sum.
Qed.

(** ** All segments *)

Definition adjusted (base_adj : Z) (blk : Elf64_Phdr) : Elf64_Phdr :=
  Phdr (p_flags blk) (p_offset blk) (u64 (p_vaddr blk + base_adj)) (p_filesz blk) (p_memsz blk).
Definition loadable (blk : Elf64_Phdr) : bool :=
  negb (Z.land (p_flags blk) (Z.lor PF_R (Z.lor PF_W PF_X)) =? 0) && negb (p_memsz blk =? 0).
Definition seg_flags (has_pge nx : bool) (blk : Elf64_Phdr) : Z :=
  arch_set_page_flags has_pge nx (p_vaddr blk) (Z.testbit (p_flags blk) 2) (Z.testbit (p_flags blk) 1) (Z.testbit (p_flags blk) 0).

(** The segments of an image that go into memory *)
Fixpoint to_load (base_adj : Z) (phdrs : list Elf64_Phdr) : list Elf64_Phdr :=
  match phdrs with
  | [] => []
  | blk :: phdrs =>
      if loadable (adjusted base_adj blk) then adjusted base_adj blk :: to_load base_adj phdrs else to_load base_adj phdrs
  end.

Definition seg_range (blk : Elf64_Phdr) (x : Z) : Prop := in_range (p_vaddr blk) (seg_pages blk) x.
Definition all_pages (segs : list Elf64_Phdr) : nat := foldr (λ b n, seg_pages b + n)%nat 0%nat segs.
Definition all_tables (segs : list Elf64_Phdr) : nat :=
  foldr (λ b n, tables_needed 3 (seg_pages b) (p_vaddr b) true + n)%nat 0%nat segs.

(** The segments share no page. *)
Definition apart (segs : list Elf64_Phdr) : Prop :=
  ∀ i j b c x, segs !! i = Some b → segs !! j = Some c → seg_range b x → seg_range c x → i = j.

Lemma seg_flags_addr has_pge nx blk : addr_of (seg_flags has_pge nx blk) = 0.
Proof.
  unfold seg_flags, arch_set_page_flags. destruct (has_pge && (s64 (p_vaddr blk) <? 0)), (Z.testbit (p_flags blk) 2),
    (Z.testbit (p_flags blk) 1), nx, (Z.testbit (p_flags blk) 0); reflexivity.
Qed.

Lemma phys_at_leaf s s' x y : leaf s' x = leaf s x → y = x → phys_at s' y = phys_at s x.
Proof. intros Hl ->. unfold phys_at, translate. change (leaf_at (words s) _ x) with (leaf s x). by rewrite <- Hl. Qed.

Record segs_loaded (has_pge nx : bool) (segs : list Elf64_Phdr) (ws : list write) (s s' : paging S) : Prop := {
  ss_ok : paging_ok s';
  ss_use : ∀ q, in_use (source s) q → in_use (source s') q;
  ss_leaf : ∀ x, (∀ b, b ∈ segs → ¬ seg_range b x) → leaf s' x = leaf s x;
  ss_bytes : ∀ b k, b ∈ segs → 0 ≤ k < p_memsz b → ∃ a e, phys_at s' (p_vaddr b + k) = Some a
    ∧ content ws a = Some (seg_byte b k) ∧ leaf s' (p_vaddr b + k) = Some (3%nat, e)
    ∧ flags_of e = flags_of (Z.lor (seg_flags has_pge nx b) PTE_PRESENT);
  ss_fresh : ∀ a, content ws a ≠ None → ¬ in_use (source s) (page_of a)
}.

(** One segment, then the others *)
Lemma segs_loaded_cons has_pge nx b segs ws ws' s s1 s2 :
  seg_fits b → apart (b :: segs) → seg_loaded b (seg_flags has_pge nx b) ws s s1 → segs_loaded has_pge nx segs ws' s1 s2 →
  segs_loaded has_pge nx (b :: segs) (ws ++ ws') s s2.
Proof.
  intros Hfit Hap [A1 A2 A3 A4 A5 A6 A7] [B1 B2 B3 B4 B5].
  assert (∀ k, 0 ≤ k < p_memsz b → leaf s2 (p_vaddr b + k) = leaf s1 (p_vaddr b + k)) as Hkeep.
  { intros k Hk. destruct (seg_in_range b k Hfit Hk) as [_ Rk]. apply B3. intros c [i Hc]%list_elem_of_lookup Hr.
    specialize (Hap 0%nat (Datatypes.S i) b c _ eq_refl Hc Rk Hr). lia. }
  assert (∀ a, in_use (source s1) (page_of a) → content ws' a = None) as Hoff.
  { intros a Ha. destruct (content ws' a) eqn:E; [|done]. exfalso. eapply (B5 a); [by rewrite E|done]. }
  split.
  - done.
  - auto.
  - intros x Hx. rewrite B3 by (intros c Hc; apply Hx; by right). apply A4. apply Hx. by left.
  - intros c k [->|Hc]%elem_of_cons Hk.
    + destruct (A5 k Hk) as (a & Ha & Hu & Hcn). destruct (A6 k Hk) as (e & He & Hfl). exists a, e.
      rewrite Hkeep by done. rewrite content_app, Hoff by done. split_and!; try done. rewrite <- Ha. by apply phys_at_leaf; [apply Hkeep|].
    + destruct (B4 c k Hc Hk) as (a & e & Ha & Hcn & He & Hfl). exists a, e. rewrite content_app, Hcn. by split_and!.
  - intros a. rewrite content_app. destruct (content ws' a) eqn:E; [intros _|apply A7].
    intros Hu. apply (B5 a); [by rewrite E|auto].
Qed.

Lemma apart_tail b segs : apart (b :: segs) → apart segs.
Proof. intros Hap i j c d x Hi Hj Hc Hd. specialize (Hap (Datatypes.S i) (Datatypes.S j) c d x Hi Hj Hc Hd). lia. Qed.

End thms.

(** * boot/elf64.cc: the initial ram disk, the header checks, relocation

    load_initrd maps the file's size at a fixed address and reads it in
    blocks of 2MB with paging_iovec_read.  The theorem: every byte of the
    file is at the physical address its place in the address space is
    translated to. *)

Definition PTE_ACCESSED : Z := 2 ^ 5.
Definition initrd_base : Z := u64 (- (64 * 2 ^ 40)).
Definition sz2M : Z := 2 ^ 21.

(** struct Elf64_Ehdr, the fields that are checked, and Elf64_Rela *)
Record Elf64_Ehdr := Ehdr { e_magic : list Z; e_machine : Z; e_ehsize : Z; e_phentsize : Z; e_shentsize : Z }.
Record Elf64_Rela := Rela { r_offset : Z; r_addend : Z }.

(** The checks of validate_executable, in order; each panics *)
Inductive elf_error := BadHeaderSize | BadMagic | BadPhdrSize | BadShdrSize | BadMachine.
Definition validate_executable (h : Elf64_Ehdr) : option elf_error :=
  if negb (e_ehsize h =? 64) then Some BadHeaderSize
  else if negb (bool_decide (e_magic h = [0x7f; 0x45; 0x4c; 0x46])) then Some BadMagic
  else if negb (e_phentsize h =? 56) then Some BadPhdrSize
  else if negb (e_shentsize h =? 64) then Some BadShdrSize
  else if negb (e_machine h =? 0x3e) then Some BadMachine
  else None.

Section ops.
Context {S : Type} `{PageSource S}.
Abbreviation PG := (M (paging S)).
Context (heap_grants : Z → bool) (boot_pread : pread_t → Z) (allocator : page_factory_t S) (fuel : nat).

(** The loop of load_initrd over blocks of 2MB *)
Fixpoint initrd_loop (blocks : nat) (ofs initrd_size : Z) : PG (list pread_t) :=
  match blocks with
  | O => throw OutOfFuel
  | Datatypes.S blocks =>
      if ofs <? initrd_size then
        let blk_end := ofs + sz2M in
        let blk_size := (if blk_end <? initrd_size then blk_end else initrd_size) - ofs in
        '(rs, read_size) ← paging_iovec_read heap_grants boot_pread fuel ofs (u64 (initrd_base + ofs)) blk_size (2 ^ 30);
        if negb (read_size =? blk_size) then throw Panicked
        else
          rest ← initrd_loop blocks blk_end initrd_size;
          mret (rs ++ rest)
      else mret []
  end.

Definition load_initrd (nx_available : bool) (initrd_size : Z) : PG (list pread_t) :=
  paging_map_range allocator initrd_base initrd_size
    (Z.lor (Z.lor PTE_PRESENT PTE_ACCESSED) (if nx_available then PTE_NX else 0));;
  initrd_loop (Datatypes.S (Z.to_nat (initrd_size / sz2M + 1))) 0 initrd_size.

(** reloc_kernel: for each relocation the value stored and the copies that
    paging_access_virtual_memory makes of its eight bytes *)
Fixpoint reloc_kernel (distance : Z) (relas : list Elf64_Rela) : PG (list (Z * list (Z * Z * Z))) :=
  match relas with
  | [] => mret []
  | r :: relas =>
      let value := u64 (distance + r_addend r) in
      let spot := u64 (r_offset r + distance) in
      '(_, copies) ← paging_access_virtual_memory fuel spot 8;
      rest ← reloc_kernel distance relas;
      mret ((value, copies) :: rest)
  end.
End ops.

(** The reads of pieces of [vec], from [ofs] in the file on *)
Fixpoint preads_of (vec : list iovec_t) (ofs : Z) : list pread_t :=
  match vec with [] => [] | v :: vec => Pread v ofs :: preads_of vec (ofs + iov_size v) end.

Lemma preads_reads vec ofs : FromFile <$> preads_of vec ofs = reads_of vec ofs.
Proof. revert ofs. induction vec as [|v vec IH]; intros ofs; [done|]. cbn. by f_equal. Qed.

Section thms.
Context {S : Type} `{!PageSource S, !PageSourceLaws S} (allocator : page_factory_t S) `{!PageFactoryLaws S allocator}.
Context (heap_grants : Z → bool) (Hheap : ∀ n, heap_grants n = true).
Context (boot_pread : pread_t → Z) (Hread : ∀ r, boot_pread r = iov_size (pr_to r)).
Implicit Types s : paging S.

Lemma read_pieces_spec vec ofs off s :
  Forall piece_ok vec → 0 ≤ ofs → 0 ≤ off → ofs + off + total vec < 2 ^ 64 →
  read_pieces boot_pread vec ofs off s = Done ((preads_of vec (ofs + off), off + total vec), s).
Proof.
  intros Hv Ho. revert off s. induction Hv as [|v vec (Hb & Hs & He) Hv IH]; intros off s Hoff Hlt.
  { cbn. by rewrite Z.add_0_r. }
  cbn [read_pieces preads_of total] in *. pose proof (total_nonneg vec Hv). rewrite Hread. cbn [pr_to]. rewrite Z.eqb_refl. cbn [negb].
  rewrite (u64_small (ofs + off)), (u64_small (off + iov_size v)) by lia.
  rewrite (bind_done _ _ _ _ _ (IH (off + iov_size v) s ltac:(lia) ltac:(lia))). by rewrite (Z.add_assoc ofs), (Z.add_assoc off).
Qed.

(** paging_iovec_read of a mapped range within one maximal chunk *)
Lemma iovec_read_spec s vaddr size ofs fuel :
  paging_ok s → 0 ≤ vaddr → vaddr + size + 4096 < 2 ^ 64 → c48 vaddr + size ≤ 2 ^ 48 → mapped_small s vaddr size →
  0 < size ≤ 2 ^ 30 → size / 4096 + 2 ≤ Z.of_nat fuel → 0 ≤ ofs → ofs + size < 2 ^ 64 →
  ∃ vec, paging_iovec_read heap_grants boot_pread (Datatypes.S fuel) ofs vaddr size (2 ^ 30) s = Done ((preads_of vec ofs, size), s)
    ∧ Forall piece_ok vec ∧ total vec = size ∧ (∀ k, 0 ≤ k < size → byte_at vec k = phys_at s (vaddr + k)).
Proof.
  intros Hok Hv0 Hv1 Hc Hmap Hs Hf Ho Hlt.
  destruct (paging_iovec_spec heap_grants Hheap s vaddr size (2 ^ 30) fuel) as (vec & E & Hv & Ht & Hb); try done; try lia.
  exists vec. split; [|done]. unfold paging_iovec_read.
  assert (∃ f, fuel = Datatypes.S f) as [f ->].
  { destruct fuel as [|f]; [pose proof (Z.div_pos size 4096); lia|by eexists]. }
  set (F := Datatypes.S (Datatypes.S f)) in *. change F with (Datatypes.S (Datatypes.S f)) at 1. cbn [iovec_read_loop].
  rewrite (proj2 (Z.ltb_lt _ _)) by lia. rewrite Z.add_0_r, Z.sub_0_r, (u64_small vaddr), (u64_small size) by lia.
  rewrite (bind_done _ _ _ _ _ E), (bind_done _ _ _ _ _ (read_pieces_spec vec ofs 0 s Hv Ho ltac:(lia) ltac:(lia))).
  rewrite Z.add_0_r, Z.add_0_l, Ht. cbv beta iota. rewrite (proj2 (Z.ltb_ge _ _)) by lia. run. by rewrite app_nil_r.
Qed.

(** All blocks: every write is a byte of the file at its place, and every
    byte is written. *)
Lemma initrd_loop_spec s size fuel blocks ofs :
  paging_ok s → mapped_small s initrd_base size → size < 2 ^ 45 → 2 ^ 9 + 2 ≤ Z.of_nat fuel → 0 ≤ ofs →
  size - ofs ≤ sz2M * Z.of_nat blocks →
  ∃ rs, initrd_loop heap_grants boot_pread (Datatypes.S fuel) (Datatypes.S blocks) ofs size s = Done (rs, s)
    ∧ (∀ w a b, w ∈ (FromFile <$> rs) → byte_of w a = Some b →
         ∃ k, ofs ≤ k < size ∧ phys_at s (initrd_base + k) = Some a ∧ b = FileByte k)
    ∧ (∀ k a, ofs ≤ k < size → phys_at s (initrd_base + k) = Some a → ∃ w, w ∈ (FromFile <$> rs) ∧ byte_of w a = Some (FileByte k)).
Proof.
  intros Hok Hmap Hsz Hfuel. change sz2M with 2097152 in *. change initrd_base with 0xffffc00000000000 in *.
  revert ofs. induction blocks as [|blocks IH]; intros ofs Ho Hb.
  all: destruct (Z.ltb_spec ofs size); [|exists []; cbn [initrd_loop]; rewrite (proj2 (Z.ltb_ge _ _)) by lia;
         split; [done|]; split; [by intros w a b ?%elem_of_nil|intros k a Hk; lia]].
  { lia. }
  set (rest := Datatypes.S blocks) in *. cbn [initrd_loop]. rewrite (proj2 (Z.ltb_lt _ _)) by lia. change sz2M with 2097152.
  change initrd_base with 0xffffc00000000000. rewrite (u64_small (0xffffc00000000000 + ofs)) by lia.
  set (n := (if ofs + 2097152 <? size then ofs + 2097152 else size) - ofs).
  assert (0 < n ≤ 2097152 ∧ ofs + n ≤ size ∧ (n = 2097152 ∨ ofs + n = size)) as (Hn & Hn' & Hn2) by (unfold n; destruct (Z.ltb_spec (ofs + 2097152) size); lia).
  destruct (iovec_read_spec s (0xffffc00000000000 + ofs) n ofs fuel) as (vec & E & Hv & Ht & Hby); try done; try lia.
  { rewrite c48_shift by (change (c48 0xffffc00000000000) with 0xc00000000000; lia). change (c48 0xffffc00000000000) with 0xc00000000000. lia. }
  { intros k Hk. rewrite <- Z.add_assoc. apply Hmap. lia. }
  { pose proof (Z.div_le_mono n 2097152 4096). change (2097152 / 4096) with 512 in *. lia. }
  rewrite (bind_done _ _ _ _ _ E), Z.eqb_refl. cbn [negb].
  destruct (IH (ofs + 2097152)) as (rs & E2 & Hcov & Hreach); [lia|lia|]. fold rest in E2. rewrite (bind_done _ _ _ _ _ E2).
  exists (preads_of vec ofs ++ rs). split; [done|]. rewrite fmap_app, preads_reads. split.
  - intros w a b [Hw|Hw]%elem_of_app Hwb.
    + destruct (reads_cover vec ofs w a b Hv Hw Hwb) as (k & Hk & Hka & ->). exists (ofs + k). split; [lia|]. split; [|done].
      rewrite Z.add_assoc, <- Hby by lia. done.
    + destruct (Hcov w a b Hw Hwb) as (k & ? & ? & ?). exists k. split; [lia|done].
  - intros k a Hk Hka. destruct (Z.ltb_spec k (ofs + n)).
    + destruct (reads_reach vec ofs (k - ofs) a) as (w & Hw & Hwb); [done|lia| |].
      { rewrite Hby by lia. rewrite <- Hka. f_equal. lia. }
      exists w. split; [apply elem_of_app; by left|]. rewrite Hwb. do 2 f_equal. lia.
    + destruct (Hreach k a) as (w & Hw & Hwb); [lia|done|]. exists w. split; [apply elem_of_app; by right|done].
Qed.

(** Load_initrd, with the region at -64TB free and memory for file and
    tables: it returns, and every byte of the file is where its address in
    the region is translated to. *)
Theorem initrd_loaded nx size fuel s :
  let pages := Z.to_nat ((size + 4095) / 4096) in
  paging_ok s → 0 ≤ size < 2 ^ 45 → 2 ^ 9 + 2 ≤ Z.of_nat fuel →
  can_give (tables_needed 3 pages initrd_base true) (source s) → stock pages (source s) →
  (∀ x, in_range initrd_base pages x → leaf s x = None) →
  ∃ rs s', load_initrd heap_grants boot_pread allocator (Datatypes.S fuel) nx size s = Done (rs, s') ∧ paging_ok s'
    ∧ ∀ k, 0 ≤ k < size → ∃ a, phys_at s' (initrd_base + k) = Some a ∧ content (FromFile <$> rs) a = Some (FileByte k).
Proof.
  intros pages Hok Hsz Hfuel Hcg Hst Hnone.
  assert (Z.of_nat pages = (size + 4095) / 4096) as Hp by (unfold pages; rewrite Z2Nat.id by (apply Z.div_pos; lia); done).
  pose proof (Z.div_mod (size + 4095) 4096) as Hdm. pose proof (Z.mod_pos_bound (size + 4095) 4096) as Hmb.
  assert (c48 initrd_base = 0xc00000000000) as Hc by reflexivity. assert (initrd_base = 0xffffc00000000000) as Hib by reflexivity.
  set (flags := Z.lor (Z.lor PTE_PRESENT PTE_ACCESSED) (if nx then PTE_NX else 0)).
  assert (addr_of flags = 0) as Hfa by (unfold flags; by destruct nx).
  assert (missing (leaf s) initrd_base pages = pages) as Em.
  { apply missing_all. intros i Hi. apply Hnone. unfold in_range. rewrite c48_shift by lia. lia. }
  destruct (map_range_spec allocator flags 0 0 initrd_base size s) as (s1 & pg & E1 & Hok1 & _ & _ & Hf & Ho); fold pages; try done; try lia.
  { by rewrite Nat.add_0_r. }
  { by rewrite Em, Nat.add_0_r. }
  { intros x Hx d e He. change (leaf s x = Some (d, e)) in He. by rewrite Hnone in He. }
  fold pages in Hf, Ho.
  assert (∀ k, 0 ≤ k < size → in_range initrd_base pages (initrd_base + k) ∧ c48 (initrd_base + k) = c48 initrd_base + k) as Hin.
  { intros k Hk. unfold in_range. rewrite c48_shift by lia. lia. }
  assert (mapped_small s1 initrd_base size) as Hmap.
  { intros k Hk. destruct (Hin k Hk) as [Rk _]. destruct Hf as (_ & _ & _ & L). eexists. rewrite L.
    by rewrite decide_True by (split; [exact Rk|by apply Hnone]). }
  destruct (initrd_loop_spec s1 size fuel (Z.to_nat (size / sz2M + 1)) 0) as (rs & E2 & Hcov & Hreach); try done; try lia.
  { change sz2M with 2097152. pose proof (Z.div_mod size 2097152). pose proof (Z.mod_pos_bound size 2097152). pose proof (Z.div_pos size 2097152). lia. }
  exists rs, s1. unfold load_initrd. fold flags. rewrite (bind_done _ _ _ _ _ E1). split; [done|]. split; [done|]. intros k Hk.
  destruct (Hin k Hk) as [Rk Ck]. eexists. split; [by apply (filled_translate flags initrd_base pages pg _ s s1 _ Hfa Hf Ho Rk), Hnone|].
  apply content_spec; [apply Hreach; [lia|]; by apply (filled_translate flags initrd_base pages pg _ s s1 _ Hfa Hf Ho Rk), Hnone|].
  intros w b Hw Hb. destruct (Hcov w _ b Hw Hb) as (j & Hj & Ej & ->). f_equal. destruct (Hin j ltac:(lia)) as [Rj Cj].
  pose proof (filled_inj flags initrd_base pages pg _ s s1 _ _ _ Hfa Hf Ho Rj (Hnone _ Rj) Rk (Hnone _ Rk) Ej
    (filled_translate flags initrd_base pages pg _ s s1 _ Hfa Hf Ho Rk (Hnone _ Rk))). lia.
Qed.
End thms.
