(* ===== verification/PhysPages.v ===== *)
(** * The physical memory map as the source of table pages

    Discharges [PageSourceLaws] for boot/physmap.cc: alloc_high hands out
    pages that were free and keeps every other page as it was, as long as the
    highest free range lasts. *)

From stdpp Require Import base tactics list numbers option.
From S2P Require Import Prelude Physmap PhysmapFacts PhysmapThms BootPaging PageWalk BootPagingThms.

#[local] Open Scope Z_scope.

Section phys.
Context `{BootHeap}.

(** The highest free range [r] has [n] pages to give and one to spare, and
    none of them begins at 1MB or 4GB, where the map keeps index counters.
    The first page may need a slot in the array; the next are joined to it. *)
Definition giving (n : nat) (s : physmap) : Prop :=
  ∃ N l1 r l2, grow_ok ∧ physmap_wf N s ∧ (N < 2 ^ 29 ∨ N < 2 ^ 30 ∧ joins_next (rbase r + rsize r) l2 = true)
    ∧ live s = l1 ++ r :: l2 ∧ rtype r = PHYSMEM_TYPE_NORMAL ∧ Forall (λ x, rtype x ≠ PHYSMEM_TYPE_NORMAL) l2
    ∧ (rbase r + rsize r) mod 4096 = 0 ∧ rbase r + rsize r ≤ 2 ^ 40 ∧ Z.of_nat n * 4096 < rsize r
    ∧ ∀ k, 0 ≤ k < Z.of_nat n → off_boundary (rbase r + rsize r - k * 4096).

Lemma giving_less n m s : (n ≤ m)%nat → giving m s → giving n s.
Proof.
  intros Hnm (N & l1 & r & l2 & Hg & Hwf & HN & Hs & Ht & Hl & Hal & Hhi & Hsz & Hob).
  exists N, l1, r, l2. split_and!; try done; [lia|]. intros k Hk. apply Hob. lia.
Qed.

Lemma giving_step n s :
  giving (S n) s → ∃ p s',
    alloc_high s = Done (PhysAlloc p PAGE_SIZE, s') ∧ p mod 4096 = 0 ∧ 0 < p < 2 ^ 40
    ∧ type_at (live s) p = Some PHYSMEM_TYPE_NORMAL ∧ type_at (live s') p = Some PHYSMEM_TYPE_ALLOCATED
    ∧ (∀ q, type_at (live s) q ≠ Some PHYSMEM_TYPE_NORMAL → type_at (live s') q ≠ Some PHYSMEM_TYPE_NORMAL)
    ∧ giving n s'.
Proof.
  intros (N & l1 & r & l2 & Hg & Hwf & HN & Hs & Ht & Hl & Hal & Hhi & Hsz & Hob).
  assert (PAGE_SIZE < rsize r) as Hsz1 by (unfold PAGE_SIZE; lia).
  pose proof (wf_map _ _ Hwf) as Hm. rewrite Hs in Hm. pose proof Hm as (Hl1 & Hb & _)%map_ok_mid.
  pose proof (map_ok_end _ _ Hl1) as Hb0.
  assert (off_boundary (rbase r + rsize r)) as Hob0 by (specialize (Hob 0 ltac:(lia)); by rewrite Z.mul_0_l, Z.sub_0_r in Hob).
  destruct (alloc_high_shape N s l1 r l2) as (s' & nx & E & Hwf' & _ & [Hty _] & Hl' & Hnb & Hnt); try done; [lia|].
  exists (rbase r + rsize r - PAGE_SIZE), s'. unfold PAGE_SIZE in *. split_and!; try done; try lia.
  - by rewrite Zminus_mod, Hal.
  - rewrite Hs, (type_at_mid 0 l1 r l2) by done. unfold contains.
    by rewrite (proj2 (Z.leb_le _ _)), (proj2 (Z.ltb_lt _ _)) by lia; rewrite Ht.
  - rewrite Hty. by rewrite (proj2 (Z.leb_le _ _)), (proj2 (Z.ltb_lt _ _)) by lia.
  - intros q Hq. rewrite Hty. by destruct (_ && _).
  - exists (if joins_next (rbase r + rsize r) l2 then N else 2 * N), l1, (with_size (rsize r - 4096) r), (nx :: if joins_next (rbase r + rsize r) l2 then tail l2 else l2).
    cbn [rbase rsize rtype with_size]. split_and!; try done; try lia.
    + right. split; [destruct (joins_next _ _) eqn:Ej; [lia|destruct HN as [|[_ ?]]; [lia|congruence]]|].
      cbn [joins_next]. apply andb_true_intro. split; apply Z.eqb_eq; [lia|done].
    + apply Forall_cons. split; [by rewrite Hnt|]. destruct (joins_next _ _); [|done]. by destruct l2; [|inversion Hl].
    + replace (rbase r + (rsize r - 4096)) with (rbase r + rsize r - 4096) by ring. by rewrite Zminus_mod, Hal.
    + intros k Hk. replace (rbase r + (rsize r - 4096) - k * 4096) with (rbase r + rsize r - (k + 1) * 4096) by ring. apply Hob. lia.
Qed.

Lemma giving_law n s :
  giving (S n) s → ∃ p s',
    alloc_table_page s = Done (PhysAlloc p PAGE_SIZE, s') ∧ p mod 4096 = 0 ∧ 0 < p < 2 ^ 40
    ∧ ¬ type_at (live s) p ≠ Some PHYSMEM_TYPE_NORMAL ∧ type_at (live s') p ≠ Some PHYSMEM_TYPE_NORMAL
    ∧ (∀ q, type_at (live s) q ≠ Some PHYSMEM_TYPE_NORMAL → type_at (live s') q ≠ Some PHYSMEM_TYPE_NORMAL)
    ∧ giving n s'.
Proof.
  intros (p & s' & E & Ha & Hr & Hold & Hnew & Hk & Hg)%giving_step. exists p, s'.
  split_and!; [exact E|done|lia|lia|by rewrite Hold; intros []|by rewrite Hnew|done|done].
Qed.

#[export] Instance physmap_laws : PageSourceLaws physmap := {|
  in_use := λ s p, type_at (live s) p ≠ Some PHYSMEM_TYPE_NORMAL;
  can_give := giving;
  can_give_less := giving_less;
  give_page := giving_law
|}.
End phys.
