(* ===== verification/BootPagingCases.v ===== *)
(** * Concrete page tables

    The theorems on boot/paging.cc at work on the small machine of
    [PhysmapCases], and the runs on which the code does not do what it is
    meant to. *)

From stdpp Require Import base tactics list numbers option.
From S2P Require Import Prelude Physmap PhysmapFacts PhysmapThms PhysmapCases BootPaging PageWalk BootPagingThms BootPagingMap BootPagingRange BootIovec ElfLoad PhysPages.

#[local] Open Scope Z_scope.
#[local] Existing Instance demo_heap.

Lemma tables_ok_empty root P :
  root mod 4096 = 0 → 0 < root < 2 ^ 40 → P root → tables_ok (λ _, 0) root P.
Proof.
  intros Hr Hlt HP. assert (∀ va d t, table_at (λ _, 0) root va d = Some t → d = 0%nat ∧ t = root) as Hone.
  { intros va [|d] t Ht; [split; [done|by injection Ht]|]. cbn in Ht. by destruct (table_at _ _ va d). }
  split.
  - intros va d t _ [-> ->]%Hone. done.
  - intros va va' d d' t _ _ [-> ->]%Hone [-> _]%Hone. split; [done|]. intros i Hi. lia.
  - intros va d e _ He _. unfold entry_at in He. destruct (table_at _ _ va d); [|done]. by injection He as <-.
  - intros va e [= <-]. done.
Qed.

(** No tables yet, the root in memory that is in use *)
Definition bare : paging physmap := Paging (λ _, 0) 0x200000 demo 0.

Lemma bare_ok : paging_ok bare.
Proof. apply tables_ok_empty; [done|done|]. vm_compute. congruence. Qed.

Lemma bare_open va d : opened bare va d.
Proof. intros d' e He. done. Qed.

Lemma demo_gives n : (n ≤ 1000)%nat → can_give n (source bare).
Proof.
  intros Hn. exists 64, [low_ram; rom; kernel_image], ram, [flash].
  split_and!; try done; [by left|each_range|cbn; lia|].
  intros k Hk. cbn. split; destruct (Z.ltb_spec (0x400000 + 0x7c00000 - k * 4096 - PAGE_SIZE) 0x100000),
    (Z.ltb_spec (0x400000 + 0x7c00000 - k * 4096) 0x100000),
    (Z.ltb_spec (0x400000 + 0x7c00000 - k * 4096 - PAGE_SIZE) 0x100000000),
    (Z.ltb_spec (0x400000 + 0x7c00000 - k * 4096) 0x100000000); unfold PAGE_SIZE in *; done || lia.
Qed.


(** A machine with one region for tables and another for data, whose factory
    hands out at most three pages at a time *)
Definition regions : Type := Z * Z.
Definition region_limit : Z := 2 ^ 30.
#[local] Instance regions_source : PageSource regions :=
  λ x, Done (PhysAlloc (fst x) 4096, (fst x + 4096, snd x)).
Definition regions_factory : page_factory_t regions :=
  λ size _ x, let n := Z.min size 0x3000 in Done (PhysAlloc (snd x) n, (fst x, snd x + n)).

Definition regions_in_use (x : regions) (q : Z) : Prop :=
  q < fst x ∧ q < region_limit ∨ region_limit ≤ q < snd x.

#[local] Instance regions_laws : PageSourceLaws regions.
Proof.
  refine {| in_use := regions_in_use;
            can_give := λ n x, fst x mod 4096 = 0 ∧ 0 < fst x ∧ fst x + 4096 * Z.of_nat n ≤ region_limit |}.
  - intros n m x Hnm (? & ? & ?). split_and!; try done; lia.
  - intros n [t d] (Ha & H0 & Hhi). cbn in *. exists t, (t + 4096, d). unfold regions_in_use, region_limit in *. cbn.
    split_and!; try done; try lia. all: by rewrite <- (Z.mul_1_l 4096) at 1; rewrite Z.mod_add by lia.
Defined.

#[local] Instance regions_factory_laws : PageFactoryLaws regions regions_factory.
Proof.
  refine {| stock := λ n x, snd x mod 4096 = 0 ∧ region_limit ≤ snd x ∧ snd x + 4096 * Z.of_nat n ≤ 2 ^ 40 |}.
  - intros n [t d] p x' Hs [= <- <-]. exact Hs.
  - intros n later addr [t d] (Ha & Hlo & Hhi). cbn in *. exists d, (Nat.min (S n) 3).
    assert (Z.min (4096 * Z.of_nat (S n)) 0x3000 = 4096 * Z.of_nat (Nat.min (S n) 3)) as Em by lia.
    exists (t, d + 4096 * Z.of_nat (Nat.min (S n) 3)). unfold regions_factory, regions_in_use, region_limit in *. cbn [fst snd].
    rewrite Em. split_and!; try done; try lia. rewrite Z.mul_comm, Z.mod_add by lia. done.
  - intros n size addr [t d] p x' Hg [= <- <-]. exact Hg.
Defined.

Definition two_regions : paging regions := Paging (λ _, 0) 0x1000 (0x2000, region_limit) 0.


(** ** Runs that go wrong *)

Definition rw : Z := Z.lor PTE_PRESENT PTE_WRITABLE.
Definition answer {S A B} (c : M S A) (f : A → S → B) (s : S) : option B :=
  match c s with Done (a, s') => Some (f a s') | Fault _ => None end.
Definition where_is (va : Z) (s : paging regions) : option Z := translate (words s) (root_page_dir s) va.

(** paging_alias_range sets the first page only. *)
Lemma alias_range_first_only :
  answer (paging_map_range regions_factory 0x400000 0x2000 rw;;
          paging_map_range regions_factory 0x800000 0x1000 rw;;
          paging_alias_range 0x800000 0x400000 0x2000 rw)
    (λ _ s, (where_is 0x800000 s, where_is 0x401000 s, where_is 0x801000 s)) two_regions
  = Some (Some 0x40000000, Some 0x40001000, None).
Proof. vm_compute. reflexivity. Qed.

(** Where the alias has no table the null pointer is stored through. *)
Lemma alias_range_null : paging_alias_range 0x800000 0x400000 0x1000 rw two_regions = Fault OutOfRange.
Proof. vm_compute. reflexivity. Qed.

(** paging_find_pte does not know large pages: the page at the physical
    address is read as if it were a table. *)
Lemma physaddr_of_large :
  answer (paging_map_physical 0x200000 0x200000 0x200000 rw;; paging_physaddr_of 0x201234)
    (λ a s, (where_is 0x201234 s, a)) two_regions = Some (Some 0x201234, 0xffffffff).
Proof. vm_compute. reflexivity. Qed.

(** A large page at physical address 0 is taken for an entry that is free,
    and lost to the next small mapping. *)
Lemma large_page_lost :
  answer (paging_map_physical 0 0 0x200000 rw;; paging_map_physical 0x1000 0x1000 0x1000 rw)
    (λ _ s, (where_is 0x1000 s, where_is 0x2000 s)) two_regions = Some (Some 0x1000, None).
Proof. vm_compute. reflexivity. Qed.

(** "Not mapped" is 32 bits of ones, which is not the -1 that
    paging_access_virtual_memory looks for in 64 bits. *)
Lemma physaddr_of_unmapped : answer (paging_physaddr_of 0x5000) (λ a _, (a, u64 (-1))) two_regions
  = Some (0xffffffff, 0xffffffffffffffff).
Proof. vm_compute. reflexivity. Qed.

(** When the factory has nothing left, the range is mapped to the bottom of
    physical memory. *)
Lemma map_range_out_of_memory :
  answer (paging_map_range (λ _ _ x, Done (PhysAlloc 0 0, x)) 0x400000 0x2000 rw)
    (λ _ s, (where_is 0x400000 s, where_is 0x401000 s, messages s)) two_regions
  = Some (Some 0, Some 0x1000, 1%nat).
Proof. vm_compute. reflexivity. Qed.

(** A range that ends at the top of the address space is not mapped. *)
Lemma map_range_top :
  answer (paging_map_range regions_factory 0xfffffffffffff000 0x1000 rw)
    (λ _ s, (where_is 0xfffffffffffff000 s, messages s)) two_regions = Some (None, 0%nat).
Proof. vm_compute. reflexivity. Qed.

(** ** A kernel image *)

Definition code_seg : Elf64_Phdr := Phdr 5 0x1000 0xffffffff80000000 0x1800 0x1800.
Definition note_seg : Elf64_Phdr := Phdr 0 0x4000 0 0x20 0x20.
Definition data_seg : Elf64_Phdr := Phdr 6 0x3000 0xffffffff80003000 0x800 0x2800.
Definition image : list Elf64_Phdr := [code_seg; note_seg; data_seg].

Lemma image_apart : apart (to_load 0 image).
Proof.
  intros i j b c x Hi Hj Hb Hc. change (to_load 0 image) with [code_seg; data_seg] in *. unfold seg_range, in_range in *.
  change (Z.of_nat (seg_pages code_seg)) with 2 in *. destruct i as [|[|i]], j as [|[|j]]; cbn in Hi, Hj; try done; exfalso;
    injection Hi as <-; injection Hj as <-; revert Hb Hc; change (c48 (p_vaddr code_seg)) with 0xffff80000000;
    change (c48 (p_vaddr data_seg)) with 0xffff80003000; change (Z.of_nat (seg_pages code_seg)) with 2;
    change (Z.of_nat (seg_pages data_seg)) with 3; lia.
Qed.

Lemma image_fits b : b ∈ to_load 0 image → seg_fits b ∧ p_memsz b / 4096 + 2 ≤ Z.of_nat 8.
Proof.
  change (to_load 0 image) with [code_seg; data_seg]. rewrite !elem_of_cons, elem_of_nil.
  intros [->|[->|[]]]; (split; [split|]); vm_compute; intuition discriminate.
Qed.


(** Where the last piece can take only a part of a chunk, [chunk] is set to
    something else than what was added: the pieces for 0x3800 bytes have
    0x4000. *)
Lemma iovec_partial_chunk :
  answer (paging_map_range regions_factory 0x400000 0x6000 rw;; paging_iovec (λ _, true) 9 0x400800 0x3800 0x1800)
    (λ vec s, (total vec, messages s)) two_regions = Some (0x4000, 0%nat).
Proof. vm_compute. reflexivity. Qed.

(** Ten kilobytes and a half at -64TB *)
Lemma initrd_witness :
  ∃ rs s', load_initrd (λ _, true) (λ r, iov_size (pr_to r)) regions_factory 601 true 0x2a00 two_regions = Done (rs, s')
    ∧ ∃ a, phys_at s' (initrd_base + 0x2345) = Some a ∧ content (FromFile <$> rs) a = Some (FileByte 0x2345).
Proof.
  destruct (initrd_loaded regions_factory (λ _, true) (λ _, eq_refl) (λ r, iov_size (pr_to r)) (λ _, eq_refl) true 0x2a00 600 two_regions)
    as (rs & s' & E & _ & Hk); [|lia|lia| | |intros x _; reflexivity|].
  - apply tables_ok_empty; [reflexivity|split; reflexivity|]. left. split; reflexivity.
  - split; [reflexivity|]. split; [reflexivity|]. vm_compute. discriminate.
  - split; [reflexivity|]. split; [vm_compute; discriminate|]. vm_compute. discriminate.
  - exists rs, s'. split; [exact E|]. apply Hk. lia.
Defined.

(** A relocation of an address that is not mapped is stored, byte after byte,
    at the last address below 4GB. *)
Lemma reloc_unmapped :
  answer (reloc_kernel 9 0x1000 [Rela 0x5000 7]) (λ l _, l) two_regions
  = Some [(0x1007, (λ i, (0xffffffff, i, 1)) <$> seqZ 0 8)].
Proof. vm_compute. reflexivity. Qed.
