(* ===== verification/BootMalloc.v ===== *)
(** * boot/malloc.cc: the boot loader's heap

    The heap is a run of blocks, each with a 16-byte header, up to a sentinel
    of size 0.  [hmem] is the memory seen as headers, by address; every
    header is 16-byte aligned, so two of them never overlap.  Payloads are
    not modelled.  PANIC does not return. *)

From stdpp Require Import base tactics list numbers option gmap.
From S2P Require Import Prelude.

#[local] Open Scope Z_scope.

Definition SIG_FREE : Z := 0xFEEEB10C.
Definition SIG_USED : Z := 0xA10CA1ED.

(** struct blk_hdr_t *)
Record blk_hdr_t := BlkHdr {
  hsize : Z;        (* uint32_t, header included *)
  hsig : Z;         (* uint32_t *)
  neg_size : Z;     (* uint32_t *)
  hself : Z         (* uint32_t *)
}.

Definition HDR : Z := 16.   (* sizeof(blk_hdr_t) *)

Definition invalid (this : Z) (b : blk_hdr_t) : bool :=
  negb (u32 (hsize b + neg_size b) =? 0) || negb (hself b =? u32 this).
Definition make_invalid (b : blk_hdr_t) : blk_hdr_t := BlkHdr 0xBAD11111 (hsig b) 0 0.
Definition make_valid (this : Z) (b : blk_hdr_t) : blk_hdr_t :=
  BlkHdr (hsize b) (hsig b) (neg_size b) (u32 this).
Definition set_size (n : Z) (b : blk_hdr_t) : blk_hdr_t :=
  BlkHdr (u32 n) (hsig b) (u32 (- n)) (hself b).
Definition set_sig (sg : Z) (b : blk_hdr_t) : blk_hdr_t :=
  BlkHdr (hsize b) sg (neg_size b) (hself b).

(** The static variables *)
Record heap := Heap {
  hmem : gmap Z blk_hdr_t;
  heap_st : Z;
  heap_en : Z;
  first_free : Z;
  heap_free : Z       (* size_t *)
}.

Abbreviation HP := (M heap).

Definition set_mem (m : gmap Z blk_hdr_t) (h : heap) : heap :=
  Heap m (heap_st h) (heap_en h) (first_free h) (heap_free h).
Definition set_first (p : Z) (h : heap) : heap :=
  Heap (hmem h) (heap_st h) (heap_en h) p (heap_free h).

Definition hdr_at (p : Z) : HP blk_hdr_t := λ h,
  match hmem h !! p with Some b => Done (b, h) | None => Fault OutOfRange end.
(** Change the header at [p], which may be memory that was not one before *)
Definition with_hdr (p : Z) (f : blk_hdr_t → blk_hdr_t) : HP unit :=
  modify (λ h, set_mem (<[p := f (default (BlkHdr 0 0 0 0) (hmem h !! p))]> (hmem h)) h).

(** set_size, make_valid and a signature, as the code always does together *)
Definition init_hdr (p size sg : Z) : HP unit :=
  with_hdr p (set_size size);; with_hdr p (make_valid p);; with_hdr p (set_sig sg).

Definition malloc_init (st en : Z) : HP unit :=
  let st := Z.land (u64 (st + 15)) (u64 (- 16)) in
  let en := Z.land en (u64 (- 16)) in
  let hen := u64 (en - HDR) in
  modify (λ h, Heap (hmem h) st hen (first_free h) (heap_free h));;
  init_hdr hen 0 SIG_USED;;
  modify (set_first st);;
  init_hdr st (u64 (hen - st)) SIG_FREE;;
  b ← hdr_at st;
  modify (λ h, Heap (hmem h) (heap_st h) (heap_en h) (first_free h) (hsize b)).

Definition next_blk (p : Z) : HP Z := b ← hdr_at p; mret (u64 (p + hsize b)).

Definition malloc_panic {A} : HP A := throw Panicked.

Fixpoint malloc_coalesce (fuel : nat) (blk nxt : Z) : HP Z :=
  match fuel with
  | O => throw OutOfFuel
  | S fuel =>
      b ← hdr_at blk;
      n ← hdr_at nxt;
      if (hsig b =? SIG_FREE) && (hsig n =? SIG_FREE) then
        with_hdr blk (set_size (hsize b + hsize n));;
        with_hdr nxt make_invalid;;
        ff ← gets first_free;
        (if ff =? nxt then modify (set_first blk) else mret tt);;
        nxt ← next_blk blk;
        modify (λ h, Heap (hmem h) (heap_st h) (heap_en h) (first_free h) (u64 (heap_free h + HDR)));;
        malloc_coalesce fuel blk nxt
      else mret nxt
  end.

(** Enough rounds for any walk over the headers *)
Definition walk_fuel (h : heap) : nat := S (S (base.size (hmem h))).

(** The block [blk] is free and large enough: take it.  The result is the
    address of the payload. *)
Definition malloc_take (blk bytes align_adj : Z) : HP Z :=
  b ← hdr_at blk;
  blk ← (if negb (align_adj =? 0) then
           let aligned_hdr := u64 (blk + align_adj) in
           init_hdr aligned_hdr (hsize b - align_adj) SIG_FREE;;
           ff ← gets first_free;
           (if aligned_hdr <? ff then modify (set_first aligned_hdr) else mret tt);;
           with_hdr blk (set_size align_adj);;
           mret aligned_hdr
         else mret blk);
  b ← hdr_at blk;
  let remain := u64 (hsize b - bytes) in
  (if negb (remain =? 0) then init_hdr (u64 (blk + bytes)) remain SIG_FREE else mret tt);;
  with_hdr blk (set_size bytes);;
  with_hdr blk (set_sig SIG_USED);;
  mret (u64 (blk + HDR)).

Definition align_adj_of (blk alignment : Z) : Z :=
  let p := u64 (blk + HDR) in
  u64 (Z.land (u64 (p + alignment - 1)) (u64 (- alignment)) - p).

Fixpoint malloc_loop (fuel : nat) (start_pos bytes alignment blk : Z) : HP Z :=
  match fuel with
  | O => throw OutOfFuel
  | S fuel =>
      nxt ← next_blk blk;
      n ← hdr_at nxt;
      if invalid nxt n then malloc_panic
      else
        k ← gets walk_fuel;
        nxt ← malloc_coalesce k blk nxt;
        b ← hdr_at blk;
        r ← (if hsig b =? SIG_FREE then
               ff ← gets first_free;
               f ← hdr_at ff;
               (if (blk <? ff) || (hsig f =? SIG_USED) then modify (set_first blk) else mret tt);;
               let align_adj := align_adj_of blk alignment in
               if u64 (bytes + align_adj) <=? hsize b then
                 p ← malloc_take blk bytes align_adj; mret (Some p)
               else mret None
             else mret None);
        match r with
        | Some p => mret p
        | None =>
            st ← gets heap_st;
            let blk := if 0 <? hsize b then nxt else st in
            if blk =? start_pos then mret 0
            else malloc_loop fuel start_pos bytes alignment blk
        end
  end.

(** ((bytes + 15) & -16) + sizeof(blk_hdr_t) *)
Definition block_bytes (bytes : Z) : Z := u64 (Z.land (u64 (bytes + 15)) (u64 (- 16)) + HDR).

Definition malloc_aligned (bytes alignment : Z) : HP Z :=
  if bytes =? 0 then mret 0
  else
    blk ← gets first_free;
    b ← hdr_at blk;
    if invalid blk b then malloc_panic
    else
      k ← gets walk_fuel;
      malloc_loop k blk (block_bytes bytes) alignment blk.

Definition malloc (bytes : Z) : HP Z := malloc_aligned bytes 16.

(** The shrinking branch of realloc_aligned *)
Definition realloc_shrink (blk nxt bytes : Z) : HP unit :=
  let new_blk := u64 (blk + bytes) in
  init_hdr new_blk (nxt - new_blk) SIG_FREE;;
  with_hdr blk (set_size (new_blk - blk)).

(** realloc_aligned; the payload copy of the moving branch has no state here *)
Definition realloc_aligned (p bytes alignment : Z) : HP Z :=
  if p =? 0 then malloc_aligned bytes alignment
  else
    let blk := u64 (p - HDR) in
    b ← hdr_at blk;
    if invalid blk b then malloc_panic
    else
      let bytes := block_bytes bytes in
      nxt ← next_blk blk;
      if hsize b <? bytes then
        n ← hdr_at nxt;
        if invalid nxt n then malloc_panic
        else
          nxt ← (if hsig n =? SIG_FREE then
                   nn ← next_blk nxt;
                   k ← gets walk_fuel;
                   malloc_coalesce k nxt nn
                 else mret nxt);
          n ← hdr_at nxt;
          if (hsig n =? SIG_FREE) && (bytes <=? u32 (hsize b + hsize n)) then
            realloc_shrink blk nxt bytes;;
            with_hdr nxt make_invalid;;
            mret (u64 (blk + HDR))
          else
            other_blk ← malloc_aligned bytes alignment;
            if other_blk =? 0 then mret 0
            else
              with_hdr blk (set_sig SIG_FREE);;
              ff ← gets first_free;
              (if blk <? ff then modify (set_first blk) else mret tt);;
              mret other_blk
      else if bytes <? hsize b then
        realloc_shrink blk nxt bytes;;
        mret (u64 (blk + HDR))
      else mret (u64 (blk + HDR)).

Definition realloc (p bytes : Z) : HP Z := realloc_aligned p bytes 16.

Definition free (p : Z) : HP unit :=
  if p =? 0 then mret tt
  else
    let blk := u64 (p - HDR) in
    b ← hdr_at blk;
    if negb (hsig b =? SIG_USED) then throw Panicked
    else if invalid blk b then malloc_panic
    else
      with_hdr blk (set_sig SIG_FREE);;
      ff ← gets first_free;
      if blk <? ff then modify (set_first blk) else mret tt.

(** The byte count is cut to 16 bits *)
Definition calloc (num size : Z) : HP Z := malloc (u16 (num * size)).

Fixpoint malloc_validate_from (fuel : nat) (blk : Z) : HP bool :=
  match fuel with
  | O => throw OutOfFuel
  | S fuel =>
      b ← hdr_at blk;
      h ← gets id;
      if invalid blk b || (negb (hsig b =? SIG_FREE) && negb (hsig b =? SIG_USED)) then mret false
      else if negb (Z.land (hsize b) 15 =? 0) then mret false
      else if (blk <? heap_st h) || (heap_en h <? blk) then mret false
      else if blk =? heap_en h then mret (hsize b =? 0)
      else malloc_validate_from fuel (u64 (blk + hsize b))
  end.

Definition malloc_validate : HP bool :=
  h ← gets id;
  malloc_validate_from (walk_fuel h) (heap_st h).

Definition malloc_validate_or_panic : HP bool :=
  ok ← malloc_validate;
  if negb (ok : bool) then throw Panicked else mret true.

Definition malloc_get_heap_range (h : heap) : Z * Z := (heap_st h, u64 (heap_en h + HDR)).
