(* ===== verification/BootMallocThms.v ===== *)
(** * The boot heap: block lists and the allocator's contract

    [tiled] reads the headers in memory as a list of blocks that cover the
    heap; [heap_wf] adds the sentinel and the search hint.  Allocation and
    release are then described by the blocks in use. *)

From stdpp Require Import base tactics list numbers option gmap.
From S2P Require Import Prelude BootMalloc.

#[local] Open Scope Z_scope.

(** ** Blocks *)

(** A block: its size, header included, and whether it is in use *)
Abbreviation block := (Z * bool)%type.

Definition sig_of (u : bool) : Z := if u then SIG_USED else SIG_FREE.
Definition hdr (a sz : Z) (u : bool) : blk_hdr_t := BlkHdr sz (sig_of u) (u32 (- sz)) (u32 a).

Fixpoint total (bs : list block) : Z :=
  match bs with [] => 0 | (sz, _) :: bs => sz + total bs end.

Fixpoint tiled (m : gmap Z blk_hdr_t) (a : Z) (bs : list block) (en : Z) : Prop :=
  match bs with
  | [] => a = en
  | (sz, u) :: bs =>
      m !! a = Some (hdr a sz u) ∧ 16 ≤ sz ∧ (16 | sz) ∧ tiled m (a + sz) bs en
  end.

(** Addresses and sizes of the blocks that are in use, or that are free *)
Fixpoint blocks_at (v : bool) (a : Z) (bs : list block) : list (Z * Z) :=
  match bs with
  | [] => []
  | (sz, u) :: bs =>
      (if Bool.eqb u v then [(a, sz)] else []) ++ blocks_at v (a + sz) bs
  end.

Definition all_used (bs : list block) : Prop := Forall (λ b, b.2 = true) bs.
Definition all_free (bs : list block) : Prop := Forall (λ b, b.2 = false) bs.

Definition starts_free (bs : list block) : bool :=
  match bs with (_, false) :: _ => true | _ => false end.

Fixpoint no_adjacent_free (bs : list block) : Prop :=
  match bs with
  | [] => True
  | (_, u) :: bs => (u = false → starts_free bs = false) ∧ no_adjacent_free bs
  end.

(** The heap is the block list [bs]: every block before [first_free] is in
    use and [first_free] is one of the blocks. *)
Record heap_wf (h : heap) (bs : list block) : Prop := HeapWf {
  wf_st : 0 < heap_st h;
  wf_st16 : (16 | heap_st h);
  wf_en : heap_en h < 2 ^ 63;
  wf_span : heap_en h - heap_st h < 2 ^ 32;
  wf_tiled : tiled (hmem h) (heap_st h) bs (heap_en h);
  wf_sentinel : hmem h !! heap_en h = Some (hdr (heap_en h) 0 true);
  wf_first : ∃ pre post, bs = pre ++ post ∧ post ≠ [] ∧ all_used pre
             ∧ first_free h = heap_st h + total pre
}.

Lemma total_app l1 l2 : total (l1 ++ l2) = total l1 + total l2.
Proof. induction l1 as [|[sz u] l1 IH]; simpl; lia. Qed.

Lemma blocks_at_app v a l1 l2 :
  blocks_at v a (l1 ++ l2) = blocks_at v a l1 ++ blocks_at v (a + total l1) l2.
Proof.
  revert a. induction l1 as [|[sz u] l1 IH]; intros a; simpl; [by rewrite Z.add_0_r|].
  rewrite IH, <- app_assoc. by rewrite Z.add_assoc.
Qed.

Lemma tiled_app m a l1 l2 en :
  tiled m a (l1 ++ l2) en ↔ tiled m a l1 (a + total l1) ∧ tiled m (a + total l1) l2 en.
Proof.
  revert a. induction l1 as [|[sz u] l1 IH]; intros a; simpl.
  - rewrite Z.add_0_r. naive_solver.
  - rewrite IH, Z.add_assoc. naive_solver.
Qed.

Lemma tiled_total m a bs en : tiled m a bs en → a + total bs = en.
Proof.
  revert a. induction bs as [|[sz u] bs IH]; intros a; simpl; [lia|].
  intros (_ & _ & _ & H%IH). lia.
Qed.

Lemma tiled_total_bound m a bs en :
  tiled m a bs en → 0 ≤ total bs ∧ (16 | total bs) ∧ (bs ≠ [] → 16 ≤ total bs).
Proof.
  revert a. induction bs as [|[sz u] bs IH]; intros a; simpl.
  - intros _. split; [lia|]. split; [apply Z.divide_0_r|done].
  - intros (_ & H16 & Hd & (Hp & Hd' & _)%IH). split; [lia|]. split; [|lia].
    by apply Z.divide_add_r.
Qed.

Lemma tiled_frame m m' a bs en :
  (∀ p, a ≤ p < en → m' !! p = m !! p) → tiled m a bs en → tiled m' a bs en.
Proof.
  revert a. induction bs as [|[sz u] bs IH]; intros a Hm; simpl; [done|].
  intros (Hh & H16 & Hd & Ht).
  pose proof (tiled_total _ _ _ _ Ht). pose proof (tiled_total_bound _ _ _ _ Ht) as (? & _ & _).
  split; [rewrite Hm by lia; done|]. split; [done|]. split; [done|].
  apply IH; [|done]. intros p Hp. apply Hm. lia.
Qed.

Lemma tiled_insert m a bs en p b :
  tiled m a bs en → p < a ∨ en ≤ p → tiled (<[p := b]> m) a bs en.
Proof.
  intros Ht Hp. eapply tiled_frame; [|done]. intros q Hq. apply lookup_insert_ne. lia.
Qed.

(** Every block has its header, and the headers are distinct *)
Lemma tiled_size m a bs en :
  tiled m a bs en → (length bs ≤ base.size (filter (λ kb : Z * blk_hdr_t, (a ≤ kb.1 < en)%Z) m))%nat.
Proof.
  revert m a. induction bs as [|[sz u] bs IH]; intros m a; simpl; [lia|].
  intros (Hh & H16 & Hd & Ht).
  pose proof (tiled_total _ _ _ _ Ht). pose proof (tiled_total_bound _ _ _ _ Ht) as (? & _ & _).
  assert (tiled (delete a m) (a + sz) bs en) as Ht'.
  { eapply tiled_frame; [|done]. intros q Hq. apply lookup_delete_ne. lia. }
  apply IH in Ht'.
  assert (base.size (filter (λ kb : Z * blk_hdr_t, (a ≤ kb.1 < en)%Z) m)
          = S (base.size (filter (λ kb : Z * blk_hdr_t, (a ≤ kb.1 < en)%Z) (delete a m)))) as ->.
  { rewrite <- (insert_delete_id m a _ Hh) at 1.
    rewrite map_filter_insert_True by (simpl; lia).
    apply map_size_insert_None. apply map_lookup_filter_None. left. apply lookup_delete_eq. }
  apply le_n_S. etransitivity; [exact Ht'|].
  rewrite <- !size_dom. apply subseteq_size. intros q.
  rewrite !elem_of_dom. intros [x [Hx Hq]%map_lookup_filter_Some].
  exists x. apply map_lookup_filter_Some. simpl in *. split; [done|lia].
Qed.

(** ** Single steps *)

Lemma hdr_at_some h p b : hmem h !! p = Some b → hdr_at p h = Done (b, h).
Proof. unfold hdr_at. by intros ->. Qed.

Lemma with_hdr_some h p f b :
  hmem h !! p = Some b → with_hdr p f h = Done (tt, set_mem (<[p := f b]> (hmem h)) h).
Proof. unfold with_hdr, modify. by intros ->. Qed.

Lemma init_hdr_eq h p sz sg :
  init_hdr p sz sg h
  = Done (tt, set_mem (<[p := BlkHdr (u32 sz) sg (u32 (- sz)) (u32 p)]> (hmem h)) h).
Proof.
  unfold init_hdr, with_hdr, modify, mbind, M_bind, set_mem. simpl.
  rewrite !lookup_insert_eq. simpl. rewrite !insert_insert_eq. done.
Qed.

Lemma hdr_valid a sz u : invalid a (hdr a sz u) = false.
Proof.
  unfold invalid, hdr, u32. simpl. rewrite Zplus_mod_idemp_r, Z.add_opp_diag_r. simpl.
  by rewrite Z.eqb_refl.
Qed.

Lemma hdr_is_free a sz u : (hsig (hdr a sz u) =? SIG_FREE) = negb u.
Proof. by destruct u. Qed.
Lemma hdr_is_used a sz u : (hsig (hdr a sz u) =? SIG_USED) = u.
Proof. by destruct u. Qed.

Lemma next_blk_eq h a sz u :
  hmem h !! a = Some (hdr a sz u) → 0 ≤ a → 0 ≤ sz → a + sz < 2 ^ 64 →
  next_blk a h = Done (a + sz, h).
Proof.
  intros Hh Ha Hsz Hb. unfold next_blk. rewrite (bind_done _ _ _ _ _ (hdr_at_some _ _ _ Hh)).
  simpl. unwrap. done.
Qed.

(** ** Coalescing *)

(** Where [first_free] is after the free blocks [fr], which follow the block
    at [a] and start at [p], have been joined to it *)
Definition moved_first (ff a p : Z) (fr : list block) : Z :=
  if decide (ff ∈ (blocks_at false p fr).*1) then a else ff.

Lemma blocks_at_ge v a bs p :
  Forall (λ b, 0 < b.1) bs → p ∈ (blocks_at v a bs).*1 → a ≤ p < a + total bs.
Proof.
  revert a. induction bs as [|[sz u] bs IH]; intros a HF; simpl; [by rewrite elem_of_nil|].
  inversion HF as [|? ? Hsz HF']; simpl in *; subst.
  assert (0 ≤ total bs) as Ht.
  { clear -HF'. induction HF' as [|[s v] l Hs _ IH]; simpl in *; lia. }
  rewrite fmap_app, elem_of_app. intros [H|H%IH].
  - destruct (Bool.eqb u v); simpl in H; [apply list_elem_of_singleton in H; lia|by apply elem_of_nil in H].
  - lia.
  - done.
Qed.

Lemma tiled_pos m a bs en : tiled m a bs en → Forall (λ b, 0 < b.1) bs.
Proof.
  revert a. induction bs as [|[sz u] bs IH]; intros a; [done|].
  intros (_ & ? & _ & H%IH). constructor; simpl; [lia|done].
Qed.

(** One round: the block at [a] takes in the free block that follows it *)
Definition join_one (h : heap) (a sz sz2 : Z) : heap :=
  Heap (<[a + sz := make_invalid (hdr (a + sz) sz2 false)]> (<[a := hdr a (sz + sz2) false]> (hmem h)))
       (heap_st h) (heap_en h)
       (if first_free h =? a + sz then a else first_free h) (u64 (heap_free h + HDR)).

Lemma coalesce_round fuel h a sz sz2 :
  hmem h !! a = Some (hdr a sz false) → hmem h !! (a + sz) = Some (hdr (a + sz) sz2 false) →
  0 ≤ a → 0 < sz → 0 < sz2 → sz + sz2 < 2 ^ 32 → a + sz + sz2 < 2 ^ 64 →
  malloc_coalesce (S fuel) a (a + sz) h
  = malloc_coalesce fuel a (a + (sz + sz2)) (join_one h a sz sz2).
Proof.
  intros Ha Hn H0 Hs Hs2 Hb Hb64. cbn [malloc_coalesce].
  rewrite (bind_done _ _ _ _ _ (hdr_at_some _ _ _ Ha)).
  rewrite (bind_done _ _ _ _ _ (hdr_at_some _ _ _ Hn)).
  rewrite !hdr_is_free. cbn [negb andb hsize hdr].
  rewrite (bind_done _ _ _ _ _ (with_hdr_some _ _ _ _ Ha)).
  assert (set_size (sz + sz2) (hdr a sz false) = hdr a (sz + sz2) false) as ->.
  { unfold set_size, hdr. simpl. by unwrap. }
  erewrite (bind_done (with_hdr _ _)); [|apply with_hdr_some; simpl; rewrite lookup_insert_ne by lia; exact Hn].
  cbn [set_mem hmem heap_st heap_en first_free heap_free].
  rewrite bind_gets. cbn [first_free].
  set (m2 := <[a + sz := _]> _).
  assert (m2 !! a = Some (hdr a (sz + sz2) false)) as Hm2.
  { unfold m2. rewrite lookup_insert_ne by lia. by rewrite lookup_insert_eq. }
  unfold join_one, set_mem. fold m2. cbn [hmem heap_st heap_en first_free heap_free].
  destruct (first_free h =? a + sz).
  - rewrite bind_modify. unfold set_first. cbn [hmem heap_st heap_en heap_free].
    erewrite (bind_done (next_blk a)); [|eapply next_blk_eq; [exact Hm2|lia..]].
    by rewrite bind_modify.
  - rewrite bind_mret.
    erewrite (bind_done (next_blk a)); [|eapply next_blk_eq; [exact Hm2|lia..]].
    by rewrite bind_modify.
Qed.

Lemma coalesce_stop fuel h a nxt sz u b :
  hmem h !! a = Some (hdr a sz u) → hmem h !! nxt = Some b →
  u = true ∨ (hsig b =? SIG_FREE) = false →
  malloc_coalesce (S fuel) a nxt h = Done (nxt, h).
Proof.
  intros Ha Hn Hor. cbn [malloc_coalesce].
  rewrite (bind_done _ _ _ _ _ (hdr_at_some _ _ _ Ha)).
  rewrite (bind_done _ _ _ _ _ (hdr_at_some _ _ _ Hn)).
  rewrite hdr_is_free. destruct Hor as [->| ->]; [done|]. by rewrite andb_false_r.
Qed.

(** The block after the one at [a] is a block of the list or the sentinel *)
Lemma tiled_head m a bs en :
  tiled m a bs en → m !! en = Some (hdr en 0 true) →
  ∃ sz u, m !! a = Some (hdr a sz u) ∧ starts_free bs = negb u ∧ 0 ≤ sz
          ∧ (bs = [] → sz = 0 ∧ u = true).
Proof.
  intros Ht Hen. destruct bs as [|[sz u] bs]; simpl in Ht.
  - subst. by exists 0, true.
  - destruct Ht as (Hh & ? & _ & _). exists sz, u.
    split; [done|]. split; [by destruct u|]. split; [lia|done].
Qed.

Lemma coalesce_spec fuel h a sz u post en :
  tiled (hmem h) a ((sz, u) :: post) en → hmem h !! en = Some (hdr en 0 true) →
  0 ≤ a → en - a < 2 ^ 32 → en < 2 ^ 63 → (length post < fuel)%nat →
  ∃ fr rest m', post = fr ++ rest ∧ all_free fr ∧ (u = true → fr = [])
    ∧ (u = false → starts_free rest = false)
    ∧ malloc_coalesce fuel a (a + sz) h
      = Done (a + sz + total fr,
              Heap m' (heap_st h) (heap_en h) (moved_first (first_free h) a (a + sz) fr)
                   (if decide (fr = []) then heap_free h else u64 (heap_free h + HDR * Z.of_nat (length fr))))
    ∧ tiled m' a ((sz + total fr, u) :: rest) en
    ∧ (∀ p, p < a ∨ en ≤ p → m' !! p = hmem h !! p).
Proof.
  revert h sz post. induction fuel as [|fuel IH]; intros h sz post Ht Hen Ha Hspan H63 Hfuel; [lia|].
  pose proof Ht as (Hh & H16 & Hd & Ht').
  destruct (tiled_head _ _ _ _ Ht' Hen) as (sz2 & u2 & Hn & Hsf & _).
  destruct (decide (u = false ∧ u2 = false)) as [[-> ->]|Hstop].
  - destruct post as [|[sz2' u2'] post]; [done|]. simpl in Hsf. destruct u2'; [done|].
    destruct Ht' as (Hn' & H16' & Hd' & Ht2). rewrite Hn in Hn'. injection Hn' as Hn' _. subst sz2'.
    pose proof (tiled_total _ _ _ _ Ht2). pose proof (tiled_total_bound _ _ _ _ Ht2) as (? & _ & _).
    rewrite (coalesce_round fuel h a sz sz2) by (done || lia).
    destruct (IH (join_one h a sz sz2) (sz + sz2) post) as (fr & rest & m' & -> & Hfr & _ & Hrest & Hrun & Htile & Hframe).
    + simpl. rewrite lookup_insert_ne, lookup_insert_eq by lia. split; [done|]. split; [lia|].
      split; [by apply Z.divide_add_r|]. rewrite Z.add_assoc.
      do 2 (apply tiled_insert; [|lia]). done.
    + simpl. rewrite !lookup_insert_ne by lia. done.
    + done. + done. + done. + simpl in Hfuel. lia.
    + exists ((sz2, false) :: fr), rest, m'. split; [done|]. split; [by constructor|]. split; [done|].
      split; [done|]. split; [|split].
      * rewrite Hrun. simpl. f_equal. f_equal; [lia|]. f_equal.
        -- unfold moved_first. simpl. rewrite Z.add_assoc.
           pose proof (tiled_pos _ _ _ _ Ht2) as [Hpos _]%Forall_app.
           destruct (Z.eqb_spec (first_free h) (a + sz)) as [->|Hne].
           ++ destruct (decide (a + sz ∈ _ :: _)) as [_|Hout]; [by repeat case_decide|].
              by rewrite elem_of_cons in Hout; destruct Hout; left.
           ++ destruct (decide (first_free h ∈ _)) as [Hin|Hin].
              ** rewrite decide_True; [done|]. by rewrite elem_of_cons; right.
              ** rewrite decide_False; [done|]. rewrite elem_of_cons. naive_solver.
        -- unfold u64, HDR. destruct (decide (fr = [])) as [->|_]; simpl; [done|].
           rewrite Zplus_mod_idemp_l. f_equal. lia.
      * simpl in *. replace (sz + (sz2 + total fr)) with (sz + sz2 + total fr) by lia. done.
      * intros p Hp. rewrite Hframe by done. simpl. rewrite !lookup_insert_ne by lia. done.
  - exists [], post, (hmem h). split; [done|]. split; [constructor|]. split; [done|]. split.
    { intros ->. rewrite Hsf. destruct u2; [done|naive_solver]. }
    split; [|split; [by rewrite Z.add_0_r|done]].
    erewrite coalesce_stop; [|done|done|].
    + simpl. rewrite Z.add_0_r. unfold moved_first. simpl. by destruct h.
    + rewrite hdr_is_free. destruct u, u2; naive_solver.
Qed.

(** ** Taking a free block *)

(** What a free block of [sz] bytes becomes *)
Definition front (adj : Z) : list block := if adj =? 0 then [] else [(adj, false)].
Definition back (r : Z) : list block := if r =? 0 then [] else [(r, false)].

Lemma hdr_of_size a sz sg u :
  0 ≤ sz < 2 ^ 32 → sg = sig_of u → BlkHdr (u32 sz) sg (u32 (- sz)) (u32 a) = hdr a sz u.
Proof. intros Hs ->. unfold hdr. by unwrap. Qed.

Lemma set_size_hdr a sz u n : 0 ≤ n < 2 ^ 32 → set_size n (hdr a sz u) = hdr a n u.
Proof. intros Hn. unfold set_size, hdr. simpl. by unwrap. Qed.

(** The second half of [malloc_take], once the payload is aligned *)
Lemma take_tail h a sz post en bytes :
  tiled (hmem h) a ((sz, false) :: post) en →
  0 ≤ a → en < 2 ^ 63 → sz < 2 ^ 32 → (16 | bytes) → 16 ≤ bytes ≤ sz →
  ∃ m', (b ← hdr_at a;
         let remain := u64 (hsize b - bytes) in
         (if negb (remain =? 0) then init_hdr (u64 (a + bytes)) remain SIG_FREE else mret tt);;
         with_hdr a (set_size bytes);;
         with_hdr a (set_sig SIG_USED);;
         mret (u64 (a + HDR))) h
        = Done (a + 16, set_mem m' h)
    ∧ tiled m' a ((bytes, true) :: back (sz - bytes) ++ post) en
    ∧ (∀ p, p < a ∨ en ≤ p → m' !! p = hmem h !! p).
Proof.
  intros (Hh & H16 & Hd & Ht) Ha H63 Hsz Hbd Hb.
  pose proof (tiled_total _ _ _ _ Ht). pose proof (tiled_total_bound _ _ _ _ Ht) as (? & _ & _).
  rewrite (bind_done _ _ _ _ _ (hdr_at_some _ _ _ Hh)). cbn [hsize hdr]. cbv zeta.
  unwrap. unfold back. destruct (Z.eqb_spec (sz - bytes) 0) as [Hr|Hr]; cbn [negb].
  - rewrite bind_mret.
    rewrite (bind_done _ _ _ _ _ (with_hdr_some _ _ _ _ Hh)).
    erewrite (bind_done (with_hdr _ _)); [|apply with_hdr_some; apply lookup_insert_eq].
    rewrite set_size_hdr by lia. exists (<[a := hdr a bytes true]> (hmem h)).
    split; [|split].
    + unfold set_mem, mret, M_ret, HDR. simpl. rewrite insert_insert_eq. unwrap. done.
    + simpl. rewrite lookup_insert_eq. split; [done|]. split; [lia|]. split; [done|].
      replace (a + bytes) with (a + sz) by lia. apply tiled_insert; [done|lia].
    + intros p Hp. apply lookup_insert_ne. lia.
  - rewrite (bind_done _ _ _ _ _ (init_hdr_eq _ _ _ _)).
    erewrite (bind_done (with_hdr _ _)); [|apply with_hdr_some; simpl; rewrite lookup_insert_ne by lia; exact Hh].
    erewrite (bind_done (with_hdr _ _)); [|apply with_hdr_some; apply lookup_insert_eq].
    rewrite set_size_hdr by lia. rewrite (hdr_of_size _ _ _ false) by (lia || done).
    exists (<[a := hdr a bytes true]> (<[a + bytes := hdr (a + bytes) (sz - bytes) false]> (hmem h))).
    split; [|split].
    + unfold set_mem, mret, M_ret, HDR. simpl. rewrite insert_insert_eq. unwrap. done.
    + assert (16 | sz - bytes) as Hrd by (by apply Z.divide_sub_r).
      simpl. rewrite lookup_insert_eq, (lookup_insert_ne _ a (a + bytes)), lookup_insert_eq by lia.
      split; [done|]. split; [lia|]. split; [done|]. split; [done|].
      split; [destruct Hrd as [q Hq]; lia|]. split; [done|].
      replace (a + bytes + (sz - bytes)) with (a + sz) by lia.
      do 2 (apply tiled_insert; [|lia]). done.
    + intros p Hp. rewrite !lookup_insert_ne by lia. done.
Qed.

Lemma take_spec h a sz post en bytes adj :
  tiled (hmem h) a ((sz, false) :: post) en →
  0 ≤ a → en < 2 ^ 63 → sz < 2 ^ 32 → first_free h ≤ a →
  (16 | bytes) → (16 | adj) → 16 ≤ bytes → 0 ≤ adj → bytes + adj ≤ sz →
  ∃ m', malloc_take a bytes adj h = Done (a + adj + 16, set_mem m' h)
    ∧ tiled m' a (front adj ++ (bytes, true) :: back (sz - adj - bytes) ++ post) en
    ∧ (∀ p, p < a ∨ en ≤ p → m' !! p = hmem h !! p).
Proof.
  intros Ht Ha H63 Hsz Hff Hbd Had Hb Hadj Hfit. pose proof Ht as (Hh & H16 & Hd & Ht').
  pose proof (tiled_total _ _ _ _ Ht'). pose proof (tiled_total_bound _ _ _ _ Ht') as (? & _ & _).
  unfold malloc_take. rewrite (bind_done _ _ _ _ _ (hdr_at_some _ _ _ Hh)). cbn [hsize hdr].
  unfold front. destruct (Z.eqb_spec adj 0) as [->|Hne]; cbn [negb].
  - rewrite bind_mret.
    destruct (take_tail h a sz post en bytes) as (m' & Hrun & Ht2 & Hfr); [done|lia|lia|lia|done|lia|].
    exists m'. rewrite Z.sub_0_r, Z.add_0_r. split; [exact Hrun|done].
  - unwrap. rewrite bind_assoc. rewrite (bind_done _ _ _ _ _ (init_hdr_eq _ _ _ _)).
    rewrite bind_assoc, bind_gets. cbn [first_free set_mem].
    assert ((a + adj <? first_free h) = false) as -> by (apply Z.ltb_ge; lia).
    rewrite bind_assoc, bind_mret.
    rewrite bind_assoc. erewrite (bind_done (with_hdr _ _));
      [|apply with_hdr_some; simpl; rewrite lookup_insert_ne by lia; exact Hh].
    rewrite bind_mret.
    rewrite set_size_hdr by lia. rewrite (hdr_of_size _ _ _ false) by (lia || done).
    unfold set_mem. cbn [hmem heap_st heap_en first_free heap_free].
    set (m1 := <[a := _]> _). fold (set_mem m1 h).
    assert (16 | sz - adj) as Hrd by (by apply Z.divide_sub_r).
    destruct (take_tail (set_mem m1 h) (a + adj) (sz - adj) post en bytes) as (m' & Hrun & Ht2 & Hfr).
    + simpl. unfold m1. rewrite lookup_insert_ne, lookup_insert_eq by lia. split; [done|].
      split; [lia|]. split; [done|]. replace (a + adj + (sz - adj)) with (a + sz) by lia.
      do 2 (apply tiled_insert; [|lia]). done.
    + lia. + lia. + lia. + done. + lia.
    + exists m'. split; [|split].
      * etransitivity; [exact Hrun|]. done.
      * simpl. rewrite Hfr by lia. simpl. unfold m1. rewrite lookup_insert_eq.
        split; [done|]. split; [destruct Had as [q Hq]; lia|]. split; [done|exact Ht2].
      * intros p Hp. rewrite Hfr by lia. simpl. unfold m1. rewrite !lookup_insert_ne by lia. done.
Qed.

(** ** Sizes and alignment *)

Lemma block_bytes_spec n :
  0 < n < 2 ^ 62 → (16 | block_bytes n) ∧ n + 16 ≤ block_bytes n < n + 32.
Proof.
  intros Hn. unfold block_bytes, HDR. unwrap.
  assert (Z.land (n + 15) (u64 (- 16)) = 16 * ((n + 15) / 16)) as -> by (apply (land_neg_pow2 4); lia).
  pose proof (Z.div_mod (n + 15) 16 ltac:(lia)). pose proof (Z.mod_pos_bound (n + 15) 16 ltac:(lia)).
  rewrite u64_small by lia. split; [|lia].
  exists ((n + 15) / 16 + 1). lia.
Qed.

Lemma align_adj_spec k a :
  4 ≤ k ≤ 61 → 0 ≤ a < 2 ^ 63 → (16 | a) →
  0 ≤ align_adj_of a (2 ^ k) < 2 ^ k ∧ (16 | align_adj_of a (2 ^ k))
  ∧ (2 ^ k | a + 16 + align_adj_of a (2 ^ k)).
Proof.
  intros Hk Ha Hd. unfold align_adj_of, HDR.
  assert (16 ≤ 2 ^ k ≤ 2 ^ 61) as Hp.
  { split; [change 16 with (2 ^ 4)|]; apply Z.pow_le_mono_r; lia. }
  unwrap. rewrite land_neg_pow2 by lia. set (x := a + 16 + 2 ^ k - 1).
  pose proof (Z.div_mod x (2 ^ k) ltac:(lia)). pose proof (Z.mod_pos_bound x (2 ^ k) ltac:(lia)).
  rewrite u64_small by lia. split; [lia|].
  assert (16 | 2 ^ k) as Hd16.
  { replace (2 ^ k) with (16 * 2 ^ (k - 4)); [apply Z.divide_factor_l|].
    change 16 with (2 ^ 4). rewrite <- Z.pow_add_r by lia. f_equal. lia. }
  split.
  - replace (2 ^ k * (x / 2 ^ k) - (a + 16)) with (2 ^ k * (x / 2 ^ k) - (a + 16 * 1)) by lia.
    apply Z.divide_sub_r; [by apply Z.divide_mul_l|].
    apply Z.divide_add_r; [done|apply Z.divide_factor_l].
  - exists (x / 2 ^ k). lia.
Qed.

(** ** Lists of blocks *)

Lemma tiled_fuel m a bs en h :
  tiled m a bs en → hmem h = m → (length bs + 2 ≤ walk_fuel h)%nat.
Proof.
  intros Ht <-. apply tiled_size in Ht. unfold walk_fuel.
  pose proof (map_subseteq_size _ _ (map_filter_subseteq (λ kb : Z * blk_hdr_t, a ≤ kb.1 < en) (hmem h))).
  lia.
Qed.

Lemma blocks_at_same bs u a : Forall (λ b : block, b.2 = u) bs → blocks_at (negb u) a bs = [].
Proof.
  intros HF. revert a. induction HF as [|[sz v] bs Hu _ IH]; intros a; [done|].
  simpl in *. subst v. rewrite IH. by destruct u.
Qed.

Lemma used_of_free bs a : all_free bs → blocks_at true a bs = [].
Proof. apply (blocks_at_same bs false). Qed.
Lemma free_of_used bs a : all_used bs → blocks_at false a bs = [].
Proof. apply (blocks_at_same bs true). Qed.

Lemma no_adjacent_used l1 l2 : all_used l1 → no_adjacent_free l2 → no_adjacent_free (l1 ++ l2).
Proof.
  intros HF Hl. induction HF as [|[sz v] bs Hu _ IH]; [done|]. simpl in *. by subst.
Qed.

Lemma no_adjacent_grow l sz sz' u rest :
  no_adjacent_free (l ++ [(sz, u)]) → (u = false → starts_free rest = false) →
  no_adjacent_free ((l ++ [(sz', u)]) ++ take 1 rest).
Proof.
  intros Hl Hr. induction l as [|[s v] l IH]; simpl in *.
  - destruct rest as [|[s v] rest]; simpl in *; naive_solver.
  - destruct Hl as [Hv Hl]. split; [|by apply IH]. intros Hf. specialize (Hv Hf).
    by destruct l as [|[s' v'] l].
Qed.

(** ** The search *)

Section search.
Context (st en bytes k : Z).
Context (Hst0 : 0 < st) (Hst16 : (16 | st)) (Hen : en < 2 ^ 63) (Hspan : en - st < 2 ^ 32).
Context (Hk : 4 ≤ k ≤ 61) (Hbytes : 16 ≤ bytes < 2 ^ 63) (Hbytes16 : (16 | bytes)).

Abbreviation adj a := (align_adj_of a (2 ^ k)).

(** The heap's boundaries and its sentinel *)
Definition frame_ok (h : heap) : Prop :=
  heap_st h = st ∧ heap_en h = en ∧ hmem h !! en = Some (hdr en 0 true).

(** Reading a block and finding the next one valid *)
Lemma loop_open fuel start al h a sz u sz2 u2 :
  hmem h !! a = Some (hdr a sz u) → hmem h !! (a + sz) = Some (hdr (a + sz) sz2 u2) →
  0 ≤ a → 0 ≤ sz → a + sz < 2 ^ 64 →
  malloc_loop (S fuel) start bytes al a h
  = (nxt ← malloc_coalesce (walk_fuel h) a (a + sz);
     b ← hdr_at a;
     r ← (if hsig b =? SIG_FREE then
            ff ← gets first_free;
            f ← hdr_at ff;
            (if (a <? ff) || (hsig f =? SIG_USED) then modify (set_first a) else mret tt);;
            if u64 (bytes + align_adj_of a al) <=? hsize b then
              p ← malloc_take a bytes (align_adj_of a al); mret (Some p)
            else mret None
          else mret None);
     match r with
     | Some p => mret p
     | None =>
         st ← gets heap_st;
         let blk := if 0 <? hsize b then nxt else st in
         if blk =? start then mret 0 else malloc_loop fuel start bytes al blk
     end) h.
Proof.
  intros Ha Hn H0 Hs Hb. cbn [malloc_loop].
  erewrite (bind_done (next_blk a)); [|eapply next_blk_eq; done || lia].
  rewrite (bind_done _ _ _ _ _ (hdr_at_some _ _ _ Hn)). rewrite hdr_valid.
  by rewrite bind_gets.
Qed.

Lemma loop_used fuel start al h a sz post :
  tiled (hmem h) a ((sz, true) :: post) en → frame_ok h → 0 ≤ a →
  malloc_loop (S fuel) start bytes al a h
  = if a + sz =? start then Done (0, h) else malloc_loop fuel start bytes al (a + sz) h.
Proof.
  intros (Ha & H16 & Hd & Ht) (Hhs & Hhe & Hsen) H0.
  pose proof (tiled_total _ _ _ _ Ht). pose proof (tiled_total_bound _ _ _ _ Ht) as (? & _ & _).
  destruct (tiled_head _ _ _ _ Ht Hsen) as (sz2 & u2 & Hn & _).
  rewrite (loop_open fuel start al h a sz true sz2 u2) by (done || lia).
  erewrite (bind_done (malloc_coalesce _ _ _)); [|eapply coalesce_stop; [done|done|by left]].
  rewrite (bind_done _ _ _ _ _ (hdr_at_some _ _ _ Ha)). rewrite hdr_is_free. cbn [negb].
  rewrite bind_mret.
  rewrite bind_gets. cbn [hsize hdr]. cbv zeta.
  assert ((0 <? sz) = true) as -> by (apply Z.ltb_lt; lia). by destruct (a + sz =? start).
Qed.

Lemma loop_sentinel fuel start al h :
  frame_ok h → 0 ≤ en →
  malloc_loop (S fuel) start bytes al en h
  = if st =? start then Done (0, h) else malloc_loop fuel start bytes al st h.
Proof.
  intros (Hhs & Hhe & Hsen) H0.
  rewrite (loop_open fuel start al h en 0 true 0 true) by (rewrite ?Z.add_0_r; done || lia).
  rewrite Z.add_0_r.
  erewrite (bind_done (malloc_coalesce _ _ _)); [|eapply coalesce_stop; [done|done|by left]].
  rewrite (bind_done _ _ _ _ _ (hdr_at_some _ _ _ Hsen)). rewrite hdr_is_free. cbn [negb].
  rewrite bind_mret.
  rewrite bind_gets. rewrite Hhs. cbn [hsize hdr]. cbv zeta. simpl.
  by destruct (st =? start).
Qed.

(** A free block: it takes in the free blocks after it, becomes the hint if
    the hint was a block in use, and is taken if it is large enough. *)
Lemma loop_free fuel start h a sz post szf uf :
  tiled (hmem h) a ((sz, false) :: post) en → frame_ok h → 0 ≤ a → en - a < 2 ^ 32 →
  first_free h ≤ a → hmem h !! first_free h = Some (hdr (first_free h) szf uf) →
  ∃ fr rest h', post = fr ++ rest ∧ all_free fr ∧ starts_free rest = false
    ∧ tiled (hmem h') a ((sz + total fr, false) :: rest) en ∧ frame_ok h'
    ∧ (∀ p, p < a ∨ en ≤ p → hmem h' !! p = hmem h !! p)
    ∧ first_free h' = (if uf then a else first_free h)
    ∧ malloc_loop (S fuel) start bytes (2 ^ k) a h
      = if u64 (bytes + adj a) <=? sz + total fr then malloc_take a bytes (adj a) h'
        else if a + sz + total fr =? start then Done (0, h')
        else malloc_loop fuel start bytes (2 ^ k) (a + sz + total fr) h'.
Proof.
  intros Ht (Hhs & Hhe & Hsen) H0 Hsp Hff Hhf. pose proof Ht as (Ha & H16 & Hd & Ht').
  pose proof (tiled_total _ _ _ _ Ht') as Htot. pose proof (tiled_total_bound _ _ _ _ Ht') as (? & _ & _).
  destruct (tiled_head _ _ _ _ Ht' Hsen) as (sz2 & u2 & Hn & _).
  rewrite (loop_open fuel start _ h a sz false sz2 u2) by (done || lia).
  pose proof (tiled_fuel _ _ _ _ h Ht eq_refl) as Hfuel.
  destruct (coalesce_spec (walk_fuel h) h a sz false post en Ht Hsen H0 Hsp Hen ltac:(simpl in *; lia))
    as (fr & rest & m' & -> & Hfr & _ & Hrest & Hrun & Htile & Hframe).
  pose proof (tiled_pos _ _ _ _ Ht') as [Hpos _]%Forall_app.
  rewrite (bind_done _ _ _ _ _ Hrun).
  unfold moved_first. rewrite decide_False; last first.
  { intros Hin%blocks_at_ge; [lia|done]. }
  set (h1 := Heap m' _ _ _ _). pose proof Htile as (Ha' & _ & _ & Htr). 
  rewrite (bind_done _ _ h1 _ h1 (hdr_at_some h1 _ _ Ha')). rewrite hdr_is_free. cbn [negb hsize hdr].
  assert (hmem h1 !! first_free h = Some (hdr (first_free h) (if decide (first_free h = a) then sz + total fr else szf) uf)) as Hf1.
  { simpl. destruct (decide (first_free h = a)) as [He|He].
    - rewrite He in *. rewrite Ha in Hhf. injection Hhf as _ Hu _. rewrite Ha'. by destruct uf.
    - rewrite Hframe by lia. done. }
  assert (m' !! en = Some (hdr en 0 true)) as Hsen' by (rewrite Hframe by lia; done).
  rewrite bind_assoc, (bind_done _ _ h1 _ h1 eq_refl). rewrite bind_assoc.
  change (first_free h1) with (first_free h).
  rewrite (bind_done _ _ h1 _ h1 (hdr_at_some h1 (first_free h) _ Hf1)). rewrite hdr_is_used.
  assert ((a <? first_free h) = false) as -> by (apply Z.ltb_ge; lia). cbn [orb].
  set (h2 := if uf then set_first a h1 else h1).
  rewrite bind_assoc. erewrite (bind_done _ _ h1 tt h2); [|by unfold h2; destruct uf].
  exists fr, rest, h2. split; [done|]. split; [done|]. split; [by apply Hrest|].
  assert (hmem h2 = m') as Hm2 by (unfold h2; by destruct uf).
  assert (heap_st h2 = st) as Hs2 by (unfold h2; by destruct uf).
  rewrite Hm2. split; [done|]. split; [unfold frame_ok; rewrite Hm2; split; [done|]; split; [unfold h2; by destruct uf|done]|].
  split; [done|]. split; [unfold h2; by destruct uf|].
  destruct (u64 (bytes + adj a) <=? sz + total fr).
  - rewrite bind_assoc. unfold mbind, M_bind. destruct (malloc_take a bytes (adj a) h2) as [[p h3]|]; done.
  - rewrite bind_mret, (bind_done (gets heap_st) _ _ _ _ eq_refl). cbv zeta.
    pose proof (tiled_total_bound _ _ _ _ Htr) as (? & _ & _).
    rewrite total_app in *.
    assert (0 < sz + total fr) as Hlt.
    { clear -Hpos H16. assert (0 ≤ total fr); [|lia]. induction Hpos as [|[s v] l Hs _ IH]; simpl in *; lia. }
    apply Z.ltb_lt in Hlt as ->. by destruct (_ =? start).
Qed.

(** Back at the start of the heap, the blocks before the hint are all in use *)
Lemma loop_wrap p1 : ∀ fuel h p0 post start,
  tiled (hmem h) st (p0 ++ p1 ++ post) en → frame_ok h → all_used p1 → p1 ≠ [] →
  start = st + total (p0 ++ p1) → (length p1 ≤ fuel)%nat →
  malloc_loop fuel start bytes (2 ^ k) (st + total p0) h = Done (0, h).
Proof.
  induction p1 as [|[sz u] p1 IH]; intros fuel h p0 post start Ht Hok Hu Hne -> Hfuel; [done|].
  inversion Hu as [|? ? Hu1 Hu2]; simpl in *; subst. destruct fuel as [|fuel]; [lia|].
  pose proof Ht as (Ht0 & Ht1)%tiled_app. pose proof (tiled_total_bound _ _ _ _ Ht0) as (? & _ & _).
  rewrite (loop_used _ _ _ _ _ sz (p1 ++ post)) by (done || lia).
  rewrite !total_app. simpl. destruct (Z.eqb_spec (st + total p0 + sz) (st + (total p0 + (sz + total p1)))) as [He|He]; [done|].
  assert (p1 ≠ []) as Hne1 by (intros ->; simpl in He; lia).
  replace (st + total p0 + sz) with (st + total (p0 ++ [(sz, true)])) by (rewrite total_app; simpl; lia).
  apply (IH fuel h (p0 ++ [(sz, true)]) post); [|done|done|done| |lia].
  - by rewrite <- app_assoc.
  - rewrite !total_app. simpl. lia.
Qed.

(** What the search knows of the hint: nothing free has been seen and it is
    still the starting block, or it is the first free block seen. *)
Definition hint_ok (h : heap) (start : Z) (seen : list block) : Prop :=
  (all_used seen ∧ first_free h = start)
  ∨ ∃ d1 szf d2, seen = d1 ++ (szf, false) :: d2 ∧ all_used d1 ∧ first_free h = start + total d1.

Lemma hint_ok_used h start seen sz : hint_ok h start seen → hint_ok h start (seen ++ [(sz, true)]).
Proof.
  intros [[Hu Hf]|(d1 & szf & d2 & -> & Hu & Hf)].
  - left. split; [|done]. apply Forall_app. split; [done|by constructor].
  - right. exists d1, szf, (d2 ++ [(sz, true)]). by rewrite <- app_assoc.
Qed.

(** The hint's own block *)
Lemma hint_block h start seen todo :
  tiled (hmem h) start (seen ++ todo) en → hint_ok h start seen → todo ≠ [] →
  ∃ szf uf, hmem h !! first_free h = Some (hdr (first_free h) szf uf)
    ∧ first_free h ≤ start + total seen
    ∧ (uf = true → all_used (seen)) ∧ (uf = false → (seen = [] ∧ first_free h = start) ∨
        ∃ d1 szf d2, seen = d1 ++ (szf, false) :: d2 ∧ all_used d1 ∧ first_free h = start + total d1).
Proof.
  intros Ht [[Hu Hf]|(d1 & szf & d2 & -> & Hu & Hf)] Hne.
  - destruct (seen) as [|[sz u] s] eqn:He.
    + destruct todo as [|[sz u] todo]; [done|]. destruct Ht as (Hh & _). exists sz, u.
      rewrite Hf. simpl. split; [done|]. split; [lia|]. split; [by intros|]. by left.
    + inversion Hu as [|? ? Hu1 Hu2]; simpl in Hu1; subst u. pose proof Ht as (Hs & _)%tiled_app.
      pose proof (tiled_total_bound _ _ _ _ Hs) as (? & _ & _).
      destruct Ht as (Hh & _). exists sz, true. rewrite Hf. split; [done|]. split; [lia|]. done.
  - rewrite <- app_assoc in Ht. pose proof Ht as (Hs & (Hh & ? & _ & Ht2))%tiled_app.
    pose proof Ht2 as (Ht3 & _)%tiled_app. pose proof (tiled_total_bound _ _ _ _ Ht3) as (? & _ & _).
    exists szf, false. rewrite Hf. split; [done|]. rewrite total_app. simpl. split; [lia|].
    split; [done|]. intros _. right. by exists d1, szf, d2.
Qed.

(** The contract of an allocation of a block of [bytes] bytes *)
Definition allocated (bs : list block) (p : Z) (bs' : list block) : Prop :=
  (p = 0 ∧ blocks_at true st bs' = blocks_at true st bs ∧ no_adjacent_free bs'
   ∧ ∀ a sz, (a, sz) ∈ blocks_at false st bs' → sz < bytes + adj a)
  ∨ (p ≠ 0 ∧ (2 ^ k | p) ∧ blocks_at true st bs' ≡ₚ (p - 16, bytes) :: blocks_at true st bs).

Lemma allocated_used bs1 bs2 p bs' :
  blocks_at true st bs1 = blocks_at true st bs2 → allocated bs2 p bs' → allocated bs1 p bs'.
Proof. unfold allocated. by intros ->. Qed.

Lemma used_joined pre seen sz fr rest a :
  all_free fr →
  blocks_at true a (pre ++ seen ++ (sz, false) :: fr ++ rest)
  = blocks_at true a (pre ++ (seen ++ [(sz + total fr, false)]) ++ rest).
Proof.
  intros Hfr. rewrite !blocks_at_app. simpl. rewrite !blocks_at_app, (used_of_free fr), app_nil_r by done.
  rewrite !total_app. simpl. rewrite ?app_nil_r. do 2 f_equal. f_equal. lia.
Qed.

Lemma used_taken pre seen sz fr rest r :
  all_free fr → 0 ≤ r → bytes + r ≤ sz + total fr →
  blocks_at true st (pre ++ seen ++ front r ++ (bytes, true) :: back (sz + total fr - r - bytes) ++ rest)
  ≡ₚ (st + total pre + total seen + r, bytes) :: blocks_at true st (pre ++ seen ++ (sz, false) :: fr ++ rest).
Proof.
  intros Hfr Hr Hfit.
  assert (total (front r) = r) as Hf1 by (unfold front; destruct (Z.eqb_spec r 0); simpl; lia).
  assert (∀ x, total (back x) = x) as Hb1 by (intros x; unfold back; destruct (Z.eqb_spec x 0); simpl; lia).
  assert (∀ b, blocks_at true b (front r) = []) as Hf2 by (intros b; unfold front; by destruct (r =? 0)).
  assert (∀ b x, blocks_at true b (back x) = []) as Hb2 by (intros b x; unfold back; by destruct (x =? 0)).
  rewrite !blocks_at_app. simpl. rewrite !blocks_at_app, Hf2, Hb2, Hf1, Hb1, (used_of_free fr) by done. simpl.
  rewrite !(app_assoc (blocks_at true st pre)). rewrite <- Permutation_middle.
  apply Permutation_cons; [|]. { f_equal. }
  replace (st + total pre + total seen + r + bytes + (sz + total fr - r - bytes))
    with (st + total pre + total seen + sz + total fr) by lia. done.
Qed.

(** Taking the block at the end of what has been seen *)
Lemma scan_take h pre0 seen sz sz0 fr rest :
  let a := st + total pre0 + total seen in
  tiled (hmem h) st (pre0 ++ seen) a → tiled (hmem h) a ((sz, false) :: rest) en →
  frame_ok h → all_used pre0 → hint_ok h (st + total pre0) (seen ++ [(sz, false)]) →
  all_free fr → sz = sz0 + total fr → bytes + adj a ≤ sz →
  ∃ p h' bs', malloc_take a bytes (adj a) h = Done (p, h') ∧ heap_wf h' bs'
    ∧ heap_st h' = st ∧ heap_en h' = en
    ∧ allocated (pre0 ++ seen ++ (sz0, false) :: fr ++ rest) p bs'.
Proof.
  intros a Ht1 Ht2 (Hhs & Hhe & Hsen) Hpre Hhint Hfr Hsz Hfit.
  pose proof (tiled_total_bound _ _ _ _ Ht1) as (Hb1 & Hb2 & _). rewrite total_app in Hb1, Hb2.
  pose proof (tiled_total _ _ _ _ Ht2) as Htot. simpl in Htot.
  pose proof Ht2 as (_ & Hsz16 & _ & Ht3). pose proof (tiled_total_bound _ _ _ _ Ht3) as (Hb3 & _ & _).
  assert (16 | a) as Ha16.
  { unfold a. rewrite <- Z.add_assoc. by apply Z.divide_add_r. }
  destruct (align_adj_spec k a Hk ltac:(lia) Ha16) as (Hadj & Hadj16 & Hal).
  assert (∃ d1 d2, seen ++ [(sz, false)] = d1 ++ d2 ∧ d2 ≠ [] ∧ all_used d1
                   ∧ first_free h = st + total pre0 + total d1) as (d1 & d2 & Hd & Hd2 & Hd1 & Hff).
  { destruct Hhint as [[Hu%Forall_app Hf]|(d1 & szf & d2 & Heq & Hu & Hf)].
    - destruct Hu as [_ Hu]. by inversion Hu.
    - by exists d1, ((szf, false) :: d2). }
  assert (∃ d3, seen = d1 ++ d3) as [d3 ->].
  { destruct (exists_last Hd2) as (d3 & x & ->). rewrite app_assoc in Hd.
    apply app_inj_tail in Hd as [-> _]. by exists d3. }
  pose proof Ht1 as (Htp & Hts)%tiled_app. pose proof Hts as (Htd1 & Htd3)%tiled_app.
  pose proof (tiled_total_bound _ _ _ _ Htd3) as (Hb4 & _ & _).
  destruct (take_spec h a sz rest en bytes (adj a)) as (m' & Hrun & Htile & Hframe);
    try done; try lia. { rewrite Hff. unfold a. rewrite total_app. lia. }
  exists (a + adj a + 16), (set_mem m' h).
  exists (pre0 ++ (d1 ++ d3) ++ front (adj a) ++ (bytes, true) :: back (sz - adj a - bytes) ++ rest).
  split; [done|]. split; [|split; [done|split; [done|]]].
  - constructor; simpl; rewrite ?Hhs, ?Hhe; try done.
    + rewrite app_assoc. apply tiled_app. rewrite total_app, Z.add_assoc. fold a. split; [|done].
      eapply tiled_frame; [|done]. intros p Hp. apply Hframe. lia.
    + rewrite Hframe by lia. done.
    + exists (pre0 ++ d1), (d3 ++ front (adj a) ++ (bytes, true) :: back (sz - adj a - bytes) ++ rest).
      split; [by rewrite <- !app_assoc|]. split; [by destruct d3, (front (adj a))|].
      split; [by apply Forall_app|]. rewrite Hff, total_app. lia.
  - right. split; [lia|]. split; [replace (a + adj a + 16) with (a + 16 + adj a) by lia; done|].
    replace (a + adj a + 16 - 16) with (a + adj a) by lia. rewrite Hsz.
    apply (used_taken pre0 (d1 ++ d3) sz0 fr rest (adj a)); [done|lia|lia].
Qed.

(** The whole heap has been searched *)
Lemma scan_end fuel h pre0 seen :
  (0 + 1 + length pre0 ≤ fuel)%nat →
  tiled (hmem h) st (pre0 ++ seen ++ []) en → frame_ok h → all_used pre0 →
  hint_ok h (st + total pre0) seen → seen ++ [] ≠ [] → no_adjacent_free (seen ++ []) →
  (∀ a sz, (a, sz) ∈ blocks_at false (st + total pre0) seen → sz < bytes + adj a) →
  ∃ p h' bs', malloc_loop fuel (st + total pre0) bytes (2 ^ k) (st + total pre0 + total seen) h = Done (p, h')
    ∧ heap_wf h' bs' ∧ heap_st h' = st ∧ heap_en h' = en ∧ allocated (pre0 ++ seen ++ []) p bs'.
Proof.
  intros Hfuel Ht Hok Hpre Hhint Hne Hna Hsmall. rewrite app_nil_r in *.
  pose proof (tiled_total _ _ _ _ Ht) as Htot. pose proof (tiled_total_bound _ _ _ _ Ht) as (? & _ & _).
  rewrite total_app in *. rewrite <- Z.add_assoc, Htot.
  exists 0, h, (pre0 ++ seen). split; [|split; [|split; [apply Hok|split; [apply Hok|]]]].
  - destruct fuel as [|fuel]; [lia|]. rewrite loop_sentinel by (done || lia).
    destruct (Z.eqb_spec st (st + total pre0)) as [He|He]; [done|].
    replace st with (st + total []) at 2 by (simpl; lia).
    eapply (loop_wrap pre0 fuel h [] seen); [done|done|done| |done|lia].
    intros ->. simpl in He. lia.
  - destruct Hok as (Hhs & Hhe & Hsen). constructor; rewrite ?Hhs, ?Hhe; try done.
    destruct Hhint as [[Hu Hf]|(d1 & szf & d2 & -> & Hu & Hf)].
    + by exists pre0, seen.
    + exists (pre0 ++ d1), ((szf, false) :: d2). rewrite <- app_assoc. split; [done|]. split; [done|].
      split; [by apply Forall_app|]. rewrite total_app. lia.
  - left. split; [done|]. split; [done|]. split; [by apply no_adjacent_used|].
    intros a sz. rewrite blocks_at_app, free_of_used by done. apply Hsmall.
Qed.

Lemma scan n : ∀ todo fuel h pre0 seen,
  (length todo ≤ n)%nat → (length todo + 1 + length pre0 ≤ fuel)%nat →
  tiled (hmem h) st (pre0 ++ seen ++ todo) en → frame_ok h → all_used pre0 →
  hint_ok h (st + total pre0) seen → seen ++ todo ≠ [] →
  no_adjacent_free (seen ++ take 1 todo) →
  (∀ a sz, (a, sz) ∈ blocks_at false (st + total pre0) seen → sz < bytes + adj a) →
  ∃ p h' bs', malloc_loop fuel (st + total pre0) bytes (2 ^ k) (st + total pre0 + total seen) h = Done (p, h')
    ∧ heap_wf h' bs' ∧ heap_st h' = st ∧ heap_en h' = en ∧ allocated (pre0 ++ seen ++ todo) p bs'.
Proof.
  induction n as [|n IH]; intros todo fuel h pre0 seen Hn Hfuel Ht Hok Hpre Hhint Hne Hna Hsmall;
    (destruct todo as [|[sz u] post];
     [by eapply scan_end|destruct fuel as [|fuel]; simpl in Hn, Hfuel; [lia|]]); [lia|].
  pose proof Ht as (Htp & Hts)%tiled_app. pose proof Hts as (Htseen & Htblk)%tiled_app.
  pose proof (tiled_total_bound _ _ _ _ Htp) as (? & _ & _).
  pose proof (tiled_total_bound _ _ _ _ Htseen) as (? & _ & _).
  pose proof (tiled_total _ _ _ _ Htblk) as Htot. pose proof (tiled_total_bound _ _ _ _ Htblk) as (Hpos & _ & _).
  destruct u.
  - (* a block in use *)
    rewrite (loop_used _ _ _ _ _ sz post) by (done || lia).
    destruct Htblk as (_ & H16 & _ & _).
    destruct (Z.eqb_spec (st + total pre0 + total seen + sz) (st + total pre0)); [lia|].
    destruct (IH post fuel h pre0 (seen ++ [(sz, true)])) as (p & h' & bs' & Hrun & Hres).
    + lia. + lia. + by rewrite <- app_assoc. + done. + done. + by apply hint_ok_used.
    + by destruct seen.
    + by eapply no_adjacent_grow.
    + intros a' sz'. rewrite blocks_at_app, elem_of_app. simpl. rewrite elem_of_nil. intros [Hin|[]]. by apply Hsmall.
    + exists p, h', bs'. rewrite total_app in Hrun. simpl in Hrun.
      replace (total seen + (sz + 0)) with (total seen + sz) in Hrun by lia. rewrite Z.add_assoc in Hrun.
      rewrite <- app_assoc in Hres. done.
  - (* a free block *)
    destruct (hint_block h (st + total pre0) seen ((sz, false) :: post)) as (szf & uf & Hf1 & Hf2 & Hf3 & Hf4);
      [done|done|done|].
    destruct (loop_free fuel (st + total pre0) h (st + total pre0 + total seen) sz post szf uf)
      as (fr & rest & h1 & -> & Hfr & Hrest & Htile & Hok1 & Hframe & Hff & Hrun); [done|done|lia|lia|done|done|].
    rewrite Hrun. clear Hrun.
    assert (tiled (hmem h1) st (pre0 ++ seen) (st + total pre0 + total seen)) as Htp1.
    { eapply tiled_frame; [intros p Hp; apply Hframe; lia|]. apply tiled_app. done. }
    assert (hint_ok h1 (st + total pre0) (seen ++ [(sz + total fr, false)])) as Hhint1.
    { right. destruct uf.
      - exists seen, (sz + total fr), []. rewrite Hff. split; [done|]. split; [by apply Hf3|done].
      - rewrite Hff. destruct Hf4 as [[-> Hf]|(d1 & szf' & d2 & -> & Hd1 & Hf)]; [done| |].
        + exists [], (sz + total fr), []. simpl. split; [done|]. split; [constructor|]. lia.
        + exists d1, szf', (d2 ++ [(sz + total fr, false)]). by rewrite <- app_assoc. }
    assert (16 | st + total pre0 + total seen) as Ha16.
    { pose proof (tiled_total_bound _ _ _ _ Htp1) as (_ & Hd & _). rewrite total_app in Hd.
      rewrite <- Z.add_assoc. by apply Z.divide_add_r. }
    destruct (align_adj_spec k (st + total pre0 + total seen) Hk ltac:(lia) Ha16) as (Hadj & _ & _).
    assert (2 ^ k ≤ 2 ^ 61) by (apply Z.pow_le_mono_r; lia).
    rewrite u64_small by lia.
    destruct (Z.leb_spec (bytes + adj (st + total pre0 + total seen)) (sz + total fr)) as [Hfit|Hnofit].
    + by apply (scan_take h1 pre0 seen (sz + total fr) sz fr rest).
    + pose proof Htile as (_ & Hsz16 & _ & _).
      destruct (Z.eqb_spec (st + total pre0 + total seen + sz + total fr) (st + total pre0)); [lia|].
      rewrite length_app in *.
      destruct (IH rest fuel h1 pre0 (seen ++ [(sz + total fr, false)])) as (p & h' & bs' & Hrun & Hwf & Hs & He & Hres).
      * lia. * lia.
      * rewrite <- app_assoc. rewrite app_assoc. apply tiled_app. rewrite total_app, Z.add_assoc. done.
      * done. * done. * done. * by destruct seen.
      * by eapply no_adjacent_grow.
      * intros a' sz'. rewrite blocks_at_app, elem_of_app. simpl. rewrite list_elem_of_singleton.
        intros [Hin|[= -> ->]]; [by apply Hsmall|lia].
      * exists p, h', bs'. rewrite total_app in Hrun. simpl in Hrun.
        replace (total seen + (sz + total fr + 0)) with (total seen + sz + total fr) in Hrun by lia.
        rewrite !Z.add_assoc in Hrun. split; [done|]. split; [done|]. split; [done|]. split; [done|].
        eapply allocated_used; [|done]. by apply used_joined.
Qed.
End search.
