(* ===== verification/BootMallocSafe.v ===== *)
(** * The boot heap: allocation, release and what clients may rely on *)

From stdpp Require Import base tactics list numbers option gmap.
From S2P Require Import Prelude Regions BootMalloc BootMallocThms.

#[local] Open Scope Z_scope.

(** ** Allocation *)

Lemma heap_wf_frame_ok h bs : heap_wf h bs → frame_ok (heap_st h) (heap_en h) h.
Proof. intros [? ? ? ? ? Hsen _]. done. Qed.

Lemma malloc_aligned_spec h bs n k :
  heap_wf h bs → 0 < n < 2 ^ 62 → 4 ≤ k ≤ 61 →
  ∃ p h' bs', malloc_aligned n (2 ^ k) h = Done (p, h') ∧ heap_wf h' bs'
    ∧ heap_st h' = heap_st h ∧ heap_en h' = heap_en h
    ∧ allocated (heap_st h) (block_bytes n) k bs p bs'.
Proof.
  intros Hwf Hn Hk. pose proof (heap_wf_frame_ok _ _ Hwf) as Hok.
  destruct Hwf as [Hst Hst16 Hen Hspan Ht Hsen (pre & post & -> & Hne & Hpre & Hff)].
  destruct (block_bytes_spec n Hn) as [Hd Hb].
  unfold malloc_aligned. destruct (Z.eqb_spec n 0); [lia|].
  run. rewrite Hff.
  pose proof Ht as (_ & Htp)%tiled_app.
  destruct (tiled_head _ _ _ _ Htp Hsen) as (sz & u & Hh & _).
  rewrite (bind_done _ _ _ _ _ (hdr_at_some _ _ _ Hh)). rewrite hdr_valid.
  run.
  pose proof (tiled_fuel _ _ _ _ h Ht eq_refl) as Hfuel. rewrite length_app in Hfuel.
  destruct (scan (heap_st h) (heap_en h) (block_bytes n) k Hst Hst16 Hen Hspan Hk ltac:(lia) Hd
              (length post) post (walk_fuel h) h pre []) as (p & h' & bs' & Hrun & Hres); try done; try lia.
  - left. split; [constructor|done].
  - by destruct post as [|[? ?] ?].
  - intros a s Hin. by apply elem_of_nil in Hin.
  - exists p, h', bs'. simpl in Hrun. rewrite Z.add_0_r in Hrun. done.
Qed.

(** Malloc_aligned returns for every heap of blocks: either with an aligned
    payload whose block of the rounded size is new among the blocks in use,
    or with null, having joined all neighbouring free blocks and found none
    of them large enough; the heap stays a heap of blocks. *)
Theorem malloc_aligned_correct h bs n k :
  heap_wf h bs → 0 < n < 2 ^ 62 → 4 ≤ k ≤ 61 →
  ∃ p h' bs', malloc_aligned n (2 ^ k) h = Done (p, h') ∧ heap_wf h' bs'
    ∧ heap_st h' = heap_st h ∧ heap_en h' = heap_en h
    ∧ allocated (heap_st h) (block_bytes n) k bs p bs'.
Proof. apply malloc_aligned_spec. Qed.

(** ** Release *)

Lemma blocks_at_split v a bs p sz :
  (p, sz) ∈ blocks_at v a bs → ∃ l1 l2, bs = l1 ++ (sz, v) :: l2 ∧ p = a + total l1.
Proof.
  revert a. induction bs as [|[s u] bs IH]; intros a; simpl; [by rewrite elem_of_nil|].
  rewrite elem_of_app. intros [Hin|Hin].
  - destruct (Bool.eqb_spec u v) as [->|]; [|by apply elem_of_nil in Hin].
    apply list_elem_of_singleton in Hin. injection Hin as -> ->. exists [], bs. simpl. split; [done|lia].
  - destruct (IH _ Hin) as (l1 & l2 & -> & ->). exists ((s, u) :: l1), l2. simpl. split; [done|lia].
Qed.

Lemma used_flip l1 l2 sz a :
  blocks_at true a (l1 ++ (sz, true) :: l2)
  ≡ₚ (a + total l1, sz) :: blocks_at true a (l1 ++ (sz, false) :: l2).
Proof.
  rewrite !blocks_at_app. simpl. by rewrite Permutation_middle.
Qed.

(** Giving back a block in the middle of the list: the hint *)
Lemma first_free_split (pre post l1 l2 : list block) sz (ff st : Z) m en :
  pre ++ post = l1 ++ (sz, true) :: l2 → tiled m st (pre ++ post) en → post ≠ [] → all_used pre →
  ff = st + total pre →
  let a := st + total l1 in
  ∃ pre' post', l1 ++ (sz, false) :: l2 = pre' ++ post' ∧ post' ≠ [] ∧ all_used pre'
    ∧ (if a <? ff then a else ff) = st + total pre'.
Proof.
  intros Heq Ht Hne Hpre -> a. unfold a. clear a.
  apply app_eq_inv in Heq as [(k & -> & Hk)|(k & -> & ->)].
  - destruct k as [|b k].
    + simpl in Hk. subst post. rewrite app_nil_r in *. rewrite Z.ltb_irrefl.
      exists l1, ((sz, false) :: l2). done.
    + simpl in Hk. injection Hk as <- ->. pose proof Ht as (Ht1 & _)%tiled_app.
      pose proof Ht1 as (Hl1 & Hb)%tiled_app.
      pose proof (tiled_total_bound _ _ _ _ Hb) as (_ & _ & H16).
      apply Forall_app in Hpre as [Hl _].
      destruct (Z.ltb_spec (st + total l1) (st + total (l1 ++ (sz, true) :: k))) as [_|Hge].
      * exists l1, ((sz, false) :: k ++ post). done.
      * rewrite total_app in Hge. specialize (H16 ltac:(done)). lia.
  - pose proof Ht as (_ & Ht2)%tiled_app. destruct (Z.ltb_spec (st + total (pre ++ k)) (st + total pre)) as [Hlt|_].
    { pose proof Ht2 as (Hk & _)%tiled_app.
      pose proof (tiled_total_bound _ _ _ _ Hk) as (? & _). rewrite total_app in Hlt. lia. }
    exists pre, (k ++ (sz, false) :: l2). rewrite <- app_assoc. split; [done|]. split; [by destruct k|]. done.
Qed.

Lemma free_spec h bs p sz :
  heap_wf h bs → (p - 16, sz) ∈ blocks_at true (heap_st h) bs →
  ∃ h' bs', free p h = Done (tt, h') ∧ heap_wf h' bs'
    ∧ heap_st h' = heap_st h ∧ heap_en h' = heap_en h
    ∧ blocks_at true (heap_st h) bs ≡ₚ (p - 16, sz) :: blocks_at true (heap_st h) bs'.
Proof.
  intros [Hst Hst16 Hen Hspan Ht Hsen (pre & post & Hbs & Hne & Hpre & Hff)] Hin.
  destruct (blocks_at_split _ _ _ _ _ Hin) as (l1 & l2 & Hl & Hp).
  rewrite Hl in Ht. pose proof Ht as (Ht1 & Hh & H16 & Hd & Ht2)%tiled_app.
  pose proof (tiled_total_bound _ _ _ _ Ht1) as (? & _ & _).
  pose proof (tiled_total_bound _ _ _ _ Ht2) as (? & _ & _). pose proof (tiled_total _ _ _ _ Ht2).
  unfold free. destruct (Z.eqb_spec p 0); [lia|]. cbv zeta. unfold HDR.
  rewrite u64_small, Hp by lia.
  rewrite (bind_done _ _ _ _ _ (hdr_at_some _ _ _ Hh)). rewrite hdr_is_used, hdr_valid. cbn [negb].
  rewrite (bind_done _ _ _ _ _ (with_hdr_some _ _ _ _ Hh)).
  run. cbn [first_free set_mem].
  set (a := heap_st h + total l1). set (h1 := set_mem _ h).
  destruct (first_free_split pre post l1 l2 sz (first_free h) (heap_st h) (hmem h) (heap_en h))
    as (pre' & post' & Hsplit & Hne' & Hpre' & Hff'); [congruence|congruence|done|done|done|].
  fold a in Hff'.
  exists (if a <? first_free h then set_first a h1 else h1), (l1 ++ (sz, false) :: l2).
  split; [by destruct (a <? first_free h)|]. split; [|split; [by destruct (a <? first_free h)|]].
  - assert (heap_st (if a <? first_free h then set_first a h1 else h1) = heap_st h) as E1 by (by destruct (a <? first_free h)).
    assert (heap_en (if a <? first_free h then set_first a h1 else h1) = heap_en h) as E2 by (by destruct (a <? first_free h)).
    assert (hmem (if a <? first_free h then set_first a h1 else h1) = <[a := hdr a sz false]> (hmem h)) as E3 by (by destruct (a <? first_free h)).
    constructor; rewrite ?E1, ?E2, ?E3; try done.
    + apply tiled_app. split; [apply tiled_insert; [done|unfold a; lia]|]. fold a. simpl.
      rewrite lookup_insert_eq. split; [done|]. split; [done|]. split; [done|].
      apply tiled_insert; [done|lia].
    + rewrite lookup_insert_ne by (unfold a; lia). done.
    + exists pre', post'. split; [done|]. split; [done|]. split; [done|].
      rewrite <- Hff'. by destruct (a <? first_free h).
  - split; [by destruct (a <? first_free h)|]. rewrite Hl. apply used_flip.
Qed.

(** Free of a payload whose block is in use returns, and that block is the
    only one that is no longer in use; the heap stays a heap of blocks. *)
Theorem free_correct h bs p sz :
  heap_wf h bs → (p - 16, sz) ∈ blocks_at true (heap_st h) bs →
  ∃ h' bs', free p h = Done (tt, h') ∧ heap_wf h' bs'
    ∧ heap_st h' = heap_st h ∧ heap_en h' = heap_en h
    ∧ blocks_at true (heap_st h) bs ≡ₚ (p - 16, sz) :: blocks_at true (heap_st h) bs'.
Proof. apply free_spec. Qed.

(** ** Initialization and validation *)

Definition round_up16 (x : Z) : Z := 16 * ((x + 15) / 16).
Definition round_down16 (x : Z) : Z := 16 * (x / 16).

Lemma malloc_init_spec h0 s e :
  0 < s → e < 2 ^ 63 → round_up16 s + 32 ≤ round_down16 e → round_down16 e - round_up16 s ≤ 2 ^ 32 →
  ∃ h, malloc_init s e h0 = Done (tt, h) ∧ heap_st h = round_up16 s ∧ heap_en h = round_down16 e - 16
    ∧ heap_wf h [(round_down16 e - 16 - round_up16 s, false)].
Proof.
  intros Hs He Hroom Hspan.
  assert (s ≤ round_up16 s) as Hup.
  { unfold round_up16. pose proof (Z.div_mod (s + 15) 16 ltac:(lia)).
    pose proof (Z.mod_pos_bound (s + 15) 16 ltac:(lia)). lia. }
  assert (round_down16 e ≤ e) as Hdn by (unfold round_down16; apply Z.mul_div_le; lia).
  unfold malloc_init. rewrite (u64_small (s + 15)) by lia.
  assert (Z.land (s + 15) (u64 (- 16)) = round_up16 s) as -> by (apply (land_neg_pow2 4); lia).
  assert (Z.land e (u64 (- 16)) = round_down16 e) as -> by (apply (land_neg_pow2 4); lia).
  cbv zeta. unfold HDR. set (a := round_up16 s) in *. set (en := round_down16 e) in *. unwrap.
  run.
  rewrite (bind_done _ _ _ _ _ (init_hdr_eq _ _ _ _)).
  run.
  rewrite (bind_done _ _ _ _ _ (init_hdr_eq _ _ _ _)).
  rewrite (bind_done _ _ _ _ _ (hdr_at_some _ a _ (lookup_insert_eq _ _ _))).
  eexists. split; [reflexivity|]. simpl. split; [done|]. split; [done|].
  rewrite (hdr_of_size a _ _ false), (hdr_of_size (en - 16) 0 _ true) by (done || lia).
  assert (16 | a) as Ha16 by apply Z.divide_factor_l. assert (16 | en) as He16 by apply Z.divide_factor_l.
  constructor; simpl; try done; try lia.
  - rewrite lookup_insert_eq. split; [done|]. split; [lia|]. split; [|lia].
    apply Z.divide_sub_r; [|done]. apply Z.divide_sub_r; [done|]. by exists 1.
  - rewrite lookup_insert_ne, lookup_insert_eq by lia. done.
  - exists [], [(en - 16 - a, false)]. simpl. split; [done|]. split; [done|]. split; [constructor|lia].
Qed.

Lemma validate_from_ok bs : ∀ fuel h a,
  tiled (hmem h) a bs (heap_en h) → hmem h !! heap_en h = Some (hdr (heap_en h) 0 true) →
  heap_st h ≤ a → 0 < heap_st h → heap_en h < 2 ^ 63 → (length bs < fuel)%nat →
  malloc_validate_from fuel a h = Done (true, h).
Proof.
  induction bs as [|[sz u] bs IH]; intros fuel h a Ht Hsen Hst H0 Hen Hfuel;
    (destruct fuel as [|fuel]; simpl in Hfuel; [lia|]); cbn [malloc_validate_from].
  - simpl in Ht. subst a. rewrite (bind_done _ _ _ _ _ (hdr_at_some _ _ _ Hsen)).
    run. rewrite hdr_valid, hdr_is_used, hdr_is_free.
    simpl. assert ((heap_en h <? heap_st h) = false) as -> by (apply Z.ltb_ge; lia).
    rewrite Z.ltb_irrefl, Z.eqb_refl. done.
  - destruct Ht as (Hh & H16 & Hd & Ht). rewrite (bind_done _ _ _ _ _ (hdr_at_some _ _ _ Hh)).
    pose proof (tiled_total _ _ _ _ Ht). pose proof (tiled_total_bound _ _ _ _ Ht) as (? & _ & _).
    run. rewrite hdr_valid, hdr_is_used, hdr_is_free.
    unfold id. cbn [hsize hdr].
    assert (negb (negb u) && negb u = false) as -> by (by destruct u). cbn [orb].
    assert (Z.land sz 15 = 0) as ->.
    { change 15 with (2 ^ 4 - 1). rewrite land_low_mask by lia. by apply Z.mod_divide. }
    assert ((a <? heap_st h) = false) as -> by (apply Z.ltb_ge; lia).
    assert ((heap_en h <? a) = false) as -> by (apply Z.ltb_ge; lia).
    destruct (Z.eqb_spec a (heap_en h)); [lia|]. simpl. unwrap. apply IH; try done; lia.
Qed.

Lemma malloc_validate_ok h bs : heap_wf h bs → malloc_validate h = Done (true, h).
Proof.
  intros [Hst _ Hen _ Ht Hsen _]. unfold malloc_validate. run.
  pose proof (tiled_fuel _ _ _ _ h Ht eq_refl).
  unfold id. apply (validate_from_ok bs); done || lia.
Qed.

(** ** Clients

    A client allocates, and frees payloads it holds.  [live] lists the
    payloads it holds with the byte counts it asked for. *)

Abbreviation payload := (Z * Z)%type.

Inductive client_step : heap * list payload → heap * list payload → Prop :=
  | client_malloc h live n k p h' :
      0 < n < 2 ^ 62 → 4 ≤ k ≤ 61 → malloc_aligned n (2 ^ k) h = Done (p, h') →
      client_step (h, live) (h', if p =? 0 then live else (p, n) :: live)
  | client_free h l1 p n l2 h' :
      free p h = Done (tt, h') → client_step (h, l1 ++ (p, n) :: l2) (h', l1 ++ l2).

Definition block_of (b : payload) : Z * Z := (b.1 - 16, block_bytes b.2).
Definition client_inv (st en : Z) (s : heap * list payload) : Prop :=
  ∃ bs, heap_wf s.1 bs ∧ heap_st s.1 = st ∧ heap_en s.1 = en
    ∧ Forall (λ b, 0 < b.2 < 2 ^ 62) s.2
    ∧ blocks_at true st bs ≡ₚ map block_of s.2.

Lemma client_step_inv st en s s' : client_inv st en s → client_step s s' → client_inv st en s'.
Proof.
  intros (bs & Hwf & Hs & He & Hpos & Hlive) Hstep.
  destruct Hstep as [h live n k p h' Hn Hk Hrun|h l1 p n l2 h' Hrun]; simpl in *.
  - destruct (malloc_aligned_spec h bs n k Hwf Hn Hk) as (p' & h1 & bs' & Hrun' & Hwf' & Hs' & He' & Hal).
    rewrite Hrun in Hrun'. injection Hrun' as <- <-. exists bs'. simpl.
    split; [done|]. split; [congruence|]. split; [congruence|]. rewrite Hs in Hal.
    destruct Hal as [(-> & Hu & _)|(Hp & _ & Hu)].
    + split; [done|]. by rewrite Hu.
    + apply Z.eqb_neq in Hp as ->. split; [by constructor|]. simpl. by rewrite Hu, Hlive.
  - assert ((p - 16, block_bytes n) ∈ blocks_at true (heap_st h) bs) as Hin.
    { rewrite Hs, Hlive, map_app, elem_of_app. right. simpl. rewrite elem_of_cons. by left. }
    destruct (free_spec h bs p _ Hwf Hin) as (h1 & bs' & Hrun' & Hwf' & Hs' & He' & Hu).
    rewrite Hrun in Hrun'. injection Hrun' as <-. exists bs'. simpl.
    split; [done|]. split; [congruence|]. split; [congruence|].
    apply Forall_app in Hpos as [Hp1 Hp2]. inversion Hp2; subst.
    split; [by apply Forall_app|]. apply (Permutation_cons_inv (a := (p - 16, block_bytes n))).
    rewrite <- Hu, Hlive, !map_app. simpl. symmetry. apply Permutation_middle.
Qed.

Lemma blocks_at_inside v a bs en m :
  tiled m a bs en → Forall (λ b, a ≤ b.1 ∧ b.1 + b.2 ≤ en) (blocks_at v a bs).
Proof.
  revert a. induction bs as [|[sz u] bs IH]; intros a; simpl; [constructor|].
  intros (_ & H16 & _ & Ht). pose proof (tiled_total _ _ _ _ Ht). pose proof (tiled_total_bound _ _ _ _ Ht) as (? & _).
  apply Forall_app. split.
  - destruct (Bool.eqb u v); constructor; simpl; [lia|constructor].
  - eapply Forall_impl; [by apply IH|]. simpl. lia.
Qed.

Lemma blocks_at_apart v a bs en m : tiled m a bs en → pairwise apart (blocks_at v a bs).
Proof.
  revert a. induction bs as [|[sz u] bs IH]; intros a; simpl; [done|].
  intros (_ & H16 & _ & Ht). destruct (Bool.eqb u v); simpl; [|by apply IH].
  split; [|by apply IH]. eapply Forall_impl; [by eapply blocks_at_inside|].
  intros [b s] [Hb _]. left. simpl in *. lia.
Qed.

Definition client_safe (s : heap * list payload) : Prop :=
  malloc_validate s.1 = Done (true, s.1)
  ∧ Forall (λ b, heap_st s.1 ≤ b.1 ∧ b.1 + b.2 ≤ heap_en s.1) s.2
  ∧ pairwise apart s.2
  ∧ (∀ n k, 0 < n < 2 ^ 62 → 4 ≤ k ≤ 61 → ∃ p h', malloc_aligned n (2 ^ k) s.1 = Done (p, h'))
  ∧ (∀ b, b ∈ s.2 → ∃ h', free b.1 s.1 = Done (tt, h')).

Lemma client_inv_safe st en s : client_inv st en s → client_safe s.
Proof.
  intros (bs & Hwf & Hs & He & Hpos & Hlive). pose proof Hwf as [_ _ _ _ Ht _ _].
  rewrite Hs, He in Ht. unfold client_safe. rewrite Hs, He.
  split; [by eapply malloc_validate_ok|]. split; [|split; [|split]].
  - assert (Forall (λ b, st ≤ b.1 ∧ b.1 + b.2 ≤ en) (map block_of s.2)) as HF.
    { rewrite <- Hlive. by eapply blocks_at_inside. }
    rewrite Forall_map in HF. apply (Forall_impl _ _ _ (proj2 (Forall_and _ _) (conj HF Hpos))).
    intros [p n] [Hin Hn]. simpl in *. destruct (block_bytes_spec n Hn). lia.
  - apply (pairwise_map apart apart block_of _ _ Hpos).
    + intros [p n] [q m] Hn Hm. unfold apart. simpl in *.
      destruct (block_bytes_spec n Hn), (block_bytes_spec m Hm). lia.
    + apply (pairwise_perm _ (blocks_at true st bs)); [done|]. by eapply blocks_at_apart.
  - intros n k Hn Hk. destruct (malloc_aligned_spec _ _ n k Hwf Hn Hk) as (p & h' & _ & Hrun & _). eauto.
  - intros b Hb. destruct (free_spec s.1 bs b.1 (block_bytes b.2) Hwf) as (h' & _ & Hrun & _); [|eauto].
    rewrite Hs, Hlive. apply list_elem_of_fmap. by exists b.
Qed.

(** C5: From malloc_init on, whatever a client allocates and frees: the payloads
    it holds lie inside the heap and have no byte in common, malloc_validate
    accepts the heap, and the next malloc_aligned or free of a held payload
    returns. *)
Theorem boot_heap_safe h0 s e h live :
  0 < s → e < 2 ^ 63 → round_up16 s + 32 ≤ round_down16 e → round_down16 e - round_up16 s ≤ 2 ^ 32 →
  ∀ h1, malloc_init s e h0 = Done (tt, h1) → rtc client_step (h1, []) (h, live) →
  client_safe (h, live).
Proof.
  intros Hs He Hroom Hspan h1 Hinit Hsteps.
  destruct (malloc_init_spec h0 s e Hs He Hroom Hspan) as (h1' & Hinit' & Hst & Hen & Hwf).
  rewrite Hinit in Hinit'. injection Hinit' as <-.
  apply (client_inv_safe (heap_st h1) (heap_en h1)).
  assert (client_inv (heap_st h1) (heap_en h1) (h1, [])) as Hinv.
  { eexists. split; [exact Hwf|]. split; [done|]. split; [done|]. split; [constructor|done]. }
  clear -Hinv Hsteps. induction Hsteps as [x|x y z Hxy _ IH]; [done|].
  apply IH. by eapply client_step_inv.
Qed.
