(* ===== verification/BootMallocRealloc.v ===== *)
(** * The boot heap: realloc_aligned *)

From stdpp Require Import base tactics list numbers option gmap.
From S2P Require Import Prelude BootMalloc BootMallocThms BootMallocSafe Regions.

#[local] Open Scope Z_scope.

(** A block of the heap in use, with its header and its bounds *)
Lemma wf_used_block h bs p sz :
  heap_wf h bs → (p - 16, sz) ∈ blocks_at true (heap_st h) bs →
  ∃ l1 l2, bs = l1 ++ (sz, true) :: l2 ∧ p - 16 = heap_st h + total l1
    ∧ 0 ≤ total l1 ∧ tiled (hmem h) (heap_st h) l1 (p - 16)
    ∧ tiled (hmem h) (p - 16) ((sz, true) :: l2) (heap_en h).
Proof.
  intros [_ _ _ _ Ht _ _] Hin. destruct (blocks_at_split _ _ _ _ _ Hin) as (l1 & l2 & -> & Hp).
  apply tiled_app in Ht as [Ht1 Ht2]. pose proof (tiled_total_bound _ _ _ _ Ht1) as (? & _).
  exists l1, l2. rewrite Hp. done.
Qed.

(** ** Shrinking *)

Lemma realloc_shrink_run h a sz l2 en bytes :
  tiled (hmem h) a ((sz, true) :: l2) en → 0 ≤ a → en < 2 ^ 63 → sz < 2 ^ 32 →
  (16 | bytes) → 16 ≤ bytes < sz →
  ∃ m', realloc_shrink a (a + sz) bytes h = Done (tt, set_mem m' h)
    ∧ tiled m' a ((bytes, true) :: (sz - bytes, false) :: l2) en
    ∧ (∀ p, p < a ∨ en ≤ p → m' !! p = hmem h !! p).
Proof.
  intros (Hh & H16 & Hd & Ht) Ha Hen Hsz Hbd Hb.
  pose proof (tiled_total _ _ _ _ Ht). pose proof (tiled_total_bound _ _ _ _ Ht) as (? & _ & _).
  unfold realloc_shrink. cbv zeta. unwrap.
  replace (a + sz - (a + bytes)) with (sz - bytes) by lia.
  rewrite (bind_done _ _ _ _ _ (init_hdr_eq _ _ _ _)).
  rewrite (hdr_of_size _ _ _ false) by (done || lia).
  erewrite with_hdr_some; [|simpl; rewrite lookup_insert_ne by lia; exact Hh].
  replace (a + bytes - a) with bytes by lia. rewrite set_size_hdr by lia.
  exists (<[a := hdr a bytes true]> (<[a + bytes := hdr (a + bytes) (sz - bytes) false]> (hmem h))).
  split; [done|]. split.
  - assert (16 | sz - bytes) as Hrd by (by apply Z.divide_sub_r).
    simpl. rewrite lookup_insert_eq, (lookup_insert_ne _ a (a + bytes)), lookup_insert_eq by lia.
    split; [done|]. split; [lia|]. split; [done|]. split; [done|].
    split; [destruct Hrd as [q Hq]; lia|]. split; [done|].
    replace (a + bytes + (sz - bytes)) with (a + sz) by lia.
    do 2 (apply tiled_insert; [|lia]). done.
  - intros p Hp. rewrite !lookup_insert_ne by lia. done.
Qed.

(** The hint stays where it is: the heap is well formed again if the hint is
    not behind the block. *)
Lemma shrink_wf h l1 l2 sz bytes m' :
  heap_wf h (l1 ++ (sz, true) :: l2) → first_free h ≤ heap_st h + total l1 →
  tiled m' (heap_st h + total l1) ((bytes, true) :: (sz - bytes, false) :: l2) (heap_en h) →
  (∀ p, p < heap_st h + total l1 ∨ heap_en h ≤ p → m' !! p = hmem h !! p) →
  heap_wf (set_mem m' h) (l1 ++ (bytes, true) :: (sz - bytes, false) :: l2).
Proof.
  intros [Hst Hst16 Hen Hspan Ht Hsen (pre & post & Hbs & Hne & Hpre & Hff)] Hle Ht' Hframe.
  pose proof Ht as (Ht1 & _)%tiled_app.
  constructor; simpl; try done.
  - apply tiled_app. split; [|done]. eapply tiled_frame; [|done]. intros q Hq. apply Hframe. lia.
  - rewrite Hframe by lia. done.
  - rewrite Hbs in Ht. symmetry in Hbs. apply app_eq_inv in Hbs as [(k & -> & Hk)|(k & -> & ->)].
    + destruct k as [|b k].
      * rewrite app_nil_r in *. exists l1, ((bytes, true) :: (sz - bytes, false) :: l2). done.
      * apply tiled_app in Ht as [Ht _]. apply tiled_app in Ht as [_ Ht].
        pose proof (tiled_total_bound _ _ _ _ Ht) as (_ & _ & H16). rewrite total_app in Hff.
        specialize (H16 ltac:(done)). lia.
    + exists pre, (k ++ (bytes, true) :: (sz - bytes, false) :: l2). rewrite <- app_assoc.
      split; [done|]. split; [by destruct k|]. done.
Qed.

Lemma used_resize l1 l2 sz sz1 sz2 a :
  sz1 + sz2 = sz → ∃ others,
  blocks_at true a (l1 ++ (sz, true) :: l2) ≡ₚ (a + total l1, sz) :: others
  ∧ blocks_at true a (l1 ++ (sz1, true) :: (sz2, false) :: l2) ≡ₚ (a + total l1, sz1) :: others.
Proof.
  intros <-. exists (blocks_at true a l1 ++ blocks_at true (a + total l1 + (sz1 + sz2)) l2).
  rewrite !blocks_at_app. simpl. rewrite <- !Permutation_middle. split; [done|].
  by rewrite <- (Z.add_assoc _ sz1 sz2).
Qed.

(** ** Growing *)

(** Joining the free blocks after the one at [a] keeps the heap well formed *)
Lemma coalesce_wf h l1 sz l2 :
  heap_wf h (l1 ++ (sz, false) :: l2) →
  ∃ fr rest h', l2 = fr ++ rest ∧ all_free fr ∧ starts_free rest = false
    ∧ malloc_coalesce (walk_fuel h) (heap_st h + total l1) (heap_st h + total l1 + sz) h
      = Done (heap_st h + total l1 + sz + total fr, h')
    ∧ heap_wf h' (l1 ++ (sz + total fr, false) :: rest)
    ∧ heap_st h' = heap_st h ∧ heap_en h' = heap_en h
    ∧ (∀ p, p < heap_st h + total l1 → hmem h' !! p = hmem h !! p).
Proof.
  intros [Hst Hst16 Hen Hspan Ht Hsen (pre & post & Hbs & Hne & Hpre & Hff)].
  pose proof Ht as (Ht1 & Ht2)%tiled_app. pose proof (tiled_total_bound _ _ _ _ Ht1) as (? & _ & _).
  pose proof (tiled_fuel _ _ _ _ h Ht eq_refl) as Hfuel. rewrite length_app in Hfuel. simpl in Hfuel.
  destruct (coalesce_spec (walk_fuel h) h _ sz false l2 _ Ht2 Hsen)
    as (fr & rest & m' & -> & Hfr & _ & Hrest & Hrun & Htile & Hframe); [lia|lia|lia|lia|].
  (* the block is free, so the hint is not behind it *)
  assert (∃ k, l1 = pre ++ k) as [k ->].
  { symmetry in Hbs. apply app_eq_inv in Hbs as [(k & -> & Hk)|(k & -> & _)]; [|by exists k].
    destruct k as [|b k]; [by exists []; rewrite !app_nil_r|].
    simpl in Hk. injection Hk as <- _. apply Forall_app in Hpre as [_ Hpre]. by inversion Hpre. }
  pose proof Ht2 as (_ & H16 & _ & Ht3). pose proof (tiled_pos _ _ _ _ Ht3) as [Hpos _]%Forall_app.
  pose proof Ht1 as (_ & Htk)%tiled_app. pose proof (tiled_total_bound _ _ _ _ Htk) as (? & _ & _).
  rewrite total_app in *.
  unfold moved_first in Hrun. rewrite decide_False in Hrun; last first.
  { intros Hin%blocks_at_ge; [lia|done]. }
  eexists fr, rest, _. split; [done|]. split; [done|]. split; [by apply Hrest|]. split; [exact Hrun|].
  pose proof (tiled_total_bound _ _ _ _ Ht3) as (? & _ & _). pose proof (tiled_total _ _ _ _ Ht3).
  split; [|split; [done|split; [done|]]].
  - constructor; simpl; try done.
    + apply tiled_app. rewrite total_app. split; [|done].
      eapply tiled_frame; [|done]. intros q Hq. apply Hframe. lia.
    + rewrite Hframe by lia. done.
    + exists pre, (k ++ (sz + total fr, false) :: rest). rewrite <- app_assoc. split; [done|].
      split; [by destruct k|]. done.
  - intros p Hp. apply Hframe. lia.
Qed.

(** What realloc does to the old block once its contents have moved *)
Lemma free_body h p sz :
  hmem h !! (p - 16) = Some (hdr (p - 16) sz true) → 16 ≤ p < 2 ^ 64 →
  free p h = (with_hdr (p - 16) (set_sig SIG_FREE);;
              ff ← gets first_free;
              if p - 16 <? ff then modify (set_first (p - 16)) else mret tt) h.
Proof.
  intros Hh Hp. unfold free. destruct (Z.eqb_spec p 0); [lia|]. cbv zeta. unfold HDR. unwrap.
  rewrite (bind_done _ _ _ _ _ (hdr_at_some _ _ _ Hh)). by rewrite hdr_is_used, hdr_valid.
Qed.

(** realloc never grows a block where it is: after the free blocks behind it
    have been joined, the block it looks at is the one behind those, which is
    not free. *)
Lemma realloc_grow_moves h bs p sz n k :
  heap_wf h bs → (p - 16, sz) ∈ blocks_at true (heap_st h) bs → 0 < n < 2 ^ 61 → sz < block_bytes n →
  ∃ h1 bs1, heap_wf h1 bs1 ∧ heap_st h1 = heap_st h ∧ heap_en h1 = heap_en h
    ∧ blocks_at true (heap_st h) bs1 = blocks_at true (heap_st h) bs
    ∧ realloc_aligned p n (2 ^ k) h
      = (other_blk ← malloc_aligned (block_bytes n) (2 ^ k);
         if other_blk =? 0 then mret 0
         else with_hdr (p - 16) (set_sig SIG_FREE);;
              ff ← gets first_free;
              (if p - 16 <? ff then modify (set_first (p - 16)) else mret tt);;
              mret other_blk) h1.
Proof.
  intros Hwf Hin Hn Hgrow. pose proof (wf_used_block _ _ _ _ Hwf Hin) as (l1 & l2 & -> & Hp & Hl1 & Ht1 & Ht2).
  pose proof Hwf as [Hst _ Hen Hspan Ht Hsen _]. pose proof Ht2 as (Hh & H16 & _ & Ht3).
  pose proof (tiled_total _ _ _ _ Ht3). pose proof (tiled_total_bound _ _ _ _ Ht3) as (? & _ & _).
  destruct (block_bytes_spec n ltac:(lia)) as [_ Hb].
  unfold realloc_aligned. destruct (Z.eqb_spec p 0); [lia|]. cbv zeta. unfold HDR. rewrite u64_small by lia.
  rewrite (bind_done _ _ _ _ _ (hdr_at_some _ _ _ Hh)). rewrite hdr_valid.
  erewrite (bind_done (next_blk _)); [|eapply next_blk_eq; [exact Hh|lia..]].
  cbn [hsize hdr]. assert ((sz <? block_bytes n) = true) as -> by (apply Z.ltb_lt; lia).
  destruct (tiled_head _ _ _ _ Ht3 Hsen) as (sz2 & u2 & Hn2 & Hsf & Hpos2 & Hnil).
  rewrite (bind_done _ _ _ _ _ (hdr_at_some _ _ _ Hn2)). rewrite hdr_valid, hdr_is_free.
  destruct u2; cbn [negb].
  - rewrite bind_mret.
    rewrite (bind_done _ _ _ _ _ (hdr_at_some _ _ _ Hn2)). rewrite hdr_is_free. cbn [negb andb].
    by exists h, (l1 ++ (sz, true) :: l2).
  - destruct l2 as [|[sz2' u2'] l2]; [by destruct (Hnil eq_refl)|]. simpl in Hsf. destruct u2'; [done|].
    pose proof Ht3 as (Hn2' & H162 & _ & Ht4). rewrite Hn2 in Hn2'. injection Hn2' as Hn2' _. subst sz2'.
    pose proof (tiled_total _ _ _ _ Ht4). pose proof (tiled_total_bound _ _ _ _ Ht4) as (? & _ & _).
    replace (l1 ++ (sz, true) :: (sz2, false) :: l2) with ((l1 ++ [(sz, true)]) ++ (sz2, false) :: l2) in * by (by rewrite <- app_assoc).
    destruct (coalesce_wf h (l1 ++ [(sz, true)]) sz2 l2 Hwf) as (fr & rest & h1 & -> & Hfr & Hrest & Hrun & Hwf1 & Hs1 & He1 & Hframe).
    rewrite total_app in Hrun, Hframe. simpl in Hrun, Hframe.
    replace (heap_st h + (total l1 + (sz + 0))) with (p - 16 + sz) in Hrun, Hframe by lia.
    rewrite bind_assoc. erewrite (bind_done (next_blk _)); [|eapply next_blk_eq; [exact Hn2|lia..]].
    rewrite bind_assoc, bind_gets.
    rewrite (bind_done _ _ _ _ _ Hrun).
    pose proof Hwf1 as [_ _ _ _ Ht5 Hsen5 _].
    apply tiled_app in Ht5 as (_ & _ & _ & _ & Ht5). destruct (tiled_head _ _ _ _ Ht5 Hsen5) as (sz5 & u5 & Hn5 & Hsf5 & _).
    rewrite Hs1, total_app in Hn5. simpl in Hn5.
    replace (heap_st h + (total l1 + (sz + 0)) + (sz2 + total fr)) with (p - 16 + sz + sz2 + total fr) in Hn5 by lia.
    rewrite (bind_done _ _ _ _ _ (hdr_at_some _ _ _ Hn5)). rewrite hdr_is_free, <- Hsf5, Hrest. cbn [andb].
    eexists h1, _. split; [exact Hwf1|]. split; [done|]. split; [done|]. split; [|done].
    rewrite !blocks_at_app. simpl. rewrite blocks_at_app, (used_of_free fr) by done.
    rewrite total_app. simpl. do 2 f_equal. lia.
Qed.

Lemma realloc_in_place h bs p sz n k :
  heap_wf h bs → (p - 16, sz) ∈ blocks_at true (heap_st h) bs → 0 < n < 2 ^ 61 → block_bytes n ≤ sz →
  first_free h ≤ p - 16 ∨ sz ≤ block_bytes n →
  ∃ h' bs' others, realloc_aligned p n (2 ^ k) h = Done (p, h') ∧ heap_wf h' bs'
    ∧ blocks_at true (heap_st h) bs ≡ₚ (p - 16, sz) :: others
    ∧ blocks_at true (heap_st h) bs' ≡ₚ (p - 16, block_bytes n) :: others.
Proof.
  intros Hwf Hin Hn Hfit Hhint. destruct (block_bytes_spec n ltac:(lia)) as [Hbd Hb].
  pose proof (wf_used_block _ _ _ _ Hwf Hin) as (l1 & l2 & -> & Hp & Hl1 & Ht1 & Ht2).
  pose proof Hwf as [Hst _ Hen Hspan Ht _ _]. pose proof Ht2 as (Hh & H16 & _ & Ht3).
  pose proof (tiled_total _ _ _ _ Ht3). pose proof (tiled_total_bound _ _ _ _ Ht3) as (? & _ & _).
  unfold realloc_aligned. destruct (Z.eqb_spec p 0); [lia|]. cbv zeta. unfold HDR.
  rewrite (u64_small (p - 16)) by lia.
  rewrite (bind_done _ _ _ _ _ (hdr_at_some _ _ _ Hh)). rewrite hdr_valid.
  erewrite (bind_done (next_blk _)); [|eapply next_blk_eq; [exact Hh|lia..]].
  cbn [hsize hdr]. assert ((sz <? block_bytes n) = false) as -> by (apply Z.ltb_ge; lia).
  replace (u64 (p - 16 + 16)) with p by (unwrap; lia).
  destruct (Z.ltb_spec (block_bytes n) sz) as [Hlt|Hge].
  + destruct (realloc_shrink_run h (p - 16) sz l2 (heap_en h) (block_bytes n)) as (m' & Hrun & Htile & Hframe);
      [done|lia|lia|lia|done|lia|].
    rewrite (bind_done _ _ _ _ _ Hrun).
    destruct (used_resize l1 l2 sz (block_bytes n) (sz - block_bytes n) (heap_st h) ltac:(lia)) as (others & Hu & Hu').
    rewrite <- Hp in Hu, Hu'. rewrite Hp in Htile, Hframe.
    exists (set_mem m' h), (l1 ++ (block_bytes n, true) :: (sz - block_bytes n, false) :: l2), others.
    split; [done|]. split; [by apply shrink_wf; try done; lia|]. done.
  + assert (block_bytes n = sz) as -> by lia.
    destruct (proj1 (elem_of_Permutation _ _) Hin) as [others Hu].
    exists h, (l1 ++ (sz, true) :: l2), others. done.
Qed.

Lemma realloc_elsewhere h bs p sz n k :
  heap_wf h bs → (p - 16, sz) ∈ blocks_at true (heap_st h) bs → 0 < n < 2 ^ 61 → 4 ≤ k ≤ 61 → sz < block_bytes n →
  ∃ q h' bs' others, realloc_aligned p n (2 ^ k) h = Done (q, h') ∧ heap_wf h' bs'
    ∧ blocks_at true (heap_st h) bs ≡ₚ (p - 16, sz) :: others
    ∧ ((q = 0 ∧ blocks_at true (heap_st h) bs' ≡ₚ (p - 16, sz) :: others)
        ∨ (q ≠ 0 ∧ (2 ^ k | q)
           ∧ blocks_at true (heap_st h) bs' ≡ₚ (q - 16, block_bytes (block_bytes n)) :: others)).
Proof.
  intros Hwf Hin Hn Hk Hgrow. destruct (block_bytes_spec n ltac:(lia)) as [Hbd Hb].
  destruct (realloc_grow_moves h bs p sz n k Hwf Hin Hn ltac:(lia)) as (h1 & bs1 & Hwf1 & Hs1 & He1 & Hu1 & Hrun).
  destruct (malloc_aligned_spec h1 bs1 (block_bytes n) k Hwf1 ltac:(lia) Hk)
    as (q & h2 & bs2 & Hrun2 & Hwf2 & Hs2 & He2 & Hal).
  rewrite Hs1 in Hal. rewrite Hrun, (bind_done _ _ _ _ _ Hrun2).
  destruct (proj1 (elem_of_Permutation _ _) Hin) as [others Hu].
  destruct Hal as [(-> & Hu2 & _)|(Hq & Hqa & Hu2)].
  + exists 0, h2, bs2, others. split; [done|]. split; [done|]. split; [done|].
    left. split; [done|]. by rewrite Hu2, Hu1.
  + assert ((p - 16, sz) ∈ blocks_at true (heap_st h2) bs2) as Hin2.
    { rewrite Hs2, Hs1, Hu2, Hu1. rewrite elem_of_cons. by right. }
    destruct (free_spec h2 bs2 p sz Hwf2 Hin2) as (h3 & bs3 & Hrun3 & Hwf3 & _ & _ & Hu3).
    pose proof (wf_used_block _ _ _ _ Hwf2 Hin2) as (l1 & l2 & _ & Hp & Hl1 & _ & Ht2).
    pose proof Hwf2 as [Hst2 _ Hen2 _ _ _ _]. pose proof Ht2 as (Hh2 & H16 & _ & Ht3).
    pose proof (tiled_total _ _ _ _ Ht3). pose proof (tiled_total_bound _ _ _ _ Ht3) as (? & _ & _).
    rewrite (free_body h2 p sz Hh2) in Hrun3 by lia.
    assert ((q =? 0) = false) as -> by (by apply Z.eqb_neq).
    exists q, h3, bs3, others. split.
    * etransitivity; [|exact (bind_done _ (λ _, mret q) _ _ _ Hrun3)]. done.
    * split; [done|]. split; [done|]. right. split; [done|]. split; [done|].
      apply (Permutation_cons_inv (a := (p - 16, sz))).
      rewrite Hs2, Hs1 in Hu3. rewrite <- Hu3, Hu2, Hu1, Hu. apply Permutation_swap.
Qed.


(** * The boot heap on concrete heaps *)

Definition heap_after {A} (m : HP A) (h : heap) : heap :=
  match m h with Done (_, h') => h' | Fault _ => h end.

Definition heap0 : heap := Heap ∅ 0 0 0 0.
(** A heap of 256 bytes, and a 40-byte payload in it *)
Definition heap1 : heap := heap_after (malloc_init 4096 4352) heap0.
Definition heap2 : heap := heap_after (malloc_aligned 40 16) heap1.

Lemma heap1_wf : heap_wf heap1 [(240, false)].
Proof.
  constructor; try (vm_compute; done).
  - by exists 256.
  - split; [reflexivity|]. split; [lia|]. split; [by exists 15|reflexivity].
  - exists [], [(240, false)]. split; [done|]. split; [done|]. split; [constructor|reflexivity].
Defined.

Lemma heap2_wf : heap_wf heap2 [(64, true); (176, false)].
Proof.
  constructor; try (vm_compute; done).
  - by exists 256.
  - split; [reflexivity|]. split; [lia|]. split; [by exists 4|].
    split; [reflexivity|]. split; [lia|]. split; [by exists 11|reflexivity].
  - exists [], [(64, true); (176, false)].
    split; [done|]. split; [done|]. split; [constructor|reflexivity].
Defined.

Lemma malloc_aligned_witness :
  ∃ p h' bs', malloc_aligned 40 (2 ^ 6) heap1 = Done (p, h') ∧ heap_wf h' bs'
    ∧ heap_st h' = heap_st heap1 ∧ heap_en h' = heap_en heap1
    ∧ allocated (heap_st heap1) (block_bytes 40) 6 [(240, false)] p bs'.
Proof. apply (malloc_aligned_correct heap1 _ 40 6 heap1_wf); lia. Defined.

Lemma free_witness :
  ∃ h' bs', free 4112 heap2 = Done (tt, h') ∧ heap_wf h' bs'
    ∧ heap_st h' = heap_st heap2 ∧ heap_en h' = heap_en heap2
    ∧ blocks_at true (heap_st heap2) [(64, true); (176, false)]
      ≡ₚ (4112 - 16, 64) :: blocks_at true (heap_st heap2) bs'.
Proof.
  apply (free_correct heap2 [(64, true); (176, false)] 4112 64 heap2_wf).
  vm_compute. constructor.
Defined.


Lemma boot_heap_safe_witness : client_safe (heap2, [(4112, 40)]).
Proof.
  apply (boot_heap_safe heap0 4096 4352 heap2 [(4112, 40)]) with (h1 := heap1);
    try (vm_compute; done).
  apply rtc_once. apply (client_malloc heap1 [] 40 4 4112 heap2); [lia|lia|].
  vm_compute. reflexivity.
Defined.

(** ** A search that does not end

    Shrinking a block with realloc leaves a free block before the search
    hint.  When the block at the hint is then freed, a search that has
    wrapped around joins the two, and the address the search started from,
    by which it recognizes that it has seen the whole heap, is no longer the
    address of a block. *)

Definition shrunk : heap :=
  heap_after (a ← malloc 64; b ← malloc 16; realloc a 16;; free b) heap1.

(** The heap when the search comes to the free block before the hint, and
    after it has joined it to the block at the hint *)
Definition shrunk_half : heap := heap_after (malloc_coalesce 3 4176 4208) shrunk.
Definition shrunk_joined : heap := heap_after (malloc_coalesce 3 4128 4176) shrunk_half.

(** One round of the search takes it from [a] in [h] to [a'] in [h'] *)
Definition round_to (h : heap) (a : Z) (h' : heap) (a' : Z) : Prop :=
  ∀ fuel, malloc_loop (S fuel) 4176 1024 16 a h = malloc_loop fuel 4176 1024 16 a' h'.

Ltac one_round :=
  intros fuel; cbn [malloc_loop]; generalize (malloc_loop fuel 4176 1024 16); intros rec;
  vm_compute; reflexivity.

Lemma round_hint : round_to shrunk 4176 shrunk_half 4336.
Proof. one_round. Qed.
Lemma round_end : round_to shrunk_half 4336 shrunk_half 4096.
Proof. one_round. Qed.
Lemma round_first : round_to shrunk_half 4096 shrunk_half 4128.
Proof. one_round. Qed.
Lemma round_join : round_to shrunk_half 4128 shrunk_joined 4336.
Proof. one_round. Qed.
Lemma round_cycle_end : round_to shrunk_joined 4336 shrunk_joined 4096.
Proof. one_round. Qed.
Lemma round_cycle_first : round_to shrunk_joined 4096 shrunk_joined 4128.
Proof. one_round. Qed.
Lemma round_cycle_free : round_to shrunk_joined 4128 shrunk_joined 4336.
Proof. one_round. Qed.

Lemma search_cycle fuel a :
  a = 4096 ∨ a = 4128 ∨ a = 4336 → malloc_loop fuel 4176 1024 16 a shrunk_joined = Fault OutOfFuel.
Proof.
  revert a. induction fuel as [|fuel IH]; [done|]. intros a [->|[->| ->]].
  - rewrite round_cycle_first. auto.
  - rewrite round_cycle_free. auto.
  - rewrite round_cycle_end. auto.
Qed.

(** After malloc, malloc, a shrinking realloc and a free, the search of
    malloc_aligned for a block of 1024 bytes never ends: it does not return
    in any number of rounds. *)
Theorem malloc_search_diverges fuel :
  first_free shrunk = 4176 ∧ block_bytes 1000 = 1024
  ∧ malloc_loop fuel (first_free shrunk) (block_bytes 1000) 16 (first_free shrunk) shrunk = Fault OutOfFuel.
Proof.
  assert (first_free shrunk = 4176) as Hff by (vm_compute; reflexivity).
  assert (block_bytes 1000 = 1024) as Hb by (vm_compute; reflexivity).
  rewrite Hff, Hb. split; [done|]. split; [done|].
  destruct fuel as [|fuel]; [done|]. rewrite round_hint.
  destruct fuel as [|fuel]; [done|]. rewrite round_end.
  destruct fuel as [|fuel]; [done|]. rewrite round_first.
  destruct fuel as [|fuel]; [done|]. rewrite round_join.
  apply search_cycle. auto.
Qed.

(** calloc cuts the byte count to 16 bits: a request for 65,552 bytes gets a
    block with a payload of 16. *)
Lemma calloc_truncates :
  ∃ h', calloc 1 65552 heap1 = Done (4112, h') ∧ hmem h' !! 4096 = Some (hdr 4096 32 true).
Proof. eexists. split; vm_compute; reflexivity. Qed.
