(* ===== verification/Pipe.v ===== *)
(** * kernel/lib/pipe.cc: a byte pipe over a pool of pages

    The pool is an array of pages; each starts with a header (the [next]
    link and the number of payload bytes) and holds [PAYLOAD] bytes after it.
    Pages are named by their index in the pool, so the source's pointers are
    [option nat].  The pages are in three chains: those being written, those
    taken over by the reader, and the free list.

    A call that waits on a condition variable gives up the lock, and other
    calls run before it goes on, so enqueue and dequeue are cut at their
    waits: a segment runs under the lock and either returns or says what it
    waits with.  [psys_step] interleaves the segments of any number of
    threads. *)

From stdpp Require Import base tactics list numbers option gmap relations.
From S2P Require Import Prelude.

(** ** The code *)

Definition PAGESIZE : nat := 4096.
Definition PAGE_SCALE : Z := 12.
Definition HDR_SIZE : nat := 64.       (* sizeof(pipe_buffer_hdr_t) *)
Definition PAYLOAD : nat := PAGESIZE - HDR_SIZE.

(** struct pipe_buffer_hdr_t and the payload after it *)
Record pipe_buffer_hdr_t := Hdr {
  next : option nat;
  size : nat;
  payload : list Z
}.

Record pipe_t := Pipe {
  pool : list pipe_buffer_hdr_t;     (* the memory at page_pool *)
  page_pool : bool;                  (* page_pool != nullptr *)
  page_bump : nat;
  page_capacity : nat;
  free_buffer : option nat;
  write_buffer_first : option nat;
  write_buffer : option nat;
  read_buffer : option nat;
  read_ofs : nat;
  not_empty_signals : nat;           (* notifications of pipe_not_empty *)
  not_full_signals : nat             (* notifications of pipe_not_full *)
}.

Definition pipe_init : pipe_t := Pipe [] false 0 0 None None None None 0 0 0.

Abbreviation PP := (M pipe_t).

Definition set_pool (p : list pipe_buffer_hdr_t) (s : pipe_t) : pipe_t :=
  Pipe p (page_pool s) (page_bump s) (page_capacity s) (free_buffer s)
    (write_buffer_first s) (write_buffer s) (read_buffer s) (read_ofs s)
    (not_empty_signals s) (not_full_signals s).
Definition set_bump (n : nat) (s : pipe_t) : pipe_t :=
  Pipe (pool s) (page_pool s) n (page_capacity s) (free_buffer s)
    (write_buffer_first s) (write_buffer s) (read_buffer s) (read_ofs s)
    (not_empty_signals s) (not_full_signals s).
Definition set_free (f : option nat) (s : pipe_t) : pipe_t :=
  Pipe (pool s) (page_pool s) (page_bump s) (page_capacity s) f
    (write_buffer_first s) (write_buffer s) (read_buffer s) (read_ofs s)
    (not_empty_signals s) (not_full_signals s).
Definition set_write (f w : option nat) (s : pipe_t) : pipe_t :=
  Pipe (pool s) (page_pool s) (page_bump s) (page_capacity s) (free_buffer s)
    f w (read_buffer s) (read_ofs s) (not_empty_signals s) (not_full_signals s).
Definition set_read (r : option nat) (o : nat) (s : pipe_t) : pipe_t :=
  Pipe (pool s) (page_pool s) (page_bump s) (page_capacity s) (free_buffer s)
    (write_buffer_first s) (write_buffer s) r o (not_empty_signals s) (not_full_signals s).
Definition notify_not_empty (s : pipe_t) : pipe_t :=
  Pipe (pool s) (page_pool s) (page_bump s) (page_capacity s) (free_buffer s)
    (write_buffer_first s) (write_buffer s) (read_buffer s) (read_ofs s)
    (S (not_empty_signals s)) (not_full_signals s).
Definition notify_not_full (s : pipe_t) : pipe_t :=
  Pipe (pool s) (page_pool s) (page_bump s) (page_capacity s) (free_buffer s)
    (write_buffer_first s) (write_buffer s) (read_buffer s) (read_ofs s)
    (not_empty_signals s) (S (not_full_signals s)).

(** page->field, through a page index *)
Definition page_at (i : nat) : PP pipe_buffer_hdr_t :=
  λ s, match pool s !! i with Some h => Done (h, s) | None => Fault OutOfRange end.
Definition put_page (i : nat) (h : pipe_buffer_hdr_t) : PP unit :=
  λ s, match pool s !! i with
       | Some _ => Done (tt, set_pool (<[i := h]> (pool s)) s)
       | None => Fault OutOfRange
       end.

Definition capacity (s : pipe_t) : Z := u64 (Z.shiftl (Z.of_nat (page_capacity s)) PAGE_SCALE).
Definition overhead : nat := HDR_SIZE.

Definition cleanup_buffer (s : pipe_t) : pipe_t :=
  notify_not_full
    (if page_pool s then
       Pipe [] false 0 0 None None None None (read_ofs s) (not_empty_signals s) (not_full_signals s)
     else s).

(** pipe_t::reserve.  [mem] is what mmap returned: the contents of the new
    pages, or None for MAP_FAILED. *)
Definition reserve (mem : option (list pipe_buffer_hdr_t)) : PP bool :=
  match mem with
  | None => mret false
  | Some pg =>
      modify cleanup_buffer;;
      modify (λ s, notify_not_full
        (Pipe pg true (page_bump s) (length pg) (free_buffer s)
           (write_buffer_first s) (write_buffer s) (read_buffer s) (read_ofs s)
           (not_empty_signals s) (not_full_signals s)));;
      mret true
  end.

(** One round of allocate_page's loop: a page, or nullptr because there is no
    pool, or a wait on pipe_not_full. *)
Inductive page_result := GotPage (i : nat) | NoPool | MustWait.

Definition allocate_page : PP page_result :=
  s ← gets id;
  if negb (page_pool s) then mret NoPool
  else match free_buffer s with
  | Some i =>
      h ← page_at i;
      modify (set_free (next h));;
      put_page i (Hdr None 0 (payload h));;
      mret (GotPage i)
  | None =>
      if decide (page_bump s < page_capacity s) then
        h ← page_at (page_bump s);
        put_page (page_bump s) (Hdr None 0 (payload h));;
        modify (set_bump (S (page_bump s)));;
        (* assert(page_bump <= page_capacity) *)
        (if decide (S (page_bump s) ≤ page_capacity s) then mret tt else throw AssertFailed);;
        mret (GotPage (page_bump s))
      else mret MustWait
  end.

Definition free_page (i : nat) : PP unit :=
  f ← gets free_buffer;
  h ← page_at i;
  put_page i (Hdr f 0 (payload h));;
  modify (set_free (Some i));;
  modify notify_not_full.

(** memcpy(dest, data, n) into the payload at offset [o] *)
Definition blit (o : nat) (src dst : list Z) : list Z :=
  take o dst ++ src ++ drop (o + length src) dst.

(** What a segment of enqueue ends with: a return, or a wait in
    allocate_page with the bytes still to send. *)
Inductive enq_result := EnqReturn (sent : nat) | EnqWait (rest : list Z) (sent : nat).

(** Link a new page at the end of the written chain *)
Definition link_page (i : nat) : PP unit :=
  w ← gets write_buffer;
  match w with
  | Some j =>
      h ← page_at j;
      put_page j (Hdr (Some i) (size h) (payload h));;
      modify (λ s, set_write (write_buffer_first s) (Some i) s)
  | None => modify (set_write (Some i) (Some i))
  end.

(** Copy as much as fits into the page being written; the rest *)
Definition fill_page (i : nat) (data : list Z) : PP nat :=
  h ← page_at i;
  let remain := PAYLOAD - size h in
  let transferred := remain `min` length data in
  put_page i (Hdr (next h) (size h + transferred)
                (blit (size h) (take transferred data) (payload h)));;
  mret transferred.

(** The loop of enqueue.  [in_alloc] is true when the segment starts inside
    allocate_page, after a wait. *)
Fixpoint enqueue_loop (fuel : nat) (in_alloc : bool) (data : list Z) (sent : nat)
    (notify_pending : bool) : PP enq_result :=
  match fuel with
  | O => throw OutOfFuel
  | S fuel =>
      if decide (data = []) then
        (if notify_pending then modify notify_not_empty else mret tt);;
        mret (EnqReturn sent)
      else
        w ← gets write_buffer;
        full ← match w with
               | None => mret true
               | Some i => h ← page_at i; mret (size h =? PAYLOAD)
               end;
        if in_alloc || full then
          (if notify_pending then modify notify_not_empty else mret tt);;
          r ← allocate_page;
          match r with
          | NoPool => mret (EnqReturn sent)
          | MustWait => mret (EnqWait data sent)
          | GotPage i =>
              link_page i;;
              n ← fill_page i data;
              enqueue_loop fuel false (drop n data) (sent + n) true
          end
        else
          match w with
          | Some i =>
              n ← fill_page i data;
              enqueue_loop fuel false (drop n data) (sent + n) true
          | None => throw OutOfRange
          end
  end.

(** A call of enqueue, and its going on after a wait; a wait that timed out
    makes allocate_page return nullptr. *)
Definition enqueue (data : list Z) : PP enq_result :=
  enqueue_loop (S (length data)) false data 0 false.
Definition enqueue_resume (timed_out : bool) (rest : list Z) (sent : nat) : PP enq_result :=
  if timed_out then mret (EnqReturn sent)
  else enqueue_loop (S (length rest)) true rest sent false.

Inductive deq_result := DeqReturn (got : list Z) | DeqWait (want : nat) (got : list Z).

(** The loop of dequeue; [want] is what is left of [size] and [got] the
    bytes stored so far. *)
Fixpoint dequeue_loop (fuel : nat) (want : nat) (got : list Z) : PP deq_result :=
  match fuel with
  | O => throw OutOfFuel
  | S fuel =>
      if decide (want = 0) then mret (DeqReturn got)
      else
        s ← gets id;
        match read_buffer s with
        | Some i =>
            h ← page_at i;
            let remain := size h - read_ofs s in
            let transferred := remain `min` want in
            let got := got ++ take transferred (drop (read_ofs s) (payload h)) in
            let ofs := read_ofs s + transferred in
            modify (set_read (Some i) ofs);;
            (if ofs =? size h then
               modify (set_read (next h) 0);;
               free_page i
             else mret tt);;
            dequeue_loop fuel (want - transferred) got
        | None =>
            match write_buffer s with
            | Some _ =>
                modify (set_read (write_buffer_first s) 0);;
                modify (set_write None None);;
                dequeue_loop fuel want got
            | None => mret (DeqWait want got)
            end
        end
  end.

(** A round recycles a page, or satisfies the request, or takes the written
    chain over, which happens once: [page_capacity + 3] rounds are enough. *)
Definition dequeue_fuel (s : pipe_t) : nat := S (S (S (page_capacity s))).

Definition dequeue_from (want : nat) (got : list Z) : PP deq_result :=
  n ← gets dequeue_fuel;
  dequeue_loop n want got.
Definition dequeue (want : nat) : PP deq_result := dequeue_from want [].
Definition dequeue_resume (timed_out : bool) (want : nat) (got : list Z) : PP deq_result :=
  if timed_out then mret (DeqReturn got) else dequeue_from want got.

(** * The pipe is a FIFO of bytes

    [pipe_inv] describes the three page chains of kernel/lib/pipe.cc and
    [contents] the bytes in flight.  Every segment of enqueue appends the
    bytes it sent and every segment of dequeue removes the bytes it received
    from the front; the interleaving of any number of callers keeps the
    order. *)

(** ** Chains of pages *)

Fixpoint chain (pg : list pipe_buffer_hdr_t) (p : option nat) (l : list nat) : Prop :=
  match l with
  | [] => p = None
  | i :: l => p = Some i ∧ ∃ h, pg !! i = Some h ∧ chain pg (next h) l
  end.

Definition page_bytes (pg : list pipe_buffer_hdr_t) (i : nat) : list Z :=
  match pg !! i with Some h => take (size h) (payload h) | None => [] end.

Definition chain_bytes (pg : list pipe_buffer_hdr_t) (l : list nat) : list Z :=
  concat (page_bytes pg <$> l).

(** [wl], [rl] and [fl] are the written, read and free chains; [xs] are the
    pages the running call holds. *)
Record pipe_inv (s : pipe_t) (wl rl fl xs : list nat) : Prop := {
  inv_w : chain (pool s) (write_buffer_first s) wl;
  inv_last : write_buffer s = last wl;
  inv_r : chain (pool s) (read_buffer s) rl;
  inv_f : chain (pool s) (free_buffer s) fl;
  inv_perm : wl ++ rl ++ fl ++ xs ≡ₚ seq 0 (page_bump s);
  inv_bump : page_bump s ≤ page_capacity s;
  inv_cap : page_capacity s = length (pool s);
  inv_used : ∀ i h, i ∈ wl ++ rl → pool s !! i = Some h → size h ≤ PAYLOAD;
  inv_pay : Forall (λ h, length (payload h) = PAYLOAD) (pool s);
  inv_ofs : ∀ i rl' h, rl = i :: rl' → pool s !! i = Some h → read_ofs s ≤ size h
}.

Definition contents (s : pipe_t) (wl rl : list nat) : list Z :=
  drop (read_ofs s) (chain_bytes (pool s) rl) ++ chain_bytes (pool s) wl.

(** The abstract state: the bytes in flight *)
Definition pipe_abs (s : pipe_t) (q : list Z) : Prop :=
  page_pool s = true ∧ ∃ wl rl fl, pipe_inv s wl rl fl [] ∧ q = contents s wl rl.

(** allocate_page has nothing to hand out: every page is in a chain of data *)
Definition no_page (s : pipe_t) : Prop :=
  free_buffer s = None ∧ page_bump s = page_capacity s.

Lemma PAYLOAD_pos : 0 < PAYLOAD.
Proof. unfold PAYLOAD, PAGESIZE, HDR_SIZE. lia. Qed.

#[local] Opaque PAYLOAD.

Lemma chain_upd pg p l i h : i ∉ l → chain pg p l → chain (<[i := h]> pg) p l.
Proof.
  revert p. induction l as [|j l IH]; intros p; [done|].
  intros [Hij Hil]%not_elem_of_cons (-> & h' & Hj & Hc). split; [done|].
  exists h'. split; [by rewrite list_lookup_insert_ne|by apply IH].
Qed.

Lemma bytes_upd pg l i h : i ∉ l → chain_bytes (<[i := h]> pg) l = chain_bytes pg l.
Proof.
  induction l as [|j l IH]; [done|]. intros [Hij Hil]%not_elem_of_cons.
  unfold chain_bytes in *. rewrite !fmap_cons. simpl. rewrite IH by done. f_equal.
  unfold page_bytes. by rewrite list_lookup_insert_ne.
Qed.

Lemma bytes_app pg l k : chain_bytes pg (l ++ k) = chain_bytes pg l ++ chain_bytes pg k.
Proof. unfold chain_bytes. by rewrite fmap_app, concat_app. Qed.

Lemma bytes_cons pg i l : chain_bytes pg (i :: l) = page_bytes pg i ++ chain_bytes pg l.
Proof. done. Qed.

(** Making page [i], which ends with a null link, the successor of the last
    page [j] *)
Lemma chain_link pg p l j i hj hi :
  chain pg p (l ++ [j]) → pg !! j = Some hj → pg !! i = Some hi → next hi = None →
  NoDup (i :: l ++ [j]) →
  chain (<[j := Hdr (Some i) (size hj) (payload hj)]> pg) p ((l ++ [j]) ++ [i]).
Proof.
  intros Hc Hj Hi Hn Hnd. apply NoDup_cons in Hnd as [Hni Hnd].
  rewrite elem_of_app, list_elem_of_singleton in Hni.
  assert (i ≠ j) as Hij by naive_solver. clear Hni.
  revert p Hc Hnd. induction l as [|k l IH]; intros p; simpl.
  - intros (-> & h & ? & Hh) _. split; [done|]. eexists.
    rewrite list_lookup_insert_eq by (by eapply lookup_lt_Some). split; [done|].
    simpl. split; [done|]. exists hi. by rewrite list_lookup_insert_ne.
  - intros (-> & h & Hk & Hc) [Hkl Hnd]%NoDup_cons. split; [done|]. exists h.
    rewrite list_lookup_insert_ne by set_solver. split; [done|]. by apply IH.
Qed.

(** The last page of a chain has a null link, so its contents and size can
    change freely. *)
Lemma chain_update_last pg p l j h h' :
  chain pg p (l ++ [j]) → pg !! j = Some h → next h' = next h → NoDup (l ++ [j]) →
  chain (<[j := h']> pg) p (l ++ [j]).
Proof.
  intros Hc Hj Hn Hnd. revert p Hc Hnd. induction l as [|k l IH]; intros p; simpl.
  - intros (-> & x & ? & Hx) _. simplify_eq. split; [done|]. exists h'.
    rewrite list_lookup_insert_eq by (by eapply lookup_lt_Some). by rewrite Hn.
  - intros (-> & x & Hk & Hc) [Hkl Hnd]%NoDup_cons. split; [done|]. exists x.
    rewrite list_lookup_insert_ne by set_solver. split; [done|]. by apply IH.
Qed.

Lemma chain_last_next pg p l j h :
  chain pg p (l ++ [j]) → pg !! j = Some h → next h = None.
Proof.
  revert p. induction l as [|k l IH]; intros p; simpl.
  - intros (_ & x & Hx & Hn) Hj. by simplify_eq.
  - intros (_ & x & ? & ?). eauto.
Qed.

Lemma blit_length o src dst :
  o + length src ≤ length dst → length (blit o src dst) = length dst.
Proof. intros. unfold blit. rewrite !length_app, length_take, length_drop. lia. Qed.

Lemma blit_take o src dst :
  o + length src ≤ length dst → take (o + length src) (blit o src dst) = take o dst ++ src.
Proof.
  intros. unfold blit. rewrite app_assoc. apply take_app_length'.
  rewrite length_app, length_take. lia.
Qed.

(** ** Consequences of the invariant *)

Section inv.
Context (s : pipe_t) (wl rl fl xs : list nat) (I : pipe_inv s wl rl fl xs).

Lemma inv_nodup : NoDup (wl ++ rl ++ fl ++ xs).
Proof. rewrite (inv_perm _ _ _ _ _ I). apply NoDup_seq. Qed.

Lemma inv_page i : i ∈ wl ++ rl ++ fl ++ xs → ∃ h, pool s !! i = Some h ∧ length (payload h) = PAYLOAD.
Proof.
  rewrite (inv_perm _ _ _ _ _ I), elem_of_seq. intros Hi.
  destruct (lookup_lt_is_Some_2 (pool s) i) as [h Hh].
  { pose proof (inv_bump _ _ _ _ _ I). rewrite <- (inv_cap _ _ _ _ _ I). lia. }
  exists h. split; [done|]. by apply (Forall_lookup_1 _ _ _ _ (inv_pay _ _ _ _ _ I) Hh).
Qed.

Lemma inv_count : length wl + length rl + length fl + length xs = page_bump s.
Proof.
  rewrite <- (length_seq (page_bump s) 0), <- (inv_perm _ _ _ _ _ I), !length_app. lia.
Qed.

End inv.

Lemma page_at_done s i h : pool s !! i = Some h → page_at i s = Done (h, s).
Proof. unfold page_at. by intros ->. Qed.
Lemma put_page_done s i h h' :
  pool s !! i = Some h → put_page i h' s = Done (tt, set_pool (<[i := h']> (pool s)) s).
Proof. unfold put_page. by intros ->. Qed.

(** ** allocate_page and free_page *)

(** A page outside the written and read chains is reset and handed out. *)
Lemma inv_take_page s wl rl fl fl' f' b' i h :
  pipe_inv s wl rl fl [] → pool s !! i = Some h → i ∉ wl ++ rl ++ fl' →
  chain (pool s) f' fl' → wl ++ rl ++ fl' ++ [i] ≡ₚ seq 0 b' → b' ≤ page_capacity s →
  let s' := set_pool (<[i := Hdr None 0 (payload h)]> (pool s)) (set_bump b' (set_free f' s)) in
  pipe_inv s' wl rl fl' [i] ∧ contents s' wl rl = contents s wl rl ∧
  pool s' !! i = Some (Hdr None 0 (payload h)).
Proof.
  intros [Iw Il Ir If Ip Ib Ic Iu Ipy Io] Hi Hni Hf' Hp' Hb'.
  apply not_elem_of_app in Hni as [Hnw [Hnr Hnf]%not_elem_of_app].
  split; [constructor; cbn|split; cbn]; try done; try by apply chain_upd.
  - by rewrite length_insert.
  - intros j x Hj. rewrite list_lookup_insert_ne by set_solver. by apply Iu.
  - apply Forall_insert; [done|]. by apply (Forall_lookup_1 _ _ _ _ Ipy Hi).
  - intros j rl' x ->. rewrite list_lookup_insert_ne by set_solver. by eapply Io.
  - unfold contents. cbn. by rewrite !bytes_upd.
  - by rewrite list_lookup_insert_eq by (by eapply lookup_lt_Some).
Qed.

Lemma allocate_page_spec s wl rl fl :
  pipe_inv s wl rl fl [] → page_pool s = true →
  (allocate_page s = Done (MustWait, s) ∧ fl = [] ∧ page_bump s = page_capacity s) ∨
  ∃ i s' fl' h, allocate_page s = Done (GotPage i, s') ∧ pipe_inv s' wl rl fl' [i] ∧
    pool s' !! i = Some h ∧ size h = 0 ∧ next h = None ∧
    contents s' wl rl = contents s wl rl ∧ page_pool s' = true ∧
    not_empty_signals s' = not_empty_signals s.
Proof.
  intros I Hp. unfold allocate_page. rewrite (bind_done _ _ s _ s eq_refl). unfold id.
  rewrite Hp. cbn [negb]. pose proof (inv_f _ _ _ _ _ I) as Hf. pose proof (inv_perm _ _ _ _ _ I) as Ip.
  pose proof (inv_bump _ _ _ _ _ I).
  destruct fl as [|i fl]; simpl in Hf; [rewrite Hf|destruct Hf as (Ef & h & Hi & Hf); rewrite Ef].
  - case_decide as Hb; [right|left; auto with lia].
    destruct (lookup_lt_is_Some_2 (pool s) (page_bump s)) as [h Hh].
    { pose proof (inv_cap _ _ _ _ _ I). lia. }
    rewrite (bind_done _ _ _ _ _ (page_at_done _ _ _ Hh)), (bind_done _ _ _ _ _ (put_page_done _ _ _ _ Hh)).
    rewrite bind_modify, decide_True, (bind_done _ _ _ _ _ eq_refl) by lia.
    destruct (inv_take_page s wl rl [] [] (free_buffer s) (S (page_bump s)) (page_bump s) h I Hh) as (I' & Hc & Hl);
      [| done | | lia |].
    + rewrite Ip, elem_of_seq. lia.
    + rewrite app_nil_l, app_nil_r in *. by rewrite app_assoc, Ip, seq_S.
    + eexists _, _, [], _. split; [done|]. by split_and!.
  - right. rewrite (bind_done _ _ _ _ _ (page_at_done _ _ _ Hi)).
    rewrite bind_modify.
    rewrite (bind_done _ _ _ _ _ (put_page_done (set_free _ s) _ _ _ Hi)).
    assert (wl ++ rl ++ fl ++ [i] ≡ₚ seq 0 (page_bump s)) as Ip'.
    { rewrite <- Ip, app_nil_r. by rewrite <- Permutation_cons_append. }
    destruct (inv_take_page s wl rl (i :: fl) fl (next h) (page_bump s) i h I Hi) as (I' & Hc & Hl);
      [|done|done|lia|].
    + pose proof (NoDup_seq 0 (page_bump s)) as Hnd. rewrite <- Ip', !app_assoc in Hnd.
      apply NoDup_app in Hnd as (_ & Hnd & _). rewrite <- app_assoc in Hnd.
      intros ?%Hnd. set_solver.
    + eexists _, _, fl, _. split; [done|]. by destruct s.
Qed.

(** ** Writing *)

(** The last written page [j] and a page [i] in hand are in no other chain. *)
Lemma nodup_last (wl : list nat) j rl fl i :
  NoDup ((wl ++ [j]) ++ rl ++ fl ++ [i]) →
  NoDup (i :: wl ++ [j]) ∧ i ≠ j ∧ j ∉ wl ∧ j ∉ rl ∧ j ∉ fl.
Proof.
  intros Hnd. assert (NoDup (i :: wl ++ [j])) as Hi.
  { rewrite (app_assoc rl), <- (Permutation_cons_append (rl ++ fl)), (Permutation_app_comm (wl ++ [j])) in Hnd.
    simpl in Hnd. rewrite <- app_assoc in Hnd.
    apply NoDup_cons in Hnd as [Hni Hnd]. rewrite !not_elem_of_app in Hni.
    apply NoDup_cons. split; [rewrite not_elem_of_app; naive_solver|].
    apply NoDup_app in Hnd as (_ & _ & Hnd). by apply NoDup_app in Hnd as (_ & _ & Hnd). }
  rewrite <- (Permutation_cons_append wl) in Hnd. simpl in Hnd. apply NoDup_cons in Hnd as [Hnj _].
  rewrite !not_elem_of_app, not_elem_of_cons in Hnj. naive_solver.
Qed.

Lemma link_page_spec s wl rl fl i h :
  pipe_inv s wl rl fl [i] → pool s !! i = Some h → size h = 0 → next h = None →
  ∃ s', link_page i s = Done (tt, s') ∧ pipe_inv s' (wl ++ [i]) rl fl [] ∧
    contents s' (wl ++ [i]) rl = contents s wl rl ∧ pool s' !! i = Some h ∧
    page_pool s' = page_pool s ∧ not_empty_signals s' = not_empty_signals s.
Proof.
  intros I Hi Hz Hn. pose proof (inv_nodup _ _ _ _ _ I) as Hnd.
  destruct I as [Iw Il Ir If Ip Ib Ic Iu Ipy Io].
  assert ((wl ++ [i]) ++ rl ++ fl ++ [] ≡ₚ seq 0 (page_bump s)) as Ip'.
  { rewrite <- Ip, app_nil_r, <- app_assoc. f_equiv. simpl. by rewrite app_assoc, <- Permutation_cons_append. }
  unfold link_page. rewrite (bind_done _ _ s _ s eq_refl), Il.
  destruct wl as [|j wl _] using rev_ind.
  - eexists. split; [done|]. split; [constructor; cbn|]; try done.
    + split; [done|]. by exists h.
    + intros k x [->|Hk]%elem_of_cons Hx; [simplify_eq; lia|by apply (Iu k)].
    + unfold contents. cbn. split_and!; try done. f_equal. unfold page_bytes. rewrite Hi, Hz. done.
  - rewrite last_snoc. 
    assert (∃ hj, pool s !! j = Some hj) as [hj Hj].
    { apply lookup_lt_is_Some_2. rewrite <- Ic. assert (j ∈ seq 0 (page_bump s)) as Hs%elem_of_seq; [|lia].
      rewrite <- Ip. set_solver. }
    rewrite (bind_done _ _ _ _ _ (page_at_done _ _ _ Hj)), (bind_done _ _ _ _ _ (put_page_done _ _ _ _ Hj)).
    destruct (nodup_last wl j rl fl i Hnd) as (Hnd' & Hij & Hjw & Hjr & Hjf).
    eexists. split; [done|]. split; [constructor; cbn|]; try done; try (by apply chain_upd).
    + by eapply chain_link.
    + by rewrite last_snoc.
    + by rewrite length_insert.
    + intros k x Hk. destruct (decide (k = j)) as [->|].
      * rewrite list_lookup_insert_eq by (by eapply lookup_lt_Some). intros [= <-]. cbn.
        apply (Iu j); [set_solver|done].
      * rewrite list_lookup_insert_ne by done. intros Hx.
        destruct (decide (k = i)) as [->|]; [simplify_eq; lia|]. apply (Iu k); [set_solver|done].
    + apply Forall_insert; [done|]. by apply (Forall_lookup_1 _ _ _ _ Ipy Hj).
    + intros k rl' x ->. rewrite list_lookup_insert_ne by set_solver. by eapply Io.
    + unfold contents. cbn. rewrite list_lookup_insert_ne by done. split_and!; try done.
      rewrite !bytes_app, !bytes_upd, <- app_assoc by done. do 2 f_equal.
      rewrite <- bytes_app. unfold chain_bytes, page_bytes. cbn.
      rewrite list_lookup_insert_eq, list_lookup_insert_ne by (done || by eapply lookup_lt_Some).
      rewrite Hi, Hj, Hz. cbn. by rewrite !app_nil_r.
Qed.

Lemma fill_page_spec s wl i rl fl h data :
  pipe_inv s (wl ++ [i]) rl fl [] → pool s !! i = Some h → size h < PAYLOAD → data ≠ [] →
  ∃ n s', fill_page i data s = Done (n, s') ∧ 0 < n ≤ length data ∧
    pipe_inv s' (wl ++ [i]) rl fl [] ∧
    contents s' (wl ++ [i]) rl = contents s (wl ++ [i]) rl ++ take n data ∧
    page_pool s' = page_pool s ∧ not_empty_signals s' = not_empty_signals s.
Proof.
  intros I Hi Hz Hd. pose proof (inv_nodup _ _ _ _ _ I) as Hnd.
  destruct I as [Iw Il Ir If Ip Ib Ic Iu Ipy Io].
  rewrite app_nil_r in Hnd. pose proof Hnd as Hni.
  rewrite <- (Permutation_cons_append wl) in Hni. simpl in Hni. apply NoDup_cons in Hni as [Hni _].
  rewrite !not_elem_of_app in Hni. destruct Hni as (Hnw & Hnr & Hnf).
  pose proof (Forall_lookup_1 _ _ _ _ Ipy Hi) as Hpl. simpl in Hpl.
  assert (0 < length data) by (destruct data; simpl; [done|lia]).
  unfold fill_page. rewrite (bind_done _ _ _ _ _ (page_at_done _ _ _ Hi)).
  set (n := (PAYLOAD - size h) `min` length data).
  rewrite (bind_done _ _ _ _ _ (put_page_done _ _ _ _ Hi)).
  assert (length (take n data) = n) as Hn by (rewrite length_take; lia).
  assert (length (blit (size h) (take n data) (payload h)) = PAYLOAD) as Hb by (rewrite blit_length; lia).
  eexists n, _. split; [done|]. split; [lia|].
  split; [constructor; cbn|]; try done; try (by apply chain_upd).
  - eapply chain_update_last; try done. by apply NoDup_app in Hnd as (? & _).
  - by rewrite length_insert.
  - intros k x Hk. destruct (decide (k = i)) as [->|].
    + rewrite list_lookup_insert_eq by (by eapply lookup_lt_Some). intros [= <-]. cbn. lia.
    + rewrite list_lookup_insert_ne by done. by apply Iu.
  - by apply Forall_insert.
  - intros k rl' x ->. rewrite list_lookup_insert_ne by set_solver. by eapply Io.
  - unfold contents. cbn. split_and!; try done.
    rewrite !bytes_app, !bytes_upd, <- !app_assoc by done. do 3 f_equal.
    unfold chain_bytes, page_bytes. cbn. rewrite !app_nil_r.
    rewrite list_lookup_insert_eq, Hi by (by eapply lookup_lt_Some). cbn.
    rewrite <- Hn at 1. rewrite blit_take; [done|lia].
Qed.

(** What a segment of enqueue that started with [data] to send did: [k]
    bytes went in. *)
Definition enqueued (r : enq_result) (sent : nat) (data : list Z) (k : nat) (s' : pipe_t) : Prop :=
  match r with
  | EnqReturn m => m = sent + k ∧ k = length data
  | EnqWait rest m => m = sent + k ∧ rest = drop k data ∧ k < length data ∧ no_page s'
  end.

(** A pending notification is given *)
Definition signal (np : bool) (s : pipe_t) : pipe_t := if np then notify_not_empty s else s.

Lemma signal_spec np s wl rl fl :
  pipe_inv s wl rl fl [] →
  pipe_inv (signal np s) wl rl fl [] ∧ contents (signal np s) wl rl = contents s wl rl ∧
  page_pool (signal np s) = page_pool s ∧ not_empty_signals s ≤ not_empty_signals (signal np s) ∧
  (np = true → not_empty_signals s < not_empty_signals (signal np s)).
Proof. intros []. destruct np; cbn; split_and!; try done; intros; lia. Qed.

(** Whether enqueue needs a new page *)
Lemma write_full_spec s wl rl fl :
  pipe_inv s wl rl fl [] →
  ∃ full, (match write_buffer s with
           | None => mret true
           | Some i => h ← page_at i; mret (size h =? PAYLOAD)
           end) s = Done (full, s) ∧
    (full = false → ∃ wl0 i h, wl = wl0 ++ [i] ∧ write_buffer s = Some i ∧
       pool s !! i = Some h ∧ size h < PAYLOAD).
Proof.
  intros I. rewrite (inv_last _ _ _ _ _ I). destruct wl as [|i wl0 _] using rev_ind; [by exists true|].
  rewrite last_snoc. destruct (inv_page _ _ _ _ _ I i) as (h & Hi & _); [set_solver|].
  rewrite (bind_done _ _ _ _ _ (page_at_done _ _ _ Hi)). eexists. split; [done|].
  intros Hz%Nat.eqb_neq. exists wl0, i, h. split_and!; try done.
  pose proof (inv_used _ _ _ _ _ I i h ltac:(set_solver) Hi). lia.
Qed.

Lemma enqueue_loop_spec fuel in_alloc data sent np s wl rl fl :
  pipe_inv s wl rl fl [] → page_pool s = true → length data < fuel →
  ∃ r s' wl' fl' k, enqueue_loop fuel in_alloc data sent np s = Done (r, s') ∧
    pipe_inv s' wl' rl fl' [] ∧ page_pool s' = true ∧ k ≤ length data ∧
    contents s' wl' rl = contents s wl rl ++ take k data ∧ enqueued r sent data k s' ∧
    not_empty_signals s ≤ not_empty_signals s' ∧
    (0 < k ∨ np = true → not_empty_signals s < not_empty_signals s').
Proof.
  revert in_alloc data sent np s wl fl.
  induction fuel as [|fuel IH]; intros in_alloc data sent np s wl fl I Hp Hf; [lia|].
  cbn [enqueue_loop]. case_decide as Hd.
  { subst data. exists (EnqReturn sent), (signal np s), wl, fl, 0. split; [by destruct np|].
    destruct (signal_spec np s wl rl fl I) as (I' & -> & -> & ? & ?). rewrite take_0, app_nil_r.
    split_and!; try done; try (cbn; lia). naive_solver lia. }
  rewrite (bind_done _ _ s _ s eq_refl).
  (* what remains to be done once there is a page with room at the end *)
  assert (∀ s1 wl1 i fl1 h1,
    pipe_inv s1 (wl1 ++ [i]) rl fl1 [] → pool s1 !! i = Some h1 → size h1 < PAYLOAD →
    page_pool s1 = true → contents s1 (wl1 ++ [i]) rl = contents s wl rl →
    not_empty_signals s ≤ not_empty_signals s1 →
    ∃ r s' wl' fl' k,
      (n ← fill_page i data; enqueue_loop fuel false (drop n data) (sent + n) true) s1 = Done (r, s') ∧
      pipe_inv s' wl' rl fl' [] ∧ page_pool s' = true ∧ k ≤ length data ∧
      contents s' wl' rl = contents s wl rl ++ take k data ∧ enqueued r sent data k s' ∧
      not_empty_signals s < not_empty_signals s') as Hgo.
  { intros s1 wl1 i fl1 h1 I1 Hi Hsz Hp1 Hc1 Hs1.
    destruct (fill_page_spec _ _ _ _ _ _ _ I1 Hi Hsz Hd) as (n & s2 & E2 & Hn & I2 & Hc2 & Hp2 & Hs2).
    rewrite (bind_done _ _ _ _ _ E2).
    destruct (IH false (drop n data) (sent + n) true s2 (wl1 ++ [i]) fl1 I2)
      as (r & s' & wl' & fl' & k & E' & I' & Hp' & Hk & Hc' & Hr & _ & Hsig);
      [congruence|rewrite length_drop; lia|].
    rewrite length_drop in Hk. exists r, s', wl', fl', (n + k).
    split_and!; [done|done|done|lia| | |specialize (Hsig (or_intror eq_refl)); lia].
    - rewrite Hc', Hc2, Hc1, <- app_assoc. f_equal. by rewrite take_take_drop.
    - unfold enqueued in *. rewrite length_drop, drop_drop in Hr. destruct r; naive_solver lia. }
  destruct (write_full_spec s wl rl fl I) as (full & Efull & Hfull).
  rewrite (bind_done _ _ _ _ _ Efull). destruct (in_alloc || full) eqn:Ea.
  - set (s0 := signal np s).
    assert ((if np then modify notify_not_empty else mret tt) s = Done (tt, s0)) as E0 by (by destruct np).
    destruct (signal_spec np s wl rl fl I) as (I0 & Hc0 & Hp0 & Hs0 & Hs0'). fold s0 in I0, Hc0, Hp0, Hs0, Hs0'.
    rewrite Hp in Hp0.
    rewrite (bind_done _ _ _ _ _ E0).
    destruct (allocate_page_spec s0 wl rl fl I0 Hp0)
      as [(Ew & -> & Hfull')|(i & s1 & fl1 & h & E1 & I1 & Hi & Hz & Hn & Hc1 & Hp1 & Hs1)].
    + rewrite (bind_done _ _ _ _ _ Ew). eexists _, s0, wl, [], 0. split; [done|].
      rewrite take_0, app_nil_r. split_and!; try done; try lia; [|intros [?|?]; [lia|auto]].
      pose proof (inv_f _ _ _ _ _ I0). destruct data; [done|]. cbn. split_and!; try done; lia.
    + rewrite (bind_done _ _ _ _ _ E1).
      destruct (link_page_spec _ _ _ _ _ _ I1 Hi Hz Hn) as (s2 & E2 & I2 & Hc2 & Hi2 & Hp2 & Hs2).
      rewrite (bind_done _ _ _ _ _ E2). pose proof PAYLOAD_pos.
      destruct (Hgo s2 wl i fl1 h I2 Hi2) as (r & s' & wl' & fl' & k & E' & I' & Hp' & Hk & Hc' & Hr & Hs');
        [lia|congruence|congruence|lia|].
      exists r, s', wl', fl', k. split_and!; try done; lia.
  - apply orb_false_iff in Ea as [_ ->]. destruct (Hfull eq_refl) as (wl0 & i & h & -> & -> & Hi & Hz).
    destruct (Hgo s wl0 i fl h I Hi Hz) as (r & s' & wl' & fl' & k & E' & I' & Hp' & Hk & Hc' & Hr & Hs');
      [done|done|lia|].
    exists r, s', wl', fl', k. split_and!; try done; lia.
Qed.

(** ** Reading *)

Lemma bytes_length s wl rl fl xs i h :
  pipe_inv s wl rl fl xs → i ∈ wl ++ rl → pool s !! i = Some h →
  page_bytes (pool s) i = take (size h) (payload h) ∧ length (page_bytes (pool s) i) = size h.
Proof.
  intros I Hin Hi. unfold page_bytes. rewrite Hi. split; [done|]. rewrite length_take.
  pose proof (inv_used _ _ _ _ _ I _ _ Hin Hi).
  pose proof (Forall_lookup_1 _ _ _ _ (inv_pay _ _ _ _ _ I) Hi) as Hl. simpl in Hl. lia.
Qed.

(** The reader moves on inside its first page. *)
Lemma read_part s wl i rl fl h t :
  pipe_inv s wl (i :: rl) fl [] → pool s !! i = Some h → read_ofs s + t ≤ size h →
  let s' := set_read (Some i) (read_ofs s + t) s in
  pipe_inv s' wl (i :: rl) fl [] ∧
  contents s wl (i :: rl) = take t (drop (read_ofs s) (payload h)) ++ contents s' wl (i :: rl).
Proof.
  intros I Hi Ht. destruct (bytes_length _ _ _ _ _ i h I ltac:(set_solver) Hi) as [Hb Hl].
  split.
  - destruct I as [Iw Il Ir If Ip Ib Ic Iu Ipy Io]. constructor; try done; cbn.
    + by destruct Ir as (_ & Ir).
    + intros ?? x [= <- <-] ?. by simplify_eq.
  - unfold contents. cbn [read_ofs pool set_read]. rewrite app_assoc. f_equal.
    rewrite bytes_cons, !drop_app_le, app_assoc by lia. f_equal. rewrite Hb.
    rewrite <- drop_drop, <- (take_drop t (drop (read_ofs s) (take (size h) (payload h)))) at 1.
    f_equal. rewrite !take_drop_commute, take_take. do 2 f_equal. lia.
Qed.

(** The reader is through with its first page and recycles it. *)
Lemma read_page s wl i rl fl h :
  pipe_inv s wl (i :: rl) fl [] → pool s !! i = Some h →
  ∃ s', (modify (set_read (next h) 0);; free_page i) s = Done (tt, s') ∧
    pipe_inv s' wl rl (i :: fl) [] ∧ page_pool s' = page_pool s ∧
    not_full_signals s < not_full_signals s' ∧ page_capacity s' = page_capacity s ∧
    contents s wl (i :: rl) =
      take (size h - read_ofs s) (drop (read_ofs s) (payload h)) ++ contents s' wl rl.
Proof.
  intros I Hi. destruct (bytes_length _ _ _ _ _ i h I ltac:(set_solver) Hi) as [Hb Hl].
  pose proof (inv_ofs _ _ _ _ _ I i rl h eq_refl Hi) as Ho.
  pose proof (inv_nodup _ _ _ _ _ I) as Hnd. rewrite app_nil_r in Hnd. simpl in Hnd.
  rewrite <- Permutation_middle in Hnd. apply NoDup_cons in Hnd as [Hni _].
  rewrite !not_elem_of_app in Hni. destruct Hni as (Hnw & Hnr & Hnf).
  destruct I as [Iw Il (_ & x & Hx & Ir) If Ip Ib Ic Iu Ipy Io].
  assert (x = h) as -> by congruence. clear Hx.
  rewrite (bind_done _ _ s tt (set_read (next h) 0 s) eq_refl).
  unfold free_page. rewrite bind_gets.
  rewrite (bind_done _ _ _ _ _ (page_at_done (set_read _ _ s) _ _ Hi)).
  rewrite (bind_done _ _ _ _ _ (put_page_done (set_read _ _ s) _ _ _ Hi)).
  eexists. split; [done|]. split; [constructor; cbn|]; try done; try (by apply chain_upd).
  - split; [done|]. eexists. rewrite list_lookup_insert_eq by (by eapply lookup_lt_Some).
    split; [done|]. by apply chain_upd.
  - rewrite <- Ip. rewrite !app_nil_r, <- !Permutation_middle. simpl. by rewrite <- Permutation_middle.
  - by rewrite length_insert.
  - intros k y Hk. rewrite list_lookup_insert_ne by set_solver. apply Iu. set_solver.
  - apply Forall_insert; [done|]. by apply (Forall_lookup_1 _ _ _ _ Ipy Hi).
  - intros; lia.
  - split_and!; try done; [cbn; lia|]. unfold contents.
    cbn [pool read_ofs set_pool set_free set_read notify_not_full]. rewrite !bytes_upd by done.
    rewrite drop_0, app_assoc. f_equal. rewrite bytes_cons, drop_app_le by lia. f_equal.
    rewrite Hb. rewrite take_drop_commute. do 2 f_equal. lia.
Qed.

(** What a segment of dequeue that still wanted [want] bytes did: it took
    [bs]; it waits only on an empty pipe. *)
Definition dequeued (r : deq_result) (want : nat) (got bs q' : list Z) : Prop :=
  match r with
  | DeqReturn g => g = got ++ bs ∧ length bs = want
  | DeqWait w g => g = got ++ bs ∧ length bs + w = want ∧ 0 < w ∧ q' = []
  end.

(** Rounds left: pages to recycle, and the takeover of the written chain *)
Definition rounds (wl rl : list nat) : nat :=
  length rl + match wl with [] => 0 | _ => S (length wl) end.

Lemma dequeue_loop_spec fuel want got s wl rl fl :
  pipe_inv s wl rl fl [] → want = 0 ∧ 0 < fuel ∨ S (rounds wl rl) < fuel →
  ∃ r s' wl' rl' fl' bs, dequeue_loop fuel want got s = Done (r, s') ∧
    pipe_inv s' wl' rl' fl' [] ∧ page_pool s' = page_pool s ∧
    contents s wl rl = bs ++ contents s' wl' rl' ∧ dequeued r want got bs (contents s' wl' rl').
Proof.
  revert want got s wl rl fl.
  induction fuel as [|fuel IH]; intros want got s wl rl fl I Hf; [lia|].
  cbn [dequeue_loop]. case_decide as Hw.
  { exists (DeqReturn got), s, wl, rl, fl, []. cbn [dequeued]. rewrite app_nil_r. by split_and!. }
  destruct Hf as [[]|Hf]; [done|]. rewrite (bind_done _ _ s _ s eq_refl). unfold id.
  destruct rl as [|i rl].
  - rewrite (inv_r _ _ _ _ _ I), (inv_last _ _ _ _ _ I).
    destruct wl as [|w0 wl]; cbn [last].
    { exists (DeqWait want got), s, [], [], fl, []. cbn [dequeued]. rewrite app_nil_r.
      unfold contents. cbn. rewrite drop_nil. split_and!; try done. lia. }
    assert (∃ w, last (w0 :: wl) = Some w) as [w ->].
    { destruct (last (w0 :: wl)) eqn:E; [eauto|by apply last_None in E]. }
    rewrite bind_modify, bind_modify.
    assert (pipe_inv (set_write None None (set_read (write_buffer_first s) 0 s)) [] (w0 :: wl) fl []) as I1.
    { destruct I as [Iw Il Ir If Ip Ib Ic Iu Ipy Io]. constructor; try done; cbn.
      - intros k x Hk. apply Iu. set_solver.
      - intros; lia. }
    destruct (IH want got _ [] (w0 :: wl) fl I1) as (r & s' & wl' & rl' & fl' & bs & E & I' & Hp & Hc & Hr).
    { right. unfold rounds in *. simpl in *. lia. }
    exists r, s', wl', rl', fl', bs. split_and!; try done.
    rewrite <- Hc. unfold contents. cbn [pool read_ofs set_read set_write].
    unfold chain_bytes at 1 4. simpl. by rewrite drop_nil, app_nil_r.
  - pose proof (inv_r _ _ _ _ _ I) as (Hri & h & Hi & _). rewrite Hri.
    rewrite (bind_done _ _ _ _ _ (page_at_done _ _ _ Hi)).
    rewrite bind_modify.
    pose proof (inv_ofs _ _ _ _ _ I i rl h eq_refl Hi) as Ho.
    set (t := (size h - read_ofs s) `min` want).
    destruct (read_part _ _ _ _ _ _ t I Hi ltac:(lia)) as [I1 Hc1].
    set (s1 := set_read (Some i) (read_ofs s + t) s) in *.
    destruct (bytes_length _ _ _ _ _ i h I ltac:(set_solver) Hi) as [Hb Hl].
    assert (length (take t (drop (read_ofs s) (payload h))) = t) as Hlt.
    { rewrite Hb, length_take in Hl. rewrite length_take, length_drop. lia. }
    destruct (Nat.eqb_spec (read_ofs s + t) (size h)) as [Heq|Hne].
    + destruct (read_page s1 wl i rl fl h I1 Hi) as (s2 & E2 & I2 & Hp2 & _ & _ & Hc2).
      rewrite (bind_done _ _ _ _ _ E2).
      destruct (IH (want - t) (got ++ take t (drop (read_ofs s) (payload h))) s2 wl rl (i :: fl) I2)
        as (r & s' & wl' & rl' & fl' & bs & E & I' & Hp & Hc & Hr).
      { right. unfold rounds in *. simpl in *. lia. }
      exists r, s', wl', rl', fl', (take t (drop (read_ofs s) (payload h)) ++ bs).
      split_and!; [done|done|by rewrite Hp, Hp2| |].
      * rewrite Hc1, Hc2, Hc. cbn [read_ofs set_read s1]. rewrite Heq, Nat.sub_diag, take_0.
        simpl. by rewrite <- app_assoc.
      * unfold dequeued in *. rewrite length_app, <- app_assoc in *. destruct r; naive_solver lia.
    + rewrite (bind_done _ _ s1 tt s1 eq_refl).
      destruct (IH (want - t) (got ++ take t (drop (read_ofs s) (payload h))) s1 wl (i :: rl) fl I1)
        as (r & s' & wl' & rl' & fl' & bs & E & I' & Hp & Hc & Hr); [left; lia|].
      exists r, s', wl', rl', fl', (take t (drop (read_ofs s) (payload h)) ++ bs).
      split_and!; [done|done|by rewrite Hp| |].
      * by rewrite Hc1, Hc, <- app_assoc.
      * unfold dequeued in *. rewrite length_app, <- app_assoc in *. destruct r; naive_solver lia.
Qed.

(** ** Segments against the abstract queue *)

Lemma enqueue_segment in_alloc data sent s q :
  pipe_abs s q →
  ∃ r s' k, enqueue_loop (S (length data)) in_alloc data sent false s = Done (r, s') ∧
    pipe_abs s' (q ++ take k data) ∧ enqueued r sent data k s' ∧ k ≤ length data ∧
    (0 < k → not_empty_signals s < not_empty_signals s').
Proof.
  intros (Hp & wl & rl & fl & I & ->).
  destruct (enqueue_loop_spec (S (length data)) in_alloc data sent false s wl rl fl I Hp)
    as (r & s' & wl' & fl' & k & E & I' & Hp' & Hk & Hc & Hr & _ & Hs); [lia|].
  exists r, s', k. split_and!; [done| |done|done|auto].
  split; [done|]. by exists wl', rl, fl'.
Qed.

Lemma rounds_fuel s wl rl fl :
  pipe_inv s wl rl fl [] → S (rounds wl rl) < dequeue_fuel s.
Proof.
  intros I. pose proof (inv_count _ _ _ _ _ I). pose proof (inv_bump _ _ _ _ _ I).
  unfold rounds, dequeue_fuel. simpl in *. destruct wl; simpl in *; lia.
Qed.

Lemma dequeue_segment want got s q :
  pipe_abs s q →
  ∃ r s' bs q', dequeue_from want got s = Done (r, s') ∧ pipe_abs s' q' ∧ q = bs ++ q' ∧
    dequeued r want got bs q'.
Proof.
  intros (Hp & wl & rl & fl & I & ->). unfold dequeue_from. rewrite (bind_done _ _ s _ s eq_refl).
  destruct (dequeue_loop_spec (dequeue_fuel s) want got s wl rl fl I)
    as (r & s' & wl' & rl' & fl' & bs & E & I' & Hp' & Hc & Hr).
  { right. by eapply rounds_fuel. }
  exists r, s', bs, (contents s' wl' rl'). split_and!; try done.
  split; [congruence|]. by exists wl', rl', fl'.
Qed.

(** A call of enqueue returns or waits; it appended the first [k] bytes of
    its data, all of them if it returned, and it waits only when there is no
    page left.  Whenever bytes went in, waiting readers were notified. *)
Theorem enqueue_appends data s q :
  pipe_abs s q →
  ∃ r s' k, enqueue data s = Done (r, s') ∧ pipe_abs s' (q ++ take k data) ∧
    enqueued r 0 data k s' ∧ (0 < k → not_empty_signals s < not_empty_signals s').
Proof.
  intros Ha. destruct (enqueue_segment false data 0 s q Ha) as (r & s' & k & E & Ha' & Hr & _ & Hs).
  by exists r, s', k.
Qed.

(** A call of dequeue removes bytes from the front; it returns with all it
    asked for, or waits on an empty pipe. *)
Theorem dequeue_removes want s q :
  pipe_abs s q →
  ∃ r s' bs q', dequeue want s = Done (r, s') ∧ pipe_abs s' q' ∧ q = bs ++ q' ∧
    dequeued r want [] bs q'.
Proof. intros Ha. by apply dequeue_segment. Qed.

(** ** Any number of callers

    The waiting calls, and the bytes that went in and out so far in the
    order of the segments. *)
Record psys := PSys {
  pipe_of : pipe_t;
  writers : list (list Z * nat);
  readers : list (nat * list Z);
  bytes_in : list Z;
  bytes_out : list Z
}.

Definition sent_of (r : enq_result) : nat :=
  match r with EnqReturn m => m | EnqWait _ m => m end.
Definition got_of (r : deq_result) : list Z :=
  match r with DeqReturn g => g | DeqWait _ g => g end.

Definition after_enqueue (σ : psys) (ws : list (list Z * nat)) (data : list Z) (sent : nat)
    (r : enq_result) (s' : pipe_t) : psys :=
  PSys s' (match r with EnqWait rest m => (rest, m) :: ws | _ => ws end) (readers σ)
    (bytes_in σ ++ take (sent_of r - sent) data) (bytes_out σ).
Definition after_dequeue (σ : psys) (rs : list (nat * list Z)) (got : list Z)
    (r : deq_result) (s' : pipe_t) : psys :=
  PSys s' (writers σ) (match r with DeqWait w g => (w, g) :: rs | _ => rs end)
    (bytes_in σ) (bytes_out σ ++ drop (length got) (got_of r)).

Inductive psys_step : psys → psys → Prop :=
  | step_enqueue σ data r s' :
      enqueue data (pipe_of σ) = Done (r, s') →
      psys_step σ (after_enqueue σ (writers σ) data 0 r s')
  | step_enqueue_resume σ ws1 ws2 rest sent timed_out r s' :
      writers σ = ws1 ++ (rest, sent) :: ws2 →
      enqueue_resume timed_out rest sent (pipe_of σ) = Done (r, s') →
      psys_step σ (after_enqueue σ (ws1 ++ ws2) rest sent r s')
  | step_dequeue σ want r s' :
      dequeue want (pipe_of σ) = Done (r, s') →
      psys_step σ (after_dequeue σ (readers σ) [] r s')
  | step_dequeue_resume σ rs1 rs2 want got timed_out r s' :
      readers σ = rs1 ++ (want, got) :: rs2 →
      dequeue_resume timed_out want got (pipe_of σ) = Done (r, s') →
      psys_step σ (after_dequeue σ (rs1 ++ rs2) got r s').

(** A pipe whose pages were just reserved *)
Definition psys_init (pg : list pipe_buffer_hdr_t) : psys :=
  PSys (match reserve (Some pg) pipe_init with Done (_, s) => s | Fault _ => pipe_init end)
    [] [] [] [].

Definition psys_inv (σ : psys) : Prop :=
  ∃ q, pipe_abs (pipe_of σ) q ∧ bytes_in σ = bytes_out σ ++ q.

Lemma psys_init_inv pg :
  Forall (λ h, length (payload h) = PAYLOAD) pg → psys_inv (psys_init pg).
Proof.
  intros Hpg. exists []. split; [|done]. split; [done|]. exists [], [], [].
  split; [|done]. constructor; cbn; try done; try lia.
  - apply Nat.le_0_l.
  - by intros ?? ?%elem_of_nil.
Qed.

Lemma enqueue_step_inv σ ws in_alloc data sent r s' :
  psys_inv σ → enqueue_loop (S (length data)) in_alloc data sent false (pipe_of σ) = Done (r, s') →
  psys_inv (after_enqueue σ ws data sent r s').
Proof.
  intros (q & Ha & Hb) E.
  destruct (enqueue_segment in_alloc data sent _ q Ha) as (r0 & s0 & k & E0 & Ha' & Hr & Hk & _).
  rewrite E0 in E. simplify_eq. exists (q ++ take k data). split; [done|]. cbn.
  replace (sent_of r - sent) with k; [by rewrite Hb, app_assoc|].
  destruct r; cbn in *; lia.
Qed.

Lemma dequeue_step_inv σ rs want got r s' :
  psys_inv σ → dequeue_from want got (pipe_of σ) = Done (r, s') →
  psys_inv (after_dequeue σ rs got r s').
Proof.
  intros (q & Ha & Hb) E.
  destruct (dequeue_segment want got _ q Ha) as (r0 & s0 & bs & q' & E0 & Ha' & Hq & Hr).
  rewrite E0 in E. simplify_eq. exists q'. split; [done|]. cbn. rewrite Hb.
  assert (got_of r = got ++ bs) as -> by (by destruct r as [?|? ?]; destruct Hr as [-> _]).
  by rewrite drop_app_length, <- app_assoc.
Qed.

Lemma psys_step_inv σ σ' : psys_inv σ → psys_step σ σ' → psys_inv σ'.
Proof.
  intros Hi Hs. revert Hi.
  destruct Hs as [σ data r s' E|σ ws1 ws2 rest sent [] r s' Hw E|σ want r s' E
                 |σ rs1 rs2 want got [] r s' Hr E]; intros Hi.
  - by apply (enqueue_step_inv σ _ false data 0 r s').
  - unfold enqueue_resume, mret, M_ret in E. simplify_eq. destruct Hi as (q & Ha & Hb). exists q. split; [done|].
    cbn. by rewrite Nat.sub_diag, take_0, app_nil_r.
  - by apply (enqueue_step_inv σ _ true rest sent r s').
  - by apply (dequeue_step_inv σ _ want [] r s').
  - unfold dequeue_resume, mret, M_ret in E. simplify_eq. destruct Hi as (q & Ha & Hb). exists q. split; [done|].
    cbn. by rewrite drop_all, app_nil_r.
  - by apply (dequeue_step_inv σ _ want got r s').
Qed.

(** C22: However the calls interleave, what came out followed by what is in the
    pipe is what went in, in order. *)
Theorem pipe_is_fifo pg σ :
  Forall (λ h, length (payload h) = PAYLOAD) pg → rtc psys_step (psys_init pg) σ →
  ∃ q, pipe_abs (pipe_of σ) q ∧ bytes_in σ = bytes_out σ ++ q.
Proof.
  intros Hpg Hs. apply psys_init_inv in Hpg. change (psys_inv σ).
  induction Hs as [σ|σ σ1 σ2 Hs _ IH]; [done|]. apply IH. by eapply psys_step_inv.
Qed.


(** Two pages *)
Definition demo_pages : list pipe_buffer_hdr_t := replicate 2 (Hdr None 0 (replicate PAYLOAD 0%Z)).

Lemma demo_pages_ok : Forall (λ h, length (payload h) = PAYLOAD) demo_pages.
Proof. repeat constructor; apply length_replicate. Qed.

Lemma demo_pipe_abs : pipe_abs (pipe_of (psys_init demo_pages)) [].
Proof.
  destruct (psys_init_inv demo_pages demo_pages_ok) as (q & Ha & Hq). cbn in Hq. by rewrite <- Hq in Ha.
Qed.

Lemma enqueue_appends_witness :
  ∃ r s' k, enqueue [1; 2; 3]%Z (pipe_of (psys_init demo_pages)) = Done (r, s') ∧
    pipe_abs s' ([] ++ take k [1; 2; 3]%Z).
Proof.
  destruct (enqueue_appends [1; 2; 3]%Z _ [] demo_pipe_abs) as (r & s' & k & E & Ha & _).
  by exists r, s', k.
Defined.

Lemma dequeue_removes_witness :
  ∃ r s' bs q', dequeue 3 (pipe_of (psys_init demo_pages)) = Done (r, s') ∧ pipe_abs s' q' ∧
    [] = bs ++ q'.
Proof.
  destruct (dequeue_removes 3 _ [] demo_pipe_abs) as (r & s' & bs & q' & E & Ha & Hq & _).
  by exists r, s', bs, q'.
Defined.

(** One call of enqueue, then one of dequeue that is left waiting *)
Definition demo_run : psys :=
  match enqueue [1; 2; 3]%Z (pipe_of (psys_init demo_pages)) with
  | Done (r, s') => after_enqueue (psys_init demo_pages) [] [1; 2; 3]%Z 0 r s'
  | Fault _ => psys_init demo_pages
  end.

Lemma pipe_is_fifo_witness :
  rtc psys_step (psys_init demo_pages) demo_run ∧
  ∃ q, pipe_abs (pipe_of demo_run) q ∧ [1; 2; 3]%Z = [] ++ q.
Proof.
  assert (rtc psys_step (psys_init demo_pages) demo_run) as Hs.
  { apply rtc_once. unfold demo_run.
    destruct (enqueue [1; 2; 3]%Z (pipe_of (psys_init demo_pages))) as [[r s']|f] eqn:E.
    - by apply (step_enqueue (psys_init demo_pages)).
    - exfalso. vm_compute in E. discriminate. }
  split; [done|]. destruct (pipe_is_fifo demo_pages demo_run demo_pages_ok Hs) as (q & Ha & Hq).
  exists q. split; [done|]. rewrite <- (app_nil_l q), <- Hq at 1.
  vm_compute. reflexivity.
Defined.

