(* ===== verification/HashTable.v ===== *)
(** * kernel/lib/hash_table.h and hash.h: open addressing with holes

    A slot is null, a hole (the source's pointer value 1), or an item.  The
    table's element type and the bytes of its key are parameters, as the
    template's are; the hash is the source's. *)

From stdpp Require Import base tactics list numbers option gmap.
From S2P Require Import Prelude.

#[local] Open Scope Z_scope.

(** ** hash.h *)

Definition hash_step (hash b : Z) : Z :=
  let hash := u32 (hash + b) in
  let hash := u32 (hash + u32 (Z.shiftl hash 10)) in
  Z.lxor hash (Z.shiftr hash 6).

Definition hash_32 (key : list Z) : Z :=
  let hash := foldl hash_step 0 key in
  let hash := u32 (hash + u32 (Z.shiftl hash 3)) in
  let hash := Z.lxor hash (Z.shiftr hash 11) in
  u32 (hash + u32 (Z.shiftl hash 15)).

(** [s[i]] is a char, which is signed on the target. *)
Fixpoint hash_bernstein_from (hash : Z) (s : list Z) : Z :=
  match s with
  | [] => hash
  | c :: s => if c =? 0 then hash else hash_bernstein_from (u32 (33 * hash + s8 c)) s
  end.
Definition hash_bernstein (s : list Z) : Z := hash_bernstein_from 1 s.

(** ** hash_table.h *)

Inductive slot (T : Type) := SNull | SHole | SItem (x : T).
Arguments SNull {T}.
Arguments SHole {T}.
Arguments SItem {T} x.

#[export] Instance slot_eq_dec {T} `{EqDecision T} : EqDecision (slot T).
Proof. solve_decision. Defined.

Record hashtbl (T : Type) := HashTbl {
  items : list (slot T);
  used : Z;             (* uint32_t *)
  holes : Z;            (* uint32_t *)
  log2_capacity : Z     (* uint8_t *)
}.
Arguments HashTbl {T}.
Arguments items {T}.
Arguments used {T}.
Arguments holes {T}.
Arguments log2_capacity {T}.

Definition hashtbl_init {T} : hashtbl T := HashTbl [] 0 0 0.

Section ops.
Context {T : Type} (key_member : T → list Z).

(** Whether vector::resize to that many slots succeeds *)
Context (resize_ok : Z → bool).

Abbreviation HT := (M (hashtbl T)).

(** ~(uint32_t(-1) << log2) *)
Definition mask_of (log2 : Z) : Z := u32 (Z.lnot (u32 (Z.shiftl (2 ^ 32 - 1) log2))).

Definition hash_of_item (x : T) : Z := hash_32 (key_member x).

(** The slots a probe visits: from [hash], [n] of them. *)
Fixpoint probe_free (holes_too : bool) (tbl : list (slot T)) (mask : Z) (n : nat) (hash : Z) :
    outcome (option Z) :=
  match n with
  | O => Done None
  | S n =>
      match tbl !! Z.to_nat hash with
      | None => Fault OutOfRange
      | Some SNull => Done (Some hash)
      | Some SHole => if holes_too then Done (Some hash)
                      else probe_free holes_too tbl mask n (Z.land (u32 (hash + 1)) mask)
      | Some (SItem _) => probe_free holes_too tbl mask n (Z.land (u32 (hash + 1)) mask)
      end
  end.

(** The inner loop of rehash for one old slot: the new table and count.  An
    item for which the probe finds no null is dropped. *)
Definition rehash_one (probes : nat) (mask : Z) (acc : list (slot T) * Z) (src : slot T) :
    outcome (list (slot T) * Z) :=
  let '(new_tbl, new_used) := acc in
  match src with
  | SNull | SHole => Done acc
  | SItem x =>
      match probe_free false new_tbl mask probes (Z.land (hash_of_item x) mask) with
      | Done (Some h) => Done (<[Z.to_nat h := SItem x]> new_tbl, u32 (new_used + 1))
      | Done None => Done acc
      | Fault f => Fault f
      end
  end.

Fixpoint rehash_all (probes : nat) (mask : Z) (srcs : list (slot T))
    (acc : list (slot T) * Z) : outcome (list (slot T) * Z) :=
  match srcs with
  | [] => Done acc
  | x :: srcs =>
      match rehash_one probes mask acc x with
      | Done acc => rehash_all probes mask srcs acc
      | Fault f => Fault f
      end
  end.

Definition rehash (new_log2 : Z) : HT bool := λ t,
  let new_capacity := Z.shiftl 1 new_log2 in
  if negb (resize_ok new_capacity) then Done (false, t)
  else
    let new_tbl := replicate (Z.to_nat new_capacity) SNull in
    let e := Z.to_nat (Z.shiftl 1 (log2_capacity t)) in
    match (if negb (used t =? 0) then
             if decide (length (items t) < e)%nat then Fault OutOfRange
             else rehash_all e (mask_of new_log2) (take e (items t)) (new_tbl, 0)
           else Done (new_tbl, 0)) with
    | Done (tbl, new_used) => Done (true, HashTbl tbl new_used 0 new_log2)
    | Fault f => Fault f
    end.

Definition grow : HT bool :=
  t ← gets id;
  rehash (if log2_capacity t =? 0 then 4 else u8 (log2_capacity t + 1)).

(** The probe of insert, after the table has been grown if need be *)
Definition insert_probe (x : T) : HT bool :=
  t ← gets id;
  let mask := mask_of (log2_capacity t) in
  match probe_free true (items t) mask (Z.to_nat (u32 (Z.shiftl 1 (log2_capacity t))))
          (Z.land (hash_of_item x) mask) with
  | Done (Some h) =>
      modify (λ t, HashTbl (<[Z.to_nat h := SItem x]> (items t)) (u32 (used t + 1))
        (u32 (holes t - match items t !! Z.to_nat h with Some SHole => 1 | _ => 0 end))
        (log2_capacity t));;
      mret true
  | Done None => throw AssertFailed
  | Fault f => throw f
  end.

Definition hashtbl_insert (x : T) : HT bool :=
  t ← gets id;
  ok ← (if bool_decide (items t = []) || (Z.shiftr (u32 (Z.shiftl 1 (log2_capacity t))) 1 <=? used t)
        then grow else mret true);
  if negb (ok : bool) then mret false else insert_probe x.

(** The probe of lookup and del: the slot that holds [key] *)
Fixpoint probe_key (tbl : list (slot T)) (mask : Z) (key : list Z) (n : nat) (hash : Z) :
    outcome (option (Z * T)) :=
  match n with
  | O => Done None
  | S n =>
      match tbl !! Z.to_nat hash with
      | None => Fault OutOfRange
      | Some SNull => Done None
      | Some (SItem x) =>
          if decide (key_member x = key) then Done (Some (hash, x))
          else probe_key tbl mask key n (Z.land (u32 (hash + 1)) mask)
      | Some SHole => probe_key tbl mask key n (Z.land (u32 (hash + 1)) mask)
      end
  end.

Definition hashtbl_lookup (key : list Z) : HT (option T) := λ t,
  if used t =? 0 then Done (None, t)
  else
    let mask := mask_of (log2_capacity t) in
    match probe_key (items t) mask key (Z.to_nat (Z.shiftl 1 (log2_capacity t)))
            (Z.land (hash_32 key) mask) with
    | Done (Some (_, x)) => Done (Some x, t)
    | Done None => Done (None, t)
    | Fault f => Fault f
    end.

Definition hashtbl_del (key : list Z) : HT bool :=
  t ← gets id;
  if used t =? 0 then mret false
  else
    let mask := mask_of (log2_capacity t) in
    match probe_key (items t) mask key (Z.to_nat (u32 (Z.shiftl 1 (log2_capacity t))))
            (Z.land (hash_32 key) mask) with
    | Done (Some (h, _)) =>
        match items t !! Z.to_nat (Z.land (u32 (h + 1)) mask) with
        | None => throw OutOfRange
        | Some nxt =>
            modify (λ t,
              match nxt with
              | SNull => HashTbl (<[Z.to_nat h := SNull]> (items t)) (used t) (holes t) (log2_capacity t)
              | _ => HashTbl (<[Z.to_nat h := SHole]> (items t)) (used t) (u32 (holes t + 1)) (log2_capacity t)
              end);;
            modify (λ t, HashTbl (items t) (u32 (used t - 1)) (holes t) (log2_capacity t));;
            t ← gets id;
            (if (64 <? holes t) && (Z.shiftr (Z.of_nat (length (items t))) 1 <? holes t)
             then rehash (log2_capacity t) else mret true);;
            mret true
        end
    | Done None => mret false
    | Fault f => throw f
    end.

Definition hashtbl_clear : HT unit := modify (λ _, hashtbl_init).

End ops.

(** * The hash table is a finite map

    The invariant is that no null slot lies between an item's home slot and
    the item, so a probe that meets a null slot has seen every item it could
    be looking for. *)

Lemma mask_of_eq k : 0 ≤ k ≤ 31 → mask_of k = 2 ^ k - 1.
Proof.
  intros Hk. assert (Forall (λ k, mask_of k = 2 ^ k - 1) (seqZ 0 32)) as H32.
  { by repeat constructor. }
  apply (proj1 (Forall_forall _ _) H32). apply elem_of_seqZ. lia.
Qed.

Section thms.
Context {T : Type} (key_member : T → list Z) (resize_ok : Z → bool).

Implicit Types (tbl : list (slot T)) (t : hashtbl T).

Definition slot_item (s : slot T) : option T :=
  match s with SItem x => Some x | _ => None end.

(** The items of a table, in slot order *)
Definition table_items tbl : list T := omap slot_item tbl.

Definition slot_hole (s : slot T) : option () :=
  match s with SHole => Some () | _ => None end.
Definition hole_count tbl : nat := length (omap slot_hole tbl).

(** Slot [j] of the probe sequence that starts at [h] *)
Definition pos (n h j : Z) : nat := Z.to_nat ((h + j) mod n).

Definition home (n : Z) (key : list Z) : Z := hash_32 key mod n.

Definition reach (n : Z) tbl (p : nat) (x : T) : Prop :=
  ∃ j, 0 ≤ j < n ∧ p = pos n (home n (key_member x)) j ∧
       ∀ i, 0 ≤ i < j → tbl !! pos n (home n (key_member x)) i ≠ Some SNull.

(** A table of [n = 2^k] slots *)
Record tbl_inv (k : Z) tbl : Prop := {
  tbl_k : 4 ≤ k ≤ 30;
  tbl_len : length tbl = Z.to_nat (2 ^ k);
  tbl_reach : ∀ p x, tbl !! p = Some (SItem x) → reach (2 ^ k) tbl p x
}.

Record ht_inv t : Prop := {
  ht_tbl : t = hashtbl_init ∨ tbl_inv (log2_capacity t) (items t);
  ht_used : used t = Z.of_nat (length (table_items (items t)));
  ht_holes : holes t = Z.of_nat (hole_count (items t));
  ht_load : 2 * used t ≤ 2 ^ log2_capacity t
}.

(** *** Probe sequences *)

Section probe.
Context (k : Z) (Hk : 4 ≤ k ≤ 30).
#[local] Abbreviation n := (2 ^ k).

Lemma pow_bounds : 16 ≤ n ≤ 2 ^ 30.
Proof.
  split; [apply (Z.pow_le_mono_r 2 4 k); lia|apply Z.pow_le_mono_r; lia].
Qed.

Lemma land_mask h : 0 ≤ h → Z.land h (mask_of k) = h mod n.
Proof. intros. rewrite mask_of_eq, land_low_mask by lia. done. Qed.

Lemma probe_next h : 0 ≤ h < n → Z.land (u32 (h + 1)) (mask_of k) = (h + 1) mod n.
Proof. intros. pose proof pow_bounds. unwrap. apply land_mask. lia. Qed.

Lemma pos_lt tbl h j : length tbl = Z.to_nat n → (pos n h j < length tbl)%nat.
Proof.
  intros ->. pose proof pow_bounds. unfold pos. pose proof (Z.mod_pos_bound (h + j) n). lia.
Qed.

Lemma pos_0 h : 0 ≤ h < n → pos n h 0 = Z.to_nat h.
Proof. intros. unfold pos. by rewrite Z.add_0_r, Z.mod_small. Qed.

Lemma pos_step h j : pos n ((h + 1) mod n) j = pos n h (j + 1).
Proof.
  unfold pos. pose proof pow_bounds. f_equal. rewrite Zplus_mod_idemp_l. f_equal. lia.
Qed.

Lemma pos_inj h i j : 0 ≤ i < n → 0 ≤ j < n → pos n h i = pos n h j → i = j.
Proof.
  intros Hi Hj Hp. unfold pos in Hp. pose proof pow_bounds.
  pose proof (Z.mod_pos_bound (h + i) n). pose proof (Z.mod_pos_bound (h + j) n).
  apply Z2Nat.inj in Hp; [|lia|lia].
  assert ((i - j) mod n = 0) as Hm.
  { replace (i - j) with ((h + i) - (h + j)) by lia. rewrite Zminus_mod, Hp, Z.sub_diag. apply Z.mod_0_l. lia. }
  apply Z.mod_divide in Hm as [q Hq]; [|lia].
  set (w := 2 ^ k) in *. clearbody w. assert (q = 0) as -> by nia. lia.
Qed.

Definition is_free (holes_too : bool) (s : slot T) : bool :=
  match s with SNull => true | SHole => holes_too | SItem _ => false end.

Lemma probe_free_spec holes_too tbl m h :
  length tbl = Z.to_nat n → 0 ≤ h < n →
  ∃ r, probe_free holes_too tbl (mask_of k) m h = Done r ∧
  match r with
  | Some p => ∃ j s, 0 ≤ j < Z.of_nat m ∧ p = (h + j) mod n ∧ tbl !! Z.to_nat p = Some s ∧
      is_free holes_too s = true ∧
      ∀ i, 0 ≤ i < j → ∃ s', tbl !! pos n h i = Some s' ∧ is_free holes_too s' = false
  | None => ∀ i, 0 ≤ i < Z.of_nat m → ∃ s', tbl !! pos n h i = Some s' ∧ is_free holes_too s' = false
  end.
Proof.
  intros Hl. revert h. induction m as [|m IH]; intros h Hh; cbn [probe_free].
  { exists None. split; [done|]. intros. lia. }
  assert (∃ s, tbl !! Z.to_nat h = Some s) as [s Hs] by (apply lookup_lt_is_Some_2; lia).
  rewrite Hs. pose proof pow_bounds.
  assert (is_free holes_too s = false →
    ∃ r, probe_free holes_too tbl (mask_of k) m (Z.land (u32 (h + 1)) (mask_of k)) = Done r ∧
    match r with
    | Some p => ∃ j s, 0 ≤ j < Z.of_nat (S m) ∧ p = (h + j) mod n ∧ tbl !! Z.to_nat p = Some s ∧
        is_free holes_too s = true ∧
        ∀ i, 0 ≤ i < j → ∃ s', tbl !! pos n h i = Some s' ∧ is_free holes_too s' = false
    | None => ∀ i, 0 ≤ i < Z.of_nat (S m) → ∃ s', tbl !! pos n h i = Some s' ∧ is_free holes_too s' = false
    end) as Hgo.
  { intros Hf. rewrite probe_next by done.
    destruct (IH ((h + 1) mod n)) as (r & -> & Hr); [apply Z.mod_pos_bound; lia|].
    exists r. split; [done|].
    assert (∀ i, 0 < i → (∃ s', tbl !! pos n ((h + 1) mod n) (i - 1) = Some s' ∧ is_free holes_too s' = false) →
            ∃ s', tbl !! pos n h i = Some s' ∧ is_free holes_too s' = false) as Hsh.
    { intros i Hi. rewrite pos_step. by replace (i - 1 + 1) with i by lia. }
    destruct r as [p|].
    - destruct Hr as (j & s1 & Hj & -> & Hs1 & Hf1 & Hb). exists (j + 1), s1.
      rewrite Zplus_mod_idemp_l in *. replace (h + 1 + j) with (h + (j + 1)) in * by lia.
      split_and!; try done; try lia. intros i Hi. destruct (decide (i = 0)) as [->|].
      + exists s. by rewrite pos_0.
      + apply Hsh; [lia|]. apply Hb. lia.
    - intros i Hi. destruct (decide (i = 0)) as [->|]; [exists s; by rewrite pos_0|].
      apply Hsh; [lia|]. apply Hr. lia. }
  assert (is_free holes_too s = true → ∃ j s0, 0 ≤ j < Z.of_nat (S m) ∧ h = (h + j) mod n ∧
      tbl !! Z.to_nat h = Some s0 ∧ is_free holes_too s0 = true ∧
      ∀ i, 0 ≤ i < j → ∃ s', tbl !! pos n h i = Some s' ∧ is_free holes_too s' = false) as Hhere.
  { intros Hf. exists 0, s. rewrite Z.add_0_r, Z.mod_small by lia. split_and!; try done; try lia. }
  destruct s as [| |x]; cbn in Hgo, Hhere; [|destruct holes_too|]; auto;
    (exists (Some h); split; [done|by apply Hhere]).
Qed.

Lemma probe_key_spec tbl key m h :
  length tbl = Z.to_nat n → 0 ≤ h < n →
  ∃ r, probe_key key_member tbl (mask_of k) key m h = Done r ∧
  match r with
  | Some (p, x) => ∃ j, 0 ≤ j < Z.of_nat m ∧ p = (h + j) mod n ∧
      tbl !! Z.to_nat p = Some (SItem x) ∧ key_member x = key
  | None => ∃ j, 0 ≤ j ≤ Z.of_nat m ∧ (j = Z.of_nat m ∨ tbl !! pos n h j = Some SNull) ∧
      ∀ i x, 0 ≤ i < j → tbl !! pos n h i = Some (SItem x) → key_member x ≠ key
  end.
Proof.
  intros Hl. revert h. induction m as [|m IH]; intros h Hh; cbn [probe_key].
  { exists None. split; [done|]. exists 0. split_and!; try lia. }
  assert (∃ s, tbl !! Z.to_nat h = Some s) as [s Hs] by (apply lookup_lt_is_Some_2; lia).
  rewrite Hs. pose proof pow_bounds.
  assert ((∀ x, s = SItem x → key_member x ≠ key) →
    ∃ r, probe_key key_member tbl (mask_of k) key m (Z.land (u32 (h + 1)) (mask_of k)) = Done r ∧
    match r with
    | Some (p, x) => ∃ j, 0 ≤ j < Z.of_nat (S m) ∧ p = (h + j) mod n ∧
        tbl !! Z.to_nat p = Some (SItem x) ∧ key_member x = key
    | None => ∃ j, 0 ≤ j ≤ Z.of_nat (S m) ∧ (j = Z.of_nat (S m) ∨ tbl !! pos n h j = Some SNull) ∧
        ∀ i x, 0 ≤ i < j → tbl !! pos n h i = Some (SItem x) → key_member x ≠ key
    end) as Hgo.
  { intros Hne. rewrite probe_next by done.
    destruct (IH ((h + 1) mod n)) as (r & -> & Hr); [apply Z.mod_pos_bound; lia|].
    exists r. split; [done|]. destruct r as [[p x]|].
    - destruct Hr as (j & Hj & -> & Hx & Hkx). exists (j + 1).
      rewrite Zplus_mod_idemp_l in *. replace (h + 1 + j) with (h + (j + 1)) in * by lia.
      split_and!; try done; lia.
    - destruct Hr as (j & Hj & Hor & Hall). exists (j + 1). rewrite pos_step in Hor.
      split; [lia|]. split; [destruct Hor as [->|]; [left; lia|by right]|].
      intros i x Hi. destruct (decide (i = 0)) as [->|].
      + rewrite pos_0, Hs by done. intros [= ->]. by apply Hne.
      + intros Hx. apply (Hall (i - 1) x); [lia|]. rewrite pos_step. by replace (i - 1 + 1) with i by lia. }
  destruct s as [| |x].
  - exists None. split; [done|]. exists 0. rewrite pos_0 by done.
    split; [lia|]. split; [by right|]. intros; lia.
  - by apply Hgo.
  - case_decide as Hx; [|apply Hgo; by intros ? [= <-]].
    exists (Some (h, x)). split; [done|]. exists 0. rewrite Z.add_0_r, Z.mod_small by lia.
    split_and!; done || lia.
Qed.

End probe.
(** *** The multiset of items *)

Lemma omap_upd {B} (f : slot T → option B) tbl p s s' :
  tbl !! p = Some s →
  ∃ l1 l2, omap f tbl = l1 ++ option_list (f s) ++ l2 ∧
           omap f (<[p := s']> tbl) = l1 ++ option_list (f s') ++ l2.
Proof.
  intros Hp. pose proof (lookup_lt_Some _ _ _ Hp).
  exists (omap f (take p tbl)), (omap f (drop (S p) tbl)).
  rewrite insert_take_drop by done. rewrite <- (take_drop_middle _ _ _ Hp) at 1.
  split; rewrite omap_app; simpl; f_equal; [destruct (f s)|destruct (f s')]; done.
Qed.

Lemma table_items_add tbl p s x :
  tbl !! p = Some s → slot_item s = None →
  table_items (<[p := SItem x]> tbl) ≡ₚ x :: table_items tbl.
Proof.
  intros Hp Hs. destruct (omap_upd slot_item tbl p s (SItem x) Hp) as (l1 & l2 & E1 & E2).
  unfold table_items. rewrite E1, E2, Hs. simpl. by rewrite <- Permutation_middle.
Qed.

Lemma table_items_remove tbl p s x :
  tbl !! p = Some (SItem x) → slot_item s = None →
  table_items tbl ≡ₚ x :: table_items (<[p := s]> tbl).
Proof.
  intros Hp Hs. destruct (omap_upd slot_item tbl p _ s Hp) as (l1 & l2 & E1 & E2).
  unfold table_items. rewrite E1, E2, Hs. simpl. by rewrite <- Permutation_middle.
Qed.

Lemma hole_count_upd tbl p s s' :
  tbl !! p = Some s →
  (hole_count (<[p := s']> tbl) + length (option_list (slot_hole s)) =
   hole_count tbl + length (option_list (slot_hole s')))%nat.
Proof.
  intros Hp. destruct (omap_upd slot_hole tbl p s s' Hp) as (l1 & l2 & E1 & E2).
  unfold hole_count. rewrite E1, E2, !length_app. lia.
Qed.

(** Distinct slots that hold items are at most as many as the items. *)
Lemma items_pigeonhole tbl (ps : list nat) :
  NoDup ps → (∀ p, p ∈ ps → ∃ x, tbl !! p = Some (SItem x)) →
  (length ps ≤ length (table_items tbl))%nat.
Proof.
  revert tbl. induction ps as [|p ps IH]; intros tbl Hnd Hps; simpl; [lia|].
  apply NoDup_cons in Hnd as [Hp Hnd]. destruct (Hps p) as [x Hx]; [set_solver|].
  rewrite (table_items_remove tbl p SNull x Hx) by done. simpl.
  enough (length ps ≤ length (table_items (<[p := SNull]> tbl)))%nat by lia.
  apply IH; [done|]. intros q Hq. rewrite list_lookup_insert_ne by set_solver. apply Hps. set_solver.
Qed.

Lemma table_items_elem tbl x : x ∈ table_items tbl ↔ ∃ p, tbl !! p = Some (SItem x).
Proof.
  unfold table_items. rewrite list_elem_of_omap. setoid_rewrite list_elem_of_lookup. split.
  - intros (s & [p Hp] & Hs). destruct s; try done. injection Hs as ->. eauto.
  - intros [p Hp]. eauto.
Qed.

(** *** Placing and removing an item *)

Lemma probe_free_finds k b tbl m h :
  tbl_inv k tbl → 0 ≤ h < 2 ^ k → (length (table_items tbl) < m)%nat → Z.of_nat m ≤ 2 ^ k →
  (∀ s, s ∈ tbl → is_free b s = false → slot_item s ≠ None) →
  ∃ p j s, probe_free b tbl (mask_of k) m h = Done (Some p) ∧ 0 ≤ j < 2 ^ k ∧
    p = (h + j) mod 2 ^ k ∧ tbl !! Z.to_nat p = Some s ∧ is_free b s = true ∧
    ∀ i, 0 ≤ i < j → tbl !! pos (2 ^ k) h i ≠ Some SNull.
Proof.
  intros [Hk Hl Hr] Hh Hm Hmn Hfree.
  destruct (probe_free_spec k Hk b tbl m h Hl Hh) as (r & E & Hres). destruct r as [p|].
  - destruct Hres as (j & s & Hj & Hp & Hs & Hf & Hb). exists p, j, s.
    split_and!; try done; try lia. intros i Hi Hn. destruct (Hb i Hi) as (s' & Hs' & Hf').
    rewrite Hn in Hs'. injection Hs' as <-. done.
  - exfalso. pose proof (items_pigeonhole tbl ((λ i, pos (2 ^ k) h (Z.of_nat i)) <$> seq 0 m)) as Hpig.
    rewrite length_fmap, length_seq in Hpig. apply (Nat.lt_irrefl m).
    eapply Nat.le_lt_trans; [apply Hpig|done].
    + apply NoDup_fmap_2_strong; [|apply NoDup_seq].
      intros x y [_ Hx]%elem_of_seq [_ Hy]%elem_of_seq Hxy.
      apply (pos_inj k Hk) in Hxy; lia.
    + intros q (i & -> & [_ Hi]%elem_of_seq)%list_elem_of_fmap.
      destruct (Hres (Z.of_nat i) ltac:(lia)) as (s & Hs & Hf).
      pose proof (Hfree s ltac:(by eapply list_elem_of_lookup_2) Hf) as Hx.
      destruct s; try done. eauto.
Qed.

Lemma tbl_inv_add k tbl x p j :
  tbl_inv k tbl → 0 ≤ j < 2 ^ k → p = pos (2 ^ k) (home (2 ^ k) (key_member x)) j →
  (∀ i, 0 ≤ i < j → tbl !! pos (2 ^ k) (home (2 ^ k) (key_member x)) i ≠ Some SNull) →
  tbl_inv k (<[p := SItem x]> tbl).
Proof.
  intros [Hk Hl Hr] Hj Hp Hpath. split; [done|by rewrite length_insert|].
  assert (∀ q, tbl !! q ≠ Some SNull → <[p := SItem x]> tbl !! q ≠ Some SNull) as Hkeep.
  { intros q Hq. destruct (decide (p = q)) as [->|]; [|by rewrite list_lookup_insert_ne].
    destruct (decide (q < length tbl)%nat); [by rewrite list_lookup_insert_eq|].
    by rewrite list_insert_ge by lia. }
  intros q y Hq. destruct (decide (p = q)) as [->|Hne].
  - rewrite list_lookup_insert_eq in Hq by (rewrite Hp; by apply pos_lt).
    injection Hq as <-. exists j. split_and!; try done; try lia. intros i Hi. apply Hkeep. by apply Hpath.
  - rewrite list_lookup_insert_ne in Hq by done. destruct (Hr q y Hq) as (d & Hd & Hqd & Hpd).
    exists d. split_and!; try done; try lia. intros i Hi. apply Hkeep. by apply Hpd.
Qed.

Lemma tbl_inv_hole k tbl p : tbl_inv k tbl → tbl_inv k (<[p := SHole]> tbl).
Proof.
  intros [Hk Hl Hr]. split; [done|by rewrite length_insert|]. intros q y Hq.
  destruct (decide (p = q)) as [->|Hne].
  { destruct (decide (q < length tbl)%nat).
    - by rewrite list_lookup_insert_eq in Hq.
    - apply lookup_lt_Some in Hq. rewrite length_insert in Hq. lia. }
  rewrite list_lookup_insert_ne in Hq by done. destruct (Hr q y Hq) as (d & Hd & Hqd & Hpd).
  exists d. split_and!; try done; try lia. intros i Hi. specialize (Hpd i Hi).
  destruct (decide (p = pos (2 ^ k) (home (2 ^ k) (key_member y)) i)) as [->|].
  - by rewrite list_lookup_insert_eq by (by apply pos_lt).
  - by rewrite list_lookup_insert_ne.
Qed.

(** Really deleting: nothing is reached through a slot before a null one. *)
Lemma tbl_inv_null k tbl h :
  tbl_inv k tbl → 0 ≤ h < 2 ^ k → tbl !! Z.to_nat ((h + 1) mod 2 ^ k) = Some SNull →
  tbl_inv k (<[Z.to_nat h := SNull]> tbl).
Proof.
  intros [Hk Hl Hr] Hh Hnext. pose proof (pow_bounds k Hk).
  split; [done|by rewrite length_insert|]. intros q y Hq.
  destruct (decide (Z.to_nat h = q)) as [<-|Hne].
  { rewrite list_lookup_insert_eq in Hq by lia. done. }
  rewrite list_lookup_insert_ne in Hq by done. destruct (Hr q y Hq) as (d & Hd & Hqd & Hpd).
  set (hm := home (2 ^ k) (key_member y)) in *.
  exists d. split_and!; try done; try lia. intros i Hi.
  destruct (decide (Z.to_nat h = pos (2 ^ k) hm i)) as [Heq|]; [|by rewrite list_lookup_insert_ne by done; apply Hpd].
  exfalso. assert (pos (2 ^ k) hm (i + 1) = Z.to_nat ((h + 1) mod 2 ^ k)) as Hn.
  { unfold pos in *. pose proof (Z.mod_pos_bound (hm + i) (2 ^ k)).
    apply Z2Nat.inj in Heq; [|lia|lia]. rewrite Heq, Zplus_mod_idemp_l. do 2 f_equal. lia. }
  destruct (decide (i + 1 = d)) as [<-|].
  - rewrite Hqd, Hn, Hnext in Hq. done.
  - apply (Hpd (i + 1)); [lia|]. by rewrite Hn.
Qed.

(** *** rehash *)

Definition no_hole tbl : Prop := ∀ s, s ∈ tbl → is_free false s = false → slot_item s ≠ None.

Lemma no_hole_count tbl : no_hole tbl → hole_count tbl = 0%nat.
Proof.
  intros Hn. unfold hole_count. destruct (omap slot_hole tbl) as [|u l] eqn:E; [done|].
  assert (u ∈ omap slot_hole tbl) as (s & Hs & Hh)%list_elem_of_omap by (rewrite E; set_solver).
  destruct s; try done. by destruct (Hn SHole Hs).
Qed.

Lemma no_hole_add tbl p x : no_hole tbl → no_hole (<[p := SItem x]> tbl).
Proof.
  intros Hn s Hs. apply list_elem_of_lookup in Hs as [q Hq].
  destruct (decide (p = q)) as [->|].
  - pose proof (lookup_lt_Some _ _ _ Hq) as Hlt. rewrite length_insert in Hlt.
    rewrite list_lookup_insert_eq in Hq by done. by injection Hq as <-.
  - rewrite list_lookup_insert_ne in Hq by done. apply Hn. by eapply list_elem_of_lookup_2.
Qed.

Lemma home_range k key : 4 ≤ k ≤ 30 → 0 ≤ home (2 ^ k) key < 2 ^ k.
Proof. intros Hk. pose proof (pow_bounds k Hk). apply Z.mod_pos_bound. lia. Qed.

Lemma hash_32_nonneg key : 0 ≤ hash_32 key.
Proof. unfold hash_32. apply u32_range. Qed.

Lemma rehash_all_spec k probes srcs tbl :
  tbl_inv k tbl → no_hole tbl → Z.of_nat probes ≤ 2 ^ k →
  (length (table_items tbl) + length (table_items srcs) < probes)%nat →
  ∃ tbl', rehash_all key_member probes (mask_of k) srcs (tbl, Z.of_nat (length (table_items tbl))) =
            Done (tbl', Z.of_nat (length (table_items tbl'))) ∧
    tbl_inv k tbl' ∧ no_hole tbl' ∧ table_items tbl' ≡ₚ table_items tbl ++ table_items srcs.
Proof.
  revert tbl. induction srcs as [|s srcs IH]; intros tbl Ht Hn Hp Hc; cbn [rehash_all].
  { exists tbl. split_and!; try done. by rewrite app_nil_r. }
  pose proof (tbl_k _ _ Ht) as Hk. pose proof (pow_bounds k Hk).
  destruct s as [| |x]; [by apply IH..|]. unfold rehash_one. cbn [table_items omap list_omap slot_item length] in Hc.
  change (omap slot_item srcs) with (table_items srcs) in Hc.
  unfold hash_of_item. rewrite (land_mask k Hk) by apply hash_32_nonneg.
  fold (home (2 ^ k) (key_member x)).
  destruct (probe_free_finds k false tbl probes (home (2 ^ k) (key_member x)) Ht)
    as (p & j & s & -> & Hj & Hpj & Hs & Hf & Hb); [by apply home_range|lia|done|done|].
  assert (slot_item s = None) as Hsi by (by destruct s).
  assert (Z.to_nat p = pos (2 ^ k) (home (2 ^ k) (key_member x)) j) as Hpp by (by rewrite Hpj).
  pose proof (table_items_add tbl _ s x Hs Hsi) as Hperm.
  destruct (IH (<[Z.to_nat p := SItem x]> tbl)) as (tbl' & E & Ht' & Hn' & Hp').
  - by eapply tbl_inv_add.
  - by apply no_hole_add.
  - done.
  - rewrite Hperm. simpl. lia.
  - exists tbl'. rewrite u32_small by lia. rewrite Hperm in E. simpl length in E.
    replace (Z.of_nat (length (table_items tbl)) + 1) with (Z.of_nat (S (length (table_items tbl)))) by lia.
    split_and!; try done. rewrite Hp', Hperm. simpl. by rewrite Permutation_middle.
Qed.

Lemma table_items_nulls m : table_items (replicate m SNull) = [].
Proof. induction m; [done|]. simpl. done. Qed.

Lemma empty_tbl_inv k : 4 ≤ k ≤ 30 → tbl_inv k (replicate (Z.to_nat (2 ^ k)) SNull).
Proof.
  intros Hk. split; [done|by rewrite length_replicate|]. intros p x Hx.
  apply lookup_replicate in Hx as [? _]. done.
Qed.

Lemma empty_no_hole m : no_hole (replicate m SNull).
Proof. intros s [-> _]%elem_of_replicate. done. Qed.

Lemma fresh_ht_inv k :
  4 ≤ k ≤ 30 → ht_inv (HashTbl (replicate (Z.to_nat (2 ^ k)) SNull) 0 0 k).
Proof.
  intros Hk. pose proof (pow_bounds k Hk). constructor; cbn [items used holes log2_capacity].
  - right. by apply empty_tbl_inv.
  - by rewrite table_items_nulls.
  - by rewrite no_hole_count by apply empty_no_hole.
  - lia.
Qed.

Lemma rehash_spec t k :
  ht_inv t → 4 ≤ k ≤ 30 → log2_capacity t ≤ k → resize_ok (2 ^ k) = true →
  ∃ t', rehash key_member resize_ok k t = Done (true, t') ∧ ht_inv t' ∧
    log2_capacity t' = k ∧ table_items (items t') ≡ₚ table_items (items t).
Proof.
  intros [Ht Hu Hh Hl] Hk Hle Hok. pose proof (pow_bounds k Hk). unfold rehash. rewrite !Z.shiftl_1_l, Hok. cbn [negb].
  pose proof (table_items_nulls (Z.to_nat (2 ^ k))) as Hnil.
  destruct Ht as [->|Ht].
  { eexists. split; [done|]. split_and!; [by apply fresh_ht_inv|done|]. cbn [items]. by rewrite Hnil. }
  destruct Ht as [Hk0 Hlen Hr]. pose proof (pow_bounds _ Hk0).
  destruct (Z.eqb_spec (used t) 0) as [Hz|Hz]; cbn [negb].
  { eexists. split; [done|]. assert (table_items (items t) = []) as Hi by (apply nil_length_inv; lia).
    split_and!; [by apply fresh_ht_inv|done|]. cbn [items]. by rewrite Hi, Hnil. }
  rewrite decide_False, take_ge by lia. pose proof (Z.pow_le_mono_r 2 (log2_capacity t) k ltac:(lia) Hle).
  destruct (rehash_all_spec k (Z.to_nat (2 ^ log2_capacity t)) (items t) (replicate (Z.to_nat (2 ^ k)) SNull))
    as (tbl' & E & Ht' & Hn' & Hp'); [by apply empty_tbl_inv|apply empty_no_hole|lia|rewrite Hnil; simpl; lia|].
  rewrite Hnil in E, Hp'. simpl in E, Hp'. change 0 with (Z.of_nat 0). rewrite E. eexists. split; [done|]. cbn. split_and!; try done.
  constructor; cbn [items used holes log2_capacity]; [by right|done|by rewrite no_hole_count|].
  rewrite Hp'. lia.
Qed.

(** *** Insertion *)

Lemma length_omap_le {B} (f : slot T → option B) tbl : (length (omap f tbl) ≤ length tbl)%nat.
Proof. induction tbl as [|s tbl IH]; csimpl; [lia|]. destruct (f s); csimpl; lia. Qed.

Lemma half_pow k : 4 ≤ k ≤ 30 → ∃ m, 2 ^ k = 2 * m ∧ 2 ^ k / 2 = m.
Proof.
  intros Hk. exists (2 ^ (k - 1)). assert (2 ^ k = 2 * 2 ^ (k - 1)) as ->.
  { rewrite <- Z.pow_succ_r by lia. f_equal. lia. }
  split; [done|]. rewrite Z.mul_comm. apply Z.div_mul. lia.
Qed.

(** The probe of insert finds room in a table that is not half full. *)
Lemma insert_probe_spec t x :
  ht_inv t → items t ≠ [] → 2 * used t < 2 ^ log2_capacity t →
  ∃ t', insert_probe key_member x t = Done (true, t') ∧ ht_inv t' ∧
    table_items (items t') ≡ₚ x :: table_items (items t).
Proof.
  intros [Ht Hu Hh Hl] Hne Hroom. destruct Ht as [->|Ht]; [done|].
  pose proof (tbl_k _ _ Ht) as Hk. pose proof (pow_bounds _ Hk). pose proof (tbl_len _ _ Ht) as Hlen.
  destruct (half_pow _ Hk) as (m & Hm & _).
  unfold insert_probe. rewrite (bind_done _ _ t _ t eq_refl). unfold id. rewrite Z.shiftl_1_l. unwrap.
  unfold hash_of_item. rewrite (land_mask _ Hk) by apply hash_32_nonneg.
  fold (home (2 ^ log2_capacity t) (key_member x)).
  destruct (probe_free_finds _ true (items t) (Z.to_nat (2 ^ log2_capacity t))
              (home (2 ^ log2_capacity t) (key_member x)) Ht)
    as (p & j & s & -> & Hj & Hpj & Hs & Hf & Hb); [by apply home_range|lia|lia|by intros [| |]|].
  assert (slot_item s = None) as Hsi by (by destruct s).
  assert (Z.to_nat p = pos (2 ^ log2_capacity t) (home (2 ^ log2_capacity t) (key_member x)) j) as Hpp
    by (by rewrite Hpj).
  pose proof (table_items_add (items t) _ s x Hs Hsi) as Hperm.
  pose proof (hole_count_upd (items t) _ s (SItem x) Hs) as Hhc.
  assert (hole_count (items t) ≤ length (items t))%nat as Hhb by (apply length_omap_le).
  eexists. split; [done|]. cbn [items]. split; [|done].
  constructor; cbn [items used holes log2_capacity].
  - right. by eapply tbl_inv_add.
  - rewrite Hperm, u32_small by lia. simpl. lia.
  - rewrite Hs. destruct s; simpl in *; try done; rewrite u32_small; lia.
  - rewrite u32_small by lia. lia.
Qed.

(** A table is grown when it is empty or half full; there is then room. *)
Lemma grow_spec t :
  ht_inv t → used t < 2 ^ 28 → (∀ n, resize_ok n = true) →
  items t = [] ∨ 2 ^ log2_capacity t ≤ 2 * used t →
  ∃ t', grow key_member resize_ok t = Done (true, t') ∧ ht_inv t' ∧ items t' ≠ [] ∧
    2 * used t' < 2 ^ log2_capacity t' ∧ table_items (items t') ≡ₚ table_items (items t).
Proof.
  intros I Hu Hok Hfull. unfold grow. rewrite (bind_done _ _ t _ t eq_refl). unfold id.
  assert (∃ k, (if log2_capacity t =? 0 then 4 else u8 (log2_capacity t + 1)) = k ∧ 4 ≤ k ≤ 30 ∧
            log2_capacity t ≤ k ∧ 2 * used t < 2 ^ k) as (k & -> & Hk & Hle & Hroom).
  { destruct I as [[->|Ht] Hus _ Hl]; [by exists 4|]. pose proof (tbl_k _ _ Ht) as Hk.
    destruct Hfull as [E|Hfull].
    { pose proof (tbl_len _ _ Ht) as Hlen. pose proof (pow_bounds _ Hk). rewrite E in Hlen. simpl in Hlen. lia. }
    rewrite (proj2 (Z.eqb_neq _ _)) by lia. exists (log2_capacity t + 1). unwrap.
    assert (log2_capacity t < 30) as Hlt.
    { apply (Z.pow_lt_mono_r_iff 2); [lia|lia|]. change (2 ^ 30) with (4 * 2 ^ 28). lia. }
    split_and!; try lia. rewrite Z.add_1_r, Z.pow_succ_r by lia. pose proof (pow_bounds _ Hk). lia. }
  destruct (rehash_spec t k I Hk Hle (Hok _)) as (t' & E & I' & Hk' & Hp).
  exists t'. split_and!; try done.
  - intros Hi. destruct I' as [[->|Ht] _ _ _]; [simpl in Hk'; lia|].
    pose proof (tbl_len _ _ Ht) as Hlen. pose proof (pow_bounds _ Hk). rewrite Hi, Hk' in Hlen. simpl in Hlen. lia.
  - rewrite Hk', (ht_used _ I'), Hp, <- (ht_used _ I). done.
Qed.

(** insert adds its item, whatever it was, when the table can be grown. *)
Lemma hashtbl_insert_correct t x :
  ht_inv t → used t < 2 ^ 28 → (∀ n, resize_ok n = true) →
  ∃ t', hashtbl_insert key_member resize_ok x t = Done (true, t') ∧ ht_inv t' ∧
    table_items (items t') ≡ₚ x :: table_items (items t).
Proof.
  intros I Hu Hok. unfold hashtbl_insert. rewrite (bind_done _ _ t _ t eq_refl). unfold id.
  destruct (bool_decide (items t = []) || _) eqn:Eg.
  - destruct (grow_spec t I Hu Hok) as (t1 & E1 & I1 & Hne & Hroom & Hp1).
    { apply orb_prop in Eg as [Eg%bool_decide_eq_true|Eg%Z.leb_le]; [by left|].
      destruct (ht_tbl _ I) as [->|Ht]; [by left|]. right. pose proof (tbl_k _ _ Ht) as Hk.
      destruct (half_pow _ Hk) as (m & Hm & Hm2). pose proof (pow_bounds _ Hk).
      rewrite Z.shiftl_1_l, u32_small, Z.shiftr_div_pow2 in Eg by lia. change (2 ^ 1) with 2 in Eg. lia. }
    rewrite (bind_done _ _ _ _ _ E1). cbn [negb].
    destruct (insert_probe_spec t1 x I1 Hne Hroom) as (t' & E & I' & Hp).
    exists t'. split_and!; try done. by rewrite Hp, Hp1.
  - apply orb_false_iff in Eg as [Eg%bool_decide_eq_false Eg2%Z.leb_gt].
    rewrite (bind_done _ _ t true t eq_refl). cbn [negb].
    apply insert_probe_spec; [done|done|].
    destruct (ht_tbl _ I) as [->|Ht]; [done|]. pose proof (tbl_k _ _ Ht) as Hk.
    destruct (half_pow _ Hk) as (m & Hm & Hm2). pose proof (pow_bounds _ Hk).
    rewrite Z.shiftl_1_l, u32_small, Z.shiftr_div_pow2 in Eg2 by lia. change (2 ^ 1) with 2 in Eg2. lia.
Qed.

(** *** Lookup and deletion *)

Lemma probe_key_complete k tbl key :
  tbl_inv k tbl →
  ∃ r, probe_key key_member tbl (mask_of k) key (Z.to_nat (2 ^ k)) (Z.land (hash_32 key) (mask_of k)) = Done r ∧
    match r with
    | Some (p, x) => 0 ≤ p < 2 ^ k ∧ tbl !! Z.to_nat p = Some (SItem x) ∧ key_member x = key
    | None => ∀ x, x ∈ table_items tbl → key_member x ≠ key
    end.
Proof.
  intros [Hk Hl Hr]. pose proof (pow_bounds k Hk). rewrite (land_mask k Hk) by apply hash_32_nonneg.
  fold (home (2 ^ k) key).
  destruct (probe_key_spec k Hk tbl key (Z.to_nat (2 ^ k)) _ Hl (home_range k key Hk)) as (r & -> & Hres).
  exists r. split; [done|]. destruct r as [[p x]|].
  - destruct Hres as (j & Hj & -> & Hx & Hkx). split; [|done]. apply Z.mod_pos_bound. lia.
  - destruct Hres as (j & Hj & Hor & Hall). intros x (p & Hp)%table_items_elem Hkx.
    destruct (Hr p x Hp) as (d & Hd & Hpd & Hpath). rewrite Hkx in *. subst p.
    destruct (decide (d < j)) as [|]; [apply (Hall d x); [lia|done..]|].
    destruct Hor as [->|Hnull]; [lia|]. destruct (decide (j = d)) as [->|].
    + by rewrite Hp in Hnull.
    + apply (Hpath j); [lia|done].
Qed.

(** lookup finds an item with the key if there is one. *)
Lemma hashtbl_lookup_correct t key :
  ht_inv t →
  ∃ r, hashtbl_lookup key_member key t = Done (r, t) ∧
    match r with
    | Some x => x ∈ table_items (items t) ∧ key_member x = key
    | None => ∀ x, x ∈ table_items (items t) → key_member x ≠ key
    end.
Proof.
  intros [Ht Hu _ _]. unfold hashtbl_lookup. destruct (Z.eqb_spec (used t) 0) as [Hz|Hz].
  { exists None. split; [done|]. rewrite (nil_length_inv (table_items (items t))) by lia. set_solver. }
  destruct Ht as [->|Ht]; [done|]. rewrite Z.shiftl_1_l.
  destruct (probe_key_complete _ _ key Ht) as (r & -> & Hr). destruct r as [[p x]|]; [|by exists None].
  exists (Some x). split; [done|]. destruct Hr as (_ & Hx & Hk). split; [|done].
  apply table_items_elem. eauto.
Qed.

(** What del does to the table before it thinks about rehashing *)
Lemma del_slot t p x :
  ht_inv t → tbl_inv (log2_capacity t) (items t) → 0 ≤ p < 2 ^ log2_capacity t →
  items t !! Z.to_nat p = Some (SItem x) →
  ∃ nxt t', items t !! Z.to_nat (Z.land (u32 (p + 1)) (mask_of (log2_capacity t))) = Some nxt ∧
    (modify (λ t,
       match nxt with
       | SNull => HashTbl (<[Z.to_nat p := SNull]> (items t)) (used t) (holes t) (log2_capacity t)
       | _ => HashTbl (<[Z.to_nat p := SHole]> (items t)) (used t) (u32 (holes t + 1)) (log2_capacity t)
       end);;
     modify (λ t, HashTbl (items t) (u32 (used t - 1)) (holes t) (log2_capacity t))) t = Done (tt, t') ∧
    ht_inv t' ∧ tbl_inv (log2_capacity t') (items t') ∧ log2_capacity t' = log2_capacity t ∧
    table_items (items t) ≡ₚ x :: table_items (items t').
Proof.
  intros [_ Hu Hh Hl] Ht Hp Hx. pose proof (tbl_k _ _ Ht) as Hk. pose proof (pow_bounds _ Hk).
  pose proof (tbl_len _ _ Ht) as Hlen. rewrite (probe_next _ Hk) by done.
  pose proof (Z.mod_pos_bound (p + 1) (2 ^ log2_capacity t) ltac:(lia)).
  destruct (lookup_lt_is_Some_2 (items t) (Z.to_nat ((p + 1) mod 2 ^ log2_capacity t))) as [nxt Hn]; [lia|].
  eexists nxt, _. split; [done|]. split; [reflexivity|].
  pose proof (λ s, table_items_remove (items t) _ s x Hx) as Hrm.
  pose proof (λ s, hole_count_upd (items t) _ _ s Hx) as Hhc. simpl in Hhc.
  assert (hole_count (items t) < length (items t))%nat as Hhb.
  { specialize (Hhc SHole). simpl in Hhc. pose proof (length_omap_le slot_hole (<[Z.to_nat p:=SHole]> (items t))) as Hb.
    unfold hole_count in *. rewrite length_insert in Hb. lia. }
  assert (∀ s, slot_item s = None → used t = Z.of_nat (S (length (table_items (<[Z.to_nat p := s]> (items t)))))) as Hcnt.
  { intros s Hs. rewrite Hu. by rewrite (Hrm s Hs). }
  assert (∀ s, (s = SHole ∨ s = SNull ∧ nxt = SNull) → tbl_inv (log2_capacity t) (<[Z.to_nat p := s]> (items t))) as Hti.
  { intros s [->|[-> ->]]; [by apply tbl_inv_hole|by apply tbl_inv_null]. }
  destruct nxt as [| |y]; cbn [items used holes log2_capacity].
  - specialize (Hhc SNull). simpl in Hhc. specialize (Hcnt SNull eq_refl). split; [|by split_and!; auto].
    constructor; cbn [items used holes log2_capacity]; [auto| |lia|rewrite u32_small; lia].
    rewrite u32_small; lia.
  - specialize (Hhc SHole). simpl in Hhc. specialize (Hcnt SHole eq_refl). split; [|by split_and!; auto].
    constructor; cbn [items used holes log2_capacity]; [auto| |rewrite u32_small; lia|rewrite u32_small; lia].
    rewrite u32_small; lia.
  - specialize (Hhc SHole). simpl in Hhc. specialize (Hcnt SHole eq_refl). split; [|by split_and!; auto].
    constructor; cbn [items used holes log2_capacity]; [auto| |rewrite u32_small; lia|rewrite u32_small; lia].
    rewrite u32_small; lia.
Qed.

(** del removes one item with the key, or reports that there is none; the
    rehash it may do, and the failure of that rehash, change nothing. *)
Lemma hashtbl_del_correct t key :
  ht_inv t →
  ∃ b t', hashtbl_del key_member resize_ok key t = Done (b, t') ∧ ht_inv t' ∧
    if b then ∃ x, key_member x = key ∧ table_items (items t) ≡ₚ x :: table_items (items t')
    else t' = t ∧ ∀ x, x ∈ table_items (items t) → key_member x ≠ key.
Proof.
  intros I. pose proof (ht_tbl _ I) as Ht. pose proof (ht_used _ I) as Hu.
  unfold hashtbl_del. rewrite (bind_done _ _ t _ t eq_refl). unfold id.
  destruct (Z.eqb_spec (used t) 0) as [Hz|Hz].
  { exists false, t. split_and!; try done. rewrite (nil_length_inv (table_items (items t))) by lia. set_solver. }
  destruct Ht as [->|Ht]; [done|]. pose proof (tbl_k _ _ Ht) as Hk. pose proof (pow_bounds _ Hk).
  rewrite Z.shiftl_1_l, u32_small by lia.
  destruct (probe_key_complete _ _ key Ht) as (r & -> & Hr). destruct r as [[p x]|]; [|by exists false, t].
  destruct Hr as (Hp & Hx & Hkx). destruct (del_slot t p x I Ht Hp Hx) as (nxt & t1 & -> & E1 & I1 & Ht1 & Hc1 & Hp1).
  rewrite (seq_done _ _ _ _ _ _ E1).
  rewrite (bind_done _ _ t1 _ t1 eq_refl). unfold id. destruct (_ && _).
  - destruct (resize_ok (2 ^ log2_capacity t1)) eqn:Eok.
    + destruct (rehash_spec t1 (log2_capacity t1) I1 ltac:(lia) ltac:(lia) Eok) as (t2 & E2 & I2 & _ & Hp2).
      rewrite (bind_done _ _ _ _ _ E2). exists true, t2. split_and!; try done.
      exists x. split; [done|]. by rewrite Hp1, Hp2.
    + assert (rehash key_member resize_ok (log2_capacity t1) t1 = Done (false, t1)) as E2.
      { unfold rehash. by rewrite Z.shiftl_1_l, Eok. }
      rewrite (bind_done _ _ _ _ _ E2). exists true, t1. eauto.
  - rewrite (bind_done _ _ t1 true t1 eq_refl). exists true, t1. eauto.
Qed.

(** *** Refinement of a finite map *)

Definition ht_map t : gmap (list Z) T := list_to_map ((λ x, (key_member x, x)) <$> table_items (items t)).
Definition unique_keys t : Prop := NoDup (key_member <$> table_items (items t)).

Lemma ht_map_perm t l :
  unique_keys t → table_items (items t) ≡ₚ l →
  ht_map t = list_to_map ((λ x, (key_member x, x)) <$> l).
Proof.
  intros Hnd Hp. unfold ht_map. apply list_to_map_proper; [|by rewrite Hp].
  by rewrite <- list_fmap_compose.
Qed.

Lemma ht_map_lookup t x :
  unique_keys t → x ∈ table_items (items t) → ht_map t !! key_member x = Some x.
Proof.
  intros Hnd Hx. apply elem_of_list_to_map.
  - by rewrite <- list_fmap_compose.
  - apply list_elem_of_fmap. eauto.
Qed.

Lemma ht_map_lookup_None t key :
  (∀ x, x ∈ table_items (items t) → key_member x ≠ key) → ht_map t !! key = None.
Proof.
  intros Hn. apply not_elem_of_list_to_map. rewrite <- list_fmap_compose.
  intros (x & -> & Hx)%list_elem_of_fmap. by apply (Hn x).
Qed.

(** C35: With distinct keys the table is the finite map of its items: lookup
    reads it, insert of a new key and del update it. *)
Theorem hashtbl_refines_map t :
  ht_inv t → unique_keys t → used t < 2 ^ 28 → (∀ n, resize_ok n = true) →
  (∀ key, hashtbl_lookup key_member key t = Done (ht_map t !! key, t)) ∧
  (∀ x, ht_map t !! key_member x = None →
    ∃ t', hashtbl_insert key_member resize_ok x t = Done (true, t') ∧ ht_inv t' ∧ unique_keys t' ∧
          ht_map t' = <[key_member x := x]> (ht_map t)) ∧
  (∀ key, ∃ t', hashtbl_del key_member resize_ok key t = Done (bool_decide (is_Some (ht_map t !! key)), t') ∧
          ht_inv t' ∧ unique_keys t' ∧ ht_map t' = delete key (ht_map t)).
Proof.
  intros I Hun Hu Hok. split_and!.
  - intros key. destruct (hashtbl_lookup_correct t key I) as (r & -> & Hr). do 2 f_equal.
    destruct r as [x|]; [|by rewrite ht_map_lookup_None].
    destruct Hr as [Hx <-]. by rewrite ht_map_lookup.
  - intros x Hnone. destruct (hashtbl_insert_correct t x I Hu Hok) as (t' & E & I' & Hp).
    assert (unique_keys t') as Hun'.
    { unfold unique_keys. rewrite Hp. simpl. apply NoDup_cons. split; [|done].
      intros (y & Hy & Hin)%list_elem_of_fmap. rewrite Hy, (ht_map_lookup t y) in Hnone by done. done. }
    exists t'. split_and!; try done. by rewrite (ht_map_perm t' _ Hun' Hp).
  - intros key. destruct (hashtbl_del_correct t key I) as (b & t' & E & I' & Hb). exists t'.
    destruct b.
    + destruct Hb as (x & <- & Hp). assert (unique_keys t' ∧ key_member x ∉ key_member <$> table_items (items t')) as [Hun' Hni].
      { unfold unique_keys in *. rewrite Hp in Hun. simpl in Hun. by apply NoDup_cons in Hun as [? ?]. }
      rewrite (ht_map_perm t _ Hun Hp). simpl. rewrite lookup_insert_eq, bool_decide_eq_true_2 by eauto.
      split_and!; try done. rewrite delete_insert_id; [done|].
      apply not_elem_of_list_to_map. by rewrite <- list_fmap_compose.
    + destruct Hb as [-> Hn]. rewrite ht_map_lookup_None by done.
      rewrite bool_decide_eq_false_2 by (by intros [? ?]). split_and!; try done.
      rewrite delete_id; [done|]. by apply ht_map_lookup_None.
Qed.

End thms.

Lemma ht_init_inv {T} (key_member : T → list Z) : ht_inv key_member hashtbl_init.
Proof. constructor; [by left|done|done|done]. Qed.

(** An empty table of key-value pairs takes its first one. *)
Lemma hashtbl_refines_map_witness :
  ∃ t', hashtbl_insert fst (λ _, true) ([7], 5) hashtbl_init = Done (true, t') ∧
    ht_map fst t' = <[[7] := ([7], 5)]> ∅.
Proof.
  destruct (hashtbl_refines_map fst (λ _, true) (hashtbl_init (T := list Z * Z)))
    as (_ & Hins & _); [apply ht_init_inv|apply NoDup_nil_2|done|done|].
  destruct (Hins ([7], 5) eq_refl) as (t' & E & _ & _ & Hm). exists t'. split; [exact E|exact Hm].
Defined.
