(* ===== verification/OrderedSet.v ===== *)
(** * The ordered set of pairs contiguous_allocator_t is built on

    kernel/lib/contig_alloc.h keeps its free ranges in two
    [ext::fast_set<pair<uintptr_t, uintptr_t>>].  [OrderedSet] is what it
    uses of that set and [OrderedSetLaws] what it relies on.  An iterator is
    named by the element it points at, and by [None] at the end.  Sorted
    lists are an instance. *)

From stdpp Require Import base tactics list numbers option sorting sets.
From S2P Require Import Prelude.

#[local] Open Scope Z_scope.

Abbreviation elt := (Z * Z)%type.

(** ext::less on pairs *)
Definition elt_lt (x y : elt) : Prop := x.1 < y.1 ∨ x.1 = y.1 ∧ x.2 < y.2.

#[export] Instance elt_lt_dec x y : Decision (elt_lt x y).
Proof. unfold elt_lt. apply _. Defined.
#[export] Instance elt_lt_trans : Transitive elt_lt.
Proof. intros x y z. unfold elt_lt. lia. Qed.

Lemma elt_lt_irrefl x : ¬ elt_lt x x.
Proof. unfold elt_lt. lia. Qed.
Lemma elt_trichotomy (x y : elt) : elt_lt x y ∨ x = y ∨ elt_lt y x.
Proof.
  destruct x as [a b], y as [c d]. unfold elt_lt. simpl.
  destruct (Z.lt_trichotomy a c) as [|[->|]]; auto.
  destruct (Z.lt_trichotomy b d) as [|[->|]]; auto.
Qed.

Class OrderedSet (S : Type) := {
  elems : S → list elt;
  set_empty : S;
  set_insert : elt → S → S * bool;          (* insert(x): was it new? *)
  set_erase : elt → S → S * bool;           (* erase(x), extract(x): was it there? *)
  set_lower_bound : elt → S → option elt;
  set_next : elt → S → option elt;          (* ++it *)
  set_prev : option elt → S → option elt    (* --it; None when it is begin() *)
}.

Class OrderedSetLaws (S : Type) `{OrderedSet S} := {
  law_sorted : ∀ s, StronglySorted elt_lt (elems s);   (* iteration order *)
  law_empty : elems set_empty = [];
  law_insert : ∀ e s x, x ∈ elems (set_insert e s).1 ↔ x = e ∨ x ∈ elems s;
  law_insert_new : ∀ e s, (set_insert e s).2 = bool_decide (e ∉ elems s);
  law_erase : ∀ e s x, x ∈ elems (set_erase e s).1 ↔ x ≠ e ∧ x ∈ elems s;
  law_erase_found : ∀ e s, (set_erase e s).2 = bool_decide (e ∈ elems s);
  law_lower_bound_some : ∀ e s x, set_lower_bound e s = Some x →
    x ∈ elems s ∧ ¬ elt_lt x e ∧ ∀ y, y ∈ elems s → ¬ elt_lt y e → ¬ elt_lt y x;
  law_lower_bound_none : ∀ e s, set_lower_bound e s = None → ∀ y, y ∈ elems s → elt_lt y e;
  law_next_some : ∀ e s x, set_next e s = Some x →
    x ∈ elems s ∧ elt_lt e x ∧ ∀ y, y ∈ elems s → elt_lt e y → ¬ elt_lt y x;
  law_next_none : ∀ e s, set_next e s = None → ∀ y, y ∈ elems s → ¬ elt_lt e y;
  law_prev_some : ∀ it s x, set_prev it s = Some x →
    x ∈ elems s ∧ (∀ e, it = Some e → elt_lt x e) ∧
    ∀ y, y ∈ elems s → (∀ e, it = Some e → elt_lt y e) → ¬ elt_lt x y;
  law_prev_none : ∀ it s, set_prev it s = None →
    ∀ y, y ∈ elems s → ∃ e, it = Some e ∧ ¬ elt_lt y e
}.

Lemma sorted_nodup l : StronglySorted elt_lt l → NoDup l.
Proof.
  induction 1 as [|y l Hl IH Hy]; constructor; [|done].
  intros Hin. apply (elt_lt_irrefl y). by apply (proj1 (Forall_forall _ _) Hy).
Qed.

Lemma law_nodup {S} `{OrderedSetLaws S} (s : S) : NoDup (elems s).
Proof. apply sorted_nodup, law_sorted. Qed.

Definition set_size {S} `{OrderedSet S} (s : S) : nat := length (elems s).

(** ** Sorted lists *)

Fixpoint slist_insert (e : elt) (l : list elt) : list elt :=
  match l with
  | [] => [e]
  | x :: l => if decide (elt_lt e x) then e :: x :: l
              else if decide (e = x) then x :: l else x :: slist_insert e l
  end.

Definition slist_first (P : elt → Prop) `{!∀ x, Decision (P x)} (l : list elt) : option elt :=
  head (filter P l).

Record slist := SList { slist_elems : list elt; slist_sorted : StronglySorted elt_lt slist_elems }.

Lemma slist_insert_elem e l x : x ∈ slist_insert e l ↔ x = e ∨ x ∈ l.
Proof.
  induction l as [|y l IH]; simpl; [set_solver|].
  case_decide; [set_solver|]. case_decide; [set_solver|]. rewrite elem_of_cons, IH. set_solver.
Qed.

Lemma slist_insert_sorted e l : StronglySorted elt_lt l → StronglySorted elt_lt (slist_insert e l).
Proof.
  induction 1 as [|y l Hl IH Hy]; simpl; [repeat constructor|].
  case_decide as H1.
  { constructor; [by constructor|]. constructor; [done|]. eapply Forall_impl; [done|].
    intros z Hz. by etrans. }
  case_decide as H2; [by constructor|]. constructor; [done|].
  apply Forall_forall. intros z [->|Hz]%slist_insert_elem; [|by apply (proj1 (Forall_forall _ _) Hy)].
  destruct (elt_trichotomy e y) as [|[|]]; done.
Qed.

Lemma slist_filter_sorted (P : elt → Prop) `{!∀ x, Decision (P x)} l :
  StronglySorted elt_lt l → StronglySorted elt_lt (filter P l).
Proof.
  induction 1 as [|y l Hl IH Hy]; [constructor|]. rewrite filter_cons. case_decide; [|done].
  constructor; [done|]. by apply Forall_filter.
Qed.

Definition slist_set_insert (e : elt) (s : slist) : slist * bool :=
  (SList (slist_insert e (slist_elems s)) (slist_insert_sorted e _ (slist_sorted s)),
   bool_decide (e ∉ slist_elems s)).
Definition slist_set_erase (e : elt) (s : slist) : slist * bool :=
  (SList (filter (λ x, x ≠ e) (slist_elems s)) (slist_filter_sorted _ _ (slist_sorted s)),
   bool_decide (e ∈ slist_elems s)).
Definition slist_prev (it : option elt) (s : slist) : option elt :=
  match it with
  | Some e => last (filter (λ x, elt_lt x e) (slist_elems s))
  | None => last (slist_elems s)
  end.

#[export] Instance slist_ordered_set : OrderedSet slist := {
  elems := slist_elems;
  set_empty := SList [] (SSorted_nil _);
  set_insert := slist_set_insert;
  set_erase := slist_set_erase;
  set_lower_bound := λ e s, slist_first (λ x, ¬ elt_lt x e) (slist_elems s);
  set_next := λ e s, slist_first (λ x, elt_lt e x) (slist_elems s);
  set_prev := slist_prev
}.

Lemma sorted_head_min (P : elt → Prop) `{!∀ x, Decision (P x)} l x :
  StronglySorted elt_lt l → slist_first P l = Some x →
  x ∈ l ∧ P x ∧ ∀ y, y ∈ l → P y → ¬ elt_lt y x.
Proof.
  intros Hl Hx. unfold slist_first in Hx. apply (slist_filter_sorted P) in Hl.
  assert (∀ y, y ∈ filter P l ↔ P y ∧ y ∈ l) as Hf by (intros y; apply list_elem_of_filter).
  destruct (filter P l) as [|z l'] eqn:E; [done|]. injection Hx as ->.
  destruct (proj1 (Hf x) ltac:(set_solver)) as [HP Hin]. split_and!; [done|done|].
  intros y Hy HPy Hlt. apply StronglySorted_inv in Hl as [_ Hl].
  pose proof (proj2 (Hf y) (conj HPy Hy)) as [->|Hy']%elem_of_cons; [by eapply elt_lt_irrefl|].
  apply (elt_lt_irrefl y). etrans; [done|]. by apply (proj1 (Forall_forall _ _) Hl).
Qed.

Lemma sorted_head_none (P : elt → Prop) `{!∀ x, Decision (P x)} l :
  slist_first P l = None → ∀ y, y ∈ l → ¬ P y.
Proof.
  unfold slist_first. intros E y Hy HP.
  assert (y ∈ filter P l) as Hin by (by apply list_elem_of_filter).
  destruct (filter P l); [by apply elem_of_nil in Hin|done].
Qed.

Lemma sorted_last_max l x :
  StronglySorted elt_lt l → last l = Some x → x ∈ l ∧ ∀ y, y ∈ l → ¬ elt_lt x y.
Proof.
  intros Hl Hx. apply last_Some in Hx as [l' ->]. split; [set_solver|].
  intros y [Hy|Hy%list_elem_of_singleton]%elem_of_app Hlt; [|subst; by eapply elt_lt_irrefl].
  apply (elt_lt_irrefl y). etrans; [|exact Hlt].
  eapply (StronglySorted_app_1_elem_of elt_lt l' [x]); [done|done|set_solver].
Qed.

#[export] Instance slist_laws : OrderedSetLaws slist.
Proof.
  split.
  - by intros [l Hl].
  - done.
  - intros e [l Hl] x. apply slist_insert_elem.
  - done.
  - intros e [l Hl] x. exact (list_elem_of_filter (λ y, y ≠ e) l x).
  - done.
  - intros e [l Hl] x Hx. by apply (sorted_head_min _ _ _ Hl) in Hx.
  - intros e [l Hl] Hx y Hy. pose proof (sorted_head_none _ _ Hx y Hy) as Hn.
    destruct (decide (elt_lt y e)); [done|]. by destruct Hn.
  - intros e [l Hl] x Hx. by apply (sorted_head_min _ _ _ Hl) in Hx.
  - intros e [l Hl] Hx. exact (sorted_head_none _ _ Hx).
  - intros it [l Hl] x Hx. destruct it as [e|]; simpl in Hx.
    + apply sorted_last_max in Hx as [[Hlt Hin]%list_elem_of_filter Hmax]; [|by apply slist_filter_sorted].
      split_and!; [done|by intros ? [= <-]|]. intros y Hy Hye. apply Hmax.
      apply list_elem_of_filter. auto.
    + apply sorted_last_max in Hx as [Hin Hmax]; [|done]. split_and!; [done|done|]. auto.
  - intros it [l Hl] Hx y Hy. destruct it as [e|]; simpl in Hx.
    + exists e. split; [done|]. intros Hlt. apply last_None in Hx.
      assert (y ∈ filter (λ x, elt_lt x e) l) as Hin by (by apply list_elem_of_filter).
      rewrite Hx in Hin. by apply elem_of_nil in Hin.
    + apply last_None in Hx. simpl in *. rewrite Hx in Hy. by apply elem_of_nil in Hy.
Qed.
