(* ===== verification/ContigAlloc.v ===== *)
(** * kernel/lib/contig_alloc.cc: the linear address allocator

    The free ranges are kept twice, as (size, address) and as (address,
    size).  The two sets are any [OrderedSet]; [contig] is the object's
    state, and a failed kernel assertion halts. *)

From stdpp Require Import base tactics list numbers option sets.
From S2P Require Import Prelude OrderedSet.

#[local] Open Scope Z_scope.

Definition PAGE_SIZE : Z := 4096.
Definition PAGE_MASK : Z := 4095.

Record contig (T : Type) := Contig {
  free_addr_by_size : T;
  free_addr_by_addr : T;
  linear_base : Z;       (* *linear_base_ptr *)
  ready : bool
}.
Arguments Contig {T}.
Arguments free_addr_by_size {T}.
Arguments free_addr_by_addr {T}.
Arguments linear_base {T}.
Arguments ready {T}.

Section ops.
Context {T : Type} `{OrderedSet T}.
Abbreviation CA := (M (contig T)).

Definition kassert (b : bool) : CA unit := if b then mret tt else throw AssertFailed.

Definition swap (e : elt) : elt := (e.2, e.1).

(** The operations on one of the two sets, with what they report *)
Definition size_insert (e : elt) : CA bool := λ s,
  let '(t, b) := set_insert e (free_addr_by_size s) in
  Done (b, Contig t (free_addr_by_addr s) (linear_base s) (ready s)).
Definition size_erase (e : elt) : CA bool := λ s,
  let '(t, b) := set_erase e (free_addr_by_size s) in
  Done (b, Contig t (free_addr_by_addr s) (linear_base s) (ready s)).
Definition addr_insert (e : elt) : CA bool := λ s,
  let '(t, b) := set_insert e (free_addr_by_addr s) in
  Done (b, Contig (free_addr_by_size s) t (linear_base s) (ready s)).
Definition addr_erase (e : elt) : CA bool := λ s,
  let '(t, b) := set_erase e (free_addr_by_addr s) in
  Done (b, Contig (free_addr_by_size s) t (linear_base s) (ready s)).

(** validate_locked: false is validation_failed, which only reports *)
Definition no_overlap (l : list elt) : bool :=
  match l with
  | [] => true
  | p :: l =>
      (fix go (p : elt) (l : list elt) :=
         match l with
         | [] => true
         | x :: l => negb (x.1 <? u64 (p.1 + p.2)) && go x l
         end) p l
  end.

Definition validate_locked : CA bool := gets (λ s,
  forallb (λ e, bool_decide (swap e ∈ elems (free_addr_by_size s))) (elems (free_addr_by_addr s)) &&
  forallb (λ e, bool_decide (swap e ∈ elems (free_addr_by_addr s))) (elems (free_addr_by_size s)) &&
  no_overlap (elems (free_addr_by_addr s))).

Definition contig_init (addr size : Z) : CA unit :=
  (if negb (size =? 0) then size_insert (size, addr);; addr_insert (addr, size);; mret tt
   else mret tt);;
  modify (λ s, Contig (free_addr_by_size s) (free_addr_by_addr s) (linear_base s) true).

(** early_init: inserting allocates nodes, which may take early address
    space and move the base.  [bump i] is by how much attempt [i] moved it. *)
Fixpoint early_init_loop (fuel : nat) (bump : nat → Z) (i : nat) (size : Z) : CA Z :=
  match fuel with
  | O => throw OutOfFuel
  | S fuel =>
      prev_base ← gets linear_base;
      let aligned_base := Z.land (u64 (prev_base + PAGE_SIZE - 1)) (u64 (- PAGE_SIZE)) in
      size_insert (size, aligned_base);;
      addr_insert (aligned_base, size);;
      modify (λ s, Contig (free_addr_by_size s) (free_addr_by_addr s)
                     (u64 (linear_base s + bump i)) (ready s));;
      base ← gets linear_base;
      if base =? prev_base then mret aligned_base
      else
        size_erase (size, aligned_base);;
        addr_erase (aligned_base, size);;
        early_init_loop fuel bump (i + 1)%nat size
  end.

Definition early_init (fuel : nat) (bump : nat → Z) (size : Z) : CA Z :=
  r ← early_init_loop fuel bump 0 size;
  modify (λ s, Contig (free_addr_by_size s) (free_addr_by_addr s) (linear_base s) true);;
  mret r.

Definition alloc_linear (size : Z) : CA Z :=
  kassert (Z.land size PAGE_MASK =? 0);;
  rdy ← gets ready;
  if (rdy : bool) then
    validate_locked;;
    place ← gets (λ s, set_lower_bound (size, 0) (free_addr_by_size s));
    match place with
    | None => mret 0
    | Some by_size =>
        kassert (size <=? by_size.1);;
        node_by_size ← size_erase by_size;
        node_by_addr ← addr_erase (swap by_size);
        kassert node_by_size;;
        kassert node_by_addr;;
        (if size <? by_size.1 then
           let rest := (u64 (by_size.1 - size), u64 (by_size.2 + size)) in
           chk ← size_insert rest;
           kassert chk;;
           chk ← addr_insert (swap rest);
           kassert chk
         else mret tt);;
        validate_locked;;
        mret by_size.2
    end
  else
    addr ← gets linear_base;
    modify (λ s, Contig (free_addr_by_size s) (free_addr_by_addr s)
                   (u64 (linear_base s + size)) (ready s));;
    kassert (Z.land addr PAGE_MASK =? 0);;
    mret addr.

(** Replace the free range [item] by what is left of it on both sides of
    [addr, end): the body shared by the two parts of take_linear.  The node
    taken out is used again for the first part that is not empty. *)
Definition carve_item (item : elt) (addr end_ : Z) : CA elt :=
  let item_end := u64 (item.1 + item.2) in
  let before := (item.1, if item.1 <? addr then u64 (addr - item.1) else 0) in
  let after := (end_, if end_ <? item_end then u64 (item_end - end_) else 0) in
  item_by_addr ← addr_erase item;
  item_by_size ← size_erase (swap item);
  kassert item_by_addr;;
  kassert item_by_size;;
  (if negb (before.2 =? 0) then
     chk ← addr_insert before; kassert chk;;
     chk ← size_insert (swap before); kassert chk
   else mret tt);;
  (if negb (after.2 =? 0) then
     chk ← addr_insert after; kassert chk;;
     chk ← size_insert (swap after); kassert chk
   else mret tt);;
  mret after.

(** The loop of take_linear over the ranges from [lo_it].  The iterator is
    never advanced: it stays on the node that was taken out, which holds
    [after] if that went back into the set.  Otherwise the next round works
    on a node that is in no set.  ([lo_it] starts at or after [addr], so
    nothing is left before it.) *)
Fixpoint take_loop (fuel : nat) (lo_it hi_it : option elt) (addr end_ : Z) : CA unit :=
  match fuel with
  | O => throw OutOfFuel
  | S fuel =>
      match lo_it with
      | None => mret tt
      | Some item =>
          if bool_decide (lo_it = hi_it) then mret tt
          else if end_ <=? item.1 then mret tt
          else
            after ← carve_item item addr end_;
            if after.2 =? 0 then throw OutOfRange
            else take_loop fuel (Some after) hi_it addr end_
      end
  end.

Definition take_linear (addr size : Z) (require_free : bool) : CA bool :=
  kassert (0 <? size);;
  s ← gets id;
  kassert (bool_decide (set_size (free_addr_by_addr s) = set_size (free_addr_by_size s)));;
  kassert (negb (bool_decide (elems (free_addr_by_addr s) = [])));;
  let end_ := u64 (addr + size) in
  let lo_it := set_lower_bound (addr, 0) (free_addr_by_addr s) in
  let hi_it := match lo_it with
               | Some _ => set_lower_bound (end_, 0) (free_addr_by_addr s)
               | None => None
               end in
  let pred_it := set_prev lo_it (free_addr_by_addr s) in
  let pred := default (0, 0) pred_it in
  let item := default (0, 0) lo_it in
  let item_end := u64 (item.1 + item.2) in
  let pred_end := u64 (pred.1 + pred.2) in
  if require_free &&
     ((item.1 <=? addr) && (addr <? item_end) && (u64 (end_ - item.1) <? size) ||
      (pred.1 <=? addr) && (addr <? pred_end) && (u64 (end_ - pred.1) <? size))
  then mret false
  else
    (if negb (pred.2 =? 0) && (addr <? pred_end) then carve_item pred addr end_;; mret tt
     else mret tt);;
    take_loop 2 lo_it hi_it addr end_;;
    s ← gets id;
    kassert (bool_decide (set_size (free_addr_by_addr s) = set_size (free_addr_by_size s)));;
    mret true.

(** release_linear.  [node] is the value of the node that was inserted and
    has been taken out again. *)
Definition extract_inserted (range : elt) (node : option elt) : CA unit :=
  match node with
  | Some _ => mret tt
  | None =>
      a ← addr_erase range; kassert a;;
      b ← size_erase (swap range); kassert b
  end.

Fixpoint release_succ (fuel : nat) (range : elt) (node succ_it : option elt)
    (addr size end_ : Z) : CA (option elt * option elt * Z) :=
  match fuel with
  | O => throw OutOfFuel
  | S fuel =>
      match succ_it with
      | None => mret (node, None, size)
      | Some succ =>
          let succ_end := u64 (succ.1 + succ.2) in
          if end_ <? succ.1 then mret (node, succ_it, size)
          else
            next ← gets (λ s, set_next succ (free_addr_by_addr s));
            addr_erase succ;;
            n ← size_erase (swap succ);
            kassert n;;
            extract_inserted range node;;
            let size := u64 (succ_end - addr) in
            release_succ fuel range (Some (addr, size)) next addr size end_
      end
  end.

Definition release_linear (addr size : Z) : CA unit :=
  validate_locked;;
  s ← gets id;
  kassert (bool_decide (set_size (free_addr_by_addr s) = set_size (free_addr_by_size s)));;
  let range := (addr, size) in
  let end0 := u64 (addr + size) in
  ins ← addr_insert range;
  if negb (ins : bool) then mret tt
  else
    ins_size ← size_insert (swap range);
    kassert ins_size;;
    succ_it ← gets (λ s, set_next range (free_addr_by_addr s));
    pred_it ← gets (λ s, set_prev (Some range) (free_addr_by_addr s));
    '(addr, size, end_, node) ←
      match pred_it with
      | Some pred =>
          let pred_end := u64 (pred.1 + pred.2) in
          if (pred.1 <=? addr) && (addr <=? pred_end) then
            let end_ := if end0 <? pred_end then pred_end else end0 in
            addr_erase pred;;
            n ← size_erase (swap pred);
            kassert n;;
            extract_inserted range None;;
            let size := u64 (end_ - pred.1) in
            mret (pred.1, size, end_, Some (pred.1, size))
          else mret (addr, size, end0, None)
      | None => mret (addr, size, end0, None)
      end;
    n ← gets (λ s, set_size (free_addr_by_addr s));
    '(node, succ_it, size) ← release_succ (Nat.add 2 n) range node succ_it addr size end_;
    '(node, size) ←
      (if bool_decide (succ_it = None) && (u64 (addr + size) <? end_) then
         extract_inserted range node;;
         mret (Some (addr, u64 (end_ - addr)), u64 (end_ - addr))
       else mret (node, size));
    kassert (bool_decide ((addr, size) = default range node));;
    match node with
    | Some v =>
        chk ← addr_insert v; kassert chk;;
        chk ← size_insert (swap v); kassert chk
    | None => mret tt
    end;;
    s ← gets id;
    kassert (bool_decide (set_size (free_addr_by_addr s) = set_size (free_addr_by_size s)));;
    validate_locked;;
    mret tt.

End ops.
