(* ===== verification/ContigAllocThms.v ===== *)
(** * The linear address allocator keeps a set of disjoint free ranges

    [holds s P] says that the two sets of [s] both describe the ranges [P];
    [ca_inv] that these are non-empty, disjoint and not even adjacent.  The
    theorems relate the operations to the set [free_at] of free addresses,
    for any ordered set that satisfies the laws. *)

From stdpp Require Import base tactics list numbers option sets.
From S2P Require Import Prelude OrderedSet ContigAlloc.

#[local] Open Scope Z_scope.

Section thms.
Context {T : Type} `{OrderedSetLaws T}.
Implicit Types (s : contig T) (P : elt → Prop).

(** Both sets describe the ranges [P]. *)
Definition holds s P : Prop :=
  (∀ x, x ∈ elems (free_addr_by_addr s) ↔ P x) ∧
  (∀ x, x ∈ elems (free_addr_by_size s) ↔ P (swap x)).

(** Non-empty ranges of the address space with a gap between any two *)
Definition apart P : Prop :=
  (∀ e, P e → 0 ≤ e.1 ∧ 0 < e.2 ∧ e.1 + e.2 < 2 ^ 64) ∧
  (∀ e f, P e → P f → elt_lt e f → e.1 + e.2 < f.1).

Definition ca_inv s : Prop := ∃ P, holds s P ∧ apart P.

Definition in_range (e : elt) (x : Z) : Prop := e.1 ≤ x < e.1 + e.2.
Definition free_at s (x : Z) : Prop :=
  ∃ e, e ∈ elems (free_addr_by_addr s) ∧ in_range e x.

(** The rest of the state *)
Definition same_rest s s' : Prop := linear_base s' = linear_base s ∧ ready s' = ready s.

#[local] Instance same_rest_preorder : PreOrder same_rest.
Proof. split; [done|]. intros s1 s2 s3 [] []. split; congruence. Qed.

Lemma swap_swap e : swap (swap e) = e.
Proof. by destruct e. Qed.
Lemma swap_eq e f : swap e = f ↔ e = swap f.
Proof. split; [intros <-|intros ->]; by rewrite swap_swap. Qed.

(** ** The sets as one *)

Lemma holds_ext s P Q : holds s P → (∀ x, P x ↔ Q x) → holds s Q.
Proof. intros [H1 H2] HPQ. split; intros x; [rewrite H1|rewrite H2]; apply HPQ. Qed.

Lemma holds_size s P : holds s P → set_size (free_addr_by_addr s) = set_size (free_addr_by_size s).
Proof.
  intros [H1 H2]. unfold set_size. rewrite <- (length_fmap swap (elems (free_addr_by_addr s))).
  apply Permutation_length, NoDup_Permutation; [|apply law_nodup|].
  - apply NoDup_fmap_2; [|apply law_nodup]. intros x y Hxy. by rewrite <- (swap_swap x), Hxy, swap_swap.
  - intros x. rewrite list_elem_of_fmap, H2. split.
    + intros (y & -> & Hy). rewrite swap_swap. by apply H1.
    + intros HP. exists (swap x). rewrite swap_swap. split; [done|]. by apply H1.
Qed.

(** The primitive steps, without the pattern on the pair *)
Lemma addr_insert_eq e s :
  addr_insert e s = Done ((set_insert e (free_addr_by_addr s)).2,
    Contig (free_addr_by_size s) (set_insert e (free_addr_by_addr s)).1 (linear_base s) (ready s)).
Proof. unfold addr_insert. by destruct (set_insert e _). Qed.
Lemma size_insert_eq e s :
  size_insert e s = Done ((set_insert e (free_addr_by_size s)).2,
    Contig (set_insert e (free_addr_by_size s)).1 (free_addr_by_addr s) (linear_base s) (ready s)).
Proof. unfold size_insert. by destruct (set_insert e _). Qed.
Lemma addr_erase_eq e s :
  addr_erase e s = Done ((set_erase e (free_addr_by_addr s)).2,
    Contig (free_addr_by_size s) (set_erase e (free_addr_by_addr s)).1 (linear_base s) (ready s)).
Proof. unfold addr_erase. by destruct (set_erase e _). Qed.
Lemma size_erase_eq e s :
  size_erase e s = Done ((set_erase e (free_addr_by_size s)).2,
    Contig (set_erase e (free_addr_by_size s)).1 (free_addr_by_addr s) (linear_base s) (ready s)).
Proof. unfold size_erase. by destruct (set_erase e _). Qed.

(** Run the two steps and compare the memberships. *)
Ltac both_sets H1 H2 :=
  eexists _, _;
  rewrite ?addr_insert_eq, ?size_insert_eq, ?addr_erase_eq, ?size_erase_eq,
    ?law_insert_new, ?law_erase_found;
  split; [rewrite bool_decide_eq_true_2 by (by rewrite ?H1, ?H2, ?swap_swap); reflexivity|];
  rewrite ?addr_insert_eq, ?size_insert_eq, ?addr_erase_eq, ?size_erase_eq;
  cbn [free_addr_by_size free_addr_by_addr linear_base ready];
  rewrite ?law_insert_new, ?law_erase_found;
  split; [rewrite bool_decide_eq_true_2 by (by rewrite ?H1, ?H2, ?swap_swap); reflexivity|];
  split; [|done]; split; intros x; cbn [free_addr_by_size free_addr_by_addr];
  rewrite ?law_insert, ?law_erase, ?H1, ?H2, <- ?(swap_eq x); done.

(** Inserting a range in both sets, in either order, and taking one out *)
Lemma insert_both s P e :
  holds s P → ¬ P e →
  ∃ s1 s2, addr_insert e s = Done (true, s1) ∧ size_insert (swap e) s1 = Done (true, s2) ∧
    holds s2 (λ x, x = e ∨ P x) ∧ same_rest s s2.
Proof. intros [H1 H2] He. both_sets H1 H2. Qed.

Lemma insert_both_by_size s P e :
  holds s P → ¬ P e →
  ∃ s1 s2, size_insert (swap e) s = Done (true, s1) ∧ addr_insert e s1 = Done (true, s2) ∧
    holds s2 (λ x, x = e ∨ P x) ∧ same_rest s s2.
Proof. intros [H1 H2] He. both_sets H1 H2. Qed.

Lemma erase_both s P e :
  holds s P → P e →
  ∃ s1 s2, addr_erase e s = Done (true, s1) ∧ size_erase (swap e) s1 = Done (true, s2) ∧
    holds s2 (λ x, x ≠ e ∧ P x) ∧ same_rest s s2.
Proof. intros [H1 H2] He. both_sets H1 H2. Qed.

Lemma erase_both_by_size s P e :
  holds s P → P e →
  ∃ s1 s2, size_erase (swap e) s = Done (true, s1) ∧ addr_erase e s1 = Done (true, s2) ∧
    holds s2 (λ x, x ≠ e ∧ P x) ∧ same_rest s s2.
Proof. intros [H1 H2] He. both_sets H1 H2. Qed.

(** ** Disjoint ranges *)

(** Two ranges of an [apart] set are the same or do not meet. *)
Lemma apart_disjoint P e f :
  apart P → P e → P f → e = f ∨ e.1 + e.2 < f.1 ∨ f.1 + f.2 < e.1.
Proof.
  intros [_ Ha] He Hf. destruct (elt_trichotomy e f) as [|[|]]; eauto.
Qed.

(** Taking a range out of [P] and putting pieces of it back *)
Lemma apart_replace P e (ps : list elt) :
  apart P → P e →
  (∀ p, p ∈ ps → e.1 ≤ p.1 ∧ 0 < p.2 ∧ p.1 + p.2 ≤ e.1 + e.2) →
  (∀ p q, p ∈ ps → q ∈ ps → elt_lt p q → p.1 + p.2 < q.1) →
  apart (λ x, x ∈ ps ∨ x ≠ e ∧ P x).
Proof.
  intros Hap He Hps Hpp. pose proof Hap as [Hok Hlt]. destruct (Hok e He) as (?&?&?). split.
  - intros x [Hx|[_ Hx]]; [|by apply Hok]. pose proof (Hps x Hx). lia.
  - intros x y [Hx|[Hxe Hx]] [Hy|[Hye Hy]] Hxy; [by apply Hpp| | |by apply Hlt].
    + destruct (Hps x Hx) as (?&?&?). destruct (Hok y Hy) as (?&?&?).
      destruct (apart_disjoint P e y Hap He Hy) as [->|[|]]; [done|lia|].
      unfold elt_lt in Hxy. lia.
    + destruct (Hps y Hy) as (?&?&?). destruct (Hok x Hx) as (?&?&?).
      destruct (apart_disjoint P e x Hap He Hx) as [->|[|]]; [done| |lia].
      unfold elt_lt in Hxy. lia.
Qed.

Lemma free_at_holds s P x : holds s P → free_at s x ↔ ∃ e, P e ∧ in_range e x.
Proof. intros [H1 _]. unfold free_at. by setoid_rewrite H1. Qed.

(** The addresses that are free after such a replacement *)
Lemma free_replace s s' P e (ps : list elt) x :
  holds s P → apart P → P e → holds s' (λ x, x ∈ ps ∨ x ≠ e ∧ P x) →
  free_at s' x ↔ (∃ p, p ∈ ps ∧ in_range p x) ∨ free_at s x ∧ ¬ in_range e x.
Proof.
  intros Hs Hap He Hs'. rewrite (free_at_holds _ _ _ Hs), (free_at_holds _ _ _ Hs'). split.
  - intros (f & [Hf|[Hne Hf]] & Hx); [eauto|]. right. split; [eauto|].
    unfold in_range in *. destruct (apart_disjoint P e f Hap He Hf) as [->|[|]]; [done|lia|lia].
  - intros [(p & Hp & Hx)|[(f & Hf & Hx) Hn]]; [eauto|]. exists f. split; [|done].
    right. split; [by intros ->|done].
Qed.

Lemma validate_done s : ∃ b, validate_locked s = Done (b, s).
Proof. by eexists. Qed.

Lemma kassert_true s : kassert true s = Done (tt, s).
Proof. done. Qed.

(** ** alloc_linear *)

(** Taking the head of a free range: what is left goes back, if anything. *)
Lemma alloc_rest s P e n :
  holds s P → apart P → P e → 0 ≤ n ≤ e.2 →
  ∃ s1 s2 s',
    size_erase (swap e) s = Done (true, s1) ∧ addr_erase e s1 = Done (true, s2) ∧
    (if n <? e.2 then
       chk ← size_insert (u64 (e.2 - n), u64 (e.1 + n)); kassert chk;;
       chk ← addr_insert (swap (u64 (e.2 - n), u64 (e.1 + n))); kassert chk
     else mret tt) s2 = Done (tt, s') ∧
    ca_inv s' ∧ same_rest s s' ∧
    ∀ x, free_at s' x ↔ free_at s x ∧ ¬ in_range (e.1, n) x.
Proof.
  intros Hs Hap He Hn. pose proof (proj1 Hap e He) as (?&?&?).
  destruct (erase_both_by_size s P e Hs He) as (s1 & s2 & E1 & E2 & Hs2 & Hr2).
  destruct (Z.ltb_spec n e.2) as [Hlt|Hge].
  - set (rest := (e.1 + n, e.2 - n)).
    assert (¬ (rest ≠ e ∧ P rest)) as Hnew.
    { intros [Hne Hp]. destruct (apart_disjoint P e rest Hap He Hp) as [|[|]]; [done|simpl in *; lia..]. }
    destruct (insert_both_by_size s2 _ rest Hs2 Hnew) as (s3 & s4 & E3 & E4 & Hs4 & Hr4).
    unwrap. change (e.2 - n, e.1 + n) with (swap rest).
    exists s1, s2, s4. split_and!; [done|done| | | |].
    + rewrite (bind_done _ _ _ _ _ E3), (bind_done _ _ _ _ _ (kassert_true _)).
      rewrite swap_swap. rewrite (bind_done _ _ _ _ _ E4). done.
    + eexists. split; [exact Hs4|].
      pose proof (apart_replace P e [rest] Hap He) as Hrep.
      assert (apart (λ x, x ∈ [rest] ∨ x ≠ e ∧ P x)) as Hap'.
      { apply Hrep; [intros p ->%list_elem_of_singleton; simpl; lia|].
        intros p q ->%list_elem_of_singleton ->%list_elem_of_singleton ?%elt_lt_irrefl. done. }
      destruct Hap' as [Hok Hl]. split; [intros x Hx; apply Hok|intros x y Hx Hy; apply Hl];
        by rewrite list_elem_of_singleton.
    + by etrans.
    + intros x. rewrite (free_replace s s4 P e [rest] x Hs Hap He).
      * rewrite (free_at_holds _ _ _ Hs). split.
        -- intros [(p & ->%list_elem_of_singleton & Hx)|[(f & Hf & Hx) Hn']].
           ++ unfold in_range in *. simpl in *. split; [|lia]. exists e. split; [done|]. lia.
           ++ split; [eauto|]. unfold in_range in *. simpl. lia.
        -- intros [(f & Hf & Hx) Hn']. destruct (decide (f = e)) as [->|Hne].
           ++ left. exists rest. split; [set_solver|]. unfold in_range in *. simpl in *. lia.
           ++ right. split; [eauto|]. unfold in_range in *.
              destruct (apart_disjoint P e f Hap He Hf) as [|[|]]; [done|lia..].
      * eapply holds_ext; [exact Hs4|]. intros y. by rewrite list_elem_of_singleton.
  - assert (n = e.2) as -> by lia. exists s1, s2, s2. split_and!; try done.
    + exists (λ x, x ≠ e ∧ P x). split; [done|]. destruct Hap as [Hok Hl].
      split; [intros x []; auto|intros x y [] []; auto].
    + intros x. rewrite (free_replace s s2 P e [] x Hs Hap He).
      * change (in_range (e.1, e.2) x) with (in_range e x).
        split; [by intros [(p & ?%elem_of_nil & _)|?]|auto].
      * eapply holds_ext; [exact Hs2|]. intros y. set_solver.
Qed.

(** Alloc_linear gives out the head of the smallest range that is large
    enough, the lowest of these, or 0 when there is none. *)
Theorem alloc_linear_best_fit s n :
  ca_inv s → ready s = true → 0 ≤ n → Z.land n PAGE_MASK = 0 →
  ∃ a s', alloc_linear n s = Done (a, s') ∧ ca_inv s' ∧ same_rest s s' ∧
    ((a = 0 ∧ s' = s ∧ ∀ e, e ∈ elems (free_addr_by_addr s) → e.2 < n) ∨
     (∃ m, (a, m) ∈ elems (free_addr_by_addr s) ∧ n ≤ m ∧
       (∀ e, e ∈ elems (free_addr_by_addr s) → n ≤ e.2 → m < e.2 ∨ m = e.2 ∧ a ≤ e.1) ∧
       ∀ x, free_at s' x ↔ free_at s x ∧ ¬ in_range (a, n) x)).
Proof.
  intros (P & Hs & Hap) Hrdy Hn Hal. pose proof Hs as [H1 H2].
  assert (∀ e, P e → swap e ∈ elems (free_addr_by_size s)) as Hsw.
  { intros e He. by rewrite H2, swap_swap. }
  unfold alloc_linear. rewrite Hal, Z.eqb_refl, (bind_done _ _ _ _ _ (kassert_true s)).
  rewrite (bind_done _ _ s _ s eq_refl), Hrdy, (bind_done _ _ s _ s eq_refl), (bind_done _ _ s _ s eq_refl).
  destruct (set_lower_bound (n, 0) (free_addr_by_size s)) as [x|] eqn:Elb.
  - apply law_lower_bound_some in Elb as (Hx & Hge & Hmin).
    assert (∃ e, x = swap e) as [e ->] by (exists (swap x); by rewrite swap_swap).
    assert (P e) as He by (by rewrite <- (swap_swap e), <- H2).
    pose proof (proj1 Hap e He) as (?&?&?).
    assert (n ≤ e.2) as Hle by (unfold elt_lt in Hge; simpl in Hge; lia).
    cbn [swap fst snd]. fold (swap e). rewrite (proj2 (Z.leb_le _ _)) by lia.
    rewrite (bind_done _ _ _ _ _ (kassert_true s)).
    destruct (alloc_rest s P e n Hs Hap He ltac:(lia)) as (s1 & s2 & s' & E1 & E2 & E3 & Hi & Hr & Hf).
    rewrite (bind_done _ _ _ _ _ E1), swap_swap, (bind_done _ _ _ _ _ E2).
    rewrite !(bind_done _ _ _ _ _ (kassert_true s2)), (bind_done _ _ _ _ _ E3).
    rewrite (bind_done _ _ s' _ s' eq_refl).
    exists e.1, s'. split_and!; try done. right. exists e.2. split_and!; [rewrite H1; by destruct e|done| |done].
    intros f Hf' Hnf. apply H1 in Hf'. pose proof (proj1 Hap f Hf') as (?&?&?).
    pose proof (Hmin (swap f) (Hsw f Hf')) as Hm. unfold elt_lt in Hm. simpl in Hm. lia.
  - exists 0, s. split_and!; try done; [by exists P|]. left. split_and!; try done.
    intros e He%H1. pose proof (law_lower_bound_none _ _ Elb _ (Hsw e He)) as Hlt.
    pose proof (proj1 Hap e He). unfold elt_lt in Hlt. simpl in Hlt. lia.
Qed.

(** ** release_linear *)

Section release.
Context (P : elt → Prop) (a n : Z).
Context (Hap : apart P) (Ha : 0 ≤ a) (Hn : 0 < n) (Hend : a + n < 2 ^ 64)
  (Hdis : ∀ e, P e → e.1 + e.2 ≤ a ∨ a + n ≤ e.1).
#[local] Abbreviation r := (a, n).

(** The range [c] has grown over [r] and the neighbours that were taken out;
    the ranges [Q] are left. *)
Record grown (c : elt) (Q : elt → Prop) : Prop := {
  grown_sub : ∀ e, Q e → P e;
  grown_free : ∀ x, (∃ e, P e ∧ in_range e x) ∨ in_range r x ↔
                    (∃ e, Q e ∧ in_range e x) ∨ in_range c x;
  grown_lo : 0 ≤ c.1 ≤ a;
  grown_hi : a + n ≤ c.1 + c.2 < 2 ^ 64;
  grown_left : ∀ e, Q e → e.1 + e.2 < c.1 ∨ a + n ≤ e.1
}.

(** Where the inserted range is: still in the sets, or in hand as a node *)
Definition placed s (node : option elt) (c : elt) (Q : elt → Prop) : Prop :=
  match node with
  | Some v => v = c ∧ holds s Q
  | None => c = r ∧ holds s (λ x, x = r ∨ Q x)
  end.

Lemma not_P_r : ¬ P r.
Proof. intros Hr. apply Hdis in Hr. simpl in Hr. lia. Qed.

Lemma extract_inserted_spec s node c Q :
  placed s node c Q → (∀ e, Q e → P e) →
  ∃ s', extract_inserted r node s = Done (tt, s') ∧ holds s' Q ∧ same_rest s s'.
Proof.
  intros Hp Hsub. destruct node as [v|]; [by exists s; destruct Hp|]. destruct Hp as [_ Hs].
  destruct (erase_both s _ r Hs (or_introl eq_refl)) as (s1 & s2 & E1 & E2 & Hs2 & Hr).
  exists s2. unfold extract_inserted.
  rewrite (bind_done _ _ _ _ _ E1), (bind_done _ _ _ _ _ (kassert_true _)), (bind_done _ _ _ _ _ E2).
  split_and!; try done. eapply holds_ext; [exact Hs2|]. intros x. split; [naive_solver|].
  intros Hx. split; [|by right]. intros ->. by apply not_P_r, Hsub.
Qed.

Lemma grown_self : (∀ e, P e → e.1 + e.2 < a ∨ a + n ≤ e.1) → grown r P.
Proof.
  intros Hl. split; simpl; try done; try lia.
Qed.

Lemma grown_pred p :
  P p → p.1 + p.2 = a → grown (p.1, a + n - p.1) (λ x, x ≠ p ∧ P x).
Proof.
  intros Hp Hpe. pose proof (proj1 Hap p Hp) as (?&?&?). split; simpl; try lia.
  - naive_solver.
  - intros x. unfold in_range. simpl. split.
    + intros [(e & He & Hx)|]; [|right; lia]. destruct (decide (e = p)) as [->|]; [right; lia|left; eauto].
    + intros [(e & [_ He] & Hx)|]; [left; eauto|]. destruct (decide (x < a)); [left; exists p; split; [done|lia]|right; lia].
  - intros e [Hne He]. destruct (apart_disjoint P p e Hap Hp He) as [|[|]]; [done| |lia].
    destruct (Hdis e He); [|lia]. pose proof (proj1 Hap e He). lia.
Qed.

Lemma grown_succ c Q f :
  grown c Q → c.1 + c.2 = a + n → Q f → f.1 = a + n →
  grown (c.1, f.1 + f.2 - c.1) (λ x, x ≠ f ∧ Q x).
Proof.
  intros [Hsub Hfr Hlo Hhi Hleft] Hc Hf Hfa. pose proof (proj1 Hap f (Hsub f Hf)) as (?&?&?).
  split; simpl; try lia.
  - intros e []. auto.
  - intros x. rewrite Hfr. unfold in_range. simpl. split.
    + intros [(e & He & Hx)|]; [|right; lia]. destruct (decide (e = f)) as [->|]; [right; lia|left; eauto].
    + intros [(e & [_ He] & Hx)|]; [left; eauto|].
      destruct (decide (x < a + n)); [right; lia|left; exists f; split; [done|lia]].
  - intros e [_ He]. by apply Hleft.
Qed.

(** The last step: the grown range goes into the sets. *)
Lemma release_put s node c Q :
  grown c Q → (∀ e, Q e → a + n ≤ e.1 → c.1 + c.2 < e.1) → placed s node c Q →
  ∃ s', (match node with
         | Some v =>
             chk ← addr_insert v; kassert chk;;
             chk ← size_insert (swap v); kassert chk
         | None => mret tt
         end) s = Done (tt, s') ∧ holds s' (λ x, x = c ∨ Q x) ∧ apart (λ x, x = c ∨ Q x) ∧ same_rest s s'.
Proof.
  intros [Hsub Hfr Hlo Hhi Hleft] Hright Hpl.
  assert (apart (λ x, x = c ∨ Q x)) as Hap'.
  { destruct Hap as [Hok Hlt]. split.
    - intros e [->|He]; [lia|auto].
    - intros e f [->|He] [->|Hf] Hef.
      + by apply elt_lt_irrefl in Hef.
      + pose proof (Hok f (Hsub f Hf)). destruct (Hleft f Hf); [unfold elt_lt in Hef; lia|auto].
      + pose proof (Hok e (Hsub e He)). destruct (Hleft e He) as [|Hr]; [lia|].
        pose proof (Hright e He Hr). unfold elt_lt in Hef. lia.
      + auto. }
  destruct node as [v|].
  - destruct Hpl as [-> Hs].
    assert (¬ Q c) as Hnc.
    { intros Hc. pose proof (proj1 Hap c (Hsub c Hc)). destruct (Hleft c Hc); lia. }
    destruct (insert_both s Q c Hs Hnc) as (s1 & s2 & E1 & E2 & Hs2 & Hr). exists s2.
    rewrite (bind_done _ _ _ _ _ E1), (bind_done _ _ _ _ _ (kassert_true _)), (bind_done _ _ _ _ _ E2).
    by split_and!.
  - destruct Hpl as [-> Hs]. exists s. by split_and!.
Qed.

(** The successor of [r] among the ranges [Q] *)
Definition succ_of (it : option elt) (Q : elt → Prop) : Prop :=
  match it with
  | Some f => Q f ∧ a + n ≤ f.1 ∧ ∀ e, Q e → a + n ≤ e.1 → f.1 ≤ e.1
  | None => ∀ e, Q e → ¬ a + n ≤ e.1
  end.

(** Coalescing with the successor takes at most one round. *)
Lemma release_succ_spec fuel s node it c Q :
  grown c Q → c.1 + c.2 = a + n → placed s node c Q → succ_of it Q →
  ∃ node' it' c' Q' s',
    release_succ (S (S fuel)) r node it c.1 c.2 (a + n) s = Done (node', it', c'.2, s') ∧
    grown c' Q' ∧ placed s' node' c' Q' ∧ c'.1 = c.1 ∧ same_rest s s' ∧
    ∀ e, Q' e → a + n ≤ e.1 → c'.1 + c'.2 < e.1.
Proof.
  intros Hg Hc Hpl Hit. cbn [release_succ]. destruct it as [f|].
  2: { exists node, None, c, Q, s. split_and!; try done. intros e He Hle. by destruct (Hit e He). }
  destruct Hit as (Hf & Hfa & Hmin). pose proof (grown_sub _ _ Hg f Hf) as HPf.
  pose proof (proj1 Hap f HPf) as (?&?&?).
  destruct (Z.ltb_spec (a + n) f.1) as [Hlt|Hge].
  { exists node, (Some f), c, Q, s. split_and!; try done. intros e He Hle.
    specialize (Hmin e He Hle). lia. }
  assert (f.1 = a + n) as Hfe by lia. rewrite (bind_done _ _ s _ s eq_refl).
  assert (∃ P', holds s P' ∧ P' f ∧ (∀ x, (x ≠ f ∧ P' x) ↔ match node with Some _ => x ≠ f ∧ Q x | None => x = r ∨ (x ≠ f ∧ Q x) end))
    as (P' & Hs & HP'f & HP').
  { destruct node as [v|]; destruct Hpl as [? Hs]; eexists; (split; [exact Hs|]).
    - done.
    - split; [by right|]. intros x. destruct (decide (x = r)) as [->|]; [|naive_solver].
      split; [auto|]. intros _. split; [|by left]. intros <-. simpl in *. lia. }
  destruct (set_next f (free_addr_by_addr s)) as [g|] eqn:En.
  all: destruct (erase_both s P' f Hs HP'f) as (s1 & s2 & E1 & E2 & Hs2 & Hr2);
    rewrite (bind_done _ _ _ _ _ E1), (bind_done _ _ _ _ _ E2), (bind_done _ _ _ _ _ (kassert_true _)).
  all: assert (placed s2 node (match node with Some v => v | None => r end) (λ x, x ≠ f ∧ Q x)) as Hpl2
    by (destruct node as [v|]; (split; [done|]); eapply holds_ext; [exact Hs2|exact HP'|exact Hs2|exact HP']).
  all: destruct (extract_inserted_spec s2 node _ _ Hpl2) as (s3 & E3 & Hs3 & Hr3);
    [intros e [_ He]; by apply (grown_sub _ _ Hg)|];
    rewrite (bind_done _ _ _ _ _ E3); pose proof (grown_lo _ _ Hg); unwrap;
    pose proof (grown_succ c Q f Hg Hc Hf Hfe) as Hg';
    exists (Some (c.1, f.1 + f.2 - c.1)).
  - apply law_next_some in En as (Hgin & Hfg & _). apply Hs in Hgin.
    assert (g ≠ f) as Hgf by (intros ->; by apply elt_lt_irrefl in Hfg).
    assert (P g) as HPg.
    { assert (g ≠ r) as Hgr by (intros ->; unfold elt_lt in Hfg; simpl in Hfg; lia).
      pose proof (proj1 (HP' g) (conj Hgf Hgin)) as HQ. apply (grown_sub _ _ Hg).
      destruct node; naive_solver. }
    pose proof (proj2 Hap f g HPf HPg Hfg). rewrite (proj2 (Z.ltb_lt _ _)) by lia.
    exists (Some g), (c.1, f.1 + f.2 - c.1), (λ x, x ≠ f ∧ Q x), s3.
    split_and!; try done; [by etrans|]. intros e [Hne He] Hle. simpl.
    destruct (apart_disjoint P f e Hap HPf (grown_sub _ _ Hg e He)) as [|[|]]; [done|lia|].
    pose proof (proj1 Hap e (grown_sub _ _ Hg e He)). lia.
  - exists None, (c.1, f.1 + f.2 - c.1), (λ x, x ≠ f ∧ Q x), s3.
    split_and!; try done; [by etrans|]. intros e [Hne He] Hle. simpl.
    destruct (apart_disjoint P f e Hap HPf (grown_sub _ _ Hg e He)) as [|[|]]; [done|lia|].
    pose proof (proj1 Hap e (grown_sub _ _ Hg e He)). lia.
Qed.

(** Coalescing with the predecessor, or not *)
Lemma release_pred_spec s :
  holds s (λ x, x = r ∨ P x) →
  ∃ c Q node s',
    match set_prev (Some r) (free_addr_by_addr s) with
    | Some pred =>
        let pred_end := u64 (pred.1 + pred.2) in
        if (pred.1 <=? a) && (a <=? pred_end) then
          let end_ := if a + n <? pred_end then pred_end else a + n in
          addr_erase pred;;
          m ← size_erase (swap pred);
          kassert m;;
          extract_inserted r None;;
          let size := u64 (end_ - pred.1) in
          mret (pred.1, size, end_, Some (pred.1, size))
        else mret (a, n, a + n, None)
    | None => mret (a, n, a + n, None)
    end s = Done (c.1, c.2, a + n, node, s') ∧
    grown c Q ∧ c.1 + c.2 = a + n ∧ placed s' node c Q ∧ same_rest s s' ∧
    ∀ e, P e → a < e.1 → Q e.
Proof.
  intros Hs. pose proof not_P_r as Hnr.
  assert (∀ e, P e → e.1 + e.2 = a → set_prev (Some r) (free_addr_by_addr s) = Some e) as Hprev.
  { intros e He Hea. pose proof (proj1 Hap e He). destruct (set_prev _ _) as [p|] eqn:Ep.
    - apply law_prev_some in Ep as (Hp & Hlt & Hmax). specialize (Hlt _ eq_refl). apply Hs in Hp.
      destruct Hp as [->|Hp]; [by apply elt_lt_irrefl in Hlt|]. f_equal.
      destruct (elt_trichotomy p e) as [|[|Hep]]; [|done|].
      + exfalso. apply (Hmax e); [apply Hs; by right| |done]. intros ? ?; simplify_eq. unfold elt_lt. simpl. lia.
      + pose proof (proj2 Hap e p He Hp Hep). unfold elt_lt in Hlt. simpl in Hlt. lia.
    - exfalso. destruct (law_prev_none _ _ Ep e) as (? & ? & Hn'); [apply Hs; by right|]. simplify_eq.
      apply Hn'. unfold elt_lt. simpl. lia. }
  assert (∀ s', (∀ e, P e → e.1 + e.2 ≠ a) → holds s' (λ x, x = r ∨ P x) →
    grown r P ∧ placed s' None r P) as Hself.
  { intros s' Hne Hs'. split; [|done]. apply grown_self. intros e He. destruct (Hdis e He); [|auto].
    pose proof (Hne e He). lia. }
  destruct (set_prev (Some r) (free_addr_by_addr s)) as [p|] eqn:Ep; cbn zeta.
  - apply law_prev_some in Ep as (Hp & Hlt & _). specialize (Hlt _ eq_refl). apply Hs in Hp.
    destruct Hp as [->|Hp]; [by apply elt_lt_irrefl in Hlt|]. pose proof (proj1 Hap p Hp) as (?&?&?).
    rewrite u64_small by lia. destruct ((p.1 <=? a) && (a <=? p.1 + p.2)) eqn:Em.
    + apply andb_prop in Em as [?%Z.leb_le ?%Z.leb_le].
      assert (p.1 + p.2 = a) as Hpa by (destruct (Hdis p Hp); lia).
      rewrite (proj2 (Z.ltb_ge _ _)) by lia. unwrap.
      destruct (erase_both s _ p Hs (or_intror Hp)) as (s1 & s2 & E1 & E2 & Hs2 & Hr2).
      rewrite (bind_done _ _ _ _ _ E1), (bind_done _ _ _ _ _ E2), (bind_done _ _ _ _ _ (kassert_true _)).
      assert (placed s2 None r (λ x, x ≠ p ∧ P x)) as Hpl.
      { split; [done|]. eapply holds_ext; [exact Hs2|]. intros x. destruct (decide (x = r)) as [->|]; [|naive_solver].
        split; [auto|]. intros _. split; [|by left]. intros Hrp. apply Hnr. by rewrite Hrp. }
      destruct (extract_inserted_spec s2 None _ _ Hpl) as (s3 & E3 & Hs3 & Hr3); [naive_solver|].
      rewrite (bind_done _ _ _ _ _ E3).
      exists (p.1, a + n - p.1), (λ x, x ≠ p ∧ P x), (Some (p.1, a + n - p.1)), s3.
      split_and!; try done; [by apply grown_pred|simpl; lia|by etrans|].
      intros e He Hae. split; [|done]. intros ->. lia.
    + exists r, P, None, s. destruct (Hself s) as [? ?]; [|done|by split_and!].
      intros e He Hea. pose proof (Hprev e He Hea) as [= ->]. pose proof (proj1 Hap e He).
      apply andb_false_iff in Em as [?%Z.leb_gt|?%Z.leb_gt]; lia.
  - exists r, P, None, s. destruct (Hself s) as [? ?]; [|done|by split_and!].
    intros e He Hea. by pose proof (Hprev e He Hea).
Qed.

End release.

(** Releasing a range that is not free makes exactly its addresses free, and
    leaves the ranges coalesced. *)
Theorem release_linear_correct s a n :
  ca_inv s → 0 ≤ a → 0 < n → a + n < 2 ^ 64 → (∀ x, in_range (a, n) x → ¬ free_at s x) →
  ∃ s', release_linear a n s = Done (tt, s') ∧ ca_inv s' ∧ same_rest s s' ∧
    ∀ x, free_at s' x ↔ free_at s x ∨ in_range (a, n) x.
Proof.
  intros (P & Hs & Hap) Ha Hn Hend Hnf.
  assert (∀ e, P e → e.1 + e.2 ≤ a ∨ a + n ≤ e.1) as Hdis.
  { intros e He. pose proof (proj1 Hap e He). destruct (decide (e.1 + e.2 ≤ a ∨ a + n ≤ e.1)); [done|].
    exfalso. apply (Hnf (Z.max a e.1)); [unfold in_range; simpl; lia|].
    exists e. split; [by apply Hs|]. unfold in_range. lia. }
  unfold release_linear. rewrite (bind_done _ _ s _ s eq_refl), (bind_done _ _ s _ s eq_refl). unfold id.
  rewrite bool_decide_eq_true_2 by (by eapply holds_size). rewrite (bind_done _ _ _ _ _ (kassert_true s)).
  unwrap. destruct (insert_both s P (a, n) Hs (not_P_r P a n Hn Hdis)) as (s1 & s2 & E1 & E2 & Hs2 & Hr2).
  rewrite (bind_done _ _ _ _ _ E1). cbn [negb].
  rewrite (bind_done _ _ _ _ _ E2), (bind_done _ _ _ _ _ (kassert_true _)).
  rewrite (bind_done _ _ s2 _ s2 eq_refl), (bind_done _ _ s2 _ s2 eq_refl).
  destruct (release_pred_spec P a n Hap Ha Hn Hend Hdis s2 Hs2)
    as (c & Q & node & s3 & E3 & Hg & Hc & Hpl & Hr3 & Hkeep).
  rewrite (bind_done _ _ _ _ _ E3), (bind_done _ _ s3 _ s3 eq_refl).
  assert (succ_of a n (set_next (a, n) (free_addr_by_addr s2)) Q) as Hsucc.
  { assert (∀ e, Q e → a + n ≤ e.1 → e ∈ elems (free_addr_by_addr s2) ∧ elt_lt (a, n) e) as Hin.
    { intros e He Hle. split; [apply Hs2; right; by apply (grown_sub _ _ _ _ _ Hg)|]. unfold elt_lt. simpl. lia. }
    destruct (set_next (a, n) (free_addr_by_addr s2)) as [f|] eqn:En; simpl.
    - apply law_next_some in En as (Hf & Hlt & Hmin). apply Hs2 in Hf.
      destruct Hf as [->|Hf]; [by apply elt_lt_irrefl in Hlt|].
      assert (a + n ≤ f.1) as Hfa.
      { destruct (Hdis f Hf); [|done]. pose proof (proj1 Hap f Hf). unfold elt_lt in Hlt. simpl in Hlt. lia. }
      split_and!; [apply Hkeep; [done|lia]|done|]. intros e He Hle.
      destruct (Hin e He Hle) as [Hi Hl]. pose proof (Hmin e Hi Hl) as Hx. unfold elt_lt in Hx. lia.
    - intros e He Hle. destruct (Hin e He Hle) as [Hi Hl]. by apply (law_next_none _ _ En e Hi). }
  destruct (release_succ_spec P a n Hap Ha Hn Hdis (set_size (free_addr_by_addr s3)) s3 node _ c Q Hg Hc Hpl Hsucc)
    as (node' & it' & c' & Q' & s4 & E4 & Hg' & Hpl' & Hc1 & Hr4 & Hright).
  cbn [Nat.add]. rewrite (bind_done _ _ _ _ _ E4). rewrite <- Hc1.
  pose proof (grown_lo _ _ _ _ _ Hg'). pose proof (grown_hi _ _ _ _ _ Hg'). unwrap.
  rewrite (proj2 (Z.ltb_ge _ _)), andb_false_r by lia. rewrite (bind_done _ _ s4 _ s4 eq_refl).
  rewrite bool_decide_eq_true_2; [|destruct node'; destruct Hpl' as [-> _]; by try destruct c'].
  rewrite (bind_done _ _ _ _ _ (kassert_true s4)).
  destruct (release_put P a n Hap Hn s4 node' c' Q' Hg' Hright Hpl') as (s5 & E5 & Hs5 & Hap5 & Hr5).
  rewrite (bind_done _ _ _ _ _ E5), (bind_done _ _ s5 _ s5 eq_refl). unfold id.
  rewrite bool_decide_eq_true_2 by (by eapply holds_size). rewrite (bind_done _ _ _ _ _ (kassert_true s5)).
  rewrite (bind_done _ _ s5 _ s5 eq_refl). exists s5. split_and!; [done|by eexists|by repeat (etrans; [eassumption|])|].
  intros x. rewrite (free_at_holds _ _ _ Hs5), (free_at_holds _ _ _ Hs), (grown_free _ _ _ _ _ Hg' x).
  split; [intros (e & [->|He] & Hx); eauto|intros [(e & He & Hx)|Hx]; eauto].
Qed.

(** ** take_linear *)

(** What is left of [e] on both sides of [lo, hi) *)
Definition leftovers (e : elt) (lo hi : Z) : list elt :=
  filter (λ p, p.2 ≠ 0) [(e.1, lo - e.1); (hi, e.1 + e.2 - hi)].

Lemma leftovers_spec e lo hi p :
  e.1 ≤ lo → lo < hi → hi ≤ e.1 + e.2 →
  p ∈ leftovers e lo hi ↔
  (p = (e.1, lo - e.1) ∧ e.1 < lo) ∨ (p = (hi, e.1 + e.2 - hi) ∧ hi < e.1 + e.2).
Proof.
  intros. unfold leftovers. rewrite list_elem_of_filter, !elem_of_cons. split.
  - intros [Hp [->|[->|?%elem_of_nil]]]; simpl in *; [left|right|done]; (split; [done|lia]).
  - intros [[-> ?]|[-> ?]]; simpl; (split; [lia|auto]).
Qed.

Lemma carve_item_spec s P e lo hi :
  holds s P → apart P → P e → e.1 ≤ lo → lo < hi → hi ≤ e.1 + e.2 →
  ∃ s', carve_item e lo hi s = Done ((hi, e.1 + e.2 - hi), s') ∧ ca_inv s' ∧
    holds s' (λ x, x ∈ leftovers e lo hi ∨ x ≠ e ∧ P x) ∧ same_rest s s'.
Proof.
  intros Hs Hap He Hlo Hlh Hhi. pose proof (proj1 Hap e He) as (?&?&?).
  pose proof (λ p, leftovers_spec e lo hi p Hlo Hlh Hhi) as Hleft.
  assert (apart (λ x, x ∈ leftovers e lo hi ∨ x ≠ e ∧ P x)) as Hap'.
  { apply apart_replace; [done|done| |].
    - intros p [[-> ?]|[-> ?]]%Hleft; simpl; lia.
    - intros p q [[-> ?]|[-> ?]]%Hleft [[-> ?]|[-> ?]]%Hleft; unfold elt_lt; simpl; lia. }
  unfold carve_item. cbn zeta.
  destruct (erase_both s P e Hs He) as (s1 & s2 & E1 & E2 & Hs2 & Hr2).
  rewrite (bind_done _ _ _ _ _ E1), (bind_done _ _ _ _ _ E2).
  rewrite !(bind_done _ _ _ _ _ (kassert_true s2)).
  set (before := (e.1, if e.1 <? lo then u64 (lo - e.1) else 0)).
  set (after := (hi, if hi <? u64 (e.1 + e.2) then u64 (u64 (e.1 + e.2) - hi) else 0)).
  assert (before = (e.1, lo - e.1)) as Hbe.
  { unfold before. destruct (Z.ltb_spec e.1 lo); [by unwrap|]. f_equal. lia. }
  assert (after = (hi, e.1 + e.2 - hi)) as Haf.
  { unfold after. unwrap. destruct (Z.ltb_spec hi (e.1 + e.2)); [by unwrap|]. f_equal. lia. }
  rewrite Hbe, Haf.
  assert (∀ s0 R p, holds s0 R → ¬ R p →
    ∃ s3, (if negb (p.2 =? 0) then
             chk ← addr_insert p; kassert chk;;
             chk ← size_insert (swap p); kassert chk
           else mret tt) s0 = Done (tt, s3) ∧ same_rest s0 s3 ∧
      holds s3 (λ x, (x = p ∧ p.2 ≠ 0) ∨ R x)) as Hput.
  { intros s0 R p Hs0 Hnp. destruct (Z.eqb_spec p.2 0) as [Hz|Hz]; cbn [negb].
    - exists s0. split_and!; try done. eapply holds_ext; [exact Hs0|]. naive_solver.
    - destruct (insert_both s0 R p Hs0 Hnp) as (s3 & s4 & E3 & E4 & Hs4 & Hr4).
      rewrite (bind_done _ _ _ _ _ E3), (bind_done _ _ _ _ _ (kassert_true _)), (bind_done _ _ _ _ _ E4).
      exists s4. split_and!; try done. eapply holds_ext; [exact Hs4|]. naive_solver. }
  assert (∀ p, (p = (e.1, lo - e.1) ∨ p = (hi, e.1 + e.2 - hi)) → p ≠ e → ¬ P p) as HnP.
  { intros p Hp Hne Hpp. destruct (apart_disjoint P e p Hap He Hpp) as [|[|]]; [done|..];
      destruct Hp as [->| ->]; simpl in *; pose proof (proj1 Hap _ Hpp) as Hx; simpl in Hx; lia. }
  destruct (Hput s2 _ (e.1, lo - e.1) Hs2) as (s3 & E3 & Hr3 & Hs3).
  { intros [Hne HP]. by apply (HnP (e.1, lo - e.1)); auto. }
  rewrite (bind_done _ _ _ _ _ E3).
  destruct (Hput s3 _ (hi, e.1 + e.2 - hi) Hs3) as (s4 & E4 & Hr4 & Hs4).
  { intros [[Heq _]|[Hne HP]]; [injection Heq; lia|]. by apply (HnP (hi, e.1 + e.2 - hi)); auto. }
  rewrite (bind_done _ _ _ _ _ E4). exists s4. split; [done|].
  assert (holds s4 (λ x, x ∈ leftovers e lo hi ∨ x ≠ e ∧ P x)) as Hs4'.
  { eapply holds_ext; [exact Hs4|]. intros x. rewrite Hleft. simpl. split.
    - intros [[-> ?]|[[-> ?]|?]]; [left; right|left; left|by right]; (split; [done|lia]).
    - intros [[[-> ?]|[-> ?]]|?]; [right; left|left|by right; right]; (split; [done|lia]). }
  split_and!; [by eexists|done|by repeat (etrans; [eassumption|])].
Qed.

(** Taking [lo, hi) out of the free range [e] *)
Lemma carve_free s s' P e lo hi x :
  holds s P → apart P → P e → e.1 ≤ lo → lo < hi → hi ≤ e.1 + e.2 →
  holds s' (λ y, y ∈ leftovers e lo hi ∨ y ≠ e ∧ P y) →
  free_at s' x ↔ free_at s x ∧ ¬ lo ≤ x < hi.
Proof.
  intros Hs Hap He Hlo Hlh Hhi Hs'. rewrite (free_replace s s' P e _ x Hs Hap He Hs').
  rewrite (free_at_holds _ _ _ Hs). pose proof (λ p, leftovers_spec e lo hi p Hlo Hlh Hhi) as Hleft.
  unfold in_range. split.
  - intros [(p & [[-> ?]|[-> ?]]%Hleft & Hx)|[(f & Hf & Hx) Hn]]; simpl in *.
    + split; [|lia]. exists e. split; [done|lia].
    + split; [|lia]. exists e. split; [done|lia].
    + split; [eauto|lia].
  - intros [(f & Hf & Hx) Hn]. destruct (decide (f = e)) as [->|Hne].
    + left. destruct (decide (x < lo)).
      * exists (e.1, lo - e.1). split; [apply Hleft; left; split; [done|lia]|simpl; lia].
      * exists (hi, e.1 + e.2 - hi). split; [apply Hleft; right; split; [done|lia]|simpl; lia].
    + right. split; [eauto|]. destruct (apart_disjoint P e f Hap He Hf) as [|[|]]; [done|lia..].
Qed.

(** The range before the first one at or after [lo], and that one, when [lo]
    lies strictly inside the free range [e] *)
Lemma bounds_inside s P e lo :
  holds s P → apart P → P e → e.1 < lo < e.1 + e.2 →
  let it := set_lower_bound (lo, 0) (free_addr_by_addr s) in
  set_prev it (free_addr_by_addr s) = Some e ∧ ∀ f, it = Some f → e.1 + e.2 < f.1.
Proof.
  intros [Hs _] Hap He Hlo it.
  assert (∀ f, P f → ¬ elt_lt f (lo, 0) → e.1 + e.2 < f.1) as Hafter.
  { intros f Hf Hge. pose proof (proj1 Hap f Hf). unfold elt_lt in Hge. simpl in Hge.
    destruct (apart_disjoint P e f Hap He Hf) as [<-|[|]]; lia. }
  assert (∀ f, it = Some f → e.1 + e.2 < f.1) as Hit.
  { intros f Hf. apply law_lower_bound_some in Hf as (Hf & Hge & _). apply Hafter; [by apply Hs|done]. }
  split; [|done]. destruct (set_prev it (free_addr_by_addr s)) as [p|] eqn:Ep.
  - apply law_prev_some in Ep as (Hp & Hlt & Hmax). apply Hs in Hp. f_equal.
    assert (∀ f, it = Some f → elt_lt e f) as Hef.
    { intros f Hf. pose proof (proj1 Hap e He). specialize (Hit f Hf). unfold elt_lt. lia. }
    destruct (elt_trichotomy p e) as [Hpe|[|Hep]]; [|done|].
    + exfalso. apply (Hmax e); [by apply Hs|done|done].
    + exfalso. pose proof (proj2 Hap e p He Hp Hep) as Hgap.
      destruct it as [f|] eqn:Elb; unfold it in Elb.
      * apply law_lower_bound_some in Elb as (_ & _ & Hmin). apply (Hmin p); [by apply Hs| |by apply Hlt].
        unfold elt_lt. simpl. lia.
      * pose proof (law_lower_bound_none _ _ Elb p ltac:(by apply Hs)) as Hx. unfold elt_lt in Hx. simpl in Hx. lia.
  - exfalso. destruct (law_prev_none _ _ Ep e ltac:(by apply Hs)) as (f & Hf & Hn). apply Hn.
    pose proof (proj1 Hap e He). specialize (Hit f Hf). unfold elt_lt. lia.
Qed.

(** The same when [e] starts at [lo] *)
Lemma bounds_at s P e :
  holds s P → apart P → P e →
  set_lower_bound (e.1, 0) (free_addr_by_addr s) = Some e ∧
  ∀ p, set_prev (Some e) (free_addr_by_addr s) = Some p → P p ∧ p.1 + p.2 < e.1.
Proof.
  intros [Hs _] Hap He. pose proof (proj1 Hap e He). split.
  - destruct (set_lower_bound _ _) as [f|] eqn:Elb.
    + apply law_lower_bound_some in Elb as (Hf & Hge & Hmin). apply Hs in Hf. f_equal.
      pose proof (proj1 Hap f Hf). unfold elt_lt in Hge. simpl in Hge.
      destruct (apart_disjoint P f e Hap Hf He) as [|[|]]; [done|lia|].
      exfalso. apply (Hmin e); [by apply Hs| |]; unfold elt_lt; simpl; lia.
    + pose proof (law_lower_bound_none _ _ Elb e ltac:(by apply Hs)) as Hx. unfold elt_lt in Hx. simpl in Hx. lia.
  - intros p (Hp & Hlt & _)%law_prev_some. apply Hs in Hp. split; [done|].
    apply (proj2 Hap); [done|done|]. by apply Hlt.
Qed.

(** The check of require_free compares against the start of a range at or
    below [a], which never says no. *)
Lemma require_free_vacuous (x y : elt) a n (b : bool) :
  0 ≤ x.1 → 0 ≤ y.1 → 0 ≤ a → 0 < n → a + n < 2 ^ 64 →
  b && ((x.1 <=? a) && (a <? u64 (x.1 + x.2)) && (u64 (a + n - x.1) <? n) ||
        (y.1 <=? a) && (a <? u64 (y.1 + y.2)) && (u64 (a + n - y.1) <? n)) = false.
Proof.
  intros. assert (∀ z : elt, 0 ≤ z.1 → (z.1 <=? a) && (a <? u64 (z.1 + z.2)) && (u64 (a + n - z.1) <? n) = false) as Hz.
  { intros z ?. destruct (Z.leb_spec z.1 a); [|done]. rewrite (u64_small (a + n - z.1)) by lia.
    rewrite (proj2 (Z.ltb_ge (a + n - z.1) n)) by lia. apply andb_false_r. }
  rewrite !Hz by done. apply andb_false_r.
Qed.

(** Taking addresses inside one free range, but not exactly that range,
    makes exactly them not free; require_free makes no difference. *)
Theorem take_linear_inside s a n require_free e :
  ca_inv s → e ∈ elems (free_addr_by_addr s) → 0 < n → e.1 ≤ a → a + n ≤ e.1 + e.2 →
  (e.1 < a ∨ a + n < e.1 + e.2) →
  ∃ s', take_linear a n require_free s = Done (true, s') ∧ ca_inv s' ∧ same_rest s s' ∧
    ∀ x, free_at s' x ↔ free_at s x ∧ ¬ in_range (a, n) x.
Proof.
  intros (P & Hs & Hap) He Hn Hlo Hhi Hpart. apply (proj1 Hs) in He.
  pose proof (proj1 Hap e He) as (?&?&?). unfold take_linear.
  rewrite (proj2 (Z.ltb_lt _ _)), (bind_done _ _ _ _ _ (kassert_true s)) by lia.
  rewrite (bind_done _ _ s _ s eq_refl). unfold id.
  rewrite (bool_decide_eq_true_2 (set_size _ = _)) by (by eapply holds_size). rewrite (bind_done _ _ _ _ _ (kassert_true s)).
  rewrite (bool_decide_eq_false_2 (elems _ = [])); last first.
  { intros Hnil. apply (proj1 Hs) in He. rewrite Hnil in He. by apply elem_of_nil in He. }
  cbn [negb]. rewrite (bind_done _ _ _ _ _ (kassert_true s)). cbn zeta. rewrite (u64_small (a + n)) by lia.
  assert (∀ it, (∀ f, it = Some f → P f) → 0 ≤ (default (0, 0) it).1) as Hpos.
  { intros [f|] Hf; simpl; [|done]. apply (proj1 Hap f). auto. }
  assert (∀ it f, set_prev it (free_addr_by_addr s) = Some f → P f) as HPp.
  { intros it f (Hf & _)%law_prev_some. by apply (proj1 Hs). }
  assert (∀ k f, set_lower_bound k (free_addr_by_addr s) = Some f → P f) as HPl.
  { intros k f (Hf & _)%law_lower_bound_some. by apply (proj1 Hs). }
  rewrite require_free_vacuous by (eauto || lia).
  destruct (carve_item_spec s P e a (a + n) Hs Hap He Hlo ltac:(lia) Hhi) as (s' & Ec & Hi' & Hs' & Hr').
  assert (∀ x, free_at s' x ↔ free_at s x ∧ ¬ in_range (a, n) x) as Hfree.
  { intros x. apply (carve_free s s' P e a (a + n) x Hs Hap He); done || lia. }
  assert (∃ s'', (s0 ← gets id;
    kassert (bool_decide (set_size (free_addr_by_addr s0) = set_size (free_addr_by_size s0)));;
    mret true) s' = Done (true, s'') ∧ s'' = s') as (? & Etail & ->).
  { eexists. rewrite (bind_done _ _ s' _ s' eq_refl). unfold id.
    rewrite (bool_decide_eq_true_2 (set_size _ = _)) by (by eapply holds_size). done. }
  exists s'. split_and!; try done.
  destruct (decide (e.1 = a)) as [<-|Hne].
  - destruct (bounds_at s P e Hs Hap He) as [-> Hprev]. cbn [default].
    destruct (negb _ && _) eqn:Epred.
    { exfalso. destruct (set_prev (Some e) (free_addr_by_addr s)) as [p|] eqn:Ep; simpl in Epred; [|done].
      destruct (Hprev p eq_refl) as [HP ?]. pose proof (proj1 Hap p HP).
      apply andb_prop in Epred as [_ Hx%Z.ltb_lt]. rewrite u64_small in Hx by lia. lia. }
    rewrite (bind_done _ _ s tt s eq_refl). cbn [take_loop].
    rewrite bool_decide_eq_false_2.
    + rewrite (proj2 (Z.leb_gt _ _)) by lia. rewrite bind_assoc, (bind_done _ _ _ _ _ Ec). cbn [fst snd].
      rewrite (proj2 (Z.eqb_neq _ 0)) by lia. rewrite Z.leb_refl.
      destruct (bool_decide _); rewrite (bind_done _ _ s' tt s' eq_refl); done.
    + intros Heq. symmetry in Heq. apply law_lower_bound_some in Heq as (_ & Hge & _).
      unfold elt_lt in Hge. simpl in Hge. lia.
  - destruct (bounds_inside s P e a Hs Hap He ltac:(lia)) as [-> Hit]. cbn [default].
    rewrite (u64_small (e.1 + e.2)), (proj2 (Z.ltb_lt a (e.1 + e.2))), (proj2 (Z.eqb_neq e.2 0)) by lia. cbn [negb andb].
    rewrite bind_assoc, (bind_done _ _ _ _ _ Ec), (bind_done _ _ s' tt s' eq_refl).
    destruct (set_lower_bound (a, 0) (free_addr_by_addr s)) as [f|]; cbn [take_loop].
    + specialize (Hit f eq_refl). rewrite (proj2 (Z.leb_le _ _)) by lia.
      destruct (bool_decide _); rewrite (bind_done _ _ s' tt s' eq_refl); done.
    + by rewrite (bind_done _ _ s' tt s' eq_refl).
Qed.

(** ** validate_locked *)

Lemma no_overlap_sorted l (P : elt → Prop) :
  StronglySorted elt_lt l → (∀ e, e ∈ l → P e) → apart P → no_overlap l = true.
Proof.
  intros Hl HP Hap. destruct Hl as [|p l Hl Hp]; [done|]. simpl.
  revert p Hp HP. induction Hl as [|x l Hl IH Hx]; intros p Hp HP; [done|].
  pose proof (HP p ltac:(set_solver)) as HPp. pose proof (HP x ltac:(set_solver)) as HPx.
  pose proof (proj1 Hap p HPp) as (?&?&?). apply Forall_cons in Hp as [Hpx _].
  pose proof (proj2 Hap p x HPp HPx Hpx). rewrite u64_small by lia.
  rewrite (proj2 (Z.ltb_ge _ _)) by lia. simpl. apply IH; [done|]. intros e He. apply HP. set_solver.
Qed.

(** The self-check reports nothing in a state of the invariant. *)
Theorem validate_locked_ok s : ca_inv s → validate_locked s = Done (true, s).
Proof.
  intros (P & [H1 H2] & Hap). unfold validate_locked, gets. do 2 f_equal.
  apply andb_true_intro. split; [apply andb_true_intro; split|].
  - apply forallb_forall. intros e He%list_elem_of_In%H1.
    apply bool_decide_eq_true_2. by rewrite H2, swap_swap.
  - apply forallb_forall. intros e He%list_elem_of_In%H2. apply bool_decide_eq_true_2. by rewrite H1.
  - eapply no_overlap_sorted; [apply law_sorted| |exact Hap]. intros e. apply H1.
Qed.

End thms.

(** ** Concrete runs *)

(** 16MB of address space from 4MB *)
Definition demo_contig : contig slist :=
  match contig_init 0x400000 0x1000000 (Contig set_empty set_empty 0 false) with
  | Done (_, s) => s
  | Fault _ => Contig set_empty set_empty 0 false
  end.

Lemma demo_contig_elems :
  elems (free_addr_by_addr demo_contig) = [(0x400000, 0x1000000)] ∧
  elems (free_addr_by_size demo_contig) = [(0x1000000, 0x400000)].
Proof. split; vm_compute; reflexivity. Qed.

Lemma demo_contig_inv : ca_inv demo_contig.
Proof.
  destruct demo_contig_elems as [Ea Es].
  exists (λ x, x = (0x400000, 0x1000000)). split; [split; intros x; rewrite ?Ea, ?Es, list_elem_of_singleton|].
  - done.
  - by rewrite swap_eq.
  - split; [by intros ? ->|]. intros ? ? -> ->. unfold elt_lt. lia.
Qed.

Lemma alloc_linear_witness :
  ∃ a s', alloc_linear 0x3000 demo_contig = Done (a, s') ∧ ca_inv s'.
Proof.
  destruct (alloc_linear_best_fit demo_contig 0x3000 demo_contig_inv) as (a & s' & E & Hi & _);
    [done|done|done|by exists a, s'].
Defined.

Lemma take_linear_witness :
  ∃ s', take_linear 0x500000 0x1000 true demo_contig = Done (true, s') ∧ ca_inv s'.
Proof.
  destruct (take_linear_inside demo_contig 0x500000 0x1000 true (0x400000, 0x1000000) demo_contig_inv)
    as (s' & E & Hi & _); [rewrite (proj1 demo_contig_elems); set_solver|done|done|done|by left|by exists s'].
Defined.

Lemma release_linear_witness :
  ∃ s', release_linear 0x3ff000 0x1000 demo_contig = Done (tt, s') ∧ ca_inv s'.
Proof.
  destruct (release_linear_correct demo_contig 0x3ff000 0x1000 demo_contig_inv) as (s' & E & Hi & _);
    [done|done|done| |by exists s'].
  intros x Hx (e & He & Hin). rewrite (proj1 demo_contig_elems), list_elem_of_singleton in He. subst e.
  unfold in_range in *. simpl in *. lia.
Defined.

Lemma validate_locked_witness : validate_locked demo_contig = Done (true, demo_contig).
Proof. apply (validate_locked_ok demo_contig demo_contig_inv). Defined.

(** Taking exactly a free range: the loop goes on with a node that is in no
    set any more. *)
Lemma take_linear_exact_faults :
  take_linear 0x400000 0x1000000 false demo_contig = Fault OutOfRange.
Proof. vm_compute. reflexivity. Qed.

(** With require_free, addresses that are not free are granted. *)
Lemma take_linear_require_free_ignored :
  match take_linear 0x3000000 0x1000 true demo_contig with
  | Done (b, s) => Some (b, elems (free_addr_by_addr s))
  | Fault _ => None
  end = Some (true, [(0x400000, 0x1000000)]).
Proof. vm_compute. reflexivity. Qed.
