(* ===== verification/AvlTree.v ===== *)
(** * kernel/lib/basic_set.h: the AVL tree behind ext::set, map and fast_set

    Nodes are linked by left, right and parent pointers and live in a store
    [nodes] by address; a null pointer is [None], and using one, or an
    address that was given back, is a fault.  The storage of an item is empty
    until it is constructed.  The items and their comparison are parameters,
    as the template's are; where a map keeps pairs only the key matters to
    the code below.  [NodeAlloc] is what the tree asks of its allocator. *)

From stdpp Require Import base tactics list numbers option gmap.
From S2P Require Import Prelude.

#[local] Open Scope Z_scope.

Abbreviation addr := positive.
Abbreviation ptr := (option positive).

(** [alloc_ok h X]: the blocks in [X] are handed out and not given back. *)
Class NodeAlloc (A : Type) := {
  allocate : A → option (addr * A);
  deallocate : addr → A → A;
  alloc_ok : A → gset addr → Prop;
  alloc_fresh : ∀ h X a h', alloc_ok h X → allocate h = Some (a, h') →
    a ∉ X ∧ alloc_ok h' ({[a]} ∪ X);
  dealloc_ok : ∀ h X a, alloc_ok h X → a ∈ X → alloc_ok (deallocate a h) (X ∖ {[a]})
}.

(** ** __node_t and __basic_tree *)

Record node_t (K : Type) := Node {
  nleft : ptr;
  nright : ptr;
  nparent : ptr;
  nbalance : Z;
  nitem : option K
}.
Arguments Node {K}.
Arguments nleft {K}.
Arguments nright {K}.
Arguments nparent {K}.
Arguments nbalance {K}.
Arguments nitem {K}.

Record tree_t (K A : Type) := Tree {
  nodes : gmap addr (node_t K);
  root : ptr;
  first : ptr;
  last : ptr;
  current_size : Z;     (* size_t *)
  alloc : A
}.
Arguments Tree {K A}.
Arguments nodes {K A}.
Arguments root {K A}.
Arguments first {K A}.
Arguments last {K A}.
Arguments current_size {K A}.
Arguments alloc {K A}.

Section ops.
Context {K A : Type} `{NodeAlloc A} (cmp : K → K → bool).
Abbreviation tree := (tree_t K A).
Abbreviation TM := (M tree).

Definition set_left (p : ptr) (n : node_t K) : node_t K := Node p (nright n) (nparent n) (nbalance n) (nitem n).
Definition set_right (p : ptr) (n : node_t K) : node_t K := Node (nleft n) p (nparent n) (nbalance n) (nitem n).
Definition set_parent (p : ptr) (n : node_t K) : node_t K := Node (nleft n) (nright n) p (nbalance n) (nitem n).
Definition set_balance (b : Z) (n : node_t K) : node_t K := Node (nleft n) (nright n) (nparent n) b (nitem n).
Definition set_item (k : K) (n : node_t K) : node_t K := Node (nleft n) (nright n) (nparent n) (nbalance n) (Some k).

Definition with_nodes (m : gmap addr (node_t K)) (s : tree) : tree :=
  Tree m (root s) (first s) (last s) (current_size s) (alloc s).
Definition with_root (p : ptr) (s : tree) : tree :=
  Tree (nodes s) p (first s) (last s) (current_size s) (alloc s).
Definition with_ends (f l : ptr) (s : tree) : tree :=
  Tree (nodes s) (root s) f l (current_size s) (alloc s).
Definition with_size (n : Z) (s : tree) : tree :=
  Tree (nodes s) (root s) (first s) (last s) n (alloc s).

(** Access through a pointer *)
Definition node (p : ptr) : TM (node_t K) := λ s,
  match p ≫= λ a, nodes s !! a with Some n => Done (n, s) | None => Fault OutOfRange end.
Definition upd (p : ptr) (f : node_t K → node_t K) : TM unit := λ s,
  match p with
  | Some a => match nodes s !! a with
              | Some n => Done (tt, with_nodes (<[a := f n]> (nodes s)) s)
              | None => Fault OutOfRange
              end
  | None => Fault OutOfRange
  end.
Definition item (p : ptr) : TM K :=
  n ← node p; match nitem n with Some k => mret k | None => throw OutOfRange end.
Definition is_null (p : ptr) : bool := match p with None => true | Some _ => false end.
Definition upd_if (p : ptr) (f : node_t K → node_t K) : TM unit :=
  if is_null p then mret tt else upd p f.
Definition kassert (b : bool) : TM unit := if b then mret tt else throw AssertFailed.

Definition select_lr (is_left : bool) (n : node_t K) : ptr := if is_left then nleft n else nright n.
Definition set_lr (is_left : bool) (p : ptr) (n : node_t K) : node_t K :=
  if is_left then set_left p n else set_right p n.
Definition is_left_child (a : ptr) : TM bool :=
  n ← node a; p ← node (nparent n); mret (bool_decide (nleft p = a)).

(** Every loop visits a node at most once per round. *)
Definition tree_fuel (s : tree) : nat := S (size (nodes s)).

(** ** avltree_policy_t: rotations *)

Definition rotate_rightleft (x z : ptr) : TM ptr :=
  zn ← node z;
  let y := nleft zn in
  yn ← node y;
  let t3 := nright yn in
  upd z (set_left t3);;
  upd_if t3 (set_parent z);;
  upd y (set_right z);;
  upd z (set_parent y);;
  yn ← node y;
  let t2 := nleft yn in
  upd x (set_right t2);;
  upd_if t2 (set_parent x);;
  upd y (set_left x);;
  upd x (set_parent y);;
  yn ← node y;
  (if 0 <? nbalance yn then upd x (set_balance (-1));; upd z (set_balance 0)
   else if nbalance yn =? 0 then upd x (set_balance 0);; upd z (set_balance 0)
   else upd x (set_balance 0);; upd z (set_balance 1));;
  upd y (set_balance 0);;
  mret y.

Definition rotate_leftright (x z : ptr) : TM ptr :=
  zn ← node z;
  let y := nright zn in
  yn ← node y;
  let t3 := nleft yn in
  upd z (set_right t3);;
  upd_if t3 (set_parent z);;
  upd y (set_left z);;
  upd z (set_parent y);;
  yn ← node y;
  let t2 := nright yn in
  upd x (set_left t2);;
  upd_if t2 (set_parent x);;
  upd y (set_right x);;
  upd x (set_parent y);;
  yn ← node y;
  (if 0 <? nbalance yn then upd x (set_balance 0);; upd z (set_balance (-1))
   else if nbalance yn =? 0 then upd x (set_balance 0);; upd z (set_balance 0)
   else upd x (set_balance 1);; upd z (set_balance 0));;
  upd y (set_balance 0);;
  mret y.

Definition rotate_right (x z : ptr) : TM ptr :=
  zn ← node z;
  let t23 := nright zn in
  upd x (set_left t23);;
  upd_if t23 (set_parent x);;
  upd z (set_right x);;
  upd x (set_parent z);;
  zn ← node z;
  (if nbalance zn =? 0 then upd x (set_balance (-1));; upd z (set_balance 1)
   else upd x (set_balance 0);; upd z (set_balance 0));;
  mret z.

Definition rotate_left (x z : ptr) : TM ptr :=
  zn ← node z;
  let t23 := nleft zn in
  upd x (set_right t23);;
  upd_if t23 (set_parent x);;
  upd z (set_left x);;
  upd x (set_parent z);;
  zn ← node z;
  (if nbalance zn =? 0 then upd x (set_balance 1);; upd z (set_balance (-1))
   else upd x (set_balance 0);; upd z (set_balance 0));;
  mret z.

(** After a rotation adapt parent link *)
Definition relink (g x n : ptr) : TM unit :=
  upd n (set_parent g);;
  if is_null g then modify (with_root n)
  else gn ← node g; if bool_decide (x = nleft gn) then upd g (set_left n) else upd g (set_right n).

(** ** avltree_policy_t: retracing *)

Fixpoint retrace_insert (fuel : nat) (z : ptr) : TM unit :=
  match fuel with
  | O => throw OutOfFuel
  | S fuel =>
      zn ← node z;
      let x := nparent zn in
      if is_null x then mret tt
      else
        xn ← node x;
        let g := nparent xn in
        if bool_decide (z = nright xn) then
          if 0 <? nbalance xn then
            n ← (if nbalance zn <? 0 then rotate_rightleft x z else rotate_left x z);
            relink g x n
          else if nbalance xn <? 0 then upd x (set_balance 0)
          else upd x (set_balance 1);; retrace_insert fuel x
        else
          if nbalance xn <? 0 then
            n ← (if 0 <? nbalance zn then rotate_leftright x z else rotate_right x z);
            relink g x n
          else if 0 <? nbalance xn then upd x (set_balance 0)
          else upd x (set_balance (-1));; retrace_insert fuel x
  end.

(** [x] is the parent of [n], or what was saved of it in the round before *)
Fixpoint retrace_delete_loop (fuel : nat) (n x : ptr) : TM unit :=
  match fuel with
  | O => throw OutOfFuel
  | S fuel =>
      if is_null x then mret tt
      else
        xn ← node x;
        let g := nparent xn in
        if bool_decide (n = nleft xn) then
          if 0 <? nbalance xn then
            let z := nright xn in
            zn ← node z;
            let b := nbalance zn in
            n ← (if b <? 0 then rotate_rightleft x z else rotate_left x z);
            relink g x n;;
            if negb (is_null g) && (b =? 0) then mret tt else retrace_delete_loop fuel n g
          else if nbalance xn =? 0 then upd x (set_balance 1)
          else upd x (set_balance 0);; retrace_delete_loop fuel x g
        else
          if nbalance xn <? 0 then
            let z := nleft xn in
            zn ← node z;
            let b := nbalance zn in
            n ← (if 0 <? b then rotate_leftright x z else rotate_right x z);
            relink g x n;;
            if negb (is_null g) && (b =? 0) then mret tt else retrace_delete_loop fuel n g
          else if nbalance xn =? 0 then upd x (set_balance (-1))
          else upd x (set_balance 0);; retrace_delete_loop fuel x g
  end.
Definition retrace_delete (n : ptr) : TM unit :=
  k ← gets tree_fuel;
  nn ← node n;
  retrace_delete_loop k n (nparent nn).

(** ** Searching *)

(** diff = lhs <=> rhs *)
Definition diff_of (k r : K) : Z := Z.b2z (negb (cmp k r)) - Z.b2z (negb (cmp r k)).

Fixpoint tree_find_loop (fuel : nat) (k : K) (p : ptr) : TM ptr :=
  match fuel with
  | O => throw OutOfFuel
  | S fuel =>
      if is_null p then mret p
      else
        r ← item p;
        let diff := diff_of k r in
        if diff =? 0 then mret p
        else n ← node p; tree_find_loop fuel k (select_lr (diff <? 0) n)
  end.
Definition tree_find (k : K) : TM ptr :=
  f ← gets tree_fuel; p ← gets root; tree_find_loop f k p.

Fixpoint go_left (fuel : nat) (p : ptr) : TM ptr :=
  match fuel with
  | O => throw OutOfFuel
  | S fuel => n ← node p; if is_null (nleft n) then mret p else go_left fuel (nleft n)
  end.
Fixpoint go_right (fuel : nat) (p : ptr) : TM ptr :=
  match fuel with
  | O => throw OutOfFuel
  | S fuel => n ← node p; if is_null (nright n) then mret p else go_right fuel (nright n)
  end.
Definition tree_min : TM ptr :=
  f ← gets tree_fuel; p ← gets root; if is_null p then mret p else go_left f p.
Definition tree_max : TM ptr :=
  f ← gets tree_fuel; p ← gets root; if is_null p then mret p else go_right f p.

(** while (p && curr == p->right) *)
Fixpoint up_from_right (fuel : nat) (curr p : ptr) : TM ptr :=
  match fuel with
  | O => throw OutOfFuel
  | S fuel =>
      if is_null p then mret p
      else n ← node p; if bool_decide (curr = nright n) then up_from_right fuel p (nparent n) else mret p
  end.
Fixpoint up_from_left (fuel : nat) (curr p : ptr) : TM ptr :=
  match fuel with
  | O => throw OutOfFuel
  | S fuel =>
      if is_null p then mret p
      else n ← node p; if bool_decide (curr = nleft n) then up_from_left fuel p (nparent n) else mret p
  end.
Definition tree_next (curr : ptr) : TM ptr :=
  if is_null curr then mret curr
  else
    f ← gets tree_fuel;
    n ← node curr;
    if is_null (nright n) then up_from_right f curr (nparent n) else go_left f (nright n).
Definition tree_prev (curr : ptr) : TM ptr :=
  if is_null curr then gets last
  else
    f ← gets tree_fuel;
    n ← node curr;
    if is_null (nleft n) then up_from_left f curr (nparent n) else go_right f (nleft n).

(** __lower_bound_impl: the node the search ends on and the last comparison *)
Fixpoint lower_bound_loop (fuel : nat) (k : K) (p : ptr) : TM (ptr * Z) :=
  match fuel with
  | O => throw OutOfFuel
  | S fuel =>
      r ← item p;
      let diff := diff_of k r in
      if diff =? 0 then mret (p, diff)
      else
        n ← node p;
        let next := select_lr (diff <? 0) n in
        if is_null next then mret (p, diff) else lower_bound_loop fuel k next
  end.
Definition lower_bound_impl (k : K) (go_next : bool) : TM ptr :=
  f ← gets tree_fuel;
  p ← gets root;
  '(p, diff) ← (if is_null p then mret (p, 0) else lower_bound_loop f k p);
  if go_next then (if negb (is_null p) && (0 <? diff) then tree_next p else mret p)
  else if negb (is_null p) && (diff <? 0) then tree_prev p else mret p.
Definition lower_bound (k : K) : TM ptr := lower_bound_impl k true.

(** ** Insertion *)

(** The walk of __tree_ins from a node: where it stops, and on which side *)
Fixpoint ins_walk (fuel : nat) (k : K) (s : ptr) : TM (ptr * Z) :=
  match fuel with
  | O => throw OutOfFuel
  | S fuel =>
      r ← item s;
      let diff := diff_of k r in
      n ← node s;
      let next := if diff <? 0 then nleft n else nright n in
      if negb (diff =? 0) && negb (is_null next) then ins_walk fuel k next else mret (s, diff)
  end.

(** allocate(1) and new __node_t(); [oom] is what follows when there is no
    memory: a panic in __tree_ins, and a null pointer used in emplace *)
Definition new_node (oom : fault) : TM ptr := λ s,
  match allocate (alloc s) with
  | None => Fault oom
  | Some (a, h) =>
      Done (Some a, Tree (<[a := Node None None None 0 None]> (nodes s)) (root s) (first s) (last s) (current_size s) h)
  end.

(** The new node becomes a leaf below [s], on the side of the comparison *)
Definition attach (n s : ptr) (diff : Z) (empty : bool) : TM unit :=
  upd n (set_left None);;
  upd n (set_right None);;
  upd n (set_balance 0);;
  upd n (set_parent s);;
  modify (λ t, with_size (u64 (current_size t + 1)) t);;
  fst ← gets first;
  lst ← gets last;
  modify (with_ends (if empty || (bool_decide (s = fst) && (diff <? 0)) then n else fst)
                    (if empty || (bool_decide (s = lst) && (0 <? diff)) then n else lst));;
  if is_null s then modify (with_root n) else upd s (set_lr (diff <? 0) n).

Definition tree_ins (n : ptr) (key : K) : TM (ptr * bool) :=
  f ← gets tree_fuel;
  rt ← gets root;
  '(s, diff) ← (if is_null rt then mret (None, -1) else ins_walk f key rt);
  if negb (is_null rt) && (diff =? 0) then mret (s, true)
  else
    n ← (if is_null n then new_node Panicked else mret n);
    attach n s diff (is_null rt);;
    mret (n, false).

(** insert(value): where the value is, and whether it is new *)
Definition insert (v : K) : TM (ptr * bool) :=
  '(ins, found_dup) ← tree_ins None v;
  if (found_dup : bool) then mret (ins, false)
  else
    upd ins (set_item v);;
    f ← gets tree_fuel;
    retrace_insert f ins;;
    mret (ins, true).

(** insert(node handle): [n] is the released node, or null *)
Definition insert_node (n : ptr) : TM (ptr * bool) :=
  if is_null n then mret (None, false)
  else
    v ← item n;
    '(ins, found_dup) ← tree_ins n v;
    if (found_dup : bool) then mret (ins, false)
    else
      f ← gets tree_fuel;
      retrace_insert f n;;
      mret (n, true).

Definition free_node (p : ptr) : TM unit := λ s,
  match p with
  | Some a => Done (tt, Tree (delete a (nodes s)) (root s) (first s) (last s) (current_size s) (deallocate a (alloc s)))
  | None => Fault OutOfRange
  end.

Definition emplace (v : K) : TM (ptr * bool) :=
  n ← new_node OutOfRange;
  upd n (set_item v);;
  '(ins, found_dup) ← tree_ins n v;
  (if (found_dup : bool) then free_node n else f ← gets tree_fuel; retrace_insert f n);;
  mret (ins, negb found_dup).

(** ** Removal *)

(** The pointer that points at a node *)
Inductive slot := RootSlot | ChildSlot (p : ptr) (is_left : bool).
Definition slot_of (a : ptr) : TM slot :=
  n ← node a;
  if is_null (nparent n) then mret RootSlot
  else l ← is_left_child a; mret (ChildSlot (nparent n) l).
Definition read_slot (c : slot) : TM ptr :=
  match c with RootSlot => gets root | ChildSlot p l => n ← node p; mret (select_lr l n) end.
Definition write_slot (c : slot) (v : ptr) : TM unit :=
  match c with RootSlot => modify (with_root v) | ChildSlot p l => upd p (set_lr l v) end.

Definition swap_nodes (a b : ptr) : TM unit :=
  an ← node a;
  kassert (negb (bool_decide (b = nparent an)));;
  a_ptr ← slot_of a;
  b_ptr ← slot_of b;
  bn ← node b;
  (if bool_decide (a = nparent bn) then
     let w := nparent an in
     w_child ← slot_of a;
     let b_was_left := bool_decide (nleft an = b) in
     let x := select_lr (negb b_was_left) an in
     let y := nleft bn in
     let z := nright bn in
     upd b (set_parent w);;
     upd a (set_parent b);;
     upd a (set_left y);;
     upd a (set_right z);;
     upd b (set_lr b_was_left a);;
     upd b (set_lr (negb b_was_left) x);;
     upd b (set_parent w);;
     upd_if x (set_parent b);;
     write_slot w_child b;;
     upd_if y (set_parent a);;
     upd_if z (set_parent a)
   else
     upd a (set_left (nleft bn));;
     upd b (set_left (nleft an));;
     upd a (set_right (nright bn));;
     upd b (set_right (nright an));;
     upd a (set_parent (nparent bn));;
     upd b (set_parent (nparent an));;
     va ← read_slot a_ptr;
     vb ← read_slot b_ptr;
     write_slot a_ptr vb;;
     write_slot b_ptr va;;
     an ← node a;
     upd_if (nleft an) (set_parent a);;
     an ← node a;
     upd_if (nright an) (set_parent a);;
     bn ← node b;
     upd_if (nleft bn) (set_parent b);;
     bn ← node b;
     upd_if (nright bn) (set_parent b));;
  an ← node a;
  bn ← node b;
  upd a (set_balance (nbalance bn));;
  upd b (set_balance (nbalance an)).

(** The parent of [nd] points at the child [c] instead *)
Definition bypass (nd parent c : ptr) : TM unit :=
  if is_null parent then modify (with_root c);; upd c (set_parent None)
  else
    l ← is_left_child nd;
    upd parent (set_lr l c);;
    upd c (set_parent parent).

(** The second half of __remove_node: [nd] has at most one child *)
Definition unlink (nd parent : ptr) : TM unit :=
  n ← node nd;
  if negb (is_null (nleft n)) && is_null (nright n) then
    retrace_delete (nleft n);;
    n ← node nd;
    kassert (bool_decide (parent = nparent n));;
    bypass nd parent (nleft n)
  else if negb (is_null (nright n)) && is_null (nleft n) then
    retrace_delete (nright n);;
    n ← node nd;
    kassert (bool_decide (parent = nparent n));;
    bypass nd parent (nright n)
  else
    retrace_delete nd;;
    if negb (is_null parent) then
      n ← node nd;
      kassert (bool_decide (parent = nparent n));;
      l ← is_left_child nd;
      upd parent (set_lr l None)
    else
      modify (with_root None);;
      modify (with_ends None None);;
      sz ← gets current_size;
      kassert (sz =? 1).

Definition remove_node (nd : ptr) : TM unit :=
  n ← node nd;
  parent ←
    (if negb (is_null (nleft n)) && negb (is_null (nright n)) then
       f ← gets tree_fuel;
       s ← go_left f (nright n);
       swap_nodes nd s;;
       n ← node nd;
       mret (nparent n)
     else mret (nparent n));
  unlink nd parent;;
  modify (λ t, with_size (u64 (current_size t - 1)) t).

Definition extract_node (place : ptr) (destroy : bool) : TM ptr :=
  fst ← gets first;
  lst ← gets last;
  kassert (negb (is_null fst) && negb (is_null lst));;
  result ← tree_next place;
  ends ←
    (if bool_decide (fst = lst) then
       kassert (bool_decide (place = fst));; mret (None, None)
     else if bool_decide (fst = place) then mret (result, lst)
     else if bool_decide (lst = place) then p ← tree_prev lst; mret (fst, p)
     else mret (fst, lst));
  modify (with_ends (Datatypes.fst ends) (Datatypes.snd ends));;
  remove_node place;;
  (if destroy then free_node place
   else
     upd place (set_parent None);;
     upd place (set_left None);;
     upd place (set_right None);;
     upd place (set_balance 0));;
  mret result.

Definition erase (k : K) : TM Z :=
  p ← tree_find k;
  if is_null p then mret 0 else extract_node p true;; mret 1.
Definition extract (k : K) : TM ptr :=
  p ← tree_find k;
  if is_null p then mret None else extract_node p false;; mret p.

Fixpoint clear_loop (fuel : nat) (p : ptr) : TM unit :=
  match fuel with
  | O => throw OutOfFuel
  | S fuel =>
      if is_null p then mret tt
      else
        n ← node p;
        if negb (is_null (nleft n)) then clear_loop fuel (nleft n)
        else if negb (is_null (nright n)) then clear_loop fuel (nright n)
        else
          (if is_null (nparent n) then mret tt
           else l ← is_left_child p; upd (nparent n) (set_lr l None));;
          free_node p;;
          clear_loop fuel (nparent n)
  end.
Definition clear : TM unit :=
  f ← gets tree_fuel;
  p ← gets root;
  clear_loop (f + f) p;;
  modify (with_root None);;
  modify (with_ends None None);;
  modify (with_size 0).

(** ** validate *)

Definition node_sound (p : ptr) (n : node_t K) : TM bool :=
  k ← item p;
  rt ← gets root;
  linked ←
    (if is_null (nparent n) then mret (bool_decide (rt = p))
     else
       pn ← node (nparent n);
       pk ← item (nparent n);
       mret ((bool_decide (nleft pn = p) || bool_decide (nright pn = p))
             && (negb (bool_decide (nleft pn = p)) || cmp k pk)
             && (negb (bool_decide (nright pn = p)) || cmp pk k)));
  mret (negb (negb (is_null (nleft n)) && bool_decide (nleft n = nright n)) && linked
        && negb ((nbalance n <? 0) && is_null (nleft n))
        && negb ((0 <? nbalance n) && is_null (nright n))
        && negb (negb (nbalance n =? 0) && is_null (nleft n) && is_null (nright n))).

(** The order of neighbours is checked with operator<, [ltb]. *)
Fixpoint validate_loop (ltb : K → K → bool) (fuel : nat) (curr : ptr) (expect : Z) : TM (option Z) :=
  match fuel with
  | O => throw OutOfFuel
  | S fuel =>
      if is_null curr then mret (Some expect)
      else
        next ← tree_next curr;
        n ← node curr;
        ok ← node_sound curr n;
        ordered ← (if is_null next then mret true else k ← item curr; k' ← item next; mret (ltb k k'));
        if ok && ordered then validate_loop ltb fuel next (u64 (expect + 1)) else mret None
  end.

Definition validate (ltb : K → K → bool) : TM bool :=
  f ← gets tree_fuel;
  fst ← gets first;
  lst ← gets last;
  r ← validate_loop ltb f fst 0;
  match r with
  | None => mret false
  | Some n =>
      mn ← tree_min;
      mx ← tree_max;
      sz ← gets current_size;
      mret (bool_decide (fst = mn) && bool_decide (lst = mx) && (sz =? n))
  end.
End ops.
