(* ===== verification/AvlRep.v ===== *)
(** * The AVL tree in memory: shapes, contexts and single steps

    [rep] reads the nodes in the store as an inductive tree, [repc] as the
    path from a position up to the root; [focus s c t] says that the store
    holds the tree [plug c t], with the attention on the subtree [t].  The
    lemmas describe how the pointer updates of kernel/lib/basic_set.h move or
    change the focus. *)

From stdpp Require Import base tactics list numbers option gmap.
From S2P Require Import Prelude AvlTree.

#[local] Open Scope Z_scope.

(** ** Trees and contexts *)

Inductive atree (K : Type) :=
  | Leaf
  | T (a : addr) (b : Z) (k : K) (l r : atree K).
Arguments Leaf {K}.
Arguments T {K}.

(** One step of a path: the node passed, and its other subtree *)
Record frame (K : Type) := Frame {
  fleft : bool;       (* the path goes on to the left *)
  faddr : addr;
  fbal : Z;
  fkey : K;
  fsib : atree K
}.
Arguments Frame {K}.
Arguments fleft {K}.
Arguments faddr {K}.
Arguments fbal {K}.
Arguments fkey {K}.
Arguments fsib {K}.

Section shapes.
Context {K : Type}.
Implicit Types (t l r : atree K) (c : list (frame K)) (m : gmap addr (node_t K)).

Definition ptr_of t : ptr := match t with Leaf => None | T a _ _ _ _ => Some a end.
Fixpoint addrs t : list addr :=
  match t with Leaf => [] | T a _ _ l r => addrs l ++ a :: addrs r end.
(** The nodes in order, with their items *)
Fixpoint ents t : list (addr * K) :=
  match t with Leaf => [] | T a _ k l r => ents l ++ (a, k) :: ents r end.

Definition cparent c : ptr := match c with [] => None | f :: _ => Some (faddr f) end.
Definition close (f : frame K) t : atree K :=
  if fleft f then T (faddr f) (fbal f) (fkey f) t (fsib f)
  else T (faddr f) (fbal f) (fkey f) (fsib f) t.
Fixpoint plug c t : atree K := match c with [] => t | f :: c => plug c (close f t) end.
Fixpoint caddrs c : list addr :=
  match c with [] => [] | f :: c => faddr f :: addrs (fsib f) ++ caddrs c end.

(** The nodes before and after the position, in order *)
Fixpoint lents c : list (addr * K) :=
  match c with
  | [] => []
  | f :: c => if fleft f then lents c else lents c ++ ents (fsib f) ++ [(faddr f, fkey f)]
  end.
Fixpoint rents c : list (addr * K) :=
  match c with
  | [] => []
  | f :: c => if fleft f then (faddr f, fkey f) :: ents (fsib f) ++ rents c else rents c
  end.

Fixpoint rep m (par : ptr) t : Prop :=
  match t with
  | Leaf => True
  | T a b k l r =>
      m !! a = Some (Node (ptr_of l) (ptr_of r) par b (Some k)) ∧ rep m (Some a) l ∧ rep m (Some a) r
  end.
Fixpoint repc m c (h : ptr) : Prop :=
  match c with
  | [] => True
  | f :: c =>
      m !! faddr f = Some (Node (if fleft f then h else ptr_of (fsib f))
                                (if fleft f then ptr_of (fsib f) else h)
                                (cparent c) (fbal f) (Some (fkey f)))
      ∧ rep m (Some (faddr f)) (fsib f) ∧ repc m c (Some (faddr f))
  end.

Lemma ptr_of_close f t : ptr_of (close f t) = Some (faddr f).
Proof. unfold close. by destruct (fleft f). Qed.

Lemma addrs_close f t : addrs (close f t) ≡ₚ addrs t ++ faddr f :: addrs (fsib f).
Proof. unfold close. destruct (fleft f); simpl; [done|]. rewrite (Permutation_app_comm (addrs t)). simpl. by rewrite Permutation_middle. Qed.

Lemma addrs_plug c t : addrs (plug c t) ≡ₚ addrs t ++ caddrs c.
Proof.
  revert t. induction c as [|f c IH]; intros t; simpl; [by rewrite app_nil_r|].
  rewrite IH, addrs_close, <- app_assoc. done.
Qed.

Lemma ents_plug c t : ents (plug c t) = lents c ++ ents t ++ rents c.
Proof.
  revert t. induction c as [|f c IH]; intros t; simpl; [by rewrite app_nil_r|].
  rewrite IH. unfold close. destruct (fleft f); simpl; by rewrite <- ?app_assoc; simpl; rewrite <- ?app_assoc.
Qed.

Lemma lents_app c1 c2 : lents (c1 ++ c2) = lents c2 ++ lents c1.
Proof.
  induction c1 as [|f c1 IH]; simpl; [by rewrite app_nil_r|]. rewrite IH.
  destruct (fleft f); [done|]. by rewrite <- app_assoc.
Qed.
Lemma rents_app c1 c2 : rents (c1 ++ c2) = rents c1 ++ rents c2.
Proof. induction c1 as [|f c1 IH]; simpl; [done|]. rewrite IH. destruct (fleft f); [|done]. by rewrite app_comm_cons, app_assoc. Qed.
Lemma caddrs_app c1 c2 : caddrs (c1 ++ c2) = caddrs c1 ++ caddrs c2.
Proof. induction c1 as [|f c1 IH]; simpl; [done|]. by rewrite IH, app_assoc. Qed.
Lemma plug_app c1 c2 t : plug (c1 ++ c2) t = plug c2 (plug c1 t).
Proof. revert t. induction c1 as [|f c1 IH]; intros t; simpl; [done|]. apply IH. Qed.

Lemma ents_addrs t : (ents t).*1 = addrs t.
Proof. induction t as [|a b k l IHl r IHr]; simpl; [done|]. by rewrite fmap_app, fmap_cons, IHl, IHr. Qed.
Lemma cents_addrs c : (lents c ++ rents c).*1 ≡ₚ caddrs c.
Proof.
  pose proof (addrs_plug c Leaf) as Hp. rewrite <- ents_addrs, ents_plug in Hp. by simpl in Hp.
Qed.

Lemma rep_frame m m' par t :
  rep m par t → (∀ a, a ∈ addrs t → m' !! a = m !! a) → rep m' par t.
Proof.
  revert par. induction t as [|a b k l IHl r IHr]; intros par; simpl; [done|].
  intros (Ha & Hl & Hr) Hm. split_and!.
  - rewrite Hm; [done|set_solver].
  - apply IHl; [done|]. set_solver.
  - apply IHr; [done|]. set_solver.
Qed.

Lemma repc_frame m m' c h :
  repc m c h → (∀ a, a ∈ caddrs c → m' !! a = m !! a) → repc m' c h.
Proof.
  revert h. induction c as [|f c IH]; intros h; simpl; [done|].
  intros (Ha & Hs & Hc) Hm. split_and!.
  - rewrite Hm; [done|set_solver].
  - eapply rep_frame; [done|]. set_solver.
  - apply IH; [done|]. set_solver.
Qed.

(** What the pointers of a represented tree point at *)
Lemma rep_ptr m par t a : rep m par t → ptr_of t = Some a → a ∈ addrs t ∧ is_Some (m !! a).
Proof. destruct t; simpl; [done|]. intros (Ha & _) [= <-]. split; [set_solver|by rewrite Ha]. Qed.
Lemma rep_in m par t a : rep m par t → a ∈ addrs t → is_Some (m !! a).
Proof.
  revert par. induction t as [|a' b k l IHl r IHr]; intros par; simpl; [set_solver|].
  intros (Ha & Hl & Hr). rewrite elem_of_app, elem_of_cons. intros [Hx|[->|Hx]]; eauto.
Qed.

(** [reparent p q]: if (p) p->parent = q *)
Definition reparent (p q : ptr) m : gmap addr (node_t K) :=
  match p with Some a => alter (set_parent q) a m | None => m end.

Lemma reparent_ne p q m a : p ≠ Some a → reparent p q m !! a = m !! a.
Proof. destruct p as [b|]; simpl; [|done]. intros Hne. apply lookup_alter_ne. congruence. Qed.

Lemma rep_reparent m par q t :
  rep m par t → NoDup (addrs t) → rep (reparent (ptr_of t) q m) q t.
Proof.
  destruct t as [|a b k l r]; simpl; [done|]. intros (Ha & Hl & Hr) Hnd.
  rewrite NoDup_app, NoDup_cons in Hnd. destruct Hnd as (_ & Hdis & Hni & _).
  split_and!.
  - by rewrite lookup_alter_eq, Ha.
  - eapply rep_frame; [done|]. intros x Hx. apply lookup_alter_ne. intros ->. eapply Hdis; [done|]. set_solver.
  - eapply rep_frame; [done|]. intros x Hx. apply lookup_alter_ne. intros ->. done.
Qed.

Lemma rep_inj m par t p : rep m p t → rep m par t → t ≠ Leaf → p = par.
Proof. destruct t; simpl; [done|]. intros (H1 & _) (H2 & _) _. congruence. Qed.
End shapes.

(** ** Runs of single accesses *)

Section runs.
Context {K A : Type} `{NodeAlloc A}.
Abbreviation tree := (tree_t K A).
Implicit Types (s : tree) (t l r : atree K) (c : list (frame K)) (m : gmap addr (node_t K)).

Lemma node_done s a n : nodes s !! a = Some n → node (Some a) s = Done (n, s).
Proof. unfold node. simpl. by intros ->. Qed.
Lemma upd_done s a n f : nodes s !! a = Some n → upd (Some a) f s = Done (tt, with_nodes (<[a := f n]> (nodes s)) s).
Proof. unfold upd. by intros ->. Qed.
Lemma bind_node {B} s a n (k : node_t K → M tree B) : nodes s !! a = Some n → (node (Some a) ≫= k) s = k n s.
Proof. intros Hn. by rewrite (bind_done _ _ _ _ _ (node_done _ _ _ Hn)). Qed.
Lemma bind_upd {B} s a n f (k : unit → M tree B) :
  nodes s !! a = Some n → (upd (Some a) f ≫= k) s = k tt (with_nodes (<[a := f n]> (nodes s)) s).
Proof. intros Hn. by rewrite (bind_done _ _ _ _ _ (upd_done _ _ _ _ Hn)). Qed.
Lemma item_done s a n k : nodes s !! a = Some n → nitem n = Some k → item (Some a) s = Done (k, s).
Proof. intros Hn Hk. unfold item. rewrite (bind_node _ _ _ _ Hn), Hk. done. Qed.
Lemma bind_item {B} s a n v (k : K → M tree B) :
  nodes s !! a = Some n → nitem n = Some v → (item (Some a) ≫= k) s = k v s.
Proof. intros Hn Hv. by rewrite (bind_done _ _ _ _ _ (item_done _ _ _ _ Hn Hv)). Qed.

Lemma alter_known m a n f : m !! a = Some n → alter f a m = <[a := f n]> m.
Proof.
  intros Hn. apply map_eq. intros i. destruct (decide (a = i)) as [->|].
  - by rewrite lookup_alter_eq, lookup_insert_eq, Hn.
  - by rewrite lookup_alter_ne, lookup_insert_ne.
Qed.

Lemma upd_if_done s p q :
  (∀ a, p = Some a → is_Some (nodes s !! a)) →
  upd_if p (set_parent q) s = Done (tt, with_nodes (reparent p q (nodes s)) s).
Proof.
  intros Hp. unfold upd_if. destruct p as [a|]; cbn [is_null reparent].
  - destruct (Hp a eq_refl) as [n Hn]. rewrite (upd_done _ _ _ _ Hn), (alter_known _ _ _ _ Hn). done.
  - by destruct s.
Qed.
Lemma bind_upd_if {B} s p q (k : unit → M tree B) :
  (∀ a, p = Some a → is_Some (nodes s !! a)) →
  (upd_if p (set_parent q) ≫= k) s = k tt (with_nodes (reparent p q (nodes s)) s).
Proof. intros Hp. by rewrite (bind_done _ _ _ _ _ (upd_if_done _ _ q Hp)). Qed.

Lemma done_store {B} (v : B) m m' (rt f l : ptr) n (h : A) :
  m = m' → Done (v, Tree m rt f l n h) = Done (v, Tree m' rt f l n h).
Proof. by intros ->. Qed.
End runs.

(** A lookup in a chain of updates at known, distinct addresses *)
Ltac at_addr :=
  cbn [nodes with_nodes];
  repeat first
    [ eassumption
    | rewrite lookup_insert_eq; reflexivity
    | rewrite lookup_insert_ne by congruence ].
(** One access of the goal's run *)
Ltac access :=
  first
    [ rewrite bind_assoc
    | rewrite bind_mret
    | erewrite bind_node; [|solve [at_addr]]
    | erewrite bind_item; [|solve [at_addr]|reflexivity]
    | erewrite bind_upd; [|solve [at_addr]]
    | erewrite upd_done; [|solve [at_addr]] ];
  cbn [set_left set_right set_parent set_balance set_item nleft nright nparent nbalance nitem
       nodes root first last current_size alloc with_nodes is_null negb select_lr set_lr];
  repeat match goal with
  | |- context [with_nodes ?m (with_nodes ?m' ?s)] =>
      change (with_nodes m (with_nodes m' s)) with (with_nodes m s)
  end.
(** Two chains of updates are the same store *)
Ltac same_map :=
  apply map_eq; intros i;
  repeat match goal with
  | |- context [<[?a := _]> _ !! i] =>
      first
        [ rewrite (lookup_insert_ne _ a i) by congruence
        | destruct (decide (i = a)) as [->|];
          [repeat first [rewrite lookup_insert_eq | rewrite lookup_insert_ne by congruence]; reflexivity|] ]
  end; reflexivity.
Ltac same_store :=
  unfold with_nodes; cbn [nodes root first last current_size alloc]; apply done_store; same_map.

Section rotations.
Context {K A : Type} `{NodeAlloc A}.
Abbreviation tree := (tree_t K A).
Implicit Types (s : tree) (t l r : atree K) (c : list (frame K)) (m : gmap addr (node_t K)).

(** The store after a rotation: [x], [z] (and [y]) with their new links and
    balances, the inner subtrees below their new parents *)
Definition rotated_left (x z : addr) (bx bz : Z) (xn zn : node_t K) m : gmap addr (node_t K) :=
  <[x := Node (nleft xn) (nleft zn) (Some z) bx (nitem xn)]>
    (<[z := Node (Some x) (nright zn) (nparent zn) bz (nitem zn)]> (reparent (nleft zn) (Some x) m)).
Definition rotated_right (x z : addr) (bx bz : Z) (xn zn : node_t K) m : gmap addr (node_t K) :=
  <[x := Node (nright zn) (nright xn) (Some z) bx (nitem xn)]>
    (<[z := Node (nleft zn) (Some x) (nparent zn) bz (nitem zn)]> (reparent (nright zn) (Some x) m)).
Definition rotated_rl (x z y : addr) (bx bz : Z) (xn zn yn : node_t K) m : gmap addr (node_t K) :=
  <[x := Node (nleft xn) (nleft yn) (Some y) bx (nitem xn)]>
    (<[z := Node (nright yn) (nright zn) (Some y) bz (nitem zn)]>
      (<[y := Node (Some x) (Some z) (nparent yn) 0 (nitem yn)]>
        (reparent (nleft yn) (Some x) (reparent (nright yn) (Some z) m)))).
Definition rotated_lr (x z y : addr) (bx bz : Z) (xn zn yn : node_t K) m : gmap addr (node_t K) :=
  <[x := Node (nright yn) (nright xn) (Some y) bx (nitem xn)]>
    (<[z := Node (nleft zn) (nleft yn) (Some y) bz (nitem zn)]>
      (<[y := Node (Some z) (Some x) (nparent yn) 0 (nitem yn)]>
        (reparent (nright yn) (Some x) (reparent (nleft yn) (Some z) m)))).

(** The balances that the rotations leave behind *)
Definition single_bal (sign bz : Z) : Z * Z := if bz =? 0 then (sign, - sign) else (0, 0).
Definition rl_bal (by_ : Z) : Z * Z := if 0 <? by_ then (-1, 0) else if by_ =? 0 then (0, 0) else (0, 1).
Definition lr_bal (by_ : Z) : Z * Z := if 0 <? by_ then (0, -1) else if by_ =? 0 then (0, 0) else (1, 0).

(** A pointer that is null or at a known node, away from the nodes rotated *)
Definition aside s (p : ptr) (X : list addr) : Prop :=
  ∀ a, p = Some a → is_Some (nodes s !! a) ∧ a ∉ X.

#[local] Ltac known_ptrs :=
  repeat match goal with
  | H : aside _ (Some ?c) _ |- _ =>
      let Hn := fresh "Hn" in let Hi := fresh "Hi" in let n := fresh "n" in
      destruct (H c eq_refl) as [[n Hn] Hi]; clear H; rewrite ?not_elem_of_cons in Hi;
      destruct_and! Hi
  | H : ∀ a, Some ?c = Some a → Some ?d ≠ Some a |- _ => specialize (H c eq_refl)
  end.

Lemma rotate_left_run s x z xn zn :
  nodes s !! x = Some xn → nodes s !! z = Some zn → x ≠ z → aside s (nleft zn) [x; z] →
  let '(bx, bz) := single_bal 1 (nbalance zn) in
  rotate_left (Some x) (Some z) s = Done (Some z, with_nodes (rotated_left x z bx bz xn zn (nodes s)) s).
Proof.
  intros Hx Hz Hxz Hc. unfold rotate_left, rotated_left, upd_if, single_bal.
  destruct xn as [xl xr xp xb xk], zn as [[c|] zr zp zb zk]; cbn [nleft nright nparent nbalance nitem] in *.
  - known_ptrs. cbn [reparent]. rewrite (alter_known _ _ _ _ ltac:(eassumption)). repeat access. destruct (zb =? 0); repeat access; same_store.
  - repeat access. destruct (zb =? 0); repeat access; same_store.
Qed.

Lemma rotate_right_run s x z xn zn :
  nodes s !! x = Some xn → nodes s !! z = Some zn → x ≠ z → aside s (nright zn) [x; z] →
  let '(bx, bz) := single_bal (-1) (nbalance zn) in
  rotate_right (Some x) (Some z) s = Done (Some z, with_nodes (rotated_right x z bx bz xn zn (nodes s)) s).
Proof.
  intros Hx Hz Hxz Hc. unfold rotate_right, rotated_right, upd_if, single_bal.
  destruct xn as [xl xr xp xb xk], zn as [zl [c|] zp zb zk]; cbn [nleft nright nparent nbalance nitem] in *.
  - known_ptrs. cbn [reparent]. rewrite (alter_known _ _ _ _ ltac:(eassumption)). repeat access. destruct (zb =? 0); repeat access; same_store.
  - repeat access. destruct (zb =? 0); repeat access; same_store.
Qed.

Lemma rotate_rightleft_run s x z y xn zn yn :
  nodes s !! x = Some xn → nodes s !! z = Some zn → nodes s !! y = Some yn → nleft zn = Some y →
  x ≠ z → x ≠ y → z ≠ y → aside s (nleft yn) [x; z; y] → aside s (nright yn) [x; z; y] →
  (∀ a, nleft yn = Some a → nright yn ≠ Some a) →
  let '(bx, bz) := rl_bal (nbalance yn) in
  rotate_rightleft (Some x) (Some z) s = Done (Some y, with_nodes (rotated_rl x z y bx bz xn zn yn (nodes s)) s).
Proof.
  intros Hx Hz Hy Hzl Hxz Hxy Hzy Hc Hd Hcd. unfold rotate_rightleft, rotated_rl, rl_bal.
  destruct xn as [xl xr xp xb xk], zn as [zl zr zp zb zk], yn as [yl yr yp yb yk].
  cbn [nleft nright nparent nbalance nitem] in *. subst zl.
  destruct yl as [c|], yr as [d|]; known_ptrs; unfold upd_if; cbn [reparent];
    try rewrite (alter_known _ d _ _ ltac:(eassumption));
    try (erewrite (alter_known _ c); [|solve [at_addr]]); repeat access;
    (destruct (0 <? yb); [|destruct (yb =? 0)]); repeat access; same_store.
Qed.

Lemma rotate_leftright_run s x z y xn zn yn :
  nodes s !! x = Some xn → nodes s !! z = Some zn → nodes s !! y = Some yn → nright zn = Some y →
  x ≠ z → x ≠ y → z ≠ y → aside s (nleft yn) [x; z; y] → aside s (nright yn) [x; z; y] →
  (∀ a, nleft yn = Some a → nright yn ≠ Some a) →
  let '(bx, bz) := lr_bal (nbalance yn) in
  rotate_leftright (Some x) (Some z) s = Done (Some y, with_nodes (rotated_lr x z y bx bz xn zn yn (nodes s)) s).
Proof.
  intros Hx Hz Hy Hzl Hxz Hxy Hzy Hc Hd Hcd. unfold rotate_leftright, rotated_lr, lr_bal.
  destruct xn as [xl xr xp xb xk], zn as [zl zr zp zb zk], yn as [yl yr yp yb yk].
  cbn [nleft nright nparent nbalance nitem] in *. subst zr.
  destruct yl as [c|], yr as [d|]; known_ptrs; unfold upd_if; cbn [reparent];
    try rewrite (alter_known _ c _ _ ltac:(eassumption));
    try (erewrite (alter_known _ d); [|solve [at_addr]]); repeat access;
    (destruct (0 <? yb); [|destruct (yb =? 0)]); repeat access; same_store.
Qed.

Lemma ptr_of_elem t a : ptr_of t = Some a → a ∈ addrs t.
Proof. destruct t; simpl; [done|]. intros [= ->]. set_solver. Qed.

Lemma reparent_out t q m a : a ∉ addrs t → reparent (ptr_of t) q m !! a = m !! a.
Proof. intros Ha. apply reparent_ne. intros Hp. by apply ptr_of_elem in Hp. Qed.

(** The rotated store holds the rotated tree, and nothing else changed *)
Lemma rotated_left_rep m par x bx bz kx l z bz0 bx0 kz t23 t4 :
  let t := T x bx0 kx l (T z bz0 kz t23 t4) in
  let m' := rotated_left x z bx bz (Node (ptr_of l) (Some z) par bx0 (Some kx))
                         (Node (ptr_of t23) (ptr_of t4) (Some x) bz0 (Some kz)) m in
  rep m par t → NoDup (addrs t) →
  rep m' (Some x) (T z bz kz (T x bx kx l t23) t4) ∧ ∀ a, a ∉ addrs t → m' !! a = m !! a.
Proof.
  cbv zeta. intros (Hx & Hl & Hz & Ht23 & Ht4) Hnd.
  cbn [addrs] in *. rewrite NoDup_app, NoDup_cons, NoDup_app, NoDup_cons in Hnd.
  destruct Hnd as (_ & H1 & H2 & H3 & H4 & H5 & _).
  pose proof (rep_reparent _ _ (Some x) _ Ht23 H3) as Ht23'.
  unfold rotated_left. cbn [nleft nright nparent nbalance nitem].
  assert (x ≠ z) by set_solver.
  set (m' := <[x := _]> _).
  assert (∀ a, a ≠ x → a ≠ z → a ∉ addrs t23 → m' !! a = m !! a) as Hout.
  { intros a Hax Haz Ha. unfold m'. rewrite !lookup_insert_ne by done. by apply reparent_out. }
  split; [cbn [rep ptr_of]; split_and!|].
  - unfold m'. by rewrite lookup_insert_ne, lookup_insert_eq.
  - unfold m'. by rewrite lookup_insert_eq.
  - eapply rep_frame; [done|]. intros a Ha. apply Hout; set_solver.
  - eapply rep_frame; [done|]. intros a Ha. unfold m'. rewrite !lookup_insert_ne by set_solver. done.
  - eapply rep_frame; [done|]. intros a Ha. apply Hout; set_solver.
  - intros a Ha. apply Hout; set_solver.
Qed.

Lemma rotated_right_rep m par x bx bz kx r z bz0 bx0 kz t1 t23 :
  let t := T x bx0 kx (T z bz0 kz t1 t23) r in
  let m' := rotated_right x z bx bz (Node (Some z) (ptr_of r) par bx0 (Some kx))
                         (Node (ptr_of t1) (ptr_of t23) (Some x) bz0 (Some kz)) m in
  rep m par t → NoDup (addrs t) →
  rep m' (Some x) (T z bz kz t1 (T x bx kx t23 r)) ∧ ∀ a, a ∉ addrs t → m' !! a = m !! a.
Proof.
  cbv zeta. intros (Hx & (Hz & Ht1 & Ht23) & Hr) Hnd.
  cbn [addrs] in *. rewrite <- app_assoc in Hnd. cbn [app] in Hnd.
  rewrite NoDup_app, NoDup_cons, NoDup_app, NoDup_cons in Hnd.
  destruct Hnd as (_ & H1 & H2 & H3 & H4 & H5 & _).
  pose proof (rep_reparent _ _ (Some x) _ Ht23 H3) as Ht23'.
  unfold rotated_right. cbn [nleft nright nparent nbalance nitem].
  assert (x ≠ z) by set_solver.
  set (m' := <[x := _]> _).
  assert (∀ a, a ≠ x → a ≠ z → a ∉ addrs t23 → m' !! a = m !! a) as Hout.
  { intros a Hax Haz Ha. unfold m'. rewrite !lookup_insert_ne by done. by apply reparent_out. }
  split; [cbn [rep ptr_of]; split_and!|].
  - unfold m'. by rewrite lookup_insert_ne, lookup_insert_eq.
  - eapply rep_frame; [done|]. intros a Ha. apply Hout; set_solver.
  - unfold m'. by rewrite lookup_insert_eq.
  - eapply rep_frame; [done|]. intros a Ha. unfold m'. rewrite !lookup_insert_ne by set_solver. done.
  - eapply rep_frame; [done|]. intros a Ha. apply Hout; set_solver.
  - intros a Ha. apply Hout; set_solver.
Qed.

Lemma rotated_rl_rep m par x bx bz kx l z bz0 bx0 kz y by0 ky t2 t3 t4 :
  let t := T x bx0 kx l (T z bz0 kz (T y by0 ky t2 t3) t4) in
  let m' := rotated_rl x z y bx bz (Node (ptr_of l) (Some z) par bx0 (Some kx))
              (Node (Some y) (ptr_of t4) (Some x) bz0 (Some kz))
              (Node (ptr_of t2) (ptr_of t3) (Some z) by0 (Some ky)) m in
  rep m par t → NoDup (addrs t) →
  rep m' (Some z) (T y 0 ky (T x bx kx l t2) (T z bz kz t3 t4)) ∧ ∀ a, a ∉ addrs t → m' !! a = m !! a.
Proof.
  cbv zeta. intros (Hx & Hl & Hz & (Hy & Ht2 & Ht3) & Ht4) Hnd.
  cbn [addrs] in *. rewrite <- app_assoc in Hnd. cbn [app] in Hnd.
  rewrite NoDup_app, NoDup_cons, NoDup_app, NoDup_cons, NoDup_app, NoDup_cons in Hnd.
  destruct Hnd as (_ & H1 & H2 & H3 & H4 & H5 & H6 & H7 & H8 & _).
  pose proof (rep_reparent _ _ (Some z) _ Ht3 H6) as Ht3'.
  assert (rep (reparent (ptr_of t3) (Some z) m) (Some y) t2) as Ht2a.
  { eapply rep_frame; [done|]. intros a Ha. apply reparent_out. set_solver. }
  pose proof (rep_reparent _ _ (Some x) _ Ht2a H3) as Ht2'.
  unfold rotated_rl. cbn [nleft nright nparent nbalance nitem].
  assert (x ≠ z) by set_solver. assert (x ≠ y) by set_solver. assert (z ≠ y) by set_solver.
  set (m' := <[x := _]> _).
  assert (∀ a, a ≠ x → a ≠ z → a ≠ y → a ∉ addrs t2 → a ∉ addrs t3 → m' !! a = m !! a) as Hout.
  { intros a Hax Haz Hay Ha Ha'. unfold m'. rewrite !lookup_insert_ne by done. by rewrite !reparent_out. }
  split; [cbn [rep ptr_of]; split_and!|].
  - unfold m'. do 2 rewrite lookup_insert_ne by done. by rewrite lookup_insert_eq.
  - unfold m'. by rewrite lookup_insert_eq.
  - eapply rep_frame; [done|]. intros a Ha. apply Hout; set_solver.
  - eapply rep_frame; [done|]. intros a Ha. unfold m'. rewrite !lookup_insert_ne by set_solver. done.
  - unfold m'. by rewrite lookup_insert_ne, lookup_insert_eq.
  - eapply rep_frame; [done|]. intros a Ha. unfold m'. rewrite !lookup_insert_ne by set_solver.
    apply reparent_out. set_solver.
  - eapply rep_frame; [done|]. intros a Ha. apply Hout; set_solver.
  - intros a Ha. apply Hout; set_solver.
Qed.

Lemma rotated_lr_rep m par x bx bz kx r z bz0 bx0 kz y by0 ky t1 t2 t3 :
  let t := T x bx0 kx (T z bz0 kz t1 (T y by0 ky t2 t3)) r in
  let m' := rotated_lr x z y bx bz (Node (Some z) (ptr_of r) par bx0 (Some kx))
              (Node (ptr_of t1) (Some y) (Some x) bz0 (Some kz))
              (Node (ptr_of t2) (ptr_of t3) (Some z) by0 (Some ky)) m in
  rep m par t → NoDup (addrs t) →
  rep m' (Some z) (T y 0 ky (T z bz kz t1 t2) (T x bx kx t3 r)) ∧ ∀ a, a ∉ addrs t → m' !! a = m !! a.
Proof.
  cbv zeta. intros (Hx & (Hz & Ht1 & (Hy & Ht2 & Ht3)) & Hr) Hnd.
  cbn [addrs] in *. do 2 (rewrite <- app_assoc in Hnd; cbn [app] in Hnd).
  rewrite NoDup_app, NoDup_cons, NoDup_app, NoDup_cons, NoDup_app, NoDup_cons in Hnd.
  destruct Hnd as (_ & H1 & H2 & H3 & H4 & H5 & H6 & H7 & H8 & _).
  pose proof (rep_reparent _ _ (Some z) _ Ht2 H3) as Ht2'.
  assert (rep (reparent (ptr_of t2) (Some z) m) (Some y) t3) as Ht3a.
  { eapply rep_frame; [done|]. intros a Ha. apply reparent_out. set_solver. }
  pose proof (rep_reparent _ _ (Some x) _ Ht3a H6) as Ht3'.
  unfold rotated_lr. cbn [nleft nright nparent nbalance nitem].
  assert (x ≠ z) by set_solver. assert (x ≠ y) by set_solver. assert (z ≠ y) by set_solver.
  set (m' := <[x := _]> _).
  assert (∀ a, a ≠ x → a ≠ z → a ≠ y → a ∉ addrs t2 → a ∉ addrs t3 → m' !! a = m !! a) as Hout.
  { intros a Hax Haz Hay Ha Ha'. unfold m'. rewrite !lookup_insert_ne by done. by rewrite !reparent_out. }
  split; [cbn [rep ptr_of]; split_and!|].
  - unfold m'. do 2 rewrite lookup_insert_ne by done. by rewrite lookup_insert_eq.
  - unfold m'. by rewrite lookup_insert_ne, lookup_insert_eq.
  - eapply rep_frame; [done|]. intros a Ha. apply Hout; set_solver.
  - eapply rep_frame; [done|]. intros a Ha. unfold m'. rewrite !lookup_insert_ne by set_solver.
    apply reparent_out. set_solver.
  - unfold m'. by rewrite lookup_insert_eq.
  - eapply rep_frame; [done|]. intros a Ha. unfold m'. rewrite !lookup_insert_ne by set_solver. done.
  - eapply rep_frame; [done|]. intros a Ha. apply Hout; set_solver.
  - intros a Ha. apply Hout; set_solver.
Qed.
End rotations.
