(* ===== verification/AvlFocus.v ===== *)
(** * The AVL tree in memory: a focus that the operations move and change *)

From stdpp Require Import base tactics list numbers option gmap.
From S2P Require Import Prelude AvlTree AvlRep.

#[local] Open Scope Z_scope.

Section focus.
Context {K A : Type} `{NodeAlloc A}.
Abbreviation tree := (tree_t K A).
Implicit Types (s : tree) (t l r : atree K) (c : list (frame K)) (m : gmap addr (node_t K)).

Record focus s c t : Prop := Focus {
  fc_rep : rep (nodes s) (cparent c) t;
  fc_repc : repc (nodes s) c (ptr_of t);
  fc_nodup : NoDup (addrs t ++ caddrs c);
  fc_root : root s = ptr_of (plug c t)
}.

(** Nothing but the links and balances of the nodes in [X] changed *)
Record only_in (X : list addr) s s' : Prop := OnlyIn {
  oi_out : ∀ a, a ∉ X → nodes s' !! a = nodes s !! a;
  oi_dom : dom (nodes s') = dom (nodes s);
  oi_first : first s' = first s;
  oi_last : last s' = last s;
  oi_size : current_size s' = current_size s;
  oi_alloc : alloc s' = alloc s
}.

#[export] Instance only_in_preorder X : PreOrder (only_in X).
Proof.
  split; [by intros s|]. intros s1 s2 s3 H1 H2. destruct H1, H2.
  split; try congruence. intros a Ha. rewrite oi_out1, oi_out0; done.
Qed.

Lemma only_in_mono X Y s s' : only_in X s s' → (∀ a, a ∈ X → a ∈ Y) → only_in Y s s'.
Proof. intros [] HXY. split; try done. intros a Ha. apply oi_out0. naive_solver. Qed.

Lemma only_in_nodes X s m :
  (∀ a, a ∉ X → m !! a = nodes s !! a) → dom m = dom (nodes s) → only_in X s (with_nodes m s).
Proof. by split. Qed.

Lemma only_in_root X s p : only_in X s (with_root p s).
Proof. by split. Qed.

(** Moving up and down *)
Lemma focus_up s f c t : focus s (f :: c) t ↔ focus s c (close f t).
Proof.
  assert (NoDup (addrs t ++ caddrs (f :: c)) ↔ NoDup (addrs (close f t) ++ caddrs c)) as Hnd.
  { rewrite addrs_close. simpl. by rewrite <- app_assoc. }
  split; intros [Hr Hc Hn Ht]; destruct f as [d a b k sib]; simpl in *; unfold close in *; simpl in *.
  - destruct Hc as (Ha & Hs & Hc). destruct d; split; simpl in *; rewrite <- ?Hnd; try done.
  - destruct d; simpl in *; destruct Hr as (Ha & Hl & Hr); split; simpl; rewrite ?Hnd; done.
Qed.

Lemma focus_plug s c1 c2 t : focus s (c1 ++ c2) t ↔ focus s c2 (plug c1 t).
Proof.
  revert t. induction c1 as [|f c1 IH]; intros t; [done|]. cbn [app plug]. by rewrite focus_up.
Qed.

Lemma focus_top s c t : focus s c t ↔ focus s [] (plug c t).
Proof. rewrite <- focus_plug. by rewrite app_nil_r. Qed.

Lemma focus_node s c a b k l r :
  focus s c (T a b k l r) → nodes s !! a = Some (Node (ptr_of l) (ptr_of r) (cparent c) b (Some k)).
Proof. by intros [(Ha & _) _ _ _]. Qed.

Lemma focus_frame_node s f c t :
  focus s (f :: c) t →
  nodes s !! faddr f = Some (Node (if fleft f then ptr_of t else ptr_of (fsib f))
                                  (if fleft f then ptr_of (fsib f) else ptr_of t)
                                  (cparent c) (fbal f) (Some (fkey f))).
Proof. by intros [_ (Ha & _) _ _]. Qed.

Lemma focus_nodup s c t : focus s c t → NoDup (addrs t).
Proof. intros [_ _ Hn _]. by apply NoDup_app in Hn as (? & _). Qed.

Lemma focus_apart s c t a : focus s c t → a ∈ addrs t → a ∉ caddrs c.
Proof. intros [_ _ Hn _]. apply NoDup_app in Hn as (_ & Hd & _). apply Hd. Qed.

Lemma root_indep c t t' : c ≠ [] → ptr_of (plug c t) = ptr_of (plug c t').
Proof.
  revert t t'. induction c as [|f c IH]; [done|]. intros t t' _. cbn [plug].
  destruct c as [|g c]; [cbn [plug]; by rewrite !ptr_of_close|by apply IH].
Qed.

(** ** Replacing the subtree in focus

    [m] is a store that holds [t'] instead of [t] and has the rest of the
    tree unchanged, but the parent's link is still to be set. *)
Definition relinked c (p : ptr) m : gmap addr (node_t K) :=
  match c with
  | [] => m
  | f :: _ => alter (set_lr (fleft f) p) (faddr f) m
  end.

Lemma replace_focus s c t t' m s' :
  focus s c t →
  rep m (cparent c) t' → (∀ a, a ∈ caddrs c → m !! a = nodes s !! a) →
  (∀ a, a ∈ addrs t' → a ∉ caddrs c) → NoDup (addrs t') →
  nodes s' = relinked c (ptr_of t') m → root s' = (if c is [] then ptr_of t' else root s) →
  focus s' c t'.
Proof.
  intros Hf Hr Hmc Hd Hnd Hm Hrt.
  destruct Hf as [Hr0 Hc0 Hn0 Hroot]. apply NoDup_app in Hn0 as (_ & _ & Hn2). split; rewrite ?Hm.
  - destruct c as [|f c]; simpl; [done|]. eapply rep_frame; [done|]. intros a Ha.
    apply lookup_alter_ne. intros <-. eapply Hd; [done|]. simpl. set_solver.
  - destruct c as [|f c]; simpl in *; [done|]. destruct Hc0 as (Ha & Hs & Hc).
    apply NoDup_cons in Hn2 as [Hn2 Hn3]. split_and!.
    + rewrite lookup_alter_eq, Hmc, Ha by set_solver. simpl. destruct (fleft f); done.
    + eapply rep_frame; [done|]. intros a Ha'. rewrite lookup_alter_ne by (intros <-; set_solver). apply Hmc. set_solver.
    + eapply repc_frame; [done|]. intros a Ha'. rewrite lookup_alter_ne by (intros <-; set_solver). apply Hmc. set_solver.
  - by apply NoDup_app.
  - rewrite Hrt. destruct c as [|f c]; [done|]. rewrite Hroot. by apply root_indep.
Qed.

Lemma relinked_out c p m a : a ∉ caddrs c → relinked c p m !! a = m !! a.
Proof. destruct c as [|f c]; simpl; [done|]. intros Ha. apply lookup_alter_ne. set_solver. Qed.
Lemma relinked_dom c p m : dom (relinked c p m) = dom m.
Proof. destruct c; [done|]. apply dom_alter_L. Qed.
Lemma reparent_dom p q m : dom (reparent p q m) = dom m.
Proof. destruct p; [|done]. apply dom_alter_L. Qed.

(** [relink] after the nodes of [t] became those of [t'] *)
Lemma relink_done s c t t' m par x n :
  focus s c t → ptr_of t = Some x → ptr_of t' = Some n → rep m par t' →
  (∀ a, a ∉ addrs t → m !! a = nodes s !! a) → addrs t' = addrs t → dom m = dom (nodes s) →
  ∃ s', relink (cparent c) (Some x) (Some n) (with_nodes m s) = Done (tt, s')
    ∧ focus s' c t' ∧ only_in (addrs (plug c t)) s s'.
Proof.
  intros Hf Hx Hn Hr Hout Haddr Hdom.
  assert (NoDup (addrs t')) as Hnd by (rewrite Haddr; by eapply focus_nodup).
  pose proof (rep_reparent _ _ (cparent c) _ Hr Hnd) as Hr'. rewrite Hn in Hr'.
  assert (∀ a, a ∉ addrs t → reparent (Some n) (cparent c) m !! a = nodes s !! a) as Hout'.
  { intros a Ha. rewrite <- Hn, reparent_out by (by rewrite Haddr). by apply Hout. }
  destruct (rep_ptr _ _ _ _ Hr Hn) as [Hnin [nn Hnn]].
  set (s' := with_nodes (relinked c (Some n) (reparent (Some n) (cparent c) m))
               (with_root (if c is [] then Some n else root s) s)).
  exists s'. split_and!.
  - unfold relink. erewrite bind_upd; [|done]. cbn [with_nodes nodes].
    rewrite <- (alter_known _ _ _ _ Hnn). destruct c as [|f c]; cbn [cparent is_null]; [done|].
    assert (x ∉ caddrs (f :: c)) as Hxc by (eapply focus_apart; [done|]; by apply ptr_of_elem).
    pose proof (focus_frame_node _ _ _ _ Hf) as Hg. rewrite Hx in Hg.
    rewrite <- Hout' in Hg by (intros Ha; eapply focus_apart; [done..|]; simpl; set_solver).
    cbn [reparent] in *. erewrite bind_node; [|done]. cbn [nleft].
    unfold s'. cbn [relinked reparent]. rewrite (alter_known _ _ _ _ Hg).
    destruct (fleft f) eqn:Hd.
    + rewrite bool_decide_eq_true_2 by done. erewrite upd_done; [|done]. by destruct s.
    + rewrite bool_decide_eq_false_2; [erewrite upd_done; [|done]; by destruct s|].
      intros Hsib. symmetry in Hsib. apply ptr_of_elem in Hsib. simpl in Hxc. set_solver.
  - eapply (replace_focus s c t t'); try done.
    + intros a Ha. apply Hout'. intros Ht. by eapply focus_apart.
    + intros a. rewrite Haddr. by apply (focus_apart s).
    + unfold s'. cbn. by rewrite Hn.
    + by destruct c.
  - split; unfold s'; try done; cbn [with_nodes nodes].
    + intros a Ha. rewrite addrs_plug in Ha. apply not_elem_of_app in Ha as [Ha1 Ha2].
      rewrite relinked_out by done. by apply Hout'.
    + by rewrite relinked_dom, reparent_dom.
Qed.

(** A rotation at the focus, and the link to its new top *)
Definition rotates (rot : ptr → ptr → M tree ptr) s c (x z : addr) t' : Prop :=
  ∃ s1 s', rot (Some x) (Some z) s = Done (ptr_of t', s1)
    ∧ relink (cparent c) (Some x) (ptr_of t') s1 = Done (tt, s')
    ∧ focus s' c t' ∧ only_in (addrs (plug c t')) s s'.

Lemma rotates_intro rot s c x z t t' m par :
  focus s c t → ptr_of t = Some x → t' ≠ Leaf →
  rot (Some x) (Some z) s = Done (ptr_of t', with_nodes m s) →
  rep m par t' → (∀ a, a ∉ addrs t → m !! a = nodes s !! a) → addrs t' = addrs t →
  dom m = dom (nodes s) → rotates rot s c x z t'.
Proof.
  intros Hf Hx Hne Hrun Hr Hout Haddr Hdom.
  destruct (ptr_of t') as [n|] eqn:Hn; [|by destruct t'].
  destruct (relink_done s c t t' m par x n Hf Hx Hn Hr Hout Haddr Hdom) as (s' & Hrel & Hf' & Hoi).
  exists (with_nodes m s), s'. rewrite Hn. split_and!; try done.
  eapply only_in_mono; [done|]. intros a. by rewrite !addrs_plug, Haddr.
Qed.

Lemma aside_subtree s par t X :
  rep (nodes s) par t → (∀ a, a ∈ addrs t → a ∉ X) → aside s (ptr_of t) X.
Proof. intros Hr HX a Ha. destruct (rep_ptr _ _ _ _ Hr Ha). split; [done|by apply HX]. Qed.

Lemma dom_insert_known m a n : is_Some (m !! a) → dom (<[a := n]> m) = dom m.
Proof. intros Ha. rewrite dom_insert_lookup_L; done. Qed.

Lemma reparent_some p q m a : is_Some (m !! a) → is_Some (reparent p q m !! a).
Proof.
  destruct p as [b|]; [|done]. simpl. intros [n Hn]. destruct (decide (b = a)) as [->|].
  - rewrite lookup_alter_eq, Hn. eauto.
  - rewrite lookup_alter_ne by done. eauto.
Qed.
Lemma insert_some m a n b : is_Some (m !! b) → is_Some (<[a := n]> m !! b).
Proof. destruct (decide (a = b)) as [->|]; [rewrite lookup_insert_eq|rewrite lookup_insert_ne]; eauto. Qed.

#[local] Ltac rotated_dom :=
  repeat rewrite dom_insert_known by (repeat first [apply insert_some | apply reparent_some]; eauto);
  rewrite ?reparent_dom; reflexivity.

Lemma rotl_focus s c x bx kx l z bz kz t23 t4 :
  focus s c (T x bx kx l (T z bz kz t23 t4)) →
  let '(bx', bz') := single_bal 1 bz in
  rotates rotate_left s c x z (T z bz' kz (T x bx' kx l t23) t4).
Proof.
  intros Hf. pose proof (fc_rep _ _ _ Hf) as Hr. pose proof (focus_nodup _ _ _ Hf) as Hnd.
  pose proof Hr as (Hx & Hl & Hz & Ht23 & Ht4). pose proof Hnd as Hnd'.
  cbn [addrs] in Hnd'. rewrite NoDup_app, NoDup_cons, NoDup_app in Hnd'.
  destruct Hnd' as (_ & _ & Hn1 & _ & Hn2 & _).
  epose proof (rotate_left_run s x z _ _ Hx Hz ltac:(set_solver)
                 ltac:(eapply aside_subtree; [exact Ht23|]; set_solver)) as Hrun.
  cbn [nbalance] in Hrun. destruct (single_bal 1 bz) as [bx' bz'].
  destruct (rotated_left_rep (nodes s) _ x bx' bz' kx l z bz bx kz t23 t4 Hr Hnd) as [Hr' Hout].
  eapply (rotates_intro _ _ _ _ _ _ _ _ _ Hf); [done|done|exact Hrun|exact Hr'|done| |].
  - simpl. by rewrite <- app_assoc.
  - unfold rotated_left. rotated_dom.
Qed.

Lemma rotr_focus s c x bx kx r z bz kz t1 t23 :
  focus s c (T x bx kx (T z bz kz t1 t23) r) →
  let '(bx', bz') := single_bal (-1) bz in
  rotates rotate_right s c x z (T z bz' kz t1 (T x bx' kx t23 r)).
Proof.
  intros Hf. pose proof (fc_rep _ _ _ Hf) as Hr. pose proof (focus_nodup _ _ _ Hf) as Hnd.
  pose proof Hr as (Hx & (Hz & Ht1 & Ht23) & Hrr). pose proof Hnd as Hnd'.
  cbn [addrs] in Hnd'. rewrite !NoDup_app, !NoDup_cons in Hnd'.
  destruct Hnd' as ((_ & _ & Hn1 & _) & Hn2 & _).
  epose proof (rotate_right_run s x z _ _ Hx Hz ltac:(set_solver)
                 ltac:(eapply aside_subtree; [exact Ht23|]; set_solver)) as Hrun.
  cbn [nbalance] in Hrun. destruct (single_bal (-1) bz) as [bx' bz'].
  destruct (rotated_right_rep (nodes s) _ x bx' bz' kx r z bz bx kz t1 t23 Hr Hnd) as [Hr' Hout].
  eapply (rotates_intro _ _ _ _ _ _ _ _ _ Hf); [done|done|exact Hrun|exact Hr'|done| |].
  - simpl. by rewrite <- app_assoc.
  - unfold rotated_right. rotated_dom.
Qed.

Lemma rotrl_focus s c x bx kx l z bz kz y by_ ky t2 t3 t4 :
  focus s c (T x bx kx l (T z bz kz (T y by_ ky t2 t3) t4)) →
  let '(bx', bz') := rl_bal by_ in
  rotates rotate_rightleft s c x z (T y 0 ky (T x bx' kx l t2) (T z bz' kz t3 t4)).
Proof.
  intros Hf. pose proof (fc_rep _ _ _ Hf) as Hr. pose proof (focus_nodup _ _ _ Hf) as Hnd.
  pose proof Hr as (Hx & Hl & Hz & (Hy & Ht2 & Ht3) & Ht4). pose proof Hnd as Hnd'.
  cbn [addrs] in Hnd'. rewrite !NoDup_app, !NoDup_cons, !NoDup_app, !NoDup_cons in Hnd'.
  destruct Hnd' as (_ & _ & Hn1 & (_ & Hn2 & Hn3 & _) & Hn4 & _).
  epose proof (rotate_rightleft_run s x z y _ _ _ Hx Hz Hy eq_refl ltac:(set_solver) ltac:(set_solver) ltac:(set_solver)
                 ltac:(eapply aside_subtree; [exact Ht2|]; set_solver)
                 ltac:(eapply aside_subtree; [exact Ht3|]; set_solver)
                 ltac:(intros a H2%ptr_of_elem H3%ptr_of_elem; set_solver)) as Hrun.
  cbn [nbalance] in Hrun. destruct (rl_bal by_) as [bx' bz'].
  destruct (rotated_rl_rep (nodes s) _ x bx' bz' kx l z bz bx kz y by_ ky t2 t3 t4 Hr Hnd) as [Hr' Hout].
  eapply (rotates_intro _ _ _ _ _ _ _ _ _ Hf); [done|done|exact Hrun|exact Hr'|done| |].
  - simpl. repeat (rewrite <- app_assoc; simpl). done.
  - unfold rotated_rl. rotated_dom.
Qed.

Lemma rotlr_focus s c x bx kx r z bz kz y by_ ky t1 t2 t3 :
  focus s c (T x bx kx (T z bz kz t1 (T y by_ ky t2 t3)) r) →
  let '(bx', bz') := lr_bal by_ in
  rotates rotate_leftright s c x z (T y 0 ky (T z bz' kz t1 t2) (T x bx' kx t3 r)).
Proof.
  intros Hf. pose proof (fc_rep _ _ _ Hf) as Hr. pose proof (focus_nodup _ _ _ Hf) as Hnd.
  pose proof Hr as (Hx & (Hz & Ht1 & (Hy & Ht2 & Ht3)) & Hrr). pose proof Hnd as Hnd'.
  cbn [addrs] in Hnd'. do 2 (rewrite <- app_assoc in Hnd'; cbn [app] in Hnd').
  rewrite !NoDup_app, !NoDup_cons, !NoDup_app, !NoDup_cons, !NoDup_app, !NoDup_cons in Hnd'.
  destruct Hnd' as (_ & _ & Hn1 & _ & Hn2 & Hn3 & _ & Hn4 & _).
  epose proof (rotate_leftright_run s x z y _ _ _ Hx Hz Hy eq_refl ltac:(set_solver) ltac:(set_solver) ltac:(set_solver)
                 ltac:(eapply aside_subtree; [exact Ht2|]; set_solver)
                 ltac:(eapply aside_subtree; [exact Ht3|]; set_solver)
                 ltac:(intros a H2%ptr_of_elem H3%ptr_of_elem; set_solver)) as Hrun.
  cbn [nbalance] in Hrun. destruct (lr_bal by_) as [bx' bz'].
  destruct (rotated_lr_rep (nodes s) _ x bx' bz' kx r z bz bx kz y by_ ky t1 t2 t3 Hr Hnd) as [Hr' Hout].
  eapply (rotates_intro _ _ _ _ _ _ _ _ _ Hf); [done|done|exact Hrun|exact Hr'|done| |].
  - simpl. repeat (rewrite <- app_assoc; simpl). done.
  - unfold rotated_lr. rotated_dom.
Qed.

(** Setting a balance at the focus *)
Lemma balance_focus s c a b b' k l r :
  focus s c (T a b k l r) →
  ∃ s', upd (Some a) (set_balance b') s = Done (tt, s') ∧ focus s' c (T a b' k l r)
    ∧ only_in (addrs (plug c (T a b k l r))) s s'.
Proof.
  intros Hf. pose proof (focus_node _ _ _ _ _ _ _ Hf) as Ha. rewrite (upd_done _ _ _ _ Ha).
  eexists. split; [done|]. destruct Hf as [Hr Hc Hn Hrt]. simpl in Hn. split.
  - pose proof Hn as Hn'. rewrite <- app_assoc in Hn'. cbn [app] in Hn'.
    rewrite NoDup_app, NoDup_cons, NoDup_app in Hn'. destruct Hn' as (_ & Hd1 & Hd2 & _ & Hd3 & _).
    destruct Hr as (_ & Hl & Hr). split; cbn [nodes with_nodes root]; [| | done |].
    + simpl. rewrite lookup_insert_eq. split_and!; [done| |];
        (eapply rep_frame; [done|]); intros x Hx; apply lookup_insert_ne; set_solver.
    + eapply repc_frame; [exact Hc|]. intros x Hx. apply lookup_insert_ne. set_solver.
    + rewrite Hrt. destruct c; [done|]. by apply root_indep.
  - apply only_in_nodes; [|apply dom_insert_known; eauto].
    intros x Hx. apply lookup_insert_ne. intros ->. apply Hx. rewrite addrs_plug. set_solver.
Qed.

(** Nodes outside the tree may come and go *)
Lemma focus_store s s' c t :
  focus s c t → (∀ a, a ∈ addrs (plug c t) → nodes s' !! a = nodes s !! a) → root s' = root s → focus s' c t.
Proof.
  intros [Hr Hc Hn Hrt] Hm Hroot. split; [| |done|congruence].
  - eapply rep_frame; [done|]. intros a Ha. apply Hm. rewrite addrs_plug. set_solver.
  - eapply repc_frame; [done|]. intros a Ha. apply Hm. rewrite addrs_plug. set_solver.
Qed.
End focus.
