(* ===== verification/AvlSearch.v ===== *)
(** * The AVL tree: searches and steps along the order *)

From stdpp Require Import base tactics list numbers option gmap sorting.
From S2P Require Import Prelude AvlTree AvlRep AvlFocus.

#[local] Open Scope Z_scope.

Section steps.
Context {K A : Type} `{NodeAlloc A}.
Abbreviation tree := (tree_t K A).
Implicit Types (s : tree) (t l r : atree K) (c : list (frame K)).

(** ** Fuel *)

Lemma focus_fuel s c t : focus s c t → (length (addrs t) + length (caddrs c) < tree_fuel s)%nat.
Proof.
  intros Hf. pose proof (fc_nodup _ _ _ Hf) as Hnd. apply (proj1 (focus_top _ _ _)) in Hf.
  destruct Hf as [Hr _ _ _]. unfold tree_fuel. rewrite <- size_dom, <- length_app.
  rewrite <- (size_list_to_set (C := gset addr) _ Hnd).
  apply Nat.lt_succ_r, subseteq_size. intros a. rewrite elem_of_list_to_set, elem_of_dom.
  rewrite <- addrs_plug. by eapply rep_in.
Qed.
Lemma length_caddrs c : (length c ≤ length (caddrs c))%nat.
Proof. induction c as [|f c IH]; simpl; [lia|]. rewrite length_app. lia. Qed.

(** ** Steps along the order *)

Lemma ents_nil t : ents t = [] → t = Leaf.
Proof. destruct t as [|a b k l r]; [done|]. simpl. by destruct (ents l). Qed.

Lemma go_left_spec t : ∀ c fuel s,
  t ≠ Leaf → focus s c t → (length (addrs t) ≤ fuel)%nat →
  go_left fuel (ptr_of t) s = Done (fst <$> head (ents t), s).
Proof.
  induction t as [|a b k l IHl r _]; intros c fuel s Hne Hf Hfu; [done|].
  simpl in Hfu. rewrite length_app in Hfu. destruct fuel as [|fuel]; [simpl in Hfu; lia|].
  cbn [go_left ptr_of]. erewrite bind_node; [|by eapply focus_node]. cbn [nleft].
  destruct l as [|la lb lk ll lr] eqn:El; [done|]. rewrite <- El in *.
  replace (is_null (ptr_of l)) with false by (by subst).
  rewrite (IHl (Frame true a b k r :: c)); [|by subst|by apply (proj2 (focus_up _ _ _ _))|simpl in Hfu; lia].
  cbn [ents]. destruct (ents l) eqn:E; [|done]. apply ents_nil in E. congruence.
Qed.

Lemma go_right_spec t : ∀ c fuel s,
  t ≠ Leaf → focus s c t → (length (addrs t) ≤ fuel)%nat →
  go_right fuel (ptr_of t) s = Done (fst <$> list.last (ents t), s).
Proof.
  induction t as [|a b k l _ r IHr]; intros c fuel s Hne Hf Hfu; [done|].
  simpl in Hfu. rewrite length_app in Hfu. destruct fuel as [|fuel]; [simpl in Hfu; lia|].
  cbn [go_right ptr_of]. erewrite bind_node; [|by eapply focus_node]. cbn [nright].
  destruct r as [|ra rb rk rl rr] eqn:Er; [cbn; by rewrite last_snoc|]. rewrite <- Er in *.
  replace (is_null (ptr_of r)) with false by (by subst).
  rewrite (IHr (Frame false a b k l :: c)); [|by subst|by apply (proj2 (focus_up _ _ _ _))|simpl in Hfu; lia].
  cbn [ents]. rewrite last_app_cons, last_cons. destruct (list.last (ents r)) eqn:E; [done|].
  apply last_None, ents_nil in E. congruence.
Qed.

(** The other child of a node on the path is elsewhere *)
Lemma sib_apart s f c t a : focus s (f :: c) t → ptr_of t = Some a → ptr_of (fsib f) ≠ Some a.
Proof.
  intros Hf Ha Hs. apply ptr_of_elem in Ha, Hs. pose proof (focus_apart _ _ _ _ Hf Ha) as Hn.
  apply Hn. simpl. set_solver.
Qed.

Lemma up_from_right_spec c : ∀ fuel s t,
  t ≠ Leaf → focus s c t → (length c < fuel)%nat →
  up_from_right fuel (ptr_of t) (cparent c) s = Done (fst <$> head (rents c), s).
Proof.
  induction c as [|f c IH]; intros [|fuel] s t Hne Hf Hfu; try (simpl in Hfu; lia); [done|].
  cbn [up_from_right cparent is_null]. pose proof (focus_frame_node _ _ _ _ Hf) as Hn.
  erewrite bind_node; [|exact Hn]. cbn [nright nparent rents]. destruct (fleft f) eqn:Hd.
  - rewrite bool_decide_eq_false_2; [done|]. destruct (ptr_of t) as [a|] eqn:Ha; [|by destruct t].
    intros Hs. by eapply sib_apart.
  - rewrite bool_decide_eq_true_2 by done. rewrite <- (ptr_of_close f t).
    apply IH; [|by apply (proj1 (focus_up _ _ _ _))|simpl in Hfu; lia]. intros Hc.
    pose proof (ptr_of_close f t) as Hp. by rewrite Hc in Hp.
Qed.

Lemma up_from_left_spec c : ∀ fuel s t,
  t ≠ Leaf → focus s c t → (length c < fuel)%nat →
  up_from_left fuel (ptr_of t) (cparent c) s = Done (fst <$> list.last (lents c), s).
Proof.
  induction c as [|f c IH]; intros [|fuel] s t Hne Hf Hfu; try (simpl in Hfu; lia); [done|].
  cbn [up_from_left cparent is_null]. pose proof (focus_frame_node _ _ _ _ Hf) as Hn.
  erewrite bind_node; [|exact Hn]. cbn [nleft nparent lents]. destruct (fleft f) eqn:Hd.
  - rewrite bool_decide_eq_true_2 by done. rewrite <- (ptr_of_close f t).
    apply IH; [|by apply (proj1 (focus_up _ _ _ _))|simpl in Hfu; lia]. intros Hc.
    pose proof (ptr_of_close f t) as Hp. by rewrite Hc in Hp.
  - rewrite bool_decide_eq_false_2; [by rewrite app_assoc, last_snoc|].
    destruct (ptr_of t) as [a|] eqn:Ha; [|by destruct t]. intros Hs. by eapply sib_apart.
Qed.

Lemma tree_next_spec s c a b k l r :
  focus s c (T a b k l r) → tree_next (Some a) s = Done (fst <$> head (ents r ++ rents c), s).
Proof.
  intros Hf. pose proof (focus_fuel _ _ _ Hf) as Hfu. pose proof (length_caddrs c) as Hlc.
  simpl in Hfu. rewrite length_app in Hfu. simpl in Hfu.
  unfold tree_next. cbn [is_null]. rewrite bind_gets. erewrite bind_node; [|by eapply focus_node]. cbn [nright nparent].
  destruct r as [|ra rb rk rl rr] eqn:Er.
  - cbn [ptr_of is_null ents app]. apply (up_from_right_spec c _ s (T a b k l Leaf)); [done|done|lia].
  - rewrite <- Er in *. replace (is_null (ptr_of r)) with false by (by subst).
    rewrite (go_left_spec r (Frame false a b k l :: c)); [|by subst|by apply (proj2 (focus_up _ _ _ _))|lia].
    destruct (ents r) eqn:E; [|done]. apply ents_nil in E. congruence.
Qed.

Lemma tree_prev_spec s c a b k l r :
  focus s c (T a b k l r) → tree_prev (Some a) s = Done (fst <$> list.last (lents c ++ ents l), s).
Proof.
  intros Hf. pose proof (focus_fuel _ _ _ Hf) as Hfu. pose proof (length_caddrs c) as Hlc.
  simpl in Hfu. rewrite length_app in Hfu. simpl in Hfu.
  unfold tree_prev. cbn [is_null]. rewrite bind_gets. erewrite bind_node; [|by eapply focus_node]. cbn [nleft nparent].
  destruct l as [|la lb lk ll lr] eqn:El.
  - cbn [ptr_of is_null ents]. rewrite app_nil_r. apply (up_from_left_spec c _ s (T a b k Leaf r)); [done|done|lia].
  - rewrite <- El in *. replace (is_null (ptr_of l)) with false by (by subst).
    rewrite (go_right_spec l (Frame true a b k r :: c)); [|by subst|by apply (proj2 (focus_up _ _ _ _))|lia].
    rewrite last_app. destruct (list.last (ents l)) eqn:E; [done|]. apply last_None, ents_nil in E. congruence.
Qed.

Lemma tree_min_spec s t : focus s [] t → tree_min s = Done (fst <$> head (ents t), s).
Proof.
  intros Hf. pose proof (focus_fuel _ _ _ Hf) as Hfu. pose proof (fc_root _ _ _ Hf) as Hrt. simpl in Hfu, Hrt.
  unfold tree_min. rewrite !bind_gets, Hrt. destruct t as [|a b k l r] eqn:Et; [done|]. rewrite <- Et in *.
  replace (is_null (ptr_of t)) with false by (by subst).
  apply (go_left_spec t []); [by subst|done|lia].
Qed.
Lemma tree_max_spec s t : focus s [] t → tree_max s = Done (fst <$> list.last (ents t), s).
Proof.
  intros Hf. pose proof (focus_fuel _ _ _ Hf) as Hfu. pose proof (fc_root _ _ _ Hf) as Hrt. simpl in Hfu, Hrt.
  unfold tree_max. rewrite !bind_gets, Hrt. destruct t as [|a b k l r] eqn:Et; [done|]. rewrite <- Et in *.
  replace (is_null (ptr_of t)) with false by (by subst).
  apply (go_right_spec t []); [by subst|done|lia].
Qed.
End steps.

(** The comparison is a strict total order *)
Class CmpOrder {K : Type} (cmp : K → K → bool) := {
  cmp_irrefl : ∀ x, cmp x x = false;
  cmp_trans : ∀ x y z, cmp x y = true → cmp y z = true → cmp x z = true;
  cmp_total : ∀ x y, cmp x y = false → cmp y x = false → x = y
}.

Section search.
Context {K A : Type} `{NodeAlloc A} (cmp : K → K → bool) `{!CmpOrder cmp}.
Abbreviation tree := (tree_t K A).
Implicit Types (s : tree) (t l r : atree K) (c : list (frame K)).

Definition lt (x y : K) : Prop := cmp x y = true.
Definition sorted (L : list (addr * K)) : Prop := StronglySorted lt L.*2.
(** Every entry is before (after) [k] *)
Definition below (k : K) (L : list (addr * K)) : Prop := Forall (λ e, lt e.2 k) L.
Definition above (k : K) (L : list (addr * K)) : Prop := Forall (λ e, lt k e.2) L.

Lemma sorted_app L1 L2 :
  sorted (L1 ++ L2) ↔ sorted L1 ∧ sorted L2 ∧ ∀ e1 e2, e1 ∈ L1 → e2 ∈ L2 → lt e1.2 e2.2.
Proof.
  unfold sorted. rewrite fmap_app. induction L1 as [|e L1 IH]; simpl.
  - split; [intros; split_and!; [constructor|done|set_solver]|by intros (_ & ? & _)].
  - split.
    + intros [HS HF]%StronglySorted_inv. apply IH in HS as (H1 & H2 & H3).
      apply Forall_app in HF as [HF1 HF2]. rewrite Forall_fmap, Forall_forall in HF2.
      split_and!; [by constructor|done|]. intros e1 e2 [->|He1]%elem_of_cons He2; [by apply HF2|eauto].
    + intros ([HS HF]%StronglySorted_inv & H2 & H3). constructor.
      * apply IH. split_and!; [done|done|]. intros e1 e2 He1 He2. apply H3; [|done]. by constructor.
      * apply Forall_app. split; [done|]. apply Forall_fmap, Forall_forall. intros e2 He2. apply H3; [|done]. by constructor.
Qed.

Lemma sorted_node (L1 L2 : list (addr * K)) a k :
  sorted (L1 ++ (a, k) :: L2) ↔ sorted L1 ∧ sorted L2 ∧ below k L1 ∧ above k L2.
Proof.
  rewrite sorted_app. unfold below, above, sorted at 2. simpl. rewrite !Forall_forall. split.
  - intros (H1 & [H2 HF]%StronglySorted_inv & H3). rewrite Forall_fmap, Forall_forall in HF.
    split_and!; try done. intros e He. apply (H3 e (a, k)); [done|by constructor].
  - intros (H1 & H2 & H3 & H4). split_and!; [done| |].
    + constructor; [done|]. apply Forall_fmap, Forall_forall, H4.
    + intros e1 e2 He1 [->|He2]%elem_of_cons; [by apply H3|]. eapply cmp_trans; [by apply H3|by apply H4].
Qed.

Lemma diff_lt k x : diff_of cmp k x < 0 ↔ lt k x.
Proof.
  unfold diff_of, lt. destruct (cmp k x) eqn:H1, (cmp x k) eqn:H2; simpl; split; try done; try lia.
  pose proof (cmp_trans _ _ _ H1 H2). by rewrite cmp_irrefl in *.
Qed.
Lemma diff_gt k x : 0 < diff_of cmp k x ↔ lt x k.
Proof.
  unfold diff_of, lt. destruct (cmp k x) eqn:H1, (cmp x k) eqn:H2; simpl; split; try done; try lia.
  pose proof (cmp_trans _ _ _ H1 H2). by rewrite cmp_irrefl in *.
Qed.
Lemma diff_eq k x : diff_of cmp k x = 0 ↔ k = x.
Proof.
  split.
  - unfold diff_of. destruct (cmp k x) eqn:H1, (cmp x k) eqn:H2; simpl; try lia; intros _.
    + pose proof (cmp_trans _ _ _ H1 H2). by rewrite cmp_irrefl in *.
    + by apply cmp_total.
  - intros ->. unfold diff_of. rewrite cmp_irrefl. done.
Qed.
Lemma diff_range k x : diff_of cmp k x = -1 ∨ diff_of cmp k x = 0 ∨ diff_of cmp k x = 1.
Proof. unfold diff_of. destruct (cmp k x), (cmp x k); simpl; lia. Qed.

(** ** The walk down *)

(** Where the walk from [t] ends: at the node with the key, or next to the
    empty place where the key belongs *)
Inductive walked (k : K) s c t : ptr * Z → Prop :=
  | walked_found c' a b l r :
      focus s c' (T a b k l r) → plug c' (T a b k l r) = plug c t → walked k s c t (Some a, 0)
  | walked_place f c' :
      focus s (f :: c') Leaf → plug (f :: c') Leaf = plug c t →
      below k (lents (f :: c')) → above k (rents (f :: c')) →
      walked k s c t (Some (faddr f), if fleft f then -1 else 1).

Lemma ins_walk_spec t : ∀ c fuel k s,
  t ≠ Leaf → focus s c t → sorted (ents t) → below k (lents c) → above k (rents c) →
  (length (addrs t) ≤ fuel)%nat →
  ∃ res, ins_walk cmp fuel k (ptr_of t) s = Done (res, s) ∧ walked k s c t res.
Proof.
  induction t as [|a b kx l IHl r IHr]; intros c fuel k s Hne Hf Hso Hbe Hab Hfu; [done|].
  cbn [ents] in Hso. apply sorted_node in Hso as (Hsl & Hsr & Hbl & Har).
  destruct fuel as [|fuel]; [simpl in Hfu; rewrite length_app in Hfu; simpl in Hfu; lia|].
  cbn [ins_walk ptr_of]. pose proof (focus_node _ _ _ _ _ _ _ Hf) as Ha.
  assert (length (addrs l) + length (addrs r) ≤ fuel)%nat as Hfu'.
  { simpl in Hfu. rewrite length_app in Hfu. simpl in Hfu. lia. }
  erewrite bind_item; [|exact Ha|done]. erewrite bind_node; [|exact Ha]. cbn [nleft nright].
  destruct (diff_range k kx) as [Hd|[Hd|Hd]]; rewrite Hd; cbn [Z.ltb Z.eqb Z.compare negb andb].
  - assert (lt k kx) as Hlt by (apply diff_lt; lia).
    assert (above k ((a, kx) :: ents r)) as Har'.
    { constructor; [done|]. eapply Forall_impl; [exact Har|]. intros e He. by eapply cmp_trans, He. }
    set (f := Frame true a b kx r). assert (focus s (f :: c) l) as Hfl by (apply (proj2 (focus_up _ _ _ _)); exact Hf).
    assert (above k (rents (f :: c))) as Har'' by (simpl; rewrite app_comm_cons; by apply Forall_app).
    destruct l as [|la lb lk ll lr] eqn:El.
    + eexists. split; [done|]. by apply (walked_place k s c (T a b kx Leaf r) f c).
    + rewrite <- El in *. destruct (IHl (f :: c) fuel k s) as (res & Hrun & Hw); try done; [by subst|lia|].
      exists res. split; [by rewrite El in *|]. destruct Hw.
      * by eapply walked_found.
      * by eapply walked_place.
  - apply diff_eq in Hd as ->. eexists. split; [done|]. by apply (walked_found kx s c (T a b kx l r) c a b l r).
  - assert (lt kx k) as Hlt by (apply diff_gt; lia).
    assert (below k (ents l ++ [(a, kx)])) as Hbl'.
    { apply Forall_app. split; [|by constructor]. eapply Forall_impl; [exact Hbl|]. intros e He. by eapply cmp_trans, Hlt. }
    set (f := Frame false a b kx l). assert (focus s (f :: c) r) as Hfr by (apply (proj2 (focus_up _ _ _ _)); exact Hf).
    assert (below k (lents (f :: c))) as Hbl'' by (simpl; by apply Forall_app).
    destruct r as [|ra rb rk rl rr] eqn:Er.
    + eexists. split; [done|]. by apply (walked_place k s c (T a b kx l Leaf) f c).
    + rewrite <- Er in *. destruct (IHr (f :: c) fuel k s) as (res & Hrun & Hw); try done; [by subst|lia|].
      exists res. split; [by rewrite Er in *|]. destruct Hw.
      * by eapply walked_found.
      * by eapply walked_place.
Qed.

Lemma node_reads p s n s' : node p s = Done (n, s') → s' = s.
Proof. unfold node. destruct (p ≫= _); intros; by simplify_eq. Qed.

(** The other walks end where this one does *)
Lemma lower_bound_walk fuel k p s : lower_bound_loop cmp fuel k p s = ins_walk cmp fuel k p s.
Proof.
  revert p. induction fuel as [|fuel IH]; intros p; [done|]. cbn [lower_bound_loop ins_walk].
  unfold item. rewrite !bind_assoc.
  destruct (node p s) as [[n s']|e] eqn:Hn; [|by rewrite !(bind_fault _ _ _ _ Hn)].
  assert (s' = s) as -> by (by eapply node_reads). rewrite !(bind_done _ _ _ _ _ Hn).
  destruct (nitem n) as [r|]; [|done]. rewrite !bind_mret, (bind_done _ _ _ _ _ Hn).
  destruct (diff_of cmp k r =? 0); [done|]. rewrite (bind_done _ _ _ _ _ Hn). cbn [negb andb].
  unfold select_lr. destruct (diff_of cmp k r <? 0), (is_null _); try done; apply IH.
Qed.

Lemma find_walk fuel k p q d s s' :
  is_null p = false → ins_walk cmp fuel k p s = Done ((q, d), s') →
  tree_find_loop cmp (S fuel) k p s = Done (if d =? 0 then q else None, s).
Proof.
  revert p. induction fuel as [|fuel IH]; intros p Hp; [done|]. cbn [ins_walk].
  cbn [tree_find_loop]. rewrite Hp. unfold item. rewrite !bind_assoc.
  destruct (node p s) as [[n s1]|e] eqn:Hn; [|by rewrite (bind_fault _ _ _ _ Hn)].
  assert (s1 = s) as -> by (by eapply node_reads). rewrite !(bind_done _ _ _ _ _ Hn).
  destruct (nitem n) as [r|]; [|done]. rewrite !bind_mret, (bind_done _ _ _ _ _ Hn).
  destruct (diff_of cmp k r =? 0) eqn:Hd; cbn [negb andb].
  - intros [= <- <- <-]. by rewrite Hd.
  - rewrite (bind_done _ _ _ _ _ Hn). unfold select_lr.
    destruct (is_null (if diff_of cmp k r <? 0 then nleft n else nright n)) eqn:Hnx; cbn [negb].
    + intros [= <- <- <-]. rewrite Hd.
      by destruct (if diff_of cmp k r <? 0 then nleft n else nright n).
    + intros Hw. pose proof (IH _ Hnx Hw) as HI. cbn [tree_find_loop] in HI. rewrite Hnx in HI. exact HI.
Qed.
End search.
