(* ===== verification/AvlInsert.v ===== *)
(** * The AVL tree: balance, and insertion *)

From stdpp Require Import base tactics list numbers option gmap sorting.
From S2P Require Import Prelude AvlTree AvlRep AvlFocus AvlSearch.

#[local] Open Scope Z_scope.

(** ** Balance *)

Section balance.
Context {K : Type}.
Implicit Types (t l r : atree K) (c : list (frame K)).

Fixpoint height t : Z := match t with Leaf => 0 | T _ _ _ l r => 1 + height l `max` height r end.

(** Every node's balance is the difference of its subtrees' heights, and at
    most 1 in size. *)
Fixpoint avl t : Prop :=
  match t with
  | Leaf => True
  | T _ b _ l r => b = height r - height l ∧ -1 ≤ b ≤ 1 ∧ avl l ∧ avl r
  end.

(** [avlc c h]: with a subtree of height [h] at the position, the nodes on the
    path and beside it are balanced. *)
Fixpoint avlc c (h : Z) : Prop :=
  match c with
  | [] => True
  | f :: c =>
      fbal f = (if fleft f then height (fsib f) - h else h - height (fsib f))
      ∧ -1 ≤ fbal f ≤ 1 ∧ avl (fsib f) ∧ avlc c (1 + h `max` height (fsib f))
  end.

Lemma height_nonneg t : 0 ≤ height t.
Proof. induction t; simpl; lia. Qed.

Lemma height_leaf t : height t ≤ 0 → t = Leaf.
Proof. destruct t as [|a b k l r]; [done|]. simpl. pose proof (height_nonneg l). lia. Qed.

Lemma avl_plug c t : avl t → avlc c (height t) → avl (plug c t).
Proof.
  revert t. induction c as [|f c IH]; intros t Ht Hc; simpl in *; [done|].
  destruct Hc as (Hb & Hr & Hs & Hc). apply IH.
  - unfold close. destruct (fleft f); simpl; auto.
  - replace (height (close f t)) with (1 + height t `max` height (fsib f)); [done|].
    unfold close. destruct (fleft f); simpl; lia.
Qed.

Lemma avl_plug_inv c t : avl (plug c t) → avl t ∧ avlc c (height t).
Proof.
  revert t. induction c as [|f c IH]; intros t; simpl; [done|]. intros Hp.
  apply IH in Hp as [Ht Hc]. unfold close in Ht, Hc.
  destruct (fleft f); simpl in *; destruct Ht as (Hb & Hr & Hl & Hrr); split_and!; try done; try lia.
  by rewrite Z.max_comm.
Qed.
End balance.

Section retrace.
Context {K A : Type} `{NodeAlloc A}.
Abbreviation tree := (tree_t K A).
Implicit Types (s : tree) (t l r : atree K) (c : list (frame K)).

(** [s'] holds a balanced tree of the nodes [L] in order, and differs from
    [s] in their links and balances at most. *)
Definition rebuilt (L : list (addr * K)) s s' : Prop :=
  ∃ t, focus s' [] t ∧ avl t ∧ ents t = L ∧ only_in L.*1 s s'.

Lemma rebuilt_intro s s' c t :
  focus s' c t → avl t → avlc c (height t) → only_in (addrs (plug c t)) s s' →
  rebuilt (lents c ++ ents t ++ rents c) s s'.
Proof.
  intros Hf Ht Hc Hoi. exists (plug c t). split_and!.
  - by apply (proj1 (focus_top _ _ _)).
  - by apply avl_plug.
  - apply ents_plug.
  - by rewrite <- ents_plug, ents_addrs.
Qed.

Lemma rebuilt_trans L s s1 s2 : only_in L.*1 s s1 → rebuilt L s1 s2 → rebuilt L s s2.
Proof. intros H1 (t & Hf & Ht & He & H2). exists t. split_and!; try done. by etrans. Qed.

Lemma addrs_plug_ents c t : addrs (plug c t) = (lents c ++ ents t ++ rents c).*1.
Proof. by rewrite <- ents_addrs, ents_plug. Qed.

(** A rotation on the way up after an insertion restores the height, and
    retracing is over. *)
Lemma rotates_rebuilt rot s c x z t t' :
  rotates rot s c x z t' → avl t' → avlc c (height t') → ents t' = ents t →
  ∃ s', (n ← rot (Some x) (Some z); relink (cparent c) (Some x) n) s = Done (tt, s')
    ∧ rebuilt (lents c ++ ents t ++ rents c) s s'.
Proof.
  intros (s1 & s' & Hrot & Hrel & Hf & Hoi) Ht Hc <-. exists s'. split.
  - by rewrite (bind_done _ _ _ _ _ Hrot).
  - by apply rebuilt_intro.
Qed.

Lemma balance_rebuilt s c a b b' k l r :
  focus s c (T a b k l r) → avl (T a b' k l r) → avlc c (height (T a b' k l r)) →
  ∃ s', upd (Some a) (set_balance b') s = Done (tt, s')
    ∧ rebuilt (lents c ++ ents (T a b k l r) ++ rents c) s s'.
Proof.
  intros Hf Ht Hc. destruct (balance_focus s c a b b' k l r Hf) as (s' & Hrun & Hf' & Hoi).
  exists s'. split; [done|]. apply (rebuilt_intro s s' c (T a b' k l r)); try done.
  by rewrite addrs_plug_ents in *.
Qed.

(** The steps of retrace_insert at a node that is a right (left) child *)
Lemma insert_right_heavy s c x kx sib z bz kz l r h :
  focus s c (T x 1 kx sib (T z bz kz l r)) → avl sib → avl (T z bz kz l r) → height sib = h - 1 →
  height (T z bz kz l r) = h + 1 → bz ≠ 0 → avlc c (1 + h) →
  ∃ s', (n ← (if bz <? 0 then rotate_rightleft (Some x) (Some z) else rotate_left (Some x) (Some z));
         relink (cparent c) (Some x) n) s = Done (tt, s')
    ∧ rebuilt (lents c ++ ents (T x 1 kx sib (T z bz kz l r)) ++ rents c) s s'.
Proof.
  intros Hf Hs (Hbz & Hbr & Hl & Hr) Hhs Hht Hne Hc. simpl in Hht.
  destruct (Z.ltb_spec bz 0).
  - destruct l as [|y by_ ky t2 t3]; [pose proof (height_nonneg r); simpl in *; lia|].
    destruct Hl as (Hby & Hbyr & Ht2 & Ht3). simpl in Hht, Hbz.
    pose proof (rotrl_focus _ _ _ _ _ _ _ _ _ _ _ _ _ _ _ Hf) as Hrot.
    destruct (rl_bal by_) as [bx' bz'] eqn:Hbal. unfold rl_bal in Hbal.
    eapply rotates_rebuilt; [done| | |].
    + simpl. destruct (Z.ltb_spec 0 by_), (Z.eqb_spec by_ 0); simplify_eq; split_and!; try done; lia.
    + simpl. replace (1 + _ `max` _) with (1 + h) by lia. done.
    + simpl. repeat (rewrite <- app_assoc; simpl). done.
  - pose proof (rotl_focus _ _ _ _ _ _ _ _ _ _ _ Hf) as Hrot.
    unfold single_bal in Hrot. rewrite (proj2 (Z.eqb_neq bz 0)) in Hrot by done.
    eapply rotates_rebuilt; [done| | |].
    + simpl. split_and!; try done; lia.
    + simpl. replace (1 + _ `max` _) with (1 + h) by lia. done.
    + simpl. by rewrite <- app_assoc.
Qed.

Lemma insert_left_heavy s c x kx sib z bz kz l r h :
  focus s c (T x (-1) kx (T z bz kz l r) sib) → avl sib → avl (T z bz kz l r) → height sib = h - 1 →
  height (T z bz kz l r) = h + 1 → bz ≠ 0 → avlc c (1 + h) →
  ∃ s', (n ← (if 0 <? bz then rotate_leftright (Some x) (Some z) else rotate_right (Some x) (Some z));
         relink (cparent c) (Some x) n) s = Done (tt, s')
    ∧ rebuilt (lents c ++ ents (T x (-1) kx (T z bz kz l r) sib) ++ rents c) s s'.
Proof.
  intros Hf Hs (Hbz & Hbr & Hl & Hr) Hhs Hht Hne Hc. simpl in Hht.
  destruct (Z.ltb_spec 0 bz).
  - destruct r as [|y by_ ky t2 t3]; [pose proof (height_nonneg l); simpl in *; lia|].
    destruct Hr as (Hby & Hbyr & Ht2 & Ht3). simpl in Hht, Hbz.
    pose proof (rotlr_focus _ _ _ _ _ _ _ _ _ _ _ _ _ _ _ Hf) as Hrot.
    destruct (lr_bal by_) as [bx' bz'] eqn:Hbal. unfold lr_bal in Hbal.
    eapply rotates_rebuilt; [done| | |].
    + simpl. destruct (Z.ltb_spec 0 by_), (Z.eqb_spec by_ 0); simplify_eq; split_and!; try done; lia.
    + simpl. replace (1 + _ `max` _) with (1 + h) by lia. done.
    + simpl. repeat (rewrite <- app_assoc; simpl). done.
  - pose proof (rotr_focus _ _ _ _ _ _ _ _ _ _ _ Hf) as Hrot.
    unfold single_bal in Hrot. rewrite (proj2 (Z.eqb_neq bz 0)) in Hrot by done.
    eapply rotates_rebuilt; [done| | |].
    + simpl. split_and!; try done; lia.
    + simpl. replace (1 + _ `max` _) with (1 + h) by lia. done.
    + simpl. by rewrite <- app_assoc.
Qed.

(** Retracing from a subtree that has grown by one ends with a balanced tree
    of the same nodes. *)
Lemma retrace_insert_spec c : ∀ fuel s z bz kz l r h,
  let t := T z bz kz l r in
  focus s c t → avl t → height t = h + 1 → avlc c h → bz ≠ 0 ∨ h = 0 → (length c < fuel)%nat →
  ∃ s', retrace_insert fuel (Some z) s = Done (tt, s') ∧ rebuilt (lents c ++ ents t ++ rents c) s s'.
Proof.
  induction c as [|f c IH]; intros [|fuel] s z bz kz l r h t Hf Ht Hh Hc Hb Hfu;
    try (exfalso; simpl in Hfu; lia); cbn [retrace_insert].
  - erewrite bind_node; [|by eapply focus_node]. cbn. exists s. split; [done|].
    by apply (rebuilt_intro s s [] t).
  - pose proof (focus_frame_node _ _ _ _ Hf) as Hx. pose proof (focus_apart _ _ _ z Hf) as Hap.
    erewrite bind_node; [|by eapply focus_node]. cbn [nparent cparent is_null nbalance].
    erewrite bind_node; [|exact Hx]. cbn [nparent nright nleft nbalance].
    destruct f as [d x bx kx sib]. cbn [fleft faddr fbal fkey fsib avlc] in *.
    destruct Hc as (Hbx & Hbxr & Hs & Hc). rewrite focus_up in Hf.
    pose proof (height_nonneg sib) as Hhs. cbn [lents rents fleft faddr fkey fsib].
    destruct d; unfold close in Hf; cbn [fleft faddr fbal fkey fsib] in Hf.
    + rewrite bool_decide_eq_false_2; last first.
      { intros Heq. symmetry in Heq. apply ptr_of_elem in Heq. apply Hap; [by apply ptr_of_elem|]. simpl. set_solver. }
      assert (∀ b, lents c ++ ents (T x b kx t sib) ++ rents c
              = lents c ++ ents t ++ (x, kx) :: ents sib ++ rents c) as Hents.
      { intros b. cbn [ents]. by rewrite <- !app_assoc. }
      destruct (Z.ltb_spec bx 0); [|destruct (Z.ltb_spec 0 bx)].
      * replace bx with (-1) in * by lia. rewrite <- (Hents (-1)).
        apply (insert_left_heavy s c x kx sib z bz kz l r h); try done; try lia.
        by replace (1 + h) with (1 + h `max` height sib) by lia.
      * rewrite <- (Hents bx). apply balance_rebuilt; [done| |].
        { cbn [avl]. split_and!; try done; lia. }
        replace (height (T x 0 kx t sib)) with (1 + h `max` height sib); [done|]. cbn [height]. lia.
      * destruct (balance_focus s c x bx (-1) kx t sib Hf) as (s1 & Hrun1 & Hf1 & Hoi1).
        rewrite (bind_done _ _ _ _ _ Hrun1).
        destruct (IH fuel s1 x (-1) kx t sib (1 + h `max` height sib) Hf1) as (s' & Hrun & Hre);
          [cbn [avl]; split_and!; try done; lia|cbn [height]; lia|done|lia|simpl in Hfu; lia|].
        exists s'. split; [exact Hrun|]. rewrite <- (Hents (-1)).
        eapply rebuilt_trans; [|exact Hre]. rewrite addrs_plug_ents in Hoi1. exact Hoi1.
    + rewrite bool_decide_eq_true_2 by done.
      assert (∀ b, lents c ++ ents (T x b kx sib t) ++ rents c
              = (lents c ++ ents sib ++ [(x, kx)]) ++ ents t ++ rents c) as Hents.
      { intros b. cbn [ents]. by rewrite <- !app_assoc. }
      destruct (Z.ltb_spec 0 bx); [|destruct (Z.ltb_spec bx 0)].
      * replace bx with 1 in * by lia. rewrite <- (Hents 1).
        apply (insert_right_heavy s c x kx sib z bz kz l r h); try done; try lia.
        by replace (1 + h) with (1 + h `max` height sib) by lia.
      * rewrite <- (Hents bx). apply balance_rebuilt; [done| |].
        { cbn [avl]. split_and!; try done; lia. }
        replace (height (T x 0 kx sib t)) with (1 + h `max` height sib); [done|]. cbn [height]. lia.
      * destruct (balance_focus s c x bx 1 kx sib t Hf) as (s1 & Hrun1 & Hf1 & Hoi1).
        rewrite (bind_done _ _ _ _ _ Hrun1).
        destruct (IH fuel s1 x 1 kx sib t (1 + h `max` height sib) Hf1) as (s' & Hrun & Hre);
          [cbn [avl]; split_and!; try done; lia|cbn [height]; lia|done|lia|simpl in Hfu; lia|].
        exists s'. split; [exact Hrun|]. rewrite <- (Hents 1).
        eapply rebuilt_trans; [|exact Hre]. rewrite addrs_plug_ents in Hoi1. exact Hoi1.
Qed.
End retrace.

(** ** insert *)

Section insertion.
Context {K A : Type} `{NodeAlloc A} (cmp : K → K → bool) `{!CmpOrder cmp}.
Abbreviation tree := (tree_t K A).
Implicit Types (s : tree) (t l r : atree K) (c : list (frame K)) (L : list (addr * K)).

(** The invariant: the store holds a balanced search tree of the entries [L],
    in order; first, last, the size and the allocator agree with it. *)
Record tree_inv s L : Prop := TreeInv {
  ti_tree : ∃ t, focus s [] t ∧ avl t ∧ ents t = L;
  ti_sorted : sorted cmp L;
  ti_first : first s = fst <$> head L;
  ti_last : last s = fst <$> list.last L;
  ti_size : current_size s = u64 (Z.of_nat (length L));
  ti_alloc : alloc_ok (alloc s) (dom (nodes s))
}.

(** A node to be inserted: in the store, but not in the tree *)
Definition loose s L (a : addr) (v : K) : Prop :=
  a ∉ L.*1 ∧ ∃ n, nodes s !! a = Some n ∧ nitem n = Some v.

(** Where a new key belongs: the empty place in the context [cc] *)
Definition side cc : Z := match cc with [] => -1 | f :: _ => if fleft (K := K) f then -1 else 1 end.
Record place s L (v : K) cc : Prop := Place {
  pl_focus : focus s cc Leaf;
  pl_avl : avlc cc 0;
  pl_ents : L = lents cc ++ rents cc;
  pl_below : below cmp v (lents cc);
  pl_above : above cmp v (rents cc)
}.

(** A search ends on the node of the key, or next to the place for it. *)
Lemma search_spec s L k fuel :
  tree_inv s L → (size (nodes s) ≤ fuel)%nat → is_null (root s) = false →
  (∃ a, (a, k) ∈ L ∧ ins_walk cmp fuel k (root s) s = Done ((Some a, 0), s))
  ∨ (k ∉ L.*2 ∧ ∃ f cc, place s L k (f :: cc)
     ∧ ins_walk cmp fuel k (root s) s = Done ((Some (faddr f), side (f :: cc)), s)).
Proof.
  intros Hi Hfu Hnn. pose proof Hi as [(t & Hf & Ht & HL) Hso _ _ _ _]. rewrite (fc_root _ _ _ Hf) in Hnn |- *.
  pose proof (focus_fuel _ _ _ Hf) as Hfu'. unfold tree_fuel in Hfu'. simpl in Hfu'.
  subst L. cbn [plug] in *. destruct (ins_walk_spec cmp t [] fuel k s) as (res & Hrun & Hw); try done;
    [by intros ->|constructor|constructor|lia|].
  destruct Hw as [c' a b l r Hf' Hp|f c' Hf' Hp Hbe Hab]; cbn [plug] in Hp.
  - left. exists a. split; [|done]. rewrite <- Hp, ents_plug. cbn [ents]. set_solver.
  - right. assert (place s (ents t) k (f :: c')) as Hpl.
    { split; try done.
      - rewrite <- Hp in Ht. by apply (avl_plug_inv (f :: c') Leaf) in Ht as [_ Hc].
      - rewrite <- Hp. apply (ents_plug (f :: c') Leaf). }
    split; [|by exists f, c']. intros (e & -> & He)%list_elem_of_fmap. rewrite (pl_ents _ _ _ _ Hpl) in He.
    apply elem_of_app in He as [He|He].
    + pose proof (proj1 (Forall_forall _ _) Hbe _ He) as Hlt. unfold lt in Hlt. by rewrite cmp_irrefl in Hlt.
    + pose proof (proj1 (Forall_forall _ _) Hab _ He) as Hlt. unfold lt in Hlt. by rewrite cmp_irrefl in Hlt.
Qed.

Lemma inv_empty s L : tree_inv s L → is_null (root s) = bool_decide (L = []).
Proof.
  intros [(t & Hf & _ & <-) _ _ _ _ _]. rewrite (fc_root _ _ _ Hf). destruct t as [|a b k l r]; [done|].
  cbn. rewrite bool_decide_eq_false_2; [done|]. intros He. by destruct (ents l).
Qed.

(** The walk of __tree_ins *)
Lemma tree_walk s L v :
  tree_inv s L →
  (∃ a, (a, v) ∈ L ∧ is_null (root s) = false
     ∧ ins_walk cmp (tree_fuel s) v (root s) s = Done ((Some a, 0), s))
  ∨ (v ∉ L.*2 ∧ ∃ cc, place s L v cc ∧ is_null (root s) = is_null (cparent cc)
     ∧ (if is_null (root s) then mret (None, -1) else ins_walk cmp (tree_fuel s) v (root s)) s
       = Done ((cparent cc, side cc), s)).
Proof.
  intros Hi. destruct (is_null (root s)) eqn:Hnn.
  - right. pose proof (inv_empty _ _ Hi) as He. rewrite Hnn in He. symmetry in He. apply bool_decide_eq_true in He as ->.
    split; [set_solver|]. exists []. split_and!; try done. destruct Hi as [(t & Hf & _ & ->%ents_nil) _ _ _ _ _].
    split; try done; constructor.
  - destruct (search_spec s L v (tree_fuel s) Hi) as [(a & Ha & Hrun)|(Hk & f & cc & Hp & Hrun)]; try done; [unfold tree_fuel; lia|..].
    + left. by exists a.
    + right. split; [done|]. by exists (f :: cc).
Qed.

(** The state after the new node is attached *)
Definition attached s cc (a : addr) (it : option K) : tree :=
  let n := Node None None (cparent cc) 0 it in
  let empty := is_null (cparent cc) in
  Tree (relinked cc (Some a) (<[a := n]> (nodes s)))
       (if empty then Some a else root s)
       (if empty || (bool_decide (cparent cc = first s) && (side cc <? 0)) then Some a else first s)
       (if empty || (bool_decide (cparent cc = last s) && (0 <? side cc)) then Some a else last s)
       (u64 (current_size s + 1)) (alloc s).

Lemma attach_run s cc a n :
  focus s cc Leaf → nodes s !! a = Some n → a ∉ caddrs cc →
  attach (Some a) (cparent cc) (side cc) (is_null (cparent cc)) s = Done (tt, attached s cc a (nitem n)).
Proof.
  intros Hf Ha Hni. unfold attach, attached. destruct n as [nl nr np nb it]. do 4 access.
  rewrite bind_modify, !bind_gets, bind_modify. destruct cc as [|f cc]; cbn [cparent is_null].
  - unfold modify, with_root, with_ends, with_size, with_nodes.
    cbn [nodes root first last current_size alloc relinked orb]. apply done_store. same_map.
  - pose proof (focus_frame_node _ _ _ _ Hf) as Hn.
    assert (a ≠ faddr f) as Hne by (intros ->; apply Hni; simpl; set_solver).
    erewrite upd_done; [|cbn; repeat (rewrite lookup_insert_ne by done); exact Hn].
    unfold with_ends, with_size, with_nodes. cbn [nodes root first last current_size alloc relinked orb].
    erewrite alter_known; [|rewrite lookup_insert_ne by done; exact Hn].
    cbn [side]. destruct (fleft f); apply done_store; same_map.
Qed.

Lemma place_addrs s L v cc : place s L v cc → caddrs cc ≡ₚ L.*1.
Proof. intros [_ _ -> _ _]. symmetry. apply cents_addrs. Qed.

Lemma attached_focus s L v cc a :
  place s L v cc → a ∉ L.*1 → focus (attached s cc a (Some v)) cc (T a 0 v Leaf Leaf).
Proof.
  intros Hp Ha. pose proof (place_addrs _ _ _ _ Hp) as Haddr.
  assert (a ∉ caddrs cc) as Hni by (by rewrite Haddr). destruct Hp as [Hf _ _ _ _].
  eapply (replace_focus s cc Leaf _ (<[a := Node None None (cparent cc) 0 (Some v)]> (nodes s))); try done.
  - simpl. by rewrite lookup_insert_eq.
  - intros b Hb. apply lookup_insert_ne. congruence.
  - simpl. intros b ->%list_elem_of_singleton. done.
  - simpl. apply NoDup_singleton.
  - by destruct cc.
Qed.

Lemma head_insert L1 L2 (e : addr * K) : head (L1 ++ e :: L2) = if L1 is [] then Some e else head (L1 ++ L2).
Proof. by destruct L1. Qed.
Lemma last_insert L1 L2 (e : addr * K) : list.last (L1 ++ e :: L2) = if L2 is [] then Some e else list.last (L1 ++ L2).
Proof. destruct L2 as [|e' L2]; [apply last_snoc|]. by rewrite !last_app_cons, last_cons_cons. Qed.

(** first and last after the insertion *)
Lemma attached_ends s L v cc a it :
  tree_inv s L → place s L v cc →
  first (attached s cc a it) = fst <$> head (lents cc ++ (a, v) :: rents cc)
  ∧ last (attached s cc a it) = fst <$> list.last (lents cc ++ (a, v) :: rents cc).
Proof.
  intros Hi Hp. assert (NoDup L.*1) as Hnd.
  { rewrite <- (place_addrs _ _ _ _ Hp). destruct (pl_focus _ _ _ _ Hp) as [_ _ Hnd _]. done. }
  destruct Hi as [_ _ Hfst Hlst _ _], Hp as [_ _ -> _ _]. unfold attached. cbn [first last].
  rewrite Hfst, Hlst, head_insert, last_insert. destruct cc as [|f cc]; [done|]. cbn [cparent is_null orb side].
  cbn [lents rents] in *. destruct (fleft f) eqn:Hd; cbn [Z.ltb Z.compare].
  - rewrite andb_true_r, andb_false_r. split; [|done].
    destruct (lents cc) as [|e l1] eqn:E; cbn [app head fmap option_fmap option_map fst].
    + by rewrite bool_decide_eq_true_2.
    + rewrite bool_decide_eq_false_2; [done|]. intros [= Heq]. cbn in Hnd. rewrite <- Heq in Hnd.
      apply NoDup_cons in Hnd as [Hnd _]. apply Hnd. rewrite fmap_app. set_solver.
  - rewrite andb_true_r, andb_false_r. split.
    { destruct (lents cc), (ents (fsib f)); done. }
    destruct (list.last (rents cc)) as [e|] eqn:E; [apply last_Some in E as [l2 E]|apply last_None in E]; rewrite E in *.
    + rewrite !app_assoc, last_snoc. cbn [fmap option_fmap option_map].
      rewrite bool_decide_eq_false_2; [by destruct l2|]. intros [= Heq].
      rewrite !fmap_app in Hnd. cbn in Hnd. rewrite <- Heq, <- !app_assoc in Hnd.
      apply NoDup_app in Hnd as (_ & _ & Hnd). apply NoDup_app in Hnd as (_ & _ & Hnd). cbn in Hnd.
      apply NoDup_cons in Hnd as [Hnd _]. set_solver.
    + rewrite app_nil_r, app_assoc, last_snoc. by rewrite bool_decide_eq_true_2.
Qed.

Lemma attached_inv s L v cc a :
  tree_inv s L → place s L v cc → a ∉ L.*1 → is_Some (nodes s !! a) →
  let s3 := attached s cc a (Some v) in
  let L' := lents cc ++ (a, v) :: rents cc in
  ∃ s4, retrace_insert (tree_fuel s3) (Some a) s3 = Done (tt, s4) ∧ tree_inv s4 L'
    ∧ ∀ b, b ∉ L'.*1 → nodes s4 !! b = nodes s !! b.
Proof.
  intros Hi Hp Ha Hsome s3 L'. pose proof (attached_focus _ _ _ _ _ Hp Ha) as Hf.
  destruct (attached_ends s L v cc a (Some v) Hi Hp) as [Hfst Hlst].
  pose proof (place_addrs _ _ _ _ Hp) as Haddr. destruct Hp as [_ Hc HL Hbe Hab].
  pose proof (focus_fuel _ _ _ Hf) as Hfu. pose proof (length_caddrs cc) as Hlc.
  destruct (retrace_insert_spec cc (tree_fuel s3) s3 a 0 v Leaf Leaf 0 Hf) as (s4 & Hrun & Hre);
    [simpl; lia|done|done|by right|unfold s3; lia|].
  exists s4. split; [exact Hrun|]. cbn [ents app] in Hre. fold L' in Hre.
  destruct Hre as (t & Hf4 & Ht & He & [Hout Hdom Hf1 Hl1 Hsz Hal]).
  assert (dom (nodes s3) = dom (nodes s)) as Hd3.
  { unfold s3, attached. cbn [nodes]. by rewrite relinked_dom, dom_insert_lookup_L. }
  split.
  - destruct Hi as [_ Hso _ _ Hs Hok]. split.
    + by exists t.
    + unfold L'. rewrite HL in Hso. apply (sorted_app cmp) in Hso as (Hs1 & Hs2 & _). by apply (sorted_node cmp).
    + by rewrite Hf1.
    + by rewrite Hl1.
    + rewrite Hsz. unfold s3, attached. cbn [current_size]. rewrite Hs, HL. unfold L', u64.
      rewrite !length_app. cbn [length]. rewrite Z.add_mod_idemp_l by lia. f_equal. lia.
    + rewrite Hal, Hdom, Hd3. done.
  - intros b Hb. rewrite Hout by done. unfold s3, attached. cbn [nodes].
    unfold L' in Hb. rewrite fmap_app, fmap_cons in Hb. cbn [fst] in Hb.
    rewrite relinked_out; [apply lookup_insert_ne; set_solver|]. rewrite Haddr, HL, fmap_app. set_solver.
Qed.

Definition with_new s (a : addr) (h : A) : tree :=
  Tree (<[a := Node None None None 0 None]> (nodes s)) (root s) (first s) (last s) (current_size s) h.

Lemma inv_addrs s L a : tree_inv s L → a ∈ L.*1 → a ∈ dom (nodes s).
Proof.
  intros [(t & Hf & _ & <-) _ _ _ _ _] Ha. rewrite ents_addrs in Ha. apply elem_of_dom.
  by eapply rep_in; [apply Hf|].
Qed.

Lemma with_new_inv s L a h :
  tree_inv s L → a ∉ dom (nodes s) → alloc_ok h ({[a]} ∪ dom (nodes s)) → tree_inv (with_new s a h) L.
Proof.
  intros Hi Ha Hok. pose proof (inv_addrs s L) as Hin. specialize (λ b, Hin b Hi).
  destruct Hi as [(t & Hf & Ht & HL) Hso Hfst Hlst Hsz _]. split; try done.
  - exists t. split_and!; try done. eapply focus_store; [done| |done]. intros b Hb.
    apply lookup_insert_ne. intros ->. apply Ha, Hin. subst L. by rewrite ents_addrs.
  - cbn. by rewrite dom_insert_L.
Qed.

Lemma with_new_place s L a h v cc :
  place s L v cc → tree_inv s L → a ∉ dom (nodes s) → place (with_new s a h) L v cc.
Proof.
  intros Hp Hi Ha. pose proof (place_addrs _ _ _ _ Hp) as Haddr. destruct Hp as [Hf Hc HL Hbe Hab]. split; try done.
  eapply focus_store; [done| |done]. intros b Hb. rewrite addrs_plug in Hb. cbn [addrs app] in Hb.
  apply lookup_insert_ne. intros ->. apply Ha, (inv_addrs s L); [done|]. by rewrite <- Haddr.
Qed.

(** [L'] is [L] with the entry of [v] added where it belongs *)
Definition adds L (a : addr) (v : K) L' : Prop :=
  ∃ L1 L2, L = L1 ++ L2 ∧ L' = L1 ++ (a, v) :: L2.

(** What an insertion reports and leaves behind: the value was there and
    nothing changes, or its node [a] joins the tree and nodes outside the
    tree are as they were. *)
Definition insert_post (fresh : addr → Prop) s L (v : K) (res : (ptr * bool) * tree) : Prop :=
  ∃ a, match res with
  | ((p, false), s') => s' = s ∧ (a, v) ∈ L ∧ p = Some a
  | ((p, true), s') => p = Some a ∧ fresh a ∧ v ∉ L.*2 ∧ ∃ L', tree_inv s' L' ∧ adds L a v L'
      ∧ ∀ b, b ∉ L'.*1 → nodes s' !! b = nodes s !! b
  end.

Lemma set_item_attached s cc a v :
  a ∉ caddrs cc → upd (Some a) (set_item v) (attached s cc a None) = Done (tt, attached s cc a (Some v)).
Proof.
  intros Ha. unfold upd, attached at 1. cbn [nodes].
  rewrite relinked_out, lookup_insert_eq by done. unfold with_nodes. cbn [nodes root first last current_size alloc attached].
  apply done_store. destruct cc as [|f cc]; cbn [relinked].
  - by rewrite insert_insert_eq.
  - assert (faddr f ≠ a) by (intros <-; apply Ha; simpl; set_solver).
    rewrite !alter_insert_ne by done. by rewrite insert_insert_eq.
Qed.

Lemma avl_insert_spec s L v :
  tree_inv s L → is_Some (allocate (alloc s)) →
  ∃ res, insert cmp v s = Done res ∧ insert_post (λ a, a ∉ dom (nodes s)) s L v res.
Proof.
  intros Hi [[a h] Hal]. unfold insert, tree_ins. rewrite bind_assoc. run. rewrite bind_assoc. run.
  destruct (tree_walk s L v Hi) as [(b & Hb & Hnn & Hrun)|(Hv & cc & Hp & Hnn & Hrun)].
  - rewrite Hnn. rewrite !bind_assoc, (bind_done _ _ _ _ _ Hrun). cbn. eexists. split; [done|]. by exists b.
  - rewrite !bind_assoc, (bind_done _ _ _ _ _ Hrun).
    assert (negb (is_null (root s)) && (side cc =? 0) = false) as ->.
    { rewrite Hnn. destruct cc as [|f cc]; [done|]. cbn. by destruct (fleft f). }
    destruct (alloc_fresh _ _ _ _ (ti_alloc _ _ Hi) Hal) as [Hfr Hok].
    assert (a ∉ L.*1) as HaL by (intros Ha; by apply Hfr, (inv_addrs s L)).
    pose proof (with_new_inv s L a h Hi Hfr Hok) as Hi0.
    pose proof (with_new_place s L a h v cc Hp Hi Hfr) as Hp0.
    assert (new_node Panicked s = Done (Some a, with_new s a h)) as Hnew by (unfold new_node; by rewrite Hal).
    cbn [is_null]. rewrite !bind_assoc, (bind_done _ _ _ _ _ Hnew), !bind_assoc, Hnn.
    assert (a ∉ caddrs cc) as Hac by (by rewrite (place_addrs _ _ _ _ Hp)).
    erewrite (bind_done (attach _ _ _ _)); [|eapply (attach_run (with_new s a h) cc a);
      [by eapply pl_focus|cbn; by rewrite lookup_insert_eq|done]].
    cbn [nitem]. run. rewrite (bind_done _ _ _ _ _ (set_item_attached _ _ _ _ Hac)). run.
    destruct (attached_inv (with_new s a h) L v cc a Hi0 Hp0 HaL) as (s4 & Hre & Hi4 & Hout).
    { cbn. rewrite lookup_insert_eq. eauto. }
    rewrite (bind_done _ _ _ _ _ Hre). eexists. split; [done|]. exists a. split_and!; try done.
    eexists. split_and!; [done| |].
    + exists (lents cc), (rents cc). split; [apply Hp|done].
    + intros b Hb. rewrite Hout by done. cbn. apply lookup_insert_ne. intros <-.
      apply Hb. rewrite fmap_app, elem_of_app. right. by left.
Qed.

(** C24: [insert] of a value into the pointer tree returns: when the value is
    there, with its node and nothing changed; otherwise with a node that was
    free, which is now in the tree where the order wants it.  The tree stays
    a balanced search tree, in step with first, last and the size. *)
Theorem avl_insert_correct s L v :
  tree_inv s L → is_Some (allocate (alloc s)) →
  ∃ res, insert cmp v s = Done res ∧ insert_post (λ a, a ∉ dom (nodes s)) s L v res.
Proof. apply avl_insert_spec. Qed.
End insertion.
