(* ===== verification/AvlSwap.v ===== *)
(** * The AVL tree: exchanging a node with its successor *)

From stdpp Require Import base tactics list numbers option gmap sorting.
From S2P Require Import Prelude AvlTree AvlRep AvlFocus AvlSearch.

#[local] Open Scope Z_scope.

Section swap.
Context {K A : Type} `{NodeAlloc A}.
Abbreviation tree := (tree_t K A).
Implicit Types (s : tree) (t l r : atree K) (c : list (frame K)) (m : gmap addr (node_t K)).

(** ** The part of a path below an upper end *)

Fixpoint repseg m c (up h : ptr) : Prop :=
  match c with
  | [] => True
  | f :: c' =>
      m !! faddr f = Some (Node (if fleft f then h else ptr_of (fsib f))
                                (if fleft f then ptr_of (fsib f) else h)
                                (match c' with [] => up | g :: _ => Some (faddr g) end) (fbal f) (Some (fkey f)))
      ∧ rep m (Some (faddr f)) (fsib f) ∧ repseg m c' up (Some (faddr f))
  end.
(** Its topmost node *)
Definition top c (h : ptr) : ptr := match list.last c with Some f => Some (faddr f) | None => h end.

Lemma top_cons f c h : top (f :: c) h = top c (Some (faddr f)).
Proof. unfold top. destruct c as [|g c]; [done|]. rewrite last_cons. by destruct (list.last (g :: c)) eqn:E; [|apply last_None in E]. Qed.

Lemma repc_app m c1 c2 h : repc m (c1 ++ c2) h ↔ repseg m c1 (cparent c2) h ∧ repc m c2 (top c1 h).
Proof.
  revert h. induction c1 as [|f c1 IH]; intros h; simpl; [unfold top; simpl; naive_solver|].
  rewrite IH, top_cons. assert (cparent (c1 ++ c2) = match c1 with [] => cparent c2 | g :: _ => Some (faddr g) end) as ->
    by (by destruct c1). naive_solver.
Qed.

Lemma repseg_frame m m' c up h :
  repseg m c up h → (∀ a, a ∈ caddrs c → m' !! a = m !! a) → repseg m' c up h.
Proof.
  revert h. induction c as [|f c IH]; intros h; simpl; [done|].
  intros (Ha & Hs & Hc) Hm. split_and!.
  - rewrite Hm; [done|set_solver].
  - eapply rep_frame; [done|]. set_solver.
  - apply IH; [done|]. set_solver.
Qed.

Lemma repseg_relink m c up h h' : repseg m c up h → NoDup (caddrs c) → repseg (relinked c h' m) c up h'.
Proof.
  destruct c as [|f c]; simpl; [done|]. intros (Ha & Hs & Hc) [Hn _]%NoDup_cons. split_and!.
  - rewrite lookup_alter_eq, Ha. simpl. by destruct (fleft f).
  - eapply rep_frame; [done|]. intros b Hb. apply lookup_alter_ne. intros <-. set_solver.
  - eapply repseg_frame; [done|]. intros b Hb. apply lookup_alter_ne. intros <-. set_solver.
Qed.

Lemma top_in c h : c ≠ [] → ∃ a, top c h = Some a ∧ a ∈ caddrs c.
Proof.
  revert h. induction c as [|f c IH]; [done|]. intros h _. rewrite top_cons. destruct c as [|g c].
  - exists (faddr f). split; [done|]. simpl. set_solver.
  - destruct (IH (Some (faddr f)) ltac:(done)) as (a & Ha & Hin). exists a. split; [done|]. simpl in *. set_solver.
Qed.

Lemma repseg_reparent m c up up' h :
  c ≠ [] → repseg m c up h → NoDup (caddrs c) → repseg (reparent (top c h) up' m) c up' h.
Proof.
  revert h. induction c as [|f c IH]; [done|]. intros h _ (Ha & Hs & Hc) Hnd. rewrite top_cons. simpl in Hnd.
  apply NoDup_cons in Hnd as [Hn Hnd]. apply NoDup_app in Hnd as (_ & Hd & Hnd).
  destruct c as [|g c].
  - cbn [top list.last reparent repseg]. rewrite lookup_alter_eq, Ha. split_and!; [done| |done].
    eapply rep_frame; [done|]. intros b Hb. apply lookup_alter_ne. intros <-. set_solver.
  - destruct (top_in (g :: c) (Some (faddr f)) ltac:(done)) as (b & Hb & Hin).
    split_and!; [| |by apply IH].
    + rewrite Hb. cbn [reparent]. rewrite lookup_alter_ne by (intros ->; set_solver). done.
    + eapply rep_frame; [done|]. intros x Hx. rewrite Hb. apply lookup_alter_ne. intros ->. by eapply Hd.
Qed.

(** The leftmost node of a tree *)
Lemma leftmost t : t ≠ Leaf → ∃ cs a b k r,
  t = plug cs (T a b k Leaf r) ∧ lents cs = [] ∧ head (ents t) = Some (a, k)
  ∧ (cs = [] ∨ ∃ f cs', cs = f :: cs' ∧ fleft f = true).
Proof.
  induction t as [|a b k l IHl r _]; [done|]. intros _. destruct l as [|la lb lk ll lr] eqn:El.
  - exists [], a, b, k, r. split_and!; auto.
  - destruct IHl as (cs & a' & b' & k' & r' & Ht & Hl & Hh & Hcs); [done|]. rewrite <- El in *.
    exists (cs ++ [Frame true a b k r]), a', b', k', r'. split_and!.
    + rewrite plug_app, <- Ht. done.
    + by rewrite lents_app, Hl.
    + simpl. by destruct (ents l).
    + right. destruct Hcs as [->|(f & cs' & -> & Hf)]; [by eexists _, []|by eexists _, _].
Qed.

(** ** Slots *)

Definition slot_at c : slot := match c with [] => RootSlot | f :: _ => ChildSlot (Some (faddr f)) (fleft f) end.

Lemma is_left_child_run s f c t a :
  focus s (f :: c) t → ptr_of t = Some a → is_left_child (Some a) s = Done (fleft f, s).
Proof.
  intros Hf Ha. destruct t as [|a' b k l r]; [done|]. injection Ha as ->.
  unfold is_left_child. erewrite bind_node; [|by eapply focus_node]. cbn [nparent cparent].
  erewrite bind_node; [|by eapply focus_frame_node]. cbn [nleft]. unfold mret, M_ret. do 2 f_equal.
  destruct (fleft f) eqn:Hd; [by apply bool_decide_eq_true_2|]. apply bool_decide_eq_false_2.
  by eapply sib_apart.
Qed.

Lemma slot_of_run s c t a : focus s c t → ptr_of t = Some a → slot_of (Some a) s = Done (slot_at c, s).
Proof.
  intros Hf Ha. unfold slot_of. destruct t as [|a' b k l r]; [done|]. injection Ha as ->.
  erewrite bind_node; [|by eapply focus_node]. cbn [nparent]. destruct c as [|f c]; [done|]. cbn [cparent is_null].
  by rewrite (bind_done _ _ _ _ _ (is_left_child_run _ _ _ _ _ Hf eq_refl)).
Qed.

(** The state with another pointer in the slot *)
Definition slot_set c (p : ptr) s : tree :=
  with_root (if c is [] then p else root s) (with_nodes (relinked c p (nodes s)) s).

Lemma write_slot_run s c p :
  (∀ f c', c = f :: c' → is_Some (nodes s !! faddr f)) →
  write_slot (slot_at c) p s = Done (tt, slot_set c p s).
Proof.
  intros Hc. destruct c as [|f c]; cbn [slot_at write_slot]; [by destruct s|].
  destruct (Hc f c eq_refl) as [n Hn]. rewrite (upd_done _ _ _ _ Hn).
  unfold slot_set. cbn [relinked]. by rewrite (alter_known _ _ _ _ Hn).
Qed.

(** ** The exchange *)

(** A lookup through layers of updates at other addresses *)
#[local] Ltac deep_addr :=
  cbn [nodes with_nodes with_root slot_set];
  repeat first
    [ eassumption
    | rewrite lookup_insert_eq; reflexivity
    | rewrite lookup_insert_ne by congruence
    | rewrite reparent_ne by done
    | rewrite relinked_out by done ].

Lemma reparent_insert_ne p q m a n : p ≠ Some a → reparent p q (<[a := n]> m) = <[a := n]> (reparent p q m).
Proof. destruct p as [b|]; [|done]. intros Hne. simpl. apply alter_insert_ne. congruence. Qed.
Lemma relinked_insert_ne c p m a n : a ∉ caddrs c → relinked c p (<[a := n]> m) = <[a := n]> (relinked c p m).
Proof. destruct c as [|f c]; [done|]. simpl. intros Hne. apply alter_insert_ne. set_solver. Qed.

Lemma relinked_some c p m a : is_Some (m !! a) → is_Some (relinked c p m !! a).
Proof.
  destruct c as [|f c]; [done|]. simpl. intros [n Hn]. destruct (decide (faddr f = a)) as [<-|].
  - rewrite lookup_alter_eq, Hn. eauto.
  - rewrite lookup_alter_ne by done. eauto.
Qed.

(** The store after [a], with children [l] and the tree of [b], and its right
    child [b] changed places *)
Definition swapped_near c (a b : addr) (na nb : node_t K) (l sr : ptr) m : gmap addr (node_t K) :=
  <[a := na]> (<[b := nb]> (reparent sr (Some a) (relinked c (Some b) (reparent l (Some b) m)))).

Lemma swap_near_run s c a ab ak l b bb bk sr :
  focus s (Frame false a ab ak l :: c) (T b bb bk Leaf sr) →
  swap_nodes (Some a) (Some b) s
  = Done (tt, Tree (swapped_near c a b (Node None (ptr_of sr) (Some b) bb (Some ak))
                      (Node (ptr_of l) (Some a) (cparent c) ab (Some bk)) (ptr_of l) (ptr_of sr) (nodes s))
                   (if c is [] then Some b else root s) (first s) (last s) (current_size s) (alloc s)).
Proof.
  intros Hf. pose proof (focus_frame_node _ _ _ _ Hf) as Ha. pose proof (focus_node _ _ _ _ _ _ _ Hf) as Hb.
  cbn [fleft faddr fbal fkey fsib ptr_of cparent] in Ha, Hb.
  pose proof (fc_nodup _ _ _ Hf) as Hnd. cbn [addrs caddrs faddr fsib app] in Hnd.
  apply NoDup_cons in Hnd as [Hnb Hnd]. apply NoDup_app in Hnd as (_ & Hsr & Hnd).
  apply NoDup_cons in Hnd as [Hna _].
  rewrite not_elem_of_app, not_elem_of_cons, not_elem_of_app in Hnb.
  destruct Hnb as (Hb1 & Hba & Hb2 & Hbc). apply not_elem_of_app in Hna as [Ha1 Hac].
  setoid_rewrite not_elem_of_cons in Hsr.
  assert (a ≠ b) as Hab by done. assert (ptr_of l ≠ Some a) as Hla by (by intros Hp%ptr_of_elem).
  assert (ptr_of l ≠ Some b) as Hlb by (by intros Hp%ptr_of_elem).
  assert (ptr_of sr ≠ Some a) as Hsa by (intros Hp%ptr_of_elem; by apply Hsr in Hp as (? & _)).
  assert (ptr_of sr ≠ Some b) as Hsb by (by intros Hp%ptr_of_elem).
  pose proof (proj1 (focus_up _ _ _ _) Hf) as Hfa.
  destruct Hf as [(_ & _ & Hrsr) (_ & Hrl & Hrc) _ _]. cbn [fsib faddr] in Hrl.
  unfold swap_nodes. access. rewrite (bool_decide_eq_false_2 (Some b = cparent c)); last first.
  { destruct c as [|f c]; [done|]. intros [= Hfb]. apply Hbc. simpl. rewrite Hfb. by left. }
  cbn [negb kassert]. rewrite bind_mret.
  rewrite (bind_done _ _ _ _ _ (slot_of_run _ _ _ _ Hfa eq_refl)).
  rewrite (bind_done _ _ _ _ _ (slot_of_run _ _ _ _ (proj2 (focus_up _ _ _ _) Hfa) eq_refl)).
  access. rewrite bool_decide_eq_true_2 by done. rewrite !bind_assoc.
  rewrite (bind_done _ _ _ _ _ (slot_of_run _ _ _ _ Hfa eq_refl)).
  rewrite bool_decide_eq_false_2 by done. cbn [negb select_lr set_lr].
  repeat access.
  match goal with |- context [with_nodes ?m s] =>
    replace m with (<[a := Node None (ptr_of sr) (Some b) ab (Some ak)]>
                      (<[b := Node (ptr_of l) (Some a) (cparent c) bb (Some bk)]> (nodes s))) by same_map end.
  rewrite bind_upd_if.
  2: { intros x Hx. apply insert_some, insert_some. by destruct (rep_ptr _ _ _ _ Hrl Hx). }
  cbn [nodes with_nodes]. rewrite bind_assoc.
  erewrite (bind_done (write_slot _ _)); [|apply write_slot_run].
  2: { intros f c' ->. apply reparent_some, insert_some, insert_some. destruct Hrc as [Hg _]. rewrite Hg. eauto. }
  change (upd_if None (set_parent (Some a))) with (mret tt : M tree unit).
  rewrite bind_assoc, bind_mret, bind_upd_if.
  2: { intros x Hx. cbn [nodes slot_set with_root with_nodes]. apply relinked_some, reparent_some, insert_some, insert_some.
       by destruct (rep_ptr _ _ _ _ Hrsr Hx). }
  unfold slot_set. cbn [nodes with_nodes with_root root first last current_size alloc].
  rewrite !reparent_insert_ne, !relinked_insert_ne, !reparent_insert_ne by done.
  repeat access. unfold swapped_near, with_nodes, with_root. cbn [nodes root first last current_size alloc].
  apply done_store. same_map.
Qed.

(** The same when the successor is further down, below the path [cs] *)
Definition swapped_far c cs (a b : addr) (na nb : node_t K) (l r sr : ptr) m : gmap addr (node_t K) :=
  <[a := na]> (<[b := nb]>
    (reparent r (Some b) (reparent l (Some b) (reparent sr (Some a) (relinked cs (Some a) (relinked c (Some b) m)))))).

Lemma read_slot_run s s' c t :
  focus s c t → (∀ f c', c = f :: c' → nodes s' !! faddr f = nodes s !! faddr f) → (c = [] → root s' = root s) →
  read_slot (slot_at c) s' = Done (ptr_of t, s').
Proof.
  intros Hf Hn Hr. destruct c as [|f c]; cbn [slot_at read_slot].
  - unfold gets. by rewrite Hr, (fc_root _ _ _ Hf).
  - erewrite bind_node; [|rewrite (Hn f c eq_refl); by eapply focus_frame_node].
    unfold select_lr. cbn [nleft nright]. by destruct (fleft f).
Qed.

Lemma swap_far_run s c g cs a ab ak l b bb bk sr :
  let r := top (g :: cs) (Some b) in
  focus s ((g :: cs) ++ Frame false a ab ak l :: c) (T b bb bk Leaf sr) → fleft g = true →
  swap_nodes (Some a) (Some b) s
  = Done (tt, Tree (swapped_far c (g :: cs) a b (Node None (ptr_of sr) (Some (faddr g)) bb (Some ak))
                      (Node (ptr_of l) r (cparent c) ab (Some bk)) (ptr_of l) r (ptr_of sr) (nodes s))
                   (if c is [] then Some b else root s) (first s) (last s) (current_size s) (alloc s)).
Proof.
  intros r Hf Hg. set (Fa := Frame false a ab ak l) in *.
  pose proof (proj1 (focus_plug _ _ _ _) Hf) as Hfa. pose proof (proj1 (focus_up _ _ _ _) Hfa) as Hfc.
  pose proof (focus_node _ _ _ _ _ _ _ Hf) as Hb. cbn [app cparent ptr_of] in Hb.
  pose proof (focus_frame_node _ _ _ _ Hf) as HP. cbn [ptr_of] in HP. rewrite Hg in HP.
  pose proof Hf as [(_ & _ & Hrsr) Hrc Hnd _]. apply repc_app in Hrc as [_ (Ha & Hrl & Hrc)].
  cbn [ptr_of] in Ha. fold r in Ha. cbn [fleft faddr fbal fkey fsib Fa] in Ha, Hrl, Hrc.
  rewrite caddrs_app in Hnd. cbn [addrs app] in Hnd.
  apply NoDup_cons in Hnd as [Hnb Hnd]. apply NoDup_app in Hnd as (_ & Hsr & Hnd).
  apply NoDup_app in Hnd as (_ & Hcs & Hnd). cbn [caddrs faddr fsib Fa] in Hnb, Hsr, Hcs, Hnd.
  apply NoDup_cons in Hnd as [Hna _].
  destruct (top_in (g :: cs) (Some b) ltac:(done)) as (ra & Hra & Hrain). fold r in Hra.
  assert (faddr g ∈ caddrs (g :: cs)) as HPin by (simpl; by left).
  change (faddr g :: addrs (fsib g) ++ caddrs cs) with (caddrs (g :: cs)) in Hnb, Hsr, Hcs.
  set (X := caddrs (g :: cs)) in *.
  rewrite !not_elem_of_app, not_elem_of_cons, not_elem_of_app in Hnb.
  destruct Hnb as (Hb1 & HbX & Hba & Hb2 & Hbc). apply not_elem_of_app in Hna as [Ha1 Hac].
  setoid_rewrite not_elem_of_app in Hsr. setoid_rewrite not_elem_of_cons in Hsr.
  setoid_rewrite not_elem_of_cons in Hcs. setoid_rewrite not_elem_of_app in Hcs.
  assert (a ≠ b) as Hab by done. assert (ptr_of l ≠ Some a) as Hla by (by intros Hp%ptr_of_elem).
  assert (ptr_of l ≠ Some b) as Hlb by (by intros Hp%ptr_of_elem).
  assert (ptr_of sr ≠ Some a) as Hsa by (intros Hp%ptr_of_elem; by apply Hsr in Hp as (_ & ? & _)).
  assert (ptr_of sr ≠ Some b) as Hsb by (by intros Hp%ptr_of_elem).
  assert (a ∉ X) as HaX by (intros Hx; by apply Hcs in Hx as (? & _)).
  assert (r ≠ Some a) as Hr1 by congruence. assert (r ≠ Some b) as Hr2 by congruence.
  destruct (Hcs _ HPin) as (HPa & _ & HPc). assert (faddr g ≠ b) as HPb by congruence.
  assert (cparent c ≠ Some b) as Hcb by (destruct c as [|f c]; [done|]; intros [= Hfb]; apply Hbc; simpl; rewrite Hfb; by left).
  clear Hsr Hcs.
  unfold swap_nodes. access. rewrite (bool_decide_eq_false_2 (Some b = cparent c)) by congruence.
  cbn [negb kassert]. rewrite bind_mret.
  rewrite (bind_done _ _ _ _ _ (slot_of_run _ _ _ _ Hfc eq_refl)).
  rewrite (bind_done _ _ _ _ _ (slot_of_run _ _ _ _ Hf eq_refl)).
  access. rewrite (bool_decide_eq_false_2 (Some a = Some (faddr g))) by congruence.
  repeat access.
  match goal with |- context [with_nodes ?m s] =>
    replace m with (<[a := Node None (ptr_of sr) (Some (faddr g)) ab (Some ak)]>
                      (<[b := Node (ptr_of l) r (cparent c) bb (Some bk)]> (nodes s))) by same_map end.
  set (s1 := with_nodes _ s).
  assert (∀ x, x ≠ a → x ≠ b → nodes s1 !! x = nodes s !! x) as Hs1.
  { intros x Hxa Hxb. cbn. by rewrite !lookup_insert_ne. }
  erewrite (bind_done (read_slot (slot_at c))); last first.
  { apply (read_slot_run s s1 c _ Hfc); [|done]. intros f c' ->. apply Hs1; intros Hx; [apply Hac|apply Hbc]; rewrite <- Hx; simpl; by left. }
  rewrite ptr_of_close, !bind_assoc. cbn [faddr Fa].
  erewrite (bind_done (read_slot _)); last first.
  { apply (read_slot_run s s1 _ _ Hf); [|done]. intros f c' [= <- _]. by apply Hs1. }
  cbn [ptr_of]. rewrite bind_assoc.
  erewrite (bind_done (write_slot _ _)); [|apply write_slot_run].
  2: { intros f c' ->. apply insert_some, insert_some. destruct Hrc as [Hgc _]. rewrite Hgc. eauto. }
  change (slot_at ((g :: cs) ++ Fa :: c)) with (slot_at (g :: cs)). rewrite bind_assoc.
  erewrite (bind_done (write_slot _ _)); [|apply write_slot_run].
  2: { intros f c' [= <- _]. cbn [nodes slot_set with_root with_nodes]. apply relinked_some, insert_some, insert_some.
       rewrite HP. eauto. }
  unfold slot_set, s1. cbn [nodes with_nodes with_root root first last current_size alloc].
  rewrite !(relinked_insert_ne c), !(relinked_insert_ne (g :: cs)) by done.
  assert (∀ x, is_Some (nodes s !! x) → is_Some (relinked (g :: cs) (Some a) (relinked c (Some b) (nodes s)) !! x)) as Hm.
  { intros x Hx. by apply relinked_some, relinked_some. }
  set (m2 := relinked (g :: cs) (Some a) _) in *.
  set (s2 := Tree m2 (if c is [] then Some b else root s) (first s) (last s) (current_size s) (alloc s)).
  match goal with |- _ (with_root _ (with_nodes ?m _)) = _ => change (with_root _ (with_nodes m _)) with (with_nodes m s2) end.
  repeat access. change (upd_if None (set_parent (Some a))) with (mret tt : M tree unit). repeat access.
  rewrite bind_upd_if.
  2: { intros x Hx. apply insert_some, insert_some, Hm. by destruct (rep_ptr _ _ _ _ Hrsr Hx). }
  cbn [nodes with_nodes]. rewrite !(reparent_insert_ne (ptr_of sr)) by done. repeat access.
  rewrite bind_upd_if.
  2: { intros x Hx. apply insert_some, insert_some, reparent_some, Hm. by destruct (rep_ptr _ _ _ _ Hrl Hx). }
  cbn [nodes with_nodes]. rewrite !(reparent_insert_ne (ptr_of l)) by done. repeat access.
  rewrite bind_upd_if.
  2: { intros x Hx. rewrite Hra in Hx. injection Hx as <-. apply insert_some, insert_some, reparent_some, reparent_some, Hm.
       assert (ra ∈ addrs (plug (g :: cs) (T b bb bk Leaf sr))) as Hin.
       { rewrite addrs_plug. apply elem_of_app. by right. }
       by eapply rep_in; [apply Hfa|]. }
  cbn [nodes with_nodes]. rewrite !(reparent_insert_ne r) by done. repeat access.
  unfold swapped_far, with_nodes, s2, m2. cbn [nodes root first last current_size alloc].
  apply done_store. same_map.
Qed.

Lemma repc_relink m c h h' : repc m c h → NoDup (caddrs c) → repc (relinked c h' m) c h'.
Proof.
  intros Hc Hnd. rewrite <- (app_nil_r c) in Hc at 1. apply repc_app in Hc as [Hc _].
  pose proof (repseg_relink _ _ _ _ h' Hc Hnd) as Hc'. rewrite <- (app_nil_r c) at 2. by apply repc_app.
Qed.

Lemma top_indep c h h' : c ≠ [] → top c h = top c h'.
Proof. intros Hc. unfold top. destruct (list.last c) eqn:E; [done|]. by apply last_None in E. Qed.

(** A layer of updates leaves a part of the tree elsewhere alone *)
#[local] Ltac elsewhere :=
  repeat first [rewrite lookup_insert_ne by congruence | rewrite reparent_out by eauto | rewrite relinked_out by eauto].

Lemma swap_near_focus s c a ab ak l b bb bk sr :
  focus s (Frame false a ab ak l :: c) (T b bb bk Leaf sr) →
  ∃ s', swap_nodes (Some a) (Some b) s = Done (tt, s')
    ∧ focus s' (Frame false b ab bk l :: c) (T a bb ak Leaf sr)
    ∧ only_in (addrs (plug (Frame false a ab ak l :: c) (T b bb bk Leaf sr))) s s'.
Proof.
  intros Hf. eexists. split; [by apply swap_near_run|].
  destruct Hf as [(Hb & _ & Hrsr) (Ha & Hrl & Hrc) Hnd Hrt].
  cbn [fleft faddr fbal fkey fsib] in *. cbn [addrs caddrs faddr fsib app] in Hnd.
  pose proof Hnd as Hnd0. apply NoDup_cons in Hnd as [Hnb Hnd]. apply NoDup_app in Hnd as (Hnsr & Hsr & Hnd).
  apply NoDup_cons in Hnd as [Hna Hnd]. apply NoDup_app in Hnd as (Hnl & Hl & Hndc).
  rewrite not_elem_of_app, not_elem_of_cons, not_elem_of_app in Hnb. destruct Hnb as (Hb1 & Hba & Hb2 & Hbc).
  apply not_elem_of_app in Hna as [Ha1 Hac].
  assert (∀ x, x ∈ addrs sr → x ≠ a ∧ x ∉ addrs l ∧ x ∉ caddrs c) as Hsr'.
  { intros x Hx%Hsr. rewrite not_elem_of_cons, not_elem_of_app in Hx. tauto. }
  assert (∀ x, x ∈ caddrs c → x ∉ addrs l ∧ x ∉ addrs sr ∧ x ≠ a ∧ x ≠ b) as Hc'.
  { intros x Hx. split_and!; [intros Hx'; by apply (Hl x)|intros Hx'%Hsr'; tauto|by intros ->|by intros ->]. }
  clear Hsr. set (m' := swapped_near _ _ _ _ _ _ _ _).
  assert (∀ x, x ≠ a → x ≠ b → x ∉ addrs sr → x ∉ addrs l → x ∉ caddrs c → m' !! x = nodes s !! x) as Hout.
  { intros x H1 H2 H3 H4 H5. unfold m', swapped_near. rewrite !lookup_insert_ne by done.
    rewrite reparent_out, relinked_out, reparent_out by done. done. }
  split.
  - split; cbn [nodes root].
    + cbn [rep cparent faddr ptr_of]. split_and!; [by unfold m', swapped_near; rewrite lookup_insert_eq|done|].
      assert (rep (relinked c (Some b) (reparent (ptr_of l) (Some b) (nodes s))) (Some b) sr) as Hr1.
      { eapply rep_frame; [exact Hrsr|]. intros x Hx. destruct (Hsr' x Hx) as (? & ? & ?).
        by rewrite relinked_out, reparent_out. }
      eapply rep_frame; [apply (rep_reparent _ _ (Some a) _ Hr1 Hnsr)|]. intros x Hx.
      unfold m', swapped_near. destruct (Hsr' x Hx) as (? & ? & ?). rewrite !lookup_insert_ne by (intros ->; done). done.
    + cbn [repc fleft faddr fbal fkey fsib ptr_of]. split_and!.
      * unfold m', swapped_near. by rewrite lookup_insert_ne, lookup_insert_eq.
      * eapply rep_frame; [apply (rep_reparent _ _ (Some b) _ Hrl Hnl)|]. intros x Hx.
        unfold m', swapped_near. rewrite !lookup_insert_ne by (intros ->; done).
        rewrite reparent_out, relinked_out; [done|intros Hx'; by destruct (Hc' x Hx')|intros Hx'%Hsr'; tauto].
      * assert (repc (reparent (ptr_of l) (Some b) (nodes s)) c (Some a)) as Hc1.
        { eapply repc_frame; [exact Hrc|]. intros x Hx. apply reparent_out. by apply Hc'. }
        eapply repc_frame; [apply (repc_relink _ _ _ (Some b) Hc1 Hndc)|]. intros x Hx. destruct (Hc' x Hx) as (? & ? & ? & ?).
        unfold m', swapped_near. by rewrite !lookup_insert_ne, reparent_out.
    + cbn [addrs caddrs faddr fsib app] in *. revert Hnd0. rewrite !NoDup_cons, !NoDup_app, !NoDup_cons.
      set_solver.
    + rewrite Hrt. destruct c as [|f c]; [done|]. cbn [plug]. unfold close. cbn. apply (root_indep (f :: c)). done.
  - apply OnlyIn; try done; cbn [nodes].
    + intros x Hx. rewrite addrs_plug in Hx. cbn [addrs caddrs faddr fsib app] in Hx. apply Hout; set_solver.
    + unfold m', swapped_near. rewrite !dom_insert_known.
      * by rewrite reparent_dom, relinked_dom, reparent_dom.
      * by apply reparent_some, relinked_some, reparent_some; rewrite Hb.
      * by apply insert_some, reparent_some, relinked_some, reparent_some; rewrite Ha.
Qed.

Lemma swap_far_focus s c g cs a ab ak l b bb bk sr :
  focus s ((g :: cs) ++ Frame false a ab ak l :: c) (T b bb bk Leaf sr) → fleft g = true →
  ∃ s', swap_nodes (Some a) (Some b) s = Done (tt, s')
    ∧ focus s' ((g :: cs) ++ Frame false b ab bk l :: c) (T a bb ak Leaf sr)
    ∧ only_in (addrs (plug ((g :: cs) ++ Frame false a ab ak l :: c) (T b bb bk Leaf sr))) s s'.
Proof.
  intros Hf Hg. eexists. split; [by apply swap_far_run|]. set (r := top (g :: cs) (Some b)).
  destruct Hf as [(Hb & _ & Hrsr) Hrc Hnd Hrt]. apply repc_app in Hrc as [Hseg (Ha & Hrl & Hrc)].
  cbn [fleft faddr fbal fkey fsib ptr_of] in *. cbn [cparent faddr] in Hseg.
  rewrite caddrs_app in Hnd. change (caddrs (Frame false a ab ak l :: c)) with (a :: addrs l ++ caddrs c) in Hnd.
  cbn [addrs app] in Hnd.
  destruct (top_in (g :: cs) (Some b) ltac:(done)) as (ra & Hra & Hrain). fold r in Hra.
  assert (g :: cs ≠ []) as HXne by done. set (X := g :: cs) in *. pose proof Hnd as Hnd0.
  apply NoDup_cons in Hnd as [Hnb Hnd]. apply NoDup_app in Hnd as (Hnsr & Hsr & Hnd).
  apply NoDup_app in Hnd as (HnX & HX & Hnd).
  apply NoDup_cons in Hnd as [Hna Hnd]. apply NoDup_app in Hnd as (Hnl & Hl & Hndc).
  rewrite !not_elem_of_app, not_elem_of_cons, not_elem_of_app in Hnb. destruct Hnb as (Hb1 & HbX & Hba & Hb2 & Hbc).
  apply not_elem_of_app in Hna as [Ha1 Hac].
  assert (∀ x, x ∈ addrs sr → x ≠ a ∧ x ≠ b ∧ x ∉ caddrs X ∧ x ∉ addrs l ∧ x ∉ caddrs c) as Hsr'.
  { intros x Hx. specialize (Hsr x Hx). rewrite not_elem_of_app, not_elem_of_cons, not_elem_of_app in Hsr.
    split_and!; try tauto. by intros ->. }
  assert (∀ x, x ∈ caddrs X → x ≠ a ∧ x ≠ b ∧ x ∉ addrs sr ∧ x ∉ addrs l ∧ x ∉ caddrs c) as HX'.
  { intros x Hx. specialize (HX x Hx). rewrite not_elem_of_cons, not_elem_of_app in HX.
    split_and!; try tauto; [by intros ->|]. intros Hx'%Hsr'. tauto. }
  assert (∀ x, x ∈ addrs l → x ≠ a ∧ x ≠ b ∧ x ∉ addrs sr ∧ x ∉ caddrs X ∧ x ∉ caddrs c) as Hl'.
  { intros x Hx. split_and!; [by intros ->|by intros ->|intros Hx'%Hsr'; tauto|intros Hx'%HX'; tauto|by apply Hl]. }
  assert (∀ x, x ∈ caddrs c → x ≠ a ∧ x ≠ b ∧ x ∉ addrs sr ∧ x ∉ caddrs X ∧ x ∉ addrs l) as Hc'.
  { intros x Hx. split_and!; [by intros ->|by intros ->|intros Hx'%Hsr'; tauto|intros Hx'%HX'; tauto|intros Hx'%Hl'; tauto]. }
  assert (∀ m x, x ∉ caddrs X → reparent r (Some b) m !! x = m !! x) as Hrout.
  { intros m x Hx. apply reparent_ne. rewrite Hra. intros [= ->]. done. }
  clear Hsr HX Hl. unfold swapped_far. set (m1 := relinked c _ _). set (m2 := relinked X _ m1).
  set (m3 := reparent (ptr_of sr) _ m2). set (m4 := reparent (ptr_of l) _ m3). set (m5 := reparent r _ m4).
  set (m' := <[a := _]> _).
  assert (∀ x, x ≠ a → x ≠ b → m' !! x = m5 !! x) as Hm' by (intros; unfold m'; by rewrite !lookup_insert_ne).
  assert (∀ x, x ∉ caddrs c → m1 !! x = nodes s !! x) as Hm1 by (intros; by apply relinked_out).
  assert (∀ x, x ∉ caddrs X → m2 !! x = m1 !! x) as Hm2 by (intros; by apply relinked_out).
  assert (∀ x, x ∉ addrs sr → m3 !! x = m2 !! x) as Hm3 by (intros; by apply reparent_out).
  assert (∀ x, x ∉ addrs l → m4 !! x = m3 !! x) as Hm4 by (intros; by apply reparent_out).
  assert (∀ x, x ∉ caddrs X → m5 !! x = m4 !! x) as Hm5 by (intros; by apply Hrout).
  assert (rep m' (Some a) sr) as Rsr.
  { assert (rep m2 (Some b) sr) as Hr2.
    { eapply rep_frame; [exact Hrsr|]. intros x Hx. destruct (Hsr' x Hx) as (?&?&?&?&?). by rewrite Hm2, Hm1. }
    eapply rep_frame; [apply (rep_reparent _ _ (Some a) _ Hr2 Hnsr)|].
    intros x Hx. destruct (Hsr' x Hx) as (?&?&?&?&?). by rewrite Hm', Hm5, Hm4. }
  assert (rep m' (Some b) l) as Rl.
  { assert (rep m3 (Some a) l) as Hr3.
    { eapply rep_frame; [exact Hrl|]. intros x Hx. destruct (Hl' x Hx) as (?&?&?&?&?). by rewrite Hm3, Hm2, Hm1. }
    eapply rep_frame; [apply (rep_reparent _ _ (Some b) _ Hr3 Hnl)|].
    intros x Hx. destruct (Hl' x Hx) as (?&?&?&?&?). by rewrite Hm', Hm5. }
  assert (repseg m' X (Some b) (Some a)) as RX.
  { assert (repseg m1 X (Some a) (Some b)) as Hs1.
    { eapply repseg_frame; [exact Hseg|]. intros x Hx. destruct (HX' x Hx) as (?&?&?&?&?). by rewrite Hm1. }
    assert (repseg m4 X (Some a) (Some a)) as Hs4.
    { eapply repseg_frame; [apply (repseg_relink _ _ _ _ (Some a) Hs1 HnX)|].
      intros x Hx. destruct (HX' x Hx) as (?&?&?&?&?). by rewrite Hm4, Hm3. }
    eapply repseg_frame; [apply (repseg_reparent _ _ _ (Some b) _ HXne Hs4 HnX)|].
    intros x Hx. destruct (HX' x Hx) as (?&?&?&?&?). rewrite Hm' by done. unfold m5, r.
    by rewrite (top_indep X (Some a) (Some b)). }
  assert (repc m' c (Some b)) as Rc.
  { eapply repc_frame; [apply (repc_relink _ _ _ (Some b) Hrc Hndc)|].
    intros x Hx. destruct (Hc' x Hx) as (?&?&?&?&?). by rewrite Hm', Hm5, Hm4, Hm3, Hm2. }
  split.
  - split; cbn [nodes root].
    + cbn [rep ptr_of]. split_and!; [unfold m'; by rewrite lookup_insert_eq|done|done].
    + apply repc_app. split; [done|]. cbn [repc fleft faddr fbal fkey fsib ptr_of]. split_and!; [|done|].
      * unfold m'. rewrite lookup_insert_ne, lookup_insert_eq by done. unfold r. by rewrite (top_indep X (Some a) (Some b)).
      * done.
    + rewrite caddrs_app. change (caddrs (Frame false b ab bk l :: c)) with (b :: addrs l ++ caddrs c). cbn [addrs app].
      clear -Hnd0 HnX Hnsr Hnl Hndc Hsr' HX' Hl' Hc' Hac Ha1 Hb1 HbX Hba Hb2 Hbc.
      apply NoDup_cons. rewrite !not_elem_of_app, not_elem_of_cons, not_elem_of_app. split.
      * split_and!; try done; [intros Hx%Hsr'; tauto|intros Hx%HX'; tauto].
      * apply NoDup_app. split_and!; [done| |].
        { intros x Hx. destruct (Hsr' x Hx) as (?&?&?&?&?). rewrite not_elem_of_app, not_elem_of_cons, not_elem_of_app. tauto. }
        apply NoDup_app. split_and!; [done| |].
        { intros x Hx. destruct (HX' x Hx) as (?&?&?&?&?). rewrite not_elem_of_cons, not_elem_of_app. tauto. }
        apply NoDup_cons. rewrite not_elem_of_app. split; [tauto|]. apply NoDup_app. split_and!; [done| |done].
        intros x Hx. by destruct (Hl' x Hx) as (?&?&?&?&?).
    + rewrite Hrt. unfold X. destruct c as [|f c].
      * rewrite !plug_app. cbn [plug]. by rewrite ptr_of_close.
      * rewrite !plug_app. apply (root_indep (f :: c)). done.
  - assert (∀ x, is_Some (nodes s !! x) → is_Some (m5 !! x)) as Hsome.
    { intros x Hx. by apply reparent_some, reparent_some, reparent_some, relinked_some, relinked_some. }
    apply OnlyIn; try done; cbn [nodes].
    + intros x Hx. rewrite addrs_plug, caddrs_app in Hx.
      change (caddrs (Frame false a ab ak l :: c)) with (a :: addrs l ++ caddrs c) in Hx. cbn [addrs app] in Hx.
      rewrite not_elem_of_cons, !not_elem_of_app in Hx. destruct Hx as (Hxb & Hx1 & Hx2 & Hx3).
      rewrite not_elem_of_cons, not_elem_of_app in Hx3. destruct Hx3 as (Hxa & Hx3 & Hx4).
      by rewrite Hm', Hm5, Hm4, Hm3, Hm2, Hm1.
    + unfold m'. rewrite !dom_insert_known.
      * unfold m5, m4, m3, m2, m1. by rewrite !reparent_dom, !relinked_dom.
      * apply Hsome. rewrite Hb. eauto.
      * apply insert_some, Hsome. rewrite Ha. eauto.
Qed.
End swap.
