(* ===== verification/AvlDelete.v ===== *)
(** * The AVL tree: retracing after a removal, and erase *)

From stdpp Require Import base tactics list numbers option gmap sorting.
From S2P Require Import Prelude AvlTree AvlRep AvlFocus AvlSearch AvlInsert AvlSwap.

#[local] Open Scope Z_scope.

Section retrace.
Context {K A : Type} `{NodeAlloc A}.
Abbreviation tree := (tree_t K A).
Implicit Types (s : tree) (t l r : atree K) (c : list (frame K)).

(** The height at the top of a path, from the height at its bottom *)
Fixpoint cheight c (h : Z) : Z :=
  match c with [] => h | f :: c => cheight c (1 + h `max` height (fsib f)) end.

Lemma avlc_app c1 c2 h : avlc (c1 ++ c2) h ↔ avlc c1 h ∧ avlc c2 (cheight c1 h).
Proof.
  revert h. induction c1 as [|f c1 IH]; intros h; simpl; [naive_solver|]. rewrite IH. naive_solver.
Qed.
Lemma cheight_app c1 c2 h : cheight (c1 ++ c2) h = cheight c2 (cheight c1 h).
Proof. revert h. induction c1 as [|f c1 IH]; intros h; simpl; [done|]. apply IH. Qed.

(** The subtree [t] is at a position with the same nodes before and after it
    and the same parent as in [c], where a height of [h] is balanced. *)
Definition retraced c t (h : Z) s s' : Prop :=
  ∃ c', focus s' c' t ∧ avlc c' h ∧ lents c' = lents c ∧ rents c' = rents c
    ∧ cparent c' = cparent c ∧ only_in (addrs (plug c t)) s s'.

Lemma retraced_step c c1 t h s s1 s2 :
  lents c1 = lents c → rents c1 = rents c → cparent c1 = cparent c → only_in (addrs (plug c t)) s s1 →
  retraced c1 t h s1 s2 → retraced c t h s s2.
Proof.
  intros Hl Hr Hp Hoi (c' & Hf & Hc & Hl' & Hr' & Hp' & Hoi').
  exists c'. split_and!; try done; try congruence. etrans; [done|].
  by rewrite !addrs_plug_ents, Hl, Hr in *.
Qed.

(** A rotation beside the shrunken subtree [t], whose position in the rotated
    part is below [f1] and [f2] *)
Definition rotated_path (run : M tree ptr) s c1 c t (x : addr) (f1 f2 : frame K) (f : frame K) : Prop :=
  ∃ s1 s', run s = Done (Some (faddr f2), s1)
    ∧ relink (cparent c) (Some x) (Some (faddr f2)) s1 = Done (tt, s')
    ∧ focus s' (c1 ++ f1 :: f2 :: c) t ∧ only_in (addrs (plug (c1 ++ f :: c) t)) s s'
    ∧ faddr f1 = faddr f ∧ lents [f1; f2] = lents [f] ∧ rents [f1; f2] = rents [f].

Lemma rotated_path_intro rot s c1 c t x z t' f1 f2 f :
  rotates rot s c x z t' → t' = close f2 (close f1 (plug c1 t)) →
  faddr f1 = faddr f → lents [f1; f2] = lents [f] → rents [f1; f2] = rents [f] →
  rotated_path (rot (Some x) (Some z)) s c1 c t x f1 f2 f.
Proof.
  intros (s1 & s' & Hrot & Hrel & Hf & Hoi) -> Ha Hl Hr. rewrite ptr_of_close in *.
  exists s1, s'. split_and!; try done.
  - rewrite focus_plug. by do 2 apply (proj2 (focus_up _ _ _ _)).
  - assert (addrs (plug (c1 ++ f :: c) t) = addrs (plug c (close f2 (close f1 (plug c1 t))))) as ->; [|done].
    change (close f2 (close f1 (plug c1 t))) with (plug [f1; f2] (plug c1 t)).
    rewrite <- !plug_app, !addrs_plug_ents. f_equal.
    rewrite !lents_app, !rents_app. change (f :: c) with ([f] ++ c). rewrite !lents_app, !rents_app, Hl, Hr.
    by rewrite <- !app_assoc.
Qed.

(** The left subtree has shrunk to the height [h], and its sibling is two
    higher *)
Lemma delete_rotate_left s c1 c t x kx z bz kz l r h :
  let f := Frame true x 1 kx (T z bz kz l r) in
  focus s (c1 ++ f :: c) t → avl (T z bz kz l r) → height (T z bz kz l r) = h + 2 →
  ∃ f1 f2,
    rotated_path (if bz <? 0 then rotate_rightleft (Some x) (Some z) else rotate_left (Some x) (Some z))
                 s c1 c t x f1 f2 f
    ∧ avlc [f1; f2] h ∧ cheight [f1; f2] h = (if bz =? 0 then h + 3 else h + 2).
Proof.
  intros f Hf (Hbz & Hbr & Hl & Hr) Hh. simpl in Hh. rewrite focus_plug, focus_up in Hf.
  unfold close, f in Hf. cbn [fleft faddr fbal fkey fsib] in Hf.
  destruct (Z.ltb_spec bz 0).
  - destruct l as [|y by_ ky t2 t3]; [pose proof (height_nonneg r); simpl in *; lia|].
    destruct Hl as (Hby & Hbyr & Ht2 & Ht3). simpl in Hh, Hbz.
    pose proof (rotrl_focus _ _ _ _ _ _ _ _ _ _ _ _ _ _ _ Hf) as Hrot.
    destruct (rl_bal by_) as [bx' bz'] eqn:Hbal. unfold rl_bal in Hbal.
    exists (Frame true x bx' kx t2), (Frame true y 0 ky (T z bz' kz t3 r)). split_and!.
    + eapply rotated_path_intro; [exact Hrot|done|done|done|]. simpl. rewrite !app_nil_r.
      repeat (rewrite <- app_assoc; simpl). done.
    + simpl. destruct (Z.ltb_spec 0 by_), (Z.eqb_spec by_ 0); simplify_eq; split_and!; try done; lia.
    + simpl. rewrite (proj2 (Z.eqb_neq bz 0)) by lia.
      destruct (Z.ltb_spec 0 by_), (Z.eqb_spec by_ 0); simplify_eq; lia.
  - pose proof (rotl_focus _ _ _ _ _ _ _ _ _ _ _ Hf) as Hrot.
    destruct (single_bal 1 bz) as [bx' bz'] eqn:Hbal. unfold single_bal in Hbal.
    exists (Frame true x bx' kx l), (Frame true z bz' kz r). split_and!.
    + eapply rotated_path_intro; [exact Hrot|done|done|done|]. simpl. by rewrite !app_nil_r.
    + simpl. destruct (Z.eqb_spec bz 0); simplify_eq; split_and!; try done; lia.
    + simpl. destruct (Z.eqb_spec bz 0); simplify_eq; lia.
Qed.

Lemma delete_rotate_right s c1 c t x kx z bz kz l r h :
  let f := Frame false x (-1) kx (T z bz kz l r) in
  focus s (c1 ++ f :: c) t → avl (T z bz kz l r) → height (T z bz kz l r) = h + 2 →
  ∃ f1 f2,
    rotated_path (if 0 <? bz then rotate_leftright (Some x) (Some z) else rotate_right (Some x) (Some z))
                 s c1 c t x f1 f2 f
    ∧ avlc [f1; f2] h ∧ cheight [f1; f2] h = (if bz =? 0 then h + 3 else h + 2).
Proof.
  intros f Hf (Hbz & Hbr & Hl & Hr) Hh. simpl in Hh. rewrite focus_plug, focus_up in Hf.
  unfold close, f in Hf. cbn [fleft faddr fbal fkey fsib] in Hf.
  destruct (Z.ltb_spec 0 bz).
  - destruct r as [|y by_ ky t2 t3]; [pose proof (height_nonneg l); simpl in *; lia|].
    destruct Hr as (Hby & Hbyr & Ht2 & Ht3). simpl in Hh, Hbz.
    pose proof (rotlr_focus _ _ _ _ _ _ _ _ _ _ _ _ _ _ _ Hf) as Hrot.
    destruct (lr_bal by_) as [bx' bz'] eqn:Hbal. unfold lr_bal in Hbal.
    exists (Frame false x bx' kx t3), (Frame false y 0 ky (T z bz' kz l t2)). split_and!.
    + eapply rotated_path_intro; [exact Hrot|done|done| |done]. simpl.
      repeat (rewrite <- app_assoc; simpl). done.
    + simpl. destruct (Z.ltb_spec 0 by_), (Z.eqb_spec by_ 0); simplify_eq; split_and!; try done; lia.
    + simpl. rewrite (proj2 (Z.eqb_neq bz 0)) by lia.
      destruct (Z.ltb_spec 0 by_), (Z.eqb_spec by_ 0); simplify_eq; lia.
  - pose proof (rotr_focus _ _ _ _ _ _ _ _ _ _ _ Hf) as Hrot.
    destruct (single_bal (-1) bz) as [bx' bz'] eqn:Hbal. unfold single_bal in Hbal.
    exists (Frame false x bx' kx r), (Frame false z bz' kz l). split_and!.
    + eapply rotated_path_intro; [exact Hrot|done|done| |done]. simpl.
      repeat (rewrite <- app_assoc; simpl). done.
    + simpl. destruct (Z.eqb_spec bz 0); simplify_eq; split_and!; try done; lia.
    + simpl. destruct (Z.eqb_spec bz 0); simplify_eq; lia.
Qed.

(** A new balance on the path *)
Lemma path_balance s c1 c t d x bx bx' kx sib :
  focus s (c1 ++ Frame d x bx kx sib :: c) t →
  ∃ s', upd (Some x) (set_balance bx') s = Done (tt, s') ∧ focus s' (c1 ++ Frame d x bx' kx sib :: c) t
    ∧ only_in (addrs (plug (c1 ++ Frame d x bx kx sib :: c) t)) s s'.
Proof.
  intros Hf. rewrite plug_app. rewrite focus_plug, focus_up in Hf. unfold close in Hf. cbn [fleft faddr fbal fkey fsib] in Hf.
  cbn [plug]. unfold close. cbn [fleft faddr fbal fkey fsib].
  destruct d; destruct (balance_focus _ _ _ _ bx' _ _ _ Hf) as (s' & Hrun & Hf' & Hoi); exists s'; split_and!; try done;
    rewrite focus_plug; by apply (proj2 (focus_up _ _ _ _)).
Qed.

Lemma cheight_mono c h : 0 ≤ h → 0 ≤ cheight c h.
Proof. revert h. induction c as [|f c IH]; intros h Hh; simpl; [done|]. apply IH. pose proof (height_nonneg (fsib f)). lia. Qed.

Lemma ptr_of_path c1 f t : ptr_of (plug (c1 ++ [f]) t) = Some (faddr f).
Proof. rewrite plug_app. apply ptr_of_close. Qed.

Lemma ptr_of_path2 c1 f1 f2 t : ptr_of (plug (c1 ++ [f1; f2]) t) = Some (faddr f2).
Proof. rewrite plug_app. apply ptr_of_close. Qed.

Lemma plug_not_leaf c t : t ≠ Leaf → plug c t ≠ Leaf.
Proof.
  revert t. induction c as [|f c IH]; intros t Ht; [done|]. apply IH. unfold close. by destruct (fleft f).
Qed.

Lemma retraced_refl c t h s : focus s c t → avlc c h → retraced c t h s s.
Proof. intros Hf Hc. by exists c. Qed.

Lemma cparent_app c1 f f' c c' : faddr f = faddr f' → cparent (c1 ++ f :: c) = cparent (c1 ++ f' :: c').
Proof. destruct c1; simpl; congruence. Qed.

Lemma lents_swap c1 f1 f2 f c : lents [f1; f2] = lents [f] → lents (c1 ++ f1 :: f2 :: c) = lents (c1 ++ f :: c).
Proof.
  intros Hl. change (f1 :: f2 :: c) with ([f1; f2] ++ c). change (f :: c) with ([f] ++ c).
  by rewrite !lents_app, Hl.
Qed.
Lemma rents_swap c1 f1 f2 f c : rents [f1; f2] = rents [f] → rents (c1 ++ f1 :: f2 :: c) = rents (c1 ++ f :: c).
Proof.
  intros Hl. change (f1 :: f2 :: c) with ([f1; f2] ++ c). change (f :: c) with ([f] ++ c).
  by rewrite !rents_app, Hl.
Qed.

Lemma path_same c1 c d x bx bx' kx sib :
  lents (c1 ++ Frame d x bx' kx sib :: c) = lents (c1 ++ Frame d x bx kx sib :: c)
  ∧ rents (c1 ++ Frame d x bx' kx sib :: c) = rents (c1 ++ Frame d x bx kx sib :: c)
  ∧ cparent (c1 ++ Frame d x bx' kx sib :: c) = cparent (c1 ++ Frame d x bx kx sib :: c).
Proof. rewrite !lents_app, !rents_app. split_and!; [done|done|by apply cparent_app]. Qed.

(** A round that sets a balance, and what follows it *)
Lemma path_balance_go s c1 c t d x bx bx' kx sib h (rest : M tree unit) :
  focus s (c1 ++ Frame d x bx kx sib :: c) t →
  (∀ s', focus s' (c1 ++ Frame d x bx' kx sib :: c) t →
     ∃ s'', rest s' = Done (tt, s'') ∧ retraced (c1 ++ Frame d x bx' kx sib :: c) t h s' s'') →
  ∃ s'', (upd (Some x) (set_balance bx');; rest) s = Done (tt, s'')
    ∧ retraced (c1 ++ Frame d x bx kx sib :: c) t h s s''.
Proof.
  intros Hf Hrest. destruct (path_balance s c1 c t d x bx bx' kx sib Hf) as (s1 & Hrun & Hf1 & Hoi).
  destruct (Hrest s1 Hf1) as (s2 & Hrun2 & Hre). exists s2. rewrite (bind_done _ _ _ _ _ Hrun). split; [done|].
  destruct (path_same c1 c d x bx bx' kx sib) as (Hl & Hr & Hp). by eapply retraced_step.
Qed.
Lemma path_balance_done s c1 c t d x bx bx' kx sib h :
  focus s (c1 ++ Frame d x bx kx sib :: c) t → avlc (c1 ++ Frame d x bx' kx sib :: c) h →
  ∃ s', upd (Some x) (set_balance bx') s = Done (tt, s') ∧ retraced (c1 ++ Frame d x bx kx sib :: c) t h s s'.
Proof.
  intros Hf Hc. destruct (path_balance s c1 c t d x bx bx' kx sib Hf) as (s1 & Hrun & Hf1 & Hoi).
  exists s1. split; [done|]. destruct (path_same c1 c d x bx bx' kx sib) as (Hl & Hr & Hp).
  eapply retraced_step; [done..|]. by apply retraced_refl.
Qed.

(** What is left of a round after its rotation *)
Lemma retrace_after_rotation s c1 c t h (run : M tree ptr) x f1 f2 f b fuel :
  rotated_path run s c1 c t x f1 f2 f →
  avlc c1 h → avlc [f1; f2] (cheight c1 h) →
  cheight [f1; f2] (cheight c1 h) = (if b =? 0 then cheight c1 h + 3 else cheight c1 h + 2) →
  avlc c (cheight c1 h + 3) → (c = [] → fuel ≠ O) →
  (∀ s', focus s' ((c1 ++ [f1; f2]) ++ c) t → b ≠ 0 →
     ∃ s'', retrace_delete_loop fuel (Some (faddr f2)) (cparent c) s' = Done (tt, s'')
       ∧ retraced ((c1 ++ [f1; f2]) ++ c) t h s' s'') →
  ∃ s', (n ← run; relink (cparent c) (Some x) n;;
         if negb (is_null (cparent c)) && (b =? 0) then mret tt else retrace_delete_loop fuel n (cparent c)) s
        = Done (tt, s')
    ∧ retraced (c1 ++ f :: c) t h s s'.
Proof.
  intros (s1 & s2 & Hrot & Hrel & Hf & Hoi & Ha & Hl & Hr) Hc1 Hc2 Hh Hc Hfuel Hrec.
  rewrite (bind_done _ _ _ _ _ Hrot), (bind_done _ _ _ _ _ Hrel).
  assert (∀ s3, retraced (c1 ++ f1 :: f2 :: c) t h s2 s3 → retraced (c1 ++ f :: c) t h s s3) as Hstep.
  { intros s3. eapply retraced_step; [by apply lents_swap|by apply rents_swap|by apply cparent_app|done]. }
  assert (b = 0 ∨ c = [] → avlc (c1 ++ f1 :: f2 :: c) h) as Hdone.
  { intros Hb. change (f1 :: f2 :: c) with ([f1; f2] ++ c). rewrite !avlc_app. split_and!; try done.
    destruct Hb as [-> | ->]; [|done]. by rewrite Hh. }
  destruct (Z.eqb_spec b 0) as [->|Hb].
  - assert (retraced (c1 ++ f :: c) t h s s2) as Hend by (apply Hstep, retraced_refl; [done|apply Hdone; by left]).
    destruct c as [|g c]; cbn [cparent is_null negb andb]; exists s2; (split; [|done]); [|done].
    destruct fuel; [by destruct Hfuel|done].
  - rewrite andb_false_r. rewrite <- app_assoc in Hrec. destruct (Hrec s2 Hf Hb) as (s3 & Hrun & Hre).
    exists s3. split; [done|]. by apply Hstep.
Qed.

(** Retracing from the subtree [plug c1 t], whose height the path above still
    takes for one more than it will be when [t] has the height [h] *)
Lemma retrace_delete_spec c : ∀ fuel s c1 t h,
  t ≠ Leaf → focus s (c1 ++ c) t → 0 ≤ h → avlc c1 h → avlc c (cheight c1 h + 1) → (length c < fuel)%nat →
  ∃ s', retrace_delete_loop fuel (ptr_of (plug c1 t)) (cparent c) s = Done (tt, s')
    ∧ retraced (c1 ++ c) t h s s'.
Proof.
  induction c as [|f c IH]; intros [|fuel] s c1 t h Hne Hf Hh Hc1 Hc Hfu; try (exfalso; simpl in Hfu; lia);
    cbn [retrace_delete_loop cparent is_null].
  - exists s. split; [done|]. apply retraced_refl; [done|]. by rewrite avlc_app.
  - pose proof (cheight_mono c1 h Hh) as HhN. set (hN := cheight c1 h) in *.
    pose proof (proj1 (focus_plug _ _ _ _) Hf) as Hfp.
    erewrite bind_node; [|exact (focus_frame_node _ _ _ _ Hfp)]. cbn [nparent nleft nright nbalance].
    destruct f as [d x bx kx sib]. cbn [fleft faddr fbal fkey fsib avlc] in *.
    destruct Hc as (Hbx & Hbxr & Hs & Hc).
    destruct d; cbn [fleft].
    + rewrite bool_decide_eq_true_2 by done.
      destruct (Z.ltb_spec 0 bx); [|destruct (Z.eqb_spec bx 0)].
      * destruct sib as [|z bz kz l r]; [simpl in *; lia|]. replace bx with 1 in * by lia.
        pose proof Hfp as [_ (_ & Hsr & _) _ _]. destruct Hsr as [Hz _]. cbn [ptr_of].
        erewrite bind_node; [|exact Hz]. cbn [nbalance].
        destruct (delete_rotate_left s c1 c t x kx z bz kz l r hN Hf Hs ltac:(lia)) as (f1 & f2 & Hrp & Hc2 & Hh2).
        eapply (retrace_after_rotation s c1 c t h); try done.
        { fold hN. by replace (hN + 3) with (1 + (hN + 1) `max` height (T z bz kz l r)) by lia. }
        { simpl in Hfu. lia. }
        intros s' Hf' Hb. rewrite <- (ptr_of_path2 c1 f1 f2 t).
        apply (IH fuel s' (c1 ++ [f1; f2])); try done; [by rewrite avlc_app| |simpl in Hfu; lia].
        rewrite cheight_app. fold hN. rewrite Hh2, (proj2 (Z.eqb_neq bz 0)) by done.
        by replace (hN + 2 + 1) with (1 + (hN + 1) `max` height (T z bz kz l r)) by lia.
      * apply (path_balance_done s c1 c t true x bx 1 kx sib h Hf).
        rewrite avlc_app. fold hN. simpl. split_and!; try done; try lia.
        by replace (1 + hN `max` height sib) with (1 + (hN + 1) `max` height sib) by lia.
      * eapply (path_balance_go s c1 c t true x bx 0 kx sib h); [done|].
        intros s' Hf'. set (g := Frame true x 0 kx sib) in *. change (Some x) with (Some (faddr g)).
        assert (c1 ++ g :: c = (c1 ++ [g]) ++ c) as Hg by (by rewrite <- app_assoc). rewrite Hg in Hf' |- *.
        rewrite <- (ptr_of_path c1 g t).
        apply (IH fuel s' (c1 ++ [g])); try done; [| |simpl in Hfu; lia].
        -- rewrite avlc_app. fold hN. simpl. split_and!; try done; lia.
        -- rewrite cheight_app. fold hN. unfold g. cbn [cheight fsib].
           by replace (1 + hN `max` height sib + 1) with (1 + (hN + 1) `max` height sib) by lia.
    + rewrite bool_decide_eq_false_2; last first.
      { intros Hn. destruct (ptr_of (plug c1 t)) as [n|] eqn:En; [|by destruct (plug c1 t) eqn:Ep; [apply (plug_not_leaf c1 t)|]].
        symmetry in Hn. by eapply (sib_apart s _ c (plug c1 t)). }
      destruct (Z.ltb_spec bx 0); [|destruct (Z.eqb_spec bx 0)].
      * destruct sib as [|z bz kz l r]; [simpl in *; lia|]. replace bx with (-1) in * by lia.
        pose proof Hfp as [_ (_ & Hsr & _) _ _]. destruct Hsr as [Hz _]. cbn [ptr_of].
        erewrite bind_node; [|exact Hz]. cbn [nbalance].
        destruct (delete_rotate_right s c1 c t x kx z bz kz l r hN Hf Hs ltac:(lia)) as (f1 & f2 & Hrp & Hc2 & Hh2).
        eapply (retrace_after_rotation s c1 c t h); try done.
        { fold hN. by replace (hN + 3) with (1 + (hN + 1) `max` height (T z bz kz l r)) by lia. }
        { simpl in Hfu. lia. }
        intros s' Hf' Hb. rewrite <- (ptr_of_path2 c1 f1 f2 t).
        apply (IH fuel s' (c1 ++ [f1; f2])); try done; [by rewrite avlc_app| |simpl in Hfu; lia].
        rewrite cheight_app. fold hN. rewrite Hh2, (proj2 (Z.eqb_neq bz 0)) by done.
        by replace (hN + 2 + 1) with (1 + (hN + 1) `max` height (T z bz kz l r)) by lia.
      * apply (path_balance_done s c1 c t false x bx (-1) kx sib h Hf).
        rewrite avlc_app. fold hN. simpl. split_and!; try done; try lia.
        by replace (1 + hN `max` height sib) with (1 + (hN + 1) `max` height sib) by lia.
      * eapply (path_balance_go s c1 c t false x bx 0 kx sib h); [done|].
        intros s' Hf'. set (g := Frame false x 0 kx sib) in *. change (Some x) with (Some (faddr g)).
        assert (c1 ++ g :: c = (c1 ++ [g]) ++ c) as Hg by (by rewrite <- app_assoc). rewrite Hg in Hf' |- *.
        rewrite <- (ptr_of_path c1 g t).
        apply (IH fuel s' (c1 ++ [g])); try done; [| |simpl in Hfu; lia].
        -- rewrite avlc_app. fold hN. simpl. split_and!; try done; lia.
        -- rewrite cheight_app. fold hN. unfold g. cbn [cheight fsib].
           by replace (1 + hN `max` height sib + 1) with (1 + (hN + 1) `max` height sib) by lia.
Qed.
End retrace.

(** ** Unlinking a node *)

Section removal.
Context {K A : Type} `{NodeAlloc A}.
Abbreviation tree := (tree_t K A).
Implicit Types (s : tree) (t l r : atree K) (c : list (frame K)).

(** The node in focus is gone from the tree, the rest [E] of its subtree in
    its place *)
Definition unlinked c t (E : list (addr * K)) s s' : Prop :=
  ∃ c' child, focus s' c' child ∧ avl child ∧ avlc c' (height child) ∧ ents child = E
    ∧ lents c' = lents c ∧ rents c' = rents c ∧ only_in (addrs (plug c t)) s s'.

Lemma relinked_reparent_comm c p q q' m :
  (∀ a, q = Some a → a ∉ caddrs c) → relinked c p (reparent q q' m) = reparent q q' (relinked (K := K) c p m).
Proof.
  destruct c as [|f c]; [done|]. destruct q as [b|]; [|done]. simpl. intros Hb.
  apply alter_alter_ne. intros Heq. apply (Hb b eq_refl). rewrite <- Heq. by left.
Qed.

Lemma bypass_run s c a b k l r child :
  focus s c (T a b k l r) → (child = l ∧ r = Leaf) ∨ (child = r ∧ l = Leaf) → child ≠ Leaf →
  ∃ s', bypass (Some a) (cparent c) (ptr_of child) s = Done (tt, s') ∧ focus s' c child
    ∧ only_in (addrs (plug c (T a b k l r))) s s'.
Proof.
  intros Hf Hch Hne. destruct (ptr_of child) as [x|] eqn:Hx; [|by destruct child].
  assert (rep (nodes s) (Some a) child) as Hrc.
  { destruct Hf as [(_ & Hl & Hr) _ _ _]. by destruct Hch as [[-> _]|[-> _]]. }
  assert (∀ y, y ∈ addrs child → y ∈ addrs (T a b k l r)) as Hsub.
  { intros y Hy. simpl. destruct Hch as [[-> _]|[-> _]]; set_solver. }
  assert (NoDup (addrs child)) as Hnd.
  { pose proof (focus_nodup _ _ _ Hf) as Hnd. simpl in Hnd.
    apply NoDup_app in Hnd as (H1 & _ & [_ H2]%NoDup_cons). by destruct Hch as [[-> _]|[-> _]]. }
  destruct (rep_ptr _ _ _ _ Hrc Hx) as [Hxin Hxs].
  assert (∀ y, Some x = Some y → y ∉ caddrs c) as Hxc by (intros y [= <-]; by eapply focus_apart, Hsub).
  set (m := reparent (Some x) (cparent c) (nodes s)).
  set (s' := Tree (relinked c (Some x) m) (if c is [] then Some x else root s) (first s) (last s) (current_size s) (alloc s)).
  exists s'. split_and!.
  - unfold bypass, s', m. rewrite relinked_reparent_comm by done.
    destruct c as [|f c]; cbn [cparent is_null].
    + rewrite bind_modify. destruct Hxs as [n Hn]. erewrite upd_done; [|exact Hn].
      cbn [relinked reparent]. by rewrite (alter_known _ _ _ _ Hn).
    + rewrite (bind_done _ _ _ _ _ (is_left_child_run _ _ _ _ _ Hf eq_refl)).
      pose proof (focus_frame_node _ _ _ _ Hf) as Hg. erewrite bind_upd; [|exact Hg].
      cbn [relinked reparent]. rewrite (alter_known (nodes s) _ _ _ Hg).
      destruct Hxs as [n Hn]. assert (faddr f ≠ x) by (intros Heq; apply (Hxc x eq_refl); rewrite <- Heq; by left).
      erewrite upd_done; [|cbn; rewrite lookup_insert_ne by done; exact Hn].
      erewrite alter_known; [done|]. by rewrite lookup_insert_ne.
  - eapply (replace_focus s c _ child m); try done.
    + unfold m. rewrite <- Hx. by eapply rep_reparent.
    + intros y Hy. unfold m. apply reparent_ne. intros [= ->]. by eapply Hxc.
    + intros y Hy. by eapply focus_apart, Hsub.
    + by rewrite Hx.
    + destruct c; [by rewrite Hx|done].
  - apply OnlyIn; try done; unfold s', m; cbn [nodes].
    + intros y Hy. rewrite addrs_plug in Hy. apply not_elem_of_app in Hy as [Hy1 Hy2].
      rewrite relinked_out by done. apply reparent_ne. intros [= ->]. by apply Hy1, Hsub.
    + by rewrite relinked_dom, reparent_dom.
Qed.

(** Removing a node without children *)
Lemma detach_run s f c a b k :
  focus s (f :: c) (T a b k Leaf Leaf) →
  ∃ s', (lf ← is_left_child (Some a); upd (Some (faddr f)) (set_lr lf None)) s = Done (tt, s')
    ∧ focus s' (f :: c) Leaf ∧ only_in (addrs (plug (f :: c) (T a b k Leaf Leaf))) s s'.
Proof.
  intros Hf. rewrite (bind_done _ _ _ _ _ (is_left_child_run _ _ _ _ _ Hf eq_refl)).
  pose proof (focus_frame_node _ _ _ _ Hf) as Hg. erewrite upd_done; [|exact Hg].
  eexists. split; [done|]. split.
  - eapply (replace_focus s (f :: c) _ Leaf (nodes s)); try done; [set_solver|constructor|].
    cbn [relinked]. by rewrite (alter_known _ _ _ _ Hg).
  - apply only_in_nodes; [|by apply dom_insert_known; rewrite Hg].
    intros y Hy. apply lookup_insert_ne. intros <-. apply Hy. rewrite addrs_plug. simpl. set_solver.
Qed.

Lemma avl_leaf_pair a b k l r : avl (T (K := K) a b k l r) → r = Leaf → l ≠ Leaf →
  b = -1 ∧ height l = 1.
Proof.
  intros (Hb & Hr & Hl & _) -> Hne. simpl in Hb. destruct l as [|la lb lk ll lr]; [done|].
  simpl in *. pose proof (height_nonneg ll). pose proof (height_nonneg lr). lia.
Qed.
Lemma avl_leaf_pair' a b k l r : avl (T (K := K) a b k l r) → l = Leaf → r ≠ Leaf →
  b = 1 ∧ height r = 1.
Proof.
  intros (Hb & Hr & _ & Hl) -> Hne. simpl in Hb. destruct r as [|la lb lk ll lr]; [done|].
  simpl in *. pose proof (height_nonneg ll). pose proof (height_nonneg lr). lia.
Qed.

(** Retracing that starts at the only child of the node to be unlinked: its
    first round only levels that node. *)
Lemma retrace_from_child s c a b k l r child :
  focus s c (T a b k l r) → avl (T a b k l r) → avlc c 2 →
  (child = l ∧ r = Leaf) ∨ (child = r ∧ l = Leaf) → child ≠ Leaf →
  ∃ s', retrace_delete (ptr_of child) s = Done (tt, s') ∧ retraced c (T a 0 k l r) 1 s s'.
Proof.
  intros Hf Ht Hc Hch Hne. unfold retrace_delete. run.
  pose proof (focus_fuel _ _ _ Hf) as Hfu. pose proof (length_caddrs c) as Hlc.
  assert (2 ≤ length (addrs (T a b k l r)))%nat as Hlen.
  { simpl. rewrite length_app. simpl. destruct Hch as [[-> ->]|[-> ->]]; [destruct l|destruct r];
      simpl; rewrite ?length_app; simpl; try done; lia. }
  assert (∃ n, nodes s !! (default a (ptr_of child)) = Some n ∧ nparent n = Some a ∧ ptr_of child = Some (default a (ptr_of child)))
    as (n & Hn & Hpar & Hptr).
  { destruct Hf as [(_ & Hl & Hr) _ _ _]. destruct child as [|x xb xk xl xr]; [done|].
    destruct Hch as [[<- _]|[<- _]]; [destruct Hl as [Hl _]|destruct Hr as [Hr _]]; eauto. }
  rewrite Hptr. erewrite bind_node; [|exact Hn]. rewrite Hpar, <- Hptr.
  destruct (tree_fuel s) as [|fuel] eqn:Ef; [lia|]. cbn [retrace_delete_loop is_null].
  erewrite bind_node; [|by eapply focus_node]. cbn [nleft nright nbalance nparent].
  destruct (balance_focus s c a b 0 k l r Hf) as (s1 & Hrun1 & Hf1 & Hoi).
  destruct (retrace_delete_spec c fuel s1 [] (T a 0 k l r) 1) as (s2 & Hrun2 & Hre); try done; [lia|].
  exists s2. split.
  - destruct Hch as [[-> ->]|[-> ->]].
    + destruct (avl_leaf_pair _ _ _ _ _ Ht eq_refl Hne) as [-> _]. rewrite bool_decide_eq_true_2 by done.
      cbn [Z.ltb Z.eqb Z.compare]. by rewrite (bind_done _ _ _ _ _ Hrun1).
    + destruct (avl_leaf_pair' _ _ _ _ _ Ht eq_refl Hne) as [-> _].
      rewrite bool_decide_eq_false_2 by (by destruct r). cbn [Z.ltb Z.eqb Z.compare].
      by rewrite (bind_done _ _ _ _ _ Hrun1).
  - eapply retraced_step; [done..| |exact Hre]. rewrite !addrs_plug_ents in *. exact Hoi.
Qed.

Lemma retrace_from_leaf s c a b k :
  focus s c (T a b k Leaf Leaf) → avlc c 1 →
  ∃ s', retrace_delete (Some a) s = Done (tt, s') ∧ retraced c (T a b k Leaf Leaf) 0 s s'.
Proof.
  intros Hf Hc. unfold retrace_delete. run. pose proof (focus_fuel _ _ _ Hf) as Hfu. pose proof (length_caddrs c) as Hlc.
  erewrite bind_node; [|by eapply focus_node]. cbn [nparent].
  apply (retrace_delete_spec c _ s [] (T a b k Leaf Leaf) 0); try done. simpl in Hfu. lia.
Qed.

Lemma unlink_child s c a b k l r child (sel : node_t K → ptr) :
  (∀ p b k, sel (Node (ptr_of l) (ptr_of r) p b k) = ptr_of child) →
  focus s c (T a b k l r) → avl (T a b k l r) → avlc c (height (T a b k l r)) →
  (child = l ∧ r = Leaf) ∨ (child = r ∧ l = Leaf) → child ≠ Leaf →
  ∃ s', (retrace_delete (ptr_of child);; n ← node (Some a);
         kassert (bool_decide (cparent c = nparent n));; bypass (Some a) (cparent c) (sel n)) s = Done (tt, s')
    ∧ unlinked c (T a b k l r) (ents l ++ ents r) s s'.
Proof.
  intros Hsel Hf Ht Hc Hch Hne.
  assert (height (T a b k l r) = 2 ∧ height child = 1 ∧ avl child) as (Hh & Hh1 & Hac).
  { pose proof Ht as (_ & _ & Hl & Hr). destruct Hch as [[-> ->]|[-> ->]].
    - destruct (avl_leaf_pair _ _ _ _ _ Ht eq_refl Hne) as [_ Hl1]. simpl. rewrite Hl1. done.
    - destruct (avl_leaf_pair' _ _ _ _ _ Ht eq_refl Hne) as [_ Hr1]. simpl. rewrite Hr1. done. }
  rewrite Hh in Hc.
  destruct (retrace_from_child s c a b k l r child Hf Ht Hc Hch Hne) as (s1 & Hrun1 & c' & Hf1 & Hc1 & Hl1 & Hr1 & Hp1 & Hoi1).
  rewrite (bind_done _ _ _ _ _ Hrun1). erewrite bind_node; [|by eapply focus_node]. cbn [nparent].
  rewrite <- Hp1, bool_decide_eq_true_2 by done. cbn [kassert]. rewrite bind_mret, Hsel.
  destruct (bypass_run s1 c' a 0 k l r child Hf1 Hch Hne) as (s2 & Hrun2 & Hf2 & Hoi2).
  exists s2. split; [done|]. exists c', child. split_and!; try done.
  - by rewrite Hh1.
  - by destruct Hch as [[-> ->]|[-> ->]]; rewrite ?app_nil_r.
  - rewrite addrs_plug_ents in Hoi1, Hoi2 |- *. rewrite Hl1, Hr1 in Hoi2. by etrans.
Qed.

Lemma unlink_spec s c a b k l r :
  focus s c (T a b k l r) → avl (T a b k l r) → avlc c (height (T a b k l r)) → l = Leaf ∨ r = Leaf →
  (plug c (T a b k l r) = T a b k Leaf Leaf → current_size s = 1 ∧ first s = None ∧ last s = None) →
  ∃ s', unlink (Some a) (cparent c) s = Done (tt, s')
    ∧ unlinked c (T a b k l r) (ents l ++ ents r) s s'.
Proof.
  intros Hf Ht Hc Hlr Hone. unfold unlink. erewrite bind_node; [|by eapply focus_node]. cbn [nleft nright].
  destruct l as [|la lb lk ll lr] eqn:El, r as [|ra rb rk rl rr] eqn:Er; [| | |by destruct Hlr].
  - cbn [ptr_of is_null negb andb].
    destruct Ht as (Hb & _). simpl in Hb, Hc.
    destruct (retrace_from_leaf s c a b k Hf Hc) as (s1 & Hrun1 & c' & Hf1 & Hc1 & Hl1 & Hr1 & Hp1 & Hoi1).
    rewrite (bind_done _ _ _ _ _ Hrun1). rewrite <- Hp1. destruct c' as [|f c']; cbn [cparent is_null negb].
    + assert (c = []) as -> by (by destruct c). destruct (Hone eq_refl) as (Hsz & Hfs & Hls).
      destruct Hoi1 as [Ho1 Ho2 Ho3 Ho4 Ho5 Ho6]. run. cbn [current_size with_ends with_root].
      rewrite Ho5, Hsz. eexists. split; [done|]. exists [], Leaf. split_and!; try done.
      split; try done. constructor.
    + erewrite bind_node; [|by eapply focus_node]. cbn [nparent cparent].
      rewrite bool_decide_eq_true_2 by done. cbn [kassert]. rewrite bind_mret.
      destruct (detach_run s1 f c' a b k Hf1) as (s2 & Hrun2 & Hf2 & Hoi2). exists s2. split; [done|].
      exists (f :: c'), Leaf. split_and!; try done.
      rewrite addrs_plug_ents in Hoi1, Hoi2 |- *. rewrite Hl1, Hr1 in Hoi2. by etrans.
  - rewrite <- Er in *. replace (is_null (ptr_of r)) with false by (by rewrite Er). cbn [ptr_of is_null negb andb].
    apply (unlink_child s c a b k Leaf r r nright); auto. by rewrite Er.
  - rewrite <- El in *. replace (is_null (ptr_of l)) with false by (by rewrite El). cbn [ptr_of is_null negb andb].
    apply (unlink_child s c a b k l Leaf l nleft); auto. by rewrite El.
Qed.

Lemma height_plug c t : height (plug c t) = cheight c (height t).
Proof.
  revert t. induction c as [|f c IH]; intros t; simpl; [done|]. rewrite IH. f_equal.
  unfold close. destruct (fleft f); simpl; lia.
Qed.

Lemma unlinked_top c t E s s' :
  unlinked c t E s s' →
  ∃ t', focus s' [] t' ∧ avl t' ∧ ents t' = lents c ++ E ++ rents c ∧ only_in (addrs (plug c t)) s s'.
Proof.
  intros (c' & child & Hf & Ht & Hc & He & Hl & Hr & Hoi). exists (plug c' child). split_and!; [|by apply avl_plug| |done].
  - by apply (proj1 (focus_top _ _ _)).
  - by rewrite ents_plug, He, Hl, Hr.
Qed.

Lemma remove_node_spec s c a b k l r :
  focus s c (T a b k l r) → avl (T a b k l r) → avlc c (height (T a b k l r)) →
  (plug c (T a b k l r) = T a b k Leaf Leaf → current_size s = 1 ∧ first s = None ∧ last s = None) →
  ∃ s1 t', remove_node (Some a) s = Done (tt, with_size (u64 (current_size s - 1)) s1)
    ∧ focus s1 [] t' ∧ avl t' ∧ ents t' = lents c ++ (ents l ++ ents r) ++ rents c
    ∧ only_in (addrs (plug c (T a b k l r))) s s1.
Proof.
  intros Hf Ht Hc Hone. unfold remove_node. erewrite bind_node; [|by eapply focus_node]. cbn [nleft nright nparent].
  assert ((l = Leaf ∨ r = Leaf) ∨ (l ≠ Leaf ∧ r ≠ Leaf)) as [Hlr|[Hl Hr]] by (destruct l, r; auto).
  - assert (negb (is_null (ptr_of l)) && negb (is_null (ptr_of r)) = false) as ->.
    { destruct Hlr as [-> | ->]; [done|]. by destruct (is_null (ptr_of l)). }
    rewrite bind_mret. destruct (unlink_spec s c a b k l r Hf Ht Hc Hlr Hone) as (s1 & Hrun & Hun).
    apply unlinked_top in Hun as (t' & Hf' & Ht' & He & Hoi).
    exists s1, t'. rewrite (bind_done _ _ _ _ _ Hrun). split_and!; try done.
    unfold modify. by rewrite (oi_size _ _ _ Hoi).
  - assert (negb (is_null (ptr_of l)) && negb (is_null (ptr_of r)) = true) as -> by (by destruct l, r).
    destruct (leftmost r Hr) as (cs & sa & sb & sk & sr & Er & Hlcs & Hhd & Hcs).
    pose proof (proj2 (focus_up _ (Frame false a b k l) _ _) Hf) as Hfr.
    pose proof (focus_fuel _ _ _ Hfr) as Hfu.
    rewrite bind_assoc. run. rewrite bind_assoc, (bind_done _ _ _ _ _ (go_left_spec r _ (tree_fuel s) s Hr Hfr ltac:(lia))), Hhd. cbn [fmap option_fmap option_map fst].
    assert (∃ s0, swap_nodes (Some a) (Some sa) s = Done (tt, s0)
              ∧ focus s0 (cs ++ Frame false sa b sk l :: c) (T a sb k Leaf sr)
              ∧ only_in (addrs (plug c (T a b k l r))) s s0) as (s0 & Hswap & Hf0 & Hoi0).
    { rewrite Er in Hfr |- *. rewrite <- focus_plug in Hfr.
      change (plug c (T a b k l (plug cs (T sa sb sk Leaf sr)))) with (plug (Frame false a b k l :: c) (plug cs (T sa sb sk Leaf sr))).
      rewrite <- plug_app. destruct Hcs as [->|(f & cs' & -> & Hfl)]; [by apply swap_near_focus|by apply swap_far_focus]. }
    rewrite bind_assoc, (bind_done _ _ _ _ _ Hswap), bind_assoc.
    erewrite bind_node; [|by eapply focus_node]. cbn [nparent]. rewrite bind_mret.
    pose proof Ht as (Hb & Hbr & Hal & Har). rewrite Er in Har. apply avl_plug_inv in Har as [HtS HcS].
    destruct (unlink_spec s0 _ a sb k Leaf sr Hf0) as (s1 & Hrun & Hun); [exact HtS| |by left| |].
    { rewrite avlc_app. split; [exact HcS|]. cbn [avlc fbal fleft fsib].
      change (height (T a sb k Leaf sr)) with (height (T sa sb sk Leaf sr)). rewrite <- height_plug, <- Er.
      simpl in Hc. rewrite Z.max_comm. done. }
    { intros Hp. exfalso. apply (f_equal (length ∘ addrs)) in Hp. cbn in Hp. rewrite addrs_plug, caddrs_app in Hp.
      rewrite !length_app in Hp. simpl in Hp. lia. }
    apply unlinked_top in Hun as (t' & Hf' & Ht' & He & Hoi).
    assert (only_in (addrs (plug c (T a b k l r))) s s1) as Hoi1.
    { etrans; [exact Hoi0|]. eapply only_in_mono; [exact Hoi|]. intros x. rewrite !addrs_plug, caddrs_app.
      assert (addrs r ≡ₚ addrs (T sa sb sk Leaf sr) ++ caddrs cs) as Hpr by (rewrite Er; apply addrs_plug).
      simpl. rewrite Hpr. simpl. set_solver. }
    exists s1, t'. rewrite (bind_done _ _ _ _ _ Hrun). split_and!; try done.
    + unfold modify. by rewrite (oi_size _ _ _ Hoi1).
    + rewrite He, lents_app, rents_app, Hlcs. cbn [lents rents fleft faddr fkey fsib ents app].
      assert (ents r = (sa, sk) :: ents sr ++ rents cs) as -> by (rewrite Er, ents_plug, Hlcs; done).
      rewrite app_nil_r. repeat (rewrite <- app_assoc; cbn [app]). done.
Qed.
End removal.
