(* ===== verification/AvlErase.v ===== *)
(** * The AVL tree: erase, extract and the searches that return an iterator *)

From stdpp Require Import base tactics list numbers option gmap sorting.
From S2P Require Import Prelude AvlTree AvlRep AvlFocus AvlSearch AvlInsert AvlSwap AvlDelete.

#[local] Open Scope Z_scope.

(** ** No operation but the construction of an item changes the items *)

Section items.
Context {K A : Type} `{NodeAlloc A}.
Abbreviation tree := (tree_t K A).

Definition keeps_items {X} (m : M tree X) : Prop :=
  ∀ s x s', m s = Done (x, s') → ∀ b, nitem <$> nodes s' !! b = nitem <$> nodes s !! b.

Lemma keeps_bind {X Y} (m : M tree X) (f : X → M tree Y) :
  keeps_items m → (∀ x, keeps_items (f x)) → keeps_items (m ≫= f).
Proof.
  intros Hm Hf s y s' Hrun b. destruct (m s) as [[x s1]|e] eqn:Hs.
  - rewrite (bind_done _ _ _ _ _ Hs) in Hrun. rewrite (Hf _ _ _ _ Hrun). by apply (Hm _ _ _ Hs).
  - by rewrite (bind_fault _ _ _ _ Hs) in Hrun.
Qed.
Lemma keeps_mret {X} (x : X) : keeps_items (mret x).
Proof. by intros s y s' [= <- <-]. Qed.
Lemma keeps_throw {X} e : keeps_items (throw e : M tree X).
Proof. done. Qed.
Lemma keeps_gets {X} (f : tree → X) : keeps_items (gets f).
Proof. by intros s y s' [= <- <-]. Qed.
Lemma keeps_modify f : (∀ s, nodes (f s) = nodes s) → keeps_items (modify f).
Proof. intros Hf s y s' [= <- <-] b. by rewrite Hf. Qed.
Lemma keeps_node p : keeps_items (node p).
Proof. intros s n s' Hn. by apply node_reads in Hn as ->. Qed.
Lemma keeps_upd p f : (∀ n, nitem (f n) = nitem n) → keeps_items (upd p f).
Proof.
  intros Hf s y s' Hu b. unfold upd in Hu. destruct p as [a|]; [|done].
  destruct (nodes s !! a) as [n|] eqn:Ha; [|done]. injection Hu as <- <-. cbn.
  destruct (decide (a = b)) as [->|Hne]; [|by rewrite lookup_insert_ne].
  rewrite lookup_insert_eq, Ha. cbn. by rewrite Hf.
Qed.
Lemma keeps_if {X} (c : bool) (m1 m2 : M tree X) : keeps_items m1 → keeps_items m2 → keeps_items (if c then m1 else m2).
Proof. by destruct c. Qed.
End items.

Create HintDb items.
Ltac items := repeat (intros; first
  [ solve [auto with items nocore]
  | apply keeps_bind | apply keeps_if | apply keeps_mret | apply keeps_throw | apply keeps_gets | apply keeps_node
  | solve [apply keeps_modify; by intros []] | solve [apply keeps_upd; by intros []] ]).

Section kept.
Context {K A : Type} `{NodeAlloc A}.
Abbreviation keeps := (keeps_items (K := K) (A := A)).
Implicit Types (p q : ptr).

Lemma keeps_upd_if p f : (∀ n, nitem (f n) = nitem n) → keeps (upd_if p f).
Proof. intros Hf. unfold upd_if. apply keeps_if; [apply keeps_mret|by apply keeps_upd]. Qed.
Lemma keeps_upd_parent_if p q : keeps (upd_if p (set_parent q)).
Proof. by apply keeps_upd_if. Qed.
Lemma keeps_set_lr p l q : keeps (upd p (set_lr l q)).
Proof. apply keeps_upd. intros []. by destruct l. Qed.
Lemma keeps_is_left_child p : keeps (is_left_child p).
Proof. unfold is_left_child. items. Qed.
Lemma keeps_kassert b : keeps (kassert b).
Proof. unfold kassert. items. Qed.
#[local] Hint Resolve keeps_upd_parent_if keeps_set_lr keeps_is_left_child keeps_kassert : items.

Lemma keeps_rotations x z :
  keeps (rotate_left x z) ∧ keeps (rotate_right x z) ∧ keeps (rotate_leftright x z) ∧ keeps (rotate_rightleft x z).
Proof. unfold rotate_left, rotate_right, rotate_leftright, rotate_rightleft. split_and!; items. Qed.
Lemma keeps_relink g x n : keeps (relink g x n).
Proof. unfold relink. items. Qed.
Lemma keeps_retrace_delete_loop fuel n x : keeps (retrace_delete_loop fuel n x).
Proof.
  pose proof keeps_rotations as Hr. revert n x.
  induction fuel as [|fuel IH]; intros n x; cbn [retrace_delete_loop]; items; try apply keeps_relink; apply Hr.
Qed.
Lemma keeps_go_left fuel p : keeps (go_left fuel p).
Proof. revert p. induction fuel as [|fuel IH]; intros p; cbn [go_left]; items. Qed.
Lemma keeps_slot_of a : keeps (slot_of a).
Proof. unfold slot_of. items. Qed.
Lemma keeps_read_slot c : keeps (read_slot c).
Proof. destruct c; cbn; items. Qed.
Lemma keeps_write_slot c v : keeps (write_slot c v).
Proof. destruct c; cbn; items. Qed.
#[local] Hint Resolve keeps_retrace_delete_loop keeps_go_left keeps_slot_of keeps_read_slot keeps_write_slot : items.

Lemma keeps_swap_nodes a b : keeps (swap_nodes a b).
Proof. unfold swap_nodes. items. Qed.
Lemma keeps_unlink nd p : keeps (unlink nd p).
Proof. unfold unlink, bypass, retrace_delete. items. Qed.
#[local] Hint Resolve keeps_swap_nodes keeps_unlink : items.
Lemma keeps_remove_node nd : keeps (remove_node nd).
Proof. unfold remove_node. items. Qed.
End kept.

(** ** extract_node *)

Section erasing.
Context {K A : Type} `{NodeAlloc A} (cmp : K → K → bool) `{!CmpOrder cmp}.
Abbreviation tree := (tree_t K A).
Implicit Types (s : tree) (t l r : atree K) (c : list (frame K)) (L : list (addr * K)).

(** The position of an entry *)
Lemma locate t : ∀ L1 a k L2, ents t = L1 ++ (a, k) :: L2 →
  ∃ c b l r, t = plug c (T a b k l r) ∧ L1 = lents c ++ ents l ∧ L2 = ents r ++ rents c.
Proof.
  induction t as [|x b kx l IHl r IHr]; intros L1 a k L2 He; [by destruct L1|]. simpl in He.
  apply app_eq_inv in He as [(L & Hl & He)|(L & HL & He)]; destruct L as [|e L].
  - rewrite app_nil_r in Hl. simplify_eq/=. exists [], b, l, r. simpl. by rewrite app_nil_r.
  - simplify_eq/=. destruct (IHl _ _ _ _ Hl) as (c & b' & l' & r' & -> & -> & ->).
    exists (c ++ [Frame true x b kx r]), b', l', r'. rewrite plug_app, lents_app, rents_app. simpl.
    split_and!; [done|done|]. by rewrite app_nil_r, <- app_assoc.
  - rewrite app_nil_r in HL. simplify_eq/=. exists [], b, l, r. simpl. by rewrite app_nil_r.
  - simplify_eq/=. destruct (IHr _ _ _ _ ltac:(eassumption)) as (c & b' & l' & r' & -> & -> & ->).
    exists (c ++ [Frame false x b kx l]), b', l', r'. rewrite plug_app, lents_app, rents_app. simpl.
    split_and!; [done| |by rewrite app_nil_r]. by rewrite <- !app_assoc.
Qed.

Lemma tree_inv_nodup s L : tree_inv cmp s L → NoDup L.*1.
Proof.
  intros [(t & Hf & _ & <-) _ _ _ _ _]. rewrite ents_addrs. by eapply focus_nodup.
Qed.

(** Removing an entry from the list leaves the right ends *)
Lemma ends_without L1 (e : addr * K) L2 :
  NoDup (L1 ++ e :: L2).*1 →
  let fst0 := fst <$> head (L1 ++ e :: L2) in
  let lst0 := fst <$> list.last (L1 ++ e :: L2) in
  (if bool_decide (fst0 = lst0) then (None, None)
   else if bool_decide (fst0 = Some e.1) then (fst <$> head L2, lst0)
   else if bool_decide (lst0 = Some e.1) then (fst0, fst <$> list.last L1)
   else (fst0, lst0)) = (fst <$> head (L1 ++ L2), fst <$> list.last (L1 ++ L2))
  ∧ (fst0 = lst0 → L1 = [] ∧ L2 = []).
Proof.
  intros Hnd fst0 lst0. unfold fst0, lst0.
  assert (list.last (L1 ++ e :: L2) = Some (default e (list.last L2))) as Hlast.
  { rewrite last_app_cons, last_cons. by destruct (list.last L2). }
  rewrite Hlast. rewrite fmap_app, fmap_cons in Hnd. apply NoDup_app in Hnd as (Hn1 & Hd & [He Hn2]%NoDup_cons).
  destruct (list.last L2) as [x|] eqn:E2; [apply last_Some in E2 as [L2' ->]|apply last_None in E2 as ->];
    destruct L1 as [|y L1]; cbn [app head fmap option_fmap option_map default from_option id].
  - split; [|intros [= Heq]; exfalso; apply He; rewrite Heq, fmap_app; set_solver].
    rewrite bool_decide_eq_false_2; [|intros [= Heq]; apply He; rewrite Heq, fmap_app; set_solver].
    rewrite bool_decide_eq_true_2 by done. by rewrite last_snoc.
  - assert (y.1 ≠ x.1) as Hxy by (intros Heq; apply (Hd y.1); [set_solver|]; rewrite Heq, fmap_app; set_solver).
    split; [|intros [= ?]; done]. rewrite bool_decide_eq_false_2 by congruence.
    rewrite bool_decide_eq_false_2; [|intros [= Heq]; apply (Hd y.1); set_solver].
    rewrite bool_decide_eq_false_2; [|intros [= Heq]; apply He; rewrite <- Heq, fmap_app; set_solver].
    by rewrite app_comm_cons, app_assoc, last_snoc.
  - split; [|done]. by rewrite bool_decide_eq_true_2.
  - assert (y.1 ≠ e.1) as Hye by (intros Heq; apply (Hd y.1); [set_solver|]; rewrite Heq; by left).
    split; [|intros [= ?]; done]. rewrite bool_decide_eq_false_2 by congruence.
    rewrite bool_decide_eq_true_2 by done. by rewrite app_nil_r.
Qed.

(** [first] and [last] without the node, as __extract_node sets them *)
Definition ends_of s (L1 L2 : list (addr * K)) : tree :=
  with_ends (fst <$> head (L1 ++ L2)) (fst <$> list.last (L1 ++ L2)) s.

(** The part of __extract_node before the links change *)
Lemma extract_ends s L1 a k L2 {X} (f : ptr → M tree X) :
  tree_inv cmp s (L1 ++ (a, k) :: L2) →
  (fst ← gets first;
   lst ← gets last;
   kassert (negb (is_null fst) && negb (is_null lst));;
   result ← tree_next (Some a);
   ends ←
     (if bool_decide (fst = lst) then kassert (bool_decide (Some a = fst));; mret (None, None)
      else if bool_decide (fst = Some a) then mret (result, lst)
      else if bool_decide (lst = Some a) then p ← tree_prev lst; mret (fst, p)
      else mret (fst, lst));
   modify (with_ends (Datatypes.fst ends) (Datatypes.snd ends));;
   f result) s = f (Datatypes.fst <$> head L2) (ends_of s L1 L2).
Proof.
  intros Hi. pose proof (tree_inv_nodup _ _ Hi) as Hnd. destruct (ends_without _ _ _ Hnd) as [Hends Hone].
  destruct Hi as [(t & Hf & Ht & He) Hso Hfst Hlst Hsz Hok].
  destruct (locate _ _ _ _ _ He) as (c & b & l & r & -> & -> & ->). apply focus_top in Hf.
  run. rewrite Hfst, Hlst.
  assert (is_Some (head ((lents c ++ ents l) ++ (a, k) :: ents r ++ rents c))) as [hd Hhd] by (by destruct (lents c ++ ents l); eexists).
  assert (is_Some (list.last ((lents c ++ ents l) ++ (a, k) :: ents r ++ rents c))) as [lt Hlt] by (rewrite last_app_cons, last_cons; by destruct (list.last (ents r ++ rents c)); eexists).
  unfold ends_of. rewrite Hhd, Hlt in *. cbn [fmap option_fmap option_map is_null negb andb kassert] in *. run.
  rewrite (bind_done _ _ _ _ _ (tree_next_spec _ _ _ _ _ _ _ Hf)).
  change (a, k).1 with a in Hends. case_bool_decide as H1.
  { destruct (Hone H1) as [E1 E2]. rewrite E1, E2 in *. injection Hhd as <-.
    rewrite bool_decide_eq_true_2 by done. cbn. done. }
  case_bool_decide as H2; [by injection Hends as <- <-|].
  case_bool_decide as H3; [|by injection Hends as <- <-]. injection Hends as <- <-.
  rewrite H3, bind_assoc, (bind_done _ _ _ _ _ (tree_prev_spec _ _ _ _ _ _ _ Hf)). done.
Qed.

Lemma sorted_without L1 e L2 : sorted cmp (L1 ++ e :: L2) → sorted cmp (L1 ++ L2).
Proof.
  destruct e as [a k]. rewrite !(sorted_app cmp), (sorted_app cmp [(a, k)] L2 : sorted cmp ((a, k) :: L2) ↔ _).
  intros (H1 & (_ & H2 & _) & H3). split_and!; [done..|]. intros e1 e2 He1 He2. apply H3; [done|]. by right.
Qed.

(** Nodes outside the tree change, come and go *)
Lemma inv_outside s s' L :
  tree_inv cmp s L → (∀ b, b ∈ L.*1 → nodes s' !! b = nodes s !! b) → root s' = root s → first s' = first s →
  last s' = last s → current_size s' = current_size s → alloc_ok (alloc s') (dom (nodes s')) → tree_inv cmp s' L.
Proof.
  intros [(t & Hf & Ht & He) Hso Hfst Hlst Hsz Hok] Hm Hr H1 H2 H3 Hok'. split; try congruence; try done.
  exists t. split_and!; try done. eapply focus_store; [done| |done]. intros b Hb. apply Hm.
  subst L. by rewrite ents_addrs.
Qed.

(** A node taken out is all zero but for its item, or is gone *)
Definition taken_out (destroy : bool) (k : K) : option (node_t K) :=
  if destroy then None else Some (Node None None None 0 (Some k)).

Lemma zero_node s a n :
  nodes s !! a = Some n →
  (upd (Some a) (set_parent None);; upd (Some a) (set_left None);; upd (Some a) (set_right None);;
   upd (Some a) (set_balance 0)) s = Done (tt, with_nodes (<[a := Node None None None 0 (nitem n)]> (nodes s)) s).
Proof.
  intros Ha. do 3 access. erewrite upd_done; [|apply lookup_insert_eq]. unfold with_nodes. cbn.
  by rewrite !insert_insert_eq.
Qed.

Lemma extract_node_spec s L1 a k L2 destroy :
  tree_inv cmp s (L1 ++ (a, k) :: L2) →
  ∃ s', extract_node (Some a) destroy s = Done (fst <$> head L2, s') ∧ tree_inv cmp s' (L1 ++ L2)
    ∧ nodes s' !! a = taken_out destroy k
    ∧ ∀ b, b ∉ (L1 ++ (a, k) :: L2).*1 → nodes s' !! b = nodes s !! b.
Proof.
  intros Hi. unfold extract_node. rewrite (extract_ends s L1 a k L2) by done.
  pose proof (tree_inv_nodup _ _ Hi) as Hnd. destruct Hi as [(t & Hf & Ht & He) Hso _ _ Hsz Hok].
  destruct (locate _ _ _ _ _ He) as (c & b & l & r & -> & -> & ->).
  apply focus_top in Hf. apply avl_plug_inv in Ht as [Ht Hc].
  set (L1 := lents c ++ ents l) in *. set (L2 := ents r ++ rents c) in *. set (s0 := ends_of s L1 L2).
  assert (focus s0 c (T a b k l r)) as Hf0 by (by eapply focus_store).
  destruct (remove_node_spec s0 c a b k l r Hf0 Ht Hc) as (s1 & t' & Hrun & Hf1 & Ht1 & He1 & Hoi).
  { intros Hp. rewrite Hp in He. destruct L1 as [|e1 L1'] eqn:E1; [|by destruct L1']. cbn in He. injection He as HL2.
    unfold s0, ends_of. rewrite <- HL2. cbn. split_and!; [|done..]. rewrite Hsz, <- HL2. done. }
  pose proof (keeps_remove_node (Some a) _ _ _ Hrun a) as Hitem. rewrite (focus_node _ _ _ _ _ _ _ Hf0) in Hitem.
  rewrite (bind_done _ _ _ _ _ Hrun). set (s2 := with_size _ s1) in *. destruct Hoi as [Hout Hdom Hfst Hlst Hsz1 Hal].
  rewrite addrs_plug_ents in Hout. replace (lents c ++ ents (T a b k l r) ++ rents c) with (L1 ++ (a, k) :: L2) in Hout;
    last by (unfold L1, L2; cbn [ents]; rewrite <- !app_assoc).
  assert (tree_inv cmp s2 (L1 ++ L2)) as Hi2.
  { split; try done.
    - exists t'. split_and!; [by eapply focus_store|done|]. rewrite He1. unfold L1, L2. by rewrite <- !app_assoc.
    - by eapply sorted_without.
    - cbn. unfold s0, ends_of. cbn. rewrite Hsz. unfold u64. rewrite Zminus_mod_idemp_l, !length_app. cbn [length]. f_equal. lia.
    - cbn. by rewrite Hal, Hdom. }
  assert (a ∉ (L1 ++ L2).*1) as Ha2.
  { rewrite fmap_app in Hnd |- *. rewrite fmap_cons in Hnd. apply NoDup_app in Hnd as (_ & Hd1 & [Hd2 _]%NoDup_cons).
    intros [Hx|Hx]%elem_of_app; [by apply (Hd1 a Hx); left|done]. }
  destruct (nodes s2 !! a) as [n|] eqn:Hn; [|done]. destruct destroy.
  - eexists. cbn. split_and!; [done| |apply lookup_delete_eq|].
    + apply (inv_outside s2); try done; cbn.
      * intros x Hx. apply lookup_delete_ne. congruence.
      * rewrite dom_delete_L. apply dealloc_ok; [apply Hi2|]. by apply elem_of_dom.
    + intros x Hx. cbn. rewrite lookup_delete_ne; [by apply Hout|]. rewrite fmap_app in Hx. intros ->. apply Hx. set_solver.
  - assert (nitem n = Some k) as Hk by (cbn in Hitem; by injection Hitem). destruct n as [nl nr np nb it]. cbn in Hk. subst it.
    rewrite (bind_done _ _ _ _ _ (zero_node s2 a _ Hn)). eexists. split_and!; [done| |cbn; by rewrite lookup_insert_eq|].
    + apply (inv_outside s2); try done; cbn.
      * intros x Hx. apply lookup_insert_ne. congruence.
      * rewrite dom_insert_lookup_L by eauto. apply Hi2.
    + intros x Hx. cbn. rewrite lookup_insert_ne; [by apply Hout|]. rewrite fmap_app in Hx. intros ->. apply Hx. set_solver.
Qed.

(** ** Searches *)

(** __tree_find *)
Lemma tree_find_spec s L k :
  tree_inv cmp s L →
  (∃ a, (a, k) ∈ L ∧ tree_find cmp k s = Done (Some a, s)) ∨ (k ∉ L.*2 ∧ tree_find cmp k s = Done (None, s)).
Proof.
  intros Hi. unfold tree_find. run. destruct (is_null (root s)) eqn:Hnn.
  - right. pose proof (inv_empty cmp _ _ Hi) as He. rewrite Hnn in He. symmetry in He. apply bool_decide_eq_true in He as ->.
    split; [set_solver|]. unfold tree_fuel. cbn [tree_find_loop]. rewrite Hnn. by destruct (root s).
  - unfold tree_fuel. destruct (search_spec cmp s L k (size (nodes s)) Hi) as [(a & Ha & Hrun)|(Hk & f & cc & Hp & Hrun)]; try done.
    + left. exists a. split; [done|]. by rewrite (find_walk _ _ _ _ _ _ _ _ Hnn Hrun).
    + right. split; [done|]. rewrite (find_walk _ _ _ _ _ _ _ _ Hnn Hrun). cbn. by destruct (fleft f).
Qed.

(** What removing a key leaves: nothing changed because it is not there, or
    its node taken out and the rest in order *)
Definition removal_post (destroy : bool) s L (k : K) (found : option addr) s' : Prop :=
  match found with
  | None => s' = s ∧ k ∉ L.*2
  | Some a => ∃ L1 L2, L = L1 ++ (a, k) :: L2 ∧ tree_inv cmp s' (L1 ++ L2) ∧ k ∉ (L1 ++ L2).*2
      ∧ nodes s' !! a = taken_out destroy k ∧ ∀ b, b ∉ L.*1 → nodes s' !! b = nodes s !! b
  end.

Lemma key_once L1 a k L2 : sorted cmp (L1 ++ (a, k) :: L2) → k ∉ (L1 ++ L2).*2.
Proof.
  intros (_ & _ & Hb & Ha)%(sorted_node cmp). rewrite fmap_app.
  intros [(e & -> & He)%list_elem_of_fmap|(e & -> & He)%list_elem_of_fmap]%elem_of_app.
  - pose proof (proj1 (Forall_forall _ _) Hb _ He) as Hlt. unfold lt in Hlt. by rewrite cmp_irrefl in Hlt.
  - pose proof (proj1 (Forall_forall _ _) Ha _ He) as Hlt. unfold lt in Hlt. by rewrite cmp_irrefl in Hlt.
Qed.

(** There is one place for a key *)
Lemma same_place L1 L2 M1 M2 (a : addr) k :
  L1 ++ L2 = M1 ++ M2 → sorted cmp (M1 ++ (a, k) :: M2) → sorted cmp (L1 ++ (a, k) :: L2) →
  M1 ++ (a, k) :: M2 = L1 ++ (a, k) :: L2.
Proof.
  intros Heq (_ & _ & Hb1 & Ha1)%(sorted_node cmp) (_ & _ & Hb2 & Ha2)%(sorted_node cmp).
  assert (∀ e, e ∈ L1 ++ L2 → ¬ (lt cmp e.2 k ∧ lt cmp k e.2)) as Hno.
  { intros e _ [Hlt Hgt]. unfold lt in *. pose proof (cmp_trans _ _ _ Hlt Hgt) as Hc. by rewrite cmp_irrefl in Hc. }
  unfold below, above in *. rewrite Forall_forall in *.
  apply app_eq_inv in Heq as [(N & -> & ->)|(N & -> & ->)]; destruct N as [|e N]; rewrite ?app_nil_r; try done.
  - destruct (Hno e); [set_solver|]. split; [apply Hb2; set_solver|apply Ha1; set_solver].
  - destruct (Hno e); [set_solver|]. split; [apply Hb1; set_solver|apply Ha2; set_solver].
Qed.

Lemma remove_key {X} (none : X) (some : ptr → X) s L k destroy :
  tree_inv cmp s L →
  ∃ found s', (p ← tree_find cmp k; if is_null p then mret none else extract_node p destroy;; mret (some p)) s
      = Done (if found is Some a then some (Some a) else none, s')
    ∧ removal_post destroy s L k found s'.
Proof.
  intros Hi. destruct (tree_find_spec s L k Hi) as [(a & Ha & Hrun)|[Hk Hrun]]; rewrite (bind_done _ _ _ _ _ Hrun).
  - apply list_elem_of_split in Ha as (L1 & L2 & ->). cbn [is_null].
    destruct (extract_node_spec s L1 a k L2 destroy Hi) as (s' & Hx & Hi' & Hn & Hout).
    rewrite (bind_done _ _ _ _ _ Hx). exists (Some a), s'. split; [done|]. exists L1, L2. split_and!; try done.
    apply (key_once _ a), Hi.
  - by exists None, s.
Qed.

(** C25: [erase] returns on every tree of the invariant, and says whether the
    key was there.  When it was, its node is freed, the rest is a balanced
    search tree of the other entries in the same order, and nodes outside the
    tree are as they were; when it was not, nothing changes. *)
Theorem avl_erase_correct s L k :
  tree_inv cmp s L →
  ∃ found s', erase cmp k s = Done (if found is Some _ then 1 else 0, s') ∧ removal_post true s L k found s'.
Proof.
  apply remove_key.
Qed.

(** extract returns the node, all zero but for its item, and keeps it alive. *)
Lemma avl_extract_spec s L k :
  tree_inv cmp s L →
  ∃ found s', extract cmp k s = Done (found, s') ∧ removal_post false s L k found s'.
Proof.
  intros Hi. destruct (remove_key None id s L k false Hi) as (found & s' & Hrun & Hpost).
  exists found, s'. split; [|done]. unfold extract, id in *. rewrite Hrun. by destruct found.
Qed.

(** Inserting a node handle *)
Lemma insert_node_spec s L a n v :
  tree_inv cmp s L → nodes s !! a = Some n → nitem n = Some v → a ∉ L.*1 →
  ∃ res, insert_node cmp (Some a) s = Done res ∧ insert_post cmp (λ b, b = a) s L v res.
Proof.
  intros Hi Hn Hv HaL. unfold insert_node. cbn [is_null]. erewrite bind_item; [|done|done].
  unfold tree_ins. rewrite bind_assoc. run. rewrite bind_assoc. run.
  destruct (tree_walk cmp s L v Hi) as [(b & Hb & Hnn & Hrun)|(Hk & cc & Hp & Hnn & Hrun)].
  - rewrite Hnn, !bind_assoc, (bind_done _ _ _ _ _ Hrun). cbn. eexists. split; [done|]. by exists b.
  - rewrite !bind_assoc, (bind_done _ _ _ _ _ Hrun).
    assert (negb (is_null (root s)) && (side cc =? 0) = false) as ->.
    { rewrite Hnn. destruct cc as [|f cc]; [done|]. cbn. by destruct (fleft f). }
    cbn [is_null]. rewrite !bind_assoc, bind_mret, !bind_assoc, Hnn.
    assert (a ∉ caddrs cc) as Hac by (by rewrite (place_addrs _ _ _ _ _ Hp)).
    erewrite (bind_done (attach _ _ _ _)); [|eapply (attach_run cmp s cc a); [by eapply pl_focus|done|done]].
    rewrite Hv. run. destruct (attached_inv cmp s L v cc a Hi Hp HaL) as (s4 & Hre & Hi4 & Hout); [eauto|].
    rewrite (bind_done _ _ _ _ _ Hre). eexists. split; [done|]. exists a. split_and!; try done.
    eexists. split_and!; [done| |done]. exists (lents cc), (rents cc). split; [apply Hp|done].
Qed.

(** A node that is extracted and inserted again is back in its place:
    the tree has the entries, at the addresses, that it had. *)
Theorem avl_extract_insert_roundtrip s L k :
  tree_inv cmp s L → k ∈ L.*2 →
  ∃ a s1 s2, extract cmp k s = Done (Some a, s1) ∧ insert_node cmp (Some a) s1 = Done ((Some a, true), s2)
    ∧ tree_inv cmp s2 L.
Proof.
  intros Hi Hk. destruct (avl_extract_spec s L k Hi) as ([a|] & s1 & Hx & Hpost); [|by destruct Hpost].
  destruct Hpost as (L1 & L2 & -> & Hi1 & Hk1 & Hn & _). pose proof (tree_inv_nodup _ _ Hi) as Hnd.
  destruct (insert_node_spec s1 (L1 ++ L2) a _ k Hi1 Hn eq_refl) as ([[p []] s2] & Hins & b & Hpost).
  - rewrite fmap_app in Hnd |- *. rewrite fmap_cons in Hnd. cbn in Hnd. apply NoDup_app in Hnd as (_ & Hd1 & [Hd2 _]%NoDup_cons).
    intros [Hy|Hy]%elem_of_app; [by apply (Hd1 a Hy); left|done].
  - destruct Hpost as (-> & -> & _ & L' & Hi2 & (M1 & M2 & HM & ->) & _). exists a, s1, s2. split_and!; try done.
    replace (L1 ++ (a, k) :: L2) with (M1 ++ (a, k) :: M2); [done|].
    eapply same_place; [done|apply Hi2|apply Hi].
  - destruct Hpost as (_ & Hb & _). destruct Hk1. apply list_elem_of_fmap. by exists (b, k).
Qed.
End erasing.
