(* ===== verification/AvlOps.v ===== *)
(** * The AVL tree: iterators, emplace, clear, validate, and its height *)

From stdpp Require Import base tactics list numbers option gmap sorting.
From S2P Require Import Prelude AvlTree AvlRep AvlFocus AvlSearch AvlInsert AvlSwap AvlDelete AvlErase.

#[local] Open Scope Z_scope.

Section iterators.
Context {K A : Type} `{NodeAlloc A} (cmp : K → K → bool) `{!CmpOrder cmp}.
Abbreviation tree := (tree_t K A).
Implicit Types (s : tree) (t l r : atree K) (c : list (frame K)) (L : list (addr * K)).

(** An entry's node is in focus in some context *)
Lemma entry_focus s L1 a k L2 :
  tree_inv cmp s (L1 ++ (a, k) :: L2) →
  ∃ c b l r, focus s c (T a b k l r) ∧ L1 = lents c ++ ents l ∧ L2 = ents r ++ rents c.
Proof.
  intros [(t & Hf & _ & He) _ _ _ _ _]. destruct (locate _ _ _ _ _ He) as (c & b & l & r & -> & -> & ->).
  exists c, b, l, r. by apply focus_top in Hf.
Qed.

(** ++it and --it *)
Lemma next_spec s L1 a k L2 :
  tree_inv cmp s (L1 ++ (a, k) :: L2) → tree_next (Some a) s = Done (fst <$> head L2, s).
Proof.
  intros Hi. destruct (entry_focus _ _ _ _ _ Hi) as (c & b & l & r & Hf & -> & ->). by apply (tree_next_spec s c a b k l r).
Qed.
Lemma prev_spec s L1 a k L2 :
  tree_inv cmp s (L1 ++ (a, k) :: L2) → tree_prev (Some a) s = Done (fst <$> list.last L1, s).
Proof.
  intros Hi. destruct (entry_focus _ _ _ _ _ Hi) as (c & b & l & r & Hf & -> & ->). by apply (tree_prev_spec s c a b k l r).
Qed.
Lemma prev_end_spec s L : tree_inv cmp s L → tree_prev None s = Done (fst <$> list.last L, s).
Proof. intros Hi. unfold tree_prev. cbn [is_null]. unfold gets. by rewrite (ti_last _ _ _ Hi). Qed.

(** The end of a search as an iterator.  [lower_bound_impl k true] is the
    first entry not before [k], [lower_bound_impl k false] the last one not
    after it. *)
Lemma place_iter s L k f cc :
  tree_inv cmp s L → place cmp s L k (f :: cc) →
  (if fleft f then mret (Some (faddr f)) else tree_next (Some (faddr f))) s = Done (fst <$> head (rents (f :: cc)), s)
  ∧ (if fleft f then tree_prev (Some (faddr f)) else mret (Some (faddr f))) s = Done (fst <$> list.last (lents (f :: cc)), s).
Proof.
  intros Hi [Hf _ _ _ _]. apply focus_up in Hf. destruct f as [d a b kx sib]. unfold close in Hf. cbn [fleft faddr fbal fkey fsib] in *.
  cbn [lents rents fleft faddr fkey fsib]. destruct d.
  - split; [done|]. rewrite (tree_prev_spec _ _ _ _ _ _ _ Hf). cbn [ents]. by rewrite app_nil_r.
  - split; [by rewrite (tree_next_spec _ _ _ _ _ _ _ Hf)|]. by rewrite app_assoc, last_snoc.
Qed.

Lemma lower_bound_impl_spec s L k go_next :
  tree_inv cmp s L →
  ∃ L1 L2 (found : bool), L = L1 ++ L2 ∧
    lower_bound_impl cmp k go_next s = Done (fst <$> (if go_next || found then head L2 else list.last L1), s)
    ∧ below cmp k L1 ∧ Forall (λ e, ¬ lt cmp e.2 k) L2
    ∧ (if found then ∃ a L2', L2 = (a, k) :: L2' else k ∉ L.*2).
Proof.
  intros Hi. unfold lower_bound_impl. run. destruct (is_null (root s)) eqn:Hnn.
  - pose proof (inv_empty cmp _ _ Hi) as He. rewrite Hnn in He. symmetry in He. apply bool_decide_eq_true in He as ->.
    exists [], [], false. split; [done|]. destruct (root s); [done|].
    split; [by destruct go_next|]. split_and!; [constructor|constructor|set_solver].
  - assert (size (nodes s) ≤ tree_fuel s)%nat as Hfu by (unfold tree_fuel; lia).
    destruct (search_spec cmp s L k (tree_fuel s) Hi Hfu Hnn) as [(a & Ha & Hrun)|(Hk & f & cc & Hp & Hrun)];
      rewrite <- lower_bound_walk in Hrun; rewrite (bind_done _ _ _ _ _ Hrun).
    + apply list_elem_of_split in Ha as (L1 & L2 & ->). exists L1, ((a, k) :: L2), true.
      split; [done|]. split; [by destruct go_next|]. destruct (proj1 (sorted_node cmp _ _ _ _) (ti_sorted _ _ _ Hi)) as (_ & _ & Hb & Hab).
      split_and!; [done| |by eauto]. constructor; [unfold lt; cbn; by rewrite cmp_irrefl|].
      eapply Forall_impl; [exact Hab|]. intros e He He'. pose proof (cmp_trans _ _ _ He He') as Hc. by rewrite cmp_irrefl in Hc.
    + destruct (place_iter s L k f cc Hi Hp) as [Hnext Hprev]. pose proof Hp as [_ _ HL Hb Hab].
      exists (lents (f :: cc)), (rents (f :: cc)), false. split; [done|].
      split; [by destruct go_next; cbn in *; destruct (fleft f)|]. split_and!; [done| |done].
      eapply Forall_impl; [exact Hab|]. intros e He He'. pose proof (cmp_trans _ _ _ He He') as Hc. by rewrite cmp_irrefl in Hc.
Qed.

(** C37: [lower_bound] returns the node of the first entry that is not before
    the key, and the end when every entry is. *)
Theorem avl_lower_bound_correct s L k :
  tree_inv cmp s L →
  ∃ L1 L2, L = L1 ++ L2 ∧ lower_bound cmp k s = Done (fst <$> head L2, s)
    ∧ Forall (λ e, cmp e.2 k = true) L1 ∧ Forall (λ e, cmp e.2 k = false) L2.
Proof.
  intros Hi. destruct (lower_bound_impl_spec s L k true Hi) as (L1 & L2 & ? & HL & Hrun & Hb & Hn & _).
  exists L1, L2. split_and!; try done. eapply Forall_impl; [exact Hn|]. intros e. unfold lt. by destruct (cmp e.2 k).
Qed.

(** ** emplace *)

(** A node that is handed in is the one that is linked *)
Lemma tree_ins_given a v s q s' : tree_ins cmp (Some a) v s = Done ((q, false), s') → q = Some a.
Proof.
  unfold tree_ins. rewrite !bind_gets.
  destruct ((if is_null (root s) then mret (None, -1) else ins_walk cmp (tree_fuel s) v (root s)) s) as [[[p d] s1]|e] eqn:Hw; [|by rewrite (bind_fault _ _ _ _ Hw)].
  rewrite (bind_done _ _ _ _ _ Hw). destruct (negb (is_null (root s)) && (d =? 0)); [by intros [=]|].
  cbn [is_null]. rewrite bind_mret.
  destruct (attach (Some a) p d (is_null (root s)) s1) as [[u s2]|e] eqn:Hat; [|by rewrite (bind_fault _ _ _ _ Hat)].
  rewrite (bind_done _ _ _ _ _ Hat). by intros [= <- <-].
Qed.

Lemma emplace_spec s L v :
  tree_inv cmp s L → is_Some (allocate (alloc s)) →
  ∃ p new s' L', emplace cmp v s = Done ((p, new), s') ∧ tree_inv cmp s' L'
    ∧ ∃ a, p = Some a ∧ (a, v) ∈ L' ∧ (if new then v ∉ L.*2 ∧ a ∉ dom (nodes s) ∧ adds L a v L' else L' = L ∧ dom (nodes s') = dom (nodes s)).
Proof.
  intros Hi [[a h] Hal]. unfold emplace.
  destruct (alloc_fresh _ _ _ _ (ti_alloc _ _ _ Hi) Hal) as [Hfr Hok].
  assert (a ∉ L.*1) as HaL by (intros Ha; by apply Hfr, (inv_addrs cmp s L)).
  assert (new_node OutOfRange s = Done (Some a, with_new s a h)) as Hnew by (unfold new_node; by rewrite Hal).
  rewrite (bind_done _ _ _ _ _ Hnew). erewrite bind_upd; [|apply lookup_insert_eq].
  set (s1 := with_nodes _ (with_new s a h)).
  assert (nodes s1 !! a = Some (Node None None None 0 (Some v))) as Ha1 by apply lookup_insert_eq.
  assert (tree_inv cmp s1 L) as Hi1.
  { apply (inv_outside cmp s); try done.
    - intros b Hb. unfold s1. cbn. rewrite !lookup_insert_ne by congruence. done.
    - unfold s1. cbn. by rewrite !dom_insert_L, union_assoc_L, union_idemp_L. }
  destruct (insert_node_spec cmp s1 L a _ v Hi1 Ha1 eq_refl HaL) as ([[p new] s2] & Hrun & b & Hpost).
  unfold insert_node in Hrun. cbn [is_null] in Hrun. erewrite bind_item in Hrun; [|done|done].
  destruct (tree_ins cmp (Some a) v s1) as [[[q dup] s3]|e] eqn:Hins; [|by rewrite (bind_fault _ _ _ _ Hins) in Hrun].
  rewrite (bind_done _ _ _ _ _ Hins). rewrite (bind_done _ _ _ _ _ Hins) in Hrun. destruct dup.
  - injection Hrun as -> <- <-. destruct Hpost as (-> & Hb & ->). cbn. eexists _, _, _, L. split; [done|]. split.
    + apply (inv_outside cmp s1); try done; cbn.
      * intros x Hx. apply lookup_delete_ne. congruence.
      * rewrite dom_delete_L. apply dealloc_ok; [apply Hi1|]. apply elem_of_dom. eauto.
    + exists b. split_and!; try done. cbn. rewrite dom_delete_L, !dom_insert_L. set_solver.
  - rewrite bind_assoc, bind_gets. rewrite bind_gets in Hrun.
    destruct (retrace_insert (tree_fuel s3) (Some a) s3) as [[[] s4]|e] eqn:Hre; [|by rewrite (bind_fault _ _ _ _ Hre) in Hrun].
    rewrite (bind_done _ _ _ _ _ Hre). rewrite (bind_done _ _ _ _ _ Hre) in Hrun. injection Hrun as <- <- <-.
    destruct Hpost as (Hb & -> & Hv & L' & Hi2 & Had & _).
    eexists _, _, _, L'. split_and!; [done|done|]. exists a. split_and!; try done; [by eapply tree_ins_given|].
    destruct Had as (M1 & M2 & -> & ->). apply elem_of_app. right. by left.
Qed.
End iterators.

(** ** clear *)

Section clearing.
Context {K A : Type} `{NodeAlloc A} (cmp : K → K → bool) `{!CmpOrder cmp}.
Abbreviation tree := (tree_t K A).
Implicit Types (s : tree) (t l r : atree K) (c : list (frame K)) (L : list (addr * K)).

(** The nodes [X] were given back; of the rest only those in [Y] changed *)
Record cleared (X Y : list addr) s s' : Prop := Cleared {
  cl_dom : dom (nodes s') = dom (nodes s) ∖ list_to_set X;
  cl_out : ∀ b, b ∉ Y → nodes s' !! b = nodes s !! b;
  cl_alloc : alloc_ok (alloc s') (dom (nodes s'))
}.

Lemma cleared_trans X1 X2 X Y s s1 s2 :
  X ≡ₚ X1 ++ X2 → cleared X1 Y s s1 → cleared X2 Y s1 s2 → cleared X Y s s2.
Proof.
  intros HX [Hd1 Ho1 _] [Hd2 Ho2 Ha]. split; [|by intros b Hb; rewrite Ho2, Ho1|done].
  rewrite Hd2, Hd1, (list_to_set_perm_L _ _ HX), list_to_set_app_L. set_solver.
Qed.

Lemma cleared_mono X Y Y' s s' : (∀ b, b ∈ Y → b ∈ Y') → cleared X Y s s' → cleared X Y' s s'.
Proof. intros HY [Hd Ho Ha]. split; try done. intros b Hb. apply Ho. auto. Qed.

Lemma free_cleared s a Y :
  is_Some (nodes s !! a) → alloc_ok (alloc s) (dom (nodes s)) → a ∈ Y →
  ∃ s', free_node (Some a) s = Done (tt, s') ∧ cleared [a] Y s s' ∧ root s' = root s
    ∧ ∀ b, b ≠ a → nodes s' !! b = nodes s !! b.
Proof.
  intros Ha Hok HY. eexists. split; [done|]. assert (a ∈ dom (nodes s)) by (by apply elem_of_dom).
  split; [|split; [done|]; intros b Hb; by apply lookup_delete_ne]. split; cbn.
  - rewrite dom_delete_L. set_solver.
  - intros b Hb. apply lookup_delete_ne. congruence.
  - rewrite dom_delete_L. by apply dealloc_ok.
Qed.

Lemma clear_leaf s c a b k fuel :
  focus s c (T a b k Leaf Leaf) → alloc_ok (alloc s) (dom (nodes s)) →
  ∃ s', clear_loop (S fuel) (Some a) s = clear_loop fuel (cparent c) s'
    ∧ cleared [a] (a :: caddrs c) s s' ∧ (c ≠ [] → focus s' c Leaf).
Proof.
  intros Hf Hok. pose proof (focus_node _ _ _ _ _ _ _ Hf) as Ha. cbn [clear_loop is_null].
  erewrite bind_node; [|exact Ha]. cbn [nleft nright nparent ptr_of is_null negb].
  destruct c as [|f c]; cbn [cparent is_null].
  - run. destruct (free_cleared s a [a]) as (s' & Hrun & Hcl & _); [by eauto|done|set_solver|].
    rewrite (bind_done _ _ _ _ _ Hrun). by exists s'.
  - destruct (detach_run s f c a b k Hf) as (s1 & Hrun1 & Hf1 & [Ho1 Ho2 _ _ _ Ho6]).
    rewrite (bind_done _ _ _ _ _ Hrun1).
    assert (is_Some (nodes s1 !! a)) as Ha1 by (rewrite <- elem_of_dom, Ho2, elem_of_dom; by rewrite Ha).
    destruct (free_cleared s1 a (a :: caddrs (f :: c)) Ha1) as (s' & Hrun & Hcl & Hrt & Hne); [by rewrite Ho6, Ho2|by left|].
    rewrite (bind_done _ _ _ _ _ Hrun). exists s'. split; [done|]. split.
    + destruct Hcl as [Hd Ho Ha']. split; [by rewrite Hd, Ho2| |done].
      intros x Hx. rewrite Ho by done. apply Ho1. rewrite addrs_plug. done.
    + intros _. eapply focus_store; [exact Hf1| |done]. intros x Hx. apply Hne. intros ->.
      rewrite addrs_plug in Hx. apply (focus_apart _ _ _ a Hf); [by left|done].
Qed.

(** Clearing [t] in any context *)
Definition clears t : Prop := ∀ s c fuel,
  t ≠ Leaf → focus s c t → alloc_ok (alloc s) (dom (nodes s)) →
  ∃ s', clear_loop (2 * length (addrs t) - 1 + fuel)%nat (ptr_of t) s = clear_loop fuel (cparent c) s'
    ∧ cleared (addrs t) (addrs t ++ caddrs c) s s' ∧ (c ≠ [] → focus s' c Leaf).

(** The loop at a node goes down, clears the child and is back. *)
Lemma clear_child t s f c fuel :
  clears t → focus s (f :: c) t → (fleft f = false → fsib f = Leaf) → alloc_ok (alloc s) (dom (nodes s)) →
  ∃ s', clear_loop (2 * length (addrs t) + fuel)%nat (Some (faddr f)) s = clear_loop fuel (Some (faddr f)) s'
    ∧ cleared (addrs t) (addrs t ++ caddrs (f :: c)) s s' ∧ focus s' (f :: c) Leaf.
Proof.
  intros IH Hf Hd Hok. destruct t as [|a b k l r] eqn:Et.
  { exists s. split_and!; try done. split; try done. cbn. set_solver. }
  rewrite <- Et in *. assert (t ≠ Leaf) as Ht by (by subst). assert (length (addrs t) ≠ 0)%nat as Hz.
  { subst t. cbn [addrs]. rewrite length_app. cbn. lia. }
  destruct (IH s (f :: c) fuel Ht Hf Hok) as (s1 & Hrun & Hcl & Hf1).
  exists s1. split_and!; [|done|by apply Hf1]. cbn [cparent] in Hrun. rewrite <- Hrun.
  replace (2 * length (addrs t) + fuel)%nat with (S (2 * length (addrs t) - 1 + fuel))%nat by lia.
  generalize (2 * length (addrs t) - 1 + fuel)%nat. intros n. cbn [clear_loop is_null].
  erewrite bind_node; [|by eapply focus_frame_node]. cbn [nleft nright].
  assert (is_null (ptr_of t) = false) as Hp by (by subst).
  destruct (fleft f); [by rewrite Hp|]. rewrite Hd by done. cbn [ptr_of is_null negb]. by rewrite Hp.
Qed.

Lemma clear_subtree t : clears t.
Proof.
  induction t as [|a b k l IHl r IHr]; intros s c fuel Hne Hf Hok; [done|].
  cbn [ptr_of addrs]. rewrite length_app. cbn [length].
  replace (2 * (length (addrs l) + S (length (addrs r))) - 1 + fuel)%nat
    with (2 * length (addrs l) + (2 * length (addrs r) + S fuel))%nat by lia.
  pose proof (proj2 (focus_up _ (Frame true a b k r) _ _) Hf) as Hfl.
  destruct (clear_child l s _ c (2 * length (addrs r) + S fuel) IHl Hfl) as (s1 & Hrun1 & Hcl1 & Hf1); [done..|].
  cbn [faddr] in Hrun1. rewrite Hrun1. apply focus_up in Hf1.
  pose proof (proj2 (focus_up _ (Frame false a b k Leaf) _ _) Hf1) as Hfr.
  destruct (clear_child r s1 _ c (S fuel) IHr Hfr) as (s2 & Hrun2 & Hcl2 & Hf2); [done|by apply Hcl1|].
  cbn [faddr] in Hrun2. rewrite Hrun2. apply focus_up in Hf2.
  destruct (clear_leaf s2 c a b k fuel Hf2 ltac:(apply Hcl2)) as (s3 & Hrun3 & Hcl3 & Hf3).
  exists s3. split_and!; [done| |done].
  eapply (cleared_trans (addrs l) (addrs r ++ [a])); [by rewrite <- Permutation_cons_append| |].
  { eapply cleared_mono; [|exact Hcl1]. intros x. cbn. set_solver. }
  eapply (cleared_trans (addrs r) [a]); [done| |].
  - eapply cleared_mono; [|exact Hcl2]. intros x. cbn. set_solver.
  - eapply cleared_mono; [|exact Hcl3]. intros x. set_solver.
Qed.

(** C40: [clear] gives back every node of the tree, once, and no other, and
    leaves an empty tree. *)
Theorem avl_clear_correct s L :
  tree_inv cmp s L →
  ∃ s', clear s = Done (tt, s') ∧ tree_inv cmp s' [] ∧ dom (nodes s') = dom (nodes s) ∖ list_to_set L.*1
    ∧ ∀ b, b ∉ L.*1 → nodes s' !! b = nodes s !! b.
Proof.
  intros [(t & Hf & Ht & <-) Hso _ _ _ Hok]. rewrite ents_addrs.
  pose proof (focus_fuel _ _ _ Hf) as Hfu. simpl in Hfu. pose proof (fc_root _ _ _ Hf) as Hrt. simpl in Hrt.
  assert (∃ s', clear_loop (tree_fuel s + tree_fuel s) (root s) s = Done (tt, s')
            ∧ cleared (addrs t) (addrs t) s s') as (s' & Hrun & [Hd Ho Ha]).
  { rewrite Hrt. assert (t = Leaf ∨ t ≠ Leaf) as [-> | Hne] by (destruct t; auto).
    - exists s. split; [by unfold tree_fuel|]. split; try done. cbn. set_solver.
    - destruct (clear_subtree t s [] (tree_fuel s + tree_fuel s - (2 * length (addrs t) - 1))%nat Hne Hf Hok) as (s' & Hrun & Hcl & _).
      replace (2 * length (addrs t) - 1 + (tree_fuel s + tree_fuel s - (2 * length (addrs t) - 1)))%nat
        with (tree_fuel s + tree_fuel s)%nat in Hrun by lia.
      replace (tree_fuel s + tree_fuel s - (2 * length (addrs t) - 1))%nat
        with (S (tree_fuel s + tree_fuel s - (2 * length (addrs t) - 1) - 1))%nat in Hrun by lia.
      exists s'. split; [exact Hrun|]. by rewrite app_nil_r in Hcl. }
  unfold clear. run. rewrite (bind_done _ _ _ _ _ Hrun). run. eexists. split; [done|]. cbn. split_and!; try done.
  split; try done; [|constructor]. exists Leaf. split_and!; try done. split; try done. constructor.
Qed.
End clearing.

(** ** validate *)

Section validation.
Context {K A : Type} `{NodeAlloc A} (cmp : K → K → bool) `{!CmpOrder cmp}.
Context (ltb : K → K → bool) (Hltb : ∀ x y, cmp x y = true → ltb x y = true).
Abbreviation tree := (tree_t K A).
Implicit Types (s : tree) (t l r : atree K) (c : list (frame K)) (L : list (addr * K)).

Lemma sorted_entries L e1 L' e2 : sorted cmp (L ++ e1 :: L') → e2 ∈ L' → cmp e1.2 e2.2 = true.
Proof.
  destruct e1 as [a k]. intros (_ & _ & _ & Ha)%(sorted_node cmp) He. by apply (proj1 (Forall_forall _ _) Ha).
Qed.

(** The link to the parent is right and on the right side. *)
Lemma linked_sound s c a b k l r :
  focus s c (T a b k l r) → sorted cmp (ents (plug c (T a b k l r))) →
  (if is_null (cparent c) then rt ← gets root; mret (bool_decide (rt = Some a))
   else
     pn ← node (cparent c);
     pk ← item (cparent c);
     mret ((bool_decide (nleft pn = Some a) || bool_decide (nright pn = Some a))
           && (negb (bool_decide (nleft pn = Some a)) || cmp k pk)
           && (negb (bool_decide (nright pn = Some a)) || cmp pk k))) s = Done (true, s).
Proof.
  intros Hf Hso. destruct c as [|f c]; cbn [cparent is_null].
  - run. rewrite (fc_root _ _ _ Hf). cbn. by rewrite bool_decide_eq_true_2.
  - pose proof (focus_frame_node _ _ _ _ Hf) as Hg. pose proof (sib_apart s f c _ a Hf eq_refl) as Hs.
    erewrite bind_node; [|exact Hg]. erewrite bind_item; [|exact Hg|done]. cbn [nleft nright].
    rewrite ents_plug in Hso. cbn [lents rents ents ptr_of] in *. destruct (fleft f); cbn [ptr_of].
    + rewrite bool_decide_eq_true_2, (bool_decide_eq_false_2 _ Hs) by done. cbn [negb orb andb].
      replace (cmp k (fkey f)) with true; [done|]. symmetry. rewrite <- app_assoc in Hso. cbn [app] in Hso.
      rewrite app_assoc in Hso. apply (sorted_entries _ (a, k) _ (faddr f, fkey f) Hso). set_solver.
    + rewrite (bool_decide_eq_false_2 _ Hs), bool_decide_eq_true_2 by done. cbn [negb orb andb].
      replace (cmp (fkey f) k) with true; [done|]. symmetry.
      replace ((lents c ++ ents (fsib f) ++ [(faddr f, fkey f)]) ++ (ents l ++ (a, k) :: ents r) ++ rents c)
        with ((lents c ++ ents (fsib f)) ++ (faddr f, fkey f) :: (ents l ++ (a, k) :: ents r) ++ rents c) in Hso
        by (repeat (rewrite <- app_assoc; cbn [app]); done).
      apply (sorted_entries _ (faddr f, fkey f) _ (a, k) Hso). set_solver.
Qed.

Lemma node_sound_spec s c a b k l r :
  focus s c (T a b k l r) → avl (T a b k l r) → sorted cmp (ents (plug c (T a b k l r))) →
  node_sound cmp (Some a) (Node (ptr_of l) (ptr_of r) (cparent c) b (Some k)) s = Done (true, s).
Proof.
  intros Hf (Hb & Hbr & _) Hso. unfold node_sound. erewrite bind_item; [|by eapply focus_node|done].
  cbn [nleft nright nparent nbalance]. pose proof (linked_sound s c a b k l r Hf Hso) as Hlk.
  assert (∀ (B : Type) (g : bool → M tree B), (rt ← gets root; linked ← (if is_null (cparent c) then mret (bool_decide (rt = Some a))
     else
       pn ← node (cparent c);
       pk ← item (cparent c);
       mret ((bool_decide (nleft pn = Some a) || bool_decide (nright pn = Some a))
             && (negb (bool_decide (nleft pn = Some a)) || cmp k pk)
             && (negb (bool_decide (nright pn = Some a)) || cmp pk k))); g linked) s = g true s) as Hg.
  { intros B g. rewrite bind_gets. destruct (is_null (cparent c)); [|by rewrite (bind_done _ _ _ _ _ Hlk)].
    rewrite bind_gets in Hlk. by rewrite (bind_done _ _ _ _ _ Hlk). }
  rewrite Hg. pose proof (height_nonneg l). pose proof (height_nonneg r).
  assert (negb (negb (is_null (ptr_of l)) && bool_decide (ptr_of l = ptr_of r)) = true) as ->.
  { destruct l as [|la lb lk ll lr] eqn:El; [done|]. rewrite bool_decide_eq_false_2; [done|]. intros Heq. symmetry in Heq.
    apply ptr_of_elem in Heq. apply focus_nodup in Hf. cbn [addrs] in Hf.
    apply NoDup_app in Hf as (_ & Hd & _). apply (Hd la); [set_solver|set_solver]. }
  unfold mret, M_ret. do 3 f_equal. cbn [andb].
  destruct (Z.ltb_spec b 0), (Z.ltb_spec 0 b), (Z.eqb_spec b 0); cbn; try lia;
    destruct l as [|la lb lk ll lr], r as [|ra rb rk rl rr]; cbn in *; try done; try lia;
    pose proof (height_nonneg ll); pose proof (height_nonneg lr); try lia.
Qed.

Lemma validate_loop_spec s L2 : ∀ L1 fuel,
  tree_inv cmp s (L1 ++ L2) → (length L2 < fuel)%nat →
  validate_loop cmp ltb fuel (fst <$> head L2) (u64 (Z.of_nat (length L1))) s = Done (Some (u64 (Z.of_nat (length (L1 ++ L2)))), s).
Proof.
  induction L2 as [|[a k] L2 IH]; intros L1 [|fuel] Hi Hfu; try (simpl in Hfu; lia).
  { cbn. by rewrite app_nil_r. }
  cbn [validate_loop head fmap option_fmap option_map fst is_null].
  rewrite (bind_done _ _ _ _ _ (next_spec cmp _ _ _ _ _ Hi)).
  pose proof Hi as [(t & Hf & Ht & He) Hso _ _ _ _]. destruct (locate _ _ _ _ _ He) as (c & b & l & r & -> & HL1 & HL2).
  apply focus_top in Hf. apply avl_plug_inv in Ht as [Ht _]. pose proof (focus_node _ _ _ _ _ _ _ Hf) as Ha.
  erewrite bind_node; [|exact Ha]. rewrite <- He in Hso.
  rewrite (bind_done _ _ _ _ _ (node_sound_spec s c a b k l r Hf Ht Hso)).
  assert ((if is_null (fst <$> head L2) then mret true
           else k0 ← item (Some a); k' ← item (fst <$> head L2); mret (ltb k0 k')) s = Done (true, s)) as Hord.
  { destruct L2 as [|[a2 k2] L2']; [done|]. cbn. erewrite bind_item; [|exact Ha|done].
    rewrite He in Hso. pose proof (sorted_entries L1 (a, k) ((a2, k2) :: L2') (a2, k2) Hso ltac:(by left)) as Hc. cbn in Hc.
    assert (tree_inv cmp s ((L1 ++ [(a, k)]) ++ (a2, k2) :: L2')) as Hi2 by (by rewrite <- app_assoc).
    destruct (entry_focus cmp s _ _ _ _ Hi2) as (c2 & b2 & l2 & r2 & Hf2 & _).
    erewrite bind_item; [|by eapply focus_node|done]. unfold mret, M_ret. by rewrite (Hltb _ _ Hc). }
  rewrite (bind_done _ _ _ _ _ Hord). cbn [andb].
  replace (L1 ++ (a, k) :: L2) with ((L1 ++ [(a, k)]) ++ L2) in * by (by rewrite <- app_assoc).
  replace (u64 (u64 (Z.of_nat (length L1)) + 1)) with (u64 (Z.of_nat (length (L1 ++ [(a, k)])))).
  - apply IH; [done|]. simpl in Hfu. lia.
  - unfold u64. rewrite Z.add_mod_idemp_l by lia. f_equal. rewrite length_app. cbn [length]. lia.
Qed.

(** The tree's own check, [validate], accepts every tree of the
    invariant, when what the comparison puts in order operator< does too. *)
Theorem avl_validate_accepts s L : tree_inv cmp s L → validate cmp ltb s = Done (true, s).
Proof.
  intros Hi. pose proof Hi as [(t & Hf & Ht & He) Hso Hfst Hlst Hsz _]. unfold validate. run. rewrite Hfst, Hlst.
  pose proof (focus_fuel _ _ _ Hf) as Hfu. rewrite <- ents_addrs, He, length_fmap in Hfu. simpl in Hfu.
  rewrite (bind_done _ _ _ _ _ (validate_loop_spec s L [] (tree_fuel s) Hi ltac:(lia))).
  rewrite (bind_done _ _ _ _ _ (tree_min_spec _ _ Hf)), (bind_done _ _ _ _ _ (tree_max_spec _ _ Hf)). run.
  rewrite Hsz, He, !bool_decide_eq_true_2, Z.eqb_refl by done. done.
Qed.
End validation.

(** ** The height, and what a search costs *)

Section cost.
Context {K A : Type} `{NodeAlloc A} (cmp : K → K → bool) `{!CmpOrder cmp}.
Abbreviation tree := (tree_t K A).
Implicit Types (s : tree) (t l r : atree K) (c : list (frame K)) (L : list (addr * K)).

(** Two subtrees of nearly the same height make one that is not too small. *)
Lemma join_height hl hr x y :
  0 ≤ hr ≤ hl → hl ≤ hr + 1 → 0 < x → 0 < y → 2 ^ hl ≤ x ^ 2 → 2 ^ hr ≤ y ^ 2 → 2 ^ (1 + hl) ≤ (x + y) ^ 2.
Proof.
  intros Hh Hd Hx Hy Hl Hr. rewrite Z.pow_add_r by lia. rewrite !Z.pow_2_r in *. change (2 ^ 1) with 2.
  pose proof (Z.pow_pos_nonneg 2 hl). pose proof (Z.pow_pos_nonneg 2 hr).
  assert (2 ^ hl ≤ 2 * 2 ^ hr) as Hlr.
  { rewrite <- Z.pow_succ_r by lia. apply Z.pow_le_mono_r; lia. }
  set (p := 2 ^ hl) in *. set (q := 2 ^ hr) in *. assert (p ≤ 2 * (x * y)) as Hp; [|nia].
  apply Z.square_le_simpl_nonneg; [nia|]. assert (p * q ≤ (x * x) * (y * y)) by nia. nia.
Qed.

Lemma avl_height t : avl t → 2 ^ height t ≤ (Z.of_nat (length (ents t)) + 1) ^ 2.
Proof.
  induction t as [|a b k l IHl r IHr]; [done|]. intros (Hb & Hbr & Hl & Hr). specialize (IHl Hl). specialize (IHr Hr).
  cbn [height ents]. rewrite length_app. cbn [length].
  replace (Z.of_nat (length (ents l) + S (length (ents r))) + 1)
    with ((Z.of_nat (length (ents l)) + 1) + (Z.of_nat (length (ents r)) + 1)) by lia.
  pose proof (height_nonneg l). pose proof (height_nonneg r). destruct (Z.le_ge_cases (height r) (height l)).
  - rewrite Z.max_l by lia. by apply (join_height _ (height r)); try lia.
  - rewrite Z.max_r by lia. rewrite Z.add_comm with (n := Z.of_nat (length (ents l)) + 1).
    by apply (join_height _ (height l)); try lia.
Qed.

Lemma height_length t : height t ≤ Z.of_nat (length (ents t)).
Proof. induction t as [|a b k l IHl r IHr]; [done|]. cbn [height ents]. rewrite length_app. cbn [length]. lia. Qed.

(** A search goes down one level a round. *)
Lemma find_fuel_height t : ∀ s c k f1 f2,
  focus s c t → height t < Z.of_nat f1 → height t < Z.of_nat f2 →
  tree_find_loop cmp f1 k (ptr_of t) s = tree_find_loop cmp f2 k (ptr_of t) s.
Proof.
  induction t as [|a b kx l IHl r IHr]; intros s c k f1 f2 Hf H1 H2.
  - cbn [height] in *. destruct f1, f2; try lia; done.
  - cbn [height] in H1, H2. pose proof (height_nonneg l). pose proof (height_nonneg r).
    destruct f1 as [|f1], f2 as [|f2]; try lia. cbn [tree_find_loop ptr_of is_null].
    pose proof (focus_node _ _ _ _ _ _ _ Hf) as Ha. rewrite !(bind_item _ _ _ kx _ Ha eq_refl).
    destruct (diff_of cmp k kx =? 0); [done|]. rewrite !(bind_node _ _ _ _ Ha). unfold select_lr. cbn [nleft nright].
    destruct (diff_of cmp k kx <? 0).
    + apply (IHl s (Frame true a b kx r :: c)); [by apply (proj2 (focus_up _ _ _ _))|lia|lia].
    + apply (IHr s (Frame false a b kx l :: c)); [by apply (proj2 (focus_up _ _ _ _))|lia|lia].
Qed.

(** A search of a tree of [m] entries ends within [n] rounds when
    [(m + 1)^2 < 2^n], that is after about [2 log2 (m + 1)] of them, with the
    node of the key or with null when the key is not there. *)
Theorem avl_search_bounded s L k n :
  tree_inv cmp s L → (Z.of_nat (length L) + 1) ^ 2 < 2 ^ Z.of_nat n →
  ∃ p, tree_find_loop cmp n k (root s) s = Done (p, s)
    ∧ match p with Some a => (a, k) ∈ L | None => k ∉ L.*2 end.
Proof.
  intros Hi Hn. pose proof Hi as [(t & Hf & Ht & <-) _ _ _ _ _]. pose proof (avl_height t Ht) as Hh.
  assert (height t < Z.of_nat n) as Hlt.
  { apply (Z.pow_lt_mono_r_iff 2); [lia|lia|]. lia. }
  assert (height t < Z.of_nat (tree_fuel s)) as Hlt2.
  { pose proof (focus_fuel _ _ _ Hf) as Hfu. rewrite <- ents_addrs, length_fmap in Hfu. simpl in Hfu.
    pose proof (height_length t). lia. }
  destruct (tree_find_spec cmp s _ k Hi) as [(a & Ha & Hrun)|[Hk Hrun]]; unfold tree_find in Hrun; rewrite !bind_gets in Hrun;
    rewrite (fc_root _ _ _ Hf) in Hrun |- *; cbn [plug] in *; rewrite (find_fuel_height t s [] k n (tree_fuel s)) by done.
  - by exists (Some a).
  - by exists None.
Qed.
End cost.
