(* ===== verification/BumpAlloc.v ===== *)
(** * kernel/lib/cc/memory.h: the bump allocator under ext::fast_set

    bump_allocator_impl cuts items from chunks of 64 pages and keeps freed
    items in a queue through their first word.  [links] is that word of the
    free items.  An item's address is what the tree calls it, a [positive].
    The page allocator is behind [ChunkAlloc]: page_allocator calls mmap,
    whose chunks do not overlap.  A request for a chunk that is refused has
    no meaning in the source, which uses the answer unchecked; here it is
    [None]. *)

From stdpp Require Import base tactics list numbers option gmap.
From S2P Require Import Prelude AvlTree.

#[local] Open Scope Z_scope.

(** PAGESIZE << 6 *)
Definition chunk_size : Z := 4096 * 2 ^ 6.

(** [chunks h]: the addresses handed out *)
Class ChunkAlloc (P : Type) := {
  chunk_allocate : P → option (Z * P);
  chunks : P → list Z;
  chunk_fresh : ∀ h b h', chunk_allocate h = Some (b, h') →
    0 < b ∧ chunks h' = b :: chunks h
    ∧ ∀ b', b' ∈ chunks h → b + chunk_size ≤ b' ∨ b' + chunk_size ≤ b
}.

(** sizeof(T): an item holds a pointer, and a chunk more than one item *)
Class ItemSize := {
  item_size : Z;
  item_size_ok : 8 ≤ item_size ∧ 2 * item_size ≤ chunk_size - 8
}.

Record bump_t (P : Type) := Bump {
  current_page : option Z;
  bump_index : Z;
  first_free : ptr;
  last_free : ptr;
  links : gmap addr ptr;
  pages : P
}.
Arguments Bump {P}.
Arguments current_page {P}.
Arguments bump_index {P}.
Arguments first_free {P}.
Arguments last_free {P}.
Arguments links {P}.
Arguments pages {P}.

Section bump.
Context {P : Type} `{ChunkAlloc P} `{ItemSize}.
Abbreviation bump := (bump_t P).
Implicit Types (h : bump) (X : gset addr).

Definition page_capacity : Z := (chunk_size - 8) / item_size.

(** &page[i] *)
Definition item_at (page i : Z) : addr := Z.to_pos (page + i * item_size).

Definition bump_new (p : P) : bump := Bump None page_capacity None None ∅ p.

Definition bump_allocate h : option (addr * bump) :=
  let remain := u64 (page_capacity - bump_index h) in
  match first_free h with
  | Some a =>
      let next := default None (links h !! a) in
      Some (a, Bump (current_page h) (bump_index h) next (match next with Some _ => last_free h | None => None end)
                    (delete a (links h)) (pages h))
  | None =>
      if 1 <=? remain then
        page ← current_page h;
        Some (item_at page (bump_index h),
              Bump (Some page) (u64 (bump_index h + 1)) (first_free h) (last_free h) (links h) (pages h))
      else
        '(page, p) ← chunk_allocate (pages h);
        Some (item_at page 0, Bump (Some page) 1 (first_free h) (last_free h) (links h) p)
  end.

Definition bump_deallocate (a : addr) h : bump :=
  match last_free h with
  | Some l => Bump (current_page h) (bump_index h) (first_free h) (Some a) (<[a := None]> (<[l := Some a]> (links h))) (pages h)
  | None => Bump (current_page h) (bump_index h) (Some a) (Some a) (<[a := None]> (links h)) (pages h)
  end.

(** ** The invariant *)

(** An item that was cut from a chunk at some time *)
Definition issued h (a : addr) : Prop :=
  ∃ p i, p ∈ chunks (pages h) ∧ 0 ≤ i < page_capacity ∧ (current_page h = Some p → i < bump_index h) ∧ a = item_at p i.

(** [F]: the free items, in the order in which they will be used again *)
Record bump_inv h X (F : list addr) : Prop := BumpInv {
  bi_first : first_free h = head F;
  bi_last : last_free h = list.last F;
  bi_chain : ∀ i a, F !! i = Some a → links h !! a = Some (F !! S i);
  bi_nodup : NoDup F;
  bi_free : ∀ a, a ∈ F → a ∉ X;
  bi_issued : ∀ a, a ∈ X ∨ a ∈ F → issued h a;
  bi_page : match current_page h with Some p => p ∈ chunks (pages h) | None => bump_index h = page_capacity end;
  bi_index : 0 ≤ bump_index h ≤ page_capacity;
  bi_pos : ∀ p, p ∈ chunks (pages h) → 0 < p;
  bi_apart : ∀ p q, p ∈ chunks (pages h) → q ∈ chunks (pages h) → p = q ∨ p + chunk_size ≤ q ∨ q + chunk_size ≤ p
}.

Lemma capacity_ok : 2 ≤ page_capacity ∧ page_capacity * item_size ≤ chunk_size - 8.
Proof.
  pose proof item_size_ok as [H1 H2]. unfold page_capacity. split.
  - apply Z.div_le_lower_bound; lia.
  - rewrite Z.mul_comm. apply Z.mul_div_le. lia.
Qed.
Lemma capacity_u64 : page_capacity < 2 ^ 32.
Proof. pose proof capacity_ok. pose proof item_size_ok. unfold chunk_size in *. nia. Qed.

(** Items do not overlap. *)
Lemma item_at_inj p q i j :
  0 < p → 0 < q → p = q ∨ p + chunk_size ≤ q ∨ q + chunk_size ≤ p →
  0 ≤ i < page_capacity → 0 ≤ j < page_capacity → item_at p i = item_at q j → p = q ∧ i = j.
Proof.
  intros Hp Hq Hap Hi Hj Heq. pose proof capacity_ok as [_ Hc]. pose proof item_size_ok as [Hs _].
  unfold item_at in Heq. apply Z2Pos.inj in Heq; [|nia..].
  assert (i * item_size + item_size ≤ chunk_size) by nia. assert (j * item_size + item_size ≤ chunk_size) by nia.
  assert (p = q) as -> by nia. split; [done|]. nia.
Qed.

Lemma issued_same h h' a :
  pages h' = pages h → current_page h' = current_page h → bump_index h ≤ bump_index h' → issued h a → issued h' a.
Proof.
  intros Hp Hc Hi (p & i & H1 & H2 & H3 & ->). exists p, i. rewrite Hp, Hc. split_and!; try done; try lia.
  intros Hx. specialize (H3 Hx). lia.
Qed.

Lemma bump_alloc_reuse h X F a h' :
  bump_inv h X F → first_free h = Some a → bump_allocate h = Some (a, h') →
  ∃ F', F = a :: F' ∧ bump_inv h' ({[a]} ∪ X) F'.
Proof.
  intros Hi Hff Hal. unfold bump_allocate in Hal. rewrite Hff in Hal. injection Hal as <-.
  destruct Hi as [Hf Hl Hch Hnd Hfr His Hpg Hix Hpos Hap]. rewrite Hff in Hf.
  destruct F as [|x F]; [done|]. injection Hf as <-. exists F. split; [done|].
  apply NoDup_cons in Hnd as [HaF Hnd]. pose proof (Hch 0%nat a eq_refl) as Ha. cbn in Ha. rewrite Ha. cbn [default from_option id].
  split; cbn; try done.
  - by destruct F.
  - destruct F as [|y F]; [done|]. by rewrite Hl, last_cons_cons.
  - intros i b Hb. rewrite lookup_delete_ne; [by apply (Hch (S i))|]. intros ->. apply HaF. by eapply list_elem_of_lookup_2.
  - intros b Hb. pose proof (Hfr b ltac:(by right)). set_solver.
  - intros b Hb. apply (issued_same h); try done. apply His. set_solver.
Qed.

Lemma bump_alloc_next h X F a h' p :
  bump_inv h X F → first_free h = None → current_page h = Some p → bump_index h < page_capacity →
  bump_allocate h = Some (a, h') → a ∉ X ∧ bump_inv h' ({[a]} ∪ X) F.
Proof.
  intros Hi Hff Hcp Hlt Hal. pose proof capacity_u64. unfold bump_allocate in Hal. rewrite Hff, Hcp in Hal.
  destruct Hi as [Hf Hl Hch Hnd Hfr His Hpg Hix Hpos Hap]. unwrap_in Hal. rewrite (proj2 (Z.leb_le 1 _)) in Hal by lia.
  cbn in Hal. injection Hal as <- <-. rewrite Hcp in Hpg. rewrite Hff in Hf. destruct F; [|done].
  assert (item_at p (bump_index h) ∉ X) as HX.
  { intros Hx. destruct (His _ (or_introl Hx)) as (q & i & Hq & Hi & Hcur & Heq).
    apply item_at_inj in Heq as [-> <-]; auto; [|lia]. specialize (Hcur Hcp). lia. }
  split; [done|]. split; cbn; try done; try lia.
  - set_solver.
  - intros b Hb. assert (b = item_at p (bump_index h) ∨ b ∈ X) as [-> | Hb'] by set_solver.
    + exists p, (bump_index h). cbn. split_and!; try done; lia.
    + apply (issued_same h); cbn; try done; [lia|]. apply His. by left.
Qed.

Lemma bump_alloc_chunk h X F a h' q p :
  bump_inv h X F → first_free h = None → bump_index h = page_capacity → chunk_allocate (pages h) = Some (q, p) →
  bump_allocate h = Some (a, h') → a ∉ X ∧ bump_inv h' ({[a]} ∪ X) F.
Proof.
  intros Hi Hff Hix0 Hch Hal. unfold bump_allocate in Hal. rewrite Hff, Hix0, Z.sub_diag, Hch in Hal.
  injection Hal as <- <-. destruct (chunk_fresh _ _ _ Hch) as (Hq0 & Hcs & Hqa). pose proof capacity_ok as [Hcap _].
  destruct Hi as [Hf Hl Hchn Hnd Hfr His Hpg Hix Hpos Hap]. rewrite Hff in Hf. destruct F; [|done].
  assert (∀ p', p' ∈ chunks (pages h) → p' ≠ q) as Hqn.
  { intros p' Hp' ->. destruct (Hqa q Hp'); unfold chunk_size in *; lia. }
  assert (item_at q 0 ∉ X) as HX.
  { intros Hx. destruct (His _ (or_introl Hx)) as (q' & i & Hq & Hi & Hcur & Heq).
    apply item_at_inj in Heq as [-> _]; auto; [by destruct (Hqn q')|lia]. }
  split; [done|]. split; cbn [first_free last_free links current_page bump_index pages]; rewrite ?Hcs; try done; try lia.
  - set_solver.
  - intros b Hb. assert (b = item_at q 0 ∨ b ∈ X) as [-> | Hb'] by set_solver.
    + exists q, 0. cbn. rewrite Hcs. split_and!; try done; [by left|lia].
    + destruct (His b (or_introl Hb')) as (p' & i & Hp & Hi & _ & ->). exists p', i. cbn. rewrite Hcs.
      split_and!; try done; try lia; [by right|]. intros [= ->]. by destruct (Hqn p').
  - by left.
  - intros p' [->|Hp]%elem_of_cons; auto.
  - intros p1 p2 [->|Hp1]%elem_of_cons [->|Hp2]%elem_of_cons; auto.
    destruct (Hqa _ Hp1); auto.
Qed.

Lemma bump_dealloc h X F a :
  bump_inv h X F → a ∈ X → bump_inv (bump_deallocate a h) (X ∖ {[a]}) (F ++ [a]).
Proof.
  intros [Hf Hl Hch Hnd Hfr His Hpg Hix Hpos Hap] Ha. assert (a ∉ F) as HaF by (intros Hx; by apply (Hfr a)).
  assert (first_free (bump_deallocate a h) = head (F ++ [a]) ∧ last_free (bump_deallocate a h) = Some a
    ∧ current_page (bump_deallocate a h) = current_page h ∧ bump_index (bump_deallocate a h) = bump_index h
    ∧ pages (bump_deallocate a h) = pages h) as (E1 & E2 & E3 & E4 & E5).
  { unfold bump_deallocate. rewrite Hl. destruct (list.last F) as [l|] eqn:El; cbn.
    - split_and!; try done. rewrite Hf. by destruct F.
    - apply last_None in El as ->. done. }
  split; rewrite ?E3, ?E4, ?E5; try done.
  - by rewrite E2, last_snoc.
  - intros i b Hb. destruct (decide (b = a)) as [->|Hne].
    + assert (i = length F) as ->.
      { apply lookup_app_Some in Hb as [Hb|[Hlen Hb]]; [by apply list_elem_of_lookup_2 in Hb|].
        apply list_lookup_singleton_Some in Hb as [Hz _]. lia. }
      rewrite lookup_app_r by lia. replace (S (length F) - length F)%nat with 1%nat by lia. cbn.
      unfold bump_deallocate. destruct (last_free h); cbn; by rewrite lookup_insert_eq.
    + apply lookup_app_Some in Hb as [Hb|[_ Hb]]; [|apply list_lookup_singleton_Some in Hb as [_ <-]; done].
      pose proof (lookup_lt_Some _ _ _ Hb) as Hlt. unfold bump_deallocate. rewrite Hl.
      destruct (list.last F) as [l|] eqn:El; [|by apply last_None in El as ->]. cbn. rewrite lookup_insert_ne by done.
      rewrite last_lookup in El. destruct (decide (S i = length F)) as [Hlast|Hin].
      * rewrite <- Hlast in El. cbn in El. rewrite Hb in El. injection El as <-. rewrite lookup_insert_eq.
        rewrite lookup_app_r by lia. replace (S i - length F)%nat with 0%nat by lia. done.
      * rewrite lookup_insert_ne; [rewrite (Hch _ _ Hb), lookup_app_l by lia; done|].
        intros ->. pose proof (NoDup_lookup F _ _ _ Hnd El Hb). lia.
  - apply NoDup_app. split_and!; [done| |apply NoDup_singleton]. intros b Hb ->%list_elem_of_singleton. done.
  - intros b [Hb|Hb%list_elem_of_singleton]%elem_of_app; [pose proof (Hfr b Hb)|]; set_solver.
  - intros b Hb. apply (issued_same h); try done; [lia|]. apply His. set_solver.
Qed.

(** ** The interface the tree asks for *)

#[export] Program Instance bump_node_alloc : NodeAlloc bump := {
  allocate := bump_allocate;
  deallocate := bump_deallocate;
  alloc_ok h X := ∃ F, bump_inv h X F
}.
Next Obligation.
  intros h X a h' [F Hi] Hal. destruct (first_free h) as [b|] eqn:Hff.
  - assert (a = b) as -> by (unfold bump_allocate in Hal; rewrite Hff in Hal; by injection Hal).
    destruct (bump_alloc_reuse h X F b h' Hi Hff Hal) as (F' & -> & Hi'). split; [apply (bi_free _ _ _ Hi); by left|eauto].
  - pose proof (bi_index _ _ _ Hi) as Hix. pose proof capacity_u64. pose proof (bi_page _ _ _ Hi) as Hpg.
    destruct (decide (bump_index h = page_capacity)) as [Heq|Hne].
    + destruct (chunk_allocate (pages h)) as [[q p]|] eqn:Hch.
      * destruct (bump_alloc_chunk h X F a h' q p Hi Hff Heq Hch Hal) as [? Hi']. eauto.
      * unfold bump_allocate in Hal. by rewrite Hff, Heq, Z.sub_diag, Hch in Hal.
    + destruct (current_page h) as [p|] eqn:Hcp; [|done].
      destruct (bump_alloc_next h X F a h' p Hi Hff Hcp ltac:(lia) Hal) as [? Hi']. eauto.
Qed.
Next Obligation. intros h X a [F Hi] Ha. exists (F ++ [a]). by apply bump_dealloc. Qed.
End bump.

(** ** Chunks one after the other, and the nodes of a set of pairs *)

Definition counter_chunk (n : nat) : Z := chunk_size * (Z.of_nat n + 1).

#[export] Program Instance counter_chunks : ChunkAlloc nat := {
  chunk_allocate n := Some (counter_chunk n, S n);
  chunks n := counter_chunk <$> rev (seq 0 n)
}.
Next Obligation.
  intros n b h' [= <- <-]. unfold counter_chunk, chunk_size. split_and!; [lia| |].
  - rewrite seq_S, rev_app_distr. done.
  - intros b' (i & -> & Hi)%list_elem_of_fmap. apply list_elem_of_In, in_rev, in_seq in Hi. lia.
Qed.
(** sizeof(__node_t) for a pair of addresses: three links, a balance, a pair *)
#[export] Program Instance pair_node_size : ItemSize := { item_size := 48 }.
Next Obligation. unfold chunk_size. lia. Qed.
