(* ===== verification/FastSet.v ===== *)
(** * ext::fast_set: the AVL tree on the bump allocator, as an ordered set

    kernel/lib/basic_set.h defines fast_set as the tree with bump_allocator
    over page_allocator.  Here it discharges [OrderedSetLaws], so that what
    is proved of contiguous_allocator_t holds with the trees it really uses.
    Running out of memory is a panic there; [ChunkSupply] says that there is
    another chunk. *)

From stdpp Require Import base tactics list numbers option gmap sorting.
From S2P Require Import Prelude OrderedSet AvlTree AvlRep AvlFocus AvlSearch AvlInsert AvlSwap AvlDelete AvlErase AvlOps BumpAlloc.

#[local] Open Scope Z_scope.

Class ChunkSupply (P : Type) `{ChunkAlloc P} := {
  chunk_init : P;
  chunk_init_none : chunks chunk_init = [];
  chunk_supply : ∀ h : P, is_Some (chunk_allocate h)
}.

(** ext::less on pairs *)
Definition elt_cmp (x y : elt) : bool := bool_decide (elt_lt x y).

#[export] Instance elt_cmp_order : CmpOrder elt_cmp.
Proof.
  unfold elt_cmp. split.
  - intros x. apply bool_decide_eq_false. apply elt_lt_irrefl.
  - intros x y z Hxy%bool_decide_eq_true Hyz%bool_decide_eq_true. apply bool_decide_eq_true. by etrans.
  - intros x y Hxy%bool_decide_eq_false Hyx%bool_decide_eq_false. by destruct (elt_trichotomy x y) as [?|[?|?]].
Qed.

Lemma cmp_lt x y : lt elt_cmp x y ↔ elt_lt x y.
Proof. unfold lt, elt_cmp. apply bool_decide_eq_true. Qed.

Section iteration.
Context {K A : Type} `{NodeAlloc A} (cmp : K → K → bool) `{!CmpOrder cmp}.
Abbreviation tree := (tree_t K A).

(** for (it = begin(); it != end(); ++it): the items, in turn *)
Fixpoint items_from (fuel : nat) (p : ptr) : M tree (list K) :=
  match fuel with
  | O => throw OutOfFuel
  | S fuel =>
      if is_null p then mret []
      else k ← item p; q ← tree_next p; l ← items_from fuel q; mret (k :: l)
  end.
Definition tree_items : M tree (list K) := f ← gets tree_fuel; p ← gets first; items_from f p.

Lemma items_from_spec s L2 : ∀ L1 fuel,
  tree_inv cmp s (L1 ++ L2) → (length L2 < fuel)%nat →
  items_from fuel (fst <$> head L2) s = Done (L2.*2, s).
Proof.
  induction L2 as [|[a k] L2 IH]; intros L1 [|fuel] Hi Hfu; try (simpl in Hfu; lia); [done|].
  cbn [items_from head fmap option_fmap option_map fst is_null].
  destruct (entry_focus cmp s _ _ _ _ Hi) as (c & b & l & r & Hf & _).
  erewrite bind_item; [|by eapply focus_node|done]. rewrite (bind_done _ _ _ _ _ (next_spec cmp _ _ _ _ _ Hi)).
  rewrite (bind_done _ _ _ _ _ (IH (L1 ++ [(a, k)]) fuel ltac:(by rewrite <- app_assoc) ltac:(simpl in Hfu; lia))). done.
Qed.

(** Iteration yields the items in order. *)
Lemma tree_items_spec s L : tree_inv cmp s L → tree_items s = Done (L.*2, s).
Proof.
  intros Hi. unfold tree_items. run. rewrite (ti_first _ _ _ Hi).
  pose proof Hi as [(t & Hf & _ & He) _ _ _ _ _]. pose proof (focus_fuel _ _ _ Hf) as Hfu.
  rewrite <- ents_addrs, He, length_fmap in Hfu. simpl in Hfu. apply (items_from_spec s L []); [done|lia].
Qed.
End iteration.

Section fast_set.
Context {P : Type} `{ChunkAlloc P} `{!ChunkSupply P} `{ItemSize}.

Abbreviation ftree := (tree_t elt (bump_t P)).
Definition fs_ok (t : ftree) : Prop := ∃ L, tree_inv elt_cmp t L.

Record fast_set := FastSet { fs_tree : ftree; fs_inv : fs_ok fs_tree }.
Implicit Types (s : fast_set) (e x : elt).

(** There is always a node. *)
Lemma bump_supply (h : bump_t P) X : alloc_ok h X → is_Some (allocate h).
Proof.
  intros [F Hi]. cbn. unfold bump_allocate. destruct (first_free h); [eauto|].
  destruct (1 <=? u64 (page_capacity - bump_index h)) eqn:Hr.
  - pose proof (bi_page _ _ _ Hi) as Hpg. destruct (current_page h); cbn; [eauto|]. rewrite Hpg, Z.sub_diag in Hr. done.
  - destruct (chunk_supply (pages h)) as [[q p] ->]. eauto.
Qed.

Definition tree_empty : ftree := Tree ∅ None None None 0 (bump_new chunk_init).

(** The new state of an operation that returns *)
Definition commit {X} s (o : outcome (X * ftree)) (d : X) : (∀ (x : X) t, o = Done (x, t) → fs_ok t) → fast_set * X :=
  match o with
  | Done (x, t) => λ ok, (FastSet t (ok x t eq_refl), x)
  | Fault _ => λ _, (s, d)
  end.

(** The elements, by iteration *)
Definition elems_of (t : ftree) : list elt := match tree_items t with Done (l, _) => l | Fault _ => [] end.

Lemma elems_of_spec t L : tree_inv elt_cmp t L → elems_of t = L.*2.
Proof. intros Hi. unfold elems_of. by rewrite (tree_items_spec _ _ _ Hi). Qed.

Lemma insert_runs e (t : ftree) :
  fs_ok t → ∃ a new t', insert elt_cmp e t = Done ((Some a, new), t') ∧ fs_ok t'
    ∧ new = bool_decide (e ∉ elems_of t) ∧ ∀ x, x ∈ elems_of t' ↔ x = e ∨ x ∈ elems_of t.
Proof.
  intros [L Hi]. pose proof (bump_supply _ _ (ti_alloc _ _ _ Hi)) as Hs. rewrite (elems_of_spec _ _ Hi).
  destruct (avl_insert_spec elt_cmp t L e Hi Hs) as ([[p new] t'] & Hrun & a & Hpost). destruct new.
  - destruct Hpost as (-> & _ & Hv & L' & Hi' & (L1 & L2 & -> & ->) & _). exists a, true, t'.
    rewrite bool_decide_eq_true_2, (elems_of_spec _ _ Hi') by done. split_and!; [done|by eexists|done|].
    intros x. rewrite !fmap_app, fmap_cons. set_solver.
  - destruct Hpost as (-> & Ha & ->). assert (e ∈ L.*2) as He by (apply list_elem_of_fmap; by exists (a, e)).
    exists a, false, t. rewrite bool_decide_eq_false_2, (elems_of_spec _ _ Hi) by naive_solver.
    split_and!; [done|by eexists|done|]. naive_solver.
Qed.

Lemma erase_runs e (t : ftree) :
  fs_ok t → ∃ t', erase elt_cmp e t = Done (Z.b2z (bool_decide (e ∈ elems_of t)), t') ∧ fs_ok t'
    ∧ ∀ x, x ∈ elems_of t' ↔ x ≠ e ∧ x ∈ elems_of t.
Proof.
  intros [L Hi]. rewrite (elems_of_spec _ _ Hi).
  destruct (remove_key elt_cmp 0 (λ _, 1) t L e true Hi) as (found & t' & Hrun & Hpost). unfold erase. rewrite Hrun.
  exists t'. destruct found as [a|].
  - destruct Hpost as (L1 & L2 & -> & Hi' & He & _). rewrite (elems_of_spec _ _ Hi'), !fmap_app, fmap_cons in *. cbn [snd].
    rewrite bool_decide_eq_true_2 by set_solver. split_and!; [done|by eexists|]. intros x. set_solver.
  - destruct Hpost as [-> He]. rewrite bool_decide_eq_false_2, (elems_of_spec _ _ Hi) by done.
    split_and!; [done|by eexists|]. intros x. split; [|naive_solver]. intros Hx. split; [|done]. by intros ->.
Qed.

(** ** The operations of the interface *)

Lemma insert_ok e s y t : insert elt_cmp e (fs_tree s) = Done (y, t) → fs_ok t.
Proof. intros Hr. destruct (insert_runs e _ (fs_inv s)) as (a & new & t' & Hr' & Hok & _). congruence. Qed.
Lemma erase_ok e s y t : erase elt_cmp e (fs_tree s) = Done (y, t) → fs_ok t.
Proof. intros Hr. destruct (erase_runs e _ (fs_inv s)) as (t' & Hr' & Hok & _). congruence. Qed.
Lemma empty_ok : fs_ok tree_empty.
Proof.
  exists []. split; try done; [exists Leaf|constructor|exists []].
  - split_and!; try done. split; try done. constructor.
  - pose proof capacity_ok. split; cbn; try done; rewrite ?chunk_init_none; try (by set_solver); try lia. constructor.
Qed.

Definition fs_empty : fast_set := FastSet tree_empty empty_ok.
Definition fs_insert e s : fast_set * bool :=
  let '(s', r) := commit s (insert elt_cmp e (fs_tree s)) (None, false) (insert_ok e s) in (s', snd r).
Definition fs_erase e s : fast_set * bool :=
  let '(s', n) := commit s (erase elt_cmp e (fs_tree s)) 0 (erase_ok e s) in (s', n =? 1).

(** An iterator's element; the operations that return one do not write. *)
Definition deref (m : M ftree ptr) s : option elt :=
  match (p ← m; if is_null p then mret None else k ← item p; mret (Some k)) (fs_tree s) with
  | Done (r, _) => r
  | Fault _ => None
  end.
(** An iterator is named by its element; when there is none, what is next
    to where it would be *)
Definition fs_next e s : option elt :=
  deref (p ← tree_find elt_cmp e; if is_null p then lower_bound elt_cmp e else tree_next p) s.
Definition fs_prev (it : option elt) s : option elt :=
  match it with
  | None => deref (tree_prev None) s
  | Some e => deref (p ← tree_find elt_cmp e; if is_null p then lower_bound_impl elt_cmp e false else tree_prev p) s
  end.

#[export] Instance fast_ordered_set : OrderedSet fast_set := {
  elems := elems_of ∘ fs_tree;
  set_empty := fs_empty;
  set_insert := fs_insert;
  set_erase := fs_erase;
  set_lower_bound := λ e, deref (lower_bound elt_cmp e);
  set_next := fs_next;
  set_prev := fs_prev
}.

(** ** The laws *)

Lemma commit_done {X} s (o : outcome (X * ftree)) d ok (x : X) t :
  o = Done (x, t) → fs_tree (commit s o d ok).1 = t ∧ (commit s o d ok).2 = x.
Proof. intros ->. done. Qed.

Lemma fs_insert_spec e s :
  (∀ x, x ∈ elems (fs_insert e s).1 ↔ x = e ∨ x ∈ elems s) ∧ (fs_insert e s).2 = bool_decide (e ∉ elems s).
Proof.
  destruct (insert_runs e _ (fs_inv s)) as (a & new & t' & Hrun & _ & Hnew & Hel).
  destruct (commit_done s _ (None, false) (insert_ok e s) _ _ Hrun) as [Ht Hr].
  unfold fs_insert. destruct (commit _ _ _ _) as [s' r]. cbn in *. by subst.
Qed.
Lemma fs_erase_spec e s :
  (∀ x, x ∈ elems (fs_erase e s).1 ↔ x ≠ e ∧ x ∈ elems s) ∧ (fs_erase e s).2 = bool_decide (e ∈ elems s).
Proof.
  destruct (erase_runs e _ (fs_inv s)) as (t' & Hrun & _ & Hel).
  destruct (commit_done s _ 0 (erase_ok e s) _ _ Hrun) as [Ht Hr].
  unfold fs_erase. destruct (commit _ _ _ _) as [s' r]. cbn in *. subst. split; [done|]. by case_bool_decide.
Qed.

Lemma elems_sorted s : StronglySorted elt_lt (elems s).
Proof.
  destruct (fs_inv s) as [L Hi]. cbn. rewrite (elems_of_spec _ _ Hi). pose proof (ti_sorted _ _ _ Hi) as Hso.
  unfold sorted in Hso. induction Hso as [|x l Hl IH Hx]; constructor; [done|].
  eapply Forall_impl; [exact Hx|]. intros y. apply bool_decide_eq_true_1.
Qed.

(** What an iterator operation names, when it is at the head of [L2] or at
    the last of [L1] *)
Lemma deref_head m s L1 L2 :
  tree_inv elt_cmp (fs_tree s) (L1 ++ L2) → m (fs_tree s) = Done (fst <$> head L2, fs_tree s) →
  deref m s = snd <$> head L2.
Proof.
  intros Hi Hm. unfold deref. rewrite (bind_done _ _ _ _ _ Hm). destruct L2 as [|[a k] L2]; [done|].
  destruct (entry_focus _ _ _ _ _ _ Hi) as (c & b & l & r & Hf & _). cbn. by erewrite bind_item; [|by eapply focus_node|done].
Qed.
Lemma deref_last m s L1 L2 :
  tree_inv elt_cmp (fs_tree s) (L1 ++ L2) → m (fs_tree s) = Done (fst <$> list.last L1, fs_tree s) →
  deref m s = snd <$> list.last L1.
Proof.
  intros Hi Hm. destruct (list.last L1) as [e|] eqn:El; [apply last_Some in El as [L ->]|by apply last_None in El as ->; unfold deref; rewrite (bind_done _ _ _ _ _ Hm)].
  rewrite <- app_assoc in Hi. cbn [app] in Hi. rewrite (deref_head m s L (e :: L2)) by done. done.
Qed.

(** A cut of the elements: those before [e], and the rest *)
Definition cut_at s e (incl : bool) (l1 l2 : list elt) : Prop :=
  elems s = l1 ++ l2 ∧ (∀ x, x ∈ l1 → elt_lt x e ∨ incl = true ∧ x = e) ∧ (∀ x, x ∈ l2 → elt_lt e x ∨ incl = false ∧ x = e).

Lemma lower_bound_cut e s : ∃ l1 l2, cut_at s e false l1 l2 ∧ set_lower_bound e s = head l2.
Proof.
  destruct (fs_inv s) as [L Hi]. destruct (lower_bound_impl_spec elt_cmp (fs_tree s) L e true Hi) as (L1 & L2 & fd & -> & Hrun & Hb & Hn & _).
  exists L1.*2, L2.*2. split; [split_and!|].
  - cbn. by rewrite (elems_of_spec _ _ Hi), fmap_app.
  - intros x (y & -> & Hy)%list_elem_of_fmap. left. apply cmp_lt, (proj1 (Forall_forall _ _) Hb _ Hy).
  - intros x (y & -> & Hy)%list_elem_of_fmap. pose proof (proj1 (Forall_forall _ _) Hn _ Hy) as Hny.
    cbn beta in Hny. rewrite cmp_lt in Hny. destruct (elt_trichotomy e y.2) as [?|[?|?]]; [auto|auto|done].
  - cbn. unfold lower_bound. rewrite (deref_head _ s L1 L2 Hi Hrun). by destruct L2.
Qed.

Lemma entry_cut s L1 a e L2 :
  tree_inv elt_cmp (fs_tree s) (L1 ++ (a, e) :: L2) →
  cut_at s e true (L1 ++ [(a, e)]).*2 L2.*2 ∧ cut_at s e false L1.*2 ((a, e) :: L2).*2.
Proof.
  intros Hi. pose proof (elems_of_spec _ _ Hi) as Hel.
  destruct (proj1 (sorted_node elt_cmp _ _ _ _) (ti_sorted _ _ _ Hi)) as (_ & _ & Hb & Ha).
  assert (∀ x, x ∈ L1.*2 → elt_lt x e) as Hb'.
  { intros x (y & -> & Hy)%list_elem_of_fmap. apply cmp_lt, (proj1 (Forall_forall _ _) Hb _ Hy). }
  assert (∀ x, x ∈ L2.*2 → elt_lt e x) as Ha'.
  { intros x (y & -> & Hy)%list_elem_of_fmap. apply cmp_lt, (proj1 (Forall_forall _ _) Ha _ Hy). }
  rewrite !fmap_app, fmap_cons in *. cbn in *. split; (split_and!; [cbn; rewrite Hel; by rewrite <- ?app_assoc| |]).
  - intros x [Hx|Hx%list_elem_of_singleton]%elem_of_app; auto.
  - auto.
  - auto.
  - intros x [->|Hx]%elem_of_cons; auto.
Qed.

Lemma absent_cut s e l1 l2 : e ∉ elems s → cut_at s e false l1 l2 → cut_at s e true l1 l2.
Proof.
  intros He (Hel & H1 & H2). rewrite Hel in He. split_and!; [done| |].
  - intros x Hx. destruct (H1 x Hx) as [?|[? ->]]; auto.
  - intros x Hx. destruct (H2 x Hx) as [?|[_ ->]]; [auto|]. set_solver.
Qed.

Lemma next_cut e s : ∃ l1 l2, cut_at s e true l1 l2 ∧ set_next e s = head l2.
Proof.
  cbn. unfold fs_next. destruct (fs_inv s) as [L Hi]. pose proof (elems_of_spec _ _ Hi) as Hel.
  destruct (tree_find_spec elt_cmp (fs_tree s) L e Hi) as [(a & Ha & Hrun)|[He Hrun]].
  - apply list_elem_of_split in Ha as (L1 & L2 & ->). destruct (entry_cut s L1 a e L2 Hi) as [Hcut _].
    eexists _, _. split; [exact Hcut|]. rewrite (deref_head _ s (L1 ++ [(a, e)]) L2); [by destruct L2|by rewrite <- app_assoc|].
    rewrite (bind_done _ _ _ _ _ Hrun). cbn [is_null]. by eapply next_spec.
  - destruct (lower_bound_cut e s) as (l1 & l2 & Hcut & Hlb). exists l1, l2.
    split; [apply absent_cut; [by cbn; rewrite Hel|done]|]. rewrite <- Hlb. cbn. unfold deref.
    rewrite bind_assoc. by rewrite (bind_done _ _ _ _ _ Hrun).
Qed.

Lemma prev_cut e s : ∃ l1 l2, cut_at s e false l1 l2 ∧ set_prev (Some e) s = list.last l1.
Proof.
  cbn. unfold fs_prev. destruct (fs_inv s) as [L Hi]. pose proof (elems_of_spec _ _ Hi) as Hel.
  destruct (tree_find_spec elt_cmp (fs_tree s) L e Hi) as [(a & Ha & Hrun)|[He Hrun]].
  - apply list_elem_of_split in Ha as (L1 & L2 & ->). destruct (entry_cut s L1 a e L2 Hi) as [_ Hcut].
    eexists _, _. split; [exact Hcut|]. rewrite (deref_last _ s L1 ((a, e) :: L2) Hi); [by rewrite fmap_last|].
    rewrite (bind_done _ _ _ _ _ Hrun). cbn [is_null]. by eapply prev_spec.
  - destruct (lower_bound_impl_spec elt_cmp (fs_tree s) L e false Hi) as (L1 & L2 & found & -> & Hlb & Hb & Hn & Hfd).
    destruct found; [by destruct Hfd as (a & L2' & ->); destruct He; rewrite fmap_app; set_solver|].
    exists L1.*2, L2.*2. split.
    + split_and!; [cbn; by rewrite Hel, fmap_app| |].
      * intros x (y & -> & Hy)%list_elem_of_fmap. left. apply cmp_lt, (proj1 (Forall_forall _ _) Hb _ Hy).
      * intros x (y & -> & Hy)%list_elem_of_fmap. pose proof (proj1 (Forall_forall _ _) Hn _ Hy) as Hny.
        cbn beta in Hny. rewrite cmp_lt in Hny. destruct (elt_trichotomy e y.2) as [?|[?|?]]; [auto|auto|done].
    + rewrite (deref_last _ s L1 L2 Hi); [by rewrite fmap_last|]. rewrite (bind_done _ _ _ _ _ Hrun). cbn [is_null]. exact Hlb.
Qed.

Lemma sorted_split (l1 l2 : list elt) x y : StronglySorted elt_lt (l1 ++ x :: l2) → y ∈ x :: l2 → ¬ elt_lt y x.
Proof.
  intros Hs%StronglySorted_app_1_r [->|Hy]%elem_of_cons; [apply elt_lt_irrefl|]. intros Hlt.
  apply StronglySorted_inv in Hs as [_ Hf]. eapply elt_lt_irrefl. etrans; [exact Hlt|]. by apply (proj1 (Forall_forall _ _) Hf).
Qed.

#[export] Instance fast_set_laws : OrderedSetLaws fast_set.
Proof.
  split.
  - apply elems_sorted.
  - done.
  - intros e s. apply fs_insert_spec.
  - intros e s. apply fs_insert_spec.
  - intros e s. apply fs_erase_spec.
  - intros e s. apply fs_erase_spec.
  - intros e s x Hx. destruct (lower_bound_cut e s) as (l1 & l2 & (Hel & H1 & H2) & Hlb). rewrite Hlb in Hx.
    pose proof (elems_sorted s) as Hso. rewrite Hel in Hso |- *. destruct l2 as [|z l2]; [done|]. injection Hx as ->.
    split_and!; [set_solver| |].
    + destruct (H2 x ltac:(by left)) as [Hlt|[_ ->]]; [|apply elt_lt_irrefl]. intros Hlt'. eapply elt_lt_irrefl. by etrans.
    + intros y [Hy|Hy]%elem_of_app Hny; [|by eapply sorted_split]. by destruct (H1 y Hy) as [?|[? ?]].
  - intros e s Hx y Hy. destruct (lower_bound_cut e s) as (l1 & l2 & (Hel & H1 & _) & Hlb). rewrite Hlb in Hx.
    destruct l2; [|done]. rewrite Hel, app_nil_r in Hy. by destruct (H1 y Hy) as [?|[? _]].
  - intros e s x Hx. destruct (next_cut e s) as (l1 & l2 & (Hel & H1 & H2) & Hn). rewrite Hn in Hx.
    pose proof (elems_sorted s) as Hso. rewrite Hel in Hso |- *. destruct l2 as [|z l2]; [done|]. injection Hx as ->.
    split_and!; [set_solver|by destruct (H2 x ltac:(by left)) as [?|[? _]]|].
    intros y [Hy|Hy]%elem_of_app Hlt; [|by eapply sorted_split]. exfalso. apply (elt_lt_irrefl e).
    destruct (H1 y Hy) as [Hlt'|[_ ->]]; [by etrans|done].
  - intros e s Hx y Hy Hlt. destruct (next_cut e s) as (l1 & l2 & (Hel & H1 & _) & Hn). rewrite Hn in Hx.
    destruct l2; [|done]. rewrite Hel, app_nil_r in Hy. apply (elt_lt_irrefl e).
    destruct (H1 y Hy) as [Hlt'|[_ ->]]; [by etrans|done].
  - intros it s x Hx. pose proof (elems_sorted s) as Hso. destruct it as [e|].
    + destruct (prev_cut e s) as (l1 & l2 & (Hel & H1 & H2) & Hp). rewrite Hp in Hx. rewrite Hel in Hso |- *.
      apply last_Some in Hx as [l ->]. split_and!; [set_solver| |].
      * intros e' [= <-]. by destruct (H1 x ltac:(set_solver)) as [?|[? _]].
      * intros y Hy Hlt. specialize (Hlt e eq_refl). rewrite <- app_assoc in Hy, Hso. apply elem_of_app in Hy as [Hy|Hy].
        -- intros Hxy. apply (elt_lt_irrefl x). etrans; [exact Hxy|]. eapply (StronglySorted_app_1_elem_of elt_lt l); [done|done|by left].
        -- apply elem_of_cons in Hy as [->|Hy]; [apply elt_lt_irrefl|]. exfalso. apply (elt_lt_irrefl y).
           destruct (H2 y Hy) as [Hlt'|[_ ->]]; [by etrans|done].
    + cbn in Hx. destruct (fs_inv s) as [L Hi]. rewrite (deref_last _ s L []) in Hx;
        [|by rewrite app_nil_r|by eapply prev_end_spec].
      destruct (sorted_last_max (elems s) x Hso) as [Hin Hmax]; [|split_and!; [done|done|]; intros y Hy _; by apply Hmax].
      cbn. by rewrite (elems_of_spec _ _ Hi), fmap_last.
  - intros it s Hx y Hy. destruct it as [e|].
    + destruct (prev_cut e s) as (l1 & l2 & (Hel & H1 & H2) & Hp). rewrite Hp in Hx. apply last_None in Hx as ->.
      exists e. split; [done|]. rewrite Hel in Hy. intros Hlt. apply (elt_lt_irrefl y).
      destruct (H2 y Hy) as [Hlt'|[_ ->]]; [by etrans|done].
    + cbn in Hx, Hy. destruct (fs_inv s) as [L Hi]. rewrite (deref_last _ s L []) in Hx;
        [|by rewrite app_nil_r|by eapply prev_end_spec].
      rewrite (elems_of_spec _ _ Hi) in Hy. destruct (list.last L) eqn:El; [done|]. apply last_None in El as ->. by apply elem_of_nil in Hy.
Qed.
End fast_set.

#[export] Program Instance counter_supply : ChunkSupply nat := { chunk_init := 0%nat }.
Next Obligation. done. Qed.
Next Obligation. intros h. by eexists. Qed.
