(* ===== verification/ContigTrees.v ===== *)
(** * The linear address allocator on its trees

    The same calls on two implementations of the ordered set return the same
    addresses and stop at the same assertions: what [ContigAllocThms] shows
    with sorted lists in view is what the allocator does on the AVL trees of
    kernel/lib/basic_set.h with the bump allocator of kernel/lib/cc/memory.h. *)

From stdpp Require Import base tactics list numbers option gmap sorting.
From S2P Require Import Prelude OrderedSet BumpAlloc FastSet ContigAlloc.

#[local] Open Scope Z_scope.

(** ** Two implementations of the set *)

Lemma sorted_same (l1 l2 : list elt) :
  StronglySorted elt_lt l1 → StronglySorted elt_lt l2 → (∀ x, x ∈ l1 ↔ x ∈ l2) → l1 = l2.
Proof.
  intros H1. revert l2. induction H1 as [|x l1 Hl1 IH Hx]; intros l2 H2 Hel.
  - destruct l2 as [|y l2]; [done|]. pose proof (proj2 (Hel y) ltac:(by left)) as Hy%elem_of_nil. done.
  - destruct H2 as [|y l2 Hl2 Hy]; [pose proof (proj1 (Hel x) ltac:(by left)) as Hn%elem_of_nil; done|].
    rewrite Forall_forall in Hx, Hy.
    assert (x = y) as <-.
    { pose proof (proj1 (Hel x) ltac:(by left)) as [?|Hin]%elem_of_cons; [done|].
      pose proof (proj2 (Hel y) ltac:(by left)) as [?|Hin']%elem_of_cons; [done|].
      destruct (elt_lt_irrefl x). etrans; [by apply Hx|by apply Hy]. }
    f_equal. apply IH; [done|]. intros z. specialize (Hel z). rewrite !elem_of_cons in Hel.
    assert (z ∈ l1 → z ≠ x) by (intros Hz ->; by apply (elt_lt_irrefl x), Hx).
    assert (z ∈ l2 → z ≠ x) by (intros Hz ->; by apply (elt_lt_irrefl x), Hy).
    naive_solver.
Qed.

Section two_sets.
Context {T1 T2 : Type} `{OS1 : OrderedSet T1} `{LW1 : !OrderedSetLaws T1} `{OS2 : OrderedSet T2} `{LW2 : !OrderedSetLaws T2}.
Implicit Types (s : T1) (t : T2) (e : elt).

Definition same_elems s t : Prop := elems s = elems t.

Lemma same_insert e s t :
  same_elems s t → same_elems (set_insert e s).1 (set_insert e t).1 ∧ (set_insert e s).2 = (set_insert e t).2.
Proof.
  intros Hs. unfold same_elems in *. split; [|by rewrite !law_insert_new, Hs].
  apply sorted_same; [apply law_sorted..|]. intros x. by rewrite !law_insert, Hs.
Qed.
Lemma same_erase e s t :
  same_elems s t → same_elems (set_erase e s).1 (set_erase e t).1 ∧ (set_erase e s).2 = (set_erase e t).2.
Proof.
  intros Hs. unfold same_elems in *. split; [|by rewrite !law_erase_found, Hs].
  apply sorted_same; [apply law_sorted..|]. intros x. by rewrite !law_erase, Hs.
Qed.

Lemma elt_not_lt x y : ¬ elt_lt x y → ¬ elt_lt y x → x = y.
Proof. intros H1 H2. by destruct (elt_trichotomy x y) as [?|[?|?]]. Qed.

Lemma same_lower_bound e s t : same_elems s t → set_lower_bound e s = set_lower_bound e t.
Proof.
  intros Hs. unfold same_elems in Hs.
  destruct (set_lower_bound e s) as [x|] eqn:E1, (set_lower_bound e t) as [y|] eqn:E2; [| | |done].
  - apply law_lower_bound_some in E1 as (H1 & H2 & H3), E2 as (H4 & H5 & H6). f_equal. rewrite Hs in *. apply elt_not_lt; auto.
  - apply law_lower_bound_some in E1 as (H1 & H2 & _). rewrite Hs in H1. exfalso. by apply H2, (law_lower_bound_none _ _ E2).
  - apply law_lower_bound_some in E2 as (H1 & H2 & _). rewrite <- Hs in H1. exfalso. by apply H2, (law_lower_bound_none _ _ E1).
Qed.
Lemma same_next e s t : same_elems s t → set_next e s = set_next e t.
Proof.
  intros Hs. unfold same_elems in Hs.
  destruct (set_next e s) as [x|] eqn:E1, (set_next e t) as [y|] eqn:E2; [| | |done].
  - apply law_next_some in E1 as (H1 & H2 & H3), E2 as (H4 & H5 & H6). f_equal. rewrite Hs in *. apply elt_not_lt; auto.
  - apply law_next_some in E1 as (H1 & H2 & _). rewrite Hs in H1. exfalso. by apply (law_next_none _ _ E2 _ H1).
  - apply law_next_some in E2 as (H1 & H2 & _). rewrite <- Hs in H1. exfalso. by apply (law_next_none _ _ E1 _ H1).
Qed.
Lemma same_prev it s t : same_elems s t → set_prev it s = set_prev it t.
Proof.
  intros Hs. unfold same_elems in Hs.
  destruct (set_prev it s) as [x|] eqn:E1, (set_prev it t) as [y|] eqn:E2; [| | |done].
  - apply law_prev_some in E1 as (H1 & H2 & H3), E2 as (H4 & H5 & H6). f_equal. rewrite Hs in *. apply elt_not_lt; auto.
  - apply law_prev_some in E1 as (H1 & H2 & _). rewrite Hs in H1. destruct (law_prev_none _ _ E2 _ H1) as (e & -> & Hn). exfalso. by apply Hn, H2.
  - apply law_prev_some in E2 as (H1 & H2 & _). rewrite <- Hs in H1. destruct (law_prev_none _ _ E1 _ H1) as (e & -> & Hn). exfalso. by apply Hn, H2.
Qed.
Lemma same_size s t : same_elems s t → set_size s = set_size t.
Proof. unfold set_size, same_elems. by intros ->. Qed.
End two_sets.

(** ** Two runs *)

Section runs.
Context {T1 T2 : Type} `{OS1 : OrderedSet T1} `{LW1 : !OrderedSetLaws T1} `{OS2 : OrderedSet T2} `{LW2 : !OrderedSetLaws T2}.

Record sim (s : contig T1) (t : contig T2) : Prop := Sim {
  sim_size : same_elems (free_addr_by_size s) (free_addr_by_size t);
  sim_addr : same_elems (free_addr_by_addr s) (free_addr_by_addr t);
  sim_base : linear_base s = linear_base t;
  sim_ready : ready s = ready t
}.

Definition same_outcome {X} (o1 : outcome (X * contig T1)) (o2 : outcome (X * contig T2)) : Prop :=
  match o1, o2 with
  | Done (x, s), Done (y, t) => x = y ∧ sim s t
  | Fault e, Fault f => e = f
  | _, _ => False
  end.
Definition agree {X} (m1 : M (contig T1) X) (m2 : M (contig T2) X) : Prop :=
  ∀ s t, sim s t → same_outcome (m1 s) (m2 t).

Lemma agree_bind {X Y} m1 m2 (f1 : X → M (contig T1) Y) f2 :
  agree m1 m2 → (∀ x, agree (f1 x) (f2 x)) → agree (m1 ≫= f1) (m2 ≫= f2).
Proof.
  intros Hm Hf s t Hst. specialize (Hm s t Hst). unfold mbind, M_bind, same_outcome in *.
  destruct (m1 s) as [[x s']|e], (m2 t) as [[y t']|f]; try done. destruct Hm as [-> Hst']. by apply Hf.
Qed.
Lemma agree_state {X} (f1 : contig T1 → M (contig T1) X) f2 :
  (∀ s t, sim s t → same_outcome (f1 s s) (f2 t t)) → agree (gets id ≫= f1) (gets id ≫= f2).
Proof. intros Hf s t Hst. by apply Hf. Qed.
Lemma agree_mret {X} (x : X) : agree (mret x) (mret x).
Proof. by intros s t Hst. Qed.
Lemma agree_throw {X} e : agree (X := X) (throw e) (throw e).
Proof. by intros s t Hst. Qed.
Lemma agree_gets {X} (f1 : contig T1 → X) f2 : (∀ s t, sim s t → f1 s = f2 t) → agree (gets f1) (gets f2).
Proof. intros Hf s t Hst. split; [by apply Hf|done]. Qed.
Lemma agree_modify f1 f2 : (∀ s t, sim s t → sim (f1 s) (f2 t)) → agree (modify f1) (modify f2).
Proof. intros Hf s t Hst. split; [done|by apply Hf]. Qed.
Lemma agree_if {X} (b : bool) (m1 m1' : M (contig T1) X) m2 m2' :
  agree m1 m2 → agree m1' m2' → agree (if b then m1 else m1') (if b then m2 else m2').
Proof. by destruct b. Qed.

Lemma agree_size_insert e : agree (size_insert e) (size_insert e).
Proof.
  intros s t [Hs Ha Hb Hr]. destruct (same_insert e _ _ Hs) as [H3 H4]. unfold size_insert.
  destruct (set_insert e (free_addr_by_size s)), (set_insert e (free_addr_by_size t)). by split.
Qed.
Lemma agree_size_erase e : agree (size_erase e) (size_erase e).
Proof.
  intros s t [Hs Ha Hb Hr]. destruct (same_erase e _ _ Hs) as [H3 H4]. unfold size_erase.
  destruct (set_erase e (free_addr_by_size s)), (set_erase e (free_addr_by_size t)). by split.
Qed.
Lemma agree_addr_insert e : agree (addr_insert e) (addr_insert e).
Proof.
  intros s t [Hs Ha Hb Hr]. destruct (same_insert e _ _ Ha) as [H3 H4]. unfold addr_insert.
  destruct (set_insert e (free_addr_by_addr s)), (set_insert e (free_addr_by_addr t)). by split.
Qed.
Lemma agree_addr_erase e : agree (addr_erase e) (addr_erase e).
Proof.
  intros s t [Hs Ha Hb Hr]. destruct (same_erase e _ _ Ha) as [H3 H4]. unfold addr_erase.
  destruct (set_erase e (free_addr_by_addr s)), (set_erase e (free_addr_by_addr t)). by split.
Qed.
Lemma agree_validate : agree validate_locked validate_locked.
Proof. apply agree_gets. intros s t [Hs Ha _ _]. unfold same_elems in *. by rewrite Hs, Ha. Qed.
Lemma agree_kassert b : agree (kassert b) (kassert b).
Proof. destruct b; [apply agree_mret|apply agree_throw]. Qed.

(** The two sizes are compared in both runs. *)
Lemma agree_sizes {X} (k1 : M (contig T1) X) k2 :
  agree k1 k2 →
  agree (s ← gets id; kassert (bool_decide (set_size (free_addr_by_addr s) = set_size (free_addr_by_size s)));; k1)
        (s ← gets id; kassert (bool_decide (set_size (free_addr_by_addr s) = set_size (free_addr_by_size s)));; k2).
Proof.
  intros Hk. apply agree_state. intros s t Hst. pose proof Hst as [Hs Ha _ _].
  rewrite (same_size _ _ Hs), (same_size _ _ Ha). apply (agree_bind _ _ _ _ (agree_kassert _) (λ _, Hk) s t Hst).
Qed.
End runs.

Create HintDb agree.
#[export] Hint Resolve agree_mret agree_throw agree_size_insert agree_size_erase agree_addr_insert agree_addr_erase
  agree_validate agree_kassert : agree.

(** Two equal texts agree when the operations in them do. *)
Ltac agree := repeat (intros; first
  [ solve [auto with agree nocore] | apply agree_sizes | apply agree_bind | apply agree_if
  | solve [apply agree_gets; by intros ? ? []]
  | solve [apply agree_gets; intros ? ? []; auto using same_lower_bound, same_next, same_prev, same_size]
  | solve [apply agree_modify; intros ? ? []; split; cbn; congruence]
  | match goal with
    | |- agree (match ?x with _ => _ end) _ => destruct x
    end ]).

Section ops.
Context {T1 T2 : Type} `{OS1 : OrderedSet T1} `{LW1 : !OrderedSetLaws T1} `{OS2 : OrderedSet T2} `{LW2 : !OrderedSetLaws T2}.
Abbreviation agree := (agree (T1 := T1) (T2 := T2)).

Lemma agree_contig_init a n : agree (contig_init a n) (contig_init a n).
Proof. unfold contig_init. agree. Qed.
Lemma agree_alloc_linear n : agree (alloc_linear n) (alloc_linear n).
Proof. unfold alloc_linear. agree. Qed.
Lemma agree_carve_item e a z : agree (carve_item e a z) (carve_item e a z).
Proof. unfold carve_item. agree. Qed.
#[local] Hint Resolve agree_carve_item : agree.
Lemma agree_take_loop fuel lo hi a z : agree (take_loop fuel lo hi a z) (take_loop fuel lo hi a z).
Proof. revert lo. induction fuel as [|fuel IH]; intros lo; cbn [take_loop]; agree. Qed.
#[local] Hint Resolve agree_take_loop : agree.

Lemma agree_take_linear a n b : agree (take_linear a n b) (take_linear a n b).
Proof.
  unfold take_linear. apply agree_bind; [apply agree_kassert|intros _]. apply agree_state. intros s t Hst. pose proof Hst as [Hs Ha _ _].
  rewrite (same_size _ _ Hs), (same_size _ _ Ha), (same_lower_bound (a, 0) _ _ Ha), (same_lower_bound (u64 (a + n), 0) _ _ Ha).
  rewrite (same_prev _ _ _ Ha). unfold same_elems in Ha. rewrite Ha.
  match goal with |- same_outcome (?m1 s) (?m2 t) => apply (λ H : agree m1 m2, H s t Hst) end. agree.
Qed.

Lemma agree_extract_inserted e node : agree (extract_inserted e node) (extract_inserted e node).
Proof. destruct node; cbn [extract_inserted]; agree. Qed.
#[local] Hint Resolve agree_extract_inserted : agree.
Lemma agree_release_succ fuel e node it a n z : agree (release_succ fuel e node it a n z) (release_succ fuel e node it a n z).
Proof. revert node it n. induction fuel as [|fuel IH]; intros node it n; cbn [release_succ]; agree. Qed.
#[local] Hint Resolve agree_release_succ : agree.
Lemma agree_release_linear a n : agree (release_linear a n) (release_linear a n).
Proof. unfold release_linear. agree. Qed.
End ops.
#[export] Hint Resolve agree_contig_init agree_alloc_linear agree_take_linear agree_release_linear : agree.

(** ** Any sequence of calls *)

Inductive contig_call :=
  | CallInit (addr size : Z)
  | CallAlloc (size : Z)
  | CallTake (addr size : Z) (require_free : bool)
  | CallRelease (addr size : Z).

Section calls.
Context {T : Type} `{OS : OrderedSet T}.

(** One call, with what it returns as a number *)
Definition contig_step (c : contig_call) : M (contig T) Z :=
  match c with
  | CallInit a n => contig_init a n;; mret 0
  | CallAlloc n => alloc_linear n
  | CallTake a n b => r ← take_linear a n b; mret (Z.b2z r)
  | CallRelease a n => release_linear a n;; mret 0
  end.

Fixpoint contig_calls (cs : list contig_call) : M (contig T) (list Z) :=
  match cs with
  | [] => mret []
  | c :: cs => r ← contig_step c; rs ← contig_calls cs; mret (r :: rs)
  end.

(** The results of the calls on a new allocator, and the free ranges after *)
Definition contig_trace (base : Z) (cs : list contig_call) : outcome (list Z * list elt) :=
  match contig_calls cs (Contig set_empty set_empty base false) with
  | Done (rs, s) => Done (rs, elems (free_addr_by_addr s))
  | Fault e => Fault e
  end.
End calls.

Section independence.
Context {T1 T2 : Type} `{OS1 : OrderedSet T1} `{LW1 : !OrderedSetLaws T1} `{OS2 : OrderedSet T2} `{LW2 : !OrderedSetLaws T2}.

Lemma agree_calls cs : agree (T1 := T1) (T2 := T2) (contig_calls cs) (contig_calls cs).
Proof.
  induction cs as [|c cs IH]; cbn [contig_calls]; agree. destruct c; cbn [contig_step]; agree.
Qed.

Lemma traces_agree base cs : contig_trace (T := T1) base cs = contig_trace (T := T2) base cs.
Proof.
  assert (sim (T1 := T1) (T2 := T2) (Contig set_empty set_empty base false) (Contig set_empty set_empty base false)) as Hs.
  { split; try done; unfold same_elems; cbn [free_addr_by_size free_addr_by_addr]; by rewrite !law_empty. }
  pose proof (agree_calls cs _ _ Hs) as Ha. unfold contig_trace, same_outcome in *.
  destruct (contig_calls cs _) as [[rs s]|e], (contig_calls cs _) as [[rs' s']|e']; try done; [|by subst].
  destruct Ha as [-> Hs']. by rewrite (sim_addr _ _ Hs' : elems _ = elems _).
Qed.
End independence.


(** ** A run *)

Definition demo_calls : list contig_call :=
  [CallInit 0x400000 0x100000; CallAlloc 0x3000; CallAlloc 0x2000; CallTake 0x480000 0x1000 true;
   CallRelease 0x400000 0x3000; CallAlloc 0x1000; CallRelease 0x403000 0x2000].

Lemma contig_alloc_on_trees_run :
  contig_trace (T := fast_set (P := nat)) 0 demo_calls
  = Done ([0; 0x400000; 0x403000; 1; 0; 0x400000; 0], [(0x401000, 0x7f000); (0x481000, 0x7f000)]).
Proof. vm_compute. reflexivity. Qed.
