(* ===== verification/AvlCases.v ===== *)
(** * The AVL tree: concrete trees *)

From stdpp Require Import base tactics list numbers option gmap sorting.
From S2P Require Import Prelude OrderedSet AvlTree AvlRep AvlFocus AvlSearch AvlInsert AvlDelete AvlErase AvlOps BumpAlloc FastSet.

#[local] Open Scope Z_scope.

(** Keys inserted one by one into an empty set *)
Definition set_of (l : list elt) : fast_set (P := nat) := foldr (λ e s, (fs_insert e s).1) fs_empty l.
Definition demo_keys : list elt := [(5, 0); (1, 0); (4, 0); (2, 0); (8, 0); (7, 0); (3, 0)].
Definition demo_tree : tree_t elt (bump_t nat) := fs_tree (set_of demo_keys).

Lemma demo_inv : ∃ L, tree_inv elt_cmp demo_tree L
  ∧ L.*2 = [(1, 0); (2, 0); (3, 0); (4, 0); (5, 0); (7, 0); (8, 0)].
Proof.
  destruct (fs_inv (set_of demo_keys)) as [L Hi]. exists L. split; [exact Hi|].
  rewrite <- (elems_of_spec _ _ Hi). vm_compute. reflexivity.
Qed.

Lemma avl_insert_witness : ∃ L res, tree_inv elt_cmp demo_tree L ∧
  insert elt_cmp (6, 0) demo_tree = Done res ∧ insert_post elt_cmp (λ a, a ∉ dom (nodes demo_tree)) demo_tree L (6, 0) res.
Proof.
  destruct demo_inv as (L & Hi & _).
  destruct (avl_insert_correct elt_cmp demo_tree L (6, 0) Hi) as (res & Hrun & Hpost).
  - apply (bump_supply _ _ (ti_alloc _ _ _ Hi)).
  - exact (ex_intro _ L (ex_intro _ res (conj Hi (conj Hrun Hpost)))).
Defined.

Lemma avl_erase_witness : ∃ L found s', tree_inv elt_cmp demo_tree L ∧
  erase elt_cmp (4, 0) demo_tree = Done (if found is Some _ then 1 else 0, s') ∧ removal_post elt_cmp true demo_tree L (4, 0) found s'.
Proof.
  destruct demo_inv as (L & Hi & _).
  destruct (avl_erase_correct elt_cmp demo_tree L (4, 0) Hi) as (found & s' & Hrun & Hpost). 
  exact (ex_intro _ L (ex_intro _ found (ex_intro _ s' (conj Hi (conj Hrun Hpost))))).
Defined.

Lemma avl_extract_insert_witness : ∃ L a s1 s2, tree_inv elt_cmp demo_tree L ∧
  extract elt_cmp (4, 0) demo_tree = Done (Some a, s1) ∧ insert_node elt_cmp (Some a) s1 = Done ((Some a, true), s2)
  ∧ tree_inv elt_cmp s2 L.
Proof.
  destruct demo_inv as (L & Hi & HL).
  destruct (avl_extract_insert_roundtrip elt_cmp demo_tree L (4, 0) Hi) as (a & s1 & s2 & H1 & H2 & H3).
  - rewrite HL. set_solver.
  - exact (ex_intro _ L (ex_intro _ a (ex_intro _ s1 (ex_intro _ s2 (conj Hi (conj H1 (conj H2 H3))))))).
Defined.

Lemma avl_lower_bound_witness : ∃ L1 L2 : list (addr * elt), lower_bound elt_cmp (6, 0) demo_tree = Done (fst <$> head L2, demo_tree)
  ∧ Forall (λ e, elt_cmp e.2 (6, 0) = true) L1 ∧ Forall (λ e, elt_cmp e.2 (6, 0) = false) L2.
Proof.
  destruct demo_inv as (L & Hi & _).
  destruct (avl_lower_bound_correct elt_cmp demo_tree L (6, 0) Hi) as (L1 & L2 & _ & H1 & H2 & H3). 
  exact (ex_intro _ L1 (ex_intro _ L2 (conj H1 (conj H2 H3)))).
Defined.

Lemma avl_clear_witness : ∃ s', clear demo_tree = Done (tt, s') ∧ tree_inv elt_cmp s' [].
Proof.
  destruct demo_inv as (L & Hi & _).
  destruct (avl_clear_correct elt_cmp demo_tree L Hi) as (s' & H1 & H2 & _). 
  exact (ex_intro _ s' (conj H1 H2)).
Defined.

Lemma avl_validate_witness : validate elt_cmp elt_cmp demo_tree = Done (true, demo_tree).
Proof.
  destruct demo_inv as (L & Hi & _). apply (avl_validate_accepts elt_cmp elt_cmp) with (L := L); [intros x y H; exact H|exact Hi].
Defined.

Lemma avl_search_witness : ∃ p, tree_find_loop elt_cmp 7 (7, 0) (root demo_tree) demo_tree = Done (p, demo_tree).
Proof.
  destruct demo_inv as (L & Hi & HL).
  destruct (avl_search_bounded elt_cmp demo_tree L (7, 0) 7 Hi) as (p & Hp & _).
  - assert (length L = 7%nat) as -> by (rewrite <- (length_fmap (@snd addr elt) L), HL; reflexivity). reflexivity.
  - exact (ex_intro _ p Hp).
Defined.
