(* ===== verification/PhysAlloc.v ===== *)
(** * kernel/arch/x86_64/cpu/phys_alloc.cc and .h: physical pages

    mmu_phys_allocator_t has one 32-bit entry per page.  The entry of a free
    page is the index of the next free page, or -1; that of a page in use has
    the top bit set and a reference count below it; -1 is also the entry of
    a page that is not memory.  [phys] is the object's state.  The lock makes
    every operation atomic, except alloc_multiple, which gives it up between
    taking the pages and putting back those that were not wanted; the two
    halves are [take_pages] and [put_back], with [offer_pages] in between. *)

From stdpp Require Import base tactics list numbers option gmap sorting.
From S2P Require Import Prelude.

#[local] Open Scope Z_scope.

Record phys := Phys {
  entries : list Z;          (* uint32_t each *)
  begin_ : Z;                (* begin *)
  next_free : Z;             (* uint32_t *)
  free_page_count : Z;       (* uint32_t *)
  log2_pagesz : Z;
  highest_usable : Z
}.

Abbreviation PA := (M phys).

Definition used_mask : Z := 2 ^ 31.
(** entry_t(-1) *)
Definition no_entry : Z := 2 ^ 32 - 1.
Definition is_used (e : Z) : bool := negb (Z.land e used_mask =? 0).

Definition kassert (b : bool) : PA unit := if b then mret tt else throw AssertFailed.

Definition with_entries (l : list Z) (s : phys) : phys :=
  Phys l (begin_ s) (next_free s) (free_page_count s) (log2_pagesz s) (highest_usable s).
Definition with_next (e : Z) (s : phys) : phys :=
  Phys (entries s) (begin_ s) e (free_page_count s) (log2_pagesz s) (highest_usable s).
Definition with_count (n : Z) (s : phys) : phys :=
  Phys (entries s) (begin_ s) (next_free s) n (log2_pagesz s) (highest_usable s).

Definition entry (i : Z) : PA Z := λ s,
  if i <? 0 then Fault OutOfRange
  else match entries s !! Z.to_nat i with Some e => Done (e, s) | None => Fault OutOfRange end.
Definition set_entry (i e : Z) : PA unit := λ s,
  if (i <? 0) || (Z.of_nat (length (entries s)) <=? i) then Fault OutOfRange
  else Done (tt, with_entries (<[Z.to_nat i := e]> (entries s)) s).

Definition index_from_addr (addr : Z) : PA Z :=
  b ← gets begin_;
  sh ← gets log2_pagesz;
  kassert (b <=? addr);;
  mret (Z.shiftr (u64 (addr - b)) sh).
Definition addr_from_index (s : phys) (index : Z) : Z :=
  u64 (u64 (Z.shiftl index (log2_pagesz s)) + begin_ s).

Definition size_from_highest_page (page_index : Z) : Z := u64 (page_index * 4).

(** The storage [addr] has room for [highest] entries *)
Definition phys_init (begin0 highest log2sz : Z) : phys :=
  Phys (replicate (Z.to_nat highest) no_entry) begin0 no_entry 0 log2sz highest.

(** ** add_free_space *)

Fixpoint add_loop (fuel : nat) (index size pagesz : Z) : PA unit :=
  match fuel with
  | O => throw OutOfFuel
  | S fuel =>
      if size =? 0 then mret tt
      else
        hi ← gets highest_usable;
        kassert (index <? hi);;
        e ← entry index;
        kassert (e =? no_entry);;
        nf ← gets next_free;
        set_entry index nf;;
        modify (with_next index);;
        modify (λ s, with_count (u32 (free_page_count s + 1)) s);;
        add_loop fuel (u32 (index - 1)) (u64 (size - pagesz)) pagesz
  end.
Definition add_free_space (base size : Z) : PA unit :=
  let free_end := u64 (base + size) in
  sh ← gets log2_pagesz;
  let pagesz := 2 ^ sh in
  i ← index_from_addr free_end;
  n ← gets (λ s, length (entries s));
  add_loop (S (S n)) (u32 (u64 (i - 1))) size pagesz.

(** ** One page *)

Definition alloc_one : PA Z :=
  index ← gets next_free;
  if index =? no_entry then mret 0
  else
    hi ← gets highest_usable;
    kassert (index <? hi);;
    new_next ← entry index;
    kassert ((new_next =? no_entry) || negb (is_used new_next));;
    set_entry index (Z.lor used_mask 1);;
    modify (with_next new_next);;
    gets (λ s, addr_from_index s index).

Definition release_one (addr : Z) : PA bool :=
  index ← index_from_addr addr;
  hi ← gets highest_usable;
  kassert (index <? hi);;
  e ← entry index;
  kassert (is_used e);;
  if e =? Z.lor 1 used_mask then
    nf ← gets next_free;
    set_entry index nf;;
    modify (with_next (u32 index));;
    modify (λ s, with_count (u32 (free_page_count s + 1)) s);;
    mret true
  else
    set_entry index (u32 (e - 1));;
    mret false.

Definition addref (addr : Z) : PA unit :=
  i ← index_from_addr addr;
  let index := u32 i in
  hi ← gets highest_usable;
  kassert (index <? hi);;
  e ← entry index;
  kassert (is_used e);;
  set_entry index (u32 (e + 1)).

Fixpoint count_chain (fuel : nat) (ent n : Z) : PA Z :=
  match fuel with
  | O => throw OutOfFuel
  | S fuel => if ent =? no_entry then mret n else next ← entry ent; count_chain fuel next (n + 1)
  end.
Definition validate : PA unit :=
  nf ← gets next_free;
  f ← gets (λ s, length (entries s));
  n ← count_chain (S f) nf 0;
  c ← gets free_page_count;
  kassert (c =? n).

(** ** alloc_multiple *)

(** Follow the chain for [count] pages, or as far as it goes *)
Fixpoint walk_chain (count : nat) (new_next : Z) : PA (Z * bool) :=
  match count with
  | O => mret (new_next, true)
  | S count =>
      if new_next =? no_entry then mret (new_next, false)
      else
        hi ← gets highest_usable;
        kassert (new_next <? hi);;
        e ← entry new_next;
        kassert ((e =? no_entry) || negb (is_used e));;
        walk_chain count e
  end.

(** Under the lock: the first page of the chain, if there are enough *)
Definition take_pages (count : Z) : PA (option Z) :=
  first ← gets next_free;
  kassert (negb (is_used first));;
  '(new_next, enough) ← walk_chain (Z.to_nat count) first;
  if (enough : bool) then
    modify (with_next new_next);;
    modify (λ s, with_count (u32 (free_page_count s - count)) s);;
    mret (Some first)
  else mret None.

(** Without the lock: [callback i addr] says whether page [addr] is wanted;
    a page that is not is offered again. *)
Fixpoint offer_pages (callback : Z → Z → bool) (rounds : nat) (i first used : Z) : PA (Z * Z) :=
  match rounds with
  | O => mret (first, used)
  | S rounds =>
      next ← entry first;
      kassert (negb (is_used next));;
      paddr ← gets (λ s, addr_from_index s first);
      if callback i paddr then
        set_entry first (Z.lor 1 used_mask);;
        offer_pages callback rounds (i + 1) next (used + 1)
      else offer_pages callback rounds (i + 1) first used
  end.

(** Under the lock again *)
Definition put_back (count first used : Z) : PA unit :=
  if used =? count then mret tt
  else
    modify (λ s, with_count (u32 (free_page_count s + u64 (count - used))) s);;
    modify (with_next first).

Definition alloc_multiple (callback : Z → Z → bool) (size : Z) : PA bool :=
  sh ← gets log2_pagesz;
  kassert (Z.land size (2 ^ sh - 1) =? 0);;
  let count := Z.shiftr size sh in
  if count =? 0 then mret true
  else
    first ← take_pages count;
    match first with
    | None => mret false
    | Some first =>
        '(first, used) ← offer_pages callback (Z.to_nat count) 0 first 0;
        put_back count first used;;
        mret true
    end.

(** ** free_batch_t *)

Definition batch_max : nat := 16.
Definition PTE_ADDR : Z := Z.shiftl (2 ^ 40 - 1) 12.

(** release_one_locked of each, in order *)
Fixpoint release_all (l : list Z) : PA unit :=
  match l with
  | [] => mret tt
  | a :: l => release_one a;; release_all l
  end.

(** [batch]: the pages, first in first *)
Definition flush (batch : list Z) : PA (list Z) :=
  (match batch with
   | a :: b :: _ => if b <? a then release_all batch else release_all (rev batch)
   | _ => release_all batch
   end);;
  mret [].

Definition batch_free (addr : Z) (batch : list Z) : PA (list Z) :=
  if (addr =? 0) || (addr =? PTE_ADDR) then mret batch
  else
    kassert (0x100000 <=? addr);;
    kassert (addr <? 0x0010000000000000);;
    batch ← (if (length batch =? batch_max)%nat then flush batch else mret batch);
    mret (batch ++ [addr]).

(** Any number of frees, and the destructor *)
Fixpoint batch_frees (l batch : list Z) : PA (list Z) :=
  match l with
  | [] => mret batch
  | a :: l => batch ← batch_free a batch; batch_frees l batch
  end.
Definition free_all (l : list Z) : PA unit :=
  batch ← batch_frees l [];
  match batch with [] => mret tt | _ => flush batch;; mret tt end.

(** ** adjref_virtual_range

    [pte_at n]: the page table entry of linear page [n], in the window of all
    last-level page tables *)

Definition PTE_PRESENT : Z := 2 ^ 0.
Definition PTE_EX_PHYSICAL : Z := 2 ^ 9.
Definition PTE_EX_DEVICE : Z := 2 ^ 11.
Definition PTE_EX_DEMAND : Z := 2 ^ 54.
Definition pte_is_sysmem (pte : Z) : bool :=
  Z.land pte (Z.lor (Z.lor PTE_PRESENT PTE_EX_PHYSICAL) (Z.lor PTE_EX_DEVICE PTE_EX_DEMAND)) =? PTE_PRESENT.
Definition PAGE_SCALE : Z := 12.
Definition round_up (n : Z) : Z := Z.land (u64 (n + 4095)) (u64 (- 4096)).
Definition pte_index (addr : Z) : Z := Z.shiftr (Z.land addr 0xFFFFFFFFF000) 12.

Section adjref.
Context (pte_at : Z → Z).

Fixpoint adjref_up (count : nat) (n : Z) : PA unit :=
  match count with
  | O => mret tt
  | S count =>
      let addr := Z.land (pte_at n) PTE_ADDR in
      (if negb (addr =? 0) && negb (addr =? PTE_ADDR) then addref addr else mret tt);;
      adjref_up count (n + 1)
  end.

(** A page whose count goes to 0 goes into the batch. *)
Fixpoint adjref_down (count : nat) (n : Z) (batch : list Z) : PA (list Z) :=
  match count with
  | O => mret batch
  | S count =>
      let addr := Z.land (pte_at n) PTE_ADDR in
      batch ←
        (if pte_is_sysmem (pte_at n) then
           i ← index_from_addr addr;
           let index := u32 i in
           e ← entry index;
           kassert (is_used e);;
           set_entry index (u32 (e - 1));;
           if u32 (e - 1) =? 0 then s ← gets id; batch_free (addr_from_index s index) batch
           else mret batch
         else mret batch);
      adjref_down count (n + 1) batch
  end.

Definition adjref_virtual_range (start len adj : Z) : PA unit :=
  let misalignment := Z.land start PAGE_SCALE in
  let start := u64 (start - misalignment) in
  let len := round_up (u64 (len + misalignment)) in
  sh ← gets log2_pagesz;
  let count := Z.to_nat (Z.shiftr len sh) in
  if 0 <? adj then adjref_up count (pte_index start)
  else if adj <? 0 then
    batch ← adjref_down count (pte_index start) [];
    match batch with [] => mret tt | _ => flush batch;; mret tt end
  else mret tt.
End adjref.

(** * Physical pages: the free chain and the reference counts

    [phys_rep s F R]: the chain of free pages is [F], in the order in which
    they will be handed out, and the pages in use are those of [R], with
    their reference counts.  Each operation is shown to do to [F] and [R]
    what it should. *)

(** ** Entries *)

Lemma is_used_spec e : 0 ≤ e < 2 ^ 32 → is_used e = (2 ^ 31 <=? e).
Proof.
  intros He. unfold is_used, used_mask.
  assert (Z.land e (2 ^ 31) = 2 ^ 31 * (e / 2 ^ 31)) as ->.
  { apply Z.bits_inj'. intros i Hi. rewrite Z.land_spec, Z.pow2_bits_eqb by lia.
    rewrite (Z.mul_comm (2 ^ 31)). destruct (Z.ltb_spec i 31) as [Hlt|Hge].
    - rewrite Z.mul_pow2_bits_low by done. destruct (Z.eqb_spec 31 i); [lia|]. by rewrite andb_false_r.
    - rewrite (Z.mul_pow2_bits _ 31 i) by lia.
      rewrite Z.div_pow2_bits by lia. replace (i - 31 + 31) with i by lia.
      destruct (Z.eqb_spec 31 i) as [<-|Hne]; [by rewrite andb_true_r|]. rewrite andb_false_r.
      rewrite <- (Z.mod_small e (2 ^ 32)) by done. by rewrite Z.mod_pow2_bits_high by lia. }
  destruct (Z.leb_spec (2 ^ 31) e).
  - replace (e / 2 ^ 31) with 1; [done|]. apply Z.div_unique with (e - 2 ^ 31); lia.
  - by rewrite Z.div_small by lia.
Qed.

Lemma used_entry c : 0 ≤ c < 2 ^ 31 → is_used (2 ^ 31 + c) = true.
Proof. intros Hc. rewrite is_used_spec by lia. apply Z.leb_le. lia. Qed.
Lemma link_entry e : 0 ≤ e < 2 ^ 31 → is_used e = false.
Proof. intros Hc. rewrite is_used_spec by lia. apply Z.leb_gt. lia. Qed.

(** ** The view *)

(** The chain that starts at [h] *)
Fixpoint chain (es : list Z) (h : Z) (F : list Z) : Prop :=
  match F with
  | [] => h = no_entry
  | i :: F => h = i ∧ 0 ≤ i < 2 ^ 31 ∧ ∃ e, es !! Z.to_nat i = Some e ∧ chain es e F
  end.

Record phys_rep (s : phys) (F : list Z) (R : gmap Z Z) : Prop := PhysRep {
  pr_len : Z.of_nat (length (entries s)) = highest_usable s;
  pr_small : highest_usable s ≤ 2 ^ 31;
  pr_geometry : 0 ≤ begin_ s ∧ 0 ≤ log2_pagesz s ∧ begin_ s + highest_usable s * 2 ^ log2_pagesz s < 2 ^ 64;
  pr_chain : chain (entries s) (next_free s) F;
  pr_nodup : NoDup F;
  pr_used : ∀ i c, R !! i = Some c → 0 ≤ i ∧ 1 ≤ c < 2 ^ 31 - 1 ∧ entries s !! Z.to_nat i = Some (2 ^ 31 + c);
  pr_apart : ∀ i, i ∈ F → R !! i = None;
  pr_rest : ∀ i, 0 ≤ i < highest_usable s → i ∉ F → R !! i = None → entries s !! Z.to_nat i = Some no_entry
}.

(** The address of page [i] *)
Definition page_addr (s : phys) (i : Z) : Z := begin_ s + i * 2 ^ log2_pagesz s.

Lemma chain_head es h F : chain es h F → h = default no_entry (head F).
Proof. destruct F; [done|]. by intros (-> & _). Qed.
Lemma chain_in es h F i : chain es h F → i ∈ F → 0 ≤ i < 2 ^ 31 ∧ is_Some (es !! Z.to_nat i).
Proof.
  revert h. induction F as [|j F IH]; intros h Hc Hi; [by apply elem_of_nil in Hi|].
  destruct Hc as (-> & Hj & e & He & Hc). apply elem_of_cons in Hi as [->|Hi]; [eauto|by eapply IH].
Qed.
(** Writing an entry that is not on the chain *)
Lemma chain_insert es h F i e :
  chain es h F → 0 ≤ i → i ∉ F → chain (<[Z.to_nat i := e]> es) h F.
Proof.
  revert h. induction F as [|j F IH]; intros h Hc Hi Hni; [done|].
  destruct Hc as (-> & Hj & e' & He & Hc). apply not_elem_of_cons in Hni as [Hne Hni].
  split_and!; try done; [lia..|]. exists e'. split; [|by apply IH].
  rewrite list_lookup_insert_ne; [done|]. intros Heq. apply Hne, Z2Nat.inj; lia.
Qed.

Section pages.
Context (s : phys) (F : list Z) (R : gmap Z Z) (Hr : phys_rep s F R).

Lemma entry_run i e : 0 ≤ i → entries s !! Z.to_nat i = Some e → entry i s = Done (e, s).
Proof. intros Hi He. unfold entry. destruct (Z.ltb_spec i 0); [lia|]. by rewrite He. Qed.
Lemma set_entry_run i e : 0 ≤ i < highest_usable s → set_entry i e s = Done (tt, with_entries (<[Z.to_nat i := e]> (entries s)) s).
Proof.
  intros Hi. unfold set_entry. rewrite (pr_len _ _ _ Hr).
  destruct (Z.ltb_spec i 0), (Z.leb_spec (highest_usable s) i); try lia; done.
Qed.

Lemma page_range i : 0 ≤ i ≤ highest_usable s → 0 ≤ i * 2 ^ log2_pagesz s ∧ page_addr s i < 2 ^ 64.
Proof.
  intros Hi. destruct (pr_geometry _ _ _ Hr) as (Hb & Hs & Hg). unfold page_addr.
  pose proof (Z.pow_pos_nonneg 2 (log2_pagesz s)). split; nia.
Qed.

Lemma index_run i : 0 ≤ i ≤ highest_usable s → index_from_addr (page_addr s i) s = Done (i, s).
Proof.
  intros Hi. destruct (pr_geometry _ _ _ Hr) as (Hb & Hs & Hg). pose proof (page_range i Hi) as [H0 H1].
  unfold index_from_addr. run. unfold page_addr in *. rewrite (proj2 (Z.leb_le (begin_ s) _)) by lia. cbn [kassert]. run.
  replace (begin_ s + i * 2 ^ log2_pagesz s - begin_ s) with (i * 2 ^ log2_pagesz s) by lia.
  unwrap. unfold mret, M_ret. by rewrite Z.shiftr_div_pow2, Z.div_mul by lia.
Qed.

Lemma addr_run i : 0 ≤ i < highest_usable s → addr_from_index s i = page_addr s i.
Proof.
  intros Hi. destruct (pr_geometry _ _ _ Hr) as (Hb & Hs & Hg). pose proof (page_range i ltac:(lia)) as [H0 H1].
  unfold addr_from_index, page_addr in *. rewrite Z.shiftl_mul_pow2 by lia. unwrap. lia.
Qed.

Lemma free_range i : i ∈ F → 0 ≤ i < highest_usable s.
Proof.
  intros Hi. destruct (chain_in _ _ _ _ (pr_chain _ _ _ Hr) Hi) as [H1 [e He]].
  apply lookup_lt_Some in He. rewrite <- (pr_len _ _ _ Hr). lia.
Qed.
Lemma used_range i c : R !! i = Some c → 0 ≤ i < highest_usable s.
Proof.
  intros Hi. destruct (pr_used _ _ _ Hr _ _ Hi) as (H1 & _ & He). apply lookup_lt_Some in He.
  rewrite <- (pr_len _ _ _ Hr). lia.
Qed.
End pages.

(** ** What the operations do to the view *)

(** The pages and their addresses stay what they are. *)
Definition same_pages (s s' : phys) : Prop :=
  begin_ s' = begin_ s ∧ log2_pagesz s' = log2_pagesz s ∧ highest_usable s' = highest_usable s.
#[export] Instance same_pages_preorder : PreOrder same_pages.
Proof. split; [by intros s|]. unfold same_pages. intros s1 s2 s3. naive_solver congruence. Qed.
Lemma page_addr_same s s' i : same_pages s s' → page_addr s' i = page_addr s i.
Proof. intros (Hb & Hl & _). unfold page_addr. by rewrite Hb, Hl. Qed.

Section view.
Implicit Types (s : phys) (F : list Z) (R : gmap Z Z).

Lemma rep_with_count s F R n : phys_rep s F R → phys_rep (with_count n s) F R.
Proof. by intros []. Qed.

Lemma to_nat_ne (i j : Z) : 0 ≤ i → 0 ≤ j → i ≠ j → Z.to_nat i ≠ Z.to_nat j.
Proof. intros. rewrite Z2Nat.inj_iff by done. done. Qed.

(** The first free page is put to use. *)
Lemma rep_take s i F R e :
  phys_rep s (i :: F) R → entries s !! Z.to_nat i = Some e →
  phys_rep (with_next e (with_entries (<[Z.to_nat i := 2 ^ 31 + 1]> (entries s)) s)) F (<[i := 1]> R).
Proof.
  intros Hr He. pose proof (free_range _ _ _ Hr i ltac:(by left)) as Hi.
  destruct Hr as [Hlen Hsm Hg Hch Hnd Hus Hap Hre]. destruct Hch as (_ & Hi' & e' & He' & Hch).
  apply NoDup_cons in Hnd as [HiF Hnd]. assert (e' = e) as -> by congruence.
  split; cbn; try done.
  - by rewrite length_insert.
  - apply chain_insert; [done|lia|done].
  - intros j c [[<- <-]|[Hne Hj]]%lookup_insert_Some.
    + split_and!; try lia. apply list_lookup_insert_eq. lia.
    + destruct (Hus _ _ Hj) as (H1 & H2 & H3). split_and!; try lia. rewrite list_lookup_insert_ne; [done|]. apply to_nat_ne; lia.
  - intros j Hj. rewrite lookup_insert_ne; [apply Hap; by right|]. by intros ->.
  - intros j Hj HjF HjR. apply lookup_insert_None in HjR as [HjR Hne].
    rewrite list_lookup_insert_ne; [apply Hre; try done; set_solver|]. apply to_nat_ne; lia.
Qed.

(** A page that is not free is put on the chain. *)
Lemma rep_give s i F R :
  phys_rep s F R → 0 ≤ i < highest_usable s → i ∉ F →
  phys_rep (with_next i (with_entries (<[Z.to_nat i := next_free s]> (entries s)) s)) (i :: F) (delete i R).
Proof.
  intros [Hlen Hsm Hg Hch Hnd Hus Hap Hre] Hi HiF.
  split; cbn; try done.
  - by rewrite length_insert.
  - split_and!; try lia. exists (next_free s). split; [apply list_lookup_insert_eq; lia|].
    apply chain_insert; [done|lia|done].
  - by constructor.
  - intros j c' [Hne Hj]%lookup_delete_Some. destruct (Hus _ _ Hj) as (H1 & H2 & H3). split_and!; try lia.
    rewrite list_lookup_insert_ne; [done|]. apply to_nat_ne; lia.
  - intros j [->|Hj]%elem_of_cons; [apply lookup_delete_eq|]. apply lookup_delete_None. auto.
  - intros j Hj [Hne HjF]%not_elem_of_cons HjR. apply lookup_delete_None in HjR as [?|HjR]; [done|].
    rewrite list_lookup_insert_ne; [by apply Hre|]. apply to_nat_ne; lia.
Qed.

(** The count of a page in use changes. *)
Lemma rep_recount s i F R c c' :
  phys_rep s F R → R !! i = Some c → 1 ≤ c' < 2 ^ 31 - 1 →
  phys_rep (with_entries (<[Z.to_nat i := 2 ^ 31 + c']> (entries s)) s) F (<[i := c']> R).
Proof.
  intros Hr Hc Hc'. pose proof (used_range _ _ _ Hr i c Hc) as Hi.
  destruct Hr as [Hlen Hsm Hg Hch Hnd Hus Hap Hre].
  assert (i ∉ F) as HiF by (intros Hx; by rewrite (Hap _ Hx) in Hc).
  split; cbn; try done.
  - by rewrite length_insert.
  - apply chain_insert; [done|lia|done].
  - intros j c'' [[<- <-]|[Hne Hj]]%lookup_insert_Some.
    + split_and!; try lia. apply list_lookup_insert_eq. lia.
    + destruct (Hus _ _ Hj) as (H1 & H2 & H3). split_and!; try lia. rewrite list_lookup_insert_ne; [done|]. apply to_nat_ne; lia.
  - intros j Hj. rewrite lookup_insert_ne; [by apply Hap|]. by intros ->.
  - intros j Hj HjF HjR. apply lookup_insert_None in HjR as [HjR Hne].
    rewrite list_lookup_insert_ne; [by apply Hre|]. apply to_nat_ne; lia.
Qed.

(** ** One page *)

Lemma pa_assert_true s {X} (k : unit → PA X) b : b = true → (kassert b ≫= k) s = k tt s.
Proof. by intros ->. Qed.

Lemma alloc_one_spec s F R :
  phys_rep s F R →
  match F with
  | [] => alloc_one s = Done (0, s)
  | i :: F' => ∃ s', alloc_one s = Done (page_addr s i, s') ∧ phys_rep s' F' (<[i := 1]> R) ∧ same_pages s s'
  end.
Proof.
  intros Hr. unfold alloc_one. run. pose proof (pr_chain _ _ _ Hr) as Hch. destruct F as [|i F].
  { by rewrite (Hch : next_free s = no_entry). }
  pose proof (free_range _ _ _ Hr i ltac:(by left)) as Hi. pose proof (addr_run _ _ _ Hr i Hi) as Hadr.
  destruct Hch as (Hn & Hi' & e & He & Hch). rewrite Hn.
  destruct (Z.eqb_spec i no_entry); [unfold no_entry in *; lia|]. run. rewrite pa_assert_true by (apply Z.ltb_lt; lia).
  rewrite (bind_done _ _ _ _ _ (entry_run s i e ltac:(lia) He)).
  rewrite pa_assert_true; last first.
  { destruct F as [|j F]; [by rewrite (Hch : e = no_entry)|]. destruct Hch as (-> & Hj & _). by rewrite link_entry, orb_true_r. }
  rewrite (bind_done _ _ _ _ _ (set_entry_run _ _ _ Hr i _ Hi)). run.
  eexists. split; [rewrite <- Hadr; done|]. split; [|done]. by apply rep_take.
Qed.

Lemma release_one_spec s F R i c :
  phys_rep s F R → R !! i = Some c →
  ∃ s', release_one (page_addr s i) s = Done (bool_decide (c = 1), s') ∧ same_pages s s'
    ∧ if bool_decide (c = 1) then phys_rep s' (i :: F) (delete i R) else phys_rep s' F (<[i := c - 1]> R).
Proof.
  intros Hr Hc. pose proof (used_range _ _ _ Hr i c Hc) as Hi. pose proof (pr_small _ _ _ Hr).
  destruct (pr_used _ _ _ Hr _ _ Hc) as (_ & Hc' & He). unfold release_one.
  rewrite (bind_done _ _ _ _ _ (index_run _ _ _ Hr i ltac:(lia))). run. rewrite pa_assert_true by (apply Z.ltb_lt; lia).
  rewrite (bind_done _ _ _ _ _ (entry_run s i _ ltac:(lia) He)). rewrite pa_assert_true by (apply used_entry; lia).
  change (Z.lor 1 used_mask) with (2 ^ 31 + 1). case_bool_decide as Hone.
  - subst c. rewrite Z.eqb_refl. run. rewrite (bind_done _ _ _ _ _ (set_entry_run _ _ _ Hr i _ Hi)). run. unwrap.
    eexists. split; [done|]. split; [done|]. apply rep_with_count, rep_give; [done..|].
    intros Hx. by rewrite (pr_apart _ _ _ Hr _ Hx) in Hc.
  - destruct (Z.eqb_spec (2 ^ 31 + c) (2 ^ 31 + 1)); [lia|]. unwrap.
    rewrite (bind_done _ _ _ _ _ (set_entry_run _ _ _ Hr i _ Hi)). eexists. split; [done|]. split; [done|].
    replace (2 ^ 31 + c - 1) with (2 ^ 31 + (c - 1)) by lia. eapply rep_recount; [done|done|lia].
Qed.

Lemma addref_spec s F R i c :
  phys_rep s F R → R !! i = Some c → c < 2 ^ 31 - 2 →
  ∃ s', addref (page_addr s i) s = Done (tt, s') ∧ phys_rep s' F (<[i := c + 1]> R) ∧ same_pages s s'.
Proof.
  intros Hr Hc Hlt. pose proof (used_range _ _ _ Hr i c Hc) as Hi. pose proof (pr_small _ _ _ Hr).
  destruct (pr_used _ _ _ Hr _ _ Hc) as (_ & Hc' & He). unfold addref.
  rewrite (bind_done _ _ _ _ _ (index_run _ _ _ Hr i ltac:(lia))). run. unwrap. rewrite pa_assert_true by (apply Z.ltb_lt; lia).
  rewrite (bind_done _ _ _ _ _ (entry_run s i _ ltac:(lia) He)). rewrite pa_assert_true by (apply used_entry; lia).
  unwrap. rewrite (set_entry_run _ _ _ Hr i _ Hi). eexists. split; [done|]. split; [|done].
  rewrite <- Z.add_assoc. eapply rep_recount; [done|done|lia].
Qed.
End view.

(** ** Many pages *)

(** The pages that [cb] takes of those it is offered in [n] rounds from
    [i] on; [None] when the last page of the chain comes up, whose entry the
    code takes for that of a page in use *)
Fixpoint offer (cb : Z → Z → bool) (addr : Z → Z) (n : nat) (i : Z) (F : list Z) : option (list Z) :=
  match n with
  | O => Some []
  | S n =>
      match F with
      | p :: ((_ :: _) as F') =>
          if cb i (addr p) then (p ::.) <$> offer cb addr n (i + 1) F' else offer cb addr n (i + 1) F
      | _ => None
      end
  end.

(** Each with one reference *)
Definition put_to_use (taken : list Z) (R : gmap Z Z) : gmap Z Z := foldl (λ R p, <[p := 1]> R) R taken.

Section many.
Implicit Types (s : phys) (F : list Z) (R : gmap Z Z).

Lemma offer_length cb addr n : ∀ i F taken, offer cb addr n i F = Some taken → (length taken ≤ n)%nat.
Proof.
  induction n as [|n IH]; intros i F taken Ho; cbn in Ho; [by simplify_eq|].
  destruct F as [|p [|q F]]; try done. destruct (cb i (addr p)).
  - apply fmap_Some in Ho as (t & Ho & ->). apply IH in Ho. simpl. lia.
  - apply IH in Ho. lia.
Qed.
Lemma offer_prefix cb addr n : ∀ i F taken, offer cb addr n i F = Some taken → taken = take (length taken) F.
Proof.
  induction n as [|n IH]; intros i F taken Ho; cbn in Ho; [by simplify_eq|].
  destruct F as [|p [|q F]]; try done. destruct (cb i (addr p)); [|by eapply IH].
  apply fmap_Some in Ho as (t & Ho & ->). apply IH in Ho. simpl in *. by f_equal.
Qed.
(** With a page to spare the chain does not run out. *)
Lemma offer_enough cb addr n : ∀ i F, (n < length F)%nat → is_Some (offer cb addr n i F).
Proof.
  induction n as [|n IH]; intros i F Hn; cbn; [eauto|].
  destruct F as [|p [|q F]]; simpl in *; try lia. destruct (cb i (addr p)).
  - destruct (IH (i + 1) (q :: F)) as [t ->]; [simpl; lia|]. eauto.
  - apply IH. simpl. lia.
Qed.

Lemma walk_chain_spec s F0 : ∀ n h F R,
  phys_rep s F0 R → chain (entries s) h F → (∀ i, i ∈ F → i ∈ F0) →
  walk_chain n h s = Done ((default no_entry (head (drop n F)), (n <=? length F)%nat), s).
Proof.
  induction n as [|n IH]; intros h F R Hr Hch Hin; cbn [walk_chain].
  { by rewrite (chain_head _ _ _ Hch). }
  destruct F as [|i F]; [by rewrite (Hch : h = no_entry)|]. pose proof (free_range _ _ _ Hr i (Hin i ltac:(by left))) as Hi.
  destruct Hch as (-> & Hi' & e & He & Hch). destruct (Z.eqb_spec i no_entry); [unfold no_entry in *; lia|].
  run. rewrite pa_assert_true by (apply Z.ltb_lt; lia). rewrite (bind_done _ _ _ _ _ (entry_run s i e ltac:(lia) He)).
  rewrite pa_assert_true; last first.
  { destruct F as [|j F]; [by rewrite (Hch : e = no_entry)|]. destruct Hch as (-> & Hj & _). by rewrite link_entry, orb_true_r. }
  rewrite (IH e F R); [done|done|done|]. intros j Hj. apply Hin. by right.
Qed.

(** [first] heads the chain, whatever [next_free] is meanwhile. *)
Lemma offer_pages_spec cb n : ∀ s F R i u first,
  phys_rep (with_next first s) F R → F ≠ [] →
  match offer cb (page_addr s) n i F with
  | None => offer_pages cb n i first u s = Fault AssertFailed
  | Some taken => ∃ s',
      offer_pages cb n i first u s = Done ((default no_entry (head (drop (length taken) F)), u + Z.of_nat (length taken)), s')
      ∧ phys_rep (with_next (default no_entry (head (drop (length taken) F))) s') (drop (length taken) F) (put_to_use taken R)
      ∧ same_pages s s' ∧ next_free s' = next_free s ∧ free_page_count s' = free_page_count s
  end.
Proof.
  induction n as [|n IH]; intros s F R i u first Hr Hne; cbn [offer offer_pages].
  { exists s. rewrite Z.add_0_r. pose proof (pr_chain _ _ _ Hr) as Hch%chain_head. cbn in Hch. subst first. by cbn. }
  pose proof (pr_chain _ _ _ Hr) as Hch. destruct F as [|p F]; [done|].
  pose proof (free_range _ _ _ Hr p ltac:(by left)) as Hp. destruct Hch as (Hf & Hp' & e & He & Hch). cbn in Hf, Hp, He, Hch. subst first.
  assert (entry p s = Done (e, s)) as Hent by (apply entry_run; [lia|done]). rewrite (bind_done _ _ _ _ _ Hent).
  destruct F as [|q F]; [by rewrite (Hch : e = no_entry)|]. destruct Hch as (-> & Hq & Hch).
  rewrite pa_assert_true by (by rewrite link_entry). run. pose proof (addr_run _ _ _ Hr p Hp) as Hadr.
  change (addr_from_index (with_next p s) p) with (addr_from_index s p) in Hadr.
  change (page_addr (with_next p s) p) with (page_addr s p) in Hadr. rewrite Hadr.
  destruct (cb i (page_addr s p)).
  - assert (set_entry p (Z.lor 1 used_mask) s = Done (tt, with_entries (<[Z.to_nat p := 2 ^ 31 + 1]> (entries s)) s)) as Hset.
    { unfold set_entry. rewrite (pr_len _ _ _ Hr : Z.of_nat (length (entries s)) = _). cbn [highest_usable with_next].
      destruct (Z.ltb_spec p 0), (Z.leb_spec (highest_usable s) p); cbn; try lia; done. }
    rewrite (bind_done _ _ _ _ _ Hset). set (s1 := with_entries _ s).
    pose proof (rep_take _ _ _ _ _ Hr He) as Hr1.
    specialize (IH s1 (q :: F) (<[p := 1]> R) (i + 1) (u + 1) q Hr1 ltac:(done)).
    change (page_addr s1) with (page_addr s) in IH.
    destruct (offer cb (page_addr s) n (i + 1) (q :: F)) as [taken|]; cbn [fmap option_fmap option_map]; [|done].
    destruct IH as (s' & Hrun & Hrep & Hsame & Hnx & Hcnt). exists s'. cbn [length drop]. split_and!; try done.
    rewrite Hrun. do 3 f_equal. lia.
  - apply (IH s (p :: q :: F) R (i + 1) u p); [done|done].
Qed.

Lemma take_pages_spec s F R n :
  phys_rep s F R → 0 ≤ n →
  match F with
  | [] => take_pages n s = Fault AssertFailed
  | p :: _ =>
      take_pages n s = if (Z.to_nat n <=? length F)%nat
        then Done (Some p, with_count (u32 (free_page_count s - n)) (with_next (default no_entry (head (drop (Z.to_nat n) F))) s))
        else Done (None, s)
  end.
Proof.
  intros Hr Hn. unfold take_pages. run. pose proof (pr_chain _ _ _ Hr) as Hch. destruct F as [|p F].
  { by rewrite (Hch : next_free s = no_entry). }
  pose proof Hch as (Hp & Hp' & _). rewrite Hp in *. rewrite pa_assert_true by (by rewrite link_entry).
  rewrite (bind_done _ _ _ _ _ (walk_chain_spec s (p :: F) _ _ _ _ Hr Hch (λ _ H, H))).
  by destruct (Z.to_nat n <=? length (p :: F))%nat.
Qed.

(** alloc_multiple, whatever the callback takes *)
Lemma alloc_multiple_spec cb s F R n :
  phys_rep s F R → 0 < n → n * 2 ^ log2_pagesz s < 2 ^ 64 →
  let out := alloc_multiple cb (n * 2 ^ log2_pagesz s) s in
  if decide (F = []) then out = Fault AssertFailed
  else if decide (Z.of_nat (length F) < n) then out = Done (false, s)
  else match offer cb (page_addr s) (Z.to_nat n) 0 F with
       | None => out = Fault AssertFailed
       | Some taken => ∃ s', out = Done (true, s')
           ∧ phys_rep s' (drop (length taken) F) (put_to_use taken R) ∧ same_pages s s'
       end.
Proof.
  intros Hr Hn Hsz out. unfold out, alloc_multiple. destruct (pr_geometry _ _ _ Hr) as (_ & Hl & _). run.
  pose proof (Z.pow_pos_nonneg 2 (log2_pagesz s)) as Hpow.
  rewrite pa_assert_true by (rewrite land_low_mask by lia; by rewrite Z.mod_mul by lia).
  rewrite Z.shiftr_div_pow2, Z.div_mul by lia. destruct (Z.eqb_spec n 0); [lia|].
  pose proof (take_pages_spec s F R n Hr ltac:(lia)) as Htake. destruct F as [|p F].
  { rewrite decide_True by done. by rewrite (bind_fault _ _ _ _ Htake). }
  rewrite decide_False by done. remember (p :: F) as F0 eqn:EF. destruct (Nat.leb_spec (Z.to_nat n) (length F0)) as [Hle|Hgt].
  - rewrite decide_False by lia. rewrite (bind_done _ _ _ _ _ Htake). cbn [mbind].
    set (s1 := with_count _ (with_next _ s)).
    assert (phys_rep (with_next p s1) F0 R) as Hr1.
    { unfold s1. replace p with (next_free s); [|subst F0; apply (pr_chain _ _ _ Hr)]. destruct s; by apply (rep_with_count _ _ _ _ Hr). }
    pose proof (offer_pages_spec cb (Z.to_nat n) s1 F0 R 0 0 p Hr1 ltac:(by subst)) as Hof.
    change (page_addr s1) with (page_addr s) in Hof.
    destruct (offer cb (page_addr s) (Z.to_nat n) 0 F0) as [taken|] eqn:Eo; [|by rewrite (bind_fault _ _ _ _ Hof)].
    destruct Hof as (s2 & Hrun & Hr2 & Hsame & Hnx & _). rewrite (bind_done _ _ _ _ _ Hrun).
    pose proof (offer_length _ _ _ _ _ _ Eo) as Hlen. unfold put_back. destruct (Z.eqb_spec (0 + Z.of_nat (length taken)) n) as [Heq|Hne].
    + run. exists s2. split_and!; try done. unfold s1 in Hnx. cbn [with_count with_next next_free] in Hnx.
      replace (Z.to_nat n) with (length taken) in Hnx by lia. rewrite <- Hnx in Hr2. by destruct s2.
    + run. eexists. split; [done|]. split; [|done]. eapply (rep_with_count _ _ _ _ Hr2).
  - rewrite decide_True by lia. by rewrite (bind_done _ _ _ _ _ Htake).
Qed.
End many.

(** ** Adding memory *)

Section adding.
Implicit Types (s : phys) (F : list Z) (R : gmap Z Z).

Lemma add_loop_spec R i0 n : ∀ fuel s F,
  phys_rep s F R → 0 ≤ i0 → i0 + Z.of_nat n ≤ highest_usable s → (n < fuel)%nat →
  (∀ i, i0 ≤ i < i0 + Z.of_nat n → i ∉ F ∧ R !! i = None) →
  ∃ s', add_loop fuel (u32 (u64 (i0 + Z.of_nat n - 1))) (Z.of_nat n * 2 ^ log2_pagesz s) (2 ^ log2_pagesz s) s = Done (tt, s')
    ∧ phys_rep s' (seqZ i0 (Z.of_nat n) ++ F) R ∧ same_pages s s'.
Proof.
  induction n as [|n IH]; intros [|fuel] s F Hr Hi0 Hhi Hfu Hnew; try lia; cbn [add_loop].
  { exists s. by rewrite Z.mul_0_l. }
  pose proof (pr_small _ _ _ Hr). destruct (pr_geometry _ _ _ Hr) as (Hb & Hl & Hg).
  pose proof (Z.pow_pos_nonneg 2 (log2_pagesz s) ltac:(lia) Hl) as Hpow. unwrap.
  destruct (Z.eqb_spec (Z.of_nat (S n) * 2 ^ log2_pagesz s) 0); [nia|]. run.
  set (i := i0 + Z.of_nat (S n) - 1). rewrite pa_assert_true by (apply Z.ltb_lt; lia).
  destruct (Hnew i ltac:(lia)) as [HiF HiR].
  rewrite (bind_done _ _ _ _ _ (entry_run s i no_entry ltac:(lia) (pr_rest _ _ _ Hr i ltac:(lia) HiF HiR))).
  rewrite pa_assert_true by done. run. rewrite (bind_done _ _ _ _ _ (set_entry_run _ _ _ Hr i _ ltac:(lia))). run.
  set (s1 := with_count _ _). assert (phys_rep s1 (i :: F) R) as Hr1.
  { apply rep_with_count. rewrite <- (delete_id R i HiR) at 1. apply rep_give; [done|lia|done]. }
  replace (u32 (i - 1)) with (u32 (u64 (i0 + Z.of_nat n - 1))); last first.
  { destruct (decide (i0 + Z.of_nat n = 0)) as [H0|H0]; [by replace (i - 1) with (-1) by lia; rewrite H0|]. unfold i. unwrap. lia. }
  replace (u64 (Z.of_nat (S n) * 2 ^ log2_pagesz s - 2 ^ log2_pagesz s)) with (Z.of_nat n * 2 ^ log2_pagesz s); last first.
  { rewrite u64_small; [lia|]. nia. }
  destruct (IH fuel s1 (i :: F) Hr1 Hi0) as (s' & Hrun & Hr' & Hsame); [cbn; lia|lia| |].
  { intros j Hj. destruct (Hnew j ltac:(lia)). split; [|done]. apply not_elem_of_cons. split; [lia|done]. }
  exists s'. split; [exact Hrun|]. split; [|done]. replace (seqZ i0 (Z.of_nat (S n)) ++ F) with (seqZ i0 (Z.of_nat n) ++ i :: F); [done|].
  rewrite Nat2Z.inj_succ, <- Z.add_1_r, seqZ_app by lia. rewrite <- app_assoc.
  by replace i with (i0 + Z.of_nat n) by (unfold i; lia).
Qed.

Lemma add_free_space_spec s F R i0 n :
  phys_rep s F R → 0 ≤ i0 → 0 ≤ n → i0 + n ≤ highest_usable s →
  (∀ i, i0 ≤ i < i0 + n → i ∉ F ∧ R !! i = None) →
  ∃ s', add_free_space (page_addr s i0) (n * 2 ^ log2_pagesz s) s = Done (tt, s')
    ∧ phys_rep s' (seqZ i0 n ++ F) R ∧ same_pages s s'.
Proof.
  intros Hr Hi0 Hn Hhi Hnew. unfold add_free_space. run.
  replace (u64 (page_addr s i0 + n * 2 ^ log2_pagesz s)) with (page_addr s (i0 + n)); last first.
  { destruct (page_range _ _ _ Hr (i0 + n) ltac:(lia)) as [H0 H1]. unfold page_addr in *. rewrite u64_small; [lia|].
    destruct (pr_geometry _ _ _ Hr) as (Hb & _). nia. }
  rewrite (bind_done _ _ _ _ _ (index_run _ _ _ Hr (i0 + n) ltac:(lia))). run.
  pose proof (pr_len _ _ _ Hr). rewrite <- (Z2Nat.id n) by lia.
  apply add_loop_spec; [done|done|lia|lia|]. intros i Hi. apply Hnew. lia.
Qed.

Lemma init_rep b hi sz :
  0 ≤ hi ≤ 2 ^ 31 → 0 ≤ b → 0 ≤ sz → b + hi * 2 ^ sz < 2 ^ 64 → phys_rep (phys_init b hi sz) [] ∅.
Proof.
  intros Hhi Hb Hsz Hg. split; cbn; try done; try lia.
  - rewrite length_replicate. lia.
  - constructor.
  - intros i Hi _ _. apply lookup_replicate_2. lia.
Qed.
End adding.

(** ** Batches *)

(** References to page [i]; none when it is not in use *)
Definition refs (R : gmap Z Z) (i : Z) : Z := default 0 (R !! i).
Definition occurs (i : Z) (l : list Z) : Z := Z.of_nat (length (filter (i =.) l)).

(** [l] was released: as many references are gone, and pages without any are
    free *)
Record released (l F : list Z) (R : gmap Z Z) (F' : list Z) (R' : gmap Z Z) : Prop := Released {
  rd_refs : ∀ i, refs R' i = refs R i - occurs i l;
  rd_free : ∀ i, i ∈ F' ↔ i ∈ F ∨ (0 < refs R i ∧ refs R' i = 0)
}.

Section batches.
Implicit Types (s : phys) (F : list Z) (R : gmap Z Z).

Lemma occurs_cons i j l : occurs i (j :: l) = (if decide (i = j) then 1 else 0) + occurs i l.
Proof. unfold occurs. rewrite filter_cons. destruct (decide (i = j)); simpl; lia. Qed.
Lemma occurs_app i l1 l2 : occurs i (l1 ++ l2) = occurs i l1 + occurs i l2.
Proof. unfold occurs. rewrite filter_app, length_app. lia. Qed.
Lemma occurs_perm i l1 l2 : l1 ≡ₚ l2 → occurs i l1 = occurs i l2.
Proof. intros Hp. unfold occurs. by rewrite Hp. Qed.
Lemma occurs_nonneg i l : 0 ≤ occurs i l.
Proof. unfold occurs. lia. Qed.

Lemma refs_pos s F R i : phys_rep s F R → 0 < refs R i → R !! i = Some (refs R i).
Proof. intros _. unfold refs. destruct (R !! i); simpl; [done|lia]. Qed.
Lemma refs_nonneg s F R i : phys_rep s F R → 0 ≤ refs R i.
Proof. intros Hr. unfold refs. destruct (R !! i) as [c|] eqn:E; simpl; [|lia]. destruct (pr_used _ _ _ Hr _ _ E). lia. Qed.

Lemma released_nil F R : released [] F R F R.
Proof. split; [intros i; unfold occurs; simpl; lia|]. intros i. split; [auto|]. intros [?|?]; [done|lia]. Qed.
Lemma released_trans l1 l2 F R F1 R1 F2 R2 :
  (∀ i, 0 ≤ refs R2 i) →
  released l1 F R F1 R1 → released l2 F1 R1 F2 R2 → released (l1 ++ l2) F R F2 R2.
Proof.
  intros Hpos [Hr1 Hf1] [Hr2 Hf2]. split; intros i.
  - rewrite Hr2, Hr1, occurs_app. lia.
  - rewrite Hf2, Hf1. specialize (Hpos i). pose proof (occurs_nonneg i l1). pose proof (occurs_nonneg i l2).
    rewrite Hr2 in *. rewrite Hr1 in *. split; [|destruct (decide (refs R i - occurs i l1 = 0)); intros [?|?]; auto; lia].
    intros [[?|?]|?]; auto; right; lia.
Qed.

Lemma released_one s F R i c : phys_rep s F R → R !! i = Some c →
  if decide (c = 1) then released [i] F R (i :: F) (delete i R) else released [i] F R F (<[i := c - 1]> R).
Proof.
  intros Hr Hc. destruct (pr_used _ _ _ Hr _ _ Hc) as (_ & Hc1 & _). destruct (decide (c = 1)) as [->|Hne].
  - split; intros j; rewrite ?occurs_cons; unfold refs, occurs; cbn; destruct (decide (j = i)) as [->|Hj].
    + rewrite lookup_delete_eq, Hc. done.
    + rewrite lookup_delete_ne by done. lia.
    + rewrite lookup_delete_eq, Hc. cbn. split; [right; lia|intros; by left].
    + rewrite lookup_delete_ne by done. rewrite elem_of_cons. split; [intros [?|?]; auto; done|intros [?|?]; [auto|lia]].
  - split; intros j; rewrite ?occurs_cons; unfold refs, occurs; cbn; destruct (decide (j = i)) as [->|Hj].
    + rewrite lookup_insert_eq, Hc. cbn. lia.
    + rewrite lookup_insert_ne by done. lia.
    + rewrite lookup_insert_eq, Hc. cbn. split; [auto|intros [?|?]; [done|lia]].
    + rewrite lookup_insert_ne by done. split; [auto|intros [?|?]; [done|lia]].
Qed.

Lemma release_all_spec l : ∀ s F R,
  phys_rep s F R → (∀ i, occurs i l ≤ refs R i) →
  ∃ s' F' R', release_all (page_addr s <$> l) s = Done (tt, s') ∧ phys_rep s' F' R' ∧ same_pages s s' ∧ released l F R F' R'.
Proof.
  induction l as [|i l IH]; intros s F R Hr Hle; cbn [release_all fmap list_fmap].
  { exists s, F, R. split_and!; try done. apply released_nil. }
  assert (0 < refs R i) as Hpos by (specialize (Hle i); rewrite occurs_cons, decide_True in Hle by done; pose proof (occurs_nonneg i l); lia).
  pose proof (refs_pos s F R i Hr Hpos) as Hc.
  destruct (release_one_spec s F R i _ Hr Hc) as (s1 & Hrun & Hsame & Hr1). rewrite (bind_done _ _ _ _ _ Hrun).
  pose proof (released_one s F R i _ Hr Hc) as Hrel.
  assert (∃ F1 R1, phys_rep s1 F1 R1 ∧ released [i] F R F1 R1) as (F1 & R1 & Hr1' & Hrel').
  { case_bool_decide; [rewrite decide_True in Hrel by done|rewrite decide_False in Hrel by done]; eauto. }
  destruct (IH s1 F1 R1 Hr1') as (s' & F' & R' & Hrun' & Hr' & Hsame' & Hrel2).
  { intros j. rewrite (rd_refs _ _ _ _ _ Hrel'). specialize (Hle j). rewrite occurs_cons in *. unfold occurs at 2. simpl. lia. }
  exists s', F', R'. split_and!; [|done|by etrans|].
  - rewrite <- Hrun'. f_equal. apply list_fmap_ext. intros _ j _. symmetry. by apply page_addr_same.
  - eapply (released_trans [i] l); [|exact Hrel'|exact Hrel2]. intros j. by eapply refs_nonneg.
Qed.

Lemma released_perm l l' F R F' R' : l ≡ₚ l' → released l F R F' R' → released l' F R F' R'.
Proof. intros Hp [H1 H2]. split; [|done]. intros i. by rewrite H1, (occurs_perm i l l'). Qed.

Lemma flush_spec l s F R :
  phys_rep s F R → (∀ i, occurs i l ≤ refs R i) →
  ∃ s' F' R', flush (page_addr s <$> l) s = Done ([], s') ∧ phys_rep s' F' R' ∧ same_pages s s' ∧ released l F R F' R'.
Proof.
  intros Hr Hle. unfold flush.
  assert (∀ l', l' ≡ₚ l → ∃ s' F' R', release_all (page_addr s <$> l') s = Done (tt, s')
            ∧ phys_rep s' F' R' ∧ same_pages s s' ∧ released l F R F' R') as Hrel.
  { intros l' Hp. destruct (release_all_spec l' s F R Hr) as (s' & F' & R' & Hrun & Hr' & Hsame & Hrd).
    - intros i. by rewrite (occurs_perm i l' l Hp).
    - exists s', F', R'. split_and!; try done. by eapply released_perm. }
  assert (∃ l', l' ≡ₚ l ∧ match page_addr s <$> l with
     | a :: b :: _ => if b <? a then release_all (page_addr s <$> l) else release_all (rev (page_addr s <$> l))
     | _ => release_all (page_addr s <$> l) end = release_all (page_addr s <$> l')) as (l' & Hp & ->).
  { destruct l as [|a [|b l]]; cbn [fmap list_fmap]; [by exists []|by exists [a]|].
    destruct (page_addr s b <? page_addr s a); [by exists (a :: b :: l)|]. exists (rev (a :: b :: l)).
    split; [symmetry; apply Permutation_rev|]. f_equal. symmetry. apply (map_rev (page_addr s) (a :: b :: l)). }
  destruct (Hrel l' Hp) as (s' & F' & R' & Hrun & Hr' & Hsame & Hrd). rewrite (bind_done _ _ _ _ _ Hrun). by exists s', F', R'.
Qed.
End batches.
