(* ===== verification/PhysAllocSafe.v ===== *)
(** * Physical pages: the theorems *)

From stdpp Require Import base tactics list numbers option gmap sorting.
From S2P Require Import Prelude PhysAlloc.

#[local] Open Scope Z_scope.

Section theorems.
Implicit Types (s : phys) (F l B : list Z) (R : gmap Z Z).

(** Addresses that free_batch_t accepts: above 1MB and below the mask *)
Definition low_pages s : Prop :=
  0x100000 ≤ begin_ s ∧ begin_ s + highest_usable s * 2 ^ log2_pagesz s ≤ PTE_ADDR.

Lemma low_same s s' : same_pages s s' → low_pages s → low_pages s'.
Proof. intros (Hb & Hl & Hh). unfold low_pages. by rewrite Hb, Hl, Hh. Qed.
Lemma addrs_same s s' l : same_pages s s' → page_addr s' <$> l = page_addr s <$> l.
Proof. intros Hs. apply list_fmap_ext. intros _ j _. by apply page_addr_same. Qed.

Lemma batch_free_spec s F R B i :
  phys_rep s F R → low_pages s → (length B ≤ batch_max)%nat → (∀ j, occurs j (B ++ [i]) ≤ refs R j) →
  ∃ s' F' R' B' D, batch_free (page_addr s i) (page_addr s <$> B) s = Done (page_addr s <$> B', s')
    ∧ B ++ [i] ≡ₚ D ++ B' ∧ (length B' ≤ batch_max)%nat ∧ phys_rep s' F' R' ∧ same_pages s s' ∧ released D F R F' R'.
Proof.
  intros Hr [Hlo Hhi] HB Hle.
  assert (0 < refs R i) as Hpos.
  { specialize (Hle i). rewrite occurs_app, occurs_cons, decide_True in Hle by done.
    pose proof (occurs_nonneg i B). pose proof (occurs_nonneg i []). lia. }
  pose proof (used_range _ _ _ Hr i _ (refs_pos s F R i Hr Hpos)) as Hi.
  destruct (pr_geometry _ _ _ Hr) as (_ & Hl & _). pose proof (Z.pow_pos_nonneg 2 (log2_pagesz s) ltac:(lia) Hl) as Hpow.
  assert (0x100000 ≤ page_addr s i < PTE_ADDR) as Ha by (unfold page_addr; nia). unfold batch_free.
  assert (PTE_ADDR < 0x0010000000000000) as Hm by (unfold PTE_ADDR; vm_compute; done).
  destruct (Z.eqb_spec (page_addr s i) 0), (Z.eqb_spec (page_addr s i) PTE_ADDR); try lia. cbn [orb].
  rewrite !pa_assert_true by (apply Z.leb_le || apply Z.ltb_lt; lia). rewrite length_fmap.
  destruct (Nat.eqb_spec (length B) batch_max) as [Heq|Hne].
  - destruct (flush_spec B s F R Hr) as (s' & F' & R' & Hrun & Hr' & Hsame & Hrd).
    { intros j. specialize (Hle j). rewrite occurs_app in Hle. pose proof (occurs_nonneg j [i]). lia. }
    rewrite (bind_done _ _ _ _ _ Hrun). exists s', F', R', [i], B. split_and!; try done. unfold batch_max. simpl. lia.
  - rewrite bind_mret. exists s, F, R, (B ++ [i]), []. rewrite fmap_app. split_and!; try done.
    + rewrite length_app. simpl. unfold batch_max in *. lia.
    + apply released_nil.
Qed.

Lemma batch_frees_spec l : ∀ s F R B,
  phys_rep s F R → low_pages s → (length B ≤ batch_max)%nat → (∀ j, occurs j (B ++ l) ≤ refs R j) →
  ∃ s' F' R' B' D, batch_frees (page_addr s <$> l) (page_addr s <$> B) s = Done (page_addr s <$> B', s')
    ∧ B ++ l ≡ₚ D ++ B' ∧ phys_rep s' F' R' ∧ same_pages s s' ∧ released D F R F' R'.
Proof.
  induction l as [|i l IH]; intros s F R B Hr Hlow HB Hle; cbn [batch_frees fmap list_fmap].
  { exists s, F, R, B, []. rewrite app_nil_r. split_and!; try done. apply released_nil. }
  destruct (batch_free_spec s F R B i Hr Hlow HB) as (s1 & F1 & R1 & B1 & D1 & Hrun1 & Hp1 & HB1 & Hr1 & Hs1 & Hd1).
  { intros j. specialize (Hle j). rewrite !occurs_app, occurs_cons in *. unfold occurs at 2. pose proof (occurs_nonneg j l). simpl. lia. }
  rewrite (bind_done _ _ _ _ _ Hrun1), <- (addrs_same _ _ l Hs1), <- (addrs_same _ _ B1 Hs1).
  assert (B ++ i :: l ≡ₚ D1 ++ B1 ++ l) as Hp by (by rewrite app_assoc, <- Hp1, <- app_assoc).
  destruct (IH s1 F1 R1 B1 Hr1 (low_same _ _ Hs1 Hlow) HB1) as (s' & F' & R' & B' & D' & Hrun & Hp' & Hr' & Hs' & Hd').
  { intros j. rewrite (rd_refs _ _ _ _ _ Hd1). specialize (Hle j). rewrite (occurs_perm _ _ _ Hp), occurs_app in Hle. lia. }
  exists s', F', R', B', (D1 ++ D'). rewrite Hrun, (addrs_same _ _ B' Hs1). split_and!; [done| |done|by etrans|].
  - by rewrite Hp, Hp', app_assoc.
  - eapply released_trans; [|exact Hd1|exact Hd']. intros j. by eapply refs_nonneg.
Qed.

(** Pages given to a free_batch_t, in any number and order, are each
    released once for each time they were given, whenever the batch fills up
    or ends, and pages without references left are free again. *)
Theorem free_batch_releases_all s F R l :
  phys_rep s F R → low_pages s → (∀ i, occurs i l ≤ refs R i) →
  ∃ s' F' R', free_all (page_addr s <$> l) s = Done (tt, s') ∧ phys_rep s' F' R' ∧ released l F R F' R'.
Proof.
  intros Hr Hlow Hle. unfold free_all.
  destruct (batch_frees_spec l s F R [] Hr Hlow) as (s1 & F1 & R1 & B & D & Hrun & Hp & Hr1 & Hs1 & Hd1); [unfold batch_max; simpl; lia|done|].
  cbn [fmap list_fmap] in Hrun. rewrite (bind_done _ _ _ _ _ Hrun). cbn [app] in Hp.
  assert (∀ j, occurs j B ≤ refs R1 j) as HleB.
  { intros j. rewrite (rd_refs _ _ _ _ _ Hd1). specialize (Hle j). rewrite (occurs_perm _ _ _ Hp), occurs_app in Hle. lia. }
  destruct (flush_spec B s1 F1 R1 Hr1 HleB) as (s2 & F2 & R2 & Hrun2 & Hr2 & Hs2 & Hd2).
  rewrite (addrs_same _ _ _ Hs1) in Hrun2.
  assert (released l F R F2 R2) as Hrel.
  { eapply released_perm; [symmetry; exact Hp|]. eapply released_trans; [|exact Hd1|exact Hd2]. intros j. by eapply refs_nonneg. }
  destruct B as [|b B]; cbn [fmap list_fmap] in *.
  - exists s1, F1, R1. split_and!; try done. eapply released_perm; [symmetry; exact Hp|]. by rewrite app_nil_r.
  - rewrite (bind_done _ _ _ _ _ Hrun2). by exists s2, F2, R2.
Qed.

(** Alloc_one hands out the page at the head of the chain, with one
    reference, or 0 when no page is free; release_one takes one reference off
    and puts the page on the chain with the last one; addref adds one. *)
Theorem phys_one_page_correct s F R :
  phys_rep s F R →
  match F with
  | [] => alloc_one s = Done (0, s)
  | i :: F' => ∃ s', alloc_one s = Done (page_addr s i, s') ∧ phys_rep s' F' (<[i := 1]> R)
  end
  ∧ (∀ i c, R !! i = Some c → ∃ s', release_one (page_addr s i) s = Done (bool_decide (c = 1), s')
      ∧ if bool_decide (c = 1) then phys_rep s' (i :: F) (delete i R) else phys_rep s' F (<[i := c - 1]> R))
  ∧ (∀ i c, R !! i = Some c → c < 2 ^ 31 - 2 → ∃ s', addref (page_addr s i) s = Done (tt, s') ∧ phys_rep s' F (<[i := c + 1]> R)).
Proof.
  intros Hr. split_and!.
  - pose proof (alloc_one_spec s F R Hr) as Ha. destruct F; [done|]. destruct Ha as (s' & H1 & H2 & _). eauto.
  - intros i c Hc. destruct (release_one_spec s F R i c Hr Hc) as (s' & H1 & _ & H2). eauto.
  - intros i c Hc Hlt. destruct (addref_spec s F R i c Hr Hc Hlt) as (s' & H1 & H2 & _). eauto.
Qed.


(** With a page to spare and a callback that takes all, the first [n] pages
    of the chain are put to use. *)
Lemma offer_all_taken addr n : ∀ i F, (n < length F)%nat → offer (λ _ _, true) addr n i F = Some (take n F).
Proof.
  induction n as [|n IH]; intros i F Hn; [done|]. destruct F as [|p [|q F]]; simpl in Hn; try lia.
  cbn [offer]. rewrite IH by (simpl; lia). done.
Qed.

(** ** Any sequence of calls *)

(** [reach s R P]: [s] is the state after calls that release only what they
    hold; [R] is what they hold, and [P] the pages added so far. *)
Inductive reach (b hi sz : Z) : phys → gmap Z Z → gset Z → Prop :=
  | reach_init : reach b hi sz (phys_init b hi sz) ∅ ∅
  | reach_add s R P i0 n s' :
      reach b hi sz s R P → 0 ≤ i0 → 0 ≤ n → i0 + n ≤ hi → (∀ i, i0 ≤ i < i0 + n → i ∉ P) →
      add_free_space (page_addr s i0) (n * 2 ^ log2_pagesz s) s = Done (tt, s') →
      reach b hi sz s' R (P ∪ list_to_set (seqZ i0 n))
  | reach_alloc s R P i s' :
      reach b hi sz s R P → 0 ≤ i < hi → page_addr s i ≠ 0 → alloc_one s = Done (page_addr s i, s') →
      reach b hi sz s' (<[i := 1]> R) P
  | reach_addref s R P i c s' :
      reach b hi sz s R P → R !! i = Some c → c < 2 ^ 31 - 2 → addref (page_addr s i) s = Done (tt, s') →
      reach b hi sz s' (<[i := c + 1]> R) P
  | reach_release s R P i c freed s' :
      reach b hi sz s R P → R !! i = Some c → release_one (page_addr s i) s = Done (freed, s') →
      reach b hi sz s' (if (freed : bool) then delete i R else <[i := c - 1]> R) P.

Lemma page_addr_inj s F R i j : phys_rep s F R → page_addr s i = page_addr s j → i = j.
Proof.
  intros Hr Heq. destruct (pr_geometry _ _ _ Hr) as (_ & Hl & _).
  pose proof (Z.pow_pos_nonneg 2 (log2_pagesz s) ltac:(lia) Hl) as Hpow. unfold page_addr in Heq. nia.
Qed.

(** What every state has: a chain, together with the pages held exactly the
    pages added *)
Definition conserved hi s R (P : gset Z) : Prop :=
  ∃ F, phys_rep s F R ∧ highest_usable s = hi ∧ ∀ i, i ∈ P ↔ i ∈ F ∨ is_Some (R !! i).

Lemma reach_conserved b hi sz s R P :
  0 ≤ hi ≤ 2 ^ 31 → 0 ≤ b → 0 ≤ sz → b + hi * 2 ^ sz < 2 ^ 64 → reach b hi sz s R P → conserved hi s R P.
Proof.
  intros Hhi Hb Hsz Hg. induction 1 as [|s R P i0 n s' _ (F & Hr & Hh & HP) Hi0 Hn Hle Hnew Hrun|s R P i s' _ (F & Hr & Hh & HP) Hi Hnz Hrun
    |s R P i c s' _ (F & Hr & Hh & HP) Hc Hlt Hrun|s R P i c freed s' _ (F & Hr & Hh & HP) Hc Hrun].
  - exists []. split_and!; [by apply init_rep|done|]. intros i. rewrite lookup_empty, elem_of_nil. split; [set_solver|].
    by intros [?|[? ?]].
  - destruct (add_free_space_spec s F R i0 n Hr Hi0 Hn ltac:(lia)) as (s2 & Hrun2 & Hr2 & _ & _ & Hh2).
    { intros i Hi. specialize (Hnew i Hi). rewrite HP in Hnew. split; [tauto|]. destruct (R !! i) eqn:E; [|done]. destruct Hnew. eauto. }
    assert (s2 = s') as -> by congruence. exists (seqZ i0 n ++ F). split_and!; [done|congruence|].
    intros i. rewrite elem_of_union, elem_of_list_to_set, elem_of_app, HP. tauto.
  - pose proof (alloc_one_spec s F R Hr) as Ha. destruct F as [|j F].
    { rewrite Ha in Hrun. injection Hrun as Hz _. congruence. }
    destruct Ha as (s2 & Hrun2 & Hr2 & _ & _ & Hh2). rewrite Hrun2 in Hrun. injection Hrun as Haddr ->.
    apply (page_addr_inj _ _ _ _ _ Hr) in Haddr as ->. exists F. split_and!; [done|congruence|].
    intros k. rewrite HP, elem_of_cons, lookup_insert_is_Some'. naive_solver.
  - destruct (addref_spec s F R i c Hr Hc Hlt) as (s2 & Hrun2 & Hr2 & _ & _ & Hh2). assert (s2 = s') as -> by congruence.
    exists F. split_and!; [done|congruence|]. intros k. rewrite HP, lookup_insert_is_Some'.
    split; [naive_solver|]. intros [?|[<-|?]]; eauto.
  - destruct (release_one_spec s F R i c Hr Hc) as (s2 & Hrun2 & (_ & _ & Hh2) & Hr2). rewrite Hrun2 in Hrun.
    injection Hrun as <- ->. case_bool_decide as Hone.
    + exists (i :: F). split_and!; [done|congruence|]. intros k. rewrite HP, elem_of_cons, lookup_delete_is_Some.
      split; [|naive_solver]. intros [?|?]; [auto|]. destruct (decide (i = k)); auto.
    + exists F. split_and!; [done|congruence|]. intros k. rewrite HP, lookup_insert_is_Some'.
      split; [naive_solver|]. intros [?|[<-|?]]; eauto.
Qed.

End theorems.

(** * Physical pages: concrete runs *)

(** ** The self-check *)

Lemma count_chain_spec s es h F n fuel :
  entries s = es → chain es h F → (length F < fuel)%nat →
  count_chain fuel h n s = Done (n + Z.of_nat (length F), s).
Proof.
  intros Hes. revert h n fuel. induction F as [|i F IH]; intros h n [|fuel] Hch Hfu; try (simpl in Hfu; lia); cbn [count_chain].
  { rewrite (Hch : h = no_entry). cbn. by rewrite Z.add_0_r. }
  destruct Hch as (-> & Hi & e & He & Hch). destruct (Z.eqb_spec i no_entry); [unfold no_entry in *; lia|].
  subst es. rewrite (bind_done _ _ _ _ _ (entry_run s i e ltac:(lia) He)). rewrite IH; [|done|simpl in Hfu; lia].
  do 2 f_equal. simpl. lia.
Qed.

(** validate accepts exactly the states whose count of free pages is right. *)
Lemma validate_spec s F R :
  phys_rep s F R →
  validate s = if free_page_count s =? Z.of_nat (length F) then Done (tt, s) else Fault AssertFailed.
Proof.
  intros Hr. unfold validate. run. pose proof (pr_chain _ _ _ Hr) as Hch.
  assert (length F ≤ length (entries s))%nat as Hlen.
  { pose proof (pr_len _ _ _ Hr) as Hl. assert (length (Z.to_nat <$> F) ≤ length (seq 0 (length (entries s))))%nat as Hx.
    - apply submseteq_length, NoDup_submseteq.
      + apply (NoDup_fmap_2_strong Z.to_nat); [|apply Hr]. intros x y Hx Hy Heq.
        pose proof (free_range _ _ _ Hr x Hx). pose proof (free_range _ _ _ Hr y Hy). lia.
      + intros x (i & -> & Hi)%list_elem_of_fmap. apply elem_of_seq. pose proof (free_range _ _ _ Hr i Hi). lia.
    - by rewrite length_fmap, length_seq in Hx. }
  rewrite (bind_done _ _ _ _ _ (count_chain_spec s _ _ F 0 (S (length (entries s))) eq_refl Hch ltac:(lia))). run. rewrite Z.add_0_l.
  unfold kassert. by destruct (free_page_count s =? Z.of_nat (length F)).
Qed.

(** ** A small machine: pages 1 to 4 of 8 are memory *)

Definition new_machine : phys := phys_init 0x100000 8 12.
Definition machine : phys :=
  match add_free_space 0x101000 0x4000 new_machine with Done (_, s) => s | Fault _ => new_machine end.

Lemma machine_reach : reach 0x100000 8 12 machine ∅ (∅ ∪ list_to_set (seqZ 1 4)).
Proof.
  apply (reach_add _ _ _ new_machine ∅ ∅ 1 4); [apply reach_init|lia|lia|lia|set_solver|]. vm_compute. reflexivity.
Qed.
Lemma machine_rep : phys_rep machine [1; 2; 3; 4] ∅.
Proof.
  pose proof (init_rep 0x100000 8 12 ltac:(lia) ltac:(lia) ltac:(lia) ltac:(done)) as Hr.
  destruct (add_free_space_spec _ _ _ 1 4 Hr ltac:(lia) ltac:(lia) ltac:(done)) as (s' & Hrun & Hr' & _); [set_solver|].
  replace machine with s'; [exact Hr'|]. unfold machine. by rewrite (Hrun : add_free_space 0x101000 0x4000 new_machine = _).
Qed.


Lemma phys_one_page_witness : ∃ s', alloc_one machine = Done (page_addr machine 1, s') ∧ phys_rep s' [2; 3; 4] {[1 := 1]}.
Proof. apply (phys_one_page_correct machine [1; 2; 3; 4] ∅ machine_rep). Defined.

(** Two pages for a callback that takes every page but the second one it is
    offered: the second page stays free *)
Definition picky (i _ : Z) : bool := negb (i =? 1).

Lemma free_batch_witness : ∃ s s' F', alloc_one machine = Done (0x101000, s) ∧
  free_all [0x101000] s = Done (tt, s') ∧ phys_rep s' F' ∅.
Proof.
  destruct (alloc_one_spec machine [1; 2; 3; 4] ∅ machine_rep) as (s & Hal & Hr & Hsame).
  assert (low_pages s) as Hlow by (eapply low_same; [exact Hsame|]; split; vm_compute; done).
  destruct (free_batch_releases_all s [2; 3; 4] (<[1 := 1]> ∅) [1] Hr Hlow) as (s' & F' & R' & Hrun & Hr' & Hrd).
  { intros i. rewrite occurs_cons. unfold occurs, refs. cbn. destruct (decide (i = 1)) as [->|Hne]; [by rewrite lookup_insert_eq|].
    by rewrite lookup_insert_ne, lookup_empty by done. }
  assert (R' = ∅) as ->.
  { apply map_eq. intros i. rewrite lookup_empty. destruct (R' !! i) as [c|] eqn:E; [|done].
    pose proof (rd_refs _ _ _ _ _ Hrd i) as Hri. rewrite occurs_cons in Hri. unfold refs, occurs in Hri. rewrite E in Hri. cbn in Hri.
    destruct (pr_used _ _ _ Hr' _ _ E) as (_ & Hc & _). destruct (decide (i = 1)) as [->|Hne];
      [rewrite lookup_insert_eq in Hri|rewrite lookup_insert_ne, lookup_empty in Hri by done]; cbn in Hri; lia. }
  exists s, s', F'. split; [exact Hal|]. split; [|exact Hr'].
  rewrite (addrs_same _ _ _ Hsame) in Hrun. exact Hrun.
Defined.

(** ** Where the code departs from what it means to do *)

(** alloc_one does not count the page it takes: the self-check fails. *)
Lemma alloc_one_miscounts :
  validate machine = Done (tt, machine) ∧ (alloc_one;; validate) machine = Fault AssertFailed.
Proof. by vm_compute. Qed.

(** The last page of the chain cannot be had from alloc_multiple, and with no
    page left it stops at an assertion instead of returning false. *)
Lemma alloc_multiple_last_page :
  alloc_multiple (λ _ _, true) 0x4000 machine = Fault AssertFailed
  ∧ (alloc_one;; alloc_one;; alloc_one;; alloc_one;; alloc_multiple (λ _ _, true) 0x1000) machine = Fault AssertFailed.
Proof. by vm_compute. Qed.

(** Another thread takes a page while alloc_multiple is between its two
    critical sections: when the callback then refuses a page, the chain is
    set back to one that goes through the other thread's page. *)
Lemma alloc_multiple_race :
  (first ← take_pages 2;
   other ← alloc_one;                                       (* the other thread *)
   '(first, used) ← offer_pages picky 2 0 (default 0 first) 0;
   put_back 2 first used;;
   alloc_one;;
   alloc_one) machine = Fault AssertFailed.
Proof. by vm_compute. Qed.

(** A batch that is passed by value is flushed twice: the page is on the
    chain although someone else holds it. *)
Lemma batch_copy_releases_twice :
  match (a ← alloc_one; batch ← batch_free a []; flush batch;; b ← alloc_one; flush batch;; c ← alloc_one; mret (b, c)) machine with
  | Done ((b, c), _) => b = c
  | Fault _ => False
  end.
Proof. by vm_compute. Qed.

(** adjref_virtual_range drops the last reference without freeing the page. *)
Lemma adjref_leaks :
  match (a ← alloc_one; adjref_virtual_range (λ _, Z.lor a PTE_PRESENT) 0 0x1000 (-1);; e ← entry 1; nf ← gets next_free; mret (e, nf)) machine with
  | Done ((e, nf), _) => e = used_mask ∧ nf = 2
  | Fault _ => False
  end.
Proof. by vm_compute. Qed.
