(* ===== verification/Spinlock.v ===== *)
(** * kernel/lib/spinlock.cc: spinlocks, reader/writer locks, ticket locks and
    queue locks

    Any number of threads run the functions of the file, one access to shared
    memory at a time, in any interleaving.  [pc] types name the places
    between two accesses, with the local variables that are live there;
    [run] functions are the next access of a thread.  Where a function is
    called or has returned is a choice of the client: [call] relations.  A
    wait (cpu_wait_value) is a step that may leave the thread where it is.
    Accesses are sequentially consistent, as the atomics of the file are.
    [Fault] places are failed assertions and null pointers. *)

From stdpp Require Import base tactics list numbers option sets gmap relations.
From S2P Require Import Prelude.

#[local] Open Scope Z_scope.

(** ** Threads that share memory *)

Record sys (Sh Pc : Type) := Sys { shared : Sh; pcs : nat → Pc }.
Arguments Sys {Sh Pc}.
Arguments shared {Sh Pc}.
Arguments pcs {Sh Pc}.

Definition pc_upd {Pc} (f : nat → Pc) (t : nat) (p : Pc) : nat → Pc := λ u, if decide (u = t) then p else f u.

(** [n] threads; [tstep t p h p' h']: thread [t] goes from [p] to [p'] *)
Inductive thread_step {Sh Pc} (n : nat) (tstep : nat → Pc → Sh → Pc → Sh → Prop) : sys Sh Pc → sys Sh Pc → Prop :=
  | one_step s t p' h' :
      (t < n)%nat → tstep t (pcs s t) (shared s) p' h' → thread_step n tstep s (Sys h' (pc_upd (pcs s) t p')).

(** ** spinlock_t *)

Inductive spin_pc :=
  | SpinIdle | SpinTry | SpinWait | SpinOnce | SpinHeld | SpinCheck | SpinStore
  | SpinUntil | SpinPoll | SpinTime | SpinEnd (timed_out : bool)   (* spinlock_try_lock_until *)
  | SpinFault.

(** atomic_cmpxchg(lock, 0, 1), cpu_wait_value(lock, 0), the assertion and
    the store of spinlock_unlock, and the polling of spinlock_try_lock_until,
    where the clock decides ([spinlock_timed_out]) and spincount_mask is that
    of a machine with several processors. *)
Definition spin_run (p : spin_pc) (v : Z) : spin_pc * Z :=
  match p with
  | SpinTry => if v =? 0 then (SpinHeld, 1) else (SpinWait, v)
  | SpinWait => if v =? 0 then (SpinTry, v) else (SpinWait, v)
  | SpinOnce => if v =? 0 then (SpinHeld, 1) else (SpinIdle, v)
  | SpinCheck => if Z.land v 1 =? 0 then (SpinFault, v) else (SpinStore, v)
  | SpinStore => (SpinIdle, 0)
  | SpinUntil => if v =? 0 then (SpinHeld, 1) else (SpinPoll, v)
  | SpinPoll => if v =? 0 then (SpinEnd false, v) else (SpinTime, v)
  | SpinTime => (SpinPoll, v)
  | SpinEnd timed_out => if (v =? 0) || negb timed_out then (SpinUntil, v) else (SpinIdle, v)
  | _ => (p, v)
  end.
Inductive spin_call : spin_pc → spin_pc → Prop :=
  | spinlock_lock : spin_call SpinIdle SpinTry
  | spinlock_try_lock : spin_call SpinIdle SpinOnce
  | spinlock_try_lock_until : spin_call SpinIdle SpinUntil
  | spinlock_timed_out : spin_call SpinTime (SpinEnd true)
  | spinlock_unlock : spin_call SpinHeld SpinCheck.

(** ** rwspinlock_t *)

Definition bit30 : Z := 2 ^ 30.

Inductive rw_pc :=
  | RwIdle
  | RwEx                                   (* holds the lock alone *)
  | RwSh                                   (* holds it with others *)
  | ExLoad (expect : Z) (own : bool)       (* old_value = *lock *)
  | ExTop (expect : Z) (own : bool) (old : Z)
  | ExBit (expect old : Z)                 (* try to acquire bit 30 *)
  | ExCheck | ExStore                      (* rwspinlock_ex_unlock *)
  | DownCheck | DownStore                  (* rwspinlock_downgrade *)
  | UpCheck                                (* rwspinlock_upgrade *)
  | ShLoad | ShTop (old : Z) | ShWait      (* rwspinlock_sh_lock *)
  | ShUnLoad | ShUnTop (old : Z)           (* rwspinlock_sh_unlock *)
  | ExTry | ExTryCas                       (* rwspinlock_ex_try_lock *)
  | ShTry | ShTryTop (old : Z) | ShTryWait (* rwspinlock_sh_try_lock *)
  | RwFault.

Definition rw_run (p : rw_pc) (v : Z) : rw_pc * Z :=
  match p with
  | ExLoad expect own => (ExTop expect own v, v)
  | ExTop expect false old =>
      if old =? expect then if v =? expect then (RwEx, -1) else (ExBit expect old, v)
      else (ExBit expect old, v)
  | ExBit expect old =>
      if (old <? bit30) && (0 <? old) then
        if v =? old then (ExTop expect true old, Z.lor old bit30) else (ExTop expect false v, v)
      else (ExLoad expect false, v)
  | ExTop expect true old =>
      if old =? bit30 + expect then if v =? old then (RwEx, -1) else (ExTop expect true v, v)
      else (ExLoad expect true, v)
  | ExCheck => if v =? -1 then (ExStore, v) else (RwFault, v)
  | ExStore => (RwIdle, 0)
  | DownCheck => if v =? -1 then (DownStore, v) else (RwFault, v)
  | DownStore => (RwSh, 1)
  | UpCheck => if 0 <? v then (ExLoad 1 false, v) else (RwFault, v)
  | ShLoad => (ShTop v, v)
  | ShTop old =>
      if (0 <=? old) && (old <? bit30) then if v =? old then (RwSh, old + 1) else (ShTop v, v)
      else if old <? 0 then (ShWait, v)
      else (ShTop old, v)
  | ShWait => if Z.land v (Z.lor (2 ^ 31) (2 ^ 30)) =? 0 then (ShLoad, v) else (ShWait, v)
  | ShUnLoad => (ShUnTop v, v)
  | ShUnTop old =>
      if 0 <? old then if v =? old then (RwIdle, old - 1) else (ShUnTop v, v) else (RwFault, v)
  | ExTry => if v =? 0 then (ExTryCas, v) else (RwIdle, v)
  | ExTryCas => if v =? 0 then (RwEx, -1) else (RwIdle, v)
  | ShTry => (ShTryTop v, v)
  | ShTryTop old =>
      if 0 <=? old then if v =? old then (RwSh, old + 1) else (ShTryWait, v) else (RwIdle, v)
  | ShTryWait => if Z.land v (2 ^ 31) =? 0 then (ShTry, v) else (ShTryWait, v)
  | RwIdle | RwEx | RwSh | RwFault => (p, v)
  end.
Inductive rw_call : rw_pc → rw_pc → Prop :=
  | rwspinlock_ex_lock : rw_call RwIdle (ExLoad 0 false)
  | rwspinlock_sh_lock : rw_call RwIdle ShLoad
  | rwspinlock_ex_try_lock : rw_call RwIdle ExTry
  | rwspinlock_sh_try_lock : rw_call RwIdle ShTry
  | rwspinlock_ex_unlock : rw_call RwEx ExCheck
  | rwspinlock_downgrade : rw_call RwEx DownCheck
  | rwspinlock_sh_unlock : rw_call RwSh ShUnLoad
  | rwspinlock_upgrade : rw_call RwSh UpCheck.

(** ** ticketlock_t *)

Record ticketlock_t := Ticket { now_serving : Z; next_ticket : Z }.   (* unsigned *)

Inductive tk_pc :=
  | TkIdle
  | TkTake (saved : Z)                          (* atomic_xadd(&next_ticket, 2) *)
  | TkWait (my saved : Z)                       (* load of now_serving *)
  | TkSpin (my saved : Z)                       (* cpu_wait_value *)
  | TkEnter (serving saved : Z)                 (* store of now_serving *)
  | TkHeld
  | TkLeave                                     (* unlock: load *)
  | TkNext (serving : Z)                        (* unlock: store *)
  | TkTryNext | TkTryServing (old : Z) | TkTryCas (old serving : Z).

(** x & -2 on unsigned *)
Definition even_part (x : Z) : Z := Z.land x (u32 (-2)).

Definition tk_run (p : tk_pc) (l : ticketlock_t) : tk_pc * ticketlock_t :=
  match p with
  | TkTake saved => (TkWait (next_ticket l) saved, Ticket (now_serving l) (u32 (next_ticket l + 2)))
  | TkWait my saved =>
      if my =? even_part (now_serving l) then (TkEnter (now_serving l) saved, l) else (TkSpin my saved, l)
  | TkSpin my saved => if now_serving l =? my then (TkWait my saved, l) else (TkSpin my saved, l)
  | TkEnter serving saved => (TkHeld, Ticket (Z.lor (even_part serving) saved) (next_ticket l))
  | TkLeave => (TkNext (now_serving l), l)
  | TkNext serving => (TkIdle, Ticket (even_part (u32 (serving + 2))) (next_ticket l))
  | TkTryNext => (TkTryServing (next_ticket l), l)
  | TkTryServing old =>
      if now_serving l =? old then (TkTryCas old (now_serving l), l) else (TkIdle, l)
  | TkTryCas old serving =>
      if next_ticket l =? old then (TkEnter serving 0, Ticket (now_serving l) (even_part (u32 (old + 2))))
      else (TkIdle, l)
  | TkIdle | TkHeld => (p, l)
  end.
(** ticketlock_unlock_save leaves the same way as ticketlock_unlock *)
Inductive tk_call : tk_pc → tk_pc → Prop :=
  | ticketlock_lock : tk_call TkIdle (TkTake 0)
  | ticketlock_lock_restore saved : saved = 0 ∨ saved = 1 → tk_call TkIdle (TkTake saved)
  | ticketlock_try_lock : tk_call TkIdle TkTryNext
  | ticketlock_unlock : tk_call TkHeld TkLeave.

(** ** The queue lock: each thread has its own mcs_queue_ent_t *)

Record mcs_queue_ent_t := McsEnt { next : option nat; thread_id : Z; locked : bool }.
Record mcs_t := Mcs { mcs_lock : option nat; ents : nat → mcs_queue_ent_t }.

Inductive mcs_pc :=
  | McsIdle
  | McsSetId | McsReset | McsXchg | McsLocked (pred : nat)
  | McsPredId (pred : nat) | McsOwnId (pred : nat) (pred_id : Z) | McsLink (pred : nat) | McsWait
  | McsHeld
  | McsLeave | McsCas | McsAwait | McsPass
  | McsTryReset | McsTryCas
  | McsFault.

Definition set_next (t : nat) (n : option nat) (m : mcs_t) : mcs_t :=
  Mcs (mcs_lock m) (pc_upd (ents m) t (McsEnt n (thread_id (ents m t)) (locked (ents m t)))).
Definition set_thread_id (t : nat) (tid : Z) (m : mcs_t) : mcs_t :=
  Mcs (mcs_lock m) (pc_upd (ents m) t (McsEnt (next (ents m t)) tid (locked (ents m t)))).
Definition set_locked (t : nat) (b : bool) (m : mcs_t) : mcs_t :=
  Mcs (mcs_lock m) (pc_upd (ents m) t (McsEnt (next (ents m t)) (thread_id (ents m t)) b)).

(** Thread [t], whose node is [t]; thread_get_id() is [t] *)
Definition mcs_run (t : nat) (p : mcs_pc) (m : mcs_t) : mcs_pc * mcs_t :=
  match p with
  | McsSetId => (McsReset, set_thread_id t (Z.of_nat t) m)
  | McsReset => (McsXchg, set_next t None m)
  | McsXchg =>
      (match mcs_lock m with Some pred => McsLocked pred | None => McsHeld end, Mcs (Some t) (ents m))
  | McsLocked pred => (McsPredId pred, set_locked t true m)
  | McsPredId pred => (McsOwnId pred (thread_id (ents m pred)), m)
  | McsOwnId pred pred_id => (if pred_id =? thread_id (ents m t) then McsFault else McsLink pred, m)
  | McsLink pred => (McsWait, set_next pred (Some t) m)
  | McsWait => if locked (ents m t) then (McsWait, m) else (McsHeld, m)
  | McsLeave => (match next (ents m t) with None => McsCas | Some _ => McsPass end, m)
  | McsCas => if decide (mcs_lock m = Some t) then (McsIdle, Mcs None (ents m)) else (McsAwait, m)
  | McsAwait => (match next (ents m t) with None => McsAwait | Some _ => McsPass end, m)
  | McsPass => match next (ents m t) with Some s => (McsIdle, set_locked s false m) | None => (McsFault, m) end
  | McsTryReset => (McsTryCas, set_next t None m)
  | McsTryCas => match mcs_lock m with None => (McsHeld, Mcs (Some t) (ents m)) | Some _ => (McsIdle, m) end
  | McsIdle | McsHeld | McsFault => (p, m)
  end.
Inductive mcs_call : mcs_pc → mcs_pc → Prop :=
  | mcslock_lock : mcs_call McsIdle McsSetId
  | mcslock_try_lock : mcs_call McsIdle McsTryReset
  | mcslock_unlock : mcs_call McsHeld McsLeave.

(** ** The systems *)

(** A thread makes its next access or its client makes a call. *)
Definition runs {Sh Pc} (run : nat → Pc → Sh → Pc * Sh) (call : Pc → Pc → Prop) (t : nat) (p : Pc) (h : Sh) (p' : Pc) (h' : Sh) : Prop :=
  run t p h = (p', h') ∨ (call p p' ∧ h' = h).

Definition spin_step (n : nat) : sys Z spin_pc → sys Z spin_pc → Prop := thread_step n (runs (λ _, spin_run) spin_call).
Definition rw_step (n : nat) : sys Z rw_pc → sys Z rw_pc → Prop := thread_step n (runs (λ _, rw_run) rw_call).
Definition tk_step (n : nat) : sys ticketlock_t tk_pc → sys ticketlock_t tk_pc → Prop := thread_step n (runs (λ _, tk_run) tk_call).
Definition mcs_step (n : nat) : sys mcs_t mcs_pc → sys mcs_t mcs_pc → Prop := thread_step n (runs mcs_run mcs_call).

Definition spin_init : sys Z spin_pc := Sys 0 (λ _, SpinIdle).
Definition rw_init : sys Z rw_pc := Sys 0 (λ _, RwIdle).
Definition tk_init : sys ticketlock_t tk_pc := Sys (Ticket 0 0) (λ _, TkIdle).
(** The nodes are not initialized. *)
Definition mcs_init (junk : nat → mcs_queue_ent_t) : sys mcs_t mcs_pc := Sys (Mcs None junk) (λ _, McsIdle).

(** * Reader/writer and ticket locks: exclusion

    Invariants of all interleavings, by induction on the steps. *)

Lemma reach_inv {S} (step : S → S → Prop) (I : S → Prop) s0 s :
  I s0 → (∀ s s', I s → step s s' → I s') → rtc step s0 s → I s.
Proof. intros H0 Hs Hr. revert H0. induction Hr; eauto. Qed.

Lemma pc_upd_eq {Pc} (f : nat → Pc) t p : pc_upd f t p t = p.
Proof. unfold pc_upd. by rewrite decide_True. Qed.
Lemma pc_upd_ne {Pc} (f : nat → Pc) t p u : u ≠ t → pc_upd f t p u = f u.
Proof. intros. unfold pc_upd. by rewrite decide_False. Qed.

(** ** spinlock_t *)

Definition spin_holds (p : spin_pc) : bool :=
  match p with SpinHeld | SpinCheck | SpinStore => true | _ => false end.

Definition spin_inv (s : sys Z spin_pc) : Prop :=
  (∀ t, pcs s t ≠ SpinFault) ∧
  ((shared s = 0 ∧ ∀ t, spin_holds (pcs s t) = false)
   ∨ shared s = 1 ∧ ∃ t, spin_holds (pcs s t) = true ∧ ∀ u, spin_holds (pcs s u) = true → u = t).

Lemma spin_inv_step n s s' : spin_inv s → spin_step n s s' → spin_inv s'.
Proof.
  intros [Hf HI] Hstep. destruct Hstep as [s t p' h' Ht Hrun]. unfold spin_inv. cbn [pcs shared].
  assert (∀ u q, pc_upd (pcs s) t p' u = q → (u = t ∧ q = p') ∨ (u ≠ t ∧ q = pcs s u)) as Hu.
  { intros u q <-. unfold pc_upd. destruct (decide (u = t)); auto. }
  (* a step that keeps who holds the lock and its value *)
  assert (spin_holds p' = spin_holds (pcs s t) → p' ≠ SpinFault → h' = shared s → spin_inv (Sys h' (pc_upd (pcs s) t p'))) as Hsame.
  { intros Hh Hp ->. split; cbn; [intros u; by destruct (Hu u _ eq_refl) as [[-> ->]|[? ->]]|].
    assert (∀ u, spin_holds (pc_upd (pcs s) t p' u) = spin_holds (pcs s u)) as He.
    { intros u. by destruct (Hu u _ eq_refl) as [[-> ->]|[? ->]]. }
    destruct HI as [[Hv Hn]|(Hv & w & Hw & Huniq)]; [left|right]; (split; [done|]).
    - intros u. by rewrite He.
    - exists w. rewrite He. split; [done|]. intros u. rewrite He. apply Huniq. }
  (* the lock is taken *)
  assert (spin_holds p' = true → shared s = 0 → h' = 1 → p' ≠ SpinFault → spin_inv (Sys h' (pc_upd (pcs s) t p'))) as Htake.
  { intros Hh Hv -> Hp. destruct HI as [[_ Hn]|[? _]]; [|congruence]. split; cbn; [intros u; by destruct (Hu u _ eq_refl) as [[-> ->]|[? ->]]|].
    right. split; [done|]. exists t. rewrite pc_upd_eq. split; [done|]. intros u. destruct (Hu u _ eq_refl) as [[-> ->]|[? ->]]; [done|].
    by rewrite Hn. }
  destruct Hrun as [Hrun|[Hcall ->]]; [|by inversion Hcall as [E|E|E|E|E]; subst p'; apply Hsame; rewrite <- ?E].
  destruct (pcs s t) eqn:Ep; cbn in Hrun.
  - injection Hrun as <- <-. by apply Hsame.
  - destruct (Z.eqb_spec (shared s) 0); injection Hrun as <- <-; [by apply Htake|by apply Hsame].
  - destruct (Z.eqb_spec (shared s) 0); injection Hrun as <- <-; by apply Hsame.
  - destruct (Z.eqb_spec (shared s) 0); injection Hrun as <- <-; [by apply Htake|by apply Hsame].
  - injection Hrun as <- <-. by apply Hsame.
  - destruct HI as [[_ Hn]|[Hv _]]; [by specialize (Hn t); rewrite Ep in Hn|]. rewrite Hv in Hrun. cbn in Hrun.
    injection Hrun as <- <-. apply Hsame; [done|done|congruence].
  - injection Hrun as <- <-. destruct HI as [[_ Hn]|(Hv & w & Hw & Huniq)]; [by specialize (Hn t); rewrite Ep in Hn|].
    assert (t = w) as <- by (apply Huniq; by rewrite Ep). split; cbn; [intros u; by destruct (Hu u _ eq_refl) as [[-> ->]|[? ->]]|].
    left. split; [done|]. intros u. destruct (Hu u _ eq_refl) as [[-> ->]|[Hne ->]]; [done|].
    destruct (spin_holds (pcs s u)) eqn:E; [|done]. by apply Huniq in E.
  - destruct (Z.eqb_spec (shared s) 0); injection Hrun as <- <-; [by apply Htake|by apply Hsame].
  - destruct (Z.eqb_spec (shared s) 0); injection Hrun as <- <-; by apply Hsame.
  - injection Hrun as <- <-. by apply Hsame.
  - case_match; injection Hrun as <- <-; by apply Hsame.
  - by destruct (Hf t).
Qed.

Lemma spin_init_inv : spin_inv spin_init.
Proof. split; [done|]. by left. Qed.

(** ** rwspinlock_t *)

(** Who holds it shared (also while giving it up or asking for an upgrade),
    alone, and who has locked readers out *)
Definition reading (p : rw_pc) : bool :=
  match p with
  | RwSh | ShUnLoad | ShUnTop _ | UpCheck => true
  | ExLoad e _ | ExTop e _ _ | ExBit e _ => e =? 1
  | _ => false
  end.
Definition writing (p : rw_pc) : bool :=
  match p with RwEx | ExCheck | ExStore | DownCheck | DownStore => true | _ => false end.
Definition owning (p : rw_pc) : bool :=
  match p with ExLoad _ own | ExTop _ own _ => own | _ => false end.
Definition rw_ok (p : rw_pc) : bool :=
  match p with
  | RwFault => false
  | ExLoad e _ | ExTop e _ _ | ExBit e _ => (e =? 0) || (e =? 1)
  | ShUnTop old => 0 <? old
  | _ => true
  end.

Record rw_ghost (n : nat) (s : sys Z rw_pc) (rd : gset nat) (wr ow : option nat) : Prop := RwGhost {
  gh_rd : ∀ t, t ∈ rd ↔ reading (pcs s t) = true;
  gh_wr : ∀ t, wr = Some t ↔ writing (pcs s t) = true;
  gh_ow : ∀ t, ow = Some t ↔ owning (pcs s t) = true;
  gh_ok : ∀ t, rw_ok (pcs s t) = true;
  gh_in : ∀ t, t ∈ rd → (t < n)%nat;
  gh_value : shared s = match wr with Some _ => -1 | None => Z.of_nat (size rd) + (if ow then bit30 else 0) end;
  gh_alone : is_Some wr → rd = ∅ ∧ ow = None
}.

Definition upd_who (w : option nat) (b b' : bool) (t : nat) : option nat :=
  if b' then Some t else if b then None else w.
Definition upd_readers (rd : gset nat) (b' : bool) (t : nat) : gset nat := if b' then {[t]} ∪ rd else rd ∖ {[t]}.

Lemma upd_who_spec (f g : nat → bool) w t b' :
  (∀ u, w = Some u ↔ f u = true) → (∀ u, u ≠ t → g u = f u) → g t = b' → (b' = true → w = None ∨ w = Some t) →
  ∀ u, upd_who w (f t) b' t = Some u ↔ g u = true.
Proof.
  intros Hw Hne Ht His u. unfold upd_who. destruct (decide (u = t)) as [->|Hu].
  - rewrite Ht. destruct b'; [done|]. destruct (f t) eqn:E; [done|]. rewrite Hw, E. done.
  - rewrite Hne by done. destruct b'.
    + split; [congruence|]. intros Hf. apply Hw in Hf. destruct (His eq_refl); congruence.
    + destruct (f t) eqn:E; [|apply Hw]. split; [done|]. intros Hf. apply Hw in Hf. apply Hw in E. congruence.
Qed.

Lemma upd_readers_size rd b' t (b : bool) :
  (t ∈ rd ↔ b = true) → Z.of_nat (size (upd_readers rd b' t)) = Z.of_nat (size rd) + Z.b2z b' - Z.b2z b.
Proof.
  intros Hin. unfold upd_readers. destruct b', b; cbn [Z.b2z].
  - replace ({[t]} ∪ rd) with rd by set_solver. lia.
  - rewrite size_union by set_solver. rewrite size_singleton. lia.
  - assert (t ∈ rd) by tauto. rewrite size_difference by set_solver. rewrite size_singleton.
    assert (size rd ≠ 0%nat); [|lia]. rewrite size_non_empty_iff. set_solver.
  - replace (rd ∖ {[t]}) with rd by set_solver. lia.
Qed.

(** One thread moves; what is left to check is the value. *)
Lemma rw_move n s rd wr ow t p' v' :
  rw_ghost n s rd wr ow → (t < n)%nat → rw_ok p' = true →
  (writing p' = true → wr = None ∨ wr = Some t) → (owning p' = true → ow = None ∨ ow = Some t) →
  let rd' := upd_readers rd (reading p') t in
  let wr' := upd_who wr (writing (pcs s t)) (writing p') t in
  let ow' := upd_who ow (owning (pcs s t)) (owning p') t in
  v' = match wr' with Some _ => -1 | None => Z.of_nat (size rd') + (if ow' then bit30 else 0) end →
  (is_Some wr' → rd' = ∅ ∧ ow' = None) → rw_ghost n (Sys v' (pc_upd (pcs s) t p')) rd' wr' ow'.
Proof.
  intros [Hrd Hwr How Hok Hin _ _] Ht Hp Hw Ho rd' wr' ow' Hv Ha. split; cbn [pcs shared]; try done.
  - intros u. unfold rd', upd_readers. destruct (decide (u = t)) as [->|Hne].
    + rewrite pc_upd_eq. destruct (reading p'); set_solver.
    + rewrite pc_upd_ne, <- Hrd by done. destruct (reading p'); set_solver.
  - apply (upd_who_spec (λ u, writing (pcs s u)) (λ u, writing (pc_upd (pcs s) t p' u))); try done.
    + intros u Hu. by rewrite pc_upd_ne. + by rewrite pc_upd_eq.
  - apply (upd_who_spec (λ u, owning (pcs s u)) (λ u, owning (pc_upd (pcs s) t p' u))); try done.
    + intros u Hu. by rewrite pc_upd_ne. + by rewrite pc_upd_eq.
  - intros u. destruct (decide (u = t)) as [->|Hne]; [by rewrite pc_upd_eq|by rewrite pc_upd_ne].
  - intros u. unfold rd', upd_readers. destruct (reading p'); set_solver.
Qed.

Definition rw_inv (n : nat) (s : sys Z rw_pc) : Prop := ∃ rd wr ow, rw_ghost n s rd wr ow.

Lemma readers_bound n s rd wr ow : rw_ghost n s rd wr ow → (size rd ≤ n)%nat.
Proof.
  intros Hg. rewrite <- (length_seq n 0), <- (size_list_to_set (C := gset nat) (seq 0 n)) by apply NoDup_seq.
  apply subseteq_size. intros t Ht. apply elem_of_list_to_set, elem_of_seq. pose proof (gh_in _ _ _ _ _ Hg t Ht). lia.
Qed.

Lemma lor_bit30 x : 0 ≤ x < bit30 → Z.lor x bit30 = x + bit30.
Proof. intros Hx. rewrite Z.lor_comm. unfold bit30 in *. rewrite <- (Z.mul_1_l (2 ^ 30)), lor_disjoint by lia. lia. Qed.

(** A move that changes nothing but the place, within the same class *)
Lemma rw_stay n s t p' :
  rw_inv n s → (t < n)%nat → rw_ok p' = true → reading p' = reading (pcs s t) → writing p' = writing (pcs s t) →
  owning p' = owning (pcs s t) → rw_inv n (Sys (shared s) (pc_upd (pcs s) t p')).
Proof.
  intros (rd & wr & ow & [Hrd Hwr How Hok Hin Hv Ha]) Ht Hp E1 E2 E3. exists rd, wr, ow.
  split; cbn [pcs shared]; try done; intros u; destruct (decide (u = t)) as [->|Hne];
    rewrite ?pc_upd_eq, ?pc_upd_ne by done; rewrite ?E1, ?E2, ?E3; done.
Qed.

(** The lock is taken alone: its value is [expect], or that and bit 30 *)
Lemma rw_acquire n s t expect own :
  rw_inv n s → (t < n)%nat → Z.of_nat n < bit30 → expect = 0 ∨ expect = 1 →
  shared s = expect + (if (own : bool) then bit30 else 0) →
  reading (pcs s t) = (expect =? 1) → writing (pcs s t) = false → owning (pcs s t) = own →
  rw_inv n (Sys (-1) (pc_upd (pcs s) t RwEx)).
Proof.
  intros (rd & wr & ow & Hg) Ht Hn He Hv Er Ew Eo. pose proof (readers_bound _ _ _ _ _ Hg) as Hb. pose proof Hg as [Hrd Hwr How _ _ Hval Ha].
  assert (wr = None) as ->. { destruct wr; [|done]. rewrite Hval in Hv. unfold bit30 in *. destruct own; lia. }
  assert (ow = if own then Some t else None) as ->.
  { destruct own; [by apply How|]. destruct ow as [u|]; [|done]. rewrite Hval in Hv. unfold bit30 in *. lia. }
  assert (Z.of_nat (size rd) = expect) as Hsz by (rewrite Hval in Hv; destruct own; unfold bit30 in *; lia).
  eexists _, _, _. apply (rw_move n s rd None (if own then Some t else None) t RwEx (-1) Hg); try done; cbn; [by left|].
  intros _. split; [|by rewrite Eo; destruct own].
  assert (size (upd_readers rd false t) = 0%nat) as H0%size_empty_inv%leibniz_equiv; [|done].
  pose proof (upd_readers_size rd false t (reading (pcs s t)) (Hrd t)) as Hs. rewrite Er in Hs.
  destruct He as [-> | ->]; cbn [Z.eqb Pos.eqb Z.b2z] in Hs; lia.
Qed.

(** A reader comes in *)
Lemma rw_enter n s t old :
  rw_inv n s → (t < n)%nat → Z.of_nat n < bit30 → 0 ≤ old → shared s = old →
  reading (pcs s t) = false → writing (pcs s t) = false → owning (pcs s t) = false →
  rw_inv n (Sys (old + 1) (pc_upd (pcs s) t RwSh)).
Proof.
  intros (rd & wr & ow & Hg) Ht Hn Ho Hv Er Ew Eo. pose proof Hg as [Hrd Hwr How _ _ Hval Ha].
  assert (wr = None) as -> by (destruct wr; [lia|done]).
  eexists _, _, _. apply (rw_move n s rd None ow t RwSh (old + 1) Hg); try done; cbn [reading writing owning].
  - rewrite Ew. cbn [upd_who]. pose proof (upd_readers_size rd true t _ (Hrd t)) as Hs. rewrite Er in Hs. cbn [Z.b2z] in Hs.
    rewrite Hs, Eo. cbn. lia.
  - rewrite Ew. cbn. by intros [? ?].
Qed.

Lemma rw_inv_step n s s' : Z.of_nat n < bit30 → rw_inv n s → rw_step n s s' → rw_inv n s'.
Proof.
  intros Hn HI Hstep. destruct Hstep as [s t p' h' Ht Hrun]. pose proof HI as (rd & wr & ow & Hg).
  pose proof Hg as [Hrd Hwr How Hok _ Hval Ha]. pose proof (readers_bound _ _ _ _ _ Hg) as Hb.
  assert (Hstay : ∀ q, (q, shared s) = (p', h') → rw_ok q = true → reading q = reading (pcs s t) → writing q = writing (pcs s t) →
    owning q = owning (pcs s t) → rw_inv n (Sys h' (pc_upd (pcs s) t p'))) by (intros q [= <- <-]; by apply rw_stay).
  destruct Hrun as [Hrun|[Hcall ->]].
  2: { inversion Hcall as [E|E|E|E|E|E|E|E]; subst p'; apply rw_stay; rewrite <- ?E; done. }
  assert (Hwriter : writing (pcs s t) = true → shared s = -1 ∧ wr = Some t ∧ rd = ∅ ∧ ow = None).
  { intros Hw%Hwr. subst wr. destruct (Ha ltac:(eauto)). done. }
  assert (Hreader : reading (pcs s t) = true → 0 < shared s).
  { intros Hr%Hrd. assert (size rd ≠ 0%nat) by (rewrite size_non_empty_iff; set_solver).
    destruct wr as [w|]; [destruct (Ha ltac:(eauto)) as [-> _]; set_solver|]. rewrite Hval. unfold bit30. destruct ow; lia. }
  specialize (Hok t). destruct (pcs s t) eqn:Ep; cbn in Hrun, Hok.
  - by apply (Hstay RwIdle).
  - by apply (Hstay RwEx).
  - by apply (Hstay RwSh).
  - by apply (Hstay _ Hrun).
  - (* ExTop *)
    apply orb_true_iff in Hok as He. rewrite !Z.eqb_eq in He. destruct own.
    + destruct (Z.eqb_spec old (bit30 + expect)); [|by apply (Hstay _ Hrun)].
      destruct (Z.eqb_spec (shared s) old); [|by apply (Hstay _ Hrun)]. injection Hrun as <- <-.
      apply (rw_acquire n s t expect true); rewrite ?Ep; try done. lia.
    + destruct (Z.eqb_spec old expect); [|by apply (Hstay _ Hrun)].
      destruct (Z.eqb_spec (shared s) expect); [|by apply (Hstay _ Hrun)]. injection Hrun as <- <-.
      apply (rw_acquire n s t expect false); rewrite ?Ep; try done. lia.
  - (* ExBit *)
    destruct (Z.ltb_spec old bit30), (Z.ltb_spec 0 old); cbn in Hrun; try (by apply (Hstay _ Hrun)).
    destruct (Z.eqb_spec (shared s) old) as [Hv|]; [|by apply (Hstay _ Hrun)]. injection Hrun as <- <-.
    rewrite lor_bit30 by lia.
    assert (wr = None) as -> by (destruct wr; [lia|done]). assert (ow = None) as -> by (destruct ow; [lia|done]).
    eexists _, _, _. apply (rw_move n s rd None None t (ExTop expect true old) (old + bit30) Hg); try done; cbn [reading writing owning];
      rewrite ?Ep; cbn [writing owning upd_who].
    + by left.
    + pose proof (upd_readers_size rd (expect =? 1) t _ (Hrd t)) as Hs. rewrite Ep in Hs. cbn [reading] in Hs. lia.
    + by intros [? ?].
  - (* ExCheck *)
    destruct (Z.eqb_spec (shared s) (-1)); [by apply (Hstay _ Hrun)|]. by destruct (Hwriter eq_refl).
  - (* ExStore *)
    destruct (Hwriter eq_refl) as (_ & -> & -> & ->). injection Hrun as <- <-. eexists _, _, _.
    apply (rw_move n s ∅ (Some t) None t RwIdle 0 Hg); try done; rewrite ?Ep; [|by intros [? ?]].
    cbn. by replace (∅ ∖ {[t]}) with (∅ : gset nat) by set_solver.
  - (* DownCheck *)
    destruct (Z.eqb_spec (shared s) (-1)); [by apply (Hstay _ Hrun)|]. by destruct (Hwriter eq_refl).
  - (* DownStore *)
    destruct (Hwriter eq_refl) as (_ & -> & -> & ->). injection Hrun as <- <-. eexists _, _, _.
    apply (rw_move n s ∅ (Some t) None t RwSh 1 Hg); try done; rewrite ?Ep; try done.
    + cbn. by rewrite union_empty_r_L, size_singleton.
    + cbn. by intros [? ?].
  - (* UpCheck *)
    destruct (Z.ltb_spec 0 (shared s)); [by apply (Hstay _ Hrun)|]. specialize (Hreader eq_refl). lia.
  - by apply (Hstay _ Hrun).
  - (* ShTop *)
    destruct (Z.leb_spec 0 old), (Z.ltb_spec old bit30), (Z.ltb_spec old 0); cbn in Hrun; try lia; try (by apply (Hstay _ Hrun)).
    destruct (Z.eqb_spec (shared s) old); [|by apply (Hstay _ Hrun)]. injection Hrun as <- <-. by apply rw_enter; rewrite ?Ep.
  - destruct (_ =? 0); by apply (Hstay _ Hrun).
  - (* ShUnLoad *)
    apply (Hstay _ Hrun); try done. cbn. apply Z.ltb_lt. by apply Hreader.
  - (* ShUnTop *)
    rewrite Hok in Hrun. apply Z.ltb_lt in Hok. destruct (Z.eqb_spec (shared s) old).
    + injection Hrun as <- <-. assert (wr = None) as -> by (destruct wr; [lia|done]). eexists _, _, _.
      apply (rw_move n s rd None ow t RwIdle (old - 1) Hg); try done; cbn [reading writing owning]; rewrite ?Ep; cbn [writing owning upd_who].
      * pose proof (upd_readers_size rd false t _ (Hrd t)) as Hs. rewrite Ep in Hs. cbn [reading Z.b2z] in Hs. lia.
      * by intros [? ?].
    + apply (Hstay _ Hrun); try done. cbn. apply Z.ltb_lt. by apply Hreader.
  - destruct (_ =? 0); by apply (Hstay _ Hrun).
  - (* ExTryCas *)
    destruct (Z.eqb_spec (shared s) 0); [|by apply (Hstay _ Hrun)]. injection Hrun as <- <-.
    apply (rw_acquire n s t 0 false); rewrite ?Ep; auto.
  - by apply (Hstay _ Hrun).
  - (* ShTryTop *)
    destruct (Z.leb_spec 0 old); [|by apply (Hstay _ Hrun)]. destruct (Z.eqb_spec (shared s) old); [|by apply (Hstay _ Hrun)].
    injection Hrun as <- <-. by apply rw_enter; rewrite ?Ep.
  - destruct (_ =? 0); by apply (Hstay _ Hrun).
  - done.
Qed.

Lemma rw_init_inv n : rw_inv n rw_init.
Proof.
  exists ∅, None, None. split; try done; cbn; try (by intros; set_solver).
Qed.

(** C31: In every interleaving of any number of threads (below 2^30) that use
    the reader/writer lock, upgrades and downgrades included: whoever holds
    it alone is the only holder, and no assertion of the lock fails. *)
Theorem rw_lock_exclusion n s :
  Z.of_nat n < bit30 → rtc (rw_step n) rw_init s →
  (∀ t u, pcs s t = RwEx → pcs s u = RwEx ∨ pcs s u = RwSh → u = t) ∧ (∀ t, pcs s t ≠ RwFault).
Proof.
  intros Hn Hreach.
  assert (rw_inv n s) as (rd & wr & ow & [Hrd Hwr How Hok Hin Hv Ha]).
  { eapply (reach_inv (rw_step n)); [apply rw_init_inv| |exact Hreach]. intros s1 s2. by apply rw_inv_step. }
  split.
  - intros t u Ht Hu. assert (wr = Some t) as -> by (apply Hwr; by rewrite Ht). destruct Hu as [Hu|Hu].
    + assert (Some t = Some u) as [= ->]; [|done]. apply Hwr. by rewrite Hu.
    + destruct (Ha ltac:(eauto)) as [-> _]. assert (u ∈ (∅ : gset nat)) as Hx by (apply Hrd; by rewrite Hu). set_solver.
  - intros t Ht. specialize (Hok t). by rewrite Ht in Hok.
Qed.

(** A spinlock has at most one holder in every interleaving, and the
    assertion of its unlock never fails. *)
Theorem spinlock_exclusion n s :
  rtc (spin_step n) spin_init s →
  (∀ t u, pcs s t = SpinHeld → pcs s u = SpinHeld → t = u) ∧ (∀ t, pcs s t ≠ SpinFault).
Proof.
  intros Hreach. assert (spin_inv s) as [Hf HI].
  { eapply (reach_inv (spin_step n)); [apply spin_init_inv| |exact Hreach]. intros s1 s2. by apply spin_inv_step. }
  split; [|done]. intros t u Ht Hu. destruct HI as [[_ Hn]|(_ & w & _ & Huniq)].
  - specialize (Hn t). by rewrite Ht in Hn.
  - rewrite (Huniq t), (Huniq u); [done|by rewrite Hu|by rewrite Ht].
Qed.

(** ** Schedules, and a reader that is never served *)

#[export] Instance rw_pc_eq_dec : EqDecision rw_pc.
Proof. solve_decision. Defined.

(** The calls a client may make *)
Definition rw_calls (p : rw_pc) : list rw_pc :=
  match p with
  | RwIdle => [ExLoad 0 false; ShLoad; ExTry; ShTry]
  | RwEx => [ExCheck; DownCheck]
  | RwSh => [ShUnLoad; UpCheck]
  | _ => []
  end.
Lemma rw_calls_sound p p' : p' ∈ rw_calls p → rw_call p p'.
Proof. destruct p; cbn; rewrite ?elem_of_cons, elem_of_nil; intros; destruct_or?; subst; try done; constructor. Qed.

(** Who moves next; with [Some p] by making the call that starts at [p] *)
Definition rw_act (n : nat) (a : nat * option rw_pc) (s : sys Z rw_pc) : option (sys Z rw_pc) :=
  let '(t, c) := a in
  if decide (t < n)%nat then
    match c with
    | None => let '(p', h') := rw_run (pcs s t) (shared s) in Some (Sys h' (pc_upd (pcs s) t p'))
    | Some p' => if decide (p' ∈ rw_calls (pcs s t)) then Some (Sys (shared s) (pc_upd (pcs s) t p')) else None
    end
  else None.
Fixpoint rw_sched (n : nat) (l : list (nat * option rw_pc)) (s : sys Z rw_pc) : option (sys Z rw_pc) :=
  match l with [] => Some s | a :: l => s' ← rw_act n a s; rw_sched n l s' end.

Lemma rw_sched_reach n l s s' : rw_sched n l s = Some s' → rtc (rw_step n) s s'.
Proof.
  revert s. induction l as [|[t c] l IH]; intros s Hs; cbn in Hs; [by simplify_eq|].
  apply bind_Some in Hs as (s1 & Ha & Hs). eapply rtc_l; [|by apply IH]. unfold rw_act in Ha.
  destruct (decide (t < n)%nat) as [Ht|]; [|done]. destruct c as [p'|].
  - destruct (decide (p' ∈ rw_calls (pcs s t))) as [Hc|]; [|done]. injection Ha as <-.
    apply one_step; [done|]. right. split; [by apply rw_calls_sound|done].
  - destruct (rw_run (pcs s t) (shared s)) as [p' h'] eqn:E. injection Ha as <-. apply one_step; [done|]. by left.
Qed.

Lemma reader_stays n t old s s' :
  bit30 ≤ old → pcs s t = ShTop old → rtc (rw_step n) s s' → pcs s' t = ShTop old.
Proof.
  intros Ho Hp Hreach. eapply (reach_inv (rw_step n) (λ s, pcs s t = ShTop old)); [done| |exact Hreach].
  intros s1 s2 H1 Hstep. destruct Hstep as [s1 u p' h' Hu Hrun]. cbn. destruct (decide (t = u)) as [<-|Hne].
  - rewrite pc_upd_eq. rewrite H1 in Hrun. destruct Hrun as [Hrun|[Hcall _]]; [|by inversion Hcall]. cbn in Hrun.
    destruct (Z.leb_spec 0 old), (Z.ltb_spec old bit30), (Z.ltb_spec old 0); unfold bit30 in *; try lia. cbn in Hrun. by injection Hrun as <- _.
  - by rewrite pc_upd_ne.
Qed.

(** Thread 0 reads, thread 1 locks readers out to write, and thread 2 looks
    at the lock; then 0 and 1 are served and leave. *)
Definition busy : list (nat * option rw_pc) :=
  [(0, Some ShLoad); (0, None); (0, None); (1, Some (ExLoad 0 false)); (1, None); (1, None); (1, None); (2, Some ShLoad); (2, None)]%nat.
Definition drain : list (nat * option rw_pc) :=
  [(0, Some ShUnLoad); (0, None); (0, None); (1, None); (1, None); (1, None); (1, Some ExCheck); (1, None); (1, None)]%nat.

(** A reader that finds a writer waiting spins on the value it read:
    there is a state from which it never gets the lock, whatever else happens,
    also when the lock is free and all others are idle. *)
Theorem rw_reader_never_served :
  ∃ s s', rtc (rw_step 3) rw_init s ∧ rtc (rw_step 3) s s' ∧ shared s' = 0 ∧ pcs s' 0%nat = RwIdle ∧ pcs s' 1%nat = RwIdle
    ∧ pcs s 2%nat = ShTop (bit30 + 1) ∧ ∀ s'', rtc (rw_step 3) s s'' → pcs s'' 2%nat = ShTop (bit30 + 1).
Proof.
  destruct (rw_sched 3 busy rw_init) as [s|] eqn:Es; [|by vm_compute in Es].
  destruct (rw_sched 3 drain s) as [s'|] eqn:Es'; [|by injection Es as <-; vm_compute in Es'].
  assert (pcs s 2%nat = ShTop (bit30 + 1)) as Hp by (injection Es as <-; by vm_compute).
  exists s, s'. split_and!; [by eapply rw_sched_reach|by eapply rw_sched_reach| | | |done|].
  - injection Es as <-. injection Es' as <-. by vm_compute.
  - injection Es as <-. injection Es' as <-. by vm_compute.
  - injection Es as <-. injection Es' as <-. by vm_compute.
  - intros s''. by apply reader_stays.
Qed.

(** Two readers that both ask for an upgrade wait for each other. *)
Definition both_upgrade : list (nat * option rw_pc) :=
  [(0, Some ShLoad); (0, None); (0, None); (1, Some ShLoad); (1, None); (1, None);
   (0, Some UpCheck); (0, None); (0, None); (0, None); (0, None);
   (1, Some UpCheck); (1, None); (1, None); (1, None); (1, None)]%nat.
Lemma rw_upgrade_deadlock :
  ∃ s, rtc (rw_step 2) rw_init s ∧ shared s = bit30 + 2 ∧ owning (pcs s 0%nat) = true ∧ pcs s 1%nat = ExLoad 1 false.
Proof.
  destruct (rw_sched 2 both_upgrade rw_init) as [s|] eqn:Es; [|by vm_compute in Es].
  exists s. split; [by eapply rw_sched_reach|]. injection Es as <-. by vm_compute.
Qed.
