(* ===== verification/TicketThms.v ===== *)
(** * Ticket locks: first come, first served

    [tk_exec] runs the threads and notes who took a ticket and who got the
    lock, in order.  The counters wrap around; that is harmless for the
    locks that wait, and for try_lock as long as fewer than 2^31 steps are
    made, since its comparison of two counters read at different times is
    only then conclusive. *)

From stdpp Require Import base tactics list numbers option sets gmap relations.
From S2P Require Import Prelude Spinlock.

#[local] Open Scope Z_scope.

(** ** The two counters *)

Lemma even_part_spec x : 0 ≤ x < 2 ^ 32 → even_part x = 2 * (x / 2).
Proof.
  intros Hx. unfold even_part, u32. change (-2) with (Z.lnot (Z.ones 1)).
  rewrite <- (Z.land_ones _ 32), (Z.land_comm _ (Z.ones 32)), Z.land_assoc by lia.
  rewrite (Z.land_ones x 32), Z.mod_small by lia. rewrite <- Z.ldiff_land, Z.ldiff_ones_r by lia.
  rewrite Z.shiftl_mul_pow2, Z.shiftr_div_pow2 by lia. change (2 ^ 1) with 2. lia.
Qed.

(** The counter after [c] tickets, with the saved flag in bit 0 *)
Definition serving_at (c bit : Z) : Z := u32 (2 * c) + bit.

Lemma u32_double c : 0 ≤ c → u32 (2 * c) = 2 * (c mod 2 ^ 31).
Proof. intros Hc. unfold u32. replace (2 ^ 32) with (2 * 2 ^ 31) by lia. by rewrite Z.mul_mod_distr_l by lia. Qed.
Lemma serving_even c bit : 0 ≤ c → bit = 0 ∨ bit = 1 → even_part (serving_at c bit) = u32 (2 * c).
Proof.
  intros Hc Hbit. unfold serving_at. rewrite u32_double by done. pose proof (Z.mod_pos_bound c (2 ^ 31) ltac:(lia)).
  rewrite even_part_spec by lia. f_equal. destruct Hbit as [-> | ->].
  - by rewrite Z.add_0_r, Z.mul_comm, Z.div_mul by lia.
  - rewrite Z.mul_comm, Z.div_add_l by lia. change (1 / 2) with 0. lia.
Qed.
Lemma serving_next c bit : 0 ≤ c → bit = 0 ∨ bit = 1 → even_part (u32 (serving_at c bit + 2)) = u32 (2 * (c + 1)).
Proof.
  intros Hc Hbit. assert (u32 (serving_at c bit + 2) = serving_at (c + 1) bit) as ->; [|by apply serving_even; [lia|]].
  unfold serving_at. rewrite !u32_double by lia.
  pose proof (Z.mod_pos_bound c (2 ^ 31) ltac:(lia)). rewrite <- (Z.add_mod_idemp_l c 1) by lia.
  destruct (decide (c mod 2 ^ 31 = 2 ^ 31 - 1)) as [He|He].
  - rewrite He. unfold u32. replace (2 * (2 ^ 31 - 1) + bit + 2) with (bit + 1 * 2 ^ 32) by lia.
    rewrite Z.mod_add, Z.mod_small by lia. replace (2 ^ 31 - 1 + 1) with (2 ^ 31) by lia. rewrite Z.mod_same by lia. lia.
  - rewrite (Z.mod_small (c mod 2 ^ 31 + 1)) by lia. rewrite u32_small by lia. lia.
Qed.
Lemma ticket_inj c i j : 0 ≤ c → 0 ≤ i < 2 ^ 31 → 0 ≤ j < 2 ^ 31 → u32 (2 * (c + i)) = u32 (2 * (c + j)) → i = j.
Proof.
  intros Hc Hi Hj Heq. rewrite !u32_double in Heq by lia. apply Z.mul_reg_l in Heq; [|lia].
  assert ((i - j) mod 2 ^ 31 = 0) as Hd.
  { replace (i - j) with ((c + i) - (c + j)) by lia. by rewrite Zminus_mod, Heq, Z.sub_diag. }
  apply Z.mod_divide in Hd; [|lia]. destruct Hd as [q Hq]. nia.
Qed.
Lemma ticket_small c : 0 ≤ c < 2 ^ 31 → u32 (2 * c) = 2 * c.
Proof. intros. apply u32_small. lia. Qed.

(** ** Executions *)

Definition takes_of (t : nat) (p p' : tk_pc) : list nat :=
  match p, p' with TkTake _, TkWait _ _ | TkTryCas _ _, TkEnter _ _ => [t] | _, _ => [] end.
Definition enters_of (t : nat) (p p' : tk_pc) : list nat :=
  match p, p' with TkEnter _ _, TkHeld => [t] | _, _ => [] end.
Definition trying (p : tk_pc) : bool :=
  match p with TkTryNext | TkTryServing _ | TkTryCas _ _ => true | _ => false end.

(** [k] steps of [n] threads, with try_lock or without; the tickets taken
    and the entries made so far *)
Inductive tk_exec (n : nat) (try : bool) : nat → sys ticketlock_t tk_pc → list nat → list nat → Prop :=
  | tk_exec_init : tk_exec n try 0 tk_init [] []
  | tk_exec_step k s t p' h' takes enters :
      tk_exec n try k s takes enters → (t < n)%nat →
      runs (λ _, tk_run) tk_call t (pcs s t) (shared s) p' h' →
      (try = false → trying p' = false) →
      tk_exec n try (S k) (Sys h' (pc_upd (pcs s) t p')) (takes ++ takes_of t (pcs s t) p') (enters ++ enters_of t (pcs s t) p').

(** ** The invariant

    [b] tickets have been served, and the threads of [Q] hold the next ones,
    in this order. *)

Definition inside (p : tk_pc) : bool := match p with TkHeld | TkLeave | TkNext _ => true | _ => false end.
Definition saved_ok (saved : Z) : Prop := saved = 0 ∨ saved = 1.

Definition queued (b : Z) (i : nat) (p : tk_pc) : Prop :=
  match p with
  | TkWait my saved | TkSpin my saved => my = u32 (2 * (b + Z.of_nat i)) ∧ saved_ok saved
  | TkEnter serving saved => i = 0%nat ∧ saved_ok saved ∧ ∃ bit, saved_ok bit ∧ serving = serving_at b bit
  | TkHeld | TkLeave => i = 0%nat
  | TkNext serving => i = 0%nat ∧ ∃ bit, saved_ok bit ∧ serving = serving_at b bit
  | _ => False
  end.
Definition outside (k : nat) (b : Z) (total : Z) (p : tk_pc) : Prop :=
  match p with
  | TkIdle | TkTryNext => True
  | TkTake saved => saved_ok saved
  | TkTryServing old => Z.of_nat k < 2 ^ 31 → ∃ c, 0 ≤ c ≤ total ∧ old = 2 * c
  | TkTryCas old serving => serving = old ∧ (Z.of_nat k < 2 ^ 31 → ∃ c, 0 ≤ c ≤ b ∧ old = 2 * c)
  | _ => False
  end.

(** The holder, if there is one *)
Definition entered (ps : nat → tk_pc) (Q : list nat) : list nat :=
  match Q with t :: _ => if inside (ps t) then [t] else [] | [] => [] end.

Record tk_inv (n : nat) (try : bool) (k : nat) (s : sys ticketlock_t tk_pc) (takes enters : list nat) (b : Z) (Q : list nat) : Prop := TkInv {
  tk_b : 0 ≤ b;
  tk_serving : ∃ bit, saved_ok bit ∧ now_serving (shared s) = serving_at b bit
    ∧ (entered (pcs s) Q = [] → bit = 0);
  tk_next : next_ticket (shared s) = u32 (2 * (b + Z.of_nat (length Q)));
  tk_nodup : NoDup Q;
  tk_in : ∀ i t, Q !! i = Some t → (t < n)%nat ∧ queued b i (pcs s t);
  tk_out : ∀ t, t ∉ Q → outside k b (b + Z.of_nat (length Q)) (pcs s t);
  tk_count : b + Z.of_nat (length Q) ≤ Z.of_nat k;
  tk_try : try = false → ∀ t, trying (pcs s t) = false;
  tk_takes : ∃ done, Z.of_nat (length done) = b ∧ takes = done ++ Q
    ∧ enters = done ++ entered (pcs s) Q
}.

Lemma queued_behind b i p : queued b (S i) p → inside p = false.
Proof. destruct p; cbn; intros H; try done; by destruct H. Qed.
Lemma entered_keep ps Q t p : (t ∈ Q → inside p = inside (ps t)) → entered (pc_upd ps t p) Q = entered ps Q.
Proof.
  intros Hp. destruct Q as [|u Q]; [done|]. cbn. unfold pc_upd. case_decide as E; [|done]. subst u.
  rewrite Hp; [done|by left].
Qed.
Lemma entered_push ps Q t p : t ∉ Q → inside p = false → entered (pc_upd ps t p) (Q ++ [t]) = entered ps Q.
Proof.
  intros Ht Hi. destruct Q as [|u Q']; cbn; [by rewrite pc_upd_eq, Hi|].
  rewrite pc_upd_ne; [done|]. intros ->. apply Ht. by left.
Qed.
Lemma outside_mono k b b' total total' p :
  b ≤ b' → total ≤ total' → outside k b total p → outside (S k) b' total' p.
Proof.
  intros Hb Ht. destruct p; cbn; try done.
  - intros H Hk. destruct H as (c & Hc & ->); [lia|]. exists c. split; [lia|done].
  - intros [-> H]. split; [done|]. intros Hk. destruct H as (c & Hc & ->); [lia|]. exists c. split; [lia|done].
Qed.

Section step.
Context (n : nat) (try : bool) (k : nat).
Context (s : sys ticketlock_t tk_pc) (takes enters : list nat) (b : Z) (Q : list nat).
Context (HI : tk_inv n try k s takes enters b Q).

Lemma tk_try_upd t p : (try = false → trying p = false) → try = false → ∀ u, trying (pc_upd (pcs s) t p u) = false.
Proof. intros Hp Hf u. unfold pc_upd. case_decide; [auto|]. by apply (tk_try _ _ _ _ _ _ _ _ HI). Qed.

(** A step of a thread that keeps its place *)
Lemma tk_keep t p' serving :
  (∃ bit, saved_ok bit ∧ serving = serving_at b bit ∧ (entered (pc_upd (pcs s) t p') Q = [] → bit = 0)) →
  (∀ i, Q !! i = Some t → queued b i p' ∧ (inside p' = inside (pcs s t) ∨ inside p' = true ∧ i = 0%nat ∧ inside (pcs s t) = false)) →
  (t ∉ Q → outside (S k) b (b + Z.of_nat (length Q)) p') →
  (try = false → trying p' = false) →
  tk_inv n try (S k) (Sys (Ticket serving (next_ticket (shared s))) (pc_upd (pcs s) t p')) takes
    (enters ++ (if bool_decide (t ∈ Q) && inside p' && negb (inside (pcs s t)) then [t] else [])) b Q.
Proof using HI.
  intros Hserv Hin Hout Htry. pose proof (tk_try_upd t p' Htry) as Hty. pose proof HI as [Hb _ Hn Hnd HQ HO Hc _ (dn & Hdn & -> & ->)].
  split; cbn [shared pcs now_serving next_ticket]; try done.
  - intros i u Hu. destruct (HQ i u Hu) as [? Hq]. split; [done|]. unfold pc_upd. case_decide as E; [|done].
    subst u. by destruct (Hin i Hu).
  - intros u Hu. unfold pc_upd. case_decide as E; [subst u; by apply Hout|]. eapply outside_mono; [..|by apply HO]; lia.
  - lia.
  - exists dn. split_and!; [done..|]. rewrite <- app_assoc. f_equal.
    destruct (decide (t ∈ Q)) as [Ht|Ht]; [|by rewrite entered_keep, bool_decide_false, app_nil_r by done].
    rewrite bool_decide_true by done. destruct Q as [|u Q']; [by apply elem_of_nil in Ht|]. cbn.
    destruct (decide (u = t)) as [->|Hne].
    + rewrite pc_upd_eq. destruct (Hin 0%nat eq_refl) as [_ [E|(-> & _ & ->)]]; [|done]. rewrite E. by destruct (inside (pcs s t)).
    + rewrite pc_upd_ne by done. apply elem_of_cons in Ht as [->|Ht]; [done|]. apply list_elem_of_lookup in Ht as [i Hi].
      destruct (Hin (S i) Hi) as [_ [->|(? & ? & ?)]]; [|done]. by rewrite andb_negb_r, app_nil_r.
Qed.

(** A ticket is taken *)
Lemma tk_push t p' :
  t ∉ Q → (t < n)%nat → queued b (length Q) p' → inside p' = false → (try = false → trying p' = false) →
  tk_inv n try (S k) (Sys (Ticket (now_serving (shared s)) (u32 (2 * (b + Z.of_nat (length Q) + 1)))) (pc_upd (pcs s) t p'))
    (takes ++ [t]) enters b (Q ++ [t]).
Proof using HI.
  intros Ht Hlt Hq Hi Htry. pose proof (tk_try_upd t p' Htry) as Hty. pose proof HI as [Hb Hserv Hn Hnd HQ HO Hc _ (dn & Hdn & -> & ->)].
  split; cbn [shared pcs now_serving next_ticket]; rewrite ?length_app; cbn [length]; try done.
  - by rewrite entered_push.
  - f_equal. lia.
  - apply NoDup_app. split_and!; [done| |by apply NoDup_singleton]. intros u Hu ->%list_elem_of_singleton. done.
  - intros i u Hu. apply lookup_app_Some in Hu as [Hu|[Hl Hu]].
    + destruct (HQ i u Hu). rewrite pc_upd_ne; [done|]. intros ->. apply Ht. by eapply list_elem_of_lookup_2.
    + apply list_lookup_singleton_Some in Hu as [Hl0 <-]. replace i with (length Q) by lia. by rewrite pc_upd_eq.
  - intros u Hu. apply not_elem_of_app in Hu as [Hu Hne]. rewrite pc_upd_ne by set_solver.
    eapply outside_mono; [..|by apply HO]; lia.
  - lia.
  - exists dn. rewrite <- app_assoc. split_and!; [done..|]. by rewrite entered_push.
Qed.
End step.

(** The holder leaves *)
Lemma tk_pop n try k s takes enters b t Q serving :
  tk_inv n try k s takes enters b (t :: Q) → inside (pcs s t) = true → serving = u32 (2 * (b + 1)) →
  tk_inv n try (S k) (Sys (Ticket serving (next_ticket (shared s))) (pc_upd (pcs s) t TkIdle)) takes enters (b + 1) Q.
Proof.
  intros HI Hi ->. assert (HI' := HI). destruct HI as [Hb Hserv Hn Hnd HQ HO Hc _ (dn & Hdn & -> & ->)].
  apply NoDup_cons in Hnd as [Ht Hnd]. cbn [length] in *. split; cbn [shared pcs now_serving next_ticket]; try done; try lia.
  - exists 0. split; [by left|]. unfold serving_at. lia.
  - rewrite Hn. f_equal. lia.
  - intros i u Hu. destruct (HQ (S i) u Hu) as [? Hq]. rewrite pc_upd_ne by (intros ->; apply Ht; by eapply list_elem_of_lookup_2).
    split; [done|]. destruct (pcs s u); cbn in *; try done; try (by destruct Hq); destruct Hq as [-> ?];
      (split; [f_equal; lia|done]).
  - intros u Hu. destruct (decide (u = t)) as [->|Hne]; [by rewrite pc_upd_eq|]. rewrite pc_upd_ne by done.
    eapply outside_mono; [..|apply HO; set_solver]; lia.
  - eapply tk_try_upd; [done|]. by intros.
  - exists (dn ++ [t]). cbn [entered]. rewrite Hi, length_app, <- !app_assoc. cbn. split_and!; [lia|done|]. do 2 f_equal.
    destruct Q as [|u Q]; [done|]. destruct (HQ 1%nat u eq_refl) as [_ Hq%queued_behind].
    cbn. rewrite pc_upd_ne, Hq; [done|]. intros ->. apply Ht. by left.
Qed.

Section step2.
Context (n : nat) (try : bool) (k : nat).
Context (s : sys ticketlock_t tk_pc) (takes enters : list nat) (b : Z) (Q : list nat).
Context (HI : tk_inv n try k s takes enters b Q).
Context (Hn : Z.of_nat n < 2 ^ 31) (Hk : try = false ∨ Z.of_nat (S k) < 2 ^ 31).

Lemma tk_short : Z.of_nat (length Q) < 2 ^ 31.
Proof using HI Hn.
  clear Hk. enough (length Q ≤ n)%nat by lia. rewrite <- (length_seq n 0). apply submseteq_length, NoDup_submseteq.
  - apply (tk_nodup _ _ _ _ _ _ _ _ HI).
  - intros t [i Hi]%list_elem_of_lookup. apply elem_of_seq. destruct (tk_in _ _ _ _ _ _ _ _ HI i t Hi). lia.
Qed.

(** A thread is in the queue or not, and where it is says which. *)
Lemma tk_place t :
  (t ∉ Q ∧ outside k b (b + Z.of_nat (length Q)) (pcs s t)) ∨ (∃ i, Q !! i = Some t ∧ queued b i (pcs s t)).
Proof using HI.
  destruct (decide (t ∈ Q)) as [Ht|Ht]; [right|left; split; [done|by apply (tk_out _ _ _ _ _ _ _ _ HI)]].
  apply list_elem_of_lookup in Ht as [i Hi]. exists i. split; [done|]. by apply (tk_in _ _ _ _ _ _ _ _ HI).
Qed.

Lemma tk_unique i j t : Q !! i = Some t → Q !! j = Some t → i = j.
Proof using HI. intros. eapply NoDup_lookup; [apply (tk_nodup _ _ _ _ _ _ _ _ HI)|..]; done. Qed.

(** try_lock gets a ticket only when nobody waits. *)
Lemma tk_try_alone old : next_ticket (shared s) = old → try = true → (∃ c, 0 ≤ c ≤ b ∧ old = 2 * c) → Q = [].
Proof using HI Hk.
  intros Ho Ht (c & Hc & ->). destruct Hk as [?|Hk']; [congruence|]. rewrite (tk_next _ _ _ _ _ _ _ _ HI) in Ho.
  pose proof (tk_count _ _ _ _ _ _ _ _ HI). rewrite u32_small in Ho by lia. apply length_zero_iff_nil. lia.
Qed.

(** A step within a place: what [tk_keep] gives when the lock's serving
    counter is as it was *)
Lemma tk_move t p' :
  (∀ i, Q !! i = Some t → queued b i p' ∧ inside p' = inside (pcs s t)) →
  (t ∉ Q → outside (S k) b (b + Z.of_nat (length Q)) p') →
  (try = false → trying p' = false) →
  tk_inv n try (S k) (Sys (shared s) (pc_upd (pcs s) t p')) takes enters b Q.
Proof using HI.
  intros Hin Hout Htry. pose proof (tk_serving _ _ _ _ _ _ _ _ HI) as Hs.
  pose proof (tk_keep _ _ _ _ _ _ _ _ HI t p' (now_serving (shared s))) as H. destruct (shared s) as [serv nx]. cbn [now_serving next_ticket] in H.
  assert ((if bool_decide (t ∈ Q) && inside p' && negb (inside (pcs s t)) then [t] else []) = []) as E.
  { case_bool_decide as Ht; [|done]. apply list_elem_of_lookup in Ht as [i Hi]. destruct (Hin i Hi) as [_ ->].
    cbn. by rewrite andb_negb_r. }
  rewrite E, app_nil_r in H. apply H; [| |done..]; [|intros i Hi; destruct (Hin i Hi); auto].
  rewrite entered_keep; [done|]. intros [i Hi]%list_elem_of_lookup. by destruct (Hin i Hi).
Qed.
Lemma tk_move_out t p' :
  t ∉ Q → outside (S k) b (b + Z.of_nat (length Q)) p' → (try = false → trying p' = false) →
  tk_inv n try (S k) (Sys (shared s) (pc_upd (pcs s) t p')) takes enters b Q.
Proof using HI. intros HQ Ho. apply tk_move; [|done]. intros i Hi. exfalso. by eapply HQ, list_elem_of_lookup_2. Qed.
Lemma tk_move_in t i p' :
  Q !! i = Some t → queued b i p' → inside p' = inside (pcs s t) → (try = false → trying p' = false) →
  tk_inv n try (S k) (Sys (shared s) (pc_upd (pcs s) t p')) takes enters b Q.
Proof using HI.
  intros HQ Hq Hi. apply tk_move; [|intros H; exfalso; by eapply H, list_elem_of_lookup_2].
  intros j Hj. by rewrite (tk_unique j i t Hj HQ).
Qed.
End step2.

Lemma u32_next c : u32 (u32 (2 * c) + 2) = u32 (2 * (c + 1)).
Proof. unfold u32. rewrite Z.add_mod_idemp_l by lia. f_equal. lia. Qed.
Lemma even_part_double x : even_part (2 * (x mod 2 ^ 31)) = 2 * (x mod 2 ^ 31).
Proof.
  pose proof (Z.mod_pos_bound x (2 ^ 31) ltac:(lia)). rewrite even_part_spec by lia.
  f_equal. rewrite Z.mul_comm. by apply Z.div_mul.
Qed.
Lemma lor_even x y : 0 ≤ x < 2 ^ 31 → saved_ok y → Z.lor (2 * x) y = 2 * x + y.
Proof.
  intros Hx Hy. rewrite <- Z.add_nocarry_lor; [done|]. destruct Hy as [->| ->]; [by rewrite Z.land_0_r|].
  change 1 with (Z.ones 1). rewrite Z.land_ones by lia. change (2 ^ 1) with 2. by rewrite Z.mul_comm, Z.mod_mul.
Qed.
Lemma serving_saved b bit saved :
  0 ≤ b → saved_ok bit → saved_ok saved → Z.lor (even_part (serving_at b bit)) saved = serving_at b saved.
Proof.
  intros Hb Hbit Hs. rewrite serving_even by done. unfold serving_at. rewrite u32_double by done.
  apply lor_even; [apply Z.mod_pos_bound; lia|done].
Qed.

Lemma tk_inv_step n try k s takes enters b Q t p' h' :
  tk_inv n try k s takes enters b Q → Z.of_nat n < 2 ^ 31 → try = false ∨ Z.of_nat (S k) < 2 ^ 31 → (t < n)%nat →
  runs (λ _, tk_run) tk_call t (pcs s t) (shared s) p' h' → (try = false → trying p' = false) →
  ∃ b' Q', tk_inv n try (S k) (Sys h' (pc_upd (pcs s) t p'))
    (takes ++ takes_of t (pcs s t) p') (enters ++ enters_of t (pcs s t) p') b' Q'.
Proof.
  intros HI Hn Hk Ht Hrun Htry.
  pose proof (tk_b _ _ _ _ _ _ _ _ HI) as Hb. pose proof (tk_serving _ _ _ _ _ _ _ _ HI) as (bit & Hbit & Hs & _).
  pose proof (tk_next _ _ _ _ _ _ _ _ HI) as Hnx. pose proof (tk_short _ _ _ _ _ _ _ _ HI Hn) as Hshort.
  pose proof (tk_count _ _ _ _ _ _ _ _ HI) as Hcount. pose proof (tk_try _ _ _ _ _ _ _ _ HI) as Hnt.
  destruct (tk_place _ _ _ _ _ _ _ _ HI t) as [[HQ Ho]|(i & HQ & Hq)].
  - (* outside the queue *)
    pose proof (tk_move_out _ _ _ _ _ _ _ _ HI t p' HQ) as Hmove.
    destruct Hrun as [Hrun|[Hcall ->]];
      [|exists b, Q; inversion Hcall as [E|saved Hsv E|E|E]; subst p'; rewrite <- E in *; cbn in *; rewrite ?app_nil_r; apply Hmove; try done; by left].
    destruct (pcs s t) eqn:Ep; cbn in Hrun, Ho; try done.
    + injection Hrun as <- <-. exists b, Q. cbn. rewrite !app_nil_r. by apply Hmove.
    + injection Hrun as <- <-. exists b, (Q ++ [t]). cbn. rewrite app_nil_r, Hnx, u32_next.
      by apply tk_push.
    + injection Hrun as <- <-. exists b, Q. cbn. rewrite !app_nil_r. apply Hmove; [|done]. intros Hk'.
      exists (b + Z.of_nat (length Q)). split; [lia|]. rewrite Hnx. apply u32_small. lia.
    + destruct (Z.eqb_spec (now_serving (shared s)) old) as [Heq|Hne]; injection Hrun as <- <-; exists b, Q; cbn;
        rewrite !app_nil_r; apply Hmove; try done. split; [done|]. intros Hk'. destruct Ho as (c & Hc & ->); [lia|].
      exists c. split; [|done]. rewrite Hs in Heq. unfold serving_at in Heq. rewrite u32_small in Heq by lia. destruct Hbit; lia.
    + destruct Ho as [-> Ho]. destruct (Z.eqb_spec (next_ticket (shared s)) old) as [Heq|Hne]; injection Hrun as <- <-.
      * assert (try = true) as Htt by (destruct try; [done|]; by specialize (Hnt eq_refl t); rewrite Ep in Hnt).
        assert (∃ c, 0 ≤ c ≤ b ∧ old = 2 * c) as Hc by (destruct Hk; [congruence|]; apply Ho; lia).
        pose proof (tk_try_alone _ _ _ _ _ _ _ _ HI Hk old Heq Htt Hc) as ->. cbn in Hnx. rewrite Z.add_0_r in Hnx.
        exists b, [t]. cbn. rewrite app_nil_r. subst old. rewrite Hnx, u32_next, u32_double, even_part_double by lia.
        rewrite <- u32_double by lia. replace (b + 1) with (b + Z.of_nat (length (@nil nat)) + 1) by (cbn; lia).
        apply (tk_push _ _ _ _ _ _ _ _ HI); try done. cbn. split; [done|]. split; [by left|]. exists 0. split; [by left|].
        unfold serving_at. lia.
      * exists b, Q. cbn. rewrite !app_nil_r. by apply Hmove.
  - (* in the queue *)
    assert (t ∈ Q) as HtQ by (by eapply list_elem_of_lookup_2).
    pose proof (tk_move_in _ _ _ _ _ _ _ _ HI t i p' HQ) as Hmove.
    destruct Hrun as [Hrun|[Hcall ->]];
      [|exists b, Q; inversion Hcall as [E|saved Hsv E|E|E]; subst p'; rewrite <- E in *; cbn in *; rewrite ?app_nil_r; by apply Hmove].
    destruct (pcs s t) eqn:Ep; cbn in Hrun, Hq; try done.
    + destruct Hq as [-> Hsv]. rewrite Hs, serving_even in Hrun by done.
      destruct (Z.eqb_spec (u32 (2 * (b + Z.of_nat i))) (u32 (2 * b))) as [Heq|Hne]; injection Hrun as <- <-; exists b, Q; cbn;
        rewrite !app_nil_r; apply Hmove; try done.
      apply lookup_lt_Some in HQ. rewrite <- (Z.add_0_r b) in Heq at 2. apply ticket_inj in Heq; [|lia..].
      cbn. split_and!; [lia|done|]. by exists bit.
    + destruct Hq as [-> Hsv]. case_match; injection Hrun as <- <-; exists b, Q; cbn; rewrite !app_nil_r; by apply Hmove.
    + destruct Hq as (-> & Hsv & bit' & Hbit' & ->). injection Hrun as <- <-. exists b, Q. cbn. rewrite app_nil_r, serving_saved by done.
      pose proof (tk_keep _ _ _ _ _ _ _ _ HI t TkHeld (serving_at b saved)) as H.
      rewrite bool_decide_true, Ep in H by done. apply H; [exists saved; split_and!; [done..|]| |done..];
        [destruct Q; [done|]; injection HQ as ->; cbn; by rewrite pc_upd_eq|]. intros j Hj.
      rewrite (tk_unique _ _ _ _ _ _ _ _ HI j 0 t Hj HQ). split; [done|]. by right.
    + injection Hrun as <- <-. exists b, Q. cbn. rewrite !app_nil_r. by apply Hmove.
    + injection Hrun as <- <-. exists b, Q. cbn. rewrite !app_nil_r. apply Hmove; [|done..]. cbn. split; [done|]. by exists bit.
    + destruct Hq as (-> & bit' & Hbit' & ->). injection Hrun as <- <-. destruct Q as [|u Q']; [done|]. injection HQ as ->.
      exists (b + 1), Q'. cbn. rewrite !app_nil_r, serving_next by done. apply tk_pop; [done|by rewrite Ep|done].
Qed.

Lemma tk_init_inv n try : tk_inv n try 0 tk_init [] [] 0 [].
Proof.
  split; cbn; try done.
  - exists 0. split_and!; [by left|done..].
  - apply NoDup_nil_2.
  - by exists [].
Qed.

Lemma tk_exec_inv n try k s takes enters :
  Z.of_nat n < 2 ^ 31 → try = false ∨ Z.of_nat k < 2 ^ 31 → tk_exec n try k s takes enters →
  ∃ b Q, tk_inv n try k s takes enters b Q.
Proof.
  intros Hn Hk Hex. induction Hex as [|k s t p' h' takes enters Hex IH Ht Hrun Htry]; [exists 0, []; apply tk_init_inv|].
  destruct IH as (b & Q & HI); [destruct Hk; [by left|right; lia]|]. by eapply tk_inv_step.
Qed.

(** Thread [t] runs on its own *)
Definition tk_alone (t : nat) (s : sys ticketlock_t tk_pc) : sys ticketlock_t tk_pc :=
  let '(p, h) := tk_run (pcs s t) (shared s) in Sys h (pc_upd (pcs s) t p).

Lemma tk_alone_run t s p h : tk_run (pcs s t) (shared s) = (p, h) → tk_alone t s = Sys h (pc_upd (pcs s) t p).
Proof. intros H. unfold tk_alone. by rewrite H. Qed.

Lemma tk_enter_alone t s a c : pcs s t = TkEnter a c → pcs (tk_alone t s) t = TkHeld.
Proof. intros E. erewrite tk_alone_run by (rewrite E; reflexivity). cbn. by rewrite pc_upd_eq. Qed.
Lemma tk_wait_alone t s my c : pcs s t = TkWait my c → my = even_part (now_serving (shared s)) → pcs (tk_alone t (tk_alone t s)) t = TkHeld.
Proof.
  intros E Hm. eapply tk_enter_alone. erewrite tk_alone_run by (rewrite E; cbn; rewrite (proj2 (Z.eqb_eq _ _) Hm); reflexivity).
  cbn. by rewrite pc_upd_eq.
Qed.

Lemma tk_front_served n try k s takes enters b t Q :
  tk_inv n try k s takes enters b (t :: Q) → inside (pcs s t) = false →
  ∃ m, (m ≤ 3)%nat ∧ pcs (Nat.iter m (tk_alone t) s) t = TkHeld.
Proof.
  intros HI Hi. destruct (tk_in _ _ _ _ _ _ _ _ HI 0%nat t eq_refl) as [_ Hq]. pose proof (tk_b _ _ _ _ _ _ _ _ HI) as Hb.
  destruct (tk_serving _ _ _ _ _ _ _ _ HI) as (bit & Hbit & Hs & Hz). rewrite Hz in Hs by (cbn; by rewrite Hi).
  assert (even_part (now_serving (shared s)) = u32 (2 * b)) as He by (rewrite Hs; apply serving_even; [done|by left]).
  destruct (pcs s t) as [| |my saved|my saved| | | | | | |] eqn:Ep; cbn in Hq; try done; rewrite ?Z.add_0_r in Hq.
  - exists 2%nat. split; [lia|]. eapply tk_wait_alone; [done|]. rewrite He. by destruct Hq.
  - exists 3%nat. split; [lia|]. change (Nat.iter 3 (tk_alone t) s) with (tk_alone t (tk_alone t (tk_alone t s))).
    assert (tk_alone t s = Sys (shared s) (pc_upd (pcs s) t (TkWait my saved))) as ->.
    { apply tk_alone_run. rewrite Ep. cbn. destruct Hq as [-> _]. rewrite Hs. unfold serving_at. by rewrite Z.add_0_r, Z.eqb_refl. }
    eapply tk_wait_alone; [apply pc_upd_eq|]. cbn. rewrite He. by destruct Hq.
  - exists 1%nat. split; [lia|]. by eapply tk_enter_alone.
Qed.

(** C30: The ticket lock is fair and exclusive: at any point of any
    interleaving of fewer than 2^31 threads, the lock has been granted in the
    order in which the tickets were taken, at most one thread is between the
    grant and the end of its unlock, and when nobody is there and a thread
    has the next ticket, three steps of its own get it the lock.  The
    wrap-around of the counters is harmless, except that try_lock needs fewer
    than 2^31 steps. *)
Theorem ticket_fifo n try k s takes enters :
  Z.of_nat n < 2 ^ 31 → try = false ∨ Z.of_nat k < 2 ^ 31 → tk_exec n try k s takes enters →
  enters `prefix_of` takes
  ∧ (∀ t u, inside (pcs s t) = true → inside (pcs s u) = true → t = u)
  ∧ (∀ t rest, takes = enters ++ t :: rest → (∀ u, inside (pcs s u) = false) →
       ∃ m, (m ≤ 3)%nat ∧ pcs (Nat.iter m (tk_alone t) s) t = TkHeld).
Proof.
  intros Hn Hk Hex. destruct (tk_exec_inv _ _ _ _ _ _ Hn Hk Hex) as (b & Q & HI).
  destruct (tk_takes _ _ _ _ _ _ _ _ HI) as (dn & _ & -> & ->). split_and!.
  - apply prefix_app. destruct Q as [|t Q]; [done|]. cbn. destruct (inside _); [by exists Q|by exists (t :: Q)].
  - assert (∀ t, inside (pcs s t) = true → Q !! 0%nat = Some t) as Hfront; [|intros t u Ht%Hfront Hu%Hfront; congruence].
    intros t Ht. destruct (tk_place _ _ _ _ _ _ _ _ HI t) as [[_ Ho]|([|i] & Hi & Hq)]; [by destruct (pcs s t)|done|].
    apply queued_behind in Hq. congruence.
  - intros t rest Ht Hno. assert (entered (pcs s) Q = []) as He by (destruct Q as [|u Q]; [done|cbn; by rewrite Hno]).
    rewrite He, app_nil_r in Ht. apply app_inv_head in Ht as ->. by eapply tk_front_served.
Qed.
