(* ===== verification/McsThms.v ===== *)
(** * Queue locks: first come, first served, and no stray pointer

    [mcs_exec] runs the threads and notes, in order, who joined the queue and
    who got the lock.  The invariant says what the linked nodes of the
    waiting threads look like at every point between two accesses. *)

From stdpp Require Import base tactics list numbers option sets gmap relations.
From S2P Require Import Prelude Spinlock.

#[local] Open Scope Z_scope.

(** ** Executions *)

Definition mcs_joins (t : nat) (p p' : mcs_pc) : list nat :=
  match p, p' with McsXchg, _ | McsTryCas, McsHeld => [t] | _, _ => [] end.
Definition mcs_enters (t : nat) (p p' : mcs_pc) : list nat :=
  match p, p' with McsXchg, McsHeld | McsTryCas, McsHeld | McsWait, McsHeld => [t] | _, _ => [] end.
Definition mcs_trying (p : mcs_pc) : bool := match p with McsTryReset | McsTryCas => true | _ => false end.

(** The nodes start as [junk]; the threads call mcslock_try_lock only when
    [try] is set. *)
Inductive mcs_exec (n : nat) (try : bool) (junk : nat → mcs_queue_ent_t) : sys mcs_t mcs_pc → list nat → list nat → Prop :=
  | mcs_exec_init : mcs_exec n try junk (mcs_init junk) [] []
  | mcs_exec_step s t p' h' joins enters :
      mcs_exec n try junk s joins enters → (t < n)%nat →
      runs mcs_run mcs_call t (pcs s t) (shared s) p' h' →
      (try = false → mcs_trying p' = false) →
      mcs_exec n try junk (Sys h' (pc_upd (pcs s) t p'))
        (joins ++ mcs_joins t (pcs s t) p') (enters ++ mcs_enters t (pcs s t) p').

(** ** The invariant: [Q] is the queue of threads *)

Definition holding (p : mcs_pc) : bool :=
  match p with McsHeld | McsLeave | McsCas | McsAwait | McsPass => true | _ => false end.
(** The predecessor's node points to this thread's *)
Definition linked (p : mcs_pc) : bool := match p with McsWait => true | _ => holding p end.

Definition behind (Q : list nat) (i pred : nat) : Prop := ∃ j, i = S j ∧ Q !! j = Some pred.

(** The [i]-th of the queue, with node [e] *)
Definition mcs_place (Q : list nat) (e : mcs_queue_ent_t) (i : nat) (p : mcs_pc) : Prop :=
  match p with
  | McsHeld | McsLeave | McsCas | McsAwait => i = 0%nat
  | McsPass => i = 0%nat ∧ next e ≠ None
  | McsWait => locked e = bool_decide (i ≠ 0%nat)
  | McsLocked pred => behind Q i pred
  | McsPredId pred | McsOwnId pred _ | McsLink pred => behind Q i pred ∧ locked e = true
  | McsFault => i ≠ 0%nat
  | _ => False
  end.
Definition mcs_apart (e : mcs_queue_ent_t) (p : mcs_pc) : Prop :=
  match p with
  | McsIdle | McsSetId | McsReset | McsTryReset => True
  | McsXchg | McsTryCas => next e = None
  | _ => False
  end.
(** The [next] of the thread before place [i] *)
Definition link_to (ps : nat → mcs_pc) (Q : list nat) (i : nat) : option nat :=
  u ← Q !! i; if linked (ps u) then Some u else None.

(** What holds of thread [t] when the nodes carry the threads' ids *)
Definition id_ok (try : bool) (t : nat) (e : mcs_queue_ent_t) (p : mcs_pc) : Prop :=
  match p with
  | McsFault => False
  | McsIdle | McsSetId => try = false ∨ thread_id e = Z.of_nat t
  | McsTryReset | McsTryCas => try = true ∧ thread_id e = Z.of_nat t
  | McsOwnId pred pid => thread_id e = Z.of_nat t ∧ pid = Z.of_nat pred
  | _ => thread_id e = Z.of_nat t
  end.

Definition mcs_holder (ps : nat → mcs_pc) (Q : list nat) : list nat :=
  match Q with t :: _ => if holding (ps t) then [t] else [] | [] => [] end.

Record mcs_inv (ok : Prop) (try : bool) (s : sys mcs_t mcs_pc) (joins enters Q : list nat) : Prop := McsInv {
  mcs_last : mcs_lock (shared s) = last Q;
  mcs_nodup : NoDup Q;
  mcs_in : ∀ i t, Q !! i = Some t → mcs_place Q (ents (shared s) t) i (pcs s t);
  mcs_next : ∀ i t, Q !! i = Some t → next (ents (shared s) t) = link_to (pcs s) Q (S i);
  mcs_out : ∀ t, t ∉ Q → mcs_apart (ents (shared s) t) (pcs s t);
  mcs_ids : ok → ∀ t, id_ok try t (ents (shared s) t) (pcs s t);
  mcs_log : ∃ done, joins = done ++ Q ∧ enters = done ++ mcs_holder (pcs s) Q
}.

Lemma link_to_keep ps Q t p i :
  (t ∈ Q → linked p = linked (ps t)) → link_to (pc_upd ps t p) Q i = link_to ps Q i.
Proof.
  intros Hp. unfold link_to. destruct (Q !! i) as [u|] eqn:E; [|done]. cbn. unfold pc_upd. case_decide as Eu; [|done].
  subst u. rewrite Hp; [done|]. by eapply list_elem_of_lookup_2.
Qed.
Lemma holder_keep ps Q t p : (t ∈ Q → holding p = holding (ps t)) → mcs_holder (pc_upd ps t p) Q = mcs_holder ps Q.
Proof.
  intros Hp. destruct Q as [|u Q]; [done|]. cbn. unfold pc_upd. case_decide as E; [|done]. subst u. rewrite Hp; [done|by left].
Qed.
Lemma place_behind Q e i p : mcs_place Q e (S i) p → holding p = false.
Proof. destruct p; cbn; intros H; try done; by destruct H. Qed.

Section step.
Context (ok : Prop) (try : bool) (s : sys mcs_t mcs_pc) (joins enters Q : list nat).
Context (HI : mcs_inv ok try s joins enters Q).

Lemma mcs_unique i j t : Q !! i = Some t → Q !! j = Some t → i = j.
Proof using HI. intros. eapply NoDup_lookup; [apply (mcs_nodup _ _ _ _ _ _ HI)|..]; done. Qed.

(** Memory [m'] differs from the present one in the node of [t] only. *)
Definition own_node (t : nat) (m' : mcs_t) : Prop :=
  mcs_lock m' = mcs_lock (shared s) ∧ ∀ u, u ≠ t → ents m' u = ents (shared s) u.

Lemma ids_upd t p m' :
  own_node t m' → (ok → id_ok try t (ents m' t) p) → ok → ∀ u, id_ok try u (ents m' u) (pc_upd (pcs s) t p u).
Proof using HI.
  intros [_ Hm] Hp Hok u. unfold pc_upd. case_decide as E; [subst; auto|]. rewrite Hm by done. by apply (mcs_ids _ _ _ _ _ _ HI).
Qed.

(** A thread outside the queue works on its own node *)
Lemma mcs_prepare t p m' :
  own_node t m' → t ∉ Q → mcs_apart (ents m' t) p → (ok → id_ok try t (ents m' t) p) →
  mcs_inv ok try (Sys m' (pc_upd (pcs s) t p)) joins enters Q.
Proof using HI.
  intros Hm Ht Ha Hid. pose proof (ids_upd _ _ _ Hm Hid) as Hids. destruct Hm as [Hml Hm].
  pose proof HI as [Hl Hnd HQ Hnx HO _ (dn & Hjs & Hes)].
  assert (∀ i u, Q !! i = Some u → u ≠ t) as Hne by (intros i u Hu ->; by eapply Ht, list_elem_of_lookup_2).
  split; cbn [shared pcs]; try done; try congruence.
  - intros i u Hu. rewrite Hm, pc_upd_ne by eauto. by apply HQ.
  - intros i u Hu. rewrite Hm by eauto. rewrite link_to_keep by done. by apply Hnx.
  - intros u Hu. unfold pc_upd. case_decide as E; [by subst|]. rewrite Hm by done. by apply HO.
  - exists dn. by rewrite holder_keep.
Qed.

(** A thread of the queue goes on, perhaps setting its own [locked] *)
Lemma mcs_go t i p m' :
  own_node t m' → next (ents m' t) = next (ents (shared s) t) →
  Q !! i = Some t → mcs_place Q (ents m' t) i p → linked p = linked (pcs s t) →
  (holding p = holding (pcs s t) ∨ holding p = true ∧ i = 0%nat ∧ holding (pcs s t) = false) →
  (ok → id_ok try t (ents m' t) p) →
  mcs_inv ok try (Sys m' (pc_upd (pcs s) t p)) joins
    (enters ++ (if holding p && negb (holding (pcs s t)) then [t] else [])) Q.
Proof using HI.
  intros Hm Hn Ht Hp Hlk Hh Hid. pose proof (ids_upd _ _ _ Hm Hid) as Hids. destruct Hm as [Hml Hm].
  pose proof HI as [Hl Hnd HQ Hnx HO _ (dn & Hjs & Hes)].
  split; cbn [shared pcs]; try done; try congruence.
  - intros j u Hu. unfold pc_upd. case_decide as E; [subst u; by rewrite (mcs_unique j i t Hu Ht)|]. rewrite Hm by done. by apply HQ.
  - intros j u Hu. rewrite link_to_keep by done. rewrite <- (Hnx j u Hu).
    destruct (decide (u = t)) as [->|]; [done|]. by rewrite Hm.
  - intros u Hu. assert (u ≠ t) as Hut by (intros ->; by eapply Hu, list_elem_of_lookup_2).
    rewrite Hm, pc_upd_ne by done. by apply HO.
  - exists dn. split; [done|]. rewrite Hes, <- app_assoc. f_equal. destruct Hh as [Hh|(Hh & -> & Hh')].
    + rewrite holder_keep by done. rewrite Hh. by destruct (holding (pcs s t)); rewrite app_nil_r.
    + destruct Q as [|u Q']; [done|]. injection Ht as ->. cbn. by rewrite pc_upd_eq, Hh, Hh'.
Qed.

(** A thread joins the queue *)
Lemma mcs_push t :
  let p := match mcs_lock (shared s) with Some pred => McsLocked pred | None => McsHeld end in
  t ∉ Q → next (ents (shared s) t) = None → (ok → id_ok try t (ents (shared s) t) p) →
  mcs_inv ok try (Sys (Mcs (Some t) (ents (shared s))) (pc_upd (pcs s) t p)) (joins ++ [t])
    (enters ++ (match Q with [] => [t] | _ => [] end)) (Q ++ [t]).
Proof using HI.
  intros p Ht Hnone Hid. pose proof HI as [Hl Hnd HQ Hnx HO Hids (dn & Hjs & Hes)].
  assert (∀ i u, Q !! i = Some u → u ≠ t) as Hne by (intros i u Hu ->; by eapply Ht, list_elem_of_lookup_2).
  assert (Q ≠ [] → linked p = false) as Hlk.
  { intros HQ0. subst p. rewrite Hl. destruct (last Q) eqn:E; [done|]. by apply last_None in E. }
  split; cbn [shared pcs ents mcs_lock]; try done.
  - by rewrite last_snoc.
  - apply NoDup_app. split_and!; [done| |by apply NoDup_singleton]. intros u Hu ->%list_elem_of_singleton. done.
  - intros i u Hu. apply lookup_app_Some in Hu as [Hu|[Hli Hu]].
    + rewrite pc_upd_ne by eauto. pose proof (HQ i u Hu) as Hp. destruct (pcs s u); cbn in *; try done.
      all: try (destruct Hp as [(j & -> & Hj) Hp]; split; [|done]); try (destruct Hp as (j & -> & Hj)).
      all: exists j; split; [done|]; by apply lookup_app_l_Some.
    + apply list_lookup_singleton_Some in Hu as [Hi <-]. rewrite pc_upd_eq. subst p. rewrite Hl.
      destruct (last Q) as [v|] eqn:E; cbn.
      * rewrite last_lookup in E. exists (pred (length Q)). apply lookup_lt_Some in E as HE. split; [lia|]. by apply lookup_app_l_Some.
      * apply last_None in E as ->. cbn in *. lia.
  - intros i u Hu. unfold link_to. apply lookup_app_Some in Hu as [Hu|[Hli Hu]].
    + rewrite (Hnx i u Hu). unfold link_to. destruct (decide (S i < length Q)%nat) as [Hlt|Hge].
      * rewrite lookup_app_l by done. destruct (Q !! S i) as [v|] eqn:Ev; [|done]. cbn. by rewrite pc_upd_ne by eauto.
      * apply lookup_lt_Some in Hu as Hlt. rewrite lookup_app_r, lookup_ge_None_2 by lia.
        replace (S i - length Q)%nat with 0%nat by lia. cbn. rewrite pc_upd_eq, Hlk; [done|]. intros ->. cbn in Hlt. lia.
    + apply list_lookup_singleton_Some in Hu as [Hi <-]. rewrite Hnone, lookup_ge_None_2; [done|]. rewrite length_app. cbn. lia.
  - intros u Hu. rewrite not_elem_of_app in Hu. destruct Hu as [Hu Hn]. rewrite pc_upd_ne by set_solver. by apply HO.
  - intros Hok u. unfold pc_upd. case_decide as E; [subst; auto|]. by apply Hids.
  - exists dn. rewrite Hjs, Hes, <- !app_assoc. split; [done|]. f_equal. destruct Q as [|u Q']; cbn.
    + rewrite pc_upd_eq. subst p. by rewrite Hl.
    + rewrite pc_upd_ne by (by eapply (Hne 0%nat)). by rewrite app_nil_r.
Qed.
End step.

Lemma id_ok_same try t e e' p : thread_id e' = thread_id e → id_ok try t e p → id_ok try t e' p.
Proof. intros E. destruct p; cbn; by rewrite ?E. Qed.
Lemma place_pass Q e e' i p :
  locked e' = locked e → (next e ≠ None → next e' ≠ None) → mcs_place Q e i p → mcs_place Q e' i p.
Proof. intros El En. destruct p; cbn; rewrite ?El; naive_solver. Qed.
Lemma place_shift t Q e i p : mcs_place (t :: Q) e (S (S i)) p → mcs_place Q e (S i) p.
Proof.
  assert (∀ pred, behind (t :: Q) (S (S i)) pred → behind Q (S i) pred) as H.
  { intros pred (j & [= <-] & Hj). by exists i. }
  destruct p; cbn; try done; naive_solver.
Qed.

(** The waiting thread makes itself known to the one before it *)
Lemma mcs_link ok try s joins enters Q i t pred :
  mcs_inv ok try s joins enters Q → Q !! i = Some t → pcs s t = McsLink pred →
  mcs_inv ok try (Sys (set_next pred (Some t) (shared s)) (pc_upd (pcs s) t McsWait)) joins enters Q.
Proof.
  intros HI Hi Ep. pose proof (mcs_unique _ _ _ _ _ _ HI) as Huniq. destruct HI as [Hl Hnd HQ Hnx HO Hids (dn & -> & ->)].
  pose proof (HQ i t Hi) as Hp. rewrite Ep in Hp. destruct Hp as [(j & -> & Hj) Hlk].
  assert (pred ≠ t) as Hpt by (intros ->; pose proof (Huniq _ _ _ Hi Hj); lia).
  split; cbn [shared pcs ents mcs_lock set_next]; try done.
  - intros k u Hu. destruct (decide (u = t)) as [->|Hut].
    + rewrite pc_upd_eq, pc_upd_ne by done. by rewrite (Huniq _ _ _ Hu Hi).
    + rewrite (pc_upd_ne (pcs s)) by done. pose proof (HQ k u Hu) as Hp. unfold pc_upd. case_decide; [subst u|done].
      by eapply place_pass; [..|exact Hp].
  - intros k u Hu. destruct (decide (u = pred)) as [->|Hup].
    + rewrite pc_upd_eq, (Huniq _ _ _ Hu Hj). cbn. unfold link_to. rewrite Hi. cbn. by rewrite pc_upd_eq.
    + rewrite pc_upd_ne, (Hnx k u Hu) by done. unfold link_to. destruct (Q !! S k) as [v|] eqn:Ev; [|done]. cbn.
      rewrite pc_upd_ne; [done|]. intros ->. pose proof (Huniq _ _ _ Ev Hi). replace k with j in Hu by lia. congruence.
  - intros u Hu. rewrite !pc_upd_ne; [by apply HO|intros ->; by eapply Hu, list_elem_of_lookup_2..].
  - intros Hok u. pose proof (Hids Hok u) as Hu. destruct (decide (u = t)) as [->|Hut].
    + rewrite pc_upd_eq, pc_upd_ne by done. by rewrite Ep in Hu.
    + rewrite (pc_upd_ne (pcs s)) by done. unfold pc_upd. case_decide; [subst u|done]. by eapply id_ok_same.
  - exists dn. rewrite holder_keep; [done|]. by rewrite Ep.
Qed.

(** The last one leaves *)
Lemma mcs_leave ok try s joins enters t :
  mcs_inv ok try s joins enters [t] → holding (pcs s t) = true →
  mcs_inv ok try (Sys (Mcs None (ents (shared s))) (pc_upd (pcs s) t McsIdle)) joins enters [].
Proof.
  intros [Hl Hnd HQ Hnx HO Hids (dn & -> & ->)] Hh.
  split; cbn [shared pcs ents mcs_lock]; try done.
  - apply NoDup_nil_2.
  - intros u _. unfold pc_upd. case_decide; [done|]. apply HO. set_solver.
  - intros Hok u. specialize (Hids Hok u). unfold pc_upd. case_decide; [subst u|done]. destruct (pcs s t); try done; by right.
  - exists (dn ++ [t]). cbn. by rewrite Hh, !app_nil_r.
Qed.

(** The holder lets the next one in *)
Lemma mcs_pass ok try s joins enters t u Q :
  mcs_inv ok try s joins enters (t :: u :: Q) → holding (pcs s t) = true → linked (pcs s u) = true →
  mcs_inv ok try (Sys (set_locked u false (shared s)) (pc_upd (pcs s) t McsIdle)) joins enters (u :: Q).
Proof.
  intros [Hl Hnd HQ Hnx HO Hids (dn & -> & ->)] Hh Hlk. apply NoDup_cons in Hnd as [Ht Hnd].
  pose proof (HQ 1%nat u eq_refl) as Hu. assert (pcs s u = McsWait) as Eu by (apply place_behind in Hu; by destruct (pcs s u)).
  assert (∀ i v, (u :: Q) !! i = Some v → v ≠ t) as Hne by (intros i v Hv ->; by eapply Ht, list_elem_of_lookup_2).
  split; cbn [shared pcs ents mcs_lock set_locked]; try done.
  - intros [|i] v Hv.
    + injection Hv as <-. rewrite pc_upd_eq, pc_upd_ne, Eu by (by eapply (Hne 0%nat)). done.
    + rewrite (pc_upd_ne (pcs s)) by eauto. rewrite pc_upd_ne; [by eapply place_shift, (HQ (S (S i)))|].
      intros ->. apply NoDup_cons in Hnd as [Hnd _]. by eapply Hnd, list_elem_of_lookup_2.
  - intros i v Hv. rewrite link_to_keep by done. change (link_to (pcs s) (u :: Q) (S i)) with (link_to (pcs s) (t :: u :: Q) (S (S i))).
    rewrite <- (Hnx (S i) v Hv). unfold pc_upd. case_decide; by subst.
  - intros v Hv. rewrite pc_upd_ne by (intros ->; apply Hv; by left). unfold pc_upd. case_decide; [done|]. apply HO. set_solver.
  - intros Hok v. pose proof (Hids Hok v) as Hid. destruct (decide (v = t)) as [->|Hvt].
    + rewrite pc_upd_eq, pc_upd_ne by (intros ->; by eapply (Hne 0%nat)). destruct (pcs s t); try done; by right.
    + rewrite (pc_upd_ne (pcs s)) by done. unfold pc_upd. case_decide; [subst v|done]. by eapply id_ok_same.
  - exists (dn ++ [t]). cbn. rewrite pc_upd_ne by (by eapply (Hne 0%nat)). by rewrite Hh, Eu, <- !app_assoc.
Qed.

Lemma own_refl s t : own_node s t (shared s).
Proof. by split. Qed.
Lemma own_upd s t e : own_node s t (Mcs (mcs_lock (shared s)) (pc_upd (ents (shared s)) t e)).
Proof. split; [done|]. intros u Hu. cbn. by rewrite pc_upd_ne. Qed.
#[local] Hint Resolve own_refl own_upd : core.

Section step2.
Context (ok : Prop) (try : bool) (s : sys mcs_t mcs_pc) (joins enters Q : list nat).
Context (HI : mcs_inv ok try s joins enters Q).

Lemma mcs_where t :
  (t ∉ Q ∧ mcs_apart (ents (shared s) t) (pcs s t)) ∨ (∃ i, Q !! i = Some t ∧ mcs_place Q (ents (shared s) t) i (pcs s t)).
Proof using HI.
  destruct (decide (t ∈ Q)) as [Ht|Ht]; [right|left; split; [done|by apply (mcs_out _ _ _ _ _ _ HI)]].
  apply list_elem_of_lookup in Ht as [i Hi]. exists i. split; [done|]. by apply (mcs_in _ _ _ _ _ _ HI).
Qed.

Lemma mcs_step_out t p' h' :
  t ∉ Q → mcs_apart (ents (shared s) t) (pcs s t) → mcs_run t (pcs s t) (shared s) = (p', h') →
  (try = false → mcs_trying p' = false) →
  ∃ Q', mcs_inv ok try (Sys h' (pc_upd (pcs s) t p'))
    (joins ++ mcs_joins t (pcs s t) p') (enters ++ mcs_enters t (pcs s t) p') Q'.
Proof using HI.
  intros HQ Ha Hrun Htry. pose proof (mcs_ids _ _ _ _ _ _ HI) as Hid. specialize (λ H, Hid H t).
  pose proof (mcs_last _ _ _ _ _ _ HI) as Hl.
  assert (∀ p m', mcs_joins t (pcs s t) p = [] → mcs_enters t (pcs s t) p = [] → own_node s t m' → mcs_apart (ents m' t) p →
    (ok → id_ok try t (ents m' t) p) → ∃ Q', mcs_inv ok try (Sys m' (pc_upd (pcs s) t p))
    (joins ++ mcs_joins t (pcs s t) p) (enters ++ mcs_enters t (pcs s t) p) Q') as Hprep.
  { intros p m' -> -> ? ? ?. exists Q. rewrite !app_nil_r. by apply mcs_prepare. }
  destruct (pcs s t) eqn:Ep; cbn in Hrun, Ha, Hid; try done; try injection Hrun as <- <-.
  - by apply Hprep.
  - apply Hprep; cbn; rewrite ?pc_upd_eq; try done. apply own_upd.
  - apply Hprep; cbn; rewrite ?pc_upd_eq; try done. apply own_upd.
  - exists (Q ++ [t]). pose proof (mcs_push _ _ _ _ _ _ HI t HQ Ha) as H. rewrite Hl in *.
    assert (mcs_enters t McsXchg (match last Q with Some pred => McsLocked pred | None => McsHeld end)
            = match Q with [] => [t] | _ => [] end) as ->.
    { destruct Q as [|u Q']; [done|]. destruct (last (u :: Q')) eqn:E; [done|]. by apply last_None in E. }
    apply H. by destruct (last Q).
  - apply Hprep; cbn; rewrite ?pc_upd_eq; try done. apply own_upd.
  - pose proof (mcs_push _ _ _ _ _ _ HI t HQ Ha) as H. rewrite Hl in *. destruct (last Q) eqn:El; injection Hrun as <- <-.
    + apply Hprep; try done. intros Hok. right. by apply Hid.
    + apply last_None in El as ->. exists [t]. apply H. by apply Hid.
Qed.

Lemma mcs_id_in i t : ok → Q !! i = Some t → thread_id (ents (shared s) t) = Z.of_nat t.
Proof using HI.
  intros Hok Hi. pose proof (mcs_ids _ _ _ _ _ _ HI Hok t) as H. pose proof (mcs_in _ _ _ _ _ _ HI i t Hi) as Hp.
  destruct (pcs s t); cbn in *; naive_solver.
Qed.

Lemma mcs_step_in t i p' h' :
  Q !! i = Some t → mcs_place Q (ents (shared s) t) i (pcs s t) → mcs_run t (pcs s t) (shared s) = (p', h') →
  ∃ Q', mcs_inv ok try (Sys h' (pc_upd (pcs s) t p'))
    (joins ++ mcs_joins t (pcs s t) p') (enters ++ mcs_enters t (pcs s t) p') Q'.
Proof using HI.
  intros HQ Hp Hrun. pose proof (mcs_ids _ _ _ _ _ _ HI) as Hid. specialize (λ H, Hid H t).
  pose proof (mcs_last _ _ _ _ _ _ HI) as Hl. pose proof (mcs_next _ _ _ _ _ _ HI i t HQ) as Hnx.
  assert (∀ p m', mcs_joins t (pcs s t) p = [] → mcs_enters t (pcs s t) p = [] → own_node s t m' →
    next (ents m' t) = next (ents (shared s) t) → mcs_place Q (ents m' t) i p →
    linked p = linked (pcs s t) → holding p = holding (pcs s t) → (ok → id_ok try t (ents m' t) p) →
    ∃ Q', mcs_inv ok try (Sys m' (pc_upd (pcs s) t p))
    (joins ++ mcs_joins t (pcs s t) p) (enters ++ mcs_enters t (pcs s t) p) Q') as Hgo.
  { intros p m' -> -> Hm Hn Hpl Hlk Hh Hi. exists Q. rewrite !app_nil_r.
    pose proof (mcs_go _ _ _ _ _ _ HI t i p m' Hm Hn HQ Hpl Hlk (or_introl Hh) Hi) as H.
    by rewrite Hh, andb_negb_r, app_nil_r in H. }
  destruct (pcs s t) eqn:Ep; cbn in Hrun, Hp, Hid; try done; try injection Hrun as <- <-.
  - apply Hgo; cbn; rewrite ?pc_upd_eq; try done. apply own_upd.
  - apply Hgo; try done. intros Hok. split; [by apply Hid|].
    destruct Hp as [(j & _ & Hj) _]. by eapply mcs_id_in.
  - destruct Hp as [(j & -> & Hj) Hlk]. destruct (Z.eqb_spec pred_id (thread_id (ents (shared s) t))) as [Heq|Hne]; (apply Hgo; try done).
    + intros Hok. destruct (Hid Hok) as [Ht ->]. rewrite Ht in Heq. apply Nat2Z.inj in Heq as ->.
      pose proof (mcs_unique _ _ _ _ _ _ HI _ _ _ HQ Hj). lia.
    + split; [by exists j|done].
    + intros Hok. by destruct (Hid Hok).
  - exists Q. cbn. rewrite !app_nil_r. by eapply mcs_link.
  - destruct (locked (ents (shared s) t)) eqn:Elk; injection Hrun as <- <-; [by apply Hgo; cbn; rewrite ?Elk|].
    exists Q. cbn. rewrite app_nil_r. symmetry in Hp. apply bool_decide_eq_false in Hp.
    pose proof (mcs_go _ _ _ _ _ _ HI t i McsHeld (shared s) (own_refl s t) eq_refl HQ) as H. rewrite Ep in H. apply H; cbn; try done.
    + destruct i; [done|]. by destruct Hp.
    + right. split_and!; [done|destruct i; [done|by destruct Hp]|done].
  - by apply Hgo.
  - destruct (next (ents (shared s) t)) eqn:En; apply Hgo; cbn; rewrite ?En; try done.
  - subst i. destruct (decide (mcs_lock (shared s) = Some t)) as [E|E]; injection Hrun as <- <-; [|by apply Hgo].
    exists []. cbn. rewrite !app_nil_r. assert (Q = [t]) as EQ.
    { destruct Q as [|u Q']; [done|]. injection HQ as ->. destruct Q' as [|v Q']; [done|]. rewrite Hl in E.
      pose proof (mcs_nodup _ _ _ _ _ _ HI) as [Ht _]%NoDup_cons. destruct Ht. by apply (last_Some_elem_of (v :: Q')), E. }
    rewrite EQ in HI. eapply mcs_leave; [exact HI|by rewrite Ep].
  - destruct (next (ents (shared s) t)) eqn:En; apply Hgo; cbn; rewrite ?En; try done.
  - destruct Hp as [-> Hp]. rewrite Hnx in Hrun, Hp. unfold link_to in *. destruct (Q !! 1%nat) as [u|] eqn:Eu; [|done]. cbn in *.
    destruct (linked (pcs s u)) eqn:Elu; [|done]. injection Hrun as <- <-. destruct Q as [|x [|y Q']]; try done.
    injection HQ as ->. injection Eu as ->. exists (u :: Q'). cbn. rewrite !app_nil_r. by eapply mcs_pass; [|rewrite Ep|].
  - apply Hgo; try done.
Qed.
End step2.

Lemma mcs_inv_step ok try s joins enters Q t p' h' :
  mcs_inv ok try s joins enters Q → runs mcs_run mcs_call t (pcs s t) (shared s) p' h' →
  (try = false → mcs_trying p' = false) →
  ∃ Q', mcs_inv ok try (Sys h' (pc_upd (pcs s) t p'))
    (joins ++ mcs_joins t (pcs s t) p') (enters ++ mcs_enters t (pcs s t) p') Q'.
Proof.
  intros HI Hrun Htry. pose proof (mcs_ids _ _ _ _ _ _ HI) as Hid. specialize (λ H, Hid H t).
  destruct (mcs_where _ _ _ _ _ _ HI t) as [[HQ Ha]|(i & HQ & Hp)]; (destruct Hrun as [Hrun|[Hcall ->]]; [by eauto using mcs_step_out, mcs_step_in|]).
  - exists Q. inversion Hcall as [E|E|E]; subst p'; rewrite <- E in *; cbn in *; try done; rewrite !app_nil_r;
      apply mcs_prepare; try done; cbn; intros Hok; destruct (Hid Hok); destruct try; try done; naive_solver.
  - exists Q. inversion Hcall as [E|E|E]; subst p'; rewrite <- E in *; cbn in *; try done. rewrite !app_nil_r.
    pose proof (mcs_go _ _ _ _ _ _ HI t i McsLeave (shared s) (own_refl s t) eq_refl HQ) as H. rewrite <- E, app_nil_r in H.
    apply H; try done. by left.
Qed.

(** The nodes carry the ids of their threads, or mcslock_try_lock is not used. *)
Definition ids_known (try : bool) (junk : nat → mcs_queue_ent_t) : Prop :=
  try = false ∨ ∀ t, thread_id (junk t) = Z.of_nat t.

Lemma mcs_exec_inv n try junk s joins enters :
  mcs_exec n try junk s joins enters → ∃ Q, mcs_inv (ids_known try junk) try s joins enters Q.
Proof.
  intros Hex. induction Hex as [|s t p' h' joins enters _ [Q HI] _ Hrun Htry]; [|by eapply mcs_inv_step].
  exists []. split; cbn; try done; [apply NoDup_nil_2| |by exists []].
  intros [?|H] t; [by left|]. right. apply H.
Qed.

(** C29: The queue lock is fair and exclusive whatever the nodes held before:
    at any point of any interleaving the lock has been granted in the order
    in which the threads joined the queue; at most one thread holds it or
    is releasing it; when nobody is, the first thread of the queue has been
    told and its next step enters.  When the nodes carry their thread's id,
    or mcslock_try_lock is not used, the assertion on the ids holds and the
    releasing thread never follows a null pointer. *)
Theorem mcs_fifo n try junk s joins enters :
  mcs_exec n try junk s joins enters →
  enters `prefix_of` joins
  ∧ (∀ t u, holding (pcs s t) = true → holding (pcs s u) = true → t = u)
  ∧ (∀ t rest, joins = enters ++ t :: rest → (∀ u, holding (pcs s u) = false) → mcs_run t (pcs s t) (shared s) = (McsHeld, shared s))
  ∧ (ids_known try junk → ∀ t, pcs s t ≠ McsFault).
Proof.
  intros Hex. destruct (mcs_exec_inv _ _ _ _ _ _ Hex) as [Q HI]. destruct (mcs_log _ _ _ _ _ _ HI) as (dn & -> & ->). split_and!.
  - apply prefix_app. destruct Q as [|t Q]; [done|]. cbn. destruct (holding _); [by exists Q|by exists (t :: Q)].
  - assert (∀ t, holding (pcs s t) = true → Q !! 0%nat = Some t) as Hfront; [|intros t u Ht%Hfront Hu%Hfront; congruence].
    intros t Ht. destruct (mcs_where _ _ _ _ _ _ HI t) as [[_ Ho]|([|i] & Hi & Hq)]; [by destruct (pcs s t)|done|].
    apply place_behind in Hq. congruence.
  - intros t rest Ht Hno. assert (mcs_holder (pcs s) Q = []) as He by (destruct Q as [|u Q]; [done|cbn; by rewrite Hno]).
    rewrite He, app_nil_r in Ht. apply app_inv_head in Ht as ->. pose proof (mcs_in _ _ _ _ _ _ HI 0%nat t eq_refl) as Hp.
    specialize (Hno t). assert (∀ pred, ~ behind (t :: rest) 0 pred) as Hb by (by intros pred (j & ? & _)).
    destruct (pcs s t); cbn in Hp, Hno |- *; try done; try (by destruct Hp); try (exfalso; naive_solver).
    by rewrite Hp.
  - intros Hok t Hf. pose proof (mcs_ids _ _ _ _ _ _ HI Hok t) as H. by rewrite Hf in H.
Qed.
