(* ===== verification/LockCases.v ===== *)
(** * The locks on concrete schedules

    Executions in which threads really meet, to which the theorems apply, and
    one in which the queue lock's check of thread ids misfires. *)

From stdpp Require Import base tactics list numbers option sets gmap relations.
From S2P Require Import Prelude Spinlock TicketThms McsThms.

#[local] Open Scope Z_scope.

(** ** Schedules: who moves next; with [Some p] by making a call *)

Definition tk_calls (p : tk_pc) : list tk_pc :=
  match p with TkIdle => [TkTake 0; TkTake 1; TkTryNext] | TkHeld => [TkLeave] | _ => [] end.
Definition mcs_calls (p : mcs_pc) : list mcs_pc :=
  match p with McsIdle => [McsSetId; McsTryReset] | McsHeld => [McsLeave] | _ => [] end.
#[export] Instance tk_pc_eq_dec : EqDecision tk_pc.
Proof. solve_decision. Defined.
#[export] Instance mcs_pc_eq_dec : EqDecision mcs_pc.
Proof. solve_decision. Defined.

Lemma tk_calls_sound p p' : p' ∈ tk_calls p → tk_call p p'.
Proof. destruct p; cbn; rewrite ?elem_of_cons, elem_of_nil; intros; destruct_or?; subst; try done; constructor; auto. Qed.
Lemma mcs_calls_sound p p' : p' ∈ mcs_calls p → mcs_call p p'.
Proof. destruct p; cbn; rewrite ?elem_of_cons, elem_of_nil; intros; destruct_or?; subst; try done; constructor. Qed.

Section sched.
Context {Sh Pc : Type} `{EqDecision Pc} (run : nat → Pc → Sh → Pc * Sh) (calls : Pc → list Pc).

Definition act (n : nat) (a : nat * option Pc) (s : sys Sh Pc) : option (Pc * Sh) :=
  let '(t, c) := a in
  if decide (t < n)%nat then
    match c with
    | None => Some (run t (pcs s t) (shared s))
    | Some p => if decide (p ∈ calls (pcs s t)) then Some (p, shared s) else None
    end
  else None.

Lemma act_sound n t c s p' h' (call : Pc → Pc → Prop) :
  (∀ p p', p' ∈ calls p → call p p') → act n (t, c) s = Some (p', h') →
  (t < n)%nat ∧ runs run call t (pcs s t) (shared s) p' h'.
Proof.
  intros Hc Ha. unfold act in Ha. destruct (decide (t < n)%nat) as [Ht|]; [|done]. split; [done|]. destruct c as [p|].
  - destruct (decide (p ∈ calls (pcs s t))) as [Hp|]; [|done]. injection Ha as <- <-. right. split; [by apply Hc|done].
  - left. by injection Ha as Ha.
Qed.
End sched.

Fixpoint tk_play (n : nat) (l : list (nat * option tk_pc)) (s : sys ticketlock_t tk_pc) (takes enters : list nat)
    : option (sys ticketlock_t tk_pc * list nat * list nat) :=
  match l with
  | [] => Some (s, takes, enters)
  | a :: l =>
      '(p', h') ← act (λ _, tk_run) tk_calls n a s;
      tk_play n l (Sys h' (pc_upd (pcs s) a.1 p')) (takes ++ takes_of a.1 (pcs s a.1) p') (enters ++ enters_of a.1 (pcs s a.1) p')
  end.
Lemma tk_play_sound n l k s takes enters s' takes' enters' :
  tk_exec n true k s takes enters → tk_play n l s takes enters = Some (s', takes', enters') →
  tk_exec n true (length l + k) s' takes' enters'.
Proof.
  revert k s takes enters. induction l as [|[t c] l IH]; intros k s takes enters Hex Hp; cbn [tk_play fst] in Hp; [by simplify_eq|].
  apply bind_Some in Hp as ([p' h'] & Ha & Hp). apply (act_sound _ _ _ _ _ _ _ _ tk_call) in Ha as [Ht Hr]; [|apply tk_calls_sound].
  replace (length ((t, c) :: l) + k)%nat with (length l + S k)%nat by (cbn; lia). eapply IH; [|exact Hp]. by eapply tk_exec_step.
Qed.

Fixpoint mcs_play (n : nat) (l : list (nat * option mcs_pc)) (s : sys mcs_t mcs_pc) (joins enters : list nat)
    : option (sys mcs_t mcs_pc * list nat * list nat) :=
  match l with
  | [] => Some (s, joins, enters)
  | a :: l =>
      '(p', h') ← act mcs_run mcs_calls n a s;
      mcs_play n l (Sys h' (pc_upd (pcs s) a.1 p')) (joins ++ mcs_joins a.1 (pcs s a.1) p') (enters ++ mcs_enters a.1 (pcs s a.1) p')
  end.
Lemma mcs_play_sound n junk l s joins enters s' joins' enters' :
  mcs_exec n true junk s joins enters → mcs_play n l s joins enters = Some (s', joins', enters') →
  mcs_exec n true junk s' joins' enters'.
Proof.
  revert s joins enters. induction l as [|[t c] l IH]; intros s joins enters Hex Hp; cbn [mcs_play fst] in Hp; [by simplify_eq|].
  apply bind_Some in Hp as ([p' h'] & Ha & Hp). apply (act_sound _ _ _ _ _ _ _ _ mcs_call) in Ha as [Ht Hr]; [|apply mcs_calls_sound].
  eapply IH; [|exact Hp]. by eapply mcs_exec_step.
Qed.

(** ** Witnesses *)

(** Threads 1 and 0 take tickets, in this order; 1 enters; 2 tries and
    fails; 1 leaves. *)
Definition tk_meet : list (nat * option tk_pc) :=
  [(1, Some (TkTake 1)); (0, Some (TkTake 0)); (1, None); (0, None); (0, None); (1, None); (1, None);
   (2, Some TkTryNext); (2, None); (2, None); (1, Some TkLeave); (1, None); (1, None)]%nat.
Lemma ticket_fifo_witness :
  ∃ s, tk_exec 3 true 13 s [1; 0]%nat [1]%nat ∧ ∃ m, (m ≤ 3)%nat ∧ pcs (Nat.iter m (tk_alone 0) s) 0%nat = TkHeld.
Proof.
  assert (∃ s, tk_exec 3 true 13 s [1; 0]%nat [1]%nat ∧ ∀ u, inside (pcs s u) = false) as (s & Hex & Hno).
  { eexists. split; [apply (tk_play_sound 3 tk_meet 0 tk_init [] []); [apply tk_exec_init|vm_compute; reflexivity]|].
    by intros [|[|[|u]]]. }
  exists s. split; [done|]. by apply (ticket_fifo 3 true 13 s [1; 0]%nat [1]%nat ltac:(lia) ltac:(right; lia) Hex) with (rest := []).
Defined.

(** Threads 0 and 1 join; 0 enters and leaves while 1 is still linking. *)
Definition mcs_meet : list (nat * option mcs_pc) :=
  [(0, Some McsSetId); (1, Some McsSetId); (0, None); (0, None); (0, None); (1, None); (1, None); (1, None);
   (0, Some McsLeave); (0, None); (0, None); (0, None); (1, None); (1, None); (1, None); (1, None); (0, None); (0, None)]%nat.
Definition own_ids (t : nat) : mcs_queue_ent_t := McsEnt (Some 7%nat) (Z.of_nat t) true.
Lemma mcs_fifo_witness :
  ∃ s, mcs_exec 2 true own_ids s [0; 1]%nat [0]%nat ∧ mcs_run 1 (pcs s 1%nat) (shared s) = (McsHeld, shared s)
    ∧ pcs s 0%nat ≠ McsFault.
Proof.
  assert (∃ s, mcs_exec 2 true own_ids s [0; 1]%nat [0]%nat ∧ ∀ u, holding (pcs s u) = false) as (s & Hex & Hno).
  { eexists. split; [apply (mcs_play_sound 2 own_ids mcs_meet (mcs_init own_ids) [] []); [apply mcs_exec_init|vm_compute; reflexivity]|].
    by intros [|[|u]]. }
  exists s. split; [done|]. destruct (mcs_fifo 2 true own_ids _ _ _ Hex) as (_ & _ & Hgo & Hf). split.
  - by apply Hgo with (rest := []).
  - apply Hf. by right.
Defined.

(** Thread 1 has asked for the lock to write, and got it after the reader. *)
Definition rw_meet : list (nat * option rw_pc) := busy ++ take 6 drain.
Lemma rw_lock_witness :
  ∃ s, rtc (rw_step 3) rw_init s ∧ pcs s 1%nat = RwEx ∧ (∀ u, pcs s u = RwEx ∨ pcs s u = RwSh → u = 1%nat).
Proof.
  destruct (rw_sched 3 rw_meet rw_init) as [s|] eqn:Es; [|by vm_compute in Es].
  pose proof (rw_sched_reach 3 rw_meet _ _ Es) as Hr. assert (pcs s 1%nat = RwEx) as Hp by (injection Es as <-; by vm_compute).
  exists s. split_and!; [done..|]. intros u. by apply (rw_lock_exclusion 3 s ltac:(unfold bit30; lia) Hr).
Defined.

Lemma spinlock_witness :
  ∃ s, rtc (spin_step 2) spin_init s ∧ pcs s 0%nat = SpinHeld ∧ (∀ u, pcs s u = SpinHeld → 0%nat = u).
Proof.
  assert (rtc (spin_step 2) spin_init (Sys 1 (pc_upd (pc_upd (λ _, SpinIdle) 0 SpinTry) 0 SpinHeld))) as Hr.
  { eapply rtc_l; [apply (one_step 2 _ spin_init 0 SpinTry 0); [lia|right; split; [constructor|done]]|].
    eapply rtc_l; [|apply rtc_refl]. apply (one_step 2 _ (Sys 0 (pc_upd (λ _, SpinIdle) 0 SpinTry)) 0 SpinHeld 1); [lia|by left]. }
  eexists. split; [exact Hr|]. split; [done|]. intros u Hu. by apply (spinlock_exclusion 2 _ Hr).
Defined.

(** mcslock_try_lock does not write its thread id into the node: a later
    mcslock_lock compares its own id with what the node happened to hold, and
    asserts. *)
Definition stale_ids (_ : nat) : mcs_queue_ent_t := McsEnt None 1 false.
Definition mcs_misfire : list (nat * option mcs_pc) :=
  [(0, Some McsTryReset); (0, None); (0, None); (1, Some McsSetId); (1, None); (1, None); (1, None); (1, None); (1, None); (1, None)]%nat.
Lemma mcs_try_lock_stale_id :
  ∃ s, mcs_exec 2 true stale_ids s [0; 1]%nat [0]%nat ∧ pcs s 0%nat = McsHeld ∧ pcs s 1%nat = McsFault.
Proof.
  eexists. split; [apply (mcs_play_sound 2 stale_ids mcs_misfire (mcs_init stale_ids) [] []); [apply mcs_exec_init|vm_compute; reflexivity]|].
  done.
Qed.
