(* ===== verification/WaitChain.v ===== *)
(** * kernel/lib/threadsync.cc and threadsync.h: chains of waiting threads

    A mutex, a reader/writer lock and a condition variable each keep the
    threads that wait for them in a circular, doubly linked chain through a
    root in the object and a node on each waiting thread's stack. *)

From stdpp Require Import base tactics list numbers option sets.
From S2P Require Import Prelude.

#[local] Open Scope Z_scope.

(** A root of the object, or the node of a thread *)
Inductive waddr := Root (k : nat) | Node (t : nat).
#[export] Instance waddr_eq_dec : EqDecision waddr.
Proof. solve_decision. Defined.

(** thread_wait_t; a root is only its two links *)
Record wait_t := Wait { wnext : option waddr; wprev : option waddr; wthread : Z }.
Definition wmem : Type := waddr → wait_t.

Definition wset (a : waddr) (w : wait_t) (m : wmem) : wmem := λ x, if decide (x = a) then w else m x.
Definition set_wnext (a : waddr) (p : option waddr) (m : wmem) : wmem := wset a (Wait p (wprev (m a)) (wthread (m a))) m.
Definition set_wprev (a : waddr) (p : option waddr) (m : wmem) : wmem := wset a (Wait (wnext (m a)) p (wthread (m a))) m.
Definition set_wthread (a : waddr) (t : Z) (m : wmem) : wmem := wset a (Wait (wnext (m a)) (wprev (m a)) t) m.

(** Through a null pointer *)
Definition deref (p : option waddr) : M wmem waddr :=
  match p with Some a => mret a | None => throw OutOfRange end.

Definition thread_wait_add (root node : waddr) : M wmem unit :=
  insafter ← gets (λ m, wprev (m root));
  modify (set_wnext node (Some root));;
  modify (set_wprev node insafter);;
  a ← deref insafter;
  modify (set_wnext a (Some node));;
  modify (set_wprev root (Some node)).

Definition thread_wait_del (node : waddr) : M wmem (option waddr) :=
  next ← gets (λ m, wnext (m node));
  prev ← gets (λ m, wprev (m node));
  p ← deref prev;
  modify (set_wnext p next);;
  n ← deref next;
  modify (set_wprev n prev);;
  modify (set_wnext node None);;
  modify (set_wprev node None);;
  mret next.

(** link.next = link.prev = &link *)
Definition chain_init (root : waddr) (m : wmem) : wmem := set_wprev root (Some root) (set_wnext root (Some root) m).

(** ** What a chain looks like *)

Fixpoint seg (m : wmem) (a : waddr) (l : list waddr) (b : waddr) : Prop :=
  match l with
  | [] => wnext (m a) = Some b ∧ wprev (m b) = Some a
  | c :: l => (wnext (m a) = Some c ∧ wprev (m c) = Some a) ∧ seg m c l b
  end.

(** The nodes of [l], in the order they were added, hang on [root]. *)
Definition ring (m : wmem) (root : waddr) (l : list waddr) : Prop := NoDup (root :: l) ∧ seg m root l root.

Lemma wset_eq a w m : wset a w m a = w.
Proof. unfold wset. by rewrite decide_True. Qed.
Lemma wset_ne a w m x : x ≠ a → wset a w m x = m x.
Proof. intros. unfold wset. by rewrite decide_False. Qed.

Lemma seg_app m a l1 c l2 b : seg m a (l1 ++ c :: l2) b ↔ seg m a l1 c ∧ seg m c l2 b.
Proof. revert a. induction l1 as [|d l1 IH]; intros a; cbn; [done|]. rewrite IH. tauto. Qed.
Lemma seg_frame m m' a l b :
  (∀ x, x ∈ a :: l → wnext (m' x) = wnext (m x)) → (∀ x, x ∈ l ++ [b] → wprev (m' x) = wprev (m x)) →
  seg m a l b → seg m' a l b.
Proof.
  revert a. induction l as [|c l IH]; intros a Hn Hp; cbn.
  - by rewrite Hn, Hp by set_solver.
  - rewrite Hn, Hp by set_solver. intros [? Hs]. split; [done|]. apply IH; [set_solver..|done].
Qed.
Lemma ring_frame m m' root l :
  (∀ x, x ∈ root :: l → wnext (m' x) = wnext (m x) ∧ wprev (m' x) = wprev (m x)) → ring m root l → ring m' root l.
Proof. intros H [Hnd Hs]. split; [done|]. eapply seg_frame; [..|exact Hs]; intros x Hx; apply H; set_solver. Qed.

Lemma chain_init_ring root m : ring (chain_init root m) root [].
Proof.
  split; [apply NoDup_singleton|]. unfold chain_init, set_wprev, set_wnext. cbn. rewrite !wset_eq. done.
Qed.

(** Reading after writing *)
Lemma wnext_set_wnext a p m x : wnext (set_wnext a p m x) = if decide (x = a) then p else wnext (m x).
Proof. unfold set_wnext, wset. by case_decide. Qed.
Lemma wprev_set_wnext a p m x : wprev (set_wnext a p m x) = wprev (m x).
Proof. unfold set_wnext, wset. case_decide; by subst. Qed.
Lemma wthread_set_wnext a p m x : wthread (set_wnext a p m x) = wthread (m x).
Proof. unfold set_wnext, wset. case_decide; by subst. Qed.
Lemma wnext_set_wprev a p m x : wnext (set_wprev a p m x) = wnext (m x).
Proof. unfold set_wprev, wset. case_decide; by subst. Qed.
Lemma wprev_set_wprev a p m x : wprev (set_wprev a p m x) = if decide (x = a) then p else wprev (m x).
Proof. unfold set_wprev, wset. by case_decide. Qed.
Lemma wthread_set_wprev a p m x : wthread (set_wprev a p m x) = wthread (m x).
Proof. unfold set_wprev, wset. case_decide; by subst. Qed.
Lemma wnext_set_wthread a t m x : wnext (set_wthread a t m x) = wnext (m x).
Proof. unfold set_wthread, wset. case_decide; by subst. Qed.
Lemma wprev_set_wthread a t m x : wprev (set_wthread a t m x) = wprev (m x).
Proof. unfold set_wthread, wset. case_decide; by subst. Qed.
Lemma wthread_set_wthread a t m x : wthread (set_wthread a t m x) = if decide (x = a) then t else wthread (m x).
Proof. unfold set_wthread, wset. by case_decide. Qed.
Create Rewrite HintDb wmem.
#[export] Hint Rewrite wnext_set_wnext wprev_set_wnext wthread_set_wnext wnext_set_wprev wprev_set_wprev wthread_set_wprev
  wnext_set_wthread wprev_set_wthread wthread_set_wthread : wmem.

(** Two memories with the same node at [x] *)
Lemma wait_eq (w w' : wait_t) : wnext w = wnext w' → wprev w = wprev w' → wthread w = wthread w' → w = w'.
Proof. destruct w, w'; cbn; congruence. Qed.

Ltac wcases :=
  autorewrite with wmem; repeat (case_decide; [subst; try done; try (by exfalso; eauto)|]); try done; try congruence; try (by exfalso; eauto).

(** What [m'] may differ in from [m]: links of the nodes in [l] *)
Definition only_links (l : list waddr) (m m' : wmem) : Prop :=
  (∀ x, x ∉ l → m' x = m x) ∧ (∀ x, wthread (m' x) = wthread (m x)).

(** The last link of a segment, and where it may be redirected to *)
Lemma seg_last m a l e :
  seg m a l e → NoDup (a :: l) →
  ∃ z, wprev (m e) = Some z ∧ z ∈ a :: l ∧ wnext (m z) = Some e
    ∧ ∀ b m', (∀ x, x ∈ a :: l → x ≠ z → wnext (m' x) = wnext (m x)) → (∀ x, x ∈ l → wprev (m' x) = wprev (m x)) →
       wnext (m' z) = Some b → wprev (m' b) = Some z → seg m' a l b.
Proof.
  induction l as [|z l _] using rev_ind; intros Hs Hnd.
  - destruct Hs as [Hn Hp]. exists a. split_and!; [done|set_solver|done|]. by intros b m' _ _ ? ?.
  - apply seg_app in Hs as [Hs [Hn Hp]]. exists z. split_and!; [done|set_solver|done|]. intros b m' Hn' Hp' Hz Hb.
    apply seg_app. split; [|done]. rewrite app_comm_cons in Hnd. apply NoDup_app in Hnd as (Hnd & Hz' & _).
    eapply seg_frame; [..|exact Hs]; [|intros; apply Hp'; set_solver].
    intros x Hx. apply Hn'; [set_solver|]. intros ->. apply (Hz' z Hx). by left.
Qed.

Lemma thread_wait_add_spec m root l n :
  ring m root l → n ∉ root :: l →
  ∃ m', thread_wait_add root n m = Done (tt, m') ∧ ring m' root (l ++ [n]) ∧ only_links (root :: l ++ [n]) m m'.
Proof.
  intros [Hnd Hs] Hn. assert (∀ x, x ∈ root :: l → x = n → False) as Hxn by (by intros x Hx ->).
  assert (root ≠ n) as Hrn by (intros ->; apply Hn; by left).
  assert (∀ x, x ∈ l → x = root → False) as Hxr by (intros x Hx ->; by apply NoDup_cons in Hnd as [? _]).
  assert (∀ x, x ∈ l → x = n → False) as Hxn' by (intros x Hx ->; apply Hn; by right).
  destruct (seg_last _ _ _ _ Hs Hnd) as (z & Hz & Hzl & _ & Hre). unfold thread_wait_add.
  autorewrite with run. rewrite Hz. cbn [deref]. autorewrite with run. eexists. split; [reflexivity|]. split.
  - split; [rewrite app_comm_cons; apply NoDup_app; split_and!; [done|set_solver|apply NoDup_singleton]|].
    apply seg_app. split.
    + apply Hre; [intros x Hx Hxz|intros x Hx| |]; wcases.
    + cbn. split; wcases.
  - split; [|intros x; wcases]. intros x Hx. rewrite app_comm_cons, not_elem_of_app, list_elem_of_singleton in Hx. destruct Hx as [Hx Hxn1].
    assert (x ≠ root) by (intros ->; apply Hx; by left). assert (x ≠ z) by congruence. apply wait_eq; wcases.
Qed.

Lemma thread_wait_del_spec m root l1 n l2 :
  ring m root (l1 ++ n :: l2) →
  ∃ m' nx, thread_wait_del n m = Done (Some nx, m') ∧ head (l2 ++ [root]) = Some nx ∧ ring m' root (l1 ++ l2)
    ∧ wnext (m' n) = None ∧ wprev (m' n) = None ∧ only_links (root :: l1 ++ n :: l2) m m'.
Proof.
  intros [Hnd Hs]. apply seg_app in Hs as [H1 H2]. rewrite app_comm_cons in Hnd.
  apply NoDup_app in Hnd as (Hnd1 & Hd & [Hn2 Hnd2]%NoDup_cons).
  assert (∀ x, x ∈ root :: l1 → x = n → False) as Hn1 by (intros x H ->; apply (Hd n H); by left).
  assert (∀ x, x ∈ l1 → x = n → False) as Hn1' by (intros x H; apply Hn1; by right).
  assert (∀ x, x ∈ l2 → x = n → False) as Hn2' by (by intros x H ->).
  assert (∀ x y, x ∈ l2 → y ∈ root :: l1 → x = y → False) as Hd2 by (intros x y Hx H ->; apply (Hd y H); by right).
  assert (∀ x, x ∈ l1 → x = root → False) as Hr by (intros x H ->; by apply NoDup_cons in Hnd1 as [? _]).
  assert (root ∈ root :: l1) as Hrr by (by left).
  destruct (seg_last _ _ _ _ H1 Hnd1) as (z & Hz & Hzl & _ & Hre).
  assert (∃ nx, wnext (m n) = Some nx ∧ head (l2 ++ [root]) = Some nx ∧ nx ≠ n) as (nx & Hnx & Hhd & Hne).
  { destruct l2 as [|y l2]; [exists root|exists y]; (split_and!; [apply H2|done|]).
    - intros E. by apply (Hn1 root).
    - intros E. apply (Hn2' y); [by left|done]. }
  unfold thread_wait_del. autorewrite with run. rewrite Hz, Hnx. cbn [deref]. autorewrite with run.
  eexists _, nx. split; [reflexivity|]. split; [done|]. split_and!.
  - split; [rewrite app_comm_cons; apply NoDup_app; split_and!; [done|intros x H1' H2'; by apply (Hd2 x x)|done]|].
    destruct l2 as [|y l2]; injection Hhd as <-.
    + rewrite app_nil_r. apply Hre; [intros x Hx Hxz|intros x Hx| |]; wcases.
    + apply NoDup_cons in Hnd2 as [Hy _]. assert (y ∈ y :: l2) as Hyy by (by left).
      assert (∀ x, x ∈ l1 → x = y → False) as Hy1 by (intros x H ->; apply (Hd2 y y); [done|by right|done]).
      apply seg_app. split; [apply Hre; [intros x Hx Hxz|intros x Hx| |]; wcases|].
      eapply seg_frame; [..|apply H2]; intros x Hx.
      * wcases.
      * assert (x ≠ n ∧ x ≠ y) as [Hx1 Hx2]; [|wcases]. apply elem_of_app in Hx as [Hx|Hx]; [|apply list_elem_of_singleton in Hx as ->].
        { split; [intros ->; apply (Hn2' n); [by right|done]|by intros ->]. }
        split; [intros E; by apply (Hn1 root)|intros E; by apply (Hd2 y root)].
  - wcases.
  - wcases.
  - split; [|intros x; wcases]. intros x Hx. rewrite app_comm_cons in Hx. apply not_elem_of_app in Hx as [Hx [Hxn Hx2]%not_elem_of_cons].
    assert (x ≠ root) by (intros ->; by apply Hx). assert (x ≠ z) by congruence.
    assert (x ≠ nx) by (destruct l2 as [|y l2]; injection Hhd as <-; [done|]; intros ->; apply Hx2; by left).
    apply wait_eq; wcases.
Qed.
