(* ===== verification/ThreadMutex.v ===== *)
(** * kernel/lib/threadsync.cc: mutexes

    Any number of threads use a mutex.  What happens between taking and
    releasing the mutex's own spinlock is one step, since all that is written
    there is written only with that lock held ([Spinlock] has the lock);
    reads outside it are steps of their own.  thread_sleep_release and
    thread_resume (kernel/arch/x86_64/cpu/thread_impl.cc) are modelled by
    what they do to the state of a thread: one waits in [Sleeping] for a
    result, the other waits for [Sleeping] and gives the result. *)

From stdpp Require Import base tactics list numbers option sets.
From S2P Require Import Prelude Spinlock WaitChain.

#[local] Open Scope Z_scope.

(** What the other side of a wait sees of a thread *)
Inductive tstate := Running | Sleeping | Resumed (result : Z).
#[export] Instance tstate_eq_dec : EqDecision tstate.
Proof. solve_decision. Defined.

Record mutex_t := Mutex { chain : wmem; owner : Z; spin_count : Z; tst : nat → tstate }.

Definition set_chain (m : wmem) (s : mutex_t) : mutex_t := Mutex m (owner s) (spin_count s) (tst s).
Definition set_owner (o : Z) (s : mutex_t) : mutex_t := Mutex (chain s) o (spin_count s) (tst s).
Definition set_spin (n : Z) (s : mutex_t) : mutex_t := Mutex (chain s) (owner s) n (tst s).
Definition set_tst (t : nat) (x : tstate) (s : mutex_t) : mutex_t := Mutex (chain s) (owner s) (spin_count s) (pc_upd (tst s) t x).

Definition on_chain {A} (c : M wmem A) : M mutex_t A := λ s,
  match c (chain s) with Done (a, m) => Done (a, set_chain m s) | Fault e => Fault e end.
Definition mx_assert (b : bool) : M mutex_t unit := if b then mret tt else throw AssertFailed.

Definition SPINCOUNT_MAX : Z := 4096.
Definition SPINCOUNT_MIN : Z := 4.
Definition mroot : waddr := Root 0.

(** spincount_mask is -1 on a machine with several processors, 0 with one. *)
Definition mutex_init (mask : Z) (junk : wmem) : mutex_t :=
  Mutex (chain_init mroot junk) (-1) (Z.land mask (SPINCOUNT_MIN + Z.shiftr (SPINCOUNT_MAX - SPINCOUNT_MIN) 1)) (λ _, Running).

Definition spin_more (mask n : Z) : Z := n - Z.land (- Z.b2z (n <? SPINCOUNT_MAX)) mask.
(** mutex_lock and mutex_try_lock_until differ in the bound they test. *)
Definition spin_less (until : bool) (mask n : Z) : Z :=
  n + Z.land (- Z.b2z (if until then SPINCOUNT_MIN <? n else n <? SPINCOUNT_MAX)) mask.

Definition thread_sleep_release (t : nat) : M mutex_t unit :=
  on_chain (modify (set_wthread (Node t) (Z.of_nat t)));;
  x ← gets (λ s, tst s t);
  mx_assert (bool_decide (x = Running));;
  modify (set_tst t Sleeping).

Inductive lock_out := LkSpin | LkGot | LkSleep.

Section mask.
Context (mask : Z).

(** With mutex->lock held: from its acquisition in mutex_lock or
    mutex_try_lock_until to its release *)
Definition lock_section (until : bool) (t : nat) (spin : Z) : M mutex_t lock_out :=
  sc ← gets spin_count;
  o ← gets owner;
  if (spin <? sc) && (0 <=? o) then mret LkSpin
  else if o <? 0 then
    modify (set_owner (Z.of_nat t));;
    modify (set_spin (spin_more mask sc));;
    mret LkGot
  else
    modify (set_spin (spin_less until mask sc));;
    on_chain (thread_wait_add mroot (Node t));;
    thread_sleep_release t;;
    mret LkSleep.

Definition try_section (t : nat) : M mutex_t bool :=
  o ← gets owner;
  if o <? 0 then modify (set_owner (Z.of_nat t));; mret true else mret false.

(** Whom to resume, if anyone *)
Definition unlock_section (t : nat) : M mutex_t (option Z) :=
  o ← gets owner;
  mx_assert (o =? Z.of_nat t);;
  nx ← gets (λ s, wnext (chain s mroot));
  if bool_decide (nx = Some mroot) then modify (set_owner (-1));; mret None
  else
    waiter ← on_chain (deref nx);
    on_chain (thread_wait_del waiter);;
    w ← gets (λ s, wthread (chain s waiter));
    modify (set_owner w);;
    mret (Some w).

Definition mutex_destroy : M mutex_t unit :=
  m ← gets chain;
  mx_assert (bool_decide (wnext (m mroot) = wprev (m mroot)));;
  o ← gets owner;
  mx_assert (o =? -1).

(** ** The places between steps *)

Inductive mx_pc :=
  | MxIdle
  | MxAssert (until : bool)                          (* assert(owner != this thread) *)
  | MxSpin (until : bool) (spin : Z) | MxSpinOwner (until : bool) (spin : Z)
  | MxLock (until : bool) (spin : Z)                 (* the spinlock, and the section *)
  | MxSleep (until : bool) | MxTimedOut              (* thread_sleep_release *)
  | MxWoken | MxOwner                                (* the assertions after it *)
  | MxHeld
  | MxUnlock | MxResume (w : Z)                      (* mutex_unlock, thread_resume *)
  | MxTryAssert | MxTry                              (* mutex_try_lock *)
  | MxFault.

Definition mx_run (t : nat) (p : mx_pc) (s : mutex_t) : mx_pc * mutex_t :=
  match p with
  | MxAssert until => (if owner s =? Z.of_nat t then MxFault else MxSpin until 0, s)
  | MxSpin until spin => (if spin <? spin_count s then MxSpinOwner until spin else MxLock until spin, s)
  | MxSpinOwner until spin => (if 0 <=? owner s then MxSpin until (spin + 1) else MxLock until spin, s)
  | MxLock until spin =>
      match lock_section until t spin s with
      | Done (LkSpin, s) => (MxSpin until (spin + 1), s)
      | Done (LkGot, s) => (MxHeld, s)
      | Done (LkSleep, s) => (MxSleep until, s)
      | Fault _ => (MxFault, s)
      end
  | MxSleep until =>
      match tst s t with
      | Resumed r => (if r =? 0 then MxIdle else MxWoken, set_tst t Running s)
      | _ => (p, s)
      end
  | MxTimedOut =>
      match tst s t with Sleeping => (MxIdle, set_tst t Running s) | _ => (MxSleep true, s) end
  | MxWoken =>
      let n := chain s (Node t) in
      (if bool_decide (wnext n = None) && bool_decide (wprev n = None) then MxOwner else MxFault, s)
  | MxOwner => (if owner s =? wthread (chain s (Node t)) then MxHeld else MxFault, s)
  | MxUnlock =>
      match unlock_section t s with
      | Done (None, s) => (MxIdle, s)
      | Done (Some w, s) => (MxResume w, s)
      | Fault _ => (MxFault, s)
      end
  | MxResume w =>
      match tst s (Z.to_nat w) with Sleeping => (MxIdle, set_tst (Z.to_nat w) (Resumed 1) s) | _ => (p, s) end
  | MxTryAssert => (if owner s =? Z.of_nat t then MxFault else MxTry, s)
  | MxTry =>
      match try_section t s with
      | Done (true, s) => (MxHeld, s)
      | Done (false, s) => (MxIdle, s)
      | Fault _ => (MxFault, s)
      end
  | MxIdle | MxHeld | MxFault => (p, s)
  end.
Inductive mx_call : mx_pc → mx_pc → Prop :=
  | mutex_lock : mx_call MxIdle (MxAssert false)
  | mutex_try_lock_until : mx_call MxIdle (MxAssert true)
  | spin_timed_out spin : mx_call (MxLock true spin) MxIdle    (* spinlock_try_lock_until *)
  | sleep_timed_out : mx_call (MxSleep true) MxTimedOut        (* the timer *)
  | mutex_try_lock : mx_call MxIdle MxTryAssert
  | mutex_unlock : mx_call MxHeld MxUnlock.

(** ** Executions in which no sleeping thread's time runs out

    The threads that became owner or waiter, and those that returned from
    mutex_lock and its kin with the mutex, in order. *)

Definition mx_joins (t : nat) (p p' : mx_pc) : list nat :=
  match p, p' with MxLock _ _, MxHeld | MxLock _ _, MxSleep _ | MxTry, MxHeld => [t] | _, _ => [] end.
Definition mx_enters (t : nat) (p p' : mx_pc) : list nat :=
  match p, p' with MxLock _ _, MxHeld | MxOwner, MxHeld | MxTry, MxHeld => [t] | _, _ => [] end.

Inductive mx_exec (n : nat) (junk : wmem) : sys mutex_t mx_pc → list nat → list nat → Prop :=
  | mx_exec_init : mx_exec n junk (Sys (mutex_init mask junk) (λ _, MxIdle)) [] []
  | mx_exec_step s t p' h' joins enters :
      mx_exec n junk s joins enters → (t < n)%nat →
      runs mx_run mx_call t (pcs s t) (shared s) p' h' → p' ≠ MxTimedOut →
      mx_exec n junk (Sys h' (pc_upd (pcs s) t p'))
        (joins ++ mx_joins t (pcs s t) p') (enters ++ mx_enters t (pcs s t) p').
End mask.

(** * Mutexes: one owner, first come first served, no waiter forgotten *)

Definition has_mutex (p : mx_pc) : bool := match p with MxHeld | MxUnlock => true | _ => false end.
Definition asleep (p : mx_pc) : bool := match p with MxSleep _ => true | _ => false end.
Definition unlinked (m : wmem) (t : nat) : Prop := wnext (m (Node t)) = None ∧ wprev (m (Node t)) = None.

(** [W]: the owner, then the threads that wait *)
Definition mx_place (h : mutex_t) (i t : nat) (p : mx_pc) : Prop :=
  match p with
  | MxHeld | MxUnlock => i = 0%nat ∧ tst h t = Running
  | MxWoken => i = 0%nat ∧ tst h t = Running ∧ unlinked (chain h) t ∧ wthread (chain h (Node t)) = Z.of_nat t
  | MxOwner => i = 0%nat ∧ tst h t = Running ∧ wthread (chain h (Node t)) = Z.of_nat t
  | MxSleep _ => wthread (chain h (Node t)) = Z.of_nat t
      ∧ match i with O => unlinked (chain h) t ∧ (tst h t = Resumed 1 ∨ tst h t = Sleeping) | S _ => tst h t = Sleeping end
  | _ => False
  end.
Definition mx_apart (s : sys mutex_t mx_pc) (W : list nat) (t : nat) : Prop :=
  tst (shared s) t = Running ∧
  match pcs s t with
  | MxIdle | MxAssert _ | MxSpin _ _ | MxSpinOwner _ _ | MxLock _ _ | MxTryAssert | MxTry => True
  | MxResume w => ∃ u, w = Z.of_nat u ∧ head W = Some u ∧ tst (shared s) u = Sleeping
  | _ => False
  end.

Definition mx_holder (ps : nat → mx_pc) (W : list nat) : list nat :=
  match W with t :: _ => if has_mutex (ps t) then [t] else [] | [] => [] end.

Record mx_inv (s : sys mutex_t mx_pc) (joins enters W : list nat) : Prop := MxInv {
  mx_ring : ring (chain (shared s)) mroot (Node <$> tail W);
  mx_own : owner (shared s) = match W with t :: _ => Z.of_nat t | [] => -1 end;
  mx_nodup : NoDup W;
  mx_in : ∀ i t, W !! i = Some t → mx_place (shared s) i t (pcs s t);
  mx_out : ∀ t, t ∉ W → mx_apart s W t;
  mx_waker : ∀ t, head W = Some t → tst (shared s) t = Sleeping → ∃ u, pcs s u = MxResume (Z.of_nat t);
  mx_one_waker : ∀ u u' w w', pcs s u = MxResume w → pcs s u' = MxResume w' → u = u';
  mx_log : ∃ done, joins = done ++ W ∧ enters = done ++ mx_holder (pcs s) W
}.

Lemma mx_holder_keep ps W t p : (t ∈ W → has_mutex p = has_mutex (ps t)) → mx_holder (pc_upd ps t p) W = mx_holder ps W.
Proof.
  intros Hp. destruct W as [|u W]; [done|]. cbn. unfold pc_upd. case_decide as E; [|done]. subst u. rewrite Hp; [done|by left].
Qed.
Lemma place_tail h i t p : mx_place h (S i) t p → asleep p = true ∧ tst h t = Sleeping.
Proof. destruct p; cbn; naive_solver. Qed.

(** The place of a thread depends on its own node and state. *)
Lemma place_frame h h' i t p :
  chain h' (Node t) = chain h (Node t) → tst h' t = tst h t → mx_place h i t p → mx_place h' i t p.
Proof. intros Hc Ht. destruct p; cbn; unfold unlinked; by rewrite ?Hc, ?Ht. Qed.

Section step.
Context (s : sys mutex_t mx_pc) (joins enters W : list nat).
Context (HI : mx_inv s joins enters W).

Lemma mx_unique i j t : W !! i = Some t → W !! j = Some t → i = j.
Proof using HI. intros. eapply NoDup_lookup; [apply (mx_nodup _ _ _ _ HI)|..]; done. Qed.

(** A resuming thread is outside the queue. *)
Lemma waker_out u w : pcs s u = MxResume w → u ∉ W.
Proof using HI.
  intros Hp [i Hi]%list_elem_of_lookup. pose proof (mx_in _ _ _ _ HI i u Hi) as H. by rewrite Hp in H.
Qed.

Lemma wakers_upd t p :
  (∀ w, p = MxResume w → ∀ u w', u ≠ t → pcs s u = MxResume w' → False) →
  ∀ u u' w w', pc_upd (pcs s) t p u = MxResume w → pc_upd (pcs s) t p u' = MxResume w' → u = u'.
Proof using HI.
  intros Hp u u' w w'. unfold pc_upd. repeat case_decide; subst; try done.
  - intros E1 E2. exfalso. by eapply (Hp w E1 u').
  - intros E1 E2. exfalso. by eapply (Hp w' E2 u).
  - apply (mx_one_waker _ _ _ _ HI).
Qed.

(** A thread outside moves on without writing. *)
Lemma mx_move_out t p :
  t ∉ W → (∀ w, pcs s t ≠ MxResume w) → (∀ w, p ≠ MxResume w) →
  match p with MxIdle | MxAssert _ | MxSpin _ _ | MxSpinOwner _ _ | MxLock _ _ | MxTryAssert | MxTry => True | _ => False end →
  mx_inv (Sys (shared s) (pc_upd (pcs s) t p)) joins enters W.
Proof using HI.
  intros Ht Hold Hp Hok. pose proof (wakers_upd t p) as Hone. destruct HI as [Hr Ho Hnd HW HO Hw _ (dn & Hj & He)].
  split; cbn [shared pcs]; try done.
  - intros i u Hu. rewrite pc_upd_ne by (intros ->; by eapply Ht, list_elem_of_lookup_2). by apply HW.
  - intros u Hu. destruct (HO u Hu) as [Hrun Hu']. split; [done|]. cbn. unfold pc_upd. case_decide; [|done]. subst u. by destruct p.
  - intros u Hu Hsl. destruct (Hw u Hu Hsl) as [v Hv]. exists v. rewrite pc_upd_ne; [done|]. intros ->. by eapply Hold.
  - apply Hone. intros w E. by destruct (Hp w).
  - exists dn. rewrite mx_holder_keep by done. done.
Qed.

(** The owner, or a sleeping thread, moves on without writing. *)
Lemma mx_move_in t i p :
  W !! i = Some t → mx_place (shared s) i t p → (has_mutex p = has_mutex (pcs s t) ∨ has_mutex p = true ∧ i = 0%nat ∧ has_mutex (pcs s t) = false) →
  mx_inv (Sys (shared s) (pc_upd (pcs s) t p)) joins (enters ++ (if has_mutex p && negb (has_mutex (pcs s t)) then [t] else [])) W.
Proof using HI.
  intros Ht Hp Hh. pose proof (wakers_upd t p) as Hone. pose proof (waker_out t) as Hto. pose proof mx_unique as Hu1.
  pose proof HI as [Hr Ho Hnd HW HO Hw _ (dn & Hj & He)].
  assert (t ∈ W) as HtW by (by eapply list_elem_of_lookup_2).
  split; cbn [shared pcs]; try done.
  - intros j u Hu. unfold pc_upd. case_decide; [subst u|by apply HW]. by rewrite (Hu1 j i t Hu Ht).
  - intros u Hu. destruct (HO u Hu) as [Hrun Hu']. split; [done|]. cbn. by rewrite pc_upd_ne by (by intros ->).
  - intros u Hu Hsl. destruct (Hw u Hu Hsl) as [v Hv]. exists v. rewrite pc_upd_ne; [done|]. intros ->. by eapply Hto.
  - apply Hone. intros w E. subst p. done.
  - exists dn. split; [done|]. rewrite He, <- app_assoc. f_equal. destruct Hh as [Hh|(Hh & -> & Hh')].
    + rewrite mx_holder_keep by done. rewrite Hh. by destruct (has_mutex (pcs s t)); rewrite app_nil_r.
    + destruct W as [|u W']; [done|]. injection Ht as ->. cbn. by rewrite pc_upd_eq, Hh, Hh'.
Qed.
End step.

Section step2.
Context (s : sys mutex_t mx_pc) (joins enters W : list nat).
Context (HI : mx_inv s joins enters W).

(** The mutex is free and taken. *)
Lemma mx_take t h' :
  W = [] → chain h' = chain (shared s) → tst h' = tst (shared s) → owner h' = Z.of_nat t →
  (∀ w, pcs s t ≠ MxResume w) →
  mx_inv (Sys h' (pc_upd (pcs s) t MxHeld)) (joins ++ [t]) (enters ++ [t]) [t].
Proof using HI.
  intros EW Hc Ht Ho Hold. pose proof (wakers_upd s _ _ _ HI t MxHeld) as Hone. destruct HI as [Hr _ Hnd HW HO Hw _ (dn & Hj & He)]. subst W.
  split; cbn [shared pcs]; try done.
  - by rewrite Hc.
  - apply NoDup_singleton.
  - intros [|i] u Hu; [|done]. injection Hu as <-. rewrite pc_upd_eq. cbn. rewrite Ht. split; [done|]. apply (HO t). set_solver.
  - intros u Hu. rewrite list_elem_of_singleton in Hu. destruct (HO u ltac:(set_solver)) as [Hrun Hu']. split; cbn; [by rewrite Ht|].
    rewrite pc_upd_ne by done. destruct (pcs s u); try done. by destruct Hu' as (? & _ & ? & _).
  - intros u Hu Hsl. injection Hu as <-. rewrite Ht in Hsl. destruct (HO t ltac:(set_solver)) as [Hrun _]. congruence.
  - by apply Hone.
  - exists dn. rewrite Hj, He, <- !app_assoc. cbn. by rewrite pc_upd_eq.
Qed.

(** The mutex is taken: the thread queues up and goes to sleep. *)
Lemma mx_queue t u0 W0 p m' h' :
  W = u0 :: W0 → t ∉ W → (∀ w, pcs s t ≠ MxResume w) → asleep p = true →
  ring m' mroot (Node <$> W0 ++ [t]) → only_links (mroot :: (Node <$> W0) ++ [Node t]) (chain (shared s)) m' →
  chain h' = set_wthread (Node t) (Z.of_nat t) m' → owner h' = owner (shared s) → tst h' = pc_upd (tst (shared s)) t Sleeping →
  mx_inv (Sys h' (pc_upd (pcs s) t p)) (joins ++ [t]) enters (W ++ [t]).
Proof using HI.
  intros EW HtW Hold Hp Hr' [Hm Hth] Hc Ho Ht.
  assert (has_mutex p = false ∧ ∀ w, p ≠ MxResume w) as [Hnh Hnr] by (by destruct p).
  pose proof (wakers_upd s _ _ _ HI t p) as Hone. destruct HI as [Hr Hown Hnd HW HO Hw _ (dn & Hj & He)].
  assert (∀ x, x ≠ t → wthread (chain h' (Node x)) = wthread (chain (shared s) (Node x))) as Hthx.
  { intros x Hx. rewrite Hc. autorewrite with wmem. rewrite decide_False by congruence. apply Hth. }
  assert (∀ x, x ∉ W0 → x ≠ t → chain h' (Node x) = chain (shared s) (Node x)) as Hnode.
  { intros x Hx Hxt. rewrite Hc. unfold set_wthread. rewrite wset_ne by congruence. apply Hm.
    intros [?|[(y & [= ->] & Hy)%list_elem_of_fmap|[= ->]%list_elem_of_singleton]%elem_of_app]%elem_of_cons; done. }
  assert (∀ i u, W !! i = Some u → u ≠ t) as Hne by (intros i u Hu ->; by eapply HtW, list_elem_of_lookup_2).
  split; cbn [shared pcs].
  - rewrite EW. cbn [tail app]. eapply ring_frame; [|exact Hr']. intros x _. rewrite Hc. by autorewrite with wmem.
  - by rewrite Ho, Hown, EW.
  - apply NoDup_app. split_and!; [done| |by apply NoDup_singleton]. intros u Hu ->%list_elem_of_singleton. done.
  - intros i u Hu. apply lookup_app_Some in Hu as [Hu|[Hli Hu]].
    + specialize (Hne i u Hu). rewrite pc_upd_ne by done. pose proof (HW i u Hu) as Hpl. subst W. destruct i as [|i].
      * injection Hu as ->. apply (place_frame (shared s)); [|by rewrite Ht, pc_upd_ne|done].
        apply Hnode; [|done]. by apply NoDup_cons in Hnd as [? _].
      * destruct (pcs s u); cbn in *; try (by destruct Hpl). rewrite Hthx, Ht, pc_upd_ne by done. done.
    + apply list_lookup_singleton_Some in Hu as [Hi <-]. rewrite pc_upd_eq. subst W. cbn in Hi, Hli.
      destruct i as [|i]; [lia|]. destruct p; try done. cbn. rewrite Hc, Ht, pc_upd_eq. autorewrite with wmem. by rewrite decide_True.
  - intros u Hu. apply not_elem_of_app in Hu as [Hu Hut]. rewrite list_elem_of_singleton in Hut. destruct (HO u Hu) as [Hrun Hu'].
    split; cbn; rewrite ?Ht, ?pc_upd_ne by done; [done|]. destruct (pcs s u); try done. destruct Hu' as (v & ? & Hv & ?). exists v.
    subst W. cbn in *. injection Hv as ->. rewrite pc_upd_ne by (by eapply (Hne 0%nat)). done.
  - intros u Hu Hsl. subst W. injection Hu as <-. rewrite Ht, pc_upd_ne in Hsl by (by eapply (Hne 0%nat)).
    destruct (Hw u0 eq_refl Hsl) as [v Hv]. exists v. rewrite pc_upd_ne; [done|]. intros ->. by eapply Hold.
  - apply Hone. intros w E. by destruct (Hnr w).
  - exists dn. rewrite Hj, <- app_assoc. split; [done|]. rewrite He. f_equal. subst W. cbn.
    by rewrite pc_upd_ne by (by eapply (Hne 0%nat)).
Qed.

(** A resumed thread runs again. *)
Lemma mx_wake t i u :
  W !! i = Some t → pcs s t = MxSleep u → tst (shared s) t = Resumed 1 →
  mx_inv (Sys (set_tst t Running (shared s)) (pc_upd (pcs s) t MxWoken)) joins enters W.
Proof using HI.
  intros Ht Ep Hrs. pose proof (wakers_upd s _ _ _ HI t MxWoken) as Hone. pose proof (mx_unique s _ _ _ HI) as Huq.
  pose proof (waker_out s _ _ _ HI t) as Hto. destruct HI as [Hr Ho Hnd HW HO Hw _ (dn & Hj & He)].
  assert (t ∈ W) as HtW by (by eapply list_elem_of_lookup_2).
  pose proof (HW i t Ht) as Hpl. rewrite Ep in Hpl. destruct Hpl as [Hth Hpl]. destruct i as [|i]; [|congruence]. destruct Hpl as [Hun _].
  split; cbn [shared pcs]; try done.
  - intros j v Hv. destruct (decide (v = t)) as [->|Hvt].
    + rewrite pc_upd_eq, (Huq j 0%nat t Hv Ht). cbn. by rewrite pc_upd_eq.
    + rewrite pc_upd_ne by done. apply (place_frame (shared s)); [done|cbn; by rewrite pc_upd_ne|by apply HW].
  - intros v Hv. assert (v ≠ t) as Hvt by (by intros ->). destruct (HO v Hv) as [Hrun Hv']. split; cbn; rewrite pc_upd_ne by done; [done|].
    destruct (pcs s v); try done. destruct Hv' as (x & ? & Hx & Hsl). exists x. rewrite pc_upd_ne by congruence. done.
  - intros v Hv Hsl. cbn in Hsl. assert (v = t) as -> by (destruct W; [done|]; cbn in *; congruence). by rewrite pc_upd_eq in Hsl.
  - by apply Hone.
  - exists dn. rewrite mx_holder_keep by (by rewrite Ep). done.
Qed.
End step2.

(** The owner leaves and nobody waits. *)
Lemma mx_free s joins enters t :
  mx_inv s joins enters [t] → has_mutex (pcs s t) = true →
  mx_inv (Sys (set_owner (-1) (shared s)) (pc_upd (pcs s) t MxIdle)) joins enters [].
Proof.
  intros HI Hh. pose proof (wakers_upd s _ _ _ HI t MxIdle) as Hone. destruct HI as [Hr Ho Hnd HW HO Hw _ (dn & Hj & He)].
  pose proof (HW 0%nat t eq_refl) as Hpl.
  assert (tst (shared s) t = Running) as Hrun by (destruct (pcs s t); try done; apply Hpl).
  split; cbn [shared pcs]; try done.
  - apply NoDup_nil_2.
  - intros u _. destruct (decide (u = t)) as [->|Hut]; [split; cbn; by rewrite ?pc_upd_eq|].
    destruct (HO u ltac:(set_solver)) as [Hru Hu]. split; cbn; rewrite ?pc_upd_ne by done; [done|].
    destruct (pcs s u); try done. destruct Hu as (v & _ & [= ->] & ?). congruence.
  - by apply Hone.
  - exists (dn ++ [t]). cbn in He. rewrite Hh in He. by rewrite Hj, He, !app_nil_r.
Qed.

(** The owner leaves and passes the mutex to the first who waits. *)
Lemma mx_pass s joins enters t u Q m' :
  mx_inv s joins enters (t :: u :: Q) → has_mutex (pcs s t) = true →
  ring m' mroot (Node <$> Q) → only_links (mroot :: Node u :: (Node <$> Q)) (chain (shared s)) m' →
  wnext (m' (Node u)) = None → wprev (m' (Node u)) = None →
  mx_inv (Sys (set_owner (Z.of_nat u) (set_chain m' (shared s))) (pc_upd (pcs s) t (MxResume (Z.of_nat u)))) joins enters (u :: Q).
Proof.
  intros HI Hh Hr' [Hm Hth] Hun Hup. pose proof (wakers_upd s _ _ _ HI t (MxResume (Z.of_nat u))) as Hone.
  destruct HI as [Hr Ho Hnd HW HO Hw _ (dn & Hj & He)]. apply NoDup_cons in Hnd as [Ht Hnd].
  pose proof (HW 0%nat t eq_refl) as Hpl. destruct (place_tail _ _ _ _ (HW 1%nat u eq_refl)) as [Hua Hus].
  assert (tst (shared s) t = Running) as Hrun by (destruct (pcs s t); try done; apply Hpl).
  assert (∀ i v, (u :: Q) !! i = Some v → v ≠ t) as Hne by (intros i v Hv ->; by eapply Ht, list_elem_of_lookup_2).
  assert (∀ v w, pcs s v = MxResume w → False) as Hnow.
  { intros v w Ev. assert (v ∉ t :: u :: Q) as Hv.
    { intros [i Hi]%list_elem_of_lookup. pose proof (HW i v Hi) as H. by rewrite Ev in H. }
    destruct (HO v Hv) as [_ H]. rewrite Ev in H. destruct H as (x & _ & [= ->] & Hx). congruence. }
  split; cbn [shared pcs chain owner set_owner set_chain]; try done.
  - intros i v Hv. rewrite pc_upd_ne by eauto. pose proof (HW (S i) v Hv) as Hp. destruct (place_tail _ _ _ _ Hp) as [Ha Hs].
    destruct (pcs s v); try done. cbn in *. rewrite Hth. destruct Hp as [Hp _]. split; [done|]. destruct i as [|i]; [|done].
    injection Hv as <-. split; [done|]. by right.
  - intros v Hv. destruct (decide (v = t)) as [->|Hvt].
    + split; [done|]. cbn. rewrite pc_upd_eq. by exists u.
    + destruct (HO v ltac:(set_solver)) as [Hru Hv']. split; [done|]. cbn. rewrite pc_upd_ne by done.
      destruct (pcs s v) eqn:Ev; try done. by destruct (Hnow _ _ Ev).
  - intros v [= <-] _. exists t. by rewrite pc_upd_eq.
  - apply Hone. intros w _ v w' _. apply Hnow.
  - exists (dn ++ [t]). cbn in He. rewrite Hh in He. rewrite Hj, He, <- !app_assoc. cbn. split; [done|].
    rewrite pc_upd_ne by (by eapply (Hne 0%nat)). by destruct (pcs s u).
Qed.

(** The new owner is told. *)
Lemma mx_resume s joins enters W t w :
  mx_inv s joins enters W → pcs s t = MxResume w →
  ∃ u, w = Z.of_nat u ∧ tst (shared s) u = Sleeping
    ∧ mx_inv (Sys (set_tst u (Resumed 1) (shared s)) (pc_upd (pcs s) t MxIdle)) joins enters W.
Proof.
  intros HI Ep. pose proof (wakers_upd s _ _ _ HI t MxIdle) as Hone. pose proof (waker_out s _ _ _ HI t w Ep) as Ht.
  destruct HI as [Hr Ho Hnd HW HO Hw Huniq (dn & Hj & He)]. pose proof (HO t Ht) as [Hrun H]. rewrite Ep in H.
  destruct H as (u & -> & Hu & Hsl). exists u. split_and!; [done..|]. destruct W as [|u' W]; [done|]. injection Hu as ->.
  assert (∀ v, v ∉ u :: W → v ≠ u) as Hvu by (intros v Hv ->; apply Hv; by left).
  split; cbn [shared pcs]; try done.
  - intros i v Hv. rewrite (pc_upd_ne (pcs s)) by (intros ->; by eapply Ht, list_elem_of_lookup_2). pose proof (HW i v Hv) as Hp.
    destruct (decide (v = u)) as [->|Hne]; [|apply (place_frame (shared s)); [done|cbn; by rewrite pc_upd_ne|done]].
    destruct i as [|i]; [|exfalso; apply NoDup_cons in Hnd as [Hnd _]; by eapply Hnd, list_elem_of_lookup_2].
    destruct (pcs s u); cbn in *; rewrite ?pc_upd_eq; try done; try (destruct Hp as (_ & ? & _); congruence); try (destruct Hp; congruence).
    destruct Hp as (? & ? & _). auto.
  - intros v Hv. destruct (HO v Hv) as [Hru Hv']. split; [cbn; by rewrite pc_upd_ne by auto|]. cbn.
    destruct (decide (v = t)) as [->|Hvt]; [by rewrite pc_upd_eq|]. rewrite pc_upd_ne by done.
    destruct (pcs s v) eqn:Ev; try done. exfalso. apply Hvt. by eapply Huniq.
  - intros v [= <-] Hsv. cbn in Hsv. by rewrite pc_upd_eq in Hsv.
  - by apply Hone.
  - exists dn. rewrite mx_holder_keep by done. done.
Qed.

Lemma on_chain_run {A} (c : M wmem A) h a m : c (chain h) = Done (a, m) → on_chain c h = Done (a, set_chain m h).
Proof. intros H. unfold on_chain. by rewrite H. Qed.

Lemma sleep_release_run t h :
  tst h t = Running →
  thread_sleep_release t h = Done (tt, set_tst t Sleeping (set_chain (set_wthread (Node t) (Z.of_nat t) (chain h)) h)).
Proof.
  intros Ht. unfold thread_sleep_release. rewrite (bind_done _ _ _ _ _ (on_chain_run (modify _) _ _ _ eq_refl)). autorewrite with run.
  cbn [tst set_chain]. by rewrite Ht, bool_decide_true.
Qed.

Section theorems.
Context (mask : Z).

(** What happens with the spinlock held, on every branch *)
Lemma lock_section_spec s joins enters W t until spin :
  mx_inv s joins enters W → t ∉ W → (∀ w, pcs s t ≠ MxResume w) →
  (lock_section mask until t spin (shared s) = Done (LkSpin, shared s))
  ∨ (∃ h', lock_section mask until t spin (shared s) = Done (LkGot, h')
       ∧ mx_inv (Sys h' (pc_upd (pcs s) t MxHeld)) (joins ++ [t]) (enters ++ [t]) [t])
  ∨ (∃ h', lock_section mask until t spin (shared s) = Done (LkSleep, h')
       ∧ mx_inv (Sys h' (pc_upd (pcs s) t (MxSleep until))) (joins ++ [t]) enters (W ++ [t])).
Proof.
  intros HI Ht Hold. unfold lock_section. autorewrite with run. pose proof (mx_own _ _ _ _ HI) as Ho.
  destruct (_ && _); [by left|]. destruct W as [|u0 W0].
  - rewrite Ho. right; left. eexists. split; [reflexivity|]. by eapply mx_take.
  - rewrite Ho. destruct (Z.ltb_spec (Z.of_nat u0) 0); [lia|]. right; right. autorewrite with run.
    destruct (thread_wait_add_spec (chain (shared s)) mroot (Node <$> W0) (Node t)) as (m' & Hrun & Hr' & Hm).
    { apply (mx_ring _ _ _ _ HI). }
    { rewrite not_elem_of_cons, list_elem_of_fmap. split; [done|]. intros (y & [= ->] & Hy). apply Ht. by right. }
    assert (tst (shared s) t = Running) as Hrs by (by apply (mx_out _ _ _ _ HI t Ht)).
    rewrite (bind_done _ _ _ _ _ (on_chain_run _ (set_spin _ (shared s)) _ _ Hrun)).
    rewrite (bind_done _ _ _ _ _ (sleep_release_run t (set_chain m' (set_spin _ (shared s))) Hrs)).
    eexists. split; [reflexivity|]. eapply mx_queue; try done. by rewrite fmap_app.
Qed.

Lemma try_section_spec s joins enters W t :
  mx_inv s joins enters W → (∀ w, pcs s t ≠ MxResume w) →
  (try_section t (shared s) = Done (false, shared s))
  ∨ (∃ h', try_section t (shared s) = Done (true, h')
       ∧ mx_inv (Sys h' (pc_upd (pcs s) t MxHeld)) (joins ++ [t]) (enters ++ [t]) [t]).
Proof.
  intros HI Hold. unfold try_section. autorewrite with run. pose proof (mx_own _ _ _ _ HI) as Ho. rewrite Ho. destruct W as [|u0 W0].
  - right. eexists. split; [reflexivity|]. by eapply mx_take.
  - left. by destruct (Z.ltb_spec (Z.of_nat u0) 0); [lia|].
Qed.

Lemma unlock_section_spec s joins enters W t :
  mx_inv s joins enters W → head W = Some t → has_mutex (pcs s t) = true →
  ∃ o h' W', unlock_section t (shared s) = Done (o, h')
    ∧ mx_inv (Sys h' (pc_upd (pcs s) t (match o with None => MxIdle | Some w => MxResume w end))) joins enters W'.
Proof.
  intros HI Ht Hh. destruct W as [|t' W]; [done|]. injection Ht as ->. unfold unlock_section. autorewrite with run.
  rewrite (mx_own _ _ _ _ HI), Z.eqb_refl. unfold mx_assert. autorewrite with run. pose proof (mx_ring _ _ _ _ HI) as Hr. cbn [tail] in Hr.
  destruct W as [|u Q].
  - rewrite (proj1 (proj2 Hr)). rewrite bool_decide_true by done. autorewrite with run. eexists _, _, _. split; [reflexivity|]. by apply mx_free.
  - rewrite fmap_cons in Hr. destruct (thread_wait_del_spec _ mroot [] (Node u) _ Hr) as (m' & nx & Hrun & _ & Hr' & Hun & Hup & Hm).
    rewrite (proj1 (proj1 (proj2 Hr))). rewrite bool_decide_false by done.
    rewrite (bind_done _ _ _ _ _ (on_chain_run (deref (Some (Node u))) (shared s) (Node u) (chain (shared s)) eq_refl)).
    assert (set_chain (chain (shared s)) (shared s) = shared s) as -> by (by destruct (shared s)).
    rewrite (bind_done _ _ _ _ _ (on_chain_run _ _ _ _ Hrun)). autorewrite with run.
    assert (wthread (m' (Node u)) = Z.of_nat u) as Hw.
    { destruct Hm as [_ ->]. pose proof (mx_in _ _ _ _ HI 1%nat u eq_refl) as Hp. destruct (pcs s u); cbn in Hp; try (by destruct Hp); by destruct Hp as [? _]. }
    cbn [chain set_chain]. rewrite Hw. eexists _, _, _. split; [reflexivity|]. by eapply mx_pass.
Qed.

Lemma mx_where s joins enters W t :
  mx_inv s joins enters W →
  (t ∉ W ∧ mx_apart s W t) ∨ (∃ i, W !! i = Some t ∧ mx_place (shared s) i t (pcs s t)).
Proof.
  intros HI. destruct (decide (t ∈ W)) as [Ht|Ht]; [right|left; split; [done|by apply (mx_out _ _ _ _ HI)]].
  apply list_elem_of_lookup in Ht as [i Hi]. exists i. split; [done|]. by apply (mx_in _ _ _ _ HI).
Qed.

Lemma mx_step_out s joins enters W t p' h' :
  mx_inv s joins enters W → t ∉ W → mx_apart s W t →
  runs (mx_run mask) mx_call t (pcs s t) (shared s) p' h' →
  ∃ W', mx_inv (Sys h' (pc_upd (pcs s) t p')) (joins ++ mx_joins t (pcs s t) p') (enters ++ mx_enters t (pcs s t) p') W'.
Proof.
  intros HI Ht [Hrun Ha] Hstep. pose proof (mx_own _ _ _ _ HI) as Ho.
  assert (owner (shared s) ≠ Z.of_nat t) as Hno.
  { rewrite Ho. destruct W as [|u W]; [lia|]. intros E%Nat2Z.inj. apply Ht. subst u. by left. }
  destruct (pcs s t) as [|u|u sp|u sp|u sp|u| | | | | |w| | |] eqn:Ep; try done.
  all: try (assert (∀ w, pcs s t ≠ MxResume w) as Hold by (by rewrite Ep)).
  all: try (pose proof (mx_move_out s joins enters W HI t p' Ht Hold) as Hmove).
  all: destruct Hstep as [Hstep|[Hcall ->]]; [|inversion Hcall; subst; exists W; cbn; rewrite !app_nil_r; by apply Hmove]; cbn in Hstep.
  - injection Hstep as <- <-. exists W. cbn. rewrite !app_nil_r. by apply Hmove.
  - destruct (Z.eqb_spec (owner (shared s)) (Z.of_nat t)); [done|]. injection Hstep as <- <-. exists W. cbn. rewrite !app_nil_r. by apply Hmove.
  - injection Hstep as <- <-. exists W. destruct (_ <? _); cbn; rewrite !app_nil_r; by apply Hmove.
  - injection Hstep as <- <-. exists W. destruct (_ <=? _); cbn; rewrite !app_nil_r; by apply Hmove.
  - destruct (lock_section_spec s joins enters W t u sp HI Ht Hold) as [E|[(h2 & E & HI')|(h2 & E & HI')]]; rewrite E in Hstep; injection Hstep as <- <-.
    + exists W. cbn. rewrite !app_nil_r. by apply Hmove.
    + by exists [t].
    + exists (W ++ [t]). cbn. by rewrite app_nil_r.
  - destruct (mx_resume s joins enters W t w HI Ep) as (v & -> & Hsl & HI'). rewrite Nat2Z.id, Hsl in Hstep. injection Hstep as <- <-.
    exists W. cbn. by rewrite !app_nil_r.
  - destruct (Z.eqb_spec (owner (shared s)) (Z.of_nat t)); [done|]. injection Hstep as <- <-. exists W. cbn. rewrite !app_nil_r. by apply Hmove.
  - destruct (try_section_spec s joins enters W t HI Hold) as [E|(h2 & E & HI')]; rewrite E in Hstep; injection Hstep as <- <-.
    + exists W. cbn. rewrite !app_nil_r. by apply Hmove.
    + by exists [t].
Qed.

Lemma mx_step_in s joins enters W t i p' h' :
  mx_inv s joins enters W → W !! i = Some t → mx_place (shared s) i t (pcs s t) →
  runs (mx_run mask) mx_call t (pcs s t) (shared s) p' h' → p' ≠ MxTimedOut →
  ∃ W', mx_inv (Sys h' (pc_upd (pcs s) t p')) (joins ++ mx_joins t (pcs s t) p') (enters ++ mx_enters t (pcs s t) p') W'.
Proof.
  intros HI Ht Hp Hstep Hto. pose proof (mx_own _ _ _ _ HI) as Ho. pose proof (mx_move_in s joins enters W HI t i p' Ht) as Hmove.
  destruct (pcs s t) as [|u|u sp|u sp|u sp|u| | | | | |w| | |] eqn:Ep; cbn in Hp; try done.
  all: destruct Hstep as [Hstep|[Hcall ->]]; [|inversion Hcall; subst; exists W; cbn in *; rewrite ?app_nil_r in *; try done; apply Hmove; auto]; cbn in Hstep.
  - destruct Hp as [Hth Hp]. destruct (tst (shared s) t) as [| |r] eqn:Er.
    + destruct i; naive_solver.
    + injection Hstep as <- <-. exists W. cbn in *. rewrite ?app_nil_r in *. apply Hmove; [|by left]. split; [done|]. by rewrite Er.
    + destruct i; [|done]. destruct Hp as [_ [[= ->]|?]]; [|done]. cbn in Hstep. injection Hstep as <- <-. exists W. cbn. rewrite !app_nil_r. by eapply mx_wake.
  - destruct Hp as (-> & Hrs & [Hn Hpv] & Hth). rewrite Hn, Hpv in Hstep. cbn in Hstep. injection Hstep as <- <-.
    exists W. cbn in *. rewrite ?app_nil_r in *. apply Hmove; [done|]. by left.
  - destruct Hp as (-> & Hrs & Hth). rewrite Hth, Ho in Hstep. destruct W as [|x W]; [done|]. injection Ht as ->. rewrite Z.eqb_refl in Hstep.
    injection Hstep as <- <-. exists (t :: W). cbn in *. rewrite ?app_nil_r. apply Hmove; [done|]. by right.
  - injection Hstep as <- <-. exists W. cbn in *. rewrite ?app_nil_r in *. apply Hmove; [done|]. by left.
  - destruct Hp as [-> Hrs]. destruct (unlock_section_spec s joins enters W t HI) as (o & h2 & W' & E & HI'); [by destruct W|by rewrite Ep|].
    rewrite E in Hstep. exists W'. destruct o; injection Hstep as <- <-; cbn; by rewrite !app_nil_r.
Qed.
End theorems.

Lemma mx_exec_inv mask n junk s joins enters : mx_exec mask n junk s joins enters → ∃ W, mx_inv s joins enters W.
Proof.
  intros Hex. induction Hex as [|s t p' h' joins enters _ [W HI] _ Hstep Hto].
  - exists []. split; cbn; try done; [apply chain_init_ring|apply NoDup_nil_2|by exists []].
  - destruct (mx_where _ _ _ _ t HI) as [[Ht Ha]|(i & Hi & Hp)]; [by eapply mx_step_out|by eapply mx_step_in].
Qed.

(** The thread is the owner and has been, or is being, told so. *)
Definition being_served (s : sys mutex_t mx_pc) (t : nat) : Prop :=
  owner (shared s) = Z.of_nat t ∧
  (pcs s t = MxWoken ∨ pcs s t = MxOwner ∨ asleep (pcs s t) = true
     ∧ (tst (shared s) t = Resumed 1 ∨ tst (shared s) t = Sleeping ∧ ∃ u, pcs s u = MxResume (Z.of_nat t))).

(** C32: A mutex whose waiters do not time out: in every interleaving it is
    held by one thread at a time, in the order in which the threads took it
    or queued up for it; when nobody holds it and a thread waits, the first
    one owns it and a thread is waking it up or has done so; no assertion
    fails, and when nobody holds it or waits for it it may be destroyed. *)
Theorem mutex_fifo mask n junk s joins enters :
  mx_exec mask n junk s joins enters →
  enters `prefix_of` joins
  ∧ (∀ t u, has_mutex (pcs s t) = true → has_mutex (pcs s u) = true → t = u)
  ∧ (∀ t, pcs s t ≠ MxFault)
  ∧ ((∀ u, has_mutex (pcs s u) = false) →
       (∀ t rest, joins = enters ++ t :: rest → being_served s t)
       ∧ (joins = enters → mutex_destroy (shared s) = Done (tt, shared s))).
Proof.
  intros Hex. destruct (mx_exec_inv _ _ _ _ _ _ Hex) as [W HI]. destruct (mx_log _ _ _ _ HI) as (dn & -> & ->).
  pose proof (mx_own _ _ _ _ HI) as Ho. split_and!.
  - apply prefix_app. destruct W as [|t W]; [done|]. cbn. destruct (has_mutex _); [by exists W|by exists (t :: W)].
  - assert (∀ t, has_mutex (pcs s t) = true → W !! 0%nat = Some t) as Hfront; [|intros t u Ht%Hfront Hu%Hfront; congruence].
    intros t Ht. destruct (mx_where _ _ _ _ t HI) as [[_ [_ Ha]]|(i & Hi & Hp)]; destruct (pcs s t); try done; by destruct Hp as [-> _].
  - intros t Ht. destruct (mx_where _ _ _ _ t HI) as [[_ [_ Ha]]|(i & Hi & Hp)]; by rewrite Ht in *.
  - intros Hno. assert (mx_holder (pcs s) W = []) as -> by (destruct W as [|u W]; [done|cbn; by rewrite Hno]). split.
    + intros t rest. rewrite app_nil_r. intros ->%app_inv_head. split; [done|]. specialize (Hno t). pose proof (mx_in _ _ _ _ HI 0%nat t eq_refl) as Hp.
      destruct (pcs s t) eqn:Ep; cbn in *; try done; auto. destruct Hp as (_ & _ & [?|Hsl]); right; right; auto.
      split; [done|]. right. split; [done|]. by apply (mx_waker _ _ _ _ HI).
    + rewrite app_nil_r. intros HW. rewrite <- (app_nil_r dn) in HW at 2. apply app_inv_head in HW as ->.
      pose proof (mx_ring _ _ _ _ HI) as [_ [Hn Hp]]. unfold mutex_destroy. autorewrite with run.
      rewrite Hn, Hp, bool_decide_true by done. unfold mx_assert. autorewrite with run. by rewrite Ho.
Qed.
