(* ===== verification/Condvar.v ===== *)
(** * kernel/lib/threadsync.cc and threadsync.h: condition variables

    condvar_wait_ex, condvar_wake_one, condvar_wake_n, condvar_wake_all and
    condvar_destroy, one access of shared memory at a time.  The variable's
    spinlock and the lock that protects the condition are held by at most one
    thread each; waiting for them is a step that may leave the thread where
    it is.  thread_sleep_release and thread_resume are as for mutexes. *)

From stdpp Require Import base tactics list numbers option sets.
From S2P Require Import Prelude Spinlock WaitChain ThreadMutex.

#[local] Open Scope Z_scope.

Record condition_var_t := Cv {
  cv_chain : wmem;
  cv_lock : option nat;       (* who holds var->lock *)
  cv_outer : option nat;      (* who holds the lock of the condition *)
  cv_tst : nat → tstate
}.

Definition cvroot : waddr := Root 1.

Definition cv_set_chain (m : wmem) (s : condition_var_t) : condition_var_t := Cv m (cv_lock s) (cv_outer s) (cv_tst s).
Definition cv_set_lock (o : option nat) (s : condition_var_t) : condition_var_t := Cv (cv_chain s) o (cv_outer s) (cv_tst s).
Definition cv_set_outer (o : option nat) (s : condition_var_t) : condition_var_t := Cv (cv_chain s) (cv_lock s) o (cv_tst s).
Definition cv_set_tst (t : nat) (x : tstate) (s : condition_var_t) : condition_var_t :=
  Cv (cv_chain s) (cv_lock s) (cv_outer s) (pc_upd (cv_tst s) t x).

Definition condvar_init (junk : wmem) : condition_var_t := Cv (chain_init cvroot junk) None None (λ _, Running).

(** The loop of condvar_destroy, which goes backwards and wakes nobody *)
Fixpoint unlink_back (fuel : nat) (node : option waddr) : M wmem unit :=
  match fuel with
  | O => throw OutOfFuel
  | S fuel =>
      if bool_decide (node = Some cvroot) then mret tt
      else
        a ← deref node;
        prev ← gets (λ m, wprev (m a));
        modify (set_wnext a None);;
        modify (set_wprev a None);;
        unlink_back fuel prev
  end.
Definition condvar_destroy (fuel : nat) : M wmem unit :=
  node ← gets (λ m, wprev (m cvroot));
  unlink_back fuel node;;
  modify (chain_init cvroot).

(** ** Places

    [inn] says whether the caller of a wake function holds the lock of the
    condition; [k] is how many waiters it may still wake, [None] for all. *)
Inductive cv_pc :=
  | CvOut                                           (* without the lock of the condition *)
  | CvIn                                            (* with it *)
  | CvAcquire                                       (* taking it *)
  | CvWait (until : bool) | CvAdd (until : bool) | CvUnlockOuter (until : bool) | CvSleepRelease (until : bool)
  | CvSleep (until : bool) | CvTimedOut
  | CvWoken | CvRelock | CvUnlink | CvUnlock (result : bool) | CvOuter (result : bool)
  | CvWake (inn : bool) (k : option nat)            (* spinlock_lock *)
  | CvFirst (inn : bool) (k : option nat)           (* wait = var->link.next *)
  | CvLoop (inn : bool) (k : option nat) (wait : option waddr)
  | CvResume (inn : bool) (k : option nat) (next : option waddr) (w : Z)
  | CvWakeUnlock (inn : bool)
  | CvFault.

Definition cv_back (inn : bool) : cv_pc := if inn then CvIn else CvOut.
(** n-- in the loop's condition *)
Definition countdown (k : option nat) : option (option nat) :=
  match k with None => Some None | Some O => None | Some (S k) => Some (Some k) end.

Definition cv_run (t : nat) (p : cv_pc) (s : condition_var_t) : cv_pc * condition_var_t :=
  match p with
  | CvAcquire => match cv_outer s with None => (CvIn, cv_set_outer (Some t) s) | Some _ => (p, s) end
  | CvWait u => match cv_lock s with None => (CvAdd u, cv_set_lock (Some t) s) | Some _ => (p, s) end
  | CvAdd u =>
      match thread_wait_add cvroot (Node t) (cv_chain s) with
      | Done (_, m) => (CvUnlockOuter u, cv_set_chain m s)
      | Fault _ => (CvFault, s)
      end
  | CvUnlockOuter u => (CvSleepRelease u, cv_set_outer None s)
  | CvSleepRelease u =>
      match cv_tst s t with
      | Running =>
          (CvSleep u, cv_set_lock None (cv_set_tst t Sleeping (cv_set_chain (set_wthread (Node t) (Z.of_nat t) (cv_chain s)) s)))
      | _ => (CvFault, s)
      end
  | CvSleep u =>
      match cv_tst s t with
      | Resumed r => (if r =? 0 then CvRelock else CvWoken, cv_set_tst t Running s)
      | _ => (p, s)
      end
  | CvTimedOut =>
      match cv_tst s t with Sleeping => (CvRelock, cv_set_tst t Running s) | _ => (CvSleep true, s) end
  | CvWoken =>
      let n := cv_chain s (Node t) in
      (if bool_decide (wnext n = None) && bool_decide (wprev n = None) then CvOuter true else CvFault, s)
  | CvRelock => match cv_lock s with None => (CvUnlink, cv_set_lock (Some t) s) | Some _ => (p, s) end
  | CvUnlink =>
      match wnext (cv_chain s (Node t)) with
      | None => (CvUnlock true, s)
      | Some _ =>
          match thread_wait_del (Node t) (cv_chain s) with
          | Done (_, m) => (CvUnlock false, cv_set_chain m s)
          | Fault _ => (CvFault, s)
          end
      end
  | CvUnlock r => (CvOuter r, cv_set_lock None s)
  | CvOuter r => match cv_outer s with None => (CvIn, cv_set_outer (Some t) s) | Some _ => (p, s) end
  | CvWake inn k => match cv_lock s with None => (CvFirst inn k, cv_set_lock (Some t) s) | Some _ => (p, s) end
  | CvFirst inn k => (CvLoop inn k (wnext (cv_chain s cvroot)), s)
  | CvLoop inn k wait =>
      if bool_decide (wait = Some cvroot) then (CvWakeUnlock inn, s)
      else match countdown k, wait with
           | None, _ => (CvWakeUnlock inn, s)
           | Some k, Some a =>
               match thread_wait_del a (cv_chain s) with
               | Done (nx, m) => (CvResume inn k nx (wthread (m a)), cv_set_chain m s)
               | Fault _ => (CvFault, s)
               end
           | Some k, None => (CvFault, s)
           end
  | CvResume inn k nx w =>
      match cv_tst s (Z.to_nat w) with
      | Sleeping => (CvLoop inn k nx, cv_set_tst (Z.to_nat w) (Resumed 1) s)
      | _ => (p, s)
      end
  | CvWakeUnlock inn => (cv_back inn, cv_set_lock None s)
  | CvOut | CvIn | CvFault => (p, s)
  end.

Inductive cv_call : cv_pc → cv_pc → Prop :=
  | cv_acquire : cv_call CvOut CvAcquire
  | condvar_wait_ex until : cv_call CvIn (CvWait until)
  | cv_timer : cv_call (CvSleep true) CvTimedOut
  | condvar_wake_one inn : cv_call (cv_back inn) (CvWake inn (Some 1%nat))
  | condvar_wake_n inn n : cv_call (cv_back inn) (CvWake inn (Some n))
  | condvar_wake_all inn : cv_call (cv_back inn) (CvWake inn None).
(** Releasing the lock of the condition is the client's. *)
Definition cv_step (t : nat) (p : cv_pc) (s : condition_var_t) (p' : cv_pc) (s' : condition_var_t) : Prop :=
  runs cv_run cv_call t p s p' s' ∨ (p = CvIn ∧ p' = CvOut ∧ s' = cv_set_outer None s).

(** ** Executions: who joined the chain, and who was taken off it by a wake *)

Definition cv_waits (t : nat) (p p' : cv_pc) : list nat :=
  match p, p' with CvAdd _, CvUnlockOuter _ => [t] | _, _ => [] end.
Definition cv_wakes (p p' : cv_pc) : list nat :=
  match p, p' with CvLoop _ _ _, CvResume _ _ _ w => [Z.to_nat w] | _, _ => [] end.

(** No sleeping thread's time runs out. *)
Inductive cv_exec (n : nat) (junk : wmem) : sys condition_var_t cv_pc → list nat → list nat → Prop :=
  | cv_exec_init : cv_exec n junk (Sys (condvar_init junk) (λ _, CvOut)) [] []
  | cv_exec_step s t p' h' waits wakes :
      cv_exec n junk s waits wakes → (t < n)%nat →
      cv_step t (pcs s t) (shared s) p' h' → p' ≠ CvTimedOut →
      cv_exec n junk (Sys h' (pc_upd (pcs s) t p'))
        (waits ++ cv_waits t (pcs s t) p') (wakes ++ cv_wakes (pcs s t) p').

(** * Condition variables: no wake-up is lost, and waiters go in order *)

(** Who holds the variable's spinlock, who the lock of the condition *)
Definition cv_locked (p : cv_pc) : bool :=
  match p with
  | CvAdd _ | CvUnlockOuter _ | CvSleepRelease _ | CvUnlink | CvUnlock _
  | CvFirst _ _ | CvLoop _ _ _ | CvResume _ _ _ _ | CvWakeUnlock _ => true
  | _ => false
  end.
Definition cv_inside (p : cv_pc) : bool :=
  match p with
  | CvIn | CvWait _ | CvAdd _ | CvUnlockOuter _ => true
  | CvWake inn _ | CvFirst inn _ | CvLoop inn _ _ | CvResume inn _ _ _ | CvWakeUnlock inn => inn
  | _ => false
  end.

(** [holds l who]: the lock word [l] names the thread for which [who] is true. *)
Definition holds (l : option nat) (who : nat → bool) : Prop := ∀ t, who t = true ↔ l = Some t.
Lemma holds_upd {Pc} (f : Pc → bool) ps t p l l' :
  holds l (λ t, f (ps t)) →
  (f p = true ∧ l = None ∧ l' = Some t) ∨ (f p = false ∧ f (ps t) = true ∧ l' = None) ∨ (f p = f (ps t) ∧ l' = l) →
  holds l' (λ u, f (pc_upd ps t p u)).
Proof.
  intros H Hc u. unfold pc_upd. pose proof (H t) as Ht. pose proof (H u) as Hu. cbn in *.
  destruct (decide (u = t)) as [->|Hne]; destruct Hc as [(Hp & Hl & ->)|[(Hp & Hpt & ->)|[Hp ->]]]; rewrite ?Hp, ?Hu; try done.
  - rewrite Hl. split; congruence.
  - apply Ht in Hpt. split; congruence.
Qed.

Definition first (C : list nat) : option waddr := Some (match C with t :: _ => Node t | [] => cvroot end).
Definition cv_asleep (p : cv_pc) : bool := match p with CvSleep _ => true | _ => false end.

(** [C]: the threads in the chain *)
Definition cv_place (h : condition_var_t) (t : nat) (p : cv_pc) : Prop :=
  match p with
  | CvUnlockOuter _ | CvSleepRelease _ => cv_tst h t = Running
  | CvSleep _ => cv_tst h t = Sleeping ∧ wthread (cv_chain h (Node t)) = Z.of_nat t
  | _ => False
  end.
Definition cv_apart (s : sys condition_var_t cv_pc) (C : list nat) (t : nat) : Prop :=
  match pcs s t with
  | CvOut | CvIn | CvAcquire | CvWait _ | CvAdd _ | CvOuter _ | CvWake _ _ | CvFirst _ _ | CvWakeUnlock _ =>
      cv_tst (shared s) t = Running
  | CvLoop _ _ wait => cv_tst (shared s) t = Running ∧ wait = first C
  | CvResume _ _ nx w => cv_tst (shared s) t = Running ∧ nx = first C
      ∧ ∃ u, w = Z.of_nat u ∧ u ∉ C ∧ cv_tst (shared s) u = Sleeping ∧ cv_asleep (pcs s u) = true
  | CvSleep _ => unlinked (cv_chain (shared s)) t
      ∧ (cv_tst (shared s) t = Resumed 1
         ∨ cv_tst (shared s) t = Sleeping ∧ ∃ u inn k nx, pcs s u = CvResume inn k nx (Z.of_nat t))
  | CvWoken => cv_tst (shared s) t = Running ∧ unlinked (cv_chain (shared s)) t
  | _ => False
  end.

Record cv_inv (s : sys condition_var_t cv_pc) (waits wakes C : list nat) : Prop := CvInv {
  cvi_ring : ring (cv_chain (shared s)) cvroot (Node <$> C);
  cvi_nodup : NoDup C;
  cvi_lock : holds (cv_lock (shared s)) (λ t, cv_locked (pcs s t));
  cvi_outer : holds (cv_outer (shared s)) (λ t, cv_inside (pcs s t));
  cvi_in : ∀ t, t ∈ C → cv_place (shared s) t (pcs s t);
  cvi_out : ∀ t, t ∉ C → cv_apart s C t;
  cvi_log : waits = wakes ++ C
}.

Lemma lock_unique s waits wakes C t u :
  cv_inv s waits wakes C → cv_locked (pcs s t) = true → cv_locked (pcs s u) = true → t = u.
Proof. intros HI Ht Hu. apply (cvi_lock _ _ _ _ HI) in Ht. apply (cvi_lock _ _ _ _ HI) in Hu. congruence. Qed.

(** A step that changes only locks and the thread's own place *)
Definition quiet (p : cv_pc) : bool :=
  match p with
  | CvOut | CvIn | CvAcquire | CvWait _ | CvAdd _ | CvOuter _ | CvWake _ _ | CvFirst _ _ | CvWakeUnlock _ | CvLoop _ _ _ => true
  | _ => false
  end.

Section step.
Context (s : sys condition_var_t cv_pc) (waits wakes C : list nat).
Context (HI : cv_inv s waits wakes C).

Lemma apart_upd t p h' u :
  u ≠ t → u ∉ C → t ∉ C → cv_chain h' (Node u) = cv_chain (shared s) (Node u) → cv_tst h' = cv_tst (shared s) →
  cv_asleep (pcs s t) = false → (∀ inn k nx w, pcs s t ≠ CvResume inn k nx w) →
  cv_apart (Sys h' (pc_upd (pcs s) t p)) C u.
Proof using HI.
  intros Hut Hu Ht Hc Hts Hna Hnr. pose proof (cvi_out _ _ _ _ HI u Hu) as H. unfold cv_apart in *. cbn [shared pcs].
  rewrite pc_upd_ne by done. destruct (pcs s u) eqn:Ep; unfold unlinked in *; rewrite ?Hc, ?Hts; try done.
  - destruct H as [H1 [H2|(H2 & v & inn & k & nx & Hv)]]; split; auto. right. split; [done|]. exists v, inn, k, nx.
    rewrite pc_upd_ne; [done|]. intros ->. by eapply Hnr.
  - destruct H as (H1 & H2 & v & -> & H3 & H4 & H5). split_and!; [done..|]. exists v. split_and!; [done..|].
    rewrite pc_upd_ne; [done|]. intros ->. congruence.
Qed.

Lemma cv_quiet t p h' :
  t ∉ C → quiet (pcs s t) = true ∨ pcs s t = CvWoken → quiet p = true → (∀ inn k wait, p = CvLoop inn k wait → wait = first C) →
  cv_chain h' = cv_chain (shared s) → cv_tst h' = cv_tst (shared s) →
  holds (cv_lock h') (λ u, cv_locked (pc_upd (pcs s) t p u)) →
  holds (cv_outer h') (λ u, cv_inside (pc_upd (pcs s) t p u)) →
  cv_inv (Sys h' (pc_upd (pcs s) t p)) waits wakes C.
Proof using HI.
  intros Ht Hq Hp Hloop Hc Hts Hl Ho. pose proof HI as [Hr Hnd _ _ HC HO Hlog]. split; cbn [shared pcs]; try done.
  - by rewrite Hc.
  - intros u Hu. rewrite pc_upd_ne by (by intros ->). specialize (HC u Hu). by destruct (pcs s u); cbn in *; rewrite ?Hc, ?Hts.
  - intros u Hu. assert (cv_tst (shared s) t = Running) as Hrun.
    { specialize (HO t Ht). unfold cv_apart in HO. destruct (pcs s t); try done; naive_solver. }
    destruct (decide (u = t)) as [->|Hne].
    + unfold cv_apart. cbn [shared pcs]. rewrite pc_upd_eq, Hts. destruct p; try done. split; [done|]. by eapply Hloop.
    + apply apart_upd; try done; [by rewrite Hc| |]; destruct (pcs s t); try done; naive_solver.
Qed.
End step.

Lemma first_next m C : ring m cvroot (Node <$> C) → wnext (m cvroot) = first C.
Proof. intros [_ H]. destruct C; cbn in H; apply H. Qed.

Section step2.
Context (s : sys condition_var_t cv_pc) (waits wakes C : list nat).
Context (HI : cv_inv s waits wakes C).

(** With the spinlock held by [t], no other thread is waking waiters. *)
Lemma no_waker t : cv_locked (pcs s t) = true → ∀ u, u ≠ t → cv_locked (pcs s u) = false.
Proof using HI. intros Ht u Hu. destruct (cv_locked (pcs s u)) eqn:E; [|done]. by destruct Hu; eapply lock_unique. Qed.

(** The thread joins the chain. *)
Lemma cv_join t u :
  pcs s t = CvAdd u →
  ∃ m, thread_wait_add cvroot (Node t) (cv_chain (shared s)) = Done (tt, m)
    ∧ cv_inv (Sys (cv_set_chain m (shared s)) (pc_upd (pcs s) t (CvUnlockOuter u))) (waits ++ [t]) wakes (C ++ [t]).
Proof using HI.
  intros Ep. assert (t ∉ C) as Ht by (intros Ht%(cvi_in _ _ _ _ HI); by rewrite Ep in Ht).
  pose proof (no_waker t ltac:(by rewrite Ep)) as Hno. pose proof HI as [Hr Hnd Hl Ho HC HO Hlog].
  destruct (thread_wait_add_spec _ _ _ (Node t) Hr) as (m & Hrun & Hr' & Hm & Hth).
  { rewrite not_elem_of_cons, list_elem_of_fmap. split; [done|]. by intros (y & [= ->] & Hy). }
  exists m. split; [done|].
  assert (∀ x, x ∉ C → x ≠ t → m (Node x) = cv_chain (shared s) (Node x)) as Hnode.
  { intros x Hx Hxt. apply Hm. intros [?|[(y & [= ->] & Hy)%list_elem_of_fmap|[= ->]%list_elem_of_singleton]%elem_of_app]%elem_of_cons; done. }
  split; cbn [shared pcs cv_chain cv_lock cv_outer cv_set_chain].
  - by rewrite fmap_app.
  - apply NoDup_app. split_and!; [done| |by apply NoDup_singleton]. by intros x Hx ->%list_elem_of_singleton.
  - eapply holds_upd; [exact Hl|]. right; right. by rewrite Ep.
  - eapply holds_upd; [exact Ho|]. right; right. by rewrite Ep.
  - intros x [Hx|Hx]%elem_of_app.
    + rewrite pc_upd_ne by (by intros ->). specialize (HC x Hx). destruct (pcs s x); cbn in *; rewrite ?Hth; done.
    + apply list_elem_of_singleton in Hx as ->. rewrite pc_upd_eq. pose proof (HO t Ht) as H. unfold cv_apart in H. by rewrite Ep in H.
  - intros x [Hx Hxt]%not_elem_of_app. rewrite list_elem_of_singleton in Hxt. pose proof (HO x Hx) as H. specialize (Hno x Hxt).
    unfold cv_apart in *. cbn [shared pcs]. rewrite pc_upd_ne by done.
    destruct (pcs s x) eqn:Ex; cbn in *; try done; unfold unlinked in *; cbn; rewrite ?Hnode by done; try done.
    destruct H as [H1 [H2|(H2 & v & inn & k & nx & Hv)]]; split; auto. right. split; [done|]. exists v, inn, k, nx.
    rewrite pc_upd_ne; [done|]. intros ->. congruence.
  - by rewrite Hlog, <- app_assoc.
Qed.

(** A thread of the chain goes on: it gives up the lock of the condition, or
    goes to sleep. *)
Lemma cv_settle t p h' :
  t ∈ C → cv_place h' t p → (∀ x, unlinked (cv_chain (shared s)) x → unlinked (cv_chain h') x) →
  ring (cv_chain h') cvroot (Node <$> C) →
  (∀ x, x ≠ t → wthread (cv_chain h' (Node x)) = wthread (cv_chain (shared s) (Node x)) ∧ cv_tst h' x = cv_tst (shared s) x) →
  holds (cv_lock h') (λ u, cv_locked (pc_upd (pcs s) t p u)) → holds (cv_outer h') (λ u, cv_inside (pc_upd (pcs s) t p u)) →
  cv_inv (Sys h' (pc_upd (pcs s) t p)) waits wakes C.
Proof using HI.
  intros Ht Hp Hu Hr Hx Hl Ho. pose proof HI as [_ Hnd _ _ HC HO Hlog]. split; cbn [shared pcs]; try done.
  - intros x HxC. destruct (decide (x = t)) as [->|Hne]; [by rewrite pc_upd_eq|]. rewrite pc_upd_ne by done. destruct (Hx x Hne) as [Hx1 Hx2].
    specialize (HC x HxC). destruct (pcs s x); cbn in *; by rewrite ?Hx1, ?Hx2.
  - intros x HxC. assert (x ≠ t) as Hne by (by intros ->). destruct (Hx x Hne) as [Hx1 Hx2]. specialize (HO x HxC). unfold cv_apart in *. cbn [shared pcs].
    rewrite pc_upd_ne by done. destruct (pcs s x) eqn:Ex; rewrite ?Hx2; try done; [|naive_solver|].
    + destruct HO as [H1 [H2|(H2 & v & inn & k & nx & Hv)]]; (split; [by apply Hu|]); auto. right. split; [done|]. exists v, inn, k, nx.
      rewrite pc_upd_ne; [done|]. intros ->. specialize (HC t Ht). by rewrite Hv in HC.
    + destruct HO as (H1 & H2 & v & -> & H3 & H4 & H5). split_and!; [done..|]. exists v. assert (v ≠ t) as Hvt by (by intros ->).
      destruct (Hx v Hvt) as [_ Hv]. rewrite Hv, pc_upd_ne by done. done.
Qed.
End step2.

Lemma pc_upd_same {Pc} (f : nat → Pc) t u : pc_upd f t (f t) u = f u.
Proof. unfold pc_upd. case_decide; by subst. Qed.

Section step3.
Context (s : sys condition_var_t cv_pc) (waits wakes C : list nat).
Context (HI : cv_inv s waits wakes C).

(** A thread that waits stays where it is. *)
Lemma cv_same t p : pcs s t = p → cv_inv (Sys (shared s) (pc_upd (pcs s) t p)) waits wakes C.
Proof using HI.
  intros <-. pose proof HI as [Hr Hnd Hl Ho HC HO Hlog]. split; cbn [shared pcs]; try done.
  - intros u. rewrite pc_upd_same. apply Hl.
  - intros u. rewrite pc_upd_same. apply Ho.
  - intros u. rewrite pc_upd_same. apply HC.
  - intros u Hu. specialize (HO u Hu). unfold cv_apart in *. cbn [shared pcs]. rewrite pc_upd_same. destruct (pcs s u); try done.
    + destruct HO as [H1 [H2|(H2 & v & inn & k & nx & Hv)]]; split; auto. right. split; [done|]. exists v, inn, k, nx. by rewrite pc_upd_same.
    + destruct HO as (H1 & H2 & v & -> & H3 & H4 & H5). split_and!; [done..|]. exists v. by rewrite pc_upd_same.
Qed.

(** A resumed thread runs again. *)
Lemma cv_wake t u :
  t ∉ C → pcs s t = CvSleep u → cv_tst (shared s) t = Resumed 1 →
  cv_inv (Sys (cv_set_tst t Running (shared s)) (pc_upd (pcs s) t CvWoken)) waits wakes C.
Proof using HI.
  intros Ht Ep Er. pose proof HI as [Hr Hnd Hl Ho HC HO Hlog].
  split; cbn [shared pcs cv_chain cv_lock cv_outer cv_set_tst]; try done.
  - eapply holds_upd; [exact Hl|]. right; right. by rewrite Ep.
  - eapply holds_upd; [exact Ho|]. right; right. by rewrite Ep.
  - intros x Hx. assert (x ≠ t) as Hxt by (by intros ->). rewrite pc_upd_ne by done. specialize (HC x Hx).
    destruct (pcs s x); cbn in *; by rewrite ?pc_upd_ne.
  - intros x Hx. specialize (HO x Hx). unfold cv_apart in *. cbn [shared pcs cv_tst cv_chain cv_set_tst].
    destruct (decide (x = t)) as [->|Hxt]; [rewrite pc_upd_eq, pc_upd_eq; rewrite Ep in HO; by destruct HO|].
    rewrite !(pc_upd_ne _ t _ x) by done. destruct (pcs s x) eqn:Ex; try done.
    + destruct HO as [H1 [H2|(H2 & v & inn & k & nx & Hv)]]; split; auto. right. split; [done|]. exists v, inn, k, nx.
      rewrite pc_upd_ne; [done|]. intros ->. congruence.
    + destruct HO as (H1 & H2 & v & -> & H3 & H4 & H5). assert (v ≠ t) as Hvt by congruence. split_and!; [done..|]. exists v.
      rewrite !pc_upd_ne by done. done.
Qed.

(** The first of the chain is taken off it. *)
Lemma cv_detach t inn k k' w C' :
  C = w :: C' → t ∉ C → pcs s t = CvLoop inn k (Some (Node w)) →
  ∃ m nx, thread_wait_del (Node w) (cv_chain (shared s)) = Done (nx, m) ∧ wthread (m (Node w)) = Z.of_nat w
    ∧ cv_inv (Sys (cv_set_chain m (shared s)) (pc_upd (pcs s) t (CvResume inn k' nx (Z.of_nat w)))) waits (wakes ++ [w]) C'.
Proof using HI.
  intros EC Ht Ep. pose proof (no_waker s _ _ _ HI t ltac:(by rewrite Ep)) as Hno. pose proof HI as [Hr Hnd Hl Ho HC HO Hlog].
  rewrite EC, fmap_cons in Hr. destruct (thread_wait_del_spec _ cvroot [] (Node w) _ Hr) as (m & nx & Hrun & Hhd & Hr' & Hun & Hup & Hm & Hth).
  assert (w ∈ C) as Hw by (subst C; by left). assert (w ≠ t) as Hwt by (by intros ->). subst C. apply NoDup_cons in Hnd as [HwC Hnd].
  pose proof (HC w Hw) as Hwp. specialize (Hno w Hwt) as Hwl.
  assert (cv_asleep (pcs s w) = true ∧ cv_tst (shared s) w = Sleeping ∧ wthread (cv_chain (shared s) (Node w)) = Z.of_nat w) as (Hwa & Hws & Hwth).
  { destruct (pcs s w); cbn in *; try done; naive_solver. }
  exists m, (Some nx). split; [done|]. split; [by rewrite Hth|].
  assert (Some nx = first C') as Enx by (rewrite <- Hhd; by destruct C').
  assert (∀ x, x ∉ w :: C' → m (Node x) = cv_chain (shared s) (Node x)) as Hnode.
  { intros x Hx. apply Hm. intros [?|H]%elem_of_cons; [done|]. cbn in H. rewrite <- fmap_cons in H.
    apply list_elem_of_fmap in H as (y & [= ->] & Hy). done. }
  split; cbn [shared pcs cv_chain cv_lock cv_outer cv_set_chain cv_tst]; try done.
  - eapply holds_upd; [exact Hl|]. right; right. by rewrite Ep.
  - eapply holds_upd; [exact Ho|]. right; right. by rewrite Ep.
  - intros x Hx. assert (x ∈ w :: C') as Hx' by (by right). rewrite pc_upd_ne by (by intros ->). specialize (HC x Hx').
    destruct (pcs s x); cbn in *; by rewrite ?Hth.
  - intros x Hx. unfold cv_apart. cbn [shared pcs cv_chain cv_tst cv_set_chain]. destruct (decide (x = t)) as [->|Hxt].
    { rewrite pc_upd_eq. specialize (HO t Ht). unfold cv_apart in HO. rewrite Ep in HO. split_and!; [by destruct HO|done|].
      exists w. rewrite pc_upd_ne by done. done. }
    rewrite pc_upd_ne by done. destruct (decide (x = w)) as [->|Hxw].
    { destruct (pcs s w); try done. split; [done|]. right. split; [done|]. exists t, inn, k', (Some nx). by rewrite pc_upd_eq. }
    assert (x ∉ w :: C') as HxC by (intros [?|?]%elem_of_cons; done). specialize (HO x HxC). specialize (Hno x Hxt).
    unfold cv_apart in HO. destruct (pcs s x) eqn:Ex; cbn in *; try done; unfold unlinked in *; rewrite ?Hnode by done; try done.
    destruct HO as [H1 [H2|(H2 & v & inn' & k2 & nx' & Hv)]]; split; auto. right. split; [done|]. exists v, inn', k2, nx'.
    rewrite pc_upd_ne; [done|]. intros ->. congruence.
  - by rewrite Hlog, <- app_assoc.
Qed.

(** It is told. *)
Lemma cv_tell t inn k nx w :
  pcs s t = CvResume inn k nx w →
  ∃ u, w = Z.of_nat u ∧ cv_tst (shared s) u = Sleeping
    ∧ cv_inv (Sys (cv_set_tst u (Resumed 1) (shared s)) (pc_upd (pcs s) t (CvLoop inn k nx))) waits wakes C.
Proof using HI.
  intros Ep. assert (t ∉ C) as Ht by (intros Ht%(cvi_in _ _ _ _ HI); by rewrite Ep in Ht).
  pose proof (no_waker s _ _ _ HI t ltac:(by rewrite Ep)) as Hno. pose proof HI as [Hr Hnd Hl Ho HC HO Hlog].
  pose proof (HO t Ht) as H. unfold cv_apart in H. rewrite Ep in H. destruct H as (Hrun & -> & u & -> & Hu & Hus & Hua).
  exists u. split_and!; [done..|]. assert (u ≠ t) as Hut by (intros ->; by rewrite Ep in Hua).
  split; cbn [shared pcs cv_chain cv_lock cv_outer cv_set_tst cv_tst]; try done.
  - eapply holds_upd; [exact Hl|]. right; right. by rewrite Ep.
  - eapply holds_upd; [exact Ho|]. right; right. by rewrite Ep.
  - intros x Hx. assert (x ≠ u) as Hxu by (by intros ->). rewrite (pc_upd_ne (pcs s)) by (by intros ->). specialize (HC x Hx).
    destruct (pcs s x); cbn in *; by rewrite ?pc_upd_ne.
  - intros x Hx. unfold cv_apart. cbn [shared pcs cv_chain cv_tst cv_set_tst]. destruct (decide (x = t)) as [->|Hxt].
    { rewrite pc_upd_eq, pc_upd_ne by done. done. }
    specialize (HO x Hx). specialize (Hno x Hxt). unfold cv_apart in HO. rewrite (pc_upd_ne (pcs s)) by done.
    destruct (decide (x = u)) as [->|Hxu]; [rewrite pc_upd_eq; destruct (pcs s u); try done; split; [by destruct HO|by left]|].
    rewrite pc_upd_ne by done. destruct (pcs s x) eqn:Ex; cbn in *; try done.
    destruct HO as [H1 [H2|(H2 & v & inn' & k2 & nx' & Hv)]]; split; auto. exfalso.
    destruct (decide (v = t)) as [->|Hvt]; [rewrite Ep in Hv; injection Hv as _ _ _ E%Nat2Z.inj; by subst|].
    pose proof (no_waker s _ _ _ HI t ltac:(by rewrite Ep) v Hvt) as Hv'. by rewrite Hv in Hv'.
Qed.
End step3.

Lemma cv_call_quiet p p' : cv_call p p' → p' = CvTimedOut ∨
  quiet p = true ∧ quiet p' = true ∧ cv_locked p' = cv_locked p ∧ cv_inside p' = cv_inside p ∧ (∀ inn k w, p' ≠ CvLoop inn k w)
  ∧ ∀ t, cv_waits t p p' = [] ∧ cv_wakes p p' = [].
Proof. intros []; try (by left); right; try destruct inn; cbn; split_and!; done. Qed.

Lemma cv_step_inv s waits wakes C t p' h' :
  cv_inv s waits wakes C → cv_step t (pcs s t) (shared s) p' h' → p' ≠ CvTimedOut →
  ∃ C', cv_inv (Sys h' (pc_upd (pcs s) t p')) (waits ++ cv_waits t (pcs s t) p') (wakes ++ cv_wakes (pcs s t) p') C'.
Proof.
  intros HI Hstep Hto. pose proof HI as [Hr Hnd Hl Ho HC HO Hlog].
  assert (∀ p, quiet p = true ∨ p = CvWoken → pcs s t = p → t ∉ C) as Hout.
  { intros p Hq Ep Ht. specialize (HC t Ht). rewrite Ep in HC. destruct Hq as [Hq| ->]; [by destruct p|done]. }
  assert (∀ p, pcs s t = p → match p with CvTimedOut | CvRelock | CvUnlink | CvUnlock _ | CvFault => False | _ => True end) as Hlive.
  { intros p <-. destruct (decide (t ∈ C)) as [Hin|Hn]; [specialize (HC t Hin)|specialize (HO t Hn); unfold cv_apart in HO]; by destruct (pcs s t). }
  (* steps that touch only locks *)
  assert (∀ h2, quiet (pcs s t) = true ∨ pcs s t = CvWoken → quiet p' = true → (∀ inn k wait, p' = CvLoop inn k wait → wait = first C) →
    cv_chain h2 = cv_chain (shared s) → cv_tst h2 = cv_tst (shared s) →
    (cv_locked p' = true ∧ cv_lock (shared s) = None ∧ cv_lock h2 = Some t) ∨ (cv_locked p' = false ∧ cv_locked (pcs s t) = true ∧ cv_lock h2 = None)
      ∨ (cv_locked p' = cv_locked (pcs s t) ∧ cv_lock h2 = cv_lock (shared s)) →
    (cv_inside p' = true ∧ cv_outer (shared s) = None ∧ cv_outer h2 = Some t) ∨ (cv_inside p' = false ∧ cv_inside (pcs s t) = true ∧ cv_outer h2 = None)
      ∨ (cv_inside p' = cv_inside (pcs s t) ∧ cv_outer h2 = cv_outer (shared s)) →
    cv_waits t (pcs s t) p' = [] → cv_wakes (pcs s t) p' = [] →
    ∃ C', cv_inv (Sys h2 (pc_upd (pcs s) t p')) (waits ++ cv_waits t (pcs s t) p') (wakes ++ cv_wakes (pcs s t) p') C') as Hquiet.
  { intros h2 Hq Hp Hlp Hc Hts Hlk Hou -> ->. exists C. rewrite !app_nil_r.
    eapply cv_quiet; try done; [by eapply Hout|by eapply (holds_upd cv_locked)|by eapply (holds_upd cv_inside)]. }
  destruct Hstep as [[Hrun|[Hcall ->]]|(Ep & -> & ->)].
  2:{ apply cv_call_quiet in Hcall as [?|(Hq & Hq' & El & Ei & Hnl & Hlogs)]; [done|]. destruct (Hlogs t). apply Hquiet; auto.
      intros inn k w E. by destruct (Hnl inn k w). }
  2:{ rewrite Ep in *. apply Hquiet; try done; auto. }
  destruct (pcs s t) as [| | |u|u|u|u|u| | | | |r|r|inn k|inn k|inn k wait|inn k nx w|inn|] eqn:Ep; cbn in Hrun.
  all: try (injection Hrun as <- <-; by apply Hquiet; auto).
  - destruct (cv_outer (shared s)) eqn:E; injection Hrun as <- <-; apply Hquiet; rewrite ?E; auto; done.
  - destruct (cv_lock (shared s)) eqn:E; injection Hrun as <- <-; apply Hquiet; rewrite ?E; auto; done.
  - destruct (cv_join s waits wakes C HI t u Ep) as (m & Hm & HI'). rewrite Hm in Hrun. injection Hrun as <- <-. exists (C ++ [t]). cbn. by rewrite app_nil_r.
  - (* CvUnlockOuter *)
    assert (t ∈ C) as Ht by (destruct (decide (t ∈ C)) as [|Hn]; [done|]; specialize (HO t Hn); unfold cv_apart in HO; by rewrite Ep in HO).
    injection Hrun as <- <-. exists C. cbn. rewrite !app_nil_r. specialize (HC t Ht). rewrite Ep in HC.
    eapply cv_settle; try done; [eapply (holds_upd cv_locked); [done|]; right; right; by rewrite Ep|].
    eapply (holds_upd cv_inside); [done|]. right; left. by rewrite Ep.
  - (* CvSleepRelease *)
    assert (t ∈ C) as Ht by (destruct (decide (t ∈ C)) as [|Hn]; [done|]; specialize (HO t Hn); unfold cv_apart in HO; by rewrite Ep in HO).
    pose proof (HC t Ht) as Hp. rewrite Ep in Hp. cbn in Hp. rewrite Hp in Hrun. injection Hrun as <- <-. exists C. cbn. rewrite !app_nil_r.
    eapply cv_settle; try done; cbn; rewrite ?pc_upd_eq.
    + split; [done|]. autorewrite with wmem. by rewrite decide_True.
    + intros x. unfold unlinked. by autorewrite with wmem.
    + eapply ring_frame; [|exact Hr]. intros x _. by autorewrite with wmem.
    + intros x Hx. rewrite pc_upd_ne by done. autorewrite with wmem. by rewrite decide_False by congruence.
    + eapply (holds_upd cv_locked); [done|]. right; left. by rewrite Ep.
    + eapply (holds_upd cv_inside); [done|]. right; right. by rewrite Ep.
  - (* CvSleep *)
    assert (∀ x, cv_tst (shared s) t = x → x = Sleeping ∨ (t ∉ C ∧ x = Resumed 1)) as Hx.
    { intros x <-. destruct (decide (t ∈ C)) as [Hin|Hn]; [specialize (HC t Hin)|specialize (HO t Hn); unfold cv_apart in HO]; rewrite Ep in *; naive_solver. }
    destruct (cv_tst (shared s) t) as [| |r] eqn:Er; destruct (Hx _ eq_refl) as [|[Hn [=]]]; try done.
    + injection Hrun as <- <-. exists C. cbn. rewrite !app_nil_r. by apply cv_same.
    + subst r. injection Hrun as <- <-. exists C. cbn. rewrite !app_nil_r. by eapply cv_wake.
  - destruct (Hlive CvTimedOut); auto.
  - (* CvWoken *)
    pose proof (HO t (Hout CvWoken (or_intror eq_refl) eq_refl)) as Ha. unfold cv_apart in Ha. rewrite Ep in Ha.
    destruct Ha as [_ [Hn Hp]]. rewrite Hn, Hp in Hrun. injection Hrun as <- <-. apply Hquiet; auto. done.
  - destruct (Hlive CvRelock); auto.
  - destruct (Hlive CvUnlink); auto.
  - destruct (Hlive (CvUnlock r)); auto.
  - destruct (cv_outer (shared s)) eqn:E; injection Hrun as <- <-; apply Hquiet; rewrite ?E; auto; done.
  - destruct (cv_lock (shared s)) eqn:E; injection Hrun as <- <-; apply Hquiet; rewrite ?E; auto; done.
  - injection Hrun as <- <-. apply Hquiet; auto. intros inn' k' wait [= _ _ <-]. by apply first_next.
  - (* CvLoop *)
    assert (t ∉ C) as Ht by (apply (Hout (CvLoop inn k wait)); [by left|done]). pose proof (HO t Ht) as Ha. unfold cv_apart in Ha. rewrite Ep in Ha. destruct Ha as [_ ->].
    destruct C as [|w C']; cbn in Hrun; [injection Hrun as <- <-; by apply Hquiet; auto|].
    destruct (countdown k) as [k'|]; [|injection Hrun as <- <-; by apply Hquiet; auto].
    destruct (cv_detach s waits wakes _ HI t inn k k' w C' eq_refl Ht Ep) as (m & nx & Hm & Hw & HI'). rewrite Hm, Hw in Hrun.
    injection Hrun as <- <-. exists C'. cbn. by rewrite app_nil_r, Nat2Z.id.
  - destruct (cv_tell s waits wakes C HI t inn k nx w Ep) as (u & -> & Hsl & HI'). rewrite Nat2Z.id, Hsl in Hrun. injection Hrun as <- <-.
    exists C. cbn. by rewrite !app_nil_r.
  - injection Hrun as <- <-. apply Hquiet; destruct inn; auto; done.
  - destruct (Hlive CvFault); auto.
Qed.

Lemma cv_exec_inv n junk s waits wakes : cv_exec n junk s waits wakes → ∃ C, cv_inv s waits wakes C.
Proof.
  intros Hex. induction Hex as [|s t p' h' waits wakes _ [C HI] _ Hstep Hto]; [|by eapply cv_step_inv].
  exists []. split; cbn; try done; try (by split); [apply chain_init_ring|apply NoDup_nil_2|by intros t ?%elem_of_nil].
Qed.

(** A thread between joining the chain and being woken *)
Definition cv_waiting (s : sys condition_var_t cv_pc) (t : nat) : Prop :=
  match pcs s t with
  | CvUnlockOuter _ | CvSleepRelease _ => True
  | CvSleep _ => cv_tst (shared s) t = Sleeping
  | _ => False
  end.

(** C33: A condition variable whose waiters do not time out, in every
    interleaving.  Waiters are woken in the order in which they joined the
    chain, which they do before they give up the lock of the condition, so a
    wake by whoever gets that lock next finds them; a waiting thread is
    in the chain or the one being resumed just now, and the loop of a wake
    is at the thread that has waited longest; only one thread has the lock of
    the condition, a woken one included; no assertion fails. *)
Theorem condvar_wakes_in_order n junk s waits wakes :
  cv_exec n junk s waits wakes →
  ∃ C, waits = wakes ++ C
    ∧ (∀ t, t ∈ C → cv_waiting s t)
    ∧ (∀ t, cv_waiting s t → t ∈ C ∨ ∃ u inn k nx, pcs s u = CvResume inn k nx (Z.of_nat t))
    ∧ (∀ t inn k wait, pcs s t = CvLoop inn k wait → wait = first C)
    ∧ (∀ t u, cv_inside (pcs s t) = true → cv_inside (pcs s u) = true → t = u)
    ∧ (∀ t, pcs s t ≠ CvFault).
Proof.
  intros Hex. destruct (cv_exec_inv _ _ _ _ _ Hex) as [C HI]. pose proof HI as [Hr Hnd Hl Ho HC HO Hlog]. exists C. split_and!; [done|..].
  - intros t Ht. specialize (HC t Ht). unfold cv_waiting. destruct (pcs s t); try done. by destruct HC.
  - intros t Hw. destruct (decide (t ∈ C)) as [|Hn]; [by left|right]. specialize (HO t Hn). unfold cv_waiting, cv_apart in *.
    destruct (pcs s t); try done. destruct HO as (_ & [?|[_ ?]]); [congruence|done].
  - intros t inn k wait Ep. assert (t ∉ C) as Hn by (intros Ht; specialize (HC t Ht); by rewrite Ep in HC).
    specialize (HO t Hn). unfold cv_apart in HO. rewrite Ep in HO. by destruct HO.
  - intros t u Ht Hu. apply Ho in Ht. apply Ho in Hu. congruence.
  - intros t Ep. destruct (decide (t ∈ C)) as [Hin|Hn]; [specialize (HC t Hin)|specialize (HO t Hn); unfold cv_apart in HO]; by rewrite Ep in *.
Qed.

(** ** condvar_destroy *)

(** The chain seen from its end *)
Fixpoint back (m : wmem) (l : list waddr) (p : option waddr) : Prop :=
  match l with [] => p = Some cvroot | z :: l => p = Some z ∧ z ≠ cvroot ∧ back m l (wprev (m z)) end.
Lemma back_frame m m' l p : (∀ x, x ∈ l → wprev (m' x) = wprev (m x)) → back m l p → back m' l p.
Proof.
  revert p. induction l as [|z l IH]; intros p Hm; cbn; [done|]. intros (-> & ? & Hb). split_and!; [done..|]. rewrite Hm by (by left).
  apply IH; [|done]. intros x Hx. apply Hm. by right.
Qed.
Lemma seg_back m l e : NoDup (cvroot :: l) → seg m cvroot l e → back m (reverse l) (wprev (m e)).
Proof.
  revert e. induction l as [|z l IH] using rev_ind; intros e Hnd Hs; [apply Hs|].
  apply seg_app in Hs as [Hs [_ Hz]]. rewrite reverse_snoc. rewrite app_comm_cons in Hnd. apply NoDup_app in Hnd as (Hnd & Hd & _).
  split_and!; [done| |by apply IH]. intros ->. apply (Hd cvroot); by left.
Qed.

Lemma unlink_back_spec l : ∀ m fuel p,
  NoDup l → back m l p → (length l < fuel)%nat →
  ∃ m', unlink_back fuel p m = Done (tt, m')
    ∧ (∀ x, x ∈ l → wnext (m' x) = None ∧ wprev (m' x) = None) ∧ (∀ x, x ∉ l → m' x = m x).
Proof.
  induction l as [|z l IH]; intros m fuel p Hnd Hb Hf; (destruct fuel as [|fuel]; [cbn in Hf; lia|]).
  - cbn in Hb. subst p. cbn [unlink_back]. rewrite bool_decide_true by done. exists m. split_and!; [done|set_solver|done].
  - destruct Hb as (-> & Hz & Hb). apply NoDup_cons in Hnd as [Hzl Hnd]. cbn [unlink_back]. rewrite bool_decide_false by congruence.
    cbn [deref]. autorewrite with run. cbn [length] in Hf.
    destruct (IH (set_wprev z None (set_wnext z None m)) fuel (wprev (m z)) Hnd) as (m' & Hrun & H1 & H2); [|lia|].
    { eapply back_frame; [|exact Hb]. intros x Hx. autorewrite with wmem. by rewrite decide_False by (by intros ->). }
    exists m'. split; [done|]. split.
    + intros x [->|Hx]%elem_of_cons; [|by apply H1]. rewrite H2 by done. autorewrite with wmem. by rewrite !decide_True.
    + intros x [Hxz Hxl]%not_elem_of_cons. rewrite H2 by done. apply wait_eq; autorewrite with wmem; by rewrite ?decide_False.
Qed.

(** condvar_destroy empties the chain and takes every waiter's node off it;
    the waiters sleep on. *)
Lemma condvar_destroy_spec m C fuel :
  ring m cvroot (Node <$> C) → (length C < fuel)%nat →
  ∃ m', condvar_destroy fuel m = Done (tt, m') ∧ ring m' cvroot [] ∧ ∀ t, t ∈ C → unlinked m' t.
Proof.
  intros [Hnd Hs] Hf. destruct (unlink_back_spec (reverse (Node <$> C)) m fuel (wprev (m cvroot))) as (m' & Hrun & H1 & _).
  - rewrite reverse_Permutation. by apply NoDup_cons in Hnd as [_ ?].
  - by apply seg_back.
  - by rewrite length_reverse, length_fmap.
  - unfold condvar_destroy. autorewrite with run. rewrite (bind_done _ _ _ _ _ Hrun). eexists. split; [reflexivity|].
    split; [apply chain_init_ring|]. intros t Ht. unfold unlinked, chain_init. autorewrite with wmem. rewrite !decide_False by done.
    apply H1. rewrite elem_of_reverse. apply list_elem_of_fmap. by exists t.
Qed.
