(* ===== verification/ThreadRwlock.v ===== *)
(** * kernel/lib/threadsync.cc: reader/writer locks

    As for mutexes, what happens under the lock's own spinlock is one step,
    except that rwlock_ex_unlock resumes the waiting readers one by one with
    the spinlock held: [rl_lock] says who does.  Reads outside the spinlock
    are steps of their own. *)

From stdpp Require Import base tactics list numbers option sets.
From S2P Require Import Prelude Spinlock WaitChain ThreadMutex Condvar.

#[local] Open Scope Z_scope.

Record rwlock_t := Rwlock {
  rl_chain : wmem;
  reader_count : Z;       (* negative: the writer's id; 0: free; positive: readers *)
  rl_spin_count : Z;
  rl_lock : option nat;
  rl_tst : nat → tstate
}.

Definition ex_root : waddr := Root 2.
Definition sh_root : waddr := Root 3.

Definition rl_set_chain (m : wmem) (s : rwlock_t) := Rwlock m (reader_count s) (rl_spin_count s) (rl_lock s) (rl_tst s).
Definition set_count (c : Z) (s : rwlock_t) := Rwlock (rl_chain s) c (rl_spin_count s) (rl_lock s) (rl_tst s).
Definition rl_set_spin (n : Z) (s : rwlock_t) := Rwlock (rl_chain s) (reader_count s) n (rl_lock s) (rl_tst s).
Definition rl_set_lock (o : option nat) (s : rwlock_t) := Rwlock (rl_chain s) (reader_count s) (rl_spin_count s) o (rl_tst s).
Definition rl_set_tst (t : nat) (x : tstate) (s : rwlock_t) :=
  Rwlock (rl_chain s) (reader_count s) (rl_spin_count s) (rl_lock s) (pc_upd (rl_tst s) t x).

Definition rl_on_chain {A} (c : M wmem A) : M rwlock_t A := λ s,
  match c (rl_chain s) with Done (a, m) => Done (a, rl_set_chain m s) | Fault e => Fault e end.
Definition rl_assert (b : bool) : M rwlock_t unit := if b then mret tt else throw AssertFailed.

Definition rwlock_init (mask : Z) (junk : wmem) : rwlock_t :=
  Rwlock (chain_init sh_root (chain_init ex_root junk)) 0
    (Z.land mask (SPINCOUNT_MIN + Z.shiftr (SPINCOUNT_MAX - SPINCOUNT_MIN) 1)) None (λ _, Running).

(** link.next == &link *)
Definition chain_empty (root : waddr) (m : wmem) : bool := bool_decide (wnext (m root) = Some root).

(** What a thread waits for *)
Inductive rl_kind := ForEx | ForSh | ForUp.
Definition kind_root (k : rl_kind) : waddr := match k with ForSh => sh_root | _ => ex_root end.

Definition sleep_on (k : rl_kind) (t : nat) : M rwlock_t unit :=
  rl_on_chain (thread_wait_add (kind_root k) (Node t));;
  rl_on_chain (modify (set_wthread (Node t) (Z.of_nat t)));;
  x ← gets (λ s, rl_tst s t);
  rl_assert (bool_decide (x = Running));;
  modify (rl_set_tst t Sleeping).

(** The first of a chain is taken off; its thread id *)
Definition pop_waiter (root : waddr) : M rwlock_t Z :=
  nx ← gets (λ s, wnext (rl_chain s root));
  waiter ← rl_on_chain (deref nx);
  rl_on_chain (thread_wait_del waiter);;
  gets (λ s, wthread (rl_chain s waiter)).

Section mask.
Context (mask : Z).

Definition spin_shrink : M rwlock_t unit :=
  n ← gets rl_spin_count;
  modify (rl_set_spin (if SPINCOUNT_MIN <? n then n + mask else n)).

Definition can_enter (k : rl_kind) (s : rwlock_t) : bool :=
  match k with
  | ForSh => (0 <=? reader_count s) && chain_empty ex_root (rl_chain s)
  | _ => (reader_count s =? 0) && chain_empty ex_root (rl_chain s)
  end.
Definition enter_count (k : rl_kind) (t : nat) (s : rwlock_t) : Z :=
  match k with ForSh => reader_count s + 1 | _ => - Z.of_nat t end.

(** rwlock_ex_lock and rwlock_sh_lock, inside *)
Definition rl_section (k : rl_kind) (t : nat) (spin : Z) : M rwlock_t lock_out :=
  ok ← gets (can_enter k);
  if (ok : bool) then
    c ← gets (enter_count k t);
    modify (set_count c);;
    mret LkGot
  else
    sc ← gets rl_spin_count;
    if sc <=? spin then
      spin_shrink;;
      sleep_on k t;;
      mret LkSleep
    else mret LkSpin.

(** rwlock_ex_try_lock and rwlock_sh_try_lock, inside *)
Definition rl_try (k : rl_kind) (t : nat) : M rwlock_t bool :=
  ok ← gets (can_enter k);
  if (ok : bool) then c ← gets (enter_count k t); modify (set_count c);; mret true else mret false.

Definition upgrade_section (t : nat) : M rwlock_t bool :=
  c ← gets reader_count;
  rl_assert (0 <? c);;
  if c =? 1 then modify (set_count (- Z.of_nat t));; mret true
  else sleep_on ForUp t;; mret false.

Inductive ex_out := ExWriter (w : Z) | ExReaders | ExFree.
Definition ex_unlock_section (t : nat) : M rwlock_t ex_out :=
  c ← gets reader_count;
  rl_assert (c =? - Z.of_nat t);;
  m ← gets rl_chain;
  if negb (chain_empty ex_root m) then
    w ← pop_waiter ex_root;
    modify (set_count (- w));;
    mret (ExWriter w)
  else if negb (chain_empty sh_root m) then
    modify (set_count 0);;
    modify (rl_set_lock (Some t));;
    mret ExReaders
  else modify (set_count 0);; mret ExFree.
(** A round of the loop over the readers, up to thread_resume *)
Definition wake_reader : M rwlock_t Z :=
  w ← pop_waiter sh_root;
  modify (λ s, set_count (reader_count s + 1) s);;
  mret w.

Definition sh_unlock_section : M rwlock_t (option Z) :=
  c ← gets reader_count;
  rl_assert (0 <? c);;
  modify (set_count (c - 1));;
  m ← gets rl_chain;
  if (c - 1 =? 0) && negb (chain_empty ex_root m) then
    w ← pop_waiter ex_root;
    modify (set_count (- w));;
    mret (Some w)
  else mret None.

(** ** Places *)

Inductive rl_pc :=
  | RlIdle | RlEx | RlSh
  | RlSpin (k : rl_kind) (spin : Z) | RlSpinCount (k : rl_kind) (spin : Z) | RlSpinChain (k : rl_kind) (spin : Z)
  | RlLock (k : rl_kind) (spin : Z)
  | RlSleep (k : rl_kind) | RlTimedOut (k : rl_kind)
  | RlWoken (k : rl_kind) | RlCount (k : rl_kind)           (* the assertions *)
  | RlTry (k : rl_kind) | RlTryLock (k : rl_kind)
  | RlUpgrade
  | RlExUnlock | RlWake | RlWakeResume (w : Z) | RlMore
  | RlShUnlock
  | RlResume (w : Z)
  | RlFault.

Definition rl_held (k : rl_kind) : rl_pc := match k with ForSh => RlSh | _ => RlEx end.

(** A step under the spinlock, when it is free *)
Definition locked_step {A} (s : rwlock_t) (stay : rl_pc) (c : M rwlock_t A) (go : A → rl_pc) : rl_pc * rwlock_t :=
  match rl_lock s with
  | Some _ => (stay, s)
  | None => match c s with Done (a, s') => (go a, s') | Fault _ => (RlFault, s) end
  end.

Definition rl_run (t : nat) (p : rl_pc) (s : rwlock_t) : rl_pc * rwlock_t :=
  match p with
  | RlSpin k spin => (if spin <? rl_spin_count s then RlSpinCount k spin else RlLock k spin, s)
  | RlSpinCount k spin => (if reader_count s <? 0 then RlSpinChain k spin else RlLock k spin, s)
  | RlSpinChain k spin => (if chain_empty ex_root (rl_chain s) then RlSpin k (spin + 1) else RlLock k spin, s)
  | RlLock k spin =>
      locked_step s p (rl_section k t spin)
        (λ o, match o with LkSpin => RlSpin k (spin + 1) | LkGot => rl_held k | LkSleep => RlSleep k end)
  | RlSleep k =>
      match rl_tst s t with
      | Resumed r =>
          (if r =? 0 then match k with ForUp => RlSh | _ => RlIdle end else RlWoken k, rl_set_tst t Running s)
      | _ => (p, s)
      end
  | RlTimedOut k =>
      match rl_tst s t with
      | Sleeping => (match k with ForUp => RlSh | _ => RlIdle end, rl_set_tst t Running s)
      | _ => (RlSleep k, s)
      end
  | RlWoken k =>
      let n := rl_chain s (Node t) in
      (if bool_decide (wnext n = None) && bool_decide (wprev n = None)
          && match k with ForSh => true | _ => wthread n =? Z.of_nat t end
       then RlCount k else RlFault, s)
  | RlCount ForSh => (if 0 <? reader_count s then RlSh else RlFault, s)
  | RlCount k => (if reader_count s =? - wthread (rl_chain s (Node t)) then RlEx else RlFault, s)
  | RlTry k => (if reader_count s <? 0 then RlIdle else RlTryLock k, s)
  | RlTryLock k => locked_step s p (rl_try k t) (λ b, if b : bool then rl_held k else RlIdle)
  | RlUpgrade => locked_step s p (upgrade_section t) (λ b, if b : bool then RlEx else RlSleep ForUp)
  | RlExUnlock =>
      locked_step s p (ex_unlock_section t)
        (λ o, match o with ExWriter w => RlResume w | ExReaders => RlWake | ExFree => RlIdle end)
  | RlWake => match wake_reader s with Done (w, s') => (RlWakeResume w, s') | Fault _ => (RlFault, s) end
  | RlWakeResume w =>
      match rl_tst s (Z.to_nat w) with
      | Sleeping => (RlMore, rl_set_tst (Z.to_nat w) (Resumed 1) s)
      | _ => (p, s)
      end
  | RlMore => if chain_empty sh_root (rl_chain s) then (RlIdle, rl_set_lock None s) else (RlWake, s)
  | RlShUnlock => locked_step s p sh_unlock_section (λ o, match o with Some w => RlResume w | None => RlIdle end)
  | RlResume w =>
      match rl_tst s (Z.to_nat w) with
      | Sleeping => (RlIdle, rl_set_tst (Z.to_nat w) (Resumed 1) s)
      | _ => (p, s)
      end
  | RlIdle | RlEx | RlSh | RlFault => (p, s)
  end.

(** The timer may end any wait with a time limit; that it does is left out of
    the executions below, and so is rwlock_upgrade when others read. *)
Inductive rl_call : rl_pc → rl_pc → Prop :=
  | rwlock_ex_lock : rl_call RlIdle (RlSpin ForEx 0)
  | rwlock_sh_lock : rl_call RlIdle (RlSpin ForSh 0)
  | rwlock_ex_try_lock : rl_call RlIdle (RlTry ForEx)
  | rwlock_sh_try_lock : rl_call RlIdle (RlTry ForSh)
  | rwlock_upgrade : rl_call RlSh RlUpgrade
  | rwlock_ex_unlock : rl_call RlEx RlExUnlock
  | rwlock_sh_unlock : rl_call RlSh RlShUnlock
  | rl_timer k : rl_call (RlSleep k) (RlTimedOut k).
End mask.

(** * Reader/writer locks: writers alone, and no waiter forgotten *)

(** ** Executions without timeouts, and with upgrades of a lone reader only *)

Definition rl_allowed (p : rl_pc) : bool :=
  match p with RlSleep ForUp | RlTimedOut _ => false | _ => true end.

(** Thread ids start at 1: with id 0 a writer's count would be that of a free
    lock. *)
Inductive rl_exec (mask : Z) (n : nat) (junk : wmem) : sys rwlock_t rl_pc → Prop :=
  | rl_exec_init : rl_exec mask n junk (Sys (rwlock_init mask junk) (λ _, RlIdle))
  | rl_exec_step s t p' h' :
      rl_exec mask n junk s → (0 < t < n)%nat →
      runs (rl_run mask) rl_call t (pcs s t) (shared s) p' h' → rl_allowed p' = true →
      rl_exec mask n junk (Sys h' (pc_upd (pcs s) t p')).

(** ** The invariant *)

Inductive role := Out | Writer | Reader | WaitX | WaitS.

Definition rl_place (h : rwlock_t) (r : role) (t : nat) (p : rl_pc) : Prop :=
  match r, p with
  | Out, (RlIdle | RlWake | RlMore | RlWakeResume _ | RlResume _) => rl_tst h t = Running
  | Out, (RlSpin k _ | RlSpinCount k _ | RlSpinChain k _ | RlLock k _ | RlTry k | RlTryLock k) => rl_tst h t = Running ∧ k ≠ ForUp
  | Writer, (RlEx | RlExUnlock) => rl_tst h t = Running
  | Reader, (RlSh | RlUpgrade | RlShUnlock) => rl_tst h t = Running
  | Writer, RlSleep ForEx | Reader, RlSleep ForSh =>
      unlinked (rl_chain h) t ∧ wthread (rl_chain h (Node t)) = Z.of_nat t ∧ (rl_tst h t = Resumed 1 ∨ rl_tst h t = Sleeping)
  | Writer, RlWoken ForEx | Reader, RlWoken ForSh =>
      unlinked (rl_chain h) t ∧ wthread (rl_chain h (Node t)) = Z.of_nat t ∧ rl_tst h t = Running
  | Writer, RlCount ForEx | Reader, RlCount ForSh => wthread (rl_chain h (Node t)) = Z.of_nat t ∧ rl_tst h t = Running
  | WaitX, RlSleep ForEx | WaitS, RlSleep ForSh => wthread (rl_chain h (Node t)) = Z.of_nat t ∧ rl_tst h t = Sleeping
  | _, _ => False
  end.

(** Who is waking readers, with the spinlock held *)
Definition waking (p : rl_pc) : bool := match p with RlWake | RlWakeResume _ | RlMore => true | _ => false end.

(** The writer, the readers, and the two chains *)
Record ghosts := Ghosts { Wr : option nat; Rd : list nat; X : list nat; Sh : list nat }.

Definition role_of (g : ghosts) (t : nat) : role :=
  if decide (Wr g = Some t) then Writer
  else if decide (t ∈ Rd g) then Reader
  else if decide (t ∈ X g) then WaitX
  else if decide (t ∈ Sh g) then WaitS else Out.

Definition all_of (g : ghosts) : list nat := option_list (Wr g) ++ Rd g ++ X g ++ Sh g.

Record rl_inv (s : sys rwlock_t rl_pc) (g : ghosts) : Prop := RlInv {
  rl_ring_x : ring (rl_chain (shared s)) ex_root (Node <$> X g);
  rl_ring_s : ring (rl_chain (shared s)) sh_root (Node <$> Sh g);
  rl_nodup : NoDup (all_of g);
  rl_pos : ∀ t, t ∈ all_of g → (0 < t)%nat;
  rl_count : reader_count (shared s) = match Wr g with Some t => - Z.of_nat t | None => Z.of_nat (length (Rd g)) end;
  rl_alone : Wr g ≠ None → Rd g = [];
  rl_locked : holds (rl_lock (shared s)) (λ t, waking (pcs s t));
  rl_places : ∀ t, rl_place (shared s) (role_of g t) t (pcs s t);
  rl_told_w : ∀ v w, pcs s v = RlResume w → ∃ u, w = Z.of_nat u ∧ Wr g = Some u ∧ rl_tst (shared s) u = Sleeping;
  rl_told_r : ∀ v w, pcs s v = RlWakeResume w → ∃ u, w = Z.of_nat u ∧ u ∈ Rd g ∧ rl_tst (shared s) u = Sleeping;
  rl_one : ∀ v v' w w', pcs s v = RlResume w → pcs s v' = RlResume w' → v = v';
  rl_wake_w : ∀ u, Wr g = Some u → rl_tst (shared s) u = Sleeping → ∃ v, pcs s v = RlResume (Z.of_nat u);
  rl_wake_r : ∀ u, u ∈ Rd g → rl_tst (shared s) u = Sleeping → ∃ v, pcs s v = RlWakeResume (Z.of_nat u);
  rl_rest : match rl_lock (shared s) with
            | None => (Wr g = None → Rd g = [] → X g = [] ∧ Sh g = []) ∧ (Wr g = None → X g = [] → Sh g = [])
            | Some t => Wr g = None ∧ X g = [] ∧ (pcs s t = RlWake → Sh g ≠ []) 
            end
}.

Lemma role_cases g t :
  NoDup (all_of g) →
  (role_of g t = Writer ↔ Wr g = Some t) ∧ (role_of g t = Reader ↔ t ∈ Rd g) ∧ (role_of g t = WaitX ↔ t ∈ X g)
  ∧ (role_of g t = WaitS ↔ t ∈ Sh g) ∧ (role_of g t = Out ↔ t ∉ all_of g).
Proof.
  intros Hnd. unfold all_of in *. apply NoDup_app in Hnd as (_ & H1 & (_ & H2 & (_ & H3 & _)%NoDup_app)%NoDup_app).
  specialize (H1 t). specialize (H2 t). specialize (H3 t). rewrite !elem_of_app in *. unfold role_of.
  assert (t ∈ option_list (Wr g) ↔ Wr g = Some t) as HW by (destruct (Wr g); cbn; set_solver).
  rewrite HW in *. repeat case_decide; naive_solver.
Qed.

Lemma place_keep h h' r t p :
  wthread (rl_chain h' (Node t)) = wthread (rl_chain h (Node t)) → rl_tst h' t = rl_tst h t →
  (r = Writer ∨ r = Reader → unlinked (rl_chain h) t → unlinked (rl_chain h') t) →
  rl_place h r t p → rl_place h' r t p.
Proof.
  intros Hw Ht Hu. destruct r, p as [| | | | | | |[]|[]|[]|[]| | | | | | | | | | ]; cbn; rewrite ?Hw, ?Ht; try done; intuition auto.
Qed.

Definition telling (p : rl_pc) : bool := match p with RlResume _ | RlWakeResume _ => true | _ => false end.

Section plain.
Context (s : sys rwlock_t rl_pc) (g : ghosts).
Context (HI : rl_inv s g).

(** A step that neither hands the lock to a sleeping thread nor resumes one *)
Lemma rl_plain t p' h' g' :
  telling (pcs s t) = false → telling p' = false →
  ring (rl_chain h') ex_root (Node <$> X g') → ring (rl_chain h') sh_root (Node <$> Sh g') →
  NoDup (all_of g') → (∀ u, u ∈ all_of g' → (0 < u)%nat) →
  reader_count h' = match Wr g' with Some t => - Z.of_nat t | None => Z.of_nat (length (Rd g')) end →
  (Wr g' ≠ None → Rd g' = []) →
  holds (rl_lock h') (λ u, waking (pc_upd (pcs s) t p' u)) →
  rl_place h' (role_of g' t) t p' →
  (∀ u, u ≠ t → role_of g' u = role_of g u ∧ wthread (rl_chain h' (Node u)) = wthread (rl_chain (shared s) (Node u))
     ∧ rl_tst h' u = rl_tst (shared s) u
     ∧ (role_of g u = Writer ∨ role_of g u = Reader → unlinked (rl_chain (shared s)) u → unlinked (rl_chain h') u)) →
  (Wr g' = Some t ∨ t ∈ Rd g' → rl_tst h' t = Sleeping → rl_tst (shared s) t = Sleeping ∧ role_of g' t = role_of g t) →
  (Wr g = Some t ∨ t ∈ Rd g → rl_tst (shared s) t = Sleeping → rl_tst h' t = Sleeping ∧ role_of g' t = role_of g t) →
  match rl_lock h' with
  | None => (Wr g' = None → Rd g' = [] → X g' = [] ∧ Sh g' = []) ∧ (Wr g' = None → X g' = [] → Sh g' = [])
  | Some v => Wr g' = None ∧ X g' = [] ∧ (pc_upd (pcs s) t p' v = RlWake → Sh g' ≠ [])
  end →
  rl_inv (Sys h' (pc_upd (pcs s) t p')) g'.
Proof using HI.
  intros Ho Hn Hrx Hrs Hnd Hpos Hc Hal Hl Hp Hfr Ht1 Ht2 Hrest.
  pose proof (λ u, role_cases g' u Hnd) as Hr'. pose proof (λ u, role_cases g u (rl_nodup _ _ HI)) as Hr.
  assert (∀ v w, pc_upd (pcs s) t p' v = RlResume w → v ≠ t ∧ pcs s v = RlResume w) as Hv1.
  { intros v w. unfold pc_upd. case_decide; [|done]. by intros ->. }
  assert (∀ v w, pc_upd (pcs s) t p' v = RlWakeResume w → v ≠ t ∧ pcs s v = RlWakeResume w) as Hv2.
  { intros v w. unfold pc_upd. case_decide; [|done]. by intros ->. }
  (* sleeping writers and readers are the same ones *)
  assert (∀ u, (Wr g = Some u ∨ u ∈ Rd g) → rl_tst (shared s) u = Sleeping → rl_tst h' u = Sleeping ∧ role_of g' u = role_of g u) as Hk.
  { intros u Hu Hs. destruct (decide (u = t)) as [->|Hut]; [auto|]. destruct (Hfr u Hut) as (-> & _ & -> & _). done. }
  assert (∀ u, (Wr g' = Some u ∨ u ∈ Rd g') → rl_tst h' u = Sleeping → rl_tst (shared s) u = Sleeping ∧ role_of g' u = role_of g u) as Hk'.
  { intros u Hu Hs. destruct (decide (u = t)) as [->|Hut]; [auto|]. destruct (Hfr u Hut) as (-> & _ & <- & _). done. }
  split; cbn [shared pcs]; try done.
  - intros u. destruct (decide (u = t)) as [->|Hut]; [by rewrite pc_upd_eq|]. rewrite pc_upd_ne by done.
    destruct (Hfr u Hut) as (-> & Hw & Hts & Hun). eapply place_keep; [exact Hw|exact Hts|exact Hun|apply (rl_places _ _ HI)].
  - intros v w [_ Hv]%Hv1. destruct (rl_told_w _ _ HI v w Hv) as (u & -> & Hu & Hs). exists u. destruct (Hk u (or_introl Hu) Hs) as [Hs' Hru].
    split_and!; [done| |done]. apply Hr'. rewrite Hru. by apply Hr.
  - intros v w [_ Hv]%Hv2. destruct (rl_told_r _ _ HI v w Hv) as (u & -> & Hu & Hs). exists u. destruct (Hk u (or_intror Hu) Hs) as [Hs' Hru].
    split_and!; [done| |done]. apply Hr'. rewrite Hru. by apply Hr.
  - intros v v' w w' [_ H1]%Hv1 [_ H2]%Hv1. by eapply (rl_one _ _ HI).
  - intros u Hu Hs. destruct (Hk' u (or_introl Hu) Hs) as [Hs' Hru]. destruct (rl_wake_w _ _ HI u) as [v Hv]; [apply Hr; rewrite <- Hru; by apply Hr'|done|].
    exists v. rewrite pc_upd_ne; [done|]. intros ->. by rewrite Hv in Ho.
  - intros u Hu Hs. destruct (Hk' u (or_intror Hu) Hs) as [Hs' Hru]. destruct (rl_wake_r _ _ HI u) as [v Hv]; [apply Hr; rewrite <- Hru; by apply Hr'|done|].
    exists v. rewrite pc_upd_ne; [done|]. intros ->. by rewrite Hv in Ho.
Qed.

(** The roles stay, and so does what the thread sleeps on. *)
Lemma rl_move t p' :
  telling (pcs s t) = false → telling p' = false → waking p' = waking (pcs s t) → (p' = RlWake → Sh g ≠ []) →
  rl_place (shared s) (role_of g t) t p' →
  rl_inv (Sys (shared s) (pc_upd (pcs s) t p')) g.
Proof using HI.
  intros Ho Hn Hw Hsh Hp. pose proof HI as [Hrx Hrs Hnd Hpos Hc Hal Hl _ _ _ _ _ _ Hrest]. eapply rl_plain; try done; auto.
  - eapply (holds_upd waking); [done|]. right; right. done.
  - destruct (rl_lock (shared s)); [|done]. destruct Hrest as (? & ? & Hr). split_and!; [done..|]. unfold pc_upd. case_decide; auto.
Qed.
End plain.

Lemma role_ext g g' u :
  (Wr g' = Some u ↔ Wr g = Some u) → (u ∈ Rd g' ↔ u ∈ Rd g) → (u ∈ X g' ↔ u ∈ X g) → (u ∈ Sh g' ↔ u ∈ Sh g) →
  role_of g' u = role_of g u.
Proof. intros H1 H2 H3 H4. unfold role_of. repeat case_decide; tauto. Qed.

Lemma chain_empty_ring m root (C : list nat) : ring m root (Node <$> C) → (∀ t, Node t ≠ root) → chain_empty root m = bool_decide (C = []).
Proof.
  intros [_ Hs] Hne. unfold chain_empty. destruct C as [|t C]; cbn in Hs.
  - destruct Hs as [-> _]. by rewrite !bool_decide_true.
  - destruct Hs as [[-> _] _]. rewrite !bool_decide_false; [done|done|]. intros [= E]. by apply (Hne t).
Qed.

Lemma ring_other m m' root root' (C D : list nat) :
  ring m root (Node <$> C) → only_links (root' :: (Node <$> D)) m m' → root ≠ root' → (∀ t, Node t ≠ root ∧ Node t ≠ root') →
  (∀ t, t ∈ C → t ∉ D) → ring m' root (Node <$> C).
Proof.
  intros Hr [Hm _] Hne Hn Hd. eapply ring_frame; [|exact Hr]. intros x Hx. rewrite Hm; [done|].
  intros [->|(t & -> & Ht)%list_elem_of_fmap]%elem_of_cons; apply elem_of_cons in Hx as [Hx|(u & Hu & Hx)%list_elem_of_fmap].
  - done.
  - by destruct (Hn u).
  - by destruct (Hn t).
  - injection Hu as ->. by eapply Hd.
Qed.

Lemma rl_on_chain_run {A} (c : M wmem A) h a m : c (rl_chain h) = Done (a, m) → rl_on_chain c h = Done (a, rl_set_chain m h).
Proof. intros H. unfold rl_on_chain. by rewrite H. Qed.

Lemma sleep_on_run h k t (C : list nat) :
  ring (rl_chain h) (kind_root k) (Node <$> C) → t ∉ C → rl_tst h t = Running →
  ∃ m, sleep_on k t h = Done (tt, rl_set_tst t Sleeping (rl_set_chain (set_wthread (Node t) (Z.of_nat t) m) h))
    ∧ ring m (kind_root k) (Node <$> C ++ [t]) ∧ only_links (kind_root k :: (Node <$> C ++ [t])) (rl_chain h) m.
Proof.
  intros Hr Ht Hrun. destruct (thread_wait_add_spec _ _ _ (Node t) Hr) as (m & Hadd & Hr' & Hm).
  { rewrite not_elem_of_cons, list_elem_of_fmap. split; [by destruct k|]. by intros (y & [= ->] & ?). }
  rewrite fmap_app. exists m. split; [|done]. unfold sleep_on. rewrite (bind_done _ _ _ _ _ (rl_on_chain_run _ _ _ _ Hadd)).
  rewrite (bind_done _ _ _ _ _ (rl_on_chain_run (modify _) _ _ _ eq_refl)). autorewrite with run. cbn [rl_tst rl_set_chain].
  by rewrite Hrun, bool_decide_true.
Qed.

Lemma pop_waiter_run h root w (C : list nat) :
  ring (rl_chain h) root (Node <$> w :: C) → (∀ t, Node t ≠ root) → wthread (rl_chain h (Node w)) = Z.of_nat w →
  ∃ m, pop_waiter root h = Done (Z.of_nat w, rl_set_chain m h) ∧ ring m root (Node <$> C) ∧ unlinked m w
    ∧ only_links (root :: (Node <$> w :: C)) (rl_chain h) m.
Proof.
  intros Hr Hne Hw. rewrite fmap_cons in *. destruct (thread_wait_del_spec _ root [] (Node w) _ Hr) as (m & nx & Hrun & _ & Hr' & Hun & Hup & Hm).
  exists m. split_and!; [|done|done|done]. unfold pop_waiter. autorewrite with run. rewrite (proj1 (proj1 (proj2 Hr))).
  rewrite (bind_done _ _ _ _ _ (rl_on_chain_run (deref (Some (Node w))) h (Node w) (rl_chain h) eq_refl)).
  assert (rl_set_chain (rl_chain h) h = h) as -> by (by destruct h).
  rewrite (bind_done _ _ _ _ _ (rl_on_chain_run _ _ _ _ Hrun)). unfold gets. cbn [rl_chain rl_set_chain]. by rewrite (proj2 Hm), Hw.
Qed.

(** Other threads' nodes, after links of a chain were changed *)
Lemma links_others root (D : list nat) m m' u :
  only_links (root :: (Node <$> D)) m m' → Node u ≠ root → u ∉ D → unlinked m u → unlinked m' u.
Proof.
  intros [Hm _] Hr Hu. unfold unlinked. rewrite Hm; [done|]. intros [?|(y & [= ->] & ?)%list_elem_of_fmap]%elem_of_cons; done.
Qed.

Section enter.
Context (s : sys rwlock_t rl_pc) (g : ghosts).
Context (HI : rl_inv s g).

Lemma out_facts t : role_of g t = Out → t ∉ all_of g ∧ Wr g ≠ Some t ∧ t ∉ Rd g ∧ t ∉ X g ∧ t ∉ Sh g.
Proof using HI.
  intros Hr. pose proof (role_cases g t (rl_nodup _ _ HI)) as (_ & _ & _ & _ & H). apply H in Hr as Hn. split; [done|].
  unfold all_of in Hn. rewrite !not_elem_of_app in Hn. destruct Hn as (H1 & H2 & H3 & H4). split_and!; try done.
  intros E. rewrite E in H1. by apply H1; left.
Qed.

(** The lock is free for [k], and taken. *)
Lemma rl_take t k :
  (0 < t)%nat → role_of g t = Out → k ≠ ForUp → telling (pcs s t) = false → waking (pcs s t) = false → rl_lock (shared s) = None →
  rl_tst (shared s) t = Running → can_enter k (shared s) = true →
  ∃ g', rl_inv (Sys (set_count (enter_count k t (shared s)) (shared s)) (pc_upd (pcs s) t (rl_held k))) g'.
Proof using HI.
  intros Ht Hrole Hk Hnt Hnw Hlk Hrun Hcan. destruct (out_facts t Hrole) as (Hall & HnW & HnR & HnX & HnS).
  pose proof HI as [Hrx Hrs Hnd Hpos Hc Hal Hl _ _ _ _ _ _ Hrest]. rewrite Hlk in Hrest. destruct Hrest as [Hfree Hfree'].
  assert (X g = [] ∧ Wr g = None ∧ (k = ForEx → Rd g = [])) as (HX & HW & HR).
  { unfold can_enter in Hcan. rewrite (chain_empty_ring _ _ _ Hrx), Hc in Hcan by done. unfold all_of in Hpos.
    destruct (Wr g) as [w|] eqn:EW.
    { assert (0 < w)%nat as Hw0 by (apply Hpos; by left). destruct k; [| |done]; apply andb_true_iff in Hcan as [H _]; [apply Z.eqb_eq in H|apply Z.leb_le in H]; lia. }
    destruct k; [| |done]; apply andb_true_iff in Hcan as [H HX]; apply bool_decide_eq_true in HX; split_and!; try done.
    intros _. apply Z.eqb_eq in H. apply length_zero_iff_nil. lia. }
  specialize (Hfree' HW HX). pose proof Hl as Hl'.
  assert (holds (rl_lock (shared s)) (λ u, waking (pc_upd (pcs s) t (rl_held k) u))) as Hlock.
  { eapply (holds_upd waking); [done|]. right; right. split; [|done]. rewrite Hnw. by destruct k. }
  destruct k; [| |done]; cbn [rl_held enter_count] in *.
  - specialize (HR eq_refl). exists (Ghosts (Some t) [] [] []).
    eapply (rl_plain s g HI); try done; cbn [Wr Rd X Sh rl_chain set_count rl_tst rl_lock reader_count]; try (by rewrite ?HX, ?Hfree' in * ).
    + apply NoDup_singleton.
    + intros u [->|[]%not_elem_of_nil]%elem_of_cons; done.
    + unfold role_of. by rewrite decide_True.
    + intros u Hu. split_and!; [|done..]. apply role_ext; cbn; rewrite ?HW, ?HR, ?HX, ?Hfree'; try done. split; congruence.
    + intros _ Hs. congruence.
    + intros [?|?]; done.
    + rewrite Hlk. done.
  - exists (Ghosts None (t :: Rd g) [] []).
    eapply (rl_plain s g HI); try done; cbn [Wr Rd X Sh rl_chain set_count rl_tst rl_lock reader_count]; try (by rewrite ?HX, ?Hfree' in * ).
    + unfold all_of in *. rewrite HW, HX, Hfree' in *. cbn in *. by apply NoDup_cons.
    + intros u Hu. unfold all_of in *. cbn in *. rewrite HW, HX, Hfree' in *. cbn in *. apply elem_of_cons in Hu as [->|Hu]; [done|]. by apply Hpos.
    + rewrite Hc, HW. cbn. lia.
    + unfold role_of. cbn. rewrite decide_False by done. rewrite decide_True by (by left). done.
    + intros u Hu. split_and!; [|done..]. apply role_ext; cbn; rewrite ?HW, ?HX, ?Hfree'; try done. rewrite elem_of_cons. naive_solver.
    + intros _ Hs. congruence.
    + intros [?|?]; done.
    + rewrite Hlk. done.
Qed.

(** The lock is not free: the thread queues up. *)
Lemma rl_queue t k m n :
  (0 < t)%nat → role_of g t = Out → k ≠ ForUp → telling (pcs s t) = false → waking (pcs s t) = false → rl_lock (shared s) = None →
  rl_tst (shared s) t = Running → can_enter k (shared s) = false →
  let C := match k with ForSh => Sh g | _ => X g end in
  ring m (kind_root k) (Node <$> C ++ [t]) → only_links (kind_root k :: (Node <$> C ++ [t])) (rl_chain (shared s)) m →
  ∃ g', rl_inv (Sys (rl_set_tst t Sleeping (rl_set_chain (set_wthread (Node t) (Z.of_nat t) m) (rl_set_spin n (shared s))))
                  (pc_upd (pcs s) t (RlSleep k))) g'.
Proof using HI.
  intros Ht Hrole Hk Hnt Hnw Hlk Hrun Hcan C Hr' Hm. destruct (out_facts t Hrole) as (Hall & HnW & HnR & HnX & HnS).
  pose proof HI as [Hrx Hrs Hnd Hpos Hc Hal Hl _ _ _ _ _ _ Hrest]. rewrite Hlk in Hrest. destruct Hrest as [Hfree Hfree'].
  pose proof (λ u, role_cases g u Hnd) as Hroles.
  exists (match k with ForSh => Ghosts (Wr g) (Rd g) (X g) (Sh g ++ [t]) | _ => Ghosts (Wr g) (Rd g) (X g ++ [t]) (Sh g) end).
  set (g' := match k with ForSh => _ | _ => _ end).
  assert (Wr g' = Wr g ∧ Rd g' = Rd g) as [EW ER] by (by destruct k).
  assert (all_of g' ≡ₚ t :: all_of g) as Hperm.
  { unfold all_of, g'. destruct k; cbn [Wr Rd X Sh]; [| |done].
    - rewrite <- !app_assoc. cbn. rewrite !(app_assoc _ _ (t :: Sh g)). by rewrite <- Permutation_middle, <- !app_assoc.
    - rewrite !app_assoc. by rewrite <- Permutation_cons_append. }
  assert (∀ root l, ring m root l → ring (set_wthread (Node t) (Z.of_nat t) m) root l) as Hth.
  { intros root l. apply ring_frame. intros x _. by autorewrite with wmem. }
  assert (∀ u, u ≠ t → role_of g' u = role_of g u) as Hru.
  { intros u Hu. apply role_ext; rewrite ?EW, ?ER; try done; unfold g'; destruct k; cbn; rewrite ?elem_of_app, ?list_elem_of_singleton; naive_solver. }
  assert (NoDup (all_of g')) as Hnd' by (rewrite Hperm; by apply NoDup_cons).
  assert (role_of g' t = match k with ForSh => WaitS | _ => WaitX end) as Hrt.
  { pose proof (role_cases g' t Hnd') as (_ & _ & H3 & H4 & _). unfold g' in *. destruct k; [apply H3|apply H4|done]; cbn; apply elem_of_app; right; by left. }
  assert (∀ u, Wr g = Some u ∨ u ∈ Rd g → u ≠ t) as Hne by (intros u [Hu|Hu] ->; done).
  assert (∀ D, (∀ u, u ∈ D → u ∉ C ++ [t]) → ∀ root, root ≠ kind_root k → (∀ u, Node u ≠ root) → ring (rl_chain (shared s)) root (Node <$> D) → ring m root (Node <$> D)) as Hother.
  { intros D HD root Hroot Hn Hr. eapply ring_other; [exact Hr|exact Hm|done| |done]. intros u. split; [done|by destruct k]. }
  assert (∀ u, u ∈ X g → u ∈ Sh g → False) as HXS.
  { intros u H1 H2. apply Hroles in H1. apply Hroles in H2. congruence. }
  eapply (rl_plain s g HI); cbn [Wr Rd X Sh rl_chain rl_set_chain rl_set_tst rl_set_spin rl_tst rl_lock reader_count]; try done.
  - apply Hth. destruct k; [exact Hr'| |done]. apply Hother; try done. intros u Hu. rewrite elem_of_app, list_elem_of_singleton. intros [H| ->]; [by eapply HXS|done].
  - apply Hth. destruct k; [|exact Hr'|done]. apply Hother; try done. intros u Hu. rewrite elem_of_app, list_elem_of_singleton. intros [H| ->]; [by eapply HXS|done].
  - intros u. rewrite Hperm. intros [->|Hu]%elem_of_cons; [done|by apply Hpos].
  - by rewrite EW, ER.
  - by rewrite EW, ER.
  - eapply (holds_upd waking); [done|]. right; right. split; [by rewrite Hnw|done].
  - rewrite Hrt. cbn [rl_place rl_tst rl_chain]. destruct k; [| |done]; cbn; rewrite ?pc_upd_eq; autorewrite with wmem; rewrite decide_True by done; done.
  - intros u Hu. rewrite pc_upd_ne by done. autorewrite with wmem. rewrite decide_False by congruence. split_and!; [by apply Hru|apply Hm|done|].
    intros Hr Hun. unfold unlinked. autorewrite with wmem. eapply links_others; [exact Hm|by destruct k| |done].
    rewrite not_elem_of_app, list_elem_of_singleton. split; [|done]. unfold C. intros Hin. destruct k; [| |done]; apply Hroles in Hin; destruct Hr; congruence.
  - rewrite EW, ER. intros Hw _. exfalso. by eapply (Hne t).
  - intros Hw. exfalso. by eapply (Hne t).
  - rewrite Hlk, EW, ER. unfold can_enter in Hcan. rewrite (chain_empty_ring _ _ _ Hrx), Hc in Hcan by done. unfold g'.
    destruct k; cbn [X Sh]; [| |done].
    + split; [|by intros _ [_ ?]%app_nil]. intros HW HR. exfalso. rewrite HW, HR in Hcan. destruct (Hfree HW HR) as [HX _]. by rewrite HX in Hcan.
    + split; intros HW; [intros HR|intros HX]; exfalso; rewrite HW in Hcan.
      * destruct (Hfree HW HR) as [HX _]. rewrite HR, HX in Hcan. done.
      * rewrite HX in Hcan. rewrite (proj2 (Z.leb_le 0 _)) in Hcan by lia. done.
Qed.
End enter.

Section leave.
Context (s : sys rwlock_t rl_pc) (g : ghosts).
Context (HI : rl_inv s g).

Lemma writer_facts t : Wr g = Some t → Rd g = [] ∧ t ∉ X g ∧ t ∉ Sh g ∧ rl_lock (shared s) = None.
Proof using HI.
  intros HW. pose proof (role_cases g t (rl_nodup _ _ HI)) as (H1 & H2 & H3 & H4 & _). apply H1 in HW as Hr.
  split_and!; [apply (rl_alone _ _ HI); by rewrite HW|intros ?%H3; congruence|intros ?%H4; congruence|].
  pose proof (rl_rest _ _ HI) as Hrest. destruct (rl_lock (shared s)); [|done]. destruct Hrest; congruence.
Qed.

(** The writer leaves a lock that nobody waits for, or begins to wake the
    readers. *)
Lemma rl_leave_w t h' p' :
  Wr g = Some t → X g = [] → telling (pcs s t) = false → waking (pcs s t) = false → rl_tst (shared s) t = Running →
  rl_chain h' = rl_chain (shared s) → rl_tst h' = rl_tst (shared s) → reader_count h' = 0 →
  (Sh g = [] ∧ p' = RlIdle ∧ rl_lock h' = None ∨ Sh g ≠ [] ∧ p' = RlWake ∧ rl_lock h' = Some t) →
  rl_inv (Sys h' (pc_upd (pcs s) t p')) (Ghosts None [] [] (Sh g)).
Proof using HI.
  intros HW HX Hnt Hnw Hrun Hc Hts Hcnt Hcase. destruct (writer_facts t HW) as (HR & _ & HtS & Hlk).
  pose proof HI as [Hrx Hrs Hnd Hpos _ _ Hl _ _ _ _ _ _ _].
  assert (NoDup (all_of (Ghosts None [] [] (Sh g)))) as Hnd'.
  { unfold all_of in *. rewrite HW, HR, HX in Hnd. cbn in *. by apply NoDup_cons in Hnd as [_ ?]. }
  assert (role_of (Ghosts None [] [] (Sh g)) t = Out) as Hrt by (by apply (role_cases _ t Hnd')).
  eapply (rl_plain s g HI); cbn [Wr Rd X Sh]; try done.
  - by destruct Hcase as [(_ & -> & _)|(_ & -> & _)].
  - rewrite Hc. by rewrite HX in Hrx.
  - by rewrite Hc.
  - intros u Hu. apply Hpos. unfold all_of in *. cbn in *. rewrite !elem_of_app. auto.
  - eapply (holds_upd waking); [done|]. rewrite Hnw, Hlk. destruct Hcase as [(_ & -> & ->)|(_ & -> & ->)]; auto.
  - rewrite Hrt. destruct Hcase as [(_ & -> & _)|(_ & -> & _)]; cbn; by rewrite Hts.
  - intros u Hu. rewrite Hc, Hts. split_and!; [|done..]. apply role_ext; cbn; rewrite ?HW, ?HR, ?HX; try done. split; congruence.
  - intros [?|?%elem_of_nil]; done.
  - intros _ Hs. congruence.
  - destruct Hcase as [(HS & -> & ->)|(HS & -> & ->)]; done.
Qed.

(** A reader leaves; others stay, or nobody waits. *)
Lemma rl_leave_r t l1 l2 h' :
  Rd g = l1 ++ t :: l2 → (l1 ++ l2 ≠ [] ∨ X g = []) → telling (pcs s t) = false → waking (pcs s t) = false →
  rl_tst (shared s) t = Running → rl_lock (shared s) = None → rl_lock h' = None →
  rl_chain h' = rl_chain (shared s) → rl_tst h' = rl_tst (shared s) → reader_count h' = reader_count (shared s) - 1 →
  rl_inv (Sys h' (pc_upd (pcs s) t RlIdle)) (Ghosts None (l1 ++ l2) (X g) (Sh g)).
Proof using HI.
  intros HR Hrem Hnt Hnw Hrun Hlk Hlk' Hc Hts Hcnt. pose proof HI as [Hrx Hrs Hnd Hpos Hct Hal Hl _ _ _ _ _ _ Hrest]. rewrite Hlk in Hrest.
  assert (Wr g = None) as HW by (destruct (Wr g); [|done]; rewrite HR in Hal; by destruct l1; discriminate Hal).
  assert (all_of g ≡ₚ t :: all_of (Ghosts None (l1 ++ l2) (X g) (Sh g))) as Hperm.
  { unfold all_of. rewrite HW, HR. cbn. rewrite <- !app_assoc. cbn [app]. by rewrite <- Permutation_middle. }
  rewrite Hperm in Hnd. apply NoDup_cons in Hnd as [Ht Hnd'].
  assert (role_of (Ghosts None (l1 ++ l2) (X g) (Sh g)) t = Out) as Hrt by (by apply (role_cases _ t Hnd')).
  eapply (rl_plain s g HI); cbn [Wr Rd X Sh]; try done.
  - by rewrite Hc.
  - by rewrite Hc.
  - intros u Hu. apply Hpos. rewrite Hperm. by right.
  - rewrite Hcnt, Hct, HW, HR, !length_app. cbn. lia.
  - eapply (holds_upd waking); [done|]. right; right. by rewrite Hnw, Hlk.
  - rewrite Hrt. cbn. by rewrite Hts.
  - intros u Hu. rewrite Hc, Hts. split_and!; [|done..]. apply role_ext; cbn; rewrite ?HW, ?HR; try done.
    rewrite !elem_of_app, elem_of_cons. naive_solver.
  - intros [?|Hin]; [done|]. exfalso. apply Ht. unfold all_of. cbn. rewrite !elem_of_app in *. tauto.
  - intros _ Hs. congruence.
  - rewrite Hlk'. destruct Hrest as [_ Hf]. specialize (Hf HW). split; [|auto]. intros _ Hnil. destruct Hrem as [?|HX]; [done|]. auto.
Qed.

(** The only reader becomes the writer. *)
Lemma rl_upgrade t :
  Rd g = [t] → telling (pcs s t) = false → waking (pcs s t) = false →
  rl_tst (shared s) t = Running → rl_lock (shared s) = None →
  rl_inv (Sys (set_count (- Z.of_nat t) (shared s)) (pc_upd (pcs s) t RlEx)) (Ghosts (Some t) [] (X g) (Sh g)).
Proof using HI.
  intros HR Hnt Hnw Hrun Hlk. pose proof HI as [Hrx Hrs Hnd Hpos Hct Hal Hl _ _ _ _ _ _ _].
  assert (Wr g = None) as HW by (destruct (Wr g); [|done]; rewrite HR in Hal; by discriminate Hal).
  assert (all_of (Ghosts (Some t) [] (X g) (Sh g)) = all_of g) as Eall by (unfold all_of; by rewrite HW, HR).
  eapply (rl_plain s g HI); cbn [Wr Rd X Sh set_count rl_chain rl_tst rl_lock reader_count]; rewrite ?Eall; try done.
  - eapply (holds_upd waking); [done|]. right; right. by rewrite Hnw.
  - unfold role_of. by rewrite decide_True.
  - intros u Hu. split_and!; [|done..]. apply role_ext; cbn; rewrite ?HW, ?HR, ?list_elem_of_singleton; try done; [split; congruence|].
    split; [by intros ?%elem_of_nil|done].
  - intros _ Hs. congruence.
  - intros _ Hs. congruence.
  - by rewrite Hlk.
Qed.

(** All readers have been woken. *)
Lemma rl_wake_done t :
  pcs s t = RlMore → Sh g = [] → rl_inv (Sys (rl_set_lock None (shared s)) (pc_upd (pcs s) t RlIdle)) g.
Proof using HI.
  intros Ep HS. pose proof HI as [Hrx Hrs Hnd Hpos Hct Hal Hl HP _ _ _ _ _ Hrest].
  assert (rl_lock (shared s) = Some t) as Hlk by (apply Hl; by rewrite Ep). rewrite Hlk in Hrest. destruct Hrest as (HW & HX & _).
  specialize (HP t). rewrite Ep in HP. assert (role_of g t = Out) as Hrt by (by destruct (role_of g t)). rewrite Hrt in HP.
  eapply (rl_plain s g HI); cbn [rl_set_lock rl_chain rl_tst rl_lock reader_count]; try done; auto.
  - by rewrite Ep.
  - eapply (holds_upd waking); [done|]. right; left. by rewrite Ep.
  - by rewrite Hrt.
Qed.
End leave.

Section tell.
Context (s : sys rwlock_t rl_pc) (g : ghosts).
Context (HI : rl_inv s g).

(** The lock passes to the first writer that waits. *)
Lemma rl_hand t w X' m h' :
  Wr g = Some t ∨ (Wr g = None ∧ Rd g = [t]) → X g = w :: X' → rl_lock (shared s) = None → rl_tst (shared s) t = Running →
  waking (pcs s t) = false →
  ring m ex_root (Node <$> X') → unlinked m w → only_links (ex_root :: (Node <$> w :: X')) (rl_chain (shared s)) m →
  rl_chain h' = m → rl_tst h' = rl_tst (shared s) → rl_lock h' = None → reader_count h' = - Z.of_nat w →
  rl_inv (Sys h' (pc_upd (pcs s) t (RlResume (Z.of_nat w)))) (Ghosts (Some w) [] X' (Sh g)).
Proof using HI.
  intros Hown HX Hlk Hrun Hnw Hr' Hun Hm Hc Hts Hlk' Hcnt. pose proof HI as [Hrx Hrs Hnd Hpos Hct Hal Hl HP Htw Htr H1 Hww Hwr _].
  set (g' := Ghosts (Some w) [] X' (Sh g)).
  assert (all_of g = t :: all_of g') as Eall.
  { unfold all_of, g'. cbn. rewrite HX. destruct Hown as [HW|[HW HR]]; rewrite HW; cbn; [|by rewrite HR]. by rewrite Hal by (by rewrite HW). }
  assert (Hnd2 := Hnd). rewrite Eall in Hnd2. apply NoDup_cons in Hnd2 as [Ht Hnd'].
  pose proof (λ u, role_cases g u Hnd) as Hro. pose proof (λ u, role_cases g' u Hnd') as Hro'.
  assert (t ≠ w) as Htw' by (intros ->; apply Ht; unfold all_of; by left).
  assert (w ∈ X g) as HwX by (rewrite HX; by left). pose proof (HP w) as Hpw. rewrite (proj2 (proj1 (proj2 (proj2 (Hro w)))) HwX) in Hpw.
  assert (∀ u, u ≠ t → u ≠ w → role_of g' u = role_of g u) as Hru.
  { intros u H2 H3. apply role_ext; unfold g'; cbn; rewrite ?HX; try done.
    - destruct Hown as [-> |[-> _]]; split; congruence.
    - rewrite elem_of_nil. destruct Hown as [HW|[_ ->]]; [rewrite Hal by (by rewrite HW)|]; set_solver.
    - rewrite elem_of_cons. naive_solver. }
  assert (∀ v w', pcs s v = RlResume w' → False) as Hno.
  { intros v w' Hv. destruct (Htw v w' Hv) as (u & _ & Hu & Hs). destruct Hown as [HW|[HW _]]; congruence. }
  assert (∀ v w', pcs s v = RlWakeResume w' → False) as Hno2.
  { intros v w' Hv. assert (rl_lock (shared s) = Some v) by (apply Hl; by rewrite Hv). congruence. }
  assert (rl_tst (shared s) w = Sleeping) as Hws by (destruct (pcs s w) as [| | | | | | |[]|[]|[]|[]| | | | | | | | | | ]; try done; apply Hpw).
  split; cbn [shared pcs]; try done.
  - by rewrite Hc.
  - rewrite Hc. eapply ring_other; [exact Hrs|exact Hm|done|done|]. intros u Hu Hu2. rewrite <- HX in Hu2. apply Hro in Hu, Hu2. congruence.
  - intros u Hu. apply Hpos. rewrite Eall. by right.
  - eapply (holds_upd waking); [done|]. right; right. by rewrite Hnw, Hlk.
  - intros u. destruct (decide (u = t)) as [->|Hut].
    + rewrite pc_upd_eq. rewrite (proj2 (proj2 (proj2 (proj2 (proj2 (Hro' t))))) Ht). cbn. by rewrite Hts.
    + rewrite pc_upd_ne by done. destruct (decide (u = w)) as [->|Huw].
      * rewrite (proj2 (proj1 (Hro' w)) eq_refl). destruct (pcs s w) as [| | | | | | |[]|[]|[]|[]| | | | | | | | | | ]; try done. cbn in *.
        rewrite Hc, Hts, (proj2 Hm). destruct Hpw. auto.
      * rewrite Hru by done. eapply place_keep; [rewrite Hc; apply Hm|by rewrite Hts| |apply HP]. intros Hr. rewrite Hc.
        eapply links_others; [exact Hm|done|]. rewrite <- HX. intros Hin%Hro. destruct Hr; congruence.
  - intros v w'. unfold pc_upd. case_decide; [|by intros ?%Hno]. intros [= <-]. exists w. by rewrite Hts.
  - intros v w'. unfold pc_upd. case_decide; [done|]. by intros ?%Hno2.
  - intros v v' w1 w2. unfold pc_upd. repeat case_decide; subst; try done; intros E1 E2; by (apply Hno in E1 || apply Hno in E2).
  - intros u [= <-] _. exists t. by rewrite pc_upd_eq.
  - intros u ?%elem_of_nil. done.
  - by rewrite Hlk'.
Qed.

(** The first waiting reader is let in. *)
Lemma rl_let_in t w S' m h' :
  pcs s t = RlWake → Sh g = w :: S' →
  ring m sh_root (Node <$> S') → unlinked m w → only_links (sh_root :: (Node <$> w :: S')) (rl_chain (shared s)) m →
  rl_chain h' = m → rl_tst h' = rl_tst (shared s) → rl_lock h' = rl_lock (shared s) → reader_count h' = reader_count (shared s) + 1 →
  rl_inv (Sys h' (pc_upd (pcs s) t (RlWakeResume (Z.of_nat w)))) (Ghosts None (w :: Rd g) [] S').
Proof using HI.
  intros Ep HS Hr' Hun Hm Hc Hts Hlk' Hcnt. pose proof HI as [Hrx Hrs Hnd Hpos Hct Hal Hl HP Htw Htr H1 Hww Hwr Hrest].
  assert (rl_lock (shared s) = Some t) as Hlk by (apply Hl; by rewrite Ep). rewrite Hlk in Hrest. destruct Hrest as (HW & HX & _).
  set (g' := Ghosts None (w :: Rd g) [] S').
  assert (all_of g' ≡ₚ all_of g) as Hperm.
  { unfold all_of, g'. rewrite HW, HX, HS. cbn. by rewrite Permutation_middle. }
  assert (NoDup (all_of g')) as Hnd' by (by rewrite Hperm).
  pose proof (λ u, role_cases g u Hnd) as Hro. pose proof (λ u, role_cases g' u Hnd') as Hro'.
  assert (w ∈ Sh g) as HwS by (rewrite HS; by left). pose proof (HP w) as Hpw. rewrite (proj2 (proj1 (proj2 (proj2 (proj2 (Hro w))))) HwS) in Hpw.
  assert (t ≠ w) as Htw' by (intros ->; by rewrite Ep in Hpw).
  assert (∀ u, u ≠ w → role_of g' u = role_of g u) as Hru.
  { intros u H2. apply role_ext; unfold g'; cbn; rewrite ?HX, ?HS, ?HW; try done; rewrite ?elem_of_cons; naive_solver. }
  assert (∀ v w', pcs s v = RlResume w' → False) as Hno.
  { intros v w' Hv. destruct (Htw v w' Hv) as (u & _ & Hu & Hs). congruence. }
  assert (∀ v w', pcs s v = RlWakeResume w' → False) as Hno2.
  { intros v w' Hv. assert (rl_lock (shared s) = Some v) by (apply Hl; by rewrite Hv). assert (v = t) as -> by congruence. congruence. }
  assert (rl_tst (shared s) w = Sleeping) as Hws by (destruct (pcs s w) as [| | | | | | |[]|[]|[]|[]| | | | | | | | | | ]; try done; apply Hpw).
  split; cbn [shared pcs]; try done.
  - rewrite Hc. cbn. rewrite HX in Hrx. eapply (ring_other _ _ ex_root sh_root [] (w :: S')); [exact Hrx|exact Hm|done|done|]. by intros u ?%elem_of_nil.
  - by rewrite Hc.
  - intros u. rewrite Hperm. apply Hpos.
  - rewrite Hcnt, Hct, HW. cbn. lia.
  - eapply (holds_upd waking); [done|]. right; right. by rewrite Ep.
  - intros u. destruct (decide (u = w)) as [->|Huw].
    + rewrite pc_upd_ne by done. rewrite (proj2 (proj1 (proj2 (Hro' w))) ltac:(by left)).
      destruct (pcs s w) as [| | | | | | |[]|[]|[]|[]| | | | | | | | | | ]; try done. cbn in *. rewrite Hc, Hts, (proj2 Hm). destruct Hpw. auto.
    + rewrite Hru by done. assert (rl_place h' (role_of g u) u (pcs s u)) as Hpu.
      { eapply place_keep; [rewrite Hc; apply Hm|by rewrite Hts| |apply HP]. intros Hr. rewrite Hc.
        eapply links_others; [exact Hm|done|]. rewrite <- HS. intros Hin%Hro. destruct Hr; congruence. }
      unfold pc_upd. case_decide; [subst u|done]. rewrite Ep in Hpu. by destruct (role_of g t).
  - intros v w'. unfold pc_upd. case_decide; [done|]. by intros ?%Hno.
  - intros v w'. unfold pc_upd. case_decide; [|by intros ?%Hno2]. intros [= <-]. exists w. rewrite Hts. split_and!; [done|by left|done].
  - intros v v' w1 w2. unfold pc_upd. repeat case_decide; subst; try done; intros E1 E2; by (apply Hno in E1 || apply Hno in E2).
  - intros u. cbn. rewrite Hts. intros [->|Hu]%elem_of_cons Hs; [exists t; by rewrite pc_upd_eq|].
    exfalso. destruct (Hwr u Hu Hs) as [v Hv]. by apply Hno2 in Hv.
  - rewrite Hlk', Hlk. split_and!; [done..|]. by rewrite pc_upd_eq.
Qed.
End tell.

(** The new holder is told. *)
Lemma rl_tell s g t w p' :
  rl_inv s g → (pcs s t = RlResume w ∧ p' = RlIdle ∨ pcs s t = RlWakeResume w ∧ p' = RlMore) →
  ∃ u, w = Z.of_nat u ∧ rl_tst (shared s) u = Sleeping
    ∧ rl_inv (Sys (rl_set_tst u (Resumed 1) (shared s)) (pc_upd (pcs s) t p')) g.
Proof.
  intros HI Hcase. pose proof HI as [Hrx Hrs Hnd Hpos Hct Hal Hl HP Htw Htr H1 Hww Hwr Hrest].
  assert (∃ u, w = Z.of_nat u ∧ rl_tst (shared s) u = Sleeping ∧ (Wr g = Some u ∨ u ∈ Rd g)) as (u & -> & Hs & Hu).
  { destruct Hcase as [[Ep _]|[Ep _]]; [destruct (Htw _ _ Ep) as (u & ? & ? & ?)|destruct (Htr _ _ Ep) as (u & ? & ? & ?)]; eauto. }
  exists u. split_and!; [done..|]. pose proof (λ x, role_cases g x Hnd) as Hro.
  assert (rl_place (shared s) (role_of g t) t (pcs s t)) as Hpt by apply HP.
  assert (role_of g t = Out ∧ rl_tst (shared s) t = Running) as [Hrt Hrun].
  { destruct Hcase as [[Ep _]|[Ep _]]; rewrite Ep in Hpt; by destruct (role_of g t). }
  assert (u ≠ t) as Hut by congruence.
  (* nobody else is telling it *)
  assert (∀ v, v ≠ t → pcs s v ≠ RlResume (Z.of_nat u) ∧ pcs s v ≠ RlWakeResume (Z.of_nat u)) as Hone.
  { intros v Hv. split; intros Ev.
    - destruct Hcase as [[Ep _]|[Ep _]]; [by apply Hv; eapply H1|]. destruct (Htw _ _ Ev) as (x & E%Nat2Z.inj & Hx & _). subst x.
      destruct (Htr _ _ Ep) as (y & E%Nat2Z.inj & Hy & _). subst y. rewrite Hal in Hy by congruence. by apply elem_of_nil in Hy.
    - destruct Hcase as [[Ep _]|[Ep _]].
      + destruct (Htr _ _ Ev) as (x & E%Nat2Z.inj & Hx & _). subst x. destruct (Htw _ _ Ep) as (y & E%Nat2Z.inj & Hy & _). subst y.
        rewrite Hal in Hx by congruence. by apply elem_of_nil in Hx.
      + apply Hv. assert (rl_lock (shared s) = Some v) by (apply Hl; by rewrite Ev). assert (rl_lock (shared s) = Some t) by (apply Hl; by rewrite Ep). congruence. }
  assert (∀ v w, pc_upd (pcs s) t p' v = RlResume w → v ≠ t ∧ pcs s v = RlResume w) as Hv1.
  { intros v w. unfold pc_upd. case_decide; [|done]. by destruct Hcase as [[_ ->]|[_ ->]]. }
  assert (∀ v w, pc_upd (pcs s) t p' v = RlWakeResume w → v ≠ t ∧ pcs s v = RlWakeResume w) as Hv2.
  { intros v w. unfold pc_upd. case_decide; [|done]. by destruct Hcase as [[_ ->]|[_ ->]]. }
  split; cbn [shared pcs rl_set_tst rl_chain rl_lock rl_tst reader_count]; try done.
  - eapply (holds_upd waking); [done|]. right; right. by destruct Hcase as [[-> ->]|[-> ->]].
  - intros x. destruct (decide (x = t)) as [->|Hxt].
    + rewrite pc_upd_eq, Hrt. destruct Hcase as [[_ ->]|[_ ->]]; cbn; by rewrite pc_upd_ne.
    + rewrite pc_upd_ne by done. destruct (decide (x = u)) as [->|Hxu].
      * specialize (HP u). destruct Hu as [Hu|Hu]; apply Hro in Hu; rewrite Hu in *;
          destruct (pcs s u) as [| | | | | | |[]|[]|[]|[]| | | | | | | | | | ]; cbn in HP |- *; rewrite ?pc_upd_eq; try done; try congruence;
          try (destruct HP as (_ & ? & _); congruence); try (destruct HP as (_ & _ & ?); congruence); try (destruct HP; congruence); destruct HP as (? & ? & _); auto.
      * eapply place_keep; [| | |apply HP]; cbn; try done. by rewrite pc_upd_ne.
  - intros v w [Hv Ev]%Hv1. destruct (Htw _ _ Ev) as (x & -> & Hx & Hxs). exists x. rewrite pc_upd_ne; [done|]. intros ->. by destruct (Hone v Hv).
  - intros v w [Hv Ev]%Hv2. destruct (Htr _ _ Ev) as (x & -> & Hx & Hxs). exists x. rewrite pc_upd_ne; [done|]. intros ->. by destruct (Hone v Hv).
  - intros v v' w w' [_ E1]%Hv1 [_ E2]%Hv1. by eapply H1.
  - intros x Hx Hxs. destruct (decide (x = u)) as [->|Hxu]; [by rewrite pc_upd_eq in Hxs|]. rewrite pc_upd_ne in Hxs by done.
    destruct (Hww x Hx Hxs) as [v Hv]. exists v. rewrite pc_upd_ne; [done|]. intros ->. destruct Hcase as [[Ep _]|[Ep _]]; rewrite Ep in Hv; [|done].
    injection Hv as E%Nat2Z.inj. by subst.
  - intros x Hx Hxs. destruct (decide (x = u)) as [->|Hxu]; [by rewrite pc_upd_eq in Hxs|]. rewrite pc_upd_ne in Hxs by done.
    destruct (Hwr x Hx Hxs) as [v Hv]. exists v. rewrite pc_upd_ne; [done|]. intros ->. destruct Hcase as [[Ep _]|[Ep _]]; rewrite Ep in Hv; [done|].
    injection Hv as E%Nat2Z.inj. by subst.
  - destruct (rl_lock (shared s)) as [v|]; [|done]. destruct Hrest as (? & ? & Hr). split_and!; [done..|]. unfold pc_upd. case_decide; [|done].
    by destruct Hcase as [[_ ->]|[_ ->]].
Qed.

(** A woken thread runs again. *)
Lemma rl_awake s g t k :
  rl_inv s g → pcs s t = RlSleep k → rl_tst (shared s) t = Resumed 1 →
  rl_inv (Sys (rl_set_tst t Running (shared s)) (pc_upd (pcs s) t (RlWoken k))) g.
Proof.
  intros HI Ep Er. pose proof HI as [Hrx Hrs Hnd Hpos Hct Hal Hl HP _ _ _ _ _ Hrest]. pose proof (HP t) as Hp. rewrite Ep in Hp.
  eapply (rl_plain s g HI); cbn [rl_set_tst rl_chain rl_lock rl_tst reader_count]; try done.
  - by rewrite Ep.
  - eapply (holds_upd waking); [done|]. right; right. by rewrite Ep.
  - destruct (role_of g t), k; cbn in *; rewrite ?pc_upd_eq; try done; try (destruct Hp; congruence); by destruct Hp as (? & ? & _).
  - intros u Hu. by rewrite pc_upd_ne.
  - intros _ Hs. by rewrite pc_upd_eq in Hs.
  - intros _ Hs. congruence.
  - destruct (rl_lock (shared s)) as [v|]; [|done]. destruct Hrest as (? & ? & Hr). split_and!; [done..|]. unfold pc_upd. by case_decide.
Qed.

Section steps.
Context (mask : Z) (s : sys rwlock_t rl_pc) (g : ghosts).
Context (HI : rl_inv s g).

Lemma lock_free t : waking (pcs s t) = false → ∀ v, rl_lock (shared s) = Some v → v ≠ t.
Proof using HI. intros Hw v Hv ->. apply (rl_locked _ _ HI) in Hv. cbn in Hv. congruence. Qed.

Lemma rl_section_spec t k spin :
  (0 < t)%nat → role_of g t = Out → k ≠ ForUp → telling (pcs s t) = false → waking (pcs s t) = false → rl_lock (shared s) = None →
  rl_tst (shared s) t = Running →
  ∃ o h', rl_section mask k t spin (shared s) = Done (o, h')
    ∧ match o with LkSpin => h' = shared s | _ => ∃ g', rl_inv (Sys h' (pc_upd (pcs s) t (match o with LkGot => rl_held k | _ => RlSleep k end))) g' end.
Proof using HI.
  intros Ht Hr Hk Hnt Hnw Hlk Hrun. unfold rl_section. autorewrite with run. destruct (can_enter k (shared s)) eqn:Ecan.
  - autorewrite with run. eexists _, _. split; [reflexivity|]. by apply (rl_take s g HI).
  - autorewrite with run. destruct (_ <=? spin).
    + destruct (out_facts s g HI t Hr) as (_ & _ & _ & HnX & HnS).
      destruct (sleep_on_run (rl_set_spin (if SPINCOUNT_MIN <? rl_spin_count (shared s) then rl_spin_count (shared s) + mask else rl_spin_count (shared s)) (shared s))
        k t (match k with ForSh => Sh g | _ => X g end)) as (m & Hm & Hr' & Hol).
      { destruct k; [apply (rl_ring_x _ _ HI)|apply (rl_ring_s _ _ HI)|done]. }
      { by destruct k. } { done. }
      assert (spin_shrink mask (shared s) = Done (tt, rl_set_spin (if SPINCOUNT_MIN <? rl_spin_count (shared s) then rl_spin_count (shared s) + mask else rl_spin_count (shared s)) (shared s))) as Hsh by done.
      rewrite (bind_done _ _ _ _ _ Hsh), (bind_done _ _ _ _ _ Hm). eexists _, _. split; [reflexivity|]. by eapply (rl_queue s g HI).
    + eexists _, _. by split.
Qed.

Lemma rl_try_spec t k :
  (0 < t)%nat → role_of g t = Out → k ≠ ForUp → telling (pcs s t) = false → waking (pcs s t) = false → rl_lock (shared s) = None →
  rl_tst (shared s) t = Running →
  ∃ b h', rl_try k t (shared s) = Done (b, h')
    ∧ if b : bool then ∃ g', rl_inv (Sys h' (pc_upd (pcs s) t (rl_held k))) g' else h' = shared s.
Proof using HI.
  intros Ht Hr Hk Hnt Hnw Hlk Hrun. unfold rl_try. autorewrite with run. destruct (can_enter k (shared s)) eqn:Ecan.
  - autorewrite with run. eexists _, _. split; [reflexivity|]. by apply (rl_take s g HI).
  - eexists _, _. by split.
Qed.

Lemma ex_unlock_spec t :
  Wr g = Some t → pcs s t = RlExUnlock → rl_tst (shared s) t = Running →
  ∃ o h' g', ex_unlock_section t (shared s) = Done (o, h')
    ∧ rl_inv (Sys h' (pc_upd (pcs s) t (match o with ExWriter w => RlResume w | ExReaders => RlWake | ExFree => RlIdle end))) g'.
Proof using HI.
  intros HW Ep Hrun. destruct (writer_facts s g HI t HW) as (HR & HtX & HtS & Hlk).
  pose proof HI as [Hrx Hrs Hnd _ Hct _ _ HP _ _ _ _ _ _]. unfold ex_unlock_section. autorewrite with run. rewrite Hct, HW, Z.eqb_refl.
  unfold rl_assert. autorewrite with run. rewrite (chain_empty_ring _ _ _ Hrx), (chain_empty_ring _ _ _ Hrs) by done.
  destruct (X g) as [|w X'] eqn:EX; [destruct (Sh g) as [|w S'] eqn:ES|]; cbn [bool_decide negb decide_rel].
  - rewrite !bool_decide_true by done. autorewrite with run. eexists _, _, _. split; [reflexivity|].
    eapply (rl_leave_w s g HI); rewrite ?Ep; try done. left. by rewrite ES.
  - rewrite bool_decide_true, bool_decide_false by done. autorewrite with run. eexists _, _, _. split; [reflexivity|].
    eapply (rl_leave_w s g HI); rewrite ?Ep; try done. right. by rewrite ES.
  - rewrite bool_decide_false by done. assert (w ∈ X g) as HwX by (rewrite EX; by left).
    pose proof (HP w) as Hpw. rewrite (proj2 (proj1 (proj2 (proj2 (role_cases g w Hnd)))) HwX) in Hpw.
    destruct (pop_waiter_run (shared s) ex_root w X') as (m & Hpop & Hr' & Hun & Hm); [done|done| |].
    { destruct (pcs s w) as [| | | | | | |[]|[]|[]|[]| | | | | | | | | | ]; try done; apply Hpw. }
    cbn [negb]. rewrite (bind_done _ _ _ _ _ Hpop). autorewrite with run. eexists _, _, _. split; [reflexivity|].
    eapply (rl_hand s g HI t w X'); rewrite ?Ep; try done. by left.
Qed.

Lemma sh_unlock_spec t :
  t ∈ Rd g → pcs s t = RlShUnlock → rl_tst (shared s) t = Running → rl_lock (shared s) = None →
  ∃ o h' g', sh_unlock_section (shared s) = Done (o, h')
    ∧ rl_inv (Sys h' (pc_upd (pcs s) t (match o with Some w => RlResume w | None => RlIdle end))) g'.
Proof using HI.
  intros Ht Ep Hrun Hlk. pose proof HI as [Hrx Hrs Hnd _ Hct Hal _ HP _ _ _ _ _ _].
  assert (Wr g = None) as HW by (destruct (Wr g); [|done]; rewrite Hal in Ht by done; by apply elem_of_nil in Ht).
  apply list_elem_of_split in Ht as (l1 & l2 & HR). assert (reader_count (shared s) = Z.of_nat (length (l1 ++ l2)) + 1) as Hc.
  { rewrite Hct, HW, HR, !length_app. cbn. lia. }
  unfold sh_unlock_section. autorewrite with run. rewrite Hc. rewrite (proj2 (Z.ltb_lt 0 _)) by lia. unfold rl_assert. autorewrite with run.
  cbn [rl_chain set_count]. rewrite (chain_empty_ring _ _ _ Hrx) by done.
  replace (Z.of_nat (length (l1 ++ l2)) + 1 - 1) with (Z.of_nat (length (l1 ++ l2))) by lia.
  destruct (decide (l1 ++ l2 = [])) as [Hnil|Hnn]; [destruct (X g) as [|w X'] eqn:EX|].
  - rewrite bool_decide_true, andb_false_r by done. eexists _, _, _. split; [reflexivity|].
    eapply (rl_leave_r s g HI); rewrite ?Ep; try done; [by right|]. cbn. lia.
  - rewrite Hnil. rewrite bool_decide_false by done. cbn [negb length]. assert (w ∈ X g) as HwX by (rewrite EX; by left).
    pose proof (HP w) as Hpw. rewrite (proj2 (proj1 (proj2 (proj2 (role_cases g w Hnd)))) HwX) in Hpw.
    destruct (pop_waiter_run (set_count 0 (shared s)) ex_root w X') as (m & Hpop & Hr' & Hun & Hm); [done|done| |].
    { destruct (pcs s w) as [| | | | | | |[]|[]|[]|[]| | | | | | | | | | ]; try done; apply Hpw. }
    change (Z.of_nat 0) with 0. rewrite Z.eqb_refl. cbn [andb]. rewrite (bind_done _ _ _ _ _ Hpop). autorewrite with run. eexists _, _, _. split; [reflexivity|].
    eapply (rl_hand s g HI t w X'); rewrite ?Ep; try done. right. split; [done|]. apply app_nil in Hnil as [-> ->]. done.
  - rewrite (proj2 (Z.eqb_neq _ 0)); cbn [andb].
    + eexists _, _, _. split; [reflexivity|]. eapply (rl_leave_r s g HI); rewrite ?Ep; try done; [by left|]. cbn. lia.
    + destruct (l1 ++ l2); [done|]. cbn. lia.
Qed.

Lemma locked_step_inv {A} t stay (c : M rwlock_t A) go p' h' :
  pcs s t = stay → telling stay = false → waking stay = false →
  (rl_lock (shared s) = None → ∃ a h2 g', c (shared s) = Done (a, h2) ∧ rl_inv (Sys h2 (pc_upd (pcs s) t (go a))) g') →
  locked_step (shared s) stay c go = (p', h') → ∃ g', rl_inv (Sys h' (pc_upd (pcs s) t p')) g'.
Proof using HI.
  intros Ep Hnt Hnw Hc Hrun. unfold locked_step in Hrun. destruct (rl_lock (shared s)) eqn:El.
  - injection Hrun as <- <-. exists g. apply (rl_move s g HI); rewrite ?Ep; try done; [by intros ->|]. rewrite <- Ep. apply (rl_places _ _ HI).
  - destruct (Hc eq_refl) as (a & h2 & g' & E & HI'). rewrite E in Hrun. injection Hrun as <- <-. by exists g'.
Qed.

Lemma rl_step_out t p' h' :
  (0 < t)%nat → role_of g t = Out → rl_run mask t (pcs s t) (shared s) = (p', h') → ∃ g', rl_inv (Sys h' (pc_upd (pcs s) t p')) g'.
Proof using HI.
  intros Ht Hr Hrun. pose proof (rl_places _ _ HI t) as Hp. rewrite Hr in Hp.
  assert (∀ p, telling (pcs s t) = false → telling p = false → waking p = waking (pcs s t) → (p = RlWake → Sh g ≠ []) →
    rl_place (shared s) Out t p → ∃ g', rl_inv (Sys (shared s) (pc_upd (pcs s) t p)) g') as Hmove.
  { intros p H1 H2 H3 H4 H5. exists g. apply (rl_move s g HI); try done. by rewrite Hr. }
  destruct (pcs s t) as [| | |k sp|k sp|k sp|k sp|k|k|k|k|k|k| | | |w| | |w|] eqn:Ep; cbn [rl_place] in Hp; try done; cbn [rl_run] in Hrun.
  - injection Hrun as <- <-. by apply Hmove.
  - injection Hrun as <- <-. destruct (_ <? _); by apply Hmove.
  - injection Hrun as <- <-. destruct (_ <? _); by apply Hmove.
  - injection Hrun as <- <-. destruct (chain_empty _ _); by apply Hmove.
  - destruct Hp as [Hrn Hk]. eapply locked_step_inv; [exact Ep|done|done| |exact Hrun]. intros Hlk.
    destruct (rl_section_spec t k sp) as (o & h2 & E & Ho); rewrite ?Ep; try done. exists o, h2. destruct o; [subst h2|destruct Ho as [g' ?]; by exists g'..].
    destruct (Hmove (RlSpin k (sp + 1))) as [g' ?]; try done. by exists g'.
  - injection Hrun as <- <-. destruct (_ <? _); apply Hmove; try done. by destruct Hp.
  - destruct Hp as [Hrn Hk]. eapply locked_step_inv; [exact Ep|done|done| |exact Hrun]. intros Hlk.
    destruct (rl_try_spec t k) as (b & h2 & E & Ho); rewrite ?Ep; try done. exists b, h2. destruct b; [destruct Ho as [g' ?]; by exists g'|subst h2].
    destruct (Hmove RlIdle) as [g' ?]; try done. by exists g'.
  - (* RlWake *)
    pose proof HI as [_ Hrs Hnd _ _ _ Hl HP _ _ _ _ _ Hrest]. assert (rl_lock (shared s) = Some t) as Hlk by (apply Hl; by rewrite Ep).
    rewrite Hlk in Hrest. destruct Hrest as (HW & HX & HS). specialize (HS Ep). destruct (Sh g) as [|w S'] eqn:ES; [done|].
    assert (w ∈ Sh g) as HwS by (rewrite ES; by left). pose proof (HP w) as Hpw.
    rewrite (proj2 (proj1 (proj2 (proj2 (proj2 (role_cases g w Hnd))))) HwS) in Hpw.
    destruct (pop_waiter_run (shared s) sh_root w S') as (m & Hpop & Hr' & Hun & Hm); [done|done| |].
    { destruct (pcs s w) as [| | | | | | |[]|[]|[]|[]| | | | | | | | | | ]; try done; apply Hpw. }
    unfold wake_reader in Hrun. rewrite (bind_done _ _ _ _ _ Hpop) in Hrun. autorewrite with run in Hrun. injection Hrun as <- <-.
    eexists. by eapply (rl_let_in s g HI).
  - destruct (rl_tell s g t w RlMore HI ltac:(auto)) as (u & -> & Hs & HI'). rewrite Nat2Z.id, Hs in Hrun. injection Hrun as <- <-. by exists g.
  - rewrite (chain_empty_ring _ _ _ (rl_ring_s _ _ HI)) in Hrun by done. destruct (decide (Sh g = [])) as [HS|HS].
    + rewrite bool_decide_true in Hrun by done. injection Hrun as <- <-. exists g. by apply (rl_wake_done s g HI).
    + rewrite bool_decide_false in Hrun by done. injection Hrun as <- <-. by apply Hmove.
  - destruct (rl_tell s g t w RlIdle HI ltac:(auto)) as (u & -> & Hs & HI'). rewrite Nat2Z.id, Hs in Hrun. injection Hrun as <- <-. by exists g.
Qed.

Lemma rl_step_held t p' h' :
  role_of g t ≠ Out → rl_run mask t (pcs s t) (shared s) = (p', h') → rl_allowed p' = true → ∃ g', rl_inv (Sys h' (pc_upd (pcs s) t p')) g'.
Proof using HI.
  intros Hr Hrun Hok. pose proof (rl_places _ _ HI t) as Hp. pose proof HI as [_ _ Hnd _ Hct Hal _ _ _ _ _ _ _ _].
  pose proof (role_cases g t Hnd) as (HrW & HrR & _).
  assert (∀ p, telling (pcs s t) = false → telling p = false → waking p = waking (pcs s t) → (p = RlWake → Sh g ≠ []) →
    rl_place (shared s) (role_of g t) t p → ∃ g', rl_inv (Sys (shared s) (pc_upd (pcs s) t p)) g') as Hmove.
  { intros p H1 H2 H3 H4 H5. exists g. by apply (rl_move s g HI). }
  assert (∀ k, pcs s t = RlSleep k → ∃ g', rl_inv (Sys h' (pc_upd (pcs s) t p')) g') as Hsleep.
  { intros k Ep. rewrite Ep in *. cbn [rl_run] in Hrun. destruct (rl_tst (shared s) t) as [| |r] eqn:Er.
    - injection Hrun as <- <-. by apply Hmove.
    - injection Hrun as <- <-. by apply Hmove.
    - assert (r = 1) as -> by (destruct (role_of g t), k; cbn in Hp; try done; rewrite Er in Hp; naive_solver).
      injection Hrun as <- <-. exists g. by apply rl_awake. }
  destruct (role_of g t) eqn:Er; [done|..].
  - (* the writer *)
    assert (Wr g = Some t) as HW by (by apply HrW).
    destruct (pcs s t) as [| | |k sp|k sp|k sp|k sp|k|k|k|k|k|k| | | |w| | |w|] eqn:Ep; try (by destruct k); try done; cbn [rl_run] in Hrun.
    + injection Hrun as <- <-. by apply Hmove.
    + by eapply Hsleep.
    + destruct k; try done. cbn in Hp. destruct Hp as ([Hn Hpv] & Hw & Hrn). rewrite Hn, Hpv, Hw, Z.eqb_refl in Hrun. injection Hrun as <- <-. by apply Hmove.
    + destruct k; try done. cbn in Hp. destruct Hp as (Hw & Hrn). rewrite Hw, Hct, HW, Z.eqb_refl in Hrun. injection Hrun as <- <-. by apply Hmove.
    + eapply locked_step_inv; [exact Ep|done|done| |exact Hrun]. intros Hlk. destruct (ex_unlock_spec t HW Ep Hp) as (o & h2 & g' & E & HI'). by exists o, h2, g'.
  - (* a reader *)
    assert (t ∈ Rd g) as HR by (by apply HrR).
    assert (Wr g = None) as HW by (destruct (Wr g); [|done]; rewrite Hal in HR by done; by apply elem_of_nil in HR).
    destruct (pcs s t) as [| | |k sp|k sp|k sp|k sp|k|k|k|k|k|k| | | |w| | |w|] eqn:Ep; try (by destruct k); try done; cbn [rl_run] in Hrun.
    + injection Hrun as <- <-. by apply Hmove.
    + by eapply Hsleep.
    + destruct k; try done. cbn in Hp. destruct Hp as ([Hn Hpv] & Hw & Hrn). rewrite Hn, Hpv in Hrun. injection Hrun as <- <-. by apply Hmove.
    + destruct k; try done. cbn in Hp. destruct Hp as (Hw & Hrn). rewrite Hct, HW in Hrun. destruct (Rd g); [by apply elem_of_nil in HR|].
      cbn in Hrun. injection Hrun as <- <-. by apply Hmove.
    + (* rwlock_upgrade *)
      unfold locked_step in Hrun. destruct (rl_lock (shared s)) eqn:El; [injection Hrun as <- <-; by apply Hmove|].
      unfold upgrade_section in Hrun. autorewrite with run in Hrun. rewrite Hct, HW in Hrun. apply list_elem_of_split in HR as (l1 & l2 & HR).
      assert (Z.of_nat (length (Rd g)) = Z.of_nat (length (l1 ++ l2)) + 1) as Hlen by (rewrite HR, !length_app; cbn; lia).
      rewrite Hlen, (proj2 (Z.ltb_lt 0 _)) in Hrun by lia. unfold rl_assert in Hrun. autorewrite with run in Hrun.
      destruct (Z.eqb_spec (Z.of_nat (length (l1 ++ l2)) + 1) 1) as [H1|H1].
      * autorewrite with run in Hrun. injection Hrun as <- <-. eexists. apply (rl_upgrade s g HI); rewrite ?Ep; try done.
        destruct l1, l2; cbn in H1; try lia. done.
      * exfalso. destruct (sleep_on_run (shared s) ForUp t (X g)) as (m & Hm & _); [apply (rl_ring_x _ _ HI)| |done|].
        { intros Hx. apply (role_cases g t Hnd) in Hx. congruence. }
        rewrite (bind_done _ _ _ _ _ Hm) in Hrun. injection Hrun as <- <-. done.
    + eapply locked_step_inv; [exact Ep|done|done| |exact Hrun]. intros Hlk. destruct (sh_unlock_spec t HR Ep Hp Hlk) as (o & h2 & g' & E & HI'). by exists o, h2, g'.
  - destruct (pcs s t) as [| | |k sp|k sp|k sp|k sp|k|k|k|k|k|k| | | |w| | |w|] eqn:Ep; try (by destruct k); try done. by eapply Hsleep.
  - destruct (pcs s t) as [| | |k sp|k sp|k sp|k sp|k|k|k|k|k|k| | | |w| | |w|] eqn:Ep; try (by destruct k); try done. by eapply Hsleep.
Qed.
End steps.

Lemma rl_call_inv s g t p' :
  rl_inv s g → rl_call (pcs s t) p' → rl_allowed p' = true → rl_inv (Sys (shared s) (pc_upd (pcs s) t p')) g.
Proof.
  intros HI Hcall Hok. pose proof (rl_places _ _ HI t) as Hp.
  inversion Hcall as [E|E|E|E|E|E|E|k E]; subst p'; try done; rewrite <- E in Hp;
    (apply (rl_move s g HI); rewrite <- ?E; try done; by destruct (role_of g t)).
Qed.

Lemma rl_exec_inv mask n junk s : rl_exec mask n junk s → ∃ g, rl_inv s g.
Proof.
  intros Hex. induction Hex as [|s t p' h' _ [g HI] Ht Hstep Hok].
  - exists (Ghosts None [] [] []). split; cbn; try done; try (by split).
    + eapply ring_frame; [|apply (chain_init_ring ex_root junk)]. intros x Hx. apply list_elem_of_singleton in Hx as ->.
      unfold chain_init. by autorewrite with wmem.
    + apply chain_init_ring.
    + apply NoDup_nil_2.
    + by intros t ?%elem_of_nil.
  - destruct Hstep as [Hrun|[Hcall ->]]; [|exists g; by apply rl_call_inv].
    destruct (role_of g t) eqn:Er; [eapply rl_step_out; try done; lia|..]; (eapply rl_step_held; [done|by rewrite Er|done|done]).
Qed.

(** Who has returned with the lock *)
Definition writes (p : rl_pc) : bool := match p with RlEx | RlExUnlock => true | _ => false end.
Definition reads (p : rl_pc) : bool := match p with RlSh | RlShUnlock | RlUpgrade => true | _ => false end.
Definition rl_waits (s : sys rwlock_t rl_pc) (t : nat) : bool :=
  match pcs s t with RlSleep _ => bool_decide (rl_tst (shared s) t = Sleeping) | _ => false end.

(** C34: A reader/writer lock whose waiters do not time out and whose readers
    upgrade only when alone, used by threads with positive ids: in every
    interleaving a thread that writes is alone; no assertion fails; and when
    the lock is free (reader_count is 0 and nobody is waking readers) no
    thread sleeps waiting for it. *)
Theorem rwlock_correct mask n junk s :
  rl_exec mask n junk s →
  (∀ t u, writes (pcs s t) = true → writes (pcs s u) = true ∨ reads (pcs s u) = true → t = u)
  ∧ (∀ t, pcs s t ≠ RlFault)
  ∧ (reader_count (shared s) = 0 → rl_lock (shared s) = None → ∀ t, rl_waits s t = false).
Proof.
  intros Hex. destruct (rl_exec_inv _ _ _ _ Hex) as [g HI]. pose proof HI as [_ _ Hnd Hpos Hct Hal _ HP _ _ _ _ _ Hrest].
  pose proof (λ u, role_cases g u Hnd) as Hro.
  assert (∀ t, writes (pcs s t) = true → Wr g = Some t) as HW.
  { intros t Ht. specialize (HP t). apply Hro. by destruct (pcs s t), (role_of g t). }
  assert (∀ t, reads (pcs s t) = true → t ∈ Rd g) as HR.
  { intros t Ht. specialize (HP t). apply Hro. by destruct (pcs s t), (role_of g t). }
  split_and!.
  - intros t u Ht%HW [Hu|Hu]; [apply HW in Hu; congruence|]. apply HR in Hu. rewrite Hal in Hu by congruence. by apply elem_of_nil in Hu.
  - intros t Ht. specialize (HP t). rewrite Ht in HP. by destruct (role_of g t).
  - intros Hc Hlk t. rewrite Hlk in Hrest. destruct Hrest as [Hfree _].
    assert (Wr g = None) as EW.
    { destruct (Wr g) as [w|] eqn:EW; [|done]. assert (0 < w)%nat by (apply Hpos; unfold all_of; rewrite EW; by left). lia. }
    assert (Rd g = []) as ER by (rewrite Hct, EW in Hc; apply length_zero_iff_nil; lia). destruct (Hfree EW ER) as [EX ES].
    unfold rl_waits. destruct (pcs s t) eqn:Ep; try done. specialize (HP t). rewrite Ep in HP.
    assert (role_of g t = Out) as Hout. { apply Hro. unfold all_of. rewrite EW, ER, EX, ES. apply not_elem_of_nil. }
    by rewrite Hout in HP.
Qed.
