(* ===== verification/ThreadCases.v ===== *)
(** * Mutexes, condition variables and reader/writer locks on concrete
    schedules

    Executions to which the theorems apply, and what goes wrong when a
    waiter's time runs out. *)

From stdpp Require Import base tactics list numbers option sets relations.
From S2P Require Import Prelude Spinlock TicketThms McsThms LockCases WaitChain ThreadMutex Condvar ThreadRwlock.

#[local] Open Scope Z_scope.

Section play.
Context {Sh Pc : Type} `{EqDecision Pc} (run : nat → Pc → Sh → Pc * Sh) (calls : Pc → list Pc) (call : Pc → Pc → Prop).
Context (Hcalls : ∀ p p', p' ∈ calls p → call p p').

Fixpoint play (n : nat) (l : list (nat * option Pc)) (s : sys Sh Pc) : option (sys Sh Pc) :=
  match l with
  | [] => Some s
  | a :: l => '(p', h') ← act run calls n a s; play n l (Sys h' (pc_upd (pcs s) a.1 p'))
  end.
Lemma play_sound n l s s' : play n l s = Some s' → rtc (thread_step n (runs run call)) s s'.
Proof using Hcalls.
  revert s. induction l as [|[t c] l IH]; intros s Hp; cbn [play fst] in Hp; [by simplify_eq|].
  apply bind_Some in Hp as ([p' h'] & Ha & Hp). apply (act_sound _ _ _ _ _ _ _ _ call Hcalls) in Ha as [Ht Hr].
  eapply rtc_l; [|by apply IH]. by apply one_step.
Qed.
End play.

(** ** Mutexes *)

#[export] Instance mx_pc_eq_dec : EqDecision mx_pc.
Proof. solve_decision. Defined.
Definition mx_calls (p : mx_pc) : list mx_pc :=
  match p with
  | MxIdle => [MxAssert false; MxAssert true; MxTryAssert]
  | MxSleep true => [MxTimedOut]
  | MxLock true _ => [MxIdle]
  | MxHeld => [MxUnlock]
  | _ => []
  end.
Lemma mx_calls_sound p p' : p' ∈ mx_calls p → mx_call p p'.
Proof.
  destruct p as [| | | |[]| [] | | | | | | | | |]; cbn; rewrite ?elem_of_cons, elem_of_nil; intros; destruct_or?; subst; try done; constructor.
Qed.

Fixpoint mx_play (mask : Z) (n : nat) (l : list (nat * option mx_pc)) (s : sys mutex_t mx_pc) (joins enters : list nat)
    : option (sys mutex_t mx_pc * list nat * list nat) :=
  match l with
  | [] => Some (s, joins, enters)
  | a :: l =>
      '(p', h') ← act (mx_run mask) mx_calls n a s;
      if decide (p' = MxTimedOut) then None
      else mx_play mask n l (Sys h' (pc_upd (pcs s) a.1 p')) (joins ++ mx_joins a.1 (pcs s a.1) p') (enters ++ mx_enters a.1 (pcs s a.1) p')
  end.
Lemma mx_play_sound mask n junk l s joins enters s' joins' enters' :
  mx_exec mask n junk s joins enters → mx_play mask n l s joins enters = Some (s', joins', enters') →
  mx_exec mask n junk s' joins' enters'.
Proof.
  revert s joins enters. induction l as [|[t c] l IH]; intros s joins enters Hex Hp; cbn [mx_play fst] in Hp; [by simplify_eq|].
  apply bind_Some in Hp as ([p' h'] & Ha & Hp). destruct (decide (p' = MxTimedOut)); [done|].
  apply (act_sound _ _ _ _ _ _ _ _ mx_call mx_calls_sound) in Ha as [Ht Hr]. eapply IH; [|exact Hp]. by eapply mx_exec_step.
Qed.

Definition no_junk : wmem := λ _, Wait None None 0.
(** One processor: no spinning.  Thread 1 takes the mutex, 2 and 0 queue up,
    1 passes it on. *)
Definition mx_meet : list (nat * option mx_pc) :=
  [(1, Some (MxAssert false)); (1, None); (1, None); (1, None);
   (2, Some (MxAssert false)); (2, None); (2, None); (2, None);
   (0, Some (MxAssert true)); (0, None); (0, None); (0, None);
   (1, Some MxUnlock); (1, None)]%nat.
Lemma mutex_fifo_witness :
  ∃ s, mx_exec 0 3 no_junk s [1; 2; 0]%nat [1]%nat ∧ being_served s 2 ∧ pcs s 1%nat = MxResume 2.
Proof.
  assert (∃ s, mx_exec 0 3 no_junk s [1; 2; 0]%nat [1]%nat ∧ pcs s 1%nat = MxResume 2 ∧ ∀ u, has_mutex (pcs s u) = false) as (s & Hex & Hp & Hno).
  { eexists. split; [apply (mx_play_sound 0 3 no_junk mx_meet (Sys (mutex_init 0 no_junk) (λ _, MxIdle)) [] []); [apply mx_exec_init|vm_compute; reflexivity]|].
    split; [done|]. by intros [|[|[|u]]]. }
  exists s. split_and!; [done| |done]. destruct (mutex_fifo 0 3 no_junk s _ _ Hex) as (_ & _ & _ & H).
  destruct (H Hno) as [H1 _]. by apply (H1 2%nat [0]%nat).
Defined.

(** A waiter of mutex_try_lock_until that times out leaves its node, on the
    stack it returns from, in the chain.  The next unlock passes the mutex to
    it and waits for ever for it to sleep. *)
Definition mx_expire : list (nat * option mx_pc) :=
  [(1, Some (MxAssert false)); (1, None); (1, None); (1, None);
   (2, Some (MxAssert true)); (2, None); (2, None); (2, None); (2, Some MxTimedOut); (2, None);
   (1, Some MxUnlock); (1, None)]%nat.
Lemma mutex_timeout_loses_mutex :
  ∃ s, rtc (thread_step 3 (runs (mx_run 0) mx_call)) (Sys (mutex_init 0 no_junk) (λ _, MxIdle)) s
    ∧ owner (shared s) = 2 ∧ pcs s 2%nat = MxIdle ∧ pcs s 1%nat = MxResume 2
    ∧ mx_run 0 1 (pcs s 1%nat) (shared s) = (pcs s 1%nat, shared s).
Proof. eexists. split; [eapply (play_sound _ _ _ mx_calls_sound 3 mx_expire); vm_compute; reflexivity|done]. Qed.

(** Each contended mutex_lock lowers the spin count, below any bound; the
    guard that mutex_try_lock_until has is missing. *)
Lemma mutex_lock_spin_unbounded n :
  n < SPINCOUNT_MAX → spin_less false (-1) n = n - 1 ∧ spin_less true (-1) n = (if SPINCOUNT_MIN <? n then n - 1 else n).
Proof.
  intros Hn. unfold spin_less. rewrite (proj2 (Z.ltb_lt _ _) Hn). rewrite !Z.land_m1_r. cbn. split; [done|]. case_match; cbn; lia.
Qed.

(** ** Condition variables *)

#[export] Instance cv_pc_eq_dec : EqDecision cv_pc.
Proof. solve_decision. Defined.
Definition cv_calls (p : cv_pc) : list cv_pc :=
  match p with
  | CvOut => [CvAcquire; CvWake false (Some 1%nat); CvWake false None]
  | CvIn => [CvWait false; CvWait true; CvWake true (Some 1%nat); CvWake true None]
  | CvSleep true => [CvTimedOut]
  | _ => []
  end.
Lemma cv_calls_sound p p' : p' ∈ cv_calls p → cv_call p p'.
Proof.
  destruct p as [| | | | | | |[]| | | | | | | | | | | |]; cbn; rewrite ?elem_of_cons, elem_of_nil; intros; destruct_or?; subst; try done;
    try (by constructor); try (apply (condvar_wake_one false)); try (apply (condvar_wake_one true)); try (apply (condvar_wake_all false)); apply (condvar_wake_all true).
Qed.
Fixpoint cv_play (n : nat) (l : list (nat * option cv_pc)) (s : sys condition_var_t cv_pc) (waits wakes : list nat)
    : option (sys condition_var_t cv_pc * list nat * list nat) :=
  match l with
  | [] => Some (s, waits, wakes)
  | a :: l =>
      '(p', h') ← act cv_run cv_calls n a s;
      if decide (p' = CvTimedOut) then None
      else cv_play n l (Sys h' (pc_upd (pcs s) a.1 p')) (waits ++ cv_waits a.1 (pcs s a.1) p') (wakes ++ cv_wakes (pcs s a.1) p')
  end.
Lemma cv_play_sound n junk l s waits wakes s' waits' wakes' :
  cv_exec n junk s waits wakes → cv_play n l s waits wakes = Some (s', waits', wakes') →
  cv_exec n junk s' waits' wakes'.
Proof.
  revert s waits wakes. induction l as [|[t c] l IH]; intros s waits wakes Hex Hp; cbn [cv_play fst] in Hp; [by simplify_eq|].
  apply bind_Some in Hp as ([p' h'] & Ha & Hp). destruct (decide (p' = CvTimedOut)); [done|].
  apply (act_sound _ _ _ _ _ _ _ _ cv_call cv_calls_sound) in Ha as [Ht Hr]. eapply IH; [|exact Hp]. eapply cv_exec_step; try done. by left.
Qed.

Definition cv_waits_for (t : nat) (until : bool) : list (nat * option cv_pc) :=
  [(t, Some CvAcquire); (t, None); (t, Some (CvWait until)); (t, None); (t, None); (t, None); (t, None)].
(** Threads 0 and 2 wait; 1 wakes one of them. *)
Definition cv_meet : list (nat * option cv_pc) :=
  cv_waits_for 0 false ++ cv_waits_for 2 false ++ [(1, Some (CvWake false (Some 1))); (1, None); (1, None); (1, None)]%nat.
Lemma condvar_witness :
  ∃ s C, cv_exec 3 no_junk s [0; 2]%nat [0]%nat ∧ [0; 2]%nat = [0]%nat ++ C ∧ (∀ t, t ∈ C → cv_waiting s t) ∧ pcs s 0%nat ≠ CvFault.
Proof.
  assert (∃ s, cv_exec 3 no_junk s [0; 2]%nat [0]%nat) as (s & Hex).
  { eexists. apply (cv_play_sound 3 no_junk cv_meet (Sys (condvar_init no_junk) (λ _, CvOut)) [] []); [apply cv_exec_init|vm_compute; reflexivity]. }
  destruct (condvar_wakes_in_order 3 no_junk s _ _ Hex) as (C & HC & Hw & _ & _ & _ & Hf). exists s, C. split_and!; auto.
Defined.

(** A waker holds the variable's spinlock while it waits for the thread it
    took off the chain to sleep; if that thread's time has just run out it is
    waiting for the spinlock: neither goes on. *)
Definition cv_expire : list (nat * option cv_pc) :=
  cv_waits_for 0 true ++ [(1, Some (CvWake false (Some 1))); (1, None); (1, None); (0, Some CvTimedOut); (0, None); (1, None)]%nat.
Lemma condvar_timeout_deadlock :
  ∃ s, rtc (thread_step 2 (runs cv_run cv_call)) (Sys (condvar_init no_junk) (λ _, CvOut)) s
    ∧ cv_run 0 (pcs s 0%nat) (shared s) = (pcs s 0%nat, shared s) ∧ pcs s 0%nat = CvRelock
    ∧ cv_run 1 (pcs s 1%nat) (shared s) = (pcs s 1%nat, shared s) ∧ pcs s 1%nat = CvResume false (Some 0%nat) (Some cvroot) 0.
Proof. eexists. split; [eapply (play_sound _ _ _ cv_calls_sound 2 cv_expire); vm_compute; reflexivity|done]. Qed.

(** ** Reader/writer locks *)

#[export] Instance rl_kind_eq_dec : EqDecision rl_kind.
Proof. solve_decision. Defined.
#[export] Instance rl_pc_eq_dec : EqDecision rl_pc.
Proof. solve_decision. Defined.
Definition rl_calls (p : rl_pc) : list rl_pc :=
  match p with
  | RlIdle => [RlSpin ForEx 0; RlSpin ForSh 0; RlTry ForEx; RlTry ForSh]
  | RlSh => [RlUpgrade; RlShUnlock]
  | RlEx => [RlExUnlock]
  | _ => []
  end.
Lemma rl_calls_sound p p' : p' ∈ rl_calls p → rl_call p p'.
Proof. destruct p; cbn; rewrite ?elem_of_cons, elem_of_nil; intros; destruct_or?; subst; try done; constructor. Qed.

Fixpoint rl_play (mask : Z) (n : nat) (l : list (nat * option rl_pc)) (s : sys rwlock_t rl_pc) : option (sys rwlock_t rl_pc) :=
  match l with
  | [] => Some s
  | a :: l =>
      '(p', h') ← act (rl_run mask) rl_calls n a s;
      if decide (0 < a.1)%nat then if rl_allowed p' then rl_play mask n l (Sys h' (pc_upd (pcs s) a.1 p')) else None else None
  end.
Lemma rl_play_sound mask n junk l s s' : rl_exec mask n junk s → rl_play mask n l s = Some s' → rl_exec mask n junk s'.
Proof.
  revert s. induction l as [|[t c] l IH]; intros s Hex Hp; cbn [rl_play fst] in Hp; [by simplify_eq|].
  apply bind_Some in Hp as ([p' h'] & Ha & Hp). destruct (decide (0 < t)%nat); [|done]. destruct (rl_allowed p') eqn:Eok; [|done].
  apply (act_sound _ _ _ _ _ _ _ _ rl_call rl_calls_sound) in Ha as [Ht Hr]. eapply IH; [|exact Hp]. by eapply rl_exec_step.
Qed.

Definition rl_reads (t : nat) : list (nat * option rl_pc) := [(t, Some (RlSpin ForSh 0)); (t, None); (t, None)].
Definition rl_writes (t : nat) : list (nat * option rl_pc) := [(t, Some (RlSpin ForEx 0)); (t, None); (t, None)].
(** 1 reads, 2 asks to write and sleeps, 3 asks to read and sleeps; 1 leaves,
    2 is woken and writes. *)
Definition rl_meet : list (nat * option rl_pc) :=
  rl_reads 1 ++ rl_writes 2 ++ rl_reads 3
  ++ [(1, Some RlShUnlock); (1, None); (1, None); (2, None); (2, None); (2, None)]%nat.
Lemma rwlock_witness :
  ∃ s, rl_exec 0 4 no_junk s ∧ pcs s 2%nat = RlEx ∧ (∀ u, writes (pcs s u) = true ∨ reads (pcs s u) = true → 2%nat = u).
Proof.
  assert (∃ s, rl_exec 0 4 no_junk s ∧ pcs s 2%nat = RlEx) as (s & Hex & Hp).
  { eexists. split; [apply (rl_play_sound 0 4 no_junk rl_meet (Sys (rwlock_init 0 no_junk) (λ _, RlIdle))); [apply rl_exec_init|vm_compute; reflexivity]|done]. }
  exists s. split_and!; [done..|]. intros u. apply (rwlock_correct 0 4 no_junk s Hex). by rewrite Hp.
Defined.

(** rwlock_upgrade with another reader keeps the upgrader in the count of
    readers, so the count never gets to 0 and nobody wakes it. *)
Definition rl_upgrades : list (nat * option rl_pc) :=
  rl_reads 1 ++ rl_reads 2 ++ [(1, Some RlUpgrade); (1, None); (2, Some RlShUnlock); (2, None)]%nat.
Lemma rwlock_upgrade_stuck :
  ∃ s, rtc (thread_step 3 (runs (rl_run 0) rl_call)) (Sys (rwlock_init 0 no_junk) (λ _, RlIdle)) s
    ∧ reader_count (shared s) = 1 ∧ rl_lock (shared s) = None
    ∧ pcs s 1%nat = RlSleep ForUp ∧ rl_tst (shared s) 1%nat = Sleeping ∧ pcs s 2%nat = RlIdle ∧ pcs s 0%nat = RlIdle.
Proof. eexists. split; [eapply (play_sound _ _ _ rl_calls_sound 3 rl_upgrades); vm_compute; reflexivity|done]. Qed.

(** Thread 0 stores -0 when it takes the lock to write: the lock looks free. *)
Lemma rwlock_thread_0_not_alone :
  ∃ s, rtc (thread_step 2 (runs (rl_run 0) rl_call)) (Sys (rwlock_init 0 no_junk) (λ _, RlIdle)) s
    ∧ pcs s 0%nat = RlEx ∧ pcs s 1%nat = RlEx.
Proof. eexists. split; [eapply (play_sound _ _ _ rl_calls_sound 2 (rl_writes 0 ++ rl_writes 1)); vm_compute; reflexivity|done]. Qed.
