(* ===== verification/RadixTree.v ===== *)
(** * kernel/lib/radix_tree.cc: the sparse array behind the address sanitizer

    Four levels of 512-entry tables map the page number of a 48-bit address to
    a page of bytes.  Pages, for tables and for bytes, come from [asan_pool]
    in order and are never given back.  A page is named by its offset in the
    pool.  [slots] holds the pointers (no entry: null), with [ROOT] for the
    member radix_tree itself, [bytes] the contents of byte pages (no entry:
    0, as the pool is zero-initialized).  [pool_size] is countof(asan_pool). *)

From stdpp Require Import base tactics list numbers option gmap.
From S2P Require Import Prelude.

#[local] Open Scope Z_scope.

Definition PG_BIT : Z := 12.
Definition PG_SIZE : Z := 4096.
Definition log2_radix_slots : Z := 9.
Definition radix_slots : Z := 512.

Record radix_tree_t := RadixTree {
  slots : gmap (Z * Z) Z;      (* (table page, index) to page *)
  bytes : gmap Z Z;            (* pool offset to byte *)
  asan_alloc_ptr : Z           (* size_t *)
}.

Abbreviation RT := (M radix_tree_t).

(** The table page of the cell that holds the pointer to the first table *)
Definition ROOT : Z := -1.

Section ops.
Context (pool_size : Z).

Definition alloc_page : RT (option Z) :=
  ptr ← gets asan_alloc_ptr;
  if ptr <? pool_size then
    modify (λ s, RadixTree (slots s) (bytes s) (u64 (asan_alloc_ptr s + PG_SIZE)));;
    mret (if ptr <? pool_size then Some ptr else None)
  else mret None.

(** commit(p): the pointer at cell [c] becomes a new page, or stays null *)
Definition commit (c : Z * Z) : RT (option Z) :=
  p ← alloc_page;
  match p with
  | Some p => modify (λ s, RadixTree (<[c := p]> (slots s)) (bytes s) (asan_alloc_ptr s));; mret (Some p)
  | None => mret None
  end.

(** One level: the page the cell points to, committed if asked for *)
Definition level (commit_pages : bool) (c : Z * Z) : RT (option Z) :=
  p ← gets (λ s, slots s !! c);
  match p with
  | Some p => mret (Some p)
  | None => if commit_pages then commit c else mret None
  end.

Fixpoint descend (commit_pages : bool) (tbl : Z) (idxs : list Z) : RT (option Z) :=
  match idxs with
  | [] => mret (Some tbl)
  | i :: idxs =>
      p ← level commit_pages (tbl, i);
      match p with
      | Some p => descend commit_pages p idxs
      | None => mret None
      end
  end.

(** Table index of [addr] at a level, and the cells from the root down *)
Definition index_at (addr lvl : Z) : Z :=
  Z.land (Z.shiftr addr (PG_BIT + log2_radix_slots * lvl)) (radix_slots - 1).
Definition indexes (addr : Z) : list Z :=
  [0; index_at addr 3; index_at addr 2; index_at addr 1; index_at addr 0].

Definition lookup (addr : Z) (commit_pages : bool) : RT (option Z) :=
  let misalignment := Z.land addr (PG_SIZE - 1) in
  p ← descend commit_pages ROOT (indexes (u64 (addr - misalignment)));
  mret ((λ p, p + misalignment) <$> p).

(** for (i = 0; i < n; ++i) p[i] = value *)
Fixpoint fill_bytes (p : Z) (n : nat) (value : Z) : RT unit :=
  match n with
  | O => mret tt
  | S n =>
      modify (λ s, RadixTree (slots s) (<[p := value]> (bytes s)) (asan_alloc_ptr s));;
      fill_bytes (p + 1) n value
  end.

(** The part of [len] bytes from [start] that is on the first page *)
Definition first_part (start len : Z) : Z :=
  let page_end := Z.land (u64 (start + PG_SIZE)) (u64 (- PG_SIZE)) in
  let fill := u64 (page_end - start) in
  if len <? fill then len else fill.

Fixpoint fill (fuel : nat) (start value len : Z) : RT bool :=
  match fuel with
  | O => throw OutOfFuel
  | S fuel =>
      if len =? 0 then mret true
      else
        let n := first_part start len in
        p ← lookup start true;
        match p with
        | None => mret false
        | Some p =>
            fill_bytes p (Z.to_nat n) value;;
            fill fuel (u64 (start + n)) value (u64 (len - n))
        end
  end.

Fixpoint all_bytes (p : Z) (n : nat) (value : Z) : RT bool :=
  match n with
  | O => mret true
  | S n =>
      b ← gets (λ s, default 0 (bytes s !! p));
      if negb (b =? value) then mret false else all_bytes (p + 1) n value
  end.

Fixpoint is_filled_with (fuel : nat) (start value len : Z) : RT bool :=
  match fuel with
  | O => throw OutOfFuel
  | S fuel =>
      if len =? 0 then mret true
      else
        let n := first_part start len in
        p ← lookup start false;
        match p with
        | None => mret false
        | Some p =>
            ok ← all_bytes p (Z.to_nat n) value;
            if negb (ok : bool) then mret false
            else is_filled_with fuel (u64 (start + n)) value (u64 (len - n))
        end
  end.
End ops.

(** Rounds for [len] bytes from [start]: one per page touched, and the exit *)
Definition fill_fuel (start len : Z) : nat := S (Z.to_nat ((start + len) / PG_SIZE - start / PG_SIZE + 1)).

(** ** The abstract array *)

Fixpoint walk (s : radix_tree_t) (tbl : Z) (idxs : list Z) : option Z :=
  match idxs with
  | [] => Some tbl
  | i :: idxs => p ← slots s !! (tbl, i); walk s p idxs
  end.

(** The page of bytes of an address, and the byte there *)
Definition page_of (s : radix_tree_t) (a : Z) : option Z := walk s ROOT (indexes (PG_SIZE * (a / PG_SIZE))).
Definition byte_at (s : radix_tree_t) (a : Z) : option Z :=
  (λ p, default 0 (bytes s !! (p + a mod PG_SIZE))) <$> page_of s a.

(** ** Invariant *)

Record tree_ok (pool_size : Z) (s : radix_tree_t) : Prop := TreeOk {
  tree_ptr : 0 ≤ asan_alloc_ptr s ≤ pool_size;
  tree_ptr_page : (PG_SIZE | asan_alloc_ptr s);
  tree_inj : ∀ c c' p, slots s !! c = Some p → slots s !! c' = Some p → c = c';
  tree_page : ∀ c p, slots s !! c = Some p → 0 ≤ p < asan_alloc_ptr s ∧ (PG_SIZE | p) ∧ c.1 < asan_alloc_ptr s;
  tree_fresh : ∀ o, asan_alloc_ptr s ≤ o → bytes s !! o = None
}.

(** [s'] is [s] with pages added *)
Record extends (s s' : radix_tree_t) : Prop := Extends {
  ext_slots : slots s ⊆ slots s';
  ext_bytes : bytes s' = bytes s;
  ext_ptr : asan_alloc_ptr s ≤ asan_alloc_ptr s';
  ext_new : ∀ c p, slots s' !! c = Some p → slots s !! c = Some p ∨ asan_alloc_ptr s ≤ p
}.

#[export] Instance extends_preorder : PreOrder extends.
Proof.
  split.
  - intros s. constructor; [done|done|lia|]. by left.
  - intros s1 s2 s3 [A1 B1 C1 D1] [A2 B2 C2 D2]. constructor.
    + by etransitivity.
    + congruence.
    + lia.
    + intros c p [Hc|Hp]%D2; [by apply D1|]. right. lia.
Qed.

Lemma tree_init_ok pool_size : 0 ≤ pool_size → tree_ok pool_size (RadixTree ∅ ∅ 0).
Proof.
  intros Hp. constructor; simpl; [lia|apply Z.divide_0_r| | |done];
    intros *; by rewrite lookup_empty.
Qed.

(** * The radix tree is an array of bytes indexed by address *)

(** ** Addresses *)

Lemma index_at_div a lvl :
  0 ≤ a → 0 ≤ lvl → index_at a lvl = (a / 2 ^ (12 + 9 * lvl)) mod 512.
Proof.
  intros Ha Hl. unfold index_at, PG_BIT, log2_radix_slots, radix_slots.
  rewrite Z.shiftr_div_pow2 by lia. apply (land_low_mask 9). lia.
Qed.

Lemma indexes_inj p q :
  0 ≤ p < 2 ^ 36 → 0 ≤ q < 2 ^ 36 → indexes (PG_SIZE * p) = indexes (PG_SIZE * q) → p = q.
Proof.
  intros Hp Hq. unfold indexes, PG_SIZE. rewrite !index_at_div by lia. intros [= H3 H2 H1 H0].
  change (2 ^ (12 + 9 * 3)) with (4096 * 134217728) in H3. change (2 ^ (12 + 9 * 2)) with (4096 * 262144) in H2.
  change (2 ^ (12 + 9 * 1)) with (4096 * 512) in H1. change (2 ^ (12 + 9 * 0)) with (4096 * 1) in H0.
  rewrite !Z.div_mul_cancel_l in H3, H2, H1, H0 by lia.
  change 134217728 with (512 * 512 * 512) in H3. change 262144 with (512 * 512) in H2.
  do 4 rewrite <- Z.div_div in H3 by lia. do 2 rewrite <- Z.div_div in H2 by lia. rewrite !Z.div_1_r in H0.
  pose proof (Z.div_mod p 512 ltac:(lia)). pose proof (Z.div_mod q 512 ltac:(lia)).
  pose proof (Z.div_mod (p / 512) 512 ltac:(lia)). pose proof (Z.div_mod (q / 512) 512 ltac:(lia)).
  pose proof (Z.div_mod (p / 512 / 512) 512 ltac:(lia)). pose proof (Z.div_mod (q / 512 / 512) 512 ltac:(lia)).
  assert (∀ x, 0 ≤ x < 2 ^ 36 → (x / 512 / 512 / 512) mod 512 = x / 512 / 512 / 512) as Htop.
  { intros x Hx. apply Z.mod_small. rewrite !Z.div_div by lia.
    split; [apply Z.div_pos; lia|apply Z.div_lt_upper_bound; lia]. }
  rewrite !Htop in H3 by lia. lia.
Qed.

(** The page part of an address that is used for the search *)
Lemma page_part a : 0 ≤ a < 2 ^ 64 → u64 (a - Z.land a (PG_SIZE - 1)) = PG_SIZE * (a / PG_SIZE).
Proof.
  intros Ha. unfold PG_SIZE. change (4096 - 1) with (2 ^ 12 - 1). rewrite land_low_mask by lia.
  change (2 ^ 12) with 4096. pose proof (Z.div_mod a 4096 ltac:(lia)).
  pose proof (Z.mod_pos_bound a 4096 ltac:(lia)). rewrite u64_small; lia.
Qed.

Lemma misalignment a : Z.land a (PG_SIZE - 1) = a mod PG_SIZE.
Proof. apply (land_low_mask 12). lia. Qed.

(** ** Walking the tree *)

Lemma walk_inj pool s : ∀ ks ks' p p' q,
  tree_ok pool s → length ks = length ks' →
  walk s p ks = Some q → walk s p' ks' = Some q → p = p' ∧ ks = ks'.
Proof.
  induction ks as [|i ks IH]; intros [|i' ks'] p p' q Hok Hlen; simpl in *; try done.
  - naive_solver.
  - intros (x & Hx & Hw)%bind_Some (x' & Hx' & Hw')%bind_Some.
    destruct (IH ks' x x' q) as [-> ->]; [done|lia|done|done|].
    pose proof (tree_inj _ _ Hok _ _ _ Hx Hx') as [= -> ->]. done.
Qed.

Lemma walk_extends s s' ks : ∀ p q, extends s s' → walk s p ks = Some q → walk s' p ks = Some q.
Proof.
  induction ks as [|i ks IH]; intros p q Hext; simpl; [done|].
  intros (x & Hx & Hw)%bind_Some. apply bind_Some. exists x. split; [|by apply IH].
  by eapply lookup_weaken, ext_slots.
Qed.

(** A page reached only after the extension is a new one *)
Lemma walk_new pool s s' ks : ∀ p q,
  tree_ok pool s → extends s s' → ks ≠ [] → walk s' p ks = Some q →
  walk s p ks = Some q ∨ asan_alloc_ptr s ≤ q.
Proof.
  induction ks as [|i ks IH]; intros p q Hok Hext Hne; simpl; [done|].
  intros (x & Hx & Hw)%bind_Some.
  destruct (decide (ks = [])) as [->|Hne'].
  - simpl in Hw. injection Hw as <-. destruct (ext_new _ _ Hext _ _ Hx) as [Hold|Hnew]; [left|by right].
    simpl. by rewrite Hold.
  - destruct (IH x q Hok Hext Hne' Hw) as [Hold|]; [|by right].
    destruct (ext_new _ _ Hext _ _ Hx) as [Hx'|Hnew]; [left; by rewrite Hx'|].
    destruct ks as [|j ks]; [done|]. simpl in Hold. apply bind_Some in Hold as (y & Hy & _).
    pose proof (tree_page _ _ Hok _ _ Hy) as (_ & _ & Hlt). simpl in Hlt. lia.
Qed.

Lemma walk_page pool s ks : ∀ p q,
  tree_ok pool s → ks ≠ [] → walk s p ks = Some q → 0 ≤ q < asan_alloc_ptr s ∧ (PG_SIZE | q).
Proof.
  induction ks as [|i ks IH]; intros p q Hok Hne; simpl; [done|].
  intros (x & Hx & Hw)%bind_Some. destruct (decide (ks = [])) as [->|]; [|by eapply IH].
  simpl in Hw. injection Hw as <-. destruct (tree_page _ _ Hok _ _ Hx) as (? & ? & _). done.
Qed.

Lemma page_of_inj pool s a b p :
  tree_ok pool s → 0 ≤ a < 2 ^ 48 → 0 ≤ b < 2 ^ 48 →
  page_of s a = Some p → page_of s b = Some p → a / PG_SIZE = b / PG_SIZE.
Proof.
  intros Hok Ha Hb Hpa Hpb. unfold page_of in *.
  edestruct (walk_inj pool s) as [_ Hidx]; [exact Hok| |exact Hpa|exact Hpb|]; [done|].
  apply indexes_inj; try done; unfold PG_SIZE; split;
    first [apply Z.div_pos; lia|apply Z.div_lt_upper_bound; lia].
Qed.

(** ** lookup *)

Section tree.
Context (pool : Z) (Hpool : pool < 2 ^ 63) (Hpool_page : (PG_SIZE | pool)).

Lemma alloc_page_spec s :
  tree_ok pool s →
  (asan_alloc_ptr s = pool ∧ alloc_page pool s = Done (None, s))
  ∨ (asan_alloc_ptr s + PG_SIZE ≤ pool
     ∧ alloc_page pool s = Done (Some (asan_alloc_ptr s),
                                 RadixTree (slots s) (bytes s) (asan_alloc_ptr s + PG_SIZE))).
Proof.
  intros Hok. pose proof (tree_ptr _ _ Hok) as Hp. pose proof (tree_ptr_page _ _ Hok) as [k Hk].
  unfold alloc_page. run.
  destruct (Z.ltb_spec (asan_alloc_ptr s) pool) as [Hlt|Hge]; [right|left; split; [lia|done]].
  destruct Hpool_page as [n Hn]. unfold PG_SIZE in *. split; [nia|].
  run. rewrite u64_small by nia. done.
Qed.

Lemma commit_spec s c :
  tree_ok pool s → slots s !! c = None → c.1 < asan_alloc_ptr s ∨ c.1 = ROOT →
  ∃ r s', commit pool c s = Done (r, s') ∧ tree_ok pool s' ∧ extends s s'
    ∧ match r with Some p => slots s' !! c = Some p | None => asan_alloc_ptr s' = pool end.
Proof.
  intros Hok Hc Hlt. unfold commit.
  destruct (alloc_page_spec s Hok) as [[He Hrun]|[Hle Hrun]]; rewrite (bind_done _ _ _ _ _ Hrun).
  - by exists None, s.
  - run.
    pose proof (tree_ptr _ _ Hok). pose proof (tree_ptr_page _ _ Hok) as Hd. unfold PG_SIZE, ROOT in *.
    eexists _, _. split; [done|]. simpl. split; [|split; [|apply lookup_insert_eq]].
    + constructor; simpl.
      * lia.
      * apply Z.divide_add_r; [done|by exists 1].
      * intros c1 c2 p. rewrite !lookup_insert_Some.
        intros [[<- <-]|[Hn1 H1]] [[<- Hp]|[Hn2 H2]]; try done.
        -- pose proof (tree_page _ _ Hok _ _ H2). lia.
        -- pose proof (tree_page _ _ Hok _ _ H1). lia.
        -- by eapply tree_inj.
      * intros c1 p. rewrite lookup_insert_Some. intros [[<- <-]|[Hn1 H1]].
        -- split; [lia|]. split; [done|lia].
        -- destruct (tree_page _ _ Hok _ _ H1) as (? & ? & ?). split; [lia|]. split; [done|lia].
      * intros o Ho. apply (tree_fresh _ _ Hok). lia.
    + constructor; simpl.
      * by apply insert_subseteq.
      * done.
      * lia.
      * intros c1 p. rewrite lookup_insert_Some. intros [[<- <-]|[_ H1]]; [right; lia|by left].
Qed.

Lemma descend_spec ks : ∀ s p,
  tree_ok pool s → p < asan_alloc_ptr s ∨ p = ROOT →
  ∃ r s', descend pool true p ks s = Done (r, s') ∧ tree_ok pool s' ∧ extends s s'
    ∧ match r with Some q => walk s' p ks = Some q | None => asan_alloc_ptr s' = pool end.
Proof.
  induction ks as [|i ks IH]; intros s p Hok Hp; cbn [descend]; [by exists (Some p), s|].
  unfold level. rewrite bind_assoc, bind_gets.
  destruct (slots s !! (p, i)) as [x|] eqn:Hx.
  - run.
    destruct (IH s x Hok) as (r & s' & Hrun & Hok' & Hext & Hr).
    { left. by apply (tree_page _ _ Hok) in Hx as [[_ ?] _]. }
    exists r, s'. split; [done|]. split; [done|]. split; [done|].
    destruct r as [q|]; [|done]. simpl. by rewrite (lookup_weaken _ _ _ _ Hx (ext_slots _ _ Hext)).
  - destruct (commit_spec s (p, i) Hok Hx Hp) as (r & s1 & Hrun & Hok1 & Hext1 & Hr).
    rewrite (bind_done _ _ _ _ _ Hrun). destruct r as [x|]; [|by exists None, s1].
    destruct (IH s1 x Hok1) as (r & s2 & Hrun2 & Hok2 & Hext2 & Hr2).
    { left. by apply (tree_page _ _ Hok1) in Hr as [[_ ?] _]. }
    exists r, s2. split; [done|]. split; [done|]. split; [by etransitivity|].
    destruct r as [q|]; [|done]. simpl. by rewrite (lookup_weaken _ _ _ _ Hr (ext_slots _ _ Hext2)).
Qed.

Lemma descend_read ks : ∀ s p, descend pool false p ks s = Done (walk s p ks, s).
Proof.
  induction ks as [|i ks IH]; intros s p; cbn [descend]; [done|].
  unfold level. rewrite bind_assoc, bind_gets. simpl.
  destruct (slots s !! (p, i)) as [x|] eqn:Hx; simpl;
    rewrite bind_mret; [apply IH|done].
Qed.

Lemma lookup_commit s a :
  tree_ok pool s → 0 ≤ a < 2 ^ 64 →
  ∃ r s', lookup pool a true s = Done (r, s') ∧ tree_ok pool s' ∧ extends s s'
    ∧ match r with
      | Some o => ∃ p, page_of s' a = Some p ∧ o = p + a mod PG_SIZE
      | None => asan_alloc_ptr s' = pool
      end.
Proof.
  intros Hok Ha. unfold lookup. cbv zeta. rewrite page_part, misalignment by done.
  destruct (descend_spec (indexes (PG_SIZE * (a / PG_SIZE))) s ROOT Hok ltac:(auto))
    as (r & s' & Hrun & Hok' & Hext & Hr).
  rewrite (bind_done _ _ _ _ _ Hrun). exists ((λ p, p + a mod PG_SIZE) <$> r), s'.
  split; [done|]. split; [done|]. split; [done|]. destruct r as [p|]; [|done]. by exists p.
Qed.

Lemma lookup_read s a :
  0 ≤ a < 2 ^ 64 →
  lookup pool a false s = Done ((λ p, p + a mod PG_SIZE) <$> page_of s a, s).
Proof.
  intros Ha. unfold lookup. cbv zeta. rewrite page_part, misalignment by done.
  rewrite (bind_done _ _ _ _ _ (descend_read _ _ _)). done.
Qed.

(** ** Pieces of a range *)

Lemma first_part_spec start len :
  0 ≤ start < 2 ^ 63 → 0 < len →
  1 ≤ first_part start len ≤ len ∧ start mod PG_SIZE + first_part start len ≤ PG_SIZE
  ∧ (first_part start len = len ∨ start + first_part start len = PG_SIZE * (start / PG_SIZE + 1)).
Proof.
  intros Hs Hl. unfold first_part, PG_SIZE. cbv zeta.
  rewrite (u64_small (start + 4096)) by lia.
  assert (Z.land (start + 4096) (u64 (Z.opp 4096)) = 4096 * (start / 4096 + 1)) as ->.
  { replace (start / 4096 + 1) with ((start + 4096) / 4096); [apply (land_neg_pow2 12); lia|].
    rewrite <- (Z.mul_1_l 4096) at 1. rewrite Z.div_add by lia. done. }
  pose proof (Z.div_mod start 4096 ltac:(lia)). pose proof (Z.mod_pos_bound start 4096 ltac:(lia)).
  rewrite u64_small by lia. destruct (Z.ltb_spec len (4096 * (start / 4096 + 1) - start)); lia.
Qed.

(** Addresses of one piece share the page *)
Lemma same_page start n a :
  0 ≤ start → start mod PG_SIZE + n ≤ PG_SIZE → start ≤ a < start + n →
  a / PG_SIZE = start / PG_SIZE ∧ a mod PG_SIZE = start mod PG_SIZE + (a - start).
Proof.
  unfold PG_SIZE. intros Hs Hn Ha. pose proof (Z.div_mod start 4096 ltac:(lia)).
  pose proof (Z.mod_pos_bound start 4096 ltac:(lia)).
  assert (a / 4096 = start / 4096) as Heq by (symmetry; apply (Z.div_unique _ _ _ (a - 4096 * (start / 4096))); lia).
  split; [done|]. pose proof (Z.div_mod a 4096 ltac:(lia)). lia.
Qed.

Lemma page_of_same s a b : a / PG_SIZE = b / PG_SIZE → page_of s a = page_of s b.
Proof. unfold page_of. by intros ->. Qed.

(** ** Bytes *)

Lemma fill_bytes_spec n : ∀ p v s,
  ∃ m, fill_bytes p n v s = Done (tt, RadixTree (slots s) m (asan_alloc_ptr s))
    ∧ ∀ o, m !! o = if bool_decide (p ≤ o < p + Z.of_nat n) then Some v else bytes s !! o.
Proof.
  induction n as [|n IH]; intros p v s; cbn [fill_bytes].
  - exists (bytes s). split; [by destruct s|]. intros o. by rewrite bool_decide_eq_false_2 by lia.
  - run.
    destruct (IH (p + 1) v (RadixTree (slots s) (<[p := v]> (bytes s)) (asan_alloc_ptr s))) as (m & Hrun & Hm).
    exists m. split; [done|]. intros o. rewrite Hm. simpl.
    destruct (decide (o = p)) as [->|Hne].
    + rewrite lookup_insert_eq, bool_decide_eq_false_2, bool_decide_eq_true_2 by lia. done.
    + rewrite lookup_insert_ne by done. case_bool_decide as H1; case_bool_decide as H2; done || lia.
Qed.

Lemma all_bytes_spec n : ∀ p v s,
  ∃ b, all_bytes p n v s = Done (b, s)
    ∧ (b = true ↔ ∀ o, p ≤ o < p + Z.of_nat n → default 0 (bytes s !! o) = v).
Proof.
  induction n as [|n IH]; intros p v s; cbn [all_bytes].
  - exists true. split; [done|]. split; [lia|done].
  - run.
    destruct (Z.eqb_spec (default 0 (bytes s !! p)) v) as [He|He]; cbn [negb].
    + destruct (IH (p + 1) v s) as (b & Hrun & Hb). exists b. split; [done|]. rewrite Hb. split.
      * intros Hall o Ho. destruct (decide (o = p)) as [->|]; [done|]. apply Hall. lia.
      * intros Hall o Ho. apply Hall. lia.
    + exists false. split; [done|]. split; [done|]. intros Hall. destruct He. apply Hall. lia.
Qed.

(** What an extension does to an address: nothing, or a new zero byte *)
Definition kept (s s' : radix_tree_t) (a : Z) : Prop :=
  byte_at s' a = byte_at s a ∨ (byte_at s a = None ∧ byte_at s' a = Some 0).

Lemma kept_trans s1 s2 s3 a : kept s1 s2 a → byte_at s3 a = byte_at s2 a → kept s1 s3 a.
Proof. unfold kept. by intros ? ->. Qed.

Lemma kept_kept s1 s2 s3 a : kept s1 s2 a → kept s2 s3 a → kept s1 s3 a.
Proof. unfold kept. intros [H1|[H1 H1']] [H2|[H2 H2']]; rewrite ?H1, ?H2 in *; auto; congruence. Qed.

Lemma extends_kept s s' a : tree_ok pool s → extends s s' → kept s s' a.
Proof.
  intros Hok Hext. unfold kept, byte_at.
  destruct (page_of s a) as [p|] eqn:Hp.
  - left. unfold page_of in *. rewrite (walk_extends _ _ _ _ _ Hext Hp). simpl. by rewrite (ext_bytes _ _ Hext).
  - destruct (page_of s' a) as [p|] eqn:Hp'; [|by left]. right. split; [done|]. simpl.
    destruct (walk_new pool s s' (indexes _) _ _ Hok Hext ltac:(done) Hp') as [Hold|Hnew].
    { unfold page_of in Hp. by rewrite Hold in Hp. }
    rewrite (ext_bytes _ _ Hext), (tree_fresh _ _ Hok); [done|].
    pose proof (Z.mod_pos_bound a PG_SIZE ltac:(done)). lia.
Qed.

Lemma pages_apart p q x y :
  (PG_SIZE | p) → (PG_SIZE | q) → p ≠ q → 0 ≤ x < PG_SIZE → 0 ≤ y < PG_SIZE → p + x ≠ q + y.
Proof. intros [j ->] [k ->] Hne Hx Hy. unfold PG_SIZE in *. nia. Qed.

(** Writing one piece *)
Lemma fill_piece s start n v p :
  tree_ok pool s → 0 ≤ start < 2 ^ 48 → 0 ≤ n → start mod PG_SIZE + n ≤ PG_SIZE → page_of s start = Some p →
  ∃ s', fill_bytes (p + start mod PG_SIZE) (Z.to_nat n) v s = Done (tt, s') ∧ tree_ok pool s'
    ∧ ∀ a, 0 ≤ a < 2 ^ 48 →
        byte_at s' a = if bool_decide (start ≤ a < start + n) then Some v else byte_at s a.
Proof.
  intros Hok Hs Hn Hfit Hp. pose proof (walk_page pool s (indexes _) _ _ Hok ltac:(done) Hp) as (Hpr & Hpd).
  destruct (fill_bytes_spec (Z.to_nat n) (p + start mod PG_SIZE) v s) as (m & Hrun & Hm).
  exists (RadixTree (slots s) m (asan_alloc_ptr s)). split; [done|].
  pose proof (Z.mod_pos_bound start PG_SIZE ltac:(done)) as Hsm.
  assert (p + PG_SIZE ≤ asan_alloc_ptr s) as Hpe.
  { destruct (tree_ptr_page _ _ Hok) as [j Hj]. destruct Hpd as [k Hk]. unfold PG_SIZE in *. nia. }
  split.
  - destruct Hok as [H1 H2 H3 H4 H5]. constructor; simpl; try done.
    intros o Ho. rewrite Hm, bool_decide_eq_false_2 by lia. by apply H5.
  - intros a Ha. unfold byte_at. change (page_of (RadixTree _ _ _) a) with (page_of s a). simpl.
    pose proof (Z.mod_pos_bound a PG_SIZE ltac:(done)) as Ham.
    case_bool_decide as Hin.
    + destruct (same_page start n a) as [Hd Hmod]; [lia|done|done|].
      rewrite (page_of_same s _ _ Hd), Hp. simpl. rewrite Hm, bool_decide_eq_true_2; [done|]. rewrite Hmod. lia.
    + destruct (page_of s a) as [q|] eqn:Hq; [|done]. simpl. rewrite Hm, bool_decide_eq_false_2; [done|].
      intros Ho. destruct (decide (q = p)) as [->|Hne].
      * pose proof (page_of_inj pool s a start p Hok Ha Hs Hq Hp) as Hd.
        pose proof (Z.div_mod a PG_SIZE ltac:(done)). pose proof (Z.div_mod start PG_SIZE ltac:(done)).
        rewrite Hd in *. lia.
      * pose proof (walk_page pool s (indexes _) _ _ Hok ltac:(done) Hq) as (_ & Hqd).
        apply (pages_apart q p (a mod PG_SIZE) (q + a mod PG_SIZE - p)); try done; lia.
Qed.

(** ** fill and is_filled_with *)

(** Fuel for what remains after a piece *)
Lemma pages_left start n len fuel :
  0 ≤ start → 0 < n ≤ len → n = len ∨ start + n = PG_SIZE * (start / PG_SIZE + 1) →
  (start + len) / PG_SIZE - start / PG_SIZE + 1 < Z.of_nat (S fuel) →
  len - n = 0 ∧ (0 < fuel)%nat
  ∨ (start + n + (len - n)) / PG_SIZE - (start + n) / PG_SIZE + 1 < Z.of_nat fuel.
Proof.
  intros Hs Hn Hor Hf. unfold PG_SIZE in *.
  assert (start / 4096 ≤ (start + len) / 4096) by (apply Z.div_le_mono; lia).
  destruct Hor as [->|He]; [left; lia|]. right.
  replace (start + n + (len - n)) with (start + len) by lia.
  rewrite He, (Z.mul_comm 4096), Z.div_mul by lia. lia.
Qed.

Lemma fill_spec fuel : ∀ s start v len,
  tree_ok pool s → 0 ≤ start → 0 ≤ len → start + len ≤ 2 ^ 48 →
  (len = 0 ∧ (0 < fuel)%nat) ∨ (start + len) / PG_SIZE - start / PG_SIZE + 1 < Z.of_nat fuel →
  ∃ ok s', fill pool fuel start v len s = Done (ok, s') ∧ tree_ok pool s'
    ∧ (∀ a, 0 ≤ a < 2 ^ 48 → ¬ start ≤ a < start + len → kept s s' a)
    ∧ if (ok : bool) then ∀ a, start ≤ a < start + len → byte_at s' a = Some v
      else asan_alloc_ptr s' = pool.
Proof.
  induction fuel as [|fuel IH]; intros s start v len Hok Hs Hl Hb Hf.
  { exfalso. destruct Hf as [[_ ?]|Hf]; [lia|].
    assert (start / PG_SIZE ≤ (start + len) / PG_SIZE) by (apply Z.div_le_mono; [done|lia]). lia. }
  cbn [fill]. destruct (Z.eqb_spec len 0) as [->|Hne].
  { exists true, s. split; [done|]. split; [done|]. split; [by left|]. lia. }
  destruct Hf as [[? _]|Hf]; [lia|].
  destruct (first_part_spec start len) as (Hn & Hfit & Hor); [lia|lia|]. cbv zeta.
  set (n := first_part start len) in *.
  destruct (lookup_commit s start Hok) as (r & s1 & Hrun1 & Hok1 & Hext & Hr); [lia|].
  rewrite (bind_done _ _ _ _ _ Hrun1).
  destruct r as [o|].
  2:{ exists false, s1. split; [done|]. split; [done|]. split; [|done].
      intros a _ _. by apply extends_kept. }
  destruct Hr as (p & Hp & ->).
  destruct (fill_piece s1 start n v p) as (s2 & Hrun2 & Hok2 & Hbytes); [done|lia|lia|done|done|].
  rewrite (bind_done _ _ _ _ _ Hrun2). rewrite !u64_small by lia.
  destruct (IH s2 (start + n) v (len - n)) as (ok & s' & Hrun & Hok' & Hkept & Hres);
    [done|lia|lia|lia|by apply pages_left; [lia|lia|done|done]|].
  exists ok, s'. split; [done|]. split; [done|]. split.
  - intros a Ha Hout. eapply kept_kept; [|apply Hkept; lia].
    eapply kept_trans; [by apply extends_kept|]. rewrite Hbytes by done.
    by rewrite bool_decide_eq_false_2 by lia.
  - destruct ok; [|done]. intros a Ha. destruct (decide (a < start + n)) as [Hlt|Hge]; [|apply Hres; lia].
    assert (byte_at s2 a = Some v) as Hv by (rewrite Hbytes by lia; by rewrite bool_decide_eq_true_2 by lia).
    destruct (Hkept a) as [Heq|[Hnone _]]; [lia|lia|congruence|congruence].
Qed.

Lemma filled_piece s start n v :
  0 ≤ start → 0 ≤ n → start mod PG_SIZE + n ≤ PG_SIZE →
  ∀ p, page_of s start = Some p →
  (∀ o, p + start mod PG_SIZE ≤ o < p + start mod PG_SIZE + n → default 0 (bytes s !! o) = v)
  ↔ (∀ a, start ≤ a < start + n → byte_at s a = Some v).
Proof.
  intros Hs Hn Hfit p Hp. split.
  - intros Hall a Ha. destruct (same_page start n a Hs Hfit Ha) as [Hd Hmod].
    unfold byte_at. rewrite (page_of_same s _ _ Hd), Hp. simpl. rewrite Hall; [done|lia].
  - intros Hall o Ho. specialize (Hall (start + (o - p - start mod PG_SIZE)) ltac:(lia)).
    destruct (same_page start n (start + (o - p - start mod PG_SIZE)) Hs Hfit ltac:(lia)) as [Hd Hmod].
    unfold byte_at in Hall. rewrite (page_of_same s _ _ Hd), Hp, Hmod in Hall. simpl in Hall.
    injection Hall as Hall. rewrite <- Hall. do 2 f_equal. lia.
Qed.

Lemma is_filled_spec fuel : ∀ s start v len,
  0 ≤ start → 0 ≤ len → start + len ≤ 2 ^ 48 →
  (len = 0 ∧ (0 < fuel)%nat) ∨ (start + len) / PG_SIZE - start / PG_SIZE + 1 < Z.of_nat fuel →
  ∃ b, is_filled_with pool fuel start v len s = Done (b, s)
    ∧ (b = true ↔ ∀ a, start ≤ a < start + len → byte_at s a = Some v).
Proof.
  induction fuel as [|fuel IH]; intros s start v len Hs Hl Hb Hf.
  { exfalso. destruct Hf as [[_ ?]|Hf]; [lia|].
    assert (start / PG_SIZE ≤ (start + len) / PG_SIZE) by (apply Z.div_le_mono; [done|lia]). lia. }
  cbn [is_filled_with]. destruct (Z.eqb_spec len 0) as [->|Hne].
  { exists true. split; [done|]. split; [lia|done]. }
  destruct Hf as [[? _]|Hf]; [lia|].
  destruct (first_part_spec start len) as (Hn & Hfit & Hor); [lia|lia|]. cbv zeta.
  set (n := first_part start len) in *.
  rewrite (bind_done _ _ _ _ _ (lookup_read s start ltac:(lia))).
  destruct (page_of s start) as [p|] eqn:Hp; simpl.
  2:{ exists false. split; [done|]. split; [done|]. intros Hall.
      specialize (Hall start ltac:(lia)). unfold byte_at in Hall. by rewrite Hp in Hall. }
  destruct (all_bytes_spec (Z.to_nat n) (p + start mod PG_SIZE) v s) as (b & Hrun & Hbiff).
  rewrite Z2Nat.id, (filled_piece s start n v) in Hbiff by (done || lia).
  rewrite (bind_done _ _ _ _ _ Hrun). destruct b; cbn [negb].
  - rewrite !u64_small by lia.
    destruct (IH s (start + n) v (len - n)) as (b & Hrun' & Hb'); [lia|lia|lia|by apply pages_left; [lia|lia|done|done]|].
    exists b. split; [done|]. rewrite Hb'. apply proj1 in Hbiff. specialize (Hbiff eq_refl). split.
    + intros Hall a Ha. destruct (decide (a < start + n)); [apply Hbiff; lia|apply Hall; lia].
    + intros Hall a Ha. apply Hall. lia.
  - exists false. split; [done|]. split; [done|]. intros Hall. apply Hbiff. intros a Ha. apply Hall. lia.
Qed.
End tree.

Lemma fill_fuel_enough start len :
  0 ≤ len →
  (start + len) / PG_SIZE - start / PG_SIZE + 1 < Z.of_nat (fill_fuel start len).
Proof.
  intros Hl. unfold fill_fuel. assert (start / PG_SIZE ≤ (start + len) / PG_SIZE) by (apply Z.div_le_mono; [done|lia]). lia.
Qed.

(** C39: Fill returns.  With true, every byte of the range has the value; with
    false the pool of pages is exhausted.  Either way no byte outside the
    range changes, except that bytes the tree had no page for may have become
    0; and the tree stays one in which no two addresses share a byte. *)
Theorem radix_fill_correct pool s start v len :
  pool < 2 ^ 63 → (PG_SIZE | pool) → tree_ok pool s → 0 ≤ start → 0 ≤ len → start + len ≤ 2 ^ 48 →
  ∃ ok s', fill pool (fill_fuel start len) start v len s = Done (ok, s') ∧ tree_ok pool s'
    ∧ (∀ a, 0 ≤ a < 2 ^ 48 → ¬ start ≤ a < start + len → kept s s' a)
    ∧ if (ok : bool) then ∀ a, start ≤ a < start + len → byte_at s' a = Some v
      else asan_alloc_ptr s' = pool.
Proof.
  intros Hp Hd Hok Hs Hl Hb. apply fill_spec; try done. right. by apply fill_fuel_enough.
Qed.

Lemma radix_fill_witness :
  ∃ ok s', fill 65536 (fill_fuel 4090 10) 4090 7 10 (RadixTree ∅ ∅ 0) = Done (ok, s') ∧ tree_ok 65536 s'
    ∧ (∀ a, 0 ≤ a < 2 ^ 48 → ¬ 4090 ≤ a < 4090 + 10 → kept (RadixTree ∅ ∅ 0) s' a)
    ∧ if (ok : bool) then ∀ a, 4090 ≤ a < 4090 + 10 → byte_at s' a = Some 7
      else asan_alloc_ptr s' = 65536.
Proof.
  apply (radix_fill_correct 65536 (RadixTree ∅ ∅ 0) 4090 7 10); try lia.
  - by exists 16.
  - by apply tree_init_ok.
Defined.

(** Is_filled_with returns, changes nothing, and is true exactly when every
    byte of the range is present and has the value. *)
Theorem radix_is_filled_iff pool s start v len :
  0 ≤ start → 0 ≤ len → start + len ≤ 2 ^ 48 →
  ∃ b, is_filled_with pool (fill_fuel start len) start v len s = Done (b, s)
    ∧ (b = true ↔ ∀ a, start ≤ a < start + len → byte_at s a = Some v).
Proof.
  intros Hs Hl Hb. apply is_filled_spec; try done. right. by apply fill_fuel_enough.
Qed.

Lemma radix_is_filled_witness :
  ∃ b, is_filled_with 65536 (fill_fuel 4090 10) 4090 7 10 (RadixTree ∅ ∅ 0) = Done (b, RadixTree ∅ ∅ 0)
    ∧ (b = true ↔ ∀ a, 4090 ≤ a < 4090 + 10 → byte_at (RadixTree ∅ ∅ 0) a = Some 7).
Proof. apply (radix_is_filled_iff 65536); lia. Defined.
