(* ===== verification/Utf.v ===== *)
(** * user/libutf/utf.cc: UTF-8, UTF-16 and code points

    Code units are [Z]: bytes in [0, 256), char16_t in [0, 2^16), char32_t in
    [0, 2^32).  A pointer into a string is the list of the units from there
    on, and reading past its end is a fault.  A function that writes is
    given the output buffer and faults when it stores outside it. *)

From stdpp Require Import base tactics list numbers option.
From S2P Require Import Prelude.

#[local] Open Scope Z_scope.

(** [*in] *)
Definition peek (s : list Z) : outcome Z :=
  match s with c :: _ => Done c | [] => Fault OutOfRange end.

(** [buf[i] = v], [buf[i...] = vs] *)
Definition store (buf : list Z) (i : nat) (v : Z) : outcome (list Z) :=
  if decide (i < length buf)%nat then Done (<[i := v]> buf) else Fault OutOfRange.
Fixpoint store_all (buf : list Z) (i : nat) (vs : list Z) : outcome (list Z) :=
  match vs with
  | [] => Done buf
  | v :: vs => match store buf i v with Done buf => store_all buf (S i) vs | Fault f => Fault f end
  end.

Definition obind {A B} (m : outcome A) (f : A → outcome B) : outcome B :=
  match m with Done a => f a | Fault e => Fault e end.
Notation "'let*' x := m 'in' k" := (obind m (λ x, k))
  (at level 200, x pattern, m at level 100, k at level 200).

(** ** Encoding *)

(** The units ucs4_to_utf8 stores at [out], the null included, and what it
    returns *)
Definition utf8_tail (len c : Z) : list Z :=
  (λ shift, Z.lor 0x80 (Z.land (Z.shiftr c (6 * shift)) 0x3F)) <$> reverse (seqZ 0 (len - 1)).

Definition utf8_multi (len c : Z) : list Z :=
  let shift := len - 1 in
  u8 (Z.lor (u8 (Z.shiftr (s8 0x80) shift)) (Z.shiftr c (6 * shift))) :: utf8_tail len c.

Definition ucs4_to_utf8 (c : Z) : Z * list Z :=
  if c <? 0x80 then (1, [u8 c; 0])
  else
    let len := if c <? 0x800 then 2 else if c <? 0x10000 then 3
               else if c <? 0x110000 then 4 else 0 in
    if len =? 0 then (0, [0]) else (len, utf8_multi len c ++ [0]).

Definition ucs4_to_utf16 (c : Z) : Z * list Z :=
  if ((0 <? c) && (c <? 0xD800)) || ((0xDFFF <? c) && (c <? 0x10000)) then (1, [u16 c; 0])
  else if (0xFFFF <? c) && (c <? 0x110000) then
    let c := c - 0x10000 in
    (2, [u16 (0xD800 + Z.land (Z.shiftr c 10) 0x3FF); u16 (0xDC00 + Z.land c 0x3FF); 0])
  else (0, [0]).

(** ** Decoding UTF-8 *)

Definition ERROR : Z := 2 ^ 32 - 1.   (* (char32_t)-1 *)

(** One continuation byte: [n] is an int, and [n |= -1] makes it -1 for
    good. *)
Definition utf8_cont (n shift : Z) (s : list Z) : outcome (Z * list Z) :=
  let* c := peek s in
  let n := if negb (Z.land c 0xC0 =? 0x80) then Z.lor n (-1) else n in
  if negb (c =? 0) then Done (Z.lor n (Z.shiftl (Z.land c 0x3F) shift), tail s)
  else Done (Z.lor n (-1), s).

Definition utf8_to_ucs4_upd (s : list Z) : outcome (Z * list Z) :=
  let* c := peek s in
  let* (n, s) :=
    if Z.land c 0x80 =? 0 then Done (Z.land c 0x7F, tail s)
    else if Z.land c 0xE0 =? 0xC0 then
      utf8_cont (Z.shiftl (Z.land c 0x1F) 6) 0 (tail s)
    else if Z.land c 0xF0 =? 0xE0 then
      let* (n, s) := utf8_cont (Z.shiftl (Z.land c 0x0F) 12) 6 (tail s) in
      utf8_cont n 0 s
    else if Z.land c 0xF8 =? 0xF0 then
      let* (n, s) := utf8_cont (Z.shiftl (Z.land c 0x07) 18) 12 (tail s) in
      let* (n, s) := utf8_cont n 6 s in
      utf8_cont n 0 s
    else Done (-1, tail s) in
  Done (u32 n, s).

(** [ret_end] is where the result's second component goes *)
Definition utf8_to_ucs4 (s : list Z) : outcome (Z * list Z) := utf8_to_ucs4_upd s.

Fixpoint utf8_count_loop (fuel : nat) (s : list Z) (count : Z) : outcome Z :=
  match fuel with
  | O => Fault OutOfFuel
  | S fuel =>
      let* c := peek s in
      if c =? 0 then Done count
      else let* (_, s) := utf8_to_ucs4_upd s in utf8_count_loop fuel s (count + 1)
  end.
Definition utf8_count (s : list Z) : outcome Z := utf8_count_loop (S (length s)) s 0.

(** ** Decoding UTF-16 *)

(** On an invalid pair [ret_end] is not written: the pointer stays. *)
Definition utf16_to_ucs4 (s : list Z) : outcome (Z * list Z) :=
  let* in0 := peek s in
  if (in0 <? 0xD800) || (0xDFFF <? in0) then
    Done (in0, if in0 =? 0 then s else tail s)
  else if (0xD800 <=? in0) && (in0 <=? 0xDBFF) then
    let* in1 := peek (tail s) in
    if (0xDC00 <=? in1) && (in1 <=? 0xDFFF) then
      Done (u32 (Z.lor (Z.shiftl (in0 - 0xD800) 10) (Z.land (in1 - 0xDC00) 0x3FF)), drop 2 s)
    else Done (0, s)
  else Done (0, s).

Definition utf16_to_ucs4_upd (s : list Z) : outcome (Z * list Z) := utf16_to_ucs4 s.

Definition ntohs (x : Z) : Z := Z.lor (Z.shiftl (Z.land x 0xFF) 8) (Z.shiftr x 8).

Definition utf16be_to_ucs4 (s : list Z) : outcome (Z * list Z) :=
  let* raw0 := peek s in
  let in0 := ntohs raw0 in
  if (in0 <? 0xD800) || (0xDFFF <? in0) then
    Done (in0, if in0 =? 0 then s else tail s)
  else
    let* raw1 := peek (tail s) in
    let in1 := ntohs raw1 in
    if (0xD800 <=? in0) && (in0 <=? 0xDBFF) && (0xDC00 <=? in1) && (in1 <=? 0xDFFF) then
      Done (u32 (Z.lor (Z.shiftl (in0 - 0xD800) 10) (Z.land (in1 - 0xDC00) 0x3FF)), drop 2 s)
    else Done (0, s).

(** [utf16_count] does not come back on some inputs, so the number of rounds
    is a parameter. *)
Fixpoint utf16_count (fuel : nat) (s : list Z) (count : Z) : outcome Z :=
  match fuel with
  | O => Fault OutOfFuel
  | S fuel =>
      let* c := peek s in
      if c =? 0 then Done count
      else let* (_, s) := utf16_to_ucs4_upd s in utf16_count fuel s (count + 1)
  end.

(** ** Conversions into a buffer *)

(** The continuation bytes of utf8_to_utf16: None is [return 0] *)
Fixpoint take_conts (n : nat) (ch : Z) (s : list Z) : outcome (option (Z * list Z)) :=
  match n with
  | O => Done (Some (ch, s))
  | S n =>
      let* c := peek s in
      if Z.land c 0xC0 =? 0x80 then
        take_conts n (Z.lor (u32 (Z.shiftl ch 6)) (Z.land c 0x3F)) (tail s)
      else Done None
  end.

(** utf8_to_utf16: [out] is the output position; the result is the return
    value and the buffer. *)
Fixpoint utf8_to_utf16_loop (fuel : nat) (buf : list Z) (out out_size_words : nat) (s : list Z) :
    outcome (Z * list Z) :=
  match fuel with
  | O => Fault OutOfFuel
  | S fuel =>
      let* c := peek s in
      if c =? 0 then
        if decide (out_size_words ≤ out)%nat then Done (0, buf)
        else let* buf := store buf out 0 in Done (Z.of_nat out, buf)
      else
        let multi (lead : Z) (more : nat) :=
          let* r := take_conts more lead (tail s) in
          match r with
          | None => Done (0, buf)
          | Some (ch, s) =>
              if (0xD800 <=? ch) && (ch <? 0xE000) then Done (0, buf)
              else if ch =? 0 then Done (0, buf)
              else if decide (out_size_words ≤ out)%nat then Done (0, buf)
              else if ch <? 0x10000 then
                let* buf := store buf out (u16 ch) in
                utf8_to_utf16_loop fuel buf (out + 1)%nat out_size_words s
              else if decide (out_size_words ≤ out + 1)%nat then Done (0, buf)
              else
                let ch := ch - 0x10000 in
                let* buf := store buf out (u16 (0xD800 + Z.land (Z.shiftr ch 10) 0x3FF)) in
                let* buf := store buf (out + 1)%nat (u16 (0xDC00 + Z.land ch 0x3FF)) in
                utf8_to_utf16_loop fuel buf (out + 2)%nat out_size_words s
          end in
        if Z.land c 0xF8 =? 0xF0 then multi (Z.land c 0x03) 3%nat
        else if Z.land c 0xF0 =? 0xE0 then multi (Z.land c 0x07) 2%nat
        else if Z.land c 0xE0 =? 0xC0 then multi (Z.land c 0x0F) 1%nat
        else if negb (Z.land c 0x80 =? 0) then Done (0, buf)
        else if decide (out < out_size_words)%nat then
          let* buf := store buf out c in
          utf8_to_utf16_loop fuel buf (out + 1)%nat out_size_words (tail s)
        else Done (0, buf)
  end.

Definition utf8_to_utf16 (buf : list Z) (out_size_words : nat) (s : list Z) : outcome (Z * list Z) :=
  utf8_to_utf16_loop (S (length s)) buf 0 out_size_words s.

(** utf16_to_utf8: the bytes written, the units consumed, the buffer *)
Fixpoint utf16_to_utf8_loop (n : nat) (buf : list Z) (out output_sz : nat) (s : list Z) :
    outcome (nat * list Z * list Z) :=
  match n with
  | O => Done (out, s, buf)
  | S n =>
      let* (codepoint, s) := utf16_to_ucs4_upd s in
      let '(need, bytes) := ucs4_to_utf8 codepoint in
      if decide (output_sz < out + Z.to_nat need)%nat then Done (out, s, buf)
      else
        let* buf := store_all buf out bytes in
        utf16_to_utf8_loop n buf (out + Z.to_nat need)%nat output_sz s
  end.

Definition utf16_to_utf8 (buf : list Z) (output_sz : nat) (input : list Z) (input_sz : nat) :
    outcome (nat * nat * list Z) :=
  let* (out, rest, buf) := utf16_to_utf8_loop input_sz buf 0 output_sz input in
  Done (out, (length input - length rest)%nat, buf).

(** tchar_to_utf8 (char const* overload): how many bytes are copied *)
Fixpoint back_off (sz input_sz : nat) (input : list Z) : outcome nat :=
  if decide (sz < input_sz)%nat then
    match input !! sz with
    | None => Fault OutOfRange
    | Some c =>
        if Z.land c 0xC0 =? 0x80 then
          match sz with O => Fault OutOfRange | S sz => back_off sz input_sz input end
        else Done sz
    end
  else Done sz.

(** strncpy(output, input, n): copies up to the first null, then pads *)
Fixpoint strncpy_bytes (n : nat) (input : list Z) : outcome (list Z) :=
  match n with
  | O => Done []
  | S n =>
      let* c := peek input in
      if c =? 0 then Done (replicate (S n) 0)
      else let* rest := strncpy_bytes n (tail input) in Done (c :: rest)
  end.

Definition tchar_to_utf8 (buf : list Z) (output_sz : nat) (input : list Z) (input_sz : nat) :
    outcome (nat * nat * list Z) :=
  let* sz := back_off (input_sz `min` output_sz) input_sz input in
  let* bytes := strncpy_bytes sz input in
  let* buf := store_all buf 0 bytes in
  Done (sz, sz, buf).

(** tchar_to_utf16 (char const* overload); the sizes are not looked at *)
Fixpoint tchar_to_utf16_loop (fuel : nat) (buf : list Z) (out : nat) (s : list Z) :
    outcome (nat * list Z * list Z) :=
  match fuel with
  | O => Fault OutOfFuel
  | S fuel =>
      let* (codepoint, s) := utf8_to_ucs4_upd s in
      let '(n, units) := ucs4_to_utf16 codepoint in
      let* buf := store_all buf out units in
      let out := (out + Z.to_nat n)%nat in
      if codepoint =? 0 then Done (out, s, buf) else tchar_to_utf16_loop fuel buf out s
  end.

Definition tchar_to_utf16 (buf input : list Z) : outcome (nat * nat * list Z) :=
  let* (out, rest, buf) := tchar_to_utf16_loop (S (length input)) buf 0 input in
  Done (out, (length input - length rest)%nat, buf).

(** tchar_to_utf16 (char16_t const* overload) *)
Fixpoint copy16_loop (n : nat) (buf : list Z) (i output_sz input_sz : nat) (input : list Z) :
    outcome (nat * list Z) :=
  match n with
  | O => Done (i, buf)
  | S n =>
      if decide (i < output_sz ∧ i < input_sz)%nat then
        match input !! i with
        | None => Fault OutOfRange
        | Some c =>
            let* buf := store buf i c in
            if c =? 0 then Done (i, buf) else copy16_loop n buf (S i) output_sz input_sz input
        end
      else Done (i, buf)
  end.

Definition tchar_copy_utf16 (buf : list Z) (output_sz : nat) (input : list Z) (input_sz : nat) :
    outcome (nat * list Z) :=
  let* (i, buf) := copy16_loop (S input_sz) buf 0 output_sz input_sz input in
  match (if decide (i = output_sz) then match i with O => None | S i => Some i end else Some i) with
  | None => Fault OutOfRange      (* output[SIZE_MAX] *)
  | Some i => let* buf := store buf i 0 in Done (i, buf)
  end.

(** tchar_strcmp_utf8 (char16_t const* overload); an invalid surrogate reads
    as 0, so the loop ends there *)
Fixpoint tchar_strcmp_utf8 (fuel : nat) (lhs rhs : list Z) : outcome Z :=
  match fuel with
  | O => Fault OutOfFuel
  | S fuel =>
      let* (l, lhs) := utf16_to_ucs4_upd lhs in
      let* (r, rhs) := utf8_to_ucs4_upd rhs in
      let diff := s32 (s32 l - s32 r) in
      if (diff =? 0) && negb (l =? 0) && negb (r =? 0) then tchar_strcmp_utf8 fuel lhs rhs
      else Done diff
  end.

(** * Round trips and bounds of the UTF conversions *)

(** ** Bytes *)

Lemma cont_byte b :
  0 ≤ b < 64 →
  Z.lor 0x80 b = 128 + b ∧ Z.land (128 + b) 0xC0 = 0x80 ∧ Z.land (128 + b) 0x3F = b.
Proof. revert b. apply forall_below. by repeat constructor. Qed.

Lemma lead1_byte a : 0 ≤ a < 128 → Z.land a 0x80 = 0 ∧ Z.land a 0x7F = a.
Proof. revert a. apply forall_below. by repeat constructor. Qed.

Lemma lead2_byte a :
  0 ≤ a < 32 → u8 (Z.lor (u8 (Z.shiftr (s8 0x80) 1)) a) = 192 + a ∧
  Z.land (192 + a) 0x80 = 128 ∧ Z.land (192 + a) 0xE0 = 0xC0 ∧ Z.land (192 + a) 0x1F = a.
Proof. revert a. apply forall_below. by repeat constructor. Qed.

Lemma lead3_byte a :
  0 ≤ a < 16 → u8 (Z.lor (u8 (Z.shiftr (s8 0x80) 2)) a) = 224 + a ∧
  Z.land (224 + a) 0x80 = 128 ∧ Z.land (224 + a) 0xE0 = 224 ∧ Z.land (224 + a) 0xF0 = 0xE0 ∧
  Z.land (224 + a) 0x0F = a.
Proof. revert a. apply forall_below. by repeat constructor. Qed.

Lemma lead4_byte a :
  0 ≤ a < 8 → u8 (Z.lor (u8 (Z.shiftr (s8 0x80) 3)) a) = 240 + a ∧
  Z.land (240 + a) 0x80 = 128 ∧ Z.land (240 + a) 0xE0 = 224 ∧ Z.land (240 + a) 0xF0 = 240 ∧
  Z.land (240 + a) 0xF8 = 0xF0 ∧ Z.land (240 + a) 0x07 = a.
Proof. revert a. apply forall_below. by repeat constructor. Qed.

(** ** UTF-8 *)

(** The standard's definition of the encoding *)
Definition utf8_spec (c : Z) : list Z :=
  if c <? 0x80 then [c]
  else if c <? 0x800 then [192 + c / 64; 128 + c mod 64]
  else if c <? 0x10000 then [224 + c / 4096; 128 + (c / 64) mod 64; 128 + c mod 64]
  else [240 + c / 262144; 128 + (c / 4096) mod 64; 128 + (c / 64) mod 64; 128 + c mod 64].

Lemma tail_byte c k :
  0 ≤ k → Z.lor 0x80 (Z.land (Z.shiftr c k) 0x3F) = 128 + (c / 2 ^ k) mod 64.
Proof.
  intros Hk. rewrite Z.shiftr_div_pow2, (land_low_mask 6) by lia. change (2 ^ 6) with 64.
  apply cont_byte, Z.mod_pos_bound. lia.
Qed.

(** ucs4_to_utf8 is that encoding, with a null after it. *)
Lemma ucs4_to_utf8_eq c :
  0 ≤ c < 0x110000 → ucs4_to_utf8 c = (Z.of_nat (length (utf8_spec c)), utf8_spec c ++ [0]).
Proof.
  intros Hc. unfold ucs4_to_utf8, utf8_spec. destruct (Z.ltb_spec c 0x80).
  { by rewrite u8_small by lia. }
  unfold utf8_multi. 
  destruct (Z.ltb_spec c 0x800); [|destruct (Z.ltb_spec c 0x10000)];
    [| |rewrite (proj2 (Z.ltb_lt c 0x110000)) by lia]; cbn [Z.eqb].
  - change (utf8_tail 2 c) with [Z.lor 0x80 (Z.land (Z.shiftr c 0) 0x3F)].
    rewrite tail_byte, Z.div_1_r, (Z.shiftr_div_pow2 c (6 * (2 - 1))) by lia. change (2 ^ (6 * (2 - 1))) with 64.
    change (2 - 1) with 1. destruct (lead2_byte (c / 64)) as [-> _]; [|done].
    split; [apply Z.div_pos; lia|apply Z.div_lt_upper_bound; lia].
  - change (utf8_tail 3 c) with [Z.lor 0x80 (Z.land (Z.shiftr c 6) 0x3F); Z.lor 0x80 (Z.land (Z.shiftr c 0) 0x3F)].
    rewrite !tail_byte, Z.div_1_r, (Z.shiftr_div_pow2 c (6 * (3 - 1))) by lia. change (2 ^ (6 * (3 - 1))) with 4096.
    change (3 - 1) with 2. destruct (lead3_byte (c / 4096)) as [-> _]; [|done].
    split; [apply Z.div_pos; lia|apply Z.div_lt_upper_bound; lia].
  - change (utf8_tail 4 c) with [Z.lor 0x80 (Z.land (Z.shiftr c 12) 0x3F);
      Z.lor 0x80 (Z.land (Z.shiftr c 6) 0x3F); Z.lor 0x80 (Z.land (Z.shiftr c 0) 0x3F)].
    rewrite !tail_byte, Z.div_1_r, (Z.shiftr_div_pow2 c (6 * (4 - 1))) by lia. change (2 ^ (6 * (4 - 1))) with 262144.
    change (4 - 1) with 3. destruct (lead4_byte (c / 262144)) as [-> _]; [|done].
    split; [apply Z.div_pos; lia|apply Z.div_lt_upper_bound; lia].
Qed.

(** A well-formed continuation byte adds its six bits. *)
Lemma utf8_cont_ok n k b s :
  0 ≤ k → 0 ≤ b < 64 →
  utf8_cont (n * 2 ^ (k + 6)) k (128 + b :: s) = Done ((n * 64 + b) * 2 ^ k, s).
Proof.
  intros Hk Hb. unfold utf8_cont, peek, obind. destruct (cont_byte b Hb) as (_ & -> & ->).
  cbn [Z.eqb Pos.eqb negb]. rewrite (proj2 (Z.eqb_neq _ _)) by lia. cbn [negb tail].
  do 2 f_equal. rewrite Z.shiftl_mul_pow2 by lia. rewrite Z.pow_add_r by lia.
  replace (n * (2 ^ k * 2 ^ 6)) with ((n * 2 ^ 6) * 2 ^ k) by lia.
  rewrite <- !Z.shiftl_mul_pow2, <- Z.shiftl_lor, !Z.shiftl_mul_pow2 by lia.
  by rewrite (lor_disjoint 6) by lia.
Qed.

(** Decoding the encoding of a code point gives it back and moves past it. *)
Lemma utf8_decode c s :
  0 ≤ c < 0x110000 → utf8_to_ucs4_upd (utf8_spec c ++ s) = Done (c, s).
Proof.
  intros Hc. unfold utf8_spec, utf8_to_ucs4_upd.
  pose proof (Z.mod_pos_bound c 64 ltac:(lia)). pose proof (Z.div_mod c 64 ltac:(lia)).
  pose proof (Z.mod_pos_bound (c / 64) 64 ltac:(lia)). pose proof (Z.div_mod (c / 64) 64 ltac:(lia)).
  pose proof (Z.mod_pos_bound (c / 4096) 64 ltac:(lia)). pose proof (Z.div_mod (c / 4096) 64 ltac:(lia)).
  assert (c / 64 / 64 = c / 4096) as E2 by (rewrite Z.div_div; [done|lia|lia]).
  assert (c / 4096 / 64 = c / 262144) as E3 by (rewrite Z.div_div; [done|lia|lia]).
  rewrite E2, E3 in *.
  destruct (Z.ltb_spec c 0x80); [|destruct (Z.ltb_spec c 0x800); [|destruct (Z.ltb_spec c 0x10000)]];
    cbn [app peek obind tail].
  - destruct (lead1_byte c) as [-> ->]; [lia|]. cbn. by rewrite u32_small by lia.
  - destruct (lead2_byte (c / 64)) as (_ & -> & -> & ->); [lia|]. cbn [Z.eqb Pos.eqb].
    rewrite Z.shiftl_mul_pow2, (utf8_cont_ok _ 0) by lia. cbn [obind]. rewrite u32_small by lia. do 2 f_equal. lia.
  - destruct (lead3_byte (c / 4096)) as (_ & -> & -> & -> & ->); [lia|]. cbn [Z.eqb Pos.eqb].
    rewrite Z.shiftl_mul_pow2, (utf8_cont_ok _ 6) by lia. cbn [obind].
    rewrite (utf8_cont_ok _ 0) by lia. cbn [obind]. rewrite u32_small by lia. do 2 f_equal. lia.
  - destruct (lead4_byte (c / 262144)) as (_ & -> & -> & -> & -> & ->); [lia|]. cbn [Z.eqb Pos.eqb].
    rewrite Z.shiftl_mul_pow2, (utf8_cont_ok _ 12) by lia. cbn [obind].
    rewrite (utf8_cont_ok _ 6) by lia. cbn [obind].
    rewrite (utf8_cont_ok _ 0) by lia. cbn [obind]. rewrite u32_small by lia. do 2 f_equal. lia.
Qed.

(** Every code point survives ucs4_to_utf8 and utf8_to_ucs4_upd; the number
    of bytes is what ucs4_to_utf8 returned, and they are the standard's. *)
Theorem utf8_roundtrip c s :
  0 ≤ c < 0x110000 →
  ∃ bs, ucs4_to_utf8 c = (Z.of_nat (length bs), bs ++ [0]) ∧ bs = utf8_spec c ∧
        utf8_to_ucs4_upd (bs ++ s) = Done (c, s).
Proof.
  intros Hc. exists (utf8_spec c). split_and!; [by apply ucs4_to_utf8_eq|done|by apply utf8_decode].
Qed.

(** *** Strings: a null-terminated string is [p ++ 0 :: q], [p] without nulls *)

Definition nonnull (p : list Z) : Prop := Forall (λ c, c ≠ 0) p.

(** Decoding never goes past the terminator. *)
Lemma utf8_cont_stays n k p q :
  nonnull p → ∃ n' p', utf8_cont n k (p ++ 0 :: q) = Done (n', p' ++ 0 :: q) ∧ nonnull p' ∧
    (length p' ≤ length p)%nat.
Proof.
  intros Hp. destruct Hp as [|c p Hc Hp]; unfold utf8_cont; cbn [app peek obind tail].
  - cbn. eexists _, []. split_and!; [done|constructor|done].
  - rewrite (proj2 (Z.eqb_neq c 0)) by done. cbn [negb]. eexists _, p. split_and!; [done|done|simpl; lia].
Qed.

Lemma utf8_upd_stays c p q :
  nonnull (c :: p) →
  ∃ n p', utf8_to_ucs4_upd (c :: p ++ 0 :: q) = Done (n, p' ++ 0 :: q) ∧ nonnull p' ∧
    (length p' ≤ length p)%nat.
Proof.
  intros [Hc Hp]%Forall_cons. change (nonnull p) in Hp.
  unfold utf8_to_ucs4_upd. cbn [peek obind tail].
  repeat case_match; cbn [obind];
    repeat match goal with
    | Hp : nonnull ?p |- context [utf8_cont ?n ?k (?p ++ 0 :: ?q)] =>
        destruct (utf8_cont_stays n k p q Hp) as (? & ? & -> & ? & ?); cbn [obind]
    end;
    (eexists _, _; split_and!; [done|done|lia]).
Qed.

Lemma utf8_count_loop_total fuel p q count :
  nonnull p → (length p < fuel)%nat →
  ∃ n, utf8_count_loop fuel (p ++ 0 :: q) count = Done n ∧ count ≤ n ≤ count + Z.of_nat (length p).
Proof.
  revert p count. induction fuel as [|fuel IH]; intros p count Hp Hf; [lia|].
  destruct p as [|c p]; cbn [utf8_count_loop app peek obind].
  { exists count. simpl. split; [done|lia]. }
  pose proof Hp as [Hc _]%Forall_cons. rewrite (proj2 (Z.eqb_neq c 0)) by done.
  destruct (utf8_upd_stays c p q Hp) as (n & p' & -> & Hp' & Hl). cbn [obind]. simpl in Hf.
  destruct (IH p' (count + 1) Hp' ltac:(lia)) as (m & -> & Hm). exists m. simpl. split; [done|lia].
Qed.

(** Utf8_count ends on every null-terminated string, well formed or not, and
    counts at most one character per byte. *)
Theorem utf8_count_total p q :
  nonnull p → ∃ n, utf8_count (p ++ 0 :: q) = Done n ∧ 0 ≤ n ≤ Z.of_nat (length p).
Proof.
  intros Hp. unfold utf8_count.
  destruct (utf8_count_loop_total (S (length (p ++ 0 :: q))) p q 0 Hp) as (n & -> & Hn).
  - rewrite length_app. simpl. lia.
  - exists n. split; [done|lia].
Qed.

Definition utf8_string (cs : list Z) : list Z := concat (utf8_spec <$> cs).

Lemma utf8_spec_head c :
  0 < c < 0x110000 → ∃ b bs, utf8_spec c = b :: bs ∧ 0 < b.
Proof.
  intros Hc. unfold utf8_spec. repeat case_match; eexists _, _; (split; [done|]); try lia;
    (apply Z.add_pos_nonneg; [lia|apply Z.div_pos; lia]).
Qed.

Lemma utf8_spec_length c : (1 ≤ length (utf8_spec c) ≤ 4)%nat.
Proof. unfold utf8_spec. repeat case_match; simpl; lia. Qed.

(** On well-formed text it counts the characters. *)
Theorem utf8_count_encoded cs q :
  Forall (λ c, 0 < c < 0x110000) cs →
  utf8_count (utf8_string cs ++ 0 :: q) = Done (Z.of_nat (length cs)).
Proof.
  intros Hcs. unfold utf8_count.
  assert (length cs ≤ length (utf8_string cs))%nat as Hlen.
  { clear. unfold utf8_string. induction cs as [|c cs IH]; simpl; [lia|].
    rewrite length_app. pose proof (utf8_spec_length c). unfold fmap in IH. lia. }
  assert (∀ fuel count, (length cs < fuel)%nat →
    utf8_count_loop fuel (utf8_string cs ++ 0 :: q) count = Done (count + Z.of_nat (length cs))) as Hgo.
  { clear Hlen. induction Hcs as [|c cs Hc _ IH]; intros [|fuel] count Hf; simpl in Hf; try lia.
    - cbn. f_equal. lia.
    - unfold utf8_string. cbn [fmap list_fmap concat]. fold (utf8_string cs). rewrite <- app_assoc.
      destruct (utf8_spec_head c Hc) as (b & bs & Eb & Hb). cbn [utf8_count_loop].
      pose proof (utf8_decode c (utf8_string cs ++ 0 :: q) ltac:(lia)) as Hd. rewrite Eb in Hd |- *.
      cbn [app peek obind] in *. rewrite (proj2 (Z.eqb_neq b 0)), Hd by lia. cbn [obind].
      rewrite IH by lia. f_equal. simpl. lia. }
  rewrite Hgo; [done|]. rewrite length_app. simpl. lia.
Qed.

(** ** UTF-16 *)

Definition utf16_spec (c : Z) : list Z :=
  if c <? 0x10000 then [c]
  else [0xD800 + (c - 0x10000) / 1024; 0xDC00 + (c - 0x10000) mod 1024].

Definition scalar (c : Z) : Prop := 0 < c < 0xD800 ∨ 0xDFFF < c < 0x110000.

(** Ucs4_to_utf16 gives the standard's encoding of every scalar value. *)
Theorem ucs4_to_utf16_correct c :
  scalar c → ucs4_to_utf16 c = (Z.of_nat (length (utf16_spec c)), utf16_spec c ++ [0]).
Proof.
  intros Hc. unfold ucs4_to_utf16, utf16_spec, scalar in *.
  rewrite !Z.shiftr_div_pow2, !(land_low_mask 10) by lia. change (2 ^ 10) with 1024.
  destruct (Z.ltb_spec c 0x10000).
  - replace (_ || _) with true; [by rewrite u16_small by lia|].
    symmetry. apply orb_true_iff. rewrite !andb_true_iff, !Z.ltb_lt. lia.
  - replace (_ || _) with false.
    + rewrite !(proj2 (Z.ltb_lt _ _)) by lia. cbn [andb].
      assert (0 ≤ (c - 65536) / 1024 < 1024) as Hd
        by (split; [apply Z.div_pos; lia|apply Z.div_lt_upper_bound; lia]).
      pose proof (Z.mod_pos_bound (c - 65536) 1024 ltac:(lia)).
      rewrite (Z.mod_small ((c - 65536) / 1024)), !u16_small by lia. done.
    + symmetry. apply orb_false_iff. rewrite !andb_false_iff, !Z.ltb_ge. lia.
Qed.

(** What decoding UTF-16 gives back: the code point itself below 0x10000, but
    0x10000 too little above. *)
Theorem utf16_decode_offset c s :
  scalar c →
  utf16_to_ucs4 (utf16_spec c ++ s) = Done (if c <? 0x10000 then c else c - 0x10000, s).
Proof.
  intros Hc. unfold scalar in Hc. unfold utf16_spec, utf16_to_ucs4. destruct (Z.ltb_spec c 0x10000).
  - cbn [app peek obind tail]. replace (_ || _) with true.
    + by rewrite (proj2 (Z.eqb_neq c 0)) by lia.
    + symmetry. apply orb_true_iff. rewrite !Z.ltb_lt. lia.
  - cbn [app peek obind tail drop]. set (d := c - 65536).
    assert (0 ≤ d / 1024 < 1024) as Hd
      by (split; [apply Z.div_pos; lia|apply Z.div_lt_upper_bound; lia]).
    pose proof (Z.mod_pos_bound d 1024 ltac:(lia)). pose proof (Z.div_mod d 1024 ltac:(lia)).
    rewrite (proj2 (Z.ltb_ge _ 0xD800)), (proj2 (Z.ltb_ge 0xDFFF _)), !(proj2 (Z.leb_le _ _)) by lia.
    cbn [orb andb]. rewrite !(Z.add_simpl_l), Z.shiftl_mul_pow2, (land_low_mask 10) by lia.
    change (2 ^ 10) with 1024. rewrite Z.mod_mod by lia.
    rewrite (lor_disjoint 10 (d / 1024)) by lia. change (2 ^ 10) with 1024.
    rewrite u32_small by lia. do 2 f_equal. lia.
Qed.

(** ** utf8_to_utf16 *)

Lemma store_ok buf i v : (i < length buf)%nat → store buf i v = Done (<[i := v]> buf).
Proof. intros. unfold store. by rewrite decide_True. Qed.

Lemma take_conts_stays n ch p q :
  nonnull p →
  ∃ r, take_conts n ch (p ++ 0 :: q) = Done r ∧
    ∀ ch' s, r = Some (ch', s) → ∃ p', s = p' ++ 0 :: q ∧ nonnull p' ∧ (length p' ≤ length p)%nat.
Proof.
  revert ch p. induction n as [|n IH]; intros ch p Hp; cbn [take_conts].
  { eexists. split; [done|]. intros ? ? [= <- <-]. eauto. }
  destruct Hp as [|c p Hc Hp]; cbn [app peek obind tail]; [by exists None|].
  case_match; [|by exists None]. destruct (IH (Z.lor (u32 (Z.shiftl ch 6)) (Z.land c 63)) p Hp) as (r & -> & Hr).
  exists r. split; [done|]. intros ch' s ->. destruct (Hr ch' s eq_refl) as (p' & -> & ? & ?).
  exists p'. split_and!; [done|done|simpl; lia].
Qed.

(** What the loop leaves of the buffer: nothing at or after [sz] changes. *)
Definition within (sz : nat) (buf buf' : list Z) : Prop :=
  length buf' = length buf ∧ ∀ i, (sz ≤ i)%nat → buf' !! i = buf !! i.

Lemma within_refl sz buf : within sz buf buf.
Proof. by split. Qed.
Lemma within_insert sz buf buf' i v :
  (i < sz)%nat → within sz (<[i := v]> buf) buf' → within sz buf buf'.
Proof.
  intros Hi [Hl Hb]. split; [by rewrite length_insert in Hl|].
  intros j Hj. rewrite Hb by done. by rewrite list_lookup_insert_ne by lia.
Qed.

Lemma utf8_to_utf16_loop_bounds fuel buf out sz p q :
  nonnull p → (length p < fuel)%nat → (sz ≤ length buf)%nat →
  ∃ r buf', utf8_to_utf16_loop fuel buf out sz (p ++ 0 :: q) = Done (r, buf') ∧
    within sz buf buf' ∧ 0 ≤ r ∧ (r = 0 ∨ r < Z.of_nat sz).
Proof.
  revert buf out p. induction fuel as [|fuel IH]; intros buf out p Hp Hf Hsz; [lia|].
  destruct p as [|c p]; cbn [utf8_to_utf16_loop app peek obind tail].
  { cbn. case_decide.
    - eexists _, _. split_and!; [done|apply within_refl|done|by left].
    - rewrite store_ok by lia. cbn. eexists _, _. split_and!; [done| |lia|right; lia].
      eapply within_insert, within_refl. lia. }
  apply Forall_cons in Hp as [Hc Hp]. change (nonnull p) in Hp. simpl in Hf.
  rewrite (proj2 (Z.eqb_neq c 0)) by done.
  assert (∃ r buf', Done (0, buf) = Done (r, buf') ∧ within sz buf buf' ∧ 0 ≤ r ∧ (r = 0 ∨ r < Z.of_nat sz)) as Hzero.
  { eexists _, _. split_and!; [done|apply within_refl|done|by left]. }
  assert (∀ v out' p', nonnull p' → (length p' ≤ length p)%nat → (out < sz)%nat →
    ∃ r buf', (let* buf := store buf out v in utf8_to_utf16_loop fuel buf out' sz (p' ++ 0 :: q)) = Done (r, buf') ∧
      within sz buf buf' ∧ 0 ≤ r ∧ (r = 0 ∨ r < Z.of_nat sz)) as Hone.
  { intros v out' p' Hp' Hl Ho. rewrite store_ok by lia. cbn [obind].
    destruct (IH (<[out := v]> buf) out' p' Hp') as (r & buf' & -> & Hw & Hr); [lia|by rewrite length_insert|].
    exists r, buf'. split_and!; [done|by eapply within_insert|apply Hr..]. }
  assert (∀ lead n, ∃ r buf', (let* r := take_conts n lead (p ++ 0 :: q) in
      match r with
      | None => Done (0, buf)
      | Some (ch, s) =>
          if (0xD800 <=? ch) && (ch <? 0xE000) then Done (0, buf)
          else if ch =? 0 then Done (0, buf)
          else if decide (sz ≤ out)%nat then Done (0, buf)
          else if ch <? 0x10000 then
            let* buf := store buf out (u16 ch) in
            utf8_to_utf16_loop fuel buf (out + 1)%nat sz s
          else if decide (sz ≤ out + 1)%nat then Done (0, buf)
          else
            let* buf := store buf out (u16 (0xD800 + Z.land (Z.shiftr (ch - 0x10000) 10) 0x3FF)) in
            let* buf := store buf (out + 1)%nat (u16 (0xDC00 + Z.land (ch - 0x10000) 0x3FF)) in
            utf8_to_utf16_loop fuel buf (out + 2)%nat sz s
      end) = Done (r, buf') ∧ within sz buf buf' ∧ 0 ≤ r ∧ (r = 0 ∨ r < Z.of_nat sz)) as Hmulti.
  { intros lead n. destruct (take_conts_stays n lead p q Hp) as (r & -> & Hr). cbn [obind].
    destruct r as [[ch s]|]; [|done]. destruct (Hr ch s eq_refl) as (p' & -> & Hp' & Hl).
    case_match; [done|]. case_match; [done|]. case_decide; [done|]. case_match; [apply Hone; [done|done|lia]|].
    case_decide; [done|]. rewrite store_ok by lia. cbn [obind]. rewrite store_ok by (rewrite length_insert; lia).
    cbn [obind]. edestruct IH as (r & buf' & -> & Hw & Hr0); [done|lia|by rewrite !length_insert|].
    exists r, buf'. split_and!; [done| |apply Hr0..].
    eapply (within_insert _ _ _ out); [lia|]. eapply within_insert; [|done]. lia. }
  destruct (Z.land c 0xF8 =? 0xF0); [apply Hmulti|]. destruct (Z.land c 0xF0 =? 0xE0); [apply Hmulti|].
  destruct (Z.land c 0xE0 =? 0xC0); [apply Hmulti|]. destruct (negb (Z.land c 0x80 =? 0)); [done|].
  destruct (decide (out < sz)%nat); [by apply Hone|done].
Qed.

(** Utf8_to_utf16 comes back on every null-terminated string, stores only
    inside the [sz] units of its buffer, and returns 0 or a length that
    leaves room for the terminator. *)
Theorem utf8_to_utf16_bounds buf sz p q :
  nonnull p → (sz ≤ length buf)%nat →
  ∃ r buf', utf8_to_utf16 buf sz (p ++ 0 :: q) = Done (r, buf') ∧
    length buf' = length buf ∧ (∀ i, (sz ≤ i)%nat → buf' !! i = buf !! i) ∧
    0 ≤ r ∧ (r = 0 ∨ r < Z.of_nat sz).
Proof.
  intros Hp Hsz. unfold utf8_to_utf16.
  destruct (utf8_to_utf16_loop_bounds (S (length (p ++ 0 :: q))) buf 0 sz p q Hp)
    as (r & buf' & -> & [Hl Hw] & Hr); [rewrite length_app; simpl; lia|done|].
  by exists r, buf'.
Qed.

(** *** Where it is exact

    utf8_to_utf16 keeps one bit too few of the first byte of a sequence, so
    it is right only for code points that do not use that bit. *)

Definition lead_fits (c : Z) : Prop :=
  0 < c < 0x400 ∨ 0x800 ≤ c < 0x8000 ∨ 0x10000 ≤ c < 0x100000.

Lemma take_conts_ok n ch b s :
  0 ≤ ch < 2 ^ 26 → 0 ≤ b < 64 →
  take_conts (S n) ch (128 + b :: s) = take_conts n (ch * 64 + b) s.
Proof.
  intros Hch Hb. cbn [take_conts peek obind tail]. destruct (cont_byte b Hb) as (_ & -> & ->).
  cbn [Z.eqb Pos.eqb]. f_equal. rewrite Z.shiftl_mul_pow2, u32_small by lia.
  by rewrite (lor_disjoint 6) by lia.
Qed.

Lemma lead1_ascii a :
  0 ≤ a < 128 → Z.land a 0xF8 =? 0xF0 = false ∧ Z.land a 0xF0 =? 0xE0 = false ∧
  Z.land a 0xE0 =? 0xC0 = false ∧ Z.land a 0x80 =? 0 = true.
Proof. revert a. apply forall_below. by repeat constructor. Qed.
Lemma lead2_fits a :
  0 ≤ a < 16 → Z.land (192 + a) 0xF8 =? 0xF0 = false ∧ Z.land (192 + a) 0xF0 =? 0xE0 = false ∧
  Z.land (192 + a) 0xE0 =? 0xC0 = true ∧ Z.land (192 + a) 0x0F = a.
Proof. revert a. apply forall_below. by repeat constructor. Qed.
Lemma lead3_fits a :
  0 ≤ a < 8 → Z.land (224 + a) 0xF8 =? 0xF0 = false ∧ Z.land (224 + a) 0xF0 =? 0xE0 = true ∧
  Z.land (224 + a) 0x07 = a.
Proof. revert a. apply forall_below. by repeat constructor. Qed.
Lemma lead4_fits a :
  0 ≤ a < 4 → Z.land (240 + a) 0xF8 =? 0xF0 = true ∧ Z.land (240 + a) 0x03 = a.
Proof. revert a. apply forall_below. by repeat constructor. Qed.

Lemma store_app l x r v : store (l ++ x :: r) (length l) v = Done (l ++ v :: r).
Proof.
  rewrite store_ok by (rewrite length_app; simpl; lia). f_equal.
  by rewrite <- (Nat.add_0_r (length l)), insert_app_r.
Qed.

(** One character: its units go to the buffer and both positions move on. *)
Lemma utf8_to_utf16_char fuel l us r sz c s :
  lead_fits c → length us = length (utf16_spec c) → (length l + length us < sz)%nat →
  utf8_to_utf16_loop (S fuel) (l ++ us ++ r) (length l) sz (utf8_spec c ++ s) =
  utf8_to_utf16_loop fuel ((l ++ utf16_spec c) ++ r) (length (l ++ utf16_spec c)) sz s.
Proof.
  intros Hc Hus Hsz. unfold lead_fits in Hc. rewrite length_app.
  pose proof (Z.mod_pos_bound c 64 ltac:(lia)). pose proof (Z.div_mod c 64 ltac:(lia)).
  pose proof (Z.mod_pos_bound (c / 64) 64 ltac:(lia)). pose proof (Z.div_mod (c / 64) 64 ltac:(lia)).
  pose proof (Z.mod_pos_bound (c / 4096) 64 ltac:(lia)). pose proof (Z.div_mod (c / 4096) 64 ltac:(lia)).
  assert (c / 64 / 64 = c / 4096) as E2 by (rewrite Z.div_div; [done|lia|lia]).
  assert (c / 4096 / 64 = c / 262144) as E3 by (rewrite Z.div_div; [done|lia|lia]).
  rewrite E2, E3 in *. unfold utf8_spec, utf16_spec in *. cbn [utf8_to_utf16_loop].
  assert (c < 0x10000 → ∃ x, us = [x]) as Hone.
  { intros Hlt. rewrite (proj2 (Z.ltb_lt _ _) Hlt) in Hus. destruct us as [|x [|]]; try done. eauto. }
  destruct (Z.ltb_spec c 0x10000) as [Hlt|Hge].
  - destruct (Hone Hlt) as [x ->]. simpl length in *.
    destruct (Z.ltb_spec c 0x80); [|destruct (Z.ltb_spec c 0x800)]; cbn [app peek obind tail].
    + destruct (lead1_ascii c) as (-> & -> & -> & ->); [lia|]. rewrite (proj2 (Z.eqb_neq c 0)) by lia.
      cbn [negb]. rewrite decide_True by lia. rewrite store_app. cbn [obind]. by rewrite <- app_assoc.
    + destruct (lead2_fits (c / 64)) as (-> & -> & -> & ->); [lia|].
      rewrite (proj2 (Z.eqb_neq (192 + c / 64) 0)), take_conts_ok by lia. cbn [take_conts obind].
      replace (c / 64 * 64 + c mod 64) with c by lia.
      rewrite (proj2 (Z.leb_gt 0xD800 c)), (proj2 (Z.eqb_neq c 0)), (proj2 (Z.ltb_lt c 0x10000)) by lia.
      cbn [andb]. rewrite decide_False, u16_small, store_app by lia. cbn [obind]. by rewrite <- app_assoc.
    + destruct (lead3_fits (c / 4096)) as (-> & -> & ->); [lia|].
      rewrite (proj2 (Z.eqb_neq (224 + c / 4096) 0)), !take_conts_ok by lia. cbn [take_conts obind].
      replace ((c / 4096 * 64 + (c / 64) mod 64) * 64 + c mod 64) with c by lia.
      rewrite (proj2 (Z.leb_gt 0xD800 c)), (proj2 (Z.eqb_neq c 0)), (proj2 (Z.ltb_lt c 0x10000)) by lia.
      cbn [andb]. rewrite decide_False, u16_small, store_app by lia. cbn [obind]. by rewrite <- app_assoc.
  - rewrite (proj2 (Z.ltb_ge c 0x80)), (proj2 (Z.ltb_ge c 0x800)) by lia.
    destruct us as [|x [|y [|]]]; try done. simpl length in *. cbn [app peek obind tail].
    destruct (lead4_fits (c / 262144)) as (-> & ->); [lia|].
    rewrite (proj2 (Z.eqb_neq (240 + c / 262144) 0)), !take_conts_ok by lia. cbn [take_conts obind].
    replace (((c / 262144 * 64 + (c / 4096) mod 64) * 64 + (c / 64) mod 64) * 64 + c mod 64) with c by lia.
    rewrite (proj2 (Z.ltb_ge c 0xE000)), (proj2 (Z.eqb_neq c 0)), (proj2 (Z.ltb_ge c 0x10000)) by lia.
    rewrite andb_false_r, !decide_False by lia. rewrite store_app. cbn [obind].
    assert (0 ≤ (c - 65536) / 1024 < 1024) as Hd
      by (split; [apply Z.div_pos; lia|apply Z.div_lt_upper_bound; lia]).
    pose proof (Z.mod_pos_bound (c - 65536) 1024 ltac:(lia)).
    rewrite Z.shiftr_div_pow2, !(land_low_mask 10) by lia. change (2 ^ 10) with 1024.
    rewrite (Z.mod_small ((c - 65536) / 1024)), !u16_small by lia.
    pose proof (store_app (l ++ [55296 + (c - 65536) / 1024]) y r (56320 + (c - 65536) mod 1024)) as Hst.
    rewrite length_app, <- !app_assoc in Hst. simpl in Hst. rewrite Hst. cbn [obind]. by rewrite <- app_assoc.
Qed.

Definition utf16_string (cs : list Z) : list Z := concat (utf16_spec <$> cs).

Lemma utf8_to_utf16_loop_exact cs fuel l us z r sz q :
  Forall lead_fits cs → (length cs < fuel)%nat → length us = length (utf16_string cs) →
  (length l + length us < sz)%nat →
  utf8_to_utf16_loop fuel (l ++ us ++ z :: r) (length l) sz (utf8_string cs ++ 0 :: q) =
  Done (Z.of_nat (length l + length us), l ++ utf16_string cs ++ 0 :: r).
Proof.
  intros Hcs. revert fuel l us. induction Hcs as [|c cs Hc _ IH]; intros [|fuel] l us Hf Hus Hsz; simpl in Hf; try lia.
  - destruct us; [|done]. cbn [utf8_to_utf16_loop utf8_string concat fmap list_fmap app peek obind].
    simpl length in *. rewrite Nat.add_0_r in *. cbn [Z.eqb]. rewrite decide_False by lia.
    rewrite store_app. done.
  - unfold utf8_string, utf16_string in *. cbn [fmap list_fmap concat] in *.
    rewrite length_app in Hus. set (k := length (utf16_spec c)) in *.
    rewrite <- (take_drop k us), <- !app_assoc.
    assert (length (take k us) = k) as Hk by (rewrite length_take; lia).
    rewrite utf8_to_utf16_char; [|done|done|lia].
    rewrite (IH fuel (l ++ utf16_spec c) (drop k us)); [|lia|rewrite length_drop; lia|].
    + rewrite <- !app_assoc, !length_app, length_drop. fold k. do 3 f_equal. lia.
    + rewrite length_app, length_drop. fold k. lia.
Qed.

(** On text of such code points utf8_to_utf16 gives its UTF-16 encoding,
    null-terminated, and leaves the rest of the buffer alone. *)
Theorem utf8_to_utf16_exact cs buf sz q :
  Forall lead_fits cs → (length (utf16_string cs) < sz ≤ length buf)%nat →
  utf8_to_utf16 buf sz (utf8_string cs ++ 0 :: q) =
  Done (Z.of_nat (length (utf16_string cs)),
        utf16_string cs ++ 0 :: drop (S (length (utf16_string cs))) buf).
Proof.
  intros Hcs Hsz. unfold utf8_to_utf16. set (n := length (utf16_string cs)) in *.
  destruct (lookup_lt_is_Some_2 buf n) as [z Hz]; [lia|].
  assert (length (take n buf) = n) as Hn by (rewrite length_take; lia).
  rewrite <- (take_drop_middle buf n z Hz) at 1.
  pose proof (utf8_to_utf16_loop_exact cs (S (length (utf8_string cs ++ 0 :: q))) [] (take n buf) z
                (drop (S n) buf) sz q Hcs) as Hrun.
  rewrite !app_nil_l, Hn in Hrun. apply Hrun; [|done|].
  - enough (length cs ≤ length (utf8_string cs))%nat by (rewrite length_app; simpl; lia).
    clear. unfold utf8_string. induction cs as [|c cs IH]; simpl; [lia|].
    rewrite length_app. pose proof (utf8_spec_length c). unfold fmap in IH. lia.
  - simpl. lia.
Qed.

(** ** Where the code departs from the encodings *)

(** U+0400 in UTF-8 is D0 80; its first byte is masked to nothing and the
    conversion is refused. *)
Lemma utf8_to_utf16_rejects_cyrillic :
  utf8_spec 0x400 = [0xD0; 0x80] ∧
  utf8_to_utf16 [7; 7; 7; 7] 4 (utf8_spec 0x400 ++ [0]) = Done (0, [7; 7; 7; 7]).
Proof. by split. Qed.

(** U+0430 is converted to U+0030. *)
Lemma utf8_to_utf16_wrong_letter :
  utf8_to_utf16 [7; 7; 7; 7] 4 (utf8_spec 0x430 ++ [0]) = Done (1, [0x30; 0; 7; 7]).
Proof. done. Qed.

(** Utf16_to_ucs4 does not move past an unpaired surrogate, so utf16_count
    never ends on one, however long it runs. *)
Theorem utf16_count_diverges fuel s count :
  utf16_count fuel (0xD800 :: 0 :: s) count = Fault OutOfFuel.
Proof. revert count. induction fuel as [|fuel IH]; intros count; [done|]. cbn. apply IH. Qed.

(** utf16_to_utf8 checks room for the character but also stores a null after
    it: with a buffer of exactly the size it was given it writes outside. *)
Lemma utf16_to_utf8_overruns :
  utf16_to_utf8 [9] 1 [0x41; 0] 1 = Fault OutOfRange ∧
  utf16_to_utf8 [9; 9] 1 [0x41; 0] 1 = Done (1%nat, 1%nat, [0x41; 0]).
Proof. by split. Qed.

(** utf8_to_ucs4 moves past a null byte, although its comment says not. *)
Lemma utf8_to_ucs4_passes_null s : utf8_to_ucs4 (0 :: s) = Done (0, s).
Proof. done. Qed.

(** *** Witnesses *)

Lemma utf8_roundtrip_witness :
  ∃ bs, ucs4_to_utf8 0x1F600 = (Z.of_nat (length bs), bs ++ [0]) ∧ bs = utf8_spec 0x1F600 ∧
        utf8_to_ucs4_upd (bs ++ [65; 0]) = Done (0x1F600, [65; 0]).
Proof. apply (utf8_roundtrip 0x1F600 [65; 0]). lia. Defined.

Lemma utf8_count_total_witness :
  ∃ n, utf8_count ([0xF0; 0x41; 0xFF] ++ 0 :: [1]) = Done n ∧ 0 ≤ n ≤ 3.
Proof. apply (utf8_count_total [0xF0; 0x41; 0xFF] [1]). by repeat constructor. Defined.

Lemma utf8_count_encoded_witness :
  utf8_count (utf8_string [0x41; 0x3B1; 0x20AC; 0x1F600] ++ 0 :: []) = Done 4.
Proof. apply (utf8_count_encoded [0x41; 0x3B1; 0x20AC; 0x1F600] []). repeat constructor. Defined.

Lemma ucs4_to_utf16_witness :
  ucs4_to_utf16 0x1F600 = (2, [0xD83D; 0xDE00; 0]).
Proof. apply (ucs4_to_utf16_correct 0x1F600). right. lia. Defined.

Lemma utf16_decode_offset_witness :
  utf16_to_ucs4 ([0xD83D; 0xDE00] ++ [0]) = Done (0xF600, [0]).
Proof. apply (utf16_decode_offset 0x1F600 [0]). right. lia. Defined.

Lemma utf8_to_utf16_bounds_witness :
  ∃ r buf', utf8_to_utf16 [7; 7; 7] 2 ([0x41; 0xF0; 0x41] ++ 0 :: []) = Done (r, buf') ∧
    length buf' = 3%nat ∧ (∀ i, (2 ≤ i)%nat → buf' !! i = [7; 7; 7] !! i) ∧ 0 ≤ r ∧ (r = 0 ∨ r < 2).
Proof. apply (utf8_to_utf16_bounds [7; 7; 7] 2 [0x41; 0xF0; 0x41] []); [by repeat constructor|simpl; lia]. Defined.

Lemma utf8_to_utf16_exact_witness :
  utf8_to_utf16 [7; 7; 7; 7; 7] 5 (utf8_string [0x41; 0xE9; 0x1F600] ++ 0 :: []) =
  Done (4, [0x41; 0xE9; 0xD83D; 0xDE00; 0]).
Proof.
  apply (utf8_to_utf16_exact [0x41; 0xE9; 0x1F600] [7; 7; 7; 7; 7] 5 []).
  - repeat constructor; unfold lead_fits; lia.
  - cbn. lia.
Defined.
