(* ===== verification/BitSearch.v ===== *)
(** * kernel/lib/bitsearch.h: bit searches by operand width

    The compiler's builtins on unsigned patterns, and the overloads that
    convert an operand of 1, 2, 4 or 8 bytes before calling them.  A builtin
    whose result is undefined (a search of 0) is [None]. *)

From stdpp Require Import base tactics list numbers option.
From S2P Require Import Prelude.

#[local] Open Scope Z_scope.

(** ** The builtins *)

Fixpoint ctz_pos (p : positive) : Z :=
  match p with xO p => 1 + ctz_pos p | _ => 0 end.
Fixpoint popcount_pos (p : positive) : Z :=
  match p with xO p => popcount_pos p | xI p => 1 + popcount_pos p | xH => 1 end.

(** __builtin_ctz, __builtin_clz (at width [w]), __builtin_popcount *)
Definition builtin_ctz (n : Z) : option Z :=
  match n with Zpos p => Some (ctz_pos p) | _ => None end.
Definition builtin_clz (w n : Z) : option Z :=
  match n with Zpos p => Some (w - 1 - Z.log2 n) | _ => None end.
Definition builtin_popcount (n : Z) : Z :=
  match n with Zpos p => popcount_pos p | _ => 0 end.

(** ** The functions of the two widths.  The argument is a signed value,
    which the call of the builtin converts to unsigned. *)

Definition bit_lsb_set_64 (n : Z) : option Z := u8 <$> builtin_ctz (u64 n).
Definition bit_lsb_set_32 (n : Z) : option Z := u8 <$> builtin_ctz (u32 n).
Definition bit_msb_set_64 (n : Z) : option Z := (λ c, u8 (63 - c)) <$> builtin_clz 64 (u64 n).
Definition bit_msb_set_32 (n : Z) : option Z := (λ c, u8 (31 - c)) <$> builtin_clz 32 (u32 n).
Definition bit_clz_64 (n : Z) : option Z := u8 <$> builtin_clz 64 (u64 n).
Definition bit_clz_32 (n : Z) : option Z := u8 <$> builtin_clz 32 (u32 n).
Definition bit_popcnt_64 (n : Z) : Z := u8 (builtin_popcount (u64 n)).
Definition bit_popcnt_32 (n : Z) : Z := u8 (builtin_popcount (u32 n)).

(** top + !!(~(~0 << top) & n) *)
Definition bit_log2_n_64 (n : Z) : option Z :=
  top ← bit_msb_set_64 n;
  let rest := Z.land (u64 (Z.lnot (u64 (Z.shiftl (u64 (Z.lnot 0)) top)))) (u64 n) in
  Some (u8 (top + (if rest =? 0 then 0 else 1))).
Definition bit_log2_n_32 (n : Z) : option Z :=
  top ← bit_msb_set_32 n;
  let rest := Z.land (u32 (Z.lnot (u32 (Z.shiftl (u32 (Z.lnot 0)) top)))) (u32 n) in
  Some (u8 (top + (if rest =? 0 then 0 else 1))).

(** ** Dispatch on sizeof(T) *)

Inductive width := W8 | W16 | W32 | W64.

Definition bit_lsb_set (w : width) (n : Z) : option Z :=
  match w with
  | W64 => bit_lsb_set_64 (s64 n)
  | W32 => bit_lsb_set_32 (s32 n)
  | W16 => bit_lsb_set_32 (s32 (u16 n))
  | W8 => bit_lsb_set_32 (s32 (u8 n))
  end.

Definition bit_msb_set (w : width) (n : Z) : option Z :=
  match w with
  | W64 => bit_msb_set_64 (s64 n)
  | W32 => bit_msb_set_32 (s32 n)
  | W16 => bit_msb_set_32 (s32 (u16 n))
  | W8 => bit_msb_set_32 (s32 (u8 n))
  end.

(** The assertion fails for 0 before the search is made *)
Definition bit_log2 (w : width) (n : Z) : option Z :=
  if n =? 0 then None
  else match w with
       | W64 => bit_log2_n_64 (s64 n)
       | W32 => bit_log2_n_32 (s32 n)
       | W16 => bit_log2_n_32 (s32 (u16 n))
       | W8 => bit_log2_n_32 (s32 (u8 n))
       end.

Definition bit_popcnt (w : width) (n : Z) : Z :=
  match w with
  | W64 => bit_popcnt_64 (s64 n)
  | W32 => bit_popcnt_32 (s32 n)
  | W16 => bit_popcnt_32 (s32 (u16 n))
  | W8 => bit_popcnt_32 (s32 (u8 n))
  end.

(** bitmap_tree_impl_t<D>::capacity: [1 << (depth * 6)] on int *)
Definition bitmap_tree_capacity (depth : Z) : Z := Z.shiftl 1 (depth * 6).

Fixpoint bitmap_tree_depth_loop (fuel : nat) (d c n : Z) : Z :=
  match fuel with
  | O => 0
  | S fuel =>
      if d <? 6 then
        if n <=? c then d else bitmap_tree_depth_loop fuel (d + 1) (u64 (Z.shiftl c 6)) n
      else 0
  end.
Definition bitmap_tree_depth (n : Z) : Z := bitmap_tree_depth_loop 6 1 64 n.

(** ** Facts *)

(** The bits of the operand, whatever its signedness *)
Definition pattern (w : width) (n : Z) : Z :=
  match w with W8 => u8 n | W16 => u16 n | W32 => u32 n | W64 => u64 n end.

Lemma swrap_mod w z : 0 < w → swrap w z mod 2 ^ w = z mod 2 ^ w.
Proof.
  intros Hw. unfold swrap. rewrite Zminus_mod_idemp_l. f_equal. lia.
Qed.

Lemma u64_s64 n : u64 (s64 n) = u64 n.
Proof. by apply swrap_mod. Qed.
Lemma u32_s32 n : u32 (s32 n) = u32 n.
Proof. by apply swrap_mod. Qed.
Lemma u32_u16 n : u32 (u16 n) = u16 n.
Proof. apply Z.mod_small. pose proof (Z.mod_pos_bound n (2 ^ 16)). unfold u16. lia. Qed.
Lemma u32_u8 n : u32 (u8 n) = u8 n.
Proof. apply Z.mod_small. pose proof (Z.mod_pos_bound n (2 ^ 8)). unfold u8. lia. Qed.

Lemma pattern_range w n : 0 ≤ pattern w n < 2 ^ 64.
Proof.
  destruct w; simpl; unfold u8, u16, u32, u64.
  - pose proof (Z.mod_pos_bound n (2 ^ 8)). lia.
  - pose proof (Z.mod_pos_bound n (2 ^ 16)). lia.
  - pose proof (Z.mod_pos_bound n (2 ^ 32)). lia.
  - pose proof (Z.mod_pos_bound n (2 ^ 64)). lia.
Qed.

Lemma ctz_pos_spec p :
  0 ≤ ctz_pos p ≤ Z.log2 (Zpos p) ∧ Z.testbit (Zpos p) (ctz_pos p) = true
  ∧ ∀ j, 0 ≤ j < ctz_pos p → Z.testbit (Zpos p) j = false.
Proof.
  induction p as [p IH|p IH|]; simpl ctz_pos.
  - split; [split; [lia|apply Z.log2_nonneg]|]. split; [done|]. lia.
  - destruct IH as (Hr & Hb & Hl). change (Zpos p~0) with (2 * Zpos p).
    rewrite Z.log2_double by lia. split; [lia|]. split.
    + replace (1 + ctz_pos p) with (Z.succ (ctz_pos p)) by lia. rewrite Z.testbit_even_succ by lia. done.
    + intros j Hj. destruct (decide (j = 0)) as [->|Hne]; [apply Z.testbit_even_0|].
      replace j with (Z.succ (j - 1)) by lia. rewrite Z.testbit_even_succ by lia. apply Hl. lia.
  - split; [done|]. split; [done|]. lia.
Qed.

Lemma log2_small n w : 0 < n < 2 ^ w → 0 < w → 0 ≤ Z.log2 n < w.
Proof. intros Hn Hw. split; [apply Z.log2_nonneg|]. apply Z.log2_lt_pow2; lia. Qed.

Lemma builtin_ctz_spec n :
  0 < n < 2 ^ 64 → ∃ i, builtin_ctz n = Some i ∧ u8 i = i ∧ 0 ≤ i < 64 ∧ Z.testbit n i = true
    ∧ ∀ j, 0 ≤ j < i → Z.testbit n j = false.
Proof.
  intros Hn. destruct n as [|p|p]; [lia| |lia]. destruct (ctz_pos_spec p) as (Hr & Hb & Hl).
  pose proof (log2_small _ _ Hn ltac:(lia)). exists (ctz_pos p). split; [done|].
  split; [apply u8_small; lia|]. split; [lia|]. done.
Qed.

Lemma builtin_clz_spec w n :
  0 < n → builtin_clz w n = Some (w - 1 - Z.log2 n).
Proof. by destruct n. Qed.

#[export] Hint Rewrite u64_s64 u32_u16 u32_u8 u32_s32 : machine.

(** The overloads all search the pattern of the operand *)
Lemma bit_lsb_set_pattern w n : bit_lsb_set w n = u8 <$> builtin_ctz (pattern w n).
Proof.
  destruct w; simpl; unfold bit_lsb_set_32, bit_lsb_set_64; by autorewrite with machine.
Qed.

Lemma bit_lsb_set_spec w n :
  pattern w n ≠ 0 → ∃ i, bit_lsb_set w n = Some i ∧ 0 ≤ i < 64 ∧ Z.testbit (pattern w n) i = true
    ∧ ∀ j, 0 ≤ j < i → Z.testbit (pattern w n) j = false.
Proof.
  intros Hn. pose proof (pattern_range w n). rewrite bit_lsb_set_pattern.
  destruct (builtin_ctz_spec (pattern w n)) as (i & -> & Hu & Hi); [lia|].
  exists i. simpl. by rewrite Hu.
Qed.

Lemma msb_set_64 n : u64 n ≠ 0 → bit_msb_set_64 n = Some (Z.log2 (u64 n)).
Proof.
  intros Hn. pose proof (u64_range n). unfold bit_msb_set_64. rewrite builtin_clz_spec by lia.
  simpl. pose proof (log2_small (u64 n) 64). f_equal. rewrite u8_small; lia.
Qed.

Lemma msb_set_32 n : u32 n ≠ 0 → bit_msb_set_32 n = Some (Z.log2 (u32 n)).
Proof.
  intros Hn. pose proof (u32_range n). unfold bit_msb_set_32. rewrite builtin_clz_spec by lia.
  simpl. pose proof (log2_small (u32 n) 32). f_equal. rewrite u8_small; lia.
Qed.

(** ~(~0 << top) is the mask of the bits below [top] *)
Lemma low_mask w top :
  0 ≤ top < w → (Z.lnot ((Z.shiftl ((Z.lnot 0) mod 2 ^ w) top) mod 2 ^ w)) mod 2 ^ w = Z.ones top.
Proof.
  intros Hw. apply Z.bits_inj'. intros i Hi. rewrite Z.testbit_ones_nonneg by lia.
  destruct (Z.ltb_spec i w) as [Hlt|Hge].
  - rewrite Z.mod_pow2_bits_low, Z.lnot_spec, Z.mod_pow2_bits_low by lia.
    destruct (Z.ltb_spec i top).
    + by rewrite Z.shiftl_spec_low.
    + rewrite Z.shiftl_spec, Z.mod_pow2_bits_low by lia. by rewrite Z.lnot_spec, Z.bits_0 by lia.
  - rewrite Z.mod_pow2_bits_high by lia. destruct (Z.ltb_spec i top); [lia|done].
Qed.

Lemma low_mask_64 top : 0 ≤ top < 64 → u64 (Z.lnot (u64 (Z.shiftl (u64 (Z.lnot 0)) top))) = Z.ones top.
Proof. apply (low_mask 64). Qed.
Lemma low_mask_32 top : 0 ≤ top < 32 → u32 (Z.lnot (u32 (Z.shiftl (u32 (Z.lnot 0)) top))) = Z.ones top.
Proof. apply (low_mask 32). Qed.

Lemma log2_up_rest n :
  0 < n → Z.log2 n + (if Z.land (Z.ones (Z.log2 n)) n =? 0 then 0 else 1) = Z.log2_up n.
Proof.
  intros Hn. pose proof (Z.log2_nonneg n) as H0. pose proof (Z.log2_spec n Hn) as [Hlo Hhi].
  rewrite Z.land_comm, Z.land_ones by lia. destruct (Z.eqb_spec (n mod 2 ^ Z.log2 n) 0) as [He|He].
  - assert (n = 2 ^ Z.log2 n) as Heq.
    { rewrite Z.pow_succ_r in Hhi by lia.
      pose proof (Z.div_mod n (2 ^ Z.log2 n) ltac:(lia)).
      assert (1 ≤ n / 2 ^ Z.log2 n) by (apply Z.div_le_lower_bound; lia).
      assert (n / 2 ^ Z.log2 n < 2) by (apply Z.div_lt_upper_bound; lia).
      nia. }
    rewrite Heq at 2. rewrite Z.log2_up_pow2 by lia. lia.
  - symmetry. apply Z.log2_up_unique; [lia|].
    replace (Z.pred (Z.log2 n + 1)) with (Z.log2 n) by lia. split; [|lia].
    destruct (decide (n = 2 ^ Z.log2 n)) as [Heq|]; [|lia].
    exfalso. apply He. rewrite Heq at 1. apply Z.mod_same. lia.
Qed.

Lemma log2_n_64 n : u64 n ≠ 0 → bit_log2_n_64 n = Some (Z.log2_up (u64 n)).
Proof.
  intros Hn. pose proof (u64_range n) as Hr. unfold bit_log2_n_64. rewrite msb_set_64 by done. cbn [mbind option_bind].
  pose proof (log2_small (u64 n) 64 ltac:(lia) ltac:(lia)) as Hl. cbv zeta.
  rewrite low_mask_64 by lia. f_equal. rewrite <- log2_up_rest by lia. apply u8_small.
  destruct (_ =? 0); lia.
Qed.

Lemma log2_n_32 n : u32 n ≠ 0 → bit_log2_n_32 n = Some (Z.log2_up (u32 n)).
Proof.
  intros Hn. pose proof (u32_range n) as Hr. unfold bit_log2_n_32. rewrite msb_set_32 by done. cbn [mbind option_bind].
  pose proof (log2_small (u32 n) 32 ltac:(lia) ltac:(lia)) as Hl. cbv zeta.
  rewrite low_mask_32 by lia. f_equal. rewrite <- log2_up_rest by lia. apply u8_small.
  destruct (_ =? 0); lia.
Qed.

(** For an operand of any of the four widths that is not 0, bit_lsb_set is
    its lowest set bit, bit_msb_set its highest and bit_log2 the logarithm
    to base 2 rounded up, all of the operand's unsigned pattern. *)
Theorem bit_search_correct w n :
  pattern w n ≠ 0 → n ≠ 0 →
  (∃ i, bit_lsb_set w n = Some i ∧ Z.testbit (pattern w n) i = true
        ∧ ∀ j, 0 ≤ j < i → Z.testbit (pattern w n) j = false)
  ∧ bit_msb_set w n = Some (Z.log2 (pattern w n))
  ∧ bit_log2 w n = Some (Z.log2_up (pattern w n)).
Proof.
  intros Hp Hn. split; [|split].
  - destruct (bit_lsb_set_spec w n Hp) as (i & ? & _ & ? & ?). by exists i.
  - destruct w; simpl in *; rewrite ?msb_set_64, ?msb_set_32; by autorewrite with machine.
  - unfold bit_log2. apply Z.eqb_neq in Hn as ->.
    destruct w; simpl in *; rewrite ?log2_n_64, ?log2_n_32; by autorewrite with machine.
Qed.

Lemma bit_search_witness :
  bit_lsb_set W16 (-4) = Some 2 ∧ bit_msb_set W16 (-4) = Some 15 ∧ bit_log2 W16 (-4) = Some 16.
Proof.
  destruct (bit_search_correct W16 (-4)) as ((i & Hi & Hb & Hl) & H2 & H3); [vm_compute; done|done|].
  split; [vm_compute; reflexivity|]. by rewrite H2, H3.
Defined.

(** bitmap_tree_depth is the least depth of a tree of 64-way words with room
    for [n] entries, and 0 beyond what five levels hold. *)
Lemma bitmap_tree_depth_correct n :
  0 ≤ n < 2 ^ 64 →
  (n ≤ 2 ^ 30 → 1 ≤ bitmap_tree_depth n ≤ 5 ∧ n ≤ 64 ^ bitmap_tree_depth n
                ∧ ∀ d, 1 ≤ d < bitmap_tree_depth n → 64 ^ d < n)
  ∧ (2 ^ 30 < n → bitmap_tree_depth n = 0).
Proof.
  intros Hn.
  assert (bitmap_tree_depth n = if n <=? 64 then 1 else if n <=? 4096 then 2
          else if n <=? 262144 then 3 else if n <=? 16777216 then 4
          else if n <=? 1073741824 then 5 else 0) as -> by reflexivity.
  destruct (Z.leb_spec n 64); [|destruct (Z.leb_spec n 4096); [|destruct (Z.leb_spec n 262144);
    [|destruct (Z.leb_spec n 16777216); [|destruct (Z.leb_spec n 1073741824)]]]].
  all: split; [intros Hle|intros Hlt]; try lia.
  all: split; [lia|]; split; [lia|]; intros d Hd; try lia.
  all: assert (d = 1 ∨ d = 2 ∨ d = 3 ∨ d = 4) as [->|[->|[->| ->]]] by lia; lia.
Qed.
