(* ===== verification/KernelHeap.v ===== *)
(** * kernel/lib/heap.cc: the kernel's heap

    Blocks of 2^5 to 2^16 bytes are slots of 64KB arenas, kept in one chain
    of free blocks per size; larger ones are mapped on their own.  Arenas
    come from a reserve that is filled by one large mapping at a time.  Each
    block begins with a header: [hdrs] is the memory the headers are in, by
    address.  The virtual memory, mmap and munmap, is a parameter.  Payload
    bytes are not modelled, nor the patterns they are filled with under
    HEAP_DEBUG. *)

From stdpp Require Import base tactics list numbers option.
From S2P Require Import Prelude BitSearch.

#[local] Open Scope Z_scope.

(** struct heap_hdr_t *)
Record heap_hdr_t := Hdr { size_next : Z; sig1 : Z; heap_id : Z }.
Definition HDR_SIZE : Z := 16.
Definition HEAP_BLK_TYPE_USED : Z := 0xeda10ca1.
Definition HEAP_BLK_TYPE_FREE : Z := 0x0cb1eefe.
Definition HEAP_1ST_BUCKET : Z := 5.
Definition HEAP_BUCKET_COUNT : Z := 12.
Definition HEAP_BUCKET_SIZE : Z := 2 ^ (HEAP_BUCKET_COUNT + HEAP_1ST_BUCKET - 1).
Definition PAGESIZE : Z := 4096.
(** countof(arenas), in the heap and in an overflow page *)
Definition HEAP_MAX_ARENAS : nat := 245.
Definition EXT_MAX_ARENAS : nat := 255.

(** struct heap_page_t *)
Record heap_page_t := Arena { mem : Z; slot_size : Z }.
(** struct heap_ext_arena_t: the page it is in, and its entries; [prev] is the
    next in the list *)
Record heap_ext_arena_t := Ext { ext_page : Z; ext_arenas : list heap_page_t }.

(** mmap and munmap *)
Definition MAP_FAILED : Z := u64 (-1).
Class Vm (V : Type) := {
  vm_mmap : Z → V → Z * V;
  vm_munmap : Z → Z → V → V
}.

(** class heapimpl_t.  Null pointers are 0. *)
Record heapimpl_t (V : Type) := Heap {
  hdrs : Z → heap_hdr_t;
  free_chains : list Z;
  arenas : list heap_page_t;
  exts : list heap_ext_arena_t;     (* last_ext_arena first *)
  reserve : Z;
  reserve_cells : list Z;           (* what [reserve] points to *)
  reserve_count : nat;
  reserve_capacity : nat;
  id : Z;
  vm : V
}.
Arguments Heap {V} _ _ _ _ _ _ _ _ _ _.
Arguments hdrs {V} _ _.
Arguments free_chains {V} _.
Arguments arenas {V} _.
Arguments exts {V} _.
Arguments reserve {V} _.
Arguments reserve_cells {V} _.
Arguments reserve_count {V} _.
Arguments reserve_capacity {V} _.
Arguments id {V} _.
Arguments vm {V} _.

Section ops.
Context {V : Type} `{Vm V}.
Abbreviation KH := (M (heapimpl_t V)).
Implicit Types s : heapimpl_t V.

Definition set_hdrs (h : Z → heap_hdr_t) s : heapimpl_t V :=
  Heap h (free_chains s) (arenas s) (exts s) (reserve s) (reserve_cells s) (reserve_count s) (reserve_capacity s) (id s) (vm s).
Definition set_chains (c : list Z) s : heapimpl_t V :=
  Heap (hdrs s) c (arenas s) (exts s) (reserve s) (reserve_cells s) (reserve_count s) (reserve_capacity s) (id s) (vm s).
Definition set_arenas (a : list heap_page_t) (e : list heap_ext_arena_t) s : heapimpl_t V :=
  Heap (hdrs s) (free_chains s) a e (reserve s) (reserve_cells s) (reserve_count s) (reserve_capacity s) (id s) (vm s).
Definition set_reserve (p : Z) (cells : list Z) (count capacity : nat) s : heapimpl_t V :=
  Heap (hdrs s) (free_chains s) (arenas s) (exts s) p cells count capacity (id s) (vm s).
Definition set_vm (v : V) s : heapimpl_t V :=
  Heap (hdrs s) (free_chains s) (arenas s) (exts s) (reserve s) (reserve_cells s) (reserve_count s) (reserve_capacity s) (id s) v.

Definition kassert (b : bool) : KH unit := if b then mret tt else throw AssertFailed.

Definition mmap (size : Z) : KH Z := λ s,
  let '(p, v) := vm_mmap size (vm s) in Done (p, set_vm v s).
Definition munmap (p size : Z) : KH unit := modify (λ s, set_vm (vm_munmap p size (vm s)) s).

(** hdr->field, through a pointer that may be null *)
Definition load_hdr (p : Z) : KH heap_hdr_t := if p =? 0 then throw OutOfRange else gets (λ s, hdrs s p).
Definition put_hdr (p : Z) (h : heap_hdr_t) s : heapimpl_t V := set_hdrs (λ a, if a =? p then h else hdrs s a) s.
Definition store_hdr (p : Z) (h : heap_hdr_t) : KH unit :=
  if p =? 0 then throw OutOfRange else modify (put_hdr p h).

Definition chain (bucket : nat) : KH Z := λ s,
  match free_chains s !! bucket with Some p => Done (p, s) | None => Fault OutOfRange end.
Definition set_chain (bucket : nat) (p : Z) : KH unit := λ s,
  if decide (bucket < length (free_chains s))%nat
  then Done (tt, set_chains (<[bucket := p]> (free_chains s)) s) else Fault OutOfRange.

(** reserve[i] and reserve[i] = p *)
Definition load_cell (i : nat) : KH Z := λ s,
  match reserve_cells s !! i with Some p => Done (p, s) | None => Fault OutOfRange end.
Definition store_cell (i : nat) (p : Z) : KH unit := λ s,
  if decide (i < length (reserve_cells s))%nat
  then Done (tt, set_reserve (reserve s) (<[i := p]> (reserve_cells s)) (reserve_count s) (reserve_capacity s) s)
  else Fault OutOfRange.
Definition set_count (n : nat) : KH unit :=
  modify (λ s, set_reserve (reserve s) (reserve_cells s) n (reserve_capacity s) s).

(** reserve_adj_pool, when it grows: [added] blocks from [block] on *)
Fixpoint pool_add (added : nat) (block : Z) : KH unit :=
  match added with
  | O => mret tt
  | S added =>
      n ← gets reserve_count;
      store_cell n block;;
      set_count (S n);;
      pool_add added (u64 (block + HEAP_BUCKET_SIZE))
  end.

(** and when it shrinks, down to [target] *)
Fixpoint pool_drop (fuel target : nat) : KH unit :=
  n ← gets reserve_count;
  if decide (target < n)%nat then
    match fuel with
    | O => throw OutOfFuel
    | S fuel =>
        set_count (n - 1);;
        p ← load_cell (n - 1);
        munmap p HEAP_BUCKET_SIZE;;
        store_cell (n - 1) 0;;
        pool_drop fuel target
    end
  else mret tt.

Definition reserve_adj_pool (bucket_count : nat) : KH bool :=
  cap ← gets reserve_capacity;
  let bucket_count := Nat.min bucket_count cap in
  n ← gets reserve_count;
  if decide (n < bucket_count)%nat then
    let added := (bucket_count - n)%nat in
    block ← mmap (u64 (Z.of_nat added * HEAP_BUCKET_SIZE));
    if block =? MAP_FAILED then mret false
    else pool_add added block;; mret true
  else pool_drop n bucket_count;; mret true.

Definition reserve_reset (bucket_count : nat) : KH bool :=
  ok ← reserve_adj_pool 0;
  if negb ok then mret false
  else
    r ← gets reserve;
    cap ← gets reserve_capacity;
    n ← gets reserve_count;
    (if negb (r =? 0) then
       munmap r (u64 (Z.of_nat cap * 8));;
       modify (set_reserve 0 [] n 0)
     else mret tt);;
    let reserve_bytes := Z.land (u64 (Z.of_nat bucket_count * 8 + (PAGESIZE - 1))) (u64 (- PAGESIZE)) in
    let count := Z.to_nat (reserve_bytes / 8) in
    set_count count;;
    let reserve_bytes := Z.of_nat count * 8 in
    let block_size := u64 (Z.of_nat count * HEAP_BUCKET_SIZE) in
    block ← mmap (u64 (reserve_bytes + block_size));
    if block =? MAP_FAILED then mret false
    else
      modify (set_reserve block ((λ i, u64 (block + reserve_bytes + HEAP_BUCKET_SIZE * Z.of_nat i)) <$> seq 0 count) count count);;
      mret true.

Definition alloc_arena : KH Z :=
  n ← gets reserve_count;
  cap ← gets reserve_capacity;
  ok ← (if decide (n = 0%nat) then reserve_reset (if decide (cap = 0%nat) then 512 else cap * 2) else mret true);
  if negb ok then mret 0
  else
    n ← gets reserve_count;
    set_count (n - 1);;
    load_cell (n - 1).

(** Where create_arena notes the arena *)
Inductive arena_list := MainList | ExtList.
Definition pick_list : KH (option arena_list) :=
  main ← gets arenas;
  ext ← gets exts;
  if decide (length main < HEAP_MAX_ARENAS)%nat then mret (Some MainList)
  else if match ext with e :: _ => bool_decide (length (ext_arenas e) < EXT_MAX_ARENAS)%nat | [] => false end
  then mret (Some ExtList)
  else
    p ← mmap PAGESIZE;
    if (p =? 0) || (p =? MAP_FAILED) then mret None
    else modify (λ s, set_arenas (arenas s) (Ext p [] :: exts s) s);; mret (Some ExtList).

Definition note_arena (l : arena_list) (a : heap_page_t) : KH unit :=
  modify (λ s, match l with
    | MainList => set_arenas (arenas s ++ [a]) (exts s) s
    | ExtList => match exts s with
                 | e :: rest => set_arenas (arenas s) (Ext (ext_page e) (ext_arenas e ++ [a]) :: rest) s
                 | [] => s
                 end
    end).

(** The loop over the slots, from the last down to the first *)
Fixpoint fill_slots (n : nat) (arena size first_free : Z) : KH Z :=
  match n with
  | O => mret first_free
  | S n =>
      let hdr := arena + Z.of_nat n * size in
      h ← load_hdr hdr;
      store_hdr hdr (Hdr first_free HEAP_BLK_TYPE_FREE (heap_id h));;
      fill_slots n arena size hdr
  end.

(** Before the loop the source tests for MAP_FAILED, which alloc_arena never
    returns; with a null arena the loop writes below every address. *)
Definition create_arena (log2size : Z) : KH Z :=
  kassert (HEAP_1ST_BUCKET <=? log2size);;
  l ← pick_list;
  match l with
  | None => mret 0
  | Some l =>
      let bucket := Z.to_nat (log2size - HEAP_1ST_BUCKET) in
      arena ← alloc_arena;
      if arena =? 0 then throw OutOfRange
      else
        note_arena l (Arena arena log2size);;
        first_free ← chain bucket;
        let size := 2 ^ log2size in
        first_free ← fill_slots (Z.to_nat (HEAP_BUCKET_SIZE / size)) arena size first_free;
        set_chain bucket first_free;;
        mret first_free
  end.

Definition large_alloc (size heap_id : Z) : KH Z :=
  hdr ← mmap size;
  kassert (negb (hdr =? MAP_FAILED));;
  store_hdr hdr (Hdr size HEAP_BLK_TYPE_USED heap_id);;
  mret (hdr + HDR_SIZE).

Definition large_free (hdr size : Z) : KH unit := munmap hdr size.

(** bit_log2 of a size_t, which asserts that it is not 0 *)
Definition log2_of (n : Z) : KH Z := match bit_log2 W64 n with Some l => mret l | None => throw AssertFailed end.

Definition alloc (size : Z) : KH Z :=
  kassert (size <? 2 ^ 36);;
  if size =? 0 then mret 0
  else
    log2size ← log2_of (size + HDR_SIZE);
    let size := 2 ^ log2size in
    kassert (HEAP_1ST_BUCKET <=? log2size);;
    heap ← gets id;
    if HEAP_BUCKET_COUNT <=? log2size - HEAP_1ST_BUCKET then large_alloc size heap
    else
      let bucket := Z.to_nat (log2size - HEAP_1ST_BUCKET) in
      first ← chain bucket;
      first_free ← (if first =? 0 then create_arena log2size else mret first);
      h ← load_hdr first_free;
      set_chain bucket (size_next h);;
      kassert (sig1 h =? HEAP_BLK_TYPE_FREE);;
      store_hdr first_free (Hdr size HEAP_BLK_TYPE_USED heap);;
      mret (first_free + HDR_SIZE).

Definition free (block : Z) : KH unit :=
  if block =? 0 then mret tt
  else
    let hdr := block - HDR_SIZE in
    h ← load_hdr hdr;
    kassert (sig1 h =? HEAP_BLK_TYPE_USED);;
    log2size ← log2_of (size_next h);
    kassert ((HEAP_1ST_BUCKET <=? log2size) && (log2size <? 32));;
    if log2size - HEAP_1ST_BUCKET <? HEAP_BUCKET_COUNT then
      let bucket := Z.to_nat (log2size - HEAP_1ST_BUCKET) in
      first ← chain bucket;
      store_hdr hdr (Hdr first HEAP_BLK_TYPE_FREE (heap_id h));;
      set_chain bucket hdr
    else large_free hdr (size_next h).

(** calloc; the memset goes where alloc returned, for [size] bytes *)
Definition calloc (num size : Z) : KH Z := alloc (u64 (size * num)).

(** realloc, with the copy it makes: destination, source and length *)
Definition realloc (block size : Z) : KH (Z * option (Z * Z * Z)) :=
  if negb (block =? 0) && negb (size =? 0) then
    h ← load_hdr (block - HDR_SIZE);
    kassert (sig1 h =? HEAP_BLK_TYPE_USED);;
    log2size ← log2_of (size_next h);
    newlog2size ← log2_of (u64 (size + HDR_SIZE));
    if newlog2size =? log2size then mret (block, None)
    else
      new_block ← alloc size;
      if new_block =? 0 then mret (0, None)
      else
        h ← load_hdr (block - HDR_SIZE);
        free block;;
        mret (new_block, Some (new_block, block, u64 (size_next h - HDR_SIZE)))
  else if negb (block =? 0) then free block;; mret (0, None)
  else p ← alloc size; mret (p, None).

(** The check of one arena's headers by validate_locked *)
Definition slot_valid (h : heap_hdr_t) : bool := (sig1 h =? HEAP_BLK_TYPE_USED) || (sig1 h =? HEAP_BLK_TYPE_FREE).
Definition arena_valid (hs : Z → heap_hdr_t) (a : heap_page_t) : bool :=
  forallb (λ i, slot_valid (hs (mem a + Z.of_nat i * 2 ^ slot_size a))) (seq 0 (Z.to_nat (HEAP_BUCKET_SIZE / 2 ^ slot_size a))).
Definition validate : KH bool := gets (λ s,
  forallb (λ a, (mem a <? u64 (- HEAP_BUCKET_SIZE)) && arena_valid (hdrs s) a) (arenas s) &&
  forallb (λ e, forallb (arena_valid (hdrs s)) (ext_arenas e)) (exts s)).

Definition in_arena (addr : Z) (a : heap_page_t) : bool :=
  (mem a <=? addr) && (addr <? u64 (mem a + HEAP_BUCKET_SIZE)).
Definition maybe_blk (block : Z) : KH bool := gets (λ s,
  existsb (in_arena block) (arenas s) ||
  (negb (bool_decide (arenas s = [])) && existsb (λ e, existsb (in_arena block) (ext_arenas e)) (exts s))).

(** The constructor's state, with the reserve empty; heap_create then fills
    the reserve. *)
Definition heap_empty (junk : Z → heap_hdr_t) (heap : Z) (v : V) : heapimpl_t V :=
  Heap junk (replicate 12 0) [] [] 0 [] 0 0 heap v.
Definition heap_create (initial_reserve : nat) : KH bool := reserve_reset initial_reserve.

(** The destructor's loop over the overflow pages, as written: the pointer
    moves on before the page is unmapped. *)
Fixpoint destroy_exts (l : list heap_ext_arena_t) : KH unit :=
  match l with
  | [] => mret tt
  | e :: rest =>
      foldr (λ a k, munmap (mem a) HEAP_BUCKET_SIZE;; k) (mret tt) (ext_arenas e);;
      munmap (match rest with e' :: _ => ext_page e' | [] => 0 end) PAGESIZE;;
      destroy_exts rest
  end.
Definition heap_destroy : KH unit :=
  l ← gets exts;
  destroy_exts l;;
  main ← gets arenas;
  foldr (λ a k, munmap (mem a) HEAP_BUCKET_SIZE;; k) (mret tt) main.

(** free_arena, which nothing calls *)
Definition free_arena (arena : Z) : KH unit :=
  n ← gets reserve_count;
  cap ← gets reserve_capacity;
  if decide (n < cap)%nat then store_cell n arena;; set_count (S n) else munmap arena HEAP_BUCKET_SIZE.
End ops.
