(* ===== verification/KernelHeapRep.v ===== *)
(** * The kernel's heap: what its state represents

    [VmLaws] is what the heap relies on of mmap and munmap.  [heap_rep H s]
    says that the heap [s] has exactly the blocks [H] handed out: every slot
    of every arena is one of them or is in the chain of its size, and the
    arenas, the reserve, the overflow pages and the large blocks are mapped
    regions with no byte in common. *)

From stdpp Require Import base tactics list numbers option sets.
From S2P Require Import Prelude Regions BitSearch KernelHeap.

#[local] Open Scope Z_scope.

Lemma bucket_size : HEAP_BUCKET_SIZE = 65536.
Proof. reflexivity. Qed.

(** ** The virtual memory

    [vm_mapped] are the addresses in use, [vm_room] a number of bytes that
    can certainly still be mapped. *)

Definition VM_TOP : Z := 2 ^ 64 - 2 ^ 17.

Class VmLaws (V : Type) `{Vm V} := {
  vm_mapped : V → Z → Prop;
  vm_room : V → Z;
  vm_mmap_new v n p v' : 0 < n → n mod PAGESIZE = 0 → vm_mmap n v = (p, v') → p ≠ MAP_FAILED →
    0 < p ∧ p mod PAGESIZE = 0 ∧ p + n ≤ VM_TOP ∧ (∀ a, p ≤ a < p + n → ¬ vm_mapped v a)
    ∧ (∀ a, vm_mapped v' a ↔ vm_mapped v a ∨ p ≤ a < p + n) ∧ vm_room v - n ≤ vm_room v';
  vm_room_top v : vm_room v ≤ VM_TOP;
  vm_mmap_room v n : 0 < n → n ≤ vm_room v → (vm_mmap n v).1 ≠ MAP_FAILED;
  vm_munmap_only v p n a : vm_mapped (vm_munmap p n v) a ↔ vm_mapped v a ∧ ¬ p ≤ a < p + n;
  vm_munmap_room v p n : vm_room v ≤ vm_room (vm_munmap p n v)
}.

(** ** Mapped regions *)

Section regions.
Context {V : Type} {Hvm : Vm V} {Hlaws : VmLaws V}.

Definition region_ok (v : V) (r : region) : Prop :=
  0 < r.1 ∧ r.1 mod PAGESIZE = 0 ∧ 0 < r.2 ∧ r.1 + r.2 ≤ VM_TOP ∧ ∀ a, r.1 ≤ a < r.1 + r.2 → vm_mapped v a.
Definition regions_ok (v : V) (R : list region) : Prop := pairwise apart R ∧ Forall (region_ok v) R.

#[export] Instance regions_ok_proper v : Proper ((≡ₚ) ==> iff) (regions_ok v).
Proof. intros R R' HR. unfold regions_ok. by rewrite HR. Qed.

Lemma regions_mmap v R n p v' :
  regions_ok v R → 0 < n → n mod PAGESIZE = 0 → vm_mmap n v = (p, v') → p ≠ MAP_FAILED →
  regions_ok v' ((p, n) :: R).
Proof.
  intros [Ha HR] Hn Hpg Hm Hp. destruct (vm_mmap_new _ _ _ _ Hn Hpg Hm Hp) as (Hpos & Hal & Htop & Hnew & Hmap & _).
  split; simpl; [split; [|done]|constructor].
  - eapply Forall_impl; [exact HR|]. intros [q m] (_ & _ & Hm0 & _ & Hin). unfold apart. simpl in *.
    destruct (decide (p + n ≤ q)), (decide (q + m ≤ p)); [tauto..|].
    destruct (Hnew (Z.max p q)); [lia|]. apply Hin. lia.
  - unfold region_ok. simpl. repeat split; try done. intros a Ha'. apply Hmap. tauto.
  - eapply Forall_impl; [exact HR|]. intros r (? & ? & ? & ? & Hin). repeat split; try done.
    intros a Ha'. apply Hmap. auto.
Qed.

Lemma regions_munmap v R p n : regions_ok v ((p, n) :: R) → regions_ok (vm_munmap p n v) R.
Proof.
  intros [[Hp Ha] HR]. inversion HR as [|? ? (_ & _ & Hn & _) HR']; subst. split; [done|].
  apply (Forall_impl _ _ _ (proj2 (Forall_and _ _) (conj Hp HR'))). intros r [Hap (? & ? & ? & ? & Hin)].
  repeat split; try done. intros a Ha'. apply vm_munmap_only. split; [auto|]. unfold apart in Hap. simpl in *. lia.
Qed.

Lemma regions_drop v r R : regions_ok v (r :: R) → regions_ok v R.
Proof. intros [[_ Ha] HR]. inversion HR. by split. Qed.

Lemma regions_split v R p n m :
  regions_ok v ((p, n) :: R) → 0 < m < n → m mod PAGESIZE = 0 → regions_ok v ((p, m) :: (p + m, n - m) :: R).
Proof.
  intros [[Hp Ha] HR] Hm Hpg. inversion HR as [|? ? (Hpos & Hal & Hn & Htop & Hin) HR']; subst. simpl in *.
  rewrite Forall_forall in Hp. split; simpl.
  - split; [constructor; [unfold apart; simpl; lia|]|split; [|done]]; apply Forall_forall; intros r Hr;
      specialize (Hp r Hr); unfold apart in *; simpl in *; lia.
  - repeat constructor; unfold region_ok; simpl; [lia|done|lia|lia|intros; apply Hin; lia|lia| |lia|lia|intros; apply Hin; lia|done].
    rewrite Z.add_mod, Hal, Hpg by done. done.
Qed.

(** A region of [n] arenas is [n] regions of one arena *)
Definition cells_of (p : Z) (n : nat) : list Z := (λ i, p + HEAP_BUCKET_SIZE * Z.of_nat i) <$> seq 0 n.
Definition arena_region (p : Z) : region := (p, HEAP_BUCKET_SIZE).

Lemma cells_of_S p n : cells_of p (S n) = p :: cells_of (p + HEAP_BUCKET_SIZE) n.
Proof.
  unfold cells_of. simpl. f_equal; [lia|]. rewrite <- fmap_S_seq, <- list_fmap_compose.
  apply list_fmap_ext. intros i x _. simpl. unfold HEAP_BUCKET_SIZE in *. lia.
Qed.

Lemma regions_cells v R n p :
  regions_ok v ((p, Z.of_nat n * HEAP_BUCKET_SIZE) :: R) → regions_ok v ((arena_region <$> cells_of p n) ++ R).
Proof.
  revert p R. induction n as [|n IH]; intros p R HR; [by apply regions_drop in HR|].
  rewrite cells_of_S, fmap_cons. destruct n as [|n].
  - simpl. by replace (Z.of_nat 1 * HEAP_BUCKET_SIZE) with HEAP_BUCKET_SIZE in HR by lia.
  - apply (regions_split _ _ _ _ HEAP_BUCKET_SIZE) in HR; [|rewrite bucket_size; lia|done].
    replace (Z.of_nat (S (S n)) * HEAP_BUCKET_SIZE - HEAP_BUCKET_SIZE) with (Z.of_nat (S n) * HEAP_BUCKET_SIZE) in HR by lia.
    rewrite <- app_comm_cons, Permutation_middle. apply IH. eapply (regions_ok_proper v); [|exact HR]. constructor.
Qed.
End regions.

(** ** Slots and chains *)

Definition slot_count (k : Z) : nat := Z.to_nat (HEAP_BUCKET_SIZE / 2 ^ k).
Definition slots_from (p k : Z) (n : nat) : list Z := (λ i, p + Z.of_nat i * 2 ^ k) <$> seq 0 n.
Definition slots (a : heap_page_t) : list Z := slots_from (mem a) (slot_size a) (slot_count (slot_size a)).
Definition arena_at (a : heap_page_t) : region := arena_region (mem a).
Definition bucket_ok (k : Z) : Prop := HEAP_1ST_BUCKET ≤ k < HEAP_1ST_BUCKET + HEAP_BUCKET_COUNT.

Lemma slot_count_pow k : bucket_ok k → Z.of_nat (slot_count k) * 2 ^ k = HEAP_BUCKET_SIZE ∧ (0 < slot_count k)%nat.
Proof.
  unfold bucket_ok, slot_count, HEAP_1ST_BUCKET, HEAP_BUCKET_COUNT. intros Hk. rewrite bucket_size.
  change 65536 with (2 ^ 16). rewrite <- Z.pow_sub_r by lia.
  pose proof (Z.pow_pos_nonneg 2 (16 - k) ltac:(lia) ltac:(lia)). rewrite Z2Nat.id by lia.
  rewrite <- Z.pow_add_r by lia. split; [f_equal; lia|lia].
Qed.

Lemma elem_slots p k n h : h ∈ slots_from p k n ↔ ∃ i, (i < n)%nat ∧ h = p + Z.of_nat i * 2 ^ k.
Proof.
  unfold slots_from. rewrite list_elem_of_fmap. setoid_rewrite elem_of_seq.
  split; intros (i & ? & ?); exists i; (split; [first [done|lia]|first [done|lia]]).
Qed.

(** A slot lies in its arena, and two slots of an arena are apart *)
Lemma slot_inside a h : bucket_ok (slot_size a) → h ∈ slots a →
  mem a ≤ h ∧ 0 < 2 ^ slot_size a ∧ h + 2 ^ slot_size a ≤ mem a + HEAP_BUCKET_SIZE.
Proof.
  intros Hk (i & Hi & ->)%elem_slots. destruct (slot_count_pow _ Hk) as [<- _].
  unfold bucket_ok, HEAP_1ST_BUCKET in Hk. pose proof (Z.pow_pos_nonneg 2 (slot_size a) ltac:(lia) ltac:(lia)). nia.
Qed.

Lemma slot_aligned a h : bucket_ok (slot_size a) → mem a mod PAGESIZE = 0 → h ∈ slots a → h mod 16 = 0.
Proof.
  unfold bucket_ok, HEAP_1ST_BUCKET, PAGESIZE. intros Hk Hm (i & _ & ->)%elem_slots.
  replace (slot_size a) with (4 + (slot_size a - 4)) by lia. rewrite Z.pow_add_r by lia.
  apply Z.mod_divide in Hm as [q ->]; [|done]. apply Z.mod_divide; [done|].
  exists (q * 256 + Z.of_nat i * 2 ^ (slot_size a - 4)). lia.
Qed.

Lemma slots_apart a h h' :
  bucket_ok (slot_size a) → h ∈ slots a → h' ∈ slots a → h ≠ h' → apart (h, 2 ^ slot_size a) (h', 2 ^ slot_size a).
Proof.
  unfold bucket_ok, HEAP_1ST_BUCKET. intros Hk (i & _ & ->)%elem_slots (j & _ & ->)%elem_slots Hij.
  pose proof (Z.pow_pos_nonneg 2 (slot_size a) ltac:(lia) ltac:(lia)). unfold apart. simpl.
  assert (Z.of_nat i ≠ Z.of_nat j) by (intros He; by rewrite He in Hij).
  destruct (decide (Z.of_nat i < Z.of_nat j)); nia.
Qed.

Lemma slots_from_NoDup p k n : 0 ≤ k → NoDup (slots_from p k n).
Proof.
  intros Hk. apply NoDup_fmap_2_strong; [|apply NoDup_seq]. intros i j _ _ He.
  pose proof (Z.pow_pos_nonneg 2 k ltac:(lia) Hk). nia.
Qed.

(** The chain from [p] on is [l] *)
Fixpoint linked (hs : Z → heap_hdr_t) (p : Z) (l : list Z) : Prop :=
  match l with
  | [] => p = 0
  | x :: l => p = x ∧ x ≠ 0 ∧ linked hs (size_next (hs x)) l
  end.

Lemma linked_ext hs hs' p l : (∀ x, x ∈ l → hs' x = hs x) → linked hs p l → linked hs' p l.
Proof.
  revert p. induction l as [|x l IH]; intros p He; simpl; [done|]. intros (-> & Hx & Hl).
  rewrite He by set_solver. split; [done|]. split; [done|]. apply IH; [set_solver|done].
Qed.

(** ** The representation *)

Section rep.
Context {V : Type} {Hvm : Vm V} {Hlaws : VmLaws V}.
Implicit Types (s : heapimpl_t V) (H : list region).

Definition all_arenas s : list heap_page_t := arenas s ++ (exts s ≫= ext_arenas).
Definition is_large (r : region) : bool := HEAP_BUCKET_SIZE <? r.2.

(** All the memory the heap has mapped *)
Definition footprint H s : list region :=
  (arena_at <$> all_arenas s)
  ++ (arena_region <$> take (reserve_count s) (reserve_cells s))
  ++ (if reserve s =? 0 then [] else [(reserve s, Z.of_nat (reserve_capacity s) * 8)])
  ++ ((λ e, (ext_page e, PAGESIZE)) <$> exts s)
  ++ filter (λ r, is_large r) H.

(** [h] is a slot of size [2^k] *)
Definition slot_of s (k h : Z) : Prop := ∃ a, a ∈ all_arenas s ∧ slot_size a = k ∧ h ∈ slots a.

Definition chain_rep s (i : nat) : Prop := ∃ p l,
  free_chains s !! i = Some p ∧ linked (hdrs s) p l ∧ NoDup l
  ∧ ∀ h, h ∈ l ↔ slot_of s (HEAP_1ST_BUCKET + Z.of_nat i) h ∧ sig1 (hdrs s h) = HEAP_BLK_TYPE_FREE.

Definition held_rep s (r : region) : Prop :=
  sig1 (hdrs s r.1) = HEAP_BLK_TYPE_USED ∧ size_next (hdrs s r.1) = r.2
  ∧ ∃ k, HEAP_1ST_BUCKET ≤ k ≤ 36 + 1 ∧ r.2 = 2 ^ k ∧ (bucket_ok k → slot_of s k r.1).

Record heap_rep H s : Prop := {
  rep_nodup : NoDup (H.*1);
  rep_regions : regions_ok (vm s) (footprint H s);
  rep_reserve : (reserve_count s ≤ length (reserve_cells s))%nat ∧ length (reserve_cells s) = reserve_capacity s
    ∧ (reserve s = 0 → reserve_capacity s = 0%nat);
  rep_arenas : ∀ a, a ∈ all_arenas s → bucket_ok (slot_size a);
  rep_held : ∀ r, r ∈ H → held_rep s r;
  rep_slots : ∀ k h, slot_of s k h → sig1 (hdrs s h) = HEAP_BLK_TYPE_FREE ∨ (h, 2 ^ k) ∈ H;
  rep_free : ∀ i, (i < 12)%nat → chain_rep s i
}.

(** *** What it says of the memory *)

Lemma rep_arenas_apart H s : heap_rep H s → pairwise apart (arena_at <$> all_arenas s).
Proof. intros [_ [Ha _] _ _ _ _ _]. unfold footprint in Ha. by apply pairwise_app in Ha as [? _]. Qed.

Lemma rep_larges H s : heap_rep H s →
  regions_ok (vm s) ((arena_at <$> all_arenas s) ++ filter (λ r, is_large r) H).
Proof.
  intros [_ [Ha HF] _ _ _ _ _]. unfold footprint in *. split.
  - rewrite !pairwise_app in Ha. destruct Ha as (Ha & (_ & (_ & (_ & Hl & _) & _) & _) & Hx).
    rewrite pairwise_app. split; [done|]. split; [done|]. intros x y Hxa Hy. apply Hx; [done|].
    rewrite !elem_of_app. tauto.
  - rewrite !Forall_app in *. tauto.
Qed.

(** A slot belongs to one arena *)
Lemma slot_of_inj H s k k' h : heap_rep H s → slot_of s k h → slot_of s k' h → k = k'.
Proof.
  intros Hr (a & Ha & <- & Hh) (a' & Ha' & <- & Hh').
  enough (a = a') by congruence.
  apply (pairwise_fmap_same _ _ _ _ _ (rep_arenas_apart _ _ Hr) Ha Ha').
  destruct (slot_inside _ _ (rep_arenas _ _ Hr _ Ha) Hh), (slot_inside _ _ (rep_arenas _ _ Hr _ Ha') Hh').
  unfold apart, arena_at, arena_region. simpl. lia.
Qed.

(** A block handed out is a mapping of its own, or a slot of an arena *)
Lemma held_home H s r : heap_rep H s → r ∈ H →
  r ∈ filter (λ r, is_large r) H ∨ ∃ a, a ∈ all_arenas s ∧ bucket_ok (slot_size a) ∧ r.1 ∈ slots a ∧ r.2 = 2 ^ slot_size a.
Proof.
  intros Hr Hin. destruct (rep_held _ _ Hr r Hin) as (_ & _ & k & Hk & Hsz & Hslot).
  destruct (decide (bucket_ok k)) as [Hb|Hb].
  - right. destruct (Hslot Hb) as (a & Ha & <- & Hh). eauto.
  - left. apply list_elem_of_filter. split; [|done]. unfold is_large. rewrite Hsz, bucket_size.
    unfold bucket_ok, HEAP_1ST_BUCKET, HEAP_BUCKET_COUNT in *.
    pose proof (Z.pow_le_mono_r 2 17 k ltac:(lia) ltac:(lia)). apply Is_true_eq_left, Z.ltb_lt. lia.
Qed.

Lemma rep_part_apart H s a r :
  heap_rep H s → a ∈ all_arenas s → r ∈ filter (λ r, is_large r) H → apart (arena_at a) r.
Proof.
  intros Hr Ha Hl. pose proof (rep_larges _ _ Hr) as [(_ & _ & Hx)%pairwise_app _].
  apply Hx; [|done]. by apply list_elem_of_fmap_2.
Qed.

(** No two blocks handed out have a byte in common *)
Lemma held_apart H s r r' : heap_rep H s → r ∈ H → r' ∈ H → r ≠ r' → apart r r'.
Proof.
  intros Hr Hin Hin' Hne. pose proof (rep_larges _ _ Hr) as [(_ & Hl & _)%pairwise_app _].
  destruct (held_home _ _ _ Hr Hin) as [Hh|(a & Ha & Hb & Hs & Hz)],
    (held_home _ _ _ Hr Hin') as [Hh'|(a' & Ha' & Hb' & Hs' & Hz')].
  - destruct (decide (apart r r')) as [?|Hn]; [done|]. destruct Hne. exact (pairwise_same _ _ _ _ Hl Hh Hh' Hn).
  - pose proof (rep_part_apart _ _ _ _ Hr Ha' Hh) as Hx. pose proof (slot_inside _ _ Hb' Hs').
    unfold apart, arena_at in *. simpl in *. lia.
  - pose proof (rep_part_apart _ _ _ _ Hr Ha Hh') as Hx. pose proof (slot_inside _ _ Hb Hs).
    unfold apart, arena_at in *. simpl in *. lia.
  - destruct (decide (apart (arena_at a) (arena_at a'))) as [Hx|Hx].
    + pose proof (slot_inside _ _ Hb Hs). pose proof (slot_inside _ _ Hb' Hs').
      unfold apart, arena_at in *. simpl in *. lia.
    + pose proof (pairwise_fmap_same _ _ _ _ _ (rep_arenas_apart _ _ Hr) Ha Ha' Hx) as <-.
      destruct r as [h n], r' as [h' n']. simpl in *. subst. apply slots_apart; congruence.
Qed.

(** and every one is mapped memory, and aligned *)
Definition block_ok (v : V) (r : region) : Prop :=
  0 < r.1 ∧ r.1 mod 16 = 0 ∧ r.1 + r.2 ≤ VM_TOP ∧ ∀ a, r.1 ≤ a < r.1 + r.2 → vm_mapped v a.

Lemma held_mapped H s r : heap_rep H s → r ∈ H → block_ok (vm s) r.
Proof.
  intros Hr Hin. pose proof (rep_larges _ _ Hr) as [_ HF]. rewrite Forall_forall in HF.
  destruct (held_home _ _ _ Hr Hin) as [Hh|(a & Ha & Hb & Hs & Hz)].
  - destruct (HF r) as (Hp & Hpg & _ & Htop & Hm); [set_solver|]. repeat split; try done.
    apply Z.mod_divide in Hpg as [q Hq]; [|done]. apply Z.mod_divide; [done|]. exists (q * 256). unfold PAGESIZE in Hq. lia.
  - destruct (HF (arena_at a)) as (Hp & Hpg & _ & Htop & Hm); [apply elem_of_app; left; by apply list_elem_of_fmap_2|].
    simpl in *. destruct (slot_inside _ _ Hb Hs) as (? & ? & ?). unfold block_ok. rewrite Hz.
    split; [lia|]. split; [by eapply slot_aligned|]. split; [lia|]. intros x Hx. apply Hm. lia.
Qed.

(** The headers the heap writes are those of its own blocks: a slot is not
    in a large block *)
Lemma slot_not_large H s k h r : heap_rep H s → slot_of s k h → r ∈ filter (λ r, is_large r) H → r.1 ≠ h.
Proof.
  intros Hr (a & Ha & <- & Hh) Hl He. pose proof (rep_part_apart _ _ _ _ Hr Ha Hl) as Hx.
  pose proof (slot_inside _ _ (rep_arenas _ _ Hr _ Ha) Hh). apply list_elem_of_filter in Hl as [Hl _].
  unfold is_large in Hl. apply Is_true_eq_true, Z.ltb_lt in Hl.
  unfold apart, arena_at in Hx. simpl in Hx. rewrite bucket_size in *. lia.
Qed.

Lemma slot_pos H s k h : heap_rep H s → slot_of s k h → h ≠ 0.
Proof.
  intros Hr (a & Ha & <- & Hh). pose proof (rep_larges _ _ Hr) as [_ HF]. rewrite Forall_forall in HF.
  destruct (HF (arena_at a)) as (Hp & _); [apply elem_of_app; left; by apply list_elem_of_fmap_2|].
  pose proof (slot_inside _ _ (rep_arenas _ _ Hr _ Ha) Hh). simpl in *. lia.
Qed.
End rep.

(** * The kernel's heap: its operations on the representation *)

Section ops.
Context {V : Type} {Hvm : Vm V} {Hlaws : VmLaws V}.
Implicit Types (s : heapimpl_t V) (H : list region).

(** The bucket of blocks of [2^k] bytes *)
Definition bucket_of (k : Z) : nat := Z.to_nat (k - HEAP_1ST_BUCKET).

Lemma bucket_of_ok k : bucket_ok k → (bucket_of k < 12)%nat ∧ HEAP_1ST_BUCKET + Z.of_nat (bucket_of k) = k.
Proof. unfold bucket_ok, bucket_of, HEAP_1ST_BUCKET, HEAP_BUCKET_COUNT. lia. Qed.

Lemma not_large h k : bucket_ok k → is_large (h, 2 ^ k) = false.
Proof.
  unfold bucket_ok, HEAP_1ST_BUCKET, HEAP_BUCKET_COUNT, is_large. intros Hk. apply Z.ltb_ge. simpl.
  change HEAP_BUCKET_SIZE with (2 ^ 16). apply Z.pow_le_mono_r; lia.
Qed.

Lemma footprint_small h k H s : bucket_ok k → footprint ((h, 2 ^ k) :: H) s = footprint H s.
Proof. intros Hk. unfold footprint. rewrite filter_cons, not_large by done. done. Qed.

Lemma put_hdr_eq p h s : hdrs (put_hdr p h s) p = h.
Proof. simpl. by rewrite Z.eqb_refl. Qed.
Lemma put_hdr_ne p h s a : a ≠ p → hdrs (put_hdr p h s) a = hdrs s a.
Proof. intros Ha. simpl. by destruct (Z.eqb_spec a p). Qed.

Lemma held_not_free H s r : heap_rep H s → r ∈ H → sig1 (hdrs s r.1) ≠ HEAP_BLK_TYPE_FREE.
Proof. intros Hr Hin. destruct (rep_held _ _ Hr r Hin) as (-> & _). done. Qed.

(** A header written elsewhere leaves a block as it was *)
Lemma held_rep_put s r p h c : r.1 ≠ p → held_rep s r → held_rep (put_hdr p h (set_chains c s)) r.
Proof. intros Hp. unfold held_rep. by rewrite (put_hdr_ne p h (set_chains c s) r.1 Hp). Qed.

(** and a chain that does not go through it *)
Lemma chain_rep_put H s i p h c k :
  heap_rep H s → slot_of s k p → HEAP_1ST_BUCKET + Z.of_nat i ≠ k → c !! i = free_chains s !! i →
  chain_rep s i → chain_rep (put_hdr p h (set_chains c s)) i.
Proof.
  intros Hr Hp Hne Hc (q & l & Hq & Hl & Hnd & Hin). exists q, l.
  assert (∀ x, slot_of s (HEAP_1ST_BUCKET + Z.of_nat i) x → x ≠ p) as Hx.
  { intros x Hx ->. destruct Hne. by eapply slot_of_inj. }
  split; [simpl; congruence|]. split; [|split; [done|]].
  - eapply linked_ext; [|exact Hl]. intros x [Hs _]%Hin. by rewrite put_hdr_ne by auto.
  - intros x. rewrite Hin. change (slot_of (put_hdr p h (set_chains c s))) with (slot_of s).
    split; intros [Hs Hf]; (split; [done|]); [rewrite put_hdr_ne by auto; done|by rewrite put_hdr_ne in Hf by auto].
Qed.

(** ** Taking the first block of a chain *)
Lemma rep_take_first H s k p :
  heap_rep H s → bucket_ok k → free_chains s !! bucket_of k = Some p → p ≠ 0 →
  slot_of s k p ∧ sig1 (hdrs s p) = HEAP_BLK_TYPE_FREE ∧
  ∀ hid, heap_rep ((p, 2 ^ k) :: H) (put_hdr p (Hdr (2 ^ k) HEAP_BLK_TYPE_USED hid)
           (set_chains (<[bucket_of k := size_next (hdrs s p)]> (free_chains s)) s)).
Proof.
  intros Hr Hk Hp Hp0. destruct (bucket_of_ok _ Hk) as [Hi Hik].
  destruct (rep_free _ _ Hr _ Hi) as (q & l & Hq & Hl & Hnd & Hin). rewrite Hik in Hin.
  assert (q = p) as -> by congruence. destruct l as [|x l]; [simpl in Hl; done|].
  simpl in Hl. destruct Hl as (<- & _ & Hl). apply NoDup_cons in Hnd as [Hpl Hnd].
  destruct (proj1 (Hin p)) as [Hs Hf]; [set_solver|]. split; [done|]. split; [done|]. intros hid.
  assert (∀ r, r ∈ H → r.1 ≠ p) as Hfresh.
  { intros r Hrin He. apply (held_not_free _ _ _ Hr Hrin). by rewrite He. }
  constructor.
  - rewrite fmap_cons. apply NoDup_cons. split; [|apply Hr].
    intros (r & He & Hrin)%list_elem_of_fmap. by apply (Hfresh r).
  - rewrite footprint_small by done. apply Hr.
  - apply Hr.
  - apply Hr.
  - intros r [->|Hrin]%elem_of_cons; [|apply held_rep_put; [auto|by apply Hr]].
    unfold held_rep. simpl. rewrite Z.eqb_refl. split; [done|]. split; [done|]. exists k.
    unfold bucket_ok, HEAP_1ST_BUCKET, HEAP_BUCKET_COUNT in *. split; [lia|]. done.
  - intros k' h Hs'. change (slot_of s k' h) in Hs'. destruct (decide (h = p)) as [->|Hne].
    + right. rewrite (slot_of_inj _ _ _ _ _ Hr Hs' Hs). set_solver.
    + rewrite put_hdr_ne by done. destruct (rep_slots _ _ Hr _ _ Hs'); [by left|right; set_solver].
  - intros i Hi'. destruct (decide (i = bucket_of k)) as [->|Hne].
    + exists (size_next (hdrs s p)), l. simpl. rewrite list_lookup_insert_eq by (by eapply lookup_lt_Some).
      split; [done|]. split; [|split; [done|]].
      * eapply linked_ext; [|exact Hl]. intros x Hx. destruct (Z.eqb_spec x p); [congruence|done].
      * intros h. rewrite Hik. change (slot_of _ k h) with (slot_of s k h).
        destruct (Z.eqb_spec h p) as [->|Hh]; simpl; [split; [done|by intros [_ ?]]|].
        rewrite <- Hin. set_solver.
    + eapply chain_rep_put; [done|done| |by rewrite list_lookup_insert_ne by done|by apply Hr].
      unfold bucket_of, bucket_ok, HEAP_1ST_BUCKET in *. lia.
Qed.

(** ** Putting a block in front of its chain *)
Lemma rep_put H s k p q hid :
  heap_rep ((p, 2 ^ k) :: H) s → bucket_ok k → free_chains s !! bucket_of k = Some q →
  heap_rep H (put_hdr p (Hdr q HEAP_BLK_TYPE_FREE hid) (set_chains (<[bucket_of k := p]> (free_chains s)) s)).
Proof.
  intros Hr Hk Hq. destruct (bucket_of_ok _ Hk) as [Hi Hik].
  pose proof (rep_nodup _ _ Hr) as Hn. rewrite fmap_cons in Hn. apply NoDup_cons in Hn as [Hnew Hnd].
  assert (∀ r, r ∈ H → r.1 ≠ p) as Hfresh.
  { intros r Hrin He. apply Hnew. simpl. rewrite <- He. by apply list_elem_of_fmap_2. }
  assert (slot_of s k p) as Hs.
  { destruct (rep_held _ _ Hr (p, 2 ^ k)) as (_ & _ & k' & Hk' & He & Hsl); [set_solver|]. simpl in *.
    unfold bucket_ok, HEAP_1ST_BUCKET in *. assert (k = k') as <- by (apply (Z.pow_inj_r 2); lia). auto. }
  pose proof (held_not_free _ _ (p, 2 ^ k) Hr ltac:(set_solver)) as Hused. simpl in Hused.
  constructor.
  - done.
  - rewrite <- (footprint_small p k) by done. apply Hr.
  - apply Hr.
  - apply Hr.
  - intros r Hrin. apply held_rep_put; [auto|]. apply Hr. set_solver.
  - intros k' h Hs'. change (slot_of s k' h) in Hs'. destruct (decide (h = p)) as [->|Hne].
    + left. by rewrite put_hdr_eq.
    + rewrite put_hdr_ne by done. destruct (rep_slots _ _ Hr _ _ Hs') as [?|Hx]; [by left|right; set_solver].
  - intros i Hi'. destruct (decide (i = bucket_of k)) as [->|Hne].
    + destruct (rep_free _ _ Hr _ Hi) as (q' & l & Hq' & Hl & Hnl & Hin). rewrite Hik in Hin.
      assert (q' = q) as -> by congruence. assert (p ∉ l) by (intros [_ ?]%Hin; done).
      exists p, (p :: l). simpl. rewrite Z.eqb_refl, list_lookup_insert_eq by (by eapply lookup_lt_Some).
      split; [done|]. split; [split; [done|]; split; [by eapply slot_pos|]|split; [by constructor|]].
      * eapply linked_ext; [|exact Hl]. intros x Hx. destruct (Z.eqb_spec x p); [congruence|done].
      * intros h. rewrite Hik. change (slot_of _ k h) with (slot_of s k h).
        destruct (Z.eqb_spec h p) as [->|Hh]; simpl; [set_solver|]. rewrite <- Hin. set_solver.
    + eapply chain_rep_put; [done|done| |by rewrite list_lookup_insert_ne by done|by apply Hr].
      unfold bucket_of, bucket_ok, HEAP_1ST_BUCKET in *. lia.
Qed.

(** ** Large blocks *)

Lemma large_pow h k : 17 ≤ k → is_large (h, 2 ^ k) = true.
Proof.
  intros Hk. unfold is_large. apply Z.ltb_lt. simpl. change HEAP_BUCKET_SIZE with (2 ^ 16). apply Z.pow_lt_mono_r; lia.
Qed.

Lemma footprint_large h k H s : 17 ≤ k → footprint ((h, 2 ^ k) :: H) s ≡ₚ (h, 2 ^ k) :: footprint H s.
Proof.
  intros Hk. unfold footprint. rewrite filter_cons, large_pow by done.
  rewrite decide_True by done. by rewrite !app_assoc, <- Permutation_middle.
Qed.

(** Memory that is apart from the heap's has no header of it *)
Lemma outside_footprint H s p n :
  heap_rep H s → Forall (apart (p, n)) (footprint H s) → 0 < n →
  (∀ k h, slot_of s k h → ¬ p ≤ h < p + n) ∧ (∀ r, r ∈ H → ¬ p ≤ r.1 < p + n).
Proof.
  intros Hr Hap Hn. rewrite Forall_forall in Hap.
  assert (∀ k h, slot_of s k h → ¬ p ≤ h < p + n) as Hs.
  { intros k h (a & Ha & <- & Hh). pose proof (slot_inside _ _ (rep_arenas _ _ Hr _ Ha) Hh).
    assert (apart (p, n) (arena_at a)) as Hx.
    { apply Hap. unfold footprint. rewrite elem_of_app. left. by apply list_elem_of_fmap_2. }
    unfold apart, arena_at in Hx. simpl in Hx. lia. }
  split; [done|]. intros r Hrin. destruct (held_home _ _ _ Hr Hrin) as [Hl|(a & Ha & _ & Hh & _)].
  - assert (apart (p, n) r) as Hx by (apply Hap; unfold footprint; rewrite !elem_of_app; tauto).
    apply list_elem_of_filter in Hl as [Hl _]. unfold is_large in Hl. apply Is_true_eq_true, Z.ltb_lt in Hl.
    unfold apart in Hx. simpl in Hx. rewrite bucket_size in Hl. lia.
  - apply (Hs (slot_size a)). by exists a.
Qed.

(** A block that is new memory, and its header *)
Lemma rep_large H s p k v hid :
  heap_rep H s → 17 ≤ k ≤ 37 → regions_ok v ((p, 2 ^ k) :: footprint H s) →
  heap_rep ((p, 2 ^ k) :: H) (put_hdr p (Hdr (2 ^ k) HEAP_BLK_TYPE_USED hid) (set_vm v s)).
Proof.
  intros Hr Hk HR. pose proof HR as [[Hap _] _]. pose proof (Z.pow_pos_nonneg 2 k ltac:(lia) ltac:(lia)) as Hpow.
  destruct (outside_footprint _ _ _ _ Hr Hap Hpow) as [Hslot Hheld].
  assert (∀ k' h, slot_of s k' h → h ≠ p) as Hs by (intros k' h Hx ->; apply (Hslot _ _ Hx); lia).
  assert (∀ r, r ∈ H → r.1 ≠ p) as Hf by (intros r Hx He; apply (Hheld _ Hx); lia).
  constructor.
  - rewrite fmap_cons. apply NoDup_cons. split; [|apply Hr].
    intros (r & He & Hrin)%list_elem_of_fmap. by apply (Hf r).
  - rewrite footprint_large by lia. exact HR.
  - apply Hr.
  - apply Hr.
  - intros r [->|Hrin]%elem_of_cons; [|apply (held_rep_put s r p _ (free_chains s)); [auto|by apply Hr]].
    unfold held_rep. simpl. rewrite Z.eqb_refl. split; [done|]. split; [done|]. exists k.
    unfold bucket_ok, HEAP_1ST_BUCKET, HEAP_BUCKET_COUNT in *. split; [lia|]. split; [done|lia].
  - intros k' h Hx. change (slot_of s k' h) in Hx. rewrite put_hdr_ne by eauto.
    destruct (rep_slots _ _ Hr _ _ Hx); [by left|right; set_solver].
  - intros i Hi. destruct (rep_free _ _ Hr _ Hi) as (q & l & Hq & Hl & Hnd & Hin). exists q, l.
    split; [done|]. split; [|split; [done|]].
    + eapply linked_ext; [|exact Hl]. intros x [Hx _]%Hin. by rewrite put_hdr_ne by eauto.
    + intros h. rewrite Hin. change (slot_of (put_hdr p _ (set_vm v s))) with (slot_of s).
      split; intros [Hx Hfr]; (split; [done|]); [rewrite put_hdr_ne by eauto; done|by rewrite put_hdr_ne in Hfr by eauto].
Qed.

Lemma rep_unlarge H s p k :
  heap_rep ((p, 2 ^ k) :: H) s → 17 ≤ k → heap_rep H (set_vm (vm_munmap p (2 ^ k) (vm s)) s).
Proof.
  intros Hr Hk. pose proof (rep_nodup _ _ Hr) as Hn. rewrite fmap_cons in Hn. apply NoDup_cons in Hn as [Hnew Hnd].
  constructor; [done| |apply Hr|apply Hr| | |apply Hr].
  - apply regions_munmap. rewrite <- footprint_large by done. apply Hr.
  - intros r Hrin. apply (rep_held _ _ Hr). set_solver.
  - intros k' h Hs. change (slot_of s k' h) in Hs. destruct (rep_slots _ _ Hr _ _ Hs) as [?|[He|?]%elem_of_cons]; [by left| |by right].
    destruct (slot_not_large _ _ _ _ (p, 2 ^ k) Hr Hs); [|simpl; congruence].
    apply list_elem_of_filter. split; [by rewrite large_pow|set_solver].
Qed.
End ops.
