(* ===== verification/KernelHeapArena.v ===== *)
(** * The kernel's heap: the reserve of arenas *)

From stdpp Require Import base tactics list numbers option sets.
From S2P Require Import Prelude Regions BitSearch KernelHeap KernelHeapRep.

#[local] Open Scope Z_scope.

Section reserve.
Context {V : Type} {Hvm : Vm V} {Hlaws : VmLaws V}.
Implicit Types (s : heapimpl_t V) (H : list region).

(** What the reserve does not own *)
Definition base_footprint H s : list region :=
  (arena_at <$> all_arenas s) ++ ((λ e, (ext_page e, PAGESIZE)) <$> exts s) ++ filter (λ r, is_large r) H.
Definition reserve_array s : list region :=
  if reserve s =? 0 then [] else [(reserve s, Z.of_nat (reserve_capacity s) * 8)].
Definition reserve_arenas s : list region := arena_region <$> take (reserve_count s) (reserve_cells s).

Lemma footprint_split H s : footprint H s ≡ₚ reserve_arenas s ++ reserve_array s ++ base_footprint H s.
Proof.
  unfold footprint, base_footprint, reserve_array, reserve_arenas. rewrite !app_assoc.
  do 2 apply Permutation_app_tail. rewrite <- app_assoc. apply Permutation_app_comm.
Qed.

(** The heap with another reserve *)
Definition with_reserve (r : Z) (cells : list Z) (n cap : nat) (v : V) s : heapimpl_t V :=
  set_vm v (set_reserve r cells n cap s).

Lemma rep_with_reserve H s r cells n cap v :
  heap_rep H s → (n ≤ length cells)%nat → length cells = cap → (r = 0 → cap = 0%nat) →
  regions_ok v (footprint H (with_reserve r cells n cap v s)) → heap_rep H (with_reserve r cells n cap v s).
Proof. intros Hr Hn Hc H0 HR. constructor; try apply Hr; done. Qed.

Lemma load_cell_run i c s : reserve_cells s !! i = Some c → load_cell i s = Done (c, s).
Proof. unfold load_cell. by intros ->. Qed.
Lemma store_cell_run i c s : (i < length (reserve_cells s))%nat →
  store_cell i c s = Done (tt, set_reserve (reserve s) (<[i := c]> (reserve_cells s)) (reserve_count s) (reserve_capacity s) s).
Proof. intros Hi. unfold store_cell. by rewrite decide_True. Qed.

(** *** Shrinking the pool *)
Lemma pool_drop_step H s n c :
  heap_rep H s → reserve_count s = S n → reserve_cells s !! n = Some c →
  heap_rep H (with_reserve (reserve s) (<[n := 0]> (reserve_cells s)) n (reserve_capacity s)
                (vm_munmap c HEAP_BUCKET_SIZE (vm s)) s).
Proof.
  intros Hr Hn Hc. destruct (rep_reserve _ _ Hr) as (Hlen & Hcap & Hz).
  apply rep_with_reserve; [done|rewrite length_insert; lia|by rewrite length_insert|done|].
  apply regions_munmap. pose proof (rep_regions _ _ Hr) as HR. rewrite footprint_split in *.
  unfold reserve_arenas in *. rewrite Hn in HR. simpl. rewrite take_insert_ge by lia.
  rewrite (take_S_r _ _ _ Hc), fmap_app, <- app_assoc in HR. simpl in HR. by rewrite <- Permutation_middle in HR.
Qed.

Lemma pool_drop_spec H t n s :
  heap_rep H s → (reserve_count s = n + t)%nat →
  ∃ cells v, let s' := with_reserve (reserve s) cells t (reserve_capacity s) v s in
    pool_drop n t s = Done (tt, s') ∧ heap_rep H s' ∧ vm_room (vm s) ≤ vm_room v.
Proof.
  revert s. induction n as [|n IH]; intros s Hr Hn; simpl; run.
  - rewrite decide_False by lia. exists (reserve_cells s), (vm s). simpl in Hn. rewrite <- Hn. by destruct s.
  - rewrite decide_True by lia. unfold set_count. run.
    destruct (rep_reserve _ _ Hr) as (Hlen & Hcap & Hz).
    replace (reserve_count s - 1)%nat with (n + t)%nat by lia.
    destruct (lookup_lt_is_Some_2 (reserve_cells s) (n + t)%nat ltac:(lia)) as [c Hc].
    erewrite bind_done by (by apply load_cell_run). unfold munmap. run.
    erewrite bind_done by (apply store_cell_run; simpl; lia).
    destruct (IH _ (pool_drop_step _ _ (n + t)%nat c Hr ltac:(lia) Hc) eq_refl) as (cells & v & Hrun & Hr' & Hroom).
    exists cells, v. simpl in *. split; [exact Hrun|]. split; [exact Hr'|].
    pose proof (vm_munmap_room (vm s) c HEAP_BUCKET_SIZE). lia.
Qed.

(** *** Filling it anew *)

(** The entries the array has when it is made of whole pages, and the memory
    that is mapped for it and its arenas *)
Definition rounded (n : nat) : nat := Z.to_nat (512 * ((Z.of_nat n * 8 + 4095) / 4096)).
Definition reserve_need (n : nat) : Z := Z.of_nat (rounded n) * (8 + HEAP_BUCKET_SIZE).

Lemma rounded_spec n : (n ≤ rounded n)%nat ∧ Z.of_nat (rounded n) = 512 * ((Z.of_nat n * 8 + 4095) / 4096).
Proof. unfold rounded. Z.div_mod_to_equations. lia. Qed.

(** The rounding as the code computes it *)
Lemma reserve_bytes_spec n : reserve_need n ≤ VM_TOP →
  Z.to_nat (Z.land (u64 (Z.of_nat n * 8 + (PAGESIZE - 1))) (u64 (- PAGESIZE)) / 8) = rounded n.
Proof.
  intros Hn. destruct (rounded_spec n) as [Hle Hr]. unfold reserve_need in Hn. rewrite bucket_size in Hn.
  unfold VM_TOP in Hn. unfold PAGESIZE. rewrite u64_small by lia. change 4096 with (2 ^ 12) at 2.
  rewrite land_neg_pow2 by lia. change (2 ^ 12) with (512 * 8). unfold rounded. f_equal.
  replace (4096 - 1) with 4095 by lia. change (512 * 8) with 4096.
  replace (4096 * _) with (512 * ((Z.of_nat n * 8 + 4095) / 4096) * 8) by lia. by rewrite Z.div_mul.
Qed.

Lemma cells_of_wrap b c n :
  0 ≤ b → b + c + HEAP_BUCKET_SIZE * Z.of_nat n ≤ VM_TOP → 0 ≤ c →
  (λ i, u64 (b + c + HEAP_BUCKET_SIZE * Z.of_nat i)) <$> seq 0 n = cells_of (b + c) n.
Proof.
  intros Hb Htop Hc. unfold cells_of. apply list_fmap_ext. intros i x [-> Hi]%lookup_seq.
  rewrite bucket_size in *. unfold VM_TOP in Htop. simpl. unwrap. done.
Qed.

Lemma reserve_mapped H s n p v v' :
  regions_ok v (base_footprint H s) → (0 < n)%nat → reserve_need n ≤ VM_TOP →
  vm_mmap (reserve_need n) v = (p, v') → p ≠ MAP_FAILED →
  let c := rounded n in let b := Z.of_nat c * 8 in
  0 < p ∧ p + reserve_need n ≤ VM_TOP ∧ vm_room v - reserve_need n ≤ vm_room v'
  ∧ regions_ok v' (footprint H (with_reserve p (cells_of (p + b) c) c c v' s)).
Proof.
  intros HR Hn Hneed Hm Hp c b. destruct (rounded_spec n) as [Hle Hr]. fold c in Hle, Hr.
  assert (reserve_need n = b + Z.of_nat c * HEAP_BUCKET_SIZE) as He by (unfold reserve_need, b, c; lia).
  assert (b mod PAGESIZE = 0) as Hb by (unfold b, PAGESIZE; rewrite Hr; apply Z.mod_divide; [done|];
    exists ((Z.of_nat n * 8 + 4095) / 4096); lia).
  assert (reserve_need n mod PAGESIZE = 0) as Hpg.
  { rewrite He, Z.add_mod, Hb, bucket_size by done. unfold PAGESIZE.
    replace (Z.of_nat c * 65536) with (Z.of_nat c * 16 * 4096) by lia. by rewrite Z.mod_mul. }
  assert (0 < reserve_need n) as Hpos by (rewrite He, bucket_size; lia).
  pose proof (vm_mmap_new _ _ _ _ Hpos Hpg Hm Hp) as (Hp0 & _ & Htop & _ & _ & Hroom).
  split; [done|]. split; [done|]. split; [done|].
  pose proof (regions_mmap _ _ _ _ _ HR Hpos Hpg Hm Hp) as HR'.
  apply (regions_split _ _ _ _ b) in HR'; [|rewrite He, bucket_size; unfold b; lia|done].
  replace (reserve_need n - b) with (Z.of_nat c * HEAP_BUCKET_SIZE) in HR' by lia.
  rewrite footprint_split. unfold reserve_arenas, reserve_array, with_reserve. simpl.
  destruct (Z.eqb_spec p 0); [lia|]. rewrite take_ge by (unfold cells_of; by rewrite length_fmap, length_seq).
  apply regions_cells. eapply (regions_ok_proper v'); [|exact HR']. constructor.
Qed.

Lemma reserve_emptied H s : heap_rep H s →
  ∃ cells v, let s' := with_reserve (reserve s) cells 0 (reserve_capacity s) v s in
    reserve_adj_pool 0 s = Done (true, s') ∧ heap_rep H s' ∧ vm_room (vm s) ≤ vm_room v.
Proof.
  intros Hr. destruct (pool_drop_spec H 0 (reserve_count s) s Hr ltac:(lia)) as (cells & v & Hrun & Hr1 & Hroom).
  exists cells, v. split; [|done]. unfold reserve_adj_pool. run. rewrite Nat.min_0_l, decide_False by lia.
  by rewrite (bind_done _ _ _ _ _ Hrun).
Qed.

(** After the arenas the array is given back *)
Definition array_freed s : V :=
  if reserve s =? 0 then vm s else vm_munmap (reserve s) (Z.of_nat (reserve_capacity s) * 8) (vm s).

Lemma reserve_array_freed H s : heap_rep H s → reserve_count s = 0%nat →
  regions_ok (array_freed s) (base_footprint H s) ∧ vm_room (vm s) ≤ vm_room (array_freed s).
Proof.
  intros Hr Hn. pose proof (rep_regions _ _ Hr) as HR. rewrite footprint_split in HR.
  unfold reserve_arenas, reserve_array, array_freed in *. rewrite Hn in HR. simpl in HR.
  destruct (Z.eqb_spec (reserve s) 0); simpl in HR; [done|].
  split; [by apply regions_munmap|apply vm_munmap_room].
Qed.

Lemma array_bytes H s : heap_rep H s → reserve s ≠ 0 → 0 ≤ Z.of_nat (reserve_capacity s) * 8 < 2 ^ 64.
Proof.
  intros Hr Hz. pose proof (rep_regions _ _ Hr) as [_ HF]. rewrite footprint_split, !Forall_app in HF.
  destruct HF as (_ & HF & _). unfold reserve_array in HF. destruct (Z.eqb_spec (reserve s) 0); [done|].
  inversion HF as [|? ? (? & _ & ? & ? & _) _]; subst. simpl in *. unfold VM_TOP in *. lia.
Qed.

Lemma reserve_gone H s : heap_rep H s → reserve_count s = 0%nat →
  (if negb (reserve s =? 0)
   then munmap (reserve s) (u64 (Z.of_nat (reserve_capacity s) * 8));; modify (set_reserve 0 [] (reserve_count s) 0)
   else mret tt) s = Done (tt, with_reserve 0 [] 0 0 (array_freed s) s).
Proof.
  intros Hr Hn. destruct (rep_reserve _ _ Hr) as (_ & Hlen & Hcap). unfold with_reserve, array_freed.
  destruct (Z.eqb_spec (reserve s) 0) as [Hz|Hz]; simpl.
  - rewrite (Hcap Hz) in Hlen. apply nil_length_inv in Hlen. specialize (Hcap Hz). destruct s; simpl in *. by subst.
  - rewrite u64_small by (by eapply array_bytes). unfold munmap. run. unfold modify. by rewrite Hn.
Qed.

Lemma reserve_reset_spec H s n :
  heap_rep H s → (0 < n)%nat → reserve_need n ≤ vm_room (vm s) →
  ∃ r cells v, let s' := with_reserve r cells (rounded n) (rounded n) v s in
    reserve_reset n s = Done (true, s') ∧ heap_rep H s' ∧ vm_room (vm s) - reserve_need n ≤ vm_room v.
Proof.
  intros Hr Hn Hneed. pose proof (vm_room_top (vm s)) as Htop. destruct (rounded_spec n) as [Hrd _].
  destruct (reserve_emptied _ _ Hr) as (cells1 & v1 & Hrun1 & Hr1 & Hroom1).
  set (s1 := with_reserve _ _ _ _ _ _) in *. destruct (reserve_array_freed _ s1 Hr1 eq_refl) as [HR Hroom2].
  assert (vm_room (vm s) ≤ vm_room (array_freed s1)) as Hroom12 by (etrans; [exact Hroom1|exact Hroom2]).
  unfold reserve_reset. rewrite (bind_done _ _ _ _ _ Hrun1). cbn [negb]. run.
  rewrite (bind_done _ _ _ _ _ (reserve_gone _ s1 Hr1 eq_refl)).
  rewrite reserve_bytes_spec by lia. unfold set_count. run. unfold mmap. unfold mbind at 1, M_bind at 1.
  rewrite (u64_small (Z.of_nat _ * HEAP_BUCKET_SIZE)), u64_small
    by (unfold reserve_need, VM_TOP in *; rewrite bucket_size in *; lia).
  replace (Z.of_nat (rounded n) * 8 + Z.of_nat (rounded n) * HEAP_BUCKET_SIZE) with (reserve_need n)
    by (unfold reserve_need; lia). simpl.
  assert (0 < reserve_need n) as Hpos by (unfold reserve_need; rewrite bucket_size; lia).
  pose proof (vm_mmap_room (array_freed s1) _ Hpos (Z.le_trans _ _ _ Hneed Hroom12)) as Hok.
  destruct (vm_mmap (reserve_need n) (array_freed s1)) as [p v] eqn:Hm. simpl in Hok.
  destruct (reserve_mapped H s1 n p _ v HR Hn ltac:(lia) Hm Hok) as (Hp & Hptop & Hroom & HR').
  destruct (Z.eqb_spec p MAP_FAILED); [done|].
  exists p, (cells_of (p + Z.of_nat (rounded n) * 8) (rounded n)), v.
  split; [|split; [|lia]].
  - unfold modify. rewrite cells_of_wrap by (unfold reserve_need in *; lia). done.
  - assert (length (cells_of (p + Z.of_nat (rounded n) * 8) (rounded n)) = rounded n) as Hlen
      by (unfold cells_of; by rewrite length_fmap, length_seq).
    exact (rep_with_reserve H s1 p _ _ _ v Hr1 (Nat.eq_le_incl _ _ (eq_sym Hlen)) Hlen ltac:(lia) HR').
Qed.
End reserve.

(** * The kernel's heap: making arenas *)

Section arenas.
Context {V : Type} {Hvm : Vm V} {Hlaws : VmLaws V}.
Implicit Types (s : heapimpl_t V) (H : list region).

(** What alloc_arena maps when the reserve is empty *)
Definition arena_need s : Z :=
  if decide (reserve_count s = 0%nat)
  then reserve_need (if decide (reserve_capacity s = 0%nat) then 512 else reserve_capacity s * 2) else 0.

Lemma reserve_taken H s n c :
  heap_rep H s → reserve_count s = S n → reserve_cells s !! n = Some c →
  let s' := with_reserve (reserve s) (reserve_cells s) n (reserve_capacity s) (vm s) s in
  heap_rep H s' ∧ regions_ok (vm s) (arena_region c :: footprint H s').
Proof.
  intros Hr Hn Hc s'. destruct (rep_reserve _ _ Hr) as (Hlen & Hcap & Hz).
  assert (regions_ok (vm s) (arena_region c :: footprint H s')) as HR.
  { pose proof (rep_regions _ _ Hr) as HR. rewrite footprint_split in *. unfold reserve_arenas in *.
    rewrite Hn, (take_S_r _ _ _ Hc), fmap_app, <- app_assoc in HR. simpl in HR. by rewrite <- Permutation_middle in HR. }
  split; [|done]. apply rep_with_reserve; [done|lia|done|done|by apply regions_drop in HR].
Qed.

Lemma alloc_arena_spec H s :
  heap_rep H s → arena_need s ≤ vm_room (vm s) →
  ∃ r cells n cap v c, let s' := with_reserve r cells n cap v s in
    alloc_arena s = Done (c, s') ∧ heap_rep H s' ∧ regions_ok v (arena_region c :: footprint H s').
Proof.
  intros Hr Hneed. unfold alloc_arena. run.
  assert (∃ r cells n cap v, let s' := with_reserve r cells (S n) cap v s in heap_rep H s' ∧
    (if decide (reserve_count s = 0%nat)
     then reserve_reset (if decide (reserve_capacity s = 0%nat) then 512 else reserve_capacity s * 2) else mret true) s
    = Done (true, s')) as (r & cells & n & cap & v & Hr' & Hrun).
  { unfold arena_need in Hneed. destruct (decide (reserve_count s = 0%nat)) as [Hn|Hn].
    - set (m := if decide (reserve_capacity s = 0%nat) then _ else _) in *.
      assert (0 < m)%nat as Hm by (unfold m; case_decide; lia).
      destruct (reserve_reset_spec _ _ m Hr Hm Hneed) as (r & cells & v & Hrun & Hr' & _).
      destruct (rounded m) as [|n] eqn:Hc; [destruct (rounded_spec m); lia|]. by exists r, cells, n, (S n), v.
    - destruct (reserve_count s) as [|n] eqn:Hc; [done|].
      exists (reserve s), (reserve_cells s), n, (reserve_capacity s), (vm s).
      assert (with_reserve (reserve s) (reserve_cells s) (S n) (reserve_capacity s) (vm s) s = s) as ->
        by (rewrite <- Hc; by destruct s). done. }
  rewrite (bind_done _ _ _ _ _ Hrun). cbn [negb]. unfold set_count. run.
  destruct (rep_reserve _ _ Hr') as (Hlen & _ & _). simpl in Hlen.
  destruct (lookup_lt_is_Some_2 cells n ltac:(lia)) as [c Hc].
  destruct (reserve_taken _ _ n c Hr' eq_refl Hc) as [Hr2 HR2].
  exists r, cells, n, cap, v, c. split; [|done]. simpl. rewrite Nat.sub_0_r. by apply load_cell_run.
Qed.

(** ** The list the arena is noted in *)
Lemma page_pos : 0 < PAGESIZE.
Proof. done. Qed.
Lemma page_mod : PAGESIZE mod PAGESIZE = 0.
Proof. done. Qed.

Definition room_in s (l : arena_list) : Prop := match l with MainList => True | ExtList => exts s ≠ [] end.

Lemma footprint_ext H s p v :
  footprint H (set_vm v (set_arenas (arenas s) (Ext p [] :: exts s) s)) ≡ₚ (p, PAGESIZE) :: footprint H s.
Proof.
  unfold footprint, all_arenas. simpl. do 3 (etrans; [|symmetry; apply Permutation_middle]; apply Permutation_app_head).
  done.
Qed.

Lemma pick_list_spec H s : heap_rep H s → PAGESIZE ≤ vm_room (vm s) →
  ∃ l e v, let s' := set_vm v (set_arenas (arenas s) e s) in
    pick_list s = Done (Some l, s') ∧ heap_rep H s' ∧ room_in s' l ∧ vm_room (vm s) - PAGESIZE ≤ vm_room v.
Proof.
  intros Hr Hroom. unfold pick_list. run.
  assert (set_vm (vm s) (set_arenas (arenas s) (exts s) s) = s) as Hid by (by destruct s).
  case_decide as Hmain; [exists MainList, (exts s), (vm s); rewrite Hid; simpl; unfold PAGESIZE in *; (split; [done|]); split; [done|lia]|].
  destruct (match exts s with [] => _ | _ => _ end) eqn:Hext.
  { exists ExtList, (exts s), (vm s). rewrite Hid. simpl. split; [done|]. split; [done|].
    split; [by destruct (exts s)|unfold PAGESIZE in *; lia]. }
  unfold mmap. unfold mbind at 1, M_bind at 1. pose proof (vm_mmap_room (vm s) PAGESIZE page_pos Hroom) as Hok.
  destruct (vm_mmap PAGESIZE (vm s)) as [p v] eqn:Hm. simpl in Hok.
  destruct (vm_mmap_new _ _ _ _ page_pos page_mod Hm Hok) as (Hp & _ & _ & _ & _ & Hrm).
  destruct (Z.eqb_spec p 0), (Z.eqb_spec p MAP_FAILED); [lia|lia|done|]. simpl. run.
  exists ExtList, (Ext p [] :: exts s), v. split; [done|]. split; [|split; [done|done]].
  pose proof (regions_mmap _ _ _ _ _ (rep_regions _ _ Hr) page_pos page_mod Hm Hok) as HR.
  constructor; try apply Hr. rewrite footprint_ext. exact HR.
Qed.

(** ** The slots are chained, the first one first *)

Lemma slots_from_S p k n : slots_from p k (S n) = slots_from p k n ++ [p + Z.of_nat n * 2 ^ k].
Proof. unfold slots_from. by rewrite seq_S, fmap_app. Qed.

Lemma load_hdr_run p s : p ≠ 0 → load_hdr p s = Done (hdrs s p, s).
Proof. intros Hp. unfold load_hdr. by destruct (Z.eqb_spec p 0). Qed.
Lemma store_hdr_run p h s : p ≠ 0 → store_hdr p h s = Done (tt, put_hdr p h s).
Proof. intros Hp. unfold store_hdr. by destruct (Z.eqb_spec p 0). Qed.

Lemma fill_slots_spec n p k q l s :
  0 < p → 0 ≤ k → linked (hdrs s) q l → (∀ x, x ∈ l → x ∉ slots_from p k n) →
  ∃ hs q', fill_slots n p (2 ^ k) q s = Done (q', set_hdrs hs s)
    ∧ linked hs q' (slots_from p k n ++ l)
    ∧ (∀ x, x ∉ slots_from p k n → hs x = hdrs s x)
    ∧ (∀ x, x ∈ slots_from p k n → sig1 (hs x) = HEAP_BLK_TYPE_FREE).
Proof.
  intros Hp Hk. pose proof (Z.pow_pos_nonneg 2 k ltac:(lia) Hk) as Hpow. revert q l s.
  induction n as [|n IH]; intros q l s Hl Hx; cbn [fill_slots].
  - exists (hdrs s), q. split; [by destruct s|]. split; [done|]. set_solver.
  - set (h := p + Z.of_nat n * 2 ^ k). assert (h ≠ 0) as Hh by (unfold h; nia).
    rewrite (bind_done _ _ _ _ _ (load_hdr_run h s Hh)), (bind_done _ _ _ _ _ (store_hdr_run h _ s Hh)).
    pose proof (slots_from_NoDup p k (S n) Hk) as Hnd. rewrite slots_from_S in *. fold h in Hnd, Hx |- *.
    apply NoDup_app in Hnd as (_ & Hnew & _).
    destruct (IH h (h :: l) (put_hdr h (Hdr q HEAP_BLK_TYPE_FREE (heap_id (hdrs s h))) s)) as (hs & q' & Hrun & Hlk & Hout & Hin).
    + simpl. rewrite Z.eqb_refl. split; [done|]. split; [done|]. eapply linked_ext; [|exact Hl].
      intros x Hxl. destruct (Z.eqb_spec x h) as [->|]; [|done]. destruct (Hx h Hxl). set_solver.
    + intros x [->|Hxl]%elem_of_cons; [set_solver|]. intros ?. apply (Hx x Hxl). set_solver.
    + exists hs, q'. split; [exact Hrun|]. split; [by rewrite <- app_assoc|]. split.
      * intros x Hxn. rewrite Hout by set_solver. apply put_hdr_ne. set_solver.
      * intros x [Hxn|Hxn]%elem_of_app; [auto|]. apply list_elem_of_singleton in Hxn as ->.
        rewrite Hout by set_solver. by rewrite put_hdr_eq.
Qed.

(** The chain begins at the arena itself *)
Lemma slots_head a : bucket_ok (slot_size a) → ∃ l, slots a = mem a :: l.
Proof.
  intros Hk. destruct (slot_count_pow _ Hk) as [_ Hc]. unfold slots, slots_from.
  destruct (slot_count (slot_size a)) as [|n]; [lia|]. simpl. eexists. f_equal. lia.
Qed.

(** *** The arena becomes part of the heap *)
Definition noted (l : arena_list) (a : heap_page_t) s : heapimpl_t V :=
  match l with
  | MainList => set_arenas (arenas s ++ [a]) (exts s) s
  | ExtList => match exts s with
               | e :: rest => set_arenas (arenas s) (Ext (ext_page e) (ext_arenas e ++ [a]) :: rest) s
               | [] => s
               end
  end.

(** Wherever it is noted, it is one more arena *)
Lemma noted_more l a s : room_in s l →
  ∃ A E, noted l a s = set_arenas A E s ∧ A ++ (E ≫= ext_arenas) ≡ₚ a :: all_arenas s ∧ ext_page <$> E = ext_page <$> exts s.
Proof.
  unfold all_arenas. destruct l; simpl; intros Hl.
  - exists (arenas s ++ [a]), (exts s). split; [done|]. split; [|done].
    rewrite <- app_assoc. simpl. by rewrite <- Permutation_middle.
  - destruct (exts s) as [|e rest] eqn:He; [done|]. exists (arenas s), (Ext (ext_page e) (ext_arenas e ++ [a]) :: rest).
    split; [done|]. split; [|done]. simpl. rewrite <- app_assoc. simpl.
    etrans; [apply Permutation_app_head; symmetry; apply Permutation_middle|]. by rewrite <- Permutation_middle.
Qed.

Section new_arena.
Context (H : list region) (s : heapimpl_t V) (a : heap_page_t) (A : list heap_page_t) (E : list heap_ext_arena_t).
Context (hs : Z → heap_hdr_t) (lst : list Z).
Hypothesis Hr : heap_rep H s.
Hypothesis Hk : bucket_ok (slot_size a).
Hypothesis HR : regions_ok (vm s) (arena_at a :: footprint H s).
Hypothesis HA : A ++ (E ≫= ext_arenas) ≡ₚ a :: all_arenas s.
Hypothesis HE : ext_page <$> E = ext_page <$> exts s.
Hypothesis Hlst : linked hs (mem a) (slots a ++ lst).
Hypothesis Hnd : NoDup lst.
Hypothesis Hin : ∀ h, h ∈ lst ↔ slot_of s (slot_size a) h ∧ sig1 (hdrs s h) = HEAP_BLK_TYPE_FREE.
Hypothesis Hold : ∀ x, x ∉ slots a → hs x = hdrs s x.
Hypothesis Hnew : ∀ x, x ∈ slots a → sig1 (hs x) = HEAP_BLK_TYPE_FREE.

Let s' : heapimpl_t V :=
  set_chains (<[bucket_of (slot_size a) := mem a]> (free_chains s)) (set_hdrs hs (set_arenas A E s)).

Lemma new_slot_of k h : slot_of s' k h ↔ slot_of s k h ∨ (k = slot_size a ∧ h ∈ slots a).
Proof.
  unfold slot_of, all_arenas. simpl. setoid_rewrite HA. setoid_rewrite elem_of_cons. naive_solver.
Qed.

Lemma new_slots_apart : (∀ k h, slot_of s k h → h ∉ slots a) ∧ (∀ r, r ∈ H → r.1 ∉ slots a).
Proof.
  destruct HR as [[Hap _] _].
  destruct (outside_footprint _ _ (mem a) HEAP_BUCKET_SIZE Hr Hap ltac:(by rewrite bucket_size)) as [Hs Hh].
  split; [intros k h Hx Hi; apply (Hs _ _ Hx)|intros r Hx Hi; apply (Hh _ Hx)];
    pose proof (slot_inside _ _ Hk Hi) as Hb; lia.
Qed.

Lemma new_footprint : footprint H s' ≡ₚ arena_at a :: footprint H s.
Proof.
  unfold footprint, all_arenas at 1. simpl. rewrite HA. simpl. f_equiv.
  rewrite !(list_fmap_compose ext_page (λ p, (p, PAGESIZE))), HE. done.
Qed.

Lemma new_arena_rep : heap_rep H s'.
Proof.
  destruct new_slots_apart as [Hs Hh]. destruct (bucket_of_ok _ Hk) as [Hb Hbk]. constructor.
  - apply Hr.
  - rewrite new_footprint. exact HR.
  - apply Hr.
  - unfold all_arenas. simpl. setoid_rewrite HA. intros x [->|Hx]%elem_of_cons; [done|]. by apply (rep_arenas _ _ Hr).
  - intros r Hx. destruct (rep_held _ _ Hr r Hx) as (H1 & H2 & k & Hk' & Hz & Hsl). unfold held_rep. simpl.
    rewrite Hold by auto. split; [done|]. split; [done|]. exists k. split; [done|]. split; [done|].
    intros ?. apply new_slot_of. auto.
  - intros k h [Hx|[-> Hx]]%new_slot_of; simpl; [|auto]. rewrite Hold by eauto. by apply Hr.
  - intros i Hi. destruct (decide (i = bucket_of (slot_size a))) as [->|Hne].
    + exists (mem a), (slots a ++ lst). simpl.
      destruct (rep_free _ _ Hr _ Hi) as (q & l & Hq & _).
      rewrite list_lookup_insert_eq by (by eapply lookup_lt_Some). split; [done|]. split; [done|]. split.
      * apply NoDup_app. split; [apply slots_from_NoDup; unfold bucket_ok, HEAP_1ST_BUCKET in Hk; lia|].
        split; [|done]. intros y Hy [Hy' _]%Hin. by apply (Hs _ _ Hy').
      * intros h. rewrite elem_of_app, Hin, Hbk, new_slot_of. split.
        -- intros [Hx|[Hx Hf]]; [auto|]. rewrite Hold by eauto. auto.
        -- intros [[Hx|[_ Hx]] Hf]; [|auto]. rewrite Hold in Hf by eauto. auto.
    + destruct (rep_free _ _ Hr _ Hi) as (q & l & Hq & Hl & Hndl & Hinl). exists q, l. simpl.
      assert (HEAP_1ST_BUCKET + Z.of_nat i ≠ slot_size a) as Hik by (unfold bucket_of, bucket_ok, HEAP_1ST_BUCKET in *; lia).
      rewrite list_lookup_insert_ne by done. split; [done|]. split; [|split; [done|]].
      * eapply linked_ext; [|exact Hl]. intros x [Hx _]%Hinl. apply Hold. eauto.
      * intros h. rewrite Hinl, new_slot_of. split; [intros [Hx Hf]; rewrite Hold by eauto; auto|].
        intros [[Hx|[? _]] Hf]; [|done]. rewrite Hold in Hf by eauto. auto.
Qed.
End new_arena.
End arenas.
