(* ===== verification/KernelHeapSafe.v ===== *)
(** * The kernel's heap: allocation and release

    Every block the heap hands out is mapped memory that no other block has,
    is large enough and aligned; giving one back makes it free again.  The
    memory that an allocation may have to map is [alloc_need]. *)

From stdpp Require Import base tactics list numbers option sets relations.
From S2P Require Import Prelude Regions BitSearch KernelHeap KernelHeapRep KernelHeapArena.

#[local] Open Scope Z_scope.

Section alloc.
Context {V : Type} {Hvm : Vm V} {Hlaws : VmLaws V}.
Implicit Types (s : heapimpl_t V) (H : list region).

Lemma log2_of_run n s : 0 < n < 2 ^ 63 → log2_of n s = Done (Z.log2_up n, s).
Proof.
  intros Hn. unfold log2_of, bit_log2. destruct (Z.eqb_spec n 0); [lia|].
  rewrite s64_small, log2_n_64 by (rewrite ?u64_small; lia). by rewrite u64_small by lia.
Qed.

Lemma chain_run i p s : free_chains s !! i = Some p → chain i s = Done (p, s).
Proof. unfold chain. by intros ->. Qed.
Lemma set_chain_run i p q s : free_chains s !! i = Some q → set_chain i p s = Done (tt, set_chains (<[i := p]> (free_chains s)) s).
Proof. intros Hi%lookup_lt_Some. unfold set_chain. by rewrite decide_True. Qed.
Lemma kassert_run (b : bool) s : b = true → kassert b s = Done (tt, s).
Proof. by intros ->. Qed.

Lemma create_arena_spec H s k :
  heap_rep H s → bucket_ok k → PAGESIZE + arena_need s ≤ vm_room (vm s) →
  ∃ p s', create_arena k s = Done (p, s') ∧ heap_rep H s' ∧ p ≠ 0
    ∧ free_chains s' !! bucket_of k = Some p ∧ KernelHeap.id s' = KernelHeap.id s.
Proof.
  intros Hr Hk Hroom. assert (0 ≤ arena_need s) as Hn0.
  { unfold arena_need. case_decide; [|done]. unfold reserve_need. rewrite bucket_size. lia. }
  unfold create_arena. rewrite (bind_done _ _ _ _ _ (kassert_run _ s (proj2 (Z.leb_le _ _) (proj1 Hk)))).
  destruct (pick_list_spec H s Hr ltac:(lia)) as (l & e & v & Hpick & Hr1 & Hl & Hv).
  rewrite (bind_done _ _ _ _ _ Hpick). set (s1 := set_vm v _) in *.
  destruct (alloc_arena_spec H s1 Hr1) as (r & cells & n & cap & v2 & c & Hca & Hr2 & HR2).
  { change (arena_need s1) with (arena_need s). change (vm s1) with v. lia. }
  rewrite (bind_done _ _ _ _ _ Hca). set (s2 := with_reserve _ _ _ _ _ _) in *.
  pose proof HR2 as [_ HF]. inversion HF as [|? ? (Hc & _) _]; subst. simpl in Hc.
  destruct (Z.eqb_spec c 0); [lia|]. unfold note_arena. run.
  change (match l with MainList => _ | ExtList => _ end) with (noted l (Arena c k) s2).
  destruct (noted_more l (Arena c k) s2 Hl) as (A & E & -> & HA & HE).
  destruct (bucket_of_ok _ Hk) as [Hb Hbk].
  destruct (rep_free _ _ Hr2 _ Hb) as (q & lst & Hq & Hlq & Hnd & Hin). rewrite Hbk in Hin.
  rewrite (bind_done _ _ _ _ _ (chain_run (bucket_of k) q (set_arenas A E s2) Hq)).
  assert (0 ≤ k) as Hk0 by (unfold bucket_ok, HEAP_1ST_BUCKET in Hk; lia).
  destruct (new_slots_apart H s2 (Arena c k) Hr2 Hk HR2) as [Hapart _].
  destruct (fill_slots_spec (slot_count k) c k q lst (set_arenas A E s2) Hc Hk0 Hlq) as (hs & q' & Hfill & Hlk & Hout & Hnew).
  { intros x [Hx _]%Hin. by apply (Hapart _ _ Hx). }
  rewrite (bind_done _ _ _ _ _ Hfill).
  rewrite (bind_done _ _ _ _ _ (set_chain_run (bucket_of k) q' q (set_hdrs hs (set_arenas A E s2)) Hq)).
  destruct (slots_head (Arena c k) Hk) as [tl Htl]. unfold slots in Htl. simpl in Htl.
  assert (q' = c) as -> by (rewrite Htl in Hlk; by destruct Hlk).
  eexists _, _. split; [reflexivity|]. split; [|split; [done|split; [|done]]].
  - exact (new_arena_rep H s2 (Arena c k) A E hs lst Hr2 Hk HR2 HA HE Hlk Hnd Hin Hout Hnew).
  - simpl. by rewrite list_lookup_insert_eq by (by eapply lookup_lt_Some).
Qed.

(** ** Allocation *)

(** The block sizes *)
Definition block_log2 (n : Z) : Z := Z.log2_up (n + HDR_SIZE).

Lemma block_log2_spec n : 0 < n < 2 ^ 36 → HEAP_1ST_BUCKET ≤ block_log2 n ≤ 37 ∧ n + HDR_SIZE ≤ 2 ^ block_log2 n.
Proof.
  unfold block_log2, HDR_SIZE, HEAP_1ST_BUCKET. intros Hn. split; [split|].
  - change 5 with (Z.log2_up 17). apply Z.log2_up_le_mono. lia.
  - etrans; [apply (Z.log2_up_le_mono _ (2 ^ 37)); lia|]. by rewrite Z.log2_up_pow2.
  - apply (proj2 (Z.log2_up_spec (n + 16) ltac:(lia))).
Qed.

(** The memory it may have to map *)
Definition alloc_need s (n : Z) : Z :=
  let k := block_log2 n in
  if 17 <=? k then 2 ^ k
  else match free_chains s !! bucket_of k with Some 0 => PAGESIZE + arena_need s | _ => 0 end.

Lemma large_alloc_spec H s k hid :
  heap_rep H s → 17 ≤ k ≤ 37 → 2 ^ k ≤ vm_room (vm s) →
  ∃ h s', large_alloc (2 ^ k) hid s = Done (h + HDR_SIZE, s') ∧ heap_rep ((h, 2 ^ k) :: H) s'.
Proof.
  intros Hr Hk Hroom. unfold large_alloc, mmap. unfold mbind at 1, M_bind at 1.
  pose proof (Z.pow_pos_nonneg 2 k ltac:(lia) ltac:(lia)) as Hpos.
  pose proof (vm_mmap_room (vm s) _ Hpos Hroom) as Hok.
  destruct (vm_mmap (2 ^ k) (vm s)) as [p v] eqn:Hm. simpl in Hok.
  assert (2 ^ k mod PAGESIZE = 0) as Hpg.
  { unfold PAGESIZE. change 4096 with (2 ^ 12). replace k with (k - 12 + 12) by lia.
    rewrite Z.pow_add_r by lia. by apply Z.mod_mul. }
  destruct (vm_mmap_new _ _ _ _ Hpos Hpg Hm Hok) as (Hp & _).
  pose proof (regions_mmap _ _ _ _ _ (rep_regions _ _ Hr) Hpos Hpg Hm Hok) as HR.
  destruct (Z.eqb_spec p MAP_FAILED); [done|]. cbn [negb].
  assert (p ≠ 0) as Hp0 by lia. rewrite (bind_done _ _ _ _ _ (kassert_run true _ eq_refl)), (bind_done _ _ _ _ _ (store_hdr_run p _ _ Hp0)).
  eexists _, _. split; [reflexivity|]. by apply rep_large.
Qed.

Lemma kh_alloc_spec H s n :
  heap_rep H s → 0 < n < 2 ^ 36 → alloc_need s n ≤ vm_room (vm s) →
  ∃ h s', alloc n s = Done (h + HDR_SIZE, s') ∧ heap_rep ((h, 2 ^ block_log2 n) :: H) s'.
Proof.
  intros Hr Hn Hneed. destruct (block_log2_spec n Hn) as [Hk Hsz]. unfold alloc_need in Hneed.
  unfold alloc. rewrite (bind_done _ _ _ _ _ (kassert_run _ s (proj2 (Z.ltb_lt _ _) (proj2 Hn)))).
  destruct (Z.eqb_spec n 0); [lia|]. rewrite (bind_done _ _ _ _ _ (log2_of_run (n + HDR_SIZE) s ltac:(unfold HDR_SIZE; lia))).
  fold (block_log2 n). set (k := block_log2 n) in *.
  rewrite (bind_done _ _ _ _ _ (kassert_run _ s (proj2 (Z.leb_le _ _) (proj1 Hk)))). run.
  unfold HEAP_BUCKET_COUNT, HEAP_1ST_BUCKET in *.
  destruct (Z.leb_spec 17 k) as [Hl|Hl], (Z.leb_spec 12 (k - 5)); [|lia|lia|].
  { apply large_alloc_spec; [done|lia|done]. }
  assert (bucket_ok k) as Hb by (unfold bucket_ok, HEAP_BUCKET_COUNT, HEAP_1ST_BUCKET; lia).
  fold (bucket_of k). destruct (bucket_of_ok _ Hb) as [Hi _].
  destruct (rep_free _ _ Hr _ Hi) as (q & lst & Hq & _ & _ & _). rewrite (bind_done _ _ _ _ _ (chain_run _ _ _ Hq)).
  assert (∃ p s', (if q =? 0 then create_arena k else mret q) s = Done (p, s') ∧ heap_rep H s' ∧ p ≠ 0
    ∧ free_chains s' !! bucket_of k = Some p) as (p & s1 & Hrun & Hr1 & Hp & Hc).
  { rewrite Hq in Hneed. destruct (Z.eqb_spec q 0) as [->|Hq0]; [|by exists q, s].
    destruct (create_arena_spec H s k Hr Hb Hneed) as (p & s' & ? & ? & ? & ? & _). by exists p, s'. }
  rewrite (bind_done _ _ _ _ _ Hrun), (bind_done _ _ _ _ _ (load_hdr_run p s1 Hp)),
    (bind_done _ _ _ _ _ (set_chain_run _ (size_next (hdrs s1 p)) p s1 Hc)).
  destruct (rep_take_first H s1 k p Hr1 Hb Hc Hp) as (_ & Hf & Hr2).
  rewrite (bind_done (kassert _) _ _ _ _ (kassert_run _ _ (proj2 (Z.eqb_eq _ _) Hf))).
  rewrite (bind_done _ _ _ _ _ (store_hdr_run p _ _ Hp)). eexists _, _. split; [reflexivity|]. apply Hr2.
Qed.

(** ** Release *)

(** The header of a block that was handed out is read, and tells its size *)
Lemma free_reads H s h k : heap_rep ((h, 2 ^ k) :: H) s → HEAP_1ST_BUCKET ≤ k →
  0 < h ∧ free (h + HDR_SIZE) s =
    (kassert ((HEAP_1ST_BUCKET <=? k) && (k <? 32));;
     if k - HEAP_1ST_BUCKET <? HEAP_BUCKET_COUNT then
       first ← chain (bucket_of k);
       store_hdr h (Hdr first HEAP_BLK_TYPE_FREE (heap_id (hdrs s h)));;
       set_chain (bucket_of k) h
     else large_free h (2 ^ k)) s.
Proof.
  intros Hr Hk0. destruct (held_mapped _ _ (h, 2 ^ k) Hr ltac:(set_solver)) as (Hpos & _). simpl in Hpos.
  destruct (rep_held _ _ Hr (h, 2 ^ k) ltac:(set_solver)) as (Hsig & Hsz & k' & Hk & Heq & _). simpl in Hsig, Hsz, Heq.
  unfold HEAP_1ST_BUCKET in Hk, Hk0. assert (k = k') as <- by (apply (Z.pow_inj_r 2); lia).
  split; [done|]. unfold free. destruct (Z.eqb_spec (h + HDR_SIZE) 0) as [Hz|_]; [unfold HDR_SIZE in Hz; lia|].
  rewrite Z.add_simpl_r, (bind_done _ _ _ _ _ (load_hdr_run h s ltac:(lia))), Hsz.
  rewrite (bind_done _ _ _ _ _ (kassert_run _ s (proj2 (Z.eqb_eq _ _) Hsig))).
  pose proof (Z.pow_pos_nonneg 2 k ltac:(lia) ltac:(lia)). pose proof (Z.pow_lt_mono_r 2 k 38 ltac:(lia) ltac:(lia) ltac:(lia)).
  rewrite (bind_done _ _ _ _ _ (log2_of_run (2 ^ k) s ltac:(lia))), Z.log2_up_pow2 by lia. done.
Qed.

Lemma kh_free_spec H s h k :
  heap_rep ((h, 2 ^ k) :: H) s → HEAP_1ST_BUCKET ≤ k < 32 →
  ∃ s', free (h + HDR_SIZE) s = Done (tt, s') ∧ heap_rep H s'.
Proof.
  intros Hr Hk. destruct (free_reads _ _ _ _ Hr (proj1 Hk)) as [Hpos ->].
  assert ((HEAP_1ST_BUCKET <=? k) && (k <? 32) = true) as Hrange.
  { apply andb_true_iff. split; [apply Z.leb_le|apply Z.ltb_lt]; lia. }
  rewrite (bind_done _ _ _ _ _ (kassert_run _ s Hrange)).
  destruct (Z.ltb_spec (k - HEAP_1ST_BUCKET) HEAP_BUCKET_COUNT) as [Hs|Hl].
  - assert (bucket_ok k) as Hb by (unfold bucket_ok; lia). destruct (bucket_of_ok _ Hb) as [Hi _].
    destruct (rep_free _ _ Hr _ Hi) as (q & lst & Hq & _ & _ & _). rewrite (bind_done _ _ _ _ _ (chain_run _ _ _ Hq)).
    rewrite (bind_done _ _ _ _ _ (store_hdr_run h _ s ltac:(lia))).
    rewrite (set_chain_run (bucket_of k) h q (put_hdr h _ s) Hq). eexists. split; [reflexivity|].
    exact (rep_put H s k h q _ Hr Hb Hq).
  - eexists. split; [reflexivity|]. apply rep_unlarge; [done|unfold HEAP_1ST_BUCKET, HEAP_BUCKET_COUNT in *; lia].
Qed.

(** A block of 2^32 bytes or more is not taken back: the assertion fails *)
Lemma free_too_big H s h k : heap_rep ((h, 2 ^ k) :: H) s → 32 ≤ k → free (h + HDR_SIZE) s = Fault AssertFailed.
Proof.
  intros Hr Hk. destruct (free_reads _ _ _ _ Hr) as [_ ->]; [unfold HEAP_1ST_BUCKET; lia|].
  apply bind_fault. unfold kassert. by rewrite (proj2 (Z.ltb_ge k 32) Hk), andb_false_r.
Qed.
End alloc.

(** * The kernel's heap: what its clients may rely on *)

Section safe.
Context {V : Type} {Hvm : Vm V} {Hlaws : VmLaws V}.
Implicit Types (s : heapimpl_t V) (H : list region).

(** A heap that has just been made *)
Lemma heap_empty_rep junk i (v : V) : heap_rep [] (heap_empty junk i v).
Proof.
  constructor; simpl; [apply NoDup_nil_2|by split|lia|set_solver|set_solver|by intros k h (a & []%elem_of_nil & _)|].
  intros i' Hi. exists 0, []. split; [change (replicate 12 0 !! i' = Some 0); by apply lookup_replicate|]. split; [done|]. split; [apply NoDup_nil_2|].
  intros h. split; [set_solver|]. by intros [(a & []%elem_of_nil & _) _].
Qed.

(** ** The check of all headers passes *)

Lemma slot_sig H s k h : heap_rep H s → slot_of s k h → slot_valid (hdrs s h) = true.
Proof.
  intros Hr Hs. unfold slot_valid. destruct (rep_slots _ _ Hr _ _ Hs) as [->|Hin]; [done|].
  destruct (rep_held _ _ Hr _ Hin) as (Hsig & _). simpl in Hsig. by rewrite Hsig.
Qed.

Lemma arena_valid_rep H s a : heap_rep H s → a ∈ all_arenas s → arena_valid (hdrs s) a = true.
Proof.
  intros Hr Ha. apply forallb_forall. intros i Hi%in_seq. apply (slot_sig H s (slot_size a)); [done|].
  exists a. split; [done|]. split; [done|]. apply elem_slots. exists i. unfold slot_count. split; [lia|done].
Qed.

Lemma kh_validate_spec H s : heap_rep H s → validate s = Done (true, s).
Proof.
  intros Hr. unfold validate, gets. do 2 f_equal. apply andb_true_iff. split; apply forallb_forall.
  - intros a Ha%list_elem_of_In. assert (a ∈ all_arenas s) as Hin by (unfold all_arenas; set_solver).
    apply andb_true_iff. split; [|by eapply arena_valid_rep].
    pose proof (rep_larges _ _ Hr) as [_ HF]. rewrite Forall_forall in HF.
    destruct (HF (arena_at a)) as (_ & _ & _ & Htop & _); [apply elem_of_app; left; by apply list_elem_of_fmap_2|].
    apply Z.ltb_lt. change (u64 (- HEAP_BUCKET_SIZE)) with (2 ^ 64 - 65536). simpl in Htop.
    rewrite bucket_size in Htop. unfold VM_TOP in Htop. lia.
  - intros e He%list_elem_of_In. apply forallb_forall. intros a Ha%list_elem_of_In. eapply arena_valid_rep; [done|].
    unfold all_arenas. apply elem_of_app. right. apply list_elem_of_bind. eauto.
Qed.

(** ** Clients

    A client allocates, and frees what it holds.  [live] lists what it holds,
    with the byte counts it asked for.  The virtual memory has the room an
    allocation needs. *)
Definition client : Type := heapimpl_t V * list region.

Inductive heap_step : client → client → Prop :=
  | step_alloc s live n p s' :
      0 < n < 2 ^ 36 → alloc_need s n ≤ vm_room (vm s) → alloc n s = Done (p, s') → heap_step (s, live) (s', (p, n) :: live)
  | step_free s live live' p n s' :
      live ≡ₚ (p, n) :: live' → free p s = Done (tt, s') → heap_step (s, live) (s', live').

(** The block behind what the client holds *)
Definition block_of (b : region) : region := (b.1 - HDR_SIZE, 2 ^ block_log2 b.2).

Definition client_inv (c : client) : Prop :=
  Forall (λ b, 0 < b.2 < 2 ^ 36) c.2 ∧ heap_rep (block_of <$> c.2) c.1.

#[local] Instance client_rep_proper : Proper ((≡ₚ) ==> (=) ==> iff) heap_rep.
Proof.
  assert (∀ H H' s, H ≡ₚ H' → heap_rep H s → heap_rep H' s) as Hone.
  { intros H H' s HH [Hn HR Hv Ha Hh Hs Hf]. constructor; try done.
    - by rewrite <- HH.
    - unfold footprint in *. by rewrite <- HH.
    - intros r. rewrite <- HH. apply Hh.
    - intros k h Hk. rewrite <- HH. by apply Hs. }
  intros H H' HH s ? <-. split; apply Hone; [done|by symmetry].
Qed.

Lemma step_inv c c' : client_inv c → heap_step c c' → client_inv c'.
Proof.
  intros [HF Hr] Hstep. destruct Hstep as [s live n p s' Hn Hroom Hrun|s live live' p n s' Hp Hrun]; simpl in *.
  - destruct (kh_alloc_spec _ _ n Hr Hn Hroom) as (h & s2 & Hrun2 & Hr2). rewrite Hrun in Hrun2. simplify_eq.
    split; [by constructor|]. simpl. unfold block_of at 1. simpl. by rewrite Z.add_simpl_r.
  - rewrite Hp in Hr, HF. apply Forall_cons in HF as [Hn HF]. simpl in Hn. split; [done|].
    rewrite fmap_cons in Hr. unfold block_of at 1 in Hr. simpl in Hr. destruct (block_log2_spec n Hn) as [Hk _].
    replace p with (p - HDR_SIZE + HDR_SIZE) in Hrun by lia.
    destruct (decide (block_log2 n < 32)) as [Hs|Hs]; [|by rewrite (free_too_big _ _ _ _ Hr) in Hrun by lia].
    destruct (kh_free_spec _ _ _ _ Hr ltac:(lia)) as (s2 & Hrun2 & Hr2). rewrite Hrun in Hrun2. by simplify_eq.
Qed.

(** What holds of a heap and what its client holds *)
Record client_safe (c : client) : Prop := {
  safe_blocks : ∀ b, b ∈ c.2 → b.1 mod 16 = 0 ∧ ∀ a, b.1 ≤ a < b.1 + b.2 → vm_mapped (vm c.1) a;
  safe_apart : pairwise apart c.2;
  safe_valid : validate c.1 = Done (true, c.1);
  safe_alloc : ∀ n, 0 < n < 2 ^ 36 → alloc_need c.1 n ≤ vm_room (vm c.1) →
    ∃ p s', alloc n c.1 = Done (p, s') ∧ p ≠ 0;
  safe_free : ∀ b, b ∈ c.2 → b.2 + HDR_SIZE ≤ 2 ^ 31 → ∃ s', free b.1 c.1 = Done (tt, s')
}.

Lemma block_of_inside b : 0 < b.2 < 2 ^ 36 → (block_of b).1 + HDR_SIZE = b.1 ∧ b.1 + b.2 ≤ (block_of b).1 + (block_of b).2.
Proof. intros Hb. destruct (block_log2_spec _ Hb) as [_ Hsz]. unfold block_of. simpl. lia. Qed.

Lemma inv_blocks c b : client_inv c → b ∈ c.2 →
  block_ok (vm c.1) (block_of b) ∧ (block_of b).1 + HDR_SIZE = b.1 ∧ b.1 + b.2 ≤ (block_of b).1 + (block_of b).2.
Proof.
  intros [HF Hr] Hb. split; [apply (held_mapped _ _ _ Hr); by apply list_elem_of_fmap_2|].
  apply block_of_inside. by apply (proj1 (Forall_forall _ _) HF).
Qed.

Lemma inv_apart c : client_inv c → pairwise apart c.2.
Proof.
  intros [HF Hr]. apply (pairwise_map apart apart block_of (λ b, 0 < b.2 < 2 ^ 36)); [done| |].
  - intros x y Hx Hy. pose proof (block_of_inside _ Hx). pose proof (block_of_inside _ Hy).
    unfold apart, HDR_SIZE in *. lia.
  - pose proof (rep_nodup _ _ Hr) as Hnd. pose proof (λ x y, held_apart _ _ x y Hr) as Hap. revert Hnd Hap.
    change (map block_of c.2) with (block_of <$> c.2). generalize (block_of <$> c.2). intros L. induction L as [|x L IH]; intros Hnd Hap; [done|].
    apply NoDup_cons in Hnd as [Hx Hnd]. split; [|apply IH; [done|]; intros; apply Hap; set_solver].
    apply Forall_forall. intros y Hy. apply Hap; [set_solver..|]. intros <-. apply Hx. by apply list_elem_of_fmap_2.
Qed.

Lemma kh_client_safe c : client_inv c → client_safe c.
Proof.
  intros Hc. pose proof Hc as [HF Hr]. constructor.
  - intros b Hb. destruct (inv_blocks c b Hc Hb) as ((_ & Hal & _ & Hm) & Hh & Hin). unfold HDR_SIZE in Hh. split.
    + rewrite <- Hh, Z.add_mod, Hal by done. done.
    + intros a Ha. apply Hm. lia.
  - by apply inv_apart.
  - by eapply kh_validate_spec.
  - intros n Hn Hroom. destruct (kh_alloc_spec _ _ n Hr Hn Hroom) as (h & s' & Hrun & Hr').
    destruct (held_mapped _ _ (h, 2 ^ block_log2 n) Hr' ltac:(set_solver)) as (Hpos & _). simpl in Hpos.
    exists (h + HDR_SIZE), s'. split; [done|unfold HDR_SIZE; lia].
  - intros b [L HL]%elem_of_Permutation Hsz. rewrite HL in Hr, HF. apply Forall_cons in HF as [Hb HF].
    rewrite fmap_cons in Hr. unfold block_of at 1 in Hr. destruct (block_log2_spec _ Hb) as [Hk _].
    assert (block_log2 b.2 < 32) as Hlt.
    { pose proof (Z.log2_up_le_mono (b.2 + HDR_SIZE) (2 ^ 31) Hsz) as Hl. rewrite Z.log2_up_pow2 in Hl by done.
      unfold block_log2. lia. }
    destruct (kh_free_spec _ _ _ _ Hr ltac:(lia)) as (s' & Hrun & _). rewrite Z.sub_simpl_r in Hrun. eauto.
Qed.

Lemma reset_inv junk i n (v : V) :
  (0 < n)%nat → reserve_need n ≤ vm_room v →
  ∃ s, heap_create n (heap_empty junk i v) = Done (true, s) ∧ client_inv (s, []).
Proof.
  intros Hn Hroom. destruct (reserve_reset_spec [] (heap_empty junk i v) n (heap_empty_rep _ _ _) Hn Hroom)
    as (r & cells & v' & Hrun & Hr & _). eexists. split; [exact Hrun|]. split; [constructor|exact Hr].
Qed.


(** ** Realloc *)

Lemma realloc_reads H s h k n :
  heap_rep ((h, 2 ^ k) :: H) s → HEAP_1ST_BUCKET ≤ k → 0 < n < 2 ^ 36 →
  realloc (h + HDR_SIZE) n s =
    (if block_log2 n =? k then mret (h + HDR_SIZE, None)
     else new_block ← alloc n;
          if new_block =? 0 then mret (0, None)
          else h' ← load_hdr h;
               free (h + HDR_SIZE);;
               mret (new_block, Some (new_block, h + HDR_SIZE, u64 (size_next h' - HDR_SIZE)))) s.
Proof.
  intros Hr Hk0 Hn. destruct (held_mapped _ _ (h, 2 ^ k) Hr ltac:(set_solver)) as (Hpos & _). simpl in Hpos.
  destruct (rep_held _ _ Hr (h, 2 ^ k) ltac:(set_solver)) as (Hsig & Hsz & k' & Hk & Heq & _). simpl in Hsig, Hsz, Heq.
  unfold HEAP_1ST_BUCKET in Hk, Hk0. assert (k = k') as <- by (apply (Z.pow_inj_r 2); lia).
  unfold realloc. destruct (Z.eqb_spec (h + HDR_SIZE) 0) as [Hz|_]; [unfold HDR_SIZE in Hz; lia|].
  destruct (Z.eqb_spec n 0); [lia|]. cbn [negb andb].
  rewrite Z.add_simpl_r, (bind_done _ _ _ _ _ (load_hdr_run h s ltac:(lia))), Hsz.
  rewrite (bind_done _ _ _ _ _ (kassert_run _ s (proj2 (Z.eqb_eq _ _) Hsig))).
  pose proof (Z.pow_pos_nonneg 2 k ltac:(lia) ltac:(lia)). pose proof (Z.pow_lt_mono_r 2 k 38 ltac:(lia) ltac:(lia) ltac:(lia)).
  rewrite (bind_done _ _ _ _ _ (log2_of_run (2 ^ k) s ltac:(lia))), Z.log2_up_pow2 by lia.
  rewrite u64_small by (unfold HDR_SIZE; lia).
  rewrite (bind_done _ _ _ _ _ (log2_of_run (n + HDR_SIZE) s ltac:(unfold HDR_SIZE; lia))). done.
Qed.

Lemma realloc_moves H s h k n :
  heap_rep ((h, 2 ^ k) :: H) s → HEAP_1ST_BUCKET ≤ k < 32 → 0 < n < 2 ^ 36 → block_log2 n ≠ k →
  alloc_need s n ≤ vm_room (vm s) →
  ∃ h' s', realloc (h + HDR_SIZE) n s = Done ((h' + HDR_SIZE, Some (h' + HDR_SIZE, h + HDR_SIZE, 2 ^ k - HDR_SIZE)), s')
    ∧ heap_rep ((h', 2 ^ block_log2 n) :: H) s'.
Proof.
  intros Hr Hk Hn Hne Hroom. rewrite (realloc_reads _ _ _ _ _ Hr (proj1 Hk) Hn).
  destruct (Z.eqb_spec (block_log2 n) k); [done|].
  destruct (kh_alloc_spec _ _ n Hr Hn Hroom) as (h' & s1 & Hrun & Hr1). rewrite (bind_done _ _ _ _ _ Hrun).
  destruct (held_mapped _ _ (h', 2 ^ block_log2 n) Hr1 ltac:(set_solver)) as (Hpos' & _). simpl in Hpos'.
  destruct (held_mapped _ _ (h, 2 ^ k) Hr1 ltac:(set_solver)) as (Hpos & _). simpl in Hpos.
  destruct (rep_held _ _ Hr1 (h, 2 ^ k) ltac:(set_solver)) as (_ & Hsz & _). simpl in Hsz.
  destruct (Z.eqb_spec (h' + HDR_SIZE) 0) as [Hz|_]; [unfold HDR_SIZE in Hz; lia|].
  rewrite (bind_done _ _ _ _ _ (load_hdr_run h s1 ltac:(lia))), Hsz.
  rewrite (perm_swap (h, 2 ^ k)) in Hr1.
  destruct (kh_free_spec _ _ _ _ Hr1 Hk) as (s2 & Hrun2 & Hr2). rewrite (bind_done _ _ _ _ _ Hrun2).
  exists h', s2. split; [|done]. unfold mret, M_ret. do 5 f_equal. unfold HEAP_1ST_BUCKET in Hk.
  pose proof (Z.pow_lt_mono_r 2 k 38 ltac:(lia) ltac:(lia) ltac:(lia)). pose proof (Z.pow_le_mono_r 2 5 k ltac:(lia) ltac:(lia)).
  apply u64_small. unfold HDR_SIZE. lia.
Qed.

Lemma realloc_keeps H s h k n :
  heap_rep ((h, 2 ^ k) :: H) s → HEAP_1ST_BUCKET ≤ k → 0 < n < 2 ^ 36 → block_log2 n = k →
  realloc (h + HDR_SIZE) n s = Done ((h + HDR_SIZE, None), s).
Proof. intros Hr Hk Hn He. rewrite (realloc_reads _ _ _ _ _ Hr Hk Hn), He, Z.eqb_refl. done. Qed.

(** Realloc of a block to a larger size class moves it: the new block is
    handed out in place of the old one, which is free again; the bytes copied
    are all that the old block has, they fit in the new one, and the two
    blocks do not overlap.  Within the size class the block stays and nothing
    changes. *)
Theorem kernel_heap_realloc_grows H s h k n :
  heap_rep ((h, 2 ^ k) :: H) s → HEAP_1ST_BUCKET ≤ k < 32 → 0 < n < 2 ^ 36 → k ≤ block_log2 n →
  alloc_need s n ≤ vm_room (vm s) →
  (block_log2 n = k ∧ realloc (h + HDR_SIZE) n s = Done ((h + HDR_SIZE, None), s))
  ∨ ∃ h' s' len,
      realloc (h + HDR_SIZE) n s = Done ((h' + HDR_SIZE, Some (h' + HDR_SIZE, h + HDR_SIZE, len)), s')
      ∧ heap_rep ((h', 2 ^ block_log2 n) :: H) s'
      ∧ HDR_SIZE + len = 2 ^ k ∧ HDR_SIZE + len ≤ 2 ^ block_log2 n
      ∧ apart (h' + HDR_SIZE, len) (h + HDR_SIZE, len).
Proof.
  intros Hr Hk Hn Hle Hroom. destruct (decide (block_log2 n = k)) as [He|Hne].
  { left. split; [done|]. eapply realloc_keeps; [done|lia|done|done]. }
  right. destruct (realloc_moves _ _ _ _ _ Hr Hk Hn Hne Hroom) as (h' & s' & Hrun & Hr').
  exists h', s', (2 ^ k - HDR_SIZE). split; [done|]. split; [done|]. unfold HEAP_1ST_BUCKET in Hk.
  pose proof (Z.pow_le_mono_r 2 k (block_log2 n) ltac:(lia) Hle). split; [lia|]. split; [lia|].
  destruct (kh_alloc_spec _ _ n Hr Hn Hroom) as (h2 & s1 & Hrun1 & Hr1).
  assert (h2 = h') as ->.
  { rewrite (realloc_reads _ _ _ _ _ Hr (proj1 Hk) Hn) in Hrun. destruct (Z.eqb_spec (block_log2 n) k); [done|].
    rewrite (bind_done _ _ _ _ _ Hrun1) in Hrun. destruct (_ =? 0); [done|].
    unfold mbind, M_bind in Hrun. repeat case_match; unfold mret, M_ret in *; simplify_eq; lia. }
  assert (apart (h', 2 ^ block_log2 n) (h, 2 ^ k)) as Hap.
  { apply (held_apart _ _ _ _ Hr1); [set_solver..|]. intros He. apply Hne. injection He as _ He. apply (Z.pow_inj_r 2); lia. }
  unfold apart, HDR_SIZE in *. simpl in *. lia.
Qed.

(** To a smaller size class it also copies all that the old block has, which
    is more than the new block can hold. *)
Lemma realloc_shrink_overflows H s h k n :
  heap_rep ((h, 2 ^ k) :: H) s → HEAP_1ST_BUCKET ≤ k < 32 → 0 < n < 2 ^ 36 → block_log2 n < k →
  alloc_need s n ≤ vm_room (vm s) →
  ∃ h' s' len, realloc (h + HDR_SIZE) n s = Done ((h' + HDR_SIZE, Some (h' + HDR_SIZE, h + HDR_SIZE, len)), s')
    ∧ heap_rep ((h', 2 ^ block_log2 n) :: H) s' ∧ 2 ^ block_log2 n < HDR_SIZE + len.
Proof.
  intros Hr Hk Hn Hlt Hroom. destruct (realloc_moves _ _ _ _ _ Hr Hk Hn ltac:(lia) Hroom) as (h' & s' & Hrun & Hr').
  exists h', s', (2 ^ k - HDR_SIZE). split; [done|]. split; [done|].
  pose proof (Z.pow_lt_mono_r 2 (block_log2 n) k ltac:(lia) ltac:(unfold HEAP_1ST_BUCKET in Hk; lia) Hlt). lia.
Qed.
End safe.
