(* ===== verification/PageHeap.v ===== *)
(** * kernel/lib/heap.cc: the debugging heap with guard pages

    Each block is a mapping of its own, placed so that it ends at a page that
    cannot be accessed.  What is filled with patterns is the operation's
    answer beside the block: address, pattern and length of each fill.
    mprotect with PROT_NONE is a parameter.  madvise, which only brings pages
    in early, has no effect here. *)

From stdpp Require Import base tactics list numbers option.
From S2P Require Import Prelude Regions KernelHeap KernelHeapRep KernelHeapArena KernelHeapSafe.

#[local] Open Scope Z_scope.

Class VmProtect (V : Type) := { vm_mprotect_none : Z → Z → V → V }.

Section pageheap.
Context {V : Type} {Hvm : Vm V} {Hprot : VmProtect V}.
Abbreviation KH := (M (heapimpl_t V)).
Abbreviation fill := (Z * Z * Z)%type.

Definition mprotect_none (p n : Z) : KH unit := modify (λ s, set_vm (vm_mprotect_none p n (vm s)) s).

(** The sizes: of the block with its header, of the pages it is in, and the
    offset of the guard page behind them *)
Definition page_block (n : Z) : Z := u64 (Z.land (u64 (n + 15)) (u64 (-16)) + HDR_SIZE).
Definition page_reserve (n : Z) : Z := Z.land (u64 (page_block n + PAGESIZE - 1)) (u64 (- PAGESIZE)).
Definition page_alloc (n : Z) : Z := u64 (page_reserve n + PAGESIZE * 2).
Definition page_end_guard (n : Z) : Z := u64 (page_alloc n - PAGESIZE).

Definition pageheap_alloc (exact_size : Z) : KH (Z * list fill) :=
  let size := page_block exact_size in
  let end_guard := page_end_guard exact_size in
  blk ← mmap (page_alloc exact_size);
  mprotect_none blk PAGESIZE;;
  mprotect_none (u64 (blk + end_guard)) PAGESIZE;;
  let hdr := u64 (blk + u64 (end_guard - size)) in
  kassert (Z.land (u64 (hdr + HDR_SIZE)) 15 =? 0);;
  heap ← gets KernelHeap.id;
  store_hdr hdr (Hdr size HEAP_BLK_TYPE_USED heap);;
  mret (u64 (hdr + HDR_SIZE),
    [(u64 (blk + PAGESIZE), 0xFB, u64 (hdr - u64 (blk + PAGESIZE)));
     (u64 (hdr + HDR_SIZE + exact_size), 0xFA, u64 (hdr + size - (hdr + HDR_SIZE + exact_size)));
     (u64 (hdr + HDR_SIZE), 0xF0, exact_size)]).

(** calloc's memset follows the fills of the allocation *)
Definition pageheap_calloc (num size : Z) : KH (Z * list fill) :=
  let num := u64 (num * size) in
  '(blk, fills) ← pageheap_alloc num;
  mret (blk, fills ++ [(blk, 0, num)]).

Definition pageheap_free (block : Z) : KH unit :=
  let hdr := u64 (block - HDR_SIZE) in
  h ← load_hdr hdr;
  kassert (sig1 h =? HEAP_BLK_TYPE_USED);;
  heap ← gets KernelHeap.id;
  kassert (heap_id h =? heap);;
  let st := Z.land hdr (u64 (- PAGESIZE)) in
  mprotect_none st (u64 (u64 (hdr + size_next h) - st)).

(** The copy's destination, source and length come with the answer, which is
    [block] and not where the copy went. *)
Definition pageheap_realloc (block size : Z) : KH (Z * option (Z * Z * Z)) :=
  if block =? 0 then '(p, _) ← pageheap_alloc size; mret (p, None)
  else if size =? 0 then pageheap_free block;; mret (0, None)
  else
    let hdr := u64 (block - HDR_SIZE) in
    h ← load_hdr hdr;
    heap ← gets KernelHeap.id;
    kassert (heap_id h =? heap);;
    '(other, _) ← pageheap_alloc size;
    h ← load_hdr hdr;
    mret (block, Some (other, block, u64 (size_next h - HDR_SIZE))).

Definition heap_get_block_heap_id (thread_cpu_number block : Z) : KH Z :=
  if block =? 0 then mret thread_cpu_number else h ← load_hdr (u64 (block - HDR_SIZE)); mret (heap_id h).

(** ** The sizes *)
Lemma page_sizes n : 0 ≤ n < 2 ^ 62 →
  page_block n = HDR_SIZE + 16 * ((n + 15) / 16)
  ∧ page_block n mod 16 = 0
  ∧ page_reserve n = PAGESIZE * ((page_block n + (PAGESIZE - 1)) / PAGESIZE)
  ∧ page_alloc n = page_reserve n + 2 * PAGESIZE ∧ page_end_guard n = page_reserve n + PAGESIZE
  ∧ page_block n ≤ page_reserve n < page_block n + PAGESIZE ∧ page_reserve n < 2 ^ 63.
Proof.
  intros Hn. assert (page_block n = HDR_SIZE + 16 * ((n + 15) / 16)) as Hb.
  { unfold page_block. rewrite (u64_small (n + 15)) by lia. change (u64 (-16)) with (u64 (- 2 ^ 4)).
    rewrite land_neg_pow2 by lia. change (2 ^ 4) with 16. unfold HDR_SIZE.
    rewrite u64_small by (Z.div_mod_to_equations; lia). lia. }
  assert (n + HDR_SIZE ≤ page_block n < n + HDR_SIZE + 16) as Hr by (rewrite Hb; Z.div_mod_to_equations; lia).
  assert (page_reserve n = PAGESIZE * ((page_block n + (PAGESIZE - 1)) / PAGESIZE)) as Hp.
  { unfold page_reserve. change (- PAGESIZE) with (- 2 ^ 12). unfold HDR_SIZE, PAGESIZE in *. rewrite (u64_small (_ - 1)) by lia.
    rewrite land_neg_pow2 by lia. change (2 ^ 12) with 4096. do 2 f_equal. lia. }
  assert (page_block n ≤ page_reserve n < page_block n + PAGESIZE) as Hpr
    by (rewrite Hp; unfold PAGESIZE; Z.div_mod_to_equations; lia).
  unfold HDR_SIZE, PAGESIZE in *. split; [done|]. split.
  { rewrite Hb. apply Z.mod_divide; [done|]. exists (1 + (n + 15) / 16). lia. }
  split; [done|].
  assert (page_alloc n = page_reserve n + 2 * 4096) as Ha by (unfold page_alloc, PAGESIZE; rewrite u64_small; lia).
  split; [done|]. split; [|lia]. unfold page_end_guard, PAGESIZE. rewrite Ha, u64_small; lia.
Qed.

Section laws.
Context {Hlaws : VmLaws V}.

(** A block of the page heap: [blk] is its mapping, [p] the block *)
Record guarded (blk p n : Z) : Prop := {
  guarded_aligned : p mod 16 = 0;
  guarded_front : blk + PAGESIZE ≤ p - HDR_SIZE;
  guarded_end : let guard := blk + PAGESIZE + page_reserve n in p + n ≤ guard < p + n + 16
}.

(** Kernel page heap: an allocation whose mapping succeeds returns.  The block and its
    header lie between two pages that are made inaccessible, the block is
    16-byte aligned and ends less than 16 bytes before the second of them,
    the header tells its size and its heap, and the fills are exactly the
    rest of the pages and the block, in the pattern that tells them apart. *)
Theorem pageheap_alloc_guarded s n blk v :
  0 ≤ n < 2 ^ 62 → vm_mmap (page_alloc n) (vm s) = (blk, v) → blk ≠ MAP_FAILED →
  ∃ p, let guard := blk + PAGESIZE + page_reserve n in
    guarded blk p n
    ∧ pageheap_alloc n s = Done ((p,
        [(blk + PAGESIZE, 0xFB, p - HDR_SIZE - (blk + PAGESIZE)); (p + n, 0xFA, guard - (p + n)); (p, 0xF0, n)]),
        put_hdr (p - HDR_SIZE) (Hdr (guard - (p - HDR_SIZE)) HEAP_BLK_TYPE_USED (KernelHeap.id s))
          (set_vm (vm_mprotect_none guard PAGESIZE (vm_mprotect_none blk PAGESIZE v)) s)).
Proof.
  intros Hn Hm Hok. destruct (page_sizes n Hn) as (Hb & Hb16 & Hr & Ha & Hg & Hbr & Hr63).
  assert (0 ≤ page_block n) as Hb0 by (rewrite Hb; unfold HDR_SIZE; Z.div_mod_to_equations; lia).
  assert (page_alloc n mod PAGESIZE = 0) as Hpg.
  { rewrite Ha, Hr. apply Z.mod_divide; [done|]. eexists (_ + 2). rewrite Z.mul_add_distr_r, (Z.mul_comm PAGESIZE). reflexivity. }
  assert (0 < page_alloc n) as Hpos by (rewrite Ha; unfold PAGESIZE in *; lia).
  destruct (vm_mmap_new _ _ _ _ Hpos Hpg Hm Hok) as (Hp0 & Hpa & Htop & _).
  rewrite Ha in Htop. unfold VM_TOP in Htop.
  set (hdr := blk + PAGESIZE + page_reserve n - page_block n).
  assert (hdr mod 16 = 0) as Hal.
  { apply Z.mod_divide in Hpa as [q Hq]; [|done]. apply Z.mod_divide in Hb16 as [q' Hq']; [|done].
    apply Z.mod_divide; [done|]. unfold hdr, PAGESIZE in *.
    exists (q * 256 + 256 + 256 * ((page_block n + (4096 - 1)) / 4096) - q'). lia. }
  exists (hdr + HDR_SIZE). assert ((hdr + HDR_SIZE) mod 16 = 0) as Hal' by (rewrite Z.add_mod, Hal by done; done).
  assert (n + HDR_SIZE ≤ page_block n < n + HDR_SIZE + 16) as Hnb by (rewrite Hb; Z.div_mod_to_equations; lia).
  cbv zeta. split; [split; [done|unfold hdr; lia|unfold hdr; lia]|].
  unfold pageheap_alloc, mmap. rewrite Hg. unfold mbind at 1, M_bind at 1. rewrite Hm. unfold mprotect_none. run.
  unfold PAGESIZE, HDR_SIZE in *.
  rewrite (u64_small (_ - page_block n)), (u64_small (blk + (_ - _))), (u64_small (blk + (_ + _))) by lia.
  replace (blk + (page_reserve n + 4096 - page_block n)) with hdr by (unfold hdr; lia).
  replace (blk + (page_reserve n + 4096)) with (blk + 4096 + page_reserve n) by lia.
  assert (hdr + page_block n = blk + 4096 + page_reserve n) as Hend by (unfold hdr; lia).
  assert (0 < hdr) by (unfold hdr; lia).
  unwrap. change 15 with (2 ^ 4 - 1) at 1. rewrite land_low_mask by done. change (2 ^ 4) with 16. rewrite Hal'.
  rewrite (bind_done _ _ _ _ _ (kassert_run (0 =? 0) _ eq_refl)). run.
  rewrite (bind_done _ _ _ _ _ (store_hdr_run hdr _ _ ltac:(lia))). unfold mret, M_ret.
  replace (hdr + 16 - 16) with hdr by lia. replace (blk + 4096 + page_reserve n - hdr) with (page_block n) by lia.
  replace (blk + 4096 + page_reserve n - (hdr + 16 + n)) with (hdr + page_block n - (hdr + 16 + n)) by lia. done.
Qed.

(** Giving the block back makes every page of it inaccessible, up to the
    guard page. *)
Lemma pageheap_free_protects s blk p n :
  0 < blk → blk mod PAGESIZE = 0 → 0 ≤ n → blk + PAGESIZE + page_reserve n < 2 ^ 64 → guarded blk p n →
  let guard := blk + PAGESIZE + page_reserve n in
  hdrs s (p - HDR_SIZE) = Hdr (guard - (p - HDR_SIZE)) HEAP_BLK_TYPE_USED (KernelHeap.id s) →
  ∃ st, blk + PAGESIZE ≤ st ≤ p - HDR_SIZE ∧ st mod PAGESIZE = 0
    ∧ pageheap_free p s = Done (tt, set_vm (vm_mprotect_none st (guard - st) (vm s)) s).
Proof.
  intros Hblk Hpg Hn Htop [Hal Hfront Hend] guard Hh. cbv zeta in Hend. fold guard in Hend, Htop.
  unfold pageheap_free. unfold HDR_SIZE in *. rewrite (u64_small (p - 16)) by (unfold PAGESIZE in *; lia).
  rewrite (bind_done _ _ _ _ _ (load_hdr_run (p - 16) s ltac:(unfold PAGESIZE in *; lia))), Hh. simpl.
  rewrite (bind_done _ _ _ _ _ (kassert_run true s eq_refl)). run.
  rewrite Z.eqb_refl, (bind_done _ _ _ _ _ (kassert_run true s eq_refl)).
  change (- PAGESIZE) with (- 2 ^ 12). rewrite land_neg_pow2 by (unfold PAGESIZE in *; lia). change (2 ^ 12) with 4096.
  exists (4096 * ((p - 16) / 4096)). apply Z.mod_divide in Hpg as [q Hq]; [|done]. unfold PAGESIZE in *.
  replace (p - 16 + (guard - (p - 16))) with guard by lia. rewrite (u64_small guard) by lia.
  split; [Z.div_mod_to_equations; lia|]. split; [rewrite Z.mul_comm; by apply Z.mod_mul|].
  rewrite u64_small by (Z.div_mod_to_equations; lia). done.
Qed.
End laws.

(** Realloc answers the block it was given, not the copy it made: the old
    block is still the one in use, and the new one is lost. *)
Lemma pageheap_realloc_keeps_old s block n r copy s' :
  block ≠ 0 → n ≠ 0 → pageheap_realloc block n s = Done ((r, copy), s') → r = block.
Proof.
  intros Hb Hn. unfold pageheap_realloc. destruct (Z.eqb_spec block 0), (Z.eqb_spec n 0); [done..|].
  unfold mbind, M_bind. intros Hrun. repeat case_match; unfold mret, M_ret in *; by simplify_eq.
Qed.
End pageheap.
