(* ===== verification/KernelHeapCases.v ===== *)
(** * The kernel's heap on concrete memory

    A virtual memory that gives out addresses in order satisfies what the
    heap relies on; the theorems about the heap are applied to it, and the
    paths on which the code goes wrong are run. *)

From stdpp Require Import base tactics list numbers option sets relations.
From S2P Require Import Prelude Regions BitSearch KernelHeap KernelHeapRep KernelHeapArena KernelHeapSafe PageHeap.

#[local] Open Scope Z_scope.

(** ** A memory of which the last address is fixed *)

(** What was mapped, in pages, unmapped and made inaccessible, the latest first *)
Inductive vm_event := Mapped (pages : N) | Unmapped (p n : Z) | Protected (p n : Z).
Definition VM_LIMIT : Z := 2 ^ 40.
Definition page_bytes (pages : N) : Z := PAGESIZE * Z.of_N pages.

Fixpoint next_free (v : list vm_event) : Z :=
  match v with
  | [] => PAGESIZE
  | Mapped c :: v => next_free v + page_bytes c
  | Unmapped _ _ :: v | Protected _ _ :: v => next_free v
  end.
Fixpoint in_use (v : list vm_event) (a : Z) : Prop :=
  match v with
  | [] => False
  | Mapped c :: v => in_use v a ∨ next_free v ≤ a < next_free v + page_bytes c
  | Unmapped p n :: v => in_use v a ∧ ¬ p ≤ a < p + n
  | Protected _ _ :: v => in_use v a
  end.

#[local] Instance line_vm : Vm (list vm_event) := {
  vm_mmap n v :=
    if next_free v + n <=? VM_LIMIT then (next_free v, Mapped (Z.to_N ((n + (PAGESIZE - 1)) / PAGESIZE)) :: v) else (MAP_FAILED, v);
  vm_munmap p n v := Unmapped p n :: v
}.
#[local] Instance line_protect : VmProtect (list vm_event) := { vm_mprotect_none p n v := Protected p n :: v }.

Lemma page_bytes_nonneg c : 0 ≤ page_bytes c.
Proof. unfold page_bytes, PAGESIZE. lia. Qed.

Lemma next_free_page v : PAGESIZE ≤ next_free v ∧ next_free v mod PAGESIZE = 0.
Proof.
  induction v as [|[c|p n|p n] v [IH1 IH2]]; simpl; [done| |done|done]. pose proof (page_bytes_nonneg c). split; [lia|].
  unfold page_bytes. rewrite Z.add_mod, IH2, (Z.mul_comm PAGESIZE), Z.mod_mul by done. done.
Qed.

Lemma in_use_below v a : in_use v a → a < next_free v.
Proof.
  induction v as [|[c|p n|p n] v IH]; simpl; [done| |tauto|done]. pose proof (page_bytes_nonneg c). intros [?%IH|?]; lia.
Qed.

Lemma whole_pages n : 0 < n → n mod PAGESIZE = 0 → page_bytes (Z.to_N ((n + (PAGESIZE - 1)) / PAGESIZE)) = n.
Proof.
  unfold page_bytes, PAGESIZE. intros Hn Hm. apply Z.mod_divide in Hm as [q ->]; [|done].
  rewrite (Z.add_comm (q * 4096)), Z.div_add by done. change ((4096 - 1) / 4096) with 0. lia.
Qed.

#[local] Program Instance line_laws : VmLaws (list vm_event) := {
  vm_mapped := in_use;
  vm_room v := VM_LIMIT - next_free v
}.
Next Obligation.
  intros v n p v' Hn Hm Hrun Hp. simpl in Hrun. destruct (Z.leb_spec (next_free v + n) VM_LIMIT) as [Hle|]; [|by simplify_eq].
  simplify_eq. destruct (next_free_page v) as [Hge Hal]. simpl. rewrite whole_pages by done.
  unfold VM_LIMIT, VM_TOP, PAGESIZE in *. split; [lia|]. split; [done|]. split; [lia|]. split; [|split; [done|lia]].
  intros a Ha ?%in_use_below. lia.
Qed.
Next Obligation. intros v. destruct (next_free_page v). unfold VM_LIMIT, VM_TOP, PAGESIZE in *. lia. Qed.
Next Obligation.
  intros v n Hn Hroom. simpl in *. destruct (Z.leb_spec (next_free v + n) VM_LIMIT); [|lia]. simpl. destruct (next_free_page v).
  change MAP_FAILED with (2 ^ 64 - 1). unfold VM_LIMIT in *. lia.
Qed.
Next Obligation. done. Qed.
Next Obligation. simpl. lia. Qed.

Definition junk (a : Z) : heap_hdr_t := Hdr a 7 9.


(** ** A heap with one block *)
Definition heap0 : heapimpl_t (list vm_event) := heap_empty junk 3 [].
Definition after {A} (m : M (heapimpl_t (list vm_event)) A) (s : heapimpl_t (list vm_event)) : heapimpl_t (list vm_event) :=
  match m s with Done (_, s') => s' | Fault _ => s end.
Definition answer {A} (m : M (heapimpl_t (list vm_event)) A) (s : heapimpl_t (list vm_event)) : outcome A :=
  match m s with Done (a, _) => Done a | Fault f => Fault f end.
Definition heap1 : heapimpl_t (list vm_event) := after (alloc 100) heap0.

Lemma heap1_block : ∃ h, alloc 100 heap0 = Done (h + HDR_SIZE, heap1) ∧ heap_rep [(h, 2 ^ 7)] heap1.
Proof.
  destruct (kh_alloc_spec [] heap0 100 (heap_empty_rep _ _ _)) as (h & s & Hrun & Hr); [lia|vm_compute; discriminate|].
  assert (heap1 = s) as Hs by (unfold heap1, after; rewrite Hrun; reflexivity).
  exists h. rewrite Hs. split; [exact Hrun|]. change (2 ^ 7) with (2 ^ block_log2 100). exact Hr.
Qed.

(** The slots of the arena are handed out in order; a block given back is the
    next one handed out; other sizes come from other arenas. *)
Example blocks_in_order :
  answer (a ← alloc 100; b ← alloc 112; c ← alloc 113; free a;; d ← alloc 100; mret [b - a; a - c; d - a]) heap0
  = Done [128; 65536; 0].
Proof. vm_compute. reflexivity. Qed.

Lemma kernel_heap_realloc_grows_witness :
  ∃ h, heap_rep [(h, 2 ^ 7)] heap1 ∧ ∃ h' s' len,
    realloc (h + HDR_SIZE) 2000 heap1 = Done ((h' + HDR_SIZE, Some (h' + HDR_SIZE, h + HDR_SIZE, len)), s')
    ∧ HDR_SIZE + len = 2 ^ 7.
Proof.
  destruct heap1_block as (h & _ & Hr). exists h. split; [exact Hr|].
  destruct (kernel_heap_realloc_grows [] heap1 h 7 2000 Hr) as [[He _]|(h' & s' & len & Hrun & _ & Hlen & _)].
  - unfold HEAP_1ST_BUCKET. lia.
  - lia.
  - vm_compute. discriminate.
  - vm_compute. discriminate.
  - vm_compute in He. discriminate.
  - exists h', s', len. split; [exact Hrun|exact Hlen].
Defined.

(** A block of 100 bytes with its guard pages: it ends 12 bytes before the
    second *)
Lemma pageheap_alloc_guarded_witness :
  0 ≤ 100 < 2 ^ 62 ∧ ∃ p, guarded 4096 p 100
    ∧ pageheap_alloc 100 heap0 = Done ((p, [(8192, 0xFB, p - HDR_SIZE - 8192); (p + 100, 0xFA, 12288 - (p + 100)); (p, 0xF0, 100)]),
        put_hdr (p - HDR_SIZE) (Hdr (12288 - (p - HDR_SIZE)) HEAP_BLK_TYPE_USED 3)
          (set_vm [Protected 12288 4096; Protected 4096 4096; Mapped 3] heap0)).
Proof.
  split; [lia|].
  destruct (pageheap_alloc_guarded heap0 100 4096 [Mapped 3]) as (p & Hg & Hrun); [lia|reflexivity|discriminate|].
  exists p. split; [exact Hg|]. change (4096 + PAGESIZE + page_reserve 100) with 12288 in Hrun. exact Hrun.
Defined.

(** ** Paths on which the code goes wrong *)

(** Reallocating 1000 bytes to 100 copies 1008 bytes into a block of 112 *)
Example realloc_shrink_copies :
  answer (p ← alloc 1000; '(_, copy) ← realloc p 100; mret ((λ c, c.2) <$> copy)) heap0 = Done (Some 1008).
Proof. vm_compute. reflexivity. Qed.

(** A memory that is full *)
Definition full : list vm_event := [Mapped (2 ^ 28)].
Definition heap_full : heapimpl_t (list vm_event) := heap_empty junk 3 full.

(** create_arena looks for MAP_FAILED, and gets the null that alloc_arena
    returns. *)
Example arena_failure_unseen : answer alloc_arena heap_full = Done 0 ∧ answer (alloc 100) heap_full = Fault OutOfRange.
Proof. vm_compute. split; reflexivity. Qed.

(** A large allocation that fails halts at the assertion before the test that
    would return null. *)
Example large_failure_halts : answer (alloc 100000) heap_full = Fault AssertFailed.
Proof. vm_compute. reflexivity. Qed.

(** A reserve that could not be filled is left with its count set, no array
    and no capacity: the next arena is taken from it all the same. *)
Example reserve_failure_leaves_count :
  answer (ok ← reserve_reset 512; n ← gets reserve_count; r ← gets reserve; mret (ok, n, r)) heap_full = Done (false, 512%nat, 0)
  ∧ answer (reserve_reset 512;; alloc_arena) heap_full = Fault OutOfRange.
Proof. vm_compute. split; reflexivity. Qed.

(** What can be allocated can be too large to be given back. *)
Example huge_block_stays : answer (p ← alloc (2 ^ 31); free p) heap0 = Fault AssertFailed.
Proof. vm_compute. reflexivity. Qed.

(** The destructor unmaps the overflow page after the one it has emptied: the
    first of them stays, and a page at address 0 is unmapped. *)
Example destroy_skips_page :
  vm (after (destroy_exts [Ext 0x5000 []; Ext 0x6000 []]) heap0) = [Unmapped 0 4096; Unmapped 0x6000 4096].
Proof. vm_compute. reflexivity. Qed.
