(* ===== verification/DescAlloc.v ===== *)
(** * kernel/lib/desc_alloc.cc: descriptor numbers

    4096 descriptors in 64 words of 64 bits, with a word of summary bits.
    The words are kept as unsigned patterns.  The lock is held for the whole
    of each operation.  A failed assertion halts. *)

From stdpp Require Import base tactics list numbers option.
From S2P Require Import Prelude BitSearch.

#[local] Open Scope Z_scope.

(** class desc_alloc_t *)
Record desc_alloc_t := DescAlloc {
  level0 : Z;           (* bit set: the level1 entry is full, says the header *)
  level1 : list Z       (* int64_t[64]; bit set: the descriptor is used *)
}.

Abbreviation DA := (M desc_alloc_t).

(** Zero-initialized, as an object with static storage is *)
Definition desc_init : desc_alloc_t := DescAlloc 0 (replicate 64 0).

Definition dassert (b : bool) : DA unit := if b then mret tt else throw AssertFailed.
Definition word (i : Z) : DA Z := λ s,
  match level1 s !! Z.to_nat i with Some w => Done (w, s) | None => Fault OutOfRange end.
Definition set_word (i w : Z) : DA unit :=
  modify (λ s, DescAlloc (level0 s) (<[Z.to_nat i := w]> (level1 s))).
(** level0 &= ~(uint64_t(1) << bit) *)
Definition clear_level0 (bit : Z) : DA unit :=
  modify (λ s, DescAlloc (Z.land (level0 s) (u64 (Z.lnot (u64 (Z.shiftl 1 bit))))) (level1 s)).
(** bit_lsb_set, whose result is undefined for 0 *)
Definition lsb (n : Z) : DA Z :=
  match bit_lsb_set W64 n with Some i => mret i | None => throw OutOfRange end.

Definition ALL : Z := u64 (Z.lnot 0).

Definition desc_alloc : DA Z :=
  l0 ← gets level0;
  if l0 =? ALL then mret (-1)
  else
    bitlvl0 ← lsb (u64 (Z.lnot l0));
    mask ← word bitlvl0;
    dassert (negb (mask =? ALL));;
    bitlvl1 ← lsb (u64 (Z.lnot mask));
    let mask := Z.lor mask (u64 (Z.shiftl 1 bitlvl1)) in
    set_word bitlvl0 mask;;
    (if mask =? ALL then clear_level0 bitlvl0 else mret tt);;
    mret (Z.shiftl bitlvl0 6 + bitlvl1).

Definition desc_free (fd : Z) : DA unit :=
  dassert ((0 <=? fd) && (fd <? 4096));;
  let bitlvl0 := Z.shiftr fd 6 in
  let bitlvl1 := Z.land fd 63 in
  mask ← word bitlvl0;
  let clr := u64 (Z.shiftl 1 bitlvl1) in
  dassert (negb (Z.land mask clr =? 0));;
  set_word bitlvl0 (Z.land mask (u64 (Z.lnot clr)));;
  clear_level0 bitlvl0.

Definition desc_take (fd : Z) : DA bool :=
  dassert ((0 <=? fd) && (fd <? 4096));;
  let bitlvl0 := u8 (Z.shiftr fd 6) in
  let bitlvl1 := u8 (Z.land fd 63) in
  mask ← word bitlvl0;
  let set := u64 (Z.shiftl 1 bitlvl1) in
  if negb (Z.land mask set =? 0) then mret false
  else
    let mask := Z.lor mask set in
    set_word bitlvl0 mask;;
    (if mask =? ALL then clear_level0 bitlvl0 else mret tt);;
    mret true.

(** take of a list: every descriptor is tried *)
Fixpoint desc_take_all (fds : list Z) (result : bool) : DA bool :=
  match fds with
  | [] => mret result
  | fd :: fds => ok ← desc_take fd; desc_take_all fds (result && (ok : bool))
  end.

(** ** What the words mean *)

Definition used (s : desc_alloc_t) (fd : Z) : bool :=
  match level1 s !! Z.to_nat (fd / 64) with
  | Some w => Z.testbit w (fd mod 64)
  | None => false
  end.

(** The summary word is never anything but 0: no operation sets a bit of it *)
Record desc_ok (s : desc_alloc_t) : Prop := DescOk {
  ok_level0 : level0 s = 0;
  ok_length : length (level1 s) = 64%nat;
  ok_words : Forall (λ w, 0 ≤ w < 2 ^ 64) (level1 s)
}.

Lemma desc_init_ok : desc_ok desc_init.
Proof. constructor; [done|done|]. apply Forall_replicate. lia. Qed.

(** ** Bits of a word *)

Lemma one_shl b : 0 ≤ b < 64 → u64 (Z.shiftl 1 b) = 2 ^ b.
Proof.
  intros Hb. rewrite Z.shiftl_1_l. apply u64_small. split; [lia|]. apply Z.pow_lt_mono_r; lia.
Qed.

Lemma range_bits w : 0 ≤ w → (∀ i, 64 ≤ i → Z.testbit w i = false) → 0 ≤ w < 2 ^ 64.
Proof.
  intros H0 Hb. split; [done|]. apply Z.ltb_lt. destruct (Z.ltb_spec w (2 ^ 64)) as [|Hge]; [done|exfalso].
  assert (64 ≤ Z.log2 w) as Hlog by (apply Z.log2_le_pow2; lia).
  specialize (Hb _ Hlog). by rewrite Z.bit_log2 in Hb by lia.
Qed.

Lemma high_bits w i : 0 ≤ w < 2 ^ 64 → 64 ≤ i → Z.testbit w i = false.
Proof. intros Hw Hi. rewrite <- (Z.mod_small w (2 ^ 64)) by lia. apply Z.mod_pow2_bits_high. lia. Qed.

Lemma set_bit_range w b : 0 ≤ w < 2 ^ 64 → 0 ≤ b < 64 → 0 ≤ Z.lor w (2 ^ b) < 2 ^ 64.
Proof.
  intros Hw Hb. apply range_bits; [apply Z.lor_nonneg; lia|]. intros i Hi.
  rewrite Z.lor_spec, high_bits, Z.pow2_bits_false by lia. done.
Qed.

Lemma set_bit_spec w b i : 0 ≤ b → Z.testbit (Z.lor w (2 ^ b)) i = (i =? b) || Z.testbit w i.
Proof. intros Hb. rewrite Z.lor_spec, Z.pow2_bits_eqb, Z.eqb_sym by lia. apply orb_comm. Qed.

Lemma clear_bit_spec w b i :
  0 ≤ b < 64 → 0 ≤ i < 64 →
  Z.testbit (Z.land w (u64 (Z.lnot (2 ^ b)))) i = negb (i =? b) && Z.testbit w i.
Proof.
  intros Hb Hi. rewrite Z.land_spec. unfold u64. rewrite Z.mod_pow2_bits_low, Z.lnot_spec by lia.
  rewrite Z.pow2_bits_eqb, Z.eqb_sym by lia. apply andb_comm.
Qed.

Lemma test_bit_mask w b : 0 ≤ b → (Z.land w (2 ^ b) =? 0) = negb (Z.testbit w b).
Proof.
  intros Hb. destruct (Z.testbit w b) eqn:E; simpl.
  - apply Z.eqb_neq. intros Hz.
    assert (Z.testbit (Z.land w (2 ^ b)) b = false) as Hf by (rewrite Hz; apply Z.bits_0).
    by rewrite Z.land_spec, E, Z.pow2_bits_true in Hf by lia.
  - apply Z.eqb_eq, Z.bits_inj'. intros i Hi. rewrite Z.land_spec, Z.bits_0, Z.pow2_bits_eqb by lia.
    destruct (Z.eqb_spec b i) as [<-|]; [by rewrite E|]. apply andb_false_r.
Qed.

(** A word that is not full has a clear bit *)
Lemma lsb_clear s w :
  0 ≤ w < 2 ^ 64 → w ≠ ALL →
  ∃ b, lsb (u64 (Z.lnot w)) s = Done (b, s) ∧ 0 ≤ b < 64 ∧ Z.testbit w b = false
    ∧ ∀ j, 0 ≤ j < b → Z.testbit w j = true.
Proof.
  intros Hw Hne. pose proof (u64_range (Z.lnot w)) as Hr.
  assert (u64 (Z.lnot w) = 2 ^ 64 - 1 - w) as Hc.
  { unfold u64, Z.lnot. symmetry. apply (Z.mod_unique _ _ (-1)); lia. }
  destruct (bit_lsb_set_spec W64 (u64 (Z.lnot w))) as (b & Hb & Hrange & Ht & Hl).
  { simpl. rewrite u64_small by lia. unfold ALL in Hne. change (u64 (Z.lnot 0)) with (2 ^ 64 - 1) in Hne. lia. }
  simpl in Ht, Hl. rewrite (u64_small (u64 (Z.lnot w))) in Ht, Hl by lia.
  exists b. unfold lsb. rewrite Hb. split; [done|]. split; [done|].
  unfold u64 in Ht, Hl. split.
  - rewrite Z.mod_pow2_bits_low, Z.lnot_spec in Ht by lia. by destruct (Z.testbit w b).
  - intros j Hj. specialize (Hl j Hj). rewrite Z.mod_pow2_bits_low, Z.lnot_spec in Hl by lia.
    by destruct (Z.testbit w j).
Qed.

(** ** The operations *)

Definition with_word (s : desc_alloc_t) (i w : Z) : desc_alloc_t :=
  DescAlloc (level0 s) (<[Z.to_nat i := w]> (level1 s)).

Lemma clear_level0_ok s b : level0 s = 0 → clear_level0 b s = Done (tt, s).
Proof.
  intros H0. unfold clear_level0, modify. rewrite H0, Z.land_0_l. destruct s; simpl in *. by subst.
Qed.

Lemma word_ok s i : desc_ok s → 0 ≤ i < 64 → ∃ w, level1 s !! Z.to_nat i = Some w ∧ word i s = Done (w, s) ∧ 0 ≤ w < 2 ^ 64.
Proof.
  intros [_ Hlen Hw] Hi. destruct (lookup_lt_is_Some_2 (level1 s) (Z.to_nat i)) as [w Hl]; [lia|].
  exists w. unfold word. rewrite Hl. split; [done|]. split; [done|]. exact (Forall_lookup_1 _ _ _ _ Hw Hl).
Qed.

Lemma with_word_ok s i w : desc_ok s → 0 ≤ w < 2 ^ 64 → desc_ok (with_word s i w).
Proof.
  intros [H0 Hlen Hw] Hr. constructor; simpl; [done|by rewrite length_insert|]. by apply Forall_insert.
Qed.

Lemma used_with_word s i w k :
  desc_ok s → 0 ≤ i < 64 → 0 ≤ k < 4096 →
  used (with_word s i w) k = if k / 64 =? i then Z.testbit w (k mod 64) else used s k.
Proof.
  intros [_ Hlen _] Hi Hk. unfold used. simpl.
  assert (0 ≤ k / 64 < 64) by (split; [apply Z.div_pos|apply Z.div_lt_upper_bound]; lia).
  destruct (Z.eqb_spec (k / 64) i) as [->|Hne].
  - rewrite list_lookup_insert_eq by lia. done.
  - rewrite list_lookup_insert_ne by lia. done.
Qed.

(** Descriptor [i * 64 + b] *)
Lemma split_fd k i b : 0 ≤ b < 64 → ((k / 64 =? i) && (k mod 64 =? b)) = (k =? i * 64 + b).
Proof.
  intros Hb. pose proof (Z.div_mod k 64 ltac:(lia)). pose proof (Z.mod_pos_bound k 64 ltac:(lia)).
  destruct (Z.eqb_spec k (i * 64 + b)) as [He|Hne].
  - assert (k / 64 = i) as -> by (symmetry; apply (Z.div_unique _ _ _ b); lia).
    assert (k mod 64 = b) as -> by (symmetry; apply (Z.mod_unique _ _ i); lia).
    by rewrite !Z.eqb_refl.
  - apply andb_false_iff. destruct (Z.eqb_spec (k / 64) i), (Z.eqb_spec (k mod 64) b); auto. lia.
Qed.

Lemma used_set_bit s i w b k :
  desc_ok s → level1 s !! Z.to_nat i = Some w → 0 ≤ i < 64 → 0 ≤ b < 64 → 0 ≤ k < 4096 →
  used (with_word s i (Z.lor w (2 ^ b))) k = (k =? i * 64 + b) || used s k.
Proof.
  intros Hok Hw Hi Hb Hk. rewrite used_with_word by done. rewrite <- split_fd by done.
  destruct (Z.eqb_spec (k / 64) i) as [Heq|]; [|done]. rewrite set_bit_spec by lia.
  unfold used. rewrite Heq, Hw. done.
Qed.

Lemma used_clear_bit s i w b k :
  desc_ok s → level1 s !! Z.to_nat i = Some w → 0 ≤ i < 64 → 0 ≤ b < 64 → 0 ≤ k < 4096 →
  used (with_word s i (Z.land w (u64 (Z.lnot (2 ^ b))))) k = negb (k =? i * 64 + b) && used s k.
Proof.
  intros Hok Hw Hi Hb Hk. rewrite used_with_word by done. rewrite <- split_fd by done.
  pose proof (Z.mod_pos_bound k 64 ltac:(lia)).
  destruct (Z.eqb_spec (k / 64) i) as [Heq|]; [|done]. rewrite clear_bit_spec by lia.
  unfold used. rewrite Heq, Hw. done.
Qed.

Lemma fd_parts fd :
  0 ≤ fd < 4096 → Z.shiftr fd 6 = fd / 64 ∧ Z.land fd 63 = fd mod 64 ∧ 0 ≤ fd / 64 < 64
    ∧ 0 ≤ fd mod 64 < 64 ∧ fd / 64 * 64 + fd mod 64 = fd.
Proof.
  intros Hfd. pose proof (Z.div_mod fd 64 ltac:(lia)). pose proof (Z.mod_pos_bound fd 64 ltac:(lia)).
  split; [apply (Z.shiftr_div_pow2 fd 6); lia|]. split; [apply (land_low_mask 6); lia|].
  split; [split; [apply Z.div_pos|apply Z.div_lt_upper_bound]; lia|]. split; [done|lia].
Qed.

(** As long as one of the first 64 descriptors is free, alloc returns the
    lowest free descriptor and marks that one and no other; with all 64 of
    them in use it fails its assertion. *)
Theorem desc_alloc_correct s :
  desc_ok s →
  (∃ fd s', desc_alloc s = Done (fd, s') ∧ desc_ok s' ∧ 0 ≤ fd < 64
     ∧ used s fd = false ∧ (∀ j, 0 ≤ j < fd → used s j = true)
     ∧ ∀ k, 0 ≤ k < 4096 → used s' k = (k =? fd) || used s k)
  ∨ ((∀ fd, 0 ≤ fd < 64 → used s fd = true) ∧ desc_alloc s = Fault AssertFailed).
Proof.
  intros Hok. destruct (word_ok s 0 Hok ltac:(lia)) as (w & Hl & Hw & Hr).
  assert (∀ k, 0 ≤ k < 64 → used s k = Z.testbit w k) as Hused.
  { intros k Hk. unfold used. rewrite Z.div_small, Z.mod_small by lia. by rewrite Hl. }
  unfold desc_alloc. run.
  rewrite (ok_level0 _ Hok). change (0 =? ALL) with false. cbv iota.
  rewrite (bind_done (lsb (u64 (Z.lnot 0))) _ s 0 s eq_refl). rewrite (bind_done _ _ _ _ _ Hw).
  destruct (Z.eqb_spec w ALL) as [->|Hne]; [right|left].
  - split; [|done]. intros fd Hfd. rewrite Hused by done. unfold ALL. change (u64 (Z.lnot 0)) with (Z.ones 64).
    rewrite Z.testbit_ones_nonneg by lia. apply Z.ltb_lt. lia.
  - change (dassert (negb false)) with (mret tt : DA unit). run.
    destruct (lsb_clear s w Hr Hne) as (b & Hlsb & Hb & Hclear & Hlow).
    rewrite (bind_done _ _ _ _ _ Hlsb). rewrite one_shl by done. cbv zeta.
    set (s1 := with_word s 0 (Z.lor w (2 ^ b))).
    assert (desc_ok s1) as Hok1 by (apply with_word_ok; [done|by apply set_bit_range]).
    rewrite (bind_done _ _ _ _ s1 (eq_refl (x := set_word _ _ _))).
    exists b, s1. split.
    { destruct (_ =? ALL).
      - rewrite (bind_done _ _ _ _ _ (clear_level0_ok s1 0 (ok_level0 _ Hok1))). done.
      - run. done. }
    split; [done|]. split; [done|]. split; [by rewrite Hused|].
    split; [intros j Hj; rewrite Hused by lia; by apply Hlow|].
    intros k Hk. apply (used_set_bit s 0 w b k); try done; lia.
Qed.

Lemma desc_alloc_witness :
  ∃ fd s', desc_alloc desc_init = Done (fd, s') ∧ used desc_init fd = false ∧ used s' fd = true.
Proof.
  destruct (desc_alloc_correct desc_init desc_init_ok) as [(fd & s' & Hrun & _ & Hfd & Hfree & _ & Hu)|[Hall _]].
  - exists fd, s'. split; [done|]. split; [done|]. rewrite Hu by lia. by rewrite Z.eqb_refl.
  - by specialize (Hall 0 ltac:(lia)).
Defined.

(** Take and free: take of a free descriptor marks it and returns true, of
    a used one it returns false and changes nothing; free of a used one
    clears it, and of a free one fails its assertion. *)
Theorem desc_take_free_correct s fd :
  desc_ok s → 0 ≤ fd < 4096 →
  if used s fd then
    desc_take fd s = Done (false, s)
    ∧ ∃ s', desc_free fd s = Done (tt, s') ∧ desc_ok s'
        ∧ ∀ k, 0 ≤ k < 4096 → used s' k = negb (k =? fd) && used s k
  else
    desc_free fd s = Fault AssertFailed
    ∧ ∃ s', desc_take fd s = Done (true, s') ∧ desc_ok s'
        ∧ ∀ k, 0 ≤ k < 4096 → used s' k = (k =? fd) || used s k.
Proof.
  intros Hok Hfd. destruct (fd_parts fd Hfd) as (Hs & Hm & Hi & Hb & Hsum).
  destruct (word_ok s (fd / 64) Hok Hi) as (w & Hl & Hw & Hr).
  assert (used s fd = Z.testbit w (fd mod 64)) as Hu by (unfold used; by rewrite Hl).
  assert (dassert ((0 <=? fd) && (fd <? 4096)) s = Done (tt, s)) as Hin.
  { destruct (Z.leb_spec 0 fd), (Z.ltb_spec fd 4096); try lia. done. }
  unfold desc_take, desc_free. rewrite !(bind_done _ _ _ _ _ Hin). rewrite Hs, Hm. cbv zeta.
  unwrap. rewrite !(bind_done _ _ _ _ _ Hw). rewrite !one_shl by done.
  rewrite test_bit_mask by lia. rewrite <- Hu. destruct (used s fd) eqn:Hused; cbn [negb].
  - split; [done|]. rewrite (bind_done (dassert true) _ s tt s eq_refl).
    set (w' := Z.land w (u64 (Z.lnot (2 ^ (fd mod 64))))).
    assert (desc_ok (with_word s (fd / 64) w')) as Hok1.
    { apply with_word_ok; [done|]. apply range_bits; [apply Z.land_nonneg; lia|].
      intros i Hi'. unfold w'. by rewrite Z.land_spec, high_bits by lia. }
    rewrite (bind_done _ _ _ _ (with_word s (fd / 64) w') (eq_refl (x := set_word _ _ _))).
    rewrite (clear_level0_ok _ _ (ok_level0 _ Hok1)).
    eexists. split; [done|]. split; [done|]. intros k Hk. unfold w'.
    rewrite (used_clear_bit s _ w) by done. by rewrite Hsum.
  - split; [done|].
    set (s1 := with_word s (fd / 64) (Z.lor w (2 ^ (fd mod 64)))).
    assert (desc_ok s1) as Hok1 by (apply with_word_ok; [done|by apply set_bit_range]).
    rewrite (bind_done _ _ _ _ s1 (eq_refl (x := set_word _ _ _))).
    exists s1. split.
    { destruct (_ =? ALL).
      - rewrite (bind_done _ _ _ _ _ (clear_level0_ok s1 _ (ok_level0 _ Hok1))). done.
      - run. done. }
    split; [done|]. intros k Hk. unfold s1. rewrite (used_set_bit s _ w) by done. by rewrite Hsum.
Qed.

Lemma desc_take_free_witness :
  desc_free 4095 desc_init = Fault AssertFailed
  ∧ ∃ s', desc_take 4095 desc_init = Done (true, s') ∧ desc_ok s'
      ∧ ∀ k, 0 ≤ k < 4096 → used s' k = (k =? 4095) || used desc_init k.
Proof. apply (desc_take_free_correct desc_init 4095 desc_init_ok). lia. Defined.

(** With the first 64 descriptors taken and all the others free, alloc halts *)
Lemma desc_alloc_after_64 :
  ∃ s, desc_take_all (seqZ 0 64) true desc_init = Done (true, s)
    ∧ used s 64 = false ∧ desc_alloc s = Fault AssertFailed.
Proof. eexists. split; [vm_compute; reflexivity|]. split; vm_compute; reflexivity. Qed.
