(* ===== verification/BinarySearch.v ===== *)
(** * kernel/lib/bsearch.cc: binary search by a comparison function

    [cmp i] is what the comparison function returns for the item at index
    [i] and the key. *)

From stdpp Require Import base tactics list numbers option.
From S2P Require Import Prelude.

#[local] Open Scope Z_scope.

Inductive search_end := Found (mid : Z) | Stopped (st diff : Z).

Fixpoint search_loop (fuel : nat) (cmp : Z → Z) (unique : bool) (st en diff : Z) : option search_end :=
  match fuel with
  | O => None
  | S fuel =>
      if st <? en then
        let mid := u64 (st + Z.shiftr (u64 (en - st)) 1) in
        let diff := cmp mid in
        if (diff =? 0) && unique then Some (Found mid)
        else if diff <=? 0 then search_loop fuel cmp unique st mid diff
        else search_loop fuel cmp unique (u64 (mid + 1)) en diff
      else Some (Stopped st diff)
  end.

(** [None] is fuel exhausted.  The result is an intptr_t. *)
Definition binary_search (fuel : nat) (cmp : Z → Z) (count : Z) (unique : bool) : option Z :=
  r ← search_loop fuel cmp unique 0 count (-1);
  match r with
  | Found mid => Some (s64 mid)
  | Stopped st diff =>
      let diff := if st <? count then cmp st else diff in
      Some (s64 (Z.lxor st (u64 (- (if diff =? 0 then 0 else 1)))))
  end.

(** Enough rounds: the interval at least halves *)
Definition search_fuel (count : Z) : nat := S (Z.to_nat count).

(** ** Correctness *)

(** The comparison falls along the array: the items sort in ascending order
    and [cmp] is positive where the item is less than the key. *)
Definition falling (cmp : Z → Z) (count : Z) : Prop :=
  ∀ i j, 0 ≤ i ≤ j → j < count → (cmp i < 0 → cmp j < 0) ∧ (cmp i ≤ 0 → cmp j ≤ 0).

Lemma mid_between st en :
  0 ≤ st < en → en < 2 ^ 63 →
  st ≤ u64 (st + Z.shiftr (u64 (en - st)) 1) < en.
Proof.
  intros Hs He. rewrite (u64_small (en - st)) by lia. rewrite Z.shiftr_div_pow2 by lia.
  change (2 ^ 1) with 2. pose proof (Z.div_mod (en - st) 2 ltac:(lia)).
  pose proof (Z.mod_pos_bound (en - st) 2 ltac:(lia)). rewrite u64_small; lia.
Qed.

(** What is known outside the interval that is still searched *)
Definition bounds_ok (cmp : Z → Z) (unique : bool) (count st en diff : Z) : Prop :=
  0 ≤ st ≤ en ∧ en ≤ count ∧ (∀ i, 0 ≤ i < st → 0 < cmp i)
  ∧ (∀ i, en ≤ i < count → cmp i ≤ 0 ∧ (unique = true → cmp i < 0))
  ∧ (en = count → diff ≠ 0).

Lemma search_loop_spec fuel : ∀ cmp unique count st en diff,
  falling cmp count → count < 2 ^ 63 → bounds_ok cmp unique count st en diff → en - st < Z.of_nat fuel →
  match search_loop fuel cmp unique st en diff with
  | None => False
  | Some (Found mid) => unique = true ∧ 0 ≤ mid < count ∧ cmp mid = 0
  | Some (Stopped st' diff') => bounds_ok cmp unique count st' st' diff'
  end.
Proof.
  induction fuel as [|fuel IH]; intros cmp unique count st en diff Hfall Hc Hinv Hf; [destruct Hinv; lia|].
  pose proof Hinv as (Hse & Hec & Hlo & Hhi & Hd).
  cbn [search_loop]. destruct (Z.ltb_spec st en) as [Hlt|Hge].
  2:{ assert (st = en) as <- by lia. done. }
  cbv zeta. pose proof (mid_between st en ltac:(lia) ltac:(lia)) as Hm.
  set (mid := u64 (st + _)) in *.
  destruct ((cmp mid =? 0) && unique) eqn:Hz.
  { apply andb_true_iff in Hz as [Hz Hu]. apply Z.eqb_eq in Hz. split; [done|]. split; [lia|done]. }
  destruct (Z.leb_spec (cmp mid) 0) as [Hle|Hgt].
  - apply IH; [done|done| |lia]. split; [lia|]. split; [lia|]. split; [done|]. split; [|lia].
    intros i Hi. destruct (Hfall mid i ltac:(lia) ltac:(lia)) as [Hneg Hnon]. split; [auto|].
    intros ->. apply Hneg. rewrite andb_true_r in Hz. apply Z.eqb_neq in Hz. lia.
  - rewrite u64_small by lia. apply IH; [done|done| |lia].
    split; [lia|]. split; [lia|]. split; [|split; [done|lia]].
    intros i Hi. destruct (Z.ltb_spec 0 (cmp i)) as [|Hnon]; [done|].
    destruct (Hfall i mid ltac:(lia) ltac:(lia)) as [_ Hn]. specialize (Hn Hnon). lia.
Qed.

Lemma complement st : 0 ≤ st < 2 ^ 63 → s64 (Z.lxor st (u64 (- 1))) = - st - 1.
Proof.
  intros Hs. assert (u64 (- 1) = Z.ones 64) as -> by reflexivity.
  assert (Z.lxor st (Z.ones 64) = 2 ^ 64 - 1 - st) as ->.
  { assert (Z.land st (Z.ones 64) = st) as Hl by (rewrite Z.land_ones, Z.mod_small by lia; done).
    assert (st + Z.lxor st (Z.ones 64) = Z.ones 64) as Hsum; [|rewrite Z.ones_equiv in Hsum at 2; lia].
    rewrite Z.add_nocarry_lxor, <- Z.lxor_assoc, Z.lxor_nilpotent, Z.lxor_0_l; [done|].
    apply Z.bits_inj'. intros i Hi. rewrite Z.land_spec, Z.lxor_spec, Z.bits_0.
    rewrite <- Hl, Z.land_spec. by destruct (Z.testbit st i), (Z.testbit (Z.ones 64) i). }
  unfold s64, swrap. change (2 ^ (64 - 1)) with (2 ^ 63).
  replace (2 ^ 64 - 1 - st + 2 ^ 63) with (2 ^ 63 - 1 - st + 1 * 2 ^ 64) by lia.
  rewrite Z_mod_plus_full, Z.mod_small by lia. lia.
Qed.

(** For an array sorted so that the comparison falls along it, the search
    ends.  A result that is not negative is the index of an item that
    compares equal, the first such one unless [unique] is set; a negative
    result is the complement of the point where the key would be inserted,
    and then no item compares equal. *)
Theorem binary_search_correct cmp count unique :
  falling cmp count → 0 ≤ count < 2 ^ 63 →
  ∃ r, binary_search (search_fuel count) cmp count unique = Some r
    ∧ (0 ≤ r → r < count ∧ cmp r = 0 ∧ (unique = false → ∀ i, 0 ≤ i < r → 0 < cmp i))
    ∧ (r < 0 → 0 ≤ - r - 1 ≤ count ∧ (∀ i, 0 ≤ i < - r - 1 → 0 < cmp i)
               ∧ ∀ i, - r - 1 ≤ i < count → cmp i < 0).
Proof.
  intros Hfall Hc. unfold binary_search.
  pose proof (search_loop_spec (search_fuel count) cmp unique count 0 count (-1) Hfall ltac:(lia)) as Hloop.
  destruct (search_loop _ _ _ _ _ _) as [[mid|st diff]|]; cbn [mbind option_bind].
  - destruct Hloop as (Hu & Hm & Hz); [repeat split; lia|unfold search_fuel; lia|].
    exists mid. rewrite s64_small by lia. split; [done|]. split; [|lia].
    intros _. split; [lia|]. split; [done|]. by intros ->.
  - destruct Hloop as (Hse & Hec & Hlo & Hhi & Hd); [repeat split; lia|unfold search_fuel; lia|].
    cbv zeta. destruct (Z.eqb_spec (if st <? count then cmp st else diff) 0) as [Hz|Hnz].
    + destruct (Z.ltb_spec st count) as [Hlt|Hge]; [|exfalso; apply Hd; [lia|done]].
      exists st. change (u64 (- 0)) with 0. rewrite Z.lxor_0_r, s64_small by lia. split; [done|].
      split; [|lia]. intros _. done.
    + exists (- st - 1). rewrite complement by lia. split; [done|]. split; [lia|]. intros _.
      replace (- (- st - 1) - 1) with st by lia. split; [lia|]. split; [done|].
      intros i Hi. destruct (Z.ltb_spec st count) as [Hlt|Hge]; [|lia].
      apply (proj1 (Hfall st i ltac:(lia) ltac:(lia))). destruct (Hhi st ltac:(lia)) as [? _]. lia.
  - destruct Hloop; [repeat split; lia|unfold search_fuel; lia].
Qed.

Lemma binary_search_witness :
  ∃ r, binary_search (search_fuel 5) (λ i, 30 - 10 * i) 5 false = Some r
    ∧ (0 ≤ r → r < 5 ∧ 30 - 10 * r = 0 ∧ (false = false → ∀ i, 0 ≤ i < r → 0 < 30 - 10 * i))
    ∧ (r < 0 → 0 ≤ - r - 1 ≤ 5 ∧ (∀ i, 0 ≤ i < - r - 1 → 0 < 30 - 10 * i)
               ∧ ∀ i, - r - 1 ≤ i < 5 → 30 - 10 * i < 0).
Proof. apply (binary_search_correct (λ i, 30 - 10 * i) 5 false); [intros i j; lia|lia]. Defined.

(** With the comparison the comment in the code describes, negative where
    the item is less than the key, the search for 30 in 0, 10, 20, 30, 40
    does not find it. *)
Lemma binary_search_comment_direction :
  binary_search (search_fuel 5) (λ i, 10 * i - 30) 5 false = Some (-1).
Proof. vm_compute. reflexivity. Qed.
