(* ===== verification/Uleb.v ===== *)
(** * kernel/lib/uleb.cc: the number encodings of DWARF exception frames

    The input is the list of bytes from the pointer on; a decoder returns the
    value and the bytes it has not consumed.  [NoValue] is what has no
    meaning in C++: reading past the end of the input, or shifting a 64-bit
    value by 64 or more. *)

From stdpp Require Import base tactics list numbers option.
From S2P Require Import Prelude.

#[local] Open Scope Z_scope.

Inductive decoded :=
  | Value (v : Z) (rest : list Z)
  | NoValue
  | Panic.

#[export] Instance decoded_eq_dec : EqDecision decoded.
Proof. solve_decision. Defined.

(** uintptr_t(byte & 0x7F) << shift *)
Definition septet (byte shift : Z) : Z := u64 (Z.shiftl (Z.land byte 0x7F) shift).

Fixpoint uleb_loop (input : list Z) (result shift : Z) : decoded :=
  match input with
  | [] => NoValue
  | byte :: input =>
      if 64 <=? shift then NoValue
      else
        let result := Z.lor result (septet byte shift) in
        if Z.land byte 0x80 =? 0 then Value result input
        else uleb_loop input result (u8 (shift + 7))
  end.

Definition decode_uleb128 (input : list Z) : decoded := uleb_loop input 0 0.

(** The value is kept as the 64-bit pattern *)
Fixpoint sleb_loop (input : list Z) (result shift : Z) : decoded :=
  match input with
  | [] => NoValue
  | byte :: input =>
      if 64 <=? shift then NoValue
      else
        let result := Z.lor result (septet byte shift) in
        if (Z.land byte 0x80 =? 0) && negb (Z.land byte 0x40 =? 0) then
          Value (if shift <? 64 then Z.lor result (u64 (Z.shiftl (u64 (Z.lnot 0)) shift)) else result) input
        else sleb_loop input result (u8 (shift + 7))
  end.

Definition decode_sleb128 (input : list Z) : decoded := sleb_loop input 0 0.

Fixpoint little_endian (bs : list Z) : Z :=
  match bs with [] => 0 | b :: bs => b + 256 * little_endian bs end.

(** fetch_enc_val<T> for a type of [n] bytes; the result is uint64_t *)
Definition fetch_enc_val (n : nat) (signed : bool) (input : list Z) : decoded :=
  if decide (n ≤ length input)%nat then
    let data := little_endian (take n input) in
    Value (if signed then u64 (swrap (8 * Z.of_nat n) data) else u64 data) (drop n input)
  else NoValue.

Definition DW_EH_PE_absptr : Z := 0x00.
Definition DW_EH_PE_omit : Z := 0xFF.
Definition DW_EH_PE_uleb128 : Z := 0x01.
Definition DW_EH_PE_udata2 : Z := 0x02.
Definition DW_EH_PE_udata4 : Z := 0x03.
Definition DW_EH_PE_udata8 : Z := 0x04.
Definition DW_EH_PE_sleb128 : Z := 0x09.
Definition DW_EH_PE_sdata2 : Z := 0x0A.
Definition DW_EH_PE_sdata4 : Z := 0x0B.
Definition DW_EH_PE_sdata8 : Z := 0x0C.

Definition read_enc_val (input : list Z) (encoding : Z) : decoded :=
  let sel := Z.land encoding 0xF in
  if sel =? DW_EH_PE_omit then Value 0 input
  else if sel =? DW_EH_PE_uleb128 then decode_uleb128 input
  else if sel =? DW_EH_PE_udata2 then fetch_enc_val 2 false input
  else if sel =? DW_EH_PE_udata4 then fetch_enc_val 4 false input
  else if sel =? DW_EH_PE_udata8 then fetch_enc_val 8 false input
  else if sel =? DW_EH_PE_sleb128 then decode_sleb128 input
  else if sel =? DW_EH_PE_sdata2 then fetch_enc_val 2 true input
  else if sel =? DW_EH_PE_sdata4 then fetch_enc_val 4 true input
  else if sel =? DW_EH_PE_sdata8 then fetch_enc_val 8 true input
  else Panic.

(** ** The encoders of the DWARF format *)

Fixpoint encode_uleb128 (fuel : nat) (n : Z) : list Z :=
  match fuel with
  | O => []
  | S fuel =>
      if n / 128 =? 0 then [n mod 128]
      else (128 + n mod 128) :: encode_uleb128 fuel (n / 128)
  end.

Fixpoint encode_le (n : nat) (v : Z) : list Z :=
  match n with O => [] | S n => v mod 256 :: encode_le n (v / 256) end.

(** ** Round trips *)

Lemma septet_mod b shift :
  0 ≤ b → 0 ≤ shift < 64 → septet b shift = u64 (b mod 128 * 2 ^ shift).
Proof.
  intros Hb Hs. unfold septet. change 0x7F with (2 ^ 7 - 1). rewrite land_low_mask by lia.
  by rewrite Z.shiftl_mul_pow2 by lia.
Qed.

Lemma more_bit n : 0 ≤ n < 128 → Z.land n 0x80 = 0 ∧ Z.land (128 + n) 0x80 = 128.
Proof.
  revert n. apply (forall_below 128). apply Forall_forall. intros n Hn. 
  assert (forallb (λ n, (Z.land n 0x80 =? 0) && (Z.land (128 + n) 0x80 =? 128)) (seqZ 0 128) = true) as H
    by (vm_compute; reflexivity).
  rewrite forallb_forall in H. apply list_elem_of_In in Hn. apply H in Hn.
  apply andb_true_iff in Hn as [H1 H2]. split; by apply Z.eqb_eq.
Qed.

Lemma septet_small n shift :
  0 ≤ shift < 64 → 0 ≤ n → n mod 128 * 2 ^ shift < 2 ^ 64 → septet (n mod 128) shift = n mod 128 * 2 ^ shift.
Proof.
  intros Hs Hn Hb. pose proof (Z.mod_pos_bound n 128 ltac:(lia)). rewrite septet_mod by lia.
  rewrite Z.mod_mod by lia. apply u64_small. nia.
Qed.

(** The result so far is below [2^shift], what remains is [n]: the decoder
    adds [n * 2^shift]. *)
Lemma uleb_loop_encoded fuel : ∀ n result shift rest,
  0 ≤ n → 0 ≤ shift < 64 → 0 ≤ result < 2 ^ shift → n * 2 ^ shift < 2 ^ 64 →
  (0 < fuel)%nat → n < 128 ^ Z.of_nat fuel →
  uleb_loop (encode_uleb128 fuel n ++ rest) result shift = Value (result + n * 2 ^ shift) rest.
Proof.
  induction fuel as [|fuel IH]; intros n result shift rest Hn Hs Hr Hfit H0 Hfuel; [lia|].
  pose proof (Z.div_mod n 128 ltac:(lia)) as Hdm. pose proof (Z.mod_pos_bound n 128 ltac:(lia)) as Hm.
  assert (0 ≤ n / 128) by (apply Z.div_pos; lia). assert (0 < 2 ^ shift) by lia.
  destruct (more_bit (n mod 128) Hm) as [Hlast Hmore].
  cbn [encode_uleb128]. destruct (Z.eqb_spec (n / 128) 0) as [Hz|Hz]; cbn [app uleb_loop].
  - destruct (Z.leb_spec 64 shift); [lia|]. cbv zeta. rewrite Hlast. simpl.
    rewrite septet_small by nia. rewrite Z.lor_comm, lor_disjoint by lia. f_equal. nia.
  - destruct (Z.leb_spec 64 shift); [lia|]. cbv zeta. rewrite Hmore. simpl.
    assert (n mod 128 * 2 ^ shift ≤ n * 2 ^ shift) by nia.
    assert (septet (128 + n mod 128) shift = n mod 128 * 2 ^ shift) as ->.
    { rewrite septet_mod by lia. replace (128 + n mod 128) with (n mod 128 + 1 * 128) by lia.
      rewrite Z_mod_plus_full, Z.mod_mod by lia. apply u64_small. nia. }
    rewrite Z.lor_comm, lor_disjoint by lia.
    assert (shift + 7 < 64) as Hs7.
    { apply (Z.pow_lt_mono_r_iff 2); [lia|lia|]. rewrite Z.pow_add_r by lia. change (2 ^ 7) with 128. nia. }
    rewrite u8_small by lia. rewrite IH; try lia.
    + f_equal. rewrite Z.pow_add_r by lia. change (2 ^ 7) with 128. rewrite Hdm at 3. ring.
    + rewrite Z.pow_add_r by lia. change (2 ^ 7) with 128. nia.
    + rewrite Z.pow_add_r by lia. change (2 ^ 7) with 128. nia.
    + destruct fuel; [|lia]. exfalso. simpl in Hfuel. change (128 ^ 1) with 128 in Hfuel. lia.
    + rewrite Nat2Z.inj_succ, Z.pow_succ_r in Hfuel by lia. apply Z.div_lt_upper_bound; lia.
Qed.

Lemma little_endian_encode n : ∀ v, 0 ≤ v < 256 ^ Z.of_nat n → little_endian (encode_le n v) = v.
Proof.
  induction n as [|n IH]; intros v Hv; cbn [encode_le little_endian]; [simpl in Hv; lia|].
  rewrite Nat2Z.inj_succ, Z.pow_succ_r in Hv by lia.
  pose proof (Z.div_mod v 256 ltac:(lia)). rewrite IH; [lia|].
  split; [apply Z.div_pos; lia|apply Z.div_lt_upper_bound; lia].
Qed.

Lemma length_encode_le n v : length (encode_le n v) = n.
Proof. revert v. induction n; intros v; simpl; auto. Qed.

Lemma fetch_encoded n signed v rest :
  0 ≤ v < 256 ^ Z.of_nat n → fetch_enc_val n signed (encode_le n v ++ rest)
  = Value (if signed then u64 (swrap (8 * Z.of_nat n) v) else u64 v) rest.
Proof.
  intros Hv. unfold fetch_enc_val. rewrite decide_True by (rewrite length_app, length_encode_le; lia).
  rewrite take_app_length', drop_app_length' by (by rewrite length_encode_le).
  by rewrite little_endian_encode.
Qed.

(** Decode_uleb128 reads back every 64-bit value from its DWARF encoding, and
    leaves the pointer behind it. *)
Theorem uleb128_roundtrip n rest :
  0 ≤ n < 2 ^ 64 → decode_uleb128 (encode_uleb128 10 n ++ rest) = Value n rest.
Proof.
  intros Hn. unfold decode_uleb128. rewrite uleb_loop_encoded; try lia. f_equal. lia.
Qed.

Lemma uleb128_roundtrip_witness :
  decode_uleb128 (encode_uleb128 10 624485 ++ [7]) = Value 624485 [7]
  ∧ encode_uleb128 10 624485 = [0xE5; 0x8E; 0x26].
Proof. split; [apply (uleb128_roundtrip 624485 [7]); lia|vm_compute; reflexivity]. Defined.

(** The fixed-size encodings: with any of the modifier bits in the high half
    of the encoding byte, read_enc_val reads an unsigned value of 2, 4 or 8
    bytes as it is and a signed one sign-extended to 64 bits. *)
Theorem read_enc_val_fixed (sel : Z) (n : nat) (signed : bool) (hi v : Z) rest :
  (sel, n, signed) ∈ [(DW_EH_PE_udata2, 2%nat, false); (DW_EH_PE_udata4, 4%nat, false);
                      (DW_EH_PE_udata8, 8%nat, false); (DW_EH_PE_sdata2, 2%nat, true);
                      (DW_EH_PE_sdata4, 4%nat, true); (DW_EH_PE_sdata8, 8%nat, true)] →
  0 ≤ hi < 16 → 0 ≤ v < 256 ^ Z.of_nat n →
  read_enc_val (encode_le n v ++ rest) (16 * hi + sel)
  = Value (if signed then u64 (swrap (8 * Z.of_nat n) v) else v) rest.
Proof.
  intros Hin Hhi Hv.
  assert (∀ x, 0 ≤ x < 16 → Z.land (16 * hi + x) 0xF = x) as Hsel.
  { intros x Hx. change 0xF with (2 ^ 4 - 1). rewrite land_low_mask by lia. change (2 ^ 4) with 16.
    rewrite (Z.add_comm (16 * hi)), (Z.mul_comm 16), Z_mod_plus_full. apply Z.mod_small. lia. }
  assert (∀ input, read_enc_val input (16 * hi + sel) = fetch_enc_val n signed input ∧ (n ≤ 8)%nat) as Hread.
  { intros input. unfold read_enc_val. rewrite !elem_of_cons, elem_of_nil in Hin.
    destruct Hin as [Hin|[Hin|[Hin|[Hin|[Hin|[Hin|[]]]]]]]; injection Hin as -> -> ->;
      (rewrite Hsel; [split; [done|lia]|done]). }
  destruct (Hread []) as [_ Hn]. rewrite (proj1 (Hread _)), fetch_encoded by done.
  destruct signed; [done|]. f_equal. apply u64_small.
  assert (256 ^ Z.of_nat n ≤ 256 ^ 8) by (apply Z.pow_le_mono_r; lia). lia.
Qed.

Lemma read_enc_val_fixed_witness :
  read_enc_val (encode_le 2 0xFFFE ++ [1]) (16 * 1 + DW_EH_PE_sdata2)
  = Value (u64 (swrap (8 * Z.of_nat 2) 0xFFFE)) [1].
Proof.
  apply (read_enc_val_fixed DW_EH_PE_sdata2 2 true 1 0xFFFE [1]); [|lia|lia].
  vm_compute. repeat constructor.
Defined.

(** ** Where the code departs from DWARF *)

(** -2 is one byte, 0x7E: the bits of the last byte are lost, because the
    sign is extended from where that byte starts. *)
Lemma decode_sleb128_minus_two : decode_sleb128 [0x7E] = Value (u64 (-1)) [].
Proof. vm_compute. reflexivity. Qed.

(** 5 is one byte, 0x05: the loop goes on into what follows *)
Lemma decode_sleb128_positive : decode_sleb128 [0x05] = NoValue ∧ decode_sleb128 [0x05; 0x7F] = Value (u64 (-123)) [].
Proof. split; vm_compute; reflexivity. Qed.

(** DW_EH_PE_omit is 0xFF, which the low four bits never equal *)
Lemma read_enc_val_omit input : read_enc_val input DW_EH_PE_omit = Panic.
Proof. reflexivity. Qed.
