(* ===== verification/BootString.v ===== *)
(** * boot/string.cc: memory and string functions of the boot loader

    The state is memory by address, with bytes in [0, 256); an access outside
    it is a fault.  The x86 versions of memcpy and memset, which use the
    repeated string instructions, are modelled.  A loop that reads a string
    to its end gets one round per mapped byte and one more. *)

From stdpp Require Import base tactics list numbers option gmap.
From S2P Require Import Prelude.

#[local] Open Scope Z_scope.

Abbreviation memory := (gmap Z Z).
Abbreviation SM := (M memory).

Definition load (p : Z) : SM Z := λ m,
  match m !! p with Some b => Done (b, m) | None => Fault OutOfRange end.
Definition store (p v : Z) : SM unit := λ m,
  match m !! p with Some _ => Done (tt, <[p := u8 v]> m) | None => Fault OutOfRange end.

Definition string_fuel (m : memory) : nat := S (base.size m).

(** ** Strings *)

Fixpoint strlen_loop (fuel : nat) (src len : Z) : SM Z :=
  match fuel with
  | O => throw OutOfFuel
  | S fuel =>
      b ← load (src + len);
      if b =? 0 then mret len else strlen_loop fuel src (len + 1)
  end.
Definition strlen (src : Z) : SM Z := k ← gets string_fuel; strlen_loop k src 0.

Fixpoint strchr_loop (fuel : nat) (s ch : Z) : SM (option Z) :=
  match fuel with
  | O => throw OutOfFuel
  | S fuel =>
      c ← load s;
      if s8 c =? s8 ch then mret (Some s)
      else if c =? 0 then mret None
      else strchr_loop fuel (s + 1) ch
  end.
Definition strchr (s ch : Z) : SM (option Z) := k ← gets string_fuel; strchr_loop k s ch.

(** char is signed: int((unsigned)c) is its signed value *)
Fixpoint strcmp_loop (fuel : nat) (lhs rhs : Z) : SM Z :=
  match fuel with
  | O => throw OutOfFuel
  | S fuel =>
      a ← load lhs;
      b ← load rhs;
      let cmp := s8 a - s8 b in
      if (cmp =? 0) && negb (a =? 0) then strcmp_loop fuel (lhs + 1) (rhs + 1)
      else mret cmp
  end.
Definition strcmp (lhs rhs : Z) : SM Z := k ← gets string_fuel; strcmp_loop k lhs rhs.

Fixpoint strncmp (count : nat) (lhs rhs : Z) : SM Z :=
  match count with
  | O => mret 0
  | S count =>
      a ← load lhs;
      b ← load rhs;
      let cmp := s8 a - s8 b in
      match count with
      | O => mret cmp
      | _ => if (cmp =? 0) && negb (a =? 0) then strncmp count (lhs + 1) (rhs + 1) else mret cmp
      end
  end.

Fixpoint strcpy_loop (fuel : nat) (d src : Z) : SM unit :=
  match fuel with
  | O => throw OutOfFuel
  | S fuel =>
      b ← load src;
      store d b;;
      if b =? 0 then mret tt else strcpy_loop fuel (d + 1) (src + 1)
  end.
Definition strcpy (dest src : Z) : SM Z :=
  k ← gets string_fuel; strcpy_loop k dest src;; mret dest.

Fixpoint zero_bytes (d : Z) (n : nat) : SM unit :=
  match n with O => mret tt | S n => store d 0;; zero_bytes (d + 1) n end.

Fixpoint strncpy_loop (d src : Z) (n : nat) : SM unit :=
  match n with
  | O => mret tt
  | S n' =>
      b ← load src;
      if b =? 0 then zero_bytes d n
      else store d b;; strncpy_loop (d + 1) (src + 1) n'
  end.
Definition strncpy (dest src : Z) (n : nat) : SM Z := strncpy_loop dest src n;; mret dest.

Definition strcat (dest src : Z) : SM Z := n ← strlen dest; strcpy (dest + n) src;; mret dest.
Definition strncat (dest src : Z) (n : nat) : SM Z := k ← strlen dest; strncpy (dest + k) src n.

(** ** Memory *)

Fixpoint memchr (mem ch : Z) (count : nat) : SM (option Z) :=
  match count with
  | O => mret None
  | S count =>
      b ← load mem;
      if s8 b =? s8 ch then mret (Some mem) else memchr (mem + 1) ch count
  end.

Fixpoint memcmp (lp rp : Z) (count : nat) : SM Z :=
  match count with
  | O => mret 0
  | S count =>
      a ← load lp;
      b ← load rp;
      let cmp := a - b in
      match count with
      | O => mret cmp
      | _ => if cmp =? 0 then memcmp (lp + 1) (rp + 1) count else mret cmp
      end
  end.

Fixpoint strstr_loop (n : nat) (str substr i blen : Z) : SM (option Z) :=
  match n with
  | O => mret None
  | S n =>
      c ← memcmp (str + i) substr (Z.to_nat blen);
      if c =? 0 then mret (Some (str + i)) else strstr_loop n str substr (i + 1) blen
  end.
Definition strstr (str substr : Z) : SM (option Z) :=
  b ← load substr;
  if b =? 0 then mret (Some str)
  else
    slen ← strlen str;
    blen ← strlen substr;
    if slen <? blen then mret None
    else strstr_loop (Z.to_nat (slen - blen + 1)) str substr 0 blen.

(** rep movs of [k]-byte units: a unit is read whole before it is stored *)
Fixpoint load_unit (k : nat) (s : Z) : SM (list Z) :=
  match k with
  | O => mret []
  | S k => b ← load s; bs ← load_unit k (s + 1); mret (b :: bs)
  end.
Fixpoint store_unit (d : Z) (bs : list Z) : SM unit :=
  match bs with [] => mret tt | b :: bs => store d b;; store_unit (d + 1) bs end.

Fixpoint rep_movs (k n : nat) (d s : Z) : SM unit :=
  match n with
  | O => mret tt
  | S n =>
      bs ← load_unit k s;
      store_unit d bs;;
      rep_movs k n (d + Z.of_nat k) (s + Z.of_nat k)
  end.
(** With the direction flag set *)
Fixpoint rep_movs_down (k n : nat) (d s : Z) : SM unit :=
  match n with
  | O => mret tt
  | S n =>
      bs ← load_unit k s;
      store_unit d bs;;
      rep_movs_down k n (d - Z.of_nat k) (s - Z.of_nat k)
  end.

Definition memcpy (dest src : Z) (n : nat) : SM Z :=
  let q := Nat.div n 4 in
  rep_movs 4 q dest src;;
  rep_movs 1 (Nat.modulo n 4) (dest + 4 * Z.of_nat q) (src + 4 * Z.of_nat q);;
  mret dest.

Definition memcpy_rev (dest src : Z) (n : nat) : SM Z :=
  (if bool_decide (Nat.modulo n 4 = 0%nat) then
     rep_movs_down 4 (Nat.div n 4) (dest + Z.of_nat n - 1) (src + Z.of_nat n - 1)
   else rep_movs_down 1 n (dest + Z.of_nat n - 4) (src + Z.of_nat n - 4));;
  mret dest.

Fixpoint copy_down (n : nat) (d s : Z) : SM unit :=
  match n with
  | O => mret tt
  | S n => b ← load (s + Z.of_nat n); store (d + Z.of_nat n) b;; copy_down n d s
  end.

Definition memmove (dest src : Z) (n : nat) : SM Z :=
  if bool_decide (n = 0%nat) then mret dest
  else if (dest <? src) || (src + Z.of_nat n <=? dest) then memcpy dest src n
  else
    (if negb (dest =? src) then copy_down n dest src else mret tt);;
    mret dest.

(** rep stos: the low bytes of the register, in little-endian order *)
Fixpoint unit_bytes (k : nat) (v : Z) : list Z :=
  match k with O => [] | S k => Z.land v 0xFF :: unit_bytes k (Z.shiftr v 8) end.
Fixpoint rep_stos (k n : nat) (d v : Z) : SM unit :=
  match n with
  | O => mret tt
  | S n => store_unit d (unit_bytes k v);; rep_stos k n (d + Z.of_nat k) v
  end.

Definition memset (dest c : Z) (n : nat) : SM Z :=
  let v := u32 (Z.land c 0xFF * 0x01010101) in
  let q := Nat.div n 4 in
  rep_stos 4 q dest v;;
  rep_stos 1 (Nat.modulo n 4) (dest + 4 * Z.of_nat q) v;;
  mret dest.

(** * What the memory and string functions of the boot loader do *)

(** ** Bytes in memory *)

(** The bytes from [p] on are [l] *)
Fixpoint holds (m : memory) (p : Z) (l : list Z) : Prop :=
  match l with [] => True | b :: l => m !! p = Some b ∧ holds m (p + 1) l end.

(** [m] with [l] written from [p] on *)
Fixpoint put (m : memory) (p : Z) (l : list Z) : memory :=
  match l with [] => m | b :: l => <[p := b]> (put m (p + 1) l) end.

Definition mapped (m : memory) (p : Z) (n : nat) : Prop :=
  ∀ a, p ≤ a < p + Z.of_nat n → is_Some (m !! a).
Definition byte (b : Z) : Prop := 0 ≤ b < 256.

Lemma holds_app m p l1 l2 : holds m p (l1 ++ l2) ↔ holds m p l1 ∧ holds m (p + Z.of_nat (length l1)) l2.
Proof.
  revert p. induction l1 as [|b l1 IH]; intros p; simpl.
  - rewrite Z.add_0_r. naive_solver.
  - rewrite IH. replace (p + 1 + Z.of_nat (length l1)) with (p + Z.of_nat (S (length l1))) by lia. naive_solver.
Qed.

Lemma holds_frame m m' p l :
  (∀ a, p ≤ a < p + Z.of_nat (length l) → m' !! a = m !! a) → holds m p l → holds m' p l.
Proof.
  revert p. induction l as [|b l IH]; intros p Hm; simpl; [done|].
  intros [Hb Hl]. split; [rewrite Hm by (simpl; lia); done|].
  apply IH; [|done]. intros a Ha. apply Hm. simpl. lia.
Qed.

Lemma put_lookup_out m p l a : a < p ∨ p + Z.of_nat (length l) ≤ a → put m p l !! a = m !! a.
Proof.
  revert p. induction l as [|b l IH]; intros p Ha; simpl in *; [done|].
  rewrite lookup_insert_ne by lia. apply IH. lia.
Qed.

Lemma put_insert m p l a b : a < p → put (<[a := b]> m) p l = <[a := b]> (put m p l).
Proof.
  revert p. induction l as [|c l IH]; intros p Ha; simpl; [done|].
  rewrite IH by lia. by rewrite insert_insert_ne by lia.
Qed.

Lemma put_app m p l1 l2 : put (put m p l1) (p + Z.of_nat (length l1)) l2 = put m p (l1 ++ l2).
Proof.
  revert p. induction l1 as [|b l1 IH]; intros p; simpl; [by rewrite Z.add_0_r|].
  rewrite put_insert by lia. f_equal. rewrite <- IH. f_equal. lia.
Qed.

Lemma put_snoc m p l b : put (<[p + Z.of_nat (length l) := b]> m) p l = put m p (l ++ [b]).
Proof.
  revert p. induction l as [|c l IH]; intros p; simpl; [by rewrite Z.add_0_r|].
  f_equal. rewrite <- IH. do 2 f_equal. lia.
Qed.

Lemma put_holds m p l : holds m p l → put m p l = m.
Proof.
  revert p. induction l as [|b l IH]; intros p; simpl; [done|]. intros [Hb Hl].
  rewrite IH by done. by apply insert_id.
Qed.

Lemma mapped_put m p l q n : mapped m q n → mapped (put m p l) q n.
Proof.
  intros Hm a Ha. specialize (Hm a Ha). clear Ha. revert p. induction l as [|b l IH]; intros p; simpl; [done|].
  destruct (decide (p = a)) as [->|]; [rewrite lookup_insert_eq; eauto|by rewrite lookup_insert_ne].
Qed.

Lemma mapped_mono m p n q k : mapped m p n → p ≤ q → q + Z.of_nat k ≤ p + Z.of_nat n → mapped m q k.
Proof. intros Hm H1 H2 a Ha. apply Hm. lia. Qed.

Lemma holds_mapped_size m p l : holds m p l → (length l ≤ base.size m)%nat.
Proof.
  intros Hl. rewrite <- size_dom.
  assert (length l = base.size (list_to_set (seqZ p (Z.of_nat (length l))) : gset Z)) as ->.
  { rewrite size_list_to_set by apply NoDup_seqZ. rewrite length_seqZ. lia. }
  apply subseteq_size. intros a. rewrite elem_of_list_to_set, elem_of_seqZ, elem_of_dom.
  revert p Hl. induction l as [|b l IH]; intros p; simpl; [lia|]. intros [Hb Hl] Ha.
  destruct (decide (a = p)) as [->|]; [eauto|]. apply (IH (p + 1)); [done|lia].
Qed.

Lemma load_done m p b : m !! p = Some b → load p m = Done (b, m).
Proof. unfold load. by intros ->. Qed.
Lemma store_done m p v : is_Some (m !! p) → byte v → store p v m = Done (tt, <[p := v]> m).
Proof. intros [x Hx] Hv. unfold store, byte in *. rewrite Hx, u8_small by lia. done. Qed.

(** ** Copying *)

Lemma load_unit_done m s l : holds m s l → load_unit (length l) s m = Done (l, m).
Proof.
  revert s. induction l as [|b l IH]; intros s; simpl; [done|]. intros [Hb Hl].
  rewrite (bind_done _ _ _ _ _ (load_done _ _ _ Hb)), (bind_done _ _ _ _ _ (IH _ Hl)). done.
Qed.

Lemma store_unit_done m d l :
  mapped m d (length l) → Forall byte l → store_unit d l m = Done (tt, put m d l).
Proof.
  revert m d. induction l as [|b l IH]; intros m d Hm HF; simpl; [done|].
  inversion HF; subst. erewrite (bind_done (store _ _)); [|apply store_done; [apply Hm; simpl; lia|done]].
  rewrite IH; [by rewrite put_insert by lia| |done].
  intros a Ha. destruct (decide (d = a)) as [->|]; [rewrite lookup_insert_eq; eauto|].
  rewrite lookup_insert_ne by done. apply Hm. simpl. lia.
Qed.

(** Ascending copies are right when the destination is not inside what is
    still to be read *)
Lemma rep_movs_done k n : ∀ m d s l,
  (0 < k)%nat → length l = (k * n)%nat → holds m s l → mapped m d (length l) → Forall byte l →
  d ≤ s ∨ s + Z.of_nat (length l) ≤ d →
  rep_movs k n d s m = Done (tt, put m d l).
Proof.
  induction n as [|n IH]; intros m d s l Hk Hlen Hl Hm HF Hd; cbn [rep_movs].
  - destruct l; [done|]. simpl in Hlen. lia.
  - rewrite <- (take_drop k l) in Hl, HF |- *. set (u := take k l) in *. set (l' := drop k l) in *.
    assert (length u = k) as Hu by (unfold u; rewrite length_take; lia).
    assert (length l' = (k * n)%nat) as Hl' by (unfold l'; rewrite length_drop; lia).
    apply holds_app in Hl as [Hh1 Hh2]. apply Forall_app in HF as [HF1 HF2].
    rewrite <- Hu at 1. rewrite (bind_done _ _ _ _ _ (load_unit_done _ _ _ Hh1)).
    erewrite (bind_done (store_unit _ _)); [|apply store_unit_done; [|done]; eapply mapped_mono; [exact Hm|lia|lia]].
    rewrite (IH (put m d u) _ _ l'); [|done|done| | |done|].
    + rewrite <- Hu, put_app. done.
    + rewrite Hu in Hh2. eapply holds_frame; [|done]. intros a Ha. apply put_lookup_out. lia.
    + apply mapped_put. eapply mapped_mono; [exact Hm|lia|lia].
    + lia.
Qed.

Lemma memcpy_done m d s l :
  holds m s l → mapped m d (length l) → Forall byte l → d ≤ s ∨ s + Z.of_nat (length l) ≤ d →
  memcpy d s (length l) m = Done (d, put m d l).
Proof.
  intros Hl Hm HF Hd. unfold memcpy. cbv zeta.
  pose proof (Nat.div_mod (length l) 4 ltac:(lia)) as Hdm.
  pose proof (Nat.mod_upper_bound (length l) 4 ltac:(lia)) as Hr.
  set (q := Nat.div (length l) 4) in *. set (r := Nat.modulo (length l) 4) in *.
  rewrite <- (take_drop (4 * q) l) in Hl, HF |- *.
  set (l1 := take (4 * q) l) in *. set (l2 := drop (4 * q) l) in *.
  assert (length l1 = (4 * q)%nat) as H1 by (unfold l1; rewrite length_take; lia).
  assert (length l2 = (1 * r)%nat) as H2 by (unfold l2; rewrite length_drop; lia).
  apply holds_app in Hl as [Hh1 Hh2]. apply Forall_app in HF as [HF1 HF2].
  replace (4 * Z.of_nat q) with (Z.of_nat (length l1)) by lia.
  rewrite (bind_done _ _ _ _ _ (rep_movs_done 4 q m d s l1 ltac:(lia) H1 Hh1
             ltac:(eapply mapped_mono; [exact Hm|lia|lia]) HF1 ltac:(lia))).
  erewrite (bind_done (rep_movs _ _ _ _)); [|apply (rep_movs_done 1 r (put m d l1) _ _ l2); try done; try lia].
  - by rewrite put_app.
  - eapply holds_frame; [|done]. intros a Ha. apply put_lookup_out. lia.
  - apply mapped_put. eapply mapped_mono; [exact Hm|lia|lia].
Qed.

Lemma copy_down_done : ∀ l m d s,
  holds m s l → mapped m d (length l) → Forall byte l → s ≤ d →
  copy_down (length l) d s m = Done (tt, put m d l).
Proof.
  intros l. induction l as [|b l IH] using rev_ind; intros m d s Hl Hm HF Hd; [done|].
  rewrite length_snoc in *. cbn [copy_down].
  apply holds_app in Hl as [Hl [Hb _]]. apply Forall_app in HF as [HF Hb']. inversion Hb'; subst.
  rewrite (bind_done _ _ _ _ _ (load_done _ _ _ Hb)).
  erewrite (bind_done (store _ _)); [|apply store_done; [apply Hm; lia|done]].
  rewrite IH; [by rewrite put_snoc| | |done|done].
  - eapply holds_frame; [|done]. intros a Ha. apply lookup_insert_ne. lia.
  - intros a Ha. rewrite lookup_insert_ne by lia. apply Hm. lia.
Qed.

(** Memmove copies the bytes at [s] to [d], however the two areas overlap,
    and changes nothing else. *)
Theorem memmove_correct m d s l :
  holds m s l → mapped m d (length l) → Forall byte l →
  memmove d s (length l) m = Done (d, put m d l).
Proof.
  intros Hl Hm HF. unfold memmove. case_bool_decide as Hn; [by destruct l|].
  destruct (Z.ltb_spec d s) as [Hlt|Hge]; [apply memcpy_done; try done; lia|].
  destruct (Z.leb_spec (s + Z.of_nat (length l)) d) as [Hle|Hgt]; [apply memcpy_done; try done; lia|].
  cbn [orb]. destruct (Z.eqb_spec d s) as [->|Hne]; cbn [negb].
  - rewrite bind_mret, put_holds by done. done.
  - rewrite (bind_done _ _ _ _ _ (copy_down_done l m d s Hl Hm HF Hge)). done.
Qed.

Definition demo_memory : memory := put ∅ 100 [1; 2; 3; 4; 5; 6; 7; 8].

Lemma memmove_witness :
  memmove 102 100 (length [1; 2; 3; 4; 5]) demo_memory = Done (102, put demo_memory 102 [1; 2; 3; 4; 5]).
Proof.
  apply (memmove_correct demo_memory 102 100 [1; 2; 3; 4; 5]).
  - repeat split.
  - intros a Ha. simpl in Ha.
    assert (a = 102 ∨ a = 103 ∨ a = 104 ∨ a = 105 ∨ a = 106) as [->|[->|[->|[->| ->]]]] by lia; by eexists.
  - repeat constructor; unfold byte; lia.
Defined.

Lemma unit_bytes_repeat c : 0 ≤ c < 256 → unit_bytes 4 (u32 (c * 0x01010101)) = [c; c; c; c].
Proof.
  apply (forall_below 256 (λ c, unit_bytes 4 (u32 (c * 0x01010101)) = [c; c; c; c])).
  apply Forall_forall. intros x Hx.
  assert (forallb (λ c, bool_decide (unit_bytes 4 (u32 (c * 0x01010101)) = [c; c; c; c])) (seqZ 0 256) = true) as H
    by (vm_compute; reflexivity).
  rewrite forallb_forall in H. apply list_elem_of_In, H in Hx. by apply bool_decide_eq_true in Hx.
Qed.

Lemma rep_stos_done k n c v : ∀ m d,
  byte c → unit_bytes k v = replicate k c → mapped m d (k * n) →
  rep_stos k n d v m = Done (tt, put m d (replicate (k * n) c)).
Proof.
  intros m d Hc Hu. revert m d. induction n as [|n IH]; intros m d Hm; cbn [rep_stos].
  - by rewrite Nat.mul_0_r.
  - rewrite Hu. erewrite (bind_done (store_unit _ _)).
    2:{ apply store_unit_done; [rewrite length_replicate; eapply mapped_mono; [exact Hm|lia|lia]|].
        by apply Forall_replicate. }
    rewrite IH by (apply mapped_put; eapply mapped_mono; [exact Hm|lia|lia]).
    rewrite <- (length_replicate k c) at 2. rewrite put_app, <- replicate_add.
    do 4 f_equal. lia.
Qed.

(** memset fills [n] bytes with the low byte of [c]. *)
Lemma memset_correct m d c n :
  mapped m d n → memset d c n m = Done (d, put m d (replicate n (c mod 256))).
Proof.
  intros Hm. unfold memset. cbv zeta.
  assert (Z.land c 0xFF = c mod 256) as -> by (apply (land_low_mask 8); lia).
  pose proof (Z.mod_pos_bound c 256 ltac:(lia)) as Hc. set (b := c mod 256) in *.
  pose proof (Nat.div_mod n 4 ltac:(lia)) as Hdm. set (q := Nat.div n 4) in *. set (r := Nat.modulo n 4) in *.
  pose proof (unit_bytes_repeat b Hc) as H4.
  rewrite (bind_done _ _ _ _ _ (rep_stos_done 4 q b _ m d Hc H4 ltac:(eapply mapped_mono; [exact Hm|lia|lia]))).
  assert (unit_bytes 1 (u32 (b * 0x01010101)) = [b]) as H1.
  { cbn [unit_bytes] in *. by injection H4 as -> _ _ _. }
  replace (4 * Z.of_nat q) with (Z.of_nat (length (replicate (4 * q) b))) by (rewrite length_replicate; lia).
  erewrite (bind_done (rep_stos _ _ _ _)); [|apply (rep_stos_done 1 r b _ _ _ Hc H1)].
  - rewrite put_app, <- replicate_add. unfold mret, M_ret. do 4 f_equal. lia.
  - apply mapped_put. rewrite length_replicate. eapply mapped_mono; [exact Hm|lia|lia].
Qed.

(** ** Strings *)

(** At [p] is the null-terminated string [l] *)
Definition cstr (m : memory) (p : Z) (l : list Z) : Prop :=
  holds m p (l ++ [0]) ∧ Forall (λ b, 0 < b < 256) l.

Lemma cstr_cons m p b l : cstr m p (b :: l) → m !! p = Some b ∧ 0 < b < 256 ∧ cstr m (p + 1) l.
Proof. intros [[Hb Hl] HF]. inversion HF; subst. done. Qed.

Lemma cstr_nil m p : cstr m p [] → m !! p = Some 0.
Proof. by intros [[Hb _] _]. Qed.

Lemma cstr_fuel m p l : cstr m p l → (length l < string_fuel m)%nat.
Proof. intros [Hl _]. apply holds_mapped_size in Hl. rewrite length_snoc in Hl. unfold string_fuel. lia. Qed.

Lemma strlen_loop_done l : ∀ fuel m src len,
  cstr m (src + len) l → (length l < fuel)%nat →
  strlen_loop fuel src len m = Done (len + Z.of_nat (length l), m).
Proof.
  induction l as [|b l IH]; intros [|fuel] m src len Hs Hf; simpl in Hf; try lia; cbn [strlen_loop].
  - rewrite (bind_done _ _ _ _ _ (load_done _ _ _ (cstr_nil _ _ Hs))). simpl. by rewrite Z.add_0_r.
  - apply cstr_cons in Hs as (Hb & Hr & Hs). rewrite (bind_done _ _ _ _ _ (load_done _ _ _ Hb)).
    rewrite (proj2 (Z.eqb_neq b 0)) by lia. rewrite IH; [|by rewrite Z.add_assoc|lia].
    do 2 f_equal. simpl. lia.
Qed.

Lemma strlen_done m src l : cstr m src l → strlen src m = Done (Z.of_nat (length l), m).
Proof.
  intros Hs. unfold strlen. run. apply (strlen_loop_done l); [by rewrite Z.add_0_r|by eapply cstr_fuel].
Qed.

(** memcmp is 0 exactly on equal areas *)
Lemma memcmp_done l1 : ∀ l2 m lp rp,
  holds m lp l1 → holds m rp l2 → length l1 = length l2 →
  ∃ c, memcmp lp rp (length l1) m = Done (c, m) ∧ (c = 0 ↔ l1 = l2).
Proof.
  induction l1 as [|a l1 IH]; intros [|b l2] m lp rp Ha Hb Hlen; simpl in Hlen; try lia; [by exists 0|].
  destruct Ha as [Ha Ha'], Hb as [Hb Hb']. cbn [length memcmp].
  rewrite (bind_done _ _ _ _ _ (load_done _ _ _ Ha)), (bind_done _ _ _ _ _ (load_done _ _ _ Hb)). cbv zeta.
  destruct (decide (l1 = [])) as [->|Hne].
  - destruct l2; [|done]. exists (a - b). split; [done|]. split; [intros; f_equal; lia|intros [= ->]; lia].
  - assert ((match length l1 with O => mret (a - b) | _ => if a - b =? 0 then memcmp (lp + 1) (rp + 1) (length l1) else mret (a - b) end : SM Z)
            = if a - b =? 0 then memcmp (lp + 1) (rp + 1) (length l1) else mret (a - b)) as -> by (by destruct l1).
    destruct (Z.eqb_spec (a - b) 0) as [He|He].
    + destruct (IH l2 m _ _ Ha' Hb' ltac:(lia)) as (c & Hrun & Hc). exists c. split; [done|].
      rewrite Hc. split; [intros ->; f_equal; lia|by intros [= _ ->]].
    + exists (a - b). split; [done|]. split; [done|]. intros [= -> _]. lia.
Qed.

Lemma holds_drop m p l j : holds m p l → (j ≤ length l)%nat → holds m (p + Z.of_nat j) (drop j l).
Proof.
  intros Hl Hj. rewrite <- (take_drop j l) in Hl. apply holds_app in Hl as [_ Hl].
  by rewrite length_take, Nat.min_l in Hl by lia.
Qed.

(** [sub] is at offset [j] of [l] *)
Definition occurs (sub l : list Z) (j : nat) : Prop := sub `prefix_of` drop j l.

Lemma occurs_take sub l j :
  (j + length sub ≤ length l)%nat → (take (length sub) (drop j l) = sub ↔ occurs sub l j).
Proof.
  intros Hj. unfold occurs. split.
  - intros <-. exists (drop (length sub) (drop j l)). symmetry. apply take_drop.
  - intros [k Hk]. rewrite Hk. by apply take_app_length.
Qed.

Lemma occurs_fits sub l j : sub ≠ [] → occurs sub l j → (j + length sub ≤ length l)%nat.
Proof.
  intros Hne [k Hk]. apply (f_equal length) in Hk. rewrite length_drop, length_app in Hk.
  destruct sub; [done|]. simpl in *. lia.
Qed.

Lemma strstr_loop_done n : ∀ m str substr l sub i,
  cstr m str l → cstr m substr sub → (i + n + length sub = length l + 1)%nat →
  (∀ j, (j < i)%nat → ¬ occurs sub l j) →
  ∃ r, strstr_loop n str substr (Z.of_nat i) (Z.of_nat (length sub)) m = Done (r, m)
    ∧ match r with
      | Some p => ∃ j, p = str + Z.of_nat j ∧ occurs sub l j ∧ ∀ j', (j' < j)%nat → ¬ occurs sub l j'
      | None => ∀ j, (j + length sub ≤ length l)%nat → ¬ occurs sub l j
      end.
Proof.
  induction n as [|n IH]; intros m str substr l sub i Hl Hs Hlen Hno; cbn [strstr_loop].
  - exists None. split; [done|]. intros j Hj. apply Hno. lia.
  - pose proof Hl as [Hh _]. apply holds_app in Hh as [Hh _].
    assert (holds m (str + Z.of_nat i) (take (length sub) (drop i l))) as Hi.
    { apply holds_drop with (j := i) in Hh; [|lia]. rewrite <- (take_drop (length sub) (drop i l)) in Hh.
      by apply holds_app in Hh as [Hh _]. }
    pose proof Hs as [Hsub _]. apply holds_app in Hsub as [Hsub _].
    assert (length (take (length sub) (drop i l)) = length sub) as Hlt.
    { rewrite length_take, length_drop. lia. }
    destruct (memcmp_done _ sub m _ substr Hi Hsub Hlt) as (c & Hrun & Hc).
    rewrite Hlt in Hrun. rewrite Nat2Z.id, (bind_done _ _ _ _ _ Hrun).
    rewrite occurs_take in Hc by lia.
    destruct (Z.eqb_spec c 0) as [He|He].
    + exists (Some (str + Z.of_nat i)). split; [done|]. exists i. split; [done|]. split; [by apply Hc|done].
    + replace (Z.of_nat i + 1) with (Z.of_nat (S i)) by lia.
      apply (IH m str substr l sub (S i) Hl Hs ltac:(lia)).
      intros j Hj. destruct (decide (j = i)) as [->|]; [by rewrite <- Hc|apply Hno; lia].
Qed.

(** Strstr returns the address of the first place where the second string
    occurs in the first, or null when it occurs nowhere, and changes
    nothing. *)
Theorem strstr_correct m str substr l sub :
  cstr m str l → cstr m substr sub →
  ∃ r, strstr str substr m = Done (r, m)
    ∧ match r with
      | Some p => ∃ j, p = str + Z.of_nat j ∧ occurs sub l j ∧ ∀ j', (j' < j)%nat → ¬ occurs sub l j'
      | None => ∀ j, ¬ occurs sub l j
      end.
Proof.
  intros Hl Hs. unfold strstr. destruct sub as [|b sub].
  - rewrite (bind_done _ _ _ _ _ (load_done _ _ _ (cstr_nil _ _ Hs))).
    exists (Some str). split; [done|]. exists 0%nat. rewrite Z.add_0_r. split; [done|].
    split; [apply prefix_nil|lia].
  - pose proof (cstr_cons _ _ _ _ Hs) as (Hb & Hr & _). rewrite (bind_done _ _ _ _ _ (load_done _ _ _ Hb)).
    rewrite (proj2 (Z.eqb_neq b 0)) by lia.
    rewrite (bind_done _ _ _ _ _ (strlen_done _ _ _ Hl)), (bind_done _ _ _ _ _ (strlen_done _ _ _ Hs)).
    destruct (Z.ltb_spec (Z.of_nat (length l)) (Z.of_nat (length (b :: sub)))) as [Hlt|Hge].
    + exists None. split; [done|]. intros j Ho%occurs_fits; [lia|done].
    + destruct (strstr_loop_done (Z.to_nat (Z.of_nat (length l) - Z.of_nat (length (b :: sub)) + 1))
                  m str substr l (b :: sub) 0 Hl Hs ltac:(lia) ltac:(lia)) as (r & Hrun & Hr').
      exists r. split; [exact Hrun|]. destruct r; [done|]. intros j Ho. by eapply Hr', Ho; apply occurs_fits.
Qed.

Definition demo_strings : memory := put ∅ 100 [97; 98; 97; 98; 99; 0; 97; 98; 99; 0].

Lemma strstr_witness :
  ∃ r, strstr 100 106 demo_strings = Done (r, demo_strings)
    ∧ match r with
      | Some p => ∃ j, p = 100 + Z.of_nat j ∧ occurs [97; 98; 99] [97; 98; 97; 98; 99] j
                  ∧ ∀ j', (j' < j)%nat → ¬ occurs [97; 98; 99] [97; 98; 97; 98; 99] j'
      | None => ∀ j, ¬ occurs [97; 98; 99] [97; 98; 97; 98; 99] j
      end.
Proof.
  apply (strstr_correct demo_strings 100 106 [97; 98; 97; 98; 99] [97; 98; 99]);
    (split; [repeat split|repeat constructor; lia]).
Defined.

(** ** Departures from the C library *)

(** strcmp compares characters as signed: a string that starts with a byte
    from 0x80 on sorts before "a". *)
Lemma strcmp_signed : strcmp 100 102 (put ∅ 100 [0x80; 0; 97; 0]) = Done (-225, put ∅ 100 [0x80; 0; 97; 0]).
Proof. vm_compute. reflexivity. Qed.

(** strncat does not terminate the result when the source has [n] or more
    characters, and pads with zeros up to [n] otherwise. *)
Lemma strncat_no_terminator :
  match strncat 100 110 1 (put (put ∅ 100 [97; 0; 55; 55]) 110 [98; 99; 0]) with
  | Done (_, m) => (λ a, m !! a) <$> [100; 101; 102] = [Some 97; Some 98; Some 55]
  | Fault _ => False
  end.
Proof. vm_compute. reflexivity. Qed.

(** memcpy_rev starts its 4-byte moves 3 bytes too high: of the 4 bytes to be
    copied it copies one, and 3 bytes behind the destination change. *)
Lemma memcpy_rev_misplaced :
  match memcpy_rev 100 110 4 (put (put ∅ 100 [0; 0; 0; 0; 0; 0; 0]) 110 [1; 2; 3; 4; 5; 6; 7]) with
  | Done (_, m) => (λ a, m !! a) <$> [100; 101; 102; 103; 104; 105; 106]
                   = [Some 0; Some 0; Some 0; Some 4; Some 5; Some 6; Some 7]
  | Fault _ => False
  end.
Proof. vm_compute. reflexivity. Qed.
