(* ===== verification/TimeOfDay.v ===== *)
(** * kernel/lib/time.cc: seconds since 1970

    [time_of_day_t] has the year within its century in one byte and the
    century in another.  The handlers that read a clock are not modelled. *)

From stdpp Require Import base tactics list numbers option.
From S2P Require Import Prelude.

#[local] Open Scope Z_scope.

Record time_of_day_t := TimeOfDay {
  centisec : Z;   (* each a uint8_t *)
  second : Z;
  minute : Z;
  hour : Z;
  day : Z;
  month : Z;
  year : Z;
  century : Z
}.

Definition fullYear (t : time_of_day_t) : Z := century t * 100 + year t.

(** The table in time_day_of_year *)
Definition month_table (t : time_of_day_t) : list Z :=
  [31;
   (if negb (year t mod 400 =? 0) then 28
    else if negb (year t mod 100 =? 0) then 29
    else if negb (year t mod 4 =? 0) then 28
    else 29);
   31; 30; 31; 30; 31; 31; 30; 31; 30; 31].

(** [for (m = 1; m < time.month; ++m) yday += days[m - 1]]; [None] is a read
    behind the table *)
Fixpoint sum_months (days : list Z) (n : nat) : option Z :=
  match n with
  | O => Some 0
  | S n => s ← sum_months days n; d ← days !! n; Some (s + d)
  end.

Definition time_day_of_year (t : time_of_day_t) : option Z :=
  yday ← sum_months (month_table t) (Z.to_nat (month t - 1));
  Some (u32 (yday + (day t - 1))).

Definition time_unix (t : time_of_day_t) : option Z :=
  let y := u64 (fullYear t - 1900) in
  yday ← time_day_of_year t;
  Some (u64 (second t + minute t * 60 + hour t * 3600 + yday * 86400
             + u64 (y - 70) * 365 * 86400
             + u64 (y - 69) / 4 * 86400
             - u64 (y - 1) / 100 * 86400
             + u64 (y + 299) / 400 * 86400)).

Definition time_unix_ms (t : time_of_day_t) : option Z :=
  s ← time_unix t; Some (u64 (s * 1000 + centisec t * 10)).

(** ** The calendar *)

Definition leap (y : Z) : bool :=
  (y mod 4 =? 0) && (negb (y mod 100 =? 0) || (y mod 400 =? 0)).

Definition month_days (y : Z) : list Z :=
  [31; 28 + Z.b2z (leap y); 31; 30; 31; 30; 31; 31; 30; 31; 30; 31].

(** Days from January 1, 1970 to January 1 of the year [n] years later, one
    year at a time *)
Fixpoint days_of_years (n : nat) : Z :=
  match n with
  | O => 0
  | S n => days_of_years n + 365 + Z.b2z (leap (1970 + Z.of_nat n))
  end.

Definition sum_list (l : list Z) : Z := foldr Z.add 0 l.

Definition unix_seconds (y mo d h mi s : Z) : Z :=
  (days_of_years (Z.to_nat (y - 1970))
   + sum_list (take (Z.to_nat (mo - 1)) (month_days y)) + (d - 1)) * 86400
  + h * 3600 + mi * 60 + s.

Record valid_time (t : time_of_day_t) : Prop := ValidTime {
  vt_second : 0 ≤ second t < 60;
  vt_minute : 0 ≤ minute t < 60;
  vt_hour : 0 ≤ hour t < 24;
  vt_month : 1 ≤ month t ≤ 12;
  vt_day : 1 ≤ day t ≤ 31;
  vt_year : 0 ≤ year t < 100;
  vt_century : 0 ≤ century t < 256;
  vt_epoch : 1970 ≤ fullYear t
}.

(** ** The closed form of the years *)

Lemma leap_step y :
  1970 ≤ y →
  Z.b2z (leap y) = ((y + 1 - 1969) / 4 - (y - 1969) / 4) - ((y + 1 - 1901) / 100 - (y - 1901) / 100)
                   + ((y + 1 - 1601) / 400 - (y - 1601) / 400).
Proof.
  intros Hy. unfold leap.
  destruct (Z.eqb_spec (y mod 4) 0), (Z.eqb_spec (y mod 100) 0), (Z.eqb_spec (y mod 400) 0); cbn [andb orb negb Z.b2z];
    Z.to_euclidean_division_equations; lia.
Qed.

Lemma days_of_years_closed n :
  let y := 1970 + Z.of_nat n in
  days_of_years n = (y - 1970) * 365 + (y - 1969) / 4 - (y - 1901) / 100 + (y - 1601) / 400.
Proof.
  induction n as [|n IH]; [done|]. cbn [days_of_years]. rewrite IH, leap_step by lia.
  replace (1970 + Z.of_nat (S n)) with (1970 + Z.of_nat n + 1) by lia. lia.
Qed.

(** ** The months *)

Lemma sum_list_app l1 l2 : sum_list (l1 ++ l2) = sum_list l1 + sum_list l2.
Proof. induction l1 as [|x l1 IH]; [done|]. simpl. rewrite IH. lia. Qed.

Lemma sum_months_take l n : (n ≤ length l)%nat → sum_months l n = Some (sum_list (take n l)).
Proof.
  induction n as [|n IH]; intros Hn; [done|]. cbn [sum_months]. rewrite IH by lia. simpl.
  destruct (lookup_lt_is_Some_2 l n ltac:(lia)) as [d Hd]. rewrite Hd. simpl.
  rewrite (take_S_r _ _ _ Hd), sum_list_app. simpl. f_equal. lia.
Qed.

(** Days by which the day of the year is off: the table has 29 days in
    February exactly when the year is the first of its century. *)
Definition table_shift (t : time_of_day_t) : Z :=
  if month t <=? 2 then 0 else Z.b2z (year t =? 0) - Z.b2z (leap (fullYear t)).

Lemma table_months t :
  valid_time t →
  sum_list (take (Z.to_nat (month t - 1)) (month_table t))
  = sum_list (take (Z.to_nat (month t - 1)) (month_days (fullYear t))) + table_shift t.
Proof.
  intros Ht. destruct Ht as [_ _ _ Hm _ Hy _ _].
  assert (month_table t = [31; 28 + Z.b2z (year t =? 0); 31; 30; 31; 30; 31; 31; 30; 31; 30; 31]) as ->.
  { unfold month_table. rewrite (Z.mod_small (year t) 400), (Z.mod_small (year t) 100) by lia.
    by destruct (Z.eqb_spec (year t) 0) as [->|]. }
  unfold table_shift, month_days. destruct (Z.leb_spec (month t) 2).
  - assert (month t = 1 ∨ month t = 2) as [-> | ->] by lia; reflexivity.
  - assert (∃ k, Z.to_nat (month t - 1) = S (S k)) as [k ->] by (exists (Z.to_nat (month t - 3)); lia).
    cbn [take]. unfold sum_list. cbn [foldr]. lia.
Qed.

Lemma sum_days_bound y n : 0 ≤ sum_list (take n (month_days y)) ≤ 366.
Proof.
  unfold month_days. destruct (leap y);
    do 13 (destruct n as [|n]; [split; vm_compute; congruence|]); cbn [take]; rewrite ?take_nil; split; vm_compute; congruence.
Qed.

Lemma table_shift_bounds t :
  valid_time t →
  -1 ≤ table_shift t ≤ 1
  ∧ 0 ≤ sum_list (take (Z.to_nat (month t - 1)) (month_days (fullYear t))) + table_shift t.
Proof.
  intros Ht. pose proof (sum_days_bound (fullYear t) (Z.to_nat (month t - 1))).
  unfold table_shift in *. destruct (Z.leb_spec (month t) 2); [lia|].
  assert (∃ k, Z.to_nat (month t - 1) = S (S k)) as [k ->] by (exists (Z.to_nat (month t - 3)); lia).
  unfold month_days. cbn [take]. unfold sum_list. cbn [foldr].
  assert (0 ≤ foldr Z.add 0 (take k [31; 30; 31; 30; 31; 31; 30; 31; 30; 31])).
  { clear. do 10 (destruct k as [|k]; [vm_compute; congruence|]). cbn [take]. rewrite take_nil. vm_compute; congruence. }
  destruct (year t =? 0), (leap (fullYear t)); simpl; lia.
Qed.

(** Time_unix is the number of seconds since 1970 of every date from then on,
    except that from March on it is a day short in a leap year that is not
    the first of its century, and a day long in a first year of a century
    that is no leap year. *)
Theorem time_unix_correct t :
  valid_time t →
  time_unix t = Some (unix_seconds (fullYear t) (month t) (day t) (hour t) (minute t) (second t)
                      + table_shift t * 86400).
Proof.
  intros Ht. unfold time_unix, time_day_of_year.
  rewrite sum_months_take, table_months; [|done|destruct Ht; simpl; lia]. cbn [mbind option_bind].
  pose proof (sum_days_bound (fullYear t) (Z.to_nat (month t - 1))) as Hb. unfold unix_seconds.
  pose proof (days_of_years_closed (Z.to_nat (fullYear t - 1970))) as Hc. cbv zeta in Hc.
  set (s := sum_list _) in *.
  destruct (table_shift_bounds t Ht) as [Hsh Hs]. fold s in Hs.
  destruct Ht as [Hse Hmi Hh Hmo Hd Hy Hce He].
  assert (fullYear t ≤ 25599) as Hmax by (unfold fullYear; lia).
  replace (1970 + Z.of_nat (Z.to_nat (fullYear t - 1970))) with (fullYear t) in Hc by lia.
  rewrite Hc. set (y := fullYear t) in *.
  unwrap.
  replace (y - 1900 - 69) with (y - 1969) by lia. replace (y - 1900 - 1) with (y - 1901) by lia.
  replace (y - 1900 + 299) with (y - 1601) by lia.
  rewrite u64_small; [f_equal; lia|].
  Z.to_euclidean_division_equations; lia.
Qed.

(** March 1, 2024, 12:30:15: one day short *)
Definition demo_time : time_of_day_t := TimeOfDay 50 15 30 12 1 3 24 20.

Lemma time_unix_witness :
  valid_time demo_time ∧ time_unix demo_time = Some (1709296215 - 86400).
Proof.
  assert (valid_time demo_time) as Ht by (split; vm_compute; intuition congruence).
  split; [done|]. rewrite (time_unix_correct demo_time Ht). vm_compute. reflexivity.
Defined.

(** February 29 and March 1, 2024, have the same number. *)
Lemma time_unix_repeats :
  time_unix (TimeOfDay 0 0 0 0 29 2 24 20) = time_unix (TimeOfDay 0 0 0 0 1 3 24 20).
Proof. vm_compute. reflexivity. Qed.
