(* ===== verification/Vector.v ===== *)
(** * kernel/lib/cc/vector.h: vectors, with the lives of their objects

    A buffer is a list of slots, raw memory or an object.  An object whose
    memory is used again or given back while it is alive is [leaked]; for a
    type without a destructor ([trivial]) that does not count.  What a moved
    object is left with ([moved]), the size of an object and the answers of
    malloc are parameters.  Pointers into the buffer are indexes.  Arguments
    are values: one that refers into the vector is not modelled. *)

From stdpp Require Import base tactics list numbers option.
From S2P Require Import Prelude BitSearch.

#[local] Open Scope Z_scope.

Section vector.
Context {T : Type} (moved : T → T) (trivial : bool) (size_of : Z).

(** [room] are the answers of malloc to come, yes when it is empty *)
Record vec := Vec {
  m : option (list (option T));
  capacity : Z;
  sz : Z;
  room : list bool;
  leaked : list T
}.
Abbreviation V := (M vec).

Definition vec_new (answers : list bool) : vec := Vec None 0 0 answers [].

(** ** Storage *)

Definition with_slots (b : list (option T)) (s : vec) : vec := Vec (Some b) (capacity s) (sz s) (room s) (leaked s).
Definition with_size (n : Z) (s : vec) : vec := Vec (m s) (capacity s) n (room s) (leaked s).
Definition leak (vs : list T) (s : vec) : vec := Vec (m s) (capacity s) (sz s) (room s) (leaked s ++ vs).

(** The objects that are alive in slots that go away *)
Definition lost (b : list (option T)) : list T := if trivial then [] else omap id b.

Definition slot (s : vec) (i : nat) : option (option T) := default [] (m s) !! i.
Definition store (i : nat) (x : option T) (s : vec) : vec := with_slots (<[i := x]> (default [] (m s))) s.

(** Placement new, the destructor, and construction from a moved object *)
Definition construct (i : nat) (v : T) : V unit := λ s,
  match slot s i with
  | Some old => Done (tt, leak (lost [old]) (store i (Some v) s))
  | None => Fault OutOfRange
  end.
Definition destruct_at (i : nat) : V unit := λ s,
  match slot s i with Some (Some _) => Done (tt, store i None s) | _ => Fault OutOfRange end.
Definition move_from (i : nat) : V T := λ s,
  match slot s i with Some (Some v) => Done (v, store i (Some (moved v)) s) | _ => Fault OutOfRange end.
Definition move_assign (i : nat) (v : T) : V unit := λ s,
  match slot s i with Some (Some _) => Done (tt, store i (Some v) s) | _ => Fault OutOfRange end.

(** As many slots as the bytes asked for hold *)
Definition allocate (n : Z) : V (option (list (option T))) := λ s,
  Done (if default true (head (room s)) then Some (replicate (Z.to_nat (u64 (n * size_of) / size_of)) None) else None,
        Vec (m s) (capacity s) (sz s) (tail (room s)) (leaked s)).

Definition deallocate : V unit := modify (λ s, leak (lost (default [] (m s))) (Vec None (capacity s) (sz s) (room s) (leaked s))).

(** uninitialized_fill and uninitialized_copy *)
Fixpoint construct_list (i : nat) (vs : list T) : V unit :=
  match vs with
  | [] => mret tt
  | v :: vs => construct i v;; construct_list (S i) vs
  end.

(** uninitialized_move of [n] objects to another buffer: it, and what is left *)
Fixpoint uninitialized_move (n i : nat) (out : list (option T)) : V (list (option T)) :=
  match n with
  | O => mret out
  | S n =>
      v ← move_from i;
      if decide (i < length out)%nat then uninitialized_move n (S i) (<[i := Some v]> out) else throw OutOfRange
  end.

Fixpoint destroy_up (n i : nat) : V unit :=
  match n with O => mret tt | S n => destruct_at i;; destroy_up n (S i) end.
Fixpoint destroy_down (n i : nat) : V unit :=
  match n with O => mret tt | S n => destruct_at (i - 1);; destroy_down n (i - 1) end.

(** ** Capacity *)

Definition MALLOC_OVERHEAD : Z := 16.

Definition best_cap (amount : Z) : V Z :=
  cap ← gets capacity;
  let req_sz := u64 (u64 (cap + amount) * size_of) in
  match bit_log2 W64 (u64 (req_sz + MALLOC_OVERHEAD)) with
  | None => throw AssertFailed
  | Some k =>
      if 64 <=? k then throw OutOfRange
      else
        let best_sz := u64 (Z.shiftl 1 k - MALLOC_OVERHEAD) in
        let min_sz := 64 - MALLOC_OVERHEAD in
        mret ((if min_sz <=? best_sz then best_sz else min_sz) / size_of)
  end.

Definition reserve (new_cap : Z) : V bool :=
  cap ← gets capacity;
  if cap <? new_cap then
    new_p ← allocate new_cap;
    match new_p with
    | None => mret false
    | Some b =>
        n ← gets (Z.to_nat ∘ sz);
        b ← uninitialized_move n 0 b;
        destroy_up n 0;;
        old ← gets m;
        (if decide (is_Some old) then deallocate else mret tt);;
        modify (λ s, Vec (Some b) new_cap (sz s) (room s) (leaked s));;
        mret true
    end
  else mret true.

Definition grow (amount : Z) : V bool :=
  s ← gets id;
  if capacity s <? u64 (sz s + amount) then
    new_cap ← best_cap amount;
    reserve new_cap
  else mret true.

Definition shrink_to_fit : V unit :=
  s ← gets id;
  if sz s <? capacity s then
    tmp ← allocate (sz s);
    match tmp with
    | None => if sz s =? 0 then deallocate;; modify (λ s, Vec None (sz s) (sz s) (room s) (leaked s)) else throw OutOfRange
    | Some b =>
        b ← uninitialized_move (Z.to_nat (sz s)) 0 b;
        deallocate;;
        modify (λ s, Vec (Some b) (sz s) (sz s) (room s) (leaked s))
    end
  else mret tt.

(** ** Changes at the end *)

Definition push_back (value : T) : V bool :=
  s ← gets id;
  ok ← (if capacity s <? u64 (sz s + 1) then grow 1 else mret true);
  if negb ok then mret false
  else
    n ← gets sz;
    construct (Z.to_nat n) value;;
    modify (with_size (u64 (n + 1)));;
    mret true.

Definition pop_back : V unit :=
  n ← gets sz;
  modify (with_size (u64 (n - 1)));;
  destruct_at (Z.to_nat (u64 (n - 1))).

Fixpoint pop_all (n : nat) : V unit := match n with O => mret tt | S n => pop_back;; pop_all n end.
Definition clear : V unit :=
  if trivial then modify (with_size 0) else n ← gets (Z.to_nat ∘ sz); pop_all n.

Definition reset : V unit :=
  clear;;
  cap ← gets capacity;
  (if 0 <? cap then deallocate else mret tt);;
  modify (λ s, Vec None 0 0 (room s) (leaked s)).

Definition resize (count : Z) (value : T) : V bool :=
  n ← gets sz;
  if count <? n then
    destroy_down (Z.to_nat (n - count)) (Z.to_nat n);;
    modify (with_size count);;
    mret true
  else if n <? count then
    ok ← reserve count;
    if negb ok then mret false
    else
      construct_list (Z.to_nat n) (replicate (Z.to_nat (count - n)) value);;
      modify (with_size count);;
      mret true
  else mret true.

Definition assign_fill (count : Z) (value : T) : V bool :=
  clear;;
  ok ← reserve count;
  if negb ok then mret false
  else
    construct_list 0 (replicate (Z.to_nat count) value);;
    modify (with_size count);;
    mret true.

Definition assign_range (values : list T) : V bool :=
  clear;;
  ok ← reserve (Z.of_nat (length values));
  if negb ok then mret false
  else
    n ← gets sz;
    construct_list (Z.to_nat n) values;;
    modify (with_size (u64 (n + Z.of_nat (length values))));;
    mret true.

(** ** Changes in the middle *)

Fixpoint open_gap (n i count : nat) : V unit :=
  match n with
  | O => mret tt
  | S n =>
      v ← move_from (i - 1);
      construct (i + count - 1) v;;
      destruct_at (i - 1);;
      open_gap n (i - 1) count
  end.

(** The place, or null *)
Definition make_space (pos : nat) (count : Z) : V (option nat) :=
  s ← gets id;
  ok ← (if capacity s <? u64 (sz s + count) then grow (u64 (sz s + count - capacity s)) else mret true);
  if negb ok then mret None
  else
    n ← gets (Z.to_nat ∘ sz);
    open_gap (n - pos) n (Z.to_nat count);;
    b ← gets m;
    mret (if decide (is_Some b) then Some pos else None).

Definition insert (pos : nat) (value : T) : V (option nat) :=
  place ← make_space pos 1;
  match place with
  | Some p => construct p value;; modify (λ s, with_size (u64 (sz s + 1)) s);; mret place
  | None => mret place
  end.

Definition insert_fill (pos : nat) (count : Z) (value : T) : V (option nat) :=
  place ← make_space pos count;
  match place with
  | Some p =>
      construct_list p (replicate (Z.to_nat count) value);;
      modify (λ s, with_size (u64 (sz s + count)) s);;
      mret place
  | None => mret place
  end.

Definition insert_range (pos : nat) (values : list T) : V (option nat) :=
  place ← make_space pos (Z.of_nat (length values));
  match place with
  | Some p => construct_list p values;; mret place
  | None => mret place
  end.

Definition emplace (pos : nat) (value : T) : V (option nat) :=
  place ← make_space pos 1;
  match place with
  | Some p => construct p value;; mret place
  | None => throw OutOfRange
  end.

Fixpoint close_gap (n p count : nat) : V unit :=
  match n with
  | O => mret tt
  | S n =>
      destruct_at p;;
      v ← move_from (p + count);
      construct p v;;
      close_gap n (S p) count
  end.

Definition erase (pos : nat) : V nat :=
  n ← gets sz;
  let e := Z.to_nat (n - 1) in
  close_gap (e - pos) pos 1;;
  destruct_at e;;
  modify (with_size (u64 (n - 1)));;
  mret pos.

Definition erase_range (first last : nat) : V nat :=
  n ← gets sz;
  let count := (last - first)%nat in
  let e := (Z.to_nat n - count)%nat in
  close_gap (e - first) first count;;
  destruct_at e;;
  modify (with_size (u64 (n - Z.of_nat count)));;
  mret first.

Definition assign_erase (pos : nat) : V nat :=
  n ← gets sz;
  modify (with_size (u64 (n - 1)));;
  v ← move_from (Z.to_nat (n - 1));
  move_assign pos v;;
  destruct_at (Z.to_nat (n - 1));;
  mret pos.

Definition move_erase (pos : nat) : V nat :=
  n ← gets sz;
  destruct_at pos;;
  modify (with_size (u64 (n - 1)));;
  v ← move_from (Z.to_nat (n - 1));
  construct pos v;;
  destruct_at (Z.to_nat (n - 1));;
  mret pos.

(** ** Access *)

Definition at_ (pos : Z) : V T := λ s,
  if pos <? sz s then match slot s (Z.to_nat pos) with Some (Some v) => Done (v, s) | _ => Fault OutOfRange end else Fault Panicked.
Definition front : V T := λ s,
  if 0 <? sz s then match slot s 0 with Some (Some v) => Done (v, s) | _ => Fault OutOfRange end else Fault AssertFailed.

(** ** Whole vectors *)

(** What the copy constructor makes *)
Definition vec_copy (other : vec) : V unit :=
  ok ← reserve (sz other);
  if negb ok then throw Panicked else mret tt.

(** The move assignment, unless the contents are equal *)
Definition contents (s : vec) : list (option T) := take (Z.to_nat (sz s)) (default [] (m s)).
Definition assign_moved `{EqDecision T} (this other : vec) : vec * vec :=
  if decide (contents this = contents other) then (this, other)
  else (Vec (m other) (capacity other) (sz other) (room this) (leaked this ++ lost (default [] (m this))),
        Vec None 0 0 (room other) (leaked other)).

Definition swap (a b : vec) : vec * vec :=
  (Vec (m b) (capacity b) (sz b) (room a) (leaked a), Vec (m a) (capacity a) (sz a) (room b) (leaked b)).
End vector.

(** ** A vector implements a list *)

Section vector_list.
Context {T : Type} (moved : T → T) (trivial : bool) (size_of : Z).
Hypothesis Hsize : 0 < size_of.

#[local] Abbreviation vec := (vec (T := T)).
#[local] Abbreviation construct := (construct (T := T) trivial).
#[local] Abbreviation destruct_at := (destruct_at (T := T)).
#[local] Abbreviation move_from := (move_from moved).

(** Slots in which construction loses nothing *)
Definition clean (b : list (option T)) : Prop := trivial = true ∨ Forall (eq None) b.

(** The objects and their size in bytes are far from the limits of size_t *)
Definition fits (n : Z) : Prop := 0 ≤ n ∧ n * size_of + MALLOC_OVERHEAD ≤ 2 ^ 61.

Record vec_is (s : vec) (l : list T) : Prop := {
  vi_slots : ∃ rest, default [] (m s) = (Some <$> l) ++ rest ∧ clean rest;
  vi_size : sz s = Z.of_nat (length l);
  vi_cap : capacity s = Z.of_nat (length (default [] (m s)));
  vi_fits : fits (capacity s)
}.

Lemma vec_new_is answers : vec_is (vec_new answers) [].
Proof. constructor; simpl; [exists []; split; [done|by right]|done|done|]. unfold fits, MALLOC_OVERHEAD. lia. Qed.

(** *** Slots *)

Lemma clean_app a b : clean (a ++ b) ↔ clean a ∧ clean b.
Proof. unfold clean. rewrite Forall_app. naive_solver. Qed.
Lemma clean_nones n : clean (replicate n None).
Proof. right. by apply Forall_replicate. Qed.
Lemma clean_lost b : clean b → lost trivial b = [].
Proof.
  unfold lost. intros [->|Hb]; [done|]. destruct trivial; [done|]. induction Hb as [|x b <- _ IH]; [done|exact IH].
Qed.

Lemma with_slots_twice a b (s : vec) : with_slots a (with_slots b s) = with_slots a s.
Proof. done. Qed.
Lemma with_slots_same b (s : vec) : m s = Some b → with_slots b s = s.
Proof. destruct s; simpl. by intros ->. Qed.

Lemma construct_mid A y B v (s : vec) : m s = Some (A ++ y :: B) → clean [y] →
  construct (length A) v s = Done (tt, with_slots (A ++ Some v :: B) s).
Proof.
  intros Hm Hy. unfold construct, Vector.construct, slot, store. rewrite Hm. simpl. rewrite list_lookup_middle by done.
  rewrite insert_app_r_alt, Nat.sub_diag by lia. simpl. rewrite (clean_lost [y] Hy). unfold leak, with_slots. simpl. by rewrite app_nil_r.
Qed.

Lemma destruct_mid A v B (s : vec) : m s = Some (A ++ Some v :: B) → destruct_at (length A) s = Done (tt, with_slots (A ++ None :: B) s).
Proof.
  intros Hm. unfold destruct_at, Vector.destruct_at, slot, store. rewrite Hm. simpl. rewrite list_lookup_middle by done.
  by rewrite insert_app_r_alt, Nat.sub_diag by lia.
Qed.

Lemma move_mid A v B (s : vec) : m s = Some (A ++ Some v :: B) → move_from (length A) s = Done (v, with_slots (A ++ Some (moved v) :: B) s).
Proof.
  intros Hm. unfold move_from, Vector.move_from, slot, store. rewrite Hm. simpl. rewrite list_lookup_middle by done.
  by rewrite insert_app_r_alt, Nat.sub_diag by lia.
Qed.

Lemma construct_list_spec vs A R B (s : vec) : m s = Some (A ++ R ++ B) → length R = length vs → clean R →
  construct_list trivial (length A) vs s = Done (tt, with_slots (A ++ (Some <$> vs) ++ B) s).
Proof.
  revert A R s. induction vs as [|v vs IH]; intros A [|y R] s Hm HR HC; try done.
  { simpl in *. by rewrite with_slots_same. }
  apply (clean_app [y] R) in HC as [Hy HR']. cbn [construct_list].
  rewrite (bind_done _ _ _ _ _ (construct_mid A y (R ++ B) v s Hm Hy)).
  replace (S (length A)) with (length (A ++ [Some v])) by (rewrite length_app; simpl; lia).
  rewrite (IH (A ++ [Some v]) R); [|simpl; by rewrite <- app_assoc|by injection HR|done].
  by rewrite <- app_assoc.
Qed.

Lemma destroy_up_spec l A B (s : vec) : m s = Some (A ++ (Some <$> l) ++ B) →
  destroy_up (length l) (length A) s = Done (tt, with_slots (A ++ replicate (length l) None ++ B) s).
Proof.
  revert A s. induction l as [|v l IH]; intros A s Hm; simpl.
  { by rewrite with_slots_same. }
  rewrite (bind_done _ _ _ _ _ (destruct_mid A v _ s Hm)).
  replace (S (length A)) with (length (A ++ [None (A := T)])) by (rewrite length_app; simpl; lia).
  rewrite (IH (A ++ [None])); [|simpl; by rewrite <- app_assoc]. by rewrite <- app_assoc.
Qed.

Lemma destroy_down_spec l A B (s : vec) : m s = Some (A ++ (Some <$> l) ++ B) →
  destroy_down (length l) (length A + length l) s = Done (tt, with_slots (A ++ replicate (length l) None ++ B) s).
Proof.
  revert B s. induction l as [|v l IH] using rev_ind; intros B s Hm; simpl.
  { by rewrite with_slots_same. }
  rewrite fmap_app, <- app_assoc, app_assoc in Hm. rewrite length_app, Nat.add_comm. cbn [length Nat.add destroy_down].
  replace (length A + S (length l) - 1)%nat with (length (A ++ (Some <$> l))) by (rewrite length_app, length_fmap; lia).
  rewrite (bind_done _ _ _ _ _ (destruct_mid (A ++ (Some <$> l)) v _ s Hm)). rewrite length_app, length_fmap, IH with (B := None :: B).
  - rewrite with_slots_twice. change (None :: B) with ([None (A := T)] ++ B). rewrite (app_assoc (replicate _ _)).
    by rewrite <- replicate_cons_app.
  - simpl. by rewrite <- app_assoc.
Qed.

(** Moving the objects [mid] over [R], which has as many slots as are made *)
Lemma open_gap_spec mid A R B (s : vec) : m s = Some (A ++ (Some <$> mid) ++ R ++ B) → R ≠ [] → clean R →
  ∃ G, open_gap moved trivial (length mid) (length A + length mid) (length R) s = Done (tt, with_slots (A ++ G ++ (Some <$> mid) ++ B) s)
    ∧ length G = length R ∧ clean G.
Proof.
  revert R B s. induction mid as [|x mid IH] using rev_ind; intros R B s Hm HR HC.
  { exists R. split; [|done]. simpl in *. by rewrite with_slots_same. }
  destruct (exists_last HR) as (R0 & y & ->). apply clean_app in HC as [HC Hy]. rewrite fmap_app, <- !app_assoc in Hm. simpl in Hm.
  rewrite !length_app, (Nat.add_comm (length mid)). cbn [length Nat.add open_gap].
  replace (length A + S (length mid) - 1)%nat with (length (A ++ (Some <$> mid))) by (rewrite length_app, length_fmap; lia).
  rewrite app_assoc in Hm. rewrite (bind_done _ _ _ _ _ (move_mid (A ++ (Some <$> mid)) x _ s Hm)).
  set (P := A ++ (Some <$> mid)) in *.
  replace (length A + S (length mid) + (length R0 + 1) - 1)%nat with (length (P ++ Some (moved x) :: R0))
    by (unfold P; rewrite !length_app, length_fmap; simpl; lia).
  rewrite (bind_done _ _ _ _ _ (construct_mid (P ++ Some (moved x) :: R0) y B x (with_slots (P ++ Some (moved x) :: R0 ++ y :: B) s)
    ltac:(simpl; by rewrite <- app_assoc) Hy)).
  rewrite with_slots_twice.
  rewrite (bind_done _ _ _ _ _ (destruct_mid P (moved x) (R0 ++ Some x :: B) (with_slots ((P ++ Some (moved x) :: R0) ++ Some x :: B) s) ltac:(simpl; by rewrite <- app_assoc))).
  rewrite with_slots_twice.
  destruct (IH (None :: R0) (Some x :: B) (with_slots (P ++ None :: R0 ++ Some x :: B) s)) as (G & HG & HlG & HcG);
    [simpl; unfold P; by rewrite <- app_assoc|done|by apply (clean_app [None] R0); split; [apply (clean_nones 1)|]|].
  exists G. simpl in HG, HlG. rewrite (Nat.add_comm (length R0)). split; [|by split].
  replace (length P) with (length A + length mid)%nat by (unfold P; by rewrite length_app, length_fmap).
  by rewrite fmap_app, <- app_assoc.
Qed.

(** One object goes: those behind it move up *)
Lemma close_gap_spec l A x B (s : vec) : m s = Some (A ++ Some x :: (Some <$> l) ++ B) →
  ∃ y, close_gap moved trivial (length l) (length A) 1 s = Done (tt, with_slots (A ++ (Some <$> l) ++ Some y :: B) s).
Proof.
  revert A x s. induction l as [|v l IH]; intros A x s Hm.
  { exists x. simpl in *. by rewrite with_slots_same. }
  cbn [length close_gap]. rewrite (bind_done _ _ _ _ _ (destruct_mid A x _ s Hm)).
  replace (length A + 1)%nat with (length (A ++ [None (A := T)])) by (rewrite length_app; simpl; lia).
  rewrite (bind_done _ _ _ _ _ (move_mid (A ++ [None]) v ((Some <$> l) ++ B) (with_slots (A ++ None :: Some v :: (Some <$> l) ++ B) s)
    ltac:(simpl; by rewrite <- app_assoc))), <- app_assoc, with_slots_twice. cbn [app].
  rewrite (bind_done _ _ _ _ _ (construct_mid A None (Some (moved v) :: (Some <$> l) ++ B) v (with_slots _ s) eq_refl (clean_nones 1))), with_slots_twice.
  destruct (IH (A ++ [Some v]) (moved v) (with_slots (A ++ Some v :: Some (moved v) :: (Some <$> l) ++ B) s)) as (y & Hy);
    [simpl; by rewrite <- app_assoc|].
  exists y. rewrite length_app, Nat.add_comm in Hy. simpl in Hy. rewrite <- app_assoc in Hy. exact Hy.
Qed.
(** *** Capacity *)

Lemma move_all_spec l D B O R out (s : vec) : m s = Some (D ++ (Some <$> l) ++ B) → out = O ++ R → length O = length D → (length l ≤ length R)%nat →
  uninitialized_move moved (length l) (length D) out s
  = Done (O ++ (Some <$> l) ++ drop (length l) R, with_slots (D ++ (Some <$> (moved <$> l)) ++ B) s).
Proof.
  intros Hm ->. revert D O R s Hm. induction l as [|v l IH]; intros D O R s Hm HO HR.
  { simpl in *. by rewrite with_slots_same, drop_0. }
  destruct R as [|y R]; [simpl in HR; lia|]. cbn [length uninitialized_move].
  rewrite (bind_done _ _ _ _ _ (move_mid D v (fmap (M:=list) Some l ++ B) s Hm)). rewrite decide_True by (rewrite length_app; simpl; lia).
  rewrite <- HO, insert_app_r_alt, Nat.sub_diag by lia. change (<[0%nat:=Some v]> (y :: R)) with (Some v :: R).
  replace (S (length O)) with (length (D ++ [Some (moved v)])) by (rewrite length_app; simpl; lia).
  replace (O ++ Some v :: R) with ((O ++ [Some v]) ++ R) by (by rewrite <- app_assoc). rewrite (IH (D ++ [Some (moved v)]) (O ++ [Some v]));
    [|simpl; by rewrite <- app_assoc|rewrite !length_app; simpl; lia|simpl in HR; lia].
  rewrite with_slots_twice, <- !app_assoc. done.
Qed.

(** Everything is there and malloc never refuses *)
Definition plenty (s : vec) : Prop := Forall (eq true) (room s).

(** The contents are [l], nothing is lost, and with enough memory [ok] *)
Record keeps (s s' : vec) (l : list T) (ok : bool) : Prop := {
  ke_is : vec_is s' l;
  ke_leaked : leaked s' = leaked s;
  ke_ok : plenty s → ok = true ∧ plenty s'
}.

Lemma keeps_trans s s1 s2 l1 l2 ok1 ok2 : keeps s s1 l1 ok1 → (ok1 = true → keeps s1 s2 l2 ok2) → ok1 = true → keeps s s2 l2 ok2.
Proof.
  intros [_ Hl Hp] H ->. destruct (H eq_refl) as [Hi Hl' Hp']. constructor; [done|congruence|]. intros Hs. by apply Hp', Hp.
Qed.

Lemma plenty_tail s : plenty s → default true (head (room s)) = true ∧ Forall (eq true) (tail (room s)).
Proof. unfold plenty. destruct (room s); simpl; [done|]. by intros [<- ?]%Forall_cons. Qed.

Lemma allocate_slots n : fits n → u64 (n * size_of) / size_of = n.
Proof. intros [Hn Hf]. unfold MALLOC_OVERHEAD in Hf. rewrite u64_small by nia. by apply Z.div_mul; lia. Qed.

(** What the move to a new buffer leaves *)
Lemma reserve_moves {A} n l rest (K : list (option T) → M vec A) (s : vec) : default [] (m s) = (Some <$> l) ++ rest → clean rest → (length l ≤ n)%nat →
  ∃ s', (b ← uninitialized_move moved (length l) 0 (replicate n None);
         destroy_up (length l) 0;;
         old ← gets m;
         (if decide (is_Some old) then deallocate trivial else mret tt);;
         K b) s = K ((Some <$> l) ++ replicate (n - length l) None) s'
    ∧ sz s' = sz s ∧ room s' = room s ∧ leaked s' = leaked s.
Proof.
  intros Hm Hcl Hn. destruct (m s) as [b|] eqn:Hb; simpl in Hm.
  2:{ destruct l; [|done]. simpl. run. rewrite Hb. simpl. run. rewrite Nat.sub_0_r. eauto. }
  subst b. pose proof (move_all_spec l [] rest [] (replicate n None) _ s Hb eq_refl eq_refl ltac:(rewrite length_replicate; lia)) as Hmv.
  rewrite drop_replicate in Hmv. cbn [length app] in Hmv. rewrite (bind_done _ _ _ _ _ Hmv).
  pose proof (destroy_up_spec (moved <$> l) [] rest (with_slots ((Some <$> (moved <$> l)) ++ rest) s) eq_refl) as Hd.
  rewrite length_fmap in Hd. cbn [length app] in Hd. rewrite (bind_done _ _ _ _ _ Hd), with_slots_twice. run. cbn [m with_slots].
  rewrite decide_True by done. unfold deallocate. run. eexists. split; [done|].
  cbn. rewrite clean_lost, app_nil_r by (apply clean_app; split; [apply clean_nones|done]). done.
Qed.

Lemma reserve_spec n s l : vec_is s l → fits n →
  ∃ ok s', reserve moved trivial size_of n s = Done (ok, s') ∧ keeps s s' l ok ∧ (ok = true → n ≤ capacity s').
Proof.
  intros [(rest & Hm & Hcl) Hsz Hcap Hfit] Hn. unfold reserve. run. destruct (Z.ltb_spec (capacity s) n) as [Hlt|Hge].
  2:{ exists true, s. split; [done|]. split; [|done]. constructor; [|done|done]. constructor; [by exists rest|done|done|done]. }
  unfold allocate at 1. run. pose proof (plenty_tail s) as Hroom. unfold mbind at 1, M_bind at 1.
  destruct (default true (head (room s))) eqn:Hans.
  2:{ eexists false, _. split; [done|]. split; [|done]. constructor; [|done|]; [constructor; [by exists rest|done|done|done]|].
      intros Hp. by destruct (Hroom Hp). }
  rewrite allocate_slots by done. set (s1 := Vec _ _ _ _ _). run. unfold compose.
  replace (Z.to_nat (sz s1)) with (length l) by (simpl; lia).
  destruct (reserve_moves (Z.to_nat n) l rest (λ b, modify (λ s, Vec (Some b) n (sz s) (room s) (leaked s));; mret true) s1 Hm Hcl)
    as (s2 & -> & H1 & H2 & H3); [rewrite Hm, length_app, length_fmap in Hcap; lia|].
  run. eexists true, _. split; [done|]. split; [|simpl; lia]. constructor; simpl.
  - constructor; simpl; [eexists; split; [done|apply clean_nones]|by rewrite H1| |done].
    rewrite length_app, length_fmap, length_replicate. rewrite Hm, length_app, length_fmap in Hcap. lia.
  - by rewrite H3.
  - intros Hp. destruct (Hroom Hp). split; [done|]. unfold plenty. simpl. by rewrite H2.
Qed.
Lemma best_cap_spec amount (s : vec) : 0 ≤ capacity s → 1 ≤ amount → fits (capacity s + amount) →
  ∃ n, best_cap size_of amount s = Done (n, s) ∧ fits n ∧ capacity s + amount ≤ n.
Proof.
  intros Hc Ha [_ Hf]. unfold best_cap, fits, MALLOC_OVERHEAD in *. run. set (req := capacity s + amount) in *.
  assert (1 ≤ req) as Hr by lia. rewrite (u64_small req), (u64_small (req * size_of)) by nia. rewrite (u64_small (_ + 16)) by nia.
  set (x := req * size_of + 16) in *. assert (16 < x) as Hx by nia. unfold bit_log2. rewrite (proj2 (Z.eqb_neq x 0)) by lia.
  rewrite log2_n_64; rewrite s64_small, u64_small by lia; [|lia].
  pose proof (Z.log2_up_spec x ltac:(lia)) as [_ Hk]. pose proof (Z.log2_up_nonneg x).
  assert (Z.log2_up x ≤ 61) as Hk61 by (pose proof (Z.log2_up_le_mono x (2 ^ 61) Hf) as H1; rewrite Z.log2_up_pow2 in H1; lia).
  assert (2 ^ Z.log2_up x ≤ 2 ^ 61) as Hp by (apply Z.pow_le_mono_r; lia). set (k := Z.log2_up x) in *.
  rewrite (proj2 (Z.leb_gt 64 k)), Z.shiftl_1_l, u64_small by lia. eexists. split; [reflexivity|].
  match goal with |- context [(if ?c then ?x else ?y) / size_of] => set (best := if c then x else y) end. assert (req * size_of ≤ best ∧ best + 16 ≤ 2 ^ 61) as [Hb1 Hb2] by (unfold best; case_match; lia).
  assert (0 ≤ best) by nia. pose proof (Z.div_pos best size_of ltac:(lia) ltac:(lia)). pose proof (Z.mul_div_le best size_of ltac:(lia)).
  split; [split; nia|]. apply Z.div_le_lower_bound; lia.
Qed.

Lemma vec_is_cap s l : vec_is s l → 0 ≤ sz s ≤ capacity s ∧ capacity s < 2 ^ 61.
Proof.
  intros [(rest & Hm & _) Hsz Hcap [H0 Hf]]. rewrite Hm, length_app, length_fmap in Hcap. unfold MALLOC_OVERHEAD in Hf. nia.
Qed.

Lemma vec_grow_spec amount s l : vec_is s l → 1 ≤ amount → fits (capacity s + amount) →
  ∃ ok s', grow moved trivial size_of amount s = Done (ok, s') ∧ keeps s s' l ok ∧ (ok = true → sz s + amount ≤ capacity s').
Proof.
  intros Hi Ha Hf. pose proof (vec_is_cap _ _ Hi) as [Hs Hc]. pose proof Hf as [_ Hb]. unfold MALLOC_OVERHEAD in Hb.
  unfold grow. run. unfold id. rewrite u64_small by nia. destruct (Z.ltb_spec (capacity s) (sz s + amount)) as [Hlt|Hge].
  - destruct (best_cap_spec amount s ltac:(lia) Ha Hf) as (n & Hn & Hfn & Hle). rewrite (bind_done _ _ _ _ _ Hn).
    destruct (reserve_spec n s l Hi Hfn) as (ok & s' & Hr & Hk & Hok). exists ok, s'. split; [done|]. split; [done|].
    intros H. specialize (Hok H). lia.
  - exists true, s. split; [done|]. split; [|lia]. by constructor.
Qed.

(** The objects are [l'] now, and the size says so *)
Lemma settled s s1 s' l l' rest : keeps s s1 l true → s' = with_size (Z.of_nat (length l')) (with_slots ((Some <$> l') ++ rest) s1) →
  Z.of_nat (length l' + length rest) = capacity s1 → clean rest → keeps s s' l' true.
Proof.
  intros [[_ _ _ Hf] Hl Hp] -> Hc Hcl. constructor; [|done|done].
  constructor; simpl; [by exists rest|done|rewrite length_app, length_fmap; lia|done].
Qed.

Lemma keeps_refl s l : vec_is s l → keeps s s l true.
Proof. by constructor. Qed.

(** The buffer, where there is room for something *)
Lemma vec_buffer s l : vec_is s l → ∃ rest, default [] (m s) = (Some <$> l) ++ rest ∧ clean rest ∧ Z.of_nat (length l + length rest) = capacity s
  ∧ Z.to_nat (sz s) = length l ∧ (0 < capacity s → m s = Some ((Some <$> l) ++ rest)).
Proof.
  intros [(rest & Hm & Hcl) Hsz Hcap _]. exists rest. rewrite Hm, length_app, length_fmap in Hcap.
  split; [done|]. split; [done|]. split; [lia|]. split; [lia|]. intros Hpos. destruct (m s); simpl in Hm; [by subst|].
  destruct l, rest; simpl in *; done || lia.
Qed.

Lemma push_back_spec v s l : vec_is s l → fits (Z.of_nat (length l) + 1) →
  ∃ ok s', push_back moved trivial size_of v s = Done (ok, s') ∧ keeps s s' (if ok then l ++ [v] else l) ok.
Proof.
  intros Hi Hf. pose proof (vec_is_cap _ _ Hi) as [Hs Hc]. pose proof (vi_size _ _ Hi) as Hsz. unfold push_back. run. unfold id.
  rewrite u64_small by lia.
  assert (∃ ok s', (if capacity s <? sz s + 1 then grow moved trivial size_of 1 else mret true) s = Done (ok, s')
            ∧ keeps s s' l ok ∧ (ok = true → sz s + 1 ≤ capacity s')) as (ok & s1 & Hg & Hk & Hok).
  { destruct (Z.ltb_spec (capacity s) (sz s + 1)); [apply vec_grow_spec; [done|lia|by replace (capacity s) with (sz s) by lia; rewrite Hsz]|].
    exists true, s. split; [done|]. split; [|lia]. by constructor. }
  rewrite (bind_done _ _ _ _ _ Hg). destruct ok; cbn [negb]; [|by exists false, s1]. specialize (Hok eq_refl).
  pose proof (ke_is _ _ _ _ Hk) as Hi1. destruct (vec_buffer _ _ Hi1) as (rest & _ & Hcl & Hcap & Hn & Hm). pose proof (vi_size _ _ Hi1) as Hsz1.
  destruct rest as [|y rest]; [simpl in Hcap; lia|]. apply (clean_app [y] rest) in Hcl as [Hy Hrest].
  pose proof (construct_mid _ _ _ v s1 (Hm ltac:(lia)) Hy) as Hcon. rewrite length_fmap in Hcon.
  run. rewrite Hn, (bind_done _ _ _ _ _ Hcon). run. eexists true, _. split; [done|].
  apply (settled s s1 _ l (l ++ [v]) rest); [done| |rewrite length_app; simpl in *; lia|done].
  rewrite fmap_app, <- app_assoc, length_app, u64_small by lia. unfold with_size. simpl. f_equal. lia.
Qed.
Lemma pop_back_spec v s l : vec_is s (l ++ [v]) → ∃ s', pop_back s = Done (tt, s') ∧ keeps s s' l true.
Proof.
  intros Hi. pose proof (vec_is_cap _ _ Hi) as [Hs Hc]. pose proof (vi_size _ _ Hi) as Hsz. rewrite length_app in Hsz. simpl in Hsz.
  destruct (vec_buffer _ _ Hi) as (rest & _ & Hcl & Hcap & Hn & Hm). specialize (Hm ltac:(lia)). rewrite length_app in Hcap. simpl in Hcap.
  unfold pop_back. run. rewrite u64_small by lia. replace (Z.to_nat (sz s - 1)) with (length (Some <$> l)) by (rewrite length_fmap; lia).
  rewrite fmap_app, <- app_assoc in Hm. rewrite (destruct_mid _ v rest (with_size (sz s - 1) s) Hm). eexists. split; [done|].
  apply (settled s s _ (l ++ [v]) l (None :: rest)); [by apply keeps_refl| |simpl; lia|by apply (clean_app [None] rest); split; [apply (clean_nones 1)|]].
  unfold with_size, with_slots. simpl. f_equal. lia.
Qed.

Lemma clear_spec s l : vec_is s l → ∃ s', clear trivial s = Done (tt, s') ∧ keeps s s' [] true.
Proof.
  intros Hi. unfold clear. destruct (decide (trivial = true)) as [Ht|Ht]; [rewrite Ht|rewrite (not_true_is_false trivial Ht)].
  - run. eexists. split; [done|]. destruct Hi as [(rest & Hm & Hcl) Hsz Hcap Hf].
    constructor; [|done|done]. constructor; simpl; [eexists; split; [done|by left]|done|done|done].
  - run. destruct (vec_buffer _ _ Hi) as (_ & _ & _ & _ & Hn & _). unfold compose. rewrite Hn. clear Hn.
    revert s Hi. induction l as [|v l IH] using rev_ind; intros s Hi; [exists s; split; [done|by apply keeps_refl]|].
    rewrite length_app, Nat.add_comm. cbn [length Nat.add pop_all].
    destruct (pop_back_spec v s l Hi) as (s1 & Hp & Hk). rewrite (bind_done _ _ _ _ _ Hp).
    destruct (IH s1 (ke_is _ _ _ _ Hk)) as (s2 & H2 & Hk2). exists s2. split; [done|]. by eapply keeps_trans.
Qed.

Lemma reset_spec s l : vec_is s l → ∃ s', reset trivial s = Done (tt, s') ∧ keeps s s' [] true.
Proof.
  intros Hi. destruct (clear_spec s l Hi) as (s1 & Hr & Hk). unfold reset. rewrite (bind_done _ _ _ _ _ Hr). run.
  destruct (vec_buffer _ _ (ke_is _ _ _ _ Hk)) as (rest & Hm & Hcl & _). destruct Hk as [Hi1 Hl Hp].
  assert (∃ s2, (if 0 <? capacity s1 then deallocate trivial else mret tt) s1 = Done (tt, s2) ∧ leaked s2 = leaked s1 ∧ room s2 = room s1) as (s2 & Hd & Hl2 & Hr2).
  { case_match; [|by exists s1]. unfold deallocate. run. eexists. split; [done|]. cbn. rewrite Hm. simpl. by rewrite clean_lost, app_nil_r. }
  rewrite (bind_done _ _ _ _ _ Hd). run. eexists. split; [done|]. constructor; simpl; [|congruence|].
  - constructor; simpl; [exists []; split; [done|by right]|done|done|]. unfold fits, MALLOC_OVERHEAD. lia.
  - intros Hs. destruct (Hp Hs) as [_ Hp1]. split; [done|]. unfold plenty in *. simpl. by rewrite Hr2.
Qed.

(** Room for [vs] is made behind the objects, and they are constructed there *)
Lemma append_spec vs s1 l : vec_is s1 l → Z.of_nat (length l + length vs) ≤ capacity s1 →
  ∃ s2, construct_list trivial (length l) vs s1 = Done (tt, s2)
    ∧ ∀ s ok, keeps s s1 l true → ok = with_size (Z.of_nat (length l + length vs)) s2 → keeps s ok (l ++ vs) true.
Proof.
  intros Hi Hroom. destruct (vec_buffer _ _ Hi) as (rest & Hd & Hcl & Hcap & Hn & Hm). destruct vs as [|v vs].
  { exists s1. split; [done|]. intros s s' Hk ->. rewrite app_nil_r. simpl. rewrite Nat.add_0_r. destruct Hk as [[H1 H2 H3 H4] Hl Hp].
    by constructor. }
  remember (v :: vs) as ws eqn:Hws. assert (1 ≤ length ws)%nat as Hpos by (subst ws; simpl; lia). specialize (Hm ltac:(lia)).
  rewrite <- (take_drop (length ws) rest) in Hm, Hcl. apply clean_app in Hcl as [Hc1 Hc2].
  pose proof (construct_list_spec ws (Some <$> l) _ _ s1 Hm ltac:(rewrite length_take; lia) Hc1) as Hrun. rewrite length_fmap in Hrun.
  eexists. split; [exact Hrun|]. intros s s' Hk ->. apply (settled s s1 _ l (l ++ ws) (drop (length ws) rest)); [done| |rewrite length_app, length_drop; lia|done].
  by rewrite fmap_app, <- app_assoc, length_app.
Qed.

Lemma resize_spec (count : nat) v s l : vec_is s l → fits (Z.of_nat count) →
  ∃ ok s', resize moved trivial size_of (Z.of_nat count) v s = Done (ok, s')
    ∧ keeps s s' (if ok then take count l ++ replicate (count - length l) v else l) ok.
Proof.
  intros Hi Hf. pose proof (vi_size _ _ Hi) as Hsz. destruct (vec_buffer _ _ Hi) as (rest & _ & Hcl & Hcap & Hn & Hm). unfold resize. run.
  destruct (Z.ltb_spec (Z.of_nat count) (sz s)) as [Hlt|Hge].
  - replace (Z.to_nat (sz s - Z.of_nat count)) with (length (drop count l)) by (rewrite length_drop; lia).
    specialize (Hm ltac:(lia)). rewrite <- (take_drop count l) in Hm at 1. rewrite fmap_app, <- app_assoc in Hm.
    pose proof (destroy_down_spec (drop count l) _ _ s Hm) as Hd. rewrite length_fmap, length_take, length_drop in Hd.
    replace (count `min` length l + (length l - count))%nat with (Z.to_nat (sz s)) in Hd by lia. rewrite length_drop, (bind_done _ _ _ _ _ Hd). run.
    eexists true, _. split; [done|]. apply (settled s s _ l _ (replicate (length l - count) None ++ rest)); [by apply keeps_refl| | |].
    + replace (count - length l)%nat with 0%nat by lia. simpl. rewrite app_nil_r, length_take. by replace (count `min` length l)%nat with count by lia.
    + rewrite !length_app, !length_replicate, length_take. lia.
    + apply clean_app. split; [apply clean_nones|done].
  - destruct (Z.ltb_spec (sz s) (Z.of_nat count)) as [Hgt|Heq].
    2:{ exists true, s. split; [done|]. replace (count - length l)%nat with 0%nat by lia. rewrite app_nil_r, take_ge by lia. by apply keeps_refl. }
    destruct (reserve_spec _ s l Hi Hf) as (ok & s1 & Hr & Hk & Hok). rewrite (bind_done _ _ _ _ _ Hr). destruct ok; cbn [negb]; [|by exists false, s1].
    rewrite Hn. replace (Z.to_nat (Z.of_nat count - sz s)) with (count - length l)%nat by lia.
    destruct (append_spec (replicate (count - length l) v) s1 l (ke_is _ _ _ _ Hk)) as (s2 & Hc & Hk2); [rewrite length_replicate; specialize (Hok eq_refl); lia|].
    rewrite (bind_done _ _ _ _ _ Hc). run. eexists true, _. split; [done|]. rewrite take_ge by lia. apply (Hk2 s _ Hk). rewrite length_replicate. f_equal. lia.
Qed.

Lemma assign_spec vs s l : vec_is s l → fits (Z.of_nat (length vs)) →
  (∃ ok s', assign_range moved trivial size_of vs s = Done (ok, s') ∧ keeps s s' (if ok then vs else []) ok)
  ∧ ∀ v, vs = replicate (length vs) v →
    ∃ ok s', assign_fill moved trivial size_of (Z.of_nat (length vs)) v s = Done (ok, s') ∧ keeps s s' (if ok then vs else []) ok.
Proof.
  intros Hi Hf. destruct (clear_spec s l Hi) as (s1 & Hr & Hk). unfold assign_range, assign_fill.
  destruct (reserve_spec _ s1 [] (ke_is _ _ _ _ Hk) Hf) as (ok & s2 & Hr2 & Hk2 & Hok).
  assert (keeps s s2 [] ok) as Hk3 by (by eapply keeps_trans).
  destruct ok; [|split; [|intros v _]; rewrite (bind_done _ _ _ _ _ Hr), (bind_done _ _ _ _ _ Hr2); by exists false, s2].
  pose proof (vi_size _ _ (ke_is _ _ _ _ Hk2)) as Hsz. simpl in Hsz. specialize (Hok eq_refl).
  destruct (append_spec vs s2 [] (ke_is _ _ _ _ Hk2)) as (s3 & Hc & Hk4); [simpl; lia|].
  split; [|intros v Hv]; rewrite (bind_done _ _ _ _ _ Hr), (bind_done _ _ _ _ _ Hr2); cbn [negb].
  - run. rewrite Hsz. simpl (Z.to_nat 0). rewrite (bind_done _ _ _ _ _ Hc). run. eexists true, _. split; [done|]. apply (Hk4 s _ Hk3). f_equal.
    destruct Hf as [_ Hf]. unfold MALLOC_OVERHEAD in Hf. rewrite u64_small by nia. simpl. lia.
  - rewrite Nat2Z.id, <- Hv, (bind_done _ _ _ _ _ Hc). run. eexists true, _. split; [done|]. by apply (Hk4 s _ Hk3).
Qed.
(** *** The middle *)

(** Enough slots for [count] more objects are there, or make_space asks for
    more than it has: __grow compares the size plus what is missing, not
    what is needed, with the capacity *)
Definition growable (s : vec) (count : Z) : Prop := sz s + count ≤ capacity s ∨ capacity s < sz s + (sz s + count - capacity s).

Lemma make_room_spec count s l : vec_is s l → 1 ≤ count → fits (Z.of_nat (length l) + count) → growable s count →
  ∃ ok s', (if capacity s <? u64 (sz s + count) then grow moved trivial size_of (u64 (sz s + count - capacity s)) else mret true) s = Done (ok, s')
    ∧ keeps s s' l ok ∧ (ok = true → sz s + count ≤ capacity s').
Proof.
  intros Hi Hc Hf Hg. pose proof (vec_is_cap _ _ Hi) as [Hs Hcap]. pose proof (vi_size _ _ Hi) as Hsz.
  pose proof Hf as [_ Hb]. unfold MALLOC_OVERHEAD in Hb. assert (sz s + count < 2 ^ 62) by nia. rewrite (u64_small (sz s + count)) by lia.
  destruct (Z.ltb_spec (capacity s) (sz s + count)) as [Hlt|Hge]; [|by exists true, s; split; [|split; [apply keeps_refl|]]].
  rewrite u64_small by lia. unfold growable in Hg.
  destruct (vec_grow_spec (sz s + count - capacity s) s l Hi ltac:(lia)) as (ok & s' & Hr & Hk & _); [by replace (capacity s + _) with (Z.of_nat (length l) + count) by lia|].
  exists ok, s'. split; [done|]. split; [done|]. intros ->.
  revert Hr. unfold grow. run. unfold id. rewrite u64_small by lia. rewrite (proj2 (Z.ltb_lt _ _)) by lia.
  destruct (best_cap_spec (sz s + count - capacity s) s ltac:(lia) ltac:(lia)) as (n & Hn & Hfn & Hle);
    [by replace (capacity s + _) with (Z.of_nat (length l) + count) by lia|]. rewrite (bind_done _ _ _ _ _ Hn).
  destruct (reserve_spec n s l Hi Hfn) as (ok & s2 & -> & _ & Hok). intros [= -> ->]. specialize (Hok eq_refl). lia.
Qed.

Lemma make_space_spec pos count s l : vec_is s l → (pos ≤ length l)%nat → 1 ≤ count → fits (Z.of_nat (length l) + count) → growable s count →
  ∃ r s', make_space moved trivial size_of pos count s = Done (r, s') ∧
  match r with
  | None => keeps s s' l false
  | Some p => p = pos ∧ ∃ s1 G B, keeps s s1 l true ∧ s' = with_slots ((Some <$> take pos l) ++ G ++ (Some <$> drop pos l) ++ B) s1
      ∧ length G = Z.to_nat count ∧ clean G ∧ clean B ∧ Z.of_nat (length l + length B) + count = capacity s1
  end.
Proof.
  intros Hi Hpos Hc Hf Hg. destruct (make_room_spec count s l Hi Hc Hf Hg) as (ok & s1 & Hr & Hk & Hok). unfold make_space. run. unfold id.
  rewrite (bind_done _ _ _ _ _ Hr). destruct ok; cbn [negb]; [|by exists None, s1]. specialize (Hok eq_refl).
  destruct (vec_buffer _ _ (ke_is _ _ _ _ Hk)) as (rest & _ & Hcl & Hcap & Hn & Hm). pose proof (vi_size _ _ Hi) as Hsz. specialize (Hm ltac:(lia)).
  run. unfold compose. rewrite Hn. rewrite <- (take_drop pos l) in Hm at 1. rewrite <- (take_drop (Z.to_nat count) rest), fmap_app, <- app_assoc in Hm.
  rewrite <- (take_drop (Z.to_nat count) rest) in Hcl. apply clean_app in Hcl as [Hc1 Hc2].
  assert (length (take (Z.to_nat count) rest) = Z.to_nat count) as Hlt by (rewrite length_take; lia).
  destruct (open_gap_spec (drop pos l) _ _ _ s1 Hm) as (G & HG & HlG & HcG); [by intros H0; rewrite H0 in Hlt; simpl in Hlt; lia|done|].
  rewrite length_fmap, length_take, length_drop, Hlt in HG. replace (pos `min` length l + (length l - pos))%nat with (length l) in HG by lia.
  rewrite (bind_done _ _ _ _ _ HG). run. rewrite decide_True by (simpl; done). eexists (Some pos), _. split; [done|]. split; [done|].
  exists s1, G, (drop (Z.to_nat count) rest). split; [done|]. split; [done|]. split; [lia|]. split; [done|]. split; [done|]. rewrite length_drop. lia.
Qed.

(** Construction in the gap *)
Lemma insert_at_spec pos vs s s1 l G B : keeps s s1 l true → (pos ≤ length l)%nat → length G = length vs → clean G → clean B →
  Z.of_nat (length l + length B) + Z.of_nat (length vs) = capacity s1 →
  let s2 := with_slots ((Some <$> take pos l) ++ G ++ (Some <$> drop pos l) ++ B) s1 in
  ∃ s3, construct_list trivial pos vs s2 = Done (tt, s3) ∧ keeps s (with_size (u64 (sz s3 + Z.of_nat (length vs))) s3) (take pos l ++ vs ++ drop pos l) true.
Proof.
  intros Hk Hpos HG HcG HcB Hcap s2. pose proof (construct_list_spec vs (Some <$> take pos l) G ((Some <$> drop pos l) ++ B) s2 eq_refl HG HcG) as Hrun.
  rewrite length_fmap, length_take in Hrun. replace (pos `min` length l)%nat with pos in Hrun by lia. eexists. split; [exact Hrun|].
  pose proof (vi_size _ _ (ke_is _ _ _ _ Hk)) as Hsz. pose proof (vec_is_cap _ _ (ke_is _ _ _ _ Hk)).
  assert (length (take pos l ++ vs ++ drop pos l) = length l + length vs)%nat as Hlen by (rewrite !length_app, length_take, length_drop; lia).
  apply (settled s s1 _ l _ B); [done| |lia|done]. rewrite Hlen, !fmap_app, <- !app_assoc, u64_small by (simpl; lia).
  unfold s2. rewrite with_slots_twice. unfold with_size. simpl. f_equal. lia.
Qed.

Lemma insert_spec pos v s l : vec_is s l → (pos ≤ length l)%nat → fits (Z.of_nat (length l) + 1) →
  ∃ r s', insert moved trivial size_of pos v s = Done (r, s')
    ∧ match r with None => keeps s s' l false | Some p => p = pos ∧ keeps s s' (take pos l ++ v :: drop pos l) true end.
Proof.
  intros Hi Hpos Hf. pose proof (vec_is_cap _ _ Hi) as [Hs Hcap].
  destruct (make_space_spec pos 1 s l Hi Hpos ltac:(lia) Hf) as ([p|] & s1 & Hr & Hres); [unfold growable; lia| |];
    unfold insert; rewrite (bind_done _ _ _ _ _ Hr); [|by exists None, s1].
  destruct Hres as (-> & s0 & G & B & Hk & -> & HG & HcG & HcB & Hc).
  destruct (insert_at_spec pos [v] s s0 l G B Hk Hpos HG HcG HcB ltac:(simpl; lia)) as (s3 & Hrun & Hk3). cbn [construct_list] in Hrun.
  revert Hrun. unfold mbind, M_bind. destruct (Vector.construct trivial pos v _) as [[[] s4]|]; [|done]. intros [= ->].
  by exists (Some pos), (with_size (u64 (sz s3 + 1)) s3).
Qed.

Lemma insert_fill_spec pos (count : nat) v s l : vec_is s l → (pos ≤ length l)%nat → (1 ≤ count)%nat → fits (Z.of_nat (length l + count)) → growable s (Z.of_nat count) →
  ∃ r s', insert_fill moved trivial size_of pos (Z.of_nat count) v s = Done (r, s')
    ∧ match r with None => keeps s s' l false | Some p => p = pos ∧ keeps s s' (take pos l ++ replicate count v ++ drop pos l) true end.
Proof.
  intros Hi Hpos Hc Hf Hg. rewrite Nat2Z.inj_add in Hf.
  destruct (make_space_spec pos (Z.of_nat count) s l Hi Hpos ltac:(lia) Hf Hg) as ([p|] & s1 & Hr & Hres);
    unfold insert_fill; rewrite (bind_done _ _ _ _ _ Hr); [|by exists None, s1].
  destruct Hres as (-> & s0 & G & B & Hk & -> & HG & HcG & HcB & Hcap). rewrite Nat2Z.id in *.
  destruct (insert_at_spec pos (replicate count v) s s0 l G B Hk Hpos) as (s3 & Hrun & Hk3); [by rewrite length_replicate|done|done|rewrite length_replicate; lia|].
  rewrite (bind_done _ _ _ _ _ Hrun). run. rewrite length_replicate in Hk3. by eexists (Some pos), _.
Qed.
Lemma erase_spec pos s l : vec_is s l → (pos < length l)%nat → ∃ s', erase moved trivial pos s = Done (pos, s') ∧ keeps s s' (delete pos l) true.
Proof.
  intros Hi Hpos. pose proof (vec_is_cap _ _ Hi) as [Hs Hc]. pose proof (vi_size _ _ Hi) as Hsz.
  destruct (vec_buffer _ _ Hi) as (rest & _ & Hcl & Hcap & Hn & Hm). specialize (Hm ltac:(lia)). unfold erase. run.
  destruct (lookup_lt_is_Some_2 l pos Hpos) as [x Hx]. rewrite <- (take_drop_middle l pos x Hx), fmap_app, fmap_cons, <- app_assoc in Hm. simpl in Hm.
  destruct (close_gap_spec (drop (S pos) l) _ x _ s Hm) as (y & Hy). rewrite length_fmap, length_take, length_drop in Hy.
  replace (pos `min` length l)%nat with pos in Hy by lia. replace (Z.to_nat (sz s - 1) - pos)%nat with (length l - S pos)%nat by lia.
  rewrite (bind_done _ _ _ _ _ Hy). rewrite delete_take_drop. set (l' := take pos l ++ drop (S pos) l).
  assert (length l' = length l - 1)%nat as Hl' by (unfold l'; rewrite length_app, length_take, length_drop; lia).
  replace (Z.to_nat (sz s - 1)) with (length (Some <$> l')) by (rewrite length_fmap; lia).
  rewrite app_assoc, <- fmap_app. fold l'. rewrite (bind_done _ _ _ _ _ (destruct_mid (Some <$> l') y rest (with_slots _ s) eq_refl)), with_slots_twice. run.
  eexists. split; [done|]. apply (settled s s _ l l' (None :: rest)); [by apply keeps_refl| |simpl; lia|by apply (clean_app [None] rest); split; [apply (clean_nones 1)|]].
  rewrite u64_small by lia. f_equal. lia.
Qed.

Lemma assign_erase_spec pos z s l : vec_is s (l ++ [z]) → (pos ≤ length l)%nat →
  ∃ s', assign_erase moved pos s = Done (pos, s') ∧ keeps s s' (<[pos := z]> l) true.
Proof.
  intros Hi Hpos. pose proof (vec_is_cap _ _ Hi) as [Hs Hc]. pose proof (vi_size _ _ Hi) as Hsz. rewrite length_app in Hsz. simpl in Hsz.
  destruct (vec_buffer _ _ Hi) as (rest & _ & Hcl & Hcap & Hn & Hm). specialize (Hm ltac:(lia)). rewrite length_app in Hcap. simpl in Hcap.
  rewrite fmap_app, <- app_assoc in Hm. simpl in Hm. unfold assign_erase. run. rewrite u64_small by lia. set (s0 := with_size (sz s - 1) s).
  replace (Z.to_nat (sz s - 1)) with (length (Some <$> l)) by (rewrite length_fmap; lia).
  rewrite (bind_done _ _ _ _ _ (move_mid _ z rest s0 Hm)).
  assert (∃ w, move_assign pos z (with_slots ((Some <$> l) ++ Some (moved z) :: rest) s0) = Done (tt, with_slots ((Some <$> <[pos := z]> l) ++ Some w :: rest) s0)) as (w & Hw).
  { unfold move_assign, slot, store. simpl. destruct (decide (pos < length l)%nat) as [Hlt|Hge].
    - destruct (lookup_lt_is_Some_2 l pos Hlt) as [x Hx]. rewrite lookup_app_l, list_lookup_fmap, Hx by (by rewrite length_fmap). simpl.
      exists (moved z). by rewrite insert_app_l, list_fmap_insert by (by rewrite length_fmap).
    - replace pos with (length (Some <$> l)) by (rewrite length_fmap; lia). rewrite list_lookup_middle by done. exists z.
      rewrite (list_insert_ge l) by (rewrite length_fmap; lia). by rewrite insert_app_r_alt, Nat.sub_diag by lia. }
  rewrite (bind_done _ _ _ _ _ Hw). replace (length (Some <$> l)) with (length (Some <$> <[pos := z]> l)) by (by rewrite !length_fmap, length_insert).
  rewrite (bind_done _ _ _ _ _ (destruct_mid _ w rest (with_slots _ s0) eq_refl)). eexists. split; [done|].
  apply (settled s s _ (l ++ [z]) (<[pos := z]> l) (None :: rest));
    [by apply keeps_refl| |rewrite length_insert; simpl; lia|by apply (clean_app [None] rest); split; [apply (clean_nones 1)|]].
  rewrite length_insert. unfold with_size, with_slots. simpl. f_equal. lia.
Qed.

Lemma move_erase_spec pos z s l : vec_is s (l ++ [z]) → (pos < length l)%nat →
  ∃ s', move_erase moved trivial pos s = Done (pos, s') ∧ keeps s s' (<[pos := z]> l) true.
Proof.
  intros Hi Hpos. pose proof (vec_is_cap _ _ Hi) as [Hs Hc]. pose proof (vi_size _ _ Hi) as Hsz. rewrite length_app in Hsz. simpl in Hsz.
  destruct (vec_buffer _ _ Hi) as (rest & _ & Hcl & Hcap & Hn & Hm). specialize (Hm ltac:(lia)). rewrite length_app in Hcap. simpl in Hcap.
  rewrite fmap_app, <- app_assoc in Hm. simpl in Hm. destruct (lookup_lt_is_Some_2 l pos Hpos) as [x Hx].
  assert (length (take pos l) = pos) as Hlp by (rewrite length_take; lia). rewrite <- (take_drop_middle l pos x Hx) in Hm.
  set (A := Some <$> take pos l) in *. assert (length A = pos) as HA by (unfold A; by rewrite length_fmap).
  rewrite fmap_app, fmap_cons in Hm. set (C := Some <$> drop (S pos) l) in *. fold A in Hm.
  assert (length (A ++ None :: C) = length l) as HAC by (unfold A, C; rewrite length_app; simpl; rewrite !length_fmap, length_drop; lia).
  unfold move_erase. run. rewrite <- app_assoc in Hm. simpl in Hm. pose proof (destruct_mid A x (C ++ Some z :: rest) s Hm) as Hd. rewrite HA in Hd.
  rewrite (bind_done _ _ _ _ _ Hd). run. rewrite u64_small by lia. replace (Z.to_nat (sz s - 1)) with (length (A ++ None :: C)) by lia.
  rewrite (bind_done _ _ _ _ _ (move_mid (A ++ None :: C) z rest (with_size (sz s - 1) (with_slots (A ++ None :: C ++ Some z :: rest) s))
    ltac:(simpl; by rewrite <- app_assoc))). rewrite <- app_assoc. cbn [app].
  pose proof (construct_mid A None (C ++ Some (moved z) :: rest) z (with_slots (A ++ None :: C ++ Some (moved z) :: rest) (with_size (sz s - 1) (with_slots (A ++ None :: C ++ Some z :: rest) s)))
    eq_refl (clean_nones 1)) as Hcon. rewrite HA in Hcon. rewrite (bind_done _ _ _ _ _ Hcon). clear Hcon.
  replace (length (A ++ None :: C)) with (length (A ++ Some z :: C)) by (by rewrite !length_app).
  rewrite (bind_done _ _ _ _ _ (destruct_mid (A ++ Some z :: C) (moved z) rest (with_slots (A ++ Some z :: C ++ Some (moved z) :: rest) _) ltac:(simpl; by rewrite <- app_assoc))).
  eexists. split; [done|].
  apply (settled s s _ (l ++ [z]) (<[pos := z]> l) (None :: rest));
    [by apply keeps_refl| |rewrite length_insert; simpl; lia|by apply (clean_app [None] rest); split; [apply (clean_nones 1)|]].
  rewrite length_insert. replace (Some <$> <[pos := z]> l) with (A ++ Some z :: C).
  - unfold with_size, with_slots. simpl. f_equal. lia.
  - rewrite <- (take_drop_middle l pos x Hx) at 1. rewrite insert_app_r_alt, Hlp, Nat.sub_diag by lia. simpl. by rewrite fmap_app.
Qed.
(** *** Access *)

Lemma at_spec pos s l : vec_is s l →
  at_ (Z.of_nat pos) s = match l !! pos with Some v => Done (v, s) | None => Fault Panicked end.
Proof.
  intros Hi. unfold at_, slot. destruct (vec_buffer _ _ Hi) as (rest & -> & _). rewrite (vi_size _ _ Hi), Nat2Z.id.
  destruct (l !! pos) as [v|] eqn:Hv.
  - pose proof (lookup_lt_Some _ _ _ Hv). rewrite (proj2 (Z.ltb_lt _ _)) by lia.
    by rewrite lookup_app_l, list_lookup_fmap, Hv by (by rewrite length_fmap).
  - apply lookup_ge_None in Hv. by rewrite (proj2 (Z.ltb_ge _ _)) by lia.
Qed.

(** *** Every operation *)

Inductive vop :=
  | PushBack (v : T) | PopBack | Insert (pos : nat) (v : T) | InsertFill (pos count : nat) (v : T)
  | Erase (pos : nat) | AssignErase (pos : nat) | MoveErase (pos : nat)
  | Resize (count : nat) (v : T) | Reserve (count : nat) | AssignFill (count : nat) (v : T) | AssignRange (vs : list T) | Clear | Reset.

(** Whether it succeeded *)
Definition run_op (o : vop) : M vec bool :=
  match o with
  | PushBack v => push_back moved trivial size_of v
  | PopBack => pop_back;; mret true
  | Insert pos v => r ← insert moved trivial size_of pos v; mret (bool_decide (r = Some pos))
  | InsertFill pos count v => r ← insert_fill moved trivial size_of pos (Z.of_nat count) v; mret (bool_decide (r = Some pos))
  | Erase pos => r ← erase moved trivial pos; mret (bool_decide (r = pos))
  | AssignErase pos => r ← assign_erase moved pos; mret (bool_decide (r = pos))
  | MoveErase pos => r ← move_erase moved trivial pos; mret (bool_decide (r = pos))
  | Resize count v => resize moved trivial size_of (Z.of_nat count) v
  | Reserve count => reserve moved trivial size_of (Z.of_nat count)
  | AssignFill count v => assign_fill moved trivial size_of (Z.of_nat count) v
  | AssignRange vs => assign_range moved trivial size_of vs
  | Clear => clear trivial;; mret true
  | Reset => reset trivial;; mret true
  end.

(** What it does to a list *)
Definition list_op (o : vop) (l : list T) : list T :=
  match o with
  | PushBack v => l ++ [v]
  | PopBack => take (length l - 1) l
  | Insert pos v => take pos l ++ v :: drop pos l
  | InsertFill pos count v => take pos l ++ replicate count v ++ drop pos l
  | Erase pos => delete pos l
  | AssignErase pos | MoveErase pos =>
      match last l with Some z => <[pos := z]> (take (length l - 1) l) | None => l end
  | Resize count v => take count l ++ replicate (count - length l) v
  | Reserve _ => l
  | AssignFill count v => replicate count v
  | AssignRange vs => vs
  | Clear | Reset => []
  end.

(** What is left when there is no memory *)
Definition list_failed (o : vop) (l : list T) : list T := match o with AssignFill _ _ | AssignRange _ => [] | _ => l end.

(** What the caller sees to: positions are in the vector, sizes far from the
    limits, and for several insertions that make_space asks for enough *)
Definition allowed (o : vop) (s : vec) (l : list T) : Prop :=
  match o with
  | PushBack _ => fits (Z.of_nat (length l) + 1)
  | PopBack => l ≠ []
  | Insert pos _ => (pos ≤ length l)%nat ∧ fits (Z.of_nat (length l) + 1)
  | InsertFill pos count _ => (pos ≤ length l)%nat ∧ (1 ≤ count)%nat ∧ fits (Z.of_nat (length l + count)) ∧ growable s (Z.of_nat count)
  | Erase pos | AssignErase pos => (pos < length l)%nat
  | MoveErase pos => (S pos < length l)%nat
  | Resize count _ | Reserve count | AssignFill count _ => fits (Z.of_nat count)
  | AssignRange vs => fits (Z.of_nat (length vs))
  | Clear | Reset => True
  end.

Lemma split_last (l : list T) : l ≠ [] → ∃ l0 z, l = l0 ++ [z] ∧ take (length l - 1) l = l0 ∧ last l = Some z.
Proof.
  intros Hl. destruct (exists_last Hl) as (l0 & z & ->). exists l0, z. split; [done|]. rewrite length_app. simpl.
  replace (length l0 + 1 - 1)%nat with (length l0) by lia. by rewrite take_app_length, last_snoc.
Qed.

End vector_list.

(** ** Evaluated *)

Section cases.
(** Objects that are numbers of 8 bytes, 0 when moved from *)
#[local] Abbreviation moved0 := (λ _ : Z, 0).
#[local] Abbreviation V := (vec (T := Z)).

Definition three : V := Vec (Some [Some 1; Some 2; Some 3; None]) 4 3 [] [].
Lemma three_is : vec_is false 8 three [1; 2; 3].
Proof. constructor; [exists [None]; split; [done|by right; repeat constructor]|done|done|]. unfold fits, MALLOC_OVERHEAD. simpl. lia. Qed.

Definition vec_after {A} (o : outcome (A * V)) : V := match o with Done (_, s) => s | Fault _ => vec_new [] end.

Example insert_grows : contents (vec_after (run_op moved0 false 8 (Insert 0 7) (vec_after (push_back moved0 false 8 4 three)))) = Some <$> [7; 1; 2; 3; 4].
Proof. vm_compute. reflexivity. Qed.

(** Two objects into a vector with three of four slots in use: __grow is told
    that one slot is missing, finds one free, and the objects behind the
    place are moved past the end of the buffer *)
Example insert_past_the_end : insert_fill moved0 false 8 0 2 9 three = Fault OutOfRange.
Proof. vm_compute. reflexivity. Qed.

(** insert of a range and emplace do not count what they put in *)
Example insert_range_not_counted : contents (vec_after (insert_range moved0 false 8 3 [4] three)) = Some <$> [1; 2; 3].
Proof. vm_compute. reflexivity. Qed.
Example emplace_drops_last : contents (vec_after (emplace moved0 false 8 0 9 three)) = Some <$> [9; 1; 2].
Proof. vm_compute. reflexivity. Qed.

(** erase of a range destroys one of the objects that are left over *)
Example erase_range_leaves_one :
  let s := vec_after (erase_range moved0 false 0 2 three) in contents s = [Some 3] ∧ default [] (m s) = [Some 3; None; Some 0; None].
Proof. vm_compute. split; reflexivity. Qed.

(** shrink_to_fit loses the objects it moved from *)
Example shrink_leaks : leaked (vec_after (shrink_to_fit moved0 false 8 three)) = [0; 0; 0].
Proof. vm_compute. reflexivity. Qed.

(** move_erase of the last object moves from what it has just destroyed *)
Example move_erase_last : move_erase moved0 false 2 three = Fault OutOfRange.
Proof. vm_compute. reflexivity. Qed.

(** The move assignment frees the buffer with the objects alive *)
Example move_assignment_leaks : leaked (assign_moved false three (vec_new [])).1 = [1; 2; 3].
Proof. vm_compute. reflexivity. Qed.

(** A copy is empty *)
Example copy_is_empty : sz (vec_after (vec_copy moved0 false 8 three (vec_new []))) = 0.
Proof. vm_compute. reflexivity. Qed.
End cases.
