(* ===== verification/Pool.v ===== *)
(** * kernel/lib/pool.cc, pool.h: pools of items of one size

    A pool hands out items of a mapped region; the items given back are
    chained by the index in their first four bytes.  The memory is bytes by
    address; the debug fills of HEAP_DEBUG are on.  What mmap answers is a
    parameter. *)

From stdpp Require Import base tactics list numbers option.
From S2P Require Import Prelude.

#[local] Open Scope Z_scope.

Record pool_base_t := Pool {
  items : Z;
  item_size : Z;
  item_capacity : Z;
  item_count : Z;
  first_free : Z;
  mem : Z → Z
}.
Abbreviation PL := (M pool_base_t).

Definition set_first (n : Z) (s : pool_base_t) : pool_base_t := Pool (items s) (item_size s) (item_capacity s) (item_count s) n (mem s).
Definition set_count (n : Z) (s : pool_base_t) : pool_base_t := Pool (items s) (item_size s) (item_capacity s) n (first_free s) (mem s).
Definition set_mem (f : Z → Z) (s : pool_base_t) : pool_base_t :=
  Pool (items s) (item_size s) (item_capacity s) (item_count s) (first_free s) f.

(** memcpy of a uint32_t, and memset *)
Definition load32 (f : Z → Z) (a : Z) : Z := f a + 256 * f (a + 1) + 65536 * f (a + 2) + 16777216 * f (a + 3).
Definition store32 (a v : Z) (f : Z → Z) : Z → Z := λ x, if (a <=? x) && (x <? a + 4) then Z.shiftr v (8 * (x - a)) mod 256 else f x.
Definition fill (a n v : Z) (f : Z → Z) : Z → Z := λ x, if (a <=? x) && (x <? a + n) then v else f x.

Definition NONE : Z := 2 ^ 32 - 1.
Definition POOL_LOG2_ALIGN : Z := 6.

Definition pool_round_up (n log2m : Z) : Z := Z.land (u32 (n + (Z.shiftl 1 log2m - 1))) (u32 (Z.shiftl NONE log2m)).

Definition pool_new (f : Z → Z) : pool_base_t := Pool 0 0 0 0 0 f.

(** [mapping] is the region mmap returns, if it does.  The last assignment
    but one is of the parameter to itself. *)
Definition create (size capacity : Z) (mapping : option Z) : PL bool :=
  match mapping with
  | None => mret false
  | Some p => modify (λ s, Pool p (item_size s) capacity 0 NONE (mem s));; mret true
  end.
(** The bytes that are mapped: a product of 32 bits *)
Definition mapped_size (size capacity : Z) : Z := u32 (pool_round_up size POOL_LOG2_ALIGN * capacity).

(** What the destructor gives to munmap: the pool itself, not the region *)
Definition destroy (this hdr_size : Z) (s : pool_base_t) : Z * Z :=
  (this, pool_round_up hdr_size POOL_LOG2_ALIGN + u32 (item_size s * item_capacity s)).

Definition item (index : Z) : PL Z := λ s,
  if index <? item_capacity s then Done (items s + u32 (index * item_size s), s) else Fault AssertFailed.

Definition debug_fill (a v : Z) : PL unit := modify (λ s, set_mem (fill a (item_size s) v (mem s)) s).

Definition alloc : PL (option Z) :=
  s ← gets id;
  slot ← (if negb (first_free s =? NONE) then
            slot ← item (first_free s);
            modify (λ s, set_first (load32 (mem s) slot) s);;
            mret (Some slot)
          else if item_count s <? item_capacity s then
            modify (set_count (u32 (item_count s + 1)));;
            slot ← item (item_count s);
            mret (Some slot)
          else mret None);
  match slot with Some a => debug_fill a 0xf0;; mret slot | None => mret slot end.

Definition calloc : PL (option Z) :=
  slot ← alloc;
  match slot with Some a => debug_fill a 0;; mret slot | None => mret slot end.

Definition free (index : Z) : PL unit :=
  slot ← item index;
  debug_fill slot 0xfe;;
  modify (λ s, set_mem (store32 slot (first_free s) (mem s)) s);;
  modify (set_first index).

(** alloc and free of the template, for objects of [size] bytes: the fill
    comes before the test for null, and the index is the distance in
    objects, not in items *)
Definition alloc_object (size : Z) : PL (option Z) :=
  slot ← alloc;
  match slot with
  | Some a => modify (λ s, set_mem (fill a size 0xf0 (mem s)) s);; mret slot
  | None => throw OutOfRange
  end.
Definition free_object (size a : Z) : PL unit :=
  if a =? 0 then mret tt
  else
    s ← gets id;
    let index := (a - items s) / size in
    if index <? item_capacity s then
      modify (λ s, set_mem (fill a size 0xfe (mem s)) s);;
      free index
    else throw AssertFailed.

(** ** Items are handed out once *)

(** What the pool's clients do: they hold items by index, and write to them *)
Inductive pool_op := Alloc | Calloc | Free (index : Z) | Write (a v : Z).

Definition index_of (s : pool_base_t) (a : Z) : Z := (a - items s) / item_size s.

Definition pool_step (o : pool_op) (sh : pool_base_t * list Z) : outcome (pool_base_t * list Z) :=
  let '(s, held) := sh in
  match o with
  | Alloc => match alloc s with Done (Some a, s') => Done (s', index_of s a :: held) | Done (None, s') => Done (s', held) | Fault f => Fault f end
  | Calloc => match calloc s with Done (Some a, s') => Done (s', index_of s a :: held) | Done (None, s') => Done (s', held) | Fault f => Fault f end
  | Free i => match free i s with Done (_, s') => Done (s', filter (λ j, j ≠ i) held) | Fault f => Fault f end
  | Write a v => Done (set_mem (fill a 1 v (mem s)) s, held)
  end.

(** A client frees what it holds and writes inside items it holds *)
Definition pool_allowed (o : pool_op) (sh : pool_base_t * list Z) : Prop :=
  match o with
  | Alloc | Calloc => True
  | Free i => i ∈ sh.2
  | Write a _ => ∃ i, i ∈ sh.2 ∧ items sh.1 + i * item_size sh.1 ≤ a < items sh.1 + i * item_size sh.1 + item_size sh.1
  end.

Inductive pool_reach (s0 : pool_base_t) : pool_base_t * list Z → Prop :=
  | reach_start : pool_reach s0 (s0, [])
  | reach_step o sh sh' : pool_reach s0 sh → pool_allowed o sh → pool_step o sh = Done sh' → pool_reach s0 sh'.

(** A pool that is set up with items of [item_size] bytes, none in use *)
Record pool_ready (s : pool_base_t) : Prop := {
  pr_size : 4 ≤ item_size s;
  pr_cap : 0 ≤ item_capacity s ∧ item_capacity s * item_size s < 2 ^ 32;
  pr_count : item_count s = 0;
  pr_first : first_free s = NONE
}.

(** The chain of the free items in [f], from index [n] on *)
Fixpoint chain_at (base size : Z) (f : Z → Z) (n : Z) (l : list Z) : Prop :=
  match l with
  | [] => n = NONE
  | i :: l => n = i ∧ chain_at base size f (load32 f (base + i * size)) l
  end.

Definition indexes (n : Z) : list Z := Z.of_nat <$> seq 0 (Z.to_nat n).

Record pool_inv (s : pool_base_t) (held chain : list Z) : Prop := {
  pi_size : 4 ≤ item_size s;
  pi_cap : 0 ≤ item_count s ≤ item_capacity s ∧ item_capacity s * item_size s < 2 ^ 32;
  pi_chain : chain_at (items s) (item_size s) (mem s) (first_free s) chain;
  pi_all : chain ++ held ≡ₚ indexes (item_count s)
}.

Lemma indexes_elem n i : i ∈ indexes n ↔ 0 ≤ i < n.
Proof.
  unfold indexes. rewrite list_elem_of_fmap. split.
  - intros (k & -> & Hk%elem_of_seq). lia.
  - intros Hi. exists (Z.to_nat i). rewrite elem_of_seq. lia.
Qed.
Lemma indexes_nodup n : NoDup (indexes n).
Proof. apply NoDup_fmap_2; [apply _|apply NoDup_seq]. Qed.
Lemma indexes_succ n : 0 ≤ n → indexes (n + 1) ≡ₚ n :: indexes n.
Proof.
  intros Hn. unfold indexes. replace (Z.to_nat (n + 1)) with (S (Z.to_nat n)) by lia. rewrite seq_S, fmap_app. simpl.
  rewrite Z2Nat.id by lia. by rewrite Permutation_app_comm.
Qed.

Lemma load_store a v f : 0 ≤ v < 2 ^ 32 → load32 (store32 a v f) a = v.
Proof.
  intros Hv. unfold load32, store32. rewrite !(proj2 (Z.leb_le _ _)), !(proj2 (Z.ltb_lt _ _)) by lia. cbn [andb].
  rewrite !Z.shiftr_div_pow2 by lia.
  replace (8 * (a - a)) with 0 by lia. replace (8 * (a + 1 - a)) with 8 by lia. replace (8 * (a + 2 - a)) with 16 by lia.
  replace (8 * (a + 3 - a)) with 24 by lia. change (2 ^ 0) with 1. change (2 ^ 8) with 256. change (2 ^ 16) with 65536. change (2 ^ 24) with 16777216.
  Z.div_mod_to_equations. lia.
Qed.

Lemma load32_ext f g a : (∀ x, a ≤ x < a + 4 → f x = g x) → load32 f a = load32 g a.
Proof. intros H. unfold load32. by rewrite !H by lia. Qed.

Lemma chain_at_ext base size f g n l : (∀ i x, i ∈ l → base + i * size ≤ x < base + i * size + 4 → f x = g x) →
  chain_at base size f n l → chain_at base size g n l.
Proof.
  revert n. induction l as [|i l IH]; intros n Hx; simpl; [done|]. intros [-> Hl]. split; [done|].
  rewrite <- (load32_ext f g) by (intros x Hb; apply (Hx i x); [left|done]). apply IH; [|done]. intros j x Hj. apply Hx. by right.
Qed.

(** Writing inside an item changes the words of no other item *)
Lemma chain_at_frame base size f g n l i : 4 ≤ size → i ∉ l → (∀ x, ¬ (base + i * size ≤ x < base + i * size + size) → f x = g x) →
  chain_at base size f n l → chain_at base size g n l.
Proof.
  intros Hs Hi Hx. apply chain_at_ext. intros j x Hj Hb. apply Hx. assert (i ≠ j) by (by intros ->). nia.
Qed.

Lemma fill_other a n v f x : ¬ (a ≤ x < a + n) → f x = fill a n v f x.
Proof. intros H. unfold fill. destruct (Z.leb_spec a x), (Z.ltb_spec x (a + n)); simpl; lia || done. Qed.
Lemma store32_other a v f x : ¬ (a ≤ x < a + 4) → f x = store32 a v f x.
Proof. intros H. unfold store32. destruct (Z.leb_spec a x), (Z.ltb_spec x (a + 4)); simpl; lia || done. Qed.

Lemma pool_item_done i s : 0 ≤ i < item_capacity s → item_capacity s * item_size s < 2 ^ 32 → 4 ≤ item_size s →
  item i s = Done (items s + i * item_size s, s).
Proof. intros Hi Hc Hs. unfold item. by rewrite (proj2 (Z.ltb_lt _ _)), u32_small by nia. Qed.

Section inv.
Context (s : pool_base_t) (held chain : list Z).
Hypothesis Hinv : pool_inv s held chain.

Lemma pool_index i : i ∈ chain ∨ i ∈ held → 0 ≤ i < item_count s.
Proof. intros Hi. apply indexes_elem. rewrite <- (pi_all _ _ _ Hinv). by apply elem_of_app. Qed.

Lemma pool_nodup : NoDup (chain ++ held).
Proof. rewrite (pi_all _ _ _ Hinv). apply indexes_nodup. Qed.

Lemma pool_item i : 0 ≤ i < item_capacity s → item i s = Done (items s + i * item_size s, s) ∧ index_of s (items s + i * item_size s) = i.
Proof.
  intros Hi. destruct Hinv as [Hs [_ Hc] _ _]. split; [by apply pool_item_done|]. unfold index_of. replace (items s + i * item_size s - items s) with (i * item_size s) by lia. apply Z.div_mul. lia.
Qed.
End inv.

(** Nothing but items that are held is written *)
Lemma pool_write s held chain i g : pool_inv s held chain → i ∈ held →
  (∀ x, ¬ (items s + i * item_size s ≤ x < items s + i * item_size s + item_size s) → mem s x = g x) → pool_inv (set_mem g s) held chain.
Proof.
  intros Hinv Hi Hg. pose proof (pool_nodup _ _ _ Hinv) as (_ & Hd & _)%NoDup_app. destruct Hinv as [Hs Hc Hch Hall]. constructor; [done|done| |done].
  apply (chain_at_frame _ _ (mem s) g _ _ i Hs); [|done|done]. intros Hin. by destruct (Hd i Hin).
Qed.

Lemma pool_alloc_spec s held chain : pool_inv s held chain →
  ∃ r s', alloc s = Done (r, s') ∧ items s' = items s ∧ item_size s' = item_size s ∧ item_capacity s' = item_capacity s ∧
  match r with
  | Some a => ∃ i chain', a = items s + i * item_size s ∧ index_of s a = i ∧ i ∉ held ∧ pool_inv s' (i :: held) chain'
  | None => s' = s ∧ chain = [] ∧ item_count s = item_capacity s
  end.
Proof.
  intros Hinv. pose proof (pool_nodup _ _ _ Hinv) as Hnd. pose proof (pool_item _ _ _ Hinv) as Hitem. pose proof (pool_index _ _ _ Hinv) as Hidx.
  pose proof Hinv as [Hs [Hcnt Hc] Hch Hall]. unfold alloc. run. unfold id.
  destruct chain as [|i chain]; cbn [chain_at] in Hch.
  - rewrite Hch, Z.eqb_refl. cbn [negb]. destruct (Z.ltb_spec (item_count s) (item_capacity s)) as [Hlt|Hge].
    2:{ exists None, s. split; [done|]. repeat split; try done. lia. }
    destruct (Hitem (item_count s) ltac:(lia)) as [_ Hix]. rewrite u32_small by nia.
    rewrite bind_assoc. run. rewrite bind_assoc, (bind_done _ _ _ _ _ (pool_item_done (item_count s) (set_count (item_count s + 1) s) ltac:(simpl; lia) Hc Hs)). run.
    unfold debug_fill. run. eexists (Some _), _. split; [reflexivity|].
    do 3 (split; [done|]). exists (item_count s), []. split; [done|]. split; [done|].
    assert (item_count s ∉ held) as Hno by (intros H; specialize (Hidx _ (or_intror H)); lia). split; [done|].
    constructor; [done|simpl; lia|done|]. simpl. rewrite indexes_succ by lia. by constructor.
  - destruct Hch as [-> Hch]. apply NoDup_cons in Hnd as [Hni Hnd]. apply not_elem_of_app in Hni as [Hnc Hnh].
    assert (0 ≤ i < item_count s) as Hi by (apply Hidx; left; left). rewrite (proj2 (Z.eqb_neq i NONE)) by (unfold NONE; nia). cbn [negb].
    destruct (Hitem i ltac:(lia)) as [Hrun Hix]. rewrite bind_assoc, (bind_done _ _ _ _ _ Hrun), bind_assoc. run. unfold debug_fill. run.
    eexists (Some _), _. split; [reflexivity|]. do 3 (split; [done|]). exists i, chain. split; [done|]. split; [done|]. split; [done|].
    constructor; [done|done| |].
    + apply (chain_at_frame _ _ (mem s) _ _ _ i Hs); [done| |done]. intros x Hx. by apply fill_other.
    + simpl. rewrite <- Hall. simpl. by rewrite Permutation_middle.
Qed.

Lemma filter_absent (i : Z) (l : list Z) : i ∉ l → filter (λ j, j ≠ i) l = l.
Proof. induction l as [|j l IH]; [done|]. intros [Hj Hl]%not_elem_of_cons. rewrite filter_cons, decide_True by done. by rewrite IH. Qed.
Lemma filter_out (i : Z) (l : list Z) : NoDup l → i ∈ l → l ≡ₚ i :: filter (λ j, j ≠ i) l.
Proof.
  induction l as [|j l IH]; [by intros _ ?%not_elem_of_nil|]. intros [Hj Hl]%NoDup_cons Hi. rewrite filter_cons.
  destruct (decide (j = i)) as [->|Hne]; [rewrite decide_False by (by intros []); by rewrite filter_absent|].
  rewrite decide_True by done. apply elem_of_cons in Hi as [->|Hi]; [done|]. rewrite (IH Hl Hi) at 1. apply Permutation_swap.
Qed.

Lemma pool_free_spec s held chain i : pool_inv s held chain → i ∈ held →
  ∃ s', free i s = Done (tt, s') ∧ pool_inv s' (filter (λ j, j ≠ i) held) (i :: chain).
Proof.
  intros Hinv Hi. pose proof (pool_nodup _ _ _ Hinv) as (Hn1 & Hd & Hn2)%NoDup_app. pose proof (pool_index _ _ _ Hinv i (or_intror Hi)) as Hidx.
  assert (0 ≤ first_free s < 2 ^ 32) as Hff.
  { pose proof (pi_chain _ _ _ Hinv) as Hch. destruct chain as [|j chain]; simpl in Hch; [rewrite Hch; unfold NONE; lia|].
    destruct Hch as [-> _]. pose proof (pool_index _ _ _ Hinv j ltac:(left; left)). destruct Hinv as [? [? ?] _ _]. nia. }
  pose proof Hinv as [Hs [Hcnt Hc] Hch Hall]. destruct (pool_item _ _ _ Hinv i ltac:(lia)) as [Hrun _]. unfold free.
  rewrite (bind_done _ _ _ _ _ Hrun). unfold debug_fill. run. eexists. split; [reflexivity|].
  assert (i ∉ chain) as Hno by (intros H; by destruct (Hd i H)). constructor; [done|done| |].
  - simpl. split; [done|]. rewrite load_store by done. apply (chain_at_frame _ _ (mem s) _ _ _ i Hs); [done| |done].
    intros x Hx. rewrite <- store32_other by lia. by apply fill_other.
  - cbn. rewrite <- Hall. change (i :: chain ++ ?h) with (i :: (chain ++ h)). rewrite Permutation_middle. f_equiv. symmetry.
    by apply filter_out.
Qed.

Lemma pool_calloc_spec s held chain : pool_inv s held chain →
  ∃ r s', calloc s = Done (r, s') ∧ items s' = items s ∧ item_size s' = item_size s ∧ item_capacity s' = item_capacity s ∧
  match r with
  | Some a => ∃ i chain', a = items s + i * item_size s ∧ index_of s a = i ∧ i ∉ held ∧ pool_inv s' (i :: held) chain'
  | None => s' = s ∧ chain = [] ∧ item_count s = item_capacity s
  end.
Proof.
  intros Hinv. destruct (pool_alloc_spec s held chain Hinv) as (r & s1 & Hr & H1 & H2 & H3 & Hres). unfold calloc. rewrite (bind_done _ _ _ _ _ Hr).
  destruct r as [a|]; [|by exists None, s1]. destruct Hres as (i & chain' & -> & Hix & Hi & Hinv'). unfold debug_fill. run.
  eexists (Some _), _. split; [reflexivity|]. do 3 (split; [done|]). exists i, chain'. do 3 (split; [done|]).
  apply (pool_write _ _ _ i); [done|left|]. intros x Hx. rewrite H1, H2 in *. by apply fill_other.
Qed.

(** One step of the clients keeps the invariant *)
Lemma pool_step_inv o s held chain : pool_inv s held chain → pool_allowed o (s, held) →
  ∃ s' held' chain', pool_step o (s, held) = Done (s', held') ∧ pool_inv s' held' chain'
    ∧ item_capacity s' = item_capacity s ∧ item_size s' = item_size s ∧ items s' = items s.
Proof.
  intros Hinv Ha. destruct o as [| |i|a v]; cbn [pool_step pool_allowed] in *.
  - destruct (pool_alloc_spec s held chain Hinv) as ([a|] & s' & -> & H1 & H2 & H3 & Hres).
    + destruct Hres as (i & chain' & _ & -> & _ & Hi). by exists s', (i :: held), chain'.
    + destruct Hres as (-> & _). by exists s, held, chain.
  - destruct (pool_calloc_spec s held chain Hinv) as ([a|] & s' & -> & H1 & H2 & H3 & Hres).
    + destruct Hres as (i & chain' & _ & -> & _ & Hi). by exists s', (i :: held), chain'.
    + destruct Hres as (-> & _). by exists s, held, chain.
  - destruct (pool_free_spec s held chain i Hinv Ha) as (s' & Hr & Hi). rewrite Hr. exists s', (filter (λ j, j ≠ i) held), (i :: chain).
    split; [done|]. split; [done|]. revert Hr. unfold free. destruct (item i s) as [[slot s1]|] eqn:Hit; [|unfold mbind, M_bind; by rewrite Hit].
    rewrite (bind_done _ _ _ _ _ Hit). unfold debug_fill. run. revert Hit. unfold item. case_match; [|done]. intros [= <- <-] [= <-]. done.
  - destruct Ha as (i & Hi & Hx). eexists _, held, chain. split; [done|]. split; [|done]. apply (pool_write _ _ _ i); [done|done|].
    intros x Hno. apply fill_other. simpl in *. lia.
Qed.

Lemma pool_reach_inv s0 sh : pool_ready s0 → pool_reach s0 sh →
  ∃ chain, pool_inv sh.1 sh.2 chain ∧ item_capacity sh.1 = item_capacity s0 ∧ item_size sh.1 = item_size s0 ∧ items sh.1 = items s0.
Proof.
  intros [Hs Hc Hn Hf]. induction 1 as [|o [s held] sh' _ (chain & Hinv & H1 & H2 & H3) Ha Hstep].
  - exists []. split; [|done]. constructor; simpl; [done|lia|done|by rewrite Hn].
  - destruct (pool_step_inv o s held chain Hinv Ha) as (s' & held' & chain' & Hr & Hinv' & ? & ? & ?). rewrite Hr in Hstep. injection Hstep as <-.
    exists chain'. simpl in *. split; [done|]. split; [congruence|]. split; congruence.
Qed.

(** From a pool that is set up, whatever the clients do with items they hold:
    every step runs, an item is held by one of them, its bytes are in the
    region and in no other item, and alloc has none left only when all are
    held. *)
Theorem pool_items_distinct s0 s held : pool_ready s0 → pool_reach s0 (s, held) →
  NoDup held ∧ Forall (λ i, 0 ≤ i < item_capacity s0) held
  ∧ (∀ i j, i ∈ held → j ∈ held → i ≠ j → ∀ x, ¬ (items s0 + i * item_size s0 ≤ x < items s0 + (i + 1) * item_size s0
                                             ∧ items s0 + j * item_size s0 ≤ x < items s0 + (j + 1) * item_size s0))
  ∧ (∀ o, pool_allowed o (s, held) → ∃ sh', pool_step o (s, held) = Done sh')
  ∧ (∀ s', alloc s = Done (None, s') → Z.of_nat (length held) = item_capacity s0).
Proof.
  intros Hready Hreach. destruct (pool_reach_inv s0 _ Hready Hreach) as (chain & Hinv & Hcap & Hsize & Hitems). simpl in *.
  pose proof (pool_nodup _ _ _ Hinv) as (_ & _ & Hnd)%NoDup_app. split; [done|]. split.
  { apply Forall_forall. intros i Hi. pose proof (pool_index _ _ _ Hinv i (or_intror Hi)). destruct (pi_cap _ _ _ Hinv). lia. }
  split; [|split].
  - intros i j _ _ Hne x. pose proof (pi_size _ _ _ Hinv). nia.
  - intros o Ha. destruct (pool_step_inv o s held chain Hinv Ha) as (s' & held' & _ & Hr & _). eauto.
  - intros s' Hnone. destruct (pool_alloc_spec s held chain Hinv) as (r & s1 & Hr & _ & _ & _ & Hres). rewrite Hnone in Hr. injection Hr as <- <-.
    destruct Hres as (_ & -> & Hfull). pose proof (Permutation_length (pi_all _ _ _ Hinv)) as Hlen. unfold indexes in Hlen. simpl in Hlen.
    rewrite length_fmap, length_seq in Hlen. destruct (pi_cap _ _ _ Hinv). lia.
Qed.

(** ** What create sets up *)

Lemma alloc_size_zero s a s' : item_size s = 0 → alloc s = Done (Some a, s') → a = items s ∧ item_size s' = 0 ∧ items s' = items s.
Proof.
  intros H0. unfold alloc, debug_fill, item, gets, modify, mret, M_ret, mbind, M_bind, id. destruct s as [p z cap n ff f]. cbn in H0. subst z. cbn -[u32 Z.mul].
  intros Ha. repeat (case_match; cbn -[u32 Z.mul] in *; simplify_eq); cbn -[u32 Z.mul]; rewrite ?Z.mul_0_r; change (u32 0) with 0; (split; [lia|done]).
Qed.

(** create leaves the size of the items as it was, 0: every item that the
    pool hands out is the first *)
Lemma created_items_alias size capacity p f s1 s2 s3 a b :
  create size capacity (Some p) (pool_new f) = Done (true, s1) → alloc s1 = Done (Some a, s2) → alloc s2 = Done (Some b, s3) → a = p ∧ b = p.
Proof.
  intros [= <-] Ha Hb. destruct (alloc_size_zero (Pool p 0 capacity 0 NONE f) a s2 eq_refl Ha) as (-> & H0 & Hi). destruct (alloc_size_zero _ _ _ H0 Hb) as (-> & _). by rewrite Hi.
Qed.

Definition word_pool : pool_base_t := Pool 4096 64 2 0 NONE (λ _, 0).

Lemma word_pool_ready : pool_ready word_pool.
Proof. constructor; simpl; lia || done. Qed.

(** Two items are handed out, and there is no third *)
Definition stepped (o : pool_op) (sh : pool_base_t * list Z) : pool_base_t * list Z := match pool_step o sh with Done sh => sh | Fault _ => sh end.
Definition two_held : pool_base_t * list Z := stepped Alloc (stepped Alloc (word_pool, [])).

Lemma reach_alloc s0 sh : pool_ready s0 → pool_reach s0 sh → pool_reach s0 (stepped Alloc sh).
Proof.
  intros Hr Hs. destruct (pool_reach_inv s0 sh Hr Hs) as (chain & Hinv & _). destruct sh as [s held].
  destruct (pool_step_inv Alloc s held chain Hinv I) as (s' & held' & _ & Hstep & _). unfold stepped. rewrite Hstep.
  by apply (reach_step _ Alloc (s, held)).
Qed.

Lemma two_reached : pool_reach word_pool two_held.
Proof. apply reach_alloc, reach_alloc, reach_start; apply word_pool_ready. Qed.

Example pool_items_distinct_witness :
  two_held.2 = [1; 0] ∧ NoDup two_held.2 ∧ ∀ s', alloc two_held.1 = Done (None, s') → Z.of_nat (length two_held.2) = 2.
Proof.
  split; [vm_compute; reflexivity|]. destruct (pool_items_distinct word_pool two_held.1 two_held.2) as (H1 & _ & _ & _ & H2);
    [exact word_pool_ready|rewrite <- surjective_pairing; exact two_reached|]. split; [exact H1|exact H2].
Defined.

(** A pool is full: the template fills the item before it tests for null *)
Example full_pool_faults : alloc_object 48 two_held.1 = Fault OutOfRange.
Proof. vm_compute. reflexivity. Qed.

(** Objects of 48 bytes in items of 64: item 3 is given back as item 4 *)
Example wrong_item_freed :
  match free_object 48 (4096 + 192) (Pool 4096 64 8 8 NONE (λ _, 0)) with Done (_, s) => first_free s = 4 | Fault _ => False end.
Proof. vm_compute. reflexivity. Qed.
