(* ===== verification/Printk.v ===== *)
(** * kernel/lib/printk.cc: formatted output

    Strings are lists of bytes with their null.  The arguments are a list of
    values.  [emit_chars] is the callback: it gets a string and a length, a
    string and 0, or no string and a character, and answers how many bytes it
    took.  The kernel is built without the floating point conversions. *)

From stdpp Require Import base tactics list numbers option.
From S2P Require Import Prelude Utf.

#[local] Open Scope Z_scope.

Inductive length_mod_t := length_none | length_hh | length_h | length_l | length_ll | length_j | length_z | length_t | length_L.

(** An argument of the call *)
Inductive va := VInt (z : Z) | VStr (s : option (list Z)) | VWstr (s : option (list Z)) | VRef.

(** arg_t with its arg_type_t *)
Inductive arg_t :=
  | arg_none
  | char_ptr (s : list Z)
  | wchar_ptr (s : list Z)
  | character (c : Z)
  | intptr_value (v : Z)
  | uintptr_value (v : Z).

(** formatter_flags_t: what is read before the conversion, what the
    conversion sets, and the argument *)
Record mods_t := Mods { left_justify : bool; leading_plus : bool; hash : bool; leading_zero : bool }.
Record spec_t := Spec { mods : mods_t; min_width : Z; has_precision : bool; precision : Z; length_mod : length_mod_t }.
Record conv_t := Conv { arg : arg_t; base : Z; upper : bool; alternate : bool; limit_string : bool }.

(** ** Reading the format *)

Definition is_digit (c : Z) : bool := (48 <=? c) && (c <=? 57).

Fixpoint int_digits (p : list Z) (n : Z) : Z * list Z :=
  match p with
  | c :: p' => if is_digit c then int_digits p' (s32 (n * 10 + (c - 48))) else (n, p)
  | [] => (n, p)
  end.
Definition parse_int (p : list Z) : Z * list Z :=
  match p with
  | c :: p' => if c =? 45 then let '(n, p) := int_digits p' 0 in (s32 (n * -1), p) else int_digits p 0
  | [] => int_digits p 0
  end.

(** strcspn(fp, "%") *)
Fixpoint literal_len (fp : list Z) : nat :=
  match fp with
  | c :: fp => if (c =? 37) || (c =? 0) then 0 else S (literal_len fp)
  | [] => 0
  end.

Fixpoint parse_mods (fp : list Z) (f : mods_t) : mods_t * list Z :=
  match fp with
  | c :: fp' =>
      if c =? 45 then parse_mods fp' (Mods true (leading_plus f) (hash f) (leading_zero f))
      else if c =? 43 then parse_mods fp' (Mods (left_justify f) true (hash f) (leading_zero f))
      else if c =? 35 then parse_mods fp' (Mods (left_justify f) (leading_plus f) true (leading_zero f))
      else if c =? 48 then parse_mods fp' (Mods (left_justify f) (leading_plus f) (hash f) true)
      else (f, fp)
  | [] => (f, fp)
  end.

Definition parse_length (fp : list Z) : length_mod_t * list Z :=
  match fp with
  | 104 :: 104 :: fp => (length_hh, fp)
  | 104 :: fp => (length_h, fp)
  | 108 :: 108 :: fp => (length_ll, fp)
  | 108 :: fp => (length_l, fp)
  | 106 :: fp => (length_j, fp)
  | 122 :: fp => (length_z, fp)
  | 116 :: fp => (length_t, fp)
  | 76 :: fp => (length_L, fp)
  | _ => (length_none, fp)
  end.

Definition formatter_hexlookup : list Z :=
  [48; 49; 50; 51; 52; 53; 54; 55; 56; 57; 97; 98; 99; 100; 101; 102;
   48; 49; 50; 51; 52; 53; 54; 55; 56; 57; 65; 66; 67; 68; 69; 70].

(** One step of [n -= (n > 0)] *)
Definition less_one (n : Z) : Z := if 0 <? n then n - 1 else n.

(** The digits, before which [text] are; [n] more characters have room *)
Fixpoint digit_loop (n : nat) (upper : bool) (b v zeros padding : Z) (text : list Z) : list Z * Z * Z :=
  match n with
  | O => (text, zeros, padding)
  | S n =>
      let text := default 0 (formatter_hexlookup !! Z.to_nat ((if upper then 16 else 0) + v mod b)) :: text in
      let v := v / b in
      if v =? 0 then (text, less_one zeros, less_one padding)
      else digit_loop n upper b v (less_one zeros) (less_one padding) text
  end.

(** strlen, and memchr for 0 in [n] bytes *)
Fixpoint strlen (s : list Z) : outcome Z :=
  match s with
  | [] => Fault OutOfRange
  | c :: s => if c =? 0 then Done 0 else match strlen s with Done n => Done (n + 1) | Fault f => Fault f end
  end.
Fixpoint bounded_len (s : list Z) (n : Z) : outcome Z :=
  if n =? 0 then Done 0
  else match s with
       | [] => Fault OutOfRange
       | c :: s => if c =? 0 then Done 0 else match bounded_len s (n - 1) with Done k => Done (k + 1) | Fault f => Fault f end
       end.

(** L"(null)" and "(null)" *)
Definition null_text : list Z := [40; 110; 117; 108; 108; 41; 0].

(** ** Writing *)

Section formatter.
Context {E : Type} (emit_chars : option (list Z) → Z → E → outcome (Z * E)).

(** [stored] is what %n stores, the last first *)
Record print_t := Print { ap : list va; written : Z; out : E; stored : list Z }.
Abbreviation P := (M print_t).

Definition put (s : option (list Z)) (c : Z) : P unit := λ st,
  match emit_chars s c (out st) with
  | Done (n, e) => Done (tt, Print (ap st) (s64 (written st + n)) e (stored st))
  | Fault f => Fault f
  end.
Fixpoint put_times (n : nat) (c : Z) : P unit := match n with O => mret tt | S n => put None c;; put_times n c end.

Definition va_next : P va := λ st,
  match ap st with
  | v :: ap => Done (v, Print ap (written st) (out st) (stored st))
  | [] => Fault OutOfRange
  end.
Definition va_int : P Z := v ← va_next; match v with VInt z => mret z | _ => throw OutOfRange end.

(** The width: '*' or digits.  A leading 0 has been taken for a flag. *)
Definition parse_width (fp : list Z) : P (Z * list Z) :=
  match fp with
  | 42 :: fp => z ← va_int; mret (s32 z, fp)
  | c :: _ => if is_digit c then mret (parse_int fp) else mret (0, fp)
  | [] => mret (0, fp)
  end.

(** Whether there is a precision, and it *)
Definition parse_precision (fp : list Z) : P (bool * Z * list Z) :=
  match fp with
  | 46 :: fp =>
      match fp with
      | 42 :: fp => z ← va_int; mret (true, s32 z, fp)
      | c :: _ => if (c =? 45) || is_digit c then let '(n, fp) := parse_int fp in mret (true, if n <? 0 then 0 else n, fp) else mret (false, 0, fp)
      | [] => mret (false, 0, fp)
      end
  | _ => mret (false, 0, fp)
  end.

Definition parse_spec (fp : list Z) : P (spec_t * list Z) :=
  let '(f, fp) := parse_mods fp (Mods false false false false) in
  '(w, fp) ← parse_width fp;
  '(has, p, fp) ← parse_precision fp;
  let p := if negb has && leading_zero f then w else p in
  let '(l, fp) := parse_length fp in
  mret (Spec f w has p l, fp).

(** A signed, and an unsigned integer of the length; None is the error *)
Definition va_signed (l : length_mod_t) : P (option Z) :=
  match l with
  | length_L => mret None
  | _ =>
      z ← va_int;
      mret (Some (match l with length_hh => s8 z | length_h => swrap 16 z | length_none => s32 z | _ => s64 z end))
  end.
Definition va_unsigned (l : length_mod_t) : P (option Z) :=
  match l with
  | length_L => mret None
  | _ =>
      z ← va_int;
      mret (Some (match l with length_hh => u8 z | length_h => u16 z | length_none => u32 z | _ => u64 z end))
  end.

(** A null string *)
Definition or_null (sp : spec_t) (s : option (list Z)) : list Z :=
  match s with Some s => s | None => if negb (has_precision sp) || (6 <=? precision sp) then null_text else [0] end.

(** The conversion [ch]: None is the error *)
Definition convert (sp : spec_t) (ch : Z) : P (option conv_t) :=
  let alt := hash (mods sp) in
  if ch =? 99 then
    match length_mod sp with
    | length_l => z ← va_int; mret (Some (Conv (character (s32 z)) 0 false alt false))
    | length_none => z ← va_int; mret (Some (Conv (character (s8 z)) 0 false alt false))
    | _ => mret None
    end
  else if ch =? 115 then
    match length_mod sp with
    | length_l => v ← va_next; match v with VWstr s => mret (Some (Conv (wchar_ptr (or_null sp s)) 0 false alt (has_precision sp))) | _ => throw OutOfRange end
    | length_none => v ← va_next; match v with VStr s => mret (Some (Conv (char_ptr (or_null sp s)) 0 false alt (has_precision sp))) | _ => throw OutOfRange end
    | _ => mret None
    end
  else if (ch =? 100) || (ch =? 105) then
    z ← va_signed (length_mod sp);
    mret ((λ z, Conv (intptr_value z) 10 false alt false) <$> z)
  else if (ch =? 88) || (ch =? 120) || (ch =? 117) || (ch =? 111) then
    z ← va_unsigned (length_mod sp);
    mret ((λ z, Conv (uintptr_value z) (if ch =? 111 then 8 else if ch =? 117 then 10 else 16) ((65 <=? ch) && (ch <=? 90)) alt false) <$> z)
  else if ch =? 112 then
    match length_mod sp with
    | length_none => z ← va_int; mret (Some (Conv (uintptr_value (u64 z)) 16 false true false))
    | _ => mret None
    end
  else if ch =? 110 then
    match length_mod sp with
    | length_none =>
        v ← va_next;
        match v with
        | VRef => modify (λ st, Print (ap st) (written st) (out st) (s32 (written st) :: stored st));; mret (Some (Conv arg_none 0 false alt false))
        | _ => throw OutOfRange
        end
    | _ => mret None
    end
  else mret (Some (Conv arg_none 0 false alt false)).

(** The loops that write a limited string and a wide one; a char is signed *)
Fixpoint put_limited (s : list Z) (n : Z) : P unit :=
  match s with
  | [] => throw OutOfRange
  | c :: s => if (c =? 0) || (n <=? 0) then mret tt else put None (s8 c);; put_limited s (n - 1)
  end.
Fixpoint put_wide (s : list Z) : P unit :=
  match s with
  | [] => throw OutOfRange
  | c :: s => if c =? 0 then mret tt else put None c;; put_wide s
  end.

(** The text, the sign and what is left of the hash flag, zeros and padding *)
Definition number_text (sp : spec_t) (cv : conv_t) (negative : bool) (v : Z) : arg_t * bool * bool * Z * Z :=
  let '(text, zeros, padding) := digit_loop 31 (upper cv) (base cv) v (precision sp) (min_width sp) [0] in
  (char_ptr text, negative, alternate cv && negb (v =? 0), zeros, padding).

Definition to_text (sp : spec_t) (cv : conv_t) : outcome (arg_t * bool * bool * Z * Z) :=
  match arg cv with
  | intptr_value v => Done (number_text sp cv (v <? 0) (u64 (if v <? 0 then s64 (- v) else v)))
  | uintptr_value v => Done (number_text sp cv false v)
  | character c => Done (arg cv, false, alternate cv, 0, if 1 <? min_width sp then min_width sp - 1 else 0)
  | char_ptr s =>
      let* len := (if limit_string cv then bounded_len s (u64 (precision sp)) else strlen s) in
      Done (arg cv, false, alternate cv, 0, if s32 len <? min_width sp then min_width sp - s32 len else 0)
  | a => Done (a, false, alternate cv, 0, 0)
  end.

Definition put_text (limit : bool) (max_chars : Z) (a : arg_t) : P unit :=
  match a with
  | char_ptr s => if limit then put_limited s max_chars else put (Some s) 0
  | wchar_ptr s => put_wide s
  | character c => put None c
  | _ => mret tt
  end.

Definition put_field (sp : spec_t) (cv : conv_t) : P unit :=
  match to_text sp cv with
  | Fault f => throw f
  | Done (a, negative, alt, zeros, padding) =>
      let f := mods sp in
      let padding := if negative || leading_plus f then less_one padding else padding in
      let padding := if negb (padding =? 0) && negb (left_justify f) then (if zeros <? padding then padding - zeros else 0) else padding in
      (if left_justify f then mret tt else put_times (Z.to_nat padding) 32);;
      (if alt && (base cv =? 16) then put (Some (if upper cv then [48; 88; 0] else [48; 120; 0])) 2
       else if alt && (base cv =? 8) then put None 48 else mret tt);;
      (if negative then put None 45 else if leading_plus f then put None 43 else mret tt);;
      put_times (Z.to_nat zeros) 48;;
      put_text (limit_string cv) (precision sp) a;;
      (if left_justify f then put_times (Z.to_nat padding) 32 else mret tt)
  end.

(** One directive, after the '%': whether to go on, and what is left of the
    format *)
Definition directive (fp : list Z) : P (bool * list Z) :=
  match fp with
  | 37 :: fp => put None 37;; mret (true, fp)
  | _ =>
      '(sp, fp) ← parse_spec fp;
      match fp with
      | [] => throw OutOfRange
      | ch :: fp =>
          cv ← convert sp ch;
          match cv with
          | None => mret (false, fp)
          | Some cv => match arg cv with arg_none => mret (true, fp) | _ => put_field sp cv;; mret (true, fp) end
          end
      end
  end.

Fixpoint format_loop (fuel : nat) (fp : list Z) : P Z :=
  match fuel with
  | O => throw OutOfFuel
  | S fuel =>
      match fp with
      | [] => throw OutOfRange
      | ch :: fp' =>
          if ch =? 0 then gets written
          else if negb (ch =? 37) then
            put (Some fp) (Z.of_nat (literal_len fp));;
            format_loop fuel (drop (literal_len fp) fp)
          else
            '(ok, fp) ← directive fp';
            if negb ok then gets (λ st, Z.lnot (written st))
            else format_loop fuel fp
      end
  end.
Definition formatter (format : list Z) (args : list va) (e : E) : outcome (Z * print_t) :=
  format_loop (S (length format)) format (Print args 0 e []).
End formatter.

(** ** vsnprintf *)

Record vsnprintf_context_t := Ctx { buf : list Z; limit : Z; level : Z }.

(** The bytes a callback is given *)
Definition given (s : option (list Z)) (c : Z) : outcome (list Z) :=
  match s with
  | None => let '(n, bytes) := ucs4_to_utf8 (u32 c) in Done (take (Z.to_nat n) bytes)
  | Some s =>
      let* n := (if c =? 0 then strlen s else Done c) in
      if Z.of_nat (length s) <? n then Fault OutOfRange else Done (take (Z.to_nat n) s)
  end.

Definition store_byte (b : Z) (ctx : vsnprintf_context_t) : outcome vsnprintf_context_t :=
  if limit ctx =? 0 then Done ctx
  else if limit ctx <=? level ctx then Done ctx
  else if level ctx <? Z.of_nat (length (buf ctx)) then Done (Ctx (<[Z.to_nat (level ctx) := b]> (buf ctx)) (limit ctx) (level ctx + 1))
  else Fault OutOfRange.
Fixpoint store_bytes (bs : list Z) (ctx : vsnprintf_context_t) : outcome vsnprintf_context_t :=
  match bs with
  | [] => Done ctx
  | b :: bs => let* ctx := store_byte b ctx in store_bytes bs ctx
  end.
Definition vsnprintf_emit_chars (s : option (list Z)) (c : Z) (ctx : vsnprintf_context_t) : outcome (Z * vsnprintf_context_t) :=
  let* bs := given s c in
  let* ctx := store_bytes bs ctx in
  Done (Z.of_nat (length bs), ctx).

(** What is returned, and the buffer *)
Definition vsnprintf (buf0 : list Z) (lim : Z) (format : list Z) (args : list va) : outcome (Z * list Z) :=
  let* (n, st) := formatter vsnprintf_emit_chars format args (Ctx buf0 lim 0) in
  let b := buf (out st) in
  if lim =? 0 then Done (s32 n, b)
  else
    let at_ := if u64 n <? lim then u64 n else lim - 1 in
    if at_ <? Z.of_nat (length b) then Done (s32 n, <[Z.to_nat at_ := 0]> b) else Fault OutOfRange.

(** ** The callback that keeps everything *)

Definition collect (s : option (list Z)) (c : Z) (text : list Z) : outcome (Z * list Z) :=
  let* bs := given s c in Done (Z.of_nat (length bs), text ++ bs).

(** *** A buffer holds the beginning of it *)

(** The buffer was [b0] *)
Record holds (b0 text : list Z) (ctx : vsnprintf_context_t) : Prop := {
  ho_room : 0 ≤ limit ctx ≤ Z.of_nat (length b0);
  ho_level : level ctx = Z.min (Z.of_nat (length text)) (limit ctx);
  ho_buf : buf ctx = take (Z.to_nat (level ctx)) text ++ drop (Z.to_nat (level ctx)) b0
}.

Lemma store_byte_holds b b0 text ctx : holds b0 text ctx → ∃ ctx', store_byte b ctx = Done ctx' ∧ holds b0 (text ++ [b]) ctx' ∧ limit ctx' = limit ctx.
Proof.
  intros [Hr Hl Hb]. unfold store_byte.
  destruct (Z.eqb_spec (limit ctx) 0) as [H0|H0].
  { exists ctx. split; [done|]. split; [|done]. constructor; [done|rewrite length_app; simpl; lia|].
    rewrite Hb. replace (level ctx) with 0 by lia. done. }
  destruct (Z.leb_spec (limit ctx) (level ctx)) as [Hle|Hlt].
  { exists ctx. split; [done|]. split; [|done]. constructor; [done|rewrite length_app; simpl; lia|]. rewrite Hb. by rewrite take_app_le by lia. }
  assert (Z.to_nat (level ctx) = length text) as Hlev by lia.
  rewrite (proj2 (Z.ltb_lt _ _)) by (rewrite Hb, length_app, length_take, length_drop; lia).
  eexists. split; [done|]. split; [|done]. constructor; cbn [limit level buf]; [done|rewrite length_app; simpl; lia|].
  rewrite Hb, Hlev, take_ge, insert_app_r_alt, Nat.sub_diag by lia. replace (Z.to_nat (level ctx + 1)) with (S (length text)) by lia.
  rewrite take_ge by (rewrite length_app; simpl; lia). rewrite <- app_assoc. f_equal.
  destruct (lookup_lt_is_Some_2 b0 (length text)) as [x Hx]; [lia|]. by rewrite (drop_S _ _ _ Hx).
Qed.

Lemma store_bytes_holds bs b0 text ctx : holds b0 text ctx →
  ∃ ctx', store_bytes bs ctx = Done ctx' ∧ holds b0 (text ++ bs) ctx' ∧ limit ctx' = limit ctx.
Proof.
  revert text ctx. induction bs as [|b bs IH]; intros text ctx Hh; simpl.
  { exists ctx. by rewrite app_nil_r. }
  destruct (store_byte_holds b b0 text ctx Hh) as (c1 & -> & H1 & L1). cbn [obind]. destruct (IH _ _ H1) as (c2 & -> & H2 & L2).
  exists c2. rewrite <- app_assoc in H2. split; [done|]. split; [done|congruence].
Qed.

(** *** Both callbacks see the same calls *)

Section same.
Context (b0 : list Z) (lim : Z).

(** The two states, and the count of the bytes so far *)
Record related (s1 : print_t (E := list Z)) (s2 : print_t (E := vsnprintf_context_t)) : Prop := {
  re_ap : ap s2 = ap s1;
  re_written : written s2 = written s1;
  re_stored : stored s2 = stored s1;
  re_count : written s1 = s64 (Z.of_nat (length (out s1)));
  re_out : holds b0 (out s1) (out s2) ∧ limit (out s2) = lim
}.

Definition sim {A} (m1 : M (print_t (E := list Z)) A) (m2 : M (print_t (E := vsnprintf_context_t)) A) : Prop :=
  ∀ s1 s2 a s1', related s1 s2 → m1 s1 = Done (a, s1') → ∃ s2', m2 s2 = Done (a, s2') ∧ related s1' s2'.

Lemma sim_ret {A} (a : A) : sim (mret a) (mret a).
Proof. intros s1 s2 x s1' Hr [= <- <-]. by exists s2. Qed.
Lemma sim_throw {A} f : sim (A := A) (throw f) (throw f).
Proof. by intros s1 s2 x s1' Hr H. Qed.
Lemma sim_bind {A B} m1 m2 (k1 k2 : A → M _ B) : sim m1 m2 → (∀ a, sim (k1 a) (k2 a)) → sim (m1 ≫= k1) (m2 ≫= k2).
Proof.
  intros Hm Hk s1 s2 b s1' Hr. unfold mbind, M_bind. destruct (m1 s1) as [[a t1]|] eqn:H1; [|done]. intros H.
  destruct (Hm _ _ _ _ Hr H1) as (t2 & -> & Hr'). by apply (Hk a t1).
Qed.

Lemma s64_add a b : s64 (s64 a + b) = s64 (a + b).
Proof.
  unfold s64, swrap. f_equal. replace ((a + 2 ^ (64 - 1)) mod 2 ^ 64 - 2 ^ (64 - 1) + b + 2 ^ (64 - 1)) with ((a + 2 ^ (64 - 1)) mod 2 ^ 64 + b) by lia.
  rewrite Zplus_mod_idemp_l. f_equal. lia.
Qed.

Lemma sim_put s c : sim (put collect s c) (put vsnprintf_emit_chars s c).
Proof.
  intros s1 s2 [] s1' [Ha Hw Hs Hc [Ho Hl]]. unfold put, collect, vsnprintf_emit_chars. destruct (given s c) as [bs|]; cbn [obind]; [|done].
  intros [= <-]. destruct (store_bytes_holds bs b0 (out s1) (out s2) Ho) as (ctx & -> & Hh & HL). cbn [obind].
  eexists. split; [done|]. constructor; cbn; [done|by rewrite Hw|done| |by rewrite HL].
  rewrite Hc, s64_add, length_app. f_equal. lia.
Qed.

Lemma sim_va_next : sim va_next va_next.
Proof.
  intros s1 s2 v s1' [Ha Hw Hs Hc Ho]. unfold va_next. rewrite Ha. destruct (ap s1); [done|]. intros [= <- <-]. eexists. split; [done|]. by constructor.
Qed.

Create HintDb sim.
Hint Resolve sim_ret sim_throw sim_put sim_va_next : sim.
Ltac sim := repeat first [solve [eauto with sim] | progress cbv zeta | apply sim_bind; [|intros] | case_match].

Lemma sim_put_times n c : sim (put_times collect n c) (put_times vsnprintf_emit_chars n c).
Proof. induction n; simpl; sim. Qed.
Lemma sim_va_int : sim va_int va_int.
Proof. unfold va_int. sim. Qed.
Hint Resolve sim_put_times sim_va_int : sim.

Lemma sim_parse_spec fp : sim (parse_spec fp) (parse_spec fp).
Proof. unfold parse_spec, parse_width, parse_precision. sim. Qed.
Lemma sim_signed l : sim (va_signed l) (va_signed l) ∧ sim (va_unsigned l) (va_unsigned l).
Proof. unfold va_signed, va_unsigned. split; sim. Qed.

Lemma sim_store n : sim (modify (λ st, Print (ap st) (written st) (out st) (n (written st) :: stored st)))
                        (modify (λ st, Print (ap st) (written st) (out st) (n (written st) :: stored st))).
Proof.
  intros s1 s2 [] s1' [Ha Hw Hs Hc Ho] [= <-]. eexists. split; [done|]. constructor; cbn; [done|done|by rewrite Hw, Hs|done|done].
Qed.

Lemma sim_convert sp ch : sim (convert sp ch) (convert sp ch).
Proof.
  pose proof (λ l, proj1 (sim_signed l)). pose proof (λ l, proj2 (sim_signed l)). pose proof (sim_store s32). unfold convert. sim.
Qed.

Lemma sim_put_limited s n : sim (put_limited collect s n) (put_limited vsnprintf_emit_chars s n).
Proof. revert n. induction s; intros n; simpl; sim. Qed.
Lemma sim_put_wide s : sim (put_wide collect s) (put_wide vsnprintf_emit_chars s).
Proof. induction s; simpl; sim. Qed.
Hint Resolve sim_put_limited sim_put_wide sim_parse_spec sim_convert : sim.

Lemma sim_put_field sp cv : sim (put_field collect sp cv) (put_field vsnprintf_emit_chars sp cv).
Proof. unfold put_field, put_text. sim. Qed.
Hint Resolve sim_put_field : sim.

Lemma sim_directive fp : sim (directive collect fp) (directive vsnprintf_emit_chars fp).
Proof. unfold directive. sim. Qed.
Hint Resolve sim_directive : sim.

Lemma sim_written (f : Z → Z) : sim (gets (λ st, f (written st))) (gets (λ st, f (written st))).
Proof. intros s1 s2 a s1' Hr [= <- <-]. exists s2. split; [|done]. unfold gets. by rewrite (re_written _ _ Hr). Qed.

Lemma sim_loop fuel fp : sim (format_loop collect fuel fp) (format_loop vsnprintf_emit_chars fuel fp).
Proof.
  pose proof (sim_written Z.lnot). pose proof (sim_written (λ n, n)). revert fp. induction fuel; intros fp; simpl; sim.
Qed.
End same.

(** The count that is returned, or its complement for an error *)
Lemma loop_returns {E} (emit : option (list Z) → Z → E → outcome (Z * E)) fuel fp s n s' :
  format_loop emit fuel fp s = Done (n, s') → n = written s' ∨ n = Z.lnot (written s').
Proof.
  revert fp s. induction fuel as [|fuel IH]; intros [|c fp] s; cbn [format_loop]; [done..|].
  destruct (c =? 0); [intros [= <- <-]; by left|]. destruct (negb (c =? 37)); unfold mbind, M_bind.
  - destruct (put _ _ _ s) as [[[] t]|]; [by apply IH|done].
  - destruct (directive emit fp s) as [[[[] fp'] t]|]; [by apply IH|intros [= <- <-]; by right|done].
Qed.

(** A null at [p] in a buffer that has the first [lim] bytes of [text] *)
Lemma terminated_facts (text b0 : list Z) (lim p : nat) : (lim ≤ length b0)%nat → (p < lim)%nat →
  let b := take (length text `min` lim) text ++ drop (length text `min` lim) b0 in
  length b = length b0 ∧ length (<[p := 0]> b) = length b0 ∧ drop lim (<[p := 0]> b) = drop lim b0 ∧ 0 ∈ take lim (<[p := 0]> b).
Proof.
  intros Hl Hp b. assert (length b = length b0) as Hb by (unfold b; rewrite length_app, length_take, length_drop; lia).
  split; [done|]. split; [by rewrite length_insert|]. split.
  - rewrite drop_insert_lt by done. unfold b. rewrite drop_app_ge by (rewrite length_take; lia). rewrite drop_drop, length_take. f_equal. lia.
  - apply list_elem_of_lookup. exists p. rewrite lookup_take_lt by done. apply list_lookup_insert_eq. lia.
Qed.

Lemma terminated_text (text b0 : list Z) (lim p : nat) : (1 ≤ lim ≤ length b0)%nat → p = (length text `min` (lim - 1))%nat →
  <[p := 0]> (take (length text `min` lim) text ++ drop (length text `min` lim) b0) = take p text ++ 0 :: drop (S p) b0.
Proof.
  intros Hl Hp. destruct (decide (length text < lim)%nat).
  - replace (length text `min` lim)%nat with p by lia. rewrite insert_app_r_alt by (rewrite length_take; lia).
    replace (p - length (take p text))%nat with 0%nat by (rewrite length_take; lia). f_equal.
    destruct (lookup_lt_is_Some_2 b0 p) as [x Hx]; [lia|]. by rewrite (drop_S _ _ _ Hx).
  - replace (length text `min` lim)%nat with (S p) by lia. destruct (lookup_lt_is_Some_2 text p) as [x Hx]; [lia|].
    rewrite (take_S_r _ _ _ Hx), <- app_assoc, insert_app_r_alt by (rewrite length_take; lia).
    replace (p - length (take p text))%nat with 0%nat by (rewrite length_take; lia). done.
Qed.


(** ** Numbers *)

Definition digit_value (c : Z) : Z := if is_digit c then c - 48 else if 97 <=? c then c - 87 else c - 55.
Definition value_of (b : Z) (ds : list Z) : Z := fold_left (λ acc c, acc * b + digit_value c) ds 0.

(** [n -= (n > 0)], [k] times *)
Definition reduced (n : Z) (k : nat) : Z := if 0 <? n then Z.max 0 (n - Z.of_nat k) else n.

(** The digits of [v]: their value, no zero in front, none that is not one of
    the base *)
Record digits_of (b v : Z) (ds : list Z) : Prop := {
  do_value : value_of b ds = v;
  do_front : 0 < v → head ds ≠ Some 48;
  do_some : (1 ≤ length ds)%nat;
  do_zero : v = 0 → ds = [48];
  do_each : Forall (λ c, 48 ≤ c < 128 ∧ 0 ≤ digit_value c < b ∧ (b ≤ 10 → is_digit c = true)) ds
}.

Lemma hex_digit (up : bool) d : 0 ≤ d < 16 →
  let c := default 0 (formatter_hexlookup !! Z.to_nat ((if up then 16 else 0) + d)) in
  digit_value c = d ∧ 48 ≤ c < 128 ∧ (d < 10 → is_digit c = true) ∧ (c = 48 ↔ d = 0).
Proof.
  intros Hd c. assert (d ∈ [0; 1; 2; 3; 4; 5; 6; 7; 8; 9; 10; 11; 12; 13; 14; 15]) as Hin by (repeat rewrite elem_of_cons; lia).
  unfold c. clear c. destruct up; repeat (apply elem_of_cons in Hin as [->|Hin]; [repeat split; vm_compute; congruence|]); by apply not_elem_of_nil in Hin.
Qed.

Lemma reduced_more n k : reduced (less_one n) k = reduced n (S k).
Proof. unfold reduced, less_one. destruct (Z.ltb_spec 0 n); [|by rewrite (proj2 (Z.ltb_ge 0 n)) by lia]. destruct (Z.ltb_spec 0 (n - 1)); lia. Qed.

Lemma reduced_one n : reduced n 1 = less_one n.
Proof. unfold reduced, less_one. destruct (Z.ltb_spec 0 n); lia. Qed.

Lemma digit_loop_spec n up b v zeros padding text : 2 ≤ b ≤ 16 → (1 ≤ n)%nat → 0 ≤ v < b ^ Z.of_nat n →
  ∃ ds, digit_loop n up b v zeros padding text = (ds ++ text, reduced zeros (length ds), reduced padding (length ds)) ∧ digits_of b v ds ∧ (length ds ≤ n)%nat.
Proof.
  intros Hb. revert v zeros padding text. induction n as [|n IH]; intros v zeros padding text Hn Hv; [lia|]. cbn [digit_loop].
  pose proof (Z.mod_pos_bound v b ltac:(lia)) as Hmod. pose proof (Z.div_mod v b ltac:(lia)) as Hdm.
  destruct (hex_digit up (v mod b) ltac:(lia)) as (Hval & Hasc & Hdec & H48). set (c := default 0 _) in *.
  assert (48 ≤ c < 128 ∧ 0 ≤ digit_value c < b ∧ (b ≤ 10 → is_digit c = true)) as Hc.
  { split; [done|]. split; [lia|]. intros. apply Hdec. lia. }
  destruct (Z.eqb_spec (v / b) 0) as [H0|H0].
  - exists [c]. rewrite H0, Z.mul_0_r in Hdm. split; [by cbn [length]; rewrite !reduced_one|]. split; [|simpl; lia].
    constructor; simpl; [unfold value_of; simpl; lia| |lia|intros ->; f_equal; lia|by apply Forall_singleton].
    intros Hpos [= Heq]. lia.
  - assert (1 ≤ n)%nat. { destruct n; [|lia]. rewrite Z.pow_1_r in Hv. rewrite Z.div_small in H0 by lia. done. }
    assert (0 ≤ v / b < b ^ Z.of_nat n) as Hq.
    { split; [apply Z.div_pos; lia|]. apply Z.div_lt_upper_bound; [lia|]. rewrite Nat2Z.inj_succ, Z.pow_succ_r in Hv by lia. lia. }
    destruct (IH (v / b) (less_one zeros) (less_one padding) (c :: text) ltac:(lia) Hq) as (ds & -> & [Hv' Hf Hs Hz He] & Hlen).
    exists (ds ++ [c]). rewrite <- app_assoc, length_app, Nat.add_comm, !reduced_more. split; [done|]. split; [|simpl; lia]. constructor.
    + unfold value_of in *. rewrite fold_left_app, Hv'. simpl. lia.
    + intros _. destruct ds as [|d ds]; [simpl in Hs; lia|]. simpl in *. apply Hf. lia.
    + rewrite length_app. simpl. lia.
    + intros ->. rewrite Z.div_0_l in H0 by lia. done.
    + apply Forall_app. split; [done|by apply Forall_singleton].
Qed.

(** *** What is written *)

Definition app_out (st : print_t (E := list Z)) (bs : list Z) : print_t (E := list Z) :=
  Print (ap st) (s64 (written st + Z.of_nat (length bs))) (out st ++ bs) (stored st).

Lemma app_out_app st a b : app_out (app_out st a) b = app_out st (a ++ b).
Proof. unfold app_out. cbn. rewrite s64_add, length_app, app_assoc. do 2 f_equal. lia. Qed.

(** A computation that writes [bs] *)
Definition writes {A} (m : M (print_t (E := list Z)) A) (a : A) (bs : list Z) : Prop :=
  ∀ st, written st = s64 (written st) → m st = Done (a, app_out st bs).

Lemma app_out_nil st : written st = s64 (written st) → app_out st [] = st.
Proof. intros Hw. unfold app_out. simpl. rewrite Z.add_0_r, app_nil_r, <- Hw. by destruct st. Qed.

Lemma writes_ret {A} (a : A) : writes (mret a) a [].
Proof. intros st Hw. by rewrite app_out_nil. Qed.
Lemma writes_bind {A B} m (k : A → M _ B) a b xs ys : writes m a xs → writes (k a) b ys → writes (m ≫= k) b (xs ++ ys).
Proof.
  intros Hm Hk st Hw. rewrite (bind_done _ _ _ _ _ (Hm st Hw)), Hk, app_out_app; [done|]. cbn.
  rewrite <- (Z.add_0_r (s64 _)) at 2. by rewrite s64_add, Z.add_0_r.
Qed.

Lemma writes_char c : 0 ≤ c < 128 → writes (put collect None c) tt [c].
Proof.
  intros Hc st _. unfold put, collect, given, ucs4_to_utf8. rewrite u32_small, (proj2 (Z.ltb_lt c 0x80)) by lia. simpl.
  rewrite u8_small by lia. done.
Qed.
Lemma writes_times n c : 0 ≤ c < 128 → writes (put_times collect n c) tt (replicate n c).
Proof.
  intros Hc. induction n as [|n IH]; [apply writes_ret|]. exact (writes_bind _ _ _ _ [c] _ (writes_char c Hc) IH).
Qed.
Lemma strlen_text ds t : Forall (λ c, c ≠ 0) ds → strlen (ds ++ 0 :: t) = Done (Z.of_nat (length ds)).
Proof.
  induction 1 as [|c ds Hc _ IH]; [done|]. simpl. rewrite (proj2 (Z.eqb_neq c 0)), IH by done. f_equal. lia.
Qed.
Lemma writes_text ds : Forall (λ c, c ≠ 0) ds → writes (put collect (Some (ds ++ [0])) 0) tt ds.
Proof.
  intros Hd st _. unfold put, collect, given. rewrite Z.eqb_refl, strlen_text by done. cbn [obind].
  rewrite (proj2 (Z.ltb_ge _ _)) by (rewrite length_app; simpl; lia). cbn [obind]. by rewrite Nat2Z.id, take_app_length.
Qed.

(** *** Fields with a number *)

(** The number [v] is converted as a signed or an unsigned one *)
Definition converts (cv : conv_t) (v : Z) : Prop :=
  arg cv = intptr_value v ∧ - 2 ^ 63 ≤ v < 2 ^ 63 ∨ arg cv = uintptr_value v ∧ 0 ≤ v < 2 ^ 64.

Definition sign_of (f : mods_t) (v : Z) : list Z := if v <? 0 then [45] else if leading_plus f then [43] else [].
Definition prefix_of (cv : conv_t) (v : Z) : list Z :=
  if alternate cv && negb (v =? 0) then
    (if base cv =? 16 then (if upper cv then [48; 88] else [48; 120]) else if base cv =? 8 then [48] else [])
  else [].

(** The field for a number whose digits are [ds] *)
Definition field_text (sp : spec_t) (cv : conv_t) (v : Z) (ds : list Z) : list Z :=
  let sign := sign_of (mods sp) v in
  let zeros := (Z.to_nat (precision sp) - length ds)%nat in
  let room := (Z.to_nat (min_width sp) - length ds - length sign)%nat in
  (if left_justify (mods sp) then [] else replicate (room - zeros) 32)
  ++ prefix_of cv v ++ sign ++ replicate zeros 48 ++ ds ++ (if left_justify (mods sp) then replicate room 32 else []).

Lemma to_text_number sp cv v : converts cv v → 8 ≤ base cv ≤ 16 →
  ∃ ds, digits_of (base cv) (Z.abs v) ds ∧ (length ds ≤ 31)%nat
    ∧ to_text sp cv = Done (char_ptr (ds ++ [0]), v <? 0, alternate cv && negb (v =? 0), reduced (precision sp) (length ds), reduced (min_width sp) (length ds)).
Proof.
  intros Hc Hb. assert (8 ^ 31 ≤ base cv ^ Z.of_nat 31) as Hp by (apply Z.pow_le_mono_l; lia).
  assert (to_text sp cv = Done (number_text sp cv (v <? 0) (Z.abs v)) ∧ Z.abs v < 8 ^ 31) as [-> Hv].
  { unfold to_text. destruct Hc as [[-> Hv]|[-> Hv]]; (split; [|lia]); do 2 f_equal.
    - destruct (Z.ltb_spec v 0); [|rewrite u64_small; lia]. destruct (decide (v = - 2 ^ 63)) as [->|]; [done|]. rewrite s64_small, u64_small; lia.
    - rewrite (proj2 (Z.ltb_ge v 0)); lia.
    - lia. }
  unfold number_text. destruct (digit_loop_spec 31 (upper cv) (base cv) (Z.abs v) (precision sp) (min_width sp) [0]) as (ds & -> & Hds & Hlen); [lia|lia|lia|].
  exists ds. split; [done|]. split; [done|]. do 4 f_equal. destruct (Z.eqb_spec (Z.abs v) 0), (Z.eqb_spec v 0); lia || done.
Qed.

Lemma writes_if {A} (c : bool) m1 m2 (a : A) x y : writes m1 a x → writes m2 a y → writes (if c then m1 else m2) a (if c then x else y).
Proof. by destruct c. Qed.

(** Integer conversions, for every combination of the flags: the digits are
    those of the number and nothing else, the precision is filled up with
    zeros, and the field is at least as wide as it should be. *)
Lemma number_field sp cv v : converts cv v → base cv = 8 ∨ base cv = 10 ∨ base cv = 16 → limit_string cv = false → 0 ≤ min_width sp → 0 ≤ precision sp →
  ∃ ds, digits_of (base cv) (Z.abs v) ds ∧ (length ds ≤ 31)%nat ∧ writes (put_field collect sp cv) tt (field_text sp cv v ds)
    ∧ (min_width sp ≤ Z.of_nat (length (field_text sp cv v ds))).
Proof.
  intros Hc Hb Hlim Hw Hp. destruct (to_text_number sp cv v Hc ltac:(lia)) as (ds & Hds & H31 & Ht). exists ds. split; [done|]. split; [done|].
  pose proof (do_some _ _ _ Hds) as Hsome. set (k := length ds) in *.
  assert (0 ≤ reduced (precision sp) k ∧ reduced (precision sp) k = Z.max 0 (precision sp - Z.of_nat k)) as [Hz0 Hz] by (unfold reduced; case_match; lia).
  assert (reduced (min_width sp) k = Z.max 0 (min_width sp - Z.of_nat k)) as Hm by (unfold reduced; case_match; lia).
  split.
  2:{ unfold field_text. rewrite !length_app. fold k. destruct (left_justify (mods sp)); rewrite !length_replicate; simpl; lia. }
  unfold put_field. rewrite Ht, Hlim. set (neg := v <? 0). set (f := mods sp).
  set (pad0 := if neg || leading_plus f then less_one (reduced (min_width sp) k) else reduced (min_width sp) k).
  assert (pad0 = Z.max 0 (min_width sp - Z.of_nat k - Z.of_nat (length (sign_of f v)))) as Hpad.
  { unfold pad0, sign_of, less_one. fold neg. destruct neg, (leading_plus f); simpl; try case_match; lia. }
  set (pad := if negb (pad0 =? 0) && negb (left_justify f) then _ else _).
  assert (Z.to_nat pad = if left_justify f then Z.to_nat pad0 else (Z.to_nat pad0 - Z.to_nat (reduced (precision sp) k)))%nat as Hpd.
  { unfold pad. destruct (left_justify f); [by rewrite andb_false_r|]. rewrite andb_true_r. destruct (Z.eqb_spec pad0 0); simpl; [lia|]. case_match; lia. }
  unfold field_text. fold f k.
  replace (Z.to_nat (min_width sp) - k - length (sign_of f v))%nat with (Z.to_nat pad0) by lia.
  replace (Z.to_nat (precision sp) - k)%nat with (Z.to_nat (reduced (precision sp) k)) by lia.
  apply (writes_bind _ _ tt); [destruct (left_justify f); [apply writes_ret|rewrite <- Hpd; by apply writes_times]|].
  apply (writes_bind _ _ tt).
  { unfold prefix_of. destruct (alternate cv && negb (v =? 0)); simpl; [|apply writes_ret].
    destruct (base cv =? 16); [by destruct (upper cv)|]. destruct (base cv =? 8); [by apply writes_char|apply writes_ret]. }
  apply (writes_bind _ _ tt). { unfold sign_of. fold neg. destruct neg; [by apply writes_char|]. destruct (leading_plus f); [by apply writes_char|apply writes_ret]. }
  apply (writes_bind _ _ tt); [by apply writes_times|]. apply (writes_bind _ _ tt).
  { apply writes_text. eapply Forall_impl; [exact (do_each _ _ _ Hds)|]. intros c Hcc. simpl in Hcc. lia. }
  destruct (left_justify f); [rewrite <- Hpd; by apply writes_times|apply writes_ret].
Qed.

(** *** Reading a number back *)

Lemma s32_lin a b c : s32 (s32 a * b + c) = s32 (a * b + c).
Proof.
  unfold s32, swrap. f_equal. change (2 ^ (32 - 1)) with (2 ^ 31). pose proof (Z.div_mod (a + 2 ^ 31) (2 ^ 32) ltac:(lia)) as H.
  set (q := (a + 2 ^ 31) / 2 ^ 32) in *. replace ((a + 2 ^ 31) mod 2 ^ 32 - 2 ^ 31) with (a - 2 ^ 32 * q) by lia.
  replace ((a - 2 ^ 32 * q) * b + c + 2 ^ 31) with (a * b + c + 2 ^ 31 + (- q * b) * 2 ^ 32) by lia. by rewrite Z_mod_plus_full.
Qed.

Lemma int_digits_text ds t a : Forall (λ c, is_digit c = true) ds →
  int_digits (ds ++ 0 :: t) (s32 a) = (s32 (fold_left (λ acc c, acc * 10 + digit_value c) ds a), 0 :: t).
Proof.
  intros Hd. revert a. induction Hd as [|c ds Hc _ IH]; intros a; [done|]. cbn [app int_digits fold_left]. rewrite Hc, s32_lin.
  rewrite IH. unfold digit_value at 3. by rewrite Hc.
Qed.

Lemma parse_decimal v ds t : - 2 ^ 31 ≤ v < 2 ^ 31 → digits_of 10 (Z.abs v) ds →
  parse_int ((if v <? 0 then [45] else []) ++ ds ++ 0 :: t) = (v, 0 :: t).
Proof.
  intros Hv [Hval _ Hs _ He]. assert (Forall (λ c, is_digit c = true) ds) as Hd by (eapply Forall_impl; [exact He|]; simpl; intros c Hc; by apply Hc).
  pose proof (int_digits_text ds t 0 Hd) as Hi. change (fold_left _ ds 0) with (value_of 10 ds) in Hi. change (s32 0) with 0 in Hi. rewrite Hval in Hi.
  destruct (Z.ltb_spec v 0).
  - simpl. rewrite Hi. f_equal. rewrite <- (Z.add_0_r (_ * -1)), s32_lin, s32_small; lia.
  - destruct ds as [|c ds]; [simpl in Hs; lia|]. apply Forall_cons in Hd as [Hc _]. unfold is_digit in Hc. apply andb_true_iff in Hc as [Hc1%Z.leb_le _].
    cbn [app parse_int]. rewrite (proj2 (Z.eqb_neq c 45)) by lia. cbn [app] in Hi. rewrite Hi, s32_small; [f_equal|]; lia.
Qed.

Lemma format_loop_directive {E} (emit : option (list Z) → Z → E → outcome (Z * E)) fuel fp s :
  format_loop emit (S fuel) (37 :: fp) s
  = (directive emit fp ≫= λ '(ok, fp), if negb ok then gets (λ st, Z.lnot (written st)) else format_loop emit fuel fp) s.
Proof. done. Qed.
Lemma format_loop_end {E} (emit : option (list Z) → Z → E → outcome (Z * E)) fuel fp s : format_loop emit (S fuel) (0 :: fp) s = Done (written s, s).
Proof. done. Qed.
Lemma va_int_done {E} z l n (o : E) x : va_int (Print (VInt z :: l) n o x) = Done (z, Print l n o x).
Proof. done. Qed.

(** C38: What "%*d" prints of an int is as wide as asked for, blank in front, and
    parse_int reads the int back from it. *)
Theorem printk_decimal_roundtrip w v : 0 ≤ w < 2 ^ 31 → - 2 ^ 31 ≤ v < 2 ^ 31 →
  ∃ st body, formatter collect [37; 42; 100; 0] [VInt w; VInt v] [] = Done (Z.of_nat (length (out st)), st)
    ∧ out st = replicate (Z.to_nat w - length body) 32 ++ body ∧ parse_int (body ++ [0]) = (v, [0]).
Proof.
  intros Hw Hv. set (sp := Spec (Mods false false false false) w false 0 length_none). set (cv := Conv (intptr_value v) 10 false false false).
  destruct (number_field sp cv v) as (ds & Hds & H31 & Hrun & _); [left; split; [done|lia]|by right; left|done|simpl; lia|simpl; lia|].
  set (text := field_text sp cv v ds) in *. set (s1 := Print [VInt v] 0 [] [] : print_t (E := list Z)). set (s2 := Print [] 0 [] [] : print_t (E := list Z)).
  assert (parse_spec [42; 100; 0] (Print [VInt w; VInt v] 0 [] []) = Done ((sp, [100; 0]), s1)) as Hps.
  { unfold parse_spec. cbn -[s32]. rewrite bind_assoc, (bind_done _ _ _ _ _ (va_int_done _ _ _ _ _)). run. cbn -[s32]. unfold sp, s1. by rewrite s32_small by lia. }
  assert (convert sp 100 s1 = Done (Some cv, s2)) as Hcv.
  { unfold convert, s1. cbn -[s32]. rewrite bind_assoc, (bind_done _ _ _ _ _ (va_int_done _ _ _ _ _)). run. cbn -[s32]. unfold cv, s2. by rewrite s32_small by lia. }
  assert (directive collect [42; 100; 0] (Print [VInt w; VInt v] 0 [] []) = Done ((true, [0]), app_out s2 text)) as Hd.
  { unfold directive. rewrite (bind_done _ _ _ _ _ Hps), (bind_done _ _ _ _ _ Hcv). cbn [arg cv]. by rewrite (bind_done _ _ _ _ _ (Hrun s2 eq_refl)). }
  exists (app_out s2 text), ((if v <? 0 then [45] else []) ++ ds). split; [|split].
  - unfold formatter. rewrite format_loop_directive, (bind_done _ _ _ _ _ Hd). cbn [negb length]. rewrite format_loop_end. unfold app_out, s2. cbn.
    rewrite s64_small; [done|]. unfold text, field_text, sign_of, prefix_of. cbn. rewrite !length_app, length_replicate. destruct (v <? 0); simpl; lia.
  - unfold text, field_text, sign_of, prefix_of. cbn. rewrite app_nil_r. destruct (v <? 0); cbn; f_equal; f_equal; lia.
  - rewrite <- app_assoc. by apply parse_decimal.
Qed.

(** ** Evaluated *)

Definition printed (format : list Z) (args : list va) : outcome (list Z) :=
  match formatter collect format args [] with Done (_, st) => Done (out st) | Fault f => Fault f end.


Example printk_decimal_roundtrip_witness :
  ∃ st body, formatter collect [37; 42; 100; 0] [VInt 5; VInt (-42)] [] = Done (Z.of_nat (length (out st)), st)
    ∧ out st = replicate (5 - length body) 32 ++ body ∧ parse_int (body ++ [0]) = (-42, [0]).
Proof. apply (printk_decimal_roundtrip 5 (-42)); lia. Defined.

(** "%#lX" and "%08zx:" *)
Example hexadecimal : printed [37; 35; 108; 88; 0] [VInt 0xBEEF] = Done [48; 88; 66; 69; 69; 70]
  ∧ printed [37; 48; 56; 122; 120; 58; 0] [VInt 0x1f] = Done [48; 48; 48; 48; 48; 48; 49; 102; 58].
Proof. vm_compute. split; reflexivity. Qed.

(** *** Where the code does something else *)

(** "%05d" of -42 has six characters: the zeros do not make room for the sign *)
Example zeros_and_sign : printed [37; 48; 53; 100; 0] [VInt (-42)] = Done [45; 48; 48; 48; 52; 50].
Proof. vm_compute. reflexivity. Qed.

(** "%-8.5d" of 42 is padded as if it had no zeros: eleven characters *)
Example zeros_on_the_left : printed [37; 45; 56; 46; 53; 100; 0] [VInt 42] = Done ([48; 48; 48; 52; 50] ++ replicate 6 32).
Proof. vm_compute. reflexivity. Qed.

(** "%#6x" of 255 has eight characters *)
Example prefix_not_counted : printed [37; 35; 54; 120; 0] [VInt 255] = Done (replicate 4 32 ++ [48; 120; 102; 102]).
Proof. vm_compute. reflexivity. Qed.

(** A format that ends in '%' is read past its end *)
Example percent_at_end : printed [97; 37; 0] [] = Fault OutOfRange.
Proof. vm_compute. reflexivity. Qed.

(** A byte of 128 or more is a negative char: "%c" of it and "%.2s" of a
    letter of two bytes print nothing *)
Example negative_chars : printed [37; 99; 0] [VInt 0xE9] = Done [] ∧ printed [37; 46; 50; 115; 0] [VStr (Some [0xC3; 0xA9; 0])] = Done [].
Proof. vm_compute. split; reflexivity. Qed.
