(* ===== verification/Fat32Name.v ===== *)
(** * kernel/fs/fat32: directory entries, names and dates

    A directory entry is 32 bytes, seen as a short entry or as a piece of a
    long name (union fat32_dir_union_t).  A name is written as its pieces of
    13 UTF-16 units, the last piece first, and the 8.3 entry after them.
    What is written to a buffer the caller provides is the list of bytes;
    the buffer of 256 units in dirents_from_name is a list of that length. *)

From stdpp Require Import base tactics list numbers option.
From S2P Require Import Prelude Utf TimeOfDay.

#[local] Open Scope Z_scope.

(** ** Directory entries *)

Abbreviation fat32_dir_union_t := (list Z).

Definition byte_at (i : nat) (e : fat32_dir_union_t) : Z := default 0 (e !! i).
Definition word_at (i : nat) (e : fat32_dir_union_t) : Z := byte_at i e + 256 * byte_at (S i) e.
Definition put_word (i : nat) (w : Z) (e : fat32_dir_union_t) : fat32_dir_union_t :=
  <[S i := Z.shiftr w 8 mod 256]> (<[i := w mod 256]> e).

(** short_entry *)
Definition short_name (e : fat32_dir_union_t) : list Z := take 11 e.
Definition attr (e : fat32_dir_union_t) : Z := byte_at 0x0B e.
Definition lowercase_flags (e : fat32_dir_union_t) : Z := byte_at 0x0C e.
Definition start_hi (e : fat32_dir_union_t) : Z := word_at 0x14 e.
Definition start_lo (e : fat32_dir_union_t) : Z := word_at 0x1A e.
Definition file_size (e : fat32_dir_union_t) : Z := word_at 0x1C e + 65536 * word_at 0x1E e.
(** long_entry *)
Definition ordinal (e : fat32_dir_union_t) : Z := byte_at 0 e.
Definition checksum (e : fat32_dir_union_t) : Z := byte_at 0x0D e.

Definition FAT_ATTR_DIR : Z := 16.
Definition FAT_ATTR_ARCH : Z := 32.
Definition FAT_LONGNAME : Z := 15.
Definition FAT_LAST_LFN_ORDINAL : Z := 0x40.
Definition FAT_DELETED_FLAG : Z := 0xE5.
Definition FAT_LOWERCASE_NAME : Z := 8.
Definition FAT_LOWERCASE_EXT : Z := 16.

Definition is_directory (e : fat32_dir_union_t) : bool := negb (Z.land (attr e) FAT_ATTR_DIR =? 0).
Definition is_within_size (ofs : Z) (e : fat32_dir_union_t) : bool := (ofs <? file_size e) || is_directory e.
Definition is_dirent_free (e : fat32_dir_union_t) : bool := (byte_at 0 e =? 0) || (byte_at 0 e =? FAT_DELETED_FLAG).

(** Cluster numbers are int32_t *)
Definition dirent_start_cluster (e : fat32_dir_union_t) : Z := s32 (Z.lor (Z.shiftl (start_hi e) 16) (start_lo e)).
Definition set_start_cluster (cluster : Z) (e : fat32_dir_union_t) : fat32_dir_union_t :=
  put_word 0x14 (Z.land (Z.shiftr cluster 16) 0xFFFF) (put_word 0x1A (Z.land cluster 0xFFFF) e).

(** ** The 8.3 name *)

Definition lfn_checksum (fcb_name : list Z) : Z :=
  fold_left (λ sum c, u8 (Z.shiftl (Z.land sum 1) 7 + Z.shiftr sum 1 + c)) fcb_name 0.

(** "_^$~!#%&-{}@`'()" *)
Definition allowed_dos_chars : list Z := [95; 94; 36; 126; 33; 35; 37; 38; 45; 123; 125; 64; 96; 39; 40; 41].

Record case_flags := Flags { any_lower : bool; any_upper : bool; any_long : bool }.

Definition conv_dos_char (c : Z) (f : case_flags) : Z * case_flags :=
  if (65 <=? c) && (c <=? 90) then (c, Flags (any_lower f) true (any_long f))
  else if (97 <=? c) && (c <=? 122) then (c + 65 - 97, Flags true (any_upper f) (any_long f))
  else if ((48 <=? c) && (c <=? 57)) || ((32 <? c) && (c <? 127) && bool_decide (c ∈ allowed_dos_chars)) then (c, f)
  else (0, Flags (any_lower f) (any_upper f) true).

(** The characters of one part of the name, [n] at most *)
Fixpoint fcb_part (n : nat) (cs : list Z) (f : case_flags) : list Z * case_flags :=
  match n, cs with
  | S n, c :: cs =>
      let '(out_char, f) := conv_dos_char c f in
      let '(out, f) := fcb_part n cs f in
      ((if out_char =? 0 then 95 else out_char) :: out, f)
  | _, _ => ([], f)
  end.

(** The place of the last dot, the length if there is none *)
Fixpoint last_dot_from (i : nat) (lfn : list Z) (len : nat) : nat :=
  match i with
  | O => len
  | S i => if bool_decide (lfn !! i = Some 46) then i else last_dot_from i lfn len
  end.

(** struct full_lfn_t *)
Definition MAX_FRAGMENTS : nat := 21.
Record full_lfn_t := FullLfn { fragments : list fat32_dir_union_t; lfn_entry_count : nat }.

Definition blank_name : list Z := replicate 11 32.
Definition put_name (name : list Z) (e : fat32_dir_union_t) : fat32_dir_union_t := name ++ drop 11 e.
Definition put_flags (bits : Z) (e : fat32_dir_union_t) : fat32_dir_union_t :=
  <[0x0C%nat := Z.lor (lowercase_flags e) bits]> e.

(** The name and the flags that go to the short entry *)
Definition fcb_of_lfn (lfn : list Z) (len : nat) : list Z * Z * bool :=
  let last_dot := last_dot_from len lfn len in
  let f := Flags false false (8 <? Z.of_nat last_dot) in
  let '(base, f) := fcb_part 8 (take last_dot lfn) f in
  let name_flag := if negb (any_long f) && any_lower f && negb (any_upper f) then FAT_LOWERCASE_NAME else 0 in
  let ext := drop (S last_dot) (take len lfn) in
  let '(ext_out, f) := fcb_part 3 ext (Flags false false (any_long f)) in
  let long := any_long f || bool_decide (3 < length ext)%nat in
  let ext_flag := if negb long && any_lower f && negb (any_upper f) then FAT_LOWERCASE_EXT else 0 in
  (base ++ replicate (8 - length base) 32 ++ ext_out ++ replicate (3 - length ext_out) 32, Z.lor name_flag ext_flag, long).

Definition fcbname_from_lfn (full : full_lfn_t) (lfn : list Z) (len : nat) : outcome full_lfn_t :=
  let n := lfn_entry_count full in
  match fragments full !! n with
  | None => Fault OutOfRange
  | Some frag =>
      let '(fcbname, flags, long) := fcb_of_lfn lfn len in
      let frag := put_flags flags (put_name fcbname frag) in
      let full := FullLfn (<[n := frag]> (fragments full)) n in
      if negb long && negb (lowercase_flags frag =? 0)
      then Done (FullLfn (<[0%nat := frag]> (fragments full)) 0)
      else Done full
  end.

(** ** Long names *)

(** Where a unit of a piece is: 5 at 1, 6 at 14, 2 at 28 *)
Definition unit_pos (fragment_ofs : nat) : nat :=
  if decide (fragment_ofs < 5)%nat then 1 + 2 * fragment_ofs
  else if decide (fragment_ofs < 11)%nat then 14 + 2 * (fragment_ofs - 5)
  else 28 + 2 * (fragment_ofs - 11).

(** The UTF-16 form of the name: [s] is the memory from utf8_in on, [total]
    the length of it at the start *)
Fixpoint lfn_loop (fuel total name_len : nat) (s buf : list Z) (out : nat) : outcome (list Z * nat) :=
  match fuel with
  | O => Fault OutOfFuel
  | S fuel =>
      let* (codepoint, s) := utf8_to_ucs4_upd s in
      let '(n, units) := ucs4_to_utf16 codepoint in
      let* buf := store_all buf out units in
      let out := (out + Z.to_nat n)%nat in
      if decide (total - length s < name_len)%nat then lfn_loop fuel total name_len s buf out
      else let* buf := store buf out 0 in Done (buf, out)
  end.

(** The pieces: the loop over the units, up to the end of the last piece *)
Fixpoint pieces_loop (fuel : nat) (lfn : list Z) (len ofs fragment_ofs frag : nat) (frs : list fat32_dir_union_t) :
    outcome (list fat32_dir_union_t) :=
  if decide (ofs < len ∨ fragment_ofs ≠ 0)%nat then
    match fuel, frs !! frag with
    | O, _ => Fault OutOfFuel
    | _, None => Fault OutOfRange
    | S fuel, Some e =>
        let e := if decide (fragment_ofs = 0%nat) then <[0x0B%nat := FAT_LONGNAME]> e else e in
        let unit := if decide (ofs ≤ len)%nat then default 0 (lfn !! ofs) else 0xFFFF in
        let frs := <[frag := put_word (unit_pos fragment_ofs) unit e]> frs in
        if decide (S fragment_ofs = 13%nat) then pieces_loop fuel lfn len (S ofs) 0 (frag - 1) frs
        else pieces_loop fuel lfn len (S ofs) (S fragment_ofs) frag frs
    end
  else Done frs.

Definition mark_piece (sum : Z) (n i : nat) (e : fat32_dir_union_t) : fat32_dir_union_t :=
  <[0%nat := if decide (i = 0%nat) then Z.lor (Z.of_nat n) FAT_LAST_LFN_ORDINAL else Z.of_nat (n - i)]> (<[0x0D%nat := sum]> e).

Definition mark_pieces (sum : Z) (n : nat) (frs : list fat32_dir_union_t) : list fat32_dir_union_t :=
  imap (λ i e, if decide (i < n)%nat then mark_piece sum n i e else e) frs.

Definition dirents_from_name (pathname : list Z) (name_len : nat) : outcome full_lfn_t :=
  let* (lfn, len) := lfn_loop (S (length pathname)) (length pathname) name_len pathname (replicate 256 0) 0 in
  let n := ((len + 12) / 13)%nat in
  let* frs := pieces_loop (13 * S n) lfn len 0 0 (n - 1) (replicate MAX_FRAGMENTS (replicate 32 0)) in
  let* full := fcbname_from_lfn (FullLfn frs n) lfn len in
  let sum := lfn_checksum (short_name (default [] (fragments full !! n))) in
  Done (FullLfn (mark_pieces sum (lfn_entry_count full) (fragments full)) (lfn_entry_count full)).

(** The 13 units of a piece *)
Definition units_of (e : fat32_dir_union_t) : list Z := (λ i, word_at (unit_pos i) e) <$> seq 0 13.

Fixpoint chunk_loop (fuel : nat) (inp : list Z) : outcome (list Z) :=
  match inp with
  | [] => Done []
  | c :: _ =>
      if (c =? 0) || (c =? 0xFFFF) then Done []
      else match fuel with
           | O => Fault OutOfFuel
           | S fuel =>
               let* (codepoint, inp) := utf16_to_ucs4_upd inp in
               let '(n, bytes) := ucs4_to_utf8 codepoint in
               let* rest := chunk_loop fuel inp in
               Done (take (Z.to_nat n) bytes ++ rest)
           end
  end.

(** The pieces from the last of the array to the first *)
Fixpoint name_from_lfns (n : nat) (frs : list fat32_dir_union_t) : outcome (list Z) :=
  match n with
  | O => Done []
  | S n =>
      match frs !! n with
      | None => Fault OutOfRange
      | Some e =>
          let* out := chunk_loop 13 (units_of e) in
          let* rest := name_from_lfns n frs in
          Done (out ++ rest)
      end
  end.

(** Up to the first space *)
Fixpoint until_space (cs : list Z) : list Z :=
  match cs with
  | [] => []
  | c :: cs => if c =? 32 then [] else c :: until_space cs
  end.
Definition is_upper (c : Z) : bool := (65 <=? c) && (c <=? 90).
Definition to_lower (c : Z) : Z := if is_upper c then c + 32 else c.

(** The extension in lower case, in place: the test reads the extension's
    character and, for the upper bound, the [i]th character of the path. *)
Fixpoint lower_ext (n i name_len : nat) (path : list Z) : list Z :=
  match n with
  | O => path
  | S n =>
      let at_ k := default 0 (path !! k) in
      let path := if (65 <=? s8 (at_ (name_len + 1 + i)%nat)) && (s8 (at_ i) <=? 90)
                  then <[(name_len + 1 + i)%nat := u8 (at_ (name_len + 1 + i)%nat + 32)]> path else path in
      lower_ext n (S i) name_len path
  end.

Definition short_path (e : fat32_dir_union_t) : list Z :=
  let base := until_space (take 8 (short_name e)) in
  let ext := until_space (drop 8 (short_name e)) in
  let base := if Z.land (lowercase_flags e) FAT_LOWERCASE_NAME =? 0 then base else to_lower <$> base in
  if decide (ext = []) then base
  else
    let path := base ++ [46] ++ ext in
    if Z.land (lowercase_flags e) FAT_LOWERCASE_EXT =? 0 then path else lower_ext (length ext) 0 (length base) path.

Definition name_from_dirents (full : full_lfn_t) : outcome (list Z) :=
  match lfn_entry_count full, fragments full with
  | O, e :: _ => Done (short_path e)
  | O, [] => Fault OutOfRange
  | n, frs => name_from_lfns n frs
  end.

(** ** Dates *)

(** 7 bits of year, 4 of month, 5 of day; 5 bits of hour, 6 of minute, 5 of
    seconds by two.  The answer is the date, the time and the centiseconds. *)
Definition date_encode (tod : time_of_day_t) : outcome (Z * Z * Z) :=
  if (1 <=? month tod) && (month tod <=? 12) && (1 <=? day tod) && (day tod <=? 31) && (hour tod <=? 23)
     && (minute tod <=? 59) && (second tod <=? 59)
  then
    let yr := century tod * 100 + year tod in
    Done (u16 (Z.lor (Z.lor (Z.shiftl (yr - 1980) 9) (Z.shiftl (month tod) 5)) (day tod)),
          u16 (Z.lor (Z.lor (Z.shiftl (hour tod) 11) (Z.shiftl (minute tod) 5)) (Z.shiftr (second tod) 1)),
          u8 (centisec tod + 100 * Z.land (second tod) 1))
  else Fault AssertFailed.

Definition date_decode (date_field time_field centiseconds : Z) : time_of_day_t :=
  let y := Z.land (Z.shiftr date_field 9) 127 + 1980 in
  let mon := Z.land (Z.shiftr date_field 5) 15 in
  let d := Z.land date_field 31 in
  let h := Z.land (Z.shiftr time_field 11) 31 in
  let min := Z.land (Z.shiftr time_field 5) 63 in
  let s := Z.land time_field 31 * 2 in
  if 100 <? centiseconds then TimeOfDay (u8 (centiseconds - 100)) (u8 (s + 1)) min h d mon (y mod 100) (y / 100)
  else TimeOfDay (u8 centiseconds) s min h d mon (y mod 100) (y / 100).

(** ** A short name made from the place in the directory *)
(** "ABCDEFGHJKLMNPRSTUWXYZ0123456789" *)
Definition enc : list Z :=
  [65; 66; 67; 68; 69; 70; 71; 72; 74; 75; 76; 77; 78; 80; 82; 83; 84; 85; 87; 88; 89; 90; 48; 49; 50; 51; 52; 53; 54; 55; 56; 57].

(** Seven characters of 5 bits each, around "~999" *)
Definition enc_digit (n : Z) (i : nat) : Z := default 0 (enc !! Z.to_nat (Z.land (Z.shiftr n (5 * Z.of_nat i)) 31)).
Definition unique_shortname (dir_index : Z) : list Z :=
  (enc_digit dir_index <$> seq 0 4) ++ [126; 57; 57; 57] ++ (enc_digit dir_index <$> seq 4 3).

Definition generate_unique_shortname (lfn : full_lfn_t) (dir_index : Z) : outcome full_lfn_t :=
  let n := lfn_entry_count lfn in
  match fragments lfn !! n with
  | None => Fault OutOfRange
  | Some e =>
      let name := unique_shortname dir_index in
      let frs := <[n := put_name name e]> (fragments lfn) in
      Done (FullLfn (imap (λ i e, if decide (i < n)%nat then <[0x0D%nat := lfn_checksum name]> e else e) frs) n)
  end.

(** * FAT names: a long name that is written is read back *)

(** ** Words of an entry *)

Lemma byte_put_eq i v e : (i < length e)%nat → byte_at i (<[i := v]> e) = v.
Proof. intros Hi. unfold byte_at. by rewrite list_lookup_insert_eq. Qed.
Lemma byte_put_ne i j v e : i ≠ j → byte_at i (<[j := v]> e) = byte_at i e.
Proof. intros Hi. unfold byte_at. by rewrite list_lookup_insert_ne. Qed.

Lemma word_put_byte i j v e : j ≠ i → j ≠ S i → word_at i (<[j := v]> e) = word_at i e.
Proof. intros. unfold word_at. by rewrite !byte_put_ne. Qed.

Lemma word_put_eq i w e : 0 ≤ w < 65536 → (S i < length e)%nat → word_at i (put_word i w e) = w.
Proof.
  intros Hw Hi. unfold word_at, put_word. rewrite byte_put_ne, byte_put_eq, byte_put_eq by (rewrite ?length_insert; lia).
  rewrite Z.shiftr_div_pow2 by lia. change (2 ^ 8) with 256. rewrite (Z.mod_small (w / 256)); [|Z.div_mod_to_equations; lia].
  Z.div_mod_to_equations. lia.
Qed.

Lemma word_put_ne i j w e : (S i < j ∨ S j < i)%nat → word_at i (put_word j w e) = word_at i e.
Proof. intros Hi. unfold put_word. rewrite !word_put_byte by lia. done. Qed.

Lemma length_put_word i w e : length (put_word i w e) = length e.
Proof. unfold put_word. by rewrite !length_insert. Qed.

Lemma unit_pos_range i : (i < 13)%nat → (1 ≤ unit_pos i ≤ 30 ∧ (unit_pos i ≤ 9 ∨ 14 ≤ unit_pos i))%nat.
Proof. intros Hi. unfold unit_pos. repeat case_decide; lia. Qed.
Lemma unit_pos_apart i j :
  (i < 13)%nat → (j < 13)%nat → i ≠ j → (S (unit_pos i) < unit_pos j ∨ S (unit_pos j) < unit_pos i)%nat.
Proof. intros Hi Hj Hij. unfold unit_pos. repeat case_decide; lia. Qed.

Lemma unit_kept i j v e : (i < 13)%nat → j = 0%nat ∨ (11 ≤ j ≤ 13)%nat → word_at (unit_pos i) (<[j := v]> e) = word_at (unit_pos i) e.
Proof.
  intros Hi Hj. pose proof (unit_pos_range i Hi). apply word_put_byte; lia.
Qed.

(** ** The name in UTF-16 *)

(** A character of the Basic Multilingual Plane that a name can have *)
Definition name_char (c : Z) : Prop := scalar c ∧ c < 0xFFFF.

Lemma name_char_utf16 c : name_char c → ucs4_to_utf16 c = (1, [c; 0]).
Proof.
  intros [Hs Hc]. rewrite ucs4_to_utf16_correct by done. unfold utf16_spec. by rewrite (proj2 (Z.ltb_lt c 0x10000)) by lia.
Qed.
Lemma name_char_range c : name_char c → 0 < c < 0xFFFF.
Proof. unfold name_char, scalar. lia. Qed.

Lemma store_pair l x y r c : store_all (l ++ x :: y :: r) (length l) [c; 0] = Done (l ++ c :: 0 :: r).
Proof.
  cbn [store_all]. rewrite store_app. cbn [obind].
  replace (S (length l)) with (length (l ++ [c])) by (rewrite length_app; simpl; lia).
  rewrite (cons_middle c l), app_assoc, store_app. cbn [obind]. by rewrite <- app_assoc.
Qed.

Lemma utf8_string_cons c cs : utf8_string (c :: cs) = utf8_spec c ++ utf8_string cs.
Proof. done. Qed.
Lemma utf8_string_app cs ds : utf8_string (cs ++ ds) = utf8_string cs ++ utf8_string ds.
Proof. unfold utf8_string. by rewrite fmap_app, concat_app. Qed.

Lemma lfn_loop_spec fuel total name_len t cs l r :
  Forall name_char cs → cs ≠ [] → (length cs ≤ fuel)%nat → (length cs < length r)%nat →
  (name_len ≤ total)%nat → (length (utf8_string cs ++ t) + name_len = total + length (utf8_string cs))%nat →
  (length (utf8_string cs) ≤ name_len)%nat →
  ∃ r', lfn_loop fuel total name_len (utf8_string cs ++ t) (l ++ r) (length l)
        = Done (l ++ cs ++ 0 :: r', (length l + length cs)%nat) ∧ length (cs ++ 0 :: r') = length r.
Proof.
  revert cs l r. induction fuel as [|fuel IH]; intros cs l r HF Hne Hfuel Hr Hle Htot Hnl;
    destruct HF as [|c cs Hc HF]; simpl in Hfuel; [done|lia|done|].
  cbn [lfn_loop]. rewrite utf8_string_cons in *. rewrite <- app_assoc in *.
  pose proof (name_char_range _ Hc) as Hrange. pose proof (utf8_spec_length c) as Hlen.
  rewrite utf8_decode by lia. cbn [obind]. rewrite name_char_utf16 by done.
  destruct r as [|x [|y r]]; simpl in Hr; [lia|lia|]. rewrite store_pair. cbn [obind].
  rewrite !length_app in Htot. rewrite length_app in Hnl. change (Z.to_nat 1) with 1%nat.
  destruct cs as [|d cs].
  - change (utf8_string []) with (@nil Z) in *. simpl in Htot, Hnl. rewrite decide_False by (simpl; lia).
    replace (length l + 1)%nat with (length (l ++ [c])) by (rewrite length_app; simpl; lia).
    rewrite (cons_middle c l), app_assoc, store_app. cbn [obind]. exists r. rewrite <- app_assoc. split; [|done].
    rewrite length_app. simpl. done.
  - assert (1 ≤ length (utf8_string (d :: cs)))%nat.
    { rewrite utf8_string_cons, length_app. pose proof (utf8_spec_length d). lia. }
    rewrite decide_True by (rewrite length_app; lia).
    replace (length l + 1)%nat with (length (l ++ [c])) by (rewrite length_app; simpl; lia).
    rewrite (cons_middle c l), app_assoc.
    destruct (IH (d :: cs) (l ++ [c]) (0 :: r)) as (r' & -> & Hl'); [done|done|lia|simpl in *; lia|lia| |lia|].
    + rewrite length_app. lia.
    + exists r'. rewrite <- app_assoc. split; [|simpl in *; lia]. rewrite length_app. simpl. do 2 f_equal. lia.
Qed.

(** ** The pieces *)

Section pieces.
Context (lfn : list Z) (len : nat).
Let cnt : nat := ((len + 12) / 13)%nat.
Definition unit_at (m : nat) : Z := if decide (m ≤ len)%nat then default 0 (lfn !! m) else 0xFFFF.
Hypothesis Hlfn : ∀ m, 0 ≤ unit_at m < 65536.

Definition entries_ok (frs : list fat32_dir_union_t) : Prop :=
  length frs = MAX_FRAGMENTS ∧ Forall (λ e, length e = 32%nat) frs.

(** The first [n] units are in their places *)
Definition placed (n : nat) (frs : list fat32_dir_union_t) : Prop :=
  ∀ m, (m < n)%nat → ∃ e, frs !! (cnt - 1 - m / 13)%nat = Some e ∧ attr e = FAT_LONGNAME
    ∧ word_at (unit_pos (m mod 13)) e = unit_at m.

Lemma cnt_spec : (13 * cnt < len + 13 ∧ len ≤ 13 * cnt)%nat.
Proof. unfold cnt. pose proof (Nat.div_mod_eq (len + 12) 13). pose proof (Nat.mod_upper_bound (len + 12) 13). lia. Qed.

Lemma more_units n : (n ≤ 13 * cnt)%nat → ((n < len ∨ n mod 13 ≠ 0) ↔ n < 13 * cnt)%nat.
Proof.
  intros Hn. pose proof cnt_spec. pose proof (Nat.div_mod_eq n 13). pose proof (Nat.mod_upper_bound n 13 ltac:(lia)).
  split; [|lia]. intros [?|?]; [lia|]. destruct (decide (n = 13 * cnt)%nat) as [->|]; [|lia].
  rewrite Nat.mul_comm, Nat.Div0.mod_mul in *. done.
Qed.

(** One unit put in its place *)
Definition with_unit (n : nat) (e : fat32_dir_union_t) : fat32_dir_union_t :=
  put_word (unit_pos (n mod 13)) (unit_at n) (if decide (n mod 13 = 0)%nat then <[0x0B%nat := FAT_LONGNAME]> e else e).

Lemma with_unit_length n e : length (with_unit n e) = length e.
Proof. unfold with_unit. rewrite length_put_word. case_decide; by rewrite ?length_insert. Qed.

Lemma placed_step n frs e :
  entries_ok frs → placed n frs → (n < 13 * cnt)%nat → (cnt ≤ 20)%nat → frs !! (cnt - 1 - n / 13)%nat = Some e →
  placed (S n) (<[(cnt - 1 - n / 13)%nat := with_unit n e]> frs).
Proof.
  intros [Hlen Hall] Hp Hn Hc He m Hm. pose proof (Nat.mod_upper_bound n 13 ltac:(lia)) as Hn13.
  pose proof (Nat.mod_upper_bound m 13 ltac:(lia)) as Hm13. pose proof (Nat.div_mod_eq n 13). pose proof (Nat.div_mod_eq m 13).
  pose proof (proj1 (Forall_lookup _ _) Hall _ _ He) as Hel. simpl in Hel.
  pose proof (unit_pos_range (n mod 13) Hn13) as Hpr.
  destruct (decide (m = n)) as [->|Hmn].
  - exists (with_unit n e). rewrite list_lookup_insert_eq by (by eapply lookup_lt_Some). split; [done|].
    unfold with_unit. split.
    + unfold put_word, attr. rewrite !byte_put_ne by lia. case_decide as Hz; [by rewrite byte_put_eq by (rewrite Hel; lia)|].
      destruct (Hp (n - n mod 13)%nat ltac:(lia)) as (e' & He' & Ha & _).
      replace ((n - n mod 13) / 13)%nat with (n / 13)%nat in He'; [by simplify_eq|].
      apply (Nat.div_unique _ _ _ 0); lia.
    + apply word_put_eq; [apply Hlfn|]. case_decide; rewrite ?length_insert, Hel; lia.
  - destruct (Hp m ltac:(lia)) as (e' & He' & Ha & Hw).
    destruct (decide (cnt - 1 - m / 13 = cnt - 1 - n / 13)%nat) as [Heq|Hne].
    + rewrite Heq in He' |- *. simplify_eq. exists (with_unit n e).
      rewrite list_lookup_insert_eq by (by eapply lookup_lt_Some). split; [done|].
      assert (m mod 13 ≠ n mod 13)%nat as Hmod by lia. unfold with_unit. split.
      * unfold put_word, attr. rewrite !byte_put_ne by lia. case_decide; [by rewrite byte_put_eq by (rewrite Hel; lia)|done].
      * rewrite word_put_ne by (by apply unit_pos_apart). case_decide; [|done]. rewrite unit_kept by lia. done.
    + exists e'. rewrite list_lookup_insert_ne by lia. done.
Qed.

Lemma pieces_loop_spec fuel n frs :
  entries_ok frs → placed n frs → (cnt ≤ 20)%nat → (n ≤ 13 * cnt ≤ fuel + n)%nat →
  ∃ frs', pieces_loop fuel lfn len n (n mod 13) (cnt - 1 - n / 13) frs = Done frs' ∧ entries_ok frs' ∧ placed (13 * cnt) frs'.
Proof.
  revert n frs. induction fuel as [|fuel IH]; intros n frs Hok Hp Hc Hn.
  { exists frs. pose proof (more_units n ltac:(lia)) as Hm. cbn [pieces_loop]. rewrite decide_False by (rewrite Hm; lia).
    replace (13 * cnt)%nat with n by lia. done. }
  cbn [pieces_loop]. pose proof (more_units n ltac:(lia)) as Hm. pose proof Hok as [Hlen Hall].
  destruct (decide (n = 13 * cnt)%nat) as [->|Hlt]; [by rewrite decide_False by (rewrite Hm; lia); exists frs|].
  rewrite decide_True by (apply Hm; lia).
  destruct (lookup_lt_is_Some_2 frs (cnt - 1 - n / 13)%nat) as [e He]; [unfold MAX_FRAGMENTS in Hlen; lia|]. rewrite He.
  fold (unit_at n). fold (with_unit n e).
  pose proof (placed_step n frs e Hok Hp ltac:(lia) Hc He) as Hp'.
  assert (entries_ok (<[(cnt - 1 - n / 13)%nat := with_unit n e]> frs)) as Hok'.
  { split; [by rewrite length_insert|]. apply Forall_insert; [done|]. rewrite with_unit_length. exact (proj1 (Forall_lookup _ _) Hall _ _ He). }
  pose proof (Nat.div_mod_eq n 13). pose proof (Nat.mod_upper_bound n 13 ltac:(lia)).
  case_decide as H13.
  - assert (S n / 13 = S (n / 13))%nat as Hd by (symmetry; apply (Nat.div_unique _ _ _ 0); lia).
    assert (S n mod 13 = 0)%nat as Hmd by (symmetry; apply (Nat.mod_unique _ _ (S (n / 13))); lia).
    destruct (IH (S n) _ Hok' Hp' Hc ltac:(lia)) as (frs' & Hrun & Hres). rewrite Hd, Hmd in Hrun.
    exists frs'. split; [|done]. rewrite <- Hrun. f_equal; lia.
  - assert (S n / 13 = n / 13)%nat as Hd by (symmetry; apply (Nat.div_unique _ _ _ (S (n mod 13))); lia).
    assert (S n mod 13 = S (n mod 13))%nat as Hmd by (symmetry; apply (Nat.mod_unique _ _ (n / 13)); lia).
    destruct (IH (S n) _ Hok' Hp' Hc ltac:(lia)) as (frs' & Hrun & Hres). rewrite Hd, Hmd in Hrun. by exists frs'.
Qed.
End pieces.

(** ** Reading the pieces *)

Section reading.
Context (cs r : list Z).
Hypothesis Hcs : Forall name_char cs.
Let lfn : list Z := cs ++ 0 :: r.
Let len : nat := length cs.

Lemma unit_at_name m : unit_at lfn len m = match cs !! m with Some c => c | None => if decide (m = len)%nat then 0 else 0xFFFF end.
Proof.
  unfold unit_at, lfn, len. destruct (cs !! m) as [c|] eqn:Hm.
  - rewrite (lookup_app_l_Some _ _ _ _ Hm). apply lookup_lt_Some in Hm. by rewrite decide_True by lia.
  - apply lookup_ge_None in Hm. rewrite lookup_app_r by lia. repeat case_decide; try lia.
    by replace (m - length cs)%nat with 0%nat by lia.
Qed.

Lemma unit_at_range m : 0 ≤ unit_at lfn len m < 65536.
Proof.
  rewrite unit_at_name. destruct (cs !! m) as [c|] eqn:Hm; [|case_decide; lia].
  pose proof (proj1 (Forall_lookup _ _) Hcs _ _ Hm) as Hc. apply name_char_range in Hc. lia.
Qed.

Lemma chunk_loop_spec k a : chunk_loop k (unit_at lfn len <$> seq a k) = Done (utf8_string (take k (drop a cs))).
Proof.
  revert a. induction k as [|k IH]; intros a; [done|]. cbn [seq fmap list_fmap chunk_loop].
  rewrite unit_at_name at 1 2. destruct (cs !! a) as [c|] eqn:Ha.
  - pose proof (proj1 (Forall_lookup _ _) Hcs _ _ Ha) as Hc. pose proof (name_char_range _ Hc) as Hr.
    destruct (Z.eqb_spec c 0), (Z.eqb_spec c 0xFFFF); [lia..|]. cbn [orb].
    rewrite unit_at_name, Ha. unfold utf16_to_ucs4_upd.
    replace (c :: _) with (utf16_spec c ++ (unit_at lfn len <$> seq (S a) k))
      by (unfold utf16_spec; by rewrite (proj2 (Z.ltb_lt c 0x10000)) by lia).
    rewrite utf16_decode_offset by apply Hc. cbn [obind]. rewrite (proj2 (Z.ltb_lt c 0x10000)) by lia.
    rewrite ucs4_to_utf8_eq by lia. rewrite IH. cbn [obind].
    rewrite Nat2Z.id, take_app_length. rewrite (drop_S _ _ _ Ha). done.
  - rewrite drop_ge by (by apply lookup_ge_None). rewrite take_nil.
    destruct (decide (a = len)); [done|]. done.
Qed.

Lemma units_of_placed frs j e :
  let cnt := ((len + 12) / 13)%nat in
  placed lfn len (13 * cnt) frs → (j < cnt)%nat → frs !! (cnt - 1 - j)%nat = Some e →
  units_of e = unit_at lfn len <$> seq (13 * j) 13.
Proof.
  intros cnt Hp Hj He. unfold units_of.
  assert (∀ i, (i < 13)%nat → word_at (unit_pos i) e = unit_at lfn len (13 * j + i)) as Hw.
  { intros i Hi. destruct (Hp (13 * j + i)%nat ltac:(lia)) as (e' & He' & _ & Hu).
    replace ((13 * j + i) / 13)%nat with j in He' by (apply (Nat.div_unique _ _ _ i); lia).
    replace ((13 * j + i) mod 13)%nat with i in Hu by (apply (Nat.mod_unique _ _ j); lia).
    fold cnt in He'. by simplify_eq. }
  replace (seq (13 * j) 13) with ((λ i, (13 * j + i)%nat) <$> seq 0 13)
    by (rewrite fmap_add_seq, Nat.add_0_r; done).
  rewrite <- list_fmap_compose. apply list_fmap_ext. intros i x [-> Hi]%lookup_seq. apply Hw. lia.
Qed.

Lemma name_from_lfns_spec frs n :
  let cnt := ((len + 12) / 13)%nat in
  placed lfn len (13 * cnt) frs → (n ≤ cnt)%nat →
  name_from_lfns n frs = Done (utf8_string (drop (13 * (cnt - n)) cs)).
Proof.
  intros cnt Hp. pose proof (cnt_spec len) as Hcnt. cbv zeta in Hcnt. fold cnt in Hcnt.
  induction n as [|n IH]; intros Hn; cbn [name_from_lfns].
  - rewrite drop_ge by (unfold len in *; lia). done.
  - destruct (Hp (13 * (cnt - S n))%nat ltac:(lia)) as (e & He & _).
    replace (13 * (cnt - S n) / 13)%nat with (cnt - S n)%nat in He by (apply (Nat.div_unique _ _ _ 0); lia).
    fold cnt in He. replace (cnt - 1 - (cnt - S n))%nat with n in He by lia. rewrite He.
    assert (frs !! (cnt - 1 - (cnt - S n))%nat = Some e) as He' by (by replace (cnt - 1 - (cnt - S n))%nat with n by lia).
    rewrite (units_of_placed frs (cnt - S n) e Hp ltac:(fold cnt; lia) He').
    rewrite chunk_loop_spec. cbn [obind]. rewrite IH by lia. cbn [obind]. f_equal.
    rewrite <- utf8_string_app. f_equal. rewrite <- (take_drop 13 (drop (13 * (cnt - S n)) cs)) at 2. f_equal.
    rewrite drop_drop. f_equal. lia.
Qed.
End reading.

(** ** The name entries *)

Lemma placed_ext lfn len n frs frs' :
  let cnt := ((len + 12) / 13)%nat in
  placed lfn len n frs → (0 < cnt)%nat →
  (∀ i e, (i < cnt)%nat → frs !! i = Some e → ∃ e', frs' !! i = Some e' ∧ attr e' = attr e ∧ ∀ k, (k < 13)%nat → word_at (unit_pos k) e' = word_at (unit_pos k) e) →
  placed lfn len n frs'.
Proof.
  intros cnt Hp Hc Hx m Hm. destruct (Hp m Hm) as (e & He & Ha & Hw). fold cnt in He |- *.
  destruct (Hx (cnt - 1 - m / 13)%nat e ltac:(lia) He) as (e' & He' & Ha' & Hw'). exists e'. split; [done|]. split; [congruence|].
  rewrite Hw'; [done|]. apply Nat.mod_upper_bound. lia.
Qed.

Lemma mark_piece_kept sum n i e :
  length e = 32%nat → attr (mark_piece sum n i e) = attr e ∧ checksum (mark_piece sum n i e) = sum
  ∧ ordinal (mark_piece sum n i e) = (if decide (i = 0%nat) then Z.lor (Z.of_nat n) FAT_LAST_LFN_ORDINAL else Z.of_nat (n - i))
  ∧ ∀ k, (k < 13)%nat → word_at (unit_pos k) (mark_piece sum n i e) = word_at (unit_pos k) e.
Proof.
  intros He. unfold mark_piece, attr, checksum, ordinal. rewrite !(byte_put_ne _ 0) by lia. rewrite byte_put_ne by lia.
  rewrite !byte_put_eq by (rewrite ?length_insert; lia). split; [done|]. split; [done|]. split; [done|].
  intros k Hk. rewrite !unit_kept by lia. done.
Qed.

(** A piece of the name as it is on the disk *)
Definition piece_ok (sum : Z) (n i : nat) (e : fat32_dir_union_t) : Prop :=
  attr e = FAT_LONGNAME ∧ checksum e = sum
  ∧ ordinal e = if decide (i = 0%nat) then Z.lor (Z.of_nat n) FAT_LAST_LFN_ORDINAL else Z.of_nat (n - i).

Lemma utf8_string_length cs : (length cs ≤ length (utf8_string cs))%nat.
Proof.
  induction cs as [|c cs IH]; [done|]. rewrite utf8_string_cons, length_app. pose proof (utf8_spec_length c). simpl. lia.
Qed.

Lemma lfn_of_name cs t : Forall name_char cs → (1 ≤ length cs ≤ 255)%nat →
  ∃ r, lfn_loop (S (length (utf8_string cs ++ t))) (length (utf8_string cs ++ t)) (length (utf8_string cs))
         (utf8_string cs ++ t) (replicate 256 0) 0 = Done (cs ++ 0 :: r, length cs).
Proof.
  intros Hcs Hlen. pose proof (utf8_string_length cs).
  destruct (lfn_loop_spec (S (length (utf8_string cs ++ t))) (length (utf8_string cs ++ t)) (length (utf8_string cs)) t cs []
              (replicate 256 0)) as (r & Hrun & _); [done| | |rewrite length_replicate; lia|rewrite length_app; lia|lia|lia|].
  - intros ->. simpl in Hlen. lia.
  - rewrite length_app. lia.
  - exists r. exact Hrun.
Qed.

Lemma pieces_of_name cs r : Forall name_char cs → (1 ≤ length cs ≤ 255)%nat →
  let cnt := ((length cs + 12) / 13)%nat in
  ∃ frs, pieces_loop (13 * S cnt) (cs ++ 0 :: r) (length cs) 0 0 (cnt - 1) (replicate MAX_FRAGMENTS (replicate 32 0)) = Done frs
    ∧ entries_ok frs ∧ placed (cs ++ 0 :: r) (length cs) (13 * cnt) frs ∧ (1 ≤ cnt ≤ 20)%nat.
Proof.
  intros Hcs Hlen cnt. pose proof (cnt_spec (length cs)) as Hcnt. cbv zeta in Hcnt. fold cnt in Hcnt.
  destruct (pieces_loop_spec (cs ++ 0 :: r) (length cs) (unit_at_range cs r Hcs) (13 * S cnt) 0
              (replicate MAX_FRAGMENTS (replicate 32 0))) as (frs & Hp & Hok & Hpl).
  - split; [by rewrite length_replicate|]. by apply Forall_replicate.
  - intros m Hm. lia.
  - fold cnt. lia.
  - fold cnt. lia.
  - change (0 mod 13)%nat with 0%nat in Hp. change (0 / 13)%nat with 0%nat in Hp. rewrite Nat.sub_0_r in Hp.
    exists frs. split; [exact Hp|]. split; [done|]. split; [done|lia].
Qed.

(** What the short name and the marks change *)
Lemma mark_pieces_placed lfn len frs sum short :
  let cnt := ((len + 12) / 13)%nat in
  entries_ok frs → placed lfn len (13 * cnt) frs → (1 ≤ cnt ≤ 20)%nat →
  let frs' := mark_pieces sum cnt (<[cnt := short]> frs) in
  placed lfn len (13 * cnt) frs' ∧ frs' !! cnt = Some short
  ∧ ∀ i, (i < cnt)%nat → ∃ e, frs' !! i = Some e ∧ piece_ok sum cnt i e.
Proof.
  intros cnt [Hfl Hfe] Hpl Hc frs'. unfold MAX_FRAGMENTS in Hfl.
  assert (∀ i e, (i < cnt)%nat → frs !! i = Some e → frs' !! i = Some (mark_piece sum cnt i e) ∧ length e = 32%nat) as Hi.
  { intros i e Hi He. split; [|exact (proj1 (Forall_lookup _ _) Hfe _ _ He)]. unfold frs', mark_pieces.
    rewrite list_lookup_imap, list_lookup_insert_ne, He by lia. simpl. by rewrite decide_True. }
  split; [|split].
  - apply (placed_ext _ _ _ frs); [done|fold cnt; lia|]. intros i e Hic He. destruct (Hi i e Hic He) as [He' Hl].
    destruct (mark_piece_kept sum cnt i e Hl) as (Ha & _ & _ & Hw). eauto.
  - unfold frs', mark_pieces. rewrite list_lookup_imap, list_lookup_insert_eq by lia. simpl. by rewrite decide_False by lia.
  - intros i Hic. destruct (Hpl (13 * (cnt - 1 - i))%nat ltac:(fold cnt; lia)) as (e & He & Ha & _). fold cnt in He.
    replace (13 * (cnt - 1 - i) / 13)%nat with (cnt - 1 - i)%nat in He by (apply (Nat.div_unique _ _ _ 0); lia).
    replace (cnt - 1 - (cnt - 1 - i))%nat with i in He by lia.
    destruct (Hi i e Hic He) as [He' Hl]. destruct (mark_piece_kept sum cnt i e Hl) as (Ha' & Hsum & Ho & _).
    exists (mark_piece sum cnt i e). split; [done|]. split; [congruence|done].
Qed.

(** *** The entries are entries *)

Lemma fcb_part_length n cs f : (length (fcb_part n cs f).1 ≤ n)%nat.
Proof.
  revert cs f. induction n as [|n IH]; intros [|c cs] f; simpl; [lia..|]. destruct (conv_dos_char c f) as [o f'].
  specialize (IH cs f'). destruct (fcb_part n cs f') as [out f'']. simpl in *. lia.
Qed.

Lemma fcb_of_lfn_length lfn len : length (fcb_of_lfn lfn len).1.1 = 11%nat.
Proof.
  unfold fcb_of_lfn. pose proof (fcb_part_length 8 (take (last_dot_from len lfn len) lfn)) as Hb.
  match goal with |- context [fcb_part 8 ?x ?f] => specialize (Hb f); destruct (fcb_part 8 x f) as [base g] end.
  match goal with |- context [fcb_part 3 ?x ?f] => pose proof (fcb_part_length 3 x f) as He; destruct (fcb_part 3 x f) as [ext h] end.
  simpl in *. rewrite !length_app, !length_replicate. lia.
Qed.

Lemma mark_pieces_ok sum n frs : entries_ok frs → entries_ok (mark_pieces sum n frs).
Proof.
  intros [Hl He]. split; [unfold mark_pieces; by rewrite length_imap|]. apply Forall_lookup. intros i x. unfold mark_pieces.
  rewrite list_lookup_imap. destruct (frs !! i) as [e|] eqn:Hi; [|done]. intros [= <-].
  pose proof (proj1 (Forall_lookup _ _) He _ _ Hi) as Hi32. simpl in Hi32. case_decide; [unfold mark_piece; by rewrite !length_insert|done].
Qed.

Lemma entries_ok_insert frs i e : entries_ok frs → length e = 32%nat → entries_ok (<[i := e]> frs).
Proof. intros [Hl He] H32. split; [by rewrite length_insert|]. by apply Forall_insert. Qed.

(** *** Names that fit in the short entry *)

Definition dos_char (c : Z) : Prop := 65 ≤ c ≤ 90 ∨ 97 ≤ c ≤ 122 ∨ 48 ≤ c ≤ 57 ∨ c ∈ allowed_dos_chars.
Definition upper (c : Z) : Z := if (97 <=? c) && (c <=? 122) then c - 32 else c.
Definition padded (n : nat) (cs : list Z) : list Z := cs ++ replicate (n - length cs) 32.

(** [name] is what the short entry has for [cs] *)
Definition short_form (cs name : list Z) : Prop :=
  ∃ base ext, (cs = base ++ 46 :: ext ∨ cs = base ∧ ext = []) ∧ (length base ≤ 8)%nat ∧ (length ext ≤ 3)%nat
    ∧ Forall dos_char (base ++ ext) ∧ name = padded 8 (upper <$> base) ++ padded 3 (upper <$> ext).

Lemma conv_dos_char_short c f :
  any_long (conv_dos_char c f).2 = false → (conv_dos_char c f).1 = upper c ∧ 0 < upper c ∧ dos_char c ∧ any_long f = false.
Proof.
  unfold conv_dos_char, upper, dos_char.
  destruct (Z.leb_spec 65 c), (Z.leb_spec c 90), (Z.leb_spec 97 c), (Z.leb_spec c 122), (Z.leb_spec 48 c), (Z.leb_spec c 57); simpl; try lia.
  all: try (intros; repeat split; try lia; tauto).
  all: destruct (Z.ltb_spec 32 c), (Z.ltb_spec c 127); simpl; try done; case_bool_decide; simpl; try done.
  all: intros; repeat split; try lia; tauto.
Qed.

Lemma fcb_part_short n cs f :
  any_long (fcb_part n cs f).2 = false → (length cs ≤ n)%nat → (fcb_part n cs f).1 = upper <$> cs ∧ Forall dos_char cs ∧ any_long f = false.
Proof.
  revert cs f. induction n as [|n IH]; intros [|c cs] f; simpl; try (intros; (lia || by split; [|split])).
  pose proof (conv_dos_char_short c f) as Hc. destruct (conv_dos_char c f) as [o g]. specialize (IH cs g).
  destruct (fcb_part n cs g) as [out h]. simpl in *. intros Hl Hn. destruct (IH Hl ltac:(lia)) as (-> & Hcs & Hg).
  destruct (Hc Hg) as (-> & Hpos & Hd & Hf). rewrite (proj2 (Z.eqb_neq _ _)) by lia. split; [done|]. split; [by constructor|done].
Qed.

Lemma last_dot_spec i lfn len : (i ≤ len)%nat →
  let d := last_dot_from i lfn len in (d ≤ len)%nat ∧ (d = len ∨ lfn !! d = Some 46).
Proof. induction i as [|i IH]; simpl; [intros; split; [lia|by left]|]. intros Hi. case_bool_decide; [split; [lia|by right]|apply IH; lia]. Qed.

Lemma fcb_part_long n cs f : any_long (fcb_part n cs f).2 = false → any_long f = false.
Proof.
  revert cs f. induction n as [|n IH]; intros [|c cs] f; simpl; try done. pose proof (conv_dos_char_short c f) as Hc.
  destruct (conv_dos_char c f) as [o g]. specialize (IH cs g). destruct (fcb_part n cs g) as [out h]. simpl in *. intros Hl.
  by apply Hc, IH.
Qed.

Lemma fcb_of_lfn_short cs r name flags : fcb_of_lfn (cs ++ r) (length cs) = (name, flags, false) → short_form cs name.
Proof.
  unfold fcb_of_lfn. destruct (last_dot_spec (length cs) (cs ++ r) (length cs) (le_n _)) as [Hd Hdot].
  set (d := last_dot_from _ _ _) in *. rewrite take_app_le, take_app_length by lia. set (f0 := Flags false false (8 <? Z.of_nat d)).
  pose proof (fcb_part_short 8 (take d cs) f0) as Hb. pose proof (fcb_part_long 8 (take d cs) f0) as H8.
  destruct (fcb_part 8 (take d cs) f0) as [base f]. set (f1 := Flags false false (any_long f)).
  pose proof (fcb_part_short 3 (drop (S d) cs) f1) as He.
  destruct (fcb_part 3 (drop (S d) cs) f1) as [ext g]. simpl in *. intros [= <- _ [Hg H3%bool_decide_eq_false]%orb_false_iff].
  destruct (He Hg ltac:(lia)) as (-> & Hext & Hf). specialize (H8 Hf). apply Z.ltb_ge in H8.
  destruct (Hb Hf) as (-> & Hbase & _); [rewrite length_take; lia|].
  exists (take d cs), (drop (S d) cs). split; [|split; [rewrite length_take; lia|split; [lia|split; [by apply Forall_app|]]]].
  - destruct Hdot as [->|Hdot]; [right; rewrite firstn_all, drop_ge by lia; done|].
    destruct (decide (d < length cs)%nat); [left|right; rewrite take_ge, drop_ge by lia; done].
    rewrite lookup_app_l in Hdot by done. symmetry. by apply take_drop_middle.
  - unfold padded. by rewrite <- !app_assoc, !length_fmap.
Qed.

(** A name without pieces: the short entry is the first *)
Lemma short_in_front cnt name flags frag frs sum :
  length name = 11%nat → length frs = MAX_FRAGMENTS →
  let short := put_flags flags (put_name name frag) in
  short_name (default [] (head (mark_pieces sum 0 (<[0%nat := short]> (<[cnt := short]> frs))))) = name.
Proof.
  intros Hn Hl. unfold mark_pieces. destruct frs as [|e frs]; [done|].
  destruct cnt; simpl; unfold short_name, put_flags, put_name; rewrite take_insert_ge, take_app_le by lia; by rewrite take_ge by lia.
Qed.

(** The entries of a name: the pieces are numbered and hold the name *)
Lemma dirents_of_name cs t :
  Forall name_char cs → (1 ≤ length cs ≤ 255)%nat →
  ∃ full, dirents_from_name (utf8_string cs ++ t) (length (utf8_string cs)) = Done full ∧ entries_ok (fragments full)
    ∧ let n := lfn_entry_count full in
      (n = 0%nat ∧ short_form cs (short_name (default [] (head (fragments full))))) ∨ (n = (length cs + 12) / 13 ∧ 1 ≤ n ≤ 20)%nat ∧ (∃ r, placed (cs ++ 0 :: r) (length cs) (13 * n) (fragments full))
        ∧ ∃ short, fragments full !! n = Some short
          ∧ ∀ i, (i < n)%nat → ∃ e, fragments full !! i = Some e ∧ piece_ok (lfn_checksum (short_name short)) n i e.
Proof.
  intros Hcs Hlen. unfold dirents_from_name. destruct (lfn_of_name cs t Hcs Hlen) as (r & ->). cbn [obind].
  destruct (pieces_of_name cs r Hcs Hlen) as (frs & -> & Hok & Hpl & Hc). cbn [obind].
  set (cnt := ((length cs + 12) / 13)%nat) in *. unfold fcbname_from_lfn. cbn [fragments lfn_entry_count].
  destruct (lookup_lt_is_Some_2 frs cnt) as [frag Hfrag]; [destruct Hok as [-> _]; unfold MAX_FRAGMENTS; lia|]. rewrite Hfrag.
  pose proof (fcb_of_lfn_length (cs ++ 0 :: r) (length cs)) as H11.
  pose proof (fcb_of_lfn_short cs (0 :: r)) as Hshort.
  destruct (fcb_of_lfn (cs ++ 0 :: r) (length cs)) as [[fcbname flags] long]. simpl in H11.
  set (short := put_flags flags (put_name fcbname frag)).
  assert (length short = 32%nat) as H32.
  { unfold short, put_flags, put_name. rewrite length_insert, length_app, length_drop, H11.
    pose proof (proj1 (Forall_lookup _ _) (proj2 Hok) _ _ Hfrag) as Hl. simpl in Hl. lia. }
  destruct (negb long && negb (lowercase_flags short =? 0)) eqn:Hfits; cbn [obind fragments lfn_entry_count].
  { apply andb_true_iff in Hfits as [->%negb_true_iff _]. eexists. split; [reflexivity|]. split; [by repeat apply entries_ok_insert || apply mark_pieces_ok|]. left. split; [done|].
      unfold short. cbn [fragments]. erewrite short_in_front by (apply Hok || done). eauto. }
  rewrite list_lookup_insert_eq by (by eapply lookup_lt_Some). cbn [default].
  destruct (mark_pieces_placed (cs ++ 0 :: r) (length cs) frs (lfn_checksum (short_name short)) short Hok Hpl Hc) as (Hpl' & Hs & He).
  fold cnt in Hpl', Hs, He. eexists. split; [reflexivity|]. split; [by apply mark_pieces_ok, entries_ok_insert|]. right.
  cbn [fragments lfn_entry_count]. split; [lia|]. split; [by exists r|]. by exists short.
Qed.


(** ** Dates *)

(** Three fields packed in a word, and taken out again *)
Lemma pack3 a b c j k :
  0 ≤ j → 0 ≤ k → 0 ≤ a → 0 ≤ b < 2 ^ k → 0 ≤ c < 2 ^ j →
  Z.lor (Z.lor (Z.shiftl a (j + k)) (Z.shiftl b j)) c = (a * 2 ^ k + b) * 2 ^ j + c.
Proof.
  intros Hj Hk Ha Hb Hc. rewrite !Z.shiftl_mul_pow2, Z.pow_add_r by lia.
  replace (Z.lor (a * (2 ^ j * 2 ^ k)) (b * 2 ^ j)) with ((a * 2 ^ k + b) * 2 ^ j); [by apply lor_disjoint|].
  replace (a * (2 ^ j * 2 ^ k)) with (a * 2 ^ k * 2 ^ j) by lia.
  rewrite <- (Z.shiftl_mul_pow2 (a * 2 ^ k)), <- (Z.shiftl_mul_pow2 b), <- Z.shiftl_lor by lia.
  rewrite Z.shiftl_mul_pow2, lor_disjoint by lia. done.
Qed.

(** A date that the format can hold *)
Record fat_date (tod : time_of_day_t) : Prop := {
  fd_year : 1980 ≤ century tod * 100 + year tod < 2108 ∧ 0 ≤ year tod < 100;
  fd_month : 1 ≤ month tod ≤ 12;
  fd_day : 1 ≤ day tod ≤ 31;
  fd_hour : 0 ≤ hour tod ≤ 23;
  fd_minute : 0 ≤ minute tod ≤ 59;
  fd_second : 0 ≤ second tod ≤ 59;
  fd_centisec : 0 ≤ centisec tod < 100
}.

Lemma date_encode_fields tod : fat_date tod →
  date_encode tod = Done (((century tod * 100 + year tod - 1980) * 2 ^ 4 + month tod) * 2 ^ 5 + day tod,
                          (hour tod * 2 ^ 6 + minute tod) * 2 ^ 5 + second tod / 2, centisec tod + 100 * (second tod mod 2)).
Proof.
  intros [Hy Hmo Hd Hh Hmi Hs Hc]. unfold date_encode. rewrite !(proj2 (Z.leb_le _ _)) by lia. cbn [andb].
  rewrite Z.shiftr_div_pow2, (land_low_mask 1) by lia. change (2 ^ 1) with 2.
  pose proof (pack3 (century tod * 100 + year tod - 1980) (month tod) (day tod) 5 4) as H1. change (5 + 4) with 9 in H1.
  pose proof (pack3 (hour tod) (minute tod) (second tod / 2) 5 6) as H2. change (5 + 6) with 11 in H2.
  rewrite H1, H2 by (try lia; Z.div_mod_to_equations; lia).
  rewrite !u16_small, u8_small by (Z.div_mod_to_equations; lia). done.
Qed.

Lemma date_decode_fields y mo d h mi s cs :
  0 ≤ y < 128 → 0 ≤ mo < 16 → 0 ≤ d < 32 → 0 ≤ h < 32 → 0 ≤ mi < 64 → 0 ≤ s < 30 → 0 ≤ cs < 200 →
  date_decode ((y * 2 ^ 4 + mo) * 2 ^ 5 + d) ((h * 2 ^ 6 + mi) * 2 ^ 5 + s) cs
  = TimeOfDay (if 100 <? cs then cs - 100 else cs) (if 100 <? cs then 2 * s + 1 else 2 * s) mi h d mo
      ((y + 1980) mod 100) ((y + 1980) / 100).
Proof.
  intros Hy Hmo Hd Hh Hmi Hs Hcs. unfold date_decode.
  change 127 with (2 ^ 7 - 1). change 15 with (2 ^ 4 - 1). change 31 with (2 ^ 5 - 1). change 63 with (2 ^ 6 - 1).
  rewrite !land_low_mask, !Z.shiftr_div_pow2 by lia.
  assert (((y * 2 ^ 4 + mo) * 2 ^ 5 + d) / 2 ^ 9 mod 2 ^ 7 = y) as -> by (Z.div_mod_to_equations; lia).
  assert (((y * 2 ^ 4 + mo) * 2 ^ 5 + d) / 2 ^ 5 mod 2 ^ 4 = mo) as -> by (Z.div_mod_to_equations; lia).
  assert (((y * 2 ^ 4 + mo) * 2 ^ 5 + d) mod 2 ^ 5 = d) as -> by (Z.div_mod_to_equations; lia).
  assert (((h * 2 ^ 6 + mi) * 2 ^ 5 + s) / 2 ^ 11 mod 2 ^ 5 = h) as -> by (Z.div_mod_to_equations; lia).
  assert (((h * 2 ^ 6 + mi) * 2 ^ 5 + s) / 2 ^ 5 mod 2 ^ 6 = mi) as -> by (Z.div_mod_to_equations; lia).
  assert (((h * 2 ^ 6 + mi) * 2 ^ 5 + s) mod 2 ^ 5 = s) as -> by (Z.div_mod_to_equations; lia).
  destruct (Z.ltb_spec 100 cs); rewrite ?u8_small by lia; f_equal; lia.
Qed.

Definition decoded (tod : time_of_day_t) : outcome time_of_day_t :=
  match date_encode tod with Done (d, t, c) => Done (date_decode d t c) | Fault f => Fault f end.

(** A date that is stored is read back, to the hundredth of a second: except
    for an odd second and no hundredths, which is read as the second before
    and 100 hundredths. *)
Lemma date_roundtrip tod : fat_date tod →
  decoded tod = Done (if decide (second tod mod 2 = 1 ∧ centisec tod = 0)
    then TimeOfDay 100 (second tod - 1) (minute tod) (hour tod) (day tod) (month tod) (year tod) (century tod) else tod).
Proof.
  intros Hd. unfold decoded. rewrite date_encode_fields by done. destruct Hd as [Hy Hmo Hd Hh Hmi Hs Hc].
  rewrite date_decode_fields by (try lia; Z.div_mod_to_equations; lia). f_equal.
  assert ((century tod * 100 + year tod - 1980 + 1980) mod 100 = year tod) as -> by (Z.div_mod_to_equations; lia).
  assert ((century tod * 100 + year tod - 1980 + 1980) / 100 = century tod) as -> by (Z.div_mod_to_equations; lia).
  pose proof (Z.div_mod (second tod) 2 ltac:(lia)). pose proof (Z.mod_pos_bound (second tod) 2 ltac:(lia)).
  destruct (Z.ltb_spec 100 (centisec tod + 100 * (second tod mod 2))), (decide (second tod mod 2 = 1 ∧ centisec tod = 0)) as [[Hodd Hz]|Hn];
    destruct tod; simpl in *; f_equal; lia.
Qed.

(** ** The start cluster *)
Lemma start_cluster_roundtrip cluster e :
  0 ≤ cluster < 2 ^ 31 → length e = 32%nat → dirent_start_cluster (set_start_cluster cluster e) = cluster.
Proof.
  intros Hc He. unfold dirent_start_cluster, set_start_cluster, start_hi, start_lo.
  change 0xFFFF with (2 ^ 16 - 1). rewrite !land_low_mask, Z.shiftr_div_pow2 by lia.
  rewrite word_put_eq by (rewrite ?length_put_word; lia || (change 65536 with (2 ^ 16); apply Z.mod_pos_bound; lia)).
  rewrite word_put_ne, word_put_eq by (rewrite ?length_put_word; lia || (change 65536 with (2 ^ 16); apply Z.mod_pos_bound; lia)).
  rewrite Z.shiftl_mul_pow2, (lor_disjoint 16) by (try lia; apply Z.mod_pos_bound; lia).
  rewrite (Z.mod_small (cluster / 2 ^ 16)) by (Z.div_mod_to_equations; lia).
  replace (cluster / 2 ^ 16 * 2 ^ 16 + cluster mod 2 ^ 16) with cluster by (Z.div_mod_to_equations; lia).
  unfold s32, swrap. change (32 - 1) with 31. rewrite Z.mod_small by lia. lia.
Qed.
