(* ===== verification/Fat32.v ===== *)
(** * kernel/fs/fat32/fat32.cc: clusters, files and directories

    The device is mapped into memory: [disk] are its bytes by offset from
    mm_dev.  The two copies of the allocation table are lists of cluster
    numbers (int32_t); they are parts of the mapping of which the clusters
    have no part.  What msync and madvise answer, whether a copy to or from
    the user's memory succeeds, and the time of day are parameters: [io] holds the
    answers to come, 0 when it is empty. *)

From stdpp Require Import base tactics list numbers option.
From S2P Require Import Prelude TimeOfDay Fat32Name.

#[local] Open Scope Z_scope.

Record fat32_fs_t := Fs {
  fat : list Z;
  fat2 : list Z;
  disk : Z → Z;
  root_dirent : fat32_dir_union_t;
  root_cluster : Z;
  cluster_ofs : Z;
  end_cluster : Z;
  block_size : Z;
  sector_shift : Z;
  block_shift : Z;
  fat_block_shift : Z;
  io : list Z
}.

Definition set_fat (f f2 : list Z) (s : fat32_fs_t) : fat32_fs_t :=
  Fs f f2 (disk s) (root_dirent s) (root_cluster s) (cluster_ofs s) (end_cluster s) (block_size s) (sector_shift s) (block_shift s)
    (fat_block_shift s) (io s).
Definition set_disk (d : Z → Z) (s : fat32_fs_t) : fat32_fs_t :=
  Fs (fat s) (fat2 s) d (root_dirent s) (root_cluster s) (cluster_ofs s) (end_cluster s) (block_size s) (sector_shift s) (block_shift s)
    (fat_block_shift s) (io s).
Definition set_root (e : fat32_dir_union_t) (s : fat32_fs_t) : fat32_fs_t :=
  Fs (fat s) (fat2 s) (disk s) e (root_cluster s) (cluster_ofs s) (end_cluster s) (block_size s) (sector_shift s) (block_shift s)
    (fat_block_shift s) (io s).
Definition set_io (l : list Z) (s : fat32_fs_t) : fat32_fs_t :=
  Fs (fat s) (fat2 s) (disk s) (root_dirent s) (root_cluster s) (cluster_ofs s) (end_cluster s) (block_size s) (sector_shift s)
    (block_shift s) (fat_block_shift s) l.

Abbreviation FS := (M fat32_fs_t).

Definition fs_assert (b : bool) : FS unit := if b then mret tt else throw AssertFailed.

(** msync, and madvise with MADV_WILLNEED *)
Definition io_status : FS Z := λ s, Done (default 0 (head (io s)), set_io (tail (io s)) s).

(** fat[c], fat[c] = v, fat2[c] = v *)
Definition load_fat (c : Z) : FS Z := λ s,
  if c <? 0 then Fault OutOfRange
  else match fat s !! Z.to_nat c with Some v => Done (v, s) | None => Fault OutOfRange end.
Definition store_fat (c v : Z) : FS unit := λ s,
  if (0 <=? c) && (c <? Z.of_nat (length (fat s))) then Done (tt, set_fat (<[Z.to_nat c := v]> (fat s)) (fat2 s) s) else Fault OutOfRange.
Definition store_fat2 (c v : Z) : FS unit := λ s,
  if (0 <=? c) && (c <? Z.of_nat (length (fat2 s))) then Done (tt, set_fat (fat s) (<[Z.to_nat c := v]> (fat2 s)) s) else Fault OutOfRange.

(** memory of the mapping *)
Definition read_disk (ofs : Z) (n : nat) (s : fat32_fs_t) : list Z := (λ i, disk s (ofs + Z.of_nat i)) <$> seq 0 n.
Definition write_disk (ofs : Z) (bs : list Z) (s : fat32_fs_t) : fat32_fs_t :=
  set_disk (λ a, if (ofs <=? a) && (a <? ofs + Z.of_nat (length bs)) then default 0 (bs !! Z.to_nat (a - ofs)) else disk s a) s.

(** ** The allocation table *)

Definition is_eof (cluster : Z) : bool :=
  let cluster := Z.land cluster 0x0FFFFFFF in (cluster <? 2) || (0x0FFFFFF8 <=? cluster).
Definition is_free (cluster : Z) : bool := Z.land cluster 0x0FFFFFFF =? 0.

(** cluster_ofs is an int, and so is what it is shifted to *)
Definition cluster_place (s : fat32_fs_t) (cluster : Z) : Z :=
  u64 (s32 (Z.shiftl (cluster_ofs s) (sector_shift s)) + u64 (Z.shiftl cluster (sector_shift s + block_shift s))).
Definition offsetof_cluster (cluster : Z) : FS Z :=
  fs_assert (2 <=? cluster);;
  gets (λ s, cluster_place s cluster).

Definition clear_cluster (cluster : Z) : FS unit :=
  ofs ← offsetof_cluster (u64 cluster);
  modify (λ s, write_disk ofs (replicate (Z.to_nat (block_size s)) 0) s).

(** The loop of allocate_near, [n] more candidates *)
Fixpoint near_loop (n : nat) (candidate : Z) : FS Z :=
  match n with
  | O => mret 0
  | S n =>
      en ← gets end_cluster;
      let candidate := if (en <=? candidate) || (candidate <? 2) then 2 else candidate in
      v ← load_fat candidate;
      if is_free v then
        clear_cluster candidate;;
        store_fat candidate 1;;
        mret candidate
      else near_loop n (candidate + 1)
  end.
Definition allocate_near (cluster : Z) : FS Z :=
  en ← gets end_cluster;
  near_loop (Z.to_nat en) (s32 (cluster + 1)).

(** What extend_fat_chain stores in [clusters]; it never stops early *)
Fixpoint extend_fat_chain (count : nat) (cluster : Z) : FS (list Z) :=
  match count with
  | O => mret []
  | S count =>
      cluster ← allocate_near cluster;
      rest ← extend_fat_chain count cluster;
      mret (cluster :: rest)
  end.

Definition sync_fat_entry : FS Z :=
  r ← io_status;
  if 0 <=? r then io_status else mret r.

Definition link (cluster next : Z) : FS Z :=
  store_fat cluster next;;
  store_fat2 cluster next;;
  sync_fat_entry.

Fixpoint commit_loop (clusters : list Z) : FS Z :=
  match clusters with
  | [] => mret 0
  | [cluster] => link cluster 0x0FFFFFFF
  | cluster :: (next :: _) as rest =>
      v ← load_fat cluster;
      fs_assert (v =? 1);;
      r ← link cluster next;
      if r <? 0 then mret r else commit_loop rest
  end.
Definition commit_fat_extend (clusters : list Z) : FS Z := commit_loop clusters.

(** ** Files *)

(** A pointer to a directory entry: the one made for the root, or one on the
    device *)
Inductive dirent_ref := RootDirent | DirentAt (ofs : Z).

Definition dirent_of (s : fat32_fs_t) (p : dirent_ref) : fat32_dir_union_t :=
  match p with RootDirent => root_dirent s | DirentAt ofs => read_disk ofs 32 s end.
Definition load_dirent (p : dirent_ref) : FS fat32_dir_union_t := gets (λ s, dirent_of s p).
Definition store_dirent (p : dirent_ref) (e : fat32_dir_union_t) : FS unit :=
  modify (λ s, match p with RootDirent => set_root e s | DirentAt ofs => write_disk ofs e s end).

(** struct file_handle_t *)
Record file_handle_t := File { dirent : dirent_ref; cached_offset : Z; cached_cluster : Z; dirty : bool }.

(** The loop of walk_cluster_chain; [pending] are the blocks of the table to
    be written *)
Definition note_pending (block : Z) (pending : list Z) : list Z :=
  if decide (last pending = Some block) then pending else pending ++ [block].

Fixpoint walk_loop (fuel : nat) (p : dirent_ref) (c_clus c_ofs walked offset : Z) (append : bool) (pending : list Z) :
    FS (Z * Z * Z * list Z) :=
  bs ← gets block_size;
  if walked + bs <=? offset then
    match fuel with
    | O => throw OutOfFuel
    | S fuel =>
        next ← load_fat c_clus;
        if is_eof next then
          if negb append then mret (c_clus, c_ofs, walked, pending)
          else
            new ← allocate_near c_clus;
            if new =? 0 then mret (c_clus, c_ofs, walked, pending)
            else
              e ← load_dirent p;
              (if dirent_start_cluster e =? 0 then store_dirent p (set_start_cluster new e) else mret tt);;
              shift ← gets fat_block_shift;
              store_fat c_clus new;;
              store_fat2 c_clus new;;
              next ← load_fat new;
              walk_loop fuel p next (c_ofs + bs) (walked + bs) offset append (note_pending (Z.shiftr c_clus shift) pending)
        else walk_loop fuel p next (c_ofs + bs) (walked + bs) offset append pending
    end
  else mret (c_clus, c_ofs, walked, pending).

(** The blocks are written, and the entry with the start cluster *)
Fixpoint sync_blocks (p : dirent_ref) (c_clus c_ofs : Z) (pending : list Z) : FS Z :=
  match pending with
  | [] => mret 0
  | _ :: pending =>
      r ← io_status;
      if r <? 0 then mret r
      else if c_ofs =? 0 then
        e ← load_dirent p;
        store_dirent p (set_start_cluster c_clus e);;
        r ← io_status;
        if r <? 0 then mret r else sync_blocks p c_clus c_ofs pending
      else sync_blocks p c_clus c_ofs pending
  end.

Definition walk_fuel (offset bs : Z) : nat := Z.to_nat (offset / bs) + 1.

Definition walk_cluster_chain (file : file_handle_t) (offset : Z) (append : bool) : FS (Z * file_handle_t) :=
  bs ← gets block_size;
  '(c_clus, c_ofs, walked, pending) ←
    walk_loop (walk_fuel offset bs) (dirent file) (cached_cluster file) (cached_offset file) 0 offset append [];
  '(c_clus, c_ofs, pending) ←
    (if append && (c_clus =? 0) then
       c ← allocate_near 2047;
       shift ← gets fat_block_shift;
       mret (c, 0, note_pending (Z.shiftr c shift) pending)
     else mret (c_clus, c_ofs, pending));
  r ← sync_blocks (dirent file) c_clus c_ofs pending;
  mret (if r <? 0 then r else walked, File (dirent file) c_ofs c_clus (dirty file)).

(** ** Reading and writing *)

Definition EFAULT : Z := 28.

Section rw.
(** Whether the copy of [n] bytes at [pos] of the caller's buffer succeeds *)
Context (copy_ok : Z → Z → bool) (now : time_of_day_t).

(** The entry after a write that ends at [en] *)
Definition touch_dirent (en : Z) (e : fat32_dir_union_t) : outcome fat32_dir_union_t :=
  match date_encode now with
  | Fault f => Fault f
  | Done (d, t, _) =>
      let e := if file_size e <? en
               then put_word 0x1E (Z.shiftr (u32 en) 16) (put_word 0x1C (u32 en mod 65536) e) else e in
      let e := put_word 0x16 t (put_word 0x18 d e) in
      Done (<[0x0B%nat := Z.lor (attr e) FAT_ATTR_ARCH]> e)
  end.

(** One turn: where the cluster is cached that [offset] is in *)
Definition seek (file : file_handle_t) (offset cached_end : Z) (read : bool) : FS (file_handle_t * Z) :=
  bs ← gets block_size;
  e ← load_dirent (dirent file);
  if negb (cached_cluster file =? 0) && is_within_size offset e && (cached_end <=? offset) && (offset <? cached_end + bs) then
    c ← load_fat (cached_cluster file);
    mret (File (dirent file) (cached_offset file + bs) c (dirty file), cached_offset file + bs + bs)
  else if (cached_cluster file =? 0) || (offset <? cached_offset file) || (cached_end <=? offset) then
    '(_, file) ← walk_cluster_chain (File (dirent file) 0 (dirent_start_cluster e) (dirty file)) offset (negb read);
    e ← load_dirent (dirent file);
    mret (file, if negb (cached_cluster file =? 0) && (is_directory e || (0 <? file_size e) || negb read)
                then cached_offset file + bs else 0)
  else mret (file, cached_end).

(** The copy of [avail] bytes at [place] of the device: what was read, the
    handle, and the status *)
Definition transfer (read : bool) (file : file_handle_t) (place offset avail : Z) (data : list Z) : FS (list Z * file_handle_t * Z) :=
  if read then bytes ← gets (read_disk place (Z.to_nat avail)); mret (bytes, file, 0)
  else
    modify (write_disk place (take (Z.to_nat avail) data));;
    r ← io_status;
    if r <? 0 then mret ([], file, r)
    else
      e ← load_dirent (dirent file);
      match touch_dirent (offset + avail) e with
      | Fault f => throw f
      | Done e =>
          store_dirent (dirent file) e;;
          mret ([], File (dirent file) (cached_offset file) (cached_cluster file) true, 0)
      end.

(** The loop of internal_rw.  [data] is what is left to write; the answer is
    the count or the error, what was read, and the handle. *)
Fixpoint rw_loop (fuel : nat) (read : bool) (file : file_handle_t) (size offset result cached_end : Z) (data : list Z) :
    FS (Z * list Z * file_handle_t) :=
  if 0 <? size then
    match fuel with
    | O => throw OutOfFuel
    | S fuel =>
        bs ← gets block_size;
        e ← load_dirent (dirent file);
        if negb (is_within_size offset e) then mret (result, [], file)
        else
          let remain := Z.max 0 (file_size e - offset) in
          let size := if remain <? size then remain else size in
          '(file, cached_end) ← seek file offset cached_end read;
          let avail := if offset <? cached_end then cached_end - offset else 0 in
          fs_assert (avail <=? bs);;
          let avail := if size <? avail then size else avail in
          place ← offsetof_cluster (u64 (cached_cluster file));
          if negb (copy_ok result avail) then mret (- EFAULT, [], file)
          else
            '(got, file, status) ← transfer read file (place + (offset - cached_offset file)) offset avail data;
            if status <? 0 then mret (status, got, file)
            else if avail =? 0 then mret (result, got, file)
            else
              '(r, rest, file) ← rw_loop fuel read file (size - avail) (offset + avail) (result + avail) cached_end
                                   (drop (Z.to_nat avail) data);
              mret (r, got ++ rest, file)
    end
  else mret (result, [], file).

Definition internal_rw (file : file_handle_t) (size offset : Z) (read : bool) (data : list Z) : FS (Z * list Z * file_handle_t) :=
  bs ← gets block_size;
  let cached_end := if cached_cluster file =? 0 then 0 else cached_offset file + bs in
  rw_loop (S (Z.to_nat size)) read file size offset 0 cached_end data.
End rw.

(** ** Directories *)

(** The parts of a name piece that are compared *)
Definition piece_name (e : fat32_dir_union_t) : list Z := take 10 (drop 1 e) ++ take 12 (drop 14 e) ++ take 4 (drop 28 e).

(** match_index and last_checksum of search_dir *)
Record search_t := Search { match_index : nat; last_checksum : Z }.

(** The callback of search_dir for one entry: found, or the next state *)
Definition search_step (lfn : full_lfn_t) (e : fat32_dir_union_t) (st : search_t) : option search_t :=
  let restart := Some (Search 0 (last_checksum st)) in
  let n := lfn_entry_count lfn in
  if attr e =? 0 then restart
  else if negb (attr e =? FAT_LONGNAME) then
    if bool_decide (n = 0%nat ∧ short_name e = short_name (default [] (head (fragments lfn)))) then None
    else if bool_decide (n ≠ 0%nat ∧ match_index st = n ∧ last_checksum st = lfn_checksum (short_name e)) then None
    else restart
  else if decide (match_index st < n)%nat then
    let le := default [] (fragments lfn !! match_index st) in
    if bool_decide (ordinal le = ordinal e ∧ piece_name le = piece_name e)
    then Some (Search (S (match_index st)) (checksum e)) else restart
  else restart.

(** The entries of one cluster, from [ofs] on *)
Fixpoint search_cluster (n : nat) (ofs : Z) (lfn : full_lfn_t) (st : search_t) : FS (Z + search_t) :=
  match n with
  | O => mret (inr st)
  | S n =>
      e ← gets (read_disk ofs 32);
      match search_step lfn e st with
      | None => mret (inl ofs)
      | Some st => search_cluster n (ofs + 32) lfn st
      end
  end.

(** iterate_dir with that callback *)
Fixpoint search_chain (fuel : nat) (cluster : Z) (lfn : full_lfn_t) (st : search_t) : FS (option Z) :=
  if is_eof cluster then mret None
  else
    match fuel with
    | O => throw OutOfFuel
    | S fuel =>
        place ← offsetof_cluster (u64 cluster);
        r ← io_status;
        if r <? 0 then mret None
        else
          bs ← gets block_size;
          found ← search_cluster (Z.to_nat (Z.shiftr bs 5)) place lfn st;
          match found with
          | inl ofs => mret (Some ofs)
          | inr st => next ← load_fat cluster; search_chain fuel next lfn st
          end
    end.

Definition search_dir (cluster : Z) (filename : list Z) (name_len : nat) : FS (option Z) :=
  match dirents_from_name filename name_len with
  | Fault f => throw f
  | Done lfn =>
      n ← gets (λ s, length (fat s));
      search_chain (S n) cluster lfn (Search 0 0)
  end.

(** The length of the path up to the next separator *)
Fixpoint name_span (path : list Z) : nat :=
  match path with
  | [] => 0
  | c :: path => if (c =? 47) || (c =? 0) then 0 else S (name_span path)
  end.

(** The loop of lookup_dirent over the names; [path] is what is left of the
    path, its null included.  The answer is the entry, and the one stored
    through [dde]. *)
Fixpoint lookup_loop (fuel : nat) (path : list Z) (cluster : Z) (de : option dirent_ref) (dde : dirent_ref) :
    FS (option dirent_ref * dirent_ref) :=
  match path with
  | [] => throw OutOfRange
  | c :: _ =>
      if c =? 0 then mret (de, dde)
      else
        match fuel with
        | O => throw OutOfFuel
        | S fuel =>
            let name_len := name_span path in
            if decide (name_len = 0%nat) then mret (de, dde)
            else
              found ← search_dir cluster path name_len;
              match found with
              | None => mret (None, dde)
              | Some ofs =>
                  e ← load_dirent (DirentAt ofs);
                  let rest := drop name_len path in
                  if bool_decide (head rest = Some 47)
                  then lookup_loop fuel (tail rest) (dirent_start_cluster e) (Some (DirentAt ofs)) (DirentAt ofs)
                  else mret (Some (DirentAt ofs), DirentAt ofs)
              end
        end
  end.

Definition lookup_dirent (path : list Z) : FS (option dirent_ref * dirent_ref) :=
  root ← gets root_cluster;
  let name_st := if bool_decide (head path = Some 47) then tail path else path in
  if bool_decide (head name_st = Some 0) then mret (Some RootDirent, RootDirent)
  else lookup_loop (length path) name_st root None RootDirent.
