(* ===== verification/Fat32Thms.v ===== *)
(** * FAT files: what is read and written is the file's content *)

From stdpp Require Import base tactics list numbers option.
From S2P Require Import Prelude Regions TimeOfDay Fat32Name Fat32.

#[local] Open Scope Z_scope.

(** ** What a file is

    [chain] are its clusters, linked through the table; byte [i] of the
    content is in cluster [i / block_size] of it. *)

Definition is_cluster (c : Z) : Prop := 2 ≤ c < 0x0FFFFFF8.

Definition chained (f : list Z) (chain : list Z) : Prop :=
  Forall is_cluster chain
  ∧ ∀ i c d, chain !! i = Some c → chain !! S i = Some d → f !! Z.to_nat c = Some d.

Definition holds_at (s : fat32_fs_t) (chain : list Z) (i : nat) (b : Z) : Prop :=
  ∃ c, chain !! (i / Z.to_nat (block_size s))%nat = Some c
    ∧ disk s (cluster_place s c + Z.of_nat (i mod Z.to_nat (block_size s))%nat) = b.

Record file_rep (s : fat32_fs_t) (p : dirent_ref) (chain content : list Z) : Prop := {
  fr_block : 0 < block_size s;
  fr_chain : chained (fat s) chain;
  fr_entry : length (dirent_of s p) = 32%nat;
  fr_file : is_directory (dirent_of s p) = false;
  fr_size : file_size (dirent_of s p) = Z.of_nat (length content);
  fr_start : ∀ c, chain !! 0%nat = Some c → dirent_start_cluster (dirent_of s p) = c;
  fr_content : ∀ i b, content !! i = Some b → holds_at s chain i b
}.

(** The handle's place in the chain is right, or there is none *)
Definition cache_ok (s : fat32_fs_t) (chain : list Z) (file : file_handle_t) : Prop :=
  cached_cluster file = 0 ∨ ∃ k, chain !! k = Some (cached_cluster file) ∧ cached_offset file = Z.of_nat k * block_size s.
Definition cached_end_of (s : fat32_fs_t) (file : file_handle_t) : Z :=
  if cached_cluster file =? 0 then 0 else cached_offset file + block_size s.

Lemma is_cluster_not_eof c : is_cluster c → is_eof c = false ∧ 0 < c.
Proof.
  unfold is_cluster, is_eof. intros Hc. change 0x0FFFFFFF with (2 ^ 28 - 1). rewrite land_low_mask, Z.mod_small by lia.
  split; [|lia]. apply orb_false_iff. split; [apply Z.ltb_ge|apply Z.leb_gt]; lia.
Qed.

Lemma load_fat_run c v s : 0 ≤ c → fat s !! Z.to_nat c = Some v → load_fat c s = Done (v, s).
Proof. intros Hc Hv. unfold load_fat. by rewrite (proj2 (Z.ltb_ge c 0)), Hv by lia. Qed.

Lemma chain_cluster s chain k c : chained (fat s) chain → chain !! k = Some c → is_cluster c.
Proof. intros [HF _] Hk. exact (proj1 (Forall_lookup _ _) HF _ _ Hk). Qed.

(** The bytes of one turn: those asked for that the file has, up to the end
    of the cluster *)
Lemma turn_sizes len offset size room size' avail :
  0 ≤ offset < len → 0 < size → 0 < room →
  size' = (if Z.max 0 (len - offset) <? size then Z.max 0 (len - offset) else size) →
  avail = (if size' <? room then size' else room) →
  0 < avail ∧ avail ≤ size' ∧ avail ≤ room ∧ size' = Z.min size (len - offset).
Proof. intros Ho Hs Hr -> ->. repeat case_match; rewrite ?Z.ltb_lt, ?Z.ltb_ge in *; lia. Qed.

(** Two slices that meet *)
Lemma slice_cat (l : list Z) (o a n : nat) : (a ≤ n)%nat → take a (drop o l) ++ take (n - a) (drop (o + a) l) = take n (drop o l).
Proof. intros Ha. rewrite <- drop_drop, take_take_drop. f_equal. lia. Qed.

Section reading.
Context (s : fat32_fs_t) (p : dirent_ref) (chain content : list Z).
Hypothesis Hf : file_rep s p chain content.
Let bs : Z := block_size s.

(** The quotient tells the cluster *)
Definition at_cluster (q : nat) (offset : Z) : Prop := Z.of_nat q * bs ≤ offset < (Z.of_nat q + 1) * bs.

Lemma in_chain offset q : 0 ≤ offset < Z.of_nat (length content) → at_cluster q offset → is_Some (chain !! q).
Proof.
  intros Ho Hq. unfold at_cluster in Hq. pose proof (fr_block _ _ _ _ Hf) as Hbs. fold bs in Hbs.
  destruct (lookup_lt_is_Some_2 content (Z.to_nat offset)) as [b Hb]; [lia|].
  destruct (fr_content _ _ _ _ Hf _ _ Hb) as (c & Hc & _).
  replace (Z.to_nat offset / Z.to_nat (block_size s))%nat with q in Hc; [by eexists|].
  apply (Nat.div_unique _ _ _ (Z.to_nat (offset - Z.of_nat q * bs))); unfold bs in *; nia.
Qed.

Lemma walk_loop_reads ap fuel j q offset :
  0 ≤ offset < Z.of_nat (length content) → at_cluster q offset → (j ≤ q)%nat → (q < fuel + j)%nat →
  ∃ c, chain !! q = Some c ∧
  ∀ cj, chain !! j = Some cj →
    walk_loop fuel p cj (Z.of_nat j * bs) (Z.of_nat j * bs) offset ap [] s = Done ((c, Z.of_nat q * bs, Z.of_nat q * bs, []), s).
Proof.
  intros Ho Hq. destruct (in_chain offset q Ho Hq) as [c Hc]. unfold at_cluster in Hq.
  pose proof (fr_block _ _ _ _ Hf) as Hbs. fold bs in Hbs. intros Hj Hfuel. exists c. split; [done|].
  revert j Hj Hfuel. induction fuel as [|fuel IH]; intros j Hj Hfuel cj Hcj; [lia|].
  cbn [walk_loop]. run. fold bs. destruct (decide (j = q)) as [->|Hne].
  - rewrite (proj2 (Z.leb_gt _ _)) by nia. by simplify_eq.
  - rewrite (proj2 (Z.leb_le _ _)) by nia.
    destruct (lookup_lt_is_Some_2 chain (S j)) as [cn Hcn]; [apply lookup_lt_Some in Hc; lia|].
    pose proof (chain_cluster _ _ _ _ (fr_chain _ _ _ _ Hf) Hcj) as Hcl. destruct (is_cluster_not_eof _ Hcl) as [_ Hpos].
    pose proof (chain_cluster _ _ _ _ (fr_chain _ _ _ _ Hf) Hcn) as Hcl'. destruct (is_cluster_not_eof _ Hcl') as [Heof _].
    rewrite (bind_done _ _ _ _ _ (load_fat_run cj cn s ltac:(lia) (proj2 (fr_chain _ _ _ _ Hf) _ _ _ Hcj Hcn))), Heof.
    replace (Z.of_nat j * bs + bs) with (Z.of_nat (S j) * bs) by lia. apply IH; [lia|lia|done].
Qed.

Lemma walk_reads ap file offset q :
  dirent file = p → cached_offset file = 0 → chain !! 0%nat = Some (cached_cluster file) →
  0 ≤ offset < Z.of_nat (length content) → at_cluster q offset →
  ∃ c w, chain !! q = Some c ∧
    walk_cluster_chain file offset ap s = Done ((w, File p (Z.of_nat q * bs) c (dirty file)), s).
Proof.
  intros Hp H0 Hc0 Ho Hq. pose proof (fr_block _ _ _ _ Hf) as Hbs. fold bs in Hbs.
  assert (q < walk_fuel offset bs + 0)%nat as Hfuel.
  { unfold walk_fuel, at_cluster in *. replace (offset / bs) with (Z.of_nat q); [lia|]. apply (Z.div_unique _ _ _ (offset - Z.of_nat q * bs)); nia. }
  destruct (walk_loop_reads ap _ 0 q offset Ho Hq (Nat.le_0_l _) Hfuel) as (c & Hc & Hrun).
  exists c, (Z.of_nat q * bs). split; [done|]. unfold walk_cluster_chain. run. fold bs. rewrite Hp, H0.
  rewrite (bind_done _ _ _ _ _ (Hrun _ Hc0)).
  destruct (is_cluster_not_eof c (chain_cluster _ _ _ _ (fr_chain _ _ _ _ Hf) Hc)) as [_ Hpos].
  rewrite (proj2 (Z.eqb_neq c 0)), andb_false_r by lia. run. cbn [sync_blocks]. run. done.
Qed.

Lemma seek_reads rd file offset q :
  dirent file = p → cache_ok s chain file → 0 ≤ offset < Z.of_nat (length content) → at_cluster q offset →
  ∃ c, chain !! q = Some c ∧
    seek file offset (cached_end_of s file) rd s
    = Done ((File p (Z.of_nat q * bs) c (dirty file), (Z.of_nat q + 1) * bs), s).
Proof.
  intros Hp Hcache Ho Hq. pose proof (fr_block _ _ _ _ Hf) as Hbs. fold bs in Hbs. pose proof Hq as Hq'. unfold at_cluster in Hq'.
  unfold seek, load_dirent. run. fold bs. rewrite Hp.
  assert (is_within_size offset (dirent_of s p) = true) as Hw.
  { unfold is_within_size. rewrite (fr_size _ _ _ _ Hf). by rewrite (proj2 (Z.ltb_lt _ _)) by lia. }
  rewrite Hw, andb_true_r.
  assert (∀ c', chain !! 0%nat = Some c' → ∃ c, chain !! q = Some c ∧
    ('(_, file) ← walk_cluster_chain (File p 0 (dirent_start_cluster (dirent_of s p)) (dirty file)) offset (negb rd);
     e ← gets (λ s, dirent_of s (dirent file));
     mret (file, if negb (cached_cluster file =? 0) && (is_directory e || (0 <? file_size e) || negb rd)
                 then cached_offset file + bs else 0)) s = Done ((File p (Z.of_nat q * bs) c (dirty file), (Z.of_nat q + 1) * bs), s)) as Hwalk.
  { intros c0 Hc0. pose proof (fr_start _ _ _ _ Hf _ Hc0) as Hst.
    destruct (walk_reads (negb rd) (File p 0 (dirent_start_cluster (dirent_of s p)) (dirty file)) offset q) as (c & w & Hc & Hrun);
      [done|done|simpl; congruence|done|done|].
    exists c. split; [done|]. rewrite (bind_done _ _ _ _ _ Hrun). run. simpl.
    destruct (is_cluster_not_eof c (chain_cluster _ _ _ _ (fr_chain _ _ _ _ Hf) Hc)) as [_ Hpos].
    destruct (Z.eqb_spec c 0); [lia|]. rewrite (fr_size _ _ _ _ Hf), (proj2 (Z.ltb_lt 0 _)) by lia.
    rewrite orb_true_r. simpl. unfold mret, M_ret. do 3 f_equal. lia. }
  destruct (in_chain 0 0 ltac:(lia)) as [c0 Hc0]; [unfold at_cluster; lia|].
  destruct Hcache as [Hz|(k & Hk & Hko)].
  { rewrite Hz, Z.eqb_refl. cbn [negb andb orb]. eauto. }
  destruct (is_cluster_not_eof _ (chain_cluster _ _ _ _ (fr_chain _ _ _ _ Hf) Hk)) as [_ Hpos].
  unfold cached_end_of. destruct (Z.eqb_spec (cached_cluster file) 0); [lia|]. cbn [negb andb orb]. fold bs in Hko. fold bs.
  rewrite Hko. destruct (Z.leb_spec (Z.of_nat k * bs + bs) offset) as [Hge|Hlt]; cbn [andb].
  - destruct (Z.ltb_spec offset (Z.of_nat k * bs + bs + bs)) as [Hin|Hout].
    + assert (q = S k) as -> by nia. destruct (in_chain offset (S k) Ho Hq) as [c Hc]. exists c. split; [done|].
      rewrite (bind_done _ _ _ _ _ (load_fat_run (cached_cluster file) c s ltac:(lia) (proj2 (fr_chain _ _ _ _ Hf) _ _ _ Hk Hc))).
      unfold mret, M_ret. do 3 f_equal; [f_equal|]; lia.
    + rewrite orb_true_r. eauto.
  - destruct (Z.ltb_spec offset (Z.of_nat k * bs)) as [Hbefore|Hin]; cbn [orb].
    + eauto.
    + assert (q = k) as -> by nia. exists (cached_cluster file). split; [done|]. unfold mret, M_ret.
      destruct file. simpl in *. subst. do 3 f_equal. lia.
Qed.

Lemma cluster_bytes q c offset n :
  chain !! q = Some c → Z.of_nat q * bs ≤ offset → 0 ≤ n → offset + n ≤ (Z.of_nat q + 1) * bs → offset + n ≤ Z.of_nat (length content) →
  read_disk (cluster_place s c + (offset - Z.of_nat q * bs)) (Z.to_nat n) s = take (Z.to_nat n) (drop (Z.to_nat offset) content).
Proof.
  intros Hc Hlo Hn Hhi Hlen. pose proof (fr_block _ _ _ _ Hf) as Hbs. fold bs in Hbs. unfold read_disk.
  apply list_eq. intros i. destruct (decide (i < Z.to_nat n)%nat) as [Hi|Hi].
  - rewrite list_lookup_fmap, lookup_seq_lt, lookup_take_lt, lookup_drop by done. simpl.
    destruct (lookup_lt_is_Some_2 content (Z.to_nat offset + i)) as [b Hb]; [lia|]. rewrite Hb. f_equal.
    destruct (fr_content _ _ _ _ Hf _ _ Hb) as (c' & Hc' & Hd). fold bs in Hc', Hd.
    assert (Z.to_nat offset + i = Z.to_nat bs * q + (Z.to_nat offset + i - Z.to_nat bs * q))%nat as Hdiv by nia.
    assert ((Z.to_nat offset + i) / Z.to_nat bs = q)%nat as Hq
      by (symmetry; apply (Nat.div_unique _ _ _ (Z.to_nat offset + i - Z.to_nat bs * q)); nia).
    assert ((Z.to_nat offset + i) mod Z.to_nat bs = Z.to_nat offset + i - Z.to_nat bs * q)%nat as Hm
      by (symmetry; apply (Nat.mod_unique _ _ q); nia).
    rewrite Hq in Hc'. rewrite Hm in Hd. simplify_eq. f_equal. nia.
  - rewrite lookup_ge_None_2, lookup_ge_None_2; [done| |]; [rewrite length_take; lia|rewrite length_fmap, length_seq; lia].
Qed.

Context (copy_ok : Z → Z → bool) (now : time_of_day_t).
Hypothesis Hcopy : ∀ pos n, copy_ok pos n = true.

Lemma place_of_cluster c : is_cluster c → offsetof_cluster (u64 c) s = Done (cluster_place s c, s).
Proof.
  intros Hc. unfold is_cluster in Hc. rewrite u64_small by lia. unfold offsetof_cluster.
  rewrite (proj2 (Z.leb_le 2 c)) by lia. done.
Qed.

(** Nothing is left to do *)
Lemma rw_stops rd fuel file size offset result ce data :
  dirent file = p → (Z.to_nat size < fuel)%nat → size ≤ 0 ∨ Z.of_nat (length content) ≤ offset →
  rw_loop copy_ok now fuel rd file size offset result ce data s = Done ((result, [], file), s).
Proof.
  intros Hp Hfuel Hend. destruct fuel as [|fuel]; [lia|]. cbn [rw_loop].
  destruct (Z.ltb_spec 0 size) as [Hpos|?]; [|done]. destruct Hend as [?|Hend]; [lia|].
  assert (load_dirent (dirent file) s = Done (dirent_of s p, s)) as Hld by (by rewrite Hp).
  run. rewrite (bind_done _ _ _ _ _ Hld). unfold is_within_size.
  rewrite (fr_size _ _ _ _ Hf), (fr_file _ _ _ _ Hf), orb_false_r. by rewrite (proj2 (Z.ltb_ge _ _)) by lia.
Qed.

(** One turn of the loop: the cluster [q] that the offset is in, and the
    [avail] bytes of it that are transferred *)
Lemma rw_turn rd fuel file size offset result data :
  dirent file = p → cache_ok s chain file → 0 ≤ offset < Z.of_nat (length content) → 0 < size →
  ∃ q c avail, chain !! q = Some c ∧ at_cluster q offset ∧ 0 < avail ≤ Z.min size (Z.of_nat (length content) - offset)
    ∧ offset + avail ≤ (Z.of_nat q + 1) * bs
    ∧ let file1 := File p (Z.of_nat q * bs) c (dirty file) in
      ∀ got d s1,
        transfer now rd file1 (cluster_place s c + (offset - Z.of_nat q * bs)) offset avail data s
          = Done ((got, File p (Z.of_nat q * bs) c d, 0), s1) →
        block_size s1 = bs →
        rw_loop copy_ok now (S fuel) rd file size offset result (cached_end_of s file) data s =
        ('(r, rest, f) ← rw_loop copy_ok now fuel rd (File p (Z.of_nat q * bs) c d)
                           (Z.min size (Z.of_nat (length content) - offset) - avail) (offset + avail) (result + avail)
                           (cached_end_of s1 (File p (Z.of_nat q * bs) c d)) (drop (Z.to_nat avail) data);
         mret (r, got ++ rest, f)) s1.
Proof.
  intros Hp Hc Ho Hs. pose proof (fr_block _ _ _ _ Hf) as Hbs. fold bs in Hbs. set (q := Z.to_nat (offset / bs)).
  assert (at_cluster q offset) as Hq.
  { unfold at_cluster, q. pose proof (Z.div_pos offset bs (proj1 Ho) Hbs). rewrite Z2Nat.id by done. Z.div_mod_to_equations. nia. }
  destruct (seek_reads rd file offset q Hp Hc Ho Hq) as (c & Hcq & Hseek). pose proof Hq as Hq'. unfold at_cluster in Hq'.
  pose proof (chain_cluster _ _ _ _ (fr_chain _ _ _ _ Hf) Hcq) as Hcl.
  set (size' := if Z.max 0 (Z.of_nat (length content) - offset) <? size then Z.max 0 (Z.of_nat (length content) - offset) else size).
  set (avail := if size' <? (Z.of_nat q + 1) * bs - offset then size' else (Z.of_nat q + 1) * bs - offset).
  destruct (turn_sizes (Z.of_nat (length content)) offset size ((Z.of_nat q + 1) * bs - offset) size' avail Ho Hs
              ltac:(lia) eq_refl eq_refl) as (Hav & Has & Hab & Hsz).
  exists q, c, avail. split; [done|]. split; [done|]. split; [lia|]. split; [lia|]. intros file1 got d s1 Htr Hb1.
  cbn [rw_loop]. rewrite (proj2 (Z.ltb_lt 0 size)) by lia.
  assert (load_dirent (dirent file) s = Done (dirent_of s p, s)) as Hld by (by rewrite Hp).
  run. rewrite (bind_done _ _ _ _ _ Hld). unfold is_within_size.
  rewrite (fr_size _ _ _ _ Hf), (proj2 (Z.ltb_lt offset _)) by lia. cbn [orb negb]. fold size'.
  rewrite (bind_done _ _ _ _ _ Hseek), (proj2 (Z.ltb_lt offset ((Z.of_nat q + 1) * bs))) by lia. fold avail.
  rewrite (bind_done (fs_assert _) _ _ tt s) by (by rewrite (proj2 (Z.leb_le _ (block_size s))) by (unfold bs in *; lia)).
  cbn [cached_cluster cached_offset]. rewrite (bind_done _ _ _ _ _ (place_of_cluster c Hcl)), Hcopy. cbn [negb].
  rewrite (bind_done _ _ _ _ _ Htr), (proj2 (Z.ltb_ge 0 0)), (proj2 (Z.eqb_neq avail 0)), <- Hsz by lia.
  destruct (is_cluster_not_eof c Hcl) as [_ Hcpos]. unfold cached_end_of. cbn [cached_cluster cached_offset].
  rewrite (proj2 (Z.eqb_neq c 0)), Hb1 by lia. by replace (Z.of_nat q * bs + bs) with ((Z.of_nat q + 1) * bs) by lia.
Qed.

Lemma rw_loop_reads fuel file size offset result :
  dirent file = p → cache_ok s chain file → 0 ≤ offset → 0 ≤ size → (Z.to_nat size < fuel)%nat →
  let got := take (Z.to_nat size) (drop (Z.to_nat offset) content) in
  ∃ file', rw_loop copy_ok now fuel true file size offset result (cached_end_of s file) [] s
           = Done ((result + Z.of_nat (length got), got, file'), s) ∧ dirent file' = p ∧ cache_ok s chain file'.
Proof.
  revert file size offset result. induction fuel as [|fuel IH]; intros file size offset result Hp Hc Ho Hs Hfuel; [lia|].
  destruct (decide (0 < size ∧ offset < Z.of_nat (length content))) as [[Hpos Hin]|Hend]; last first.
  { intros got. assert (got = []) as ->.
    { apply nil_length_inv. unfold got. rewrite length_take, length_drop. lia. }
    exists file. rewrite rw_stops by (done || lia). simpl. by rewrite Z.add_0_r. }
  destruct (rw_turn true fuel file size offset result [] Hp Hc ltac:(lia) Hpos) as (q & c & avail & Hcq & Hq & Hav & Hend & Hrun).
  set (size' := Z.min size (Z.of_nat (length content) - offset)) in *. unfold at_cluster in Hq.
  specialize (Hrun (take (Z.to_nat avail) (drop (Z.to_nat offset) content)) (dirty file) s).
  rewrite Hrun; [|unfold transfer; run; by rewrite (cluster_bytes q c offset avail) by (done || lia)|done].
  destruct (IH (File p (Z.of_nat q * bs) c (dirty file)) (size' - avail) (offset + avail) (result + avail)) as (file' & Hrun' & Hp' & Hc');
    [done|right; by exists q|lia|lia|lia|].
  rewrite drop_nil, (bind_done _ _ _ _ _ Hrun'). intros got. exists file'. split; [|done]. unfold mret, M_ret.
  assert (take (Z.to_nat avail) (drop (Z.to_nat offset) content)
          ++ take (Z.to_nat (size' - avail)) (drop (Z.to_nat (offset + avail)) content) = got) as Hcat.
  { replace (Z.to_nat (offset + avail)) with (Z.to_nat offset + Z.to_nat avail)%nat by lia.
    replace (Z.to_nat (size' - avail)) with (Z.to_nat size' - Z.to_nat avail)%nat by lia. rewrite slice_cat by lia. unfold got, size'.
    destruct (Z.min_spec size (Z.of_nat (length content) - offset)) as [[_ ->]|[Hge ->]]; [done|].
    rewrite !take_ge by (rewrite length_drop; lia). done. }
  assert (length (take (Z.to_nat avail) (drop (Z.to_nat offset) content)) = Z.to_nat avail) as Hl
    by (rewrite length_take, length_drop; lia).
  rewrite <- Hcat, length_app, Hl. do 4 f_equal. lia.
Qed.

End reading.

(** ** Writing *)

Lemma read_disk_length ofs n s : length (read_disk ofs n s) = n.
Proof. unfold read_disk. by rewrite length_fmap, length_seq. Qed.

Lemma write_disk_out ofs bs s a : ¬ ofs ≤ a < ofs + Z.of_nat (length bs) → disk (write_disk ofs bs s) a = disk s a.
Proof. intros Ha. simpl. destruct (Z.leb_spec ofs a), (Z.ltb_spec a (ofs + Z.of_nat (length bs))); simpl; lia || done. Qed.

Lemma write_disk_in ofs bs s i b : bs !! i = Some b → disk (write_disk ofs bs s) (ofs + Z.of_nat i) = b.
Proof.
  intros Hb. pose proof (lookup_lt_Some _ _ _ Hb). simpl. rewrite (proj2 (Z.leb_le _ _)), (proj2 (Z.ltb_lt _ _)) by lia. simpl.
  replace (ofs + Z.of_nat i - ofs) with (Z.of_nat i) by lia. by rewrite Nat2Z.id, Hb.
Qed.

(** What the write leaves in the entry *)
Lemma touch_dirent_spec now d t cs en e :
  date_encode now = Done (d, t, cs) → length e = 32%nat → en ≤ file_size e →
  ∃ e', touch_dirent now en e = Done e' ∧ length e' = 32%nat ∧ file_size e' = file_size e
    ∧ dirent_start_cluster e' = dirent_start_cluster e ∧ is_directory e' = is_directory e.
Proof.
  intros Hd Hl Hen. unfold touch_dirent. rewrite Hd, (proj2 (Z.ltb_ge _ _)) by lia. eexists. split; [reflexivity|].
  assert (∀ i, (0x1A ≤ i ∨ i = 0x14)%nat →
    word_at i (<[0x0B%nat := Z.lor (attr (put_word 0x16 t (put_word 0x18 d e))) FAT_ATTR_ARCH]> (put_word 0x16 t (put_word 0x18 d e))) = word_at i e) as Hw.
  { intros i Hi. rewrite word_put_byte, !word_put_ne by lia. done. }
  split; [by rewrite length_insert, !length_put_word|]. unfold file_size, dirent_start_cluster, start_hi, start_lo.
  rewrite !Hw by lia. split; [done|]. split; [done|]. unfold is_directory. unfold attr at 1.
  rewrite byte_put_eq by (rewrite !length_put_word; lia).
  assert (attr (put_word 0x16 t (put_word 0x18 d e)) = attr e) as -> by (unfold attr, put_word; rewrite !byte_put_ne by lia; done).
  rewrite Z.land_lor_distr_l. change (Z.land FAT_ATTR_ARCH FAT_ATTR_DIR) with 0. by rewrite Z.lor_0_r.
Qed.

Section writing.
Context (p : dirent_ref) (chain : list Z) (copy_ok : Z → Z → bool) (now : time_of_day_t).
Hypothesis Hcopy : ∀ pos n, copy_ok pos n = true.
Hypothesis Hnow : ∃ d t cs, date_encode now = Done (d, t, cs).

(** No two clusters of the chain overlap, nor the entry and a cluster *)
Definition laid_out (s : fat32_fs_t) : Prop :=
  (∀ i j c d, chain !! i = Some c → chain !! j = Some d → i ≠ j →
     apart (cluster_place s c, block_size s) (cluster_place s d, block_size s))
  ∧ (∀ i c ofs, p = DirentAt ofs → chain !! i = Some c → apart (ofs, 32) (cluster_place s c, block_size s)).

Definition stored (e : fat32_dir_union_t) (s : fat32_fs_t) : fat32_fs_t :=
  match p with RootDirent => set_root e s | DirentAt ofs => write_disk ofs e s end.

Lemma dirent_of_stored e s : length e = 32%nat → dirent_of (stored e s) p = e.
Proof.
  intros He. unfold stored. destruct p as [|ofs]; [done|]. cbn [dirent_of]. apply list_eq. intros i.
  destruct (decide (i < 32)%nat) as [Hi|Hi].
  - destruct (lookup_lt_is_Some_2 e i) as [b Hb]; [lia|]. unfold read_disk.
    rewrite list_lookup_fmap, lookup_seq_lt, Hb by done. cbn [option_map fmap option_fmap]. f_equal.
    by apply write_disk_in.
  - rewrite !lookup_ge_None_2; [done|lia|rewrite read_disk_length; lia].
Qed.

(** The entry is not in the clusters that are written *)
Lemma dirent_kept s i c ofs bytes :
  laid_out s → chain !! i = Some c → cluster_place s c ≤ ofs → ofs + Z.of_nat (length bytes) ≤ cluster_place s c + block_size s →
  dirent_of (write_disk ofs bytes s) p = dirent_of s p.
Proof.
  intros [_ Hap] Hc Hlo Hhi. destruct p as [|o] eqn:Hp; [done|]. cbn [dirent_of]. unfold read_disk. apply list_fmap_ext.
  intros k x [-> Hk]%lookup_seq. apply write_disk_out. pose proof (Hap i c o eq_refl Hc) as Ha. unfold apart in Ha. simpl in Ha. lia.
Qed.

Lemma content_written s content q c offset bytes i b :
  file_rep s p chain content → laid_out s → chain !! q = Some c →
  Z.of_nat q * block_size s ≤ offset → 0 ≤ offset → offset + Z.of_nat (length bytes) ≤ (Z.of_nat q + 1) * block_size s →
  list_inserts (Z.to_nat offset) bytes content !! i = Some b →
  holds_at (write_disk (cluster_place s c + (offset - Z.of_nat q * block_size s)) bytes s) chain i b.
Proof.
  intros Hf Hlay Hc Hlo Ho Hhi Hi. pose proof (fr_block _ _ _ _ Hf) as Hbs. unfold holds_at. cbn [block_size write_disk set_disk].
  set (n := Z.to_nat (block_size s)).
  pose proof (Nat.div_mod_eq i n) as Hdm. pose proof (Nat.mod_upper_bound i n ltac:(lia)) as Hmod.
  apply list_lookup_inserts_Some in Hi as [[Hout Hi]|(Hin & Hil & Hi)].
  - destruct (fr_content _ _ _ _ Hf _ _ Hi) as (d & Hd & Hold). fold n in Hd, Hold. exists d. split; [done|].
    etrans; [|exact Hold]. apply write_disk_out.
    change (cluster_place (write_disk _ _ s)) with (cluster_place s).
    destruct (decide ((i / n)%nat = q)) as [Hq|Hq].
    + rewrite Hq in Hd. simplify_eq. nia.
    + pose proof (proj1 Hlay _ _ _ _ Hd Hc Hq) as Hap. unfold apart in Hap. simpl in Hap. nia.
  - assert ((i / n)%nat = q) as Hq by (symmetry; apply (Nat.div_unique _ _ _ (i - n * q)); nia).
    exists c. rewrite Hq. split; [done|]. etrans; [|exact (write_disk_in (cluster_place s c + (offset - Z.of_nat q * block_size s)) bytes s _ _ Hi)]. f_equal.
    change (cluster_place s c + Z.of_nat (i mod n)%nat
            = cluster_place s c + (offset - Z.of_nat q * block_size s) + Z.of_nat (i - Z.to_nat offset)).
    rewrite Hq in Hdm. nia.
Qed.

Lemma write_turn s content q c offset bytes e' l :
  file_rep s p chain content → laid_out s → chain !! q = Some c →
  Z.of_nat q * block_size s ≤ offset → 0 ≤ offset → offset + Z.of_nat (length bytes) ≤ (Z.of_nat q + 1) * block_size s →
  length e' = 32%nat → file_size e' = file_size (dirent_of s p) →
  dirent_start_cluster e' = dirent_start_cluster (dirent_of s p) → is_directory e' = is_directory (dirent_of s p) →
  file_rep (stored e' (set_io l (write_disk (cluster_place s c + (offset - Z.of_nat q * block_size s)) bytes s))) p chain
    (list_inserts (Z.to_nat offset) bytes content).
Proof.
  intros Hf Hlay Hc Hlo Ho Hhi He Hsz Hst Hdir.
  set (place := cluster_place s c + (offset - Z.of_nat q * block_size s)).
  set (s1 := set_io l (write_disk place bytes s)).
  assert (block_size (stored e' s1) = block_size s) as Hb' by (unfold stored; by destruct p).
  assert (∀ d, cluster_place (stored e' s1) d = cluster_place s d) as Hp' by (intros d; unfold stored; by destruct p).
  constructor; rewrite ?dirent_of_stored by done.
  - rewrite Hb'. apply Hf.
  - replace (fat (stored e' s1)) with (fat s) by (unfold stored; by destruct p). apply Hf.
  - done.
  - rewrite Hdir. apply Hf.
  - rewrite Hsz, length_inserts. apply Hf.
  - intros c0 Hc0. rewrite Hst. by apply (fr_start _ _ _ _ Hf).
  - intros i b Hi. destruct (content_written s content q c offset bytes i b Hf Hlay Hc Hlo Ho Hhi Hi) as (d & Hd & Hb).
    cbn [block_size write_disk set_disk] in Hd, Hb. exists d. rewrite Hb'. split; [done|]. rewrite Hp'. etrans; [|exact Hb].
    pose proof (fr_block _ _ _ _ Hf). pose proof (Nat.mod_upper_bound i (Z.to_nat (block_size s)) ltac:(lia)).
    unfold stored. destruct p as [|o] eqn:Hp; [done|]. etrans; [apply write_disk_out|done].
    pose proof (proj2 Hlay _ d o Hp Hd) as Hap. unfold apart in Hap. simpl in Hap. rewrite He. lia.
Qed.

Lemma laid_out_stored e s l ofs bytes : laid_out s → laid_out (stored e (set_io l (write_disk ofs bytes s))).
Proof. intros [H1 H2]. unfold laid_out, stored. split; intros *; destruct p; intros; first [by eapply H1|by eapply H2]. Qed.

(** What a write may change *)
Record written_only (s s' : fat32_fs_t) : Prop := {
  wo_fat : fat s' = fat s ∧ fat2 s' = fat2 s;
  wo_block : block_size s' = block_size s;
  wo_place : ∀ c, cluster_place s' c = cluster_place s c;
  wo_disk : ∀ a, (∀ i c, chain !! i = Some c → ¬ cluster_place s c ≤ a < cluster_place s c + block_size s) →
    (∀ ofs, p = DirentAt ofs → ¬ ofs ≤ a < ofs + 32) → disk s' a = disk s a
}.

#[local] Instance written_only_preorder : PreOrder written_only.
Proof.
  split; [by constructor|]. intros s1 s2 s3 [[Hf Hf2] Hb Hp Hd] [[Hf' Hf2'] Hb' Hp' Hd']. constructor; [split; congruence|congruence| |].
  - intros c. by rewrite Hp'.
  - intros a Ha Ha'. rewrite Hd'; [by apply Hd| |done]. intros i c Hc. rewrite Hp, Hb. eauto.
Qed.

Lemma turn_written_only s i c ofs bytes e l :
  chain !! i = Some c → cluster_place s c ≤ ofs → ofs + Z.of_nat (length bytes) ≤ cluster_place s c + block_size s →
  length e = 32%nat → written_only s (stored e (set_io l (write_disk ofs bytes s))).
Proof.
  intros Hc Hlo Hhi He. constructor; [unfold stored; by destruct p..|].
  intros a Ha Ha'. pose proof (Ha i c Hc) as Hout. unfold stored. destruct p as [|o] eqn:Hp.
  - apply write_disk_out. lia.
  - etrans; [apply write_disk_out; rewrite He; by apply Ha'|]. apply write_disk_out. lia.
Qed.

Definition io_fine (s : fat32_fs_t) : Prop := Forall (λ r, 0 ≤ r) (io s).

Lemma io_status_run s : io_fine s → ∃ r, io_status s = Done (r, set_io (tail (io s)) s) ∧ 0 ≤ r ∧ Forall (λ r, 0 ≤ r) (tail (io s)).
Proof.
  unfold io_fine, io_status. intros Hio. eexists. split; [reflexivity|]. destruct Hio as [|r l Hr Hl]; simpl; [|done]. split; [lia|constructor].
Qed.

Lemma transfer_writes s place offset avail data file e' :
  io_fine s → dirent file = p → dirent_of (write_disk place (take (Z.to_nat avail) data) s) p = dirent_of s p →
  touch_dirent now (offset + avail) (dirent_of s p) = Done e' →
  transfer now false file place offset avail data s
  = Done (([], File p (cached_offset file) (cached_cluster file) true, 0),
          stored e' (set_io (tail (io s)) (write_disk place (take (Z.to_nat avail) data) s))).
Proof.
  intros Hio Hp Hd Ht. unfold transfer. run. destruct (io_status_run (write_disk place (take (Z.to_nat avail) data) s) Hio) as (r & Hr & Hr0 & _).
  rewrite (bind_done _ _ _ _ _ Hr), (proj2 (Z.ltb_ge r 0)) by lia. unfold load_dirent. run. rewrite Hp.
  replace (dirent_of (set_io _ (write_disk place _ s)) p) with (dirent_of s p) by (rewrite <- Hd; by destruct p).
  rewrite Ht. unfold store_dirent. run. done.
Qed.

Lemma rw_loop_writes fuel s content file size offset result data :
  file_rep s p chain content → laid_out s → dirent file = p → cache_ok s chain file → io_fine s →
  0 ≤ offset → 0 ≤ size → size ≤ Z.of_nat (length data) → (Z.to_nat size < fuel)%nat →
  let n := Z.max 0 (Z.min size (Z.of_nat (length content) - offset)) in
  ∃ file' s', rw_loop copy_ok now fuel false file size offset result (cached_end_of s file) data s = Done ((result + n, [], file'), s')
    ∧ file_rep s' p chain (list_inserts (Z.to_nat offset) (take (Z.to_nat n) data) content)
    ∧ dirent file' = p ∧ cache_ok s' chain file' ∧ written_only s s'.
Proof.
  revert s content file size offset result data. induction fuel as [|fuel IH];
    intros s content file size offset result data Hf Hlay Hp Hc Hio Ho Hs Hdata Hfuel n; [lia|].
  destruct (decide (0 < size ∧ offset < Z.of_nat (length content))) as [[Hpos Hin]|Hend]; last first.
  { rewrite (rw_stops s p chain content Hf) by (done || lia). replace n with 0 by lia. exists file, s. rewrite take_0, Z.add_0_r.
    by split; [|split; [|split; [|split]]]. }
  destruct (rw_turn s p chain content Hf copy_ok now Hcopy false fuel file size offset result data Hp Hc ltac:(lia) Hpos)
    as (q & c & avail & Hcq & Hq & Hav & Hend & Hrun). set (size' := Z.min size (Z.of_nat (length content) - offset)) in *.
  unfold at_cluster in Hq. set (bytes := take (Z.to_nat avail) data).
  assert (length bytes = Z.to_nat avail) as Hlb by (unfold bytes; rewrite length_take; lia).
  destruct Hnow as (d & t & cs & Hnow').
  destruct (touch_dirent_spec now d t cs (offset + avail) (dirent_of s p) Hnow') as (e' & He' & Hel & Hesz & Hest & Hedir);
    [apply Hf|rewrite (fr_size _ _ _ _ Hf); lia|].
  set (place := cluster_place s c + (offset - Z.of_nat q * block_size s)) in *.
  assert (place + Z.of_nat (length bytes) ≤ cluster_place s c + block_size s) as Hpl by lia.
  set (s1 := stored e' (set_io (tail (io s)) (write_disk place bytes s))).
  assert (block_size s1 = block_size s) as Hb1 by (unfold s1, stored; by destruct p).
  rewrite (Hrun [] true s1); [|apply transfer_writes; [done|done|apply (dirent_kept s q c); [done|done|lia|exact Hpl]|done]|done].
  pose proof (write_turn s content q c offset bytes e' (tail (io s)) Hf Hlay Hcq ltac:(lia) Ho ltac:(lia) Hel Hesz Hest Hedir) as Hf1.
  destruct (io_status_run s Hio) as (_ & _ & _ & Hio1).
  destruct (IH s1 _ (File p (Z.of_nat q * block_size s) c true) (size' - avail) (offset + avail) (result + avail)
              (drop (Z.to_nat avail) data) Hf1) as (file' & s' & Hrun' & Hf' & Hp' & Hc' & Hw');
    [by apply laid_out_stored|done|right; exists q; by rewrite Hb1|unfold io_fine, s1, stored; by destruct p|lia|lia|rewrite length_drop; lia|lia|].
  rewrite (bind_done _ _ _ _ _ Hrun'). exists file', s'. rewrite length_inserts in *.
  set (m := Z.max 0 (Z.min (size' - avail) _)) in *. assert (n = avail + m) as Hnm by lia.
  split; [unfold mret, M_ret; do 4 f_equal; lia|]. split; [|split; [done|split; [done|]]].
  - replace (take (Z.to_nat n) data) with (bytes ++ take (Z.to_nat m) (drop (Z.to_nat avail) data)).
    + rewrite list_inserts_app_l, Hlb. by replace (Z.to_nat avail + Z.to_nat offset)%nat with (Z.to_nat (offset + avail)) by lia.
    + unfold bytes. rewrite take_take_drop. f_equal. lia.
  - etrans; [|exact Hw']. apply (turn_written_only s q c); [done|lia|exact Hpl|done].
Qed.
End writing.

(** ** Files *)

Lemma internal_rw_unfold copy_ok now file size offset rd data s :
  internal_rw copy_ok now file size offset rd data s
  = rw_loop copy_ok now (S (Z.to_nat size)) rd file size offset 0 (cached_end_of s file) data s.
Proof. done. Qed.

(** C11: FAT files: reading from a file, whatever place its handle has cached and however the
    range lies across clusters, returns the bytes of the content from the
    offset on, as many as were asked for and are there; nothing changes but the
    handle's place, which stays right. *)
Theorem fat_read_correct s p chain content copy_ok now file size offset :
  file_rep s p chain content → dirent file = p → cache_ok s chain file →
  (∀ pos n, copy_ok pos n = true) → 0 ≤ offset → 0 ≤ size →
  let got := take (Z.to_nat size) (drop (Z.to_nat offset) content) in
  ∃ file', internal_rw copy_ok now file size offset true [] s = Done ((Z.of_nat (length got), got, file'), s)
    ∧ dirent file' = p ∧ cache_ok s chain file'.
Proof.
  intros Hf Hp Hc Hcopy Ho Hs got. rewrite internal_rw_unfold.
  exact (rw_loop_reads s p chain content Hf copy_ok now Hcopy (S (Z.to_nat size)) file size offset 0 Hp Hc Ho Hs ltac:(lia)).
Qed.

(** C10: FAT files: writing to a file replaces the bytes of the content that the range and
    the file have in common, and only those: the count says how many, the
    file keeps its size, its clusters and the rest of its content, and outside
    of its clusters and its directory entry the device is as it was. *)
Theorem fat_write_correct s p chain content copy_ok now file size offset data :
  file_rep s p chain content → laid_out p chain s → dirent file = p → cache_ok s chain file → io_fine s →
  (∀ pos n, copy_ok pos n = true) → (∃ d t cs, date_encode now = Done (d, t, cs)) →
  0 ≤ offset → 0 ≤ size ≤ Z.of_nat (length data) →
  let n := Z.max 0 (Z.min size (Z.of_nat (length content) - offset)) in
  ∃ file' s', internal_rw copy_ok now file size offset false data s = Done ((n, [], file'), s')
    ∧ file_rep s' p chain (list_inserts (Z.to_nat offset) (take (Z.to_nat n) data) content)
    ∧ dirent file' = p ∧ cache_ok s' chain file' ∧ written_only p chain s s'.
Proof.
  intros Hf Hlay Hp Hc Hio Hcopy Hnow Ho Hs n. rewrite internal_rw_unfold.
  exact (rw_loop_writes p chain copy_ok now Hcopy Hnow (S (Z.to_nat size)) s content file size offset 0 data
           Hf Hlay Hp Hc Hio Ho (proj1 Hs) (proj2 Hs) ltac:(lia)).
Qed.

(** Clusters that are not the same lie apart *)
Lemma cluster_place_linear s c :
  block_size s = 2 ^ (sector_shift s + block_shift s) → 0 ≤ sector_shift s → 0 ≤ block_shift s → sector_shift s + block_shift s ≤ 30 →
  0 ≤ cluster_ofs s * 2 ^ sector_shift s < 2 ^ 31 → is_cluster c →
  cluster_place s c = cluster_ofs s * 2 ^ sector_shift s + c * block_size s.
Proof.
  intros Hb Hss Hbsh Hle Hofs Hc. unfold is_cluster in Hc. unfold cluster_place.
  rewrite !Z.shiftl_mul_pow2 by lia. rewrite <- Hb.
  assert (0 < block_size s ≤ 2 ^ 30) as Hbs.
  { rewrite Hb. split; [apply Z.pow_pos_nonneg; lia|apply Z.pow_le_mono_r; lia]. }
  unfold s32, swrap. change (32 - 1) with 31. rewrite Z.mod_small by lia.
  rewrite (u64_small (c * _)) by nia. rewrite u64_small by nia. lia.
Qed.

Lemma geometry_apart s chain :
  block_size s = 2 ^ (sector_shift s + block_shift s) → 0 ≤ sector_shift s → 0 ≤ block_shift s → sector_shift s + block_shift s ≤ 30 →
  0 ≤ cluster_ofs s * 2 ^ sector_shift s < 2 ^ 31 → Forall is_cluster chain → NoDup chain →
  ∀ i j c d, chain !! i = Some c → chain !! j = Some d → i ≠ j →
  apart (cluster_place s c, block_size s) (cluster_place s d, block_size s).
Proof.
  intros Hb Hss Hbsh Hle Hofs HF Hnd i j c d Hi Hj Hij.
  assert (c ≠ d) as Hcd by (intros ->; apply Hij; by eapply NoDup_lookup).
  pose proof (proj1 (Forall_lookup _ _) HF _ _ Hi) as Hc. pose proof (proj1 (Forall_lookup _ _) HF _ _ Hj) as Hd.
  rewrite !cluster_place_linear by done. assert (0 < block_size s) by (rewrite Hb; apply Z.pow_pos_nonneg; lia).
  unfold apart. simpl. nia.
Qed.

(** ** Allocation of clusters *)

(** The table covers the clusters *)
Definition table_ok (s : fat32_fs_t) : Prop := 2 < end_cluster s ≤ 0x0FFFFFF8 ∧ end_cluster s ≤ Z.of_nat (length (fat s)).

Definition taken (c : Z) (s : fat32_fs_t) : fat32_fs_t :=
  set_fat (<[Z.to_nat c := 1]> (fat s)) (fat2 s) (write_disk (cluster_place s c) (replicate (Z.to_nat (block_size s)) 0) s).

(** The [k]th cluster after [y], back to 2 after the last *)
Definition around (en y k : Z) : Z := 2 + (y - 2 + k) mod (en - 2).
Definition norm (en x : Z) : Z := if (en <=? x) || (x <? 2) then 2 else x.

Lemma norm_range en x : 2 < en → 2 ≤ norm en x < en.
Proof. intros He. unfold norm. destruct (Z.leb_spec en x), (Z.ltb_spec x 2); simpl; lia. Qed.
Lemma around_next en y k : 2 < en → 2 ≤ y < en → around en (norm en (y + 1)) k = around en y (k + 1).
Proof.
  intros He Hy. unfold around. destruct (decide (y + 1 = en)) as [Heq|Hne].
  - replace (norm en (y + 1)) with 2 by (unfold norm; by rewrite (proj2 (Z.leb_le en (y + 1))) by lia).
    f_equal. replace (y - 2 + (k + 1)) with (k + 1 * (en - 2)) by lia. rewrite Z.mod_add by lia. f_equal.
  - replace (norm en (y + 1)) with (y + 1).
    + do 2 f_equal. lia.
    + unfold norm. by rewrite (proj2 (Z.leb_gt en (y + 1))), (proj2 (Z.ltb_ge (y + 1) 2)) by lia.
Qed.

Lemma clear_cluster_run c s : is_cluster c →
  clear_cluster c s = Done (tt, write_disk (cluster_place s c) (replicate (Z.to_nat (block_size s)) 0) s).
Proof. intros Hc. unfold clear_cluster. rewrite (bind_done _ _ _ _ _ (place_of_cluster s c Hc)). done. Qed.

Lemma near_loop_spec s n x : table_ok s →
  let en := end_cluster s in
  (∃ k, 0 ≤ k < Z.of_nat n ∧ (∀ j, 0 ≤ j < k → ∃ v, fat s !! Z.to_nat (around en (norm en x) j) = Some v ∧ is_free v = false)
     ∧ let c := around en (norm en x) k in
       near_loop n x s = Done (c, taken c s) ∧ ∃ v, fat s !! Z.to_nat c = Some v ∧ is_free v = true)
  ∨ near_loop n x s = Done (0, s)
    ∧ ∀ j, 0 ≤ j < Z.of_nat n → ∃ v, fat s !! Z.to_nat (around en (norm en x) j) = Some v ∧ is_free v = false.
Proof.
  intros Hok en. pose proof Hok as [Hen Hlen]. fold en in Hen, Hlen. revert x.
  induction n as [|n IH]; intros x; [right; split; [done|lia]|]. cbn [near_loop]. run. fold en. fold (norm en x).
  pose proof (norm_range en x (proj1 Hen)) as Hy. set (y := norm en x) in *.
  assert (around en y 0 = y) as Hy0 by (unfold around; rewrite Z.mod_small by lia; lia).
  destruct (lookup_lt_is_Some_2 (fat s) (Z.to_nat y)) as [v Hv]; [lia|].
  rewrite (bind_done _ _ _ _ _ (load_fat_run y v s ltac:(lia) Hv)). destruct (is_free v) eqn:Hfree.
  - left. exists 0. split; [lia|]. split; [lia|]. cbv zeta. rewrite Hy0.
    rewrite (bind_done _ _ _ _ _ (clear_cluster_run y s ltac:(unfold is_cluster; lia))).
    unfold store_fat. unfold mbind, M_bind. cbn [fat write_disk set_disk].
    rewrite (proj2 (Z.leb_le 0 y)), (proj2 (Z.ltb_lt y _)) by lia. cbn [andb]. split; [done|eauto].
  - assert (∀ j, around en (norm en (y + 1)) j = around en y (j + 1)) as Hnext by (intros j; apply around_next; lia).
    destruct (IH (y + 1)) as [(k & Hk & Hb & Hrun & Hfr)|[Hrun Hb]].
    + left. exists (k + 1). split; [lia|]. split.
      { intros j Hj. destruct (decide (j = 0)) as [->|]; [rewrite Hy0; eauto|].
        destruct (Hb (j - 1) ltac:(lia)) as (w & Hw & Hwf). rewrite Hnext in Hw. replace (j - 1 + 1) with j in Hw by lia. eauto. }
      rewrite Hnext in Hrun, Hfr. done.
    + right. split; [done|]. intros j Hj. destruct (decide (j = 0)) as [->|]; [rewrite Hy0; eauto|].
      destruct (Hb (j - 1) ltac:(lia)) as (w & Hw & Hwf). rewrite Hnext in Hw. replace (j - 1 + 1) with j in Hw by lia. eauto.
Qed.

(** allocate_near finds a free cluster if the volume has one, the first after the
    given cluster, around the end: it is marked in the table and cleared, and
    nothing else changes.  It returns 0, with nothing changed, exactly when
    there is none. *)
Lemma allocate_near_spec s cluster :
  table_ok s →
  let en := end_cluster s in
  let start := norm en (s32 (cluster + 1)) in
  (∃ k, 0 ≤ k ∧ let c := around en start k in
     allocate_near cluster s = Done (c, taken c s) ∧ 2 ≤ c < en
     ∧ (∃ v, fat s !! Z.to_nat c = Some v ∧ is_free v = true)
     ∧ ∀ j, 0 ≤ j < k → ∃ v, fat s !! Z.to_nat (around en start j) = Some v ∧ is_free v = false)
  ∨ allocate_near cluster s = Done (0, s) ∧ ∀ c, 2 ≤ c < en → ∃ v, fat s !! Z.to_nat c = Some v ∧ is_free v = false.
Proof.
  intros Hok en start. unfold allocate_near. run. pose proof Hok as [Hen _]. fold en in Hen |- *.
  destruct (near_loop_spec s (Z.to_nat en) (s32 (cluster + 1)) Hok) as [(k & Hk & Hb & Hrun & Hfr)|[Hrun Hb]]; fold en start in Hb, Hrun |- *.
  - left. exists k. split; [lia|]. split; [done|]. split; [|done]. unfold around.
    pose proof (Z.mod_pos_bound (start - 2 + k) (en - 2) ltac:(lia)). lia.
  - right. split; [done|]. intros c Hc. pose proof (norm_range en (s32 (cluster + 1)) (proj1 Hen)) as Hs. fold start in Hs.
    pose proof (Z.mod_pos_bound (c - start) (en - 2) ltac:(lia)) as Hm.
    destruct (Hb ((c - start) mod (en - 2)) ltac:(lia)) as (v & Hv & Hvf). exists v. split; [|done].
    replace (around en start ((c - start) mod (en - 2))) with c in Hv; [done|].
    unfold around. rewrite Z.add_mod_idemp_r by lia. rewrite Z.mod_small by lia. lia.
Qed.
