(* ===== verification/Fat32Dir.v ===== *)
(** * FAT directories: what a search finds *)

From stdpp Require Import base tactics list numbers option.
From S2P Require Import Prelude Regions Utf TimeOfDay Fat32Name Fat32 Fat32Thms.

#[local] Open Scope Z_scope.

(** ** A directory is the list of its entries, with their places *)

Abbreviation placed_entry := (Z * fat32_dir_union_t)%type.

Definition per_cluster (s : fat32_fs_t) : nat := Z.to_nat (Z.shiftr (block_size s) 5).
Definition entry_at (s : fat32_fs_t) (ofs : Z) : placed_entry := (ofs, read_disk ofs 32 s).
Definition cluster_entries (s : fat32_fs_t) (n : nat) (ofs : Z) : list placed_entry :=
  (λ k, entry_at s (ofs + 32 * Z.of_nat k)) <$> seq 0 n.
Definition dir_entries (s : fat32_fs_t) (chain : list Z) : list placed_entry :=
  chain ≫= (λ c, cluster_entries s (per_cluster s) (cluster_place s c)).

(** The search over a list: where the entry is, or the state at the end *)
Fixpoint search_list (lfn : full_lfn_t) (l : list placed_entry) (st : search_t) : Z + search_t :=
  match l with
  | [] => inr st
  | (ofs, e) :: l => match search_step lfn e st with None => inl ofs | Some st => search_list lfn l st end
  end.

Lemma search_list_app lfn l l' st :
  search_list lfn (l ++ l') st = match search_list lfn l st with inl ofs => inl ofs | inr st => search_list lfn l' st end.
Proof. revert st. induction l as [|[ofs e] l IH]; intros st; simpl; [done|]. by destruct (search_step lfn e st). Qed.

Lemma search_cluster_list n ofs lfn st s :
  search_cluster n ofs lfn st s = Done (search_list lfn (cluster_entries s n ofs) st, s).
Proof.
  revert ofs st. induction n as [|n IH]; intros ofs st; [done|]. cbn [search_cluster]. run.
  assert (cluster_entries s (S n) ofs = entry_at s ofs :: cluster_entries s n (ofs + 32)) as ->.
  { unfold cluster_entries. cbn [seq fmap list_fmap]. f_equal; [f_equal; lia|]. rewrite <- fmap_S_seq, <- list_fmap_compose.
    apply list_fmap_ext. intros i x _. simpl. f_equal. lia. }
  simpl. destruct (search_step lfn (read_disk ofs 32 s) st); [apply IH|done].
Qed.

(** The table ends the chain *)
Definition chain_ends (f : list Z) (chain : list Z) : Prop := ∃ c v, last chain = Some c ∧ f !! Z.to_nat c = Some v ∧ is_eof v = true.

Lemma search_chain_list lfn chain fuel c s st :
  chained (fat s) (c :: chain) → chain_ends (fat s) (c :: chain) → io_fine s → (length chain < fuel)%nat →
  ∃ l, search_chain fuel c lfn st s
       = Done (match search_list lfn (dir_entries s (c :: chain)) st with inl ofs => Some ofs | inr _ => None end, set_io l s).
Proof.
  revert fuel c s st. induction chain as [|d chain IH]; intros fuel c s st Hch Hend Hio Hfuel; (destruct fuel as [|fuel]; [simpl in Hfuel; lia|]).
  all: destruct (is_cluster_not_eof c (chain_cluster s _ 0 c Hch eq_refl)) as [Heof Hpos]; cbn [search_chain]; rewrite Heof.
  all: rewrite (bind_done _ _ _ _ _ (place_of_cluster s c (chain_cluster s _ 0 c Hch eq_refl))).
  all: destruct (io_status_run s Hio) as (r & Hr & Hr0 & Hio'); rewrite (bind_done _ _ _ _ _ Hr), (proj2 (Z.ltb_ge r 0)) by lia; run.
  all: set (s1 := set_io (tail (io s)) s); rewrite (bind_done _ _ _ _ _ (search_cluster_list _ _ lfn st s1)).
  all: unfold dir_entries; cbn [mbind list_bind]; fold (per_cluster s);
    change (cluster_entries s1 (per_cluster s) (cluster_place s c)) with (cluster_entries s (per_cluster s) (cluster_place s c));
    change (Z.to_nat (Z.shiftr (block_size s1) 5)) with (per_cluster s).
  - rewrite app_nil_r. change (cluster_entries s1 (per_cluster s) (cluster_place s c)) with (cluster_entries s (per_cluster s) (cluster_place s c)).
    destruct (search_list lfn (cluster_entries s (per_cluster s) (cluster_place s c)) st) as [ofs|st']; [by eexists|].
    destruct Hend as (c' & v & Hlast & Hv & Hve). simpl in Hlast. simplify_eq.
    rewrite (bind_done _ _ _ _ _ (load_fat_run c' v s1 ltac:(lia) Hv)). destruct fuel; simpl; rewrite Hve; by eexists.
  - rewrite search_list_app. change (cluster_entries s1 (per_cluster s) (cluster_place s c)) with (cluster_entries s (per_cluster s) (cluster_place s c)).
    destruct (search_list lfn (cluster_entries s (per_cluster s) (cluster_place s c)) st) as [ofs|st']; [by eexists|].
    destruct Hch as [HF Hl]. rewrite (bind_done _ _ _ _ _ (load_fat_run c d s1 ltac:(lia) (Hl 0%nat c d eq_refl eq_refl))).
    apply Forall_cons in HF as [_ HF].
    destruct (IH fuel d s1 st') as (l & ->); [|exact Hend|done|simpl in Hfuel; lia|].
    + split; [done|]. intros i a b Ha Hb. by apply (Hl (S i)).
    + by exists l.
Qed.

(** ** What counts as a match *)

(** [e] is the [i]th piece of the name *)
Definition is_piece (lfn : full_lfn_t) (i : nat) (e : fat32_dir_union_t) : Prop :=
  attr e = FAT_LONGNAME ∧ ∃ le, fragments lfn !! i = Some le ∧ ordinal le = ordinal e ∧ piece_name le = piece_name e.

(** The entries [ps] are the first pieces of the name *)
Definition are_pieces (lfn : full_lfn_t) (ps : list fat32_dir_union_t) : Prop := ∀ i e, ps !! i = Some e → is_piece lfn i e.

(** The pieces [ps] and [short] after them are the file with that name *)
Definition is_file (lfn : full_lfn_t) (ps : list fat32_dir_union_t) (short : fat32_dir_union_t) : Prop :=
  attr short ≠ 0 ∧ attr short ≠ FAT_LONGNAME ∧
  if decide (lfn_entry_count lfn = 0%nat) then ps = [] ∧ short_name short = short_name (default [] (head (fragments lfn)))
  else length ps = lfn_entry_count lfn ∧ are_pieces lfn ps ∧ ∃ e, last ps = Some e ∧ checksum e = lfn_checksum (short_name short).

(** No stray piece of the name is right before *)
Definition fresh_after (lfn : full_lfn_t) (pre : list fat32_dir_union_t) : Prop := ∀ e i, last pre = Some e → ¬ is_piece lfn i e.

(** The state of the search after the entries [done]: the last
    [match_index] of them are the first pieces *)
Definition search_inv (lfn : full_lfn_t) (done : list fat32_dir_union_t) (st : search_t) : Prop :=
  ∃ pre0 ps, done = pre0 ++ ps ∧ length ps = match_index st ∧ are_pieces lfn ps
    ∧ ∀ e, last ps = Some e → checksum e = last_checksum st.

Lemma search_inv_restart lfn l st : search_inv lfn l (Search 0 st).
Proof. exists l, []. rewrite app_nil_r. split; [done|]. split; [done|]. split; [by intros i e Hi|done]. Qed.

Lemma search_step_sound lfn pre e st :
  search_inv lfn pre st → (lfn_entry_count lfn ≤ length (fragments lfn))%nat →
  match search_step lfn e st with None => ∃ pre0 ps, pre = pre0 ++ ps ∧ is_file lfn ps e | Some st' => search_inv lfn (pre ++ [e]) st' end.
Proof.
  intros (pre0 & ps & -> & Hlen & Hps & Hlast) Hfr. unfold search_step.
  destruct (Z.eqb_spec (attr e) 0) as [?|H0]; [apply search_inv_restart|].
  destruct (Z.eqb_spec (attr e) FAT_LONGNAME) as [Hlong|Hshort]; cbn [negb].
  - case_decide as Hm; [|apply search_inv_restart]. case_bool_decide as Heq; [|apply search_inv_restart].
    exists pre0, (ps ++ [e]). split; [by rewrite app_assoc|]. split; [rewrite length_app; simpl; lia|]. split.
    + intros i e' Hi. apply lookup_app_Some in Hi as [Hi|[Hge Hi]]; [by apply Hps|].
      apply list_lookup_singleton_Some in Hi as [Hi ->]. assert (i = match_index st) as -> by lia. split; [done|].
      destruct (lookup_lt_is_Some_2 (fragments lfn) (match_index st)) as [le Hle]; [lia|]. rewrite Hle in Heq. eauto.
    + intros e' He'. rewrite last_snoc in He'. by simplify_eq.
  - case_bool_decide as Hz.
    { exists (pre0 ++ ps), []. rewrite app_nil_r. split; [done|]. destruct Hz as [Hz Hn]. repeat split; [done..|]. by rewrite decide_True. }
    case_bool_decide as Hn; [|apply search_inv_restart]. destruct Hn as (Hn0 & Hmi & Hsum).
    exists pre0, ps. split; [done|]. repeat split; [done..|]. rewrite decide_False by done.
    destruct (last ps) as [e'|] eqn:Hl; [|apply last_None in Hl as ->; simpl in Hlen; lia].
    split; [lia|]. split; [done|]. exists e'. split; [done|]. by rewrite (Hlast _ eq_refl).
Qed.

Lemma search_list_sound lfn l pre st :
  search_inv lfn pre.*2 st → (lfn_entry_count lfn ≤ length (fragments lfn))%nat →
  ∀ ofs, search_list lfn l st = inl ofs →
  ∃ pre0 ps short post, pre ++ l = pre0 ++ ps ++ (ofs, short) :: post ∧ is_file lfn ps.*2 short.
Proof.
  intros Hinv Hfr. revert pre st Hinv. induction l as [|[ofs e] l IH]; intros pre st Hinv o Ho; simpl in Ho; [done|].
  pose proof (search_step_sound lfn pre.*2 e st Hinv Hfr) as Hstep. destruct (search_step lfn e st) as [st'|].
  - rewrite cons_middle, app_assoc. apply (IH (pre ++ [(ofs, e)]) st'); [by rewrite fmap_app|done].
  - simplify_eq. destruct Hstep as (p0 & ps & Heq & Hfile).
    apply fmap_app_inv in Heq as (l1 & l2 & -> & -> & ->). exists l1, l2, e, l. by rewrite <- app_assoc.
Qed.

(** *** A file that is there is found *)

Lemma search_pieces lfn ps k st :
  (∀ i e, ps !! i = Some e → is_piece lfn (k + i) e.2) → match_index st = k → (k + length ps ≤ lfn_entry_count lfn)%nat →
  ∃ st', search_list lfn ps st = inr st' ∧ match_index st' = (k + length ps)%nat
    ∧ ∀ e, last ps = Some e → last_checksum st' = checksum e.2.
Proof.
  revert k st. induction ps as [|[ofs e] ps IH]; intros k st Hps Hk Hlen; simpl in *.
  { exists st. split; [done|]. split; [lia|done]. }
  destruct (Hps 0%nat (ofs, e) eq_refl) as (Ha & le & Hle & Ho & Hn). simpl in *. rewrite Nat.add_0_r in Hle.
  assert (search_step lfn e st = Some (Search (S k) (checksum e))) as Hstep.
  { unfold search_step. rewrite Ha. cbn. rewrite decide_True by lia. rewrite Hk, Hle. cbn. by rewrite bool_decide_true. }
  rewrite Hstep. destruct (IH (S k) (Search (S k) (checksum e))) as (st' & Hrun & Hm & Hlast); [|done|lia|].
  - intros i e' Hi. rewrite Nat.add_succ_comm. by apply (Hps (S i)).
  - exists st'. split; [done|]. split; [lia|]. intros e' He'. destruct ps as [|e2 ps]; [|by apply Hlast].
    simpl in He'. simplify_eq. simpl in Hrun. by simplify_eq.
Qed.

(** The entry with the file ends the search *)
Lemma search_step_file lfn ps short st :
  is_file lfn ps short → match_index st = length ps → (∀ e, last ps = Some e → last_checksum st = checksum e) →
  search_step lfn short st = None.
Proof.
  intros (H0 & Hl & Hfile) Hm Hsum. unfold search_step.
  destruct (Z.eqb_spec (attr short) 0), (Z.eqb_spec (attr short) FAT_LONGNAME); [done..|]. cbn [negb]. case_decide.
  - destruct Hfile as [_ Hname]. by rewrite bool_decide_true.
  - destruct Hfile as (Hlen & _ & e & He & Hc). rewrite bool_decide_false by naive_solver.
    rewrite bool_decide_true; [done|]. rewrite (Hsum e He). split; [done|]. split; [congruence|done].
Qed.

(** After an entry that is no piece the matching starts over *)
Lemma search_step_restarts lfn e st st' :
  (lfn_entry_count lfn ≤ length (fragments lfn))%nat → (∀ i, ¬ is_piece lfn i e) → search_step lfn e st = Some st' → match_index st' = 0%nat.
Proof.
  intros Hfr Hno. unfold search_step. destruct (Z.eqb_spec (attr e) 0); [by intros [= <-]|].
  destruct (Z.eqb_spec (attr e) FAT_LONGNAME) as [Hlong|]; cbn [negb].
  - case_decide; [|by intros [= <-]]. case_bool_decide as Heq; [|by intros [= <-]].
    destruct (Hno (match_index st)). split; [done|].
    destruct (lookup_lt_is_Some_2 (fragments lfn) (match_index st)) as [le Hle]; [lia|]. rewrite Hle in Heq. eauto.
  - case_bool_decide; [done|]. case_bool_decide; [done|]. by intros [= <-].
Qed.

Lemma search_fresh lfn pre st st' :
  (lfn_entry_count lfn ≤ length (fragments lfn))%nat → fresh_after lfn pre.*2 → match_index st = 0%nat →
  search_list lfn pre st = inr st' → match_index st' = 0%nat.
Proof.
  intros Hfr Hfresh H0. destruct pre as [|[ofs e] pre _] using rev_ind; [by intros [= <-]|].
  rewrite search_list_app. destruct (search_list lfn pre st) as [|st1]; [done|]. simpl.
  destruct (search_step lfn e st1) as [st2|] eqn:Hs; [|done]. intros [= <-].
  apply (search_step_restarts lfn e st1 st2 Hfr); [|done]. intros i. apply Hfresh. rewrite fmap_app. apply last_snoc.
Qed.

(** The first file of that name after entries that are not it *)
Lemma search_here lfn pre ps ofs short post st st1 :
  search_list lfn pre st = inr st1 → match_index st1 = 0%nat → is_file lfn ps.*2 short →
  search_list lfn (pre ++ ps ++ (ofs, short) :: post) st = inl ofs.
Proof.
  intros Hpre H1 Hfile. rewrite search_list_app, Hpre, search_list_app.
  assert (are_pieces lfn ps.*2 ∧ length ps ≤ lfn_entry_count lfn)%nat as [Hps Hlen].
  { destruct Hfile as (_ & _ & Hfile). case_decide.
    - destruct Hfile as [->%fmap_nil_inv _]. split; [by intros i e|simpl; lia].
    - destruct Hfile as (Hlen & ? & _). rewrite length_fmap in Hlen. split; [done|lia]. }
  destruct (search_pieces lfn ps 0 st1) as (st2 & -> & Hm & Hlast); [|done|done|].
  { intros i e Hi. apply (Hps i e.2). by rewrite list_lookup_fmap, Hi. }
  simpl. rewrite (search_step_file lfn ps.*2 short st2); [done|done|by rewrite length_fmap|].
  intros e He. rewrite fmap_last, fmap_Some in He. destruct He as (x & Hx & ->). by apply Hlast.
Qed.

Lemma search_found lfn pre ps ofs short post st :
  (lfn_entry_count lfn ≤ length (fragments lfn))%nat → fresh_after lfn pre.*2 → is_file lfn ps.*2 short → match_index st = 0%nat →
  ∃ o, search_list lfn (pre ++ ps ++ (ofs, short) :: post) st = inl o.
Proof.
  intros Hfr Hfresh Hfile H0. destruct (search_list lfn pre st) as [o|st1] eqn:Hpre; [exists o; by rewrite search_list_app, Hpre|].
  exists ofs. apply (search_here _ _ _ _ _ _ _ st1); [done|by eapply search_fresh|done].
Qed.

(** *** The name has room for its entries *)

Lemma fcbname_from_lfn_counts full lfn len full' :
  fcbname_from_lfn full lfn len = Done full' →
  length (fragments full') = length (fragments full) ∧ (lfn_entry_count full' < length (fragments full))%nat.
Proof.
  unfold fcbname_from_lfn. destruct (fragments full !! lfn_entry_count full) eqn:Hn; [|done]. apply lookup_lt_Some in Hn.
  destruct (fcb_of_lfn lfn len) as [[name fl] long]. case_match; intros [= <-]; simpl; rewrite ?length_insert; lia.
Qed.

Lemma dirents_from_name_counts name n lfn : dirents_from_name name n = Done lfn → (lfn_entry_count lfn ≤ length (fragments lfn))%nat.
Proof.
  unfold dirents_from_name, obind. destruct (lfn_loop _ _ _ _ _ _) as [[u len]|]; [|done]. destruct (pieces_loop _ _ _ _ _ _ _) as [frs|]; [|done].
  destruct (fcbname_from_lfn _ _ _) as [full|] eqn:Hf; [|done]. intros [= <-].
  destruct (fcbname_from_lfn_counts _ _ _ _ Hf) as [Hl Hc]. simpl. unfold mark_pieces. rewrite length_imap. lia.
Qed.

