(* ===== verification/Fat32Create.v ===== *)
(** * kernel/fs/fat32/fat32.cc: new directory entries

    A new name goes to a run of free entries of the directory, in one
    cluster of it.  The cluster is copied to a spare one that takes its place
    while the entries are written, and put back after; or it is a cluster
    that the directory is extended with. *)

From stdpp Require Import base tactics list numbers option.
From S2P Require Import Prelude TimeOfDay Fat32Name Fat32 Regions Utf Fat32Thms Fat32Dir.

#[local] Open Scope Z_scope.

(** A cluster number as its four bytes *)
Definition cluster_bytes (c : Z) : list Z := (λ i, Z.shiftr (u32 c) (8 * i) mod 256) <$> [0; 1; 2; 3].

Definition set_root_cluster (c : Z) (s : fat32_fs_t) : fat32_fs_t :=
  Fs (fat s) (fat2 s) (disk s) (root_dirent s) c (cluster_ofs s) (end_cluster s) (block_size s) (sector_shift s) (block_shift s)
    (fat_block_shift s) (io s).

Definition change_dirent_start (dde : dirent_ref) (start : Z) : FS Z :=
  e ← load_dirent dde;
  store_dirent dde (set_start_cluster start e);;
  match dde with
  | DirentAt _ => io_status
  | RootDirent =>
      modify (write_disk 0x2C (cluster_bytes start));;
      modify (set_root_cluster start);;
      io_status
  end.

(** The cluster [cluster] takes its place in the directory: after
    [prev_cluster], or at the start *)
Definition commit_dir (prev_cluster cluster : Z) (dde : dirent_ref) : FS Z :=
  if prev_cluster =? 0 then change_dirent_start dde cluster else link prev_cluster cluster.

(** memcpy of a whole cluster *)
Definition copy_cluster (destination source : Z) : FS unit :=
  modify (λ s, write_disk destination (read_disk source (Z.to_nat (block_size s)) s) s).

Definition transact_cluster (prev_cluster : Z) (dde : dirent_ref) (cluster : Z) : FS Z :=
  backup ← allocate_near cluster;
  if backup =? 0 then mret 0
  else
    destination ← offsetof_cluster (u64 backup);
    source ← offsetof_cluster (u64 cluster);
    copy_cluster destination source;;
    result ← io_status;
    if result <? 0 then mret result
    else
      v ← load_fat cluster;
      store_fat backup v;;
      v ← load_fat cluster;
      store_fat2 backup v;;
      result ← sync_fat_entry;
      if result <? 0 then mret result
      else
        result ← commit_dir prev_cluster backup dde;
        mret (if 0 <=? result then backup else result).

(** ** The search for free entries *)

(** What the callback of dirent_create keeps *)
Record scan_t := Scan {
  ins_point : option Z;
  result_cluster : Z;
  prev_cluster : Z;
  last_cluster : Z;
  consecutive_free : nat;
  dir_index : Z;
  ins_index : Z
}.
Definition scan_init : scan_t := Scan None 0 0 0 0 0 0.

(** The callback for the entry [e] at [ofs]; whether to go on *)
Definition scan_step (count : nat) (e : fat32_dir_union_t) (ofs cluster : Z) (new_cluster : bool) (st : scan_t) : scan_t * bool :=
  let st := if new_cluster
            then Scan None (result_cluster st) (last_cluster st) (last_cluster st) 0 (dir_index st) (ins_index st) else st in
  let st := Scan (ins_point st) (result_cluster st) (prev_cluster st) cluster (consecutive_free st) (u64 (dir_index st + 1)) (ins_index st) in
  if negb (is_dirent_free e)
  then (Scan None (result_cluster st) (prev_cluster st) (last_cluster st) 0 (dir_index st) (ins_index st), true)
  else
    let st := if decide (consecutive_free st = 0%nat)
              then Scan (Some ofs) cluster (prev_cluster st) (last_cluster st) 1 (dir_index st) (u64 (dir_index st - 1))
              else Scan (ins_point st) (result_cluster st) (prev_cluster st) (last_cluster st) (S (consecutive_free st)) (dir_index st)
                     (ins_index st) in
    (st, bool_decide (consecutive_free st < count)%nat).

(** The entries of one cluster, [n] from [ofs] on *)
Fixpoint scan_cluster (n : nat) (count : nat) (ofs cluster : Z) (new_cluster : bool) (st : scan_t) : FS (scan_t * bool) :=
  match n with
  | O => mret (st, true)
  | S n =>
      e ← gets (read_disk ofs 32);
      let '(st, more) := scan_step count e ofs cluster new_cluster st in
      if more then scan_cluster n count (ofs + 32) cluster false st else mret (st, false)
  end.

(** iterate_dir with that callback: the directory is extended at its end.
    The answer is what the callback keeps and extend_cluster. *)
Fixpoint scan_chain (fuel : nat) (count : nat) (cluster extend_cluster : Z) (st : scan_t) : FS (scan_t * Z) :=
  if is_eof cluster then mret (st, extend_cluster)
  else
    match fuel with
    | O => throw OutOfFuel
    | S fuel =>
        place ← offsetof_cluster (u64 cluster);
        r ← io_status;
        if r <? 0 then mret (st, extend_cluster)
        else
          bs ← gets block_size;
          '(st, more) ← scan_cluster (Z.to_nat (Z.shiftr bs 5)) count place cluster true st;
          if negb more then mret (st, extend_cluster)
          else
            v ← load_fat cluster;
            if is_eof v then
              clusters ← extend_fat_chain 1 cluster;
              let extend_cluster := default 0 (head clusters) in
              scan_chain fuel count extend_cluster extend_cluster st
            else scan_chain fuel count v extend_cluster st
    end.

(** ** The entries are written *)

(** The copy of the first [count] entries to [ins] *)
Definition put_dirents (ins : Z) (es : list fat32_dir_union_t) : FS unit := modify (write_disk ins (mjoin es)).

(** ins_point, dereferenced *)
Definition need_point (st : scan_t) : FS Z := match ins_point st with Some ins => mret ins | None => throw OutOfRange end.

(** The entries go to the new cluster, which the directory gets then *)
Definition create_extended (st : scan_t) (extend_cluster : Z) (dde : dirent_ref) (es : list fat32_dir_union_t) : FS bool :=
  ins ← need_point st;
  put_dirents ins es;;
  v ← load_fat extend_cluster;
  fs_assert (v =? 1);;
  r ← link extend_cluster 0x0FFFFFF8;
  if r <? 0 then mret false
  else
    r ← commit_dir (prev_cluster st) (result_cluster st) dde;
    mret (negb (r <? 0)).

(** The entries go to their cluster while a copy is in its place *)
Definition create_in_place (st : scan_t) (dde : dirent_ref) (es : list fat32_dir_union_t) : FS bool :=
  backup ← transact_cluster (prev_cluster st) dde (result_cluster st);
  ins ← need_point st;
  put_dirents ins es;;
  r ← io_status;
  if r <? 0 then mret false
  else
    r ← commit_dir (prev_cluster st) (result_cluster st) dde;
    if r <? 0 then mret false
    else
      fs_assert (negb (backup =? 0));;
      store_fat backup 0;;
      store_fat2 backup 0;;
      mret true.

(** The entry of the name, or null *)
Definition dirent_create (dde : dirent_ref) (lfn : full_lfn_t) : FS (option Z) :=
  let count := S (lfn_entry_count lfn) in
  e ← load_dirent dde;
  n ← gets (λ s, length (fat s));
  '(st, extend_cluster) ← scan_chain (S n) count (dirent_start_cluster e) 0 scan_init;
  match generate_unique_shortname lfn (ins_index st) with
  | Fault f => throw f
  | Done lfn =>
      let es := take count (fragments lfn) in
      ok ← (if extend_cluster =? 0 then create_in_place st dde es else create_extended st extend_cluster dde es);
      if negb ok then mret None
      else ins ← need_point st; mret (Some (ins + 32 * Z.of_nat (lfn_entry_count lfn)))
  end.

(** ** A new file *)

Definition FAT_ATTR_RO : Z := 1.
Definition S_IWUSR : Z := 0x80.

(** The name: what is after the last separator *)
Fixpoint last_name (path name : list Z) : list Z :=
  match path with
  | [] => name
  | c :: path => if c =? 0 then name else last_name path (if c =? 47 then path else name)
  end.

Section create.
Context (now : time_of_day_t).

(** The dates and attributes of a new entry *)
Definition new_entry (mode : Z) (e : fat32_dir_union_t) : outcome fat32_dir_union_t :=
  match date_encode now with
  | Fault f => Fault f
  | Done (d, t, cs) =>
      let e := <[0x0D%nat := cs]> (put_word 0x0E t (put_word 0x10 d e)) in
      let e := put_word 0x12 d (put_word 0x16 t (put_word 0x18 d e)) in
      Done (<[0x0B%nat := if Z.land mode S_IWUSR =? 0 then Z.lor FAT_ATTR_ARCH FAT_ATTR_RO else FAT_ATTR_ARCH]> e)
  end.

Definition create_dirent (path : list Z) (dde : dirent_ref) (mode : Z) : FS (option Z) :=
  let name := last_name path path in
  match dirents_from_name name (name_span name) with
  | Fault f => throw f
  | Done lfn =>
      let n := lfn_entry_count lfn in
      match fragments lfn !! n with
      | None => throw OutOfRange
      | Some sfn =>
          match new_entry mode sfn with
          | Fault f => throw f
          | Done sfn => dirent_create dde (FullLfn (<[n := sfn]> (fragments lfn)) n)
          end
      end
  end.

(** ** Opening a file *)

Definition ENOENT : Z := 67.
Definition EEXIST : Z := 27.
Definition EIO : Z := 37.
Definition EMFILE : Z := 55.
Definition O_CREAT : Z := 0x20.
Definition O_EXCL : Z := 0x200.

(** [handle_free]: the pool of handles has one *)
Definition create_handle (handle_free : bool) (path : list Z) (flags mode : Z) : FS (file_handle_t + Z) :=
  '(fde, dde) ← lookup_dirent path;
  found ←
    (if Z.land flags O_CREAT =? 0
     then mret match fde with Some p => inl p | None => inr ENOENT end
     else if negb (Z.land flags O_EXCL =? 0) && bool_decide (is_Some fde) then mret (inr EEXIST)
     else match fde with
          | Some p => mret (inl p)
          | None =>
              p ← create_dirent path dde mode;
              mret match p with Some ofs => inl (DirentAt ofs) | None => inr EIO end
          end);
  match found with
  | inr err => mret (inr err)
  | inl p =>
      if negb handle_free then mret (inr EMFILE)
      else
        e ← load_dirent p;
        mret (inl (File p 0 (dirent_start_cluster e) false))
  end.
End create.

(** ** The table in parts, and where new entries go

    Chains of clusters as the table links them, the bytes of a cluster, and
    the search for free entries: it ends in a cluster of the directory or in
    one that is added to it. *)

(** ** Chains, in parts *)

(** The clusters of [l] are linked, and the last one holds [v] *)
Fixpoint chain_to (f : list Z) (l : list Z) (v : Z) : Prop :=
  match l with
  | [] => True
  | c :: l => f !! Z.to_nat c = Some (match l with [] => v | d :: _ => d end) ∧ chain_to f l v
  end.

Lemma chain_to_app f l c l' v : chain_to f (l ++ c :: l') v ↔ chain_to f l c ∧ chain_to f (c :: l') v.
Proof.
  induction l as [|x l IH]; [simpl; tauto|]. destruct l as [|y l]; [simpl; tauto|].
  cbn [app chain_to] in *. rewrite IH. tauto.
Qed.

Lemma chain_to_ext f f' l v : (∀ c, c ∈ l → f' !! Z.to_nat c = f !! Z.to_nat c) → chain_to f l v → chain_to f' l v.
Proof.
  induction l as [|c l IH]; [done|]. intros Heq [Hc Hl]. split; [rewrite Heq; [done|left]|].
  apply IH; [|done]. intros d Hd. apply Heq. by right.
Qed.

Lemma chain_to_chained f l v : Forall is_cluster l → chain_to f l v → chained f l.
Proof.
  intros HF Hl. split; [done|]. clear HF. induction l as [|c l IH]; [done|]. destruct Hl as [Hc Hl]. intros [|i] x y Hx Hy; simpl in *.
  - destruct l as [|d l]; simpl in *; by simplify_eq.
  - by apply (IH Hl i).
Qed.

Lemma chained_chain_to f l : chained f l → chain_ends f l → ∃ v, chain_to f l v ∧ is_eof v = true.
Proof.
  intros [_ Hl] (c & v & Hlast & Hv & Heof). exists v. split; [|done]. clear Heof. revert c Hlast Hv. induction l as [|x l IH]; [done|].
  intros c Hlast Hv. destruct l as [|y l]; [simpl in *; simplify_eq; done|]. split; [by apply (Hl 0%nat)|].
  apply (IH ltac:(intros i; apply (Hl (S i))) c); done.
Qed.

Lemma chain_to_ends f l v : l ≠ [] → chain_to f l v → is_eof v = true → chain_ends f l.
Proof.
  intros Hne Hl Heof. destruct l as [|c l _] using rev_ind; [done|]. apply chain_to_app in Hl as [_ [Hc _]].
  exists c, v. by rewrite last_snoc.
Qed.

(** ** The bytes of clusters *)

Definition cluster_data (s : fat32_fs_t) (c : Z) : list Z := read_disk (cluster_place s c) (Z.to_nat (block_size s)) s.

Lemma read_disk_ext ofs n s s' : (∀ a, ofs ≤ a < ofs + Z.of_nat n → disk s' a = disk s a) → read_disk ofs n s' = read_disk ofs n s.
Proof. intros Heq. apply list_fmap_ext. intros i x [-> Hi]%lookup_seq. apply Heq. lia. Qed.

Lemma read_disk_lookup ofs n s i : (i < n)%nat → read_disk ofs n s !! i = Some (disk s (ofs + Z.of_nat i)).
Proof. intros Hi. unfold read_disk. by rewrite list_lookup_fmap, lookup_seq_lt. Qed.

Lemma read_disk_written ofs n s k bytes :
  (k + length bytes ≤ n)%nat → read_disk ofs n (write_disk (ofs + Z.of_nat k) bytes s) = list_inserts k bytes (read_disk ofs n s).
Proof.
  intros Hk. apply list_eq. intros i. destruct (decide (i < n)%nat) as [Hi|Hi].
  2: { rewrite !lookup_ge_None_2; [done|rewrite length_inserts, read_disk_length; lia|rewrite read_disk_length; lia]. }
  rewrite read_disk_lookup by done. destruct (decide (k ≤ i < k + length bytes)%nat) as [Hin|Hout].
  - destruct (lookup_lt_is_Some_2 bytes (i - k)) as [b Hb]; [lia|]. rewrite list_lookup_inserts by (rewrite ?read_disk_length; lia).
    rewrite Hb. f_equal. replace (ofs + Z.of_nat i) with (ofs + Z.of_nat k + Z.of_nat (i - k)) by lia. by apply write_disk_in.
  - rewrite write_disk_out by lia.
    destruct (decide (i < k)%nat); [rewrite list_lookup_inserts_lt by lia|rewrite list_lookup_inserts_ge by lia]; by rewrite read_disk_lookup.
Qed.

Lemma read_disk_all ofs n s bytes : length bytes = n → read_disk ofs n (write_disk ofs bytes s) = bytes.
Proof.
  intros Hn. pose proof (read_disk_written ofs n s 0 bytes) as H. rewrite Z.add_0_r in H. rewrite H by lia.
  apply list_eq. intros i. destruct (decide (i < n)%nat).
  - rewrite list_lookup_inserts by (rewrite ?read_disk_length; lia). by rewrite Nat.sub_0_r.
  - rewrite !lookup_ge_None_2; [done|lia|rewrite length_inserts, read_disk_length; lia].
Qed.

(** ** A directory *)

(** What no operation changes *)
Record geometry (s : fat32_fs_t) : Prop := {
  ge_block : block_size s = 2 ^ (sector_shift s + block_shift s);
  ge_shift : 0 ≤ sector_shift s ∧ 0 ≤ block_shift s ∧ 5 ≤ sector_shift s + block_shift s ≤ 30;
  ge_ofs : 0 ≤ cluster_ofs s * 2 ^ sector_shift s < 2 ^ 31
}.

(** The geometry is in fields that are not written *)
Ltac same_geometry := match goal with H : geometry _ |- geometry _ => by destruct H; constructor end.

Lemma geometry_clusters s c d : geometry s → is_cluster c → is_cluster d → c ≠ d →
  apart (cluster_place s c, block_size s) (cluster_place s d, block_size s).
Proof.
  intros [Hb (? & ? & ?) Ho] Hc Hd Hne. rewrite !cluster_place_linear by (done || lia).
  assert (0 < block_size s) by (rewrite Hb; apply Z.pow_pos_nonneg; lia). unfold apart. simpl. nia.
Qed.

Lemma geometry_block s : geometry s → 0 < block_size s ∧ block_size s = 32 * Z.of_nat (per_cluster s).
Proof.
  intros [Hb (? & ? & ?) _]. unfold per_cluster. rewrite Z.shiftr_div_pow2 by lia.
  assert (block_size s = 32 * 2 ^ (sector_shift s + block_shift s - 5)) as ->.
  { rewrite Hb. change 32 with (2 ^ 5). rewrite <- Z.pow_add_r by lia. f_equal. lia. }
  pose proof (Z.pow_pos_nonneg 2 (sector_shift s + block_shift s - 5)). rewrite (Z.mul_comm 32), Z.div_mul by lia. lia.
Qed.

Definition is_free_cluster (s : fat32_fs_t) (c : Z) : Prop := 2 ≤ c < end_cluster s ∧ ∃ v, fat s !! Z.to_nat c = Some v ∧ is_free v = true.

(** The entry [dde] is not in the cluster [c] *)
Definition entry_apart (s : fat32_fs_t) (dde : dirent_ref) (c : Z) : Prop :=
  match dde with
  | RootDirent => 0x30 ≤ cluster_place s c
  | DirentAt ofs => apart (ofs, 32) (cluster_place s c, block_size s)
  end.

(** [dde] leads to the directory with these bytes *)
Record dir_is (s : fat32_fs_t) (dde : dirent_ref) (chain : list Z) (bytes : list Z) : Prop := {
  di_start : head chain = Some (dirent_start_cluster (dirent_of s dde));
  di_chain : chained (fat s) chain;
  di_ends : chain_ends (fat s) chain;
  di_bytes : chain ≫= cluster_data s = bytes
}.

Lemma allocate_near_free s cluster :
  table_ok s → (∃ c, is_free_cluster s c) → ∃ c, allocate_near cluster s = Done (c, taken c s) ∧ is_free_cluster s c.
Proof.
  intros Hok (c & Hc & v & Hv & Hfree). destruct (allocate_near_spec s cluster Hok) as [(k & _ & Hrun & Hr & Hf & _)|[_ Hno]].
  - eexists. split; [exact Hrun|]. by split.
  - destruct (Hno c Hc) as (w & Hw & Hwf). congruence.
Qed.

(** ** The search for free entries *)

Section scan.
Context (s : fat32_fs_t) (count : nat) (cl pv : Z).
Hypothesis Hcount : (0 < count)%nat.
Let place : Z := cluster_place s cl.

Definition free_entry (i : nat) : Prop := is_dirent_free (read_disk (place + 32 * Z.of_nat i) 32 s) = true.

(** There are [count] free entries from [j] on, and they were found *)
Definition run_at (n j : nat) (st : scan_t) : Prop :=
  (j + count ≤ n)%nat ∧ ins_point st = Some (place + 32 * Z.of_nat j) ∧ result_cluster st = cl ∧ prev_cluster st = pv
  ∧ (∀ m, (j ≤ m < j + count)%nat → free_entry m) ∧ (j = 0%nat ∨ ¬ free_entry (j - 1)).

(** After [i] entries: the last of them are free *)
Record scan_inv (i : nat) (st : scan_t) : Prop := {
  si_prev : prev_cluster st = pv;
  si_few : (consecutive_free st < count)%nat;
  si_old : (consecutive_free st ≤ i)%nat;
  si_ins : (0 < consecutive_free st)%nat → ins_point st = Some (place + 32 * Z.of_nat (i - consecutive_free st)) ∧ result_cluster st = cl;
  si_free : ∀ m, (i - consecutive_free st ≤ m < i)%nat → free_entry m;
  si_max : consecutive_free st = i ∨ ¬ free_entry (i - consecutive_free st - 1)
}.

Lemma scan_step_spec i st :
  scan_inv i st →
  let '(st', more) := scan_step count (read_disk (place + 32 * Z.of_nat i) 32 s) (place + 32 * Z.of_nat i) cl false st in
  last_cluster st' = cl ∧ if more then scan_inv (S i) st' else ∃ j, run_at (S i) j st'.
Proof.
  intros [Hp Hf Ho Hi Hfree Hmax]. unfold scan_step. destruct (is_dirent_free _) eqn:He; cbn [negb].
  2: { split; [done|]. constructor; simpl; [done|lia|lia|lia|lia|]. right. unfold free_entry. replace (i - 0)%nat with i by lia. congruence. }
  set (k := consecutive_free st) in *.
  match goal with |- context [if decide (?k' = 0%nat) then ?A else ?B] => set (st' := if decide (k' = 0%nat) then A else B) end.
  assert (consecutive_free st' = S k ∧ last_cluster st' = cl ∧ prev_cluster st' = pv ∧ result_cluster st' = cl
          ∧ ins_point st' = Some (place + 32 * Z.of_nat (i - k))) as (Hk & Hl & Hp' & Hr & Hins).
  { unfold st'. cbn [consecutive_free]. fold k. case_decide as Hk0; cbn.
    - rewrite Hk0, Nat.sub_0_r. done.
    - destruct (Hi ltac:(lia)) as [? ?]. done. }
  assert (∀ m, (i - k ≤ m < S i)%nat → free_entry m) as Hfree'.
  { intros m Hm. destruct (decide (m = i)) as [->|]; [done|]. apply Hfree. lia. }
  split; [done|]. rewrite Hk. case_bool_decide.
  - constructor; rewrite ?Hk; [done|lia|lia| |by intros m Hm; apply Hfree'; lia|].
    + intros _. by replace (S i - S k)%nat with (i - k)%nat by lia.
    + destruct Hmax as [->|Hmax]; [by left|right]. by replace (S i - S k - 1)%nat with (i - k - 1)%nat by lia.
  - exists (i - k)%nat. split; [lia|]. split; [done|]. split; [done|]. split; [done|].
    split; [intros m Hm; apply Hfree'; lia|]. destruct Hmax as [->|Hmax]; [left; lia|by right].
Qed.

Lemma scan_cluster_spec n i st :
  scan_inv i st →
  ∃ st' (more : bool), scan_cluster n count (place + 32 * Z.of_nat i) cl false st s = Done ((st', more), s)
    ∧ ((0 < n)%nat → last_cluster st' = cl) ∧ if more then scan_inv (i + n) st' else ∃ j, run_at (i + n) j st'.
Proof.
  revert i st. induction n as [|n IH]; intros i st Hinv.
  { exists st, true. rewrite Nat.add_0_r. split; [done|]. split; [lia|done]. }
  cbn [scan_cluster]. run. pose proof (scan_step_spec i st Hinv) as Hstep.
  destruct (scan_step count _ _ cl false st) as [st1 [|]] eqn:Hs; destruct Hstep as [Hl Hstep].
  - destruct (IH (S i) st1 Hstep) as (st' & more & Hrun & Hl' & Hend).
    replace (place + 32 * Z.of_nat i + 32) with (place + 32 * Z.of_nat (S i)) by lia. rewrite Hrun.
    exists st', more. split; [done|]. rewrite <- Nat.add_succ_comm. split; [|done]. intros _.
    destruct n; [|apply Hl'; lia]. change (Done ((st1, true), s) = Done ((st', more), s)) in Hrun. by simplify_eq.
  - exists st1, false. split; [done|]. split; [done|]. destruct Hstep as (j & Hj & Hrest). exists j. split; [lia|done].
Qed.

(** The first entry of a cluster starts over *)
Definition enter (st : scan_t) : scan_t :=
  Scan None (result_cluster st) (last_cluster st) (last_cluster st) 0 (dir_index st) (ins_index st).

Lemma scan_cluster_enter n st :
  last_cluster st = pv → (0 < n)%nat →
  ∃ st' (more : bool), scan_cluster n count place cl true st s = Done ((st', more), s)
    ∧ last_cluster st' = cl ∧ if more then scan_inv n st' else ∃ j, run_at n j st'.
Proof.
  intros Hpv Hn. destruct (scan_cluster_spec n 0 (enter st)) as (st' & more & Hrun & Hl & Hend).
  - constructor; simpl; [done|lia|lia|lia|lia|by left].
  - exists st', more. split; [|by auto]. rewrite Z.add_0_r in Hrun. rewrite <- Hrun. destruct n; [lia|done].
Qed.

(** In a cluster of free entries they are found *)
Lemma scan_inv_full n st : scan_inv n st → (∀ m, (m < n)%nat → free_entry m) → (n < count)%nat.
Proof. intros [_ Hf Ho _ _ [Heq|Hmax]] Hall; [lia|]. destruct (decide (consecutive_free st = n)); [lia|]. destruct Hmax. apply Hall. lia. Qed.

End scan.

(** The answers of the device are fine as long as the search goes on *)
Definition io_fine_for (n : nat) (s : fat32_fs_t) : Prop := Forall (λ r, 0 ≤ r) (take n (io s)).

Lemma io_step n s : io_fine_for (S n) s → ∃ r, io_status s = Done (r, set_io (tail (io s)) s) ∧ 0 ≤ r ∧ io_fine_for n (set_io (tail (io s)) s).
Proof.
  unfold io_fine_for, io_status. intros Hio. eexists. split; [reflexivity|]. simpl. destruct (io s) as [|r l]; simpl in *; [by destruct n|].
  by apply Forall_cons in Hio.
Qed.

Lemma taken_data s c : cluster_data (taken c s) c = replicate (Z.to_nat (block_size s)) 0.
Proof. unfold cluster_data. apply read_disk_all. apply length_replicate. Qed.

(** An entry is a part of its cluster *)
Lemma entry_in_cluster s c i : block_size s = 32 * Z.of_nat (per_cluster s) → (i < per_cluster s)%nat →
  read_disk (cluster_place s c + 32 * Z.of_nat i) 32 s = take 32 (drop (32 * i) (cluster_data s c)).
Proof.
  intros Hbs Hi. unfold cluster_data. apply list_eq. intros k.
  destruct (decide (k < 32)%nat).
  - rewrite lookup_take_lt, lookup_drop, !read_disk_lookup by lia. do 2 f_equal. lia.
  - rewrite !lookup_ge_None_2; [done|rewrite length_take; lia|rewrite read_disk_length; lia].
Qed.

Lemma taken_free s c m : geometry s → (m < per_cluster s)%nat → free_entry (taken c s) c m.
Proof.
  intros Hg Hm. destruct (geometry_block s Hg) as [_ Hbs]. unfold free_entry.
  change (cluster_place (taken c s) c) with (cluster_place s c).
  pose proof (entry_in_cluster (taken c s) c m) as He. change (cluster_place (taken c s) c) with (cluster_place s c) in He.
  rewrite He by done. rewrite taken_data. unfold is_dirent_free, byte_at.
  rewrite lookup_take_lt, lookup_drop, lookup_replicate_2 by lia. done.
Qed.

(** One cluster of the search: what is found there, or on to the next *)
Lemma scan_chain_step fuel count c ext st s n :
  geometry s → is_cluster c → (0 < count)%nat → io_fine_for (S n) s →
  ∃ st' (more : bool) l, last_cluster st' = c ∧ io_fine_for n (set_io l s) ∧ (io_fine s → io_fine (set_io l s))
    ∧ (if more then scan_inv s count c (last_cluster st) (per_cluster s) st' else ∃ j, run_at s count c (last_cluster st) (per_cluster s) j st')
    ∧ scan_chain (S fuel) count c ext st s
      = ((if negb more then mret (st', ext)
         else v ← load_fat c;
              if is_eof v then
                clusters ← extend_fat_chain 1 c;
                scan_chain fuel count (default 0 (head clusters)) (default 0 (head clusters)) st'
              else scan_chain fuel count v ext st') : FS (scan_t * Z)) (set_io l s).
Proof.
  intros Hg Hc Hcount Hio. destruct (geometry_block s Hg) as [Hpos Hbs].
  destruct (is_cluster_not_eof c Hc) as [Heof _]. cbn [scan_chain]. rewrite Heof.
  rewrite (bind_done _ _ _ _ _ (place_of_cluster s c Hc)).
  destruct (io_step n s Hio) as (r & Hr & Hr0 & Hio'). rewrite (bind_done _ _ _ _ _ Hr), (proj2 (Z.ltb_ge r 0)) by lia. run.
  destruct (scan_cluster_enter (set_io (tail (io s)) s) count c (last_cluster st) Hcount (per_cluster s) st eq_refl) as (st' & more & Hrun & Hl & Hend); [lia|].
  exists st', more, (tail (io s)). split; [done|]. split; [done|]. split; [unfold io_fine; intros Hf; simpl; by destruct Hf|]. split; [destruct more; [by destruct Hend; constructor|done]|].
  fold (per_cluster s). change (Z.to_nat (Z.shiftr (block_size (set_io (tail (io s)) s)) 5)) with (per_cluster s).
  by rewrite (bind_done _ _ _ _ _ Hrun).
Qed.

(** The search ends: with a run of free entries in a cluster of the
    directory, or in one that was added to it. *)
Lemma scan_chain_spec count B fuel A c st s v :
  geometry s → table_ok s → (∃ d, is_free_cluster s d) → (0 < count ≤ per_cluster s)%nat →
  Forall is_cluster (c :: B) → chain_to (fat s) (c :: B) v → is_eof v = true →
  io_fine_for (S (S (length B))) s → (S (length B) < fuel)%nat → last_cluster st = default 0 (last A) →
  ∃ st' l, (io_fine s → Forall (λ r, 0 ≤ r) l) ∧ (
    (∃ A' cl B' j, A ++ c :: B = A' ++ cl :: B' ∧ run_at s count cl (default 0 (last A')) (per_cluster s) j st'
       ∧ scan_chain fuel count c 0 st s = Done ((st', 0), set_io l s))
    ∨ (∃ new, is_free_cluster s new ∧ run_at (taken new s) count new (default 0 (last (A ++ c :: B))) (per_cluster s) 0 st'
         ∧ scan_chain fuel count c 0 st s = Done ((st', new), set_io l (taken new s)))).
Proof.
  revert fuel A c st s. induction B as [|d B IH]; intros fuel A c st s Hg Ht Hfr Hcount HF Hch Heof Hio Hfuel Hlast.
  all: apply Forall_cons in HF as [Hc HF]; destruct fuel as [|fuel]; [lia|].
  all: destruct (scan_chain_step fuel count c 0 st s _ Hg Hc (proj1 Hcount) Hio) as (st1 & more & l & Hl & Hio' & Hfi & Hend & ->); rewrite Hlast in Hend.
  all: destruct more; cbn [negb]; [|destruct Hend as (j & Hj); exists st1, l; split; [exact Hfi|]; left; by eexists A, c, _, j].
  all: destruct (is_cluster_not_eof c Hc) as [_ Hpos]; destruct Hch as [Hv Hch];
    rewrite (bind_done _ _ _ _ _ (load_fat_run c _ (set_io l s) ltac:(lia) Hv)).
  - rewrite Heof. cbn [extend_fat_chain].
    destruct (allocate_near_free (set_io l s) c) as (new & Hrun & Hnew); [done..|].
    pose proof (Ht) as [Hen _]. assert (is_cluster new) as Hcl by (destruct Hnew as [Hn _]; unfold is_cluster; simpl in Hn; lia).
    rewrite bind_assoc, (bind_done _ _ _ _ _ Hrun). run. cbn [default head from_option hd_error option_map].
    destruct fuel as [|fuel]; [simpl in Hfuel; lia|]. set (s1 := taken new (set_io l s)) in *.
    assert (geometry s1) as Hg1 by same_geometry.
    destruct (scan_chain_step fuel count new new st1 s1 0 Hg1 Hcl (proj1 Hcount) Hio') as (st2 & more & l2 & Hl2 & _ & Hfi2 & Hend2 & Hrun2).
    exists st2, l2. split; [intros H; exact (Hfi2 (Hfi H))|]. right. destruct more; cbn [negb] in Hrun2.
    + pose proof (scan_inv_full _ _ _ _ (proj1 Hcount) _ _ Hend2) as Hno. destruct Hcount as [_ Hcount]. exfalso.
      enough (per_cluster s < count)%nat by lia. apply Hno. intros m Hm. apply (taken_free (set_io l s)); [same_geometry|done].
    + destruct Hend2 as (j & Hj). exists new. split; [done|]. rewrite Hl in Hj. rewrite last_snoc. split; [|exact Hrun2].
      assert (j = 0%nat) as ->; [|exact Hj]. destruct Hj as (Hjn & _ & _ & _ & _ & [?|Hno]); [done|]. exfalso. apply Hno.
      apply (taken_free (set_io l s)); [same_geometry|]. change (per_cluster s1) with (per_cluster s) in Hjn. change (per_cluster (set_io l s)) with (per_cluster s). lia.
  - assert (is_cluster d) as Hd by by apply Forall_cons in HF as [? _].
    rewrite (proj1 (is_cluster_not_eof d Hd)).
    destruct (IH fuel (A ++ [c]) d st1 (set_io l s)) as (st' & l' & Hfi' & Hres); [same_geometry|done..| | |].
    + simpl in Hfuel. lia.
    + by rewrite last_snoc.
    + rewrite <- app_assoc in Hres. exists st', l'. split; [intros H; exact (Hfi' (Hfi H))|exact Hres].
Qed.
