(* ===== verification/Fat32Atomic.v ===== *)
(** * FAT directories: a new entry is written or it is not

    Whatever the device answers while the entries of a new name are
    written, the directory that its entry leads to is the one from before or
    the one with the new entries; and when all goes well it is the latter,
    and a search for the name finds it. *)

From stdpp Require Import base tactics list numbers option sets.
From S2P Require Import Prelude Regions Utf TimeOfDay Fat32Name Fat32 Fat32Thms Fat32Dir Fat32Create.

#[local] Open Scope Z_scope.

(** ** Steps that always answer *)

Lemma io_head_fine l : Forall (λ r, 0 ≤ r) l → 0 ≤ default 0 (head l) ∧ Forall (λ r, 0 ≤ r) (tail l).
Proof. intros [|r l' Hr Hl]; simpl; [split; [lia|constructor]|done]. Qed.

Lemma sync_fat_entry_run s :
  ∃ r l, sync_fat_entry s = Done (r, set_io l s) ∧ (io_fine s → 0 ≤ r ∧ Forall (λ r, 0 ≤ r) l).
Proof.
  unfold sync_fat_entry, io_fine. rewrite (bind_done _ _ _ _ _ (eq_refl : io_status s = Done (default 0 (head (io s)), set_io (tail (io s)) s))).
  case_match eqn:Hr; (eexists _, _; split; [reflexivity|]); intros [H0 Hl]%io_head_fine; [by apply io_head_fine|].
  apply Z.leb_gt in Hr. lia.
Qed.

Lemma store_fat_run c v s : 0 ≤ c < Z.of_nat (length (fat s)) → store_fat c v s = Done (tt, set_fat (<[Z.to_nat c := v]> (fat s)) (fat2 s) s).
Proof. intros Hc. unfold store_fat. by rewrite (proj2 (Z.leb_le 0 c)), (proj2 (Z.ltb_lt c _)) by lia. Qed.
Lemma store_fat2_run c v s : 0 ≤ c < Z.of_nat (length (fat2 s)) → store_fat2 c v s = Done (tt, set_fat (fat s) (<[Z.to_nat c := v]> (fat2 s)) s).
Proof. intros Hc. unfold store_fat2. by rewrite (proj2 (Z.leb_le 0 c)), (proj2 (Z.ltb_lt c _)) by lia. Qed.

(** Both tables *)
Definition linked (c v : Z) (s : fat32_fs_t) : fat32_fs_t := set_fat (<[Z.to_nat c := v]> (fat s)) (<[Z.to_nat c := v]> (fat2 s)) s.

Lemma link_run c v s : 0 ≤ c < Z.of_nat (length (fat s)) → length (fat2 s) = length (fat s) →
  ∃ r l, link c v s = Done (r, set_io l (linked c v s)) ∧ (io_fine s → 0 ≤ r ∧ Forall (λ r, 0 ≤ r) l).
Proof.
  intros Hc H2. unfold link. rewrite (bind_done _ _ _ _ _ (store_fat_run c v s Hc)).
  rewrite (bind_done _ _ _ _ _ (store_fat2_run c v (set_fat (<[Z.to_nat c := v]> (fat s)) (fat2 s) s) ltac:(simpl; lia))). apply (sync_fat_entry_run (linked c v s)).
Qed.

(** The cluster after [prev], or at the start of [dde], is [c] now *)
Definition relinked (prev c : Z) (dde : dirent_ref) (s : fat32_fs_t) : fat32_fs_t :=
  if prev =? 0 then
    let s' := stored dde (set_start_cluster c (dirent_of s dde)) s in
    match dde with DirentAt _ => s' | RootDirent => set_root_cluster c (write_disk 0x2C (cluster_bytes c) s') end
  else linked prev c s.

Lemma commit_dir_run prev c dde s :
  0 ≤ prev < Z.of_nat (length (fat s)) → length (fat2 s) = length (fat s) →
  ∃ r l, commit_dir prev c dde s = Done (r, set_io l (relinked prev c dde s)) ∧ (io_fine s → 0 ≤ r ∧ Forall (λ r, 0 ≤ r) l).
Proof.
  intros Hp H2. unfold commit_dir, relinked. destruct (Z.eqb_spec prev 0); [|by apply link_run].
  unfold change_dirent_start, load_dirent, store_dirent. run. unfold stored. destruct dde as [|ofs]; run.
  all: eexists _, _; (split; [reflexivity|]); apply io_head_fine.
Qed.

Lemma dirent_of_ext t t' d :
  root_dirent t' = root_dirent t → (∀ ofs a, d = DirentAt ofs → ofs ≤ a < ofs + 32 → disk t' a = disk t a) → dirent_of t' d = dirent_of t d.
Proof. intros Hr Hd. destruct d as [|ofs]; [done|]. apply read_disk_ext. intros a Ha. by apply (Hd ofs). Qed.

Lemma relinked_disk prev c d t a :
  length (dirent_of t d) = 32%nat → (∀ ofs, d = DirentAt ofs → ¬ ofs ≤ a < ofs + 32) → (d = RootDirent → ¬ 0x2C ≤ a < 0x30) →
  disk (relinked prev c d t) a = disk t a.
Proof.
  intros Hl Ho Hr. unfold relinked. case_match; [|done]. unfold stored. destruct d as [|ofs].
  - change (disk (write_disk 0x2C (cluster_bytes c) (set_root (set_start_cluster c (dirent_of t RootDirent)) t)) a = disk t a).
    rewrite write_disk_out; [done|]. unfold cluster_bytes. rewrite length_fmap. simpl. specialize (Hr eq_refl). lia.
  - apply write_disk_out. unfold set_start_cluster. rewrite !length_put_word, Hl. specialize (Ho ofs eq_refl). lia.
Qed.

Lemma relinked_shape prev c d t :
  (∀ x, cluster_place (relinked prev c d t) x = cluster_place t x) ∧ block_size (relinked prev c d t) = block_size t
  ∧ (prev = 0 → fat (relinked prev c d t) = fat t ∧ fat2 (relinked prev c d t) = fat2 t) ∧ (prev ≠ 0 → relinked prev c d t = linked prev c t).
Proof. unfold relinked, stored. destruct (Z.eqb_spec prev 0); [|done]. by destruct d. Qed.

Lemma relinked_entry c d t : length (dirent_of t d) = 32%nat → dirent_of (relinked 0 c d t) d = set_start_cluster c (dirent_of t d).
Proof.
  intros Hl. unfold relinked. simpl.
  assert (length (set_start_cluster c (dirent_of t d)) = 32%nat) as Hl' by by (unfold set_start_cluster; rewrite !length_put_word).
  destruct d; [done|]. by apply (dirent_of_stored (DirentAt _)).
Qed.

(** The layout and the size of the table stay *)
Definition same_layout (s s' : fat32_fs_t) : Prop :=
  (∀ c, cluster_place s' c = cluster_place s c) ∧ block_size s' = block_size s ∧ length (fat s') = length (fat s).

(** The last of a part of a chain is linked to another cluster *)
Lemma chain_to_relink f f' l c y x :
  chain_to f l c → NoDup l → (l ≠ [] → last l = Some y ∧ f' !! Z.to_nat y = Some x) →
  (∀ d, d ∈ l → d ≠ y → f' !! Z.to_nat d = f !! Z.to_nat d) → chain_to f' l x.
Proof.
  intros Hl Hnd Hy Heq. destruct l as [|z l _] using rev_ind; [done|]. destruct Hy as [Hlast Hyx]; [by destruct l|].
  rewrite last_snoc in Hlast. simplify_eq. apply chain_to_app in Hl as [Hl _]. apply chain_to_app. split; [|by split].
  apply NoDup_app in Hnd as (_ & Hd & _). apply (chain_to_ext f); [|done]. intros d Hdl. apply Heq; [set_solver|].
  intros ->. apply (Hd y Hdl). left.
Qed.

Lemma list_inserts_front {X} i (es l l' : list X) : (i + length es ≤ length l)%nat → list_inserts i es (l ++ l') = list_inserts i es l ++ l'.
Proof.
  revert i. induction es as [|e es IH]; intros i Hi; [done|]. simpl in *. rewrite IH by lia. apply insert_app_l. rewrite length_inserts. lia.
Qed.

(** ** The states on the way *)

Section world.
Context (s0 : fat32_fs_t) (dde : dirent_ref) (A B : list Z) (cl b : Z).
Let prev : Z := default 0 (last A).
Let bs : Z := block_size s0.

Hypothesis Hgeo : geometry s0.
Hypothesis Hcl : Forall is_cluster (A ++ cl :: B).
Hypothesis Hnd : NoDup (A ++ cl :: B).
Hypothesis Hb : is_cluster b.
Hypothesis Hbn : b ∉ A ++ cl :: B.
Hypothesis Hin : ∀ c, c ∈ b :: A ++ cl :: B → (Z.to_nat c < length (fat s0))%nat.
Hypothesis Hap : ∀ c, c ∈ b :: A ++ cl :: B → entry_apart s0 dde c.
Hypothesis Hstart : head (A ++ cl :: B) = Some (dirent_start_cluster (dirent_of s0 dde)).

(** What does not change: the rest of the table and of the clusters *)
Record world (t : fat32_fs_t) : Prop := {
  w_place : ∀ c, cluster_place t c = cluster_place s0 c;
  w_block : block_size t = block_size s0;
  w_len : length (fat t) = length (fat s0) ∧ length (fat2 t) = length (fat s0);
  w_fat : ∀ c, 2 ≤ c → c ≠ prev → c ≠ b → fat t !! Z.to_nat c = fat s0 !! Z.to_nat c;
  w_data : ∀ c, is_cluster c → c ≠ cl → c ≠ b → entry_apart s0 dde c → cluster_data t c = cluster_data s0 c;
  w_start : prev ≠ 0 → dirent_start_cluster (dirent_of t dde) = dirent_start_cluster (dirent_of s0 dde);
  w_entry : length (dirent_of t dde) = 32%nat
}.

(** The directory has [x] in the place *)
Definition points (t : fat32_fs_t) (x : Z) : Prop :=
  if decide (prev = 0) then dirent_start_cluster (dirent_of t dde) = x else fat t !! Z.to_nat prev = Some x.

Lemma in_chain_cluster c : c ∈ A ++ cl :: B → is_cluster c ∧ c ≠ b.
Proof. intros Hc. split; [exact (proj1 (Forall_forall _ _) Hcl c Hc)|]. by intros ->. Qed.

Lemma w_chain t c : world t → c ∈ A ++ cl :: B → c ≠ prev → fat t !! Z.to_nat c = fat s0 !! Z.to_nat c.
Proof. intros Hw Hc Hp. destruct (in_chain_cluster c Hc) as [Hcc Hcb]. apply (w_fat t Hw); [unfold is_cluster in Hcc; lia|done|done]. Qed.

Lemma w_rest t c : world t → c ∈ A ++ B → cluster_data t c = cluster_data s0 c.
Proof.
  intros Hw Hc. destruct (in_chain_cluster c) as [Hcc Hcb]; [set_solver|]. apply (w_data t Hw); [done| |done|apply Hap; set_solver].
  intros ->. pose proof (proj1 (NoDup_app _ _) Hnd) as (_ & Hd & HB). apply NoDup_cons in HB as [HB _].
  apply elem_of_app in Hc as [Hc|Hc]; [|done]. apply (Hd cl Hc). left.
Qed.

Lemma prev_cases : prev = 0 ∧ A = [] ∨ prev ∈ A ∧ is_cluster prev ∧ prev ≠ b ∧ prev ≠ cl.
Proof.
  unfold prev. destruct (last A) as [x|] eqn:Hx; [right|left; split; [done|by apply last_None]]. simpl.
  assert (x ∈ A) as Hin' by by eapply last_Some_elem_of. split; [done|].
  destruct (in_chain_cluster x) as [Hc Hxb]; [apply elem_of_app; by left|]. split; [done|]. split; [done|].
  intros ->. apply (proj1 (proj2 (proj1 (NoDup_app _ _) Hnd)) cl Hin'). left.
Qed.

Lemma prev_last : A ≠ [] → last A = Some prev.
Proof. intros Hne. unfold prev. destruct (last A) eqn:Hl; [done|]. by apply last_None in Hl. Qed.

(** The directory that can be read in such a state *)
Lemma world_view t x v :
  world t → points t x → x = cl ∨ x = b → chain_to (fat s0) (A ++ cl :: B) v → is_eof v = true →
  fat t !! Z.to_nat x = fat s0 !! Z.to_nat cl →
  dir_is t dde (A ++ x :: B) ((A ≫= cluster_data s0) ++ cluster_data t x ++ (B ≫= cluster_data s0)).
Proof.
  intros Hw Hp Hx [Ha [Hv Hcb]]%chain_to_app Heof Hfx.
  assert (Forall is_cluster (A ++ x :: B)) as HF.
  { rewrite Forall_app, Forall_cons in Hcl |- *. destruct Hx as [->| ->]; tauto. }
  assert (chain_to (fat t) (A ++ x :: B) v) as Hch.
  { apply chain_to_app. split.
    - apply (chain_to_relink (fat s0) _ _ cl prev); [done|exact (proj1 (proj1 (NoDup_app _ _) Hnd))| |].
      + intros Hne. destruct prev_cases as [[_ ?]|(_ & Hpc & _)]; [done|]. split; [by apply prev_last|].
        unfold points in Hp. rewrite decide_False in Hp; [done|]. unfold is_cluster in Hpc. lia.
      + intros c Hc Hcp. apply (w_chain t); [done|set_solver|done].
    - split; [rewrite Hfx; done|]. apply (chain_to_ext (fat s0)); [|done]. intros c Hc. apply (w_chain t); [done|set_solver|].
      destruct prev_cases as [[-> _]|(HpA & _)]; intros ->.
      + destruct (in_chain_cluster 0) as [H0 _]; [set_solver|]. unfold is_cluster in H0. lia.
      + apply (proj1 (proj2 (proj1 (NoDup_app _ _) Hnd)) prev HpA). by right. }
  constructor.
  - unfold points in Hp. destruct prev_cases as [[Hp0 HA]|(HpA & Hpc & _)].
    + rewrite decide_True in Hp by done. rewrite HA, Hp. done.
    + rewrite (w_start t Hw) by (unfold is_cluster in Hpc; lia). rewrite <- Hstart.
      assert (∀ l : list Z, prev ∈ l → head (l ++ x :: B) = head (l ++ cl :: B)) as Hh by (intros [|? ?]; [by intros ?%not_elem_of_nil|done]). by apply Hh.
  - by apply (chain_to_chained _ _ v).
  - apply (chain_to_ends _ _ v); [|done|done]. intros [_ ?]%app_eq_nil. done.
  - assert (∀ l, (∀ c, c ∈ l → c ∈ A ++ B) → l ≫= cluster_data t = l ≫= cluster_data s0) as Hdata.
    { induction l as [|c l IH]; [done|]. intros Hl. cbn [mbind list_bind]. f_equal.
      - apply (w_rest t); [done|]. apply Hl. left.
      - apply IH. intros d Hd. apply Hl. by right. }
    rewrite bind_app. cbn [mbind list_bind]. rewrite !Hdata; [done|set_solver..].
Qed.
(** *** The steps keep the rest of it *)

Lemma world_io t l : world t → world (set_io l t).
Proof. intros []. by constructor. Qed.

Lemma world_fat_write t f f2 :
  world t → length f = length (fat s0) → length f2 = length (fat s0) →
  (∀ c, 2 ≤ c → c ≠ prev → c ≠ b → f !! Z.to_nat c = fat s0 !! Z.to_nat c) → world (set_fat f f2 t).
Proof. intros [] ? ? ?. by constructor. Qed.

(** The entry of the directory is in no such cluster *)
Lemma entry_write c a : entry_apart s0 dde c → cluster_place s0 c ≤ a < cluster_place s0 c + bs →
  (∀ ofs, dde = DirentAt ofs → ¬ ofs ≤ a < ofs + 32) ∧ (dde = RootDirent → ¬ 0x2C ≤ a < 0x30).
Proof.
  intros Hc Ha. unfold entry_apart, apart in Hc. fold bs in Hc.
  split; [intros ofs Hd|intros Hd]; rewrite Hd in Hc; simpl in Hc; lia.
Qed.

Lemma cluster_data_same t t' c : world t →
  cluster_place t' c = cluster_place s0 c → block_size t' = bs →
  (∀ a, cluster_place s0 c ≤ a < cluster_place s0 c + bs → disk t' a = disk t a) → cluster_data t' c = cluster_data t c.
Proof.
  intros Hw Hpl Hbl Hd. unfold cluster_data. rewrite Hpl, Hbl, (w_place t Hw), (w_block t Hw). fold bs. apply read_disk_ext.
  intros a Ha. apply Hd. pose proof (geometry_block s0 Hgeo) as [? _]. unfold bs in *. lia.
Qed.

Section write.
Context (t : fat32_fs_t) (x o : Z) (bytes : list Z).
Hypothesis Hw : world t.
Hypothesis Hx : x = cl ∨ x = b.
Hypothesis Ho : 0 ≤ o ∧ o + Z.of_nat (length bytes) ≤ bs.
Let t' : fat32_fs_t := write_disk (cluster_place s0 x + o) bytes t.

Lemma write_in_chain : is_cluster x ∧ entry_apart s0 dde x.
Proof. destruct Hx as [->| ->]; (split; [|apply Hap; set_solver]); [apply in_chain_cluster; set_solver|done]. Qed.

Lemma write_entry : dirent_of t' dde = dirent_of t dde.
Proof.
  apply dirent_of_ext; [done|]. intros ofs a Hd Ha. apply write_disk_out. intros Hin'.
  destruct (entry_write x a (proj2 write_in_chain)) as [He _]; [lia|]. by apply (He ofs Hd).
Qed.

Lemma write_data y : is_cluster y → y ≠ x → cluster_data t' y = cluster_data t y.
Proof.
  intros Hy Hne. apply cluster_data_same; [done|apply (w_place t Hw)|apply (w_block t Hw)|]. intros a Ha. apply write_disk_out.
  pose proof (geometry_clusters s0 y x Hgeo Hy (proj1 write_in_chain) Hne) as Hap'. unfold apart in Hap'. simpl in Hap'. fold bs in Hap'. lia.
Qed.

Lemma world_write : world t' ∧ ∀ y, points t y → points t' y.
Proof.
  split.
  - constructor; try apply Hw.
    + intros c Hc Hcl' Hcb Hca. rewrite write_data; [by apply (w_data t Hw)|done|]. destruct Hx as [->| ->]; done.
    + rewrite write_entry. apply (w_start t Hw).
    + rewrite write_entry. apply (w_entry t Hw).
  - intros y. unfold points. rewrite write_entry. done.
Qed.
End write.

Section relink.
Context (t : fat32_fs_t) (x : Z).
Hypothesis Hw : world t.
Hypothesis Hx : x = cl ∨ x = b.
Let t' : fat32_fs_t := relinked prev x dde t.

Lemma relink_range : 0 ≤ x < 2 ^ 31.
Proof.
  assert (is_cluster x) as Hc by (destruct Hx as [->| ->]; [apply in_chain_cluster; set_solver|done]). unfold is_cluster in Hc. lia.
Qed.

Lemma relink_data y : entry_apart s0 dde y → cluster_data t' y = cluster_data t y.
Proof.
  intros Hy. destruct (relinked_shape prev x dde t) as (Hpl & Hbl & _).
  apply cluster_data_same; [done|rewrite <- (w_place t Hw); apply Hpl|unfold bs; rewrite <- (w_block t Hw); apply Hbl|].
  intros a Ha. destruct (entry_write y a Hy Ha) as [He Hr]. by apply relinked_disk; [apply (w_entry t Hw)|..].
Qed.

Lemma relink_fat y : y = cl ∨ y = b → fat t' !! Z.to_nat y = fat t !! Z.to_nat y.
Proof.
  intros Hy. destruct (relinked_shape prev x dde t) as (_ & _ & Hf & Hl). unfold t'.
  destruct prev_cases as [[Hp _]|(_ & Hpc & Hpb & Hpcl)]; [by rewrite (proj1 (Hf Hp))|].
  assert (is_cluster y) as Hyc by (destruct Hy as [->| ->]; [apply in_chain_cluster; set_solver|done]). unfold is_cluster in *.
  rewrite Hl by lia. simpl. apply list_lookup_insert_ne. destruct Hy as [->| ->]; lia.
Qed.

Lemma world_relink : world t' ∧ points t' x.
Proof.
  destruct (relinked_shape prev x dde t) as (Hpl & Hbl & Hf & Hl). pose proof (w_entry t Hw) as H32.
  assert (∀ c, is_cluster c → c ≠ cl → c ≠ b → entry_apart s0 dde c → cluster_data t' c = cluster_data s0 c) as Hdata.
  { intros c Hc Hcl' Hcb Hca. rewrite relink_data by done. by apply (w_data t Hw). }
  destruct prev_cases as [[Hp0 _]|(HpA & Hpc & Hpb & Hpcl)].
  - destruct (Hf Hp0) as [Hf1 Hf2]. assert (dirent_of t' dde = set_start_cluster x (dirent_of t dde)) as He.
    { unfold t'. rewrite Hp0. by apply relinked_entry. }
    split; [constructor|]; [intros c; by rewrite <- (w_place t Hw)|by rewrite <- (w_block t Hw)|..].
    + unfold t'. rewrite Hf1, Hf2. apply (w_len t Hw).
    + unfold t'. rewrite Hf1. apply (w_fat t Hw).
    + done.
    + done.
    + rewrite He. unfold set_start_cluster. by rewrite !length_put_word.
    + unfold points. rewrite decide_True by done. rewrite He. apply start_cluster_roundtrip; [apply relink_range|done].
  - assert (prev ≠ 0) as Hne by (unfold is_cluster in Hpc; lia). specialize (Hl Hne). fold t' in Hl.
    split; [constructor|]; [intros c; by rewrite <- (w_place t Hw)|by rewrite <- (w_block t Hw)|rewrite Hl..].
    + simpl. rewrite !length_insert. apply (w_len t Hw).
    + intros c Hc Hcp Hcb. rewrite <- (w_fat t Hw c Hc Hcp Hcb). simpl. apply list_lookup_insert_ne. unfold is_cluster in Hpc. lia.
    + rewrite <- Hl. done.
    + intros _. apply (w_start t Hw Hne).
    + done.
    + unfold points. rewrite decide_False by done. simpl. apply list_lookup_insert_eq.
      rewrite (proj1 (w_len t Hw)). apply Hin. set_solver.
Qed.

(** The cluster takes its place *)
Lemma commit_here :
  ∃ r l, commit_dir prev x dde t = Done (r, set_io l t') ∧ (io_fine t → 0 ≤ r ∧ Forall (λ r, 0 ≤ r) l) ∧ world t' ∧ points t' x.
Proof.
  destruct (commit_dir_run prev x dde t) as (r & l & Hrun & Hf).
  - rewrite (proj1 (w_len t Hw)). destruct prev_cases as [[-> _]|(HpA & Hpc & _)]; [pose proof (Hin cl ltac:(set_solver)); lia|].
    pose proof (Hin prev ltac:(set_solver)). unfold is_cluster in Hpc. lia.
  - rewrite (proj1 (w_len t Hw)). apply (w_len t Hw).
  - exists r, l. split; [done|]. split; [done|]. apply world_relink.
Qed.
End relink.

(** The table's entry of the spare cluster is of no concern *)
Lemma world_spare t f2 v :
  world t → length f2 = length (fat s0) →
  world (set_fat (<[Z.to_nat b := v]> (fat t)) f2 t) ∧ ∀ y, points t y → points (set_fat (<[Z.to_nat b := v]> (fat t)) f2 t) y.
Proof.
  intros Hw H2. split.
  - apply world_fat_write; [done|rewrite length_insert; apply (w_len t Hw)|done|]. intros c Hc Hcp Hcb.
    rewrite list_lookup_insert_ne by (unfold is_cluster in Hb; lia). by apply (w_fat t Hw).
  - intros y. unfold points. case_decide as Hp; [done|]. simpl. rewrite list_lookup_insert_ne; [done|].
    destruct prev_cases as [[? _]|(_ & Hpc & Hpb & _)]; [done|]. unfold is_cluster in *. lia.
Qed.

Lemma world_write_start t x bytes :
  world t → x = cl ∨ x = b → Z.of_nat (length bytes) = bs →
  let t' := write_disk (cluster_place s0 x) bytes t in
  world t' ∧ (∀ y, points t y → points t' y) ∧ (∀ y, is_cluster y → y ≠ x → cluster_data t' y = cluster_data t y) ∧ cluster_data t' x = bytes.
Proof.
  intros Hw Hx Hl. assert (0 ≤ 0 ∧ 0 + Z.of_nat (length bytes) ≤ bs) as Ho by lia.
  pose proof (world_write t x 0 bytes Hw Hx Ho) as [H1 H2]. pose proof (write_data t x 0 bytes Hw Hx Ho) as H3. rewrite Z.add_0_r in *.
  split; [done|]. split; [done|]. split; [done|]. unfold cluster_data.
  assert (cluster_place (write_disk (cluster_place s0 x) bytes t) x = cluster_place s0 x) as -> by apply (w_place t Hw).
  apply read_disk_all. simpl. rewrite (w_block t Hw). fold bs. lia.
Qed.

Section transact.
Hypothesis Hlen2 : length (fat2 s0) = length (fat s0).
Hypothesis H32 : length (dirent_of s0 dde) = 32%nat.
Hypothesis Halloc : allocate_near cl s0 = Done (b, taken b s0).
Hypothesis Hpoint : points s0 cl.

Lemma world_here : world s0.
Proof. by constructor. Qed.

(** The spare cluster, with the copy *)
Lemma world_copied : ∃ t1,
  t1 = write_disk (cluster_place s0 b) (cluster_data (taken b s0) cl) (taken b s0) ∧ world t1 ∧ points t1 cl
  ∧ cluster_data t1 cl = cluster_data s0 cl ∧ cluster_data t1 b = cluster_data s0 cl.
Proof.
  eexists. split; [reflexivity|]. pose proof (geometry_block s0 Hgeo) as [Hpos _].
  assert (is_cluster cl ∧ cl ≠ b) as [Hclc Hclb] by (apply in_chain_cluster; set_solver).
  destruct (world_write_start s0 b (replicate (Z.to_nat (block_size s0)) 0)) as (Hw1 & Hp1 & Hd1 & _); [apply world_here|by right|rewrite length_replicate; unfold bs; lia|].
  destruct (world_spare _ (fat2 s0) 1 Hw1 Hlen2) as [Hw2 Hp2].
  change (set_fat _ (fat2 s0) _) with (taken b s0) in Hw2, Hp2.
  assert (cluster_data (taken b s0) cl = cluster_data s0 cl) as Hcp by (rewrite <- (Hd1 cl Hclc Hclb); done). rewrite Hcp.
  destruct (world_write_start (taken b s0) b (cluster_data s0 cl) Hw2) as (Hw3 & Hp3 & Hd3 & Hd3b);
    [by right|unfold cluster_data; rewrite read_disk_length; unfold bs; lia|].
  split; [done|]. split; [by apply Hp3, Hp2, Hp1|]. split; [|done]. by rewrite Hd3.
Qed.

Lemma transact_spec v :
  fat s0 !! Z.to_nat cl = Some v →
  ∃ r l t, transact_cluster prev dde cl s0 = Done (r, set_io l t) ∧ world t ∧ cluster_data t cl = cluster_data s0 cl
    ∧ (points t cl ∧ r < 0 ∨ points t b ∧ fat t !! Z.to_nat b = Some v ∧ cluster_data t b = cluster_data s0 cl ∧ (r < 0 ∨ r = b))
    ∧ (io_fine s0 → r = b ∧ Forall (λ r, 0 ≤ r) l).
Proof.
  intros Hv. destruct world_copied as (t1 & Ht1 & Hw1 & Hp1 & Hd1 & Hd1b).
  assert (is_cluster cl ∧ cl ≠ b) as [Hclc Hclb] by (apply in_chain_cluster; set_solver).
  unfold transact_cluster. rewrite (bind_done _ _ _ _ _ Halloc), (proj2 (Z.eqb_neq b 0)) by (unfold is_cluster in Hb; lia).
  rewrite (bind_done _ _ _ _ _ (place_of_cluster _ b Hb)), (bind_done _ _ _ _ _ (place_of_cluster _ cl Hclc)).
  unfold copy_cluster. run.
  match goal with |- context [io_status ≫= ?k] => set (K := k) end.
  change (write_disk (cluster_place (taken b s0) b) _ (taken b s0)) with (write_disk (cluster_place s0 b) (cluster_data (taken b s0) cl) (taken b s0)).
  rewrite <- Ht1. assert (io t1 = io s0) as Hio by by rewrite Ht1. clear Ht1.
  rewrite (bind_done _ _ _ _ _ (eq_refl : io_status t1 = Done (default 0 (head (io t1)), set_io (tail (io t1)) t1))). unfold K. clear K.
  rewrite Hio. destruct (Z.ltb_spec (default 0 (head (io s0))) 0) as [Hneg|Hpos].
  { eexists _, _, t1. split; [reflexivity|]. split; [done|]. split; [done|]. split; [by left|]. intros [H0 _]%io_head_fine. lia. }
  set (t2 := set_io (tail (io s0)) t1). assert (world t2) as Hw2 by by apply world_io.
  assert (fat t2 !! Z.to_nat cl = Some v) as Hv2.
  { rewrite <- Hv. apply w_chain; [done|set_solver|]. destruct prev_cases as [[-> _]|(_ & _ & _ & Hp)]; unfold is_cluster in Hclc; [lia|done]. }
  assert (0 ≤ b < Z.of_nat (length (fat t2))) as Hbr.
  { rewrite (proj1 (w_len t2 Hw2)). pose proof (Hin b ltac:(set_solver)). unfold is_cluster in Hb. lia. }
  assert (0 ≤ cl) as Hcl0 by (unfold is_cluster in Hclc; lia).
  rewrite (bind_done _ _ _ _ _ (load_fat_run cl v t2 Hcl0 Hv2)), (bind_done _ _ _ _ _ (store_fat_run b v t2 Hbr)).
  rewrite (bind_done _ _ _ _ _ (load_fat_run cl v (set_fat (<[Z.to_nat b := v]> (fat t2)) (fat2 t2) t2) Hcl0 ltac:(simpl; rewrite list_lookup_insert_ne by (unfold is_cluster in *; lia); exact Hv2))).
  rewrite (bind_done _ _ _ _ _ (store_fat2_run b v (set_fat (<[Z.to_nat b := v]> (fat t2)) (fat2 t2) t2) ltac:(simpl; pose proof (w_len t2 Hw2); simpl in *; lia))).
  change (set_fat _ _ (set_fat _ _ t2)) with (linked b v t2).
  destruct (world_spare t2 (<[Z.to_nat b := v]> (fat2 t2)) v Hw2) as [Hw3 Hp3]; [rewrite length_insert; apply (w_len t2 Hw2)|].
  change (set_fat _ _ t2) with (linked b v t2) in Hw3, Hp3.
  destruct (sync_fat_entry_run (linked b v t2)) as (r2 & l2 & Hr2 & Hf2). rewrite (bind_done _ _ _ _ _ Hr2).
  destruct (Z.ltb_spec r2 0) as [Hneg|Hpos2].
  { eexists _, _, (linked b v t2). split; [reflexivity|]. split; [done|]. split; [done|]. split; [left; split; [by apply Hp3|done]|].
    intros [_ Hl]%io_head_fine. destruct (Hf2 Hl). lia. }
  set (t3 := set_io l2 (linked b v t2)). assert (world t3) as Hw4 by by apply world_io.
  destruct (commit_here t3 b Hw4 ltac:(by right)) as (r3 & l3 & Hr3 & Hf3 & Hw5 & Hp5).
  rewrite (bind_done _ _ _ _ _ Hr3). exists (if 0 <=? r3 then b else r3), l3, (relinked prev b dde t3). split; [done|]. split; [done|].
  pose proof (relink_data t3 b Hw4 cl ltac:(apply Hap; set_solver)) as Hdc. pose proof (relink_data t3 b Hw4 b ltac:(apply Hap; set_solver)) as Hdb.
  split; [by rewrite Hdc|]. split.
  - right. split; [done|]. rewrite relink_fat, Hdb by (done || by right). split; [simpl; apply list_lookup_insert_eq; simpl in Hbr; lia|]. split; [done|].
    destruct (Z.leb_spec 0 r3); [by right|by left].
  - intros [_ Hl]%io_head_fine. destruct (Hf2 Hl) as [_ Hl2]. destruct (Hf3 Hl2) as [H3 Hl3]. by rewrite (proj2 (Z.leb_le 0 r3)).
Qed.
(** *** The entries are written *)

Context (st : scan_t) (es : list fat32_dir_union_t) (j : nat) (vend : Z).
Hypothesis Hins : ins_point st = Some (cluster_place s0 cl + Z.of_nat j).
Hypothesis Hres : result_cluster st = cl.
Hypothesis Hprev : prev_cluster st = prev.
Hypothesis Hroom : Z.of_nat (j + length (mjoin es)) ≤ block_size s0.
Hypothesis Hchain : chain_to (fat s0) (A ++ cl :: B) vend.
Hypothesis Hvend : is_eof vend = true.

Let view (d : list Z) : list Z := (A ≫= cluster_data s0) ++ d ++ (B ≫= cluster_data s0).
Let new_data : list Z := list_inserts j (mjoin es) (cluster_data s0 cl).

(** The table and the other clusters are as before *)
Definition settled (s' : fat32_fs_t) : Prop :=
  same_layout s0 s' ∧
  (∀ c, 2 ≤ c → c ≠ b → fat s' !! Z.to_nat c = fat s0 !! Z.to_nat c) ∧ fat s' !! Z.to_nat b = Some 0
  ∧ ∀ c, is_cluster c → c ≠ cl → c ≠ b → entry_apart s0 dde c → cluster_data s' c = cluster_data s0 c.

Lemma cl_cluster : is_cluster cl ∧ cl ≠ b ∧ cl ≠ prev.
Proof.
  assert (is_cluster cl ∧ cl ≠ b) as [Hc Hne] by (apply in_chain_cluster; set_solver). split; [done|]. split; [done|].
  destruct prev_cases as [[-> _]|(_ & _ & _ & Hp)]; [unfold is_cluster in Hc; lia|done].
Qed.

(** The entries are in the cluster, whatever is in its place *)
Lemma world_put t :
  world t → cluster_data t cl = cluster_data s0 cl →
  let t' := write_disk (cluster_place s0 cl + Z.of_nat j) (mjoin es) t in
  world t' ∧ (∀ y, points t y → points t' y) ∧ cluster_data t' cl = new_data ∧ cluster_data t' b = cluster_data t b.
Proof.
  intros Hw Hd t'. destruct cl_cluster as (Hc & Hne & _).
  assert (0 ≤ Z.of_nat j ∧ Z.of_nat j + Z.of_nat (length (mjoin es)) ≤ bs) as Ho by (unfold bs; lia).
  destruct (world_write t cl (Z.of_nat j) (mjoin es) Hw ltac:(by left) Ho) as [Hw' Hp']. split; [done|]. split; [done|]. split.
  - unfold new_data. rewrite <- Hd. unfold cluster_data.
    assert (cluster_place t' cl = cluster_place s0 cl) as -> by apply (w_place t Hw). rewrite (w_place t Hw).
    change (block_size t') with (block_size t). apply read_disk_written. rewrite (w_block t Hw). lia.
  - apply (write_data t cl (Z.of_nat j) (mjoin es) Hw ltac:(by left) Ho b Hb). congruence.
Qed.

Lemma view_cl t d : world t → points t cl → cluster_data t cl = d → dir_is t dde (A ++ cl :: B) (view d).
Proof.
  intros Hw Hp <-. apply (world_view t cl vend); [done|done|by left|done|done|]. apply w_chain; [done|set_solver|apply cl_cluster].
Qed.

(** The end: the cluster is back in its place, the spare one is free *)
Lemma release_spare t l :
  world t → points t cl → cluster_data t cl = new_data →
  ∃ s', (store_fat b 0;; store_fat2 b 0;; mret true) (set_io l t) = Done (true, s')
    ∧ dir_is s' dde (A ++ cl :: B) (view new_data) ∧ settled s' ∧ io s' = l.
Proof.
  intros Hw Hp Hd. pose proof (w_len t Hw) as [Hl1 Hl2]. pose proof (Hin b ltac:(set_solver)) as Hbl.
  assert (0 ≤ b < Z.of_nat (length (fat s0))) as Hbr by (unfold is_cluster in Hb; lia).
  rewrite (bind_done _ _ _ _ _ (store_fat_run b 0 (set_io l t) ltac:(simpl; lia))).
  rewrite (bind_done _ _ _ _ _ (store_fat2_run b 0 (set_fat (<[Z.to_nat b := 0]> (fat t)) (fat2 t) (set_io l t)) ltac:(simpl; lia))).
  eexists. split; [reflexivity|]. pose proof (world_io t l Hw) as Hwl.
  destruct (world_spare (set_io l t) (<[Z.to_nat b := 0]> (fat2 t)) 0 Hwl) as [Hw' Hp']; [rewrite length_insert; done|].
  split; [by apply view_cl; [exact Hw'|apply Hp'|]|]. split; [|done].
  split; [split; [apply (w_place _ Hw')|split; [apply (w_block _ Hw')|apply (w_len _ Hw')]]|]. split; [|split; [simpl; apply list_lookup_insert_eq; lia|exact (w_data _ Hw')]].
  intros c Hc Hcb. destruct (decide (c = prev)) as [->|Hcp]; [|by apply (w_fat _ Hw')].
  destruct prev_cases as [[? _]|(HpA & _)]; [lia|]. specialize (Hp' cl Hp). unfold points in Hp', Hpoint.
  rewrite decide_False in Hp', Hpoint by lia. by rewrite Hpoint.
Qed.

Lemma create_in_place_spec v :
  fat s0 !! Z.to_nat cl = Some v →
  match create_in_place st dde es s0 with
  | Done (ok, s') => ∃ chain' d, dir_is s' dde chain' (view d) ∧ (d = cluster_data s0 cl ∨ d = new_data)
                       ∧ (ok = true → chain' = A ++ cl :: B ∧ d = new_data ∧ settled s') ∧ (io_fine s0 → ok = true ∧ io_fine s')
  | Fault _ => ¬ io_fine s0
  end.
Proof.
  intros Hv. destruct (transact_spec v Hv) as (r & l & t & Hrun & Hw & Hdc & Hwhere & Hfine). destruct cl_cluster as (Hc & Hne & Hcp).
  unfold create_in_place. rewrite Hprev, Hres, (bind_done _ _ _ _ _ Hrun). unfold need_point, put_dirents. rewrite Hins. run.
  destruct (world_put (set_io l t) (world_io t l Hw) Hdc) as (Hw1 & Hp1 & Hd1 & Hd1b). set (t1 := write_disk _ _ (set_io l t)) in *.
  rewrite (bind_done _ _ _ _ _ (eq_refl : io_status t1 = Done (default 0 (head l), set_io (tail l) t1))).
  destruct (Z.ltb_spec (default 0 (head l)) 0) as [Hneg|Hpos].
  { assert (io_fine s0 → False) as Hno by (intros H; destruct (Hfine H) as [_ [? _]%io_head_fine]; lia).
    assert (world (set_io (tail l) t1)) as Hw1' by by apply world_io.
    destruct Hwhere as [[Hp _]|(Hp & Hfb & Hdb & _)].
    - exists (A ++ cl :: B), new_data. split; [by apply view_cl; [..|apply Hp1|]|]. split; [by right|]. split; [done|by intros ?%Hno].
    - exists (A ++ b :: B), (cluster_data s0 cl). split; [|split; [by left|split; [done|by intros ?%Hno]]].
      rewrite <- Hdb. change (cluster_data t b) with (cluster_data (set_io l t) b). rewrite <- Hd1b.
      apply (world_view (set_io (tail l) t1) b vend); [done|by apply Hp1|by right|done|done|by rewrite Hv]. }
  set (t2 := set_io (tail l) t1). assert (world t2) as Hw2 by by apply world_io.
  destruct (commit_here t2 cl Hw2 ltac:(by left)) as (r2 & l2 & Hr2 & Hf2 & Hw3 & Hp3).
  rewrite (bind_done _ _ _ _ _ Hr2).
  assert (cluster_data (relinked prev cl dde t2) cl = new_data) as Hd3.
  { rewrite relink_data; [exact Hd1|done|apply Hap; set_solver]. }
  destruct (Z.ltb_spec r2 0) as [Hneg|Hpos2].
  { exists (A ++ cl :: B), new_data. split; [apply view_cl; [by apply world_io|done|done]|]. split; [by right|]. split; [done|].
    intros H. destruct (Hfine H) as [_ [_ Hl]%io_head_fine]. destruct (Hf2 Hl). lia. }
  assert (r < 0 ∨ r = b) as [Hr| ->] by tauto.
  - unfold fs_assert. rewrite (proj2 (Z.eqb_neq r 0)) by lia. simpl. run.
    unfold store_fat, mbind, M_bind. rewrite (proj2 (Z.leb_gt 0 r)) by lia. simpl. intros H. destruct (Hfine H) as [-> _]. unfold is_cluster in Hb. lia.
  - unfold fs_assert. rewrite (proj2 (Z.eqb_neq b 0)) by (unfold is_cluster in Hb; lia). simpl. run.
    destruct (release_spare _ l2 Hw3 Hp3 Hd3) as (s' & Hrun' & Hdir & Hset & Hio'). rewrite Hrun'.
    exists (A ++ cl :: B), new_data. split; [done|]. split; [by right|]. split; [done|]. intros H. split; [done|].
    destruct (Hfine H) as [_ [_ Hl]%io_head_fine]. destruct (Hf2 Hl) as [_ Hl2]. unfold io_fine. by rewrite Hio'.
Qed.
End transact.
End world.
