(* ===== verification/Fat32Found.v ===== *)
(** * FAT directories: a new entry in a new cluster, and the whole of it *)

From stdpp Require Import base tactics list numbers option sets.
From S2P Require Import Prelude Regions Utf TimeOfDay Fat32Name Fat32 Fat32Thms Fat32Dir Fat32Create Fat32Atomic.

#[local] Open Scope Z_scope.

(** ** The directory grows *)

Lemma bind_data_ext s t l : (∀ c, c ∈ l → cluster_data t c = cluster_data s c) → l ≫= cluster_data t = l ≫= cluster_data s.
Proof.
  induction l as [|c l IH]; [done|]. intros Hl. cbn [mbind list_bind]. rewrite Hl by left. f_equal. apply IH. intros d Hd. apply Hl. by right.
Qed.

Lemma dir_is_ext s t dde chain bytes :
  dir_is s dde chain bytes → (∀ c, c ∈ chain → fat t !! Z.to_nat c = fat s !! Z.to_nat c) → (∀ c, c ∈ chain → cluster_data t c = cluster_data s c) →
  dirent_of t dde = dirent_of s dde → dir_is t dde chain bytes.
Proof.
  intros [Hst Hch Hend Hby] Hf Hd He. destruct (chained_chain_to _ _ Hch Hend) as (v & Hv & Heof).
  pose proof (chain_to_ext _ (fat t) _ _ Hf Hv) as Hv'. constructor.
  - by rewrite He.
  - apply (chain_to_chained _ _ v); [apply Hch|done].
  - apply (chain_to_ends _ _ v); [|done|done]. intros ->. destruct Hend as (? & ? & ? & _). done.
  - by rewrite (bind_data_ext s).
Qed.

Lemma dir_append s t dde chain bytes p new v :
  dir_is s dde chain bytes → NoDup chain → last chain = Some p → is_cluster new →
  (∀ c, c ∈ chain → c ≠ p → fat t !! Z.to_nat c = fat s !! Z.to_nat c) → fat t !! Z.to_nat p = Some new →
  fat t !! Z.to_nat new = Some v → is_eof v = true →
  (∀ c, c ∈ chain → cluster_data t c = cluster_data s c) → dirent_of t dde = dirent_of s dde →
  dir_is t dde (chain ++ [new]) (bytes ++ cluster_data t new).
Proof.
  intros [Hst Hch Hend Hby] Hnd Hp Hnew Hf Hfp Hfn Heof Hd He. destruct (chained_chain_to _ _ Hch Hend) as (w & Hw & _).
  assert (chain_to (fat t) (chain ++ [new]) v) as Hv.
  { apply chain_to_app. split; [|by split]. apply (chain_to_relink (fat s) _ _ w p); done. }
  constructor.
  - rewrite He, <- Hst. destruct chain; [done|done].
  - apply (chain_to_chained _ _ v); [|done]. apply Forall_app. split; [apply Hch|by constructor].
  - apply (chain_to_ends _ _ v); [|done|done]. by destruct chain.
  - rewrite bind_app, (bind_data_ext s), Hby by done. cbn [mbind list_bind]. by rewrite app_nil_r.
Qed.

(** The states differ in the bytes of one cluster only *)
Record only_in (s t : fat32_fs_t) (new : Z) : Prop := {
  oi_place : ∀ c, cluster_place t c = cluster_place s c;
  oi_block : block_size t = block_size s;
  oi_root : root_dirent t = root_dirent s;
  oi_disk : ∀ a, ¬ cluster_place s new ≤ a < cluster_place s new + block_size s → disk t a = disk s a
}.

Lemma only_in_data s t new c : geometry s → only_in s t new → is_cluster c → is_cluster new → c ≠ new → cluster_data t c = cluster_data s c.
Proof.
  intros Hg [Hp Hb _ Hd] Hc Hn Hne. unfold cluster_data. rewrite Hp, Hb. apply read_disk_ext. intros a Ha. apply Hd.
  pose proof (geometry_clusters s c new Hg Hc Hn Hne) as Hap. unfold apart in Hap. simpl in Hap. pose proof (geometry_block s Hg) as [? _]. lia.
Qed.

Lemma only_in_entry s t new dde : only_in s t new → geometry s → entry_apart s dde new → dirent_of t dde = dirent_of s dde.
Proof.
  intros [_ _ Hr Hd] Hg Hap. apply dirent_of_ext; [done|]. intros ofs a -> Ha. apply Hd. unfold entry_apart, apart in Hap. simpl in Hap. lia.
Qed.

Lemma only_in_write s t new o bytes :
  only_in s t new → 0 ≤ o → o + Z.of_nat (length bytes) ≤ block_size s → only_in s (write_disk (cluster_place s new + o) bytes t) new.
Proof.
  intros [Hp Hb Hr Hd] Ho Hl. constructor; [done..|]. intros a Ha. rewrite write_disk_out by lia. by apply Hd.
Qed.

Lemma only_in_fat s t new f f2 l : only_in s t new → only_in s (set_io l (set_fat f f2 t)) new.
Proof. intros [Hp Hb Hr Hd]. by constructor. Qed.

Lemma cluster_data_fat f f2 l t c : cluster_data (set_io l (set_fat f f2 t)) c = cluster_data t c.
Proof. done. Qed.

Section extended.
Context (s : fat32_fs_t) (dde : dirent_ref) (chain bytes : list Z) (new p : Z) (l : list Z).
Hypothesis Hdir : dir_is s dde chain bytes.
Hypothesis Hgeo : geometry s.
Hypothesis Hnd : NoDup chain.
Hypothesis Hnn : new ∉ chain.
Hypothesis Hnew : is_cluster new.
Hypothesis Hin : ∀ c, c ∈ new :: chain → (Z.to_nat c < length (fat s))%nat.
Hypothesis Hlen2 : length (fat2 s) = length (fat s).
Hypothesis Hap : entry_apart s dde new.
Hypothesis Hlast : last chain = Some p.
Context (st : scan_t) (es : list fat32_dir_union_t) (j : nat).
Hypothesis Hins : ins_point st = Some (cluster_place s new + Z.of_nat j).
Hypothesis Hres : result_cluster st = new.
Hypothesis Hprev : prev_cluster st = p.
Hypothesis Hroom : Z.of_nat (j + length (mjoin es)) ≤ block_size s.

Let room : list Z := replicate (Z.to_nat (block_size s)) 0.
Let t1 : fat32_fs_t := write_disk (cluster_place s new + Z.of_nat j) (mjoin es) (set_io l (taken new s)).

Lemma extended_only : only_in s t1 new.
Proof.
  apply only_in_write; [|lia|lia]. constructor; [done..|]. intros a Ha. apply write_disk_out. rewrite length_replicate.
  pose proof (geometry_block s Hgeo) as [? _]. lia.
Qed.

Lemma extended_data : cluster_data t1 new = list_inserts j (mjoin es) room.
Proof.
  unfold t1, cluster_data. change (cluster_place (write_disk _ _ _) new) with (cluster_place s new).
  change (block_size (write_disk _ _ _)) with (block_size s). rewrite read_disk_written by lia. f_equal. apply read_disk_all. apply length_replicate.
Qed.

Lemma last_in_chain : p ∈ chain ∧ is_cluster p ∧ p ≠ new.
Proof.
  assert (p ∈ chain) as Hp by by eapply last_Some_elem_of. split; [done|].
  split; [exact (proj1 (Forall_forall _ _) (proj1 (di_chain _ _ _ _ Hdir)) p Hp)|]. by intros ->.
Qed.

Lemma chain_data t c : only_in s t new → c ∈ chain → cluster_data t c = cluster_data s c.
Proof.
  intros Ho Hc. apply (only_in_data s t new); [done|done| |done|by intros ->].
  exact (proj1 (Forall_forall _ _) (proj1 (di_chain _ _ _ _ Hdir)) c Hc).
Qed.

(** The table with the new cluster *)
Lemma chain_fat (f : list Z) v c : c ∈ chain → (∀ x, f !! x = (<[Z.to_nat new := v]> (fat s)) !! x) → f !! Z.to_nat c = fat s !! Z.to_nat c.
Proof.
  intros Hc ->. apply list_lookup_insert_ne. assert (is_cluster c) as Hcc by exact (proj1 (Forall_forall _ _) (proj1 (di_chain _ _ _ _ Hdir)) c Hc).
  assert (c ≠ new) by by intros ->. unfold is_cluster in *. lia.
Qed.

Lemma create_extended_spec :
  match create_extended st new dde es (set_io l (taken new s)) with
  | Done (ok, s') => ∃ chain' bytes', dir_is s' dde chain' bytes'
      ∧ (bytes' = bytes ∨ bytes' = bytes ++ list_inserts j (mjoin es) room)
      ∧ (ok = true → chain' = chain ++ [new] ∧ bytes' = bytes ++ list_inserts j (mjoin es) room ∧ same_layout s s')
      ∧ (Forall (λ r, 0 ≤ r) l → ok = true ∧ io_fine s')
  | Fault _ => False
  end.
Proof.
  destruct last_in_chain as (Hp & Hpc & Hpn). pose proof (Hin new ltac:(left)) as Hnl. pose proof (Hin p ltac:(by right)) as Hpl.
  unfold create_extended, need_point, put_dirents. rewrite Hins. run. fold t1.
  assert (fat t1 !! Z.to_nat new = Some 1) as H1 by (simpl; by apply list_lookup_insert_eq).
  assert (0 ≤ new) as Hn0 by (unfold is_cluster in Hnew; lia).
  rewrite (bind_done _ _ _ _ _ (load_fat_run new 1 t1 Hn0 H1)). unfold fs_assert. simpl (1 =? 1). cbv iota. run.
  assert (length (fat t1) = length (fat s)) as Hl1 by (simpl; by rewrite length_insert).
  destruct (link_run new 0x0FFFFFF8 t1) as (r & l1 & Hr & Hf1); [lia|simpl; by rewrite length_insert|]. rewrite (bind_done _ _ _ _ _ Hr).
  set (t2 := set_io l1 (linked new 0x0FFFFFF8 t1)) in *. assert (only_in s t2 new) as Ho2 by (apply only_in_fat, extended_only).
  assert (∀ x, fat t2 !! x = (<[Z.to_nat new := 0x0FFFFFF8]> (fat s)) !! x) as Hf2 by (intros x; simpl; by rewrite list_insert_insert_eq).
  assert (cluster_data t2 new = list_inserts j (mjoin es) room) as Hd2 by (rewrite <- extended_data; apply cluster_data_fat).
  destruct (Z.ltb_spec r 0) as [Hneg|Hpos].
  { exists chain, bytes. split; [|split; [by left|split; [done|intros H; destruct (Hf1 H); lia]]].
    apply (dir_is_ext s); [done|intros c Hc; exact (chain_fat (fat t2) _ c Hc Hf2)|intros c Hc; exact (chain_data t2 c Ho2 Hc)|exact (only_in_entry s t2 new dde Ho2 Hgeo Hap)]. }
  unfold commit_dir. rewrite Hprev, Hres, (proj2 (Z.eqb_neq p 0)) by (unfold is_cluster in Hpc; lia).
  destruct (link_run p new t2) as (r2 & l2 & Hr2 & Hf3);
    [simpl; rewrite length_insert; unfold is_cluster in Hpc; simpl in Hl1; lia|simpl; rewrite !length_insert; done|].
  rewrite (bind_done _ _ _ _ _ Hr2). exists (chain ++ [new]), (bytes ++ list_inserts j (mjoin es) room).
  split; [|split; [by right|split; [intros _; split; [done|split; [done|split; [apply Ho2|split; [apply Ho2|simpl; by rewrite !length_insert]]]]|]]].
  - rewrite <- Hd2, <- (cluster_data_fat (<[Z.to_nat p := new]> (fat t2)) (<[Z.to_nat p := new]> (fat2 t2)) l2 t2 new). fold (linked p new t2).
    pose proof (only_in_fat s t2 new (<[Z.to_nat p := new]> (fat t2)) (<[Z.to_nat p := new]> (fat2 t2)) l2 Ho2) as Ho3. fold (linked p new t2) in Ho3.
    apply (dir_append s _ _ _ _ p _ 0x0FFFFFF8); [done..| | | |done|by intros c Hc; apply chain_data|exact (only_in_entry s _ new dde Ho3 Hgeo Hap)].
    + intros c Hc Hcp. rewrite <- (chain_fat (fat t2) 0x0FFFFFF8 c Hc Hf2). apply list_lookup_insert_ne.
      pose proof (proj1 (Forall_forall _ _) (proj1 (di_chain _ _ _ _ Hdir)) c Hc) as Hcc. unfold is_cluster in *. lia.
    + simpl. apply list_lookup_insert_eq. rewrite length_insert. simpl in Hl1. lia.
    + change (<[Z.to_nat p := new]> (fat t2) !! Z.to_nat new = Some 0x0FFFFFF8). rewrite list_lookup_insert_ne by (unfold is_cluster in *; lia).
      rewrite Hf2. apply list_lookup_insert_eq. done.
  - intros H. destruct (Hf1 H) as [_ Hl]. destruct (Hf3 Hl) as [Hr0 Hl2']. by rewrite (proj2 (Z.ltb_ge r2 0)).
Qed.
End extended.

(** ** A directory's bytes as entries *)

Definition entries_of (bytes : list Z) (n : nat) : list fat32_dir_union_t := (λ i, take 32 (drop (32 * i) bytes)) <$> seq 0 n.
Definition places (s : fat32_fs_t) (chain : list Z) : list Z :=
  chain ≫= (λ c, (λ k : nat, cluster_place s c + 32 * Z.of_nat k) <$> seq 0 (per_cluster s)).

Lemma entries_of_app bytes bytes' m n : length bytes = (32 * m)%nat → entries_of (bytes ++ bytes') (m + n) = entries_of bytes m ++ entries_of bytes' n.
Proof.
  intros Hm. unfold entries_of. rewrite seq_app, fmap_app. f_equal.
  - apply list_fmap_ext. intros i x [-> Hi]%lookup_seq. simpl. rewrite drop_app_le, take_app_le by (rewrite ?length_drop; lia). done.
  - rewrite <- (Nat.add_0_r m) at 1. rewrite Nat.add_comm, <- fmap_add_seq, <- list_fmap_compose. apply list_fmap_ext.
    intros i x [-> Hi]%lookup_seq. simpl. rewrite drop_app_ge by lia. do 2 f_equal. lia.
Qed.

Lemma entries_lookup bytes n i : (i < n)%nat → entries_of bytes n !! i = Some (take 32 (drop (32 * i) bytes)).
Proof. intros Hi. unfold entries_of. by rewrite list_lookup_fmap, lookup_seq_lt. Qed.

Lemma entries_length bytes n : length (entries_of bytes n) = n.
Proof. unfold entries_of. by rewrite length_fmap, length_seq. Qed.

Lemma cluster_data_length s c : block_size s = 32 * Z.of_nat (per_cluster s) → length (cluster_data s c) = (32 * per_cluster s)%nat.
Proof. intros Hg. unfold cluster_data. rewrite read_disk_length. lia. Qed.

Lemma chain_bytes_length s chain : block_size s = 32 * Z.of_nat (per_cluster s) → length (chain ≫= cluster_data s) = (32 * (length chain * per_cluster s))%nat.
Proof.
  intros Hg. induction chain as [|c chain IH]; [done|]. cbn [mbind list_bind length].
  rewrite length_app, cluster_data_length by done. change (mbind (cluster_data s) chain) with (chain ≫= cluster_data s). lia.
Qed.

Lemma dir_entries_zip s chain : block_size s = 32 * Z.of_nat (per_cluster s) →
  dir_entries s chain = zip (places s chain) (entries_of (chain ≫= cluster_data s) (length chain * per_cluster s)).
Proof.
  intros Hg. induction chain as [|c chain IH]; [done|]. unfold dir_entries, places in *. cbn [mbind list_bind length Nat.mul].
  rewrite (entries_of_app _ _ (per_cluster s)) by by apply cluster_data_length.
  rewrite zip_with_app by by rewrite length_fmap, length_seq, entries_length. f_equal; [|exact IH].
  unfold cluster_entries, entries_of. rewrite zip_with_fmap_l, zip_with_fmap_r, zip_with_diag. apply list_fmap_ext.
  intros i x [-> Hi]%lookup_seq. unfold entry_at. f_equal. by apply entry_in_cluster.
Qed.

Lemma places_length s chain : length (places s chain) = (length chain * per_cluster s)%nat.
Proof.
  induction chain as [|c chain IH]; [done|]. unfold places in *. cbn [mbind list_bind length Nat.mul]. rewrite length_app, length_fmap, length_seq. lia.
Qed.

Lemma inserts_middle {X} (a m b es : list X) : length es = length m → list_inserts (length a) es (a ++ m ++ b) = a ++ es ++ b.
Proof. intros Hl. rewrite <- (Nat.add_0_r (length a)), list_inserts_app_r. f_equal. by apply list_inserts_0_r. Qed.

Lemma join_length (es : list fat32_dir_union_t) : Forall (λ e, length e = 32%nat) es → length (mjoin es) = (32 * length es)%nat.
Proof. induction 1 as [|e es He _ IH]; [done|]. change (mjoin (e :: es)) with (e ++ mjoin es). cbn [length]. rewrite length_app, He. lia. Qed.

Lemma entries_of_join es : Forall (λ e, length e = 32%nat) es → entries_of (mjoin es) (length es) = es.
Proof.
  induction 1 as [|e es He Hes IH]; [done|]. change (mjoin (e :: es)) with (e ++ mjoin es). change (length (e :: es)) with (1 + length es)%nat.
  rewrite (entries_of_app _ _ 1) by (simpl; lia). rewrite IH. change (entries_of e 1) with [take 32 (drop 0 e)]. rewrite drop_0, take_ge by lia. done.
Qed.

(** Entries written over entries *)
Lemma entries_inserted bytes n k es :
  length bytes = (32 * n)%nat → Forall (λ e, length e = 32%nat) es → (k + length es ≤ n)%nat →
  entries_of (list_inserts (32 * k) (mjoin es) bytes) n = list_inserts k es (entries_of bytes n).
Proof.
  intros Hl Hes Hk. pose proof (join_length es Hes) as Hj. set (c := length es) in *.
  rewrite <- (take_drop (32 * k) bytes), <- (take_drop (32 * c) (drop (32 * k) bytes)).
  set (a := take (32 * k) bytes). set (m := take (32 * c) _). set (b := drop (32 * c) _).
  assert (length a = 32 * k)%nat as Ha by (unfold a; rewrite length_take; lia).
  assert (length m = 32 * c)%nat as Hm by (unfold m; rewrite length_take, length_drop; lia).
  rewrite <- Ha, inserts_middle by lia. replace n with (k + (c + (n - k - c)))%nat by lia.
  rewrite !entries_of_app by (lia || done). rewrite entries_of_join by done.
  pose proof (inserts_middle (entries_of a k) (entries_of m c) (entries_of b (n - k - c)) es) as Hmid. rewrite !entries_length in Hmid. by rewrite Hmid.
Qed.

Lemma places_app s l l' : places s (l ++ l') = places s l ++ places s l'.
Proof. unfold places. by rewrite bind_app. Qed.

Lemma places_lookup s l c l' i : (i < per_cluster s)%nat →
  places s (l ++ c :: l') !! (length l * per_cluster s + i)%nat = Some (cluster_place s c + 32 * Z.of_nat i).
Proof.
  intros Hi. rewrite places_app, lookup_app_r by (rewrite places_length; lia). rewrite places_length.
  replace (length l * per_cluster s + i - length l * per_cluster s)%nat with i by lia. unfold places. cbn [mbind list_bind].
  rewrite lookup_app_l by (rewrite length_fmap, length_seq; lia). by rewrite list_lookup_fmap, lookup_seq_lt.
Qed.

(** An entry by its place in the bytes *)
Lemma chunk_in_cluster s l c l' i : block_size s = 32 * Z.of_nat (per_cluster s) → (i < per_cluster s)%nat →
  take 32 (drop (32 * (length l * per_cluster s + i)) ((l ++ c :: l') ≫= cluster_data s)) = read_disk (cluster_place s c + 32 * Z.of_nat i) 32 s.
Proof.
  intros Hb Hi. rewrite bind_app. cbn [mbind list_bind]. pose proof (chain_bytes_length s l Hb) as Hl. pose proof (cluster_data_length s c Hb) as Hc.
  rewrite drop_app_ge by lia. rewrite Hl. replace (32 * (length l * per_cluster s + i) - 32 * (length l * per_cluster s))%nat with (32 * i)%nat by lia.
  rewrite drop_app_le, take_app_le by (rewrite ?length_drop; lia). symmetry. by apply entry_in_cluster.
Qed.

(** ** A directory that can take entries *)

Record dir_ok (s : fat32_fs_t) (dde : dirent_ref) (chain : list Z) : Prop := {
  dk_geo : geometry s;
  dk_table : table_ok s;
  dk_len2 : length (fat2 s) = length (fat s);
  dk_nodup : NoDup chain;
  dk_used : ∀ c, c ∈ chain → c < end_cluster s ∧ ¬ is_free_cluster s c;
  dk_entry : length (dirent_of s dde) = 32%nat;
  dk_apart : ∀ c, 2 ≤ c < end_cluster s → c ∈ chain ∨ is_free_cluster s c → entry_apart s dde c
}.

(** An array of entries, and room for the short one *)
Record lfn_ok (lfn : full_lfn_t) : Prop := {
  lo_entries : Forall (λ e, length e = 32%nat) (fragments lfn);
  lo_count : (lfn_entry_count lfn < length (fragments lfn))%nat
}.

Lemma chain_short s dde chain : dir_ok s dde chain → Forall is_cluster chain → (length chain + 2 ≤ length (fat s))%nat.
Proof.
  intros [_ [Hen Hlen] _ Hnd Hused _ _] HF.
  assert (Z.to_nat <$> chain ⊆ seq 2 (Z.to_nat (end_cluster s) - 2)) as Hsub.
  { intros i (c & -> & Hc)%list_elem_of_fmap. apply elem_of_seq. destruct (Hused c Hc) as [? _].
    pose proof (proj1 (Forall_forall _ _) HF c Hc) as Hcc. unfold is_cluster in Hcc. lia. }
  assert (NoDup (Z.to_nat <$> chain)) as Hnd'.
  { apply NoDup_fmap_2_strong; [|done]. intros x y Hx%(proj1 (Forall_forall _ _) HF) Hy%(proj1 (Forall_forall _ _) HF) Heq.
    unfold is_cluster in *. lia. }
  pose proof (submseteq_length _ _ (NoDup_submseteq _ _ Hnd' Hsub)) as Hl. rewrite length_fmap, length_seq in Hl. lia.
Qed.

Lemma generate_unique_shortname_ok lfn idx : lfn_ok lfn → ∃ lfn', generate_unique_shortname lfn idx = Done lfn' ∧ lfn_ok lfn'
  ∧ lfn_entry_count lfn' = lfn_entry_count lfn.
Proof.
  intros [He Hc]. unfold generate_unique_shortname. destruct (lookup_lt_is_Some_2 _ _ Hc) as [e Hn]. rewrite Hn. eexists. split; [reflexivity|].
  assert (length e = 32%nat) as H32 by exact (proj1 (Forall_lookup _ _) He _ _ Hn).
  split; [|done]. constructor; simpl; [|by rewrite length_imap, length_insert].
  apply Forall_lookup. intros i x. rewrite list_lookup_imap. destruct (<[_ := _]> (fragments lfn) !! i) as [y|] eqn:Hy; [|done].
  intros [= <-]. assert (length y = 32%nat) as Hy32.
  { apply list_lookup_insert_Some in Hy as [(_ & <- & _)|[_ Hy]]; [|exact (proj1 (Forall_lookup _ _) He _ _ Hy)].
    unfold put_name. rewrite length_app, length_drop, H32. done. }
  case_decide; by rewrite ?length_insert.
Qed.

(** *** What becomes of it *)

(** The bytes with the entries at [k] *)
Definition with_entries (lfn' : full_lfn_t) (k : nat) (bytes : list Z) : list Z :=
  list_inserts (32 * k) (mjoin (take (S (lfn_entry_count lfn')) (fragments lfn'))) bytes.

(** [room] is what the directory is extended with; the entries from [k] on
    are free in it, and the name's entries go there *)
Record goes_to (s : fat32_fs_t) (lfn lfn' : full_lfn_t) (bytes room : list Z) (k : nat) : Prop := {
  gt_room : room = [] ∨ room = replicate (Z.to_nat (block_size s)) 0;
  gt_name : ∃ idx, generate_unique_shortname lfn idx = Done lfn';
  gt_start : (32 * k ≤ length bytes)%nat;
  gt_fits : (32 * (k + S (lfn_entry_count lfn)) ≤ length (bytes ++ room))%nat;
  gt_free : ∀ m, (k ≤ m < k + S (lfn_entry_count lfn))%nat → is_dirent_free (take 32 (drop (32 * m) (bytes ++ room))) = true
}.

(** The directory is as it was or has the entries; the answer is right, and
    there is one if the device is [fine] *)
Definition created (s : fat32_fs_t) (dde : dirent_ref) (chain bytes room : list Z) (lfn' : full_lfn_t) (k : nat) (fine : Prop)
    (o : outcome (option Z * fat32_fs_t)) : Prop :=
  match o with
  | Done (r, s') =>
      ∃ chain' bytes', dir_is s' dde chain' bytes' ∧ (bytes' = bytes ∨ bytes' = with_entries lfn' k (bytes ++ room))
        ∧ (∀ ofs, r = Some ofs → bytes' = with_entries lfn' k (bytes ++ room) ∧ same_layout s s' ∧ (∃ l, chain' = chain ++ l)
                                 ∧ places s chain' !! (k + lfn_entry_count lfn')%nat = Some ofs)
        ∧ (fine → is_Some r ∧ io_fine s')
  | Fault _ => ¬ fine
  end.

Lemma created_weaken s dde chain bytes room lfn' k (fine fine' : Prop) o :
  (fine' → fine) → created s dde chain bytes room lfn' k fine o → created s dde chain bytes room lfn' k fine' o.
Proof. unfold created. destruct o as [[r s']|]; [|tauto]. intros Hf (chain' & bytes' & H1 & H2 & H3 & H4). exists chain', bytes'. tauto. Qed.

Section creating.
Context (s : fat32_fs_t) (dde : dirent_ref) (chain bytes : list Z) (lfn : full_lfn_t).
Hypothesis Hdir : dir_is s dde chain bytes.
Hypothesis Hok : dir_ok s dde chain.
Hypothesis Hfree : ∃ c, is_free_cluster s c.
Hypothesis Hlfn : lfn_ok lfn.
Hypothesis Hfits : (S (lfn_entry_count lfn) ≤ per_cluster s)%nat.
Let count : nat := S (lfn_entry_count lfn).
Let block : block_size s = 32 * Z.of_nat (per_cluster s) := proj2 (geometry_block s (dk_geo _ _ _ Hok)).

(** The end of dirent_create *)
Definition finish (st : scan_t) (ext : Z) (lfn' : full_lfn_t) : FS (option Z) :=
  ok ← (if ext =? 0 then create_in_place st dde (take count (fragments lfn')) else create_extended st ext dde (take count (fragments lfn')));
  if negb ok then mret None
  else ins ← need_point st; mret (Some (ins + 32 * Z.of_nat (lfn_entry_count lfn'))).

Lemma used_cluster c : c ∈ chain → is_cluster c ∧ 2 ≤ c < end_cluster s ∧ (Z.to_nat c < length (fat s))%nat ∧ entry_apart s dde c.
Proof.
  intros Hc. pose proof (proj1 (Forall_forall _ _) (proj1 (di_chain _ _ _ _ Hdir)) c Hc) as Hcc. destruct (dk_used _ _ _ Hok c Hc) as [Hce _].
  pose proof (dk_table _ _ _ Hok) as [_ Hlen]. unfold is_cluster in Hcc. assert (2 ≤ c < end_cluster s) as Hr by lia.
  split; [done|]. split; [done|]. split; [lia|]. apply (dk_apart _ _ _ Hok); [done|by left].
Qed.

Lemma spare_cluster b : is_free_cluster s b → is_cluster b ∧ b ∉ chain ∧ (Z.to_nat b < length (fat s))%nat ∧ entry_apart s dde b.
Proof.
  intros Hb. pose proof (proj1 Hb) as Hr. pose proof (dk_table _ _ _ Hok) as [Hen Hlen]. split; [unfold is_cluster; lia|]. split.
  - intros Hc. by destruct (dk_used _ _ _ Hok b Hc) as [_ Hno].
  - split; [lia|]. apply (dk_apart _ _ _ Hok); [done|by right].
Qed.

Lemma chain_points A cl B v l : chain = A ++ cl :: B → chain_to (fat s) chain v → points dde A (set_io l s) cl.
Proof.
  intros Hch Hv. unfold points. destruct (last A) as [p|] eqn:Hp; simpl.
  - apply last_Some in Hp as [A' ->]. destruct (used_cluster p) as [Hpc _]; [rewrite Hch; set_solver|].
    rewrite decide_False by (unfold is_cluster in Hpc; lia). rewrite Hch, <- app_assoc in Hv. simpl in Hv.
    apply chain_to_app in Hv as [_ [Hv _]]. exact Hv.
  - apply last_None in Hp as ->. pose proof (di_start _ _ _ _ Hdir) as Hst. rewrite Hch in Hst. simpl in Hst. by simplify_eq.
Qed.

Section name.
Context (lfn' : full_lfn_t) (idx : Z).
Hypothesis Hgen : generate_unique_shortname lfn idx = Done lfn'.
Hypothesis Hlfn' : lfn_ok lfn'.
Hypothesis Hn : lfn_entry_count lfn' = lfn_entry_count lfn.

Lemma new_entries : length (take count (fragments lfn')) = count ∧ Forall (λ e, length e = 32%nat) (take count (fragments lfn'))
  ∧ length (mjoin (take count (fragments lfn'))) = (32 * count)%nat.
Proof.
  destruct Hlfn' as [He Hc]. rewrite Hn in Hc.
  assert (length (take count (fragments lfn')) = count) as Hl by (rewrite length_take; unfold count; lia).
  assert (Forall (λ e, length e = 32%nat) (take count (fragments lfn'))) as HF by by apply Forall_take.
  split; [done|]. split; [done|]. by rewrite join_length, Hl.
Qed.

Section in_place.
Context (A B : list Z) (cl : Z) (j : nat) (st : scan_t) (l : list Z).
Hypothesis Hch : chain = A ++ cl :: B.
Hypothesis Hrun : run_at s count cl (default 0 (last A)) (per_cluster s) j st.
Let k : nat := (length A * per_cluster s + j)%nat.

Lemma chunks_length : length bytes = (32 * (length A * per_cluster s) + 32 * per_cluster s + 32 * (length B * per_cluster s))%nat.
Proof. rewrite <- (di_bytes _ _ _ _ Hdir), Hch, chain_bytes_length by done. rewrite length_app. simpl. lia. Qed.

Lemma goes_in_place : goes_to s lfn lfn' bytes [] k.
Proof.
  destruct Hrun as (Hj & _ & _ & _ & Hfr & _). pose proof chunks_length as Hl.
  constructor; [by left|by exists idx|unfold k; lia|rewrite app_nil_r; fold count; unfold k; lia|]. intros m Hm. rewrite app_nil_r. fold count in Hm.
  rewrite <- (di_bytes _ _ _ _ Hdir), Hch. replace m with (length A * per_cluster s + (m - length A * per_cluster s))%nat by (unfold k in Hm; lia).
  rewrite chunk_in_cluster by (done || unfold k in Hm; lia). apply Hfr. unfold k in Hm. lia.
Qed.

(** The entries go to their cluster *)
Lemma view_inserted d : d = list_inserts (32 * j) (mjoin (take count (fragments lfn'))) (cluster_data s cl) →
  (A ≫= cluster_data s) ++ d ++ (B ≫= cluster_data s) = with_entries lfn' k (bytes ++ []).
Proof.
  intros ->. destruct Hrun as (Hj & _). destruct new_entries as (_ & _ & Hjl). unfold with_entries. rewrite Hn. fold count. rewrite app_nil_r.
  rewrite <- (di_bytes _ _ _ _ Hdir), Hch, bind_app. cbn [mbind list_bind]. unfold k.
  replace (32 * (length A * per_cluster s + j))%nat with (length (A ≫= cluster_data s) + 32 * j)%nat by (rewrite chain_bytes_length by done; lia).
  rewrite list_inserts_app_r, list_inserts_front; [done|]. rewrite cluster_data_length by done. lia.
Qed.

Lemma finish_in_place : created s dde chain bytes [] lfn' k (Forall (λ r, 0 ≤ r) l) (finish st 0 lfn' (set_io l s)).
Proof.
  destruct (chained_chain_to _ _ (di_chain _ _ _ _ Hdir) (di_ends _ _ _ _ Hdir)) as (vend & Hvend & Heof).
  destruct (allocate_near_free (set_io l s) cl (dk_table _ _ _ Hok) Hfree) as (b & Hal & Hb).
  destruct (spare_cluster b Hb) as (Hbc & Hbn & Hbl & Hba). pose proof Hrun as (Hj & Hins & Hres & Hprev & _).
  destruct new_entries as (_ & _ & Hjl). set (es := take count (fragments lfn')) in *.
  assert (∃ v, fat s !! Z.to_nat cl = Some v) as [v Hv].
  { apply lookup_lt_is_Some_2. apply used_cluster. rewrite Hch. set_solver. }
  pose proof (create_in_place_spec (set_io l s) dde A B cl b) as Hspec. rewrite <- Hch in Hspec.
  specialize (Hspec ltac:(pose proof (dk_geo _ _ _ Hok); same_geometry) (proj1 (di_chain _ _ _ _ Hdir)) (dk_nodup _ _ _ Hok) Hbc Hbn).
  specialize (Hspec ltac:(intros c [->|Hc]%elem_of_cons; [done|by apply used_cluster]) ltac:(intros c [->|Hc]%elem_of_cons; [done|by apply used_cluster])).
  specialize (Hspec (di_start _ _ _ _ Hdir) (dk_len2 _ _ _ Hok) (dk_entry _ _ _ Hok) Hal (chain_points A cl B vend l Hch Hvend)).
  specialize (Hspec st es (32 * j)%nat vend ltac:(rewrite Hins; do 2 f_equal; lia) Hres Hprev).
  specialize (Hspec ltac:(rewrite Hjl; simpl block_size; rewrite block; lia) Hvend Heof v Hv).
  change (cluster_data (set_io l s)) with (cluster_data s) in Hspec.
  unfold finish. simpl (0 =? 0). cbv iota. fold es. unfold mbind at 1, M_bind. destruct (create_in_place st dde es (set_io l s)) as [[ok s']|]; [|exact Hspec].
  destruct Hspec as (chain' & d & Hd & Hor & Hyes & Hfine).
  destruct ok; cbn [negb]; unfold need_point; rewrite ?Hins; run; exists chain', ((A ≫= cluster_data s) ++ d ++ (B ≫= cluster_data s)); (split; [done|]).
  - destruct (Hyes eq_refl) as (-> & -> & (Hlay & _)). pose proof (view_inserted _ eq_refl) as Hview. fold es in Hview. rewrite Hview. split; [by right|]. split; [|intros H; split; [done|by apply Hfine]].
    intros ofs [= <-]. split; [done|]. split; [done|]. split; [exists []; by rewrite app_nil_r|]. unfold k.
    rewrite Hch, <- Nat.add_assoc, places_lookup by (rewrite Hn; unfold count in Hj; lia). f_equal. lia.
  - split; [|split; [done|intros H; by destruct (Hfine H)]]. destruct Hor as [->| ->]; [left|right; by apply view_inserted].
    rewrite <- (di_bytes _ _ _ _ Hdir), Hch, bind_app. done.
Qed.
End in_place.

Section in_new.
Context (new : Z) (st : scan_t) (l : list Z).
Hypothesis Hnew : is_free_cluster s new.
Hypothesis Hrun : run_at (taken new s) count new (default 0 (last chain)) (per_cluster s) 0 st.
Let k : nat := (length chain * per_cluster s)%nat.
Let room : list Z := replicate (Z.to_nat (block_size s)) 0.

Lemma goes_to_new : goes_to s lfn lfn' bytes room k.
Proof.
  destruct Hrun as (Hj & _). pose proof (chain_bytes_length s chain block) as Hl. rewrite (di_bytes _ _ _ _ Hdir) in Hl.
  constructor; [by right|by exists idx|unfold k; lia|unfold room; rewrite length_app, length_replicate, Hl, block; fold count; unfold k; lia|].
  intros m Hm. unfold room. rewrite drop_app_ge, Hl by (unfold k in Hm; lia). unfold is_dirent_free, byte_at.
  rewrite lookup_take_lt, lookup_drop, lookup_replicate_2 by (rewrite ?block; fold count in Hm; unfold k in Hm; lia). done.
Qed.

Lemma finish_new : created s dde chain bytes room lfn' k (Forall (λ r, 0 ≤ r) l) (finish st new lfn' (set_io l (taken new s))).
Proof.
  destruct (spare_cluster new Hnew) as (Hnc & Hnn & Hnl & Hna). pose proof Hrun as (Hj & Hins & Hres & Hprev & _).
  destruct new_entries as (_ & _ & Hjl). set (es := take count (fragments lfn')) in *.
  destruct (last chain) as [p|] eqn:Hlast; [|by destruct (di_ends _ _ _ _ Hdir) as (? & ? & ? & _); congruence].
  pose proof (create_extended_spec s dde chain bytes new p l Hdir (dk_geo _ _ _ Hok) (dk_nodup _ _ _ Hok) Hnn Hnc) as Hspec.
  specialize (Hspec ltac:(intros c [->|Hc]%elem_of_cons; [done|by apply used_cluster]) (dk_len2 _ _ _ Hok) Hna Hlast st es 0%nat).
  specialize (Hspec ltac:(rewrite Hins; do 2 f_equal; change (cluster_place (taken new s) new) with (cluster_place s new); lia) Hres Hprev
                ltac:(rewrite Hjl, block; lia)). fold room in Hspec.
  pose proof (chain_bytes_length s chain block) as Hl. rewrite (di_bytes _ _ _ _ Hdir) in Hl.
  assert (bytes ++ list_inserts 0 (mjoin es) room = with_entries lfn' k (bytes ++ room)) as Hview.
  { unfold with_entries. rewrite Hn. fold count. fold es. unfold k.
    replace (32 * (length chain * per_cluster s))%nat with (length bytes + 0)%nat by lia. by rewrite list_inserts_app_r. }
  rewrite Hview in Hspec. unfold finish. rewrite (proj2 (Z.eqb_neq new 0)) by (destruct Hnew; lia). fold es. unfold mbind at 1, M_bind.
  destruct (create_extended st new dde es (set_io l (taken new s))) as [[ok s']|]; [|done].
  destruct Hspec as (chain' & bytes' & Hd & Hor & Hyes & Hfine).
  destruct ok; cbn [negb]; unfold need_point; rewrite ?Hins; run; exists chain', bytes'; (split; [done|]; split; [done|]).
  - destruct (Hyes eq_refl) as (-> & -> & Hlay). split; [|intros H; split; [done|by apply Hfine]].
    intros ofs [= <-]. split; [done|]. split; [done|]. split; [by exists [new]|]. unfold k.
    rewrite places_lookup by (rewrite Hn; unfold count in Hj; lia). f_equal.
    change (cluster_place (taken new s) new) with (cluster_place s new). lia.
  - split; [done|intros H; by destruct (Hfine H)].
Qed.
End in_new.
End name.

(** The entries go to free ones of the directory, or of the cluster it gets *)
Lemma dirent_create_spec :
  io_fine_for (S (length chain)) s →
  ∃ room k lfn', goes_to s lfn lfn' bytes room k ∧ lfn_ok lfn' ∧ created s dde chain bytes room lfn' k (io_fine s) (dirent_create dde lfn s).
Proof.
  intros Hio. destruct (chained_chain_to _ _ (di_chain _ _ _ _ Hdir) (di_ends _ _ _ _ Hdir)) as (vend & Hvend & Heof).
  pose proof (chain_short _ _ _ Hok (proj1 (di_chain _ _ _ _ Hdir))) as Hshort. unfold dirent_create, load_dirent. run.
  pose proof (di_start _ _ _ _ Hdir) as Hst. set (c := dirent_start_cluster (dirent_of s dde)) in *.
  assert (∃ B, chain = c :: B) as [B HB] by (destruct chain; simplify_eq/=; eauto).
  pose proof (proj1 (di_chain _ _ _ _ Hdir)) as HF. rewrite HB in HF, Hvend, Hio, Hshort. simpl in Hshort.
  destruct (scan_chain_spec count B (S (length (fat s))) [] c scan_init s vend (dk_geo _ _ _ Hok) (dk_table _ _ _ Hok) Hfree) as (st & l & Hfi & Hcase);
    [unfold count; lia|done|done|done|done|lia|done|]. simpl app in Hcase. rewrite <- HB in Hcase.
  destruct (generate_unique_shortname_ok lfn (ins_index st) Hlfn) as (lfn' & Hgen & Hlfn' & Hn).
  destruct Hcase as [(A' & cl & B' & j & Hch & Hrun & Heq)|(new & Hnew & Hrun & Heq)]; rewrite (bind_done _ _ _ _ _ Heq), Hgen.
  - eexists [], _, lfn'. split; [by eapply goes_in_place|]. split; [done|]. apply (created_weaken _ _ _ _ _ _ _ (Forall (λ r, 0 ≤ r) l)); [done|].
    eapply finish_in_place; eassumption.
  - eexists _, _, lfn'. split; [by eapply goes_to_new|]. split; [done|]. apply (created_weaken _ _ _ _ _ _ _ (Forall (λ r, 0 ≤ r) l)); [done|].
    eapply finish_new; eassumption.
Qed.
End creating.

(** * FAT directories: a name that is created is there, and only then *)


(** ** The entries of the new name *)

(** Pieces differ from those searched for in the checksum only *)
Lemma piece_name_sum v e : length e = 32%nat → piece_name (<[0x0D%nat := v]> e) = piece_name e.
Proof.
  intros He. unfold piece_name. rewrite (drop_insert_ge _ 1 13), !(drop_insert_lt _ _ 13) by lia.
  rewrite take_insert_ge by (simpl; lia). done.
Qed.

Lemma unique_shortname_length i : length (unique_shortname i) = 11%nat.
Proof. unfold unique_shortname. by rewrite !length_app, !length_fmap, !length_seq. Qed.

(** What generate_unique_shortname leaves *)
Lemma generated lfn idx lfn' sfn :
  generate_unique_shortname lfn idx = Done lfn' → fragments lfn !! lfn_entry_count lfn = Some sfn →
  let name := unique_shortname idx in
  lfn_entry_count lfn' = lfn_entry_count lfn ∧ fragments lfn' !! lfn_entry_count lfn = Some (put_name name sfn)
  ∧ ∀ i e, (i < lfn_entry_count lfn)%nat → fragments lfn !! i = Some e → fragments lfn' !! i = Some (<[0x0D%nat := lfn_checksum name]> e).
Proof.
  intros Hgen Hn name. unfold generate_unique_shortname in Hgen. rewrite Hn in Hgen. simplify_eq/=. split; [done|]. split.
  - rewrite list_lookup_imap, list_lookup_insert_eq by by eapply lookup_lt_Some. simpl. by rewrite decide_False by lia.
  - intros i e Hi He. rewrite list_lookup_imap, list_lookup_insert_ne, He by lia. simpl. by rewrite decide_True.
Qed.

(** The new entry *)
Lemma new_entry_spec now mode e d t cs :
  date_encode now = Done (d, t, cs) → length e = 32%nat →
  ∃ e', new_entry now mode e = Done e' ∧ length e' = 32%nat ∧ attr e' ≠ 0 ∧ attr e' ≠ FAT_LONGNAME.
Proof.
  intros Hd He. unfold new_entry. rewrite Hd. eexists. split; [reflexivity|].
  set (e1 := put_word 0x12 d _). assert (length e1 = 32%nat) as Hl by (unfold e1; rewrite !length_put_word, length_insert, !length_put_word; done).
  split; [by rewrite length_insert|]. unfold attr. rewrite byte_put_eq by lia. by case_match.
Qed.

(** The name that is looked for is the one that was written *)
Lemma written_is_file lfn lfn1 lfn' idx sfn :
  let n := lfn_entry_count lfn in
  (0 < n)%nat → lfn_entry_count lfn1 = n → entries_ok (fragments lfn) → (∀ i, (i < n)%nat → fragments lfn1 !! i = fragments lfn !! i) →
  (∀ i, (i < n)%nat → ∃ e, fragments lfn !! i = Some e ∧ attr e = FAT_LONGNAME) →
  fragments lfn1 !! n = Some sfn → length sfn = 32%nat → attr sfn ≠ 0 → attr sfn ≠ FAT_LONGNAME → generate_unique_shortname lfn1 idx = Done lfn' →
  ∃ short, take (S n) (fragments lfn') = take n (fragments lfn') ++ [short] ∧ is_file lfn (take n (fragments lfn')) short.
Proof.
  intros n Hn0 Hc [_ H32] Hsame Hat Hsfn Hs32 Ha0 Hal Hgen. rewrite <- Hc in Hsfn.
  destruct (generated lfn1 idx lfn' sfn Hgen Hsfn) as (Hcnt & Hshort & Hpc). rewrite Hc in *. set (name := unique_shortname idx) in *.
  assert (length name = 11%nat) as H11 by apply unique_shortname_length.
  exists (put_name name sfn). split; [by apply take_S_r|].
  assert (attr (put_name name sfn) = attr sfn) as Hattr.
  { unfold attr, byte_at, put_name. rewrite lookup_app_r by lia. rewrite H11, lookup_drop. done. }
  split; [congruence|]. split; [congruence|]. rewrite decide_False by (unfold n in Hn0; lia).
  assert (n < length (fragments lfn'))%nat as Hlt by by eapply lookup_lt_Some.
  split; [rewrite length_take; unfold n in *; lia|].
  assert (∀ i, (i < n)%nat → ∃ e, fragments lfn !! i = Some e ∧ attr e = FAT_LONGNAME ∧ length e = 32%nat
            ∧ take n (fragments lfn') !! i = Some (<[0x0D%nat := lfn_checksum name]> e)) as Hp.
  { intros i Hi. destruct (Hat i Hi) as (e & He & Hae). exists e. split; [done|]. split; [done|].
    split; [exact (proj1 (Forall_lookup _ _) H32 _ _ He)|]. rewrite lookup_take_lt by done. apply Hpc; [done|]. by rewrite Hsame. }
  split.
  - intros i e' He'. pose proof (lookup_lt_Some _ _ _ He') as Hi. rewrite length_take in Hi.
    destruct (Hp i ltac:(lia)) as (e & He & Hae & Hl & He''). rewrite He'' in He'. simplify_eq.
    split; [unfold attr; by rewrite byte_put_ne|]. exists e. split; [done|]. split; [unfold ordinal; by rewrite byte_put_ne|]. by rewrite piece_name_sum.
  - destruct (Hp (n - 1)%nat ltac:(lia)) as (e & _ & _ & Hl & He). exists (<[0x0D%nat := lfn_checksum name]> e). split.
    + rewrite last_lookup, length_take, Nat.min_l by lia. rewrite <- Nat.sub_1_r. exact He.
    + unfold checksum. by rewrite byte_put_eq by lia.
Qed.

(** ** The directory as entries, with the new ones *)

Lemma dir_entries_layout s s' chain : same_layout s s' → places s' chain = places s chain ∧ per_cluster s' = per_cluster s.
Proof.
  intros (Hp & Hb & _). assert (per_cluster s' = per_cluster s) as Hpc by (unfold per_cluster; by rewrite Hb). split; [|done].
  unfold places. rewrite Hpc. induction chain as [|c chain IH]; [done|]. cbn [mbind list_bind]. by rewrite Hp, <- IH.
Qed.

(** A list of places and entries, with some entries overwritten *)
Lemma zip_inserted (P : list Z) (E es : list fat32_dir_union_t) k short ofs :
  (k + S (length es) ≤ length E)%nat → length P = length E → P !! (k + length es)%nat = Some ofs →
  ∃ post, zip P (list_inserts k (es ++ [short]) E) = take k (zip P E) ++ zip (take (length es) (drop k P)) es ++ (ofs, short) :: post.
Proof.
  intros Hk HP Hofs. set (n := length es) in *.
  assert (list_inserts k (es ++ [short]) E = take k E ++ es ++ short :: drop (S n) (drop k E)) as ->.
  { pose proof (inserts_middle (take k E) (take (S n) (drop k E)) (drop (S n) (drop k E)) (es ++ [short])) as Hm.
    assert (length (take k E) = k) as HkE by (rewrite length_take; lia). rewrite !take_drop, HkE, <- (app_assoc es) in Hm. apply Hm.
    rewrite length_app, length_take, length_drop. change (length [short]) with 1%nat. fold n. lia. }
  rewrite !zip_with_app_r, zip_with_take, length_take, Nat.min_l, drop_drop by lia. fold n. rewrite (drop_S P ofs (k + n)) by done.
  eexists. reflexivity.
Qed.

(** Every piece of the name in the directory is followed by an entry in use *)
Definition no_stray (lfn : full_lfn_t) (es : list fat32_dir_union_t) : Prop :=
  ∀ i e m, es !! i = Some e → is_piece lfn m e → ∃ f, es !! S i = Some f ∧ is_dirent_free f = false.

Lemma stray_fresh lfn es k : no_stray lfn es → (∀ f, es !! k = Some f → is_dirent_free f = true) → fresh_after lfn (take k es).
Proof.
  intros Hs Hk e m Hlast Hp. rewrite last_lookup in Hlast. pose proof (lookup_lt_Some _ _ _ Hlast) as Hlt. rewrite length_take in *.
  rewrite lookup_take_lt in Hlast by lia. destruct (Hs _ _ _ Hlast Hp) as (f & Hf & Hu).
  pose proof (lookup_lt_Some _ _ _ Hf) as Hl. replace (S (pred (k `min` length es))) with k in Hf by lia. rewrite Hk in Hu; done.
Qed.

Lemma dir_entries_values s chain : block_size s = 32 * Z.of_nat (per_cluster s) →
  (dir_entries s chain).*2 = entries_of (chain ≫= cluster_data s) (length chain * per_cluster s).
Proof. intros Hb. rewrite dir_entries_zip by done. apply snd_zip. rewrite entries_length, places_length. done. Qed.

(** The directory with the new entries, as entries *)
Lemma created_entries s s' chain l lfn' n k room short ofs :
  let bytes := chain ≫= cluster_data s in
  block_size s = 32 * Z.of_nat (per_cluster s) → (0 < per_cluster s)%nat → same_layout s s' →
  (chain ++ l) ≫= cluster_data s' = list_inserts (32 * k) (mjoin (take n (fragments lfn') ++ [short])) (bytes ++ room) →
  length (take n (fragments lfn')) = n → Forall (λ e, length e = 32%nat) (take n (fragments lfn') ++ [short]) →
  (32 * k ≤ length bytes)%nat → (32 * (k + S n) ≤ length (bytes ++ room))%nat → places s (chain ++ l) !! (k + n)%nat = Some ofs →
  ∃ ps post, dir_entries s' (chain ++ l) = take k (dir_entries s chain) ++ ps ++ (ofs, short) :: post ∧ ps.*2 = take n (fragments lfn').
Proof.
  intros bytes Hb Hpos Hlay Hdata Hn H32 Hk Hfit Hofs. destruct (dir_entries_layout s s' (chain ++ l) Hlay) as [Hpl Hpc].
  assert (block_size s' = 32 * Z.of_nat (per_cluster s')) as Hb' by (destruct Hlay as (_ & -> & _); by rewrite Hpc).
  pose proof (chain_bytes_length s chain Hb) as Hl. fold bytes in Hl. set (N := (length (chain ++ l) * per_cluster s)%nat).
  assert (length (bytes ++ room) = 32 * N)%nat as HN.
  { rewrite <- (length_inserts (bytes ++ room) (32 * k) (mjoin (take n (fragments lfn') ++ [short]))), <- Hdata, chain_bytes_length by done. by rewrite Hpc. }
  rewrite dir_entries_zip, Hpl, Hpc, Hdata by done. fold N. set (M := (length chain * per_cluster s)%nat) in *.
  assert (N = M + length l * per_cluster s)%nat as HNM by (unfold N, M; rewrite length_app; lia).
  rewrite entries_inserted by (done || rewrite length_app; simpl; lia).
  destruct (zip_inserted (places s (chain ++ l)) (entries_of (bytes ++ room) N) (take n (fragments lfn')) k short ofs) as (post & Hzip);
    [rewrite entries_length; lia|by rewrite places_length, entries_length|by rewrite Hn|].
  eexists _, post. rewrite Hzip. split.
  - f_equal. rewrite dir_entries_zip by done. fold bytes M. rewrite !zip_with_take, places_app. f_equal.
    + rewrite take_app_le by (rewrite places_length; fold M; lia). done.
    + rewrite HNM, (entries_of_app _ _ M) by done. rewrite take_app_le by (rewrite entries_length; lia). done.
  - apply snd_zip. rewrite !Hn, length_take, length_drop, places_length. fold N. lia.
Qed.

(** What search_dir answers, by the entries *)
Lemma search_dir_list s c chain filename n lfn :
  chained (fat s) (c :: chain) → chain_ends (fat s) (c :: chain) → io_fine s → (length chain ≤ length (fat s))%nat →
  dirents_from_name filename n = Done lfn →
  ∃ l, search_dir c filename n s
       = Done (match search_list lfn (dir_entries s (c :: chain)) (Search 0 0) with inl ofs => Some ofs | inr _ => None end, set_io l s).
Proof.
  intros Hch Hend Hio Hlen Hlfn. unfold search_dir. rewrite Hlfn. run. apply search_chain_list; [done..|lia].
Qed.

Lemma created_chain_length s s' chain l k es room :
  block_size s = 32 * Z.of_nat (per_cluster s) → (0 < per_cluster s)%nat → same_layout s s' →
  (chain ++ l) ≫= cluster_data s' = list_inserts k es ((chain ≫= cluster_data s) ++ room) →
  room = [] ∨ room = replicate (Z.to_nat (block_size s)) 0 → (length l ≤ 1)%nat.
Proof.
  intros Hb Hpos Hlay Hdata Hroom. destruct (dir_entries_layout s s' chain Hlay) as [_ Hpc].
  assert (length room ≤ 32 * per_cluster s)%nat as Hr by (destruct Hroom as [->| ->]; rewrite ?length_replicate; simpl; lia).
  apply (f_equal length) in Hdata. rewrite length_inserts, length_app, !chain_bytes_length, length_app, Hpc in Hdata; [nia|done|].
  destruct Hlay as (_ & -> & _). by rewrite Hpc.
Qed.

(** The entries are found where they were put *)
Lemma dirent_create_found s dde chain bytes filename len lfn lfn1 c s1 :
  let n := lfn_entry_count lfn in
  dir_is s dde chain bytes → dir_ok s dde chain → (∃ c, is_free_cluster s c) → io_fine s →
  dirents_from_name filename len = Done lfn → lfn_ok lfn1 → lfn_entry_count lfn1 = n → (0 < n < per_cluster s)%nat →
  (∀ idx lfn', generate_unique_shortname lfn1 idx = Done lfn' →
     ∃ short, take (S n) (fragments lfn') = take n (fragments lfn') ++ [short] ∧ is_file lfn (take n (fragments lfn')) short) →
  no_stray lfn (dir_entries s chain).*2 → head chain = Some c → search_dir c filename len s = Done (None, s1) →
  ∃ ofs s', dirent_create dde lfn1 s = Done (Some ofs, s')
    ∧ ∃ l, search_dir (dirent_start_cluster (dirent_of s' dde)) filename len s' = Done (Some ofs, set_io l s').
Proof.
  intros n Hdir Hok Hfree Hio Hlfn Hlfn1 Hn1 Hn Hgen Hstray Hc Hnone. destruct (geometry_block s (dk_geo _ _ _ Hok)) as [Hbpos Hb].
  pose proof (chain_short _ _ _ Hok (proj1 (di_chain _ _ _ _ Hdir))) as Hshort.
  destruct (dirent_create_spec s dde chain bytes lfn1 Hdir Hok Hfree Hlfn1) as (room & k & lfn' & Hgo & Hlfn' & Hcr);
    [rewrite Hn1; lia|by apply Forall_take|].
  destruct Hgo as [Hroom [idx Hg] Hstart Hfit Hfr]. rewrite Hn1 in Hfit, Hfr. destruct (Hgen idx lfn' Hg) as (short & Htake & Hfile).
  destruct (generate_unique_shortname_ok lfn1 idx Hlfn1) as (lfn2 & Hg2 & _ & Hc2). rewrite Hg in Hg2. injection Hg2 as <-. rewrite Hn1 in Hc2.
  destruct (dirent_create dde lfn1 s) as [[r s']|]; [|by destruct (Hcr Hio)].
  destruct Hcr as (chain' & bytes' & Hd' & _ & Hyes & Hfine). destruct (Hfine Hio) as [[ofs ->] Hio'].
  destruct (Hyes ofs eq_refl) as (-> & Hlay & [l ->] & Hofs). exists ofs, s'. split; [done|]. rewrite Hc2 in Hofs.
  assert (length (take n (fragments lfn')) = n ∧ Forall (λ e, length e = 32%nat) (take (S n) (fragments lfn'))) as [Hln H32].
  { destruct Hlfn' as [He Hcn]. split; [rewrite length_take; lia|by apply Forall_take]. }
  pose proof (di_bytes _ _ _ _ Hdir) as Hby. pose proof (di_bytes _ _ _ _ Hd') as Hby'. unfold with_entries in Hby'. rewrite Hc2, Htake, <- Hby in Hby'.
  rewrite <- Hby in Hstart, Hfit, Hfr. rewrite Htake in H32.
  destruct (created_entries s s' chain l lfn' n k room short ofs Hb ltac:(lia) Hlay Hby' Hln H32 Hstart Hfit Hofs) as (ps & post & Hent & Hps).
  destruct chain as [|c0 chain]; [done|]. simpl in Hc. simplify_eq. pose proof (di_start _ _ _ _ Hd') as Hst'. simpl in Hst'. simplify_eq.
  destruct (search_dir_list s _ chain filename len lfn (di_chain _ _ _ _ Hdir) (di_ends _ _ _ _ Hdir) Hio ltac:(simpl in Hshort; lia) Hlfn) as (l0 & Hold).
  rewrite Hnone in Hold. set (cc := dirent_start_cluster (dirent_of s' dde)) in *. change ((cc :: chain) ++ l) with (cc :: (chain ++ l)) in *.
  destruct (search_dir_list s' cc (chain ++ l) filename len lfn (di_chain _ _ _ _ Hd') (di_ends _ _ _ _ Hd') Hio') as (l1 & Hnew); [|done|].
  { pose proof (created_chain_length s s' (cc :: chain) l _ _ room Hb ltac:(lia) Hlay Hby' Hroom) as Hl. destruct Hlay as (_ & _ & ->).
    rewrite length_app. simpl in Hshort. lia. }
  exists l1. rewrite Hnew, Hent. destruct (search_list lfn (dir_entries s (cc :: chain)) (Search 0 0)) as [|st] eqn:Hlist; [done|].
  rewrite <- (take_drop k (dir_entries s (cc :: chain))), search_list_app in Hlist.
  destruct (search_list lfn (take k (dir_entries s (cc :: chain))) (Search 0 0)) as [|st1] eqn:Hpre; [done|].
  rewrite (search_here _ _ _ _ _ _ _ st1); [done|done| |by rewrite Hps].
  apply (search_fresh lfn _ _ _ (dirents_from_name_counts _ _ _ Hlfn)) in Hpre; [done| |done].
  rewrite fmap_take. apply stray_fresh; [done|]. intros f Hf. rewrite dir_entries_values in Hf by done.
  pose proof (lookup_lt_Some _ _ _ Hf) as Hlt. rewrite entries_length in Hlt. rewrite entries_lookup in Hf by done. injection Hf as <-.
  specialize (Hfr k ltac:(lia)). rewrite drop_app_le, take_app_le in Hfr; [done|..]; rewrite ?length_drop, (chain_bytes_length s (cc :: chain) Hb); lia.
Qed.

(** C9: FAT: a name that a directory does not have yet, of 1 to 255 characters
    of the Basic Multilingual Plane, and long: once create_dirent has made
    it, searching the directory for it finds exactly the new entry, at the
    place that create_dirent answered. *)
Theorem fat_create_found s dde chain bytes now path mode cs t c lfn s1 :
  dir_is s dde chain bytes → dir_ok s dde chain → (∃ c, is_free_cluster s c) → io_fine s → (∃ d t cs, date_encode now = Done (d, t, cs)) →
  last_name path path = utf8_string cs ++ t → name_span (utf8_string cs ++ t) = length (utf8_string cs) →
  Forall name_char cs → (1 ≤ length cs ≤ 255)%nat → dirents_from_name (utf8_string cs ++ t) (length (utf8_string cs)) = Done lfn →
  (0 < lfn_entry_count lfn < per_cluster s)%nat → no_stray lfn (dir_entries s chain).*2 →
  head chain = Some c → search_dir c (utf8_string cs ++ t) (length (utf8_string cs)) s = Done (None, s1) →
  ∃ ofs s', create_dirent now path dde mode s = Done (Some ofs, s')
    ∧ ∃ l, search_dir (dirent_start_cluster (dirent_of s' dde)) (utf8_string cs ++ t) (length (utf8_string cs)) s' = Done (Some ofs, set_io l s').
Proof.
  intros Hdir Hok Hfree Hio (d & t' & cs' & Hdate) Hname Hspan Hcs Hlen Hlfn Hn Hstray Hc Hnone.
  destruct (geometry_block s (dk_geo _ _ _ Hok)) as [Hbpos Hb].
  destruct (dirents_of_name cs t Hcs Hlen) as (full & Hfull & Hent & Hcase). rewrite Hlfn in Hfull. simplify_eq.
  destruct Hcase as [?|(_ & _ & short0 & Hs0 & Hpieces)]; [lia|]. set (n := lfn_entry_count full) in *.
  destruct (new_entry_spec now mode short0 d t' cs' Hdate) as (sfn & Hnew & Hs32 & Ha0 & Hal); [exact (proj1 (Forall_lookup _ _) (proj2 Hent) _ _ Hs0)|].
  set (lfn1 := FullLfn (<[n := sfn]> (fragments full)) n).
  assert (n < length (fragments full))%nat as Hnl by by eapply lookup_lt_Some.
  assert (lfn_ok lfn1) as Hlfn1.
  { constructor; simpl; [apply (entries_ok_insert _ _ _ Hent Hs32)|by rewrite length_insert]. }
  destruct (dirent_create_found s dde chain bytes (utf8_string cs ++ t) (length (utf8_string cs)) full lfn1 c s1) as (ofs & s' & Hrun & Hfound);
    [done..| |done|done|done|].
  - intros idx lfn' Hgen. apply (written_is_file full lfn1 lfn' idx sfn);
      [lia|done|done|intros i Hi; simpl; rewrite list_lookup_insert_ne by lia; done| |simpl; by apply list_lookup_insert_eq|done|done|done|done].
    intros i Hi. destruct (Hpieces i Hi) as (e & He & Hp & _). eauto.
  - exists ofs, s'. split; [|done]. unfold create_dirent. fold n. rewrite Hname, Hspan, Hlfn. fold n. by rewrite Hs0, Hnew.
Qed.
