(* ===== verification/Fat32Mount.v ===== *)
(** * kernel/fs/fat32: mounting a volume, and the calls on open files

    The first sector of the partition, as bytes, gives the layout that the
    rest relies on.  What the drive answers, whether memory and the mapping
    are there, are parameters. *)

From stdpp Require Import base tactics list numbers option.
From S2P Require Import Prelude BitSearch Utf TimeOfDay Fat32Name Fat32 Fat32Thms Fat32Create.

#[local] Open Scope Z_scope.

(** ** The parameter block *)

Record fat32_bpb_data_t := Bpb {
  bytes_per_sec : Z;
  sec_per_cluster : Z;
  reserved_sectors : Z;
  number_of_fats : Z;
  sec_per_fat : Z;
  root_dir_start : Z;
  serial : Z;
  signature : Z;
  first_fat_lba : Z;
  cluster_begin_lba : Z
}.

Definition long_at (i : nat) (e : list Z) : Z := word_at i e + 65536 * word_at (S (S i)) e.

Definition fat32_parse_bpb (partition_lba : Z) (sector_buffer : list Z) : fat32_bpb_data_t :=
  let sec_per_cluster := byte_at 0x0D sector_buffer in
  let reserved_sectors := word_at 0x0E sector_buffer in
  let number_of_fats := byte_at 0x10 sector_buffer in
  let sec_per_fat := long_at 0x24 sector_buffer in
  let first_fat_lba := u64 (partition_lba + reserved_sectors) in
  Bpb (word_at 0x0B sector_buffer) sec_per_cluster reserved_sectors number_of_fats sec_per_fat
    (long_at 0x2C sector_buffer) (long_at 0x43 sector_buffer) (word_at 0x1FE sector_buffer)
    first_fat_lba (u64 (first_fat_lba + u32 (number_of_fats * sec_per_fat) - 2 * sec_per_cluster)).

(** ** Mounting *)

(** bit_log2, whose assertion fails for 0 *)
Definition log2_or_stop (w : width) (n : Z) : outcome Z := match bit_log2 w n with Some k => Done k | None => Fault AssertFailed end.

(** [n] cluster numbers of the mapping, from [ofs] on *)
Definition table_at (disk : Z → Z) (ofs : Z) (n : nat) : list Z :=
  (λ i, s32 (long_at 0 ((λ j, disk (ofs + 4 * Z.of_nat i + Z.of_nat j)) <$> seq 0 4))) <$> seq 0 n.

(** fs_init_info_t, and what the drive says *)
Record conn_t := Conn {
  part_st : Z;
  part_len : Z;
  sector_size : Z;
  buffer_ok : bool;
  first_sector : option (list Z);
  mapping : option (Z → Z)
}.

Definition mount (conn : conn_t) : outcome (option fat32_fs_t) :=
  if negb (buffer_ok conn) then Done None
  else match first_sector conn with
  | None => Done None
  | Some sector_buffer =>
      let lba_en := u64 (part_st conn + part_len conn) in
      let bpb := fat32_parse_bpb 0 sector_buffer in
      let root_cluster := s32 (root_dir_start bpb) in
      let root_dirent := set_start_cluster root_cluster (<[0x0B%nat := FAT_ATTR_DIR]> (replicate 32 0)) in
      let cluster_ofs := s32 (cluster_begin_lba bpb) in
      let* sector_shift := log2_or_stop W32 (sector_size conn) in
      let* block_shift := log2_or_stop W8 (sec_per_cluster bpb) in
      let block_size := u32 (Z.shiftl (sector_size conn) block_shift) in
      let* fat_block_shift := log2_or_stop W32 (Z.shiftr block_size 2) in
      match mapping conn with
      | None => Done None
      | Some disk =>
          let fat_size := s32 (u32 (Z.shiftl (sec_per_fat bpb) sector_shift)) in
          let fat_at lba := table_at disk (u64 (Z.shiftl lba sector_shift)) (Z.to_nat (fat_size / 4)) in
          let end_cluster := s32 (Z.shiftr (u64 (lba_en - cluster_ofs)) block_shift) in
          Done (Some (Fs (fat_at (first_fat_lba bpb)) (fat_at (u64 (first_fat_lba bpb + sec_per_fat bpb))) disk root_dirent root_cluster cluster_ofs
                        end_cluster block_size sector_shift block_shift fat_block_shift []))
      end
  end.

(** ** Open files *)

Section calls.
Context (copy_ok : Z → Z → bool) (now : time_of_day_t).

Definition ENOTDIR : Z := 84.
Definition O_DIRECTORY : Z := 0x80.

(** 0 and the handle, or the error *)
Definition openat (handle_free : bool) (path : list Z) (flags mode : Z) : FS (Z * option file_handle_t) :=
  r ← create_handle now handle_free path flags mode;
  mret match r with inl file => (0, Some file) | inr err => (- err, None) end.

Definition release (file : file_handle_t) : FS Z := if dirty file then io_status else mret 0.

Definition opendirat (handle_free : bool) (path : list Z) : FS (Z * option file_handle_t) :=
  r ← create_handle now handle_free path O_DIRECTORY 0;
  match r with
  | inr err => mret (- err, None)
  | inl file =>
      e ← load_dirent (dirent file);
      if negb (is_directory e) then release file;; mret (- ENOTDIR, None)
      else mret (0, Some file)
  end.

Definition read (file : file_handle_t) (size offset : Z) : FS (Z * list Z * file_handle_t) := internal_rw copy_ok now file size offset true [].
Definition write (file : file_handle_t) (data : list Z) (offset : Z) : FS (Z * list Z * file_handle_t) :=
  internal_rw copy_ok now file (Z.of_nat (length data)) offset false data.

(** What fstat tells: size, times of access, creation and change, the block
    size and the blocks *)
Record fs_stat_t := Stat { st_size : Z; st_atime : Z; st_ctime : Z; st_mtime : Z; st_blksize : Z; st_blocks : Z }.

Definition seconds (date_field time_field centiseconds : Z) : outcome Z :=
  match time_unix (date_decode date_field time_field centiseconds) with Some t => Done t | None => Fault OutOfRange end.

Definition fstat (file : file_handle_t) : FS fs_stat_t := λ s,
  let e := dirent_of s (dirent file) in
  let* atime := seconds (word_at 0x12 e) 0 0 in
  let* ctime := seconds (word_at 0x10 e) (word_at 0x0E e) (byte_at 0x0D e) in
  let* mtime := seconds (word_at 0x18 e) (word_at 0x16 e) 0 in
  Done (Stat (file_size e) atime ctime mtime (Z.shiftl 1 (sector_shift s + fat_block_shift s))
          (u32 (file_size e + (block_size s - 1)) / block_size s), s).

(** ** Reading a directory *)

Definition FAT_ORDINAL_MASK : Z := 0x3F.
Definition FAT_ESCAPED_0xE5 : Z := 5.

(** What the loop of readdir leaves: the distance, and the entries *)
Fixpoint readdir_loop (fuel : nat) (file : file_handle_t) (offset : Z) (frs : list fat32_dir_union_t) (count index distance : nat) (expected : Z) :
    FS (full_lfn_t * nat * file_handle_t) :=
  match fuel with
  | O => throw OutOfFuel
  | S fuel =>
      match frs !! index with
      | None => throw OutOfRange
      | Some old =>
          '(n, got, file) ← read file 32 (offset + 32 * Z.of_nat index);
          let fragment := got ++ drop (length got) old in
          let frs := <[index := fragment]> frs in
          if negb (n =? 32) then mret (FullLfn frs count, distance, file)
          else if byte_at 0 fragment =? 0 then mret (FullLfn frs count, distance, file)
          else if decide (MAX_FRAGMENTS ≤ index + 1)%nat then readdir_loop fuel file offset frs count 1 (S distance) expected
          else if attr fragment =? FAT_LONGNAME then
            let lfn_index := Z.land (byte_at 0 fragment) FAT_ORDINAL_MASK in
            if negb (Z.land (byte_at 0 fragment) FAT_LAST_LFN_ORDINAL =? 0) then readdir_loop fuel file offset frs count 1 (S distance) lfn_index
            else if negb (Z.of_nat index =? u64 (expected - lfn_index)) then readdir_loop fuel file offset frs count 1 (S distance) 0
            else readdir_loop fuel file offset frs count (S index) (S distance) expected
          else if negb (Z.of_nat index =? u64 expected) then readdir_loop fuel file offset frs count 1 (S distance) 0
          else if byte_at 0 fragment =? FAT_DELETED_FLAG then readdir_loop fuel file offset frs count 1 (S distance) expected
          else
            let fragment := if byte_at 0 fragment =? FAT_ESCAPED_0xE5 then <[0%nat := FAT_DELETED_FLAG]> fragment else fragment in
            mret (FullLfn (<[index := fragment]> frs) index, S distance, file)
      end
  end.

(** The bytes passed, and the name if there is one *)
Definition readdir (fuel : nat) (file : file_handle_t) (offset : Z) : FS (Z * option (list Z) * file_handle_t) :=
  e ← load_dirent (dirent file);
  if negb (is_directory e) then mret (- ENOTDIR, None, file)
  else
    '(lfn, distance, file) ← readdir_loop fuel file offset (replicate MAX_FRAGMENTS (replicate 32 0)) 0 0 0 0;
    if decide (distance = 0%nat) then mret (0, Some [], file)
    else match name_from_dirents lfn with
         | Fault f => throw f
         | Done name => mret (32 * Z.of_nat distance, Some name, file)
         end.
End calls.

(** ** The layout of a mounted volume *)

Lemma log2_pow w k : 0 ≤ k < match w with W8 => 8 | W16 => 16 | W32 => 31 | W64 => 63 end → log2_or_stop w (2 ^ k) = Done k.
Proof.
  intros Hk. assert (0 < 2 ^ k) as Hp by (apply Z.pow_pos_nonneg; lia). unfold log2_or_stop, bit_log2. rewrite (proj2 (Z.eqb_neq _ _)) by lia.
  assert (∀ m, k < m → 2 ^ k < 2 ^ m) as Hm by (intros m Hm; apply Z.pow_lt_mono_r; lia).
  destruct w.
  - pose proof (Hm 8 ltac:(lia)). rewrite log2_n_32; rewrite (u8_small (2 ^ k)), s32_small, u32_small by lia; [|lia]. by rewrite Z.log2_up_pow2 by lia.
  - pose proof (Hm 16 ltac:(lia)). rewrite log2_n_32; rewrite (u16_small (2 ^ k)), s32_small, u32_small by lia; [|lia]. by rewrite Z.log2_up_pow2 by lia.
  - pose proof (Hm 31 ltac:(lia)). rewrite log2_n_32; rewrite s32_small, u32_small by lia; [|lia]. by rewrite Z.log2_up_pow2 by lia.
  - pose proof (Hm 63 ltac:(lia)). rewrite log2_n_64; rewrite s64_small, u64_small by lia; [|lia]. by rewrite Z.log2_up_pow2 by lia.
Qed.

Lemma word_at_range i e : Forall (λ b, 0 ≤ b < 256) e → 0 ≤ byte_at i e < 256 ∧ 0 ≤ word_at i e < 65536 ∧ 0 ≤ long_at i e < 2 ^ 32.
Proof.
  intros He. assert (∀ j, 0 ≤ byte_at j e < 256) as Hb.
  { intros j. unfold byte_at. destruct (e !! j) as [b|] eqn:Hj; [|simpl; lia]. exact (proj1 (Forall_lookup _ _) He _ _ Hj). }
  unfold long_at, word_at. pose proof (Hb i). pose proof (Hb (S i)). pose proof (Hb (S (S i))). pose proof (Hb (S (S (S i)))). lia.
Qed.

(** A parameter block that can be used: the sizes are powers of two, there are
    two tables, and the clusters start at sector [first], below 2GB *)
Record bpb_ok (b : list Z) (a k first : Z) : Prop := {
  bo_bytes : Forall (λ x, 0 ≤ x < 256) b;
  bo_sector : 9 ≤ a ≤ 12;
  bo_cluster : 0 ≤ k < 8 ∧ byte_at 0x0D b = 2 ^ k;
  bo_tables : 2 ≤ byte_at 0x10 b ∧ byte_at 0x10 b * long_at 0x24 b < 2 ^ 32;
  bo_first : first = word_at 0x0E b + byte_at 0x10 b * long_at 0x24 b;
  bo_room : 2 * 2 ^ k ≤ first ∧ first * 2 ^ a < 2 ^ 31;
  bo_root : 0 ≤ long_at 0x2C b < 2 ^ 31
}.

(** What mounting such a volume gives *)
Definition mounted (conn : conn_t) (b : list Z) (d : Z → Z) (a k first : Z) : fat32_fs_t :=
  let fat_at lba := table_at d (u64 (Z.shiftl lba a)) (Z.to_nat (s32 (u32 (Z.shiftl (long_at 0x24 b) a)) / 4)) in
  let start := first_fat_lba (fat32_parse_bpb 0 b) in
  Fs (fat_at start) (fat_at (u64 (start + long_at 0x24 b))) d
    (set_start_cluster (long_at 0x2C b) (<[0x0B%nat := FAT_ATTR_DIR]> (replicate 32 0))) (long_at 0x2C b) (first - 2 * 2 ^ k)
    ((part_st conn + part_len conn - (first - 2 * 2 ^ k)) / 2 ^ k) (2 ^ (a + k)) a k (a + k - 2) [].

Lemma Z_div_range x y lo hi : 0 < y → lo ≤ 0 → 0 ≤ x < hi → lo ≤ x / y < hi.
Proof. intros. pose proof (Z.div_pos x y ltac:(lia) ltac:(lia)). pose proof (Z.div_le_upper_bound x y x). nia. Qed.

Section mounting.
Context (conn : conn_t) (b : list Z) (d : Z → Z) (a k first : Z).
Hypothesis Hok : bpb_ok b a k first.

Lemma mount_sizes : 0 < 2 ^ k < 2 ^ 8 ∧ 0 < 2 ^ a ∧ 0 < 2 ^ (a + k) < 2 ^ 20 ∧ 2 ^ (a + k) = 2 ^ a * 2 ^ k ∧ 0 ≤ first < 2 ^ 31.
Proof.
  destruct Hok as [Hb Ha [Hk _] _ _ [Hroom Hlow] _].
  assert (0 < 2 ^ k < 2 ^ 8) as H2k by (split; [apply Z.pow_pos_nonneg|apply Z.pow_lt_mono_r]; lia).
  assert (0 < 2 ^ a) as H2a by (apply Z.pow_pos_nonneg; lia).
  split; [done|]. split; [done|]. split; [split; [apply Z.pow_pos_nonneg|apply Z.pow_lt_mono_r]; lia|].
  split; [apply Z.pow_add_r; lia|]. nia.
Qed.

Lemma mount_ofs : s32 (cluster_begin_lba (fat32_parse_bpb 0 b)) = first - 2 * 2 ^ k.
Proof.
  destruct mount_sizes as (H2k & H2a & _ & _ & Hf). destruct Hok as [Hb _ [_ Hspc] [_ Htab] Hfirst [Hroom _] _].
  pose proof (word_at_range 0x0E b Hb) as (_ & Hres & _). pose proof (word_at_range 0x10 b Hb) as (Hnf & _).
  pose proof (word_at_range 0x24 b Hb) as (_ & _ & Hspf).
  unfold fat32_parse_bpb. cbn [cluster_begin_lba]. rewrite Hspc, (u32_small (_ * _)) by nia. rewrite !u64_small by (rewrite ?u64_small; nia).
  rewrite s32_small by nia. lia.
Qed.

Lemma mount_runs :
  buffer_ok conn = true → first_sector conn = Some b → mapping conn = Some d → sector_size conn = 2 ^ a →
  0 ≤ part_st conn → first ≤ part_len conn → part_st conn + part_len conn < 2 ^ 31 →
  mount conn = Done (Some (mounted conn b d a k first)).
Proof.
  intros Hbuf Hsec Hmap Hsz Hst Hlen Hen. destruct mount_sizes as (H2k & H2a & Hbs & Hmul & Hf). pose proof mount_ofs as Hofs.
  destruct Hok as [_ Ha [Hk Hspc] _ _ [Hroom _] Hroot]. unfold mount. rewrite Hbuf, Hsec, Hmap, Hsz. cbn [negb].
  rewrite (log2_pow W32) by lia. cbn [obind]. unfold fat32_parse_bpb at 1. cbn [sec_per_cluster]. rewrite Hspc, (log2_pow W8) by lia. cbn [obind].
  rewrite Z.shiftl_mul_pow2, <- Z.pow_add_r, (u32_small (2 ^ (a + k))), Z.shiftr_div_pow2 by lia.
  replace (2 ^ (a + k) / 2 ^ 2) with (2 ^ (a + k - 2)) by (rewrite Z.pow_sub_r by lia; done).
  rewrite (log2_pow W32) by lia. cbn [obind]. rewrite Hofs. unfold mounted.
  change (sec_per_fat (fat32_parse_bpb 0 b)) with (long_at 0x24 b). change (root_dir_start (fat32_parse_bpb 0 b)) with (long_at 0x2C b).
  rewrite (s32_small (long_at 0x2C b)) by lia. rewrite (u64_small (part_st conn + part_len conn)) by lia. rewrite (u64_small (_ - _)) by nia.
  rewrite Z.shiftr_div_pow2, (s32_small (_ / _)) by (try lia; apply Z_div_range; nia). done.
Qed.

(** The table has as many entries as its sectors hold *)
Lemma mount_tables :
  let n := Z.to_nat (s32 (u32 (Z.shiftl (long_at 0x24 b) a)) / 4) in
  let start := word_at 0x0E b in
  fat (mounted conn b d a k first) = table_at d (start * 2 ^ a) n
  ∧ fat2 (mounted conn b d a k first) = table_at d ((start + long_at 0x24 b) * 2 ^ a) n
  ∧ 4 * Z.of_nat n = long_at 0x24 b * 2 ^ a ∧ start + 2 * long_at 0x24 b ≤ first.
Proof.
  destruct mount_sizes as (H2k & H2a & _ & _ & Hf). destruct Hok as [Hb Ha _ [Htwo Htab] Hfirst [_ Hlow] _].
  pose proof (word_at_range 0x0E b Hb) as (_ & Hres & _). pose proof (word_at_range 0x24 b Hb) as (_ & _ & Hspf). intros n start.
  assert (2 ^ a = 4 * 2 ^ (a - 2)) as H4 by (change 4 with (2 ^ 2); rewrite <- Z.pow_add_r by lia; f_equal; lia).
  assert (start + 2 * long_at 0x24 b ≤ first) as Hle by (unfold start; nia).
  unfold mounted. cbn [fat fat2]. change (first_fat_lba (fat32_parse_bpb 0 b)) with (u64 (0 + word_at 0x0E b)). rewrite Z.add_0_l.
  rewrite (u64_small (word_at _ _)) by lia. rewrite (u64_small (_ + _)) by lia. unfold n. rewrite !(Z.shiftl_mul_pow2 _ a) by lia.
  rewrite !(u64_small (_ * _)) by (subst start; nia). split; [done|]. split; [done|]. split; [|done].
  rewrite s32_small, u32_small by (rewrite ?u32_small; nia).
  replace (long_at 0x24 b * 2 ^ a) with (long_at 0x24 b * 2 ^ (a - 2) * 4) by lia. rewrite Z.div_mul, Z2Nat.id by nia. lia.
Qed.

Lemma mount_geometry : geometry (mounted conn b d a k first).
Proof.
  destruct mount_sizes as (H2k & H2a & _ & _ & Hf). destruct Hok as [_ Ha [Hk _] _ _ [Hroom Hlow] _].
  constructor; cbn [mounted block_size sector_shift block_shift cluster_ofs]; [done|lia|nia].
Qed.

Lemma mount_place c : is_cluster c →
  cluster_place (mounted conn b d a k first) c = first * 2 ^ a + (c - 2) * block_size (mounted conn b d a k first).
Proof.
  intros Hc. destruct mount_geometry as [Hbs (? & ? & ?) Ho]. destruct mount_sizes as (_ & _ & _ & Hmul & _).
  rewrite cluster_place_linear by (done || lia). cbn [mounted cluster_ofs sector_shift block_size]. lia.
Qed.
End mounting.

(** C14: A volume whose parameter block can be used is mounted; the two tables are
    where the block says and as long, every cluster is after them, one after
    the other, and the entry of the root directory has its cluster.  The
    clusters that are handed out are in the partition if it starts at 0. *)
Theorem fat_mount_layout conn b d a k first :
  bpb_ok b a k first → buffer_ok conn = true → first_sector conn = Some b → mapping conn = Some d → sector_size conn = 2 ^ a →
  0 ≤ part_st conn → first ≤ part_len conn → part_st conn + part_len conn < 2 ^ 31 →
  ∃ s n, mount conn = Done (Some s) ∧ geometry s
    ∧ fat s = table_at d (word_at 0x0E b * 2 ^ a) n ∧ fat2 s = table_at d ((word_at 0x0E b + long_at 0x24 b) * 2 ^ a) n
    ∧ 4 * Z.of_nat n = long_at 0x24 b * 2 ^ a
    ∧ (∀ c, is_cluster c → cluster_place s c = first * 2 ^ a + (c - 2) * block_size s
                         ∧ (word_at 0x0E b + 2 * long_at 0x24 b) * 2 ^ a ≤ cluster_place s c)
    ∧ is_directory (root_dirent s) = true ∧ root_cluster s = long_at 0x2C b ∧ dirent_start_cluster (root_dirent s) = root_cluster s
    ∧ (part_st conn = 0 → ∀ c, is_cluster c → c < end_cluster s → cluster_place s c + block_size s ≤ part_len conn * 2 ^ a).
Proof.
  intros Hok Hbuf Hsec Hmap Hsz Hst Hlen Hen. destruct (mount_sizes b a k first Hok) as (H2k & H2a & Hbs & Hmul & Hf).
  destruct (mount_tables conn b d a k first Hok) as (Hf1 & Hf2 & Hn & Hle).
  exists (mounted conn b d a k first). eexists. split; [by apply mount_runs|]. split; [by apply mount_geometry|].
  split; [exact Hf1|]. split; [exact Hf2|]. split; [exact Hn|]. split.
  { intros c Hc. rewrite mount_place by done. split; [done|]. unfold is_cluster in Hc. cbn [mounted block_size]. nia. }
  split; [reflexivity|]. split; [done|]. split; [apply start_cluster_roundtrip; [apply Hok|reflexivity]|].
  intros H0 c Hc Hend. rewrite mount_place by done. revert Hend. cbn [mounted block_size end_cluster]. rewrite H0, Hmul. intros Hend.
  pose proof (Z.mul_div_le (0 + part_len conn - (first - 2 * 2 ^ k)) (2 ^ k) ltac:(lia)). nia.
Qed.

