(* ===== verification/Fat32Cases.v ===== *)
(** * FAT: files and directories evaluated

    A volume of clusters of four bytes with a file of six bytes, and one with
    clusters of four directory entries: the theorems applied to them, and
    what the code does where it does not do what it means to. *)

From stdpp Require Import base tactics list numbers option.
From S2P Require Import Prelude Regions Utf TimeOfDay Fat32Name Fat32 Fat32Thms Fat32Dir Fat32Create Fat32Atomic Fat32Found Fat32Mount.

#[local] Open Scope Z_scope.

(** ** A file of six bytes in two clusters of four *)

Definition EOF : Z := 0x0FFFFFF8.
Definition data : list Z := [10; 20; 30; 40; 50; 60].
(** size 6, start cluster 3 *)
Definition file_entry : fat32_dir_union_t := put_word 0x1C 6 (set_start_cluster 3 (<[0x0B%nat := FAT_ATTR_ARCH]> (replicate 32 65))).
Definition file_zero : fat32_dir_union_t := put_word 0x1E 0 file_entry.

(** The clusters start at 1024; the entry is at 64 *)
Definition small_disk (a : Z) : Z :=
  if (64 <=? a) && (a <? 96) then default 0 (file_zero !! Z.to_nat (a - 64))
  else if (1036 <=? a) && (a <? 1040) then default 0 (data !! Z.to_nat (a - 1036))
  else if (1044 <=? a) && (a <? 1048) then default 0 (data !! Z.to_nat (a - 1044 + 4)) else 0.

Definition small : fat32_fs_t := Fs [0; 0; EOF; 5; 0; EOF; 0; 0] [0; 0; EOF; 5; 0; EOF; 0; 0] small_disk (replicate 32 0) 2 256 8 4 2 0 3 [].
Definition handle : file_handle_t := File (DirentAt 64) 0 3 false.
Definition noon : time_of_day_t := TimeOfDay 0 0 0 12 1 6 24 20.

Lemma small_file : file_rep small (DirentAt 64) [3; 5] data.
Proof.
  constructor; [reflexivity| |reflexivity|reflexivity|reflexivity| |].
  - split; [repeat constructor; unfold is_cluster; lia|]. intros [|[|i]] c d Hc Hd; simpl in *; by simplify_eq.
  - intros c Hc. simpl in Hc. simplify_eq. reflexivity.
  - intros i b Hi. unfold data in Hi.
    do 4 (destruct i as [|i]; [injection Hi as <-; exists 3; split; vm_compute; reflexivity|]).
    do 2 (destruct i as [|i]; [injection Hi as <-; exists 5; split; vm_compute; reflexivity|]). done.
Qed.

Lemma small_apart : laid_out (DirentAt 64) [3; 5] small.
Proof.
  split.
  - intros [|[|i]] [|[|j]] c d Hc Hd Hne; try done; injection Hc as <-; injection Hd as <-; [left|right]; vm_compute; discriminate.
  - intros [|[|i]] c ofs Hp Hc; try done; injection Hc as <-; injection Hp as <-; left; vm_compute; discriminate.
Qed.

(** Three bytes from the second on, over the end of the first cluster *)
Example fat_read_correct_witness :
  ∃ file', internal_rw (λ _ _, true) noon handle 4 2 true [] small = Done ((4, [30; 40; 50; 60], file'), small)
    ∧ dirent file' = DirentAt 64 ∧ cache_ok small [3; 5] file'.
Proof.
  apply (fat_read_correct small (DirentAt 64) [3; 5] data (λ _ _, true) noon handle 4 2); [exact small_file|reflexivity| |reflexivity|lia|lia].
  right. exists 0%nat. split; reflexivity.
Defined.

Example fat_write_correct_witness : ∃ file' s', internal_rw (λ _ _, true) noon handle 2 3 false [7; 8] small = Done ((2, [], file'), s')
  ∧ file_rep s' (DirentAt 64) [3; 5] [10; 20; 30; 7; 8; 60].
Proof.
  destruct (fat_write_correct small (DirentAt 64) [3; 5] data (λ _ _, true) noon handle 2 3 [7; 8]) as (file' & s' & Hrun & Hrep & _);
    [exact small_file|exact small_apart|reflexivity|right; exists 0%nat; split; reflexivity|constructor|reflexivity|eexists _, _, _; reflexivity|lia|simpl; lia|].
  exists file', s'. split; [exact Hrun|exact Hrep].
Defined.

(** ** A directory in a cluster of four entries *)

Definition root : fat32_dir_union_t := set_start_cluster 2 (<[0x0B%nat := FAT_ATTR_DIR]> (replicate 32 0)).
Definition table : list Z := [0; 0; EOF; 0; 0; 0; 0; 0].
Definition empty_dir (l : list Z) : fat32_fs_t := Fs table table (λ _, 0) root 2 8 8 128 7 0 5 l.
Definition with_dir (es : list fat32_dir_union_t) (s : fat32_fs_t) : fat32_fs_t := write_disk 1280 (mjoin es) s.

(** "Readme.text", and "a.txt" *)
Definition readme : list Z := [82; 101; 97; 100; 109; 101; 46; 116; 101; 120; 116].
Definition a_txt : list Z := [97; 46; 116; 120; 116].
Definition readme_lfn : full_lfn_t := match dirents_from_name (readme ++ [0]) 11 with Done lfn => lfn | Fault _ => FullLfn [] 0 end.
Definition readme_entries : list fat32_dir_union_t :=
  match fragments readme_lfn with piece :: short :: _ => [piece; <[0x0B%nat := FAT_ATTR_ARCH]> short] | _ => [] end.

Lemma readme_name : Forall name_char readme ∧ utf8_string readme = readme.
Proof. split; [|reflexivity]. unfold readme. repeat (constructor; [repeat split; unfold scalar; lia|]). constructor. Qed.


Lemma root_chain l : chained (fat (empty_dir l)) [2] ∧ chain_ends (fat (empty_dir l)) [2].
Proof.
  split.
  - split; [repeat constructor; unfold is_cluster; lia|]. by intros [|i] c d Hc Hd.
  - exists 2, EOF. repeat split.
Qed.

(** A directory with the file, after another one *)
Definition full_dir : fat32_fs_t := with_dir (file_zero :: readme_entries) (empty_dir []).


Example search_finds_it : match search_dir 2 (readme ++ [0]) 11 full_dir with Done (r, _) => r = Some (1280 + 64) | Fault _ => False end.
Proof. vm_compute. reflexivity. Qed.

(** *** A new name *)

Lemma empty_geometry l : geometry (empty_dir l).
Proof. constructor; simpl; lia. Qed.

Lemma empty_is l : dir_is (empty_dir l) RootDirent [2] (replicate 128 0).
Proof. constructor; [reflexivity|apply root_chain|apply root_chain|vm_compute; reflexivity]. Qed.

Lemma empty_dir_ok l : dir_ok (empty_dir l) RootDirent [2].
Proof.
  constructor; [apply empty_geometry|split; simpl; unfold EOF; lia|reflexivity|repeat constructor; by intros ?%not_elem_of_nil| |reflexivity|].
  - intros c ->%list_elem_of_singleton. split; [simpl; lia|]. intros (_ & v & Hv & Hf). simpl in Hv. by simplify_eq.
  - intros c Hc _. unfold entry_apart. rewrite cluster_place_linear by (simpl; done || lia || (unfold is_cluster; simpl in Hc; lia)). simpl in *. lia.
Qed.

Lemma empty_free l : ∃ c, is_free_cluster (empty_dir l) c.
Proof. exists 3. split; [simpl; lia|]. by exists 0. Qed.

Lemma readme_ok : lfn_ok readme_lfn.
Proof. constructor; [apply (bool_decide_unpack (Forall (λ e, length e = 32%nat) (fragments readme_lfn))); vm_compute; exact I|vm_compute; lia]. Qed.


Example fat_create_found_witness :
  ∃ ofs s', create_dirent noon (47 :: readme ++ [0]) RootDirent S_IWUSR (empty_dir []) = Done (Some ofs, s')
    ∧ ∃ l, search_dir (dirent_start_cluster (dirent_of s' RootDirent)) (utf8_string readme ++ [0]) (length (utf8_string readme)) s'
           = Done (Some ofs, set_io l s').
Proof.
  apply (fat_create_found (empty_dir []) RootDirent [2] (replicate 128 0) noon (47 :: readme ++ [0]) S_IWUSR readme [0] 2 readme_lfn (empty_dir []));
    [apply empty_is|apply empty_dir_ok|apply empty_free|constructor|eexists _, _, _; reflexivity|reflexivity|reflexivity|apply readme_name|simpl; lia|vm_compute; reflexivity|vm_compute; lia| |reflexivity|reflexivity].
  intros i e m Hi. do 4 (destruct i as [|i]; [vm_compute in Hi; injection Hi as <-; by intros [? _]|]). by vm_compute in Hi.
Defined.

(** *** A boot sector *)

(** One sector of 512 bytes to the cluster, 32 before the two tables of four,
    and the root directory in cluster 2 *)
Definition boot_sector : list Z := put_word 0x2C 2 (put_word 0x24 4 (<[0x10%nat := 2]> (put_word 0x0E 32 (<[0x0D%nat := 1]> (put_word 0x0B 512 (replicate 512 0)))))).
Definition drive_at (st : Z) : conn_t := Conn st 1000 512 true (Some boot_sector) (Some (λ _, 0)).

Lemma boot_sector_ok : bpb_ok boot_sector 9 0 40.
Proof.
  constructor; [|lia|split; [lia|reflexivity]|vm_compute; split; congruence|reflexivity|vm_compute; split; congruence|vm_compute; split; congruence].
  apply (bool_decide_unpack (Forall (λ x, 0 ≤ x < 256) boot_sector)). vm_compute. exact I.
Qed.

Example fat_mount_layout_witness :
  ∃ s n, mount (drive_at 0) = Done (Some s) ∧ geometry s ∧ fat s = table_at (λ _, 0) (32 * 512) n
    ∧ 4 * Z.of_nat n = 4 * 512 ∧ (∀ c, is_cluster c → cluster_place s c = 40 * 512 + (c - 2) * block_size s).
Proof.
  destruct (fat_mount_layout (drive_at 0) boot_sector (λ _, 0) 9 0 40) as (s & n & Hm & Hg & Hf & _ & Hn & Hc & _);
    [exact boot_sector_ok|reflexivity|reflexivity|reflexivity|reflexivity|simpl; lia|simpl; lia|simpl; lia|].
  exists s, n. split; [exact Hm|]. split; [exact Hg|]. split; [exact Hf|]. split; [exact Hn|]. intros c H. apply Hc. exact H.
Defined.

(** ** Where the code does something else *)

(** In a partition that starts at sector 64, the last cluster handed out is
    at sector 1063, and there are 1000 *)
Example clusters_past_the_end :
  match mount (drive_at 64) with
  | Done (Some s) => cluster_place s (end_cluster s - 1) = 1063 * 512
  | _ => False
  end.
Proof. vm_compute. reflexivity. Qed.

Definition answer {A} (o : outcome (A * fat32_fs_t)) : outcome A := match o with Done (a, _) => Done a | Fault f => Fault f end.
Definition after {A} (o : outcome (A * fat32_fs_t)) : fat32_fs_t := match o with Done (_, s) => s | Fault _ => empty_dir [] end.

(** The extension's first letter stays in upper case: "a.txt" is read back as
    "a.Txt", since the test looks at the name's letters *)
Example extension_case :
  match dirents_from_name (a_txt ++ [0]) 5 with Done lfn => name_from_dirents lfn = Done [97; 46; 84; 120; 116] | Fault _ => False end.
Proof. vm_compute. reflexivity. Qed.

Definition reread (name : list Z) : outcome (list Z) :=
  match dirents_from_name (name ++ [0]) (length name) with Done lfn => name_from_dirents lfn | Fault f => Fault f end.

(** "1.a_" has its underscore changed to DEL by that test, "a." loses its dot *)
Example extension_changed : reread [49; 46; 97; 95] = Done [49; 46; 97; 127] ∧ reread [97; 46] = Done [97].
Proof. vm_compute. split; reflexivity. Qed.

(** A character of two units of which the second is in the next piece: the
    conversion reads past the units of the piece *)
Example pair_split : reread (replicate 12 97 ++ [240; 144; 128; 128]) = Fault OutOfRange.
Proof. vm_compute. reflexivity. Qed.

(** A name that needs no pieces gets a made-up short name all the same, so it
    is not found again *)
Example short_name_lost :
  let made := create_dirent noon (a_txt ++ [0]) RootDirent S_IWUSR (empty_dir []) in
  answer made = Done (Some 1280) ∧ answer (search_dir 2 (a_txt ++ [0]) 5 (after made)) = Done None.
Proof. vm_compute. split; reflexivity. Qed.

(** Nothing can be written after the end of a file *)
Example write_at_end : answer (internal_rw (λ _ _, true) noon handle 1 6 false [9] small) = Done (0, [], handle).
Proof. vm_compute. reflexivity. Qed.

(** A directory is read as empty, its size being 0 *)
Example directory_reads_empty :
  match answer (internal_rw (λ _ _, true) noon (File RootDirent 0 2 false) 32 0 true [] full_dir) with Done (n, got, _) => n = 0 ∧ got = [] | Fault _ => False end.
Proof. vm_compute. split; reflexivity. Qed.

Example nothing_listed :
  match answer (readdir (λ _ _, true) noon 8 (File RootDirent 0 2 false) 0 full_dir) with Done (n, name, _) => n = 0 ∧ name = Some [] | Fault _ => False end.
Proof. vm_compute. split; reflexivity. Qed.

(** A path that is not a directory's *)
Example not_a_directory : answer (opendirat noon true (readme ++ [0]) full_dir) = Done (- ENOTDIR, None).
Proof. vm_compute. reflexivity. Qed.

(** fstat gives the entries of a table in a cluster for the cluster's size *)
Example wrong_block_size :
  match answer (fstat (File (DirentAt 1280) 0 3 false) full_dir) with Done st => st_size st = 6 ∧ st_blksize st = 4096 ∧ block_size full_dir = 128 | Fault f => False end.
Proof. vm_compute. repeat split; reflexivity. Qed.

(** The device's error in transact_cluster is taken for a cluster number *)
Example failed_transaction : answer (dirent_create RootDirent readme_lfn (empty_dir [0; 0; 0; -1])) = Fault OutOfRange.
Proof. vm_compute. reflexivity. Qed.

(** With no spare cluster the entries are written and the kernel stops *)
Definition full_volume : fat32_fs_t := set_fat (<[2%nat := EOF]> (replicate 8 1)) (<[2%nat := EOF]> (replicate 8 1)) (empty_dir []).
Example create_without_spare : answer (dirent_create RootDirent readme_lfn full_volume) = Fault AssertFailed.
Proof. vm_compute. reflexivity. Qed.

(** The path's directory does not exist: the file is made in the last that does *)
Example made_in_the_wrong_place :
  let made := create_handle noon true ([100; 47] ++ readme ++ [0]) O_CREAT S_IWUSR (empty_dir []) in
  match answer made with Done (inl f) => dirent f = DirentAt 1312 | _ => False end
  ∧ answer (search_dir 2 (readme ++ [0]) 11 (after made)) = Done (Some 1312).
Proof. vm_compute. split; reflexivity. Qed.

(** A stray piece of the name hides the file after it *)
Example stray_piece_hides :
  let piece := default [] (head readme_entries) in
  answer (search_dir 2 (readme ++ [0]) 11 (with_dir (piece :: readme_entries) (empty_dir []))) = Done None.
Proof. vm_compute. reflexivity. Qed.

(** 256 units are too many for the buffer *)
Example long_name_overflows : dirents_from_name (replicate 256 97 ++ [0]) 256 = Fault OutOfRange.
Proof. vm_compute. reflexivity. Qed.

(** An odd second without hundredths is read as the one before *)
Example odd_second : decoded (TimeOfDay 0 1 0 12 1 6 24 20) = Done (TimeOfDay 100 0 0 12 1 6 24 20).
Proof. vm_compute. reflexivity. Qed.
