(* ===== verification/Partitions.v ===== *)
(** * kernel/lib/dev_storage.cc, kernel/fs/mbr, gpt and iso9660_part.cc:
    finding and mounting partitions

    A partition scheme reads a drive and lists the partitions it knows; each
    is given to the file system of its name, and what that mounts is put in
    the list of mounts, boot volumes in front.  What a drive answers, whether
    memory is there, what new memory holds and what the file systems mount
    are parameters; the lock around the lists is left out, since each list is
    changed in one stretch under it. *)

From stdpp Require Import base tactics list numbers option strings.
From S2P Require Import Prelude Regions Utf Fat32Name Fat32Mount.

#[local] Open Scope Z_scope.

(** ** Drives and partitions *)

(** [read_blocks count lba] is the result and what is stored in the buffer. *)
Record drive_t := Drive {
  drive_id : nat;
  blocksize : Z;
  blocksize_log2 : Z;
  read_blocks : Z → Z → Z * list Z
}.

Record part_dev_t := Part { p_drive : nat; lba_st : Z; lba_len : Z; p_name : string }.

(** What is in a buffer after a read into it *)
Definition filled (buf got : list Z) : list Z := got ++ drop (length got) buf.

Section schemes.
(** Whether there is room for that many bytes, what new memory holds, and
    whether a vector of that size can grow *)
Context (room : Z → bool) (fresh : Z → list Z) (grows : nat → bool).

(** The list that detect returns and the static list of the scheme: a
    partition goes to both.  If the first cannot grow the kernel panics. *)
Definition keep_part (part : part_dev_t) (panics : bool) (st : list part_dev_t * list part_dev_t) : outcome (list part_dev_t * list part_dev_t) :=
  let '(parts, l) := st in
  if negb (grows (length parts)) then Fault Panicked
  else if grows (length l) then Done (parts ++ [part], l ++ [part])
  else if panics then Fault Panicked else Done (parts ++ [part], l).

(** sizeof(part_dev_t), whose allocation is not tested *)
Definition new_part (part : part_dev_t) (panics : bool) (st : list part_dev_t * list part_dev_t) : outcome (list part_dev_t * list part_dev_t) :=
  if room 32 then keep_part part panics st else Fault OutOfRange.

(** ** mbr.cc *)

(** The fields of an entry that are used *)
Record partition_tbl_ent_t := MbrEnt { system_id : Z; start_lba : Z; total_sectors : Z }.

Definition mbr_entry (sector : list Z) (i : nat) : partition_tbl_ent_t :=
  let o := (446 + 16 * i)%nat in MbrEnt (byte_at (o + 4) sector) (long_at (o + 8) sector) (long_at (o + 12) sector).

Definition mbr_entry_step (drive : drive_t) (e : partition_tbl_ent_t) (st : list part_dev_t * list part_dev_t) : outcome (list part_dev_t * list part_dev_t) :=
  if bool_decide (system_id e ∈ [0x0B; 0x0C; 0xEF]) then new_part (Part (drive_id drive) (start_lba e) (total_sectors e) "fat32") false st
  else if system_id e =? 0x83 then
    if negb (room (blocksize drive)) then Fault OutOfRange
    else if (read_blocks drive 1 (start_lba e)).1 <? 0 then Done st
    else new_part (Part (drive_id drive) (start_lba e) (total_sectors e) "ext4") true st
  else Done st.

Fixpoint mbr_loop (drive : drive_t) (es : list partition_tbl_ent_t) (st : list part_dev_t * list part_dev_t) : outcome (list part_dev_t * list part_dev_t) :=
  match es with
  | [] => Done st
  | e :: es => let* st := mbr_entry_step drive e st in mbr_loop drive es st
  end.

(** [partitions] is the static list; the result is it and what was found. *)
Definition mbr_detect (drive : drive_t) (partitions : list part_dev_t) : outcome (list part_dev_t * list part_dev_t) :=
  if blocksize drive <? 512 then Done (partitions, [])
  else if negb (room (blocksize drive)) then Fault OutOfRange
  else
    let '(r, got) := read_blocks drive 1 0 in
    let sector := filled (replicate (Z.to_nat (blocksize drive)) 0) got in
    if r <? 0 then Done (partitions, [])
    else if (byte_at 510 sector =? 0x55) && (byte_at 511 sector =? 0xAA) then mbr_loop drive (mbr_entry sector <$> seq 0 4) (partitions, [])
    else Done (partitions, []).

(** ** gpt.cc *)

Definition quad_at (i : nat) (l : list Z) : Z := long_at i l + 2 ^ 32 * long_at (i + 4) l.

Definition efi_part : list Z := [0x28; 0x73; 0x2A; 0xC1; 0x1F; 0xF8; 0xD2; 0x11; 0xBA; 0x4B; 0x00; 0xA0; 0xC9; 0x3E; 0xC9; 0x3B].
Definition sig_expected : Z := 0x5452415020494645.

Record gpt_hdr_t := GptHdr { sig : Z; part_ent_lba : Z; part_ent_count : Z; part_ent_sz : Z }.
Definition gpt_hdr (b : list Z) : gpt_hdr_t := GptHdr (quad_at 0 b) (quad_at 72 b) (long_at 80 b) (long_at 84 b).

Record gpt_part_tbl_ent_t := GptEnt { type_guid : list Z; ent_lba_st : Z; ent_lba_en : Z }.
Definition gpt_entry (b : list Z) : gpt_part_tbl_ent_t := GptEnt (take 16 b) (quad_at 32 b) (quad_at 40 b).

(** sizeof(gpt_part_tbl_ent_t) *)
Definition gpt_ent_sz : Z := 128.

Definition gpt_part (drive : drive_t) (e : gpt_part_tbl_ent_t) : part_dev_t :=
  Part (drive_id drive) (ent_lba_st e) (u64 (ent_lba_en e - ent_lba_st e + 1)) "fat32".

Fixpoint gpt_loop (drive : drive_t) (buffer : list Z) (ent_sz : Z) (n : nat) (i : Z) (st : list part_dev_t * list part_dev_t) :
    outcome (list part_dev_t * list part_dev_t) :=
  match n with
  | O => Done st
  | S n =>
      let ofs := u32 (i * ent_sz) in
      if Z.of_nat (length buffer) <? ofs + gpt_ent_sz then Fault OutOfRange
      else
        let e := gpt_entry (take (Z.to_nat gpt_ent_sz) (drop (Z.to_nat ofs) buffer)) in
        let* st := if bool_decide (type_guid e = efi_part) then new_part (gpt_part drive e) true st else Done st in
        gpt_loop drive buffer ent_sz n (i + 1) st
  end.

(** unlikely(x) is 0 or 1, so the test of the second read is never true and
    an error of it is not noticed. *)
Definition gpt_detect (drive : drive_t) (partitions : list part_dev_t) : outcome (list part_dev_t * list part_dev_t) :=
  if blocksize_log2 drive <? 7 then Done (partitions, [])
  else
    let sector_size := u64 (Z.shiftl 1 (blocksize_log2 drive)) in
    if negb (room sector_size) then Fault Panicked
    else
      let '(r, got) := read_blocks drive 1 1 in
      if r <? 0 then Done (partitions, [])
      else
        let hdr := gpt_hdr (filled (fresh sector_size) got) in
        if negb (sig hdr =? sig_expected) then Done (partitions, [])
        else
          let part_tbl_size := u32 (part_ent_sz hdr * part_ent_count hdr) in
          let part_tbl_sector_count := Z.shiftr part_tbl_size (blocksize_log2 drive) in
          if negb (room part_tbl_size) then Fault Panicked
          else
            let '(_, got) := read_blocks drive part_tbl_sector_count (part_ent_lba hdr) in
            gpt_loop drive (filled (fresh part_tbl_size) got) (part_ent_sz hdr) (Z.to_nat (part_ent_count hdr)) 0 (partitions, []).

(** ** iso9660_part.cc *)

(** "CD001" *)
Definition iso_id : list Z := [67; 68; 48; 48; 49].

Definition iso_detect (drive : drive_t) (partitions : list part_dev_t) : outcome (list part_dev_t * list part_dev_t) :=
  let sector_mul := if 2048 / blocksize drive <? 1 then 1 else 2048 / blocksize drive in
  if negb (room (blocksize drive * sector_mul)) then Fault OutOfRange
  else
    let '(err, got) := read_blocks drive sector_mul (16 * sector_mul) in
    let sector := filled (fresh (blocksize drive * sector_mul)) got in
    if (sector_mul <=? err) && bool_decide (take 5 (drop 1 sector) = iso_id)
    then new_part (Part (drive_id drive) 0 (u64 (s32 (long_at 80 sector))) "iso9660") false (partitions, [])
    else Done (partitions, []).
End schemes.

(** ** dev_storage.cc: mounting *)

Section mounting.
(** File systems, and whether one is the boot volume *)
Context {F : Type} (is_boot : F → bool).

(** A registered file system: its name and what it mounts on a drive, from a
    block on and that many of them *)
Record fs_factory_t := FsFactory { reg_name : string; reg_mount : drive_t → Z → Z → option F }.

Record fs_mount_t := Mount { reg : option string; fs : F }.

Definition find_fs (name : string) (fs_regs : list fs_factory_t) : option fs_factory_t := snd <$> list_find (λ r, reg_name r = name) fs_regs.

(** [grow] says whether the list can grow. *)
Definition put_mount (grow : bool) (m : fs_mount_t) (mounts : list fs_mount_t) : outcome (list fs_mount_t) :=
  if negb grow then Fault Panicked else Done (if is_boot (fs m) then m :: mounts else mounts ++ [m]).

Definition fs_add (grow : bool) (fs_reg : option string) (f : option F) (mounts : list fs_mount_t) : outcome (list fs_mount_t) :=
  match f with None => Done mounts | Some f => put_mount grow (Mount fs_reg f) mounts end.

Definition fs_mount (grows : nat → bool) (fs_regs : list fs_factory_t) (drive : drive_t) (part : part_dev_t) (mounts : list fs_mount_t) : outcome (list fs_mount_t) :=
  match find_fs (p_name part) fs_regs with
  | None => Done mounts
  | Some r =>
      match reg_mount r drive (lba_st part) (lba_len part) with
      | None => Done mounts
      | Some f => put_mount (grows (length mounts)) (Mount (Some (reg_name r)) f) mounts
      end
  end.

Fixpoint mount_all (grows : nat → bool) (fs_regs : list fs_factory_t) (drive : drive_t) (parts : list part_dev_t) (mounts : list fs_mount_t) :
    outcome (list fs_mount_t) :=
  match parts with
  | [] => Done mounts
  | part :: parts => let* mounts := fs_mount grows fs_regs drive part mounts in mount_all grows fs_regs drive parts mounts
  end.

(** A partition scheme: from a drive and its static list to that list and
    what it found *)
Abbreviation detect_t := (drive_t → list part_dev_t → outcome (list part_dev_t * list part_dev_t)).

Definition probe_part_factory_on_drive (grows : nat → bool) (fs_regs : list fs_factory_t) (detect : detect_t) (drive : drive_t)
    (st : list part_dev_t * list fs_mount_t) : outcome (list part_dev_t * list fs_mount_t) :=
  let '(partitions, mounts) := st in
  let* (partitions, found) := detect drive partitions in
  let* mounts := mount_all grows fs_regs drive found mounts in
  Done (partitions, mounts).

Fixpoint probe_part_factory (grows : nat → bool) (fs_regs : list fs_factory_t) (detect : detect_t) (storage_devs : list drive_t)
    (st : list part_dev_t * list fs_mount_t) : outcome (list part_dev_t * list fs_mount_t) :=
  match storage_devs with
  | [] => Done st
  | drive :: drives => let* st := probe_part_factory_on_drive grows fs_regs detect drive st in probe_part_factory grows fs_regs detect drives st
  end.

(** [id] is not compared with the number of mounts unless there are none. *)
Definition fs_from_id (id : nat) (mounts : list fs_mount_t) : outcome (option F) :=
  match mounts with
  | [] => Done None
  | _ => match mounts !! id with Some m => Done (Some (fs m)) | None => Fault OutOfRange end
  end.
End mounting.

Definition storage_dev_open (dev : nat) (storage_devs : list drive_t) : outcome (option drive_t) :=
  if decide (dev ≤ length storage_devs)%nat then Done (storage_devs !! dev) else Fault AssertFailed.

(** ** Blocking transfers

    [started] is the error of starting, 0 for none; [ended] the error and the
    count that the completion has. *)

(** read_blocks, write_blocks and flush: an int *)
Definition blocking_result (started : Z) (ended : Z * Z) : Z :=
  if negb (started =? 0) then - started else if negb (ended.1 =? 0) then - ended.1 else s32 ended.2.

Definition trim_blocks (started : Z) (ended : Z * Z) (count : Z) : Z :=
  if negb (started =? 0) then - started else if negb (ended.1 =? 0) then - ended.2 else count.

(** * What is found and mounted *)

Lemma omap_step {A B} (f : A → option B) x l : omap f (x :: l) = match f x with Some y => y :: omap f l | None => omap f l end.
Proof. done. Qed.

Section finding.
(** Memory is there. *)
Context (room : Z → bool) (fresh : Z → list Z) (grows : nat → bool).
Hypothesis Hroom : ∀ n, room n = true.
Hypothesis Hgrows : ∀ n, grows n = true.
Hypothesis Hfresh : ∀ n, length (fresh n) = Z.to_nat n.

Lemma new_part_room part panics parts l : new_part room grows part panics (parts, l) = Done (parts ++ [part], l ++ [part]).
Proof. unfold new_part, keep_part. by rewrite Hroom, !Hgrows. Qed.

Lemma filled_all buf got : length got = length buf → filled buf got = got.
Proof. intros Hl. unfold filled. by rewrite drop_ge, app_nil_r by lia. Qed.

(** The scheme finds those partitions, whatever it has found before. *)
Definition finds (detect : drive_t → list part_dev_t → outcome (list part_dev_t * list part_dev_t)) (drive : drive_t) (found : list part_dev_t) : Prop :=
  ∀ partitions, detect drive partitions = Done (partitions ++ found, found).

(** ** The master boot record *)

(** The partition an entry stands for *)
Definition mbr_part (drive : drive_t) (e : partition_tbl_ent_t) : option part_dev_t :=
  if bool_decide (system_id e ∈ [0x0B; 0x0C; 0xEF]) then Some (Part (drive_id drive) (start_lba e) (total_sectors e) "fat32")
  else if (system_id e =? 0x83) && (0 <=? (read_blocks drive 1 (start_lba e)).1) then Some (Part (drive_id drive) (start_lba e) (total_sectors e) "ext4")
  else None.

Lemma mbr_loop_run drive es parts l :
  mbr_loop room grows drive es (parts, l) = Done (parts ++ omap (mbr_part drive) es, l ++ omap (mbr_part drive) es).
Proof.
  revert parts l. induction es as [|e es IH]; intros parts l; [by rewrite !app_nil_r|]. cbn [mbr_loop]. rewrite omap_step.
  set (rest := omap (mbr_part drive) es) in *. unfold mbr_entry_step, mbr_part. destruct (bool_decide _).
  { rewrite new_part_room. cbn [obind]. by rewrite IH, <- !app_assoc. }
  rewrite Hroom. destruct (system_id e =? 0x83); [|cbn [obind andb negb]; apply IH]. cbn [negb andb].
  rewrite Z.leb_antisym. destruct (_ <? 0); cbn [negb]; [apply IH|]. rewrite new_part_room. cbn [obind]. by rewrite IH, <- !app_assoc.
Qed.

(** A drive with a record: the partitions are those of its four entries that
    are of a known kind, in order. *)
Lemma mbr_finds drive r sector :
  512 ≤ blocksize drive → read_blocks drive 1 0 = (r, sector) → 0 ≤ r → length sector = Z.to_nat (blocksize drive) →
  byte_at 510 sector = 0x55 → byte_at 511 sector = 0xAA →
  finds (mbr_detect room grows) drive (omap (mbr_part drive) (mbr_entry sector <$> seq 0 4)).
Proof.
  intros Hb Hread Hr Hl H1 H2 parts. unfold mbr_detect. rewrite (proj2 (Z.ltb_ge _ _)), Hroom, Hread by lia. cbn [negb].
  rewrite filled_all by (by rewrite length_replicate). rewrite (proj2 (Z.ltb_ge _ _)), H1, H2 by lia. apply mbr_loop_run.
Qed.

(** ** A compact disc *)

Lemma iso_finds drive r sector :
  let mul := 2048 / blocksize drive in
  0 < blocksize drive ≤ 2048 → read_blocks drive mul (16 * mul) = (r, sector) → mul ≤ r → length sector = Z.to_nat (blocksize drive * mul) →
  take 5 (drop 1 sector) = iso_id → 0 ≤ long_at 80 sector < 2 ^ 31 →
  finds (iso_detect room fresh grows) drive [Part (drive_id drive) 0 (long_at 80 sector) "iso9660"].
Proof.
  intros mul Hb Hread Hr Hl Hid Hc parts. unfold iso_detect. fold mul. assert (1 ≤ mul) by (apply Z.div_le_lower_bound; lia).
  rewrite (proj2 (Z.ltb_ge mul 1)), Hroom, Hread by lia. cbn [negb]. rewrite filled_all by (by rewrite Hfresh).
  rewrite (proj2 (Z.leb_le mul r)), (bool_decide_eq_true_2 _ Hid) by lia. cbn [andb]. rewrite new_part_room, s32_small, u64_small by lia. done.
Qed.

(** ** The GUID partition table *)

Section gpt.
Context (drive : drive_t) (disk : Z → Z) (a : Z).
Hypothesis Ha : 7 ≤ a < 32.
Hypothesis Hlog2 : blocksize_log2 drive = a.
Hypothesis Hbytes : ∀ x, 0 ≤ disk x < 256.
Hypothesis Hread : ∀ n lba, 0 ≤ n → 0 ≤ lba → ∃ r, 0 ≤ r ∧ read_blocks drive n lba = (r, bytes_at disk (lba * 2 ^ a) (Z.to_nat (n * 2 ^ a))).

Definition disk_hdr : gpt_hdr_t := gpt_hdr (bytes_at disk (2 ^ a) (Z.to_nat (2 ^ a))).

(** The table: entries of 128 bytes or more, in whole sectors *)
Hypothesis Hsig : sig disk_hdr = sig_expected.
Hypothesis Hent : 128 ≤ part_ent_sz disk_hdr.
Hypothesis Hsize : part_ent_sz disk_hdr * part_ent_count disk_hdr < 2 ^ 32.
Hypothesis Hwhole : (2 ^ a | part_ent_sz disk_hdr * part_ent_count disk_hdr).

Definition disk_entry (i : nat) : gpt_part_tbl_ent_t :=
  gpt_entry (bytes_at disk (part_ent_lba disk_hdr * 2 ^ a + Z.of_nat i * part_ent_sz disk_hdr) 128).
Definition gpt_found (i n : nat) : list part_dev_t :=
  gpt_part drive <$> filter (λ e, type_guid e = efi_part) (disk_entry <$> seq i n).

Lemma hdr_nonneg : 0 ≤ part_ent_lba disk_hdr ∧ 0 ≤ part_ent_count disk_hdr.
Proof.
  assert (Forall (λ b, 0 ≤ b < 256) (bytes_at disk (2 ^ a) (Z.to_nat (2 ^ a)))) as Hf by (apply Forall_fmap, Forall_forall; intros i _; apply Hbytes).
  unfold disk_hdr. cbn. unfold quad_at. pose proof (word_at_range 72 _ Hf). pose proof (word_at_range 76 _ Hf). pose proof (word_at_range 80 _ Hf).
  change (72 + 4)%nat with 76%nat. lia.
Qed.

Lemma gpt_loop_run n i parts l :
  let size := part_ent_sz disk_hdr * part_ent_count disk_hdr in
  Z.of_nat (i + n) = part_ent_count disk_hdr →
  gpt_loop room grows drive (bytes_at disk (part_ent_lba disk_hdr * 2 ^ a) (Z.to_nat size)) (part_ent_sz disk_hdr) n (Z.of_nat i) (parts, l)
  = Done (parts ++ gpt_found i n, l ++ gpt_found i n).
Proof.
  intros size. revert i parts l. induction n as [|n IH]; intros i parts l Hn; [unfold gpt_found; simpl; by rewrite !app_nil_r|].
  assert (0 ≤ Z.of_nat i * part_ent_sz disk_hdr ∧ Z.of_nat i * part_ent_sz disk_hdr + 128 ≤ size ∧ size < 2 ^ 32) as (H0 & Hin & H32) by (subst size; nia).
  cbn [gpt_loop]. rewrite u32_small, length_bytes_at by lia. unfold gpt_ent_sz. rewrite (proj2 (Z.ltb_ge _ _)) by lia.
  rewrite sub_bytes_at by lia. rewrite Z2Nat.id by lia. change (Z.to_nat 128) with 128%nat. fold (disk_entry i).
  unfold gpt_found. cbn [seq fmap list_fmap]. rewrite filter_cons. replace (Z.of_nat i + 1) with (Z.of_nat (S i)) by lia.
  destruct (decide (type_guid (disk_entry i) = efi_part)) as [He|He]; [rewrite (bool_decide_eq_true_2 _ He), new_part_room|rewrite (bool_decide_eq_false_2 _ He)];
    cbn [obind]; rewrite IH by lia; [|done]. rewrite <- !app_assoc. done.
Qed.

Lemma gpt_finds : finds (gpt_detect room fresh grows) drive (gpt_found 0 (Z.to_nat (part_ent_count disk_hdr))).
Proof.
  intros parts. pose proof hdr_nonneg as [Hlba Hcount]. assert (0 < 2 ^ a < 2 ^ 32) as Hp by (split; [apply Z.pow_pos_nonneg|apply Z.pow_lt_mono_r]; lia).
  unfold gpt_detect. rewrite Hlog2, (proj2 (Z.ltb_ge a 7)), Z.shiftl_mul_pow2, Z.mul_1_l, (u64_small (2 ^ a)), !Hroom by lia. cbn [negb].
  destruct (Hread 1 1 ltac:(lia) ltac:(lia)) as (r & Hr & ->). rewrite !Z.mul_1_l. rewrite (proj2 (Z.ltb_ge r 0)) by lia.
  rewrite filled_all by (by rewrite Hfresh, length_bytes_at). fold disk_hdr. rewrite Hsig. change (sig_expected =? sig_expected) with true. cbn [negb].
  rewrite u32_small, Hroom, Z.shiftr_div_pow2 by nia. cbn [negb]. destruct Hwhole as [q Hq].
  assert (0 ≤ q) by nia. rewrite Hq, Z.div_mul by lia. destruct (Hread q (part_ent_lba disk_hdr) ltac:(lia) ltac:(lia)) as (r' & Hr' & ->).
  rewrite filled_all by (by rewrite Hfresh, length_bytes_at). 
  pose proof (gpt_loop_run (Z.to_nat (part_ent_count disk_hdr)) 0 parts [] ltac:(lia)) as Hloop. cbv zeta in Hloop. rewrite Hq in Hloop. exact Hloop.
Qed.
End gpt.
End finding.

(** ** Mounting what was found *)

Section volumes.
Context {F : Type} (is_boot : F → bool) (fs_regs : list (@fs_factory_t F)) (grows : nat → bool).
Hypothesis Hgrows : ∀ n, grows n = true.

(** What the file system of its name makes of a partition *)
Definition volume (drive : drive_t) (part : part_dev_t) : option (@fs_mount_t F) :=
  r ← find_fs (p_name part) fs_regs; f ← reg_mount r drive (lba_st part) (lba_len part); Some (Mount (Some (reg_name r)) f).

Abbreviation boots := (filter (λ m : @fs_mount_t F, is_boot (fs m) = true)).
Abbreviation others := (filter (λ m : @fs_mount_t F, is_boot (fs m) = false)).

Lemma mount_all_run drive parts mounts :
  let new := omap (volume drive) parts in
  mount_all is_boot grows fs_regs drive parts mounts = Done (reverse (boots new) ++ mounts ++ others new).
Proof.
  revert mounts. induction parts as [|part parts IH]; intros mounts; cbn [mount_all]; [by rewrite app_nil_r|]. rewrite omap_step.
  set (rest := omap (volume drive) parts) in *. unfold fs_mount, volume.
  destruct (find_fs _ _) as [r|]; cbn [mbind option_bind obind]; [|apply IH]. destruct (reg_mount r drive _ _) as [f|]; cbn [mbind option_bind obind]; [|apply IH].
  unfold put_mount. rewrite Hgrows. cbn [negb obind]. rewrite IH, !filter_cons. cbn [fs]. destruct (is_boot f) eqn:Hf.
  - rewrite decide_True, decide_False by (done || congruence). by rewrite reverse_cons, <- app_assoc.
  - rewrite decide_False, decide_True by (done || congruence). by rewrite <- !app_assoc.
Qed.

(** Probing every drive with a scheme *)
Lemma probe_run detect found drives partitions mounts :
  Forall (λ d, finds detect d (found d)) drives →
  let new := drives ≫= λ d, omap (volume d) (found d) in
  probe_part_factory is_boot grows fs_regs detect drives (partitions, mounts)
  = Done (partitions ++ (drives ≫= found), reverse (boots new) ++ mounts ++ others new).
Proof.
  intros Hfinds new. subst new. revert partitions mounts. induction Hfinds as [|d drives Hd Hfinds IH]; intros partitions mounts; cbn [probe_part_factory];
    [by rewrite !app_nil_r|]. unfold probe_part_factory_on_drive. rewrite Hd. cbn [obind]. rewrite mount_all_run. cbn [obind]. rewrite IH, !bind_cons.
  rewrite !filter_app, reverse_app, <- !app_assoc. done.
Qed.

(** ** The two schemes *)

Context (room : Z → bool) (fresh : Z → list Z).
Hypothesis Hroom : ∀ n, room n = true.
Hypothesis Hfresh : ∀ n, length (fresh n) = Z.to_nat n.

Inductive scheme := Mbr | Gpt | Iso.
Definition detect_of (sc : scheme) : drive_t → list part_dev_t → outcome (list part_dev_t * list part_dev_t) :=
  match sc with Mbr => mbr_detect room grows | Gpt => gpt_detect room fresh grows | Iso => iso_detect room fresh grows end.

(** A drive with a boot record *)
Record mbr_ok (drive : drive_t) (sector : list Z) : Prop := {
  mo_size : 512 ≤ blocksize drive ∧ length sector = Z.to_nat (blocksize drive);
  mo_read : ∃ r, 0 ≤ r ∧ read_blocks drive 1 0 = (r, sector);
  mo_mark : byte_at 510 sector = 0x55 ∧ byte_at 511 sector = 0xAA
}.

(** A drive of sectors of [2 ^ a] bytes that can be read, with a table of
    entries of 128 bytes or more in whole sectors *)
Record gpt_ok (drive : drive_t) (disk : Z → Z) (a : Z) : Prop := {
  go_log2 : 7 ≤ a < 32 ∧ blocksize_log2 drive = a;
  go_bytes : ∀ x, 0 ≤ disk x < 256;
  go_read : ∀ n lba, 0 ≤ n → 0 ≤ lba → ∃ r, 0 ≤ r ∧ read_blocks drive n lba = (r, bytes_at disk (lba * 2 ^ a) (Z.to_nat (n * 2 ^ a)));
  go_sig : sig (disk_hdr disk a) = sig_expected;
  go_entry : 128 ≤ part_ent_sz (disk_hdr disk a);
  go_size : part_ent_sz (disk_hdr disk a) * part_ent_count (disk_hdr disk a) < 2 ^ 32;
  go_whole : (2 ^ a | part_ent_sz (disk_hdr disk a) * part_ent_count (disk_hdr disk a))
}.

(** A drive with a volume descriptor in its sixteenth 2KB *)
Record iso_ok (drive : drive_t) (sector : list Z) : Prop := {
  io_size : 0 < blocksize drive ≤ 2048 ∧ length sector = Z.to_nat (blocksize drive * (2048 / blocksize drive));
  io_read : ∃ r, 2048 / blocksize drive ≤ r ∧ read_blocks drive (2048 / blocksize drive) (16 * (2048 / blocksize drive)) = (r, sector);
  io_id : take 5 (drop 1 sector) = iso_id;
  io_count : 0 ≤ long_at 80 sector < 2 ^ 31
}.

(** The drive has a table of the scheme with those partitions: of a boot
    record, the entries of a known kind; of a GUID table, the EFI system
    partitions; a compact disc is one partition. *)
Definition has_table (sc : scheme) (drive : drive_t) (found : list part_dev_t) : Prop :=
  match sc with
  | Mbr => ∃ sector, mbr_ok drive sector ∧ found = omap (mbr_part drive) (mbr_entry sector <$> seq 0 4)
  | Gpt => ∃ disk a, gpt_ok drive disk a ∧ found = gpt_found drive disk a 0 (Z.to_nat (part_ent_count (disk_hdr disk a)))
  | Iso => ∃ sector, iso_ok drive sector ∧ found = [Part (drive_id drive) 0 (long_at 80 sector) "iso9660"]
  end.

Lemma table_found sc drive found : has_table sc drive found → finds (detect_of sc) drive found.
Proof.
  destruct sc; cbn.
  - intros (sector & [[Hs Hl] (r & Hr & Hread) [H1 H2]] & ->). by apply (mbr_finds room grows Hroom Hgrows drive r).
  - intros (disk & a & [[Ha Hlog] Hb Hread Hsig Hent Hsize Hw] & ->). by apply (gpt_finds room fresh grows Hroom Hgrows Hfresh).
  - intros (sector & [[Hs Hl] (r & Hr & Hread) Hid Hc] & ->). by apply (iso_finds room fresh grows Hroom Hgrows Hfresh drive r).
Qed.

End volumes.

(** ** Concrete drives *)

Definition le_long (w : Z) : list Z := [w mod 256; w / 256 mod 256; w / 65536 mod 256; w / 16777216 mod 256].
Definition le_quad (w : Z) : list Z := le_long (w mod 2 ^ 32) ++ le_long (w / 2 ^ 32).
Definition list_disk (l : list Z) (x : Z) : Z := u8 (default 0 (l !! Z.to_nat x)).

(** Sectors of 128 bytes: the header in sector 1, and two entries from sector
    2 on, the second of which is an EFI partition of blocks 10 to 19 *)
Definition gpt_header (lba count size : Z) : list Z := le_quad sig_expected ++ replicate 64 0 ++ le_quad lba ++ le_long count ++ le_long size ++ replicate 40 0.
Definition gpt_image : list Z :=
  replicate 128 0 ++ gpt_header 2 2 128 ++ replicate 128 7 ++ efi_part ++ replicate 16 0 ++ le_quad 10 ++ le_quad 19 ++ replicate 80 0.
Definition image_drive (l : list Z) (a : Z) : drive_t :=
  Drive 0 (2 ^ a) a (λ n lba, (n, bytes_at (list_disk l) (lba * 2 ^ a) (Z.to_nat (n * 2 ^ a)))).
Definition fat_factory : @fs_factory_t (Z * Z) := FsFactory "fat32" (λ _ st len, Some (st, len)).


(** ** Where the code departs from what it means to do *)

(** An error of reading the table is not noticed, so that what is in the new
    buffer is taken for the table. *)
Example gpt_error_unseen :
  let old := drop 256 gpt_image in
  let d := Drive 0 128 7 (λ n lba, if lba =? 2 then (-5, []) else (read_blocks (image_drive gpt_image 7)) n lba) in
  gpt_detect (λ _, true) (λ n, take (Z.to_nat n) old) (λ _, true) d [] = Done ([Part 0 10 10 "fat32"], [Part 0 10 10 "fat32"]).
Proof. vm_compute. done. Qed.

(** The part of the table in its last sector is not read unless it fills the
    sector: with sectors of 512 bytes, two entries are not seen. *)
Example gpt_part_sector_unread :
  let image := replicate 512 0 ++ gpt_header 2 2 128 ++ replicate 384 0 ++ replicate 128 7 ++ drop 384 gpt_image in
  gpt_detect (λ _, true) (λ n, replicate (Z.to_nat n) 0) (λ _, true) (image_drive image 9) [] = Done ([], []).
Proof. vm_compute. done. Qed.

(** Entries shorter than 128 bytes are copied from behind the buffer. *)
Example gpt_short_entries :
  gpt_detect (λ _, true) (λ n, replicate (Z.to_nat n) 0) (λ _, true) (image_drive (replicate 128 0 ++ gpt_header 2 2 64) 7) [] = Fault OutOfRange.
Proof. vm_compute. done. Qed.

(** The index of a file system is not compared with their number. *)
Example no_such_mount : fs_from_id 1 [Mount None 7] = Fault OutOfRange.
Proof. done. Qed.

(** A failed trim returns the count of the completion and not its error. *)
Example trim_error_lost : trim_blocks 0 (121, 0) 8 = 0 ∧ blocking_result 0 (121, 0) = -121.
Proof. done. Qed.
