(* ===== verification/Tmpfs.v ===== *)
(** * kernel/fs/tmpfs.cc: the initial ram disk as a read-only file system

    The loader leaves a cpio archive in memory; mounting it makes an index of
    its files, and the calls on files work on the index and on that memory.
    Memory is a function from addresses to bytes, the vectors are lists, and
    whether a vector could grow is a parameter, as is what the calls on user
    memory answer.  At the end: an archive of any files, packed the way cpio
    does, gives each of them back. *)

From stdpp Require Import base tactics list numbers option.
From S2P Require Import Prelude Regions HashTable Utf Partitions.

#[local] Open Scope Z_scope.

(** ** The archive in memory *)

Definition word_of (mem : Z → Z) (a : Z) : Z := mem a + 256 * mem (a + 1).

Record cpio_hdr_t := Hdr {
  magic : Z;
  dev : Z;
  ino : Z;
  mode : Z;
  uid : Z;
  gid : Z;
  nlink : Z;
  rdev : Z;
  mtime_parts : Z * Z;
  namesize : Z;
  filesize_parts : Z * Z
}.

Definition hdr_at (mem : Z → Z) (a : Z) : cpio_hdr_t :=
  let w i := word_of mem (a + 2 * i) in
  Hdr (w 0) (w 1) (w 2) (w 3) (w 4) (w 5) (w 6) (w 7) (w 8, w 9) (w 10) (w 11, w 12).

(** sizeof(cpio_hdr_t) *)
Definition hdr_sz : Z := 26.

Definition filesize (hdr : cpio_hdr_t) : Z := u32 (Z.lor (Z.shiftl (filesize_parts hdr).1 16) (filesize_parts hdr).2).
Definition mtime (hdr : cpio_hdr_t) : Z := u32 (Z.lor (Z.shiftl (mtime_parts hdr).1 16) (mtime_parts hdr).2).

(** The addresses of the name and of the contents of the file at [a] *)
Definition name (a : Z) : Z := a + hdr_sz.
Definition data (hdr : cpio_hdr_t) (a : Z) : Z := a + hdr_sz + namesize hdr + Z.land (namesize hdr) 1.

(** "TRAILER!!!" *)
Definition TRAILER : list Z := [84; 82; 65; 73; 76; 69; 82; 33; 33; 33].

Definition next (mem : Z → Z) (en a : Z) : option Z :=
  let hdr := hdr_at mem a in
  if (namesize hdr =? 11) && bool_decide (bytes_at mem (name a) 10 = TRAILER) && (filesize hdr =? 0) then None
  else
    let next_hdr := data hdr a + u32 (filesize hdr + Z.land (filesize hdr) 1) in
    if en <? next_hdr + hdr_sz then None else Some next_hdr.

(** ** The index *)

Record file_t := FileInfo {
  name_ofs : nat;
  name_sz : Z;
  file_ofs : Z;
  name_hash : Z;
  file_sz : Z;
  f_mtime : Z;
  f_ino : Z;
  f_mode : Z;
  f_nlink : Z
}.

Record tmpfs_fs_t := TmpFs {
  names : list Z;
  files : list file_t;
  st : Z;
  en : Z
}.

Definition is_boot : bool := true.

Section mounting.
(** Whether push_back finds room in a vector of that size *)
Context (names_grow files_grow : nat → bool).
Context (mem : Z → Z).

Fixpoint push_names (ns l : list Z) : list Z * bool :=
  match l with
  | [] => (ns, true)
  | c :: l => if names_grow (length ns) then push_names (ns ++ [c]) l else (ns, false)
  end.

Definition file_of (fs : tmpfs_fs_t) (hdr : cpio_hdr_t) (a : Z) : file_t :=
  FileInfo (length (names fs)) (namesize hdr) (data hdr a - st fs)
    (if namesize hdr =? 0 then 0 else hash_32 (bytes_at mem (name a) (Z.to_nat (namesize hdr - 1))))
    (filesize hdr) (mtime hdr) (ino hdr) (mode hdr) (nlink hdr).

Definition add (a : Z) (fs : tmpfs_fs_t) : option Z * tmpfs_fs_t :=
  let hdr := hdr_at mem a in
  if negb (magic hdr =? 0x71c7) then (None, fs)
  else
    let file := file_of fs hdr a in
    if (namesize hdr =? 11) && (mem (name a) =? 84) && (mem (name a + 8) =? 33)
       && bool_decide (bytes_at mem (name a) (Z.to_nat (namesize hdr)) = TRAILER ++ [0]) then (None, fs)
    else
      let '(ns, ok) := push_names (names fs) (bytes_at mem (name a) (Z.to_nat (namesize hdr))) in
      if negb ok then (None, TmpFs ns (files fs) (st fs) (en fs))
      else if negb (files_grow (length (files fs))) then (None, TmpFs ns (files fs) (st fs) (en fs))
      else (next mem (en fs) a, TmpFs ns (files fs ++ [file]) (st fs) (en fs)).

Fixpoint index_loop (fuel : nat) (hdr : option Z) (fs : tmpfs_fs_t) : outcome tmpfs_fs_t :=
  match fuel with
  | O => Fault OutOfFuel
  | S fuel =>
      match hdr with
      | None => Done fs
      | Some a =>
          if a + hdr_sz <? en fs then
            match add a fs with
            | (None, fs) => Done fs
            | (Some _, fs) => index_loop fuel (next mem (en fs) a) fs
            end
          else Done fs
      end
  end.

(** The address and the size of the archive are what the connection calls the
    start and the length of the partition. *)
Definition mount (part_st part_len : Z) : outcome tmpfs_fs_t :=
  let en := u64 (part_st + part_len) in
  if negb (names_grow 0) then Fault Panicked
  else index_loop (2 + Z.to_nat (part_len / hdr_sz)) (if part_st =? 0 then None else Some part_st) (TmpFs [0] [] part_st en).

(** A mounted archive is put in front of the mounts. *)
Definition tmpfs_startup (room mounts_grow : bool) (start sz : Z) (mounts : list fs_mount_t) : outcome (bool * list fs_mount_t) :=
  if negb room then Fault OutOfRange
  else
    let* fs := mount start sz in
    let* mounts := fs_add (λ _, is_boot) mounts_grow None (Some fs) mounts in
    Done (true, mounts).
End mounting.

(** The empty file system, and the range given to munmap *)
Definition unmount (fs : tmpfs_fs_t) : tmpfs_fs_t * option (Z * Z) :=
  (TmpFs [] [] 0 0, if st fs <? en fs then Some (st fs, en fs - st fs) else None).

(** ** Open files *)

Record tmpfs_file_t := TmpFile { file_index : nat; end_index : Z }.

Definition get_inode (file : tmpfs_file_t) : Z := Z.of_nat (file_index file) + 1.

Definition ENOSYS : Z := 81.
Definition EROFS : Z := 104.
Definition ENOENT : Z := 67.
Definition EINVAL : Z := 36.
Definition ENOMEM : Z := 73.
Definition EFAULT : Z := 28.
Definition O_CREAT : Z := 0x20.
Definition O_TRUNC : Z := 0x40000.

Definition new_file (index : nat) : tmpfs_file_t := TmpFile index (2 ^ 64 - 1).

(** The index of the first file of that name *)
Fixpoint find_file (ns path : list Z) (hash : Z) (index : nat) (fs : list file_t) : option nat :=
  match fs with
  | [] => None
  | f :: fs =>
      if (name_hash f =? hash) && (name_sz f =? Z.of_nat (length path) + 1)
         && bool_decide (take (length path) (drop (name_ofs f) ns) = path) then Some index
      else find_file ns path hash (S index) fs
  end.

(** [room] says whether there is memory for the handle, which is not tested. *)
Definition openat (room : bool) (fs : tmpfs_fs_t) (path : list Z) (flags : Z) : outcome (Z * option tmpfs_file_t) :=
  if negb (Z.land flags (Z.lor O_CREAT O_TRUNC) =? 0) then Done (- EROFS, None)
  else match find_file (names fs) path (hash_32 path) 0 (files fs) with
       | None => Done (- ENOENT, None)
       | Some index => if room then Done (0, Some (new_file index)) else Fault OutOfRange
       end.

Definition opendirat (room : bool) : Z * option tmpfs_file_t := (0, if room then Some (new_file 0) else None).

Definition release (file : tmpfs_file_t) : Z := 0.
Definition releasedir (file : tmpfs_file_t) : Z := 0.

(** What the memory manager says of the buffer: whether it is the user's,
    whether it can be made present, and whether copying to it succeeds *)
Record buffer_t := Buffer { is_user : Z → bool; willneed : Z → bool; copies : Z → bool }.

(** The result and the bytes stored in the buffer *)
Definition read (mem : Z → Z) (fs : tmpfs_fs_t) (file : tmpfs_file_t) (buf : buffer_t) (size offset : Z) : outcome (Z * list Z) :=
  match files fs !! file_index file with
  | None => Fault OutOfRange
  | Some info =>
      if file_sz info <=? offset then Done (0, [])
      else
        let avail := s64 (file_sz info - offset) in
        let size := if avail <? s64 size then u64 avail else size in
        if s64 size <? 0 then Done (- EINVAL, [])
        else if offset <? 0 then Done (- EINVAL, [])
        else
          let src := bytes_at mem (st fs + file_ofs info + offset) (Z.to_nat size) in
          if is_user buf size then
            if negb (willneed buf size) then Done (- ENOMEM, [])
            else if negb (copies buf size) then Done (- EFAULT, [])
            else Done (size, src)
          else Done (size, src)
  end.

Record dirent_t := Dirent { d_ino : Z; d_off : Z; d_reclen : Z; d_type : Z; d_name : list Z }.

(** sizeof(dirent_t): two numbers of 8 bytes, two bytes, one, and 256, padded
    to 8 *)
Definition dirent_sz : Z := 280.
Definition NAME_MAX : nat := 255.

(** 0 at the end.  A negative offset is an index before the vector. *)
Definition readdir (fs : tmpfs_fs_t) (file : tmpfs_file_t) (offset : Z) : outcome (Z * option dirent_t) :=
  if Z.of_nat (length (files fs)) <=? offset then Done (0, None)
  else
    let index := u64 (Z.of_nat (file_index file) + offset) in
    match files fs !! Z.to_nat index with
    | None => Fault OutOfRange
    | Some info =>
        let* n := strncpy_bytes (S NAME_MAX) (drop (name_ofs info) (names fs)) in
        Done (1, Some (Dirent (index + 1) offset dirent_sz 0 n))
    end.

Record fs_stat_t := Stat {
  st_ino : Z;
  st_mode : Z;
  st_nlink : Z;
  st_uid : Z;
  st_gid : Z;
  st_rdev : Z;
  st_size : Z;
  st_blksize : Z;
  st_blocks : Z;
  st_atime : Z;
  st_mtime : Z;
  st_ctime : Z
}.

Definition fstat (fs : tmpfs_fs_t) (file : tmpfs_file_t) : outcome (Z * fs_stat_t) :=
  match files fs !! file_index file with
  | None => Fault OutOfRange
  | Some i =>
      Done (0, Stat (f_ino i) (f_mode i) (f_nlink i) 0 0 0 (file_sz i) 512 (Z.shiftr (file_sz i) 9) (f_mtime i) (f_mtime i) (f_mtime i))
  end.

(** The fields that are set: f_bsize, f_blocks, f_files, f_namemax *)
Record fs_statvfs_t := StatVfs { f_bsize : Z; f_blocks : Z; f_files : Z; f_namemax : Z }.

Definition statfs (fs : tmpfs_fs_t) : Z * fs_statvfs_t :=
  let s := StatVfs 1 0 0 256 in
  (0, StatVfs (en fs - st fs) (f_blocks s) (Z.of_nat (length (files fs))) (f_namemax s)).

(** ** The calls that are refused *)

Inductive modify_call := Mknodat | Mkdirat | Rmdirat | Symlinkat | Renameat | Linkat | Unlinkat | Fchmod | Fchown | Truncateat | Utimensat.
Definition refuse (c : modify_call) : Z := - ENOSYS.
Definition write : Z := - EROFS.
Definition ftruncate : Z := - EROFS.

(** ** Archives *)

Definition le16 (w : Z) : list Z := [w mod 256; w / 256].
Definition hdr_words (h : cpio_hdr_t) : list Z :=
  [magic h; dev h; ino h; mode h; uid h; gid h; nlink h; rdev h; (mtime_parts h).1; (mtime_parts h).2; namesize h;
   (filesize_parts h).1; (filesize_parts h).2].
Definition pad (n : nat) : list Z := replicate (n mod 2) 0.

Record entry := Entry { e_hdr : cpio_hdr_t; e_name : list Z; e_data : list Z }.

Definition encode (e : entry) : list Z :=
  (hdr_words (e_hdr e) ≫= le16) ++ (e_name e ++ [0]) ++ pad (S (length (e_name e))) ++ e_data e ++ pad (length (e_data e)).

(** The header tells the sizes. *)
Record entry_ok (e : entry) : Prop := {
  eo_words : Forall (λ w, 0 ≤ w < 2 ^ 16) (hdr_words (e_hdr e));
  eo_magic : magic (e_hdr e) = 0x71c7;
  eo_name : namesize (e_hdr e) = Z.of_nat (length (e_name e)) + 1;
  eo_data : filesize (e_hdr e) = Z.of_nat (length (e_data e)) ∧ filesize (e_hdr e) ≠ 2 ^ 32 - 1
}.

Definition archive (es : list entry) (trailer : entry) : list Z := (es ≫= encode) ++ encode trailer.

Lemma length_words ws : length (ws ≫= le16) = (2 * length ws)%nat.
Proof. induction ws as [|w ws IH]; [done|]. rewrite bind_cons, length_app, IH. simpl. lia. Qed.

Lemma word_of_in_mem mem ws a i w :
  in_mem mem a (ws ≫= le16) → Forall (λ w, 0 ≤ w < 2 ^ 16) ws → ws !! i = Some w → word_of mem (a + 2 * Z.of_nat i) = w.
Proof.
  intros H Hok. revert i a H. induction Hok as [|v ws Hv Hok IH]; intros i a H Hi; [done|].
  rewrite bind_cons in H. apply in_mem_app in H as [H1 H2]. destruct i as [|i]; simplify_eq/=.
  - unfold word_of. pose proof (H1 0%nat _ eq_refl) as E0. pose proof (H1 1%nat _ eq_refl) as E1.
    replace (a + 2 * Z.of_nat 0) with (a + Z.of_nat 0) by lia. rewrite E0. replace (a + Z.of_nat 0 + 1) with (a + Z.of_nat 1) by lia. rewrite E1.
    pose proof (Z.div_mod w 256). lia.
  - rewrite <- (IH i (a + 2)); [f_equal; lia| |done]. exact H2.
Qed.

Lemma hdr_at_in_mem mem a h :
  in_mem mem a (hdr_words h ≫= le16) → Forall (λ w, 0 ≤ w < 2 ^ 16) (hdr_words h) → hdr_at mem a = h.
Proof.
  intros H Hok. pose proof (λ i w, word_of_in_mem mem _ a i w H Hok) as Hw. destruct h as [? ? ? ? ? ? ? ? [??] ? [??]].
  unfold hdr_at. repeat f_equal;
    match goal with |- word_of _ (_ + 2 * ?i) = _ => exact (Hw (Z.to_nat i) _ eq_refl) end.
Qed.

Section reading.
Context (mem : Z → Z).

(** What is where in an entry *)
Lemma encode_at e a :
  entry_ok e → in_mem mem a (encode e) →
  hdr_at mem a = e_hdr e ∧ bytes_at mem (name a) (S (length (e_name e))) = e_name e ++ [0] ∧ in_mem mem (data (e_hdr e) a) (e_data e).
Proof.
  intros [Hw _ Hn _] H. unfold encode in H. apply in_mem_app in H as [Hh H]. rewrite length_words in H. apply in_mem_app in H as [Hna H].
  split; [by apply hdr_at_in_mem|]. split.
  - replace (S (length (e_name e))) with (length (e_name e ++ [0])) by (rewrite length_snoc; lia). apply bytes_at_in_mem. exact Hna.
  - apply in_mem_app in H as [_ H]. apply in_mem_app in H as [H _]. revert H. unfold data, pad. rewrite Hn, length_replicate, length_snoc.
    change (2 * length (hdr_words (e_hdr e)))%nat with 26%nat. change (Z.land ?x 1) with (Z.land x (2 ^ 1 - 1)).
    rewrite land_low_mask by lia. intros H. replace (a + hdr_sz + _ + _) with
      (a + Z.of_nat 26 + Z.of_nat (S (length (e_name e))) + Z.of_nat (S (length (e_name e)) mod 2)); [done|].
    rewrite Nat2Z.inj_mod. unfold hdr_sz. rewrite Nat2Z.inj_succ. change (2 ^ 1) with 2. unfold Z.succ. change (Z.of_nat 2) with 2. lia.
Qed.

Lemma length_encode e a :
  entry_ok e →
  data (e_hdr e) a + u32 (filesize (e_hdr e) + Z.land (filesize (e_hdr e)) 1) = a + Z.of_nat (length (encode e))
  ∧ 26 < Z.of_nat (length (encode e)).
Proof.
  intros [_ _ Hn [Hd Hbig]]. assert (0 ≤ filesize (e_hdr e) < 2 ^ 32) as Hr by apply u32_range.
  unfold encode. rewrite !length_app, length_words. unfold pad. rewrite !length_replicate. change (2 * length (hdr_words (e_hdr e)))%nat with 26%nat.
  unfold data, hdr_sz. rewrite Hd in Hr, Hbig. rewrite Hn, Hd. change (Z.land ?x 1) with (Z.land x (2 ^ 1 - 1)). rewrite !land_low_mask by lia. change (2 ^ 1) with 2.
  assert (∀ x, 0 ≤ x < 2 ^ 32 → x ≠ 2 ^ 32 - 1 → 0 ≤ x + x mod 2 < 2 ^ 32) as Heven.
  { intros x Hx Hne. pose proof (Z.mod_pos_bound x 2). lia. }
  rewrite u32_small by (apply Heven; lia). rewrite !Nat2Z.inj_add, !Nat2Z.inj_mod. change (Z.of_nat 2) with 2.
  replace (Z.of_nat (S (length (e_name e)))) with (Z.of_nat (length (e_name e)) + 1) by lia. simpl length.
  pose proof (Z.mod_pos_bound (Z.of_nat (length (e_name e)) + 1) 2). pose proof (Z.mod_pos_bound (Z.of_nat (length (e_data e))) 2). lia.
Qed.

Lemma next_entry en a e :
  entry_ok e → e_name e ≠ TRAILER → in_mem mem a (encode e) →
  a + Z.of_nat (length (encode e)) + 26 ≤ en → next mem en a = Some (a + Z.of_nat (length (encode e))).
Proof.
  intros Hok Hne H Hen. destruct (encode_at e a Hok H) as (Hh & Hna & _). destruct (length_encode e a Hok) as [Hlen _].
  unfold next. rewrite Hh, Hlen. assert ((namesize (e_hdr e) =? 11) && bool_decide (bytes_at mem (name a) 10 = TRAILER) = false) as ->.
  { rewrite (eo_name e Hok). destruct (Z.eqb_spec (Z.of_nat (length (e_name e)) + 1) 11) as [E|]; [|done]. simpl. apply bool_decide_eq_false.
    intros Ht. apply Hne. replace (S (length (e_name e))) with 11%nat in Hna by lia. rewrite <- Ht.
    unfold bytes_at in Hna |- *. rewrite (seq_app 10 1), fmap_app in Hna. apply app_inj_2 in Hna as [-> _]; done. }
  cbn [andb]. cbv iota. unfold hdr_sz. destruct (Z.ltb_spec en (a + Z.of_nat (length (encode e)) + 26)) as [Hlt|Hge]; [lia|]. done.
Qed.

Definition with_index (fs : tmpfs_fs_t) (ns : list Z) (l : list file_t) : tmpfs_fs_t := TmpFs (names fs ++ ns) (files fs ++ l) (st fs) (en fs).

(** The index of the files, the first of which is at [a] and has its name at
    [nofs] *)
Fixpoint file_table (start : Z) (nofs : nat) (a : Z) (es : list entry) : list file_t :=
  match es with
  | [] => []
  | e :: es =>
      FileInfo nofs (namesize (e_hdr e)) (data (e_hdr e) a - start) (hash_32 (e_name e)) (filesize (e_hdr e)) (mtime (e_hdr e))
        (ino (e_hdr e)) (mode (e_hdr e)) (nlink (e_hdr e))
      :: file_table start (nofs + S (length (e_name e))) (a + Z.of_nat (length (encode e))) es
  end.

Context (names_grow files_grow : nat → bool).
Hypothesis Hroom : ∀ n, names_grow n = true ∧ files_grow n = true.

Lemma push_names_room ns l : push_names names_grow ns l = (ns ++ l, true).
Proof.
  revert ns. induction l as [|c l IH]; intros ns; simpl; [by rewrite app_nil_r|].
  by rewrite (proj1 (Hroom _)), IH, <- app_assoc.
Qed.

Lemma add_entry fs a e :
  entry_ok e → e_name e ≠ TRAILER → in_mem mem a (encode e) →
  add names_grow files_grow mem a fs
  = (next mem (en fs) a, with_index fs (e_name e ++ [0]) (file_table (st fs) (length (names fs)) a [e])).
Proof.
  intros Hok Hne H. destruct (encode_at e a Hok H) as (Hh & Hna & _). unfold add. rewrite Hh, (eo_magic e Hok). simpl negb. cbv iota zeta.
  unfold file_of. rewrite (eo_name e Hok). replace (Z.to_nat (Z.of_nat (length (e_name e)) + 1)) with (S (length (e_name e))) by lia. rewrite Hna.
  rewrite andb_comm, (bool_decide_eq_false_2 (e_name e ++ [0] = TRAILER ++ [0])) by (intros E; apply Hne; by apply app_inj_2 in E as [-> _]).
  cbn [andb]. rewrite push_names_room. cbn [negb]. rewrite (proj2 (Hroom _)). cbn [negb]. unfold with_index. cbn [file_table].
  rewrite (proj2 (Z.eqb_neq _ _)) by lia. replace (Z.to_nat (Z.of_nat (length (e_name e)) + 1 - 1)) with (length (e_name e)) by lia.
  replace (bytes_at mem (name a) (length (e_name e))) with (e_name e); [by rewrite (eo_name e Hok)|].
  transitivity (take (length (e_name e)) (bytes_at mem (name a) (S (length (e_name e))))).
  - by rewrite Hna, take_app_length.
  - unfold bytes_at. rewrite <- fmap_take, take_seq. do 2 f_equal. lia.
Qed.

Lemma add_trailer fs a t :
  entry_ok t → e_name t = TRAILER → in_mem mem a (encode t) → add names_grow files_grow mem a fs = (None, fs).
Proof.
  intros Hok Hn H. destruct (encode_at t a Hok H) as (Hh & Hna & _). unfold add. rewrite Hh, (eo_magic t Hok). cbn [negb].
  rewrite (eo_name t Hok), Hn in *. change (Z.to_nat _) with 11%nat. change (S (length TRAILER)) with 11%nat in Hna. rewrite Hna.
  injection Hna as H0 _ _ _ _ _ _ _ H8 _. rewrite Z.add_0_r in H0. change (Z.of_nat 8) with 8 in H8. by rewrite H0, H8.
Qed.

Lemma index_loop_all es t fuel a fs :
  Forall (λ e, entry_ok e ∧ e_name e ≠ TRAILER) es → entry_ok t → e_name t = TRAILER →
  in_mem mem a (archive es t) → a + Z.of_nat (length (archive es t)) ≤ en fs → (length es < fuel)%nat →
  index_loop names_grow files_grow mem fuel (Some a) fs
  = Done (with_index fs (es ≫= λ e, e_name e ++ [0]) (file_table (st fs) (length (names fs)) a es)).
Proof.
  intros Hes Ht Hn. revert fuel a fs. induction Hes as [|e es [He Hne] Hes IH]; intros fuel a fs H Hen Hfuel; (destruct fuel as [|fuel]; [lia|]).
  - change (archive [] t) with (encode t) in H, Hen. destruct (length_encode t a Ht) as [_ Hl]. cbn [index_loop]. unfold hdr_sz.
    rewrite (proj2 (Z.ltb_lt _ _)) by lia. rewrite (add_trailer _ _ t) by done. unfold with_index. cbn. rewrite !app_nil_r. by destruct fs.
  - unfold archive in H, Hen. rewrite bind_cons, <- app_assoc in H, Hen. fold (archive es t) in H, Hen. apply in_mem_app in H as [H1 H2].
    rewrite length_app in Hen. destruct (length_encode e a He) as [_ Hl]. destruct (length_encode t a Ht) as [_ Hlt].
    assert (26 < Z.of_nat (length (archive es t))) as Hrest by (unfold archive; rewrite length_app; lia).
    cbn [index_loop]. unfold hdr_sz. rewrite (proj2 (Z.ltb_lt _ _)) by lia. rewrite (add_entry _ _ e) by done.
    rewrite (next_entry _ _ e) by (done || lia). cbv iota beta. cbn [with_index en]. rewrite (next_entry _ _ e) by (done || lia).
    rewrite IH; [|done|cbn [with_index en]; lia|simpl in Hfuel; lia].
    unfold with_index. cbn [names files st en file_table]. rewrite bind_cons, <- !app_assoc, !length_app. by rewrite Nat.add_1_r.
Qed.

Definition name_bytes (e : entry) : list Z := e_name e ++ [0].
Lemma length_name_bytes e : length (name_bytes e) = S (length (e_name e)).
Proof. apply length_snoc. Qed.

Lemma find_file_first pre es start a path hash k :
  hash = hash_32 path → Forall (λ e, entry_ok e) es →
  find_file (pre ++ (es ≫= name_bytes)) path hash k (file_table start (length pre) a es)
  = (λ p, (k + p.1)%nat) <$> list_find (λ e, e_name e = path) es.
Proof.
  intros -> Hok. revert pre a k. induction Hok as [|e es He Hok IH]; intros pre a k; [done|].
  cbn [file_table find_file name_hash name_sz name_ofs]. rewrite bind_cons, drop_app_length. rewrite (eo_name e He).
  assert ((hash_32 (e_name e) =? hash_32 path) && (Z.of_nat (length (e_name e)) + 1 =? Z.of_nat (length path) + 1)
          && bool_decide (take (length path) (name_bytes e ++ (es ≫= name_bytes)) = path) = bool_decide (e_name e = path)) as ->.
  { destruct (decide (e_name e = path)) as [E|E]; [rewrite (bool_decide_eq_true_2 (e_name e = path)) by done|rewrite (bool_decide_eq_false_2 (e_name e = path)) by done].
    - rewrite <- E, !Z.eqb_refl. apply bool_decide_eq_true_2. unfold name_bytes at 1. by rewrite <- app_assoc, take_app_length.
    - destruct (Z.eqb_spec (Z.of_nat (length (e_name e)) + 1) (Z.of_nat (length path) + 1)) as [Hl|]; [|by rewrite andb_false_r].
      rewrite bool_decide_eq_false_2, andb_false_r; [done|]. unfold name_bytes at 1.
      replace (length path) with (length (e_name e)) by lia. by rewrite <- app_assoc, take_app_length. }
  cbn [list_find]. case_bool_decide as E; [rewrite decide_True by done|rewrite decide_False by done].
  - simpl. by rewrite Nat.add_0_r.
  - specialize (IH (pre ++ name_bytes e) (a + Z.of_nat (length (encode e))) (S k)). rewrite <- app_assoc in IH. rewrite length_app, length_name_bytes in IH.
    rewrite IH. destruct (list_find _ es) as [[i x]|]; [|done]. simpl. f_equal. lia.
Qed.

(** The index entry of a file *)
Lemma file_table_lookup pre es t start a i e :
  Forall (λ e, entry_ok e) es → in_mem mem a (archive es t) → es !! i = Some e →
  ∃ f rest, file_table start (length pre) a es !! i = Some f ∧ in_mem mem (start + file_ofs f) (e_data e)
    ∧ drop (name_ofs f) (pre ++ (es ≫= name_bytes)) = e_name e ++ 0 :: rest
    ∧ file_sz f = Z.of_nat (length (e_data e)) ∧ f_mtime f = mtime (e_hdr e) ∧ f_ino f = ino (e_hdr e) ∧ f_mode f = mode (e_hdr e)
    ∧ f_nlink f = nlink (e_hdr e).
Proof.
  intros Hok. revert pre a i. induction Hok as [|x es Hx Hok IH]; intros pre a i H Hi; [done|].
  unfold archive in H. rewrite bind_cons, <- app_assoc in H. fold (archive es t) in H. apply in_mem_app in H as [H1 H2]. rewrite bind_cons.
  destruct i as [|i]; simplify_eq/=.
  - destruct (encode_at e a Hx H1) as (_ & _ & Hd). eexists _, _. split; [done|]. cbn.
    split; [by replace (start + (data (e_hdr e) a - start)) with (data (e_hdr e) a) by lia|].
    split; [rewrite drop_app_length; unfold name_bytes at 1; by rewrite <- app_assoc|]. split; [apply (eo_data e Hx)|done].
  - specialize (IH (pre ++ name_bytes x) (a + Z.of_nat (length (encode x))) i H2 Hi). rewrite <- app_assoc, length_app, length_name_bytes in IH. exact IH.
Qed.

Lemma archive_fuel es t :
  Forall (λ e, entry_ok e) es → 26 * Z.of_nat (length es) ≤ Z.of_nat (length (archive es t)).
Proof.
  intros Hok. unfold archive. induction Hok as [|e es He Hok IH]; [simpl length; lia|].
  rewrite bind_cons, <- app_assoc, length_app. destruct (length_encode e 0 He) as [_ Hl]. simpl length. lia.
Qed.
End reading.

Lemma strncpy_name n s rest :
  0 ∉ s → (length s ≤ n)%nat → strncpy_bytes n (s ++ 0 :: rest) = Done (s ++ replicate (n - length s) 0).
Proof.
  revert n. induction s as [|c s IH]; intros n Hs Hn; simpl in *.
  - rewrite Nat.sub_0_r. by destruct n.
  - destruct n as [|n]; [lia|]. apply not_elem_of_cons in Hs as [Hc Hs]. simpl. rewrite (proj2 (Z.eqb_neq _ _)) by done.
    rewrite IH by (done || lia). done.
Qed.

(** A buffer that what is read can be stored in *)
Definition buffer_ok (buf : buffer_t) : Prop := ∀ n, is_user buf n = true → willneed buf n = true ∧ copies buf n = true.

Lemma read_file mem fs file buf size offset f d :
  files fs !! file_index file = Some f → in_mem mem (st fs + file_ofs f) d → file_sz f = Z.of_nat (length d) → file_sz f < 2 ^ 32 →
  buffer_ok buf → 0 ≤ size < 2 ^ 63 → 0 ≤ offset →
  let got := take (Z.to_nat size) (drop (Z.to_nat offset) d) in
  read mem fs file buf size offset = Done (Z.of_nat (length got), got).
Proof.
  intros Hf Hd Hsz Hlt Hbuf Hsize Hofs got. assert (length got = Nat.min (Z.to_nat size) (length d - Z.to_nat offset)) as Hlen.
  { unfold got. by rewrite length_take, length_drop. }
  unfold read. rewrite Hf. destruct (Z.leb_spec (file_sz f) offset) as [Hend|Hin].
  { assert (length got = 0%nat) as H0 by lia. by apply length_zero_iff_nil in H0 as ->. }
  rewrite (s64_small (file_sz f - offset)), (s64_small size) by lia.
  set (n := if file_sz f - offset <? size then u64 (file_sz f - offset) else size).
  assert (n = Z.of_nat (length got)) as Hn.
  { subst n. destruct (Z.ltb_spec (file_sz f - offset) size); [rewrite u64_small by lia|]; lia. }
  rewrite s64_small by lia. rewrite (proj2 (Z.ltb_ge n 0)), (proj2 (Z.ltb_ge offset 0)) by lia.
  assert (bytes_at mem (st fs + file_ofs f + offset) (Z.to_nat n) = got) as ->.
  { replace offset with (Z.of_nat (Z.to_nat offset)) at 1 by lia. rewrite (bytes_at_part _ _ d) by (done || lia).
    unfold got. rewrite Hn, Nat2Z.id, Hlen. apply list_eq. intros i. destruct (decide (i < Nat.min (Z.to_nat size) (length d - Z.to_nat offset))%nat).
    - rewrite !lookup_take_lt by lia. done.
    - rewrite lookup_take_ge by lia. symmetry. apply lookup_ge_None_2. rewrite length_take, length_drop. lia. }
  destruct (is_user buf n) eqn:Hu; [destruct (Hbuf n Hu) as [-> ->]|]; cbn [negb]; by rewrite Hn.
Qed.

Lemma mount_archive names_grow files_grow mem es t start len :
  (∀ n, names_grow n = true ∧ files_grow n = true) → Forall (λ e, entry_ok e ∧ e_name e ≠ TRAILER) es → entry_ok t → e_name t = TRAILER →
  0 < start → start + len < 2 ^ 64 → Z.of_nat (length (archive es t)) ≤ len → in_mem mem start (archive es t) →
  mount names_grow files_grow mem start len
  = Done (TmpFs ([0] ++ (es ≫= name_bytes)) (file_table start (length [0]) start es) start (start + len)).
Proof.
  intros Hroom Hes Ht Hn Hst Hen Hlen H. unfold mount. rewrite (proj1 (Hroom _)), (proj2 (Z.eqb_neq start 0)), u64_small by lia. cbn [negb].
  assert (26 * Z.of_nat (length es) ≤ Z.of_nat (length (archive es t))) as Hfuel.
  { apply archive_fuel. eapply Forall_impl; [exact Hes|]. by intros e []. }
  apply (index_loop_all mem names_grow files_grow Hroom es t); try done; [cbn [en]; lia|].
  pose proof (Z.div_le_mono (26 * Z.of_nat (length es)) len 26 ltac:(lia) ltac:(lia)) as Hdiv.
  rewrite Z.mul_comm, Z.div_mul in Hdiv by lia. unfold hdr_sz. lia.
Qed.

(** ** Mounting comes to an end *)

Section ending.
Context (names_grow files_grow : nat → bool) (mem : Z → Z).
Hypothesis Hbytes : ∀ a, 0 ≤ mem a < 256.

Lemma next_forward e a b : next mem e a = Some b → a + hdr_sz ≤ b.
Proof.
  unfold next. destruct (_ && _); [done|]. cbv zeta. destruct (_ <? _); [done|]. intros [= <-]. unfold data.
  assert (0 ≤ namesize (hdr_at mem a)) as Hn by (pose proof (Hbytes (a + 2 * 10)); pose proof (Hbytes (a + 2 * 10 + 1)); cbn; unfold word_of; lia).
  pose proof (proj2 (Z.land_nonneg (namesize (hdr_at mem a)) 1) (or_introl Hn)).
  pose proof (u32_range (filesize (hdr_at mem a) + Z.land (filesize (hdr_at mem a)) 1)). lia.
Qed.

Lemma add_keeps a fs : en (add names_grow files_grow mem a fs).2 = en fs.
Proof.
  unfold add. destruct (negb _); [done|]. cbv zeta. destruct (_ && _); [done|]. destruct (push_names _ _ _) as [ns ok].
  destruct (negb ok); [done|]. by destruct (negb _).
Qed.

Lemma index_loop_ends fuel hdr fs :
  (∀ a, hdr = Some a → en fs - a ≤ 26 * (Z.of_nat fuel - 1)) → (0 < fuel)%nat → ∃ fs', index_loop names_grow files_grow mem fuel hdr fs = Done fs'.
Proof.
  revert hdr fs. induction fuel as [|fuel IH]; intros hdr fs Ha Hf; [lia|]. cbn [index_loop]. destruct hdr as [a|]; [|by eexists].
  specialize (Ha a eq_refl). unfold hdr_sz. destruct (Z.ltb_spec (a + 26) (en fs)) as [Hlt|]; [|by eexists].
  pose proof (add_keeps a fs) as Hen. destruct (add _ _ _ _ _) as [[b|] fs1]; [|by eexists]. cbn in Hen. apply IH; [|lia].
  intros b' Hb. rewrite Hen in *. apply next_forward in Hb. unfold hdr_sz in Hb. lia.
Qed.

(** Whatever is in memory, the walk over the headers ends: mounting gives a
    file system, or panics when the first name byte has no room. *)
Theorem tmpfs_mount_ends start len :
  0 ≤ start → 0 ≤ len → start + len < 2 ^ 64 →
  if names_grow 0 then ∃ fs, mount names_grow files_grow mem start len = Done fs
  else mount names_grow files_grow mem start len = Fault Panicked.
Proof.
  intros Hst Hlen Hen. unfold mount. destruct (names_grow 0); [cbn [negb]|done]. apply index_loop_ends; [|lia].
  intros a Ha. destruct (start =? 0); [done|]. simplify_eq. cbn [en]. rewrite u64_small by lia. unfold hdr_sz.
  pose proof (Z.div_mod len 26 ltac:(lia)). pose proof (Z.mod_pos_bound len 26 ltac:(lia)). pose proof (Z.div_pos len 26 ltac:(lia) ltac:(lia)). lia.
Qed.
End ending.

(** C17: An archive of any files, packed the way cpio does (any owner, mode and
    time, any padding after the trailer), is served as it was packed: opening
    a path finds the first file of that name or says that there is none;
    reading gives the bytes of the file that are there, fstat its attributes,
    and reading the directory the names in order and then its end. *)
Theorem tmpfs_serves_archive names_grow files_grow mem es t start len :
  (∀ n, names_grow n = true ∧ files_grow n = true) → Forall (λ e, entry_ok e ∧ e_name e ≠ TRAILER) es → entry_ok t → e_name t = TRAILER →
  0 < start → start + len < 2 ^ 64 → Z.of_nat (length (archive es t)) ≤ len → in_mem mem start (archive es t) →
  ∃ fs, mount names_grow files_grow mem start len = Done fs
  ∧ (∀ path flags, Z.land flags (Z.lor O_CREAT O_TRUNC) = 0 →
       openat true fs path flags = Done match list_find (λ e, e_name e = path) es with
                                        | Some (i, _) => (0, Some (new_file i))
                                        | None => (- ENOENT, None)
                                        end)
  ∧ (∀ i e, es !! i = Some e →
       (∀ buf size offset, buffer_ok buf → 0 ≤ size < 2 ^ 63 → 0 ≤ offset →
          let got := take (Z.to_nat size) (drop (Z.to_nat offset) (e_data e)) in
          read mem fs (new_file i) buf size offset = Done (Z.of_nat (length got), got))
       ∧ (∃ s, fstat fs (new_file i) = Done (0, s) ∧ st_size s = Z.of_nat (length (e_data e)) ∧ st_ino s = ino (e_hdr e)
            ∧ st_mode s = mode (e_hdr e) ∧ st_nlink s = nlink (e_hdr e) ∧ st_mtime s = mtime (e_hdr e))
       ∧ (0 ∉ e_name e → (length (e_name e) ≤ NAME_MAX)%nat →
          readdir fs (new_file 0) (Z.of_nat i)
          = Done (1, Some (Dirent (Z.of_nat i + 1) (Z.of_nat i) dirent_sz 0 (e_name e ++ replicate (S NAME_MAX - length (e_name e)) 0)))))
  ∧ readdir fs (new_file 0) (Z.of_nat (length es)) = Done (0, None).
Proof.
  intros Hroom Hes Ht Hn Hst Hen Hlen H. eexists. split; [by apply (mount_archive _ _ _ es t)|].
  assert (Forall (λ e, entry_ok e) es) as Hok by (eapply Forall_impl; [exact Hes|]; by intros e []).
  assert (Z.of_nat (length es) < 2 ^ 64) as Hsmall by (pose proof (archive_fuel es t Hok); lia).
  assert (∀ s n a l, length (file_table s n a l) = length l) as Htab.
  { intros s n a l. revert n a. induction l as [|e l IH]; intros n a; simpl; [done|]. by rewrite IH. }
  split_and!.
  - intros path flags Hflags. unfold openat. rewrite Hflags. cbn [negb Z.eqb names files]. rewrite find_file_first by done.
    by destruct (list_find _ es) as [[i e]|].
  - intros i e Hi. destruct (file_table_lookup mem [0] es t start start i e Hok H Hi) as (f & rest & Hf & Hd & Hna & Hsz & Hm & Hi' & Hmo & Hnl).
    split_and!.
    + intros buf size offset Hbuf Hsize Hofs. apply (read_file _ _ _ _ _ _ f); try done.
      rewrite Hsz. apply (proj1 (Forall_lookup _ _) Hok) in Hi as [_ _ _ [Hfs _]]. rewrite <- Hfs. apply u32_range.
    + unfold fstat. cbn [files file_index new_file]. rewrite Hf. eexists. split; [done|]. cbn. done.
    + intros Hnul Hshort. apply lookup_lt_Some in Hi. unfold readdir. cbn [files names file_index new_file]. rewrite Htab.
      rewrite (proj2 (Z.leb_gt _ _)) by lia. rewrite u64_small by lia. replace (Z.to_nat (Z.of_nat 0 + Z.of_nat i)) with i by lia.
      rewrite Hf, Hna, strncpy_name by (done || lia). done.
  - unfold readdir. cbn [files]. rewrite Htab. by rewrite Z.leb_refl.
Qed.

(** ** Concrete archives *)

Definition list_mem (start : Z) (l : list Z) (a : Z) : Z := default 0 (l !! Z.to_nat (a - start)).

Lemma list_mem_in start l : in_mem (list_mem start l) start l.
Proof. intros i b Hi. unfold list_mem. replace (Z.to_nat (start + Z.of_nat i - start)) with i by lia. by rewrite Hi. Qed.

Definition small_hdr (name_len size : Z) : cpio_hdr_t := Hdr 0x71c7 0 7 0x81A4 0 0 1 0 (0x5F00, 0x1234) (name_len + 1) (0, size).
Definition small_entry (n d : list Z) : entry := Entry (small_hdr (Z.of_nat (length n)) (Z.of_nat (length d))) n d.
Definition trailer : entry := small_entry TRAILER [].
Definition two_files : list entry := [small_entry [97] [1; 2; 3]; small_entry [98; 99] [4; 5; 6; 7]].

Lemma tmpfs_serves_archive_witness :
  ∃ fs, mount (λ _, true) (λ _, true) (list_mem 4096 (archive two_files trailer)) 4096 512 = Done fs
  ∧ openat true fs [98; 99] 0 = Done (0, Some (new_file 1))
  ∧ read (list_mem 4096 (archive two_files trailer)) fs (new_file 1) (Buffer (λ _, false) (λ _, false) (λ _, false)) 100 1 = Done (3, [5; 6; 7]).
Proof.
  destruct (tmpfs_serves_archive (λ _, true) (λ _, true) (list_mem 4096 (archive two_files trailer)) two_files trailer 4096 512)
    as (fs & Hm & Ho & Hr & _).
  - done.
  - repeat constructor; simpl; (lia || done || (intros H; discriminate H)).
  - constructor; [repeat constructor; simpl; lia|done..].
  - done.
  - lia.
  - lia.
  - vm_compute. intros H. discriminate H.
  - apply list_mem_in.
  - exists fs. split; [done|]. split; [apply Ho; done|]. destruct (Hr 1%nat (small_entry [98; 99] [4; 5; 6; 7]) eq_refl) as [Hread _].
    apply Hread; [intros n; done|lia|lia].
Defined.

(** ** Where the code departs from what it means to do *)

(** The size in the last header is not compared with the end of the archive:
    the file is indexed, and reading it gives what is in memory behind. *)
Example reads_behind_the_archive :
  let l := encode (Entry (small_hdr 1 100) [97] []) in
  let mem := list_mem 4096 (l ++ replicate 100 55) in
  ∃ fs, mount (λ _, true) (λ _, true) mem 4096 (Z.of_nat (length l)) = Done fs ∧ en fs = 4096 + Z.of_nat (length l)
  ∧ read mem fs (new_file 0) (Buffer (λ _, false) (λ _, true) (λ _, true)) 10 0 = Done (10, replicate 10 55).
Proof. eexists. split; [vm_compute; done|]. split; vm_compute; done. Qed.

(** When the index cannot grow mounting succeeds with the files so far. *)
Example index_cut_short :
  ∃ fs, mount (λ n, (n <? 4)%nat) (λ _, true) (list_mem 4096 (archive two_files trailer)) 4096 512 = Done fs
  ∧ length (files fs) = 1%nat ∧ openat true fs [98; 99] 0 = Done (- ENOENT, None).
Proof. eexists. split; [vm_compute; done|]. split; vm_compute; done. Qed.

(** Any path opens as a directory; without memory the handle is null and the
    call succeeds, and opening a file follows the null pointer. *)
Example handle_not_tested :
  opendirat false = (0, None) ∧ openat false (TmpFs [0; 97; 0] [FileInfo 1 2 28 (hash_32 [97]) 3 0 7 0 1] 4096 4608) [97] 0 = Fault OutOfRange.
Proof. split; vm_compute; done. Qed.

(** A negative offset is not refused by readdir. *)
Example readdir_before_the_first : readdir (TmpFs [0] [] 4096 4608) (new_file 0) (-1) = Fault OutOfRange.
Proof. done. Qed.

(** The block size is the size of the archive and there are no blocks. *)
Example statfs_without_blocks : statfs (TmpFs [0] [] 4096 4608) = (0, StatVfs 512 0 0 256).
Proof. done. Qed.
