(* ===== verification/BootFat32.v ===== *)
(** * boot/fs/fat32.cc and boot/fs.cc: the boot loader reads files

    The reader keeps one sector of the allocation table and one of data, and a
    handful of open files, each with the list of its clusters once it has been
    read from.  A read is planned sector by sector ([disk_io_plan_t], which
    joins neighbours) and then carried out.  The disk, whether the heap has
    memory and what malloc's memory holds are parameters.  The counts of hits
    and misses of the table's buffer are left out.

    The theorems: a read gives the bytes of the clusters of the file, in the
    order of the chain, however the chain is scattered and the plan joined;
    and searching a directory is the search of its list of entries, where the
    directory is in one cluster or clusters are single sectors. *)

From stdpp Require Import base tactics list numbers option.
From S2P Require Import Prelude Regions Utf Fat32Name Fat32Mount.

#[local] Open Scope Z_scope.

(** ** Plans (boot/fs.cc) *)

Record disk_vec_t := DiskVec { v_lba : Z; v_count : Z; v_sector_ofs : Z; v_byte_count : Z }.

(** [p_count] and [p_capacity] have 16 bits; [p_vec] is what has been stored,
    in a block of [p_block] elements. *)
Record disk_io_plan_t := Plan { p_vec : list disk_vec_t; p_count : Z; p_capacity : Z; p_block : Z; p_log2 : Z }.

Definition plan_new (log2_sector_size : Z) : disk_io_plan_t := Plan [] 0 0 0 log2_sector_size.

Definition joins (plan : disk_io_plan_t) (prev : disk_vec_t) (lba sector_ofs byte_count : Z) : bool :=
  let sector_size := Z.shiftl 1 (p_log2 plan) in
  (u64 (v_lba prev + v_count prev) =? lba) && (v_sector_ofs prev =? 0) && (sector_ofs =? 0) && (v_byte_count prev =? sector_size)
  && (byte_count =? sector_size) && (v_count prev <? u32 (0xFFFFFFFF - p_count plan)).

(** [realloc_ok n]: whether the block can have [n] elements.  [None] is that
    it cannot. *)
Definition plan_room (realloc_ok : Z → bool) (plan : disk_io_plan_t) : option disk_io_plan_t :=
  if p_capacity plan <? p_count plan + 1 then
    let new_capacity := if 16 <=? p_capacity plan then p_capacity plan * 2 else 16 in
    if realloc_ok new_capacity then Some (Plan (p_vec plan) (p_count plan) (u16 new_capacity) new_capacity (p_log2 plan)) else None
  else Some plan.

(** Storing behind the block is a fault. *)
Definition plan_add (realloc_ok : Z → bool) (plan : disk_io_plan_t) (lba sector_count sector_ofs byte_count : Z) : outcome (bool * disk_io_plan_t) :=
  let store :=
    match plan_room realloc_ok plan with
    | None => Done (false, plan)
    | Some plan =>
        if p_count plan <? p_block plan then
          Done (true, Plan (p_vec plan ++ [DiskVec lba sector_count sector_ofs byte_count]) (u16 (p_count plan + 1)) (p_capacity plan) (p_block plan) (p_log2 plan))
        else Fault OutOfRange
    end in
  if 0 <? p_count plan then
    match p_vec plan !! Z.to_nat (p_count plan - 1) with
    | None => Fault OutOfRange
    | Some prev =>
        if joins plan prev lba sector_ofs byte_count then
          Done (true, Plan (<[Z.to_nat (p_count plan - 1) := DiskVec (v_lba prev) (u32 (v_count prev + sector_count)) (v_sector_ofs prev) (v_byte_count prev)]> (p_vec plan))
                        (p_count plan) (p_capacity plan) (p_block plan) (p_log2 plan))
        else store
    end
  else store.

(** ** The reader's state *)

Record fat32_sector_iterator_t := Iter {
  start_cluster : Z;
  cluster : Z;
  position : Z;
  sector_offset : Z;
  ok : bool;
  size_of_file : Z;
  clusters : option (list Z);
  cluster_count : Z
}.

Definition iter_reset : fat32_sector_iterator_t := Iter 0 0 0 0 false 0 None 0.

Record bootfat := BootFat {
  bpb : fat32_bpb_data_t;
  file_handles : list fat32_sector_iterator_t;
  fat32_serial : Z;
  sector_buffer : list Z;
  fat_buffer : list Z;
  fat_buffer_lba : Z;
  sector_sz : Z;
  log2_sector_sz : Z;
  log2_sec_per_cluster : Z
}.

Definition set_handles (l : list fat32_sector_iterator_t) (s : bootfat) : bootfat :=
  BootFat (bpb s) l (fat32_serial s) (sector_buffer s) (fat_buffer s) (fat_buffer_lba s) (sector_sz s) (log2_sector_sz s) (log2_sec_per_cluster s).
Definition set_sector (b : list Z) (s : bootfat) : bootfat :=
  BootFat (bpb s) (file_handles s) (fat32_serial s) b (fat_buffer s) (fat_buffer_lba s) (sector_sz s) (log2_sector_sz s) (log2_sec_per_cluster s).
Definition set_fat_buffer (b : list Z) (lba : Z) (s : bootfat) : bootfat :=
  BootFat (bpb s) (file_handles s) (fat32_serial s) (sector_buffer s) b lba (sector_sz s) (log2_sector_sz s) (log2_sec_per_cluster s).

Abbreviation BF := (M bootfat).

Definition MAX_HANDLES : nat := 5.

(** boot/log2.h; the count of leading zeros of 0 is undefined *)
Definition bit_log2_n (n : Z) : outcome Z :=
  if n =? 0 then Fault OutOfRange
  else let top := Z.log2 n in Done (top + if Z.land (Z.shiftl 1 top - 1) n =? 0 then 0 else 1).

Definition is_eof_cluster (c : Z) : bool := (c <? 2) || (0x0FFFFFF8 <=? c).

Definition lba_from_cluster (s : bootfat) (c : Z) : Z :=
  u32 (cluster_begin_lba (bpb s) + u32 (Z.shiftl c (log2_sec_per_cluster s))).

Definition with_ok (b : bool) (it : fat32_sector_iterator_t) : fat32_sector_iterator_t :=
  Iter (start_cluster it) (cluster it) (position it) (sector_offset it) b (size_of_file it) (clusters it) (cluster_count it).
Definition with_clusters (l : list Z) (n : Z) (it : fat32_sector_iterator_t) : fat32_sector_iterator_t :=
  Iter (start_cluster it) (cluster it) (position it) (sector_offset it) (ok it) (size_of_file it) (Some l) n.

Section ops.
(** The sectors from an address on, or that they cannot be read; whether the
    heap has that many bytes; and what a block of 32 bytes from it holds *)
Context (disk_read_lba : Z → Z → option (list Z)) (heap_grants : Z → bool) (raw : list Z).

(** ** The allocation table *)

Definition read_fat (lba : Z) : BF bool :=
  match disk_read_lba lba 1 with
  | Some b => modify (set_fat_buffer b (u32 lba));; mret true
  | None => s ← gets id; modify (set_fat_buffer (fat_buffer s) 0xFFFFFFFF);; mret false
  end.

(** [None] is the error; 0 is the end of the chain. *)
Definition next_cluster (current_cluster : Z) : BF (option Z) :=
  s ← gets id;
  let bits := log2_sector_sz s - 2 in
  let fat_sector_index := Z.shiftr current_cluster bits in
  let fat_sector_offset := Z.land current_cluster (Z.shiftl 1 bits - 1) in
  let lba := u64 (first_fat_lba (bpb s) + fat_sector_index) in
  good ← (if fat_buffer_lba s =? lba then mret true else read_fat lba);
  if negb good then mret None
  else
    s ← gets id;
    let next := Z.land (long_at (4 * Z.to_nat fat_sector_offset) (fat_buffer s)) 0x0FFFFFFF in
    mret (Some (if is_eof_cluster next then 0 else next)).

(** The clusters of a chain.  The source walks it twice, to count them and to
    store them; [fuel] bounds both walks, since a chain may be a ring. *)
Fixpoint walk_chain (fuel : nat) (walk : Z) : BF (list Z * bool) :=
  match fuel with
  | O => throw OutOfFuel
  | S fuel =>
      if is_eof_cluster walk then mret ([], true)
      else
        n ← next_cluster walk;
        match n with
        | None => mret ([walk], false)
        | Some n => '(rest, good) ← walk_chain fuel n; mret (walk :: rest, good)
        end
  end.

Definition read_sector (lba : Z) : BF bool :=
  match disk_read_lba lba 1 with
  | Some b => modify (set_sector b);; mret true
  | None => mret false
  end.

Definition fat32_sector_iterator_begin (fuel : nat) (it : fat32_sector_iterator_t) (c : Z) : BF (Z * fat32_sector_iterator_t) :=
  let it := Iter c c 0 0 true (size_of_file it) (clusters it) (cluster_count it) in
  '(counted, good) ← walk_chain fuel c;
  if negb good then mret (-1, with_ok false it)
  else if negb (heap_grants (4 * Z.of_nat (length counted))) then throw Panicked
  else
    '(stored, good) ← walk_chain fuel c;
    let it := with_clusters stored (Z.of_nat (length counted)) it in
    if negb good then mret (-1, with_ok false it)
    else if is_eof_cluster c then mret (0, it)
    else
      s ← gets id;
      good ← read_sector (u64 (s32 (lba_from_cluster s c)));
      if (good : bool) then mret (1, it) else mret (-1, with_ok false it).

(** [position] counts sectors, and the clusters are indexed with it. *)
Definition sector_iterator_next (it : fat32_sector_iterator_t) : BF (Z * fat32_sector_iterator_t) :=
  if is_eof_cluster (cluster it) then mret (0, it)
  else
    s ← gets id;
    let position := u32 (position it + 1) in
    let fetch it :=
      good ← read_sector (u32 (lba_from_cluster s (cluster it) + sector_offset it));
      mret (if good : bool then 1 else -1, with_ok good it) in
    if u16 (sector_offset it + 1) =? sec_per_cluster (bpb s) then
      let it := Iter (start_cluster it) (cluster it) position 0 (ok it) (size_of_file it) (clusters it) (cluster_count it) in
      if cluster_count it <=? position then mret (0, it)
      else match clusters it with
           | None => throw OutOfRange
           | Some l =>
               match l !! Z.to_nat position with
               | None => throw OutOfRange
               | Some c =>
                   let it := Iter (start_cluster it) c position 0 (ok it) (size_of_file it) (clusters it) (cluster_count it) in
                   if c =? 0 then mret (0, it) else if c =? 0xFFFFFFFF then mret (-1, it) else fetch it
               end
           end
    else fetch (Iter (start_cluster it) (cluster it) position (u16 (sector_offset it + 1)) (ok it) (size_of_file it) (clusters it) (cluster_count it)).

(** ** Names *)

Record filename_info_t := NameInfo { info_flags : Z; filename_length : Z; extension_length : Z }.

(** The characters, by their codes: the digits and those that short names may
    have, those only long names may have, and those no name may have *)
Definition ignored : list Z := [48;49;50;51;52;53;54;55;56;57;33;35;36;37;38;39;40;41;45;64;94;95;96;123;125;126].
Definition long_only : list Z := [32;43;44;46;59;61;91;93].
Definition invalid : list Z := [34;42;47;58;60;62;63;92;124;127].

Definition among (c : Z) (l : list Z) : bool := bool_decide (c ∈ l).
Definition is_upper (c : Z) : bool := (65 <=? c) && (c <=? 90).
Definition is_lower (c : Z) : bool := (97 <=? c) && (c <=? 122).

(** Counts of a part of a name: its length, and whether it has upper case,
    lower case, and needs a long name *)
Record part_info := PartInfo { part_len : Z; has_upper : bool; has_lower : bool; needs_long : bool }.

(** The loop over the name; what is left is behind the dot.  [None] is an
    invalid character: char is signed, so every byte from 128 on is one. *)
Fixpoint name_part (ni : nat) (i : part_info) (filename : list Z) : option (part_info * list Z) :=
  match filename with
  | [] => Some (i, [])
  | b :: rest =>
      let c := s8 b in
      if (c <? 32) || among c invalid then None
      else if c =? 46 then Some (i, rest)
      else
        let i := PartInfo (u8 (part_len i + 1)) (has_upper i) (has_lower i) (needs_long i) in
        if among c ignored then name_part (S ni) i rest
        else
          let long := needs_long i || bool_decide (ni = 8%nat) || among c long_only in
          name_part (S ni) (PartInfo (part_len i) (has_upper i || (negb (among c long_only) && is_upper c))
                              (has_lower i || (negb (among c long_only) && is_lower c)) long) rest
  end.

Fixpoint ext_part (ei : nat) (i : part_info) (filename : list Z) : option part_info :=
  match filename with
  | [] => Some i
  | b :: rest =>
      let c := s8 b in
      if (c <? 32) || among c invalid then None
      else
        let long := needs_long i || bool_decide (ei = 3%nat) in
        let i := PartInfo (u8 (part_len i + 1)) (has_upper i) (has_lower i) long in
        if among c ignored then ext_part (S ei) i rest
        else ext_part (S ei) (PartInfo (part_len i) (has_upper i || is_upper c) (has_lower i || is_lower c) (long || (c =? 46))) rest
  end.

Definition get_filename_info (filename : list Z) : filename_info_t :=
  match name_part 0 (PartInfo 0 false false false) filename with
  | None => NameInfo 0xFF 0 0
  | Some (f, rest) =>
      match ext_part 0 (PartInfo 0 false false (needs_long f)) rest with
      | None => NameInfo 0xFF (part_len f) 0
      | Some e =>
          let is_long := needs_long e || (8 <? part_len f) || (3 <? part_len e) in
          let flags :=
            if is_long || (has_lower f && has_upper f) || (has_lower e && has_upper e) then 0
            else (if has_upper f then 0 else 8) + (if has_upper e then 0 else 16) in
          NameInfo flags (part_len f) (part_len e)
      end
  end.

Definition shortname_char (codeunit : Z) : Z :=
  if is_upper codeunit || ((48 <=? codeunit) && (codeunit <=? 57)) then codeunit
  else if is_lower codeunit then codeunit - 32
  else 95.

(** The parts before the first dot and behind it *)
Fixpoint cut_dot (filename : list Z) : list Z * list Z :=
  match filename with
  | [] => ([], [])
  | c :: rest => if c =? 46 then ([], rest) else let '(a, b) := cut_dot rest in (c :: a, b)
  end.

Definition padded (n : nat) (l : list Z) : list Z :=
  let l := shortname_char ∘ s8 <$> take n l in l ++ replicate (n - length l) 32.

(** Only the name is stored, the rest of the block is as malloc left it. *)
Definition fill_short_filename (match_ : fat32_dir_union_t) (filename : list Z) : fat32_dir_union_t :=
  let '(n, e) := cut_dot filename in padded 8 n ++ padded 3 e ++ drop 11 match_.

(** The units stored, and what is left of the name *)
Fixpoint encode_lfn_name_fragment (fragment_size : nat) (encoded_src : list Z) (done_name : bool) : outcome (list Z * list Z * bool) :=
  match fragment_size with
  | O => Done ([], encoded_src, done_name)
  | S n =>
      if done_name then let* (l, r, d) := encode_lfn_name_fragment n encoded_src true in Done (0xFFFF :: l, r, d)
      else match encoded_src with
           | [] => Fault OutOfRange
           | c :: src =>
               if c =? 0 then let* (l, r, d) := encode_lfn_name_fragment n encoded_src true in Done (0 :: l, r, d)
               else let* (l, r, d) := encode_lfn_name_fragment n src false in Done (c :: l, r, d)
           end
  end.

(** A piece with that ordinal and those units *)
Definition lfn_piece (ordinal : Z) (units : list Z) : fat32_dir_union_t :=
  foldr (λ i e, put_word (unit_pos i) (default 0 (units !! i)) e) (<[0x0B%nat := FAT_LONGNAME]> (ordinal :: replicate 31 0)) (seq 0 13).

(** The pieces from [k + 1] on, the last one first *)
Fixpoint lfn_pieces (n : nat) (k : nat) (encoded_src : list Z) (done_name : bool) : outcome (list fat32_dir_union_t) :=
  match n with
  | O => Done []
  | S n =>
      let* (units, src, d) := encode_lfn_name_fragment 13 encoded_src done_name in
      let* rest := lfn_pieces n (S k) src d in
      Done (rest ++ [lfn_piece ((if decide (n = 0%nat) then 0x40 else 0) + Z.of_nat (S k)) units])
  end.

(** strncmp of char16_t *)
Fixpoint strncmp16 (count : nat) (lhs rhs : list Z) : bool :=
  match count, lhs, rhs with
  | S n, l :: lhs, r :: rhs => if l =? r then if l =? 0 then true else strncmp16 n lhs rhs else false
  | _, _, _ => true
  end.

Definition dir_entry_match (entry match_ : fat32_dir_union_t) : bool :=
  let long_entry := attr entry =? FAT_LONGNAME in
  if negb (Bool.eqb long_entry (attr match_ =? FAT_LONGNAME)) then false
  else if long_entry then (ordinal entry =? ordinal match_) && strncmp16 13 (units_of entry) (units_of match_)
  else bool_decide (short_name entry = short_name match_).

(** ** Directories *)

(** A directory iterator is the iterator of its file and an index into the
    sector. *)
Record dir_iterator_t := DirIter { dir_file : fat32_sector_iterator_t; sector_index : Z }.

Definition read_directory_begin (fuel : nat) (c : Z) : BF (Z * dir_iterator_t) :=
  '(status, it) ← fat32_sector_iterator_begin fuel iter_reset c;
  mret (status, DirIter it 0).

(** [None] is the null pointer. *)
Definition read_directory_current (s : bootfat) (d : dir_iterator_t) : option fat32_dir_union_t :=
  if ok (dir_file d) then Some (take 32 (drop (Z.to_nat (32 * sector_index d)) (sector_buffer s))) else None.

Definition read_directory_move_next (d : dir_iterator_t) : BF (Z * dir_iterator_t) :=
  s ← gets id;
  if bytes_per_sec (bpb s) / 32 <=? sector_index d + 1 then
    '(status, it) ← sector_iterator_next (dir_file d); mret (status, DirIter it 0)
  else mret (1, DirIter (dir_file d) (sector_index d + 1)).

(** What find_file_by_name looks for: the entries, and how many of them are
    pieces of a long name.  [None] is that it gives up. *)
Definition name_pattern (filename : list Z) : outcome (option (list fat32_dir_union_t * nat)) :=
  let info := get_filename_info filename in
  if info_flags info =? 0xFF then Done None
  else if info_flags info =? 0 then
    let* (produced, _, encoded_name) := tchar_to_utf16 (replicate 255 0) (filename ++ [0]) in
    if decide (produced = 0%nat) then Done None
    else
      let lfn_entries := ((produced + 12) / 13)%nat in
      if negb (heap_grants (32 * Z.of_nat lfn_entries)) then Fault OutOfRange
      else let* pieces := lfn_pieces lfn_entries 0 encoded_name false in Done (Some (pieces, lfn_entries))
  else if negb (heap_grants 32) then Done None
  else Done (Some ([fill_short_filename raw filename], 0%nat)).

Definition get_start (e : fat32_dir_union_t) : Z := u32 (Z.lor (Z.shiftl (start_hi e) 16) (start_lo e)).

(** One turn of the search: what it found, or how far it has matched and the
    checksum of the last piece *)
Definition match_step (pattern : list fat32_dir_union_t) (lfn_entries : nat) (match_index : nat) (sum : Z) (entry : fat32_dir_union_t) :
    outcome ((Z * Z) + (nat * Z)) :=
  let sum := if attr entry =? FAT_LONGNAME then checksum entry else sum in
  let found := inl (get_start entry, file_size entry) in
  if bool_decide (lfn_entries = 0%nat ∨ (match_index < lfn_entries)%nat) then
    match pattern !! match_index with
    | None => Fault OutOfRange
    | Some m =>
        if dir_entry_match m entry then
          if decide (lfn_entries = 0%nat) then Done found else Done (inr (S match_index, sum))
        else Done (inr (0%nat, sum))
    end
  else if lfn_checksum (short_name entry) =? sum then Done found else Done (inr (0%nat, sum)).

Fixpoint find_loop (fuel : nat) (pattern : list fat32_dir_union_t) (lfn_entries : nat) (match_index : nat) (sum : Z) (status : Z)
    (d : dir_iterator_t) : BF (Z * Z) :=
  match fuel with
  | O => throw OutOfFuel
  | S fuel =>
      if status <=? 0 then mret (0, 0)
      else
        s ← gets id;
        match read_directory_current s d with
        | None => throw OutOfRange
        | Some entry =>
            match match_step pattern lfn_entries match_index sum entry with
            | Fault f => throw f
            | Done (inl found) => mret found
            | Done (inr (match_index, sum)) =>
                '(status, d) ← read_directory_move_next d;
                find_loop fuel pattern lfn_entries match_index sum status d
            end
        end
  end.

(** The first cluster and the size; cluster 0 is that there is none. *)
Definition find_file_by_name (fuel : nat) (filename : list Z) (dir_cluster : Z) : BF (Z * Z) :=
  match name_pattern filename with
  | Fault f => throw f
  | Done None => mret (0, 0)
  | Done (Some (pattern, lfn_entries)) =>
      '(status, d) ← read_directory_begin fuel dir_cluster;
      find_loop fuel pattern lfn_entries 0 0 status d
  end.

(** The part before the first slash, and what is behind it if there is one *)
Fixpoint cut_slash (pathname : list Z) : list Z * option (list Z) :=
  match pathname with
  | [] => ([], None)
  | c :: rest => if c =? 47 then ([], Some rest) else let '(a, b) := cut_slash rest in (c :: a, b)
  end.

(** [parts] bounds the number of turns; each takes a character at least. *)
Fixpoint find_path_loop (parts fuel : nat) (pathname : list Z) (dir_cluster : Z) : BF (Z * Z) :=
  match parts with
  | O => throw OutOfFuel
  | S parts =>
      match pathname with
      | [] => mret (0, 0)
      | _ =>
          let '(name, rest) := cut_slash pathname in
          if decide (256 ≤ length name)%nat then throw Panicked
          else
            '(c, size) ← find_file_by_name fuel name dir_cluster;
            if c =? 0 then mret (0, 0)
            else match rest with
                 | None => mret (c, size)
                 | Some rest => find_path_loop parts fuel rest c
                 end
      end
  end.
Definition find_file_by_pathname (fuel : nat) (pathname : list Z) (dir_cluster : Z) : BF (Z * Z) :=
  find_path_loop (S (length pathname)) fuel pathname dir_cluster.

(** ** The calls *)

Definition fat32_find_available_file_handle (s : bootfat) : option nat :=
  fst <$> list_find (λ it, start_cluster it = 0) (file_handles s).

Definition fat32_boot_open (fuel : nat) (filename : list Z) : BF Z :=
  root ← gets (λ s, root_dir_start (bpb s));
  '(c, size) ← find_file_by_pathname fuel filename root;
  if c =? 0 then mret (-1)
  else
    s ← gets id;
    match fat32_find_available_file_handle s with
    | None => mret (-1)
    | Some file =>
        modify (set_handles (<[file := Iter 0 c 0 0 false size None 0]> (file_handles s)));;
        mret (Z.of_nat file)
    end.

Definition check_fd (file : Z) : bool := (0 <=? file) && (file <? Z.of_nat MAX_HANDLES).

Definition fat32_boot_filesize (file : Z) : BF Z :=
  if negb (check_fd file) then mret (-1)
  else
    s ← gets id;
    match file_handles s !! Z.to_nat file with None => throw OutOfRange | Some it => mret (size_of_file it) end.

Definition fat32_boot_close (file : Z) : BF Z :=
  if negb (check_fd file) then mret (-1)
  else
    s ← gets id;
    match file_handles s !! Z.to_nat file with
    | None => throw OutOfRange
    | Some it => modify (set_handles (<[Z.to_nat file := iter_reset]> (file_handles s)));; mret (if ok it then 0 else 1)
    end.

(** The loop that plans: [turns] is the number of bytes, each turn takes one
    at least. *)
Fixpoint plan_loop (turns : nat) (s : bootfat) (l : list Z) (plan : disk_io_plan_t) (bytes ofs : Z) : outcome (bool * disk_io_plan_t) :=
  if bytes =? 0 then Done (true, plan)
  else
    match turns with
    | O => Fault OutOfFuel
    | S turns =>
        let sector_offset := u32 (Z.shiftr ofs (log2_sector_sz s)) in
        let byte_offset := u16 (Z.land ofs (sector_sz s - 1)) in
        let sector_read := u16 (sector_sz s - byte_offset) in
        let sector_read := if bytes <? sector_read then u16 bytes else sector_read in
        let cluster_ofs := Z.shiftr sector_offset (log2_sec_per_cluster s) in
        let cluster_idx := Z.land sector_offset (sec_per_cluster (bpb s) - 1) in
        match l !! Z.to_nat cluster_ofs with
        | None => Fault OutOfRange
        | Some c =>
            let* (good, plan) := plan_add (λ n, heap_grants (16 * n)) plan (u32 (lba_from_cluster s c + cluster_idx)) 1 byte_offset sector_read in
            if (good : bool) then plan_loop turns s l plan (bytes - sector_read) (ofs + sector_read) else Done (false, plan)
        end
    end.

(** The loop that carries it out: the bytes stored and the total, or that a
    read failed *)
Fixpoint run_plan (l : list disk_vec_t) (total_read : Z) : BF (option Z * list Z) :=
  match l with
  | [] => mret (Some total_read, [])
  | item :: l =>
      s ← gets id;
      if (v_sector_ofs item =? 0) && (v_byte_count item =? sector_sz s) then
        match disk_read_lba (v_lba item) (v_count item) with
        | None => mret (None, [])
        | Some b =>
            '(r, rest) ← run_plan l (s32 (total_read + u32 (v_byte_count item * v_count item)));
            mret (r, b ++ rest)
        end
      else
        good ← read_sector (v_lba item);
        if negb good then mret (None, [])
        else
          s ← gets id;
          let b := take (Z.to_nat (v_byte_count item)) (drop (Z.to_nat (v_sector_ofs item)) (sector_buffer s)) in
          '(r, rest) ← run_plan l (s32 (total_read + u32 (v_byte_count item * v_count item)));
          mret (r, b ++ rest)
  end.

(** The result, and the bytes stored from the start of the buffer on.  The
    failures after the plan is begun return [false], which is 0. *)
Definition fat32_boot_pread (fuel : nat) (file bytes ofs : Z) : BF (Z * list Z) :=
  if negb (check_fd file) then mret (-1, [])
  else
    s ← gets id;
    match file_handles s !! Z.to_nat file with
    | None => throw OutOfRange
    | Some desc =>
        status ← match clusters desc with
                 | Some _ => mret 1
                 | None =>
                     '(status, it) ← fat32_sector_iterator_begin fuel desc (cluster desc);
                     s ← gets id;
                     modify (set_handles (<[Z.to_nat file := it]> (file_handles s)));;
                     mret status
                 end;
        if status <? 0 then mret (-1, [])
        else
          s ← gets id;
          match file_handles s !! Z.to_nat file ≫= clusters with
          | None => throw OutOfRange
          | Some l =>
              match plan_loop (Z.to_nat bytes) s l (plan_new (log2_sector_sz s)) bytes ofs with
              | Fault f => throw f
              | Done (false, _) => mret (0, [])
              | Done (true, plan) =>
                  '(r, got) ← run_plan (p_vec plan) 0;
                  mret (default 0 r, got)
              end
          end
    end.

(** ** Taking a partition *)

Definition read_bpb (sector_size partition_lba : Z) : BF bool := λ s,
  let* log2_sector := bit_log2_n sector_size in
  let s := BootFat (bpb s) (file_handles s) (fat32_serial s) (sector_buffer s) (fat_buffer s) (fat_buffer_lba s) sector_size log2_sector (log2_sec_per_cluster s) in
  if negb (heap_grants sector_size) then Done (false, s)
  else match disk_read_lba partition_lba 1 with
       | None => Done (false, s)
       | Some b =>
           let bpb := fat32_parse_bpb partition_lba b in
           let* log2_cluster := bit_log2_n (sec_per_cluster bpb) in
           Done (true, BootFat bpb (file_handles s) (fat32_serial s) b (fat_buffer s) (fat_buffer_lba s) sector_size log2_sector log2_cluster)
       end.

(** Whether the calls are installed.  [handles_ok] says whether calloc has
    room for the handles, which is not tested. *)
Definition fat32_use_fs (handles_ok : bool) (sector_size partition_lba : Z) : BF bool :=
  modify (set_handles (if handles_ok then replicate MAX_HANDLES iter_reset else []));;
  good ← read_bpb sector_size partition_lba;
  if negb good then mret false
  else
    modify (λ s, BootFat (bpb s) (file_handles s) (serial (bpb s)) (sector_buffer s) (fat_buffer s) (fat_buffer_lba s) (sector_sz s)
                   (log2_sector_sz s) (log2_sec_per_cluster s));;
    mret true.
End ops.

(** * Reading files *)

Section reading.
(** A disk of sectors of [2 ^ a] bytes that can be read, a heap with room, and
    clusters of [2 ^ k] sectors *)
Context (disk : Z → Z) (disk_read_lba : Z → Z → option (list Z)) (heap_grants : Z → bool) (a k : Z).
Hypothesis Ha : 5 ≤ a ≤ 15.
Hypothesis Hk : 0 ≤ k ≤ 7.
Hypothesis Hdisk : ∀ lba n, 0 ≤ lba → 0 ≤ n → disk_read_lba lba n = Some (bytes_at disk (lba * 2 ^ a) (Z.to_nat (n * 2 ^ a))).
Hypothesis Hheap : ∀ n, heap_grants n = true.

Definition sector_at (lba : Z) : list Z := bytes_at disk (lba * 2 ^ a) (Z.to_nat (2 ^ a)).

Lemma read_one lba : 0 ≤ lba → disk_read_lba lba 1 = Some (sector_at lba).
Proof. intros Hl. rewrite Hdisk by lia. by rewrite Z.mul_1_l. Qed.

(** The volume is one of that geometry, below 2^31 sectors, and the buffer of
    the table holds what the disk has. *)
Record vol_ok (s : bootfat) : Prop := {
  vo_sector : log2_sector_sz s = a ∧ sector_sz s = 2 ^ a;
  vo_cluster : log2_sec_per_cluster s = k ∧ sec_per_cluster (bpb s) = 2 ^ k;
  vo_table : 0 < first_fat_lba (bpb s) < 2 ^ 31;
  vo_begin : 0 ≤ cluster_begin_lba (bpb s) < 2 ^ 31;
  vo_buffer : first_fat_lba (bpb s) ≤ fat_buffer_lba s → fat_buffer_lba s < 2 ^ 32 - 1 → fat_buffer s = sector_at (fat_buffer_lba s)
}.

(** What a walk along a chain does not change *)
Definition same_vol (s s' : bootfat) : Prop :=
  bpb s' = bpb s ∧ file_handles s' = file_handles s ∧ sector_sz s' = sector_sz s ∧ log2_sector_sz s' = log2_sector_sz s
  ∧ log2_sec_per_cluster s' = log2_sec_per_cluster s ∧ fat32_serial s' = fat32_serial s.

Lemma same_vol_refl s : same_vol s s.
Proof. done. Qed.
Lemma same_vol_trans s1 s2 s3 : same_vol s1 s2 → same_vol s2 s3 → same_vol s1 s3.
Proof. unfold same_vol. intuition congruence. Qed.

(** The place of a cluster, in sectors *)
Definition cluster_lba (s : bootfat) (c : Z) : Z := cluster_begin_lba (bpb s) + c * 2 ^ k.

(** The link of a cluster in the table on the disk: the next cluster, or 0 *)
Definition link (s : bootfat) (c : Z) : Z :=
  let n := Z.land (long_at 0 (bytes_at disk (first_fat_lba (bpb s) * 2 ^ a + 4 * c) 4)) 0x0FFFFFFF in
  if is_eof_cluster n then 0 else n.

(** [l] is the chain that starts at [c], inside the volume. *)
Fixpoint chain (s : bootfat) (c : Z) (l : list Z) : Prop :=
  match l with
  | [] => is_eof_cluster c = true
  | x :: l => x = c ∧ 2 ≤ c < 0x0FFFFFF8 ∧ cluster_lba s c + 2 ^ k ≤ 2 ^ 31 ∧ chain s (link s c) l
  end.

Lemma link_same s s' c : same_vol s s' → link s' c = link s c.
Proof. intros (Hb & _). unfold link. by rewrite Hb. Qed.
Lemma chain_same s s' c l : same_vol s s' → chain s c l → chain s' c l.
Proof.
  intros Hs. pose proof Hs as (Hb & _). revert c. induction l as [|x l IH]; intros c; simpl; [done|]. unfold cluster_lba. rewrite Hb.
  intros (? & ? & ? & Hl). rewrite (link_same _ _ _ Hs). auto.
Qed.

Lemma long_at_sector lba j :
  0 ≤ j → 4 * j + 4 ≤ 2 ^ a →
  long_at (4 * Z.to_nat j) (sector_at lba) = long_at 0 (bytes_at disk (lba * 2 ^ a + 4 * j) 4).
Proof.
  intros Hj Hr. assert (∀ i, (i < 4)%nat → byte_at (4 * Z.to_nat j + i) (sector_at lba) = byte_at i (bytes_at disk (lba * 2 ^ a + 4 * j) 4)) as Hb.
  { intros i Hi. unfold byte_at, sector_at. rewrite !lookup_bytes_at by lia. simpl. f_equal. lia. }
  unfold long_at, word_at. pose proof (Hb 0%nat). pose proof (Hb 1%nat). pose proof (Hb 2%nat). pose proof (Hb 3%nat).
  rewrite Nat.add_0_r, Nat.add_1_r in *. replace (S (S (4 * Z.to_nat j))) with (4 * Z.to_nat j + 2)%nat by lia.
  replace (S (4 * Z.to_nat j + 2)) with (4 * Z.to_nat j + 3)%nat by lia. rewrite H, H0, H1, H2 by lia. done.
Qed.

Lemma table_place c : 0 ≤ c → c / 2 ^ (a - 2) * 2 ^ a + 4 * (c mod 2 ^ (a - 2)) = 4 * c ∧ 0 ≤ c mod 2 ^ (a - 2) ∧ 4 * (c mod 2 ^ (a - 2)) + 4 ≤ 2 ^ a.
Proof.
  intros Hc. assert (2 ^ a = 4 * 2 ^ (a - 2)) as Hp by (replace a with (2 + (a - 2)) at 1 by lia; rewrite Z.pow_add_r by lia; done).
  assert (0 < 2 ^ (a - 2)) by (apply Z.pow_pos_nonneg; lia).
  pose proof (Z.div_mod c (2 ^ (a - 2)) ltac:(lia)). pose proof (Z.mod_pos_bound c (2 ^ (a - 2)) ltac:(lia)). nia.
Qed.

Lemma next_cluster_run s c :
  vol_ok s → 0 ≤ c < 2 ^ 28 → ∃ s', next_cluster disk_read_lba c s = Done (Some (link s c), s') ∧ same_vol s s' ∧ vol_ok s'.
Proof.
  intros Hv Hc. pose proof Hv as [[Hl Hz] Hcl Ht Hb Hbuf]. destruct (table_place c) as (Hpl & Hm & Hr); [lia|].
  assert (0 ≤ c / 2 ^ (a - 2) ≤ c) as Hidx.
  { split; [apply Z.div_pos; [lia|apply Z.pow_pos_nonneg; lia]|]. apply Z.div_le_upper_bound; [apply Z.pow_pos_nonneg; lia|].
    pose proof (Z.pow_pos_nonneg 2 (a - 2)). nia. }
  set (lba := first_fat_lba (bpb s) + c / 2 ^ (a - 2)). assert (long_at (4 * Z.to_nat (c mod 2 ^ (a - 2))) (sector_at lba)
    = long_at 0 (bytes_at disk (first_fat_lba (bpb s) * 2 ^ a + 4 * c) 4)) as Hent.
  { rewrite long_at_sector by done. do 2 f_equal. unfold lba. lia. }
  unfold next_cluster. run. unfold id. rewrite Hl, Z.shiftr_div_pow2, Z.shiftl_mul_pow2, Z.mul_1_l, land_low_mask, u64_small by lia. fold lba.
  destruct (Z.eqb_spec (fat_buffer_lba s) lba) as [Hhit|Hmiss].
  - run. exists s. split; [|done]. cbn [negb]. run. rewrite Hbuf, Hhit by lia. unfold id. by rewrite Hent.
  - exists (set_fat_buffer (sector_at lba) lba s). unfold read_fat. rewrite read_one, u32_small by lia.
    split; [|split; [done|by split]].
    rewrite bind_assoc. run. cbn [negb]. run. unfold id. cbn [fat_buffer set_fat_buffer]. by rewrite Hent.
Qed.

Lemma walk_chain_run s c l fuel :
  vol_ok s → chain s c l → (length l < fuel)%nat →
  ∃ s', walk_chain disk_read_lba fuel c s = Done ((l, true), s') ∧ same_vol s s' ∧ vol_ok s'.
Proof.
  revert s c fuel. induction l as [|x l IH]; intros s c fuel Hv Hch Hf; (destruct fuel as [|fuel]; [simpl in Hf; lia|]); cbn [walk_chain].
  - simpl in Hch. rewrite Hch. by exists s.
  - destruct Hch as (-> & Hc & Hin & Hch). replace (is_eof_cluster c) with false by (unfold is_eof_cluster; lia).
    destruct (next_cluster_run s c Hv ltac:(lia)) as (s1 & Hn & Hs1 & Hv1). rewrite (bind_done _ _ _ _ _ Hn).
    destruct (IH s1 (link s c) fuel Hv1 (chain_same _ _ _ _ Hs1 Hch) ltac:(simpl in Hf; lia)) as (s2 & Hw & Hs2 & Hv2).
    rewrite (bind_done _ _ _ _ _ Hw). exists s2. split; [done|]. split; [by eapply same_vol_trans|done].
Qed.

Lemma lba_of_cluster s c l i :
  vol_ok s → chain s c l → ∀ x, l !! i = Some x → lba_from_cluster s x = cluster_lba s x ∧ 0 ≤ cluster_lba s x ∧ cluster_lba s x + 2 ^ k ≤ 2 ^ 31.
Proof.
  intros Hv. revert c i. induction l as [|y l IH]; intros c i Hch x Hi; [done|]. destruct Hch as (-> & Hc & Hin & Hch).
  destruct i as [|i]; simplify_eq/=; [|by eapply IH].
  pose proof Hv as [_ [Hl _] _ Hb _]. assert (0 < 2 ^ k) by (apply Z.pow_pos_nonneg; lia).
  unfold lba_from_cluster, cluster_lba in *. rewrite Hl, Z.shiftl_mul_pow2 by lia. rewrite (u32_small (x * 2 ^ k)) by nia.
  rewrite u32_small by nia. split; [done|nia].
Qed.

Lemma set_sector_same s b : same_vol s (set_sector b s).
Proof. done. Qed.
Lemma set_sector_ok s b : vol_ok s → vol_ok (set_sector b s).
Proof. by intros [? ? ? ? ?]. Qed.

Lemma begin_run s it c l fuel :
  vol_ok s → chain s c l → (length l < fuel)%nat →
  ∃ s' st it', fat32_sector_iterator_begin disk_read_lba heap_grants fuel it c s = Done ((st, it'), s') ∧ same_vol s s' ∧ vol_ok s'
    ∧ clusters it' = Some l ∧ cluster_count it' = Z.of_nat (length l) ∧ cluster it' = c ∧ position it' = 0 ∧ sector_offset it' = 0 ∧ ok it' = true
    ∧ size_of_file it' = size_of_file it ∧ (st = if is_eof_cluster c then 0 else 1)
    ∧ (is_eof_cluster c = false → sector_buffer s' = sector_at (cluster_lba s c)).
Proof.
  intros Hv Hch Hf. destruct (walk_chain_run s c l fuel Hv Hch Hf) as (s1 & Hw1 & Hs1 & Hv1).
  destruct (walk_chain_run s1 c l fuel Hv1 (chain_same _ _ _ _ Hs1 Hch) Hf) as (s2 & Hw2 & Hs2 & Hv2).
  pose proof (same_vol_trans _ _ _ Hs1 Hs2) as Hs. unfold fat32_sector_iterator_begin. rewrite (bind_done _ _ _ _ _ Hw1). cbn [negb].
  rewrite Hheap. cbn [negb]. rewrite (bind_done _ _ _ _ _ Hw2). cbn [negb]. destruct (is_eof_cluster c) eqn:Heof.
  - eexists s2, _, _. split; [done|]. split_and!; try done.
  - destruct l as [|x l]; [simpl in Hch; congruence|]. pose proof Hch as (-> & _).
    destruct (lba_of_cluster s2 c (c :: l) 0 Hv2 (chain_same _ _ _ _ Hs Hch) c eq_refl) as (Hlba & H0 & H31).
    assert (0 < 2 ^ k) by (apply Z.pow_pos_nonneg; lia).
    assert (cluster_lba s2 c = cluster_lba s c) as Hsame by (destruct Hs as (Hb & _); unfold cluster_lba; by rewrite Hb).
    run. unfold id. rewrite Hlba, s32_small, u64_small by lia. unfold read_sector. rewrite read_one by lia. rewrite bind_assoc. run.
    eexists (set_sector _ s2), _, _. split; [done|]. split; [exact Hs|]. split; [by apply set_sector_ok|]. split_and!; try done. intros _. cbn. by rewrite Hsame.
Qed.

(** The bytes of a file: those of its clusters, in order *)
Definition file_bytes (s : bootfat) (l : list Z) : list Z := l ≫= λ c, bytes_at disk (cluster_lba s c * 2 ^ a) (Z.to_nat (2 ^ (a + k))).

Lemma length_file_bytes s l : length (file_bytes s l) = (length l * Z.to_nat (2 ^ (a + k)))%nat.
Proof. induction l as [|c l IH]; [done|]. unfold file_bytes. rewrite bind_cons, length_app, length_bytes_at. fold (file_bytes s l). rewrite IH. simpl. lia. Qed.

(** A stretch of a file that is inside one of its clusters *)
Lemma file_bytes_part s l q c r n :
  l !! q = Some c → (r + n ≤ Z.to_nat (2 ^ (a + k)))%nat →
  take n (drop (q * Z.to_nat (2 ^ (a + k)) + r) (file_bytes s l)) = bytes_at disk (cluster_lba s c * 2 ^ a + Z.of_nat r) n.
Proof.
  revert q. induction l as [|x l IH]; intros q Hq Hr; [done|]. unfold file_bytes. rewrite bind_cons. fold (file_bytes s l).
  destruct q as [|q]; simplify_eq/=.
  - rewrite drop_app_le, take_app_le by (rewrite ?length_drop, length_bytes_at; lia). by apply sub_bytes_at.
  - rewrite drop_app_ge by (rewrite length_bytes_at; lia). rewrite length_bytes_at, <- (IH q) by done. do 2 f_equal. lia.
Qed.

(** ** Plans *)

Definition full (v : disk_vec_t) : bool := (v_sector_ofs v =? 0) && (v_byte_count v =? 2 ^ a).

Record vec_ok (v : disk_vec_t) : Prop := {
  ve_lba : 0 ≤ v_lba v < 2 ^ 32;
  ve_count : 1 ≤ v_count v < 2 ^ 32 ∧ (full v = false → v_count v = 1);
  ve_part : 0 ≤ v_sector_ofs v ∧ 0 < v_byte_count v ∧ v_sector_ofs v + v_byte_count v ≤ 2 ^ a
}.

(** The bytes an element transfers *)
Definition vec_bytes (v : disk_vec_t) : list Z :=
  if full v then bytes_at disk (v_lba v * 2 ^ a) (Z.to_nat (v_count v * 2 ^ a))
  else bytes_at disk (v_lba v * 2 ^ a + v_sector_ofs v) (Z.to_nat (v_byte_count v)).

Record plan_ok (p : disk_io_plan_t) : Prop := {
  po_vec : Forall vec_ok (p_vec p);
  po_count : p_count p = Z.of_nat (length (p_vec p));
  po_block : p_block p = p_capacity p ∧ Z.of_nat (length (p_vec p)) ≤ p_capacity p;
  po_capacity : p_capacity p = 0 ∨ ∃ j, 4 ≤ j ≤ 15 ∧ p_capacity p = 2 ^ j;
  po_log2 : p_log2 p = a
}.

Lemma plan_new_ok : plan_ok (plan_new a).
Proof. split; cbn; [by constructor|done|lia|by left|done]. Qed.

Lemma length_vec_bytes v : vec_ok v → Z.of_nat (length (vec_bytes v)) = v_byte_count v * v_count v.
Proof.
  intros [_ [Hc Hone] [? [? ?]]]. unfold vec_bytes, full in *. destruct (Z.eqb_spec (v_sector_ofs v) 0), (Z.eqb_spec (v_byte_count v) (2 ^ a)); simpl in *;
    rewrite length_bytes_at; rewrite ?Hone by done; try nia.
Qed.

Lemma pow_a : 32 ≤ 2 ^ a ≤ 2 ^ 15.
Proof. split; [change 32 with (2 ^ 5)|]; apply Z.pow_le_mono_r; lia. Qed.

Lemma append_run p lba sofs bc :
  plan_ok p → vec_ok (DiskVec lba 1 sofs bc) → Z.of_nat (length (p_vec p)) < 32768 →
  ∃ p', plan_room (λ n, heap_grants (16 * n)) p = Some p'
    ∧ plan_ok (Plan (p_vec p' ++ [DiskVec lba 1 sofs bc]) (u16 (p_count p' + 1)) (p_capacity p') (p_block p') (p_log2 p'))
    ∧ p_vec p' = p_vec p ∧ p_count p' < p_block p'.
Proof.
  intros [Hvec Hcount [Hblock Hlen] Hcap Hlog] Hv Hn. assert (∀ m, 0 ≤ m < 2 ^ 16 → u16 m = m) as Hu by apply u16_small.
  assert (∀ cap, Z.of_nat (length (p_vec p)) < cap → (∃ j, 4 ≤ j ≤ 15 ∧ cap = 2 ^ j) →
    plan_ok (Plan (p_vec p ++ [DiskVec lba 1 sofs bc]) (u16 (p_count p + 1)) cap cap (p_log2 p))) as Hnew.
  { intros cap Hlt Hj. split; cbn; [apply Forall_app_2; [done|by apply Forall_singleton]|rewrite Hu by lia; rewrite length_snoc; lia|
      rewrite length_snoc; lia|by right|done]. }
  unfold plan_room. destruct (Z.ltb_spec (p_capacity p) (p_count p + 1)) as [Hfull|Hroom].
  - cbv zeta. rewrite Hheap. eexists. split; [done|]. cbn [p_vec p_count p_capacity p_block p_log2].
    destruct Hcap as [H0|(j & Hj & Hc)].
    + rewrite H0. replace (if 16 <=? 0 then 0 * 2 else 16) with 16 by done. rewrite (Hu 16) by lia. split; [apply Hnew; [lia|by exists 4]|split; [done|lia]].
    + assert (16 ≤ 2 ^ j) by (change 16 with (2 ^ 4); apply Z.pow_le_mono_r; lia). rewrite Hc, (proj2 (Z.leb_le _ _)) by lia.
      assert (j < 15) by (destruct (decide (j = 15)) as [->|]; [|lia]; change (2 ^ 15) with 32768 in *; lia).
      replace (2 ^ j * 2) with (2 ^ (j + 1)) by (rewrite Z.pow_add_r by lia; lia).
      assert (2 ^ (j + 1) ≤ 2 ^ 15) by (apply Z.pow_le_mono_r; lia). assert (2 ^ (j + 1) = 2 * 2 ^ j) by (rewrite Z.pow_add_r by lia; lia).
      rewrite (Hu (2 ^ (j + 1))) by lia. split; [apply Hnew; [lia|exists (j + 1); split; [lia|done]]|split; [done|lia]].
  - eexists. split; [done|]. rewrite Hblock. split; [|split; [done|lia]]. apply Hnew; [lia|]. destruct Hcap as [H0|?]; [lia|done].
Qed.

Definition plan_bytes (l : list disk_vec_t) : list Z := l ≫= vec_bytes.

(** Joining a sector to the element before it *)
Lemma joined p prev lba sofs bc :
  plan_ok p → vec_ok prev → vec_ok (DiskVec lba 1 sofs bc) → Z.of_nat (length (p_vec p)) < 32768 → joins p prev lba sofs bc = true →
  vec_ok (DiskVec (v_lba prev) (u32 (v_count prev + 1)) (v_sector_ofs prev) (v_byte_count prev))
  ∧ vec_bytes (DiskVec (v_lba prev) (u32 (v_count prev + 1)) (v_sector_ofs prev) (v_byte_count prev))
    = vec_bytes prev ++ vec_bytes (DiskVec lba 1 sofs bc).
Proof.
  intros [_ Hcount _ _ Hlog] [Hl [Hc Hone] Hp] [Hl' _ Hp'] Hn. cbn in Hl', Hp'. unfold joins. rewrite Hlog, Z.shiftl_mul_pow2, Z.mul_1_l by lia. rewrite Hcount.
  intros [[[[[H1 H2]%andb_true_iff H3]%andb_true_iff H4]%andb_true_iff H5]%andb_true_iff H6]%andb_true_iff.
  apply Z.eqb_eq in H1, H2, H3, H4, H5. apply Z.ltb_lt in H6. rewrite u64_small in H1 by lia. rewrite u32_small in H6 by lia.
  rewrite (u32_small (v_count prev + 1)) by lia. pose proof pow_a as Hpa.
  assert (∀ l c, full (DiskVec l c (v_sector_ofs prev) (v_byte_count prev)) = true) as Hfull.
  { intros l c. unfold full. cbn. by rewrite H2, H4, !Z.eqb_refl. }
  split; [split; cbn; [done|rewrite Hfull; split; [lia|done]|lia]|].
  unfold vec_bytes. rewrite Hfull. replace (full prev) with true by (unfold full; by rewrite H2, H4, !Z.eqb_refl).
  replace (full (DiskVec lba 1 sofs bc)) with true by (unfold full; cbn; by rewrite H3, H5, !Z.eqb_refl). cbn.
  replace (Z.to_nat ((v_count prev + 1) * 2 ^ a)) with (Z.to_nat (v_count prev * 2 ^ a) + Z.to_nat (1 * 2 ^ a))%nat by nia.
  rewrite bytes_at_plus. do 2 f_equal. nia.
Qed.

Lemma plan_add_run p lba sofs bc :
  plan_ok p → vec_ok (DiskVec lba 1 sofs bc) → Z.of_nat (length (p_vec p)) < 32768 →
  ∃ p', plan_add (λ n, heap_grants (16 * n)) p lba 1 sofs bc = Done (true, p') ∧ plan_ok p'
    ∧ plan_bytes (p_vec p') = plan_bytes (p_vec p) ++ vec_bytes (DiskVec lba 1 sofs bc) ∧ (length (p_vec p') ≤ S (length (p_vec p)))%nat.
Proof.
  intros Hp Hv Hn. pose proof Hp as [Hvec Hcount [Hblock Hlen] Hcap Hlog]. destruct (append_run p lba sofs bc Hp Hv Hn) as (q & Hq & Hok & Hqv & Hqc).
  unfold plan_add. rewrite Hq. cbv zeta iota. rewrite (proj2 (Z.ltb_lt (p_count q) (p_block q))) by done.
  set (appended := Plan (p_vec q ++ _) _ _ _ _). assert (∃ p', Done (true, appended) = Done (true, p') ∧ plan_ok p'
    ∧ plan_bytes (p_vec p') = plan_bytes (p_vec p) ++ vec_bytes (DiskVec lba 1 sofs bc) ∧ (length (p_vec p') ≤ S (length (p_vec p)))%nat) as Happend.
  { exists appended. split; [done|]. split; [done|]. subst appended. cbn. rewrite Hqv. unfold plan_bytes. rewrite bind_app. cbn. rewrite app_nil_r.
    split; [done|]. rewrite length_snoc. lia. }
  destruct (Z.ltb_spec 0 (p_count p)) as [Hpos|]; [|exact Happend].
  destruct (last (p_vec p)) as [prev|] eqn:Hlast; [|apply last_None in Hlast; rewrite Hcount, Hlast in Hpos; simpl in Hpos; lia].
  apply last_Some in Hlast as [l Hl]. replace (Z.to_nat (p_count p - 1)) with (length l) by (rewrite Hcount, Hl, length_snoc; lia).
  replace (p_vec p !! length l) with (Some prev) by (rewrite Hl; by rewrite list_lookup_middle).
  destruct (joins p prev lba sofs bc) eqn:Hj; [|exact Happend].
  assert (vec_ok prev) as Hprev by (rewrite Hl in Hvec; apply Forall_app in Hvec as [_ Hx]; by inversion Hx).
  destruct (joined p prev lba sofs bc Hp Hprev Hv Hn Hj) as [Hok' Hbytes]. set (x := DiskVec (v_lba prev) _ _ _) in *.
  assert (<[length l := x]> (p_vec p) = l ++ [x]) as -> by (rewrite Hl, insert_app_r_alt, Nat.sub_diag by done; done).
  eexists. split; [done|]. rewrite Hl, length_snoc in Hcount, Hlen. rewrite Hl in Hvec.
  split; [split; cbn; rewrite ?length_snoc; try done; apply Forall_app in Hvec as [? _]; apply Forall_app_2; [done|by apply Forall_singleton]|].
  cbn [p_vec]. unfold plan_bytes. rewrite Hl, !bind_app, <- app_assoc. cbn [mbind list_bind]. rewrite !app_nil_r, Hbytes. split; [done|]. rewrite !length_snoc. lia.
Qed.

Lemma vec_bytes_one lba sofs bc : vec_bytes (DiskVec lba 1 sofs bc) = bytes_at disk (lba * 2 ^ a + sofs) (Z.to_nat bc).
Proof.
  unfold vec_bytes, full. cbn. destruct (Z.eqb_spec sofs 0) as [->|]; [|done]. destruct (Z.eqb_spec bc (2 ^ a)) as [->|]; [|done]. cbn [andb].
  rewrite Z.add_0_r. f_equal. lia.
Qed.

(** Where a byte of a file is: the index of its cluster, the sector in it and
    the byte of that *)
Lemma file_place ofs :
  0 ≤ ofs →
  let q := ofs / 2 ^ a / 2 ^ k in let i := (ofs / 2 ^ a) mod 2 ^ k in let b := ofs mod 2 ^ a in
  ofs = q * 2 ^ (a + k) + i * 2 ^ a + b ∧ 0 ≤ q ∧ 0 ≤ i < 2 ^ k ∧ 0 ≤ b < 2 ^ a.
Proof.
  intros Hofs. cbv zeta. assert (0 < 2 ^ a ∧ 0 < 2 ^ k) as [Hpa Hpk] by (split; apply Z.pow_pos_nonneg; lia). rewrite Z.pow_add_r by lia.
  pose proof (Z.div_mod ofs (2 ^ a) ltac:(lia)). pose proof (Z.mod_pos_bound ofs (2 ^ a) ltac:(lia)).
  pose proof (Z.div_mod (ofs / 2 ^ a) (2 ^ k) ltac:(lia)). pose proof (Z.mod_pos_bound (ofs / 2 ^ a) (2 ^ k) ltac:(lia)).
  pose proof (Z.div_pos ofs (2 ^ a) ltac:(lia) ltac:(lia)). pose proof (Z.div_pos (ofs / 2 ^ a) (2 ^ k) ltac:(lia) ltac:(lia)). nia.
Qed.

(** What one turn of the planning loop asks for is a stretch of the file. *)
Lemma turn_bytes s c l ofs n :
  vol_ok s → chain s c l → 0 ≤ ofs → 0 < n → ofs mod 2 ^ a + n ≤ 2 ^ a → ofs < Z.of_nat (length l) * 2 ^ (a + k) →
  ∃ x, l !! Z.to_nat (ofs / 2 ^ a / 2 ^ k) = Some x
    ∧ let lba := cluster_lba s x + (ofs / 2 ^ a) mod 2 ^ k in
      lba_from_cluster s x = cluster_lba s x ∧ 0 ≤ lba < 2 ^ 31 ∧ vec_ok (DiskVec lba 1 (ofs mod 2 ^ a) n)
      ∧ vec_bytes (DiskVec lba 1 (ofs mod 2 ^ a) n) = take (Z.to_nat n) (drop (Z.to_nat ofs) (file_bytes s l)).
Proof.
  intros Hv Hch Hofs Hn Hfit Hin. pose proof (file_place ofs Hofs) as Hpl. cbv zeta in Hpl. destruct Hpl as (Heq & Hq & Hi & Hb).
  set (q := ofs / 2 ^ a / 2 ^ k) in *. set (i := (ofs / 2 ^ a) mod 2 ^ k) in *. set (b := ofs mod 2 ^ a) in *.
  assert (0 < 2 ^ a ∧ 0 < 2 ^ (a + k) ∧ 2 ^ (a + k) = 2 ^ k * 2 ^ a) as (Hpa & Hpak & Hmul).
  { split; [apply Z.pow_pos_nonneg; lia|]. split; [apply Z.pow_pos_nonneg; lia|]. rewrite Z.pow_add_r by lia. lia. }
  assert ((Z.to_nat q < length l)%nat) as Hlt by nia. destruct (lookup_lt_is_Some_2 l _ Hlt) as [x Hx]. exists x. split; [done|]. cbv zeta.
  destruct (lba_of_cluster s c l _ Hv Hch x Hx) as (Hlba & H0 & H31). split; [done|]. split; [lia|]. split.
  { split; cbn; [lia| |lia]. split; [lia|done]. }
  rewrite vec_bytes_one. replace (Z.to_nat ofs) with (Z.to_nat q * Z.to_nat (2 ^ (a + k)) + Z.to_nat (i * 2 ^ a + b))%nat by nia.
  rewrite (file_bytes_part s l _ x) by (done || nia). f_equal. nia.
Qed.

Lemma plan_loop_run s c l p bytes ofs turns :
  vol_ok s → chain s c l → plan_ok p → 0 ≤ bytes → 0 ≤ ofs → ofs + bytes ≤ 2 ^ 32 → ofs + bytes ≤ Z.of_nat (length l) * 2 ^ (a + k) →
  bytes = 0 ∨ Z.of_nat (length (p_vec p)) * 2 ^ a + (ofs mod 2 ^ a + bytes) ≤ 32768 * 2 ^ a → (Z.to_nat bytes ≤ turns)%nat →
  ∃ p', plan_loop heap_grants turns s l p bytes ofs = Done (true, p') ∧ plan_ok p'
    ∧ plan_bytes (p_vec p') = plan_bytes (p_vec p) ++ take (Z.to_nat bytes) (drop (Z.to_nat ofs) (file_bytes s l)).
Proof.
  intros Hv Hch. revert p bytes ofs. induction turns as [|turns IH]; intros p bytes ofs Hp Hbytes Hofs Hmax Hin Hroom Hturns; cbn [plan_loop];
    (destruct (Z.eqb_spec bytes 0) as [->|Hne]; [exists p; split; [done|]; split; [done|]; by rewrite app_nil_r|]); [lia|].
  pose proof Hv as [[Hl2 Hsz] [Hlk Hspc] _ _ _]. pose proof pow_a as Hpa. pose proof (file_place ofs Hofs) as (_ & Hq & Hi & Hb).
  set (b := ofs mod 2 ^ a) in *. destruct Hroom as [?|Hroom]; [lia|].
  set (n := if bytes <? 2 ^ a - b then bytes else 2 ^ a - b). assert (0 < n ≤ bytes ∧ b + n ≤ 2 ^ a ∧ (n = bytes ∨ n = 2 ^ a - b)) as (Hn & Hfit & Hwhich).
  { subst n. destruct (Z.ltb_spec bytes (2 ^ a - b)); lia. }
  destruct (turn_bytes s c l ofs n Hv Hch Hofs ltac:(lia) Hfit ltac:(lia)) as (x & Hx & Hlba & Hr & Hvo & Hvb). fold b in Hvo, Hvb.
  assert (0 ≤ ofs / 2 ^ a < 2 ^ 32) as Hso.
  { split; [apply Z.div_pos; lia|]. apply Z.div_lt_upper_bound; nia. }
  rewrite Hl2, Hsz, Hlk, Hspc, !Z.shiftr_div_pow2, (u32_small (ofs / 2 ^ a)), !land_low_mask by lia. fold b. rewrite (u16_small b) by lia.
  rewrite (u16_small (2 ^ a - b)) by lia. rewrite Hx.
  assert ((if bytes <? 2 ^ a - b then u16 bytes else 2 ^ a - b) = n) as ->.
  { subst n. destruct (Z.ltb_spec bytes (2 ^ a - b)); [apply u16_small; lia|done]. }
  rewrite Hlba, u32_small by lia.
  destruct (plan_add_run p _ _ _ Hp Hvo ltac:(nia)) as (p1 & Hadd & Hp1 & Hb1 & Hlen1). rewrite Hadd. cbn [obind].
  destruct (IH p1 (bytes - n) (ofs + n)) as (p2 & Hloop & Hp2 & Hb2); [done|lia|lia|lia|lia| |lia|].
  { destruct Hwhich as [->| ->]; [by left; lia|]. right. replace (ofs + (2 ^ a - b)) with ((ofs / 2 ^ a + 1) * 2 ^ a).
    - rewrite Z.mod_mul by lia. nia.
    - pose proof (Z.div_mod ofs (2 ^ a) ltac:(lia)) as Hdm. fold b in Hdm. lia. }
  exists p2. split; [done|]. split; [done|]. rewrite Hb2, Hb1, Hvb, <- app_assoc. f_equal.
  replace (Z.to_nat (ofs + n)) with (Z.to_nat ofs + Z.to_nat n)%nat by lia.
  rewrite <- drop_drop, take_take_drop. f_equal. lia.
Qed.

Lemma run_plan_run s l total :
  vol_ok s → Forall vec_ok l → 0 ≤ total → total + Z.of_nat (length (plan_bytes l)) < 2 ^ 31 →
  ∃ s', run_plan disk_read_lba l total s = Done ((Some (total + Z.of_nat (length (plan_bytes l))), plan_bytes l), s') ∧ same_vol s s' ∧ vol_ok s'.
Proof.
  intros Hv Hl. revert s total Hv. induction Hl as [|v l Hvo Hl IH]; intros s total Hv Ht Hsum.
  - exists s. split; [|done]. simpl. by rewrite Z.add_0_r.
  - unfold plan_bytes in Hsum |- *. rewrite bind_cons in Hsum |- *. fold (plan_bytes l) in Hsum |- *. rewrite length_app in Hsum |- *.
    pose proof (length_vec_bytes v Hvo) as Hlen. pose proof Hvo as [Hlba [Hc Hone] Hpart]. pose proof Hv as [[_ Hsz] _ _ _ _]. pose proof pow_a as Hpa.
    assert (s32 (total + u32 (v_byte_count v * v_count v)) = total + Z.of_nat (length (vec_bytes v))) as Htot.
    { rewrite <- Hlen, u32_small, s32_small by lia. done. }
    cbn [run_plan]. run. unfold id. rewrite Hsz. fold (full v). rewrite Htot. destruct (full v) eqn:Hfull.
    + rewrite Hdisk by lia. destruct (IH s (total + Z.of_nat (length (vec_bytes v))) Hv ltac:(lia) ltac:(lia)) as (s' & Hrun & Hs & Hv').
      rewrite (bind_done _ _ _ _ _ Hrun). exists s'. split; [|done].
      replace (bytes_at disk (v_lba v * 2 ^ a) (Z.to_nat (v_count v * 2 ^ a))) with (vec_bytes v) by (unfold vec_bytes; by rewrite Hfull).
      by rewrite <- Z.add_assoc, <- Nat2Z.inj_add.
    + unfold read_sector. rewrite read_one by lia. rewrite bind_assoc. run. cbn [negb]. run. unfold id. cbn [sector_buffer set_sector].
      destruct (IH (set_sector (sector_at (v_lba v)) s) (total + Z.of_nat (length (vec_bytes v))) (set_sector_ok _ _ Hv) ltac:(lia) ltac:(lia)) as (s' & Hrun & Hs & Hv').
      rewrite (bind_done _ _ _ _ _ Hrun). exists s'. split; [|done].
      replace (take _ (drop _ (sector_at (v_lba v)))) with (vec_bytes v); [by rewrite <- Z.add_assoc, <- Nat2Z.inj_add|].
      unfold vec_bytes, sector_at. rewrite Hfull, sub_bytes_at by lia. do 2 f_equal. lia.
Qed.

(** An open file: its clusters are known, or will be read from the first. *)
Definition opened (s : bootfat) (file : nat) (c : Z) (l : list Z) : Prop :=
  ∃ it, file_handles s !! file = Some it ∧ (clusters it = Some l ∨ clusters it = None ∧ cluster it = c).


(** ** Directories *)

(** Sectors of a cluster and entries of a sector *)
Definition per_cluster : nat := Z.to_nat (2 ^ k).
Definition per_sector : nat := Z.to_nat (2 ^ (a - 5)).

Lemma per_facts : Z.of_nat per_cluster = 2 ^ k ∧ (0 < per_cluster)%nat ∧ (0 < per_sector)%nat ∧ Z.of_nat per_sector * 32 = 2 ^ a ∧ Z.of_nat per_sector = 2 ^ a / 32
  ∧ 2 ^ (a + k) = 2 ^ a * 2 ^ k ∧ Z.of_nat per_cluster ≤ 128.
Proof.
  unfold per_cluster, per_sector. pose proof (Z.pow_pos_nonneg 2 k). pose proof (Z.pow_pos_nonneg 2 (a - 5)).
  assert (2 ^ a = 2 ^ (a - 5) * 32) as Hp by (replace a with (a - 5 + 5) at 1 by lia; rewrite Z.pow_add_r by lia; done).
  assert (2 ^ k ≤ 2 ^ 7) by (apply Z.pow_le_mono_r; lia).
  split_and!; try lia. - rewrite Hp, Z.div_mul by lia. lia. - apply Z.pow_add_r; lia.
Qed.

Definition dir_size (l : list Z) : nat := length l * per_cluster * per_sector.
Definition dir_entry (s : bootfat) (l : list Z) (j : nat) : fat32_dir_union_t := take 32 (drop (32 * j) (file_bytes s l)).
Definition dir_entries (s : bootfat) (l : list Z) : list fat32_dir_union_t := dir_entry s l <$> seq 0 (dir_size l).

(** The search of a list of entries *)
Fixpoint search (pattern : list fat32_dir_union_t) (lfn_entries match_index : nat) (sum : Z) (es : list fat32_dir_union_t) : outcome (Z * Z) :=
  match es with
  | [] => Done (0, 0)
  | e :: es =>
      match match_step pattern lfn_entries match_index sum e with
      | Fault f => Fault f
      | Done (inl found) => Done found
      | Done (inr (match_index, sum)) => search pattern lfn_entries match_index sum es
      end
  end.

(** The iterator is at entry [e] of sector [o] of cluster [q]. *)
Record at_entry (s : bootfat) (l : list Z) (q o e : nat) (d : dir_iterator_t) : Prop := {
  ae_cluster : l !! q = Some (cluster (dir_file d));
  ae_sector : (o < per_cluster)%nat ∧ sector_offset (dir_file d) = Z.of_nat o ∧ position (dir_file d) = Z.of_nat (q * per_cluster + o);
  ae_entry : (e < per_sector)%nat ∧ sector_index d = Z.of_nat e;
  ae_list : clusters (dir_file d) = Some l ∧ cluster_count (dir_file d) = Z.of_nat (length l) ∧ ok (dir_file d) = true;
  ae_buffer : sector_buffer s = sector_at (cluster_lba s (cluster (dir_file d)) + Z.of_nat o)
}.

Lemma current_entry s l q o e d :
  at_entry s l q o e d → read_directory_current s d = Some (dir_entry s l ((q * per_cluster + o) * per_sector + e)).
Proof.
  intros [Hc [Ho _] [He Hi] [_ [_ Hok]] Hb]. destruct per_facts as (HK & HK0 & HE0 & HE & _ & Hak & _).
  unfold read_directory_current, dir_entry. rewrite Hok, Hb, Hi. f_equal. unfold sector_at. rewrite sub_bytes_at by nia.
  replace (32 * ((q * per_cluster + o) * per_sector + e))%nat with (q * Z.to_nat (2 ^ (a + k)) + (o * per_sector * 32 + e * 32))%nat.
  - rewrite (file_bytes_part s l q (cluster (dir_file d))) by (done || nia). f_equal. nia.
  - rewrite Hak, <- HE, <- HK. nia.
Qed.

Section directory.
Context (s0 : bootfat) (c0 : Z) (l : list Z).
Hypothesis Hchain : chain s0 c0 l.
Hypothesis Hlen : Z.of_nat (length l) < 2 ^ 24.
(** One cluster, or clusters of one sector *)
Hypothesis Hflat : k = 0 ∨ length l = 1%nat.
Hypothesis Hbytes : bytes_per_sec (bpb s0) = 2 ^ a.

Lemma fetch_run s it :
  same_vol s0 s → vol_ok s → cluster it ∈ l → 0 ≤ sector_offset it < 2 ^ k →
  ∃ s', (good ← read_sector disk_read_lba (u32 (lba_from_cluster s (cluster it) + sector_offset it)); mret (if good : bool then 1 else -1, with_ok good it)) s
        = Done ((1, with_ok true it), s') ∧ same_vol s0 s' ∧ vol_ok s' ∧ sector_buffer s' = sector_at (cluster_lba s (cluster it) + sector_offset it).
Proof.
  intros Hs Hv [i Hi]%list_elem_of_lookup Ho. destruct (lba_of_cluster s c0 l i Hv (chain_same _ _ _ _ Hs Hchain) _ Hi) as (Hlba & H0 & H31).
  unfold read_sector. rewrite Hlba, u32_small, read_one by lia. rewrite bind_assoc. run.
  eexists. split; [done|]. split; [done|]. split; [by apply set_sector_ok|done].
Qed.

Lemma not_eof c i : l !! i = Some c → is_eof_cluster c = false ∧ c ≠ 0 ∧ c ≠ 0xFFFFFFFF.
Proof.
  revert i. pose proof Hchain as Hch. clear -Hch. revert c0 Hch. induction l as [|x l' IH]; intros c0 Hch i Hi; [done|].
  destruct Hch as (-> & Hc & _ & Hch). destruct i as [|i]; simplify_eq/=; [|by eapply IH]. unfold is_eof_cluster. lia.
Qed.

(** The next sector: of the cluster, of the next cluster, or none *)
Lemma sector_next_run s q o e d :
  same_vol s0 s → vol_ok s → at_entry s l q o e d →
  (S (q * per_cluster + o) < length l * per_cluster)%nat ∧
    (∃ s' it' q' o', sector_iterator_next disk_read_lba (dir_file d) s = Done ((1, it'), s') ∧ same_vol s0 s' ∧ vol_ok s'
       ∧ at_entry s' l q' o' 0 (DirIter it' 0) ∧ S (q * per_cluster + o) = (q' * per_cluster + o')%nat)
  ∨ (S (q * per_cluster + o) = length l * per_cluster)%nat ∧ ∃ s' it', sector_iterator_next disk_read_lba (dir_file d) s = Done ((0, it'), s').
Proof.
  intros Hs Hv Hat. pose proof Hat as [Hc [Ho [Hso Hpos]] [He Hi] [Hcl [Hcc Hok]] Hb]. destruct per_facts as (HK & HK0 & HE0 & HE & HE' & Hak & HK128).
  pose proof (lookup_lt_Some _ _ _ Hc) as Hq. pose proof Hs as (Hbpb & _). pose proof Hv as [_ [_ Hspc] _ _ _].
  unfold sector_iterator_next. destruct (not_eof _ _ Hc) as (Heof & _). rewrite Heof. run. unfold id.
  rewrite Hso, Hpos, Hspc, (u16_small (Z.of_nat o + 1)), (u32_small (Z.of_nat (q * per_cluster + o) + 1)) by nia.
  destruct (Z.eqb_spec (Z.of_nat o + 1) (2 ^ k)) as [Hend|Hgo].
  - assert (o = (per_cluster - 1)%nat) as -> by lia. cbn [cluster_count clusters]. rewrite Hcc, Hcl.
    destruct (Z.leb_spec (Z.of_nat (length l)) (Z.of_nat (q * per_cluster + (per_cluster - 1)) + 1)) as [Hdone|Hin].
    { right. split; [|by eexists _, _]. destruct Hflat as [Hk0|H1]; [rewrite Hk0 in HK; change (2 ^ 0) with 1 in HK; nia|rewrite H1 in *; nia]. }
    left. destruct Hflat as [Hk0|H1]; [|nia]. rewrite Hk0 in HK. change (2 ^ 0) with 1 in HK. assert (per_cluster = 1%nat) as HK1 by lia.
    rewrite HK1 in *. replace (Z.to_nat (Z.of_nat (q * 1 + (1 - 1)) + 1)) with (S q) by lia.
    destruct (lookup_lt_is_Some_2 l (S q) ltac:(lia)) as [c' Hc']. rewrite Hc'. destruct (not_eof _ _ Hc') as (_ & Hn0 & HnF).
    rewrite (proj2 (Z.eqb_neq _ _) Hn0), (proj2 (Z.eqb_neq _ _) HnF). split; [lia|]. set (it := Iter _ c' _ _ _ _ _ _).
    destruct (fetch_run s it Hs Hv) as (s' & Hf & Hs' & Hv' & Hb'); [apply list_elem_of_lookup; by exists (S q)|cbn; lia|].
    exists s', (with_ok true it), (S q), 0%nat. split; [exact Hf|]. split; [done|]. split; [done|]. split; [|lia].
    split; cbn; rewrite ?HK1; try done; [split; [lia|split; [done|lia]]|].
    cbn in Hb'. rewrite Hb'. destruct Hs' as (Hb1 & _). unfold cluster_lba. by rewrite Hb1, Hbpb.
  - left. split; [nia|]. set (it := Iter _ _ _ _ _ _ _ _).
    destruct (fetch_run s it Hs Hv) as (s' & Hf & Hs' & Hv' & Hb'); [apply list_elem_of_lookup; by exists q|cbn; lia|].
    exists s', (with_ok true it), q, (S o). split; [exact Hf|]. split; [done|]. split; [done|]. split; [|lia].
    split; cbn; try done; [split; [lia|split; lia]|].
    cbn in Hb'. rewrite Hb'. destruct Hs' as (Hb1 & _). unfold cluster_lba. rewrite Hb1, Hbpb. do 2 f_equal. lia.
Qed.

(** Moving on from an entry: to the next one, or to the end behind the last *)
Lemma move_next_run s q o e d :
  same_vol s0 s → vol_ok s → at_entry s l q o e d →
  let j := S ((q * per_cluster + o) * per_sector + e) in
  (∃ s' d' q' o' e', read_directory_move_next disk_read_lba d s = Done ((1, d'), s') ∧ same_vol s0 s' ∧ vol_ok s' ∧ at_entry s' l q' o' e' d'
     ∧ j = ((q' * per_cluster + o') * per_sector + e')%nat)
  ∨ j = dir_size l ∧ ∃ s' d', read_directory_move_next disk_read_lba d s = Done ((0, d'), s').
Proof.
  intros Hs Hv Hat j. pose proof Hat as [Hc [Ho [Hso Hpos]] [He Hi] Hl Hb]. destruct per_facts as (HK & HK0 & HE0 & HE & HE' & Hak & HK128).
  pose proof Hs as (Hbpb & _). unfold read_directory_move_next, dir_size. run. unfold id. rewrite Hbpb, Hbytes, <- HE', Hi.
  destruct (Z.leb_spec (Z.of_nat per_sector) (Z.of_nat e + 1)) as [Hlast|Hmore]; last first.
  { left. eexists s, _, q, o, (S e). split; [done|]. split; [done|]. split; [done|]. split; [|subst j; lia].
    split; cbn; try done; split; try done; lia. }
  destruct (sector_next_run s q o e d Hs Hv Hat) as [(_ & s' & it' & q' & o' & Hn & Hs' & Hv' & Hat' & Hp)|(Hp & s' & it' & Hn)];
    rewrite (bind_done _ _ _ _ _ Hn).
  - left. eexists s', _, q', o', 0%nat. split; [done|]. split; [done|]. split; [done|]. split; [done|]. subst j. rewrite <- Hp. nia.
  - right. split; [subst j; rewrite <- Hp; nia|]. by eexists _, _.
Qed.

Lemma find_loop_run n pattern lfn idx sum s q o e d fuel :
  same_vol s0 s → vol_ok s → at_entry s l q o e d →
  (n + ((q * per_cluster + o) * per_sector + e) = dir_size l)%nat → (n < fuel)%nat →
  match search pattern lfn idx sum (dir_entry s0 l <$> seq ((q * per_cluster + o) * per_sector + e) n) with
  | Done r => ∃ s', find_loop disk_read_lba fuel pattern lfn idx sum 1 d s = Done (r, s')
  | Fault f => find_loop disk_read_lba fuel pattern lfn idx sum 1 d s = Fault f
  end.
Proof.
  revert idx sum s q o e d fuel. induction n as [|n IH]; intros idx sum s q o e d fuel Hs Hv Hat Hn Hf.
  { pose proof Hat as [Hc [Ho _] [He _] _ _]. apply lookup_lt_Some in Hc. unfold dir_size in Hn. destruct per_facts as (_ & HK0 & HE0 & _).
    assert (q * per_cluster + o < length l * per_cluster)%nat by nia. nia. }
  destruct fuel as [|fuel]; [lia|]. cbn [find_loop seq fmap list_fmap search]. change (1 <=? 0) with false. cbv iota. run. unfold id. rewrite (current_entry _ _ _ _ _ _ Hat).
  assert (∀ j, dir_entry s l j = dir_entry s0 l j) as Hent.
  { intros j. destruct Hs as (Hb & _). unfold dir_entry, file_bytes, cluster_lba. by rewrite Hb. }
  rewrite Hent. destruct (match_step _ _ _ _ _) as [[found|[idx' sum']]|f]; [by eexists| |done].
  destruct (move_next_run s q o e d Hs Hv Hat) as [(s' & d' & q' & o' & e' & Hm & Hs' & Hv' & Hat' & Hj)|(Hj & s' & d' & Hm)];
    rewrite (bind_done _ _ _ _ _ Hm).
  - rewrite Hj. apply IH; [done|done|done|lia|lia].
  - assert (n = 0%nat) as -> by lia. cbn. destruct fuel as [|fuel]; [lia|]. by eexists.
Qed.

End directory.
End reading.

(** * Concrete volumes *)

Definition put_long (w : Z) : list Z := [w mod 256; w / 256 mod 256; w / 65536 mod 256; w / 16777216 mod 256].

(** Sectors of 32 bytes; the table is in sector 1, and cluster [c] starts at
    sector [begin + c * 2 ^ k]. *)
Definition tiny_read (disk : Z → Z) (lba n : Z) : option (list Z) := Some (bytes_at disk (lba * 32) (Z.to_nat (n * 32))).
Definition tiny (spc begin root : Z) : bootfat :=
  BootFat (Bpb 32 spc 1 1 1 root 0 0 1 begin) (replicate MAX_HANDLES iter_reset) 0 [] [] 0 32 5 (Z.log2 spc).

(** The bytes of the sectors of a list of pairs, 0 elsewhere *)
Definition sectors (l : list (Z * list Z)) (x : Z) : Z :=
  match list_find (λ p, p.1 = x / 32) l with
  | Some (_, (_, b)) => default 0 (b !! Z.to_nat (x mod 32))
  | None => 0
  end.

(** A file in clusters 2, 5 and 3, of one sector each *)
Definition scattered : Z → Z :=
  sectors [(1, concat (put_long <$> [0; 0; 5; 0x0FFFFFFF; 0; 3; 0; 0])); (2, replicate 32 11); (3, replicate 32 33); (5, replicate 32 22)].
Definition scattered_open : bootfat := set_handles [Iter 0 2 0 0 false 90 None 0; iter_reset; iter_reset; iter_reset; iter_reset] (tiny 1 0 2).

Lemma tiny_volume s spc begin root h :
  s = set_handles h (tiny spc begin root) → spc = 1 ∨ spc = 2 → 0 ≤ begin < 2 ^ 31 → ∀ disk, vol_ok disk 5 (Z.log2 spc) s.
Proof. intros -> Hspc Hb disk. split; cbn; try done; [by destruct Hspc as [->| ->]|lia..]. Qed.


(** A short entry: name, attribute, first cluster and size *)
Definition short_dirent (n : list Z) (at_ c size : Z) : list Z := n ++ [at_] ++ replicate 14 0 ++ [c; 0] ++ put_long size.
(** read.me, in a directory of one sector *)
Definition read_me : list Z := [82;69;65;68;32;32;32;32;77;69;32].
Definition one_dir : Z → Z := sectors [(1, concat (put_long <$> [0; 0; 0x0FFFFFFF])); (2, short_dirent read_me 32 7 90)].


(** The kernel that the loader asks for: the entries that the kernel's FAT32
    makes for that name are found by it. *)
Definition kernel_name : list Z := [100;103;111;115;45;107;101;114;110;101;108;45;103;101;110;101;114;105;99].
Example kernel_is_found :
  ∃ frs, dirents_from_name (kernel_name ++ [0]) 19 = Done (FullLfn frs 2)
  ∧ ∃ pieces, name_pattern (λ _, true) (replicate 32 0) kernel_name = Done (Some (pieces, 2%nat))
  ∧ search pieces 2 0 0 (take 3 (imap (λ i e, if decide (i = 2%nat) then set_start_cluster 9 e else e) frs)) = Done (9, 0).
Proof. eexists. split; [vm_compute; reflexivity|]. eexists. split; [vm_compute; reflexivity|]. vm_compute. reflexivity. Qed.

(** ** Where the code departs from what it means to do *)

(** The clusters of a directory are indexed by the number of sectors: with two
    sectors in a cluster, the second cluster is not looked at. *)
Definition two_dir : Z → Z :=
  sectors [(1, concat (put_long <$> [0; 0; 3; 0x0FFFFFFF])); (4, short_dirent (replicate 11 65) 32 7 90); (6, short_dirent read_me 32 7 90)].
Example second_cluster_unseen :
  let s := tiny 2 0 2 in
  chain two_dir 5 1 s 2 [2; 3] ∧ dir_entries two_dir 5 1 s [2; 3] !! 2%nat = Some (short_dirent read_me 32 7 90)
  ∧ ∃ s', find_file_by_name (tiny_read two_dir) (λ _, true) (replicate 32 0) 10 [114; 101; 97; 100; 46; 109; 101] 2 s = Done ((0, 0), s').
Proof. split; [vm_compute; intuition discriminate|]. split; [vm_compute; done|]. eexists. vm_compute. done. Qed.

(** A handle counts as free until its file has been read from, so two files
    opened one after the other have the same handle; and closing a file that
    was not read from reports an error. *)
Example same_handle :
  let op := fat32_boot_open (tiny_read one_dir) (λ _, true) (replicate 32 0) 3 [114; 101; 97; 100; 46; 109; 101] in
  ∃ s', (h ← op; h' ← op; r ← fat32_boot_close h; mret (h, h', r)) (tiny 1 0 2) = Done ((0, 0, 1), s').
Proof. eexists. vm_compute. done. Qed.

(** A name in upper case is looked for as a long name, which a file of that
    short name does not have. *)
Example upper_case_unseen :
  ∃ pieces n, name_pattern (λ _, true) (replicate 32 0) [82; 69; 65; 68; 46; 77; 69] = Done (Some (pieces, n))
  ∧ search pieces n 0 0 [short_dirent read_me 32 7 90] = Done (0, 0).
Proof. eexists _, _. split; vm_compute; reflexivity. Qed.

(** Characters other than letters and digits become underscores, also those
    that short names may have. *)
Example dash_changed :
  ∃ pattern, name_pattern (λ _, true) (replicate 32 0) [97; 45; 98] = Done (Some (pattern, 0%nat))
  ∧ search pattern 0 0 0 [short_dirent [65; 45; 66; 32; 32; 32; 32; 32; 32; 32; 32] 32 7 90] = Done (0, 0).
Proof. eexists. split; vm_compute; reflexivity. Qed.

(** A name of 255 units and its null do not fit in encoded_name. *)
Example encoded_name_overrun : name_pattern (λ _, true) (replicate 32 0) (replicate 255 97) = Fault OutOfRange.
Proof. vm_compute. done. Qed.

(** The attribute of what is looked for is what malloc's memory holds. *)
Example raw_attribute :
  ∃ pattern, name_pattern (λ _, true) (replicate 32 FAT_LONGNAME) [114; 101; 97; 100; 46; 109; 101] = Done (Some (pattern, 0%nat))
  ∧ search pattern 0 0 0 [short_dirent read_me 32 7 90] = Done (0, 0).
Proof. eexists. split; vm_compute; reflexivity. Qed.

(** The search does not stop at the end mark of a directory. *)
Example found_behind_the_end :
  ∃ pattern, name_pattern (λ _, true) (replicate 32 0) [114; 101; 97; 100; 46; 109; 101] = Done (Some (pattern, 0%nat))
  ∧ search pattern 0 0 0 [replicate 32 0; short_dirent read_me 32 7 90] = Done (7, 90).
Proof. eexists. split; vm_compute; reflexivity. Qed.

(** A disk error in the middle of a read is returned as 0, and reading behind
    the last cluster indexes behind the list. *)
Example read_error_is_end :
  let disk lba n := if lba =? 5 then None else tiny_read scattered lba n in
  ∃ s', fat32_boot_pread disk (λ _, true) 4 0 60 20 scattered_open = Done ((0, replicate 12 11), s').
Proof. eexists. vm_compute. done. Qed.
Example read_behind_the_end : fat32_boot_pread (tiny_read scattered) (λ _, true) 4 0 10 96 scattered_open = Fault OutOfRange.
Proof. vm_compute. done. Qed.

(** The capacity of a plan has 16 bits: when 32768 elements are doubled it is
    0, and the next element reallocates the block to 16 and is stored behind. *)
Lemma plan_overrun v :
  length v = Z.to_nat 32768 → v !! Z.to_nat 32767 = Some (DiskVec 0 1 0 32) →
  ∃ p, plan_add (λ _, true) (Plan v 32768 32768 32768 5) 7 1 0 32 = Done (true, p) ∧ p_capacity p = 0
  ∧ plan_add (λ _, true) p 9 1 0 32 = Fault OutOfRange.
Proof.
  intros Hlen Hlast. eexists. split; [|split].
  - unfold plan_add. cbn [p_count p_vec]. change (0 <? 32768) with true. cbv iota. change (32768 - 1) with 32767. rewrite Hlast. reflexivity.
  - reflexivity.
  - unfold plan_add. cbn [p_count p_vec]. change (u16 (32768 + 1)) with 32769. change (0 <? 32769) with true. cbv iota.
    change (32769 - 1) with 32768. rewrite list_lookup_middle by done. reflexivity.
Qed.

(** A chain that is a ring is walked for ever. *)
Definition ring : Z → Z := sectors [(1, concat (put_long <$> [0; 0; 2]))].
Lemma ring_never_ends fuel : walk_chain (tiny_read ring) fuel 2 (tiny 1 0 2) = Fault OutOfFuel.
Proof.
  assert (∀ s, vol_ok ring 5 0 s → bpb s = bpb (tiny 1 0 2) → walk_chain (tiny_read ring) fuel 2 s = Fault OutOfFuel) as H.
  { induction fuel as [|fuel IH]; intros s Hv Hb; [done|]. cbn [walk_chain]. change (is_eof_cluster 2) with false. cbv iota.
    destruct (next_cluster_run ring (tiny_read ring) 5 0 ltac:(lia) ltac:(lia) ltac:(done) s 2 Hv ltac:(lia)) as (s' & Hn & (Hb' & _) & Hv').
    rewrite (bind_done _ _ _ _ _ Hn). replace (link ring 5 s 2) with 2 by (unfold link; rewrite Hb; vm_compute; done).
    apply bind_fault. apply IH; [done|congruence]. }
  apply H; [|done]. eapply (tiny_volume _ 1 0 2); [reflexivity|by left|lia].
Qed.
